(* ===== verification/_CoqProject ===== *)
-Q . S2P
Prelude.v
OrdMap.v
Bytes.v
Identity.v
Text.v
LtxTypes.v
Lz4.v
Ltx.v
LtxCodec.v
PagedIndex.v
DirectoryNode.v
ReplicaCache.v
Directory.v
DirectoryShape.v
DirectoryUpdate.v
Pages.v
Recovery.v
NodeFrame.v
Wal.v
Control.v
ControlCodec.v
Root.v
Merge.v
Graph.v
Segments.v
DirectoryBuild.v
Preparation.v
Publication.v
Authority.v
Coordination.v
NodeLog.v
FollowerRecords.v
FollowerDisk.v
FollowerLane.v
FollowerCrash.v
FollowerSafety.v
FollowerAppend.v
FollowerBatch.v
FollowerHistory.v
Wire.v
Placement.v
Pressure.v
Scheduler.v
