(* ===== verification/Prelude.v ===== *)
(** * Cellule: a verification library

    Cellule hosts Cells: single-writer SQLite databases whose ownership, published
    root and recovery state live in one object-store record per Cell. The nodes of a
    fleet serve Cells, replicate them through node logs, and move, recover and
    maintain them. This library models the decision logic of the
    [cellule-runtime] crate and the formats, indexes and replicas of the
    [cellule-ltx] crate as executable definitions and proves the properties the rest
    of the system leans on. Paths below are relative to
    [src/crates/cellule-runtime/src] or, where they start with [ltx:], to
    [src/crates/cellule-ltx/src].

    ** The program's parts and how they interact

    A Cell's _control record_ ([control/mod.rs]) is its whole authority: an owner
    under an epoch, a published root, a recovery overlay, a bundle binding. It is
    stored as canonical JSON ([control/codec.rs]) and changed only through
    [CellAuthority] ([control/authority/]), which validates a proposed successor
    against the observed record and writes it with compare-and-swap, after
    retaining the departing owner's record in the owner history. On the owning
    node an actor consults the _coordination kernel_ ([coordination/mod.rs]) for
    every input: admission, the foreground slot, renewal, publication, migration,
    shutdown, fencing. The node itself holds a _lease_ ([node/lease.rs]) and a
    _follower log_ ([node/log_state.rs]) which, when the node dies, another session
    recovers under an expiring claim. The _fleet_ modules place Cells on nodes
    ([fleet/placement/]), classify pressure and pace movement
    ([fleet/pressure.rs]), and elect scanners and run bounded maintenance
    ([fleet/scheduler.rs]). Messages between them use a bounded wire codec
    ([codec.rs]).

    The data of a Cell moves as _LTX segments_ (ltx: [ltx.rs], [codec.rs],
    [lz4_block.rs]): the pages one range of transactions changed, read off the
    SQLite write-ahead log (ltx: [wal.rs]), compressed and checksummed, with a
    rolling checksum over the whole database (ltx: [pages.rs]). A node ships a
    segment to its followers in a _node frame_ (ltx: [node_frame.rs]), which a
    follower keeps in a _lane_ of chunk files until object storage covers it
    ([follower/]) and serves to whoever recovers a dead node's log; a chain of
    segments is verified, materialized and compacted by a _recovery plan_ (ltx:
    [recovery.rs]). A _replica_ publishes segments to the object store: each with an
    index of its frames (ltx: [paged.rs]), under a _page directory_ that locates the
    newest frame of every page (ltx: [replica/directory/]), under a _root document_
    (ltx: [replica/root.rs]) whose digest the control record names. The first root
    builds its directory from the merged indexes of its segments, later roots update
    the directory of their base; readers look pages up in it through a cache (ltx:
    [replica/cache.rs]).

    ** Files

    - [Prelude] (this file): the [result] monad, machine integers with their checked,
      saturating and wrapping operations, bytes, big-endian words and fixed-width
      arrays, comparators and sorting, list sums; the hint and rewrite databases
      and the tactics the components share.
    - [OrdMap]: ordered maps ([BTreeMap]) and [slice::chunk_by].
    - [Bytes], [Text]: slices, little-endian words and bit operations; decimal text.
    - [Identity]: [identity.rs] and the errors of [error.rs] that modelled code
      returns. Identities, hex text, Cell targets and the Cell ID preimage.

    Storage formats:
    - [LtxTypes]: ltx: [types.rs], [error.rs].
    - [Lz4]: ltx: [lz4_block.rs], the compressor, against the LZ4 block format.
    - [Ltx], [LtxCodec]: ltx: [ltx.rs], [codec.rs]. Headers, trailers, checksums; the
      encoder and the decoder as operations on their state.
    - [PagedIndex]: ltx: [paged.rs].
    - [Pages]: ltx: [pages.rs], the bounded file operations of [host.rs].
    - [Recovery]: ltx: [recovery.rs].
    - [NodeFrame]: ltx: [node_frame.rs].
    - [Wal]: ltx: [wal.rs], [wal_checksum] of [lib.rs].

    Replicas:
    - [DirectoryNode], [Directory]: ltx: [replica/directory/mod.rs]. The nodes, and the
      lookups over a [NodeReader], an interface that the cached and the uncached
      readers of the code implement.
    - [ReplicaCache]: ltx: [replica/cache.rs].
    - [DirectoryShape]: the directory a list of entries has, the reference for
      the builders.
    - [DirectoryUpdate]: ltx: [replica/directory/update.rs].
    - [Root]: ltx: [replica/root.rs].
    - [Merge]: ltx: [replica/merge.rs], the cursors of [directory/initial.rs],
      [directory_changes] and [object_extents] of [replica/mod.rs].
    - [Segments]: what a chain of validated segments leaves is admissible.
    - [DirectoryBuild]: ltx: [replica/directory/initial.rs], [replica/upload.rs]. The
      build over an [ObjectWriter], which the replica's uploads implement.
    - [Preparation]: ltx: [finish_preparation] of [replica/prepare.rs].
    - [Graph]: ltx: [replica/verify.rs]. Loading a root and its descriptors.
    - [Publication]: ltx: [finish_root] of [replica/prepare.rs].

    Followers:
    - [FollowerRecords]: the records of [follower/records/], the scan of a chunk, the
      index reservation.
    - [FollowerDisk]: files, directories, crashes and failing calls; the disk budget
      (ltx: [environment/host/budget.rs]) and [follower/accounting/]; the monad in which
      lane operations run, and a logic for its runs.
    - [FollowerLane]: [follower/records/append.rs], [follower/records/scan.rs],
      [follower/directory.rs] and [FollowerStore::append_inner]. Every operation of a
      lane: append, seal, retire, tail pages, scrub.
    - [FollowerCrash], [FollowerSafety]: the disks from which a restart finds what it
      should, and that crashes and restarts keep to them.
    - [FollowerAppend], [FollowerBatch]: every disk of an append is such a disk, whatever
      calls to the file system fail.
    - [FollowerHistory]: the life of a lane as a step relation, and its theorems.

    Authority and fleet:
    - [Control]: [control/mod.rs]. [Control], [validate], one [bad_*] predicate per
      arm of [validate_transition], and every builder ([renew], [takeover],
      [publish_prepared], ...).
    - [ControlCodec]: [control/codec.rs]. The raw record, both conversions, decimal
      and hex text; [Control::encode] and [decode]. serde_json is the class
      [SerdeJson].
    - [Authority]: [control/authority/mod.rs], [authority/history.rs]. Each operation
      is a tree of store requests, run by a world of concurrent clients with
      faults before and after every request.
    - [Coordination]: [coordination/mod.rs]. [step] has one definition per match arm;
      runs are sequences of inputs and effect allocations.
    - [NodeLog]: [node/log_state.rs], [node/lease.rs]. Status updates as a transition
      system; lease operations at explicit instants.
    - [Wire]: [codec.rs]. Encoder, decoder, the [WireValue] trait as a class, and the
      types of that file which implement it as a universe; the implementations of
      other files are not modelled.
    - [Placement]: [fleet/placement/mod.rs], validation of [node/capacity.rs].
    - [Pressure]: [fleet/pressure.rs].
    - [Scheduler]: [fleet/scheduler.rs], the capability bits of
      [cell/schema_cache/mod.rs].

    The comment with an at sign before a definition names the file, the lines and
    the item it translates.

    ** What the theorems show

    - Ownership. Along validated transitions an epoch has one owner, the published
      root never regresses or forks, a revision identifies its record and a
      tombstone is final ([Control]). The same holds of the stored records under
      every interleaving of clients and every lost or failed request, a control
      an operation reports was stored under the token it reports, an owner is
      retained before it is replaced, and a returned history lists the past owners
      of the Cell and of a record that was stored ([Authority]). Builders return the only admissible successor; a
      takeover is always available and an undisturbed transition commits.
    - The kernel. Fencing is terminal, a Cell is released only with nothing in
      flight and after every publication finished, effects have fresh identities
      and complete once, the foreground slot is exclusive, a closing Cell never
      reopens, a draining Cell deactivates once each operation in flight has
      reported its end, and every input takes the lifecycle along an edge of a
      five-state abstract machine ([Coordination]).
    - Node logs. Claims are fenced by generations, two sessions never hold an
      authorized read at the same instant, no append follows the start of
      recovery, and an expired lease stays expired ([NodeLog]).
    - Segments. Every input compresses, without a panic, to a block that decodes to
      it ([Lz4]); a segment reads back as it was written and what the decoder
      accepts is complete, ordered and has the checksum of its trailer ([LtxCodec]); the index of a
      segment fetches exactly its frames ([PagedIndex]); a node frame has one
      encoding ([NodeFrame]); the page map of a log is the one of its committed
      frames and a resumed reader is one that never stopped ([Wal]).
    - Databases. The incremental checksum is the checksum of all pages whatever the
      changes ([Pages]); a verified plan is an unbroken chain whose replay has the
      target's checksum, and compacting keeps the image ([Recovery]).
    - Directories. Nodes and their verifiers are inverse ([DirectoryNode]); a lookup,
      a run, the root check and the inventory compute functions of the entries the
      tree stands for, whatever caches answered ([Directory]); merging the indexes
      and accumulating changes both agree with replaying the segments ([Merge]);
      the first directory and every incremental update hold what replaying all
      segments leaves, in a canonical tree whose height an update never lowers
      ([Preparation]); a root that was published
      opens to what was published ([Publication]).
    - Followers. Whatever bytes a chunk has, its scan finds the longest prefix of valid
      records ([FollowerRecords]). Through any history of appends, calls of them that
      fail, crashes at any disk state and restarts, a restart keeps the lane and finds
      every frame that was acknowledged and is not covered; and a receipt means that
      every frame submitted is covered or on the disk, where any later restart finds it.
      Two examples show what is not claimed: with chunks listed out of order, or in the
      middle of a seal, a crash can cost a lane its acknowledged frames
      ([FollowerHistory]).
    - Encodings. Control records, roots and wire values round-trip, and what the
      decoders accept is the canonical encoding ([ControlCodec], [Root], [Wire]).
    - Fleet decisions. Plans respect batch limits and never oversubscribe a
      receiver, ranking ignores the snapshot's order, the chosen node is a best
      eligible one, pressure changes only on sustained evidence, movement stays
      within its budgets, a maintenance Tick whose classes succeed completes within 128
      items and gives each class its share, the due time is the earliest deadline, and the elected
      scanner is stable ([Placement], [Pressure], [Scheduler]).

    ** Modelling conventions

    Integers are [Z] with the overflow behaviour of each operation written out;
    [usize] is 64 bits. Text is its UTF-8 bytes. [Result] and [?] are the [result]
    monad. Mutating methods take and return the state; where an error leaves a
    partly updated state behind, the state is returned beside the error. A mutex or
    an async task appears as the sequence of atomic steps it performs; a batch of
    concurrent uploads is performed in the order given.

    A disk is its files, each with its synced and its unsynced bytes, and the states
    of its directory since the last sync. A run of a lane operation records every
    disk it passes through; a crash keeps of one of them any prefix of the unsynced
    bytes of each file and any one of the recorded states of the directory. A list of
    faults decides which calls to the file system fail, every call whose error the code
    returns: a failed write leaves a prefix of its bytes, a failed sync loses nothing
    and a later one completes it, and other failed calls do nothing. The probes whose
    errors the code ignores ([Path::exists]) answer. The directories above a lane's
    chunks persist at once and appear with them, the files in a lane are regular files,
    and an append takes the answers of the node's admission and of its grant as
    arguments. Restarts are taken without faults, since the scrub quarantines a lane
    that it fails to read.

    Fuel: [Coordination.begin_effect] searches identities with one unit more than
    the pending effects, proved sufficient; decimal printing uses twenty digits,
    enough for 64 bits; [Scheduler.repeat_op] is bounded by its limit, as in the
    code. Loops over pages, log frames and chunks take as many turns as the input
    has bytes or pages left; the walks of a directory recurse on its height, which
    the code bounds by three; building levels takes at most four turns, since
    every level divides the indexes by 256; a group of the merge visits each source
    at most once, and the iterator yields at most the locators left. Each of these
    bounds is shown sufficient by the theorem that the operation computes its
    result. The scan of a chunk has a turn for every byte of it. Other recursions are
    structural. [slice::sort_by] is a stable insertion sort, [BinaryHeap] a sorted list.

    Third-party code enters as a parameter with its documented behaviour as a
    named hypothesis, and each theorem that uses one has a concrete instance:
    BLAKE3 (a function, collision-free on the inputs at hand where needed), CRC-64,
    the decoders of lz4_flex (they decode conforming blocks), serde_json (parsing
    what it printed returns it), the host's files, disk cache and permits, the
    object store (create-if-absent, compare-and-swap, fresh tags; for replicas:
    what was put is stored, what is read is what was put), the node-bundle guards,
    the order in which a directory is listed (any permutation; that of the chunks where
    a theorem says so), the hooks of a disk budget, and the SQL of each maintenance class and deadline query.

    ** Not modelled

    Tokio tasks, channels and timers, SQLite execution and hooks, the writable VFS,
    HTTP, gRPC and TLS, telemetry, random identity generation, signature
    verification, the node directory, bundles and log shipping, append grants and
    the follower's retired lanes, packing and sharing of segments in the object store,
    the primitives' SQL and their wire types, the catalog's shards, backup and release
    orchestration, the object store's providers, and the host, application and HTTP
    crates.

    ** Extension plan

    In order: the life of sealed and retired lanes and the paging of tails; packed and
    shared objects, coalescing and relocation of segments;
    retry schedules and read policies ([retry.rs], [read_policy.rs]); authority
    acquisition and root lineage ([control/authority/acquisition], [lineage]); the
    catalog; node advertisements, directory and bundles; the API codecs of the
    primitives; read admission and retry of [cellule-store]; fleet admission and
    eviction. *)

From Stdlib Require Import ZArith Lia.
From Stdlib Require Import Strings.Byte.
From stdpp Require Import base gmap strings sorting numbers.
From stdpp Require Import list.

Declare Scope cellule_scope.
Delimit Scope cellule_scope with cellule.
Global Open Scope Z_scope.

(** ** Fallible code

    A Rust [Result<T, E>]; [?] is the monadic bind. *)
Inductive result (E A : Type) : Type :=
| Ok (a : A)
| Err (e : E).
Arguments Ok {E A} _.
Arguments Err {E A} _.

Global Instance result_ret {E} : MRet (result E) := fun A a => Ok a.
Global Instance result_bind {E} : MBind (result E) :=
  fun A B f m => match m with Ok a => f a | Err e => Err e end.

Global Instance result_eq_dec {E A} `{EqDecision E, EqDecision A} :
  EqDecision (result E A).
Proof. solve_decision. Defined.

(** [Option::ok_or]. *)
Definition ok_or {E A} (o : option A) (e : E) : result E A :=
  match o with Some a => Ok a | None => Err e end.

(** [Option<Result>::transpose] after a fallible map. *)
Definition transpose_map {E A B} (f : A -> result E B) (o : option A)
  : result E (option B) :=
  match o with
  | None => Ok None
  | Some a => b ← f a; Ok (Some b)
  end.

Definition is_ok {E A} (r : result E A) : bool :=
  match r with Ok _ => true | Err _ => false end.

Lemma bind_Ok {E A B} (m : result E A) (f : A -> result E B) b :
  (m ≫= f) = Ok b <-> exists a, m = Ok a /\ f a = Ok b.
Proof. destruct m; simpl; naive_solver. Qed.

Lemma ok_or_Ok {E A} (o : option A) (e : E) a :
  ok_or o e = Ok a <-> o = Some a.
Proof. destruct o; simpl; naive_solver. Qed.

(** [if cond { return Err(e) }] followed by the rest of a body. *)
Lemma reject_Ok {E A} (c : bool) (e : E) (m : result E A) a :
  (if c then Err e else m) = Ok a <-> c = false /\ m = Ok a.
Proof. destruct c; naive_solver. Qed.

(** [Option::is_some_and] and [Option::is_none_or]. *)
Definition is_some_and {A} (p : A -> bool) (o : option A) : bool :=
  match o with Some a => p a | None => false end.
Definition is_none_or {A} (p : A -> bool) (o : option A) : bool :=
  match o with Some a => p a | None => true end.
Definition is_some {A} (o : option A) : bool :=
  match o with Some _ => true | None => false end.
Definition is_none {A} (o : option A) : bool := negb (is_some o).

Lemma is_none_true {A} (o : option A) : is_none o = true <-> o = None.
Proof. destruct o; naive_solver. Qed.
Lemma is_none_false {A} (o : option A) : is_none o = false <-> is_Some o.
Proof. destruct o; split; intros H; try done; by destruct H. Qed.
Lemma is_some_true {A} (o : option A) : is_some o = true <-> is_Some o.
Proof. destruct o; split; intros H; try done; by destruct H. Qed.
Lemma is_some_false {A} (o : option A) : is_some o = false <-> o = None.
Proof. destruct o; naive_solver. Qed.

(** Decidable equality as the [==] and [!=] of the source. *)
Definition eqb_of {A} `{EqDecision A} (x y : A) : bool := bool_decide (x = y).
Notation "x == y" := (eqb_of x y) (at level 70) : cellule_scope.
Notation "x != y" := (negb (eqb_of x y)) (at level 70) : cellule_scope.

Lemma eqb_of_true {A} `{EqDecision A} (x y : A) : eqb_of x y = true <-> x = y.
Proof. apply bool_decide_eq_true. Qed.
Lemma eqb_of_false {A} `{EqDecision A} (x y : A) : eqb_of x y = false <-> x <> y.
Proof. apply bool_decide_eq_false. Qed.
Lemma eqb_of_refl {A} `{EqDecision A} (x : A) : eqb_of x x = true.
Proof. by apply eqb_of_true. Qed.

(** ** Machine integers

    Unsigned and signed words are [Z]; every arithmetic operation of the source
    is written with its overflow behaviour. [usize] is 64 bits wide. *)
Definition u8_max : Z := 255.
Definition u32_max : Z := 4294967295.
Definition u64_max : Z := 18446744073709551615.
Definition i64_min : Z := -9223372036854775808.
Definition i64_max : Z := 9223372036854775807.

Definition u32_ok (z : Z) : Prop := 0 <= z <= u32_max.
Definition u64_ok (z : Z) : Prop := 0 <= z <= u64_max.
Definition i64_ok (z : Z) : Prop := i64_min <= z <= i64_max.

Definition checked_add_u64 (a b : Z) : option Z :=
  if a + b <=? u64_max then Some (a + b) else None.
Definition checked_sub_u64 (a b : Z) : option Z :=
  if b <=? a then Some (a - b) else None.
Definition checked_add_u32 (a b : Z) : option Z :=
  if a + b <=? u32_max then Some (a + b) else None.
Definition wrapping_add_u64 (a b : Z) : Z := (a + b) mod (u64_max + 1).
Definition saturating_add_u64 (a b : Z) : Z := Z.min (a + b) u64_max.
Definition saturating_add_u32 (a b : Z) : Z := Z.min (a + b) u32_max.
(** [saturating_sub] on any unsigned width. *)
Definition saturating_sub_u (a b : Z) : Z := Z.max 0 (a - b).
Definition checked_add_i64 (a b : Z) : option Z :=
  if (i64_min <=? a + b) && (a + b <=? i64_max) then Some (a + b) else None.
Definition checked_sub_i64 (a b : Z) : option Z :=
  if (i64_min <=? a - b) && (a - b <=? i64_max) then Some (a - b) else None.
Definition saturating_sub_i64 (a b : Z) : Z :=
  Z.max i64_min (Z.min i64_max (a - b)).

Lemma checked_add_u64_Some a b c :
  checked_add_u64 a b = Some c <-> c = a + b /\ a + b <= u64_max.
Proof. unfold checked_add_u64. destruct (Z.leb_spec (a + b) u64_max); naive_solver lia. Qed.
Lemma checked_sub_u64_Some a b c :
  checked_sub_u64 a b = Some c <-> c = a - b /\ b <= a.
Proof. unfold checked_sub_u64. destruct (Z.leb_spec b a); naive_solver lia. Qed.
Lemma checked_add_u32_Some a b c :
  checked_add_u32 a b = Some c <-> c = a + b /\ a + b <= u32_max.
Proof. unfold checked_add_u32. destruct (Z.leb_spec (a + b) u32_max); naive_solver lia. Qed.
Lemma checked_add_i64_Some a b c :
  checked_add_i64 a b = Some c <-> c = a + b /\ i64_ok (a + b).
Proof.
  unfold checked_add_i64, i64_ok.
  destruct (Z.leb_spec i64_min (a + b)), (Z.leb_spec (a + b) i64_max);
    simpl; naive_solver lia.
Qed.
Lemma checked_sub_i64_Some a b c :
  checked_sub_i64 a b = Some c <-> c = a - b /\ i64_ok (a - b).
Proof.
  unfold checked_sub_i64, i64_ok.
  destruct (Z.leb_spec i64_min (a - b)), (Z.leb_spec (a - b) i64_max);
    simpl; naive_solver lia.
Qed.

(** ** Booleans

    Guards of the source are boolean; the proofs work with propositions. *)
Lemma andb_true_intro' (a b : bool) : a = true -> b = true -> a && b = true.
Proof. by intros -> ->. Qed.

Create HintDb cellule.
Create Rewrite HintDb guards.
#[export] Hint Rewrite
  orb_true_iff orb_false_iff andb_true_iff andb_false_iff negb_true_iff
  negb_false_iff Z.eqb_eq Z.eqb_neq Z.leb_le Z.leb_gt Z.ltb_lt Z.ltb_ge
  @eqb_of_true @eqb_of_false @is_none_true @is_none_false @is_some_true
  @is_some_false : guards.

(** Turn boolean guards in the context into propositions. *)
Ltac guards_in H := autorewrite with guards in H.
Ltac guards := autorewrite with guards in *.

(** Split a conjunction-shaped context and substitute. *)
Ltac crush_eqs :=
  repeat match goal with
  | H : _ /\ _ |- _ => destruct H
  | H : exists _, _ |- _ => destruct H
  | H : Ok _ = Ok _ |- _ => injection H as H
  | H : Err _ = Err _ |- _ => injection H as H
  | H : Some _ = Some _ |- _ => injection H as H
  | H : Ok _ = Err _ |- _ => discriminate H
  | H : Err _ = Ok _ |- _ => discriminate H
  | H : None = Some _ |- _ => discriminate H
  | H : Some _ = None |- _ => discriminate H
  end; subst.

(** Open the successful path of a fallible body: every bind, early return and
    [ok_or] on the way to an [Ok]. *)
Ltac open_ok H :=
  repeat first
    [ apply bind_Ok in H; destruct H as (? & ? & H)
    | apply reject_Ok in H; destruct H as [? H]
    | progress crush_eqs ].

(** Case analysis on the innermost scrutinee of the goal or of a hypothesis. *)
Ltac case_step :=
  match goal with
  | |- context [match ?x with _ => _ end] =>
      lazymatch x with
      | context [match _ with _ => _ end] => fail
      | _ => destruct x eqn:?
      end
  | H : context [match ?x with _ => _ end] |- _ =>
      lazymatch x with
      | context [match _ with _ => _ end] => fail
      | _ => destruct x eqn:?
      end
  end.

(** ** Bytes and fixed-width arrays *)
Global Instance byte_eq_dec : EqDecision byte := Byte.byte_eq_dec.
Global Instance byte_countable : Countable byte.
Proof.
  refine (inj_countable Byte.to_N Byte.of_N _).
  apply Byte.of_to_N.
Defined.

(** The value of a [u8], and the truncating cast [as u8]. *)
Definition byte_val (b : byte) : Z := Z.of_N (Byte.to_N b).
Definition byte_of (z : Z) : byte :=
  match Byte.of_N (Z.to_N (z mod 256)) with Some b => b | None => x00 end.

Lemma byte_val_bound b : 0 <= byte_val b <= 255.
Proof. unfold byte_val. pose proof (Byte.to_N_bounded b). lia. Qed.

Lemma byte_val_of z : byte_val (byte_of z) = z mod 256.
Proof.
  unfold byte_val, byte_of.
  pose proof (Z.mod_pos_bound z 256 eq_refl) as Hb.
  destruct (Byte.of_N (Z.to_N (z mod 256))) as [b|] eqn:E.
  - apply Byte.to_of_N in E. rewrite E. lia.
  - apply Byte.of_N_None_iff in E. lia.
Qed.

Lemma byte_of_val b : byte_of (byte_val b) = b.
Proof.
  unfold byte_of. rewrite Z.mod_small by (pose proof (byte_val_bound b); lia).
  unfold byte_val. rewrite N2Z.id. by rewrite Byte.of_to_N.
Qed.

Lemma byte_val_inj a b : byte_val a = byte_val b -> a = b.
Proof. intros H. rewrite <- (byte_of_val a), <- (byte_of_val b). by rewrite H. Qed.

(** [to_be_bytes] of an [n]-byte word and its inverse. *)
Fixpoint to_be (n : nat) (z : Z) : list byte :=
  match n with
  | O => []
  | S n => to_be n (z / 256) ++ [byte_of z]
  end.
Definition from_be (bs : list byte) : Z :=
  fold_left (fun acc b => acc * 256 + byte_val b) bs 0.

Lemma length_to_be n z : length (to_be n z) = n.
Proof. revert z; induction n as [|n IH]; intros z; simpl; [done|]. rewrite length_app, IH. simpl. lia. Qed.

Lemma from_be_snoc bs b : from_be (bs ++ [b]) = from_be bs * 256 + byte_val b.
Proof. unfold from_be. by rewrite fold_left_app. Qed.

Lemma from_to_be n z : from_be (to_be n z) = z mod 256 ^ Z.of_nat n.
Proof.
  revert z; induction n as [|n IH]; intros z.
  { simpl. change (256 ^ Z.of_nat 0) with 1. by rewrite Z.mod_1_r. }
  cbn [to_be]. rewrite from_be_snoc, IH, byte_val_of.
  rewrite Nat2Z.inj_succ, Z.pow_succ_r, Z.rem_mul_r by lia. lia.
Qed.

Lemma from_be_bound bs : 0 <= from_be bs < 256 ^ Z.of_nat (length bs).
Proof.
  induction bs as [|b bs IH] using rev_ind; [by cbn|].
  rewrite from_be_snoc, length_app, Nat2Z.inj_add, Z.pow_add_r by lia.
  cbn [length]. change (256 ^ Z.of_nat 1) with 256.
  pose proof (byte_val_bound b). nia.
Qed.

Lemma to_from_be bs : to_be (length bs) (from_be bs) = bs.
Proof.
  induction bs as [|b bs IH] using rev_ind; [done|].
  rewrite length_app, Nat.add_comm. cbn [length Nat.add to_be].
  rewrite from_be_snoc. pose proof (byte_val_bound b).
  replace ((from_be bs * 256 + byte_val b) / 256) with (from_be bs)
    by (rewrite Z.div_add_l by lia; rewrite Z.div_small by lia; lia).
  rewrite IH. do 2 f_equal. apply byte_val_inj.
  rewrite byte_val_of, Z.add_comm, Z.mod_add by lia.
  apply Z.mod_small; lia.
Qed.

Lemma from_to_be_small n z :
  0 <= z < 256 ^ Z.of_nat n -> from_be (to_be n z) = z.
Proof. intros H. rewrite from_to_be. by apply Z.mod_small. Qed.

(** A Rust array [[u8; N]]. *)
Record array (n : nat) := Array {
  as_bytes : list byte;
  as_bytes_length : length as_bytes = n
}.
Arguments Array {n} _ _.
Arguments as_bytes {n} _.
Arguments as_bytes_length {n} _.

Lemma array_eq {n} (a b : array n) : as_bytes a = as_bytes b -> a = b.
Proof.
  destruct a as [l Hl], b as [l' Hl']; simpl. intros ->.
  f_equal. apply eq_pi, _.
Qed.

Global Instance array_eq_dec n : EqDecision (array n).
Proof.
  refine (fun a b => cast_if (decide (as_bytes a = as_bytes b))).
  - by apply array_eq.
  - by intros ->.
Defined.

(** [<[u8; N]>::try_from(&[u8])]. *)
Definition array_of (n : nat) (l : list byte) : option (array n) :=
  match decide (length l = n) with
  | left H => Some (Array l H)
  | right _ => None
  end.

Lemma array_of_as_bytes {n} (a : array n) : array_of n (as_bytes a) = Some a.
Proof.
  unfold array_of. case_decide as H; [|by destruct a].
  f_equal. by apply array_eq.
Qed.

Lemma array_of_Some n l a : array_of n l = Some a -> as_bytes a = l.
Proof. unfold array_of. case_decide; naive_solver. Qed.

Global Instance array_countable n : Countable (array n).
Proof. refine (inj_countable as_bytes (array_of n) _). apply array_of_as_bytes. Defined.

(** [bytes.iter().all(|byte| *byte == 0)]. *)
Definition all_zero {n} (a : array n) : bool :=
  forallb (fun b => eqb_of b x00) (as_bytes a).

(** [[value; N]]. *)
Definition array_fill (n : nat) (b : byte) : array n :=
  Array (repeat b n) (repeat_length b n).

(** Lexicographic order of byte slices. *)
Fixpoint bytes_compare (a b : list byte) : comparison :=
  match a, b with
  | [], [] => Eq
  | [], _ :: _ => Lt
  | _ :: _, [] => Gt
  | x :: a, y :: b =>
      match byte_val x ?= byte_val y with
      | Eq => bytes_compare a b
      | c => c
      end
  end.

Lemma bytes_compare_eq a b : bytes_compare a b = Eq <-> a = b.
Proof.
  revert b; induction a as [|x a IH]; intros [|y b]; simpl; try done.
  destruct (Z.compare_spec (byte_val x) (byte_val y)) as [E|E|E].
  - apply byte_val_inj in E as ->. rewrite IH. naive_solver.
  - split; [done|]. intros [= -> ->]. lia.
  - split; [done|]. intros [= -> ->]. lia.
Qed.

Lemma bytes_compare_antisym a b : bytes_compare b a = CompOpp (bytes_compare a b).
Proof.
  revert b; induction a as [|x a IH]; intros [|y b]; simpl; try done.
  rewrite (Z.compare_antisym (byte_val x) (byte_val y)).
  destruct (byte_val x ?= byte_val y); simpl; auto.
Qed.

Lemma bytes_compare_lt_trans a b c :
  bytes_compare a b = Lt -> bytes_compare b c = Lt -> bytes_compare a c = Lt.
Proof.
  revert b c; induction a as [|x a IH]; intros [|y b] [|z c]; simpl; try done.
  destruct (Z.compare_spec (byte_val x) (byte_val y)) as [E|E|E];
  destruct (Z.compare_spec (byte_val y) (byte_val z)) as [F|F|F];
  destruct (Z.compare_spec (byte_val x) (byte_val z)) as [G|G|G];
    try done; try lia; eauto.
Qed.

(** ** Sorting with a comparator

    [slice::sort_by] is stable; so is this insertion sort. *)
Section Sorting.
Context {A : Type} (cmp : A -> A -> comparison).

Fixpoint insert_by (x : A) (l : list A) : list A :=
  match l with
  | [] => [x]
  | y :: l' => match cmp x y with Gt => y :: insert_by x l' | _ => x :: l end
  end.
Fixpoint sort_by (l : list A) : list A :=
  match l with [] => [] | x :: l => insert_by x (sort_by l) end.

(** [Iterator::max_by]: the last of the greatest elements. *)
Definition max_by (l : list A) : option A :=
  match l with
  | [] => None
  | x :: l => Some (fold_left (fun x y => match cmp x y with Gt => x | _ => y end) l x)
  end.

Definition cmp_le (x y : A) : Prop := cmp x y <> Gt.

(** A comparator that is a total preorder on [P], and a total order if it
    moreover separates elements. *)
Record cmp_preorder (P : A -> Prop) : Prop := {
  cmp_anti x y : P x -> P y -> cmp y x = CompOpp (cmp x y);
  cmp_trans x y z : P x -> P y -> P z -> cmp_le x y -> cmp_le y z -> cmp_le x z
}.

Lemma insert_by_perm x l : insert_by x l ≡ₚ x :: l.
Proof.
  induction l as [|y l IH]; simpl; [done|]. destruct (cmp x y); [done..|].
  rewrite IH. by constructor.
Qed.
Lemma sort_by_perm l : sort_by l ≡ₚ l.
Proof. induction l as [|x l IH]; simpl; [done|]. by rewrite insert_by_perm, IH. Qed.

Lemma insert_by_sorted P x l :
  cmp_preorder P -> P x -> Forall P l ->
  StronglySorted cmp_le l -> StronglySorted cmp_le (insert_by x l).
Proof.
  intros Hc Hx Hl Hs. induction Hs as [|y l Hs IH Hy]; simpl.
  { by repeat constructor. }
  apply Forall_cons_1 in Hl as [HPy Hl]. specialize (IH Hl).
  destruct (cmp x y) eqn:E.
  1,2: constructor; [by constructor|]; constructor; [by unfold cmp_le; rewrite E|];
    rewrite Forall_forall in *; intros z Hz;
    apply (cmp_trans _ Hc x y z); auto; unfold cmp_le; by rewrite E.
  constructor; [done|]. rewrite Forall_forall in *. intros z. rewrite insert_by_perm.
  intros [->|Hz]%elem_of_cons; [|by auto].
  unfold cmp_le. by rewrite (cmp_anti _ Hc x y), E.
Qed.

Lemma sort_by_sorted P l : cmp_preorder P -> Forall P l -> StronglySorted cmp_le (sort_by l).
Proof.
  intros Hc. induction l as [|x l IH]; simpl; [constructor|].
  intros [Hx Hl]%Forall_cons_1. apply (insert_by_sorted P); auto. by rewrite sort_by_perm.
Qed.

(** Sorting by a total order does not depend on the input order. *)
Lemma sort_by_unique P l l' :
  cmp_preorder P -> Forall P l ->
  (forall x y, x ∈ l -> y ∈ l -> cmp x y = Eq -> x = y) ->
  l ≡ₚ l' -> sort_by l = sort_by l'.
Proof.
  intros Hc Hl Heq Hp.
  apply (StronglySorted_unique_strong cmp_le); [|by eapply sort_by_sorted| |by rewrite !sort_by_perm].
  - intros x y. rewrite !sort_by_perm, <- Hp. intros Hx Hy Hxy Hyx. apply Heq; [done..|].
    rewrite Forall_forall in Hl. unfold cmp_le in *. rewrite (cmp_anti _ Hc x y) in Hyx by auto.
    by destruct (cmp x y).
  - eapply sort_by_sorted; [done|]. by rewrite <- Hp.
Qed.

Lemma fold_max_spec P l x0 :
  cmp_preorder P -> P x0 -> Forall P l ->
  let m := fold_left (fun x y => match cmp x y with Gt => x | _ => y end) l x0 in
  m ∈ x0 :: l /\ forall y, y ∈ x0 :: l -> cmp_le y m.
Proof.
  intros Hc. revert x0. induction l as [|y l IH]; intros x0 Hx0 Hl; simpl.
  { split; [left|]. intros y ->%list_elem_of_singleton.
    pose proof (cmp_anti _ Hc x0 x0 Hx0 Hx0) as E. unfold cmp_le. by destruct (cmp x0 x0). }
  apply Forall_cons_1 in Hl as [Hy Hl].
  set (z := match cmp x0 y with Gt => x0 | _ => y end).
  assert (P z) as Hz by (subst z; by destruct (cmp x0 y)).
  destruct (IH z Hz Hl) as [Hin Hmax]. split.
  { apply elem_of_cons in Hin as [->|Hin]; [|by do 2 right].
    subst z. destruct (cmp x0 y); [by right; left|by right; left|by left]. }
  assert (cmp_le z z) as Hzz
    by (pose proof (cmp_anti _ Hc z z Hz Hz); unfold cmp_le; by destruct (cmp z z)).
  set (m := fold_left _ l z) in *.
  assert (P m) as Hm.
  { apply elem_of_cons in Hin as [->|Hin]; [done|]. rewrite Forall_forall in Hl. auto. }
  assert (cmp_le z m) as Hzm by (apply Hmax; by left).
  intros w Hw. apply elem_of_cons in Hw as [->|Hw].
  - apply (cmp_trans _ Hc x0 z m); auto. subst z. destruct (cmp x0 y) eqn:E; unfold cmp_le; try congruence.
  - apply elem_of_cons in Hw as [->|Hw]; [|apply Hmax; by right].
    apply (cmp_trans _ Hc y z m); auto. subst z.
    destruct (cmp x0 y) eqn:E; [..|unfold cmp_le; by rewrite (cmp_anti _ Hc x0 y), E];
      pose proof (cmp_anti _ Hc y y Hy Hy); unfold cmp_le; by destruct (cmp y y).
Qed.

Lemma max_by_spec P l m :
  cmp_preorder P -> Forall P l -> max_by l = Some m ->
  m ∈ l /\ forall y, y ∈ l -> cmp_le y m.
Proof.
  intros Hc Hl. destruct l as [|x l]; simpl; [done|]. intros [= <-].
  apply Forall_cons_1 in Hl as [? ?]. by apply (fold_max_spec P).
Qed.

Lemma max_by_unique P l l' :
  cmp_preorder P -> Forall P l ->
  (forall x y, x ∈ l -> y ∈ l -> cmp x y = Eq -> x = y) ->
  l ≡ₚ l' -> max_by l = max_by l'.
Proof.
  intros Hc Hl Heq Hp. assert (Forall P l') as Hl' by (by rewrite <- Hp).
  destruct (max_by l) as [m|] eqn:E, (max_by l') as [m'|] eqn:E'; try done.
  - destruct (max_by_spec _ _ _ Hc Hl E) as [Hm Hmax], (max_by_spec _ _ _ Hc Hl' E') as [Hm' Hmax'].
    rewrite <- Hp in Hm'. f_equal. apply Heq; [done..|].
    assert (cmp_le m m') as H1 by (apply Hmax'; by rewrite <- Hp).
    assert (cmp_le m' m) as H2 by (by apply Hmax).
    rewrite Forall_forall in Hl. unfold cmp_le in *.
    rewrite (cmp_anti _ Hc m m') in H2 by auto. by destruct (cmp m m').
  - destruct l'; [|done]. by apply Permutation_nil_r in Hp as ->.
  - destruct l; [|done]. by apply Permutation_nil in Hp as ->.
Qed.
End Sorting.

(** Comparators and how they compose: [Ordering::then_with] and [Ordering::reverse]. *)
Definition then_with (a b : comparison) : comparison := match a with Eq => b | c => c end.

Lemma cmp_preorder_key {A} (key : A -> Z) P : cmp_preorder (fun x y => key x ?= key y) P.
Proof.
  split.
  - intros x y _ _. by rewrite Z.compare_antisym.
  - unfold cmp_le. intros x y z _ _ _. rewrite !Z.compare_nle_iff || rewrite !Z.compare_le_iff. lia.
Qed.

Lemma cmp_preorder_bytes {A} (key : A -> list byte) P :
  cmp_preorder (fun x y => bytes_compare (key x) (key y)) P.
Proof.
  split.
  - intros x y _ _. by rewrite bytes_compare_antisym.
  - unfold cmp_le. intros x y z _ _ _ H1 H2.
    destruct (bytes_compare (key x) (key y)) eqn:E1; [|..|done].
    { apply bytes_compare_eq in E1. by rewrite E1. }
    destruct (bytes_compare (key y) (key z)) eqn:E2; [|..|done].
    { apply bytes_compare_eq in E2. by rewrite <- E2, E1. }
    by rewrite (bytes_compare_lt_trans _ _ _ E1 E2).
Qed.

Lemma cmp_preorder_flip {A} (cmp : A -> A -> comparison) P :
  cmp_preorder cmp P -> cmp_preorder (fun x y => cmp y x) P.
Proof.
  intros Hc. split; intros.
  - by apply (cmp_anti _ _ Hc).
  - unfold cmp_le in *. by eapply (cmp_trans _ _ Hc z y x).
Qed.

Lemma cmp_preorder_lex {A} (c1 c2 : A -> A -> comparison) P :
  cmp_preorder c1 P -> cmp_preorder c2 P ->
  cmp_preorder (fun x y => then_with (c1 x y) (c2 x y)) P.
Proof.
  intros H1 H2. split.
  - intros x y Hx Hy. rewrite (cmp_anti _ _ H1 x y), (cmp_anti _ _ H2 x y) by done.
    by destruct (c1 x y).
  - intros x y z Hx Hy Hz. unfold cmp_le, then_with.
    pose proof (cmp_trans _ _ H1 x y z Hx Hy Hz) as T. pose proof (cmp_trans _ _ H1 y z x Hy Hz Hx) as T'.
    pose proof (cmp_trans _ _ H1 z x y Hz Hx Hy) as T''.
    pose proof (cmp_trans _ _ H2 x y z Hx Hy Hz) as U. unfold cmp_le in *.
    rewrite (cmp_anti _ _ H1 x z), (cmp_anti _ _ H1 x y) in T' by done.
    rewrite (cmp_anti _ _ H1 x z), (cmp_anti _ _ H1 y z) in T'' by done.
    destruct (c1 x y), (c1 y z), (c1 x z); simpl in *; intuition congruence.
Qed.

(** ** Sums over a list *)
Definition sum_by {A} (f : A -> Z) (l : list A) : Z := fold_right (fun x acc => f x + acc) 0 l.

Lemma sum_by_nil {A} (f : A -> Z) : sum_by f [] = 0.
Proof. done. Qed.
Lemma sum_by_cons {A} (f : A -> Z) x l : sum_by f (x :: l) = f x + sum_by f l.
Proof. done. Qed.
Global Instance sum_by_proper {A} (f : A -> Z) : Proper ((≡ₚ) ==> (=)) (sum_by f).
Proof. intros l l' Hp. unfold sum_by. induction Hp; simpl; lia. Qed.
Lemma sum_by_app {A} (f : A -> Z) l l' : sum_by f (l ++ l') = sum_by f l + sum_by f l'.
Proof. unfold sum_by. induction l; simpl; lia. Qed.

(** [Iterator::find]. *)
Lemma find_split {A} (p : A -> bool) l x :
  List.find p l = Some x ->
  exists l1 l2, l = l1 ++ x :: l2 /\ p x = true /\ Forall (fun y => p y = false) l1.
Proof.
  induction l as [|y l IH]; simpl; [done|]. destruct (p y) eqn:E.
  - intros [= <-]. exists [], l. by repeat split.
  - intros (l1 & l2 & -> & Hx & Hl1)%IH. exists (y :: l1), l2. by repeat constructor.
Qed.
Lemma find_none_all {A} (p : A -> bool) l y : List.find p l = None -> y ∈ l -> p y = false.
Proof.
  induction l as [|z l IH]; simpl; [by intros _ ?%not_elem_of_nil|].
  destruct (p z) eqn:E; [done|]. intros Hf [->|Hy]%elem_of_cons; auto.
Qed.

Lemma filter_perm {A} (f : A -> bool) l l' : l ≡ₚ l' -> List.filter f l ≡ₚ List.filter f l'.
Proof.
  induction 1 as [|x l l' _ IH|x y l|l l' l'' _ IH _ IH']; simpl.
  - done.
  - destruct (f x); [by constructor|done].
  - destruct (f x), (f y); [constructor|done..].
  - by etrans.
Qed.
Lemma elem_of_filter_bool {A} (f : A -> bool) l x : x ∈ List.filter f l <-> x ∈ l /\ f x = true.
Proof. rewrite !list_elem_of_In. apply filter_In. Qed.
Lemma filter_keep {A} (f : A -> bool) l : (forall x, x ∈ l -> f x = true) -> List.filter f l = l.
Proof. induction l as [|x l IH]; intros Hf; [done|]. cbn. rewrite Hf, IH; set_solver. Qed.
Lemma sum_by_nonneg {A} (f : A -> Z) l : (forall x, x ∈ l -> 0 <= f x) -> 0 <= sum_by f l.
Proof.
  unfold sum_by. induction l as [|x l IH]; simpl; intros Hf; [lia|].
  pose proof (Hf x (list_elem_of_here _ _)). assert (forall y, y ∈ l -> 0 <= f y) by (intros; apply Hf; by right).
  specialize (IH H0). lia.
Qed.

(** ** Ascending lists *)

Lemma sorted_filter {A} (R : A -> A -> Prop) (f : A -> bool) l : StronglySorted R l -> StronglySorted R (List.filter f l).
Proof.
  induction 1 as [|x l Hs IH Hx]; [constructor|]. cbn [List.filter]. destruct (f x); [|done]. constructor; [done|].
  apply Forall_forall. intros y [Hy _]%elem_of_filter_bool. rewrite Forall_forall in Hx. by apply Hx.
Qed.
Lemma sorted_seqZ a n : StronglySorted Z.lt (seqZ a n).
Proof.
  destruct (Z.le_gt_cases 0 n) as [Hn|Hn]; [|rewrite seqZ_nil by lia; constructor].
  revert a. pattern n. apply natlike_ind; [| |done]; [intros a; constructor|].
  intros m Hm IH a. rewrite seqZ_cons by lia. constructor; [rewrite Z.pred_succ; apply IH|].
  apply Forall_forall. intros x Hx%elem_of_seqZ. lia.
Qed.
Lemma sorted_nodup l : StronglySorted Z.lt l -> NoDup l.
Proof.
  induction 1 as [|x l _ IH Hx]; constructor; [|done]. intros Hin. rewrite Forall_forall in Hx. specialize (Hx _ Hin). lia.
Qed.
(** Two ascending lists with the same elements are one list. *)
Lemma sorted_same l m :
  StronglySorted Z.lt l -> StronglySorted Z.lt m -> (forall x, x ∈ l -> x ∈ m) -> length m = length l -> l = m.
Proof.
  intros Hl Hm Hin Hlen. apply (StronglySorted_unique_strong Z.lt); [lia|done..|].
  apply submseteq_length_Permutation; [|lia]. apply NoDup_submseteq; [by apply sorted_nodup|done].
Qed.
