(* ===== verification/OrdMap.v ===== *)
(** * OrdMap: ordered maps and chunks

    [BTreeMap] with integer keys as an association list in ascending order of its
    keys, so that iteration is the list itself; [BTreeSet] is the map to [unit].
    Maps in this form are equal when their lookups agree. [slice::chunk_by] cuts a
    list where the key of adjacent elements changes. *)

From Stdlib Require Import ZArith Lia.
From stdpp Require Import base gmap strings sorting numbers.
From stdpp Require Import list.
From S2P Require Import Prelude.

Local Open Scope bool_scope.

(** ** Ordered maps *)

Definition OrdMap (V : Type) : Type := list (Z * V).

Section OrdMap.
Context {V : Type}.
Implicit Types (m : OrdMap V) (k : Z) (v : V).

Fixpoint om_insert k v m : OrdMap V :=
  match m with
  | [] => [(k, v)]
  | (k', v') :: m' =>
      if k <? k' then (k, v) :: m
      else if k =? k' then (k, v) :: m'
      else (k', v') :: om_insert k v m'
  end.
Fixpoint om_lookup k m : option V :=
  match m with
  | [] => None
  | (k', v') :: m => if k =? k' then Some v' else om_lookup k m
  end.
(** [extend]. *)
Definition om_extend m (l : list (Z * V)) : OrdMap V := foldl (fun m x => om_insert x.1 x.2 m) m l.
(** [retain] and [range] by a predicate on the keys. *)
Definition om_filter (p : Z -> bool) m : OrdMap V := List.filter (fun x => p x.1) m.
Definition om_remove k m : OrdMap V := om_filter (fun k' => negb (k' =? k)) m.

Definition om_sorted m : Prop := StronglySorted Z.lt (map fst m).

Lemma om_sorted_inv x m : om_sorted (x :: m) -> om_sorted m /\ Forall (fun y => x.1 < y.1) m.
Proof.
  unfold om_sorted. cbn [map]. intros [Hs Hf]%StronglySorted_inv. split; [done|].
  by rewrite Forall_map in Hf.
Qed.

Lemma om_insert_keys k v m k' : k' ∈ map fst (om_insert k v m) <-> k' = k \/ k' ∈ map fst m.
Proof.
  induction m as [|[k0 v0] m IH]; cbn [om_insert map fst]; [set_solver|].
  destruct (Z.ltb_spec k k0); [set_solver|]. destruct (Z.eqb_spec k k0); [set_solver|].
  cbn [map fst]. rewrite !elem_of_cons, IH. tauto.
Qed.

Lemma om_insert_sorted k v m : om_sorted m -> om_sorted (om_insert k v m).
Proof.
  induction m as [|[k0 v0] m IH]; intros Hs; [by repeat constructor|]. cbn [om_insert].
  apply om_sorted_inv in Hs as Hi. destruct Hi as [Hm Hf]. cbn in Hf.
  destruct (Z.ltb_spec k k0) as [L|L].
  { unfold om_sorted. cbn [map fst]. constructor; [done|]. constructor; [done|].
    rewrite Forall_map. eapply Forall_impl; [done|]. simpl. lia. }
  destruct (Z.eqb_spec k k0) as [->|N]; [exact Hs|]. unfold om_sorted. cbn [map fst]. constructor; [by apply IH|].
  apply Forall_forall. intros k' [->|Hk]%om_insert_keys; [lia|].
  apply list_elem_of_fmap in Hk as (x & -> & Hx). rewrite Forall_forall in Hf. by apply Hf.
Qed.

Lemma om_lookup_below k m : Forall (fun x => k < x.1) m -> om_lookup k m = None.
Proof.
  induction 1 as [|[k' v'] m Hk _ IH]; [done|]. cbn [om_lookup]. cbn in Hk. by rewrite (proj2 (Z.eqb_neq _ _)) by lia.
Qed.

Lemma om_lookup_insert k v m k' : om_sorted m -> om_lookup k' (om_insert k v m) = if k' =? k then Some v else om_lookup k' m.
Proof.
  induction m as [|[k0 v0] m IH]; intros Hs; [done|]. apply om_sorted_inv in Hs as [Hm Hf].
  cbn [om_insert]. destruct (Z.ltb_spec k k0) as [L|L]; [done|]. destruct (Z.eqb_spec k k0) as [->|N].
  - cbn [om_lookup]. by destruct (k' =? k0).
  - cbn [om_lookup]. rewrite IH by done. destruct (Z.eqb_spec k' k0), (Z.eqb_spec k' k); try done. lia.
Qed.

Lemma om_lookup_filter p k m : om_lookup k (om_filter p m) = if p k then om_lookup k m else None.
Proof.
  induction m as [|[k0 v0] m IH]; [by destruct (p k)|]. cbn [om_filter List.filter om_lookup fst].
  destruct (p k0) eqn:E0; cbn [om_lookup]; fold (om_filter p m); rewrite IH; destruct (Z.eqb_spec k k0) as [->|]; try done.
  - by rewrite E0.
  - by rewrite E0.
Qed.

Lemma om_lookup_remove k k' m : om_lookup k (om_remove k' m) = if k =? k' then None else om_lookup k m.
Proof. unfold om_remove. rewrite om_lookup_filter. by destruct (k =? k'). Qed.

Lemma om_filter_sorted p m : om_sorted m -> om_sorted (om_filter p m).
Proof.
  unfold om_sorted, om_filter. induction m as [|x m IH]; intros Hs; [done|]. apply om_sorted_inv in Hs as Hi.
  destruct Hi as [Hm Hf]. cbn [List.filter]. destruct (p x.1); [|by apply IH]. cbn [map]. constructor; [by apply IH|].
  rewrite Forall_map. apply Forall_forall. intros y [Hy _]%elem_of_filter_bool. rewrite Forall_forall in Hf. by apply Hf.
Qed.

Lemma om_extend_sorted m l : om_sorted m -> om_sorted (om_extend m l).
Proof. revert m. induction l as [|x l IH]; intros m Hm; [done|]. cbn. apply IH. by apply om_insert_sorted. Qed.

Lemma om_lookup_extend m l k : om_sorted m -> om_sorted l ->
  om_lookup k (om_extend m l) = match om_lookup k l with Some v => Some v | None => om_lookup k m end.
Proof.
  revert m. induction l as [|[k0 v0] l IH]; intros m Hm Hl; [done|]. apply om_sorted_inv in Hl as [Hl Hf].
  unfold om_extend. cbn [foldl fst snd]. fold (om_extend (om_insert k0 v0 m) l). rewrite IH by (done || by apply om_insert_sorted).
  rewrite om_lookup_insert by done. cbn [om_lookup]. destruct (Z.eqb_spec k k0) as [->|]; [|done].
  by rewrite om_lookup_below.
Qed.

(** Lookups determine the map. *)
Lemma om_ext m m' : om_sorted m -> om_sorted m' -> (forall k, om_lookup k m = om_lookup k m') -> m = m'.
Proof.
  revert m'. induction m as [|[k v] m IH]; intros [|[k' v'] m'] Hm Hm' He; [done|..].
  - specialize (He k'). cbn in He. by rewrite Z.eqb_refl in He.
  - specialize (He k). cbn in He. by rewrite Z.eqb_refl in He.
  - apply om_sorted_inv in Hm as [Hm Hf]. apply om_sorted_inv in Hm' as [Hm' Hf']. cbn [fst] in Hf, Hf'.
    assert (k = k') as <-.
    { pose proof (He k) as E1. pose proof (He k') as E2. cbn [om_lookup] in E1, E2. rewrite Z.eqb_refl in E1, E2.
      destruct (Z.lt_trichotomy k k') as [L|[E|L]]; [|done|].
      - rewrite (proj2 (Z.eqb_neq k k')) in E1 by lia. rewrite om_lookup_below in E1; [done|].
        eapply Forall_impl; [exact Hf'|]. simpl. lia.
      - rewrite (proj2 (Z.eqb_neq k' k)) in E2 by lia. rewrite om_lookup_below in E2; [done|].
        eapply Forall_impl; [exact Hf|]. simpl. lia. }
    pose proof (He k) as E. cbn [om_lookup] in E. rewrite Z.eqb_refl in E. injection E as <-. f_equal. apply IH; [done..|].
    intros k0. destruct (decide (k0 = k)) as [->|N]; [by rewrite !om_lookup_below|].
    specialize (He k0). cbn [om_lookup] in He. by rewrite (proj2 (Z.eqb_neq _ _) N) in He.
Qed.

Lemma om_lookup_elem k v m : om_sorted m -> om_lookup k m = Some v <-> (k, v) ∈ m.
Proof.
  induction m as [|[k0 v0] m IH]; intros Hs; [cbn; set_solver|]. apply om_sorted_inv in Hs as [Hm Hf].
  cbn [om_lookup]. rewrite elem_of_cons, <- IH by done. destruct (Z.eqb_spec k k0) as [->|N].
  - split; [intros [= ->]; by left|]. intros [[= ->]|E]; [done|]. by rewrite om_lookup_below in E.
  - split; [by right|]. intros [[= ? ?]|?]; done.
Qed.

Lemma om_lookup_None k m : om_lookup k m = None <-> k ∉ map fst m.
Proof.
  induction m as [|[k0 v0] m IH]; [cbn; set_solver|]. cbn [om_lookup map fst]. rewrite not_elem_of_cons, <- IH.
  destruct (Z.eqb_spec k k0); [split; [done|tauto]|tauto].
Qed.

Lemma om_filter_nil (p : Z -> bool) m : (forall k, k ∈ map fst m -> p k = false) -> om_filter p m = [].
Proof.
  induction m as [|[k v] m IH]; intros Hp; [done|]. unfold om_filter. cbn [List.filter fst].
  rewrite (Hp k) by set_solver. apply IH. set_solver.
Qed.
Lemma om_filter_all (p : Z -> bool) m : (forall k, k ∈ map fst m -> p k = true) -> om_filter p m = m.
Proof.
  induction m as [|[k v] m IH]; intros Hp; [done|]. unfold om_filter. cbn [List.filter fst].
  rewrite (Hp k) by set_solver. f_equal. apply IH. set_solver.
Qed.
End OrdMap.
Arguments OrdMap : clear implicits.
Arguments om_sorted {V} m : simpl never.

(** ** Chunks *)

Section ChunkBy.
Context {A : Type} (f : A -> Z).

(** [slice::chunk_by] with equality of keys. *)
Fixpoint chunk_by (l : list A) : list (list A) :=
  match l with
  | [] => []
  | x :: l =>
      match chunk_by l with
      | (y :: c) :: cs => if f x =? f y then (x :: y :: c) :: cs else [x] :: (y :: c) :: cs
      | cs => [x] :: cs
      end
  end.

Definition has_key (k : Z) (x : A) : bool := f x =? k.

Lemma chunk_by_concat l : concat (chunk_by l) = l.
Proof.
  induction l as [|x l IH]; [done|]. cbn [chunk_by]. destruct (chunk_by l) as [|[|y c] cs] eqn:E.
  - cbn in IH. by subst l.
  - cbn in IH |- *. by rewrite IH.
  - destruct (f x =? f y); cbn in IH |- *; by rewrite IH.
Qed.

Lemma filter_has_key_nil k l : Forall (fun x => k < f x) l -> List.filter (has_key k) l = [].
Proof.
  induction 1 as [|x l Hx _ IH]; [done|]. cbn [List.filter]. unfold has_key at 1.
  by rewrite (proj2 (Z.eqb_neq _ _)) by lia.
Qed.

(** The non-empty fibres over a list of keys. *)
Fixpoint fibres (ks : list Z) (l : list A) : list (list A) :=
  match ks with
  | [] => []
  | k :: ks => match List.filter (has_key k) l with [] => fibres ks l | c => c :: fibres ks l end
  end.

Lemma fibres_nil ks : fibres ks [] = [].
Proof. by induction ks. Qed.

Lemma chunk_by_head x l : exists c cs, chunk_by (x :: l) = (x :: c) :: cs.
Proof.
  cbn [chunk_by]. destruct (chunk_by l) as [|[|y c] cs]; [by eexists _, _..|]. destruct (f x =? f y); by eexists _, _.
Qed.

(** With ascending keys the chunks are the fibres over any ascending list of keys that has them all. *)
Lemma chunk_by_fibres l : StronglySorted Z.le (map f l) -> forall ks,
  StronglySorted Z.lt ks -> (forall x, x ∈ l -> f x ∈ ks) -> chunk_by l = fibres ks l.
Proof.
  induction l as [|x l IH]; intros Hl ks Hks Hin; [by rewrite fibres_nil|].
  cbn [map] in Hl. apply StronglySorted_inv in Hl as [Hl Hx]. rewrite Forall_map in Hx.
  induction Hks as [|k ks Hks IHk Hk].
  { exfalso. apply (not_elem_of_nil (f x)), Hin. set_solver. }
  destruct (Z.eq_dec (f x) k) as [E|N].
  - cbn [fibres List.filter]. unfold has_key at 1. rewrite (proj2 (Z.eqb_eq _ _) E).
    assert (forall y, y ∈ l -> f y ∈ k :: ks) as Hin' by (intros y Hy; apply Hin; set_solver).
    pose proof (IH Hl (k :: ks) ltac:(by constructor) Hin') as IH'. cbn [fibres] in IH'.
    assert (fibres ks (x :: l) = fibres ks l) as ->.
    { clear -E Hk. induction ks as [|k' ks IHks]; [done|]. apply Forall_cons in Hk as [Hk' Hk].
      cbn [fibres List.filter]. unfold has_key at 1. rewrite (proj2 (Z.eqb_neq (f x) k')) by lia. by rewrite IHks. }
    cbn [chunk_by]. destruct l as [|y l].
    { cbn [chunk_by List.filter]. by rewrite fibres_nil. }
    destruct (chunk_by_head y l) as (c & cs & Ec). rewrite Ec in IH' |- *.
    destruct (Z.eqb_spec (f x) (f y)) as [Exy|Nxy].
    + revert IH'. destruct (List.filter (has_key k) (y :: l)) as [|z c'] eqn:Ef; [|by intros [= -> -> ->]].
      exfalso. cbn [List.filter] in Ef. unfold has_key at 1 in Ef. by rewrite (proj2 (Z.eqb_eq (f y) k)) in Ef by lia.
    + rewrite filter_has_key_nil in IH' |- *.
      * by rewrite IH'.
      * apply Forall_cons in Hx as [Hxy Hx]. cbn [map] in Hl. apply StronglySorted_inv in Hl as [_ Hyl]. rewrite Forall_map in Hyl.
        constructor; [lia|]. eapply Forall_impl; [exact Hyl|]. simpl. lia.
      * apply Forall_cons in Hx as [Hxy Hx]. cbn [map] in Hl. apply StronglySorted_inv in Hl as [_ Hyl]. rewrite Forall_map in Hyl.
        constructor; [lia|]. eapply Forall_impl; [exact Hyl|]. simpl. lia.
  - assert (k < f x) as Hlt.
    { assert (f x ∈ k :: ks) as [?|Hf]%elem_of_cons by (apply Hin; set_solver); [done|].
      rewrite Forall_forall in Hk. by apply Hk. }
    assert (List.filter (has_key k) (x :: l) = []) as Ef.
    { apply filter_has_key_nil. constructor; [done|]. eapply Forall_impl; [exact Hx|]. simpl. lia. }
    assert (fibres (k :: ks) (x :: l) = fibres ks (x :: l)) as -> by (change (match List.filter (has_key k) (x :: l) with
      [] => fibres ks (x :: l) | c => c :: fibres ks (x :: l) end = fibres ks (x :: l)); by rewrite Ef).
    apply IHk. intros y Hy. specialize (Hin y Hy). apply elem_of_cons in Hin as [E|]; [|done].
    apply elem_of_cons in Hy as [->|Hy]; [lia|]. rewrite Forall_forall in Hx. specialize (Hx _ Hy). lia.
Qed.

(** Each chunk has one key, and the keys ascend. *)
Lemma chunk_by_keys l : StronglySorted Z.le (map f l) ->
  exists ks, StronglySorted Z.lt ks /\ Forall2 (fun k c => c <> [] /\ Forall (fun x => f x = k) c) ks (chunk_by l).
Proof.
  induction l as [|x l IH]; intros Hs; [exists []; by split; constructor|].
  cbn [map] in Hs. apply StronglySorted_inv in Hs as [Hs Hx]. destruct (IH Hs) as (ks & Hks & Hf). cbn [chunk_by].
  destruct l as [|y l].
  { cbn. exists [f x]. split; [by repeat constructor|]. constructor; [|constructor]. split; [done|by repeat constructor]. }
  destruct (chunk_by_head y l) as (c & cs & Ec). rewrite Ec in Hf |- *. apply Forall2_cons_inv_r in Hf as (k & ks' & [_ Hc] & Hcs & ->).
  apply Forall_cons in Hc as [Hy Hc]. rewrite Forall_map in Hx. apply Forall_cons in Hx as [Hxy _].
  destruct (Z.eqb_spec (f x) (f y)) as [E|N].
  - exists (k :: ks'). split; [done|]. constructor; [|done]. split; [done|]. by repeat (constructor; [lia|]).
  - exists (f x :: k :: ks'). split.
    + apply StronglySorted_inv in Hks as Hi. destruct Hi as [Hks' Hk]. constructor; [done|]. constructor; [lia|].
      eapply Forall_impl; [exact Hk|]. simpl. lia.
    + constructor; [split; [done|by repeat constructor]|]. constructor; [|done]. split; [done|]. by constructor.
Qed.

(** The chunk of a key. *)
Lemma keyed_chunks_lookup {V} (g : list A -> V) ks cs k :
  StronglySorted Z.lt ks -> Forall2 (fun k c => c <> [] /\ Forall (fun x => f x = k) c) ks cs ->
  om_lookup k (map (fun c => (default 0 (f <$> head c), g c)) cs) =
  match List.filter (has_key k) (concat cs) with [] => None | c => Some (g c) end.
Proof.
  intros Hks Hf. induction Hf as [|k0 c ks cs [Hne Hc] Hf IH]; [done|]. apply StronglySorted_inv in Hks as [Hks Hk0].
  cbn [map om_lookup concat]. rewrite List.filter_app. destruct c as [|x c]; [done|].
  apply Forall_cons in Hc as Hxc. destruct Hxc as [Hx _]. cbn [head fmap option_fmap option_map default]. unfold default, id. rewrite Hx.
  destruct (Z.eqb_spec k k0) as [->|N].
  - assert (List.filter (has_key k0) (x :: c) = x :: c) as ->.
    { clear -Hc. induction Hc as [|y c1 Hy _ IHc]; [done|]. cbn. unfold has_key at 1. by rewrite (proj2 (Z.eqb_eq _ _) Hy), IHc. }
    assert (List.filter (has_key k0) (concat cs) = []) as ->; [|by rewrite app_nil_r].
    apply filter_has_key_nil. clear -Hf Hk0. induction Hf as [|k1 c1 ks cs [_ Hc1] _ IHf]; [constructor|].
    apply Forall_cons in Hk0 as [Hk Hk0]. cbn [concat]. apply Forall_app. split; [|by apply IHf].
    eapply Forall_impl; [exact Hc1|]. simpl. lia.
  - assert (List.filter (has_key k) (x :: c) = []) as ->; [|by apply IH].
    clear -Hc N. induction Hc as [|y c1 Hy _ IHc]; [done|]. cbn. unfold has_key at 1. by rewrite (proj2 (Z.eqb_neq _ _)) by lia.
Qed.

Lemma chunk_by_lookup {V} (g : list A -> V) l k : StronglySorted Z.le (map f l) ->
  om_lookup k (map (fun c => (default 0 (f <$> head c), g c)) (chunk_by l)) =
  match List.filter (has_key k) l with [] => None | c => Some (g c) end.
Proof.
  intros Hs. destruct (chunk_by_keys l Hs) as (ks & Hks & Hf). rewrite (keyed_chunks_lookup g ks) by done.
  by rewrite chunk_by_concat.
Qed.

Lemma om_lookup_Some_elem {V} k (v : V) m : om_lookup k m = Some v -> (k, v) ∈ m.
Proof.
  induction m as [|[k0 v0] m IH]; [done|]. cbn [om_lookup]. destruct (Z.eqb_spec k k0) as [->|]; [intros [= ->]; by left|].
  intros ?%IH. by right.
Qed.

Lemma chunk_by_fibre l k : StronglySorted Z.le (map f l) -> List.filter (has_key k) l <> [] -> List.filter (has_key k) l ∈ chunk_by l.
Proof.
  intros Hs Hne. pose proof (chunk_by_lookup (fun c => c) l k Hs) as Hl.
  destruct (List.filter (has_key k) l) as [|x c]; [done|]. apply om_lookup_Some_elem in Hl.
  by apply list_elem_of_fmap in Hl as (c' & [= _ ->] & Hc').
Qed.

(** Chunks with one key each and ascending keys are the chunks of their concatenation. *)
Lemma chunk_by_unique ks cs :
  StronglySorted Z.lt ks -> Forall2 (fun k c => c <> [] /\ Forall (fun x => f x = k) c) ks cs -> chunk_by (concat cs) = cs.
Proof.
  intros Hks Hf. induction Hf as [|k c ks cs [Hne Hc] Hf IH]; [done|]. apply StronglySorted_inv in Hks as [Hks Hk].
  cbn [concat]. specialize (IH Hks). clear Hks. induction Hc as [|x c Hx Hc IHc]; [done|]. cbn [app chunk_by].
  destruct c as [|y c].
  - cbn [app]. rewrite IH. destruct Hf as [|k' c' ks cs [Hne' Hc'] Hf]; [done|]. destruct c' as [|y c']; [done|].
    apply Forall_cons in Hk as [Hk _]. apply Forall_cons in Hc' as [Hy _]. by rewrite (proj2 (Z.eqb_neq (f x) (f y))) by lia.
  - rewrite IHc by done. apply Forall_cons in Hc as [Hy _]. by rewrite (proj2 (Z.eqb_eq (f x) (f y))) by lia.
Qed.

Lemma chunk_by_app k a b : a <> [] -> Forall (fun x => f x = k) a -> StronglySorted Z.le (map f b) -> Forall (fun x => k < f x) b ->
  chunk_by (a ++ b) = a :: chunk_by b.
Proof.
  intros Hne Ha Hb Hlt. destruct (chunk_by_keys b Hb) as (ks & Hks & Hf).
  rewrite <- (chunk_by_concat b) at 1. change (a ++ concat (chunk_by b)) with (concat (a :: chunk_by b)).
  apply (chunk_by_unique (k :: ks)); [|by constructor]. constructor; [done|]. apply Forall_forall. intros k' [i Hi]%list_elem_of_lookup.
  destruct (Forall2_lookup_l _ _ _ _ _ Hf Hi) as (c & Hc & Hcne & Hck). destruct c as [|x c]; [done|].
  apply Forall_cons in Hck as [<- _]. rewrite Forall_forall in Hlt. apply Hlt. rewrite <- (chunk_by_concat b).
  apply list_elem_of_In, in_concat. exists (x :: c). rewrite <- !list_elem_of_In. split; [by eapply list_elem_of_lookup_2|set_solver].
Qed.
End ChunkBy.

(** One more element joins the last chunk or starts its own. *)
Lemma chunk_by_snoc {A} (f : A -> Z) l x cs g z : chunk_by f l = cs ++ [g] -> last l = Some z ->
  chunk_by f (l ++ [x]) = if f z =? f x then cs ++ [g ++ [x]] else cs ++ [g; [x]].
Proof.
  revert cs g. induction l as [|y l IH]; intros cs g Hc Hz; [done|]. destruct l as [|y' l].
  { cbn in Hc, Hz. injection Hz as <-. destruct cs as [|c cs]; [|by destruct cs]. injection Hc as <-. cbn. by destruct (f y =? f x). }
  rewrite last_cons_cons in Hz. destruct (chunk_by_head f y' l) as (c & rest & Er).
  change ((y :: y' :: l) ++ [x]) with (y :: ((y' :: l) ++ [x])). cbn [chunk_by] in Hc |- *. fold (chunk_by f) in *.
  change (match chunk_by f l with (y0 :: c0) :: cs0 => if f y' =? f y0 then (y' :: y0 :: c0) :: cs0 else [y'] :: (y0 :: c0) :: cs0 | cs0 => [y'] :: cs0 end)
    with (chunk_by f (y' :: l)) in Hc. rewrite Er in Hc.
  destruct (f y =? f y') eqn:Ey.
  - destruct rest as [|g' rest _] using rev_ind.
    + destruct cs as [|? cs]; [|by destruct cs]. injection Hc as <-. rewrite (IH [] (y' :: c) Er Hz). destruct (f z =? f x); cbn; by rewrite Ey.
    + change ((y :: y' :: c) :: rest ++ [g']) with (((y :: y' :: c) :: rest) ++ [g']) in Hc. apply app_inj_tail in Hc as [<- <-].
      rewrite (IH ((y' :: c) :: rest) g' Er Hz). destruct (f z =? f x); cbn; by rewrite Ey.
  - destruct rest as [|g' rest _] using rev_ind.
    + change ([y] :: [y' :: c]) with ([[y]] ++ [y' :: c]) in Hc. apply app_inj_tail in Hc as [<- <-].
      rewrite (IH [] (y' :: c) Er Hz). destruct (f z =? f x); cbn; by rewrite Ey.
    + change ([y] :: (y' :: c) :: rest ++ [g']) with (([y] :: (y' :: c) :: rest) ++ [g']) in Hc. apply app_inj_tail in Hc as [<- <-].
      rewrite (IH ((y' :: c) :: rest) g' Er Hz). destruct (f z =? f x); cbn; by rewrite Ey.
Qed.

Lemma chunk_by_map {A B} (h : B -> Z) (g : A -> B) l : chunk_by h (map g l) = map (map g) (chunk_by (fun x => h (g x)) l).
Proof.
  induction l as [|x l IH]; [done|]. cbn [map chunk_by]. rewrite IH.
  destruct (chunk_by (fun x => h (g x)) l) as [|[|y c] cs]; cbn [map]; [done..|]. by destruct (_ =? _).
Qed.
Lemma chunk_by_ext {A} (f g : A -> Z) l : (forall x, f x = g x) -> chunk_by f l = chunk_by g l.
Proof. intros E. induction l as [|x l IH]; [done|]. cbn [chunk_by]. rewrite IH. destruct (chunk_by g l) as [|[|y c] cs]; [done..|]. by rewrite !E. Qed.

(** Chunks by a coarser key group the chunks by the finer one. *)
Lemma chunk_by_coarse {A} (f : A -> Z) (q : Z -> Z) (g : list A -> Z) l :
  (forall a b, a <= b -> q a <= q b) -> StronglySorted Z.le (map f l) ->
  (forall c k, c <> [] -> Forall (fun x => f x = k) c -> g c = q k) ->
  chunk_by g (chunk_by f l) = map (chunk_by f) (chunk_by (fun x => q (f x)) l).
Proof.
  intros Hq Hs Hg.
  assert (StronglySorted Z.le (map (fun x => q (f x)) l)) as Hsq.
  { clear Hg. induction l as [|x l IH]; [constructor|]. cbn [map] in *. apply StronglySorted_inv in Hs as [Hs Hx].
    constructor; [by apply IH|]. rewrite Forall_map in *. eapply Forall_impl; [exact Hx|]. simpl. auto. }
  destruct (chunk_by_keys (fun x => q (f x)) l Hsq) as (K & HK & HG). pose proof (chunk_by_concat (fun x => q (f x)) l) as Hcc.
  revert HG Hcc. generalize (chunk_by (fun x => q (f x)) l). intros G HG Hcc.
  assert (exists kss, Forall2 (fun k ks => Forall (fun k' => q k' = k) ks) K kss
    /\ Forall2 (fun ks c => StronglySorted Z.lt ks /\ Forall2 (fun k c => c <> [] /\ Forall (fun x => f x = k) c) ks (chunk_by f c)) kss G)
    as (kss & HKs & Hks).
  { rewrite <- Hcc in Hs. clear Hcc HK Hsq. induction HG as [|k c K G [Hne Hc] _ IH]; [exists []; by split; constructor|].
    cbn [concat] in Hs. rewrite map_app in Hs. apply StronglySorted_app in Hs as (_ & Hs1 & Hs2).
    destruct (IH Hs2) as (kss & H1 & H2). destruct (chunk_by_keys f c Hs1) as (ks & Hks & Hf). exists (ks :: kss).
    split; constructor; try done. apply Forall_forall. intros k' [i Hi]%list_elem_of_lookup.
    destruct (Forall2_lookup_l _ _ _ _ _ Hf Hi) as (c' & Hc' & Hne' & Hk'). destruct c' as [|x c']; [done|].
    apply Forall_cons in Hk' as [<- _]. rewrite Forall_forall in Hc. apply Hc. rewrite <- (chunk_by_concat f c).
    apply list_elem_of_In, in_concat. exists (x :: c'). rewrite <- !list_elem_of_In. split; [by eapply list_elem_of_lookup_2|set_solver]. }
  assert (chunk_by f l = concat (map (chunk_by f) G)) as ->.
  { assert (l = concat (concat (map (chunk_by f) G))) as El.
    { rewrite <- Hcc. clear. induction G as [|c G IH]; [done|]. cbn. by rewrite concat_app, chunk_by_concat, <- IH. }
    rewrite El at 1. apply (chunk_by_unique f (concat kss)).
    - clear -HK HKs Hks Hq. revert G Hks. induction HKs as [|k ks K kss Hk HKs IH]; intros G Hks; [constructor|].
      apply Forall2_cons_inv_l in Hks as (c & G' & [Hs _] & Hks & ->). apply StronglySorted_inv in HK as [HK HkK].
      cbn [concat]. apply StronglySorted_app. split_and!; [|done|by eapply IH]. intros a b Ha Hb.
      apply list_elem_of_In, in_concat in Hb as (ks' & Hks' & Hb). apply list_elem_of_In in Hks'. apply list_elem_of_In in Hb.
      apply list_elem_of_lookup in Hks' as [i Hi]. destruct (Forall2_lookup_r _ _ _ _ _ HKs Hi) as (k' & Hk' & Hqk').
      rewrite Forall_forall in Hk, Hqk', HkK. specialize (Hk _ Ha). specialize (Hqk' _ Hb).
      assert (k < k') by (apply HkK; eapply list_elem_of_lookup_2; exact Hk'). destruct (Z.lt_ge_cases a b) as [|Hge]; [done|].
      apply Hq in Hge. lia.
    - clear -Hks. induction Hks as [|ks c kss G [_ Hf] _ IH]; [constructor|]. cbn. by apply Forall2_app. }
  apply (chunk_by_unique g K); [done|]. clear -HKs Hks Hg HG. revert G Hks HG.
  induction HKs as [|k ks K kss Hk HKs IH]; intros G Hks HG.
  { apply Forall2_nil_inv_l in HG as ->. constructor. }
  apply Forall2_cons_inv_l in Hks as (c & G' & [_ Hf] & Hks & ->). apply Forall2_cons in HG as [[Hne _] HG].
  cbn [map]. constructor; [|by apply IH]. split.
  - intros E. apply Hne. rewrite <- (chunk_by_concat f c). by rewrite E.
  - apply Forall_forall. intros c' [i Hi]%list_elem_of_lookup. destruct (Forall2_lookup_r _ _ _ _ _ Hf Hi) as (k' & Hk' & Hne' & Hc').
    rewrite (Hg c' k') by done. rewrite Forall_forall in Hk. apply Hk. by eapply list_elem_of_lookup_2.
Qed.

Lemma om_filter_split {V} t (m : OrdMap V) : om_sorted m ->
  m = om_filter (fun k => k <? t) m ++ om_filter (fun k => t <=? k) m.
Proof.
  induction m as [|[k v] m IH]; intros Hs; [done|]. apply om_sorted_inv in Hs as [Hs Hk]. unfold om_filter. cbn [List.filter fst].
  destruct (Z.ltb_spec k t) as [L|L].
  - rewrite (proj2 (Z.leb_gt _ _)) by lia. cbn [app]. f_equal. by apply IH.
  - rewrite (proj2 (Z.leb_le _ _)) by lia. change (List.filter _ m) with (om_filter (fun k => k <? t) m) at 1.
    rewrite (om_filter_nil (fun k => k <? t)).
    + cbn [app]. f_equal. change (List.filter _ m) with (om_filter (fun k => t <=? k) m). rewrite om_filter_all; [done|].
      intros k' (x & -> & Hx)%list_elem_of_fmap. rewrite Forall_forall in Hk. specialize (Hk _ Hx). cbn in Hk. lia.
    + intros k' (x & -> & Hx)%list_elem_of_fmap. rewrite Forall_forall in Hk. specialize (Hk _ Hx). cbn in Hk. lia.
Qed.

(** A sorted list is left as it is. *)
Lemma sort_by_id {A} (cmp : A -> A -> comparison) l : StronglySorted (fun a b => cmp a b <> Gt) l -> sort_by cmp l = l.
Proof.
  induction 1 as [|x l _ IH Hx]; [done|]. cbn [sort_by]. rewrite IH. destruct l as [|y l]; [done|].
  apply Forall_cons in Hx as [Hxy _]. cbn [insert_by]. by destruct (cmp x y).
Qed.

(** A key above all others goes to the end. *)
Lemma om_insert_above {V} k (v : V) m : Forall (fun x => x.1 < k) m -> om_insert k v m = m ++ [(k, v)].
Proof.
  induction 1 as [|[k0 v0] m Hk _ IH]; [done|]. cbn in Hk. cbn [om_insert app].
  rewrite (proj2 (Z.ltb_ge _ _)), (proj2 (Z.eqb_neq _ _)) by lia. by rewrite IH.
Qed.

(** Extending by keys that are new and distinct adds exactly these entries. *)
Lemma om_extend_elem {V} (m l : OrdMap V) k v : om_sorted m -> NoDup (map fst m ++ map fst l) ->
  (k, v) ∈ om_extend m l <-> (k, v) ∈ m \/ (k, v) ∈ l.
Proof.
  revert m. induction l as [|[k' v'] l IH]; intros m Hm Hn.
  - cbn. split; [by left|]. intros [?|?%not_elem_of_nil]; done.
  - cbn [map fst] in Hn. apply NoDup_app in Hn as (N1 & N2 & N3). apply NoDup_cons in N3 as [N3 N4].
    assert (k' ∉ map fst m) as Hk' by (intros Hin; apply (N2 _ Hin); by left).
    change (om_extend m ((k', v') :: l)) with (om_extend (om_insert k' v' m) l).
    pose proof (om_insert_sorted k' v' m Hm) as Hs. rewrite IH; [|done|].
    + rewrite elem_of_cons, <- (om_lookup_elem _ _ (om_insert k' v' m)), <- (om_lookup_elem _ _ m), om_lookup_insert by done. case_match eqn:E; guards_in E.
      * subst k'. rewrite (proj2 (om_lookup_None k m) Hk'). naive_solver.
      * naive_solver.
    + apply NoDup_app. split_and!; [apply sorted_nodup; exact Hs| |done].
      intros x [->|Hx]%om_insert_keys; [done|]. intros Hl. apply (N2 _ Hx). by right.
Qed.

Lemma om_extend_keys {V} (m l : OrdMap V) k : k ∈ map fst (om_extend m l) <-> k ∈ map fst m \/ k ∈ map fst l.
Proof.
  revert m. induction l as [|[k' v'] l IH]; intros m.
  - cbn. split; [by left|]. intros [?|?%not_elem_of_nil]; done.
  - change (om_extend m ((k', v') :: l)) with (om_extend (om_insert k' v' m) l). rewrite IH, om_insert_keys. cbn [map fst].
    rewrite elem_of_cons. naive_solver.
Qed.
