(* ===== verification/Bytes.v ===== *)
(** * Bytes: slices, little-endian words and bit operations on words

    The part of the prelude that the storage formats share: Rust slices
    [bytes.get(a..b)], [to_le_bytes] and [from_le_bytes], [trailing_zeros], the
    bitwise exclusive or of words, and a bounded output buffer. *)

From Stdlib Require Import ZArith Lia.
From Stdlib Require Import Strings.Byte.
From stdpp Require Import base gmap strings numbers.
From stdpp Require Import list.
From S2P Require Import Prelude.

(** Injectivity that leaves the terms as they are. *)
Lemma Ok_inj {E A} (a b : A) : @Ok E A a = Ok b -> a = b.
Proof. congruence. Qed.

(** ** Lengths and slices *)

(** [len()] as a [usize]. *)
Definition len {A} (l : list A) : Z := Z.of_nat (length l).

Lemma len_nonneg {A} (l : list A) : 0 <= len l.
Proof. unfold len. lia. Qed.
Lemma len_app {A} (l l' : list A) : len (l ++ l') = len l + len l'.
Proof. unfold len. rewrite length_app. lia. Qed.
Lemma len_nil {A} : len (@nil A) = 0.
Proof. done. Qed.
Lemma len_cons {A} (x : A) l : len (x :: l) = 1 + len l.
Proof. unfold len. simpl. lia. Qed.
Lemma len_array {n} (a : array n) : len (as_bytes a) = Z.of_nat n.
Proof. unfold len. by rewrite as_bytes_length. Qed.

Create Rewrite HintDb len.
#[export] Hint Rewrite @len_app @len_nil @len_cons @len_array : len.

(** [get(a..b)]. *)
Definition slice {A} (l : list A) (a b : Z) : option (list A) :=
  if (0 <=? a) && (a <=? b) && (b <=? len l)
  then Some (take (Z.to_nat (b - a)) (drop (Z.to_nat a) l)) else None.

Lemma slice_Some {A} (l : list A) a b r :
  slice l a b = Some r <->
  0 <= a <= b /\ b <= len l /\ r = take (Z.to_nat (b - a)) (drop (Z.to_nat a) l).
Proof.
  unfold slice. destruct (Z.leb_spec 0 a), (Z.leb_spec a b), (Z.leb_spec b (len l));
    simpl; split; intros H'; crush_eqs; try done; try lia.
Qed.

Lemma slice_app {A} (l1 l2 l3 : list A) a b :
  a = len l1 -> b = len l1 + len l2 -> slice (l1 ++ l2 ++ l3) a b = Some l2.
Proof.
  intros -> ->. apply slice_Some. autorewrite with len.
  pose proof (len_nonneg l1). pose proof (len_nonneg l2). pose proof (len_nonneg l3).
  repeat split; try lia. replace (Z.to_nat (len l1)) with (length l1) by (unfold len; lia).
  rewrite drop_app_length. replace (Z.to_nat _) with (length l2) by (unfold len; lia).
  by rewrite take_app_length.
Qed.

Lemma slice_len {A} (l : list A) a b r : slice l a b = Some r -> len r = b - a.
Proof.
  intros (Ha & Hb & ->)%slice_Some. unfold len in *.
  rewrite length_take, length_drop. lia.
Qed.

(** A slice cuts the list in three. *)
Lemma slice_split {A} (l : list A) a b r :
  slice l a b = Some r ->
  exists l1 l2, l = l1 ++ r ++ l2 /\ len l1 = a.
Proof.
  intros (Ha & Hb & ->)%slice_Some. exists (take (Z.to_nat a) l), (drop (Z.to_nat b) l).
  split.
  - rewrite <- (take_drop (Z.to_nat a) l) at 1. f_equal.
    rewrite <- (take_drop (Z.to_nat (b - a)) (drop (Z.to_nat a) l)) at 1. f_equal.
    rewrite drop_drop. f_equal. lia.
  - unfold len in *. rewrite length_take. lia.
Qed.

Lemma slice_prefix {A} (l l' : list A) a b r :
  slice l a b = Some r -> slice (l ++ l') a b = Some r.
Proof.
  intros H. pose proof (slice_len _ _ _ _ H). destruct (slice_split _ _ _ _ H) as (l1 & l2 & -> & <-).
  rewrite <- !app_assoc. apply slice_app; lia.
Qed.

(** [bytes.split_at(n)] when it fits: a read of exactly [n] bytes from a stream. *)
Definition read_exact {A} (n : nat) (l : list A) : option (list A * list A) :=
  if decide (n <= length l)%nat then Some (take n l, drop n l) else None.

Arguments read_exact : simpl never.

Lemma read_exact_Some {A} n (l a b : list A) :
  read_exact n l = Some (a, b) <-> l = a ++ b /\ length a = n.
Proof.
  unfold read_exact. case_decide as H; split.
  - intros [= <- <-]. by rewrite take_drop, length_take_le.
  - intros [-> <-]. by rewrite take_app_length, drop_app_length.
  - done.
  - intros [-> <-]. rewrite length_app in H. lia.
Qed.
Lemma read_exact_app {A} (a b : list A) : read_exact (length a) (a ++ b) = Some (a, b).
Proof. by apply read_exact_Some. Qed.

(** ** Little-endian words *)

Definition to_le (n : nat) (z : Z) : list byte := rev (to_be n z).
Definition from_le (bs : list byte) : Z := from_be (rev bs).

Arguments to_be : simpl never.
Arguments to_le : simpl never.
Arguments from_le : simpl never.

Lemma length_to_le n z : length (to_le n z) = n.
Proof. unfold to_le. by rewrite length_rev, length_to_be. Qed.
Lemma from_to_le n z : from_le (to_le n z) = z mod 256 ^ Z.of_nat n.
Proof. unfold from_le, to_le. rewrite rev_involutive. apply from_to_be. Qed.
Lemma from_to_le_small n z : 0 <= z < 256 ^ Z.of_nat n -> from_le (to_le n z) = z.
Proof. intros H. rewrite from_to_le. by apply Z.mod_small. Qed.
Lemma to_from_le bs : to_le (length bs) (from_le bs) = bs.
Proof. unfold from_le, to_le. rewrite <- length_rev, to_from_be. apply rev_involutive. Qed.
Lemma from_le_bound bs : 0 <= from_le bs < 256 ^ Z.of_nat (length bs).
Proof. unfold from_le. rewrite <- length_rev. apply from_be_bound. Qed.
Lemma from_le_cons b bs : from_le (b :: bs) = byte_val b + 256 * from_le bs.
Proof. unfold from_le. simpl. rewrite from_be_snoc. lia. Qed.
Lemma from_le_app xs ys : from_le (xs ++ ys) = from_le xs + 256 ^ Z.of_nat (length xs) * from_le ys.
Proof.
  induction xs as [|x xs IH]; simpl app.
  - change (from_le []) with 0. change (256 ^ Z.of_nat (length (@nil byte))) with 1. lia.
  - rewrite !from_le_cons, IH. cbn [length]. rewrite Nat2Z.inj_succ, Z.pow_succ_r by lia. lia.
Qed.
Lemma len_to_le n z : len (to_le n z) = Z.of_nat n.
Proof. unfold len. by rewrite length_to_le. Qed.
Lemma len_to_be n z : len (to_be n z) = Z.of_nat n.
Proof. unfold len. by rewrite length_to_be. Qed.
#[export] Hint Rewrite len_to_le len_to_be : len.

(** The low [k] bytes of a word are its first [k] little-endian bytes. *)
Lemma from_le_take k bs :
  (k <= length bs)%nat -> from_le (take k bs) = from_le bs mod 256 ^ Z.of_nat k.
Proof.
  revert k. induction bs as [|b bs IH]; intros [|k] Hk; simpl in *; try lia.
  1,2: change (256 ^ Z.of_nat 0) with 1; by rewrite Z.mod_1_r.
  rewrite !from_le_cons, IH by lia. pose proof (byte_val_bound b).
  rewrite Nat2Z.inj_succ, Z.pow_succ_r by lia.
  pose proof (Z.pow_pos_nonneg 256 (Z.of_nat k)). rewrite (Z.rem_mul_r _ 256) by lia.
  rewrite (Z.mul_comm 256 (from_le bs)), Z.mod_add, Z.div_add by lia.
  rewrite (Z.mod_small (byte_val b)), (Z.div_small (byte_val b)) by lia. by rewrite Z.add_0_l.
Qed.

(** ** Bit operations *)

(** [trailing_zeros] of a non-zero word of at most [fuel] bits. *)
Fixpoint ctz (fuel : nat) (z : Z) : Z :=
  match fuel with
  | O => 0
  | S fuel => if Z.odd z then 0 else 1 + ctz fuel (z / 2)
  end.
Definition trailing_zeros_u64 (z : Z) : Z := ctz 64 z.

Lemma ctz_bounds fuel z : 0 <= ctz fuel z <= Z.of_nat fuel.
Proof. revert z; induction fuel as [|f IH]; intros z; cbn [ctz]; [lia|]. specialize (IH (z / 2)). destruct (Z.odd z); lia. Qed.

Lemma ctz_testbit fuel z i : 0 <= i < ctz fuel z -> Z.testbit z i = false.
Proof.
  revert z i. induction fuel as [|f IH]; intros z i; cbn [ctz]; [lia|].
  destruct (Z.odd z) eqn:E; [lia|]. intros Hi.
  destruct (decide (i = 0)) as [->|Hn].
  { by rewrite Z.bit0_odd. }
  replace i with (Z.succ (i - 1)) by lia.
  rewrite <- Z.div2_bits by lia. apply IH. lia.
Qed.

(** Words whose exclusive or has [8 k] trailing zeros agree on [k] bytes. *)
Lemma lxor_agree a b k :
  (forall i, 0 <= i < 8 * Z.of_nat k -> Z.testbit (Z.lxor a b) i = false) ->
  a mod 256 ^ Z.of_nat k = b mod 256 ^ Z.of_nat k.
Proof.
  intros H. change 256 with (2 ^ 8). rewrite <- Z.pow_mul_r by lia.
  apply Z.bits_inj'. intros i Hi.
  destruct (Z.lt_ge_cases i (8 * Z.of_nat k)) as [L|L].
  - rewrite !Z.mod_pow2_bits_low by lia. specialize (H i (conj Hi L)).
    rewrite Z.lxor_spec in H. by destruct (Z.testbit a i), (Z.testbit b i).
  - by rewrite !Z.mod_pow2_bits_high by lia.
Qed.

Lemma agree_bytes xs ys k :
  length xs = length ys -> (k <= length xs)%nat ->
  (forall i, 0 <= i < 8 * Z.of_nat k -> Z.testbit (Z.lxor (from_le xs) (from_le ys)) i = false) ->
  take k xs = take k ys.
Proof.
  intros Hl Hk H%lxor_agree. rewrite <- !from_le_take in H by lia.
  rewrite <- (to_from_le (take k xs)), <- (to_from_le (take k ys)), H.
  f_equal. rewrite !length_take. lia.
Qed.

(** Words that share no bit. *)
Lemma lor_shift a b k : 0 <= k -> 0 <= a < 2 ^ k -> 0 <= b -> Z.lor a (Z.shiftl b k) = a + b * 2 ^ k.
Proof.
  intros Hk Ha Hb. assert (Z.land a (Z.shiftl b k) = 0) as E.
  { apply Z.bits_inj'. intros i Hi. rewrite Z.land_spec, Z.shiftl_spec, Z.bits_0 by lia.
    destruct (Z.lt_ge_cases i k).
    - rewrite (Z.testbit_neg_r b) by lia. apply andb_false_r.
    - rewrite <- (Z.mod_small a (2 ^ k)), Z.mod_pow2_bits_high by lia. done. }
  rewrite <- Z.lxor_lor, <- Z.add_nocarry_lxor by done.
  by rewrite Z.shiftl_mul_pow2 by lia.
Qed.

(** ** A bounded output buffer

    A [vec![0; capacity]] that is only written at its end, [out] being the part
    already written. A write past the end panics. *)
Definition buf_push {E} (panic : E) (capacity : Z) (out bs : list byte) : result E (list byte) :=
  if len out + len bs <=? capacity then Ok (out ++ bs) else Err panic.

Lemma buf_push_Ok {E} (p : E) cap out bs :
  len out + len bs <= cap -> buf_push p cap out bs = Ok (out ++ bs).
Proof. intros H. unfold buf_push. by rewrite (proj2 (Z.leb_le _ _) H). Qed.

(** ** Fields at fixed offsets *)

(** [bytes.get(off..off + n)] as a big-endian word and as an array. *)
Definition get_be (n : nat) (bytes : list byte) (off : Z) : option Z :=
  s ← slice bytes off (off + Z.of_nat n); Some (from_be s).
Definition get_array (n : nat) (bytes : list byte) (off : Z) : option (array n) :=
  s ← slice bytes off (off + Z.of_nat n); array_of n s.

Lemma slice_skip {A} (l1 l2 : list A) a b :
  len l1 <= a -> slice (l1 ++ l2) a b = slice l2 (a - len l1) (b - len l1).
Proof.
  intros Ha. unfold slice. rewrite len_app. pose proof (len_nonneg l1).
  rewrite drop_app_ge by (unfold len in *; lia).
  replace (Z.to_nat (a - len l1)) with (Z.to_nat a - length l1)%nat by (unfold len in *; lia).
  replace (b - len l1 - (a - len l1)) with (b - a) by lia.
  destruct (Z.leb_spec 0 a), (Z.leb_spec 0 (a - len l1)), (Z.leb_spec a b), (Z.leb_spec (a - len l1) (b - len l1)),
    (Z.leb_spec b (len l1 + len l2)), (Z.leb_spec (b - len l1) (len l2)); simpl; try lia; done.
Qed.
Lemma slice_here {A} (l1 l2 : list A) b : b = len l1 -> slice (l1 ++ l2) 0 b = Some l1.
Proof. intros ->. apply (slice_app [] l1 l2); by rewrite ?Z.add_0_l. Qed.

Lemma get_be_skip n l1 l2 off : len l1 <= off -> get_be n (l1 ++ l2) off = get_be n l2 (off - len l1).
Proof. intros H. unfold get_be. rewrite slice_skip by done. by replace (off + Z.of_nat n - len l1) with (off - len l1 + Z.of_nat n) by lia. Qed.
Lemma get_array_skip n l1 l2 off : len l1 <= off -> get_array n (l1 ++ l2) off = get_array n l2 (off - len l1).
Proof. intros H. unfold get_array. rewrite slice_skip by done. by replace (off + Z.of_nat n - len l1) with (off - len l1 + Z.of_nat n) by lia. Qed.
Lemma get_be_here n z l : 0 <= z < 256 ^ Z.of_nat n -> get_be n (to_be n z ++ l) 0 = Some z.
Proof. intros H. unfold get_be. rewrite slice_here by (by rewrite len_to_be). simpl. by rewrite from_to_be_small. Qed.
Lemma get_u32_here z l : u32_ok z -> get_be 4 (to_be 4 z ++ l) 0 = Some z.
Proof. unfold u32_ok, u32_max. intros H. apply get_be_here. change (256 ^ Z.of_nat 4) with 4294967296. lia. Qed.
Lemma get_u64_here z l : u64_ok z -> get_be 8 (to_be 8 z ++ l) 0 = Some z.
Proof. unfold u64_ok, u64_max. intros H. apply get_be_here. change (256 ^ Z.of_nat 8) with 18446744073709551616. lia. Qed.
Lemma get_array_here {n} (a : array n) l : get_array n (as_bytes a ++ l) 0 = Some a.
Proof. unfold get_array. rewrite slice_here by (by rewrite len_array). apply array_of_as_bytes. Qed.

Lemma get_be_Some n bytes off z :
  get_be n bytes off = Some z <->
  0 <= z < 256 ^ Z.of_nat n /\ slice bytes off (off + Z.of_nat n) = Some (to_be n z).
Proof.
  unfold get_be. split.
  - intros (s & Hs & [= <-])%bind_Some. pose proof (slice_len _ _ _ _ Hs) as Hl.
    assert (length s = n) as <- by (unfold len in Hl; lia). by rewrite to_from_be; split; [apply from_be_bound|].
  - intros [Hz ->]. simpl. by rewrite from_to_be_small.
Qed.
Lemma get_array_Some n bytes off a :
  get_array n bytes off = Some a <-> slice bytes off (off + Z.of_nat n) = Some (as_bytes a).
Proof.
  unfold get_array. split.
  - intros (s & Hs & <-%array_of_Some)%bind_Some. done.
  - intros ->. apply array_of_as_bytes.
Qed.
Lemma slice_join {A} (l r r' : list A) a b c :
  slice l a b = Some r -> slice l b c = Some r' -> slice l a c = Some (r ++ r').
Proof.
  rewrite !slice_Some. intros (? & ? & ->) (? & ? & ->). split_and!; try lia.
  replace (Z.to_nat (c - a)) with (Z.to_nat (b - a) + Z.to_nat (c - b))%nat by lia.
  rewrite <- take_take_drop, drop_drop. do 3 f_equal. lia.
Qed.

Arguments get_be : simpl never.
Arguments get_array : simpl never.

(** Evaluate fields of a concatenation of fields of known lengths. *)
Ltac close_offset off := let o := eval vm_compute in off in progress change off with o.
Ltac eval_gets :=
  repeat (first
    [ rewrite get_u32_here by done | rewrite get_u64_here by done | rewrite get_array_here
    | (rewrite get_be_skip by (autorewrite with len; lia))
    | (rewrite get_array_skip by (autorewrite with len; lia)) ];
    autorewrite with len;
    repeat match goal with
    | |- context [get_be _ _ ?off] => close_offset off
    | |- context [get_array _ _ ?off] => close_offset off
    end;
    cbn [ok_or mbind result_bind]).

(** ** Chunks *)

(** [as_chunks::<N>()]: the whole chunks and the remainder. *)
Fixpoint chunks_from {A} (fuel n : nat) (l : list A) : list (list A) :=
  match fuel with
  | O => []
  | S fuel => if (n <=? length l)%nat then take n l :: chunks_from fuel n (drop n l) else []
  end.
Definition as_chunks {A} (n : nat) (l : list A) : list (list A) * list A :=
  (chunks_from (length l) n l, drop (length l / n * n) l).

Lemma chunks_concat {A} fuel n (ls : list (list A)) :
  (0 < n)%nat -> Forall (fun l => length l = n) ls -> (length ls <= fuel)%nat ->
  chunks_from fuel n (concat ls) = ls.
Proof.
  intros Hn. revert fuel. induction ls as [|l ls IH]; intros fuel Hf Hl; simpl.
  { destruct fuel; simpl; [done|]. destruct n; [lia|done]. }
  apply Forall_cons_1 in Hf as [Hl1 Hf]. simpl in Hl. destruct fuel as [|fuel]; [lia|]. cbn [chunks_from].
  rewrite (proj2 (Nat.leb_le _ _)) by (rewrite length_app; lia). subst n.
  rewrite take_app_length, drop_app_length, IH by (done || lia). done.
Qed.
Lemma as_chunks_concat {A} n (ls : list (list A)) :
  (0 < n)%nat -> Forall (fun l => length l = n) ls -> as_chunks n (concat ls) = (ls, []).
Proof.
  intros Hn Hf. unfold as_chunks.
  assert (length (concat ls) = length ls * n)%nat as E.
  { clear -Hf. induction Hf as [|l ls <- _ IH]; simpl; [done|]. rewrite length_app, IH. lia. }
  rewrite E, Nat.div_mul by lia. f_equal; [apply chunks_concat; [done..|nia]|].
  apply drop_ge. lia.
Qed.

(** ** Slices of slices *)

Lemma slice_cut {A} (l r r' : list A) a b c :
  slice l a c = Some (r ++ r') -> len r = b - a -> slice l a b = Some r /\ slice l b c = Some r'.
Proof.
  intros Hs Hr. pose proof (slice_len _ _ _ _ Hs) as Hl. rewrite len_app in Hl.
  apply slice_split in Hs as (l1 & l2 & -> & Hl1). pose proof (len_nonneg r'). split.
  - rewrite <- app_assoc. apply slice_app; lia.
  - rewrite !app_assoc, <- app_assoc. apply slice_app; rewrite ?len_app; lia.
Qed.
Lemma get_be_slice n l a b r k :
  slice l a b = Some r -> 0 <= k -> k + Z.of_nat n <= len r -> get_be n l (a + k) = get_be n r k.
Proof.
  intros Hs Hk Hn. apply slice_split in Hs as (l1 & l2 & -> & <-). rewrite get_be_skip by lia.
  replace (len l1 + k - len l1) with k by lia. unfold get_be.
  destruct (slice r k (k + Z.of_nat n)) as [s|] eqn:E; [by rewrite (slice_prefix _ _ _ _ _ E)|].
  unfold slice in E. by rewrite !(proj2 (Z.leb_le _ _)) in E by lia.
Qed.
Lemma get_array_slice n l a b r k :
  slice l a b = Some r -> 0 <= k -> k + Z.of_nat n <= len r -> get_array n l (a + k) = get_array n r k.
Proof.
  intros Hs Hk Hn. apply slice_split in Hs as (l1 & l2 & -> & <-). rewrite get_array_skip by lia.
  replace (len l1 + k - len l1) with k by lia. unfold get_array.
  destruct (slice r k (k + Z.of_nat n)) as [s|] eqn:E; [by rewrite (slice_prefix _ _ _ _ _ E)|].
  unfold slice in E. by rewrite !(proj2 (Z.leb_le _ _)) in E by lia.
Qed.
Lemma slice_all {A} (l : list A) : slice l 0 (len l) = Some l.
Proof. rewrite <- (app_nil_r l) at 1. by apply slice_here. Qed.
Lemma slice_empty {A} (l : list A) a : 0 <= a <= len l -> slice l a a = Some [].
Proof. intros H. apply slice_Some. rewrite Z.sub_diag. split_and!; try lia. done. Qed.
