(* ===== verification/Identity.v ===== *)
(** * Identity: errors, fixed-width identities, hex text and Cell targets

    Models [crates/cellule-runtime/src/identity.rs] and the part of
    [error.rs] that the modelled components return. Rust text ([str]) is its
    UTF-8 byte sequence. BLAKE3 is a third-party hash and enters as a parameter;
    what is proved about it is the injectivity of the preimages the code feeds
    to it. *)

From Stdlib Require Import ZArith Lia.
From Stdlib Require Import Strings.Byte.
From stdpp Require Import base list gmap strings.
From S2P Require Import Prelude.

Local Open Scope bool_scope.

Abbreviation str := (list byte).
Definition text (s : string) : str := String.list_byte_of_string s.

Abbreviation TenantId := (array 16).
Abbreviation ApplicationId := (array 16).
Abbreviation NamespaceId := (array 16).
Abbreviation NodeId := (array 16).
Abbreviation SessionId := (array 16).
Abbreviation IncarnationId := (array 16).
Abbreviation RequestId := (array 16).
Abbreviation Digest := (array 32).
Abbreviation CellId := (array 32).

(** ** Errors

    Only the constructors the modelled code returns or tests; messages are the
    [&'static str] of the source. [Unavailable] stands for every storage failure
    that the modelled callers pass on without inspecting it. *)
Module StorageError.
Inductive StorageError :=
| StateConflict
| NotFound
| CorruptObject
| Unavailable.
End StorageError.
Abbreviation StorageError := StorageError.StorageError.

Module Error.
Inductive Error :=
| Identity (message : string)
| Control (message : string)
| OwnerHistoryIncomplete (cell : CellId) (incarnation : IncarnationId) (epoch : Z)
| Json
| PeerAuthorization (message : string)
| Node (message : string)
| Storage (source : StorageError)
| Command (message : string)
| Fenced
| CellAlreadyActive
| Capacity (message : string)
| RuntimeStart
| Codec (message : string)
| Catalog (message : string).
End Error.
Abbreviation Error := Error.Error.
Abbreviation Result := (result Error).

Global Instance StorageError_eq_dec : EqDecision StorageError.
Proof. solve_decision. Defined.
Global Instance Error_eq_dec : EqDecision Error.
Proof. solve_decision. Defined.

(** ** Lowercase hex *)

Definition hex_table : str := text "0123456789abcdef".

(** [TABLE[index]] for an index in 0..16. *)
Definition hex_digit (v : Z) : byte := nth (Z.to_nat v) hex_table x00.

(*@ identity.rs 160-168 encode_hex *)
Definition encode_hex (bytes : list byte) : str :=
  flat_map (fun b => [hex_digit (Z.shiftr (byte_val b) 4);
                      hex_digit (Z.land (byte_val b) 15)]) bytes.

(*@ identity.rs 184-190 nibble *)
Definition nibble (b : byte) : option Z :=
  let v := byte_val b in
  if (byte_val "0" <=? v) && (v <=? byte_val "9") then Some (v - byte_val "0")
  else if (byte_val "a" <=? v) && (v <=? byte_val "f") then Some (v - byte_val "a" + 10)
  else None.

(** The loop of [decode_hex] over the two-byte chunks of the value. *)
Fixpoint decode_pairs (value : str) : Result (list byte) :=
  match value with
  | hi :: lo :: value =>
      high ← ok_or (nibble hi) (Error.Control "hex field must be lowercase");
      low ← ok_or (nibble lo) (Error.Control "hex field must be lowercase");
      rest ← decode_pairs value;
      Ok (byte_of (Z.lor (Z.shiftl high 4) low) :: rest)
  | _ => Ok []
  end.

(*@ identity.rs 170-181 decode_hex *)
Definition decode_hex (N : nat) (value : str) : Result (array N) :=
  if negb (length value =? N * 2)%nat then Err (Error.Control "hex field length")
  else
    decoded ← decode_pairs value;
    (* the array has exactly [N] bytes because the text has [2 * N] *)
    ok_or (array_of N decoded) (Error.Control "hex field length").

Lemma hex_pair b :
  nibble (hex_digit (Z.shiftr (byte_val b) 4)) = Some (Z.shiftr (byte_val b) 4) /\
  nibble (hex_digit (Z.land (byte_val b) 15)) = Some (Z.land (byte_val b) 15) /\
  byte_of (Z.lor (Z.shiftl (Z.shiftr (byte_val b) 4) 4) (Z.land (byte_val b) 15)) = b.
Proof. destruct b; vm_compute; auto. Qed.

Lemma nibble_hex_digit b v : nibble b = Some v -> 0 <= v < 16 /\ hex_digit v = b.
Proof.
  intros H. destruct b; vm_compute in H; try discriminate H; injection H as <-;
    (split; [split; [discriminate|reflexivity]|reflexivity]).
Qed.

(** Exhaustive over the 256 nibble pairs. *)
Lemma nibbles_split h l :
  0 <= h < 16 -> 0 <= l < 16 ->
  let b := byte_of (Z.lor (Z.shiftl h 4) l) in
  Z.shiftr (byte_val b) 4 = h /\ Z.land (byte_val b) 15 = l.
Proof.
  intros Hh Hl.
  assert (forallb (fun h => forallb (fun l =>
    let b := byte_of (Z.lor (Z.shiftl h 4) l) in
    (Z.shiftr (byte_val b) 4 =? h) && (Z.land (byte_val b) 15 =? l))
    (seqZ 0 16)) (seqZ 0 16) = true) as H by (vm_compute; reflexivity).
  rewrite forallb_forall in H. specialize (H h). rewrite forallb_forall in H.
  specialize (H ltac:(apply list_elem_of_In, elem_of_seqZ; lia) l
                ltac:(apply list_elem_of_In, elem_of_seqZ; lia)).
  cbv zeta in H |- *. by rewrite andb_true_iff, !Z.eqb_eq in H.
Qed.

Lemma length_encode_hex bs : length (encode_hex bs) = (length bs * 2)%nat.
Proof. induction bs as [|b bs IH]; simpl in *; lia. Qed.

Lemma decode_pairs_encode bs : decode_pairs (encode_hex bs) = Ok bs.
Proof.
  induction bs as [|b bs IH]; [done|].
  destruct (hex_pair b) as (H1 & H2 & H3).
  cbn [encode_hex flat_map app decode_pairs]. rewrite H1, H2.
  cbn [ok_or mbind result_bind].
  fold (encode_hex bs). rewrite IH. cbn [mbind result_bind]. by rewrite H3.
Qed.

Lemma decode_pairs_canonical bs : forall value n,
  length value = (n * 2)%nat -> decode_pairs value = Ok bs -> value = encode_hex bs.
Proof.
  induction bs as [|b bs IH]; intros [|hi [|lo value]] n Hlen H; simpl in *; try done; try lia.
  - open_ok H. done.
  - open_ok H. apply ok_or_Ok in H0 as [? <-]%nibble_hex_digit, H1 as [? <-]%nibble_hex_digit.
    destruct (nibbles_split x x0) as [E1 E2]; [done..|]. rewrite E1, E2.
    do 2 f_equal. apply (IH value (n - 1)%nat); [lia|done].
Qed.

Lemma decode_encode_hex {N} (a : array N) : decode_hex N (encode_hex (as_bytes a)) = Ok a.
Proof.
  unfold decode_hex. rewrite length_encode_hex, as_bytes_length, Nat.eqb_refl. simpl.
  rewrite decode_pairs_encode. simpl. by rewrite array_of_as_bytes.
Qed.

Lemma decode_hex_canonical {N} value (a : array N) :
  decode_hex N value = Ok a -> value = encode_hex (as_bytes a).
Proof.
  unfold decode_hex. intros H. open_ok H.
  apply ok_or_Ok, array_of_Some in H. subst.
  rewrite negb_false_iff, Nat.eqb_eq in H0. by eapply decode_pairs_canonical.
Qed.

(** ** Cell targets and shards *)

(*@ identity.rs 60-65 CellTarget *)
Record CellTarget := MkTarget {
  tenant : TenantId;
  application : ApplicationId;
  namespace : NamespaceId;
  partition : list byte
}.

(*@ identity.rs 69-84 CellTarget::new *)
Definition CellTarget_new (tenant : TenantId) (application : ApplicationId)
    (namespace : NamespaceId) (partition : list byte) : Result CellTarget :=
  if (1024 <? length partition)%nat then Err (Error.Identity "partition exceeds 1024 bytes")
  else Ok {| tenant := tenant; application := application;
             namespace := namespace; partition := partition |}.

(** The byte stream [cell_id] feeds to the hasher. *)
Definition cell_id_preimage (t : CellTarget) : list byte :=
  text "crab.cell.v1" ++ [x00] ++ as_bytes (tenant t) ++ as_bytes (application t) ++
  as_bytes (namespace t) ++ to_be 4 (Z.of_nat (length (partition t))) ++ partition t.

(** The byte stream [shard_for_scope] feeds to the hasher. *)
Definition shard_preimage (namespace : NamespaceId) (scope : list byte) : list byte :=
  text "crab.shard.v1" ++ [x00] ++ as_bytes namespace ++
  to_be 4 (Z.of_nat (length scope)) ++ scope.

(** [u32::is_power_of_two]. *)
Definition is_power_of_two (n : Z) : bool := (0 <? n) && (Z.land n (n - 1) =? 0).

(*@ identity.rs 149-151 partition_for_shard *)
Definition partition_for_shard (shard : Z) : list byte := to_be 4 shard.

Section Hashing.
(** BLAKE3 of a byte stream. *)
Context (blake3 : list byte -> Digest).

(*@ identity.rs 89-98 CellTarget::cell_id *)
Definition cell_id (t : CellTarget) : CellId := blake3 (cell_id_preimage t).

(*@ identity.rs 126-145 shard_for_scope *)
Definition shard_for_scope (namespace : NamespaceId) (scope : list byte) (shard_count : Z)
  : Result Z :=
  if (1024 <? length scope)%nat then Err (Error.Identity "scope exceeds 1024 bytes")
  else if negb ((1 <=? shard_count) && (shard_count <=? 4096))
          || negb (is_power_of_two shard_count) then
    Err (Error.Identity "shard count must be a power of two in 1..=4096")
  else
    let prefix := take 8 (as_bytes (blake3 (shard_preimage namespace scope))) in
    Ok (from_be prefix mod shard_count).

Lemma shard_for_scope_Ok ns scope count s :
  shard_for_scope ns scope count = Ok s ->
  1 <= count <= 4096 /\ 0 <= s < count.
Proof.
  unfold shard_for_scope. intros H. open_ok H.
  rewrite orb_false_iff, !negb_false_iff, andb_true_iff, !Z.leb_le in H1.
  destruct H1 as [H1 _]. split; [done|]. apply Z.mod_pos_bound; lia.
Qed.
End Hashing.

(** Two appended fixed-width prefixes split uniquely. *)
Lemma app_array_inj {n} (a b : array n) l l' :
  as_bytes a ++ l = as_bytes b ++ l' -> a = b /\ l = l'.
Proof.
  intros H. apply app_inj_1 in H as [H ->]; [|by rewrite !as_bytes_length].
  split; [by apply array_eq|done].
Qed.

(** A 32-bit length prefix splits uniquely. *)
Lemma app_be4_inj (l l' : list byte) :
  Z.of_nat (length l) <= u32_max -> Z.of_nat (length l') <= u32_max ->
  to_be 4 (Z.of_nat (length l)) ++ l = to_be 4 (Z.of_nat (length l')) ++ l' -> l = l'.
Proof.
  intros Hl Hl' H. apply app_inj_1 in H as [_ H]; [done|by rewrite !length_to_be].
Qed.

Lemma cell_id_preimage_inj t t' : cell_id_preimage t = cell_id_preimage t' -> t = t'.
Proof.
  unfold cell_id_preimage. intros H.
  apply app_inv_head, app_inv_head in H.
  apply app_array_inj in H as [E1 H], H as [E2 H], H as [E3 H].
  apply app_inj_1 in H as [_ H]; [|by rewrite !length_to_be].
  destruct t, t'; simpl in *; congruence.
Qed.

(** The Cell identity binds every field of its target: if BLAKE3 does not
    collide on the two streams, two targets with the same Cell ID are the same
    tenant, application, namespace and partition. The streams themselves never
    coincide for different targets, so no field can be shifted into another. *)
Theorem cell_id_binds_target blake3 t t' :
  (blake3 (cell_id_preimage t) = blake3 (cell_id_preimage t') ->
   cell_id_preimage t = cell_id_preimage t') ->
  cell_id blake3 t = cell_id blake3 t' -> t = t'.
Proof. unfold cell_id. intros Hh H. by apply cell_id_preimage_inj, Hh. Qed.

Lemma cell_id_binds_target_witness :
  let t := MkTarget (array_fill 16 x01) (array_fill 16 x02) (array_fill 16 x03) (text "r-42") in
  let h := fun l => match array_of 32 (take 32 (l ++ repeat x00 32)) with
                    | Some a => a | None => array_fill 32 x00 end in
  cell_id h t = cell_id h t /\ t = t.
Proof.
  set (t := MkTarget (array_fill 16 x01) (array_fill 16 x02) (array_fill 16 x03) (text "r-42")).
  cbv zeta. split; [reflexivity|].
  apply (cell_id_binds_target (fun l => match array_of 32 (take 32 (l ++ repeat x00 32)) with
                    | Some a => a | None => array_fill 32 x00 end) t t);
    [intros _; reflexivity|reflexivity].
Defined.
