(* ===== verification/Text.v ===== *)
(** * Text: decimal text and delimited fields

    [ToString] and [FromStr] of the integer types, which the JSON records of the
    runtime and of the replica both print their 64-bit numbers with, and the
    packing of text fields into bytes that the concrete serializers of the
    witnesses use. *)

From Stdlib Require Import ZArith Lia.
From Stdlib Require Import Strings.Byte.
From stdpp Require Import base list strings.
From S2P Require Import Prelude Identity.

Local Open Scope bool_scope.

(** ** Decimal text: [ToString] and [FromStr] of the integer types *)

Definition digit_char (d : Z) : byte := byte_of (48 + d).

(** Decimal digits of a non-negative value; twenty digits hold every 64-bit one. *)
Fixpoint digits (fuel : nat) (z : Z) : str :=
  match fuel with
  | O => []
  | S fuel => if z <? 10 then [digit_char z] else digits fuel (z / 10) ++ [digit_char (z mod 10)]
  end.

Definition to_string_u64 (z : Z) : str := digits 20 z.
Definition to_string_i64 (z : Z) : str :=
  if z <? 0 then byte_of 45 :: digits 20 (- z) else digits 20 z.

(** [char::to_digit(10)]. *)
Definition to_digit (c : byte) : option Z :=
  if (48 <=? byte_val c) && (byte_val c <=? 57) then Some (byte_val c - 48) else None.

(** The digit loop of [from_str_radix]: checked multiply, then a checked add, or a
    checked subtract for a negative number. *)
Fixpoint parse_digits (lo hi sign : Z) (s : str) (acc : Z) : option Z :=
  match s with
  | [] => Some acc
  | c :: s =>
      d ← to_digit c;
      let m := acc * 10 in
      if (lo <=? m) && (m <=? hi) then
        let a := m + sign * d in
        if (lo <=? a) && (a <=? hi) then parse_digits lo hi sign s a else None
      else None
  end.

(** [from_str_radix(10)]: empty text and a bare sign are errors, a plus sign is
    accepted, a minus sign only by signed types. *)
Definition parse_int (lo hi : Z) (is_signed : bool) (s : str) : option Z :=
  match s with
  | [] => None
  | c :: rest =>
      if (byte_val c =? 43) || (byte_val c =? 45) && is_signed then
        match rest with
        | [] => None
        | _ => parse_digits lo hi (if byte_val c =? 45 then -1 else 1) rest 0
        end
      else parse_digits lo hi 1 s 0
  end.

Definition parse_u64 : str -> option Z := parse_int 0 u64_max false.
Definition parse_i64 : str -> option Z := parse_int i64_min i64_max true.

(** ** Decimal text is canonical *)

Lemma to_digit_char d : 0 <= d < 10 -> to_digit (digit_char d) = Some d.
Proof.
  intros Hd. unfold to_digit, digit_char. rewrite byte_val_of, Z.mod_small by lia.
  case_match eqn:E; guards; [f_equal; lia|lia].
Qed.

Lemma parse_digits_app lo hi sign f z rest :
  lo <= 0 <= hi -> (sign = 1 \/ sign = -1) -> lo <= sign * z <= hi ->
  0 <= z < 10 ^ Z.of_nat f -> (0 < f)%nat ->
  parse_digits lo hi sign (digits f z ++ rest) 0 = parse_digits lo hi sign rest (sign * z).
Proof.
  intros H0 Hs. revert z rest. induction f as [|f IH]; intros z rest Hz Hf Hpos; [lia|].
  cbn [digits]. destruct (Z.ltb_spec z 10) as [Hlt|Hge].
  - cbn [app parse_digits]. rewrite to_digit_char by lia. simpl.
    assert (0 * 10 + sign * z = sign * z) as -> by lia. change (0 * 10) with 0.
    by rewrite !(proj2 (Z.leb_le _ _)) by lia.
  - destruct f as [|f]; [change (10 ^ Z.of_nat 1) with 10 in Hf; lia|].
    pose proof (Z.div_mod z 10 ltac:(lia)) as Hdm. pose proof (Z.mod_pos_bound z 10 eq_refl) as Hm.
    rewrite <- app_assoc, IH; [|nia| |lia].
    + cbn [app parse_digits]. rewrite to_digit_char by lia. cbn [mbind option_bind].
      assert (sign * (z / 10) * 10 + sign * (z mod 10) = sign * z) as -> by nia.
      assert (lo <= sign * (z / 10) * 10 <= hi) by (destruct Hs as [->| ->]; nia).
      by rewrite !(proj2 (Z.leb_le _ _)) by lia.
    + rewrite (Nat2Z.inj_succ (S f)), Z.pow_succ_r in Hf by lia.
      split; [apply Z.div_pos; lia|]. apply Z.div_lt_upper_bound; lia.
Qed.

Lemma parse_digits_range lo hi sign s acc n :
  lo <= acc <= hi -> parse_digits lo hi sign s acc = Some n -> lo <= n <= hi.
Proof.
  revert acc. induction s as [|c s IH]; intros acc Hacc; simpl.
  - by intros [= <-].
  - destruct (to_digit c); simpl; [|done].
    case_match; [|done]. case_match eqn:E; [|done]. guards. by apply IH.
Qed.

Lemma parse_int_range lo hi b s n :
  lo <= 0 <= hi -> parse_int lo hi b s = Some n -> lo <= n <= hi.
Proof.
  intros H0. unfold parse_int. repeat case_match; try done; by apply parse_digits_range.
Qed.

Lemma digits_head f z :
  (0 < f)%nat -> exists d t, digits f z = digit_char d :: t /\ (0 <= z < 10 ^ Z.of_nat f -> 0 <= d < 10).
Proof.
  revert z. induction f as [|f IH]; intros z Hf; [lia|]. cbn [digits].
  destruct (Z.ltb_spec z 10).
  - exists z, []. split; [done|lia].
  - destruct f as [|f].
    + exists (z mod 10), []. split; [done|]. intros _. apply Z.mod_pos_bound; lia.
    + destruct (IH (z / 10)) as (d & t & -> & Hd); [lia|]. exists d, (t ++ [digit_char (z mod 10)]).
      split; [done|]. intros Hz. apply Hd.
      rewrite (Nat2Z.inj_succ (S f)), Z.pow_succ_r in Hz by lia.
      split; [apply Z.div_pos; lia|]. apply Z.div_lt_upper_bound; lia.
Qed.

Lemma digit_char_val d : 0 <= d < 10 -> byte_val (digit_char d) = 48 + d.
Proof. intros. unfold digit_char. rewrite byte_val_of. apply Z.mod_small. lia. Qed.

Lemma parse_int_digits lo hi b z :
  lo <= 0 <= hi -> z <= hi -> 0 <= z < 10 ^ 20 -> parse_int lo hi b (digits 20 z) = Some z.
Proof.
  intros H0 Hz Hr. pose proof (parse_digits_app lo hi 1 20 z [] H0) as Hp.
  rewrite app_nil_r in Hp.
  destruct (digits_head 20 z) as (d & t & E & Hd); [lia|]. rewrite E in *.
  unfold parse_int. rewrite digit_char_val by (apply Hd; done).
  specialize (Hd Hr). destruct (Z.eqb_spec (48 + d) 43), (Z.eqb_spec (48 + d) 45); try lia.
  simpl orb. cbv iota. rewrite Hp; [|by left|lia|done|lia]. simpl parse_digits. f_equal. lia.
Qed.

(** A number read from text that prints back to the same text. *)
Lemma canonical_u64 {E} (bad noncanonical : E) s n :
  (parsed ← ok_or (parse_u64 s) bad;
   if negb (eqb_of (to_string_u64 parsed) s) then Err noncanonical else Ok parsed) = Ok n <->
  u64_ok n /\ s = to_string_u64 n.
Proof.
  rewrite bind_Ok. split.
  - intros (k & Hk%ok_or_Ok & [He [= ->]]%reject_Ok). guards. subst s. split; [|done].
    unfold u64_ok. eapply (parse_int_range 0); [|exact Hk]. by vm_compute.
  - intros [Hn ->]. exists n. rewrite eqb_of_refl. split; [|done]. apply ok_or_Ok.
    unfold u64_ok, u64_max in Hn. apply parse_int_digits; unfold u64_max; lia.
Qed.

(** ** Delimited fields

    Each byte of a field is marked and each field is terminated, so the fields
    are recovered from their concatenation. *)

Fixpoint pack_field (s : str) : list byte :=
  match s with [] => [x00] | b :: s => x01 :: b :: pack_field s end.
Definition pack (fields : list str) : list byte := concat (map pack_field fields).
Fixpoint unpack (bytes : list byte) (field : str) : option (list str) :=
  match bytes with
  | [] => match field with [] => Some [] | _ => None end
  | b :: bytes =>
      if eqb_of b x00 then fields ← unpack bytes []; Some (field :: fields)
      else match bytes with c :: bytes => unpack bytes (field ++ [c]) | [] => None end
  end.

Lemma unpack_field s rest field :
  unpack (pack_field s ++ rest) field = (fields ← unpack rest []; Some ((field ++ s) :: fields)).
Proof.
  revert field. induction s as [|b s IH]; intros field; simpl.
  - by rewrite app_nil_r.
  - rewrite IH. by rewrite <- app_assoc.
Qed.

Lemma unpack_pack fields : unpack (pack fields) [] = Some fields.
Proof.
  unfold pack. induction fields as [|s fields IH]; [done|]. simpl.
  rewrite unpack_field, IH. done.
Qed.

(** A [u32] field must have four bytes. *)
Definition get_u32 (s : str) : option Z :=
  a ← array_of 4 s; Some (from_be (as_bytes a)).

Lemma get_u32_to_be z : u32_ok z -> get_u32 (to_be 4 z) = Some z.
Proof.
  unfold get_u32, u32_ok, u32_max. intros H.
  rewrite (array_of_as_bytes (Array _ (length_to_be 4 z)) : array_of 4 (to_be 4 z) = _). cbn [mbind option_bind as_bytes].
  rewrite from_to_be_small; [done|]. change (256 ^ Z.of_nat 4) with 4294967296. lia.
Qed.

Lemma get_u32_ok s z : get_u32 s = Some z -> u32_ok z.
Proof.
  unfold get_u32. destruct (array_of 4 s) as [a|]; simpl; [|done]. intros [= <-].
  pose proof (from_be_bound (as_bytes a)) as H. rewrite as_bytes_length in H.
  unfold u32_ok, u32_max. change (256 ^ Z.of_nat 4) with 4294967296 in H. lia.
Qed.
