(* ===== verification/LtxTypes.v ===== *)
(** * LtxTypes: errors, positions, limits and segment descriptions of [cellule-ltx]

    Models [crates/cellule-ltx/src/types.rs] and the constructors of
    [crates/cellule-ltx/src/error.rs] that the modelled code returns. *)

From Stdlib Require Import ZArith Lia.
From Stdlib Require Import Strings.Byte.
From stdpp Require Import base strings.
From stdpp Require Import list.
From S2P Require Import Prelude Bytes.

Module Limit.
(*@ cellule-ltx/src/error.rs 15-86 LimitKind *)
Inductive LimitKind :=
| CapturedCellBundleBytes
| BundleEntries
| BundleBytes
| BundleFooter
| CapturedCellLtxBytes
| CapturedLtxBytes
| CellBundleBytes
| CellRootBytes
| RootInventoryObjects
| CellRootSegments
| CellScaleBytes
| CellScaleChecksumLength
| CellScaleSequence
| CellRootSegmentPages
| CellSegmentPageBytes
| ChecksumFileBytes
| CompactionBodySpool
| CompactionIndexSpool
| CompactionInputs
| DatabaseBytes
| DatabasePageSize
| DatabasePages
| HostResourceUnits
| LocalDiskBytes
| LtxBytes
| LtxFileBytes
| LtxPageIndexBytes
| NodeFrameBody
| NodeFrameBytes
| PagedRequestQueue
| PlanBytes
| PlanSegments
| RetainedBytes
| RetainedCaptureArtifacts
| ScratchDiskBytes.
End Limit.
Abbreviation LimitKind := Limit.LimitKind.

(** [Codec] stands for the boxed errors of the LZ4 crate, [Json] for those of serde_json, [Eof] for the short read
    of [read_exact], [Io] for the [io::Error] of a size limit, [Panic] for an out-of-range index or an arithmetic overflow. *)
Module LtxErr.
Inductive LtxError :=
| LTXCorrupted
| ChecksumMismatch
| TxNotAvailable
| InvalidState (message : string)
| Limit (kind : LimitKind)
| Codec
| Json
| Eof
| Io
| Panic.
End LtxErr.
Abbreviation LtxError := LtxErr.LtxError.
Abbreviation LtxResult := (result LtxError).

Global Instance LimitKind_eq_dec : EqDecision LimitKind.
Proof. solve_decision. Defined.
Global Instance LtxError_eq_dec : EqDecision LtxError.
Proof. solve_decision. Defined.

(*@ cellule-ltx/src/types.rs 359-359 CHECKSUM_FLAG *)
Definition CHECKSUM_FLAG : Z := Z.shiftl 1 63.

Module Pos.
(*@ cellule-ltx/src/types.rs 12-17 Position *)
Record Position := Mk { txid : Z; checksum : Z }.
End Pos.
Abbreviation Position := Pos.Position.

(*@ cellule-ltx/src/types.rs 21-32 Limits *)
Record Limits := MkLimits {
  max_database_bytes : Z;
  max_capture_bytes : Z;
  max_file_bytes : Z;
  max_plan_bytes : Z;
  max_segments : Z
}.

(*@ cellule-ltx/src/types.rs 35-43 Limits::default *)
Definition limits_default : Limits :=
  MkLimits (Z.shiftl 512 20) (Z.shiftl 64 20) (Z.shiftl 512 20) (Z.shiftl 1 30) 1024.

(*@ cellule-ltx/src/types.rs 47-60 Limits::validate *)
Definition limits_validate (l : Limits) : LtxResult Limits :=
  if (max_database_bytes l <? 512) || (max_capture_bytes l <? 128) || (max_file_bytes l <? 128)
     || (max_segments l =? 0) || (max_file_bytes l <? max_capture_bytes l)
     || (max_plan_bytes l <? max_file_bytes l) || (u64_max / 8 <? max_plan_bytes l)
     || (u64_max / 8 <? max_database_bytes l)
  then Err (LtxErr.InvalidState "invalid resource limits") else Ok l.

Module Segment.
(*@ cellule-ltx/src/types.rs 66-83 SegmentInfo *)
Record SegmentInfo := Mk {
  min_txid : Z;
  max_txid : Z;
  page_size : Z;
  database_pages : Z;
  pre_checksum : Z;
  post_checksum : Z;
  size_bytes : Z;
  blake3 : array 32
}.
End Segment.
Abbreviation SegmentInfo := Segment.SegmentInfo.

Global Instance Position_eq_dec : EqDecision Position.
Proof. solve_decision. Defined.
Global Instance SegmentInfo_eq_dec : EqDecision SegmentInfo.
Proof. solve_decision. Defined.

(*@ cellule-ltx/src/types.rs 88-93 SegmentInfo::position *)
Definition segment_position (s : SegmentInfo) : Position :=
  Pos.Mk (Segment.max_txid s) (Segment.post_checksum s).

(** ** Checksums

    A checksum is a 64-bit word with its top bit set; [Z.lxor] of two words loses
    the bit and the code puts it back. *)

Lemma CHECKSUM_FLAG_val : CHECKSUM_FLAG = 2 ^ 63.
Proof. reflexivity. Qed.

Lemma u64_testbit z : u64_ok z <-> 0 <= z /\ forall i, 64 <= i -> Z.testbit z i = false.
Proof.
  unfold u64_ok, u64_max. split.
  - intros [H0 H]. split; [done|]. intros i Hi.
    destruct (decide (z = 0)) as [->|Hz]; [apply Z.bits_0|].
    apply Z.bits_above_log2; [done|]. apply Z.log2_lt_pow2; [lia|].
    apply Z.lt_le_trans with (2 ^ 64); [lia|]. apply Z.pow_le_mono_r; lia.
  - intros [H0 H]. split; [done|]. assert (z < 2 ^ 64); [|lia].
    destruct (decide (z = 0)) as [->|Hz]; [lia|]. apply Z.log2_lt_pow2; [lia|].
    apply Z.nle_gt. intros Hl. specialize (H (Z.log2 z) Hl).
    rewrite Z.bit_log2 in H by lia. done.
Qed.
Lemma lxor_u64 a b : u64_ok a -> u64_ok b -> u64_ok (Z.lxor a b).
Proof.
  rewrite !u64_testbit. intros [Ha Hai] [Hb Hbi]. split; [by apply Z.lxor_nonneg|].
  intros i Hi. by rewrite Z.lxor_spec, Hai, Hbi.
Qed.
Lemma lor_flag_u64 a : u64_ok a -> u64_ok (Z.lor CHECKSUM_FLAG a).
Proof.
  rewrite !u64_testbit. intros [Ha Hai]. split; [by apply Z.lor_nonneg|].
  intros i Hi. rewrite Z.lor_spec, Hai by done.
  rewrite CHECKSUM_FLAG_val, Z.pow2_bits_false by lia. done.
Qed.
Lemma lor_flag_testbit a i :
  0 <= i -> Z.testbit (Z.lor CHECKSUM_FLAG a) i = (i =? 63) || Z.testbit a i.
Proof. intros Hi. rewrite Z.lor_spec, CHECKSUM_FLAG_val, Z.pow2_bits_eqb by lia. f_equal. apply Z.eqb_sym. Qed.

(** [CHECKSUM_FLAG | (c ^ x)]: the flagged exclusive or of the code. *)
Definition flag_xor (c x : Z) : Z := Z.lor CHECKSUM_FLAG (Z.lxor c x).

Lemma flag_xor_ok c x : u64_ok c -> u64_ok x -> u64_ok (flag_xor c x).
Proof. intros. by apply lor_flag_u64, lxor_u64. Qed.

Ltac flag_bits :=
  apply Z.bits_inj'; intros ?i ?Hi; unfold flag_xor;
  repeat (rewrite ?lor_flag_testbit, ?Z.lxor_spec, ?Z.bits_0 by done);
  repeat match goal with
  | |- context [Z.testbit ?z ?i] => destruct (Z.testbit z i)
  | |- context [?i =? 63] => destruct (i =? 63)
  end; try done.

Lemma flag_xor_swap c x y : flag_xor (flag_xor c x) y = flag_xor (flag_xor c y) x.
Proof. flag_bits. Qed.
Lemma flag_xor_cancel c x : flag_xor (flag_xor (flag_xor c x) x) 0 = flag_xor c 0.
Proof. flag_bits. Qed.
Lemma flag_xor_xor c x y : flag_xor c (Z.lxor x y) = flag_xor (flag_xor c x) y.
Proof. flag_bits. Qed.
Lemma flag_xor_twice c x : flag_xor (flag_xor c x) x = Z.lor CHECKSUM_FLAG c.
Proof. flag_bits. Qed.
Lemma flag_lor c x : flag_xor (Z.lor CHECKSUM_FLAG c) x = flag_xor c x.
Proof. flag_bits. Qed.
Lemma flag_idem c x : Z.lor CHECKSUM_FLAG (flag_xor c x) = flag_xor c x.
Proof. flag_bits. Qed.
Lemma flag_xor_0 c : flag_xor c 0 = Z.lor CHECKSUM_FLAG c.
Proof. flag_bits. Qed.
Lemma land_flag_lor c : Z.land (Z.lor CHECKSUM_FLAG c) CHECKSUM_FLAG = CHECKSUM_FLAG.
Proof.
  apply Z.bits_inj'. intros i Hi. rewrite Z.land_spec, Z.lor_spec. by destruct (Z.testbit CHECKSUM_FLAG i), (Z.testbit c i).
Qed.
