(* ===== verification/Lz4.v ===== *)
(** * Lz4: the LZ4 block compressor of page frames

    Models [crates/cellule-ltx/src/lz4_block.rs]. The compressor probes a hash
    table of positions, extends a match backwards and forwards and writes
    sequences into a buffer allocated with [compress_bound]; every index of the
    source is a checked access here, a panic being an error. The table and its
    [in_use] bitmap are one finite map, empty when a block starts: an entry whose
    bit is clear is never read.

    [lz4_decode] is the LZ4 block format: what a conforming decoder returns for a
    block. The theorem: every input is compressed, without a panic and within
    [compress_bound], to a block that decodes to it and respects the format's
    end-of-block restrictions. *)

From Stdlib Require Import ZArith Lia.
From Stdlib Require Import Strings.Byte.
From stdpp Require Import base gmap strings numbers.
From stdpp Require Import list.
From S2P Require Import Prelude Bytes LtxTypes.

Local Open Scope bool_scope.

(*@ cellule-ltx/src/lz4_block.rs 4-4 MIN_MATCH *)
Definition MIN_MATCH : Z := 4.
(*@ cellule-ltx/src/lz4_block.rs 6-6 WINDOW_SIZE *)
Definition WINDOW_SIZE : Z := 65536.
(*@ cellule-ltx/src/lz4_block.rs 7-7 WINDOW_MASK *)
Definition WINDOW_MASK : Z := WINDOW_SIZE - 1.
(*@ cellule-ltx/src/lz4_block.rs 9-9 HASH_SIZE *)
Definition HASH_SIZE : Z := 65536.
(*@ cellule-ltx/src/lz4_block.rs 10-10 MATCH_FIND_LIMIT *)
Definition MATCH_FIND_LIMIT : Z := 10 + MIN_MATCH.

(** ** Helpers *)

(*@ cellule-ltx/src/lz4_block.rs 159-161 compress_bound *)
Definition compress_bound (n : Z) : Z := n + n / 255 + 16.

(*@ cellule-ltx/src/lz4_block.rs 163-166 block_hash *)
Definition block_hash (value : Z) : Z :=
  Z.shiftr (((Z.shiftl value 16) mod 2 ^ 64 * 227718039650203) mod 2 ^ 64) (64 - 16) mod 2 ^ 32.

(*@ cellule-ltx/src/lz4_block.rs 168-177 read_u64_le *)
Definition read_u64_le (src : list byte) (offset : Z) : LtxResult Z :=
  bytes ← ok_or (slice src offset (offset + 8)) LtxErr.LTXCorrupted;
  Ok (from_le bytes).

(*@ cellule-ltx/src/lz4_block.rs 179-188 matches_at *)
Definition matches_at (src : list byte) (value reference offset : Z) : bool :=
  (0 <? offset) && (offset <? WINDOW_SIZE) && (0 <=? reference)
  && is_some_and (fun bytes => value =? from_le bytes) (slice src reference (reference + 4)).

(** [value as u32]. *)
Definition as_u32 (value : Z) : Z := value mod 2 ^ 32.

(** [src[i]]. *)
Definition byte_at (src : list byte) (i : Z) : LtxResult byte :=
  if i <? 0 then Err LtxErr.Panic else ok_or (src !! Z.to_nat i) LtxErr.Panic.

(** ** The position table *)

Abbreviation Table := (gmap Z Z).

(*@ cellule-ltx/src/lz4_block.rs 139-150 Compressor::get *)
Definition get (t : Table) (hash si : Z) : Z :=
  let hash := Z.land hash (HASH_SIZE - 1) in
  let pos := default 0 (t !! hash) in
  let pos := pos + Z.land si (Z.lnot WINDOW_MASK) in
  if si <=? pos then pos - WINDOW_SIZE else pos.

(*@ cellule-ltx/src/lz4_block.rs 152-156 Compressor::put *)
Definition put (t : Table) (hash si : Z) : Table :=
  <[Z.land hash (HASH_SIZE - 1) := si mod 2 ^ 16]> t.

(** ** Finding and extending a match *)

(*@ cellule-ltx/src/lz4_block.rs 38-65 Compressor::compress *)
Inductive Probe :=
| Miss (si : Z)
| Hit (si offset : Z).

(** Three probes from [si] on; a miss skips ahead, faster the longer the run of
    literals. *)
(*@ cellule-ltx/src/lz4_block.rs 38-65 Compressor::compress *)
Definition probe (src : list byte) (t : Table) (si anchor : Z) : LtxResult (Table * Probe) :=
  matched ← read_u64_le src si;
  let hash := block_hash matched in
  let hash2 := block_hash (Z.shiftr matched 8) in
  let reference := get t hash si in
  let reference2 := get t hash2 (si + 1) in
  let t := put (put t hash si) hash2 (si + 1) in
  let offset := si - reference in
  if matches_at src (as_u32 matched) reference offset then Ok (t, Hit si offset)
  else
    let hash := block_hash (Z.shiftr matched 16) in
    let reference3 := get t hash (si + 2) in
    let si := si + 1 in
    let offset := si - reference2 in
    if matches_at src (as_u32 (Z.shiftr matched 8)) reference2 offset then Ok (t, Hit si offset)
    else
      let si := si + 1 in
      let offset := si - reference3 in
      let t := put t hash si in
      if matches_at src (as_u32 (Z.shiftr matched 16)) reference3 offset then Ok (t, Hit si offset)
      else Ok (t, Miss (si + 2 + Z.shiftr (si - anchor) 7)).

(** The match grows backwards into the pending literals. *)
(*@ cellule-ltx/src/lz4_block.rs 71-77 Compressor::compress *)
Fixpoint extend_back (fuel : nat) (src : list byte) (si target literal_len match_len : Z)
  : LtxResult (Z * Z * Z) :=
  match fuel with
  | O => Ok (si, literal_len, match_len)
  | S fuel =>
      if (0 <? literal_len) && (0 <=? target) then
        a ← byte_at src (si - 1);
        b ← byte_at src target;
        if bool_decide (a = b)
        then extend_back fuel src (si - 1) (target - 1) (literal_len - 1) (match_len + 1)
        else Ok (si, literal_len, match_len)
      else Ok (si, literal_len, match_len)
  end.

(** And forwards, eight bytes at a time. *)
(*@ cellule-ltx/src/lz4_block.rs 81-89 Compressor::compress *)
Fixpoint extend_forward (fuel : nat) (src : list byte) (sn offset si : Z) : LtxResult Z :=
  match fuel with
  | O => Err LtxErr.Panic
  | S fuel =>
      if si + 8 <=? sn then
        a ← read_u64_le src si;
        b ← read_u64_le src (si - offset);
        let diff := Z.lxor a b in
        if diff =? 0 then extend_forward fuel src sn offset (si + 8)
        else Ok (si + Z.shiftr (trailing_zeros_u64 diff) 3)
      else Ok si
  end.

(** ** Writing sequences *)

(*@ cellule-ltx/src/lz4_block.rs 191-196 write_length *)
Fixpoint length_bytes (fuel : nat) (len : Z) : list byte :=
  match fuel with
  | O => []
  | S fuel => if 255 <=? len then xff :: length_bytes fuel (len - 255) else [byte_of len]
  end.

(** The bytes [write_length] stores. *)
(*@ cellule-ltx/src/lz4_block.rs 190-198 write_length *)
Definition write_length (len : Z) : list byte := length_bytes (S (Z.to_nat (len / 255))) len.

(** The extended length of the last literals. *)
(*@ cellule-ltx/src/lz4_block.rs 126-131 Compressor::compress *)
Fixpoint last_length_bytes (fuel : nat) (literal_len : Z) : list byte :=
  match fuel with
  | O => []
  | S fuel => if 255 + 15 <=? literal_len then xff :: last_length_bytes fuel (literal_len - 255)
              else [byte_of (literal_len - 15)]
  end.

Local Abbreviation push := (buf_push LtxErr.Panic).

(*@ cellule-ltx/src/lz4_block.rs 92-110 Compressor::compress *)
Definition emit (capacity : Z) (out : list byte) (literals : list byte) (offset match_len : Z)
  : LtxResult (list byte) :=
  let literal_len := len literals in
  let token := Z.min match_len 15 in
  out ← push capacity out
          [byte_of (Z.lor token (if literal_len <? 15 then Z.shiftl literal_len 4 else 240))];
  out ← (if literal_len <? 15 then Ok out else push capacity out (write_length (literal_len - 15)));
  out ← push capacity out literals;
  out ← push capacity out (to_le 2 offset);
  if 15 <=? match_len then push capacity out (write_length (match_len - 15)) else Ok out.

(** The sequence for one match. *)
(*@ cellule-ltx/src/lz4_block.rs 67-110 Compressor::compress *)
Definition take_match (src : list byte) (sn capacity anchor si offset : Z) (out : list byte)
  : LtxResult (Z * list byte) :=
  '(si, literal_len, match_len) ←
    extend_back (Z.to_nat (si - anchor)) src si (si - offset - 1) (si - anchor) MIN_MATCH;
  let match_base := si + MIN_MATCH in
  let si := si + match_len in
  si ← extend_forward (S (Z.to_nat (sn - si))) src sn offset si;
  let match_len := si - match_base in
  literals ← ok_or (slice src anchor (anchor + literal_len)) LtxErr.Panic;
  out ← emit capacity out literals offset match_len;
  Ok (si, out).

(** The loop: positions below [sn] may start a match. *)
(*@ cellule-ltx/src/lz4_block.rs 37-117 Compressor::compress *)
Fixpoint compress_loop (fuel : nat) (src : list byte) (sn capacity : Z) (t : Table) (si anchor : Z)
    (out : list byte) : LtxResult (Z * list byte) :=
  match fuel with
  | O => Err LtxErr.Panic
  | S fuel =>
      if si <? sn then
        '(t, p) ← probe src t si anchor;
        match p with
        | Miss si => compress_loop fuel src sn capacity t si anchor out
        | Hit si offset =>
            '(si, out) ← take_match src sn capacity anchor si offset out;
            let anchor := si in
            if sn <=? si then Ok (anchor, out)
            else
              h ← read_u64_le src (si - 2);
              compress_loop fuel src sn capacity (put t (block_hash h) (si - 2)) si anchor out
        end
      else Ok (anchor, out)
  end.

(** The literals after the last match. *)
(*@ cellule-ltx/src/lz4_block.rs 120-136 Compressor::compress *)
Definition finish_block (src : list byte) (capacity anchor : Z) (out : list byte)
  : LtxResult (list byte) :=
  let literal_len := len src - anchor in
  out ← (if literal_len <? 15 then push capacity out [byte_of (Z.shiftl literal_len 4)]
         else out ← push capacity out [xf0];
              push capacity out (last_length_bytes (S (Z.to_nat (literal_len / 255))) literal_len));
  rest ← ok_or (slice src anchor (len src)) LtxErr.Panic;
  push capacity out rest.

(*@ cellule-ltx/src/lz4_block.rs 27-137 Compressor::compress *)
Definition compress (src : list byte) : LtxResult (list byte) :=
  let capacity := compress_bound (len src) in
  let sn := saturating_sub_u (len src) MATCH_FIND_LIMIT in
  '(anchor, out) ←
    (if MATCH_FIND_LIMIT <? len src
     then compress_loop (S (length src)) src sn capacity ∅ 0 0 []
     else Ok (0, []));
  finish_block src capacity anchor out.

(** ** The LZ4 block format *)

(** A nibble of 15 is continued by bytes, all but the last of them 255. *)
Fixpoint read_length (inp : list byte) (acc : Z) : option (Z * list byte) :=
  match inp with
  | [] => None
  | b :: inp => if byte_val b =? 255 then read_length inp (acc + 255) else Some (acc + byte_val b, inp)
  end.
Definition extended (nibble : Z) (inp : list byte) : option (Z * list byte) :=
  if nibble =? 15 then read_length inp 15 else Some (nibble, inp).

(** A match copies byte by byte and may overlap its own output. *)
Fixpoint copy_match (n : nat) (offset : Z) (out : list byte) : option (list byte) :=
  match n with
  | O => Some out
  | S n => b ← out !! Z.to_nat (len out - offset); copy_match n offset (out ++ [b])
  end.

(** [last] is where the last match started and ended. *)
Fixpoint decode_sequences (fuel : nat) (out : list byte) (last : option (Z * Z)) (inp : list byte)
  : option (list byte * option (Z * Z)) :=
  match fuel, inp with
  | S fuel, token :: inp =>
      '(literal_len, inp) ← extended (byte_val token / 16) inp;
      '(literals, inp) ← read_exact (Z.to_nat literal_len) inp;
      let out := out ++ literals in
      match inp with
      | [] => Some (out, last)
      | _ =>
          '(bytes, inp) ← read_exact 2 inp;
          let offset := from_le bytes in
          '(match_len, inp) ← extended (byte_val token mod 16) inp;
          if (offset =? 0) || (len out <? offset) then None
          else
            out' ← copy_match (Z.to_nat (match_len + 4)) offset out;
            decode_sequences fuel out' (Some (len out, len out')) inp
      end
  | _, _ => None
  end.

Definition lz4_decode (block : list byte) : option (list byte * option (Z * Z)) :=
  decode_sequences (length block) [] None block.

(** [block] is a conforming encoding of [data]: it decodes to it, the last match
    starts at least twelve bytes and ends at least five bytes before the end. *)
Definition lz4_block (block data : list byte) : Prop :=
  exists last, lz4_decode block = Some (data, last) /\
    forall s e, last = Some (s, e) -> s + 12 <= len data /\ e + 5 <= len data.

(** * Proofs *)

(** ** Lengths *)

Lemma div255 n : 255 <= n -> (n - 255) / 255 = n / 255 - 1 /\ 1 <= n / 255.
Proof.
  intros Hn. split; [|by apply Z.div_le_lower_bound].
  replace (n - 255) with (n + (-1) * 255) by lia. rewrite Z.div_add by lia. lia.
Qed.

Lemma length_bytes_read fuel n acc rest :
  0 <= n -> (Z.to_nat (n / 255) < fuel)%nat ->
  read_length (length_bytes fuel n ++ rest) acc = Some (acc + n, rest).
Proof.
  revert n acc. induction fuel as [|fuel IH]; intros n acc Hn Hf; [lia|].
  cbn [length_bytes]. destruct (Z.leb_spec 255 n) as [L|L]; simpl.
  - change (byte_val xff) with 255. simpl. destruct (div255 n L). rewrite IH; [do 2 f_equal; lia|lia..].
  - rewrite byte_val_of, Z.mod_small by lia.
    destruct (Z.eqb_spec n 255); [lia|done].
Qed.
Lemma length_bytes_len fuel n :
  0 <= n -> (Z.to_nat (n / 255) < fuel)%nat -> len (length_bytes fuel n) = 1 + n / 255.
Proof.
  revert n. induction fuel as [|fuel IH]; intros n Hn Hf; [lia|].
  cbn [length_bytes]. destruct (Z.leb_spec 255 n) as [L|L]; autorewrite with len.
  - destruct (div255 n L). rewrite IH; lia.
  - rewrite Z.div_small; lia.
Qed.

Lemma write_length_read n acc rest :
  0 <= n -> read_length (write_length n ++ rest) acc = Some (acc + n, rest).
Proof. intros Hn. apply length_bytes_read; lia. Qed.
Lemma write_length_len n : 0 <= n -> len (write_length n) = 1 + n / 255.
Proof. intros Hn. apply length_bytes_len; lia. Qed.

Lemma length_bytes_fuel f f' n :
  (Z.to_nat (n / 255) < f)%nat -> (Z.to_nat (n / 255) < f')%nat -> length_bytes f n = length_bytes f' n.
Proof.
  revert f' n. induction f as [|f IH]; intros [|f'] n H H'; try lia. cbn [length_bytes].
  destruct (Z.leb_spec 255 n) as [L|L]; [|done]. destruct (div255 n L). f_equal. apply IH; lia.
Qed.

(** The loop of the last literals stores the same bytes. *)
Lemma last_length_bytes_eq fuel l :
  15 <= l -> last_length_bytes fuel l = length_bytes fuel (l - 15).
Proof.
  revert l. induction fuel as [|fuel IH]; intros l Hl; cbn [last_length_bytes length_bytes]; [done|].
  destruct (Z.leb_spec (255 + 15) l), (Z.leb_spec 255 (l - 15)); try lia; [|done].
  rewrite IH by lia. do 2 f_equal. lia.
Qed.

(** What follows a nibble that stands for [n]. *)
Definition extension (n : Z) : list byte := if n <? 15 then [] else write_length (n - 15).

Lemma extended_read n rest :
  0 <= n -> extended (Z.min n 15) (extension n ++ rest) = Some (n, rest).
Proof.
  intros Hn. unfold extended, extension. destruct (Z.ltb_spec n 15).
  - rewrite Z.min_l by lia. by destruct (Z.eqb_spec n 15); [lia|].
  - rewrite Z.min_r by lia. simpl. rewrite write_length_read by lia. do 2 f_equal. lia.
Qed.
Lemma extension_len n :
  0 <= n -> 0 <= len (extension n) <= (n + 240) / 255 /\ (n < 15 -> len (extension n) = 0).
Proof.
  intros Hn. unfold extension. destruct (Z.ltb_spec n 15) as [L|L].
  - split; [|done]. split; [done|]. apply Z.div_pos; lia.
  - rewrite write_length_len by lia. split; [|lia].
    replace (n + 240) with (n - 15 + 1 * 255) by lia. rewrite Z.div_add by lia.
    pose proof (Z.div_pos (n - 15) 255). lia.
Qed.

(** A token holds both nibbles. *)
Lemma nibbles a b : 0 <= a < 16 -> 0 <= b < 16 -> Z.lor a (Z.shiftl b 4) = b * 16 + a.
Proof. intros Ha Hb. rewrite lor_shift by lia. lia. Qed.
Lemma token_val a b :
  0 <= a < 16 -> 0 <= b < 16 ->
  byte_val (byte_of (Z.lor a (Z.shiftl b 4))) / 16 = b /\
  byte_val (byte_of (Z.lor a (Z.shiftl b 4))) mod 16 = a.
Proof.
  intros Ha Hb. rewrite nibbles, byte_val_of, Z.mod_small by lia.
  split; [rewrite Z.div_add_l, Z.div_small by lia; lia|].
  rewrite Z.add_comm, Z.mod_add, Z.mod_small by lia. lia.
Qed.

(** ** Matches *)

(** From [p] on the source repeats what stands [offset] earlier, for [n] bytes. *)
Definition echoes (src : list byte) (p offset n : Z) : Prop :=
  forall j, 0 <= j < n -> src !! Z.to_nat (p + j) = src !! Z.to_nat (p + j - offset).

Lemma take_snoc_lookup (src : list byte) n b :
  src !! n = Some b -> take n src ++ [b] = take (S n) src.
Proof. intros H. symmetry. by apply take_S_r. Qed.

Lemma copy_match_echo src offset n p :
  1 <= offset <= p -> p + Z.of_nat n <= len src -> echoes src p offset (Z.of_nat n) ->
  copy_match n offset (take (Z.to_nat p) src) = Some (take (Z.to_nat (p + Z.of_nat n)) src).
Proof.
  revert p. induction n as [|n IH]; intros p Ho Hp He; cbn [copy_match].
  { by rewrite Z.add_0_r. }
  unfold len in Hp |- *. rewrite length_take_le by lia. rewrite Z2Nat.id by lia.
  rewrite lookup_take_lt by lia.
  pose proof (He 0) as H0. rewrite !Z.add_0_r in H0. rewrite <- H0 by lia.
  destruct (lookup_lt_is_Some_2 src (Z.to_nat p)) as [b Hb]; [lia|]. rewrite Hb. simpl.
  rewrite take_snoc_lookup by done. replace (S (Z.to_nat p)) with (Z.to_nat (p + 1)) by lia.
  rewrite IH; [do 3 f_equal; lia|lia|unfold len; lia|].
  intros j Hj. specialize (He (j + 1)). replace (p + 1 + j) with (p + (j + 1)) by lia. apply He. lia.
Qed.

Lemma echoes_snoc src p offset n m :
  0 <= n -> echoes src p offset n -> echoes src (p + n) offset m -> echoes src p offset (n + m).
Proof.
  intros Hn H1 H2 j Hj. destruct (Z.lt_ge_cases j n) as [L|L]; [by apply H1; lia|].
  specialize (H2 (j - n)). replace (p + n + (j - n)) with (p + j) in H2 by lia. apply H2. lia.
Qed.

(** Equal slices echo. *)
Lemma slice_lookup (src : list byte) a b r j :
  slice src a b = Some r -> 0 <= j < b - a -> r !! Z.to_nat j = src !! Z.to_nat (a + j).
Proof.
  intros (Ha & Hb & ->)%slice_Some Hj.
  rewrite lookup_take_lt, lookup_drop by lia. f_equal. lia.
Qed.
Lemma slices_echo src p offset n xs ys k :
  slice src p (p + n) = Some xs -> slice src (p - offset) (p - offset + n) = Some ys ->
  0 <= k <= n -> take (Z.to_nat k) xs = take (Z.to_nat k) ys -> echoes src p offset k.
Proof.
  intros Hx Hy Hk E j Hj.
  rewrite <- (slice_lookup _ _ _ _ j Hx) by lia.
  replace (p + j - offset) with (p - offset + j) by lia.
  rewrite <- (slice_lookup _ _ _ _ j Hy) by lia.
  rewrite <- (lookup_take_lt xs (Z.to_nat k)), E by lia. apply lookup_take_lt. lia.
Qed.

Lemma slice_in_range (src : list byte) a b :
  0 <= a <= b -> b <= len src -> exists r, slice src a b = Some r /\ length r = Z.to_nat (b - a).
Proof.
  intros Ha Hb. eexists. split; [by apply slice_Some|].
  unfold len in Hb. rewrite length_take, length_drop. lia.
Qed.

Lemma read_u64_le_Ok src i :
  0 <= i -> i + 8 <= len src ->
  exists bytes, slice src i (i + 8) = Some bytes /\ length bytes = 8%nat /\
    read_u64_le src i = Ok (from_le bytes).
Proof.
  intros H0 H. destruct (slice_in_range src i (i + 8)) as (r & Hr & Hl); [lia..|].
  exists r. split; [done|]. split; [lia|]. unfold read_u64_le. by rewrite Hr.
Qed.

(** A hit of the table is a real four-byte match. *)
Lemma matches_at_echo src i d offset :
  0 <= i -> 0 <= d <= 2 -> i + 8 <= len src ->
  forall bytes, slice src i (i + 8) = Some bytes ->
  matches_at src (as_u32 (Z.shiftr (from_le bytes) (8 * d))) (i + d - offset) offset = true ->
  1 <= offset <= i + d /\ offset < WINDOW_SIZE /\ echoes src (i + d) offset 4.
Proof.
  intros Hi Hd Hlen bytes Hb. unfold matches_at. rewrite !andb_true_iff.
  intros [[[H1 H2] H3] H4]. apply Z.ltb_lt in H1, H2. apply Z.leb_le in H3.
  destruct (slice src (i + d - offset) (i + d - offset + 4)) as [ys|] eqn:Ey; [|done].
  simpl in H4. apply Z.eqb_eq in H4. split; [lia|]. split; [done|].
  destruct (slice_in_range src (i + d) (i + d + 4)) as (xs & Ex & Hxl); [lia..|].
  apply (slices_echo src (i + d) offset 4 xs ys 4 Ex Ey); [lia|].
  assert (length ys = 4%nat) as Hyl
    by (pose proof (slice_len _ _ _ _ Ey); unfold len in *; lia).
  change (Z.to_nat 4) with 4%nat. rewrite !take_ge by lia.
  rewrite <- (to_from_le xs), <- (to_from_le ys), <- H4.
  replace (length xs) with (length ys) by lia. f_equal.
  assert (xs = take 4 (drop (Z.to_nat d) bytes)) as ->.
  { apply slice_Some in Hb as (_ & _ & ->). apply slice_Some in Ex as (_ & _ & ->).
    replace (Z.to_nat (i + d + 4 - (i + d))) with 4%nat by lia.
    replace (Z.to_nat (i + 8 - i)) with 8%nat by lia.
    rewrite skipn_firstn_comm, drop_drop, take_take.
    f_equal; [lia|]. f_equal. lia. }
  assert (length bytes = 8%nat) by (pose proof (slice_len _ _ _ _ Hb); unfold len in *; lia).
  rewrite from_le_take by (rewrite length_drop; lia). unfold as_u32. f_equal.
  rewrite Z.shiftr_div_pow2 by lia. rewrite Z.pow_mul_r by lia. change (2 ^ 8) with 256.
  rewrite <- (take_drop (Z.to_nat d) bytes) at 2.
  rewrite from_le_app. rewrite length_take_le by lia. rewrite Z2Nat.id by lia.
  pose proof (from_le_bound (take (Z.to_nat d) bytes)) as Hbd. rewrite length_take_le in Hbd by lia.
  rewrite Z2Nat.id in Hbd by lia.
  rewrite Z.mul_comm, Z.div_add by (apply Z.pow_nonzero; lia). rewrite Z.div_small by lia. lia.
Qed.

(** ** The search *)

Lemma probe_ok src t si anchor :
  0 <= anchor <= si -> si + 8 <= len src ->
  exists t' p, probe src t si anchor = Ok (t', p) /\
    match p with
    | Miss si' => si < si'
    | Hit s offset => si <= s <= si + 2 /\ 1 <= offset <= s /\ offset < WINDOW_SIZE
                      /\ echoes src s offset 4
    end.
Proof.
  intros Ha Hlen. destruct (read_u64_le_Ok src si) as (bytes & Hs & _ & Hr); [lia..|].
  unfold probe. rewrite Hr. simpl.
  assert (forall d reference, 0 <= d <= 2 ->
    matches_at src (as_u32 (Z.shiftr (from_le bytes) (8 * d))) reference (si + d - reference) = true ->
    si <= si + d <= si + 2 /\ 1 <= si + d - reference <= si + d /\ si + d - reference < WINDOW_SIZE
    /\ echoes src (si + d) (si + d - reference) 4) as Hhit.
  { intros d reference Hd Hm. split; [lia|]. apply (matches_at_echo src si d) with bytes; [lia..|done|].
    by replace (si + d - (si + d - reference)) with reference by lia. }
  pose proof (Hhit 0) as H0. rewrite !Z.add_0_r in H0.
  pose proof (Hhit 1) as H1. pose proof (Hhit 2) as H2.
  change (8 * 1) with 8 in H1. change (8 * 2) with 16 in H2. change (8 * 0) with 0 in H0.
  rewrite Z.shiftr_0_r in H0. replace (si + 1 + 1) with (si + 2) by lia.
  destruct (matches_at src (as_u32 (from_le bytes)) _ _) eqn:E0.
  { eexists _, _. split; [done|]. by apply H0. }
  destruct (matches_at src (as_u32 (Z.shiftr (from_le bytes) 8)) _ _) eqn:E1.
  { eexists _, _. split; [done|]. by apply H1. }
  destruct (matches_at src (as_u32 (Z.shiftr (from_le bytes) 16)) _ _) eqn:E2.
  { eexists _, _. split; [done|]. by apply H2. }
  eexists _, _. split; [done|]. simpl.
  assert (0 <= Z.shiftr (si + 2 - anchor) 7) by (apply Z.shiftr_nonneg; lia). lia.
Qed.

Lemma byte_at_Ok src i : 0 <= i < len src -> exists b, byte_at src i = Ok b /\ src !! Z.to_nat i = Some b.
Proof.
  intros Hi. unfold byte_at. rewrite (proj2 (Z.ltb_ge _ _)) by lia.
  destruct (lookup_lt_is_Some_2 src (Z.to_nat i)) as [b Hb]; [unfold len in Hi; lia|].
  exists b. by rewrite Hb.
Qed.

Lemma extend_back_ok fuel src anchor offset si ml :
  1 <= offset <= si -> 0 <= anchor <= si -> si <= len src -> 0 <= ml -> echoes src si offset ml ->
  exists si' ml', extend_back fuel src si (si - offset - 1) (si - anchor) ml = Ok (si', si' - anchor, ml')
    /\ anchor <= si' /\ offset <= si' /\ si' + ml' = si + ml /\ ml <= ml' /\ echoes src si' offset ml'.
Proof.
  revert si ml. induction fuel as [|fuel IH]; intros si ml Ho Ha Hs Hm He; cbn [extend_back].
  { exists si, ml. split; [done|]. repeat split; lia || done. }
  destruct (Z.ltb_spec 0 (si - anchor)) as [L|L], (Z.leb_spec 0 (si - offset - 1)) as [L'|L']; simpl.
  2,3,4: exists si, ml; split; [done|]; repeat split; lia || done.
  destruct (byte_at_Ok src (si - 1)) as (a & -> & Ha'); [lia|].
  destruct (byte_at_Ok src (si - offset - 1)) as (b & -> & Hb'); [lia|]. simpl.
  case_bool_decide as E; [|exists si, ml; split; [done|]; repeat split; lia || done]. subst b.
  replace (si - offset - 1 - 1) with (si - 1 - offset - 1) by lia.
  replace (si - anchor - 1) with (si - 1 - anchor) by lia.
  destruct (IH (si - 1) (ml + 1)) as (si' & ml' & -> & H1 & H2 & H3 & H4 & H5); [lia..| |].
  { rewrite Z.add_comm. apply echoes_snoc; [lia| |by replace (si - 1 + 1) with si by lia].
    intros j Hj. assert (j = 0) as -> by lia. rewrite !Z.add_0_r, Ha'.
    replace (si - 1 - offset) with (si - offset - 1) by lia. by rewrite Hb'. }
  exists si', ml'. split; [done|]. repeat split; lia || done.
Qed.

Lemma extend_forward_ok fuel src sn offset si :
  1 <= offset <= si -> sn <= len src -> (Z.to_nat (sn - si) < fuel)%nat ->
  exists si', extend_forward fuel src sn offset si = Ok si' /\ si <= si' <= Z.max si sn
    /\ echoes src si offset (si' - si).
Proof.
  revert si. induction fuel as [|fuel IH]; intros si Ho Hsn Hf; [lia|]. cbn [extend_forward].
  destruct (Z.leb_spec (si + 8) sn) as [L|L].
  2: { exists si. split; [done|]. split; [lia|]. intros j Hj. lia. }
  destruct (read_u64_le_Ok src si) as (xs & Hx & Hxl & ->); [lia..|].
  destruct (read_u64_le_Ok src (si - offset)) as (ys & Hy & Hyl & ->); [lia..|]. simpl.
  destruct (Z.eqb_spec (Z.lxor (from_le xs) (from_le ys)) 0) as [E|E].
  - assert (echoes src si offset 8) as H8.
    { apply (slices_echo src si offset 8 xs ys 8 Hx Hy); [lia|].
      apply (agree_bytes xs ys 8); [lia..|]. intros i Hi. rewrite E. apply Z.bits_0. }
    destruct (IH (si + 8)) as (si' & -> & Hb & He); [lia..|].
    exists si'. split; [done|]. split; [lia|].
    replace (si' - si) with (8 + (si' - (si + 8))) by lia. apply echoes_snoc; [lia|done..].
  - set (z := trailing_zeros_u64 (Z.lxor (from_le xs) (from_le ys))).
    pose proof (ctz_bounds 64 (Z.lxor (from_le xs) (from_le ys))) as Hz. fold (trailing_zeros_u64 (Z.lxor (from_le xs) (from_le ys))) in Hz. fold z in Hz.
    rewrite Z.shiftr_div_pow2 by lia. change (2 ^ 3) with 8.
    pose proof (Z.mul_div_le z 8 ltac:(lia)). pose proof (Z.div_pos z 8 ltac:(lia) ltac:(lia)).
    assert (z / 8 <= 8) by (apply Z.div_le_upper_bound; lia).
    eexists. split; [done|]. split; [lia|]. replace (si + z / 8 - si) with (z / 8) by lia.
    apply (slices_echo src si offset 8 xs ys _ Hx Hy); [lia|].
    apply (agree_bytes xs ys); [lia..|]. intros i Hi. apply ctz_testbit with 64%nat. change (ctz 64 _) with z. lia.
Qed.

(** ** Sequences *)

Definition sequence (literals : list byte) (offset match_len : Z) : list byte :=
  byte_of (Z.lor (Z.min match_len 15) (Z.shiftl (Z.min (len literals) 15) 4))
  :: extension (len literals) ++ literals ++ to_le 2 offset ++ extension match_len.

Lemma emit_ok capacity out literals offset match_len :
  0 <= match_len -> len out + len (sequence literals offset match_len) <= capacity ->
  emit capacity out literals offset match_len = Ok (out ++ sequence literals offset match_len).
Proof.
  intros Hm Hc. unfold sequence in *.
  pose proof (len_nonneg (extension (len literals))). pose proof (len_nonneg literals).
  pose proof (len_nonneg (extension match_len)).
  unfold emit. set (token := byte_of _). autorewrite with len in Hc.
  assert (token = byte_of (Z.lor (Z.min match_len 15) (Z.shiftl (Z.min (len literals) 15) 4))) as <-.
  { subst token. do 2 f_equal.
    destruct (Z.ltb_spec (len literals) 15); [by rewrite Z.min_l by lia|by rewrite Z.min_r by lia]. }
  rewrite buf_push_Ok by (autorewrite with len; lia). simpl.
  assert ((if len literals <? 15 then Ok (out ++ [token])
    else buf_push LtxErr.Panic capacity (out ++ [token]) (write_length (len literals - 15)))
    = Ok ((out ++ [token]) ++ extension (len literals))) as ->.
  { unfold extension in *. destruct (Z.ltb_spec (len literals) 15); [by rewrite app_nil_r|].
    apply buf_push_Ok. autorewrite with len. lia. }
  simpl. rewrite buf_push_Ok by (autorewrite with len; lia). simpl.
  rewrite buf_push_Ok by (autorewrite with len; lia). simpl.
  replace (if 15 <=? match_len then _ else _)
    with (Ok (E := LtxError) ((((((out ++ [token]) ++ extension (len literals)) ++ literals) ++ to_le 2 offset)) ++ extension match_len)).
  { by rewrite <- !app_assoc. }
  unfold extension at 2. unfold extension in Hc at 2.
  destruct (Z.leb_spec 15 match_len), (Z.ltb_spec match_len 15); try lia.
  - by rewrite buf_push_Ok by (autorewrite with len; lia).
  - by rewrite app_nil_r.
Qed.

Lemma sequence_decode fuel out last literals offset match_len rest :
  0 <= match_len -> 0 < offset < 65536 -> offset <= len (out ++ literals) ->
  decode_sequences (S fuel) out last (sequence literals offset match_len ++ rest) =
  (out' ← copy_match (Z.to_nat (match_len + 4)) offset (out ++ literals);
   decode_sequences fuel out' (Some (len (out ++ literals), len out')) rest).
Proof.
  intros Hm Ho Hl. unfold sequence. cbn [decode_sequences app].
  pose proof (len_nonneg literals).
  destruct (token_val (Z.min match_len 15) (Z.min (len literals) 15)) as [-> ->]; [lia..|].
  rewrite <- !app_assoc, extended_read by lia. cbn [mbind option_bind].
  replace (Z.to_nat (len literals)) with (length literals) by (unfold len; lia).
  rewrite read_exact_app. cbn [mbind option_bind].
  assert (exists x l, to_le 2 offset ++ extension match_len ++ rest = x :: l) as (x & l & E)
    by (destruct (to_le 2 offset) eqn:E; [by apply (f_equal length) in E; rewrite length_to_le in E|by do 2 eexists]).
  rewrite E. cbn beta iota. rewrite <- E. clear E x l.
  replace 2%nat with (length (to_le 2 offset)) at 1 by apply length_to_le.
  rewrite read_exact_app. cbn [mbind option_bind]. rewrite from_to_le_small by (change (256 ^ Z.of_nat 2) with 65536; lia).
  rewrite extended_read by lia. cbn [mbind option_bind].
  destruct (Z.eqb_spec offset 0); [lia|]. destruct (Z.ltb_spec (len (out ++ literals)) offset); [lia|]. done.
Qed.

(** A sequence never expands by more than one byte in 255. *)
Lemma sequence_len literals offset match_len :
  0 <= match_len ->
  255 * len (sequence literals offset match_len) <= 256 * (len literals + match_len + 4).
Proof.
  intros Hm. unfold sequence. autorewrite with len. change (Z.of_nat 2) with 2.
  pose proof (len_nonneg literals) as Hl.
  destruct (extension_len (len literals) Hl) as [[_ H1] H2].
  destruct (extension_len match_len Hm) as [[_ H3] H4].
  pose proof (Z.mul_div_le (len literals + 240) 255 ltac:(lia)).
  pose proof (Z.mul_div_le (match_len + 240) 255 ltac:(lia)).
  destruct (Z.lt_ge_cases (len literals) 15), (Z.lt_ge_cases match_len 15);
    rewrite ?H2, ?H4 by lia; lia.
Qed.

(** ** Blocks *)

(** [out] encodes the first [anchor] bytes of the source. *)
Record encodes_prefix (src : list byte) (anchor : Z) (out : list byte) (last : option (Z * Z)) : Prop := {
  ep_anchor : 0 <= anchor <= len src;
  ep_size : 255 * len out <= 256 * anchor;
  ep_last : forall s e, last = Some (s, e) -> s + 12 <= len src /\ e + 5 <= len src;
  ep_decode : exists k, (k <= length out)%nat /\ forall f rest,
    decode_sequences (k + f) [] None (out ++ rest)
    = decode_sequences f (take (Z.to_nat anchor) src) last rest
}.

Lemma encodes_nil src : encodes_prefix src 0 [] None.
Proof.
  constructor; [pose proof (len_nonneg src); lia|done|done|]. exists 0%nat. by split; [simpl; lia|].
Qed.

Lemma take_slice_app (src : list byte) a b r :
  slice src a b = Some r -> take (Z.to_nat a) src ++ r = take (Z.to_nat b) src.
Proof.
  intros H. pose proof (slice_len _ _ _ _ H) as Hr. destruct (slice_split _ _ _ _ H) as (l1 & l2 & -> & Hl).
  apply slice_Some in H as (Ha & Hb & _). pose proof (len_nonneg r).
  replace (Z.to_nat a) with (length l1) by (unfold len in *; lia).
  replace (Z.to_nat b) with (length (l1 ++ r)) by (rewrite length_app; unfold len in *; lia).
  rewrite take_app_length. by rewrite app_assoc, take_app_length.
Qed.
Lemma len_take_Z (src : list byte) a : 0 <= a <= len src -> len (take (Z.to_nat a) src) = a.
Proof. intros H. unfold len in *. rewrite length_take_le; lia. Qed.

Lemma encodes_capacity src anchor out last (out' : list byte) :
  encodes_prefix src anchor out last -> 255 * (len out + len out') <= 256 * len src ->
  len out + len out' <= compress_bound (len src).
Proof.
  intros _ H. unfold compress_bound. pose proof (Z.mul_succ_div_gt (len src) 255 ltac:(lia)). lia.
Qed.

Lemma take_match_ok src anchor si offset out last :
  encodes_prefix src anchor out last -> anchor <= si <= len src - 13 ->
  1 <= offset <= si -> offset < WINDOW_SIZE -> echoes src si offset 4 ->
  exists si' out' last',
    take_match src (len src - 14) (compress_bound (len src)) anchor si offset out = Ok (si', out')
    /\ si + 4 <= si' <= len src - 9 /\ encodes_prefix src si' out' last'.
Proof.
  intros Hp Hs Ho Hw He. unfold take_match, MIN_MATCH. unfold WINDOW_SIZE in Hw.
  destruct (ep_anchor _ _ _ _ Hp) as [Ha0 Ha1].
  destruct (extend_back_ok (Z.to_nat (si - anchor)) src anchor offset si 4)
    as (s1 & ml & -> & H1 & H2 & H3 & H4 & H5); [lia..|done|]. cbn [mbind result_bind].
  destruct (extend_forward_ok (S (Z.to_nat (len src - 14 - (s1 + ml)))) src (len src - 14) offset (s1 + ml))
    as (s2 & -> & H6 & H7); [lia..|]. cbn [mbind result_bind].
  assert (echoes src s1 offset (ml + (s2 - (s1 + ml)))) as H8 by (apply echoes_snoc; [lia|done..]).
  replace (ml + (s2 - (s1 + ml))) with (s2 - s1) in H8 by lia.
  destruct (slice_in_range src anchor (anchor + (s1 - anchor))) as (lits & El & Hll); [lia..|].
  rewrite El. cbn [mbind result_bind ok_or]. pose proof (slice_len _ _ _ _ El) as Hlen.
  set (m := s2 - (s1 + 4)).
  pose proof (sequence_len lits offset m ltac:(lia)) as Hsz. pose proof (ep_size _ _ _ _ Hp) as Hsz0.
  rewrite emit_ok by first [lia | apply (encodes_capacity _ _ _ _ _ Hp); lia]. cbn [mbind result_bind].
  eexists _, _, (Some (s1, s2)). split; [done|]. split; [lia|]. constructor.
  - lia.
  - rewrite len_app. lia.
  - intros s e [= <- <-]. lia.
  - destruct (ep_decode _ _ _ _ Hp) as (k & Hk & Hd). exists (S k). split.
    { rewrite length_app. unfold sequence. cbn [length]. lia. }
    intros f rest. rewrite <- app_assoc. replace (S k + f)%nat with (k + S f)%nat by lia.
    rewrite Hd. apply take_slice_app in El as Et.
    replace (anchor + (s1 - anchor)) with s1 in Et by lia.
    rewrite sequence_decode by (try lia; rewrite Et, len_take_Z; lia). rewrite Et.
    rewrite (copy_match_echo src offset (Z.to_nat (m + 4)) s1);
      [|lia|unfold len in *; lia|replace (Z.of_nat (Z.to_nat (m + 4))) with (s2 - s1) by lia; done].
    cbn [mbind option_bind]. replace (s1 + Z.of_nat (Z.to_nat (m + 4))) with s2 by lia.
    by rewrite !len_take_Z by lia.
Qed.

Lemma compress_loop_ok fuel src t si anchor out last :
  encodes_prefix src anchor out last -> anchor <= si -> 14 <= len src ->
  (Z.to_nat (len src - 14 - si) < fuel)%nat ->
  exists anchor' out' last',
    compress_loop fuel src (len src - 14) (compress_bound (len src)) t si anchor out = Ok (anchor', out')
    /\ encodes_prefix src anchor' out' last'.
Proof.
  revert t si anchor out last. induction fuel as [|fuel IH]; intros t si anchor out last Hp Ha Hn Hf; [lia|].
  cbn [compress_loop]. pose proof (ep_anchor _ _ _ _ Hp).
  destruct (Z.ltb_spec si (len src - 14)) as [L|L]; [|by eauto].
  destruct (probe_ok src t si anchor) as (t' & p & -> & Hprobe); [lia..|]. cbn [mbind result_bind].
  destruct p as [si'|s offset].
  { apply (IH t' si' anchor out last); [done|lia..]. }
  destruct Hprobe as (Hs & Ho & Hw & He).
  destruct (take_match_ok src anchor s offset out last) as (s' & out' & last' & -> & Hs' & Hp'); [done|lia..|done|].
  cbn [mbind result_bind]. destruct (Z.leb_spec (len src - 14) s') as [L'|L']; [by eauto|].
  destruct (read_u64_le_Ok src (s' - 2)) as (bytes & _ & _ & ->); [lia..|]. cbn [mbind result_bind].
  apply (IH _ s' s' out' last'); [done|lia..].
Qed.

Lemma finish_block_ok src anchor out last :
  encodes_prefix src anchor out last ->
  exists block, finish_block src (compress_bound (len src)) anchor out = Ok block
    /\ len block <= compress_bound (len src) /\ lz4_decode block = Some (src, last).
Proof.
  intros Hp. pose proof (ep_anchor _ _ _ _ Hp) as Ha. pose proof (ep_size _ _ _ _ Hp) as Hsz.
  destruct (slice_in_range src anchor (len src)) as (rest & Er & Hrl); [lia..|].
  pose proof (slice_len _ _ _ _ Er) as Hr.
  set (tail := byte_of (Z.shiftl (Z.min (len rest) 15) 4) :: extension (len rest) ++ rest).
  assert (len out + len tail <= compress_bound (len src)) as Hcap.
  { unfold tail, compress_bound. autorewrite with len.
    destruct (extension_len (len rest) (len_nonneg rest)) as [[_ H1] _].
    pose proof (Z.mul_succ_div_gt (len src) 255 ltac:(lia)).
    pose proof (Z.mul_div_le (len rest + 240) 255 ltac:(lia)). lia. }
  exists (out ++ tail). split; [|split].
  - unfold finish_block. rewrite Er. cbn [ok_or mbind result_bind]. rewrite <- Hr.
    unfold tail in *. autorewrite with len in Hcap. pose proof (len_nonneg rest).
    unfold extension in *. destruct (Z.ltb_spec (len rest) 15) as [L|L]; autorewrite with len in Hcap.
    + rewrite Z.min_l in * by lia. rewrite buf_push_Ok by (autorewrite with len; lia).
      cbn [mbind result_bind]. rewrite buf_push_Ok by (autorewrite with len; lia).
      by rewrite <- app_assoc.
    + rewrite Z.min_r in * by lia. change (byte_of (Z.shiftl 15 4)) with xf0.
      assert (last_length_bytes (S (Z.to_nat (len rest / 255))) (len rest) = write_length (len rest - 15)) as ->.
      { rewrite last_length_bytes_eq by done. unfold write_length. apply length_bytes_fuel; [|lia].
        pose proof (Z.div_le_mono (len rest - 15) (len rest) 255). lia. }
      rewrite buf_push_Ok by (autorewrite with len; pose proof (len_nonneg (write_length (len rest - 15))); lia).
      cbn [mbind result_bind]. rewrite buf_push_Ok by (autorewrite with len; lia).
      cbn [mbind result_bind]. rewrite buf_push_Ok by (autorewrite with len; lia).
      by rewrite <- !app_assoc.
  - by rewrite len_app.
  - destruct (ep_decode _ _ _ _ Hp) as (k & Hk & Hd). unfold lz4_decode.
    replace (length (out ++ tail)) with (k + S (length out - k + length tail - 1))%nat
      by (rewrite length_app; unfold tail; cbn [length]; lia).
    rewrite Hd. unfold tail. cbn [decode_sequences].
    pose proof (token_val 0 (Z.min (len rest) 15)) as Htok. rewrite Z.lor_0_l in Htok.
    destruct Htok as [-> _]; [lia|pose proof (len_nonneg rest); lia|].
    rewrite extended_read by apply len_nonneg. cbn [mbind option_bind].
    replace (Z.to_nat (len rest)) with (length rest) by (unfold len; lia).
    assert (read_exact (length rest) rest = Some (rest, [])) as ->
      by (apply read_exact_Some; by rewrite app_nil_r).
    cbn [mbind option_bind].
    rewrite (take_slice_app _ _ _ _ Er). replace (Z.to_nat (len src)) with (length src) by (unfold len; lia).
    by rewrite take_ge by lia.
Qed.

Lemma compress_ok src :
  exists block, compress src = Ok block /\ len block <= compress_bound (len src)
    /\ lz4_block block src.
Proof.
  assert (exists anchor out last,
    (if MATCH_FIND_LIMIT <? len src
     then compress_loop (S (length src)) src (saturating_sub_u (len src) MATCH_FIND_LIMIT)
            (compress_bound (len src)) ∅ 0 0 []
     else Ok (0, [])) = Ok (anchor, out) /\ encodes_prefix src anchor out last)
    as (anchor & out & last & E & Hp).
  { unfold MATCH_FIND_LIMIT, MIN_MATCH. destruct (Z.ltb_spec (10 + 4) (len src)) as [L|L].
    - unfold saturating_sub_u. rewrite Z.max_r by lia.
      apply (compress_loop_ok _ src ∅ 0 0 [] None); [apply encodes_nil|lia|lia|unfold len; lia].
    - eexists _, _, _. split; [done|apply encodes_nil]. }
  destruct (finish_block_ok src anchor out last Hp) as (block & Hb & Hl & Hd).
  exists block. unfold compress. rewrite E. cbn [mbind result_bind]. split; [done|]. split; [done|].
  exists last. split; [done|]. apply (ep_last _ _ _ _ Hp).
Qed.

(** C14: the LZ4 block compressor is correct on every input. It returns without a
    panic and without an error, the block fits the buffer allocated with
    [compress_bound], and by the LZ4 block format the block decodes to exactly the
    input; its last match starts at least twelve and ends at least five bytes before
    the end of the input, whatever matches the hash table proposed. *)
Theorem compress_correct src :
  exists block last, compress src = Ok block /\ len block <= compress_bound (len src)
    /\ lz4_decode block = Some (src, last)
    /\ forall s e, last = Some (s, e) -> s + 12 <= len src /\ e + 5 <= len src.
Proof. destruct (compress_ok src) as (block & Hc & Hb & last & Hd & Hl). by exists block, last. Qed.
