(* ===== verification/Ltx.v ===== *)
(** * Ltx: headers, trailers, page checksums and size bounds of the LTX format

    Models [crates/cellule-ltx/src/ltx.rs] (the streaming decoder and encoder are
    in [LtxCodec]). CRC-64 is the [crc_fast] crate and enters as the class
    [Crc64]: its digest of a byte string, fed in any number of updates. *)

From Stdlib Require Import ZArith Lia.
From Stdlib Require Import Strings.Byte.
From stdpp Require Import base strings numbers.
From stdpp Require Import list.
From S2P Require Import Prelude Bytes Identity LtxTypes Lz4.

Local Open Scope bool_scope.

(** ** Constants *)

(*@ cellule-ltx/src/ltx.rs 7-7 MAGIC *)
Definition MAGIC : list byte := text "LTX1".
(*@ cellule-ltx/src/ltx.rs 8-8 VERSION *)
Definition VERSION : Z := 3.
(*@ cellule-ltx/src/ltx.rs 9-9 HEADER_SIZE *)
Definition HEADER_SIZE : Z := 100.
(*@ cellule-ltx/src/ltx.rs 10-10 PAGE_HEADER_SIZE *)
Definition PAGE_HEADER_SIZE : Z := 6.
(*@ cellule-ltx/src/ltx.rs 11-11 TRAILER_SIZE *)
Definition TRAILER_SIZE : Z := 16.
(*@ cellule-ltx/src/ltx.rs 14-14 HEADER_FLAG_NO_CHECKSUM *)
Definition HEADER_FLAG_NO_CHECKSUM : Z := Z.shiftl 1 1.
(*@ cellule-ltx/src/ltx.rs 15-15 HEADER_FLAG_MASK *)
Definition HEADER_FLAG_MASK : Z := HEADER_FLAG_NO_CHECKSUM.
(*@ cellule-ltx/src/ltx.rs 17-17 PAGE_HEADER_FLAG_SIZE *)
Definition PAGE_HEADER_FLAG_SIZE : Z := Z.shiftl 1 0.
(*@ cellule-ltx/src/ltx.rs 18-18 PAGE_HEADER_FLAG_MASK *)
Definition PAGE_HEADER_FLAG_MASK : Z := PAGE_HEADER_FLAG_SIZE.
(*@ cellule-ltx/src/ltx.rs 20-20 PENDING_BYTE *)
Definition PENDING_BYTE : Z := 1073741824.

(*@ cellule-ltx/src/ltx.rs 29-34 lock_pgno *)
Definition lock_pgno (page_size : Z) : Z :=
  if page_size =? 0 then 0 else PENDING_BYTE / page_size + 1.

(** [fuel] covers the eight doublings from 512 to 65536. *)
Fixpoint page_size_from (fuel : nat) (i sz : Z) : bool :=
  match fuel with
  | O => false
  | S fuel => if i <=? 65536 then if sz =? i then true else page_size_from fuel (i * 2) sz else false
  end.
(*@ cellule-ltx/src/ltx.rs 268-277 is_valid_page_size *)
Definition is_valid_page_size (sz : Z) : bool := page_size_from 9 512 sz.

(** ** CRC-64 *)

Class Crc64 := {
  crc64 : list byte -> Z;
  crc64_u64 : forall bytes, u64_ok (crc64 bytes)
}.

(*@ cellule-ltx/src/ltx.rs 63-68 checksum_page *)
Definition checksum_page `{Crc64} (pgno : Z) (data : list byte) : Z :=
  Z.lor CHECKSUM_FLAG (crc64 (to_be 4 pgno ++ data)).

Lemma checksum_page_u64 `{Crc64} pgno data : u64_ok (checksum_page pgno data).
Proof. apply lor_flag_u64, crc64_u64. Qed.
Lemma checksum_page_flag `{Crc64} pgno data :
  Z.land (checksum_page pgno data) CHECKSUM_FLAG = CHECKSUM_FLAG.
Proof. apply land_flag_lor. Qed.

(** ** Signed casts *)

(** [value as i64] and [value as u64]. *)
Definition as_i64 (z : Z) : Z := if z <? 2 ^ 63 then z else z - 2 ^ 64.
Definition as_u64 (z : Z) : Z := z mod 2 ^ 64.

Lemma as_i64_u64 z : i64_ok z -> as_i64 (as_u64 z) = z.
Proof.
  unfold i64_ok, i64_min, i64_max, as_i64, as_u64. intros H.
  destruct (Z.lt_ge_cases z 0).
  - rewrite <- (Z.mod_add z 1 (2 ^ 64)), Z.mul_1_l, Z.mod_small by lia. rewrite (proj2 (Z.ltb_ge _ _)) by lia. lia.
  - rewrite Z.mod_small by lia. rewrite (proj2 (Z.ltb_lt _ _)) by lia. done.
Qed.
Lemma as_u64_i64 z : u64_ok z -> as_u64 (as_i64 z) = z.
Proof.
  unfold u64_ok, u64_max, as_i64, as_u64. intros H. destruct (Z.ltb_spec z (2 ^ 63)).
  - apply Z.mod_small. lia.
  - replace (z - 2 ^ 64) with (z + (-1) * 2 ^ 64) by lia. rewrite Z.mod_add by lia. apply Z.mod_small. lia.
Qed.
Lemma as_i64_ok z : u64_ok z -> i64_ok (as_i64 z).
Proof.
  unfold u64_ok, u64_max, i64_ok, i64_min, i64_max, as_i64. intros H. destruct (Z.ltb_spec z (2 ^ 63)); lia.
Qed.
Lemma as_u64_ok z : u64_ok (as_u64 z).
Proof. unfold u64_ok, u64_max, as_u64. pose proof (Z.mod_pos_bound z (2 ^ 64) eq_refl). lia. Qed.

(** ** File header *)

Module Header.
(*@ cellule-ltx/src/ltx.rs 71-85 Header *)
Record Header := Mk {
  version : Z;
  flags : Z;
  page_size : Z;
  commit : Z;
  min_txid : Z;
  max_txid : Z;
  timestamp : Z;
  pre_apply_checksum : Z;
  wal_offset : Z;
  wal_size : Z;
  wal_salt1 : Z;
  wal_salt2 : Z;
  node_id : Z
}.
End Header.
Abbreviation Header := Header.Header.

Global Instance Header_eq_dec : EqDecision Header.
Proof. solve_decision. Defined.

(*@ cellule-ltx/src/ltx.rs 88-90 Header::is_snapshot *)
Definition is_snapshot (h : Header) : bool := Header.min_txid h =? 1.
(*@ cellule-ltx/src/ltx.rs 92-94 Header::no_checksum *)
Definition no_checksum (h : Header) : bool :=
  negb (Z.land (Header.flags h) HEADER_FLAG_NO_CHECKSUM =? 0).

(** [uN_be(&b[off..])]: the [n] bytes at [off]. *)
Definition field (n off : nat) (b : list byte) : Z := from_be (take n (drop off b)).

(*@ cellule-ltx/src/ltx.rs 96-118 Header::parse *)
Definition header_parse (b : list byte) : LtxResult Header :=
  if len b <? HEADER_SIZE then Err LtxErr.LTXCorrupted
  else if bool_decide (take 4 b <> MAGIC) then Err LtxErr.LTXCorrupted
  else Ok (Header.Mk VERSION (field 4 4 b) (field 4 8 b) (field 4 12 b) (field 8 16 b) (field 8 24 b)
             (as_i64 (field 8 32 b)) (field 8 40 b) (as_i64 (field 8 48 b)) (as_i64 (field 8 56 b))
             (field 4 64 b) (field 4 68 b) (field 8 72 b)).

(** Bytes 80 to 99 stay zero. *)
(*@ cellule-ltx/src/ltx.rs 120-136 Header::marshal *)
Definition header_marshal (h : Header) : list byte :=
  MAGIC ++ to_be 4 (Header.flags h) ++ to_be 4 (Header.page_size h) ++ to_be 4 (Header.commit h)
  ++ to_be 8 (Header.min_txid h) ++ to_be 8 (Header.max_txid h)
  ++ to_be 8 (as_u64 (Header.timestamp h)) ++ to_be 8 (Header.pre_apply_checksum h)
  ++ to_be 8 (as_u64 (Header.wal_offset h)) ++ to_be 8 (as_u64 (Header.wal_size h))
  ++ to_be 4 (Header.wal_salt1 h) ++ to_be 4 (Header.wal_salt2 h) ++ to_be 8 (Header.node_id h)
  ++ repeat x00 20.

(*@ cellule-ltx/src/ltx.rs 138-186 Header::validate *)
Definition header_validate (h : Header) : LtxResult unit :=
  if negb (Header.version h =? VERSION) then Err LtxErr.LTXCorrupted
  else if negb (Header.flags h =? Z.land (Header.flags h) HEADER_FLAG_MASK) then Err LtxErr.LTXCorrupted
  else if negb (is_valid_page_size (Header.page_size h)) then Err LtxErr.LTXCorrupted
  else if Header.min_txid h =? 0 then Err LtxErr.LTXCorrupted
  else if Header.max_txid h =? 0 then Err LtxErr.LTXCorrupted
  else if Header.max_txid h <? Header.min_txid h then Err LtxErr.LTXCorrupted
  else if Header.wal_offset h <? 0 then Err LtxErr.LTXCorrupted
  else if Header.wal_size h <? 0 then Err LtxErr.LTXCorrupted
  else if (negb (Header.wal_salt1 h =? 0) || negb (Header.wal_salt2 h =? 0)) && (Header.wal_offset h =? 0)
  then Err LtxErr.LTXCorrupted
  else if (Header.wal_offset h =? 0) && negb (Header.wal_size h =? 0) then Err LtxErr.LTXCorrupted
  else if is_snapshot h then
    if negb (Header.pre_apply_checksum h =? 0) then Err LtxErr.LTXCorrupted else Ok tt
  else if no_checksum h then
    if negb (Header.pre_apply_checksum h =? 0) then Err LtxErr.LTXCorrupted else Ok tt
  else if Header.pre_apply_checksum h =? 0 then Err LtxErr.LTXCorrupted
  else if Z.land (Header.pre_apply_checksum h) CHECKSUM_FLAG =? 0 then Err LtxErr.LTXCorrupted
  else Ok tt.

(** ** Page header *)

Module PageHdr.
(*@ cellule-ltx/src/ltx.rs 190-193 PageHeader *)
Record PageHeader := Mk { pgno : Z; flags : Z }.
End PageHdr.
Abbreviation PageHeader := PageHdr.PageHeader.

(*@ cellule-ltx/src/ltx.rs 196-198 PageHeader::is_zero *)
Definition page_is_zero (p : PageHeader) : bool := (PageHdr.pgno p =? 0) && (PageHdr.flags p =? 0).

(*@ cellule-ltx/src/ltx.rs 200-208 PageHeader::parse *)
Definition page_header_parse (b : list byte) : LtxResult PageHeader :=
  if len b <? PAGE_HEADER_SIZE then Err LtxErr.LTXCorrupted
  else Ok (PageHdr.Mk (field 4 0 b) (field 2 4 b)).

(*@ cellule-ltx/src/ltx.rs 210-215 PageHeader::marshal *)
Definition page_header_marshal (p : PageHeader) : list byte :=
  to_be 4 (PageHdr.pgno p) ++ to_be 2 (PageHdr.flags p).

(*@ cellule-ltx/src/ltx.rs 217-225 PageHeader::validate *)
Definition page_header_validate (p : PageHeader) : LtxResult unit :=
  if PageHdr.pgno p =? 0 then Err LtxErr.LTXCorrupted
  else if negb (PageHdr.flags p =? Z.land (PageHdr.flags p) PAGE_HEADER_FLAG_MASK)
  then Err LtxErr.LTXCorrupted else Ok tt.

(** ** Trailer *)

Module Trailer.
(*@ cellule-ltx/src/ltx.rs 229-232 Trailer *)
Record Trailer := Mk { post_apply_checksum : Z; file_checksum : Z }.
End Trailer.
Abbreviation Trailer := Trailer.Trailer.

Global Instance Trailer_eq_dec : EqDecision Trailer.
Proof. solve_decision. Defined.

(*@ cellule-ltx/src/ltx.rs 235-248 Trailer::validate *)
Definition trailer_validate (t : Trailer) (h : Header) : LtxResult unit :=
  let post := Trailer.post_apply_checksum t in
  let file := Trailer.file_checksum t in
  if no_checksum h then
    if negb (post =? 0) then Err LtxErr.LTXCorrupted
    else if (file =? 0) || (Z.land file CHECKSUM_FLAG =? 0) then Err LtxErr.LTXCorrupted else Ok tt
  else if (post =? 0) || (Z.land post CHECKSUM_FLAG =? 0) then Err LtxErr.LTXCorrupted
  else if (file =? 0) || (Z.land file CHECKSUM_FLAG =? 0) then Err LtxErr.LTXCorrupted else Ok tt.

(*@ cellule-ltx/src/ltx.rs 250-258 Trailer::parse *)
Definition trailer_parse (b : list byte) : LtxResult Trailer :=
  if len b <? TRAILER_SIZE then Err LtxErr.LTXCorrupted
  else Ok (Trailer.Mk (field 8 0 b) (field 8 8 b)).

(*@ cellule-ltx/src/ltx.rs 260-265 Trailer::marshal *)
Definition trailer_marshal (t : Trailer) : list byte :=
  to_be 8 (Trailer.post_apply_checksum t) ++ to_be 8 (Trailer.file_checksum t).

(** ** Size bounds *)

Definition checked_mul_u64 (a b : Z) : option Z := if a * b <=? u64_max then Some (a * b) else None.

(*@ cellule-ltx/src/ltx.rs 283-283 INDEX_ENTRY_UPPER_BOUND *)
Definition INDEX_ENTRY_UPPER_BOUND : Z := 40.

(*@ cellule-ltx/src/ltx.rs 290-295 frame_payload_upper_bound *)
Definition frame_payload_upper_bound (page_size : Z) : LtxResult Z :=
  ok_or (checked_add_u64 (compress_bound page_size) (PAGE_HEADER_SIZE + 4))
        (LtxErr.Limit Limit.LtxFileBytes).

(*@ cellule-ltx/src/ltx.rs 301-310 cut_upper_bound *)
Definition cut_upper_bound (page_size pages : Z) : LtxResult Z :=
  frame ← frame_payload_upper_bound page_size;
  per_page ← ok_or (checked_add_u64 frame INDEX_ENTRY_UPPER_BOUND) (LtxErr.Limit Limit.LtxFileBytes);
  ok_or (bytes ← checked_mul_u64 pages per_page; checked_add_u64 bytes (HEADER_SIZE + TRAILER_SIZE))
        (LtxErr.Limit Limit.LtxFileBytes).

(** * Proofs *)

(** ** Page sizes *)

Lemma page_size_cases sz :
  is_valid_page_size sz = true <->
  sz = 512 \/ sz = 1024 \/ sz = 2048 \/ sz = 4096 \/ sz = 8192 \/ sz = 16384 \/ sz = 32768 \/ sz = 65536.
Proof.
  unfold is_valid_page_size. cbn.
  repeat match goal with |- context [sz =? ?n] => destruct (Z.eqb_spec sz n); [tauto|] end.
  split; [done|lia].
Qed.

Lemma page_size_bounds sz :
  is_valid_page_size sz = true -> 512 <= sz <= 65536 /\ 16385 <= lock_pgno sz <= 2097153.
Proof.
  rewrite page_size_cases. intros Hc.
  repeat destruct Hc as [->|Hc]; try subst sz; vm_compute; intuition discriminate.
Qed.

(** ** Fields *)

Lemma field_skip n off l b :
  (length l <= off)%nat -> field n off (l ++ b) = field n (off - length l) b.
Proof. intros H. unfold field. by rewrite drop_app_ge. Qed.
Lemma field_here n z b : 0 <= z < 256 ^ Z.of_nat n -> field n 0 (to_be n z ++ b) = z.
Proof.
  intros H. unfold field. rewrite drop_0. rewrite <- (length_to_be n z) at 1.
  rewrite take_app_length. by apply from_to_be_small.
Qed.
Lemma field_bound n off b :
  (off + n <= length b)%nat -> 0 <= field n off b < 256 ^ Z.of_nat n.
Proof.
  intros H. unfold field. pose proof (from_be_bound (take n (drop off b))) as Hb.
  rewrite length_take_le in Hb by (rewrite length_drop; lia). done.
Qed.
Lemma field_bytes n off b :
  (off + n <= length b)%nat -> to_be n (field n off b) = take n (drop off b).
Proof.
  intros H. unfold field. rewrite <- (to_from_be (take n (drop off b))) at 2.
  f_equal. rewrite length_take_le; [done|]. rewrite length_drop; lia.
Qed.

Lemma field_u32 z b : u32_ok z -> field 4 0 (to_be 4 z ++ b) = z.
Proof. unfold u32_ok, u32_max. intros H. apply field_here. change (256 ^ Z.of_nat 4) with 4294967296. lia. Qed.
Lemma field_u64 z b : u64_ok z -> field 8 0 (to_be 8 z ++ b) = z.
Proof. unfold u64_ok, u64_max. intros H. apply field_here. change (256 ^ Z.of_nat 8) with 18446744073709551616. lia. Qed.

(** Evaluate the fields of a marshalled record. *)
Ltac eval_fields :=
  repeat (rewrite field_skip by (rewrite ?length_to_be; simpl; lia);
          rewrite ?length_to_be; cbn [Nat.sub length]);
  rewrite ?field_u32, ?field_u64 by (done || apply as_u64_ok).

(** ** Round trips *)

(** The machine widths of a header. *)
Record header_widths (h : Header) : Prop := {
  hw_flags : u32_ok (Header.flags h);
  hw_page_size : u32_ok (Header.page_size h);
  hw_commit : u32_ok (Header.commit h);
  hw_min : u64_ok (Header.min_txid h);
  hw_max : u64_ok (Header.max_txid h);
  hw_timestamp : i64_ok (Header.timestamp h);
  hw_pre : u64_ok (Header.pre_apply_checksum h);
  hw_wal_offset : i64_ok (Header.wal_offset h);
  hw_wal_size : i64_ok (Header.wal_size h);
  hw_salt1 : u32_ok (Header.wal_salt1 h);
  hw_salt2 : u32_ok (Header.wal_salt2 h);
  hw_node : u64_ok (Header.node_id h)
}.

Lemma length_marshal h : length (header_marshal h) = 100%nat.
Proof. unfold header_marshal. by rewrite !length_app, !length_to_be. Qed.

(** Parsing what was marshalled returns the header. *)
Lemma header_parse_marshal h :
  header_widths h -> Header.version h = VERSION -> header_parse (header_marshal h) = Ok h.
Proof.
  intros [] Hv. unfold header_parse.
  assert ((len (header_marshal h) <? HEADER_SIZE) = false) as -> by (unfold len; by rewrite length_marshal).
  rewrite bool_decide_eq_false_2.
  2: { unfold header_marshal. intros []. by rewrite (take_app_length' _ _ 4). }
  unfold header_marshal. destruct h as [v ? ? ? ? ? ? ? ? ? ? ? ?].
  cbn [Header.version Header.flags Header.page_size Header.commit Header.min_txid Header.max_txid
    Header.timestamp Header.pre_apply_checksum Header.wal_offset Header.wal_size Header.wal_salt1
    Header.wal_salt2 Header.node_id] in *. subst v.
  do 2 f_equal; eval_fields; by rewrite ?as_i64_u64.
Qed.

Lemma header_parse_widths b h :
  header_parse b = Ok h -> header_widths h /\ Header.version h = VERSION.
Proof.
  unfold header_parse. intros [Hl [_ [= <-]]%reject_Ok]%reject_Ok. apply Z.ltb_ge in Hl.
  unfold len, HEADER_SIZE in Hl.
  assert (forall off, (off + 4 <= 100)%nat -> u32_ok (field 4 off b)) as H4.
  { intros off Ho. pose proof (field_bound 4 off b ltac:(lia)) as Hb.
    change (256 ^ Z.of_nat 4) with 4294967296 in Hb. unfold u32_ok, u32_max. lia. }
  assert (forall off, (off + 8 <= 100)%nat -> u64_ok (field 8 off b)) as H8.
  { intros off Ho. pose proof (field_bound 8 off b ltac:(lia)) as Hb.
    change (256 ^ Z.of_nat 8) with 18446744073709551616 in Hb. unfold u64_ok, u64_max. lia. }
  split; [|done]. constructor; simpl; try apply as_i64_ok; first [apply H4|apply H8]; lia.
Qed.

Lemma page_header_parse_marshal p :
  u32_ok (PageHdr.pgno p) -> 0 <= PageHdr.flags p < 65536 ->
  page_header_parse (page_header_marshal p) = Ok p.
Proof.
  intros Hp Hf. unfold page_header_parse, page_header_marshal.
  rewrite (proj2 (Z.ltb_ge _ _)) by (autorewrite with len; done).
  destruct p as [n f]; cbn [PageHdr.pgno PageHdr.flags] in *. do 2 f_equal; [by rewrite field_u32|].
  eval_fields. rewrite <- (app_nil_r (to_be 2 f)). apply field_here. done.
Qed.
Lemma page_header_marshal_parse b p :
  length b = 6%nat -> page_header_parse b = Ok p ->
  page_header_marshal p = b /\ u32_ok (PageHdr.pgno p) /\ 0 <= PageHdr.flags p < 65536.
Proof.
  intros Hl. unfold page_header_parse. intros [_ [= <-]]%reject_Ok. unfold page_header_marshal.
  cbn [PageHdr.pgno PageHdr.flags]. rewrite !field_bytes by lia. split.
  - rewrite drop_0, (take_ge _ 2) by (rewrite length_drop; lia). apply take_drop.
  - pose proof (field_bound 4 0 b ltac:(lia)) as H4. pose proof (field_bound 2 4 b ltac:(lia)) as H2.
    change (256 ^ Z.of_nat 4) with 4294967296 in H4. change (256 ^ Z.of_nat 2) with 65536 in H2.
    unfold u32_ok, u32_max. lia.
Qed.

Lemma trailer_parse_marshal t :
  u64_ok (Trailer.post_apply_checksum t) -> u64_ok (Trailer.file_checksum t) ->
  trailer_parse (trailer_marshal t) = Ok t.
Proof.
  intros Hp Hf. unfold trailer_parse, trailer_marshal.
  rewrite (proj2 (Z.ltb_ge _ _)) by (autorewrite with len; done).
  destruct t as [p f]; cbn [Trailer.post_apply_checksum Trailer.file_checksum] in *.
  do 2 f_equal; [by rewrite field_u64|].
  eval_fields. rewrite <- (app_nil_r (to_be 8 f)). by apply field_u64.
Qed.

(** What a validated header promises. *)
Lemma header_validate_page_size h :
  header_validate h = Ok tt -> is_valid_page_size (Header.page_size h) = true.
Proof. unfold header_validate. intros H. repeat (apply reject_Ok in H as [? H]). by guards. Qed.
Lemma header_validate_snapshot h :
  header_validate h = Ok tt -> is_snapshot h = true -> Header.pre_apply_checksum h = 0.
Proof.
  unfold header_validate. intros H Hs. repeat (apply reject_Ok in H as [? H]).
  rewrite Hs in H. apply reject_Ok in H as [H _]. by guards.
Qed.
