(* ===== verification/LtxCodec.v ===== *)
(** * LtxCodec: the streaming LTX encoder and decoder

    Models [crates/cellule-ltx/src/codec.rs] and the whole-file readers of
    [crates/cellule-ltx/src/ltx.rs]. A reader is the byte string it will return; a
    [read_exact] past its end is the error [Eof]. A CRC digest is the bytes it was
    fed. The decoder and the encoder are dropped after an error, so a failing
    operation returns no state.

    The LZ4 decoders are the [lz4_flex] crate and enter as the class [Lz4Flex]: the
    block decoder decodes conforming blocks, the frame decoder consumes a prefix.
    BLAKE3 is the class [Blake3].

    The theorems: whatever the encoder writes the decoder reads back; what the
    decoder accepts is complete, ordered and checksummed; and a file never exceeds
    the size promised before it is written. *)

From Stdlib Require Import ZArith Lia.
From Stdlib Require Import Strings.Byte.
From stdpp Require Import base strings sorting numbers.
From stdpp Require Import list.
From S2P Require Import Prelude Bytes Identity LtxTypes Lz4 Ltx.

Local Open Scope bool_scope.

(** ** Third-party code *)

Class Blake3 := blake3 : list byte -> Digest.

Class Lz4Flex := {
  (** [lz4_flex::block::decompress_into]: the bytes written into a buffer of [n]. *)
  decompress_into : list byte -> Z -> option (list byte);
  decompress_block block data n :
    lz4_block block data -> len data <= n -> decompress_into block n = Some data;
  (** [FrameDecoder]: [n] bytes, whether more follow in the frame, and the input
      after the frame. *)
  frame_decode : list byte -> Z -> option (list byte * bool * list byte);
  frame_decode_prefix input n data more rest :
    frame_decode input n = Some (data, more, rest) ->
    len data = n /\ exists frame, input = frame ++ rest
}.

(** ** Variable-length integers *)

(*@ cellule-ltx/src/codec.rs 504-508 write_uvarint *)
Fixpoint uvarint_bytes (fuel : nat) (value : Z) : list byte :=
  match fuel with
  | O => []
  | S fuel =>
      if 128 <=? value
      then byte_of (Z.lor (value mod 256) 128) :: uvarint_bytes fuel (Z.shiftr value 7)
      else [byte_of value]
  end.

(** Ten bytes hold every 64-bit value. *)
(*@ cellule-ltx/src/codec.rs 503-509 write_uvarint *)
Definition write_uvarint (value : Z) : list byte := uvarint_bytes 10 value.

(** [bytes] are the bytes read so far, [index] of them. *)
(*@ cellule-ltx/src/codec.rs 473-487 read_uvarint *)
Fixpoint read_uvarint_from (fuel : nat) (index value : Z) (bytes rest : list byte)
  : LtxResult (Z * list byte * list byte) :=
  match fuel with
  | O => Err LtxErr.LTXCorrupted
  | S fuel =>
      match rest with
      | [] => Err LtxErr.LTXCorrupted
      | b :: rest =>
          if byte_val b <? 128 then
            if (index =? 9) && (1 <? byte_val b) then Err LtxErr.LTXCorrupted
            else Ok (Z.lor value (Z.shiftl (byte_val b) (index * 7)), bytes ++ [b], rest)
          else read_uvarint_from fuel (index + 1)
                 (Z.lor value (as_u64 (Z.shiftl (Z.land (byte_val b) 127) (index * 7))))
                 (bytes ++ [b]) rest
      end
  end.

(** The value, the bytes it took and the input after it. *)
(*@ cellule-ltx/src/codec.rs 472-488 read_uvarint *)
Definition read_uvarint (rest : list byte) : LtxResult (Z * list byte * list byte) :=
  read_uvarint_from 10 0 0 [] rest.

(** A clean end of input inside the footer is malformed. *)
(*@ cellule-ltx/src/codec.rs 490-501 read_footer_exact *)
Definition read_footer_exact (n : nat) (rest : list byte) : LtxResult (list byte * list byte) :=
  ok_or (read_exact n rest) LtxErr.LTXCorrupted.

Section Codec.
Context `{Crc64, Blake3, Lz4Flex}.

(** ** The decoder *)

(*@ cellule-ltx/src/codec.rs 16-21 DecoderState *)
Inductive DecoderState := AtHeader | Pages | AtClose | Closed.
#[global] Instance DecoderState_eq_dec : EqDecision DecoderState.
Proof. solve_decision. Defined.

(*@ cellule-ltx/src/codec.rs 274-280 EncodedPage *)
Record EncodedPage := MkEncodedPage {
  ep_page : Z;
  ep_offset : Z;
  ep_size : Z;
  ep_frame_hash : Digest;
  ep_checksum : Z
}.

(** [consumed] is what the [CountingReader] counted and digested, [hash] what the
    CRC was fed. *)
(*@ cellule-ltx/src/codec.rs 23-34 Decoder *)
Record Decoder := MkDecoder {
  rest : list byte;
  consumed : list byte;
  index : list (Z * Z * Z);
  dstate : DecoderState;
  dheader : Header;
  dtrailer : Trailer;
  hash : list byte;
  rolling_checksum : Z;
  replica_index : option (list EncodedPage)
}.

Definition header_default : Header := Header.Mk 0 0 0 0 0 0 0 0 0 0 0 0 0.
Definition trailer_default : Trailer := Trailer.Mk 0 0.

(*@ cellule-ltx/src/codec.rs 37-54 Decoder::new *)
Definition decoder_new (reader : list byte) : Decoder :=
  MkDecoder reader [] [] AtHeader header_default trailer_default [] 0 None.

(*@ cellule-ltx/src/codec.rs 57-62 Decoder::new_with_index *)
Definition decoder_new_with_index (reader : list byte) : Decoder :=
  MkDecoder reader [] [] AtHeader header_default trailer_default [] 0 (Some []).

(** [self.reader.read_exact] followed by [self.hash.update]. *)
Definition read_hashed (d : Decoder) (n : nat) : LtxResult (list byte * Decoder) :=
  '(bytes, rest') ← ok_or (read_exact n (rest d)) LtxErr.Eof;
  Ok (bytes, MkDecoder rest' (consumed d ++ bytes) (index d) (dstate d) (dheader d) (dtrailer d)
               (hash d ++ bytes) (rolling_checksum d) (replica_index d)).

(*@ cellule-ltx/src/codec.rs 64-78 Decoder::decode_header *)
Definition decode_header (d : Decoder) : LtxResult Decoder :=
  if bool_decide (dstate d <> AtHeader) then Err LtxErr.LTXCorrupted
  else
    '(bytes, d) ← read_hashed d 100;
    h ← header_parse bytes;
    _ ← header_validate h;
    Ok (MkDecoder (rest d) (consumed d) (index d) Pages h (dtrailer d) (hash d)
          (if no_checksum h then rolling_checksum d else CHECKSUM_FLAG) (replica_index d)).

(** The number of the last page read, zero before the first. *)
(*@ cellule-ltx/src/codec.rs 98-98 Decoder::decode_page *)
Definition previous_page (index : list (Z * Z * Z)) : Z :=
  match last index with Some (p, _, _) => p | None => 0 end.

(** A page of a snapshot is the next page that is not the lock page. *)
(*@ cellule-ltx/src/codec.rs 100-100 Decoder::decode_page *)
Definition expected_page (previous lock : Z) : Z :=
  previous + (if previous =? lock - 1 then 2 else 1).

(** The guards on a page number. *)
(*@ cellule-ltx/src/codec.rs 99-107 Decoder::decode_page *)
Definition bad_page (h : Header) (previous pgno : Z) : bool :=
  let lock := lock_pgno (Header.page_size h) in
  (pgno <=? previous) || (Header.commit h <? pgno) || (pgno =? lock)
  || (is_snapshot h && negb (pgno =? expected_page previous lock)).

(** The body of a page frame after its header: the page, the bytes that were
    read and those of them the CRC was fed before the page. *)
(*@ cellule-ltx/src/codec.rs 109-161 Decoder::decode_page *)
Definition read_body (p : PageHeader) (page_size : Z) (input : list byte)
  : LtxResult (list byte * list byte * list byte * list byte) :=
  if negb (Z.land (PageHdr.flags p) PAGE_HEADER_FLAG_SIZE =? 0) then
    '(size_bytes, input) ← ok_or (read_exact 4 input) LtxErr.Eof;
    let compressed_size := from_be size_bytes in
    if compress_bound page_size <? compressed_size then Err LtxErr.LTXCorrupted
    else
      '(compressed, input) ← ok_or (read_exact (Z.to_nat compressed_size) input) LtxErr.Eof;
      data ← ok_or (decompress_into compressed page_size) LtxErr.Codec;
      if negb (len data =? page_size) then Err LtxErr.LTXCorrupted
      else Ok (data, size_bytes ++ compressed, size_bytes, input)
  else
    '(data, more, input') ← ok_or (frame_decode input page_size) LtxErr.Codec;
    if more : bool then Err LtxErr.LTXCorrupted
    else Ok (data, take (length input - length input') input, [], input').

(** The entry of the replica index: only sized frames are hashed. *)
Definition index_entry (p : PageHeader) (offset : Z) (header_bytes body data : list byte) : EncodedPage :=
  MkEncodedPage (PageHdr.pgno p) offset (len header_bytes + len body)
    (if negb (Z.land (PageHdr.flags p) PAGE_HEADER_FLAG_SIZE =? 0)
     then blake3 (header_bytes ++ body) else array_fill 32 x00)
    (checksum_page (PageHdr.pgno p) data).

(*@ cellule-ltx/src/codec.rs 80-174 Decoder::decode_page *)
Definition decode_page (d : Decoder) (data_len : Z) : LtxResult (Decoder * option (PageHeader * list byte)) :=
  if bool_decide (dstate d = AtClose) then Ok (d, None)
  else if bool_decide (dstate d <> Pages) || negb (data_len =? Header.page_size (dheader d))
  then Err LtxErr.LTXCorrupted
  else
    let h := dheader d in
    let offset := len (consumed d) in
    '(header_bytes, d) ← read_hashed d 6;
    p ← page_header_parse header_bytes;
    if page_is_zero p then
      Ok (MkDecoder (rest d) (consumed d) (index d) AtClose h (dtrailer d) (hash d)
            (rolling_checksum d) (replica_index d), None)
    else
      _ ← page_header_validate p;
      if bad_page h (previous_page (index d)) (PageHdr.pgno p) then Err LtxErr.LTXCorrupted
      else
        '(data, body, hashed, rest') ← read_body p (Header.page_size h) (rest d);
        let rolling :=
          if is_snapshot h && negb (no_checksum h)
             && negb (PageHdr.pgno p =? lock_pgno (Header.page_size h))
          then flag_xor (rolling_checksum d) (checksum_page (PageHdr.pgno p) data)
          else rolling_checksum d in
        Ok (MkDecoder rest' (consumed d ++ body)
              (index d ++ [(PageHdr.pgno p, offset, len (consumed d ++ body) - offset)])
              Pages h (dtrailer d) (hash d ++ hashed ++ data) rolling
              ((fun l => l ++ [index_entry p offset header_bytes body data]) <$> replica_index d),
            Some (p, data)).

(** The embedded index must repeat the observed pages. *)
(*@ cellule-ltx/src/codec.rs 188-196 Decoder::close *)
Fixpoint match_values (expected : list Z) (hashed input : list byte)
  : LtxResult (list byte * list byte) :=
  match expected with
  | [] => Ok (hashed, input)
  | e :: expected =>
      '(actual, bytes, input) ← read_uvarint input;
      if negb (actual =? e) then Err LtxErr.LTXCorrupted
      else match_values expected (hashed ++ bytes) input
  end.

Definition index_values (index : list (Z * Z * Z)) : list Z :=
  concat (map (fun e => [e.1.1; e.1.2; e.2]) index).

(** The last page a snapshot of [commit] pages holds. *)
Definition last_snapshot_page (h : Header) : Z :=
  if Header.commit h =? lock_pgno (Header.page_size h) then Header.commit h - 1 else Header.commit h.

(*@ cellule-ltx/src/codec.rs 176-240 Decoder::close *)
Definition decoder_close (d : Decoder) : LtxResult Decoder :=
  if bool_decide (dstate d = Closed) then Ok d
  else if bool_decide (dstate d <> AtClose) then Err LtxErr.LTXCorrupted
  else
    let h := dheader d in
    '(idx, input) ← match_values (index_values (index d)) [] (rest d);
    '(ending, bytes, input) ← read_uvarint input;
    if negb (ending =? 0) then Err LtxErr.LTXCorrupted
    else
      let idx := idx ++ bytes in
      '(size_bytes, input) ← read_footer_exact 8 input;
      if negb (from_be size_bytes =? len idx) then Err LtxErr.LTXCorrupted
      else if is_snapshot h && negb (previous_page (index d) =? last_snapshot_page h)
      then Err LtxErr.LTXCorrupted
      else
        '(trailer_bytes, input) ← read_footer_exact 16 input;
        t ← trailer_parse trailer_bytes;
        _ ← trailer_validate t h;
        match input with
        | _ :: _ => Err LtxErr.LTXCorrupted
        | [] =>
            let fed := hash d ++ idx ++ size_bytes ++ take 8 trailer_bytes in
            if negb (Z.lor CHECKSUM_FLAG (crc64 fed) =? Trailer.file_checksum t)
            then Err LtxErr.ChecksumMismatch
            else if is_snapshot h && negb (no_checksum h)
                    && negb (rolling_checksum d =? Trailer.post_apply_checksum t)
            then Err LtxErr.ChecksumMismatch
            else Ok (MkDecoder [] (consumed d ++ rest d) (index d) Closed h t fed
                       (rolling_checksum d) (replica_index d))
        end.

(*@ cellule-ltx/src/codec.rs 242-250 Decoder::artifact *)
Definition artifact (d : Decoder) : LtxResult (Z * Digest) :=
  if bool_decide (dstate d <> Closed) then Err (LtxErr.InvalidState "LTX decoder is not closed")
  else Ok (len (consumed d), blake3 (consumed d)).

(*@ cellule-ltx/src/codec.rs 253-256 Decoder::into_replica_index *)
Definition into_replica_index (d : Decoder) : LtxResult (list EncodedPage) :=
  ok_or (replica_index d) (LtxErr.InvalidState "LTX page index was not requested").

(** ** Whole files *)

(*@ cellule-ltx/src/ltx.rs 313-316 DecodedFile *)
Record DecodedFile := MkDecoded { file_header : Header; file_trailer : Trailer }.

(** The [while let Some(page)] loop; every page consumes six bytes or more. *)
(*@ cellule-ltx/src/ltx.rs 407-411 decode_reader_inner *)
Fixpoint decode_pages (fuel : nat) (d : Decoder) (data_len : Z)
  : LtxResult (Decoder * list (Z * list byte)) :=
  match fuel with
  | O => Err LtxErr.Panic
  | S fuel =>
      '(d, page) ← decode_page d data_len;
      match page with
      | None => Ok (d, [])
      | Some (p, data) =>
          '(d, pages) ← decode_pages fuel d data_len;
          Ok (d, (PageHdr.pgno p, data) :: pages)
      end
  end.

Definition decode_all (d : Decoder) : LtxResult (Decoder * list (Z * list byte)) :=
  d ← decode_header d;
  '(d, pages) ← decode_pages (S (length (rest d))) d (Header.page_size (dheader d));
  d ← decoder_close d;
  Ok (d, pages).

(*@ cellule-ltx/src/ltx.rs 397-425 decode_reader_inner *)
Definition decode_reader_inner (reader : list byte) (retain_pages : bool)
  : LtxResult (DecodedFile * list (Z * list byte) * Z * Digest) :=
  '(d, pages) ← decode_all (decoder_new reader);
  '(size, digest) ← artifact d;
  Ok (MkDecoded (dheader d) (dtrailer d), if retain_pages then pages else [], size, digest).

(*@ cellule-ltx/src/ltx.rs 360-378 inspect_reader_with_index *)
Definition inspect_reader_with_index (reader : list byte)
  : LtxResult (DecodedFile * Z * Digest * list EncodedPage) :=
  '(d, _) ← decode_all (decoder_new_with_index reader);
  '(size, digest) ← artifact d;
  idx ← into_replica_index d;
  Ok (MkDecoded (dheader d) (dtrailer d), size, digest, idx).

(*@ cellule-ltx/src/types.rs 100-115 SegmentInfo::from_inspected *)
Definition from_inspected (f : DecodedFile) (size_bytes : Z) (digest : Digest) : SegmentInfo :=
  let h := file_header f in
  Segment.Mk (Header.min_txid h) (Header.max_txid h) (Header.page_size h) (Header.commit h)
    (Header.pre_apply_checksum h) (Trailer.post_apply_checksum (file_trailer f)) size_bytes digest.

(** ** The encoder *)

(*@ cellule-ltx/src/codec.rs 13-13 INDEX_COPY_BYTES *)
Definition INDEX_COPY_BYTES : Z := Z.shiftl 64 10.

(** The writer is a vector; the index is kept in memory (the file-backed index
    reads back what was written to it). *)
(*@ cellule-ltx/src/codec.rs 259-270 Encoder *)
Record Encoder := MkEncoder {
  writer : list byte;
  eheader : Header;
  etrailer : Trailer;
  ehash : list byte;
  eindex : list byte;
  bytes_written : Z;
  previous_page_number : Z;
  header_written : bool;
  closed : bool
}.

(*@ cellule-ltx/src/codec.rs 342-355 Encoder::new *)
Definition encoder_new : Encoder :=
  MkEncoder [] header_default trailer_default [] [] 0 0 false false.

(*@ cellule-ltx/src/codec.rs 464-469 Encoder::write_hashed *)
Definition write_hashed (e : Encoder) (bytes : list byte) : Encoder :=
  MkEncoder (writer e ++ bytes) (eheader e) (etrailer e) (ehash e ++ bytes) (eindex e)
    (bytes_written e + len bytes) (previous_page_number e) (header_written e) (closed e).

(*@ cellule-ltx/src/codec.rs 361-371 Encoder::encode_header *)
Definition encode_header (e : Encoder) (h : Header) : LtxResult Encoder :=
  if header_written e || closed e then Err LtxErr.LTXCorrupted
  else
    _ ← header_validate h;
    let e := MkEncoder (writer e) h (etrailer e) (ehash e) (eindex e) (bytes_written e)
               (previous_page_number e) (header_written e) (closed e) in
    let e := write_hashed e (header_marshal h) in
    Ok (MkEncoder (writer e) (eheader e) (etrailer e) (ehash e) (eindex e) (bytes_written e)
          (previous_page_number e) true (closed e)).

(** The order of the pages: consecutive in a snapshot, ascending in a delta. *)
Definition out_of_order (h : Header) (previous pgno : Z) : bool :=
  if is_snapshot h then
    ((previous =? 0) && negb (pgno =? 1))
    || (negb (previous =? 0) && negb (pgno =? expected_page previous (lock_pgno (Header.page_size h))))
  else pgno <=? previous.

(*@ cellule-ltx/src/codec.rs 288-294 EncoderIndex::write_entry *)
Definition index_entry_bytes (page offset size : Z) : list byte :=
  write_uvarint page ++ write_uvarint offset ++ write_uvarint size.

(*@ cellule-ltx/src/codec.rs 373-430 Encoder::encode_page *)
Definition encode_page (e : Encoder) (p : PageHeader) (data : list byte)
  : LtxResult (Encoder * EncodedPage) :=
  let h := eheader e in
  if negb (header_written e) || closed e || (Header.commit h <? PageHdr.pgno p)
     || negb (len data =? Header.page_size h)
  then Err LtxErr.LTXCorrupted
  else
    _ ← page_header_validate p;
    if PageHdr.pgno p =? lock_pgno (Header.page_size h) then Err LtxErr.LTXCorrupted
    else if out_of_order h (previous_page_number e) (PageHdr.pgno p) then Err LtxErr.LTXCorrupted
    else
      let offset := bytes_written e in
      compressed ← compress data;
      let p := PageHdr.Mk (PageHdr.pgno p) (Z.lor (PageHdr.flags p) PAGE_HEADER_FLAG_SIZE) in
      let header := page_header_marshal p in
      let e := write_hashed e header in
      if u32_max <? len compressed then Err LtxErr.Codec
      else
        let size := to_be 4 (len compressed) in
        let e := write_hashed e size in
        let written := bytes_written e + len compressed in
        Ok (MkEncoder (writer e ++ compressed) h (etrailer e) (ehash e ++ data)
              (eindex e ++ index_entry_bytes (PageHdr.pgno p) offset (written - offset))
              written (PageHdr.pgno p) (header_written e) (closed e),
            MkEncodedPage (PageHdr.pgno p) offset (written - offset)
              (blake3 (header ++ size ++ compressed)) (checksum_page (PageHdr.pgno p) data)).

(** The index is copied in pieces of [INDEX_COPY_BYTES]. *)
(*@ cellule-ltx/src/codec.rs 442-448 Encoder::close *)
Fixpoint copy_index (fuel : nat) (e : Encoder) (copied : Z) : LtxResult Encoder :=
  match fuel with
  | O => Ok e
  | S fuel =>
      if copied <? len (eindex e) then
        let length := Z.min (len (eindex e) - copied) INDEX_COPY_BYTES in
        bytes ← ok_or (slice (eindex e) copied (copied + length)) LtxErr.LTXCorrupted;
        copy_index fuel (write_hashed e bytes) (copied + length)
      else Ok e
  end.

(*@ cellule-ltx/src/codec.rs 432-462 Encoder::close *)
Definition encoder_close (e : Encoder) (post_apply_checksum : Z) : LtxResult Encoder :=
  if negb (header_written e) || closed e then Err LtxErr.LTXCorrupted
  else
    let e := write_hashed e (repeat x00 6) in
    let index_offset := bytes_written e in
    let e := MkEncoder (writer e) (eheader e) (etrailer e) (ehash e) (eindex e ++ [x00])
               (bytes_written e) (previous_page_number e) (header_written e) (closed e) in
    e ← copy_index (S (length (eindex e))) e 0;
    let e := write_hashed e (to_be 8 (bytes_written e - index_offset)) in
    let fed := ehash e ++ to_be 8 post_apply_checksum in
    let t := Trailer.Mk post_apply_checksum (Z.lor CHECKSUM_FLAG (crc64 fed)) in
    _ ← trailer_validate t (eheader e);
    if (Header.commit (eheader e) =? 0) && negb (post_apply_checksum =? CHECKSUM_FLAG)
    then Err LtxErr.LTXCorrupted
    else Ok (MkEncoder (writer e ++ trailer_marshal t) (eheader e) t fed (eindex e)
               (bytes_written e + TRAILER_SIZE) (previous_page_number e) (header_written e) true).

(** The calls of a client that writes one file: the header, every page, the
    trailer. *)
Fixpoint encode_pages (e : Encoder) (pages : list (Z * list byte)) : LtxResult Encoder :=
  match pages with
  | [] => Ok e
  | (pgno, data) :: pages =>
      '(e, _) ← encode_page e (PageHdr.Mk pgno 0) data; encode_pages e pages
  end.
Definition encode_file (h : Header) (pages : list (Z * list byte)) (post : Z) : LtxResult Encoder :=
  e ← encode_header encoder_new h;
  e ← encode_pages e pages;
  encoder_close e post.
End Codec.

(** * Proofs *)

(** ** Variable-length integers *)

Lemma continuation_byte v :
  0 <= v -> byte_val (byte_of (Z.lor (v mod 256) 128)) = 128 + v mod 128.
Proof.
  intros Hv. pose proof (Z.mod_pos_bound v 256 eq_refl). pose proof (Z.mod_pos_bound v 128 eq_refl).
  assert (forall a, 0 <= a < 128 -> Z.lor a 128 = a + 128) as Hl.
  { intros a Ha. pose proof (lor_shift a 1 7) as E. change (Z.shiftl 1 7) with 128 in E.
    rewrite E by lia. lia. }
  assert (v mod 128 = (v mod 256) mod 128) as Em by (symmetry; apply Z.mod_mod_divide; by exists 2).
  rewrite byte_val_of. destruct (Z.lt_ge_cases (v mod 256) 128).
  - rewrite Hl by lia. rewrite (Z.mod_small (v mod 256) 128) in Em by lia. rewrite Z.mod_small; lia.
  - assert (v mod 256 = Z.lor (v mod 256 - 128) 128) as -> by (rewrite Hl; lia).
    rewrite <- Z.lor_assoc. change (Z.lor 128 128) with 128. rewrite Hl by lia.
    assert ((v mod 256) mod 128 = v mod 256 - 128) as Em2.
    { replace (v mod 256) with (v mod 256 - 128 + 1 * 128) at 1 by lia.
      rewrite Z.mod_add by lia. apply Z.mod_small. lia. }
    rewrite Z.mod_small; lia.
Qed.

Lemma read_uvarint_from_ok fuel index value bytes v rest :
  index = 10 - Z.of_nat fuel -> 0 <= index <= 9 ->
  0 <= value < 2 ^ (7 * index) -> 0 <= v < 2 ^ (64 - 7 * index) ->
  read_uvarint_from fuel index value bytes (uvarint_bytes fuel v ++ rest)
  = Ok (value + v * 2 ^ (7 * index), bytes ++ uvarint_bytes fuel v, rest).
Proof.
  revert index value bytes v. induction fuel as [|fuel IH]; intros index value bytes v Hf Hi Hval Hv; [lia|].
  cbn [uvarint_bytes read_uvarint_from]. destruct (Z.leb_spec 128 v) as [L|L]; cbn [app].
  - pose proof (Z.mod_pos_bound v 128 eq_refl) as Hm.
    rewrite continuation_byte by lia. rewrite (proj2 (Z.ltb_ge _ _)) by lia.
    assert (index <= 8) as Hi8.
    { destruct (decide (index = 9)) as [->|]; [|lia]. change (2 ^ (64 - 7 * 9)) with 2 in Hv. lia. }
    assert (Z.land (128 + v mod 128) 127 = v mod 128) as ->.
    { change 127 with (Z.ones 7). rewrite Z.land_ones by lia. change (2 ^ 7) with 128.
      replace (128 + v mod 128) with (v mod 128 + 1 * 128) by lia.
      rewrite Z.mod_add by lia. apply Z.mod_small. lia. }
    assert (2 ^ (7 * (index + 1)) = 128 * 2 ^ (7 * index)) as E7.
    { replace (7 * (index + 1)) with (7 + 7 * index) by lia. rewrite Z.pow_add_r by lia. done. }
    pose proof (Z.pow_pos_nonneg 2 (7 * index)).
    assert (as_u64 (Z.shiftl (v mod 128) (index * 7)) = Z.shiftl (v mod 128) (7 * index)) as ->.
    { unfold as_u64. rewrite (Z.mul_comm index). rewrite Z.shiftl_mul_pow2 by lia. apply Z.mod_small.
      assert (2 ^ (7 * (index + 1)) <= 2 ^ 64) by (apply Z.pow_le_mono_r; lia). nia. }
    rewrite lor_shift by lia. rewrite Z.shiftr_div_pow2 by lia. change (2 ^ 7) with 128.
    pose proof (Z.div_mod v 128 ltac:(lia)) as Hdm.
    rewrite IH; [|lia|lia|nia|].
    + rewrite <- app_assoc. do 3 f_equal. rewrite E7. nia.
    + split; [apply Z.div_pos; lia|]. apply Z.div_lt_upper_bound; [lia|].
      replace (64 - 7 * index) with (7 + (64 - 7 * (index + 1))) in Hv by lia.
      rewrite Z.pow_add_r in Hv by lia. lia.
  - rewrite byte_val_of, Z.mod_small by lia. rewrite (proj2 (Z.ltb_lt _ _)) by lia.
    destruct (Z.eqb_spec index 9) as [->|]; simpl.
    + change (2 ^ (64 - 7 * 9)) with 2 in Hv. rewrite (proj2 (Z.ltb_ge _ _)) by lia.
      rewrite (Z.mul_comm 9 7), lor_shift by lia. done.
    + rewrite (Z.mul_comm index 7), lor_shift by lia. done.
Qed.

(** Reading inverts writing, for every 64-bit value. *)
Lemma uvarint_roundtrip v rest :
  u64_ok v -> read_uvarint (write_uvarint v ++ rest) = Ok (v, write_uvarint v, rest).
Proof.
  intros Hv. unfold read_uvarint, write_uvarint. rewrite read_uvarint_from_ok; [|done|lia|change (2 ^ (7 * 0)) with 1; lia|].
  - rewrite app_nil_l. change (2 ^ (7 * 0)) with 1. by rewrite Z.mul_1_r.
  - unfold u64_ok, u64_max in Hv. change (2 ^ (64 - 7 * 0)) with 18446744073709551616. lia.
Qed.

Lemma uvarint_bytes_len fuel v k :
  0 <= v < 2 ^ (7 * Z.of_nat k) -> (0 < k)%nat -> (k <= fuel)%nat -> len (uvarint_bytes fuel v) <= Z.of_nat k.
Proof.
  revert v k. induction fuel as [|fuel IH]; intros v k Hv Hk Hf; [lia|]. cbn [uvarint_bytes].
  destruct (Z.leb_spec 128 v) as [L|L]; autorewrite with len; [|lia].
  destruct k as [|[|k]]; [lia| |].
  { change (2 ^ (7 * Z.of_nat 1)) with 128 in Hv. lia. }
  specialize (IH (Z.shiftr v 7) (S k)). lapply IH; [intros IH'; specialize (IH' ltac:(lia) ltac:(lia)); lia|].
  rewrite Z.shiftr_div_pow2 by lia. split; [apply Z.div_pos; lia|].
  apply Z.div_lt_upper_bound; [lia|]. rewrite <- Z.pow_add_r by lia.
  replace (7 + 7 * Z.of_nat (S k)) with (7 * Z.of_nat (S (S k))) by lia. lia.
Qed.

Section CodecProofs.
Context `{Crc64, Blake3, Lz4Flex}.

(** ** What the encoder writes *)

(** The frame of a page whose compressed block is [block]. *)
Definition frame_bytes (pgno : Z) (block : list byte) : list byte :=
  page_header_marshal (PageHdr.Mk pgno PAGE_HEADER_FLAG_SIZE) ++ to_be 4 (len block) ++ block.
(** What the CRC is fed for it. *)
Definition frame_hashed (pgno : Z) (block data : list byte) : list byte :=
  page_header_marshal (PageHdr.Mk pgno PAGE_HEADER_FLAG_SIZE) ++ to_be 4 (len block) ++ data.

Lemma len_page_header p : len (page_header_marshal p) = 6.
Proof. unfold page_header_marshal. by autorewrite with len. Qed.
Lemma len_frame pgno block : len (frame_bytes pgno block) = 10 + len block.
Proof. unfold frame_bytes. autorewrite with len. rewrite len_page_header. lia. Qed.

Lemma encode_page_Ok e pgno data e' ep :
  encode_page e (PageHdr.Mk pgno 0) data = Ok (e', ep) ->
  exists block, compress data = Ok block /\ len block <= u32_max
    /\ header_written e = true /\ closed e = false
    /\ pgno <> 0 /\ pgno <= Header.commit (eheader e) /\ pgno <> lock_pgno (Header.page_size (eheader e))
    /\ len data = Header.page_size (eheader e)
    /\ out_of_order (eheader e) (previous_page_number e) pgno = false
    /\ e' = MkEncoder (writer e ++ frame_bytes pgno block) (eheader e) (etrailer e)
              (ehash e ++ frame_hashed pgno block data)
              (eindex e ++ index_entry_bytes pgno (bytes_written e) (10 + len block))
              (bytes_written e + (10 + len block)) pgno true false.
Proof.
  unfold encode_page. cbn [PageHdr.pgno PageHdr.flags].
  intros [Hg Hk]%reject_Ok. guards_in Hg. destruct Hg as [[[Hw Hc] Hcommit] Hlen].
  apply bind_Ok in Hk as (u & [Hz _]%reject_Ok & Hk). cbn [PageHdr.pgno] in Hz. apply Z.eqb_neq in Hz.
  apply reject_Ok in Hk as [Hlock Hk]. apply Z.eqb_neq in Hlock.
  apply reject_Ok in Hk as [Hord Hk]. apply bind_Ok in Hk as (block & Hb & Hk).
  apply reject_Ok in Hk as [Hsz Hk]. apply Z.ltb_ge in Hsz.
  exists block. repeat (split; [done || lia|]).
  injection Hk as <- _. unfold write_hashed; cbn [writer eheader etrailer ehash eindex bytes_written previous_page_number header_written closed].
  change (Z.lor 0 PAGE_HEADER_FLAG_SIZE) with PAGE_HEADER_FLAG_SIZE.
  unfold frame_bytes, frame_hashed. rewrite len_page_header, len_to_be, Hw, Hc, <- !app_assoc.
  change (Z.of_nat 4) with 4. f_equal; [f_equal; f_equal; lia|lia].
Qed.

Lemma copy_index_ok fuel e copied :
  0 <= copied <= len (eindex e) -> (Z.to_nat (len (eindex e) - copied) < fuel)%nat ->
  copy_index fuel e copied = Ok (write_hashed e (drop (Z.to_nat copied) (eindex e))).
Proof.
  revert e copied. induction fuel as [|fuel IH]; intros e copied Hc Hf; [lia|]. cbn [copy_index].
  destruct (Z.ltb_spec copied (len (eindex e))) as [L|L].
  - set (n := Z.min _ _). assert (0 < n <= len (eindex e) - copied) by (subst n; change INDEX_COPY_BYTES with 65536; lia).
    destruct (slice (eindex e) copied (copied + n)) as [bytes|] eqn:E.
    2: { unfold slice in E. rewrite !(proj2 (Z.leb_le _ _)) in E by lia. done. }
    cbn [ok_or mbind result_bind]. rewrite IH; [|unfold write_hashed; simpl; lia..].
    apply slice_Some in E as (_ & _ & ->). unfold write_hashed at 1 3; simpl. f_equal.
    rewrite <- !app_assoc. rewrite <- Z.add_assoc, <- len_app.
    replace (copied + n - copied) with n by lia.
    assert (take (Z.to_nat n) (drop (Z.to_nat copied) (eindex e)) ++ drop (Z.to_nat (copied + n)) (eindex e)
      = drop (Z.to_nat copied) (eindex e)) as ->; [|done].
    rewrite <- (take_drop (Z.to_nat n) (drop (Z.to_nat copied) (eindex e))) at 2.
    rewrite drop_drop. do 2 f_equal. lia.
  - rewrite drop_ge by (unfold len in *; lia). unfold write_hashed. destruct e; simpl.
    rewrite !app_nil_r, Z.add_0_r. done.
Qed.

Definition footer_bytes (idx : list byte) : list byte :=
  repeat x00 6 ++ idx ++ to_be 8 (len idx).

Lemma encoder_close_Ok e post e' :
  encoder_close e post = Ok e' ->
  let idx := eindex e ++ [x00] in
  let fed := ehash e ++ footer_bytes idx ++ to_be 8 post in
  let t := Trailer.Mk post (Z.lor CHECKSUM_FLAG (crc64 fed)) in
  header_written e = true /\ closed e = false /\ trailer_validate t (eheader e) = Ok tt
  /\ etrailer e' = t /\ eheader e' = eheader e
  /\ writer e' = writer e ++ footer_bytes idx ++ trailer_marshal t.
Proof.
  unfold encoder_close. intros [Hg Hk]%reject_Ok. guards_in Hg. destruct Hg as [Hw Hc].
  set (idx := eindex e ++ [x00]).
  set (e1 := MkEncoder _ _ _ _ _ _ _ _ _) in Hk.
  rewrite copy_index_ok in Hk by (cbn [eindex]; pose proof (len_nonneg idx); unfold e1, len in *; cbn [eindex]; lia).
  cbn [mbind result_bind] in Hk. subst e1. unfold write_hashed in Hk.
  cbn [writer eheader etrailer ehash eindex bytes_written previous_page_number header_written closed Z.to_nat] in Hk.
  rewrite drop_0 in Hk. fold idx in Hk.
  assert (bytes_written e + len (repeat x00 6) + len idx - (bytes_written e + len (repeat x00 6)) = len idx)
    as Elen by lia. rewrite Elen in Hk.
  apply bind_Ok in Hk as ([] & Ht & Hk). apply reject_Ok in Hk as [_ Hk%Ok_inj]. subst e'.
  cbn [writer eheader etrailer]. cbv zeta. fold idx.
  set (fed := ehash e ++ footer_bytes idx ++ to_be 8 post).
  assert (((((ehash e ++ repeat x00 6) ++ idx) ++ to_be 8 (len idx)) ++ to_be 8 post) = fed) as Efed
    by (unfold fed, footer_bytes; by rewrite <- !app_assoc).
  rewrite Efed in *. repeat split; try done.
  unfold footer_bytes. by rewrite <- !app_assoc.
Qed.

(** ** Reading a frame back *)

Lemma read_hashed_app d bytes n r :
  rest d = bytes ++ r -> length bytes = n ->
  read_hashed d n = Ok (bytes, MkDecoder r (consumed d ++ bytes) (index d) (dstate d) (dheader d)
                          (dtrailer d) (hash d ++ bytes) (rolling_checksum d) (replica_index d)).
Proof. intros Hr <-. unfold read_hashed. rewrite Hr, read_exact_app. done. Qed.

Lemma read_body_frame pgno block data page_size r :
  compress data = Ok block -> len block <= u32_max -> len data = page_size ->
  read_body (PageHdr.Mk pgno PAGE_HEADER_FLAG_SIZE) page_size (to_be 4 (len block) ++ block ++ r)
  = Ok (data, to_be 4 (len block) ++ block, to_be 4 (len block), r).
Proof.
  intros Hc Hu Hl. unfold read_body. cbn [PageHdr.flags].
  change (negb (Z.land PAGE_HEADER_FLAG_SIZE PAGE_HEADER_FLAG_SIZE =? 0)) with true. cbn iota.
  destruct (compress_ok data) as (block' & Hc' & Hbound & Hblk). rewrite Hc in Hc'. injection Hc' as <-.
  rewrite <- (length_to_be 4 (len block)) at 1. rewrite read_exact_app. cbn [ok_or mbind result_bind].
  pose proof (len_nonneg block). unfold u32_max in Hu.
  rewrite from_to_be_small by (change (256 ^ Z.of_nat 4) with 4294967296; lia).
  rewrite (proj2 (Z.ltb_ge _ _)) by (rewrite <- Hl; lia).
  replace (Z.to_nat (len block)) with (length block) by (unfold len; lia).
  rewrite read_exact_app. cbn [ok_or mbind result_bind].
  rewrite (decompress_block block data page_size Hblk) by lia. cbn [ok_or mbind result_bind].
  by rewrite Hl, Z.eqb_refl.
Qed.

Lemma decode_page_frame d pgno block data r :
  dstate d = Pages -> rest d = frame_bytes pgno block ++ r ->
  compress data = Ok block -> len block <= u32_max -> len data = Header.page_size (dheader d) ->
  u32_ok pgno -> pgno <> 0 -> bad_page (dheader d) (previous_page (index d)) pgno = false ->
  exists d', decode_page d (Header.page_size (dheader d))
      = Ok (d', Some (PageHdr.Mk pgno PAGE_HEADER_FLAG_SIZE, data))
    /\ rest d' = r /\ consumed d' = consumed d ++ frame_bytes pgno block
    /\ hash d' = hash d ++ frame_hashed pgno block data
    /\ index d' = index d ++ [(pgno, len (consumed d), 10 + len block)]
    /\ dstate d' = Pages /\ dheader d' = dheader d
    /\ rolling_checksum d' = (if is_snapshot (dheader d) && negb (no_checksum (dheader d))
                              then flag_xor (rolling_checksum d) (checksum_page pgno data)
                              else rolling_checksum d).
Proof.
  intros Hst Hr Hc Hu Hl Hp Hz Hbad. unfold decode_page.
  rewrite bool_decide_eq_false_2 by congruence. rewrite bool_decide_eq_false_2 by (intros Hn; by apply Hn).
  rewrite Z.eqb_refl. cbn [orb negb].
  unfold frame_bytes in Hr. rewrite <- app_assoc in Hr.
  set (hdr := page_header_marshal (PageHdr.Mk pgno PAGE_HEADER_FLAG_SIZE)) in *.
  rewrite (read_hashed_app d hdr 6 _ Hr) by (pose proof (len_page_header (PageHdr.Mk pgno PAGE_HEADER_FLAG_SIZE)); unfold len in *; subst hdr; lia).
  cbn [mbind result_bind].
  assert (page_header_parse hdr = Ok (PageHdr.Mk pgno PAGE_HEADER_FLAG_SIZE)) as ->
    by (subst hdr; by apply page_header_parse_marshal). cbn [mbind result_bind].
  assert (page_is_zero (PageHdr.Mk pgno PAGE_HEADER_FLAG_SIZE) = false) as ->
    by (unfold page_is_zero; cbn [PageHdr.pgno]; by rewrite (proj2 (Z.eqb_neq pgno 0))).
  assert (page_header_validate (PageHdr.Mk pgno PAGE_HEADER_FLAG_SIZE) = Ok tt) as ->
    by (unfold page_header_validate; cbn [PageHdr.pgno PageHdr.flags]; by rewrite (proj2 (Z.eqb_neq pgno 0))).
  cbn [mbind result_bind index rest PageHdr.pgno]. rewrite Hbad. rewrite <- app_assoc.
  rewrite (read_body_frame pgno block data) by done. cbn [mbind result_bind consumed hash rolling_checksum replica_index dtrailer].
  assert ((pgno =? lock_pgno (Header.page_size (dheader d))) = false) as ->
    by (unfold bad_page in Hbad; guards; tauto).
  eexists. split; [done|]. cbn [rest consumed hash index dstate dheader rolling_checksum].
  unfold frame_bytes, frame_hashed. fold hdr. rewrite <- !app_assoc, andb_true_r. repeat split; try done.
  do 3 f_equal. autorewrite with len. subst hdr. rewrite len_page_header. change (Z.of_nat 4) with 4. lia.
Qed.

(** ** The encoder and the decoder in step *)

Definition entry_bytes (e : Z * Z * Z) : list byte := index_entry_bytes e.1.1 e.1.2 e.2.

(** The decoder has consumed what the encoder has written. *)
Record in_step (e : Encoder) (d : Decoder) : Prop := {
  is_state : dstate d = Pages;
  is_written : header_written e = true;
  is_header : dheader d = eheader e;
  is_page_size : is_valid_page_size (Header.page_size (eheader e)) = true;
  is_commit : u32_ok (Header.commit (eheader e));
  is_consumed : consumed d = writer e;
  is_bytes : bytes_written e = len (writer e);
  is_hash : hash d = ehash e;
  is_index : eindex e = concat (map entry_bytes (index d));
  is_values : Forall u64_ok (index_values (index d));
  is_previous : previous_page (index d) = previous_page_number e;
  is_previous_nonneg : 0 <= previous_page_number e
}.

(** The checksum of a snapshot: the pages' checksums folded together. *)
Definition fold_pages (c : Z) (pages : list (Z * list byte)) : Z :=
  fold_left (fun c p => flag_xor c (checksum_page p.1 p.2)) pages c.
Definition snapshot_checksum (pages : list (Z * list byte)) : Z := fold_pages CHECKSUM_FLAG pages.

Lemma previous_page_snoc index e : previous_page (index ++ [e]) = e.1.1.
Proof. unfold previous_page. rewrite last_snoc. by destruct e as [[? ?] ?]. Qed.
Lemma index_values_snoc index e :
  index_values (index ++ [e]) = index_values index ++ [e.1.1; e.1.2; e.2].
Proof. unfold index_values. rewrite map_app, concat_app. simpl. by rewrite ?app_nil_r. Qed.
Lemma entries_snoc index e :
  concat (map entry_bytes (index ++ [e])) = concat (map entry_bytes index) ++ entry_bytes e.
Proof. rewrite map_app, concat_app. simpl. by rewrite app_nil_r. Qed.

(** The encoder's order check and the decoder's agree. *)
Lemma order_bad_page h previous pgno :
  is_valid_page_size (Header.page_size h) = true -> 0 <= previous ->
  out_of_order h previous pgno = false -> pgno <= Header.commit h ->
  pgno <> lock_pgno (Header.page_size h) ->
  previous < pgno /\ bad_page h previous pgno = false.
Proof.
  intros Hs Hp Ho Hc Hl. destruct (page_size_bounds _ Hs) as [_ Hlock].
  unfold out_of_order, bad_page, expected_page in *.
  destruct (is_snapshot h).
  - assert (pgno = previous + (if previous =? lock_pgno (Header.page_size h) - 1 then 2 else 1)) as E.
    { destruct (Z.eqb_spec previous 0) as [->|]; cbn [negb andb orb] in Ho.
      - rewrite orb_false_r in Ho. guards. subst pgno. rewrite (proj2 (Z.eqb_neq _ _)) by lia. lia.
      - by guards. }
    assert (previous < pgno) by (destruct (_ =? _) in E; lia). split; [done|].
    guards. split_and!; lia.
  - guards. split_and!; auto with lia.
Qed.

Lemma encode_page_in_step e d pgno data e' ep :
  encode_page e (PageHdr.Mk pgno 0) data = Ok (e', ep) -> len (writer e') <= u64_max ->
  exists frame, writer e' = writer e ++ frame /\ (0 < length frame)%nat /\
    forall r, in_step e d -> rest d = frame ++ r ->
    exists d', decode_page d (Header.page_size (dheader d))
        = Ok (d', Some (PageHdr.Mk pgno PAGE_HEADER_FLAG_SIZE, data))
      /\ in_step e' d' /\ rest d' = r
      /\ rolling_checksum d' = (if is_snapshot (dheader d) && negb (no_checksum (dheader d))
                                then flag_xor (rolling_checksum d) (checksum_page pgno data)
                                else rolling_checksum d).
Proof.
  intros (block & Hc & Hu & Hw & Hcl & Hz & Hcommit & Hlock & Hl & Ho & ->)%encode_page_Ok Hmax.
  cbn [writer] in *. exists (frame_bytes pgno block). split; [done|].
  split; [pose proof (len_frame pgno block); pose proof (len_nonneg block); unfold len in *; lia|].
  intros r [] Hr.
  destruct (order_bad_page _ _ _ is_page_size0 is_previous_nonneg0 Ho Hcommit Hlock) as [Hlt Hbad].
  unfold u32_ok in is_commit0.
  destruct (decode_page_frame d pgno block data r) as (d' & Hd & H1' & H2' & H3' & H4' & H5' & H6' & H7');
    try done; [by rewrite is_header0|unfold u32_ok; lia|by rewrite is_header0, is_previous0|].
  exists d'. rewrite <- is_header0 in *. split; [done|]. split; [|by rewrite H7'].
  rewrite len_app, len_frame in Hmax. pose proof (len_nonneg block). pose proof (len_nonneg (writer e)).
  constructor; cbn [header_written eheader writer bytes_written ehash eindex previous_page_number];
    try done; try congruence.
  - by rewrite len_app, len_frame, is_bytes0.
  - rewrite H4', entries_snoc, is_index0. unfold entry_bytes at 3. cbn [fst snd]. do 2 f_equal. congruence.
  - rewrite H4', index_values_snoc. apply Forall_app. split; [done|]. cbn [fst snd].
    rewrite is_consumed0. unfold u64_ok. repeat constructor; unfold u64_max, u32_max in *; lia.
  - rewrite H4'. apply previous_page_snoc.
  - lia.
Qed.

Lemma encode_pages_writer pages e e' :
  encode_pages e pages = Ok e' -> eheader e' = eheader e /\ exists s, writer e' = writer e ++ s.
Proof.
  revert e. induction pages as [|[pgno data] pages IH]; intros e Hk; cbn [encode_pages] in Hk.
  { injection Hk as <-. split; [done|]. exists []. by rewrite app_nil_r. }
  apply bind_Ok in Hk as ([e1 ep] & Hp & Hk). apply IH in Hk as [E (s & ->)].
  apply encode_page_Ok in Hp as (block & _ & _ & _ & _ & _ & _ & _ & _ & _ & ->). cbn [writer eheader] in *.
  split; [done|]. eexists. by rewrite <- app_assoc.
Qed.

Lemma encode_pages_in_step pages e e' :
  encode_pages e pages = Ok e' -> len (writer e') <= u64_max ->
  exists s, writer e' = writer e ++ s /\ (length pages <= length s)%nat /\
    forall d r, in_step e d -> rest d = s ++ r ->
    exists d', in_step e' d' /\ rest d' = r
      /\ rolling_checksum d' = (if is_snapshot (dheader d) && negb (no_checksum (dheader d))
                                then fold_pages (rolling_checksum d) pages else rolling_checksum d)
      /\ forall fuel, decode_pages (length pages + fuel) d (Header.page_size (dheader d))
           = ('(d'', more) ← decode_pages fuel d' (Header.page_size (dheader d)); Ok (d'', pages ++ more)).
Proof.
  revert e. induction pages as [|[pgno data] pages IH]; intros e Hk Hmax; cbn [encode_pages] in Hk.
  { injection Hk as <-. exists []. rewrite app_nil_r. split; [done|]. split; [simpl; lia|].
    intros d r Hs Hr. exists d. split; [done|]. split; [done|]. split; [by destruct (_ && _)|].
    intros fuel. simpl. by destruct (decode_pages fuel d _) as [[? ?]|]. }
  apply bind_Ok in Hk as ([e1 ep] & Hp & Hk).
  destruct (encode_pages_writer _ _ _ Hk) as (_ & s1 & Hs1).
  assert (len (writer e1) <= u64_max) as Hmax1
    by (rewrite Hs1, len_app in Hmax; pose proof (len_nonneg s1); lia).
  destruct (IH e1 Hk Hmax) as (s & Hs & Hls & IHd).
  assert (exists frame, writer e1 = writer e ++ frame /\ (0 < length frame)%nat) as (frame & Hf & Hfl).
  { apply encode_page_Ok in Hp as (block & _ & _ & _ & _ & _ & _ & _ & _ & _ & ->). cbn [writer].
    eexists. split; [done|]. pose proof (len_frame pgno block); pose proof (len_nonneg block). unfold len in *. lia. }
  exists (frame ++ s). rewrite Hs, Hf, app_assoc. split; [done|].
  split; [rewrite length_app; simpl; lia|]. intros d r Hst Hr. rewrite <- app_assoc in Hr.
  destruct (encode_page_in_step e d pgno data e1 ep Hp Hmax1) as (frame' & Hf' & _ & Hd).
  rewrite Hf in Hf'. apply app_inv_head in Hf' as <-.
  destruct (Hd _ Hst Hr) as (d1 & Hd1 & Hst1 & Hr1 & Hroll1).
  assert (dheader d1 = dheader d) as Eh.
  { rewrite (is_header _ _ Hst1), (is_header _ _ Hst).
    apply encode_page_Ok in Hp as (block & _ & _ & _ & _ & _ & _ & _ & _ & _ & ->). done. }
  destruct (IHd d1 r Hst1 Hr1) as (d' & Hst' & Hr' & Hroll' & Hfuel). exists d'.
  rewrite Eh in *. split; [done|]. split; [done|]. split.
  { rewrite Hroll', Hroll1. by destruct (_ && _). }
  intros fuel. cbn [length Nat.add decode_pages]. rewrite Hd1. cbn [mbind result_bind].
  rewrite Hfuel. by destruct (decode_pages fuel d' _) as [[? ?]|].
Qed.

(** The index is read back. *)
Lemma match_values_ok idx acc r :
  Forall u64_ok (index_values idx) ->
  match_values (index_values idx) acc (concat (map entry_bytes idx) ++ r)
  = Ok (acc ++ concat (map entry_bytes idx), r).
Proof.
  revert acc. induction idx as [|[[p o] s] idx IH]; intros acc Hv; simpl concat.
  { by rewrite app_nil_r. }
  change (index_values ((p, o, s) :: idx)) with (p :: o :: s :: index_values idx) in *.
  apply Forall_cons_1 in Hv as [Hp Hv]. apply Forall_cons_1 in Hv as [Ho Hv]. apply Forall_cons_1 in Hv as [Hs Hv].
  unfold entry_bytes at 1 3. cbn [fst snd]. unfold index_entry_bytes. rewrite <- !app_assoc.
  cbn [match_values]. rewrite uvarint_roundtrip by done. cbn [mbind result_bind]. rewrite Z.eqb_refl. cbn [negb].
  rewrite uvarint_roundtrip by done. cbn [mbind result_bind]. rewrite Z.eqb_refl. cbn [negb].
  rewrite uvarint_roundtrip by done. cbn [mbind result_bind]. rewrite Z.eqb_refl. cbn [negb].
  rewrite IH by done. by rewrite <- !app_assoc.
Qed.

(** ** Closing *)

Lemma take_trailer t : take 8 (trailer_marshal t) = to_be 8 (Trailer.post_apply_checksum t).
Proof. unfold trailer_marshal. rewrite (take_app_length' _ _ 8); [done|]. by rewrite length_to_be. Qed.
Lemma length_trailer t : length (trailer_marshal t) = 16%nat.
Proof. unfold trailer_marshal. by rewrite length_app, !length_to_be. Qed.

Lemma len_trailer t : len (trailer_marshal t) = 16.
Proof. unfold len. by rewrite length_trailer. Qed.

(** The end marker moves the decoder to the footer. *)
Lemma decode_page_end d r :
  dstate d = Pages -> rest d = repeat x00 6 ++ r ->
  decode_page d (Header.page_size (dheader d))
  = Ok (MkDecoder r (consumed d ++ repeat x00 6) (index d) AtClose (dheader d) (dtrailer d)
          (hash d ++ repeat x00 6) (rolling_checksum d) (replica_index d), None).
Proof.
  intros Hst Hr. unfold decode_page.
  rewrite bool_decide_eq_false_2 by congruence. rewrite bool_decide_eq_false_2 by (intros Hn; by apply Hn).
  rewrite Z.eqb_refl. cbn [orb negb]. rewrite (read_hashed_app d (repeat x00 6) 6 r Hr) by done. done.
Qed.

Lemma decoder_close_ok d idx t :
  dstate d = AtClose -> idx = concat (map entry_bytes (index d)) ++ [x00] -> len idx <= u64_max ->
  Forall u64_ok (index_values (index d)) ->
  u64_ok (Trailer.post_apply_checksum t) ->
  Trailer.file_checksum t
    = Z.lor CHECKSUM_FLAG (crc64 (hash d ++ idx ++ to_be 8 (len idx) ++ to_be 8 (Trailer.post_apply_checksum t))) ->
  trailer_validate t (dheader d) = Ok tt ->
  rest d = idx ++ to_be 8 (len idx) ++ trailer_marshal t ->
  (is_snapshot (dheader d) = true ->
     previous_page (index d) = last_snapshot_page (dheader d) /\
     (no_checksum (dheader d) = false -> rolling_checksum d = Trailer.post_apply_checksum t)) ->
  exists d', decoder_close d = Ok d' /\ dstate d' = Closed /\ dheader d' = dheader d
    /\ dtrailer d' = t /\ consumed d' = consumed d ++ rest d.
Proof.
  intros Hst Hidx Hlen Hv Hpost Hfile Hval Hr Hsnap. unfold decoder_close.
  rewrite bool_decide_eq_false_2 by congruence. rewrite bool_decide_eq_false_2 by (intros Hn; by apply Hn).
  assert (rest d = concat (map entry_bytes (index d)) ++ x00 :: to_be 8 (len idx) ++ trailer_marshal t) as Hr'
    by (rewrite Hr; rewrite Hidx at 1; by rewrite <- app_assoc).
  assert (match_values (index_values (index d)) [] (rest d)
    = Ok ([] ++ concat (map entry_bytes (index d)), x00 :: to_be 8 (len idx) ++ trailer_marshal t)) as ->
    by (rewrite Hr'; by apply match_values_ok).
  cbn [mbind result_bind app].
  assert (forall l, read_uvarint (x00 :: l) = Ok (0, [x00], l)) as -> by done. cbn [mbind result_bind].
  rewrite Z.eqb_refl. cbn [negb]. rewrite <- Hidx.
  unfold read_footer_exact.
  assert (forall l, read_exact 8 (to_be 8 (len idx) ++ l) = Some (to_be 8 (len idx), l)) as ->
    by (intros l; apply read_exact_Some; by rewrite length_to_be).
  cbn [ok_or mbind result_bind].
  rewrite from_to_be_small
    by (change (256 ^ Z.of_nat 8) with 18446744073709551616; unfold u64_max in Hlen; pose proof (len_nonneg idx); lia).
  rewrite Z.eqb_refl. cbn [negb].
  assert (is_snapshot (dheader d) && negb (previous_page (index d) =? last_snapshot_page (dheader d)) = false) as ->.
  { destruct (is_snapshot (dheader d)); [|done]. destruct Hsnap as [-> _]; [done|]. by rewrite Z.eqb_refl. }
  assert (read_exact 16 (trailer_marshal t) = Some (trailer_marshal t, [])) as ->
    by (apply read_exact_Some; by rewrite app_nil_r, length_trailer).
  cbn [ok_or mbind result_bind].
  assert (u64_ok (Trailer.file_checksum t)) by (rewrite Hfile; apply lor_flag_u64, crc64_u64).
  rewrite trailer_parse_marshal by done. cbn [mbind result_bind]. rewrite Hval. cbn [mbind result_bind].
  rewrite take_trailer, <- Hfile, Z.eqb_refl. cbn [negb].
  assert (is_snapshot (dheader d) && negb (no_checksum (dheader d))
          && negb (rolling_checksum d =? Trailer.post_apply_checksum t) = false) as ->.
  { destruct (is_snapshot (dheader d)); [|done]. destruct Hsnap as [_ Hroll]; [done|].
    destruct (no_checksum (dheader d)); [done|]. by rewrite Hroll, Z.eqb_refl by done. }
  eexists. split; [done|]. cbn [dstate dheader dtrailer consumed]. done.
Qed.

(** What a client must pass to the encoder for a snapshot: every page, and their
    checksum. *)
Definition complete_snapshot (h : Header) (pages : list (Z * list byte)) (post : Z) : Prop :=
  is_snapshot h = true ->
  default 0 (last (map fst pages)) = last_snapshot_page h /\
  (no_checksum h = false -> post = snapshot_checksum pages).

Lemma encode_pages_previous pages e e' :
  encode_pages e pages = Ok e' ->
  previous_page_number e' = default (previous_page_number e) (last (map fst pages)).
Proof.
  revert e. induction pages as [|[pgno data] pages IH]; intros e Hk; cbn [encode_pages] in Hk.
  { by injection Hk as <-. }
  apply bind_Ok in Hk as ([e1 ep] & Hp & Hk). rewrite (IH _ Hk).
  apply encode_page_Ok in Hp as (block & _ & _ & _ & _ & _ & _ & _ & _ & _ & ->). cbn [previous_page_number map fst].
  rewrite last_cons. by destruct (last (map fst pages)).
Qed.

(** The encoder after the header, and the decoder that read it. *)
Definition encoder_start (h : Header) : Encoder :=
  MkEncoder (header_marshal h) h trailer_default (header_marshal h) [] (len (header_marshal h)) 0 true false.
Definition decoder_start (h : Header) (r : list byte) : Decoder :=
  MkDecoder r (header_marshal h) [] Pages h trailer_default (header_marshal h)
    (if no_checksum h then 0 else CHECKSUM_FLAG) None.

(** The footer and the trailer the encoder writes after the pages. *)
Definition file_trailer_of (e : Encoder) (post : Z) : Trailer :=
  Trailer.Mk post (Z.lor CHECKSUM_FLAG (crc64 (ehash e ++ footer_bytes (eindex e ++ [x00]) ++ to_be 8 post))).

Lemma encode_file_Ok h pages post e :
  encode_file h pages post = Ok e ->
  exists e1, header_validate h = Ok tt /\ encode_pages (encoder_start h) pages = Ok e1 /\ eheader e1 = h
    /\ trailer_validate (file_trailer_of e1 post) h = Ok tt /\ etrailer e = file_trailer_of e1 post
    /\ writer e = writer e1 ++ footer_bytes (eindex e1 ++ [x00]) ++ trailer_marshal (file_trailer_of e1 post).
Proof.
  unfold encode_file. intros (e0 & He0 & (e1 & He1 & Hk)%bind_Ok)%bind_Ok.
  unfold encode_header in He0. cbn [header_written closed encoder_new orb] in He0.
  apply bind_Ok in He0 as ([] & Hval & He0%Ok_inj). subst e0. exists e1.
  destruct (encode_pages_writer _ _ _ He1) as [Hh1 _]. cbn [eheader write_hashed] in Hh1.
  apply encoder_close_Ok in Hk as (_ & _ & Htval & Htr & _ & Hwr). rewrite Hh1 in Htval.
  split_and!; done.
Qed.

Lemma decode_header_marshal h r :
  header_widths h -> header_validate h = Ok tt ->
  decode_header (decoder_new (header_marshal h ++ r)) = Ok (decoder_start h r).
Proof.
  intros Hw Hval. assert (Header.version h = VERSION) as Hver
    by (unfold header_validate in Hval; apply reject_Ok in Hval as [Hv _]; by guards_in Hv).
  unfold decode_header. rewrite bool_decide_eq_false_2 by (intros Hn; by apply Hn).
  rewrite (read_hashed_app _ (header_marshal h) 100 r) by (done || apply length_marshal).
  cbn [mbind result_bind]. rewrite header_parse_marshal by done. cbn [mbind result_bind].
  by rewrite Hval.
Qed.

(** All pages are read back, up to the footer [r]. *)
Lemma decode_encoded_pages h pages e1 r :
  header_widths h -> header_validate h = Ok tt -> encode_pages (encoder_start h) pages = Ok e1 ->
  len (writer e1) <= u64_max ->
  exists s d, writer e1 = header_marshal h ++ s
    /\ decode_pages (S (length (s ++ repeat x00 6 ++ r))) (decoder_start h (s ++ repeat x00 6 ++ r))
         (Header.page_size h) = Ok (d, pages)
    /\ rest d = r /\ dstate d = AtClose /\ dheader d = h
    /\ consumed d = writer e1 ++ repeat x00 6 /\ hash d = ehash e1 ++ repeat x00 6
    /\ eindex e1 = concat (map entry_bytes (index d)) /\ Forall u64_ok (index_values (index d))
    /\ previous_page (index d) = default 0 (last (map fst pages))
    /\ (is_snapshot h = true -> no_checksum h = false -> rolling_checksum d = snapshot_checksum pages).
Proof.
  intros Hw Hval He1 Hmax. destruct (encode_pages_in_step pages _ _ He1 Hmax) as (s & Hs & Hls & Hstep).
  cbn [writer encoder_start] in Hs. exists s.
  destruct (Hstep (decoder_start h (s ++ repeat x00 6 ++ r)) (repeat x00 6 ++ r))
    as (d2 & Hst2 & Hr2 & Hroll2 & Hfuel); [|done|].
  { constructor; try done; [by apply header_validate_page_size|apply Hw]. }
  destruct (encode_pages_writer _ _ _ He1) as [Hh1 _]. cbn [eheader encoder_start] in Hh1.
  pose proof (is_header _ _ Hst2) as Hh2. rewrite Hh1 in Hh2.
  eexists. split; [done|]. split.
  { cbn [dheader decoder_start] in Hfuel.
    replace (S (length (s ++ repeat x00 6 ++ r)))
      with (length pages + S (length s - length pages + length (repeat x00 6 ++ r)))%nat
      by (rewrite (length_app s); lia).
    rewrite Hfuel. cbn [decode_pages]. rewrite <- Hh2.
    rewrite (decode_page_end d2 r) by (try done; apply Hst2).
    cbn [mbind result_bind]. by rewrite app_nil_r. }
  cbn [rest dstate dheader consumed hash index rolling_checksum].
  rewrite (is_consumed _ _ Hst2), (is_hash _ _ Hst2), (is_previous _ _ Hst2).
  split_and!; try done; try apply Hst2.
  - apply (encode_pages_previous _ _ _ He1).
  - intros Hsn Hnc. rewrite Hroll2. cbn [dheader decoder_start rolling_checksum]. by rewrite Hsn, Hnc.
Qed.

(** The whole file, decoded. *)
Lemma decode_all_encoded h pages post e :
  header_widths h -> u64_ok post -> encode_file h pages post = Ok e ->
  len (writer e) <= u64_max -> complete_snapshot h pages post ->
  exists d, decode_all (decoder_new (writer e)) = Ok (d, pages) /\ dstate d = Closed /\ dheader d = h
    /\ dtrailer d = etrailer e /\ consumed d = writer e.
Proof.
  intros Hw Hpost (e1 & Hval & He1 & Hh1 & Htval & Htr & Hwr)%encode_file_Ok Hmax Hsnap.
  rewrite Htr. set (t := file_trailer_of e1 post) in *.
  set (idx := eindex e1 ++ [x00]) in *. unfold footer_bytes in Hwr. rewrite Hwr, !len_app in Hmax.
  pose proof (len_nonneg (writer e1)). pose proof (len_nonneg idx). pose proof (len_nonneg (repeat x00 6)).
  pose proof (len_nonneg (to_be 8 (len idx))). pose proof (len_nonneg (trailer_marshal t)).
  destruct (decode_encoded_pages h pages e1 (idx ++ to_be 8 (len idx) ++ trailer_marshal t) Hw Hval He1)
    as (s & d3 & Hs & Hdp & Hr3 & Hst3 & Hh3 & Hc3 & Hha3 & Hi3 & Hv3 & Hp3 & Hroll3); [lia|].
  destruct (decoder_close_ok d3 idx t) as (d4 & Hcl & Hst4 & Hh4 & Ht4 & Hc4); try done.
  { unfold idx. by rewrite Hi3. }
  { lia. }
  { rewrite Hha3. unfold t, file_trailer_of, footer_bytes. cbn [Trailer.file_checksum Trailer.post_apply_checksum].
    fold idx. by rewrite <- !app_assoc. }
  { by rewrite Hh3. }
  { rewrite Hh3, Hp3. intros Hsn. destruct (Hsnap Hsn) as [Hlast Hck]. split; [done|]. intros Hnc.
    rewrite Hroll3 by done. symmetry. exact (Hck Hnc). }
  unfold decode_all.
  assert (writer e = header_marshal h ++ s ++ repeat x00 6 ++ idx ++ to_be 8 (len idx) ++ trailer_marshal t) as Ew
    by (rewrite Hwr, Hs; by rewrite <- !app_assoc).
  rewrite Ew, (decode_header_marshal h) by done. cbn [mbind result_bind dheader rest decoder_start].
  change (MkDecoder ?r _ _ _ _ _ _ _ _) with (decoder_start h r).
  rewrite Hdp. cbn [mbind result_bind]. rewrite Hcl. cbn [mbind result_bind].
  exists d4. rewrite Hc4, Hh4, Hh3, Ht4, Hc3, Hr3, Hs. rewrite <- !app_assoc. done.
Qed.

(** C12: what the encoder writes the decoder reads back. For every header, page list
    and checksum the encoder accepts (a snapshot being complete and carrying the
    checksum of its pages), decoding the file returns the same header and trailer,
    the same pages in the same order, and the size and digest of the very bytes
    written. *)
Theorem ltx_roundtrip h pages post e :
  header_widths h -> u64_ok post -> encode_file h pages post = Ok e ->
  len (writer e) <= u64_max -> complete_snapshot h pages post ->
  decode_reader_inner (writer e) true
  = Ok (MkDecoded h (etrailer e), pages, len (writer e), blake3 (writer e))
  /\ Trailer.post_apply_checksum (etrailer e) = post.
Proof.
  intros Hw Hpost He Hmax Hsnap. split.
  - destruct (decode_all_encoded h pages post e Hw Hpost He Hmax Hsnap) as (d & Hd & Hst & Hh & Ht & Hc).
    unfold decode_reader_inner. rewrite Hd. cbn [mbind result_bind].
    unfold artifact. rewrite bool_decide_eq_false_2 by (intros Hn; by apply Hn). cbn [mbind result_bind]. by rewrite Hc, Hh, Ht.
  - by apply encode_file_Ok in He as (e1 & _ & _ & _ & _ & -> & _).
Qed.

(** ** What the decoder accepts *)

Lemma read_hashed_Ok d n bytes d' :
  read_hashed d n = Ok (bytes, d') ->
  rest d = bytes ++ rest d' /\ length bytes = n
  /\ d' = MkDecoder (rest d') (consumed d ++ bytes) (index d) (dstate d) (dheader d) (dtrailer d)
            (hash d ++ bytes) (rolling_checksum d) (replica_index d).
Proof.
  unfold read_hashed. intros ([b r] & [E El]%ok_or_Ok%read_exact_Some & Hk)%bind_Ok.
  apply Ok_inj in Hk. injection Hk as <- <-. done.
Qed.

Lemma read_body_Ok p page_size input data body hashed r :
  read_body p page_size input = Ok (data, body, hashed, r) ->
  len data = page_size /\ input = body ++ r.
Proof.
  unfold read_body. case_match.
  - intros ([size i1] & [-> E1]%ok_or_Ok%read_exact_Some & Hk)%bind_Ok.
    apply reject_Ok in Hk as [_ Hk].
    apply bind_Ok in Hk as ([comp i2] & [-> E2]%ok_or_Ok%read_exact_Some & Hk).
    apply bind_Ok in Hk as (dat & _ & Hk). apply reject_Ok in Hk as [Hl Hk]. guards_in Hl.
    injection Hk as <- <- <- <-. by rewrite <- app_assoc.
  - intros ([[dat more] i1] & Hf%ok_or_Ok & Hk)%bind_Ok.
    apply frame_decode_prefix in Hf as (Hl & fr & ->). destruct more; [done|].
    injection Hk as <- <- _ <-. split; [done|].
    rewrite length_app, Nat.add_sub, take_app_length. done.
Qed.

Lemma decode_page_Some d n d' p data :
  decode_page d n = Ok (d', Some (p, data)) ->
  let pgno := PageHdr.pgno p in let h := dheader d in
  n = Header.page_size h /\ len data = n /\ 0 <= pgno /\ pgno <> 0
  /\ bad_page h (previous_page (index d)) pgno = false
  /\ dstate d' = Pages /\ dheader d' = h
  /\ previous_page (index d') = pgno
  /\ consumed d' ++ rest d' = consumed d ++ rest d
  /\ rolling_checksum d' = (if is_snapshot h && negb (no_checksum h)
                            then flag_xor (rolling_checksum d) (checksum_page pgno data)
                            else rolling_checksum d).
Proof.
  unfold decode_page. case_bool_decide; [done|]. intros [Hg Hk]%reject_Ok. guards_in Hg. destruct Hg as [_ Hn].
  apply bind_Ok in Hk as ([hdr d1] & (E1 & El & Ed1)%read_hashed_Ok & Hk).
  apply bind_Ok in Hk as (p0 & Hp & Hk).
  destruct (page_is_zero p0) eqn:Ez; [done|].
  apply bind_Ok in Hk as ([] & Hv & Hk). apply reject_Ok in Hk as [Hbad Hk].
  apply bind_Ok in Hk as ([[[dat body] hashed] r] & [Hl Hb]%read_body_Ok & Hk).
  apply Ok_inj in Hk. injection Hk as <- <- <-. cbv zeta.
  apply page_header_marshal_parse in Hp as (_ & Hu & _); [|done]. unfold u32_ok in Hu.
  unfold page_header_validate in Hv. apply reject_Ok in Hv as [Hz _]. apply Z.eqb_neq in Hz.
  rewrite Ed1 in *. cbn [index dheader consumed rolling_checksum rest] in *.
  assert ((PageHdr.pgno p0 =? lock_pgno (Header.page_size (dheader d))) = false) as ->
    by (unfold bad_page in Hbad; guards_in Hbad; rewrite (proj2 (Z.eqb_neq _ _)); tauto).
  rewrite andb_true_r. split_and!; try done; try lia.
  - apply previous_page_snoc.
  - rewrite E1, Hb. by rewrite <- !app_assoc.
Qed.

Lemma decode_page_None d n d' :
  dstate d = Pages -> decode_page d n = Ok (d', None) ->
  dstate d' = AtClose /\ dheader d' = dheader d /\ index d' = index d
  /\ consumed d' ++ rest d' = consumed d ++ rest d /\ rolling_checksum d' = rolling_checksum d.
Proof.
  intros Hst. unfold decode_page. case_bool_decide; [congruence|]. intros [_ Hk]%reject_Ok.
  apply bind_Ok in Hk as ([hdr d1] & (E1 & El & Ed1)%read_hashed_Ok & Hk).
  apply bind_Ok in Hk as (p0 & Hp & Hk). destruct (page_is_zero p0).
  - apply Ok_inj in Hk. injection Hk as <-. rewrite Ed1. cbn [dstate dheader index consumed rest rolling_checksum].
    rewrite E1. by rewrite <- app_assoc.
  - apply bind_Ok in Hk as ([] & _ & Hk). apply reject_Ok in Hk as [_ Hk].
    by apply bind_Ok in Hk as ([[[dat body] hashed] r] & _ & Hk).
Qed.

(** Every page passed the guards relative to its predecessor. *)
Fixpoint ordered_pages (h : Header) (previous : Z) (pages : list (Z * list byte)) : Prop :=
  match pages with
  | [] => True
  | (p, data) :: pages =>
      0 <= p /\ p <> 0 /\ len data = Header.page_size h /\ bad_page h previous p = false
      /\ ordered_pages h p pages
  end.

Lemma decode_pages_ordered fuel d n d' pages :
  dstate d = Pages -> decode_pages fuel d n = Ok (d', pages) ->
  dstate d' = AtClose /\ dheader d' = dheader d
  /\ ordered_pages (dheader d) (previous_page (index d)) pages
  /\ previous_page (index d') = default (previous_page (index d)) (last (map fst pages))
  /\ consumed d' ++ rest d' = consumed d ++ rest d
  /\ rolling_checksum d' = (if is_snapshot (dheader d) && negb (no_checksum (dheader d))
                            then fold_pages (rolling_checksum d) pages else rolling_checksum d).
Proof.
  revert d pages. induction fuel as [|fuel IH]; intros d pages Hst Hk; [done|]. cbn [decode_pages] in Hk.
  apply bind_Ok in Hk as ([d1 [[p data]|]] & Hp & Hk).
  - apply bind_Ok in Hk as ([d2 ps] & Hps & Hk). injection Hk as <- <-.
    apply decode_page_Some in Hp as (-> & Hl & Hge & Hz & Hbad & Hs1 & Hh1 & Hprev & Hc & Hroll).
    destruct (IH _ _ Hs1 Hps) as (Hs2 & Hh2 & Hord & Hlast & Hc2 & Hroll2).
    rewrite Hh1, Hprev in *. split_and!; try congruence; cbn [ordered_pages map fst].
    + done.
    + rewrite Hlast, last_cons. by destruct (last (map fst ps)).
    + rewrite Hroll2, Hroll. by destruct (_ && _).
  - injection Hk as <- <-. apply decode_page_None in Hp as (? & ? & -> & ? & ->); [|done].
    split_and!; try done. by destruct (_ && _).
Qed.

Lemma decoder_close_sound d d' :
  dstate d = AtClose -> decoder_close d = Ok d' ->
  dstate d' = Closed /\ dheader d' = dheader d /\ consumed d' = consumed d ++ rest d
  /\ trailer_validate (dtrailer d') (dheader d) = Ok tt
  /\ (is_snapshot (dheader d) = true ->
       previous_page (index d) = last_snapshot_page (dheader d) /\
       (no_checksum (dheader d) = false -> rolling_checksum d = Trailer.post_apply_checksum (dtrailer d'))).
Proof.
  intros Hst. unfold decoder_close. case_bool_decide; [congruence|]. intros [_ Hk]%reject_Ok.
  apply bind_Ok in Hk as ([idx i1] & _ & Hk). apply bind_Ok in Hk as ([[ending b1] i2] & _ & Hk).
  apply reject_Ok in Hk as [_ Hk]. apply bind_Ok in Hk as ([sz i3] & _ & Hk).
  apply reject_Ok in Hk as [_ Hk]. apply reject_Ok in Hk as [Hlast Hk].
  apply bind_Ok in Hk as ([tb i4] & _ & Hk). apply bind_Ok in Hk as (t & _ & Hk).
  apply bind_Ok in Hk as ([] & Hval & Hk). destruct i4; [|done].
  apply reject_Ok in Hk as [_ Hk]. apply reject_Ok in Hk as [Hroll Hk].
  apply Ok_inj in Hk as <-. cbn [dstate dheader consumed dtrailer]. split_and!; try done.
  intros Hs. rewrite Hs in *. cbn [andb] in *. guards_in Hlast. split; [done|]. intros Hn.
  rewrite Hn in Hroll. cbn [andb negb] in Hroll. by guards_in Hroll.
Qed.

(** ** What the file checksum covers *)

Lemma read_uvarint_consumes rest v bytes rest' :
  read_uvarint rest = Ok (v, bytes, rest') -> rest = bytes ++ rest' /\ (0 < length bytes)%nat.
Proof.
  unfold read_uvarint. cut (forall fuel i v0 bs, read_uvarint_from fuel i v0 bs rest = Ok (v, bytes, rest') ->
    exists more, bytes = bs ++ more /\ rest = more ++ rest' /\ (0 < length more)%nat).
  { intros Hc Hk. apply Hc in Hk as (more & -> & -> & ?). done. }
  induction rest as [|b rest IH]; intros [|fuel] i v0 bs Hk; cbn [read_uvarint_from] in Hk; try done.
  destruct (byte_val b <? 128).
  - apply reject_Ok in Hk as [_ Hk]. injection Hk as _ <- <-. exists [b]. simpl. split_and!; [done..|lia].
  - apply IH in Hk as (more & -> & -> & ?). exists (b :: more). simpl. rewrite <- app_assoc. split_and!; [done..|lia].
Qed.

Lemma match_values_consumes expected hashed input hashed' input' :
  match_values expected hashed input = Ok (hashed', input') ->
  exists body, hashed' = hashed ++ body /\ input = body ++ input'.
Proof.
  revert hashed input. induction expected as [|e expected IH]; intros hashed input Hk; cbn [match_values] in Hk.
  { injection Hk as <- <-. exists []. by rewrite app_nil_r. }
  apply bind_Ok in Hk as ([[a bytes] i1] & [-> _]%read_uvarint_consumes & Hk).
  apply reject_Ok in Hk as [_ Hk]. apply IH in Hk as (body & -> & ->). exists (bytes ++ body).
  by rewrite <- !app_assoc.
Qed.

(** The bytes of a frame before its page that the checksum covers: the page header, and
    the length of the compressed page where the frame has one. *)
Definition frame_head (head : list byte) (p : Z * list byte) : Prop :=
  exists ph, page_header_parse (take 6 head) = Ok ph /\ PageHdr.pgno ph = p.1.

(** The checksum covers the heads and the uncompressed pages, in their order. *)
Definition hashed_frames (heads : list (list byte)) (pages : list (Z * list byte)) : list byte :=
  concat (zip_with (fun head p => head ++ p.2) heads pages).

Lemma decode_page_hashed d n d' p data :
  decode_page d n = Ok (d', Some (p, data)) ->
  exists head, frame_head head (PageHdr.pgno p, data) /\ hash d' = hash d ++ head ++ data.
Proof.
  unfold decode_page. case_bool_decide; [done|]. intros [_ Hk]%reject_Ok.
  apply bind_Ok in Hk as ([hdr d1] & (E1 & El & Ed1)%read_hashed_Ok & Hk).
  apply bind_Ok in Hk as (p0 & Hp & Hk). destruct (page_is_zero p0); [done|].
  apply bind_Ok in Hk as ([] & _ & Hk). apply reject_Ok in Hk as [_ Hk].
  apply bind_Ok in Hk as ([[[dat body] hashed] r] & _ & Hk).
  apply Ok_inj in Hk. injection Hk as <- <- <-. exists (hdr ++ hashed). rewrite Ed1. cbn [hash].
  split; [|by rewrite <- !app_assoc]. exists p0. rewrite <- El, take_app_length. done.
Qed.

Lemma decode_page_ending d n d' :
  dstate d = Pages -> decode_page d n = Ok (d', None) ->
  exists ending, length ending = 6%nat /\ rest d = ending ++ rest d' /\ hash d' = hash d ++ ending.
Proof.
  intros Hst. unfold decode_page. case_bool_decide; [congruence|]. intros [_ Hk]%reject_Ok.
  apply bind_Ok in Hk as ([hdr d1] & (E1 & El & Ed1)%read_hashed_Ok & Hk).
  apply bind_Ok in Hk as (p0 & Hp & Hk). destruct (page_is_zero p0).
  - apply Ok_inj in Hk. injection Hk as <-. rewrite Ed1. by exists hdr.
  - apply bind_Ok in Hk as ([] & _ & Hk). apply reject_Ok in Hk as [_ Hk].
    by apply bind_Ok in Hk as ([[[dat body] hashed] r] & _ & Hk).
Qed.

Lemma decode_pages_hashed fuel d n d' pages :
  dstate d = Pages -> decode_pages fuel d n = Ok (d', pages) ->
  exists heads pre ending, Forall2 frame_head heads pages /\ length ending = 6%nat
    /\ consumed d ++ rest d = pre ++ ending ++ rest d'
    /\ hash d' = hash d ++ hashed_frames heads pages ++ ending.
Proof.
  revert d pages. induction fuel as [|fuel IH]; intros d pages Hst Hk; [done|]. cbn [decode_pages] in Hk.
  apply bind_Ok in Hk as ([d1 [[p data]|]] & Hp & Hk).
  - apply bind_Ok in Hk as ([d2 ps] & Hps & Hk). injection Hk as <- <-.
    destruct (decode_page_hashed _ _ _ _ _ Hp) as (head & Hh & Hhash).
    apply decode_page_Some in Hp as (_ & _ & _ & _ & _ & Hs1 & _ & _ & Hc & _).
    destruct (IH _ _ Hs1 Hps) as (heads & pre & ending & Hf & Hl & Hr & Hd). exists (head :: heads), pre, ending.
    split_and!; [by constructor|done|by rewrite <- Hc|]. unfold hashed_frames in *. cbn [zip_with concat snd].
    rewrite Hd, Hhash. by rewrite <- !app_assoc.
  - injection Hk as <- <-. apply decode_page_ending in Hp as (ending & Hl & Hr & Hh); [|done].
    exists [], (consumed d), ending. rewrite Hr. by split_and!.
Qed.

Lemma trailer_parse_tail bytes t :
  length bytes = 16%nat -> trailer_parse bytes = Ok t ->
  bytes = take 8 bytes ++ to_be 8 (Trailer.file_checksum t).
Proof.
  intros Hl. unfold trailer_parse. intros [_ Hk]%reject_Ok. injection Hk as <-. cbn [Trailer.file_checksum].
  assert (length (drop 8 bytes) = 8%nat) as Hd by (rewrite length_drop; lia).
  unfold field. rewrite (take_ge (drop 8 bytes)) by lia.
  pose proof (to_from_be (drop 8 bytes)) as Hr. rewrite Hd in Hr. by rewrite Hr, take_drop.
Qed.

Lemma decoder_close_checksum d d' :
  dstate d = AtClose -> decoder_close d = Ok d' ->
  exists footer, rest d = footer ++ to_be 8 (Trailer.file_checksum (dtrailer d'))
    /\ Trailer.file_checksum (dtrailer d') = Z.lor CHECKSUM_FLAG (crc64 (hash d ++ footer)).
Proof.
  intros Hst. unfold decoder_close. case_bool_decide; [congruence|]. intros [_ Hk]%reject_Ok.
  apply bind_Ok in Hk as ([idx i1] & (body & -> & Hm)%match_values_consumes & Hk).
  apply bind_Ok in Hk as ([[ending b1] i2] & [-> _]%read_uvarint_consumes & Hk).
  apply reject_Ok in Hk as [_ Hk]. unfold read_footer_exact in Hk.
  apply bind_Ok in Hk as ([sz i3] & [-> _]%ok_or_Ok%read_exact_Some & Hk).
  apply reject_Ok in Hk as [_ Hk]. apply reject_Ok in Hk as [_ Hk].
  apply bind_Ok in Hk as ([tb i4] & [-> Htb]%ok_or_Ok%read_exact_Some & Hk).
  apply bind_Ok in Hk as (t & Ht & Hk). apply bind_Ok in Hk as ([] & _ & Hk). destruct i4; [|done].
  apply reject_Ok in Hk as [Hcrc Hk]. apply reject_Ok in Hk as [_ Hk]. apply Ok_inj in Hk as <-.
  cbn [dtrailer]. guards_in Hcrc. exists ((body ++ b1) ++ sz ++ take 8 tb). split; [|done].
  rewrite Hm. cbn [app]. rewrite (trailer_parse_tail tb t) at 1 by done.
  by rewrite app_nil_r, <- !app_assoc.
Qed.

(** The file checksum of a file is the flagged CRC of its header, of the head and the
    uncompressed page of every frame, of the end marker and of everything after that
    marker but the checksum itself, which ends the file. *)
Definition file_checksummed (reader : list byte) (checksum : Z) (pages : list (Z * list byte)) : Prop :=
  exists heads pre ending footer,
    reader = pre ++ ending ++ footer ++ to_be 8 checksum /\ length ending = 6%nat
    /\ Forall2 frame_head heads pages
    /\ checksum = Z.lor CHECKSUM_FLAG (crc64 (take 100 reader ++ hashed_frames heads pages ++ ending ++ footer)).

Lemma decode_all_checksum reader d pages :
  decode_all (decoder_new reader) = Ok (d, pages) ->
  header_parse (take 100 reader) = Ok (dheader d)
  /\ file_checksummed reader (Trailer.file_checksum (dtrailer d)) pages.
Proof.
  intros Hd. unfold decode_all in Hd.
  apply bind_Ok in Hd as (d1 & H1' & Hd). apply bind_Ok in Hd as ([d2 ps'] & H2' & Hd).
  apply bind_Ok in Hd as (d3 & H3' & Hd). injection Hd as -> ->.
  unfold decode_header in H1'. apply reject_Ok in H1' as [_ H1'].
  apply bind_Ok in H1' as ([hb d0] & (E0 & El & Ed0)%read_hashed_Ok & H1').
  apply bind_Ok in H1' as (h & Hh & H1'). apply bind_Ok in H1' as ([] & _ & H1').
  apply Ok_inj in H1'. subst d1. rewrite Ed0 in *. cbn [rest consumed hash decoder_new app] in *.
  pose proof H2' as H2c. apply decode_pages_ordered in H2c as (Hs2 & Hh2 & _); [|done].
  apply decode_pages_hashed in H2' as (heads & pre & ending & Hf & Hl & Hr & Hha); [|done].
  pose proof H3' as H3c. apply decoder_close_sound in H3c as (_ & Hh3 & _); [|done].
  apply decoder_close_checksum in H3' as (footer & Hrest & Hsum); [|done].
  cbn [rest consumed hash dheader] in *. rewrite Hh3, Hh2. rewrite E0.
  rewrite <- El, take_app_length. split; [done|].
  exists heads, pre, ending, footer. rewrite <- El, take_app_length, Hr, Hrest. split_and!; try done.
  by rewrite Hsum, Hha, <- !app_assoc.
Qed.

(** ** Order and completeness *)

Lemma ordered_sorted h previous pages :
  ordered_pages h previous pages ->
  StronglySorted Z.lt (map fst pages) /\ Forall (fun p => previous < p) (map fst pages).
Proof.
  revert previous. induction pages as [|[p data] pages IH]; intros previous; cbn [ordered_pages map fst].
  { by repeat constructor. }
  intros (_ & _ & _ & Hbad & Ho). destruct (IH p Ho) as [Hs Hf].
  unfold bad_page in Hbad. guards_in Hbad. destruct Hbad as [[[Hlt _] _] _].
  split; [by constructor|]. constructor; [done|]. eapply Forall_impl; [done|]. simpl. lia.
Qed.
Lemma ordered_bounds h previous pages :
  ordered_pages h previous pages ->
  Forall (fun p => 1 <= p.1 <= Header.commit h /\ p.1 <> lock_pgno (Header.page_size h)
                   /\ len p.2 = Header.page_size h) pages.
Proof.
  revert previous. induction pages as [|[p data] pages IH]; intros previous; cbn [ordered_pages]; [by constructor|].
  intros (Hge & Hz & Hl & Hbad & Ho). constructor; [|by eapply IH].
  unfold bad_page in Hbad. guards_in Hbad. destruct Hbad as [[[_ Hc] Hlk] _]. cbn [fst snd]. split_and!; lia || done.
Qed.

(** The pages of a snapshot after [previous]: all but the lock page. *)
Definition page_range (lock first count : Z) : list Z :=
  List.filter (fun p => negb (p =? lock)) (seqZ first count).

Lemma page_range_cons lock first count :
  0 < count -> first <> lock -> page_range lock first count = first :: page_range lock (first + 1) (count - 1).
Proof.
  intros Hc Hf. unfold page_range. rewrite seqZ_cons by done. simpl.
  rewrite (proj2 (Z.eqb_neq _ _)) by done. simpl. by rewrite <- Z.add_1_r, <- Z.sub_1_r.
Qed.
Lemma page_range_lock lock count :
  0 < count -> page_range lock lock count = page_range lock (lock + 1) (count - 1).
Proof.
  intros Hc. unfold page_range. rewrite seqZ_cons by done. simpl.
  rewrite Z.eqb_refl. simpl. by rewrite <- Z.add_1_r, <- Z.sub_1_r.
Qed.
Lemma page_range_snoc_lock lock first count :
  0 <= count -> first + count = lock -> page_range lock first (count + 1) = page_range lock first count.
Proof.
  intros Hc Hf. unfold page_range. rewrite seqZ_app by lia.
  rewrite List.filter_app, Hf. rewrite (seqZ_cons lock 1) by lia. cbn [List.filter]. rewrite Z.eqb_refl.
  change (Z.pred 1) with 0. cbn. by rewrite app_nil_r.
Qed.

Lemma last_page_range lock n :
  1 <= n -> 2 <= lock -> last (page_range lock 1 n) = Some (if n =? lock then n - 1 else n).
Proof.
  intros Hn Hl. assert (forall m, 1 <= m -> m <> lock -> last (page_range lock 1 m) = Some m) as Hm.
  { intros m Hm Hne. replace m with ((m - 1) + 1) at 1 by lia. unfold page_range. rewrite seqZ_app by lia.
    rewrite List.filter_app. replace (1 + (m - 1)) with m by lia. rewrite (seqZ_cons m 1) by lia. cbn [List.filter].
    rewrite (proj2 (Z.eqb_neq _ _) Hne). cbn [negb]. change (seqZ (Z.succ m) (Z.pred 1)) with (@nil Z). cbn [List.filter]. apply last_snoc. }
  destruct (Z.eqb_spec n lock) as [E|E]; [|by apply Hm].
  replace n with ((n - 1) + 1) at 1 by lia. rewrite page_range_snoc_lock by lia. apply Hm; lia.
Qed.

Lemma ordered_complete h previous pages :
  is_snapshot h = true -> ordered_pages h previous pages -> 0 <= previous ->
  let lst := default previous (last (map fst pages)) in
  previous <= lst /\
  map fst pages = page_range (lock_pgno (Header.page_size h)) (previous + 1) (lst - previous).
Proof.
  intros Hs. revert previous. induction pages as [|[p data] pages IH]; intros previous; cbn [ordered_pages map fst].
  { cbv zeta. cbn [last default]. rewrite Z.sub_diag. split; [lia|]. unfold page_range. by rewrite seqZ_nil by lia. }
  intros (Hge & Hz & _ & Hbad & Ho) Hp. destruct (IH p Ho Hge) as [Hle Heq]. cbv zeta in *.
  rewrite last_cons. set (lst := default p (last (map fst pages))) in *.
  replace (default previous _) with lst by (subst lst; by destruct (last (map fst pages))).
  unfold bad_page in Hbad. rewrite Hs in Hbad. guards_in Hbad. destruct Hbad as [[[Hlt _] Hlk] He].
  assert (p = expected_page previous (lock_pgno (Header.page_size h))) as Ep by (by destruct He).
  unfold expected_page in Ep. split; [lia|].
  destruct (Z.eqb_spec previous (lock_pgno (Header.page_size h) - 1)) as [El|El].
  - replace (previous + 1) with (lock_pgno (Header.page_size h)) by lia.
    rewrite page_range_lock by lia. rewrite page_range_cons by lia.
    rewrite Heq. f_equal; [lia|]. f_equal; lia.
  - rewrite page_range_cons by lia. rewrite Heq. f_equal; [lia|]. f_equal; lia.
Qed.

(** The page numbers of a complete snapshot. *)
Definition snapshot_pages (h : Header) : list Z :=
  page_range (lock_pgno (Header.page_size h)) 1 (Header.commit h).

Lemma ordered_snapshot h pages :
  is_snapshot h = true -> ordered_pages h 0 pages -> 0 <= Header.commit h ->
  is_valid_page_size (Header.page_size h) = true ->
  default 0 (last (map fst pages)) = last_snapshot_page h -> map fst pages = snapshot_pages h.
Proof.
  intros Hs Ho Hc Hps Hl. destruct (ordered_complete h 0 pages Hs Ho ltac:(lia)) as [_ ->].
  rewrite Hl. unfold last_snapshot_page, snapshot_pages. rewrite Z.sub_0_r, Z.add_0_l.
  destruct (Z.eqb_spec (Header.commit h) (lock_pgno (Header.page_size h))) as [E|E]; [|done].
  destruct (page_size_bounds _ Hps) as [_ Hlock].
  rewrite <- (page_range_snoc_lock _ 1 (Header.commit h - 1)) by lia. f_equal. lia.
Qed.

(** A decoded file: its pages [pages] and its header and trailer. *)
Record decoded (reader : list byte) (f : DecodedFile) (pages : list (Z * list byte)) : Prop := {
  dec_widths : header_widths (file_header f);
  dec_valid : header_validate (file_header f) = Ok tt;
  dec_sorted : StronglySorted Z.lt (map fst pages);
  dec_bounds : Forall (fun p => 1 <= p.1 <= Header.commit (file_header f)
      /\ p.1 <> lock_pgno (Header.page_size (file_header f))
      /\ len p.2 = Header.page_size (file_header f)) pages;
  dec_snapshot : is_snapshot (file_header f) = true ->
       map fst pages = snapshot_pages (file_header f) /\
       (no_checksum (file_header f) = false ->
        Trailer.post_apply_checksum (file_trailer f) = snapshot_checksum pages)
}.

Lemma decode_all_sound reader d pages :
  decode_all (decoder_new reader) = Ok (d, pages) ->
  dstate d = Closed /\ consumed d = reader /\ decoded reader (MkDecoded (dheader d) (dtrailer d)) pages.
Proof.
  intros Hd. unfold decode_all in Hd.
  apply bind_Ok in Hd as (d1 & H1' & Hd). apply bind_Ok in Hd as ([d2 ps'] & H2' & Hd).
  apply bind_Ok in Hd as (d3 & H3' & Hd). injection Hd as -> ->.
  unfold decode_header in H1'. apply reject_Ok in H1' as [_ H1'].
  apply bind_Ok in H1' as ([hb d0] & (E0 & _ & Ed0)%read_hashed_Ok & H1').
  apply bind_Ok in H1' as (h & Hh & H1'). apply bind_Ok in H1' as ([] & Hval & H1').
  apply Ok_inj in H1'. subst d1. rewrite Ed0 in *. cbn [rest consumed decoder_new] in *.
  apply header_parse_widths in Hh as [Hw _].
  apply decode_pages_ordered in H2' as (Hs2 & Hh2 & Hord & Hlast & Hc2 & Hroll2); [|done].
  cbn [dheader consumed rest rolling_checksum index decoder_new previous_page last] in *.
  apply decoder_close_sound in H3' as (Hs3 & Hh3 & Hc3 & Ht3 & Hsn); [|done]. rewrite Hh2 in *.
  rewrite Hc3, Hc2, E0. cbn [app]. split; [done|]. split; [done|].
  constructor; cbn [file_header file_trailer]; rewrite ?Hh3; try done.
  - apply (ordered_sorted h 0 pages Hord).
  - apply (ordered_bounds h 0 pages Hord).
  - intros Hsnap. destruct (Hsn Hsnap) as [Hl Hr]. split.
    + apply ordered_snapshot; try done; [apply Hw|by apply header_validate_page_size|]. congruence.
    + intros Hnc. rewrite <- Hr by done. rewrite Hroll2, Hsnap, Hnc. done.
Qed.


(** ** Sizes *)

Lemma uvarint_bytes_fuel fuel v : len (uvarint_bytes fuel v) <= Z.of_nat fuel.
Proof.
  revert v. induction fuel as [|fuel IH]; intros v; cbn [uvarint_bytes]; [done|].
  case_match; autorewrite with len; [specialize (IH (Z.shiftr v 7))|]; lia.
Qed.
Lemma index_entry_len page offset size :
  u32_ok page -> len (index_entry_bytes page offset size) <= 25.
Proof.
  unfold u32_ok, u32_max, index_entry_bytes, write_uvarint. intros Hp.
  pose proof (uvarint_bytes_len 10 page 5 ltac:(change (2 ^ (7 * Z.of_nat 5)) with 34359738368; lia)
    ltac:(lia) ltac:(lia)).
  pose proof (uvarint_bytes_fuel 10 offset). pose proof (uvarint_bytes_fuel 10 size).
  autorewrite with len. lia.
Qed.

Lemma encode_pages_size pages e e' :
  encode_pages e pages = Ok e' -> Forall (fun p => u32_ok p.1) pages ->
  len (writer e') <= len (writer e) + len pages * (10 + compress_bound (Header.page_size (eheader e)))
  /\ len (eindex e') <= len (eindex e) + 25 * len pages.
Proof.
  revert e. induction pages as [|[pgno data] pages IH]; intros e Hk Hf; cbn [encode_pages] in Hk.
  { injection Hk as <-. unfold len; simpl; lia. }
  apply Forall_cons_1 in Hf as [Hp Hf]. apply bind_Ok in Hk as ([e1 ep] & He & Hk).
  destruct (IH _ Hk Hf) as [I1 I2].
  apply encode_page_Ok in He as (block & Hc & _ & _ & _ & _ & _ & _ & Hl & _ & ->).
  destruct (compress_ok data) as (block' & Hc' & Hb & _). rewrite Hc in Hc'. injection Hc' as <-.
  cbn [writer eheader eindex] in *. rewrite !len_app, len_frame in *. rewrite len_cons.
  pose proof (index_entry_len pgno (bytes_written e) (10 + len block) Hp). rewrite Hl in Hb. lia.
Qed.

(** A cut is admitted safely. A file of at least one page never exceeds the
    bound that [cut_upper_bound] computes from the page size and the number of
    pages alone, before anything is written. *)
Theorem cut_bound_sound h pages post e bound :
  encode_file h pages post = Ok e -> Forall (fun p => u32_ok p.1) pages -> pages <> [] ->
  cut_upper_bound (Header.page_size h) (len pages) = Ok bound -> len (writer e) <= bound.
Proof.
  intros (e1 & _ & He1 & _ & _ & _ & Hwr)%encode_file_Ok Hf Hne Hb.
  destruct (encode_pages_size _ _ _ He1 Hf) as [Hw Hi]. cbn [writer encoder_start eheader eindex] in Hw, Hi.
  unfold cut_upper_bound, frame_payload_upper_bound in Hb.
  apply bind_Ok in Hb as (fr & [-> _]%ok_or_Ok%checked_add_u64_Some & Hb).
  apply bind_Ok in Hb as (per & [-> _]%ok_or_Ok%checked_add_u64_Some & Hb).
  apply ok_or_Ok in Hb. unfold checked_mul_u64 in Hb. case_match; [|done].
  apply checked_add_u64_Some in Hb as [-> _].
  rewrite Hwr, len_app, len_app, len_trailer. unfold footer_bytes. rewrite !len_app, len_cons, len_to_be.
  assert (len (header_marshal h) = 100) by (unfold len; by rewrite length_marshal).
  assert (1 <= len pages) by (destruct pages; [done|rewrite len_cons; pose proof (len_nonneg pages); lia]).
  change (len (repeat x00 6)) with 6. change (len (@nil byte)) with 0 in *.
  unfold INDEX_ENTRY_UPPER_BOUND, HEADER_SIZE, TRAILER_SIZE, PAGE_HEADER_SIZE. nia.
Qed.
End CodecProofs.

(** * Witnesses

    A concrete instance of the third-party code: a polynomial checksum, the
    reference block decoder, and a decoder of stored frames (a byte that tells
    whether more follows, then the page). *)
Module Concrete.
Definition poly (bytes : list byte) : Z :=
  foldl (fun acc b => (acc * 257 + Z.of_N (to_N b) + 1) mod 2 ^ 64) 0 bytes.

Lemma poly_u64 bytes : u64_ok (poly bytes).
Proof.
  unfold poly, u64_ok. destruct bytes as [|b bytes] using rev_ind; [simpl; unfold u64_max; lia|].
  rewrite foldl_app. cbn [foldl]. unfold u64_max. pose proof (Z.mod_pos_bound
    (foldl (fun acc b => (acc * 257 + Z.of_N (to_N b) + 1) mod 2 ^ 64) 0 bytes * 257 + Z.of_N (to_N b) + 1) (2 ^ 64)).
  lia.
Qed.

#[export] Instance crc : Crc64 := {| crc64 := poly; crc64_u64 := poly_u64 |}.
#[export] Instance digest : Blake3 := fun bytes => array_fill 32 (byte_of (poly bytes mod 256)).

Definition decompress (block : list byte) (n : Z) : option (list byte) :=
  '(data, _) ← lz4_decode block; if len data <=? n then Some data else None.

Lemma decompress_ok block data n : lz4_block block data -> len data <= n -> decompress block n = Some data.
Proof. intros (l & Hd & _) Hl. unfold decompress. rewrite Hd. simpl. by rewrite (proj2 (Z.leb_le _ _)). Qed.

Definition stored (input : list byte) (n : Z) : option (list byte * bool * list byte) :=
  match input with
  | m :: input =>
      if 0 <=? n then '(data, rest) ← read_exact (Z.to_nat n) input; Some (data, bool_decide (m = x01), rest)
      else None
  | [] => None
  end.

Lemma stored_prefix input n data more rest :
  stored input n = Some (data, more, rest) -> len data = n /\ exists frame, input = frame ++ rest.
Proof.
  destruct input as [|m input]; [done|]. cbn [stored]. destruct (Z.leb_spec 0 n); [|done].
  destruct (read_exact (Z.to_nat n) input) as [[d r]|] eqn:E; [|done].
  apply read_exact_Some in E as [-> El]. intros Hk. cbn in Hk. injection Hk as <- _ <-.
  split; [unfold len; lia|]. by exists (m :: d).
Qed.

#[export] Instance lz4 : Lz4Flex :=
  {| decompress_into := decompress; decompress_block := decompress_ok;
     frame_decode := stored; frame_decode_prefix := stored_prefix |}.

(** A snapshot of two pages and an increment that rewrites the second. *)
Definition page1 : list byte := repeat "a"%byte 512.
Definition page2 : list byte := repeat "b"%byte 300 ++ repeat "c"%byte 212.
Definition snapshot_header : Header := Header.Mk VERSION 0 512 2 1 1 1700000000000 0 0 0 0 0 7.
Definition pages : list (Z * list byte) := [(1, page1); (2, page2)].
Definition sealed : LtxResult Encoder := encode_file snapshot_header pages (snapshot_checksum pages).
Definition encoder_of (r : LtxResult Encoder) : Encoder := match r with Ok e => e | Err _ => encoder_new end.
Definition encoded : Encoder := encoder_of sealed.
Definition file : list byte := writer encoded.

Lemma sealed_ok : encode_file snapshot_header pages (snapshot_checksum pages) = Ok encoded.
Proof. by vm_compute. Qed.

Lemma decoded_ok : decode_reader_inner file true
  = Ok (MkDecoded snapshot_header (etrailer encoded), pages, len file, blake3 file).
Proof. by vm_compute. Qed.
End Concrete.
Import Concrete.

Lemma ltx_roundtrip_witness :
  decode_reader_inner (writer Concrete.encoded) true
  = Ok (MkDecoded Concrete.snapshot_header (etrailer Concrete.encoded), Concrete.pages,
        len (writer Concrete.encoded), blake3 (writer Concrete.encoded))
  /\ Trailer.post_apply_checksum (etrailer Concrete.encoded) = snapshot_checksum Concrete.pages.
Proof.
  apply (ltx_roundtrip Concrete.snapshot_header Concrete.pages).
  - by constructor.
  - vm_compute. split; discriminate.
  - exact Concrete.sealed_ok.
  - vm_compute. discriminate.
  - intros _. split; [reflexivity|]. intros _. reflexivity.
Defined.


Lemma cut_bound_sound_witness : len (writer Concrete.encoded) <= 1276.
Proof.
  apply (cut_bound_sound Concrete.snapshot_header Concrete.pages _ Concrete.encoded 1276 Concrete.sealed_ok).
  - constructor; [done|]. constructor; [done|]. constructor.
  - discriminate.
  - vm_compute. reflexivity.
Defined.
