(* ===== verification/PagedIndex.v ===== *)
(** * PagedIndex: the authenticated page index of a published segment

    Models [crates/cellule-ltx/src/paged.rs]. A published segment carries a table
    of fixed-size entries, one per page: where the page's frame starts in the
    segment, how long it is, the digest of the frame and the checksum of the page.
    A reader fetches one frame with it, without the rest of the segment. The main
    theorem follows a segment from the streaming decoder, which collects the
    entries, through the encoded table and its validation to the frames that a
    paged reader fetches and decompresses. *)

From Stdlib Require Import ZArith Lia.
From Stdlib Require Import Strings.Byte.
From stdpp Require Import base strings numbers.
From stdpp Require Import list.
From S2P Require Import Prelude Bytes Identity LtxTypes Lz4 Ltx LtxCodec.

Local Open Scope bool_scope.

(*@ cellule-ltx/src/paged.rs 5-5 ENTRY_BYTES *)
Definition ENTRY_BYTES : nat := 60.
(*@ cellule-ltx/src/paged.rs 6-6 FRAME_PREFIX *)
Definition FRAME_PREFIX : Z := PAGE_HEADER_SIZE + 4.

(*@ cellule-ltx/src/paged.rs 12-15 maximum_frame_bytes *)
Definition maximum_frame_bytes (page_size : Z) : LtxResult Z :=
  bound ← frame_payload_upper_bound page_size;
  if u32_max <? bound then Err LtxErr.LTXCorrupted else Ok bound.

Module IndexEntry.
(*@ cellule-ltx/src/paged.rs 17-23 IndexEntry *)
Record IndexEntry := Mk { page : Z; offset : Z; size : Z; hash : Digest; checksum : Z }.
End IndexEntry.
Abbreviation IndexEntry := IndexEntry.IndexEntry.

(*@ cellule-ltx/src/paged.rs 37-45 decode_index_entry *)
Definition decode_index_entry (entry : list byte) : LtxResult IndexEntry :=
  page ← ok_or (get_be 4 entry 0) LtxErr.LTXCorrupted;
  offset ← ok_or (get_be 8 entry 4) LtxErr.LTXCorrupted;
  size ← ok_or (get_be 8 entry 12) LtxErr.LTXCorrupted;
  hash ← ok_or (get_array 32 entry 20) LtxErr.LTXCorrupted;
  checksum ← ok_or (get_be 8 entry 52) LtxErr.LTXCorrupted;
  Ok (IndexEntry.Mk page offset size hash checksum).

(*@ cellule-ltx/src/paged.rs 52-56 IndexValidator *)
Record IndexValidator := MkValidator { info : SegmentInfo; previous_page : Z; previous_end : Z }.

(*@ cellule-ltx/src/paged.rs 59-65 IndexValidator::new *)
Definition validator_new (i : SegmentInfo) : IndexValidator := MkValidator i 0 HEADER_SIZE.

(*@ cellule-ltx/src/paged.rs 67-87 IndexValidator::validate *)
Definition validate_entry (v : IndexValidator) (e : IndexEntry) : LtxResult (IndexValidator * IndexEntry) :=
  let i := info v in
  let lock := lock_pgno (Segment.page_size i) in
  max_frame ← maximum_frame_bytes (Segment.page_size i);
  ending ← ok_or (checked_add_u64 (IndexEntry.offset e) (IndexEntry.size e)) LtxErr.LTXCorrupted;
  let footer := PAGE_HEADER_SIZE + 8 + TRAILER_SIZE + 1 in
  if (IndexEntry.page e <=? previous_page v)
     || (Segment.database_pages i <? IndexEntry.page e)
     || (IndexEntry.page e =? lock)
     || negb (IndexEntry.offset e =? previous_end v)
     || negb ((FRAME_PREFIX <=? IndexEntry.size e) && (IndexEntry.size e <=? max_frame))
     || (saturating_sub_u (Segment.size_bytes i) footer <? ending)
  then Err LtxErr.LTXCorrupted
  else Ok (MkValidator i (IndexEntry.page e) ending, e).

(*@ cellule-ltx/src/paged.rs 104-112 index_entries *)
Definition index_entries (bytes : list byte) : LtxResult (list (list byte)) :=
  let '(entries, remainder) := as_chunks ENTRY_BYTES bytes in
  if 0 <? len remainder then Err LtxErr.LTXCorrupted else Ok entries.

(** An iterator: the chunks not yet visited and the validator. *)
(*@ cellule-ltx/src/paged.rs 47-50 ValidatedIndexEntries *)
Record ValidatedIndexEntries := MkEntries { chunks : list (list byte); validator : IndexValidator }.

(*@ cellule-ltx/src/paged.rs 114-122 validated_index_entries *)
Definition validated_index_entries (bytes : list byte) (i : SegmentInfo) : LtxResult ValidatedIndexEntries :=
  entries ← index_entries bytes;
  Ok (MkEntries entries (validator_new i)).

(** [next]; an error leaves the validator as it was. *)
(*@ cellule-ltx/src/paged.rs 90-98 ValidatedIndexEntries::next *)
Definition entries_next (it : ValidatedIndexEntries) : ValidatedIndexEntries * option (LtxResult IndexEntry) :=
  match chunks it with
  | [] => (it, None)
  | c :: cs =>
      match (e ← decode_index_entry c; validate_entry (validator it) e) with
      | Ok (v, e) => (MkEntries cs v, Some (Ok e))
      | Err err => (MkEntries cs (validator it), Some (Err err))
      end
  end.

(** [for entry in validated_index_entries(..)? { entry?; .. }]: the entries up to the
    first error. *)
Fixpoint visit_entries (fuel : nat) (it : ValidatedIndexEntries) : LtxResult (list IndexEntry) :=
  match fuel with
  | O => Ok []
  | S fuel =>
      match entries_next it with
      | (_, None) => Ok []
      | (it, Some e) => e ← e; es ← visit_entries fuel it; Ok (e :: es)
      end
  end.
Definition read_entries (bytes : list byte) (i : SegmentInfo) : LtxResult (list IndexEntry) :=
  it ← validated_index_entries bytes i;
  visit_entries (S (length (chunks it))) it.

(** [decode_index]: the entries without validation. *)
(*@ cellule-ltx/src/paged.rs 100-102 decode_index *)
Definition decode_index (bytes : list byte) : LtxResult (list IndexEntry) :=
  entries ← index_entries bytes;
  foldr (fun c es => e ← decode_index_entry c; es ← es; Ok (e :: es)) (Ok []) entries.

(*@ cellule-ltx/src/paged.rs 143-156 append_index_page *)
Definition append_index_page (index : list byte) (p : EncodedPage) : LtxResult (list byte) :=
  if bool_decide (ep_frame_hash p = array_fill 32 x00) || (ep_size p =? 0) then Err LtxErr.LTXCorrupted
  else Ok (index ++ to_be 4 (ep_page p) ++ to_be 8 (ep_offset p) ++ to_be 8 (ep_size p)
             ++ as_bytes (ep_frame_hash p) ++ to_be 8 (ep_checksum p)).

(*@ cellule-ltx/src/paged.rs 137-138 encode_index_from_pages *)
Fixpoint append_index_pages (index : list byte) (pages : list EncodedPage) : LtxResult (list byte) :=
  match pages with
  | [] => Ok index
  | p :: pages => index ← append_index_page index p; append_index_pages index pages
  end.

(*@ cellule-ltx/src/paged.rs 127-141 encode_index_from_pages *)
Definition encode_index_from_pages (pages : list EncodedPage) : LtxResult (list byte) :=
  match pages with
  | [] => Err LtxErr.LTXCorrupted
  | _ =>
      _ ← ok_or (checked_mul_u64 (len pages) 60) (LtxErr.Limit Limit.LtxPageIndexBytes);
      append_index_pages [] pages
  end.

(** The subtraction [frame.len() - FRAME_PREFIX] cannot wrap: the prefix was read. *)
(*@ cellule-ltx/src/paged.rs 162-182 decode_frame *)
Definition decode_frame `{Lz4Flex} (frame : list byte) (page_size pgno : Z) : LtxResult (list byte) :=
  prefix ← ok_or (slice frame 0 FRAME_PREFIX) LtxErr.LTXCorrupted;
  header ← page_header_parse (take 6 prefix);
  _ ← page_header_validate header;
  size ← ok_or (get_be 4 prefix PAGE_HEADER_SIZE) LtxErr.LTXCorrupted;
  if negb (PageHdr.pgno header =? pgno)
     || negb (PageHdr.flags header =? PAGE_HEADER_FLAG_SIZE)
     || negb (size =? len frame - FRAME_PREFIX)
     || (compress_bound page_size <? size)
  then Err LtxErr.LTXCorrupted
  else
    data ← ok_or (decompress_into (drop 10 frame) page_size) LtxErr.Codec;
    if negb (len data =? page_size) then Err LtxErr.LTXCorrupted else Ok data.

(** * Proofs *)

Section PagedIndexProofs.
Context `{Crc64, Blake3, Lz4Flex}.

(** ** Frames *)

Lemma read_body_sized p ps input data body hashed r :
  read_body p ps input = Ok (data, body, hashed, r) ->
  negb (Z.land (PageHdr.flags p) PAGE_HEADER_FLAG_SIZE =? 0) = true ->
  exists block, body = to_be 4 (len block) ++ block /\ len block <= compress_bound ps
    /\ 0 <= len block <= u32_max /\ decompress_into block ps = Some data /\ len data = ps.
Proof.
  unfold read_body. intros Hk E. rewrite E in Hk. apply bind_Ok in Hk as ([sb i1] & [_ E1]%ok_or_Ok%read_exact_Some & Hk).
  apply reject_Ok in Hk as [Hb%Z.ltb_ge Hk]. apply bind_Ok in Hk as ([block i2] & [_ E2]%ok_or_Ok%read_exact_Some & Hk).
  apply bind_Ok in Hk as (dat & Hd%ok_or_Ok & Hk). apply reject_Ok in Hk as [Hl Hk]. guards_in Hl.
  injection Hk as -> <- <- <-. pose proof (from_be_bound sb) as Hs. rewrite E1 in Hs.
  change (256 ^ Z.of_nat 4) with 4294967296 in Hs.
  assert (len block = from_be sb) as El by (unfold len; lia).
  exists block. rewrite El. split; [by rewrite <- E1, to_from_be|]. unfold u32_max. split_and!; try lia; done.
Qed.

(** The frame of a page as the paged reader decodes it. *)
Lemma decode_frame_ok hdr p block ps data :
  length hdr = 6%nat -> page_header_parse hdr = Ok p -> page_header_validate p = Ok tt ->
  PageHdr.flags p = PAGE_HEADER_FLAG_SIZE -> len block <= compress_bound ps -> 0 <= len block <= u32_max ->
  decompress_into block ps = Some data -> len data = ps ->
  decode_frame (hdr ++ to_be 4 (len block) ++ block) ps (PageHdr.pgno p) = Ok data.
Proof.
  intros Hh Hp Hv Hf Hb Hu Hd Hl. unfold decode_frame.
  assert (len hdr = 6) as Hlh by (unfold len; lia).
  rewrite (app_assoc hdr), slice_here by (autorewrite with len; rewrite Hlh; done). cbn [ok_or mbind result_bind].
  rewrite take_app_length' by done. rewrite Hp. cbn [mbind result_bind]. rewrite Hv. cbn [mbind result_bind].
  rewrite get_be_skip by (rewrite Hlh; done). rewrite Hlh. change (PAGE_HEADER_SIZE - 6) with 0.
  rewrite <- (app_nil_r (to_be 4 (len block))) at 1.
  rewrite get_u32_here by done. cbn [ok_or mbind result_bind].
  rewrite Z.eqb_refl, Hf, Z.eqb_refl.
  replace (len ((hdr ++ to_be 4 (len block)) ++ block) - FRAME_PREFIX) with (len block)
    by (autorewrite with len; rewrite Hlh; unfold FRAME_PREFIX, PAGE_HEADER_SIZE; lia).
  rewrite Z.eqb_refl, (proj2 (Z.ltb_ge _ _)) by done. cbn [negb orb].
  rewrite drop_app_length' by (rewrite length_app, length_to_be; lia).
  rewrite Hd. cbn [ok_or mbind result_bind]. by rewrite Hl, Z.eqb_refl.
Qed.

(** What the replica index says of a page: where its frame stands and, when the
    frame is hashed, that a paged read of it gives the page. *)
Definition frame_of_page (ps pgno : Z) (data frame : list byte) : Prop :=
  10 <= len frame <= 10 + compress_bound ps /\ decode_frame frame ps pgno = Ok data.

Lemma decode_page_located d n d' p data eps :
  decode_page d n = Ok (d', Some (p, data)) -> replica_index d = Some eps ->
  exists frame ep, consumed d' = consumed d ++ frame /\ rest d = frame ++ rest d'
    /\ replica_index d' = Some (eps ++ [ep])
    /\ ep_page ep = PageHdr.pgno p /\ ep_offset ep = len (consumed d) /\ ep_size ep = len frame
    /\ ep_checksum ep = checksum_page (PageHdr.pgno p) data /\ u32_ok (PageHdr.pgno p)
    /\ (ep_frame_hash ep = array_fill 32 x00
        \/ ep_frame_hash ep = blake3 frame /\ frame_of_page n (PageHdr.pgno p) data frame).
Proof.
  unfold decode_page. intros Hk Hi. case_bool_decide; [done|]. apply reject_Ok in Hk as [Hg Hk].
  guards_in Hg. destruct Hg as [_ Hn].
  apply bind_Ok in Hk as ([hdr d1] & (E1 & El & Ed1)%read_hashed_Ok & Hk).
  apply bind_Ok in Hk as (p0 & Hp & Hk). destruct (page_is_zero p0); [done|].
  apply bind_Ok in Hk as ([] & Hv & Hk). apply reject_Ok in Hk as [_ Hk].
  apply bind_Ok in Hk as ([[[dat body] hashed] r] & Hb & Hk). pose proof (read_body_Ok _ _ _ _ _ _ _ Hb) as [Hl Er].
  apply Ok_inj in Hk. injection Hk as <- <- <-.
  pose proof (page_header_marshal_parse _ _ El Hp) as (_ & Hu & _).
  rewrite Ed1 in *. cbn [consumed rest replica_index index dheader] in *. rewrite Hi.
  exists (hdr ++ body), (index_entry p0 (len (consumed d)) hdr body dat).
  cbn [fmap option_fmap option_map index_entry ep_page ep_offset ep_size ep_checksum ep_frame_hash].
  rewrite E1, Er, <- !app_assoc, len_app. split_and!; try done.
  destruct (negb _) eqn:Ef; [right|by left]. split; [done|].
  destruct (read_body_sized _ _ _ _ _ _ _ Hb Ef) as (block & -> & Hbound & Hbu & Hd & _).
  rewrite Hn. split; [autorewrite with len; unfold len in *; lia|].
  apply decode_frame_ok; try done.
  unfold page_header_validate in Hv. apply reject_Ok in Hv as [_ Hv]. apply reject_Ok in Hv as [Hm _].
  guards_in Ef. guards_in Hm. revert Ef Hm. change PAGE_HEADER_FLAG_MASK with (Z.ones 1).
  change PAGE_HEADER_FLAG_SIZE with (Z.ones 1). rewrite Z.land_ones by lia. change (Z.ones 1) with 1.
  pose proof (Z.mod_pos_bound (PageHdr.flags p0) (2 ^ 1)). lia.
Qed.

(** ** The index of a decoded file *)

(** The entries describe the pages one after the other from [off] to [ending]. *)
Fixpoint located (h : Header) (reader : list byte) (prev off : Z) (eps : list EncodedPage)
    (pages : list (Z * list byte)) (ending : Z) : Prop :=
  match eps, pages with
  | [], [] => ending = off
  | ep :: eps, (pgno, data) :: pages =>
      ep_page ep = pgno /\ ep_offset ep = off /\ 0 <= ep_size ep
      /\ ep_checksum ep = checksum_page pgno data /\ u32_ok pgno /\ bad_page h prev pgno = false
      /\ (exists frame, slice reader off (off + ep_size ep) = Some frame
           /\ (ep_frame_hash ep = array_fill 32 x00
               \/ ep_frame_hash ep = blake3 frame /\ frame_of_page (Header.page_size h) pgno data frame))
      /\ located h reader pgno (off + ep_size ep) eps pages ending
  | _, _ => False
  end.

Lemma decode_page_end_consumed d n d' :
  dstate d = Pages -> decode_page d n = Ok (d', None) ->
  len (consumed d') = len (consumed d) + 6 /\ replica_index d' = replica_index d.
Proof.
  intros Hst. unfold decode_page. case_bool_decide; [congruence|]. intros [_ Hk]%reject_Ok.
  apply bind_Ok in Hk as ([hdr d1] & (E1 & El & Ed1)%read_hashed_Ok & Hk).
  apply bind_Ok in Hk as (p0 & Hp & Hk). destruct (page_is_zero p0).
  - apply Ok_inj in Hk. injection Hk as <-. rewrite Ed1. cbn [consumed replica_index].
    split; [rewrite len_app; unfold len in *; lia|done].
  - apply bind_Ok in Hk as ([] & _ & Hk). apply reject_Ok in Hk as [_ Hk].
    by apply bind_Ok in Hk as ([[[dat body] hashed] r] & _ & Hk).
Qed.

Lemma decode_pages_located fuel d n d' pages eps :
  dstate d = Pages -> replica_index d = Some eps -> decode_pages fuel d n = Ok (d', pages) ->
  exists eps', replica_index d' = Some (eps ++ eps')
    /\ located (dheader d) (consumed d ++ rest d) (LtxCodec.previous_page (index d)) (len (consumed d))
         eps' pages (len (consumed d') - 6).
Proof.
  revert d pages eps. induction fuel as [|fuel IH]; intros d pages eps Hst Hi Hk; [done|].
  cbn [decode_pages] in Hk. apply bind_Ok in Hk as ([d1 [[p data]|]] & Hp & Hk).
  - apply bind_Ok in Hk as ([d2 ps] & Hps & Hk). injection Hk as <- <-.
    destruct (decode_page_located _ _ _ _ _ _ Hp Hi) as (frame & ep & Hc & Hr & Hi1 & Hpg & Ho & Hs & Hck & Hu & Hf).
    apply decode_page_Some in Hp as (-> & _ & _ & _ & Hbad & Hst1 & Hh1 & Hprev & Hcr & _).
    destruct (IH _ _ _ Hst1 Hi1 Hps) as (eps' & Hi2 & Hloc). rewrite Hh1, Hprev, Hcr in Hloc.
    exists (ep :: eps'). split; [by rewrite Hi2, <- app_assoc|]. cbn [located].
    rewrite Hpg, Ho, Hs. pose proof (len_nonneg frame). split_and!; try done.
    + exists frame. split; [|done]. rewrite Hr. by apply slice_app.
    + rewrite Hc, len_app in Hloc. done.
  - injection Hk as <- <-. destruct (decode_page_end_consumed _ _ _ Hst Hp) as [Hc Hi1].
    exists []. rewrite app_nil_r, Hi1. split; [done|]. cbn [located]. lia.
Qed.

(** The footer: an index, its length and the trailer. *)
Lemma decoder_close_footer d d' :
  dstate d = AtClose -> decoder_close d = Ok d' ->
  25 <= len (rest d) /\ replica_index d' = replica_index d.
Proof.
  intros Hst. unfold decoder_close. case_bool_decide; [congruence|]. intros [_ Hk]%reject_Ok.
  apply bind_Ok in Hk as ([idx i1] & (body & _ & Hm)%match_values_consumes & Hk).
  apply (f_equal (@length byte)) in Hm. rewrite length_app in Hm.
  apply bind_Ok in Hk as ([[ending b1] i2] & [-> Hb]%read_uvarint_consumes & Hk).
  apply reject_Ok in Hk as [_ Hk]. unfold read_footer_exact in Hk.
  apply bind_Ok in Hk as ([sz i3] & [-> H8]%ok_or_Ok%read_exact_Some & Hk).
  apply reject_Ok in Hk as [_ Hk]. apply reject_Ok in Hk as [_ Hk].
  apply bind_Ok in Hk as ([tb i4] & [-> H16]%ok_or_Ok%read_exact_Some & Hk). apply bind_Ok in Hk as (t & _ & Hk).
  apply bind_Ok in Hk as ([] & _ & Hk). destruct i4; [|done].
  apply reject_Ok in Hk as [_ Hk]. apply reject_Ok in Hk as [_ Hk]. apply Ok_inj in Hk as <-.
  cbn [replica_index]. split; [|done]. rewrite !length_app in Hm. unfold len. lia.
Qed.

(** ** Collecting the index changes nothing else *)

Definition forget_index (d : Decoder) : Decoder :=
  MkDecoder (rest d) (consumed d) (index d) (dstate d) (dheader d) (dtrailer d) (hash d) (rolling_checksum d) None.

Lemma read_hashed_forget d n bytes d' :
  read_hashed d n = Ok (bytes, d') -> read_hashed (forget_index d) n = Ok (bytes, forget_index d').
Proof.
  intros (E & El & ->)%read_hashed_Ok. by rewrite (read_hashed_app _ bytes n (rest d')).
Qed.

Lemma decode_header_forget d d' :
  decode_header d = Ok d' -> decode_header (forget_index d) = Ok (forget_index d').
Proof.
  unfold decode_header. cbn [forget_index dstate]. intros [Hg Hk]%reject_Ok. rewrite Hg.
  apply bind_Ok in Hk as ([b d1] & Hr & Hk). rewrite (read_hashed_forget _ _ _ _ Hr). cbn [mbind result_bind].
  apply bind_Ok in Hk as (h & -> & Hk). apply bind_Ok in Hk as ([] & Hv & Hk).
  cbn [mbind result_bind]. rewrite Hv. by apply Ok_inj in Hk as <-.
Qed.

Lemma decode_page_forget d n d' o :
  decode_page d n = Ok (d', o) -> decode_page (forget_index d) n = Ok (forget_index d', o).
Proof.
  unfold decode_page. cbn [forget_index dstate dheader]. case_bool_decide.
  { intros Hk. apply Ok_inj in Hk. by injection Hk as <- <-. }
  intros [Hg Hk]%reject_Ok. rewrite Hg.
  apply bind_Ok in Hk as ([b d1] & Hr & Hk). rewrite (read_hashed_forget _ _ _ _ Hr). cbn [mbind result_bind].
  apply bind_Ok in Hk as (p & -> & Hk). cbn [mbind result_bind].
  destruct (page_is_zero p). { apply Ok_inj in Hk. by injection Hk as <- <-. }
  apply bind_Ok in Hk as ([] & -> & Hk). cbn [mbind result_bind index forget_index rest].
  apply reject_Ok in Hk as [-> Hk]. apply bind_Ok in Hk as ([[[dat body] hashed] r] & -> & Hk).
  cbn [mbind result_bind]. apply Ok_inj in Hk. by injection Hk as <- <-.
Qed.

Lemma decode_pages_forget fuel d n d' pages :
  decode_pages fuel d n = Ok (d', pages) -> decode_pages fuel (forget_index d) n = Ok (forget_index d', pages).
Proof.
  revert d pages. induction fuel as [|fuel IH]; intros d pages Hk; [done|]. cbn [decode_pages] in *.
  apply bind_Ok in Hk as ([d1 o] & Hp & Hk). rewrite (decode_page_forget _ _ _ _ Hp). cbn [mbind result_bind].
  destruct o as [[p data]|]; [|by injection Hk as <- <-].
  apply bind_Ok in Hk as ([d2 ps] & Hps & Hk). injection Hk as <- <-. by rewrite (IH _ _ Hps).
Qed.

Lemma decoder_close_forget d d' :
  decoder_close d = Ok d' -> decoder_close (forget_index d) = Ok (forget_index d').
Proof.
  unfold decoder_close. cbn [forget_index dstate dheader index rest hash rolling_checksum].
  case_bool_decide; [intros Hk; by apply Ok_inj in Hk as <-|].
  intros [-> Hk]%reject_Ok. apply bind_Ok in Hk as ([idx i1] & -> & Hk). cbn [mbind result_bind].
  apply bind_Ok in Hk as ([[ending b1] i2] & -> & Hk). cbn [mbind result_bind].
  apply reject_Ok in Hk as [-> Hk]. apply bind_Ok in Hk as ([sz i3] & -> & Hk). cbn [mbind result_bind].
  apply reject_Ok in Hk as [-> Hk]. apply reject_Ok in Hk as [-> Hk].
  apply bind_Ok in Hk as ([tb i4] & -> & Hk). cbn [mbind result_bind].
  apply bind_Ok in Hk as (t & -> & Hk). cbn [mbind result_bind].
  apply bind_Ok in Hk as ([] & -> & Hk). cbn [mbind result_bind]. destruct i4; [|done].
  apply reject_Ok in Hk as [-> Hk]. apply reject_Ok in Hk as [-> Hk]. by apply Ok_inj in Hk as <-.
Qed.

Lemma decode_all_forget d d' pages :
  decode_all d = Ok (d', pages) -> decode_all (forget_index d) = Ok (forget_index d', pages).
Proof.
  unfold decode_all. intros Hk. apply bind_Ok in Hk as (d1 & Hh & Hk).
  rewrite (decode_header_forget _ _ Hh). cbn [mbind result_bind]. cbn [forget_index dheader rest].
  apply bind_Ok in Hk as ([d2 ps] & Hp & Hk). fold (forget_index d1). rewrite (decode_pages_forget _ _ _ _ _ Hp).
  cbn [mbind result_bind]. apply bind_Ok in Hk as (d3 & Hc & Hk). rewrite (decoder_close_forget _ _ Hc).
  cbn [mbind result_bind]. by injection Hk as <- <-.
Qed.

(** ** A decoded file and its index *)

Record indexed (reader : list byte) (f : DecodedFile) (idx : list EncodedPage) (pages : list (Z * list byte)) : Prop := {
  ix_decoded : decode_reader_inner reader true = Ok (f, pages, len reader, blake3 reader);
  ix_valid : header_validate (file_header f) = Ok tt;
  ix_located : exists ending, located (file_header f) reader 0 HEADER_SIZE idx pages ending
                 /\ ending + 31 <= len reader
}.

Lemma inspect_indexed reader f size digest idx :
  inspect_reader_with_index reader = Ok (f, size, digest, idx) ->
  size = len reader /\ digest = blake3 reader /\ exists pages, indexed reader f idx pages.
Proof.
  unfold inspect_reader_with_index. intros Hk. apply bind_Ok in Hk as ([d pages] & Hd & Hk).
  pose proof (decode_all_forget _ _ _ Hd) as Hf. change (forget_index (decoder_new_with_index reader)) with (decoder_new reader) in Hf.
  pose proof (decode_all_sound _ _ _ Hf) as (Hst & Hc & Hdec). cbn [forget_index dstate consumed dheader dtrailer] in *.
  unfold artifact in Hk. rewrite bool_decide_eq_false_2 in Hk by (intros Hn; by apply Hn).
  cbn [mbind result_bind] in Hk. apply bind_Ok in Hk as (eps & Hi%ok_or_Ok & Hk).
  apply Ok_inj in Hk. injection Hk as <- <- <- ->. rewrite Hc. split; [done|]. split; [done|].
  exists pages. constructor; cbn [file_header].
  - unfold decode_reader_inner. rewrite Hf. cbn [mbind result_bind]. unfold artifact.
    cbn [forget_index dstate]. rewrite bool_decide_eq_false_2 by (intros Hn; by apply Hn). cbn [mbind result_bind forget_index consumed dheader dtrailer]. by rewrite Hc.
  - apply Hdec.
  - unfold decode_all in Hd. apply bind_Ok in Hd as (d1 & H1' & Hd). apply bind_Ok in Hd as ([d2 ps] & H2' & Hd).
    apply bind_Ok in Hd as (d3 & H3' & Hd). injection Hd as -> ->.
    unfold decode_header in H1'. apply reject_Ok in H1' as [_ H1'].
    apply bind_Ok in H1' as ([hb d0] & (E0 & El & Ed0)%read_hashed_Ok & H1').
    apply bind_Ok in H1' as (h & Hh & H1'). apply bind_Ok in H1' as ([] & Hval & H1').
    apply Ok_inj in H1'. subst d1. rewrite Ed0 in *. cbn [rest consumed decoder_new_with_index replica_index] in *.
    pose proof H2' as Hloc. eapply decode_pages_located in Hloc as (eps' & Hi2 & Hloc); [|done|done].
    apply decode_pages_ordered in H2' as (Hs2 & Hh2 & _ & _ & Hc2 & _); [|done].
    pose proof (decoder_close_sound _ _ Hs2 H3') as (_ & Hh3 & Hc3 & _).
    destruct (decoder_close_footer _ _ Hs2 H3') as [Hfoot Hi3]. rewrite Hi3, Hi2 in Hi. injection Hi as <-.
    cbn [dheader consumed rest app index decoder_new_with_index LtxCodec.previous_page last] in *.
    rewrite E0, Hh3, Hh2. exists (len (consumed d2) - 6). split.
    + replace HEADER_SIZE with (len hb) by (unfold len; by rewrite El). done.
    + rewrite <- Hc2, len_app. lia.
Qed.

(** ** The encoded table *)

Definition entry_of (p : EncodedPage) : IndexEntry :=
  IndexEntry.Mk (ep_page p) (ep_offset p) (ep_size p) (ep_frame_hash p) (ep_checksum p).
Definition record_of (p : EncodedPage) : list byte :=
  to_be 4 (ep_page p) ++ to_be 8 (ep_offset p) ++ to_be 8 (ep_size p) ++ as_bytes (ep_frame_hash p)
  ++ to_be 8 (ep_checksum p).
Record page_widths (p : EncodedPage) : Prop := {
  pw_page : u32_ok (ep_page p);
  pw_offset : u64_ok (ep_offset p);
  pw_size : u64_ok (ep_size p);
  pw_checksum : u64_ok (ep_checksum p)
}.

Lemma decode_record p : page_widths p -> decode_index_entry (record_of p) = Ok (entry_of p).
Proof.
  intros []. unfold decode_index_entry, record_of. rewrite <- (app_nil_r (to_be 8 (ep_checksum p))).
  by eval_gets.
Qed.

Lemma append_pages_Ok pages index bytes :
  append_index_pages index pages = Ok bytes ->
  bytes = index ++ concat (map record_of pages)
  /\ Forall (fun p => ep_frame_hash p <> array_fill 32 x00 /\ ep_size p <> 0) pages.
Proof.
  revert index. induction pages as [|p pages IH]; intros index Hk; cbn [append_index_pages] in Hk.
  { apply Ok_inj in Hk as <-. simpl. by rewrite app_nil_r. }
  apply bind_Ok in Hk as (i1 & Hp & Hk). apply IH in Hk as [-> Hf].
  unfold append_index_page in Hp. apply reject_Ok in Hp as [Hg Hp]. guards_in Hg.
  apply Ok_inj in Hp as <-. cbn [map concat]. unfold record_of at 2. rewrite <- !app_assoc. split; [done|].
  constructor; [|done]. destruct Hg as [Hh Hz]. by apply bool_decide_eq_false in Hh.
Qed.

Lemma encode_index_Ok pages bytes :
  encode_index_from_pages pages = Ok bytes ->
  bytes = concat (map record_of pages)
  /\ Forall (fun p => ep_frame_hash p <> array_fill 32 x00 /\ ep_size p <> 0) pages.
Proof.
  unfold encode_index_from_pages. destruct pages as [|p pages]; [done|].
  intros (n & _ & Hk)%bind_Ok. by apply append_pages_Ok in Hk.
Qed.

Lemma length_record p : length (record_of p) = ENTRY_BYTES.
Proof. unfold record_of. by rewrite !length_app, !length_to_be, as_bytes_length. Qed.

Lemma index_entries_records pages : index_entries (concat (map record_of pages)) = Ok (map record_of pages).
Proof.
  unfold index_entries. rewrite as_chunks_concat; [done|unfold ENTRY_BYTES; lia|].
  apply Forall_map, Forall_true. intros p. apply length_record.
Qed.

(** ** Validation *)

Lemma maximum_frame_ok ps :
  is_valid_page_size ps = true -> maximum_frame_bytes ps = Ok (10 + compress_bound ps).
Proof.
  intros Hps%page_size_cases. by repeat destruct Hps as [->|Hps]; try subst ps.
Qed.

Lemma validate_located h reader prev off ep eps pgno data pages ending i :
  located h reader prev off (ep :: eps) ((pgno, data) :: pages) ending ->
  is_valid_page_size (Header.page_size h) = true -> ep_frame_hash ep <> array_fill 32 x00 ->
  Segment.page_size i = Header.page_size h -> Segment.database_pages i = Header.commit h ->
  0 <= off -> off + ep_size ep + 31 <= Segment.size_bytes i <= u64_max ->
  validate_entry (MkValidator i prev off) (entry_of ep) = Ok (MkValidator i pgno (off + ep_size ep), entry_of ep).
Proof.
  intros (Hp & Ho & Hsz & Hc & Hu & Hbad & (frame & Hs & Hf) & _) Hps Hnz Eps Edb H0' Hsize.
  destruct Hf as [?|[_ [Hl _]]]; [done|]. apply slice_len in Hs.
  assert (len frame = ep_size ep) as El by lia.
  unfold bad_page in Hbad. guards_in Hbad. destruct Hbad as [[[Hlt Hle] Hlock] _].
  unfold validate_entry. cbn [info entry_of IndexEntry.page IndexEntry.offset IndexEntry.size previous_page previous_end].
  rewrite Eps, maximum_frame_ok, Hp, Ho by done. cbn [mbind result_bind].
  rewrite (proj2 (checked_add_u64_Some _ _ _)) by (split; [done|unfold u64_ok, u64_max in *; lia]).
  cbn [ok_or mbind result_bind]. rewrite Edb.
  rewrite (proj2 (Z.leb_gt pgno prev)), (proj2 (Z.ltb_ge (Header.commit h) pgno)), (proj2 (Z.eqb_neq pgno _)), Z.eqb_refl by lia.
  unfold FRAME_PREFIX, PAGE_HEADER_SIZE, TRAILER_SIZE, saturating_sub_u.
  rewrite (proj2 (Z.leb_le (6 + 4) _)), (proj2 (Z.leb_le (ep_size ep) _)), (proj2 (Z.ltb_ge _ (off + ep_size ep))) by lia.
  done.
Qed.

(** The paged reads of the entries give the pages. *)
Definition paged_read (reader : list byte) (ps : Z) (e : IndexEntry) (page : Z * list byte) : Prop :=
  IndexEntry.page e = page.1 /\ IndexEntry.checksum e = checksum_page page.1 page.2 /\
  exists frame, slice reader (IndexEntry.offset e) (IndexEntry.offset e + IndexEntry.size e) = Some frame
    /\ blake3 frame = IndexEntry.hash e /\ decode_frame frame ps page.1 = Ok page.2.

Lemma located_bounds h reader prev off eps pages ending :
  located h reader prev off eps pages ending -> off <= ending.
Proof.
  revert prev off pages. induction eps as [|ep eps IH]; intros prev off [|[pgno data] pages]; cbn [located]; try done; [lia|].
  intros (_ & _ & ? & _ & _ & _ & _ & Hl). apply IH in Hl. lia.
Qed.

Lemma visit_located h reader i eps :
  is_valid_page_size (Header.page_size h) = true -> Segment.page_size i = Header.page_size h ->
  Segment.database_pages i = Header.commit h -> Segment.size_bytes i <= u64_max ->
  Forall (fun p => ep_frame_hash p <> array_fill 32 x00 /\ ep_size p <> 0) eps ->
  forall prev off pages ending fuel,
  located h reader prev off eps pages ending -> 0 <= off -> ending + 31 <= Segment.size_bytes i ->
  (length eps < fuel)%nat ->
  visit_entries fuel (MkEntries (map record_of eps) (MkValidator i prev off)) = Ok (map entry_of eps)
  /\ Forall2 (paged_read reader (Header.page_size h)) (map entry_of eps) pages.
Proof.
  intros Hps Eps Edb Hmax Hf. induction Hf as [|ep eps [Hnz _] _ IH]; intros prev off pages ending [|fuel] Hl H0' He Hfuel;
    try (cbn in Hfuel; lia).
  { destruct pages as [|[? ?] ?]; [|done]. split; [done|constructor]. }
  destruct pages as [|[pgno data] pages]; [done|]. pose proof Hl as (Hp & Ho & Hsz & Hck & Hu & _ & (frame & Hs & Hfr) & Hl').
  pose proof (located_bounds _ _ _ _ _ _ _ Hl') as Hb.
  assert (page_widths ep) as Hw.
  { constructor; unfold u64_ok in *; [by rewrite Hp|lia..|rewrite Hck; apply checksum_page_u64]. }
  cbn [map visit_entries entries_next chunks validator]. rewrite decode_record by done. cbn [mbind result_bind].
  rewrite (validate_located _ _ _ _ _ _ _ _ _ _ i Hl) by (done || lia).
  destruct (IH pgno (off + ep_size ep) pages ending fuel Hl') as [IH1 IH2]; [lia..|cbn [length] in Hfuel; lia|].
  cbn [mbind result_bind]. rewrite IH1. cbn [mbind result_bind]. split; [done|]. constructor; [|done].
  destruct Hfr as [?|[Hh [_ Hd]]]; [done|]. repeat split; cbn [entry_of IndexEntry.page IndexEntry.checksum fst snd]; try done.
  exists frame. cbn [entry_of IndexEntry.offset IndexEntry.size IndexEntry.hash]. by rewrite Ho.
Qed.

(** C15: the page index of a segment is exact. Take any segment the streaming decoder
    accepts while collecting its index, and encode that index. The table reads
    back with every entry valid, one entry per page of the segment in order; the
    bytes the entry points at have the digest it records, and the paged reader
    decompresses them to exactly the page the full decoder returned, whose
    checksum the entry records. *)
Theorem paged_reads_exact reader f size digest idx bytes :
  inspect_reader_with_index reader = Ok (f, size, digest, idx) ->
  encode_index_from_pages idx = Ok bytes -> len reader <= u64_max ->
  exists pages entries,
    decode_reader_inner reader true = Ok (f, pages, size, digest)
    /\ read_entries bytes (from_inspected f size digest) = Ok entries
    /\ Forall2 (paged_read reader (Header.page_size (file_header f))) entries pages.
Proof.
  intros (-> & -> & pages & [Hd Hv (ending & Hl & He)])%inspect_indexed [-> Hf]%encode_index_Ok Hmax.
  exists pages, (map entry_of idx). split; [done|].
  unfold read_entries, validated_index_entries. rewrite index_entries_records. cbn [mbind result_bind chunks].
  apply (visit_located (file_header f) reader _ idx) with (ending := ending); try done;
    cbn [from_inspected Segment.page_size Segment.database_pages Segment.size_bytes]; try lia.
  - by apply header_validate_page_size.
  - rewrite length_map. lia.
Qed.
End PagedIndexProofs.

(** * Witness *)

(** The segment of [Concrete] with its index. *)
Module PagedConcrete.
Import Concrete.
Definition inspected : LtxResult (DecodedFile * Z * Digest * list EncodedPage) := inspect_reader_with_index file.
Definition index_of (r : LtxResult (DecodedFile * Z * Digest * list EncodedPage)) : list EncodedPage :=
  match r with Ok (_, _, _, idx) => idx | Err _ => [] end.
Definition table_of (r : LtxResult (list byte)) : list byte := match r with Ok b => b | Err _ => [] end.
Definition page_index : list EncodedPage := index_of inspected.
Definition table : list byte := table_of (encode_index_from_pages page_index).

Lemma inspected_ok :
  inspect_reader_with_index file = Ok (MkDecoded snapshot_header (etrailer encoded), len file, blake3 file, page_index).
Proof. vm_compute. reflexivity. Qed.
Lemma table_ok : encode_index_from_pages page_index = Ok table.
Proof. vm_compute. reflexivity. Qed.
End PagedConcrete.

Import Concrete.

Lemma paged_reads_exact_witness :
  exists pages entries,
    decode_reader_inner Concrete.file true
      = Ok (MkDecoded Concrete.snapshot_header (etrailer Concrete.encoded), pages, len Concrete.file, blake3 Concrete.file)
    /\ read_entries PagedConcrete.table
         (from_inspected (MkDecoded Concrete.snapshot_header (etrailer Concrete.encoded)) (len Concrete.file)
            (blake3 Concrete.file)) = Ok entries
    /\ Forall2 (paged_read Concrete.file 512) entries pages.
Proof.
  exact (paged_reads_exact Concrete.file _ _ _ PagedConcrete.page_index PagedConcrete.table
           PagedConcrete.inspected_ok PagedConcrete.table_ok ltac:(vm_compute; discriminate)).
Defined.
