(* ===== verification/DirectoryNode.v ===== *)
(** * DirectoryNode: the nodes of the authenticated page directory

    Models the node formats of [crates/cellule-ltx/src/replica/directory/mod.rs]:
    a leaf lists where the frames of up to 256 pages are stored, a branch lists
    its children with their digests and aggregates (pages, combined checksum,
    first and last page). The theorems show that the encoders and the verifiers
    are inverse to each other and what an accepted node says. *)

From Stdlib Require Import ZArith Lia.
From Stdlib Require Import Strings.Byte.
From stdpp Require Import base gmap strings numbers sorting.
From stdpp Require Import list.
From S2P Require Import Prelude Bytes Identity LtxTypes Lz4 Ltx LtxCodec.

Local Open Scope bool_scope.

(*@ cellule-ltx/src/replica/directory/mod.rs 16-16 MAGIC *)
Definition DIR_MAGIC : list byte := text "CRBDIR01".
(*@ cellule-ltx/src/replica/directory/mod.rs 17-17 HEADER_BYTES *)
Definition DIR_HEADER_BYTES : Z := 32.
(*@ cellule-ltx/src/replica/directory/mod.rs 18-18 LEAF_RECORD_BYTES *)
Definition LEAF_RECORD_BYTES : Z := 88.
(*@ cellule-ltx/src/replica/directory/mod.rs 19-19 BRANCH_RECORD_BYTES *)
Definition BRANCH_RECORD_BYTES : Z := 56.
(*@ cellule-ltx/src/replica/directory/mod.rs 20-20 FANOUT *)
Definition FANOUT : Z := 256.
(*@ cellule-ltx/src/replica/directory/mod.rs 21-23 fits_leaf *)
Definition fits_leaf (database_pages : Z) : bool := (0 <? database_pages) && (database_pages <=? FANOUT).
(*@ cellule-ltx/src/replica/directory/mod.rs 24-24 MAX_NODE_BYTES *)
Definition MAX_NODE_BYTES : Z := DIR_HEADER_BYTES + FANOUT * LEAF_RECORD_BYTES.

(*@ cellule-ltx/src/cell_layout.rs 17-32 CellObjectKind *)
Inductive CellObjectKind := KLtx | KIndex | KDirectory | KRoot | KBundle | KPacked | KSharedPacked.

#[global] Instance CellObjectKind_eq_dec : EqDecision CellObjectKind.
Proof. solve_decision. Defined.

Module DirEntry.
(*@ cellule-ltx/src/replica/directory/mod.rs 27-34 DirectoryEntry *)
Record DirectoryEntry := Mk {
  page : Z;
  object : Digest;
  offset : Z;
  length : Z;
  frame_hash : Digest;
  checksum : Z
}.
End DirEntry.
Abbreviation DirectoryEntry := DirEntry.DirectoryEntry.

Module Agg.
(*@ cellule-ltx/src/replica/directory/mod.rs 165-170 Aggregate *)
Record Aggregate := Mk { live_pages : Z; checksum : Z; first : Z; last : Z }.
End Agg.
Abbreviation Aggregate := Agg.Aggregate.

#[global] Instance Aggregate_eq_dec : EqDecision Aggregate.
Proof. solve_decision. Defined.
#[global] Instance DirectoryEntry_eq_dec : EqDecision DirectoryEntry.
Proof. solve_decision. Defined.

Module Node.
(*@ cellule-ltx/src/replica/directory/mod.rs 173-177 Node *)
Record Node := Mk { index : Z; digest : Digest; aggregate : Aggregate }.
End Node.
Abbreviation Node := Node.Node.

#[global] Instance Node_eq_dec : EqDecision Node.
Proof. solve_decision. Defined.

Module DirHeader.
(*@ cellule-ltx/src/replica/directory/mod.rs 212-217 Header *)
Record Header := Mk { kind : Z; entries : Z; live_pages : Z; checksum : Z }.
End DirHeader.
Abbreviation NodeHeader := DirHeader.Header.

(*@ cellule-ltx/src/replica/directory/mod.rs 264-267 ObjectExtent *)
Record ObjectExtent := MkExtent { kind : CellObjectKind; ranges : list (Z * Z) }.
Abbreviation Extents := (gmap Digest ObjectExtent).

(** ** Reading *)

(*@ cellule-ltx/src/replica/directory/mod.rs 864-870 read_u32 *)
Definition read_u32 (bytes : list byte) (offset : Z) : LtxResult Z :=
  ok_or (get_be 4 bytes offset) LtxErr.LTXCorrupted.
(*@ cellule-ltx/src/replica/directory/mod.rs 872-878 read_u64 *)
Definition read_u64 (bytes : list byte) (offset : Z) : LtxResult Z :=
  ok_or (get_be 8 bytes offset) LtxErr.LTXCorrupted.
(** [array(&bytes[offset..offset + 32])?]. *)
Definition read_digest (bytes : list byte) (offset : Z) : LtxResult Digest :=
  ok_or (get_array 32 bytes offset) LtxErr.Panic.

(*@ cellule-ltx/src/replica/directory/mod.rs 220-247 Header::parse *)
Definition dir_header_parse (bytes : list byte) : LtxResult NodeHeader :=
  prefix ← ok_or (slice bytes 0 DIR_HEADER_BYTES) LtxErr.LTXCorrupted;
  let kind := field 1 10 prefix in
  if bool_decide (take 8 prefix <> DIR_MAGIC) || negb (field 2 8 prefix =? 1)
     || (1 <? kind) || negb (field 1 11 prefix =? 0)
  then Err LtxErr.LTXCorrupted
  else
    let entries := field 4 12 prefix in
    if (entries =? 0) || (FANOUT <? entries) then Err LtxErr.LTXCorrupted
    else
      let record_bytes := if kind =? 0 then LEAF_RECORD_BYTES else BRANCH_RECORD_BYTES in
      if negb (len bytes =? DIR_HEADER_BYTES + entries * record_bytes) then Err LtxErr.LTXCorrupted
      else Ok (DirHeader.Mk kind entries (field 8 16 prefix) (field 8 24 prefix)).

(** [bytes.iter().fold(0, |sum, x| sum ^ x.checksum) | CHECKSUM_FLAG]. *)
Definition xor_sum (l : list Z) : Z := Z.lor (foldl Z.lxor 0 l) CHECKSUM_FLAG.

(** ** Leaves *)

(** The fields of the record at [start]. *)
(*@ cellule-ltx/src/replica/directory/mod.rs 747-752 verify_leaf *)
Definition read_leaf_record (bytes : list byte) (start : Z) : LtxResult DirectoryEntry :=
  page ← read_u32 bytes start;
  object ← read_digest bytes (start + 4);
  offset ← read_u64 bytes (start + 36);
  length ← read_u32 bytes (start + 44);
  frame_hash ← read_digest bytes (start + 48);
  checksum ← read_u64 bytes (start + 80);
  Ok (DirEntry.Mk page object offset length frame_hash checksum).

Record LeafScan := MkLeafScan {
  l_checksum : Z; l_first : Z; l_last : Z; l_previous : Z; l_entries : list DirectoryEntry
}.

(** The frame lies in a range of its object. *)
Definition covered (extents : Extents) (e : DirectoryEntry) : bool :=
  is_some_and (fun extent =>
    existsb (fun r => (fst r <=? DirEntry.offset e)
                      && (DirEntry.offset e + DirEntry.length e <=? snd r)) (ranges extent))
    (extents !! DirEntry.object e).

(** One turn of the loop. *)
(*@ cellule-ltx/src/replica/directory/mod.rs 745-782 verify_leaf *)
Definition verify_leaf_record (bytes : list byte) (page_size database_pages : Z) (extents : Extents)
    (index : Z) (s : LeafScan) : LtxResult LeafScan :=
  e ← read_leaf_record bytes (DIR_HEADER_BYTES + index * LEAF_RECORD_BYTES);
  extent ← ok_or (extents !! DirEntry.object e) LtxErr.LTXCorrupted;
  _ ← ok_or (checked_add_u64 (DirEntry.offset e) (DirEntry.length e)) LtxErr.LTXCorrupted;
  if (DirEntry.page e =? 0) || (database_pages <? DirEntry.page e)
     || (DirEntry.page e =? lock_pgno page_size) || (DirEntry.page e <=? l_previous s)
     || (Z.land (DirEntry.checksum e) CHECKSUM_FLAG =? 0) || (DirEntry.length e =? 0)
     || negb (covered extents e)
  then Err LtxErr.LTXCorrupted
  else Ok (MkLeafScan (Z.lxor (l_checksum s) (DirEntry.checksum e))
             (if l_first s =? 0 then DirEntry.page e else l_first s)
             (DirEntry.page e) (DirEntry.page e) (l_entries s ++ [e])).

Fixpoint verify_leaf_records (n : nat) (bytes : list byte) (page_size database_pages : Z) (extents : Extents)
    (index : Z) (s : LeafScan) : LtxResult LeafScan :=
  match n with
  | O => Ok s
  | S n => s ← verify_leaf_record bytes page_size database_pages extents index s;
           verify_leaf_records n bytes page_size database_pages extents (index + 1) s
  end.

(*@ cellule-ltx/src/replica/directory/mod.rs 732-798 verify_leaf *)
Definition verify_leaf (bytes : list byte) (h : NodeHeader) (page_size database_pages : Z) (extents : Extents)
  : LtxResult (Aggregate * list DirectoryEntry) :=
  s ← verify_leaf_records (Z.to_nat (DirHeader.entries h)) bytes page_size database_pages extents 0
        (MkLeafScan 0 0 0 0 []);
  if negb ((l_first s - 1) / FANOUT =? (l_last s - 1) / FANOUT) then Err LtxErr.LTXCorrupted
  else
    let a := Agg.Mk (DirHeader.entries h) (Z.lor (l_checksum s) CHECKSUM_FLAG) (l_first s) (l_last s) in
    if negb (Agg.live_pages a =? DirHeader.live_pages h) || negb (Agg.checksum a =? DirHeader.checksum h)
    then Err LtxErr.ChecksumMismatch else Ok (a, l_entries s).

(*@ cellule-ltx/src/replica/directory/mod.rs 852-862 header *)
Definition dir_header (kind entries live_pages checksum : Z) : list byte :=
  DIR_MAGIC ++ to_be 2 1 ++ to_be 1 kind ++ [x00] ++ to_be 4 entries ++ to_be 8 live_pages ++ to_be 8 checksum.

(*@ cellule-ltx/src/replica/directory/mod.rs 689-694 encode_leaf *)
Definition leaf_record (e : DirectoryEntry) : list byte :=
  to_be 4 (DirEntry.page e) ++ as_bytes (DirEntry.object e) ++ to_be 8 (DirEntry.offset e)
  ++ to_be 4 (DirEntry.length e) ++ as_bytes (DirEntry.frame_hash e) ++ to_be 8 (DirEntry.checksum e).

Fixpoint encode_leaf_records (bytes : list byte) (previous : Z) (entries : list DirectoryEntry)
  : LtxResult (list byte) :=
  match entries with
  | [] => Ok bytes
  | e :: entries =>
      if (DirEntry.page e <=? previous) || (DirEntry.length e =? 0) then Err LtxErr.LTXCorrupted
      else encode_leaf_records (bytes ++ leaf_record e) (DirEntry.page e) entries
  end.

(*@ cellule-ltx/src/replica/directory/mod.rs 677-698 encode_leaf *)
Definition encode_leaf (entries : list DirectoryEntry) : LtxResult (list byte) :=
  if (len entries =? 0) || (FANOUT <? len entries) then Err LtxErr.LTXCorrupted
  else
    encode_leaf_records
      (dir_header 0 (len entries) (len entries) (xor_sum (map DirEntry.checksum entries))) 0 entries.

(** ** Branches *)

(*@ cellule-ltx/src/replica/directory/mod.rs 808-812 verify_branch *)
Definition read_child (bytes : list byte) (start : Z) : LtxResult Node :=
  child_first ← read_u32 bytes start;
  child_last ← read_u32 bytes (start + 4);
  digest ← read_digest bytes (start + 8);
  child_pages ← read_u64 bytes (start + 40);
  child_checksum ← read_u64 bytes (start + 48);
  Ok (Node.Mk 0 digest (Agg.Mk child_pages child_checksum child_first child_last)).

Record BranchScan := MkBranchScan {
  b_live : Z; b_checksum : Z; b_first : Z; b_last : Z; b_children : list Node
}.

(*@ cellule-ltx/src/replica/directory/mod.rs 806-836 verify_branch *)
Definition verify_child (bytes : list byte) (index : Z) (s : BranchScan) : LtxResult BranchScan :=
  child ← read_child bytes (DIR_HEADER_BYTES + index * BRANCH_RECORD_BYTES);
  let a := Node.aggregate child in
  if (Agg.first a =? 0) || (Agg.last a <? Agg.first a) || (Agg.first a <=? b_last s)
     || (Agg.live_pages a =? 0) || (Z.land (Agg.checksum a) CHECKSUM_FLAG =? 0)
  then Err LtxErr.LTXCorrupted
  else
    live ← ok_or (checked_add_u64 (b_live s) (Agg.live_pages a)) LtxErr.LTXCorrupted;
    Ok (MkBranchScan live (Z.lxor (b_checksum s) (Agg.checksum a))
          (if b_first s =? 0 then Agg.first a else b_first s) (Agg.last a) (b_children s ++ [child])).

Fixpoint verify_children (n : nat) (bytes : list byte) (index : Z) (s : BranchScan) : LtxResult BranchScan :=
  match n with
  | O => Ok s
  | S n => s ← verify_child bytes index s; verify_children n bytes (index + 1) s
  end.

(*@ cellule-ltx/src/replica/directory/mod.rs 800-850 verify_branch *)
Definition verify_branch (bytes : list byte) (h : NodeHeader) : LtxResult (Aggregate * list Node) :=
  s ← verify_children (Z.to_nat (DirHeader.entries h)) bytes 0 (MkBranchScan 0 0 0 0 []);
  let a := Agg.Mk (b_live s) (Z.lor (b_checksum s) CHECKSUM_FLAG) (b_first s) (b_last s) in
  if negb (Agg.live_pages a =? DirHeader.live_pages h) || negb (Agg.checksum a =? DirHeader.checksum h)
  then Err LtxErr.ChecksumMismatch else Ok (a, b_children s).

(*@ cellule-ltx/src/replica/directory/mod.rs 722-726 encode_branch *)
Definition child_record (c : Node) : list byte :=
  let a := Node.aggregate c in
  to_be 4 (Agg.first a) ++ to_be 4 (Agg.last a) ++ as_bytes (Node.digest c)
  ++ to_be 8 (Agg.live_pages a) ++ to_be 8 (Agg.checksum a).

(*@ cellule-ltx/src/replica/directory/mod.rs 704-708 encode_branch *)
Fixpoint sum_live (total : Z) (children : list Node) : LtxResult Z :=
  match children with
  | [] => Ok total
  | c :: children =>
      total ← ok_or (checked_add_u64 total (Agg.live_pages (Node.aggregate c))) LtxErr.LTXCorrupted;
      sum_live total children
  end.

Fixpoint encode_children (bytes : list byte) (previous : Z) (children : list Node) : LtxResult (list byte) :=
  match children with
  | [] => Ok bytes
  | c :: children =>
      let a := Node.aggregate c in
      if (Agg.first a =? 0) || (Agg.first a <=? previous) || (Agg.last a <? Agg.first a)
      then Err LtxErr.LTXCorrupted
      else encode_children (bytes ++ child_record c) (Agg.last a) children
  end.

(*@ cellule-ltx/src/replica/directory/mod.rs 700-730 encode_branch *)
Definition encode_branch (children : list Node) : LtxResult (list byte) :=
  if (len children =? 0) || (FANOUT <? len children) then Err LtxErr.LTXCorrupted
  else
    live_pages ← sum_live 0 children;
    encode_children
      (dir_header 1 (len children) live_pages (xor_sum (map (fun c => Agg.checksum (Node.aggregate c)) children)))
      0 children.

(** ** Nodes *)

(*@ cellule-ltx/src/replica/directory/mod.rs 180-209 Node::from_bytes *)
Definition from_bytes `{Blake3} (index : Z) (bytes : list byte) : LtxResult Node :=
  h ← dir_header_parse bytes;
  '(first, last) ←
    (if DirHeader.kind h =? 0 then
       first ← read_u32 bytes DIR_HEADER_BYTES;
       last ← read_u32 bytes (DIR_HEADER_BYTES + (DirHeader.entries h - 1) * LEAF_RECORD_BYTES);
       Ok (first, last)
     else
       first ← read_u32 bytes DIR_HEADER_BYTES;
       last ← read_u32 bytes (DIR_HEADER_BYTES + (DirHeader.entries h - 1) * BRANCH_RECORD_BYTES + 4);
       Ok (first, last));
  Ok (Node.Mk index (blake3 bytes) (Agg.Mk (DirHeader.live_pages h) (DirHeader.checksum h) first last)).

(** [inspect_node]: a leaf is checked against extents made of its own records. *)
(*@ cellule-ltx/src/replica/directory/mod.rs 899-916 inspect_node *)
Fixpoint inspect_records (n : nat) (bytes : list byte) (index database_pages : Z) (extents : Extents)
  : LtxResult (Z * Extents) :=
  match n with
  | O => Ok (database_pages, extents)
  | S n =>
      let start := DIR_HEADER_BYTES + index * LEAF_RECORD_BYTES in
      page ← read_u32 bytes start;
      object ← read_digest bytes (start + 4);
      offset ← read_u64 bytes (start + 36);
      length ← read_u32 bytes (start + 44);
      ending ← ok_or (checked_add_u64 offset length) LtxErr.LTXCorrupted;
      let x := default (MkExtent KLtx []) (extents !! object) in
      inspect_records n bytes (index + 1) (Z.max database_pages page)
        (<[object := MkExtent (kind x) (ranges x ++ [(offset, ending)])]> extents)
  end.

(*@ cellule-ltx/src/replica/directory/mod.rs 891-922 inspect_node *)
Definition inspect_node (bytes : list byte) : LtxResult unit :=
  h ← dir_header_parse bytes;
  if DirHeader.kind h =? 1 then _ ← verify_branch bytes h; Ok tt
  else
    '(database_pages, extents) ← inspect_records (Z.to_nat (DirHeader.entries h)) bytes 0 0 ∅;
    _ ← verify_leaf bytes h 0 database_pages extents;
    Ok tt.

(** * Proofs *)

(** ** Leaf records *)

Record entry_widths (e : DirectoryEntry) : Prop := {
  ew_page : u32_ok (DirEntry.page e);
  ew_offset : u64_ok (DirEntry.offset e);
  ew_length : u32_ok (DirEntry.length e);
  ew_checksum : u64_ok (DirEntry.checksum e)
}.

Lemma len_leaf_record e : len (leaf_record e) = LEAF_RECORD_BYTES.
Proof. unfold leaf_record. by autorewrite with len. Qed.

Lemma get_u32_Some bytes off z : get_be 4 bytes off = Some z <-> u32_ok z /\ slice bytes off (off + 4) = Some (to_be 4 z).
Proof. rewrite get_be_Some. unfold u32_ok, u32_max. change (256 ^ Z.of_nat 4) with 4294967296. change (Z.of_nat 4) with 4. intuition lia. Qed.
Lemma get_u64_Some bytes off z : get_be 8 bytes off = Some z <-> u64_ok z /\ slice bytes off (off + 8) = Some (to_be 8 z).
Proof. rewrite get_be_Some. unfold u64_ok, u64_max. change (256 ^ Z.of_nat 8) with 18446744073709551616. change (Z.of_nat 8) with 8. intuition lia. Qed.
Lemma get_digest_Some bytes off (a : Digest) : get_array 32 bytes off = Some a <-> slice bytes off (off + 32) = Some (as_bytes a).
Proof. apply get_array_Some. Qed.

Lemma read_leaf_record_iff bytes start e :
  read_leaf_record bytes start = Ok e <->
  entry_widths e /\ slice bytes start (start + LEAF_RECORD_BYTES) = Some (leaf_record e).
Proof.
  unfold read_leaf_record, read_u32, read_u64, read_digest, LEAF_RECORD_BYTES. split.
  - intros (p & [Hp1 Hp2]%ok_or_Ok%get_u32_Some & Hk)%bind_Ok.
    apply bind_Ok in Hk as (o & Ho%ok_or_Ok%get_digest_Some & Hk).
    apply bind_Ok in Hk as (off & [Hf1 Hf2]%ok_or_Ok%get_u64_Some & Hk).
    apply bind_Ok in Hk as (l & [Hl1 Hl2]%ok_or_Ok%get_u32_Some & Hk).
    apply bind_Ok in Hk as (fh & Hh%ok_or_Ok%get_digest_Some & Hk).
    apply bind_Ok in Hk as (c & [Hc1 Hc2]%ok_or_Ok%get_u64_Some & Hk). apply Ok_inj in Hk as <-.
    split; [done|]. unfold leaf_record. cbn [DirEntry.page DirEntry.object DirEntry.offset DirEntry.length DirEntry.frame_hash DirEntry.checksum].
    replace (start + 36) with (start + 4 + 32) in Hf2 by lia. replace (start + 44) with (start + 4 + 32 + 8) in Hl2 by lia.
    replace (start + 48) with (start + 4 + 32 + 8 + 4) in Hh by lia.
    replace (start + 80) with (start + 4 + 32 + 8 + 4 + 32) in Hc2 by lia.
    replace (start + 88) with (start + 4 + 32 + 8 + 4 + 32 + 8) by lia.
    repeat (eapply slice_join; [eassumption|]). done.
  - intros [[] Hs]. rewrite <- (Z.add_0_r start) at 1.
    pose proof (len_leaf_record e) as Hl. unfold LEAF_RECORD_BYTES in Hl.
    rewrite !(get_be_slice 4 _ _ _ _ _ Hs), !(get_be_slice 8 _ _ _ _ _ Hs), !(get_array_slice 32 _ _ _ _ _ Hs) by lia.
    unfold leaf_record. rewrite <- (app_nil_r (to_be 8 (DirEntry.checksum e))). eval_gets. by destruct e.
Qed.

(** An entry a leaf may hold after the page [previous]. *)
Record leaf_entry (page_size database_pages : Z) (extents : Extents) (previous : Z) (e : DirectoryEntry) : Prop := {
  le_widths : entry_widths e;
  le_page : 0 < DirEntry.page e <= database_pages;
  le_lock : DirEntry.page e <> lock_pgno page_size;
  le_order : previous < DirEntry.page e;
  le_flag : Z.land (DirEntry.checksum e) CHECKSUM_FLAG <> 0;
  le_length : DirEntry.length e <> 0;
  le_covered : covered extents e = true;
  le_end : DirEntry.offset e + DirEntry.length e <= u64_max
}.

Definition scan_entry (s : LeafScan) (e : DirectoryEntry) : LeafScan :=
  MkLeafScan (Z.lxor (l_checksum s) (DirEntry.checksum e))
    (if l_first s =? 0 then DirEntry.page e else l_first s)
    (DirEntry.page e) (DirEntry.page e) (l_entries s ++ [e]).

Lemma verify_leaf_record_iff bytes ps n ext i s s' :
  verify_leaf_record bytes ps n ext i s = Ok s' <->
  exists e, leaf_entry ps n ext (l_previous s) e /\ s' = scan_entry s e /\
    slice bytes (DIR_HEADER_BYTES + i * LEAF_RECORD_BYTES) (DIR_HEADER_BYTES + (i + 1) * LEAF_RECORD_BYTES)
      = Some (leaf_record e).
Proof.
  replace (DIR_HEADER_BYTES + (i + 1) * LEAF_RECORD_BYTES)
    with (DIR_HEADER_BYTES + i * LEAF_RECORD_BYTES + LEAF_RECORD_BYTES) by lia.
  unfold verify_leaf_record. split.
  - intros (e & [Hw Hs]%read_leaf_record_iff & Hk)%bind_Ok. exists e.
    apply bind_Ok in Hk as (x & Hx%ok_or_Ok & Hk). apply bind_Ok in Hk as (en & [_ He]%ok_or_Ok%checked_add_u64_Some & Hk).
    apply reject_Ok in Hk as [Hg Hk]. guards_in Hg. destruct Hg as [[[[[[H1 H2] H3] H4] H5] H6] H7].
    apply Ok_inj in Hk as <-. pose proof (ew_page e Hw) as Hu. unfold u32_ok in Hu. split; [|done].
    constructor; try done; lia.
  - intros (e & [] & -> & Hs). rewrite (proj2 (read_leaf_record_iff _ _ e)) by done. cbn [mbind result_bind].
    pose proof le_covered0 as Hc. unfold covered in Hc. destruct (ext !! DirEntry.object e) as [x|]; [|done].
    cbn [ok_or mbind result_bind]. rewrite (proj2 (checked_add_u64_Some _ _ _)) by done. cbn [ok_or mbind result_bind].
    rewrite le_covered0, (proj2 (Z.eqb_neq _ 0)), (proj2 (Z.ltb_ge n _)), (proj2 (Z.eqb_neq _ (lock_pgno ps))),
      (proj2 (Z.leb_gt _ _)), (proj2 (Z.eqb_neq (Z.land _ _) 0)), (proj2 (Z.eqb_neq (DirEntry.length e) 0)) by (done || lia).
    done.
Qed.

Fixpoint leaf_chain (page_size database_pages : Z) (extents : Extents) (previous : Z) (es : list DirectoryEntry) : Prop :=
  match es with
  | [] => True
  | e :: es => leaf_entry page_size database_pages extents previous e
               /\ leaf_chain page_size database_pages extents (DirEntry.page e) es
  end.

Lemma len_leaf_records es : len (concat (map leaf_record es)) = len es * LEAF_RECORD_BYTES.
Proof. induction es as [|e es IH]; [done|]. cbn [map concat]. rewrite len_app, len_leaf_record, len_cons, IH. lia. Qed.

Lemma verify_leaf_records_iff m bytes ps n ext i s s' :
  0 <= i -> DIR_HEADER_BYTES + (i + Z.of_nat m) * LEAF_RECORD_BYTES <= len bytes ->
  verify_leaf_records m bytes ps n ext i s = Ok s' <->
  exists es, length es = m /\ leaf_chain ps n ext (l_previous s) es /\ s' = foldl scan_entry s es /\
    slice bytes (DIR_HEADER_BYTES + i * LEAF_RECORD_BYTES) (DIR_HEADER_BYTES + (i + Z.of_nat m) * LEAF_RECORD_BYTES)
      = Some (concat (map leaf_record es)).
Proof.
  unfold DIR_HEADER_BYTES, LEAF_RECORD_BYTES. revert i s.
  induction m as [|m IH]; intros i s Hi Hb; cbn [verify_leaf_records].
  - rewrite Z.add_0_r in *. rewrite slice_empty by lia. split.
    + intros <-%Ok_inj. by exists [].
    + intros ([|] & ? & _ & -> & _); done.
  - rewrite Nat2Z.inj_succ in *. split.
    + intros (s1 & (e & He & -> & Hs)%verify_leaf_record_iff & Hk)%bind_Ok.
      apply IH in Hk as (es & <- & Hch & -> & Hs'); [|lia..]. exists (e :: es). split; [done|].
      split; [done|]. split; [done|]. cbn [map concat]. eapply slice_join; [done|].
      unfold DIR_HEADER_BYTES, LEAF_RECORD_BYTES in *.
      replace (i + Z.succ (Z.of_nat (length es))) with (i + 1 + Z.of_nat (length es)) by lia. done.
    + intros ([|e es] & Hl & Hch & -> & Hs); [done|]. injection Hl as Hl. destruct Hch as [He Hch].
      cbn [map concat] in Hs.
      apply (slice_cut _ _ _ _ (32 + (i + 1) * 88)) in Hs as [Hs1 Hs2];
        [|rewrite len_leaf_record; unfold LEAF_RECORD_BYTES; lia].
      rewrite (proj2 (verify_leaf_record_iff _ _ _ _ _ _ (scan_entry s e))) by eauto. cbn [mbind result_bind].
      apply IH; [lia..|]. exists es. split_and!; try done.
      replace (i + 1 + Z.of_nat m) with (i + Z.succ (Z.of_nat m)) by lia. done.
Qed.

(** ** The header *)

Lemma len_dir_header k e l c : len (dir_header k e l c) = DIR_HEADER_BYTES.
Proof. unfold dir_header. by autorewrite with len. Qed.

Lemma prefix_fields (p : list byte) :
  length p = 32%nat ->
  p = take 8 p ++ take 2 (drop 8 p) ++ take 1 (drop 10 p) ++ take 1 (drop 11 p) ++ take 4 (drop 12 p)
      ++ take 8 (drop 16 p) ++ take 8 (drop 24 p).
Proof.
  intros Hl. do 33 (destruct p as [|? p]; [simpl in Hl; lia || done|]). simpl in Hl. lia.
Qed.

Record header_ok (h : NodeHeader) : Prop := {
  ho_kind : DirHeader.kind h = 0 \/ DirHeader.kind h = 1;
  ho_entries : 0 < DirHeader.entries h <= FANOUT;
  ho_live : u64_ok (DirHeader.live_pages h);
  ho_checksum : u64_ok (DirHeader.checksum h)
}.
Definition record_bytes (kind : Z) : Z := if kind =? 0 then LEAF_RECORD_BYTES else BRANCH_RECORD_BYTES.

Lemma byte_zero b : byte_val b = 0 -> b = x00.
Proof. intros E. rewrite <- (byte_of_val b), E. done. Qed.
Lemma to_be_byte z : to_be 1 z = [byte_of z].
Proof. done. Qed.

Lemma field_mid n off a z b :
  length a = off -> 0 <= z < 256 ^ Z.of_nat n -> field n off (a ++ to_be n z ++ b) = z.
Proof. intros <- Hz. rewrite field_skip, Nat.sub_diag by lia. by apply field_here. Qed.

Lemma dir_header_fields k e l c :
  0 <= k < 256 -> u32_ok e -> u64_ok l -> u64_ok c ->
  let p := dir_header k e l c in
  take 8 p = DIR_MAGIC /\ field 2 8 p = 1 /\ field 1 10 p = k /\ field 1 11 p = 0 /\ field 4 12 p = e
  /\ field 8 16 p = l /\ field 8 24 p = c.
Proof.
  unfold u32_ok, u64_ok, u32_max, u64_max. intros Hk He Hl Hc. cbv zeta. unfold dir_header. split_and!; [done|done|..].
  - by apply (field_mid 1 10 (DIR_MAGIC ++ to_be 2 1) k).
  - by apply (field_mid 1 11 (DIR_MAGIC ++ to_be 2 1 ++ to_be 1 k) 0).
  - apply (field_mid 4 12 (DIR_MAGIC ++ to_be 2 1 ++ to_be 1 k ++ [x00]) e); [done|].
    change (256 ^ Z.of_nat 4) with 4294967296. lia.
  - apply (field_mid 8 16 (DIR_MAGIC ++ to_be 2 1 ++ to_be 1 k ++ [x00] ++ to_be 4 e) l); [done|].
    change (256 ^ Z.of_nat 8) with 18446744073709551616. lia.
  - rewrite <- (app_nil_r (to_be 8 c)).
    apply (field_mid 8 24 (DIR_MAGIC ++ to_be 2 1 ++ to_be 1 k ++ [x00] ++ to_be 4 e ++ to_be 8 l) c); [done|].
    change (256 ^ Z.of_nat 8) with 18446744073709551616. lia.
Qed.

Lemma dir_header_iff bytes h :
  dir_header_parse bytes = Ok h <->
  header_ok h /\ exists body,
    bytes = dir_header (DirHeader.kind h) (DirHeader.entries h) (DirHeader.live_pages h) (DirHeader.checksum h) ++ body
    /\ len body = DirHeader.entries h * record_bytes (DirHeader.kind h).
Proof.
  unfold dir_header_parse. split.
  - intros (p & Hp%ok_or_Ok & Hk)%bind_Ok. pose proof (slice_len _ _ _ _ Hp) as Hl.
    apply slice_split in Hp as (l1 & body & -> & Hl1). destruct l1; [|unfold len in Hl1; simpl in Hl1; lia].
    assert (length p = 32%nat) as Hlp by (unfold len, DIR_HEADER_BYTES in Hl; lia). clear Hl1 Hl.
    apply reject_Ok in Hk as [Hg Hk]. guards_in Hg. destruct Hg as [[[Hm Hv] Hkind] Hz].
    apply bool_decide_eq_false, dec_stable in Hm.
    apply reject_Ok in Hk as [Hg Hk]. guards_in Hg. destruct Hg as [He1 He2].
    apply reject_Ok in Hk as [Hlen Hk]. guards_in Hlen. apply Ok_inj in Hk as <-. cbn [app] in *.
    pose proof (field_bound 4 12 p ltac:(lia)) as B4. pose proof (field_bound 1 10 p ltac:(lia)) as B1.
    pose proof (field_bound 8 16 p ltac:(lia)) as B8. pose proof (field_bound 8 24 p ltac:(lia)) as B8'.
    change (256 ^ Z.of_nat 4) with 4294967296 in B4. change (256 ^ Z.of_nat 1) with 256 in B1.
    change (256 ^ Z.of_nat 8) with 18446744073709551616 in *.
    rewrite len_app in Hlen. assert (len p = 32) as Elp by (unfold len; lia). rewrite Elp in Hlen.
    split; [constructor; cbn [DirHeader.kind DirHeader.entries DirHeader.live_pages DirHeader.checksum]; unfold u64_ok, u64_max; lia|].
    exists body. cbn [DirHeader.kind DirHeader.entries DirHeader.live_pages DirHeader.checksum]. split.
    + f_equal. rewrite (prefix_fields p Hlp) at 1. unfold dir_header.
      rewrite !field_bytes by lia. rewrite Hm. rewrite <- Hv, field_bytes by lia. repeat f_equal.
      rewrite <- field_bytes by lia. by rewrite Hz.
    + unfold record_bytes. change DIR_HEADER_BYTES with 32 in Hlen. lia.
  - intros [[Hk He Hl Hc] (body & -> & Hb)]. destruct h as [k e l c]. cbn [DirHeader.kind DirHeader.entries DirHeader.live_pages DirHeader.checksum] in *.
    rewrite slice_here by (by rewrite len_dir_header). cbn [ok_or mbind result_bind].
    assert (u32_ok e) by (unfold u32_ok, u32_max, FANOUT in *; lia).
    destruct (dir_header_fields k e l c) as (-> & -> & -> & -> & -> & -> & ->); [lia|done..|].
    rewrite len_app, len_dir_header, Hb. unfold record_bytes.
    rewrite bool_decide_eq_false_2 by (intros Hn; by apply Hn).
    rewrite (proj2 (Z.ltb_ge 1 k)), (proj2 (Z.eqb_neq e 0)), (proj2 (Z.ltb_ge FANOUT e)), !Z.eqb_refl by lia. done.
Qed.

(** ** Leaves *)

Definition leaf_agg (es : list DirectoryEntry) : Aggregate :=
  Agg.Mk (len es) (xor_sum (map DirEntry.checksum es))
    (default 0 (DirEntry.page <$> head es)) (default 0 (DirEntry.page <$> last es)).

(** What [verify_leaf] accepts. *)
Record leaf_ok (page_size database_pages : Z) (extents : Extents) (es : list DirectoryEntry) : Prop := {
  lo_size : 0 < len es <= FANOUT;
  lo_chain : leaf_chain page_size database_pages extents 0 es;
  lo_group : (Agg.first (leaf_agg es) - 1) / FANOUT = (Agg.last (leaf_agg es) - 1) / FANOUT
}.

Lemma foldl_scan s es :
  0 <= l_first s -> Forall (fun e => 0 < DirEntry.page e) es ->
  foldl scan_entry s es =
  MkLeafScan (foldl Z.lxor (l_checksum s) (map DirEntry.checksum es))
    (if l_first s =? 0 then default 0 (DirEntry.page <$> head es) else l_first s)
    (default (l_last s) (DirEntry.page <$> last es)) (default (l_previous s) (DirEntry.page <$> last es))
    (l_entries s ++ es).
Proof.
  intros Hs Hf. revert s Hs. induction Hf as [|e es He _ IH]; intros s Hs.
  { destruct s; cbn in *. rewrite app_nil_r. f_equal. destruct (Z.eqb_spec l_first0 0); lia. }
  cbn [foldl]. rewrite IH by (cbn [scan_entry l_first]; destruct (_ =? 0); lia).
  cbn [scan_entry l_checksum l_first l_last l_previous l_entries map foldl head]. rewrite last_cons, <- app_assoc.
  destruct (Z.eqb_spec (l_first s) 0) as [E|E].
  - rewrite (proj2 (Z.eqb_neq (DirEntry.page e) 0)) by lia. by destruct (last es).
  - rewrite (proj2 (Z.eqb_neq (l_first s) 0)) by lia. by destruct (last es).
Qed.

Lemma leaf_chain_pages ps n ext previous es :
  0 <= previous -> leaf_chain ps n ext previous es -> Forall (fun e => previous < DirEntry.page e) es.
Proof.
  revert previous. induction es as [|e es IH]; intros previous Hp; cbn [leaf_chain]; [by constructor|].
  intros [[] Hch]. constructor; [done|]. eapply Forall_impl; [apply IH; [|done]; lia|]. simpl. lia.
Qed.
Lemma leaf_chain_entries ps n ext previous es :
  leaf_chain ps n ext previous es -> Forall (leaf_entry ps n ext 0) es.
Proof.
  revert previous. induction es as [|e es IH]; intros previous; cbn [leaf_chain]; [by constructor|].
  intros [[] Hch]. constructor; [|by eapply IH]. constructor; (done || lia).
Qed.

Lemma encode_leaf_records_iff b0 previous es bytes :
  0 <= previous ->
  encode_leaf_records b0 previous es = Ok bytes <->
  bytes = b0 ++ concat (map leaf_record es) /\ StronglySorted Z.lt (previous :: map DirEntry.page es)
  /\ Forall (fun e => DirEntry.length e <> 0) es.
Proof.
  revert b0 previous. induction es as [|e es IH]; intros b0 previous Hp; cbn [encode_leaf_records map concat].
  { rewrite app_nil_r. split; [intros <-%Ok_inj; by repeat constructor|by intros (-> & _)]. }
  split.
  - intros [Hg Hk]%reject_Ok. guards_in Hg. destruct Hg as [Hlt Hl].
    apply IH in Hk as (-> & Hs & Hf); [|lia]. rewrite <- app_assoc. split; [done|]. split; [|by constructor].
    apply StronglySorted_inv in Hs as [Hs Hall]. constructor; [by constructor|]. constructor; [done|].
    eapply Forall_impl; [done|]. simpl. lia.
  - intros (-> & Hs & [Hl Hf]%Forall_cons). apply StronglySorted_inv in Hs as [Hs Hall].
    apply Forall_cons in Hall as [Hlt Hall].
    rewrite (proj2 (Z.leb_gt _ _)), (proj2 (Z.eqb_neq _ _)) by done. cbn [orb].
    apply IH; [lia|]. by rewrite <- app_assoc.
Qed.

Lemma leaf_chain_sorted ps n ext previous es :
  leaf_chain ps n ext previous es -> 0 <= previous -> StronglySorted Z.lt (previous :: map DirEntry.page es).
Proof.
  revert previous. induction es as [|e es IH]; intros previous; cbn [leaf_chain map]; [by repeat constructor|].
  intros [[] Hch] Hp. specialize (IH _ Hch ltac:(lia)). constructor; [done|].
  apply StronglySorted_inv in IH as [_ Hall]. constructor; [done|]. eapply Forall_impl; [done|]. simpl. lia.
Qed.

Lemma leaf_chain_of_entries ps n ext previous es :
  StronglySorted Z.lt (previous :: map DirEntry.page es) -> Forall (leaf_entry ps n ext 0) es ->
  leaf_chain ps n ext previous es.
Proof.
  revert previous. induction es as [|e es IH]; intros previous Hs Hf; cbn [leaf_chain]; [done|].
  apply Forall_cons in Hf as [[] Hf]. cbn [map] in Hs. apply StronglySorted_inv in Hs as [Hs Hall].
  apply Forall_cons in Hall as [Hlt _]. split; [constructor; (done || lia)|]. by apply IH.
Qed.

Lemma xor_sum_foldl l : xor_sum l = Z.lor (foldl Z.lxor 0 l) CHECKSUM_FLAG.
Proof. done. Qed.

Lemma xor_sum_u64 l : Forall u64_ok l -> u64_ok (xor_sum l).
Proof.
  intros Hf. unfold xor_sum. rewrite Z.lor_comm. apply lor_flag_u64.
  cut (forall a, u64_ok a -> u64_ok (foldl Z.lxor a l)); [intros Hc; apply Hc; unfold u64_ok, u64_max; lia|].
  induction Hf as [|x l Hx _ IH]; intros a Ha; [done|]. cbn [foldl]. by apply IH, lxor_u64.
Qed.

Lemma verify_leaf_sound ps n ext bytes h a es :
  dir_header_parse bytes = Ok h -> DirHeader.kind h = 0 -> verify_leaf bytes h ps n ext = Ok (a, es) ->
  encode_leaf es = Ok bytes /\ leaf_ok ps n ext es /\ a = leaf_agg es.
Proof.
  intros Hh Hk Hv. apply dir_header_iff in Hh as [[_ He Hl Hc] (body & -> & Hb)].
  rewrite Hk in Hb. unfold record_bytes in Hb. cbn [Z.eqb] in Hb. unfold verify_leaf in Hv.
  apply bind_Ok in Hv as (s & Hs & Hv).
  apply verify_leaf_records_iff in Hs as (es' & Hlen & Hch & -> & Hsl); [|lia|
    rewrite len_app, len_dir_header, Hb, Z.add_0_l, Z2Nat.id by lia; lia].
  rewrite Z2Nat.id, !Z.add_0_l, Z.mul_0_l, Z.add_0_r in Hsl by lia. cbn [l_previous] in Hch.
  rewrite foldl_scan in Hv; [|done|by eapply leaf_chain_pages]. cbn [l_first l_last l_entries l_checksum Z.eqb app] in Hv.
  apply reject_Ok in Hv as [Hg Hv]. guards_in Hg. apply reject_Ok in Hv as [Hg2 Hv]. guards_in Hg2.
  cbn [Agg.live_pages Agg.checksum] in *. destruct Hg2 as [Hlive Hck].
  apply Ok_inj in Hv. injection Hv as <- <-.
  rewrite slice_skip, len_dir_header, Z.sub_diag in Hsl by (by rewrite len_dir_header).
  replace (DIR_HEADER_BYTES + DirHeader.entries h * LEAF_RECORD_BYTES - DIR_HEADER_BYTES) with (len body) in Hsl by lia.
  rewrite slice_all in Hsl. injection Hsl as ->.
  assert (len es' = DirHeader.entries h) as Hes by (unfold len; lia).
  split_and!.
  + unfold encode_leaf. rewrite (proj2 (Z.eqb_neq _ 0)), (proj2 (Z.ltb_ge _ _)) by lia. cbn [orb].
    apply encode_leaf_records_iff; [done|]. rewrite Hk, <- Hlive, <- Hck, Hes. split; [done|]. split.
    * eapply leaf_chain_sorted; [done|lia].
    * apply leaf_chain_entries in Hch. eapply Forall_impl; [done|]. by intros ? [].
  + constructor; [by rewrite Hes|done|done].
  + unfold leaf_agg. by rewrite Hes.
Qed.

Lemma verify_leaf_complete ps n ext bytes es :
  encode_leaf es = Ok bytes -> leaf_ok ps n ext es ->
  exists h, dir_header_parse bytes = Ok h /\ DirHeader.kind h = 0 /\ verify_leaf bytes h ps n ext = Ok (leaf_agg es, es).
Proof.
  intros Henc [Hsz Hch Hgr]. unfold encode_leaf in Henc. apply reject_Ok in Henc as [_ Henc].
  apply encode_leaf_records_iff in Henc as (-> & _ & _); [|done].
  pose proof (leaf_chain_entries _ _ _ _ _ Hch) as Hent.
  set (h := DirHeader.Mk 0 (len es) (len es) (xor_sum (map DirEntry.checksum es))).
  assert (dir_header_parse (dir_header 0 (len es) (len es) (xor_sum (map DirEntry.checksum es))
            ++ concat (map leaf_record es)) = Ok h) as Hp.
  { apply dir_header_iff. split.
    - constructor; cbn [h DirHeader.kind DirHeader.entries DirHeader.live_pages DirHeader.checksum]; [by left|done|
        unfold u64_ok, u64_max, FANOUT in *; lia|].
      apply xor_sum_u64, Forall_map. eapply Forall_impl; [done|]. by intros ? [[]].
    - eexists. split; [done|]. by rewrite len_leaf_records. }
  exists h. split; [done|]. split; [done|]. unfold verify_leaf.
  set (bytes := _ ++ _). assert (len bytes = DIR_HEADER_BYTES + len es * LEAF_RECORD_BYTES) as Hlb
    by (unfold bytes; by rewrite len_app, len_dir_header, len_leaf_records).
  assert (verify_leaf_records (Z.to_nat (DirHeader.entries h)) bytes ps n ext 0 (MkLeafScan 0 0 0 0 [])
          = Ok (foldl scan_entry (MkLeafScan 0 0 0 0 []) es)) as ->.
  { apply verify_leaf_records_iff; [done|cbn [h DirHeader.entries]; rewrite Z2Nat.id; lia|].
    exists es. cbn [h DirHeader.entries l_previous]. split_and!; try done; [unfold len; lia|].
    rewrite Z2Nat.id by lia. rewrite Z.mul_0_l, Z.add_0_r, Z.add_0_l. unfold bytes.
    rewrite slice_skip, len_dir_header, Z.sub_diag by (by rewrite len_dir_header).
    rewrite <- (slice_all (concat (map leaf_record es))). rewrite len_leaf_records. f_equal. lia. }
  cbn [mbind result_bind]. rewrite foldl_scan; [|done|by eapply leaf_chain_pages].
  cbn [l_first l_last l_entries l_checksum Z.eqb app h DirHeader.entries DirHeader.live_pages DirHeader.checksum Agg.live_pages Agg.checksum].
  unfold leaf_agg in Hgr. cbn [Agg.first Agg.last] in Hgr. rewrite Hgr, Z.eqb_refl. cbn [negb].
  by rewrite <- xor_sum_foldl, !Z.eqb_refl.
Qed.

(** ** Branches *)

Record child_widths (c : Node) : Prop := {
  cw_first : u32_ok (Agg.first (Node.aggregate c));
  cw_last : u32_ok (Agg.last (Node.aggregate c));
  cw_live : u64_ok (Agg.live_pages (Node.aggregate c));
  cw_checksum : u64_ok (Agg.checksum (Node.aggregate c))
}.

Lemma len_child_record c : len (child_record c) = BRANCH_RECORD_BYTES.
Proof. unfold child_record. by autorewrite with len. Qed.
Lemma len_child_records cs : len (concat (map child_record cs)) = len cs * BRANCH_RECORD_BYTES.
Proof. induction cs as [|c cs IH]; [done|]. cbn [map concat]. rewrite len_app, len_child_record, len_cons, IH. lia. Qed.

Lemma read_child_iff bytes start c :
  read_child bytes start = Ok c <->
  child_widths c /\ Node.index c = 0 /\ slice bytes start (start + BRANCH_RECORD_BYTES) = Some (child_record c).
Proof.
  unfold read_child, read_u32, read_u64, read_digest, BRANCH_RECORD_BYTES. split.
  - intros (f & [Hf1 Hf2]%ok_or_Ok%get_u32_Some & Hk)%bind_Ok.
    apply bind_Ok in Hk as (l & [Hl1 Hl2]%ok_or_Ok%get_u32_Some & Hk).
    apply bind_Ok in Hk as (d & Hd%ok_or_Ok%get_digest_Some & Hk).
    apply bind_Ok in Hk as (n & [Hn1 Hn2]%ok_or_Ok%get_u64_Some & Hk).
    apply bind_Ok in Hk as (c0 & [Hc1 Hc2]%ok_or_Ok%get_u64_Some & Hk). apply Ok_inj in Hk as <-.
    split; [done|]. split; [done|]. unfold child_record.
    cbn [Node.aggregate Node.digest Agg.first Agg.last Agg.live_pages Agg.checksum].
    replace (start + 8) with (start + 4 + 4) in Hd by lia. replace (start + 40) with (start + 4 + 4 + 32) in Hn2 by lia.
    replace (start + 48) with (start + 4 + 4 + 32 + 8) in Hc2 by lia.
    replace (start + 56) with (start + 4 + 4 + 32 + 8 + 8) by lia.
    repeat (eapply slice_join; [eassumption|]). done.
  - intros ([] & Hi & Hs). rewrite <- (Z.add_0_r start) at 1.
    pose proof (len_child_record c) as Hl. unfold BRANCH_RECORD_BYTES in Hl.
    rewrite !(get_be_slice 4 _ _ _ _ _ Hs), !(get_be_slice 8 _ _ _ _ _ Hs), !(get_array_slice 32 _ _ _ _ _ Hs) by lia.
    unfold child_record. rewrite <- (app_nil_r (to_be 8 (Agg.checksum (Node.aggregate c)))). eval_gets.
    destruct c as [? ? []]. cbn in *. by rewrite Hi.
Qed.

(** A child a branch may hold after the page [previous]. *)
Record child_ok (previous : Z) (c : Node) : Prop := {
  co_widths : child_widths c;
  co_first : 0 < Agg.first (Node.aggregate c) <= Agg.last (Node.aggregate c);
  co_order : previous < Agg.first (Node.aggregate c);
  co_live : Agg.live_pages (Node.aggregate c) <> 0;
  co_flag : Z.land (Agg.checksum (Node.aggregate c)) CHECKSUM_FLAG <> 0
}.

Definition scan_child (s : BranchScan) (c : Node) : BranchScan :=
  let a := Node.aggregate c in
  MkBranchScan (b_live s + Agg.live_pages a) (Z.lxor (b_checksum s) (Agg.checksum a))
    (if b_first s =? 0 then Agg.first a else b_first s) (Agg.last a) (b_children s ++ [c]).

Lemma verify_child_iff bytes i s s' :
  verify_child bytes i s = Ok s' <->
  exists c, child_ok (b_last s) c /\ Node.index c = 0 /\ b_live s + Agg.live_pages (Node.aggregate c) <= u64_max
    /\ s' = scan_child s c /\
    slice bytes (DIR_HEADER_BYTES + i * BRANCH_RECORD_BYTES) (DIR_HEADER_BYTES + (i + 1) * BRANCH_RECORD_BYTES)
      = Some (child_record c).
Proof.
  replace (DIR_HEADER_BYTES + (i + 1) * BRANCH_RECORD_BYTES)
    with (DIR_HEADER_BYTES + i * BRANCH_RECORD_BYTES + BRANCH_RECORD_BYTES) by lia.
  unfold verify_child. split.
  - intros (c & (Hw & Hi & Hs)%read_child_iff & Hk)%bind_Ok. exists c.
    apply reject_Ok in Hk as [Hg Hk]. guards_in Hg. destruct Hg as [[[[H1 H2] H3] H4] H5].
    apply bind_Ok in Hk as (l & [-> Hl]%ok_or_Ok%checked_add_u64_Some & Hk). apply Ok_inj in Hk as <-.
    pose proof (cw_first c Hw) as Hu. unfold u32_ok in Hu. split_and!; try done. constructor; (done || lia).
  - intros (c & [] & Hi & Hl & -> & Hs). rewrite (proj2 (read_child_iff _ _ c)) by done. cbn [mbind result_bind].
    rewrite (proj2 (Z.eqb_neq (Agg.first _) 0)), (proj2 (Z.ltb_ge _ _)), (proj2 (Z.leb_gt _ _)),
      (proj2 (Z.eqb_neq (Agg.live_pages _) 0)), (proj2 (Z.eqb_neq (Z.land _ _) 0)) by (done || lia). cbn [orb].
    by rewrite (proj2 (checked_add_u64_Some (b_live s) _ (b_live s + Agg.live_pages (Node.aggregate c)))).
Qed.

Fixpoint branch_chain (live previous : Z) (cs : list Node) : Prop :=
  match cs with
  | [] => True
  | c :: cs =>
      let a := Node.aggregate c in
      child_ok previous c /\ live + Agg.live_pages a <= u64_max
      /\ branch_chain (live + Agg.live_pages a) (Agg.last a) cs
  end.

Lemma verify_children_iff m bytes i s s' :
  0 <= i -> DIR_HEADER_BYTES + (i + Z.of_nat m) * BRANCH_RECORD_BYTES <= len bytes ->
  verify_children m bytes i s = Ok s' <->
  exists cs, length cs = m /\ branch_chain (b_live s) (b_last s) cs /\ Forall (fun c => Node.index c = 0) cs
    /\ s' = foldl scan_child s cs /\
    slice bytes (DIR_HEADER_BYTES + i * BRANCH_RECORD_BYTES) (DIR_HEADER_BYTES + (i + Z.of_nat m) * BRANCH_RECORD_BYTES)
      = Some (concat (map child_record cs)).
Proof.
  unfold DIR_HEADER_BYTES, BRANCH_RECORD_BYTES. revert i s.
  induction m as [|m IH]; intros i s Hi Hb; cbn [verify_children].
  - rewrite Z.add_0_r in *. rewrite slice_empty by lia. split.
    + intros <-%Ok_inj. by exists [].
    + intros ([|] & ? & _ & _ & -> & _); done.
  - rewrite Nat2Z.inj_succ in *. split.
    + intros (s1 & (c & Hc & H0 & Hl & -> & Hs)%verify_child_iff & Hk)%bind_Ok.
      apply IH in Hk as (cs & <- & Hch & Hf & -> & Hs'); [|lia..]. exists (c :: cs). split; [done|].
      split; [done|]. split; [by constructor|]. split; [done|]. cbn [map concat]. eapply slice_join; [done|].
      unfold DIR_HEADER_BYTES, BRANCH_RECORD_BYTES in *.
      replace (i + Z.succ (Z.of_nat (length cs))) with (i + 1 + Z.of_nat (length cs)) by lia. done.
    + intros ([|c cs] & Hl & Hch & Hf & -> & Hs); [done|]. injection Hl as Hl. destruct Hch as (Hc & Hle & Hch).
      apply Forall_cons in Hf as [H0 Hf]. cbn [map concat] in Hs.
      apply (slice_cut _ _ _ _ (32 + (i + 1) * 56)) in Hs as [Hs1 Hs2];
        [|rewrite len_child_record; unfold BRANCH_RECORD_BYTES; lia].
      rewrite (proj2 (verify_child_iff _ _ _ (scan_child s c))) by eauto 10. cbn [mbind result_bind].
      apply IH; [lia..|]. exists cs. split_and!; try done.
      replace (i + 1 + Z.of_nat m) with (i + Z.succ (Z.of_nat m)) by lia. done.
Qed.

Definition total_live (cs : list Node) : Z := sum_by (fun c => Agg.live_pages (Node.aggregate c)) cs.
Definition branch_agg (cs : list Node) : Aggregate :=
  Agg.Mk (total_live cs) (xor_sum (map (fun c => Agg.checksum (Node.aggregate c)) cs))
    (default 0 ((fun c => Agg.first (Node.aggregate c)) <$> head cs))
    (default 0 ((fun c => Agg.last (Node.aggregate c)) <$> last cs)).

(** What [verify_branch] accepts. *)
Record branch_ok (cs : list Node) : Prop := {
  bo_size : 0 < len cs <= FANOUT;
  bo_chain : branch_chain 0 0 cs
}.

Lemma foldl_scan_child s cs :
  0 <= b_first s -> Forall (fun c => 0 < Agg.first (Node.aggregate c)) cs ->
  foldl scan_child s cs =
  MkBranchScan (b_live s + total_live cs)
    (foldl Z.lxor (b_checksum s) (map (fun c => Agg.checksum (Node.aggregate c)) cs))
    (if b_first s =? 0 then default 0 ((fun c => Agg.first (Node.aggregate c)) <$> head cs) else b_first s)
    (default (b_last s) ((fun c => Agg.last (Node.aggregate c)) <$> last cs)) (b_children s ++ cs).
Proof.
  intros Hs Hf. revert s Hs. induction Hf as [|c cs Hc _ IH]; intros s Hs.
  { destruct s; cbn in *. rewrite app_nil_r, Z.add_0_r. f_equal. destruct (Z.eqb_spec b_first0 0); lia. }
  cbn [foldl]. rewrite IH by (cbn [scan_child b_first]; destruct (_ =? 0); lia).
  cbn [scan_child b_live b_checksum b_first b_last b_children map foldl head]. rewrite last_cons, <- app_assoc.
  unfold total_live. rewrite sum_by_cons. rewrite Z.add_assoc.
  destruct (Z.eqb_spec (b_first s) 0) as [E|E].
  - rewrite (proj2 (Z.eqb_neq (Agg.first _) 0)) by lia. by destruct (last cs).
  - rewrite (proj2 (Z.eqb_neq (b_first s) 0)) by lia. by destruct (last cs).
Qed.

Lemma branch_chain_children live previous cs :
  branch_chain live previous cs -> 0 <= previous -> Forall (fun c => child_ok 0 c /\ previous < Agg.first (Node.aggregate c)) cs.
Proof.
  revert live previous. induction cs as [|c cs IH]; intros live previous; cbn [branch_chain]; [by constructor|].
  intros ([] & _ & Hch) Hp. constructor; [split; [constructor; (done || lia)|done]|].
  eapply Forall_impl; [apply (IH _ _ Hch); lia|]. simpl. intros ? [? ?]. split; [done|lia].
Qed.

Lemma sum_live_iff total cs live :
  sum_live total cs = Ok live ->
  live = total + total_live cs.
Proof.
  revert total. induction cs as [|c cs IH]; intros total; cbn [sum_live]; unfold total_live; rewrite ?sum_by_cons, ?sum_by_nil.
  { intros <-%Ok_inj. lia. }
  intros (t & [-> Ht]%ok_or_Ok%checked_add_u64_Some & Hk)%bind_Ok. apply IH in Hk. unfold total_live in Hk. lia.
Qed.
Lemma sum_live_chain total previous cs :
  branch_chain total previous cs -> sum_live total cs = Ok (total + total_live cs).
Proof.
  revert total previous. induction cs as [|c cs IH]; intros total previous; cbn [branch_chain sum_live]; unfold total_live; rewrite ?sum_by_cons, ?sum_by_nil.
  { intros _. f_equal. lia. }
  intros (Hc & Hl & Hch). rewrite (proj2 (checked_add_u64_Some total _ (total + Agg.live_pages (Node.aggregate c)))) by done.
  cbn [ok_or mbind result_bind]. rewrite (IH _ _ Hch). f_equal. unfold total_live. lia.
Qed.

Lemma encode_children_ok b0 live previous cs :
  branch_chain live previous cs -> encode_children b0 previous cs = Ok (b0 ++ concat (map child_record cs)).
Proof.
  revert b0 live previous. induction cs as [|c cs IH]; intros b0 live previous; cbn [branch_chain encode_children map concat].
  { by rewrite app_nil_r. }
  intros ([] & _ & Hch). rewrite (proj2 (Z.eqb_neq (Agg.first _) 0)), (proj2 (Z.leb_gt _ _)), (proj2 (Z.ltb_ge _ _)) by lia.
  cbn [orb]. rewrite (IH _ _ _ Hch). by rewrite <- app_assoc.
Qed.
Lemma encode_branch_ok cs :
  branch_ok cs ->
  encode_branch cs = Ok (dir_header 1 (len cs) (Agg.live_pages (branch_agg cs)) (Agg.checksum (branch_agg cs))
                           ++ concat (map child_record cs)).
Proof.
  intros [Hs Hch]. unfold encode_branch. rewrite (proj2 (Z.eqb_neq _ 0)), (proj2 (Z.ltb_ge _ _)) by lia. cbn [orb].
  rewrite (sum_live_chain _ _ _ Hch). cbn [mbind result_bind]. by rewrite (encode_children_ok _ _ _ _ Hch).
Qed.
Lemma branch_agg_widths cs :
  branch_ok cs -> u64_ok (Agg.live_pages (branch_agg cs)) /\ u64_ok (Agg.checksum (branch_agg cs)).
Proof.
  intros [Hs Hch]. pose proof (branch_chain_children _ _ _ Hch ltac:(lia)) as Hf. split.
  - cbn [branch_agg Agg.live_pages]. cut (forall previous live, 0 <= live <= u64_max -> branch_chain live previous cs -> u64_ok (live + total_live cs)).
    { intros Hc. apply (Hc 0 0); [unfold u64_max; lia|done]. }
    clear. induction cs as [|c cs IH]; intros previous live Hl; cbn [branch_chain]; unfold total_live, u64_ok in *; rewrite ?sum_by_cons, ?sum_by_nil.
    { lia. }
    intros ([[] ? ? ? ?] & Hle & Hch). unfold u64_ok in *. rewrite Z.add_assoc. eapply IH; [|done]. lia.
  - apply xor_sum_u64, Forall_map. eapply Forall_impl; [done|]. by intros ? [[[]] _].
Qed.

Lemma verify_branch_sound bytes h a cs :
  dir_header_parse bytes = Ok h -> DirHeader.kind h = 1 -> verify_branch bytes h = Ok (a, cs) ->
  encode_branch cs = Ok bytes /\ branch_ok cs /\ a = branch_agg cs /\ Forall (fun c => Node.index c = 0) cs.
Proof.
  intros [[_ He Hl Hc] (body & -> & Hb)]%dir_header_iff Hk Hv.
  rewrite Hk in Hb. unfold record_bytes in Hb. cbn [Z.eqb] in Hb. unfold verify_branch in Hv.
  apply bind_Ok in Hv as (s & Hs & Hv).
  apply verify_children_iff in Hs as (cs' & Hlen & Hch & Hf & -> & Hsl); [|lia|
    rewrite len_app, len_dir_header, Hb, Z.add_0_l, Z2Nat.id by lia; lia].
  rewrite Z2Nat.id, !Z.add_0_l, Z.mul_0_l, Z.add_0_r in Hsl by lia. cbn [b_live b_last] in Hch.
  pose proof (branch_chain_children _ _ _ Hch ltac:(lia)) as Hcs.
  rewrite foldl_scan_child in Hv; [|done|eapply Forall_impl; [done|]; simpl; lia].
  cbn [b_live b_first b_last b_children b_checksum Z.eqb app] in Hv. rewrite Z.add_0_l in Hv.
  apply reject_Ok in Hv as [Hg2 Hv]. guards_in Hg2.
  cbn [Agg.live_pages Agg.checksum] in *. destruct Hg2 as [Hlive Hck]. apply Ok_inj in Hv. injection Hv as <- <-.
  rewrite slice_skip, len_dir_header, Z.sub_diag in Hsl by (by rewrite len_dir_header).
  replace (DIR_HEADER_BYTES + DirHeader.entries h * BRANCH_RECORD_BYTES - DIR_HEADER_BYTES) with (len body) in Hsl by lia.
  rewrite slice_all in Hsl. injection Hsl as ->.
  assert (len cs' = DirHeader.entries h) as Hes by (unfold len; lia).
  assert (branch_ok cs') as Hok by (constructor; [by rewrite Hes|done]).
  split_and!; try done. rewrite (encode_branch_ok _ Hok). by rewrite Hk, Hes, <- Hlive, <- Hck.
Qed.

Lemma verify_branch_complete cs bytes :
  encode_branch cs = Ok bytes -> branch_ok cs -> Forall (fun c => Node.index c = 0) cs ->
  exists h, dir_header_parse bytes = Ok h /\ DirHeader.kind h = 1 /\ verify_branch bytes h = Ok (branch_agg cs, cs).
Proof.
  intros Henc Hok Hf. rewrite (encode_branch_ok _ Hok) in Henc. apply Ok_inj in Henc as <-.
  destruct (branch_agg_widths _ Hok) as [Hu1 Hu2]. destruct Hok as [Hsz Hch].
  pose proof (branch_chain_children _ _ _ Hch ltac:(lia)) as Hcs.
  set (h := DirHeader.Mk 1 (len cs) (Agg.live_pages (branch_agg cs)) (Agg.checksum (branch_agg cs))). exists h.
  set (bytes := _ ++ _). assert (len bytes = DIR_HEADER_BYTES + len cs * BRANCH_RECORD_BYTES) as Hlb
    by (unfold bytes; by rewrite len_app, len_dir_header, len_child_records).
  split_and!; [|done|].
  { apply dir_header_iff. split; [by constructor; cbn; [right|..]|]. eexists. split; [done|]. by rewrite len_child_records. }
  unfold verify_branch.
  assert (verify_children (Z.to_nat (DirHeader.entries h)) bytes 0 (MkBranchScan 0 0 0 0 [])
          = Ok (foldl scan_child (MkBranchScan 0 0 0 0 []) cs)) as ->.
  { apply verify_children_iff; [done|cbn [h DirHeader.entries]; rewrite Z2Nat.id; lia|].
    exists cs. cbn [h DirHeader.entries b_live b_last]. split_and!; try done; [unfold len; lia|].
    rewrite Z2Nat.id by lia. rewrite Z.mul_0_l, Z.add_0_r, Z.add_0_l. unfold bytes.
    rewrite slice_skip, len_dir_header, Z.sub_diag by (by rewrite len_dir_header).
    rewrite <- (slice_all (concat (map child_record cs))). rewrite len_child_records. f_equal. lia. }
  cbn [mbind result_bind]. rewrite foldl_scan_child; [|done|eapply Forall_impl; [done|]; simpl; lia].
  cbn [b_live b_first b_last b_children b_checksum Z.eqb app h DirHeader.live_pages DirHeader.checksum Agg.live_pages Agg.checksum branch_agg].
  by rewrite <- xor_sum_foldl, Z.add_0_l, !Z.eqb_refl.
Qed.

Lemma encode_branch_chain cs bytes :
  encode_branch cs = Ok bytes ->
  Forall (fun c => child_widths c /\ Agg.live_pages (Node.aggregate c) <> 0
                   /\ Z.land (Agg.checksum (Node.aggregate c)) CHECKSUM_FLAG <> 0) cs ->
  branch_ok cs.
Proof.
  unfold encode_branch. intros [Hg Hk]%reject_Ok Hf. guards_in Hg. apply bind_Ok in Hk as (live & Hlive & Hk).
  constructor; [pose proof (len_nonneg cs); lia|].
  revert Hlive Hk. generalize (dir_header 1 (len cs) live (xor_sum (map (fun c => Agg.checksum (Node.aggregate c)) cs))).
  generalize 0 at 2 4. generalize 0. clear Hg.
  induction Hf as [|c cs (Hw & Hl & Hfl) _ IH]; intros total previous b0 Hlive Hk; [done|].
  cbn [encode_children] in Hk. apply reject_Ok in Hk as [Hg Hk]. guards_in Hg. destruct Hg as [[H1 H2] H3].
  cbn [sum_live] in Hlive. apply bind_Ok in Hlive as (t & [-> Ht]%ok_or_Ok%checked_add_u64_Some & Hlive).
  cbn [branch_chain]. pose proof (cw_first c Hw) as Hu. unfold u32_ok in Hu.
  split; [constructor; (done || lia)|]. split; [done|]. by eapply IH.
Qed.

(** The encoders ignore the position of a child. *)
Definition at_index (i : Z) (c : Node) : Node := Node.Mk i (Node.digest c) (Node.aggregate c).
Lemma encode_branch_at cs (f : Node -> Z) : encode_branch (map (fun c => at_index (f c) c) cs) = encode_branch cs.
Proof.
  unfold encode_branch. replace (len (map _ cs)) with (len cs) by (unfold len; by rewrite length_map).
  rewrite map_map. change (fun x => Agg.checksum (Node.aggregate (at_index (f x) x)))
    with (fun c => Agg.checksum (Node.aggregate c)). destruct (_ || _); [done|].
  assert (forall total, sum_live total (map (fun c => at_index (f c) c) cs) = sum_live total cs) as ->.
  { induction cs as [|c cs IH]; intros total; [done|]. cbn [map sum_live at_index Node.aggregate].
    destruct (ok_or _ _); cbn [mbind result_bind]; [apply IH|done]. }
  destruct (sum_live 0 cs) as [live|]; cbn [mbind result_bind]; [|done]. generalize (dir_header 1 (len cs) live
    (xor_sum (map (fun c => Agg.checksum (Node.aggregate c)) cs))) as b0. generalize 0 as prev.
  induction cs as [|c cs IH]; intros prev b0; [done|]. cbn [map encode_children at_index Node.aggregate].
  destruct (_ || _); [done|]. apply IH.
Qed.

Section Digests.
Context `{Blake3}.

Lemma read_u32_slice bytes off z : u32_ok z -> slice bytes off (off + 4) = Some (to_be 4 z) -> read_u32 bytes off = Ok z.
Proof. intros Hu Hs. unfold read_u32. by rewrite (proj2 (get_u32_Some _ _ _) (conj Hu Hs)). Qed.

Lemma from_bytes_leaf i es bytes :
  encode_leaf es = Ok bytes -> Forall entry_widths es -> from_bytes i bytes = Ok (Node.Mk i (blake3 bytes) (leaf_agg es)).
Proof.
  unfold encode_leaf. intros [Hg Henc]%reject_Ok Hw. guards_in Hg.
  apply encode_leaf_records_iff in Henc as (-> & _ & _); [|done].
  set (bytes := _ ++ _). unfold from_bytes.
  assert (dir_header_parse bytes = Ok (DirHeader.Mk 0 (len es) (len es) (xor_sum (map DirEntry.checksum es)))) as ->.
  { apply dir_header_iff. split.
    - pose proof (len_nonneg es). constructor; cbn; [by left|lia|unfold u64_ok, u64_max, FANOUT in *; lia|].
      apply xor_sum_u64, Forall_map. eapply Forall_impl; [done|]. by intros ? [].
    - eexists. split; [done|]. by rewrite len_leaf_records. }
  cbn [mbind result_bind DirHeader.kind DirHeader.entries Z.eqb].
  destruct es as [|e es]; [destruct Hg; done|]. pose proof Hw as [[Hwe _ _ _] _]%Forall_cons.
  destruct (exists_last (l := e :: es)) as (es' & e' & Elast); [done|].
  rewrite (read_u32_slice bytes DIR_HEADER_BYTES (DirEntry.page e)); [|done|].
  2: { unfold bytes. cbn [map concat]. unfold leaf_record at 1. rewrite <- !app_assoc.
       by apply slice_app; rewrite len_dir_header, ?len_to_be. }
  cbn [mbind result_bind].
  rewrite (read_u32_slice _ _ (DirEntry.page e')); cycle 1.
  { rewrite Elast in Hw. apply Forall_app in Hw as [_ [[Hw' _ _ _] _]%Forall_cons]. done. }
  { unfold bytes. replace (concat (map leaf_record (e :: es))) with (concat (map leaf_record es') ++ leaf_record e')
      by (rewrite Elast, map_app, concat_app; cbn [map concat]; by rewrite app_nil_r).
    unfold leaf_record at 2. rewrite app_assoc. apply slice_app; rewrite len_app, len_dir_header, len_leaf_records;
      rewrite ?len_to_be, Elast, len_app, len_cons, len_nil; lia. }
  cbn [mbind result_bind DirHeader.live_pages DirHeader.checksum]. unfold leaf_agg. rewrite Elast, last_snoc, <- Elast. done.
Qed.

Lemma from_bytes_branch i cs bytes :
  encode_branch cs = Ok bytes -> branch_ok cs -> from_bytes i bytes = Ok (Node.Mk i (blake3 bytes) (branch_agg cs)).
Proof.
  intros Henc Hok. rewrite (encode_branch_ok _ Hok) in Henc. apply Ok_inj in Henc as <-.
  destruct (branch_agg_widths _ Hok) as [Hu1 Hu2]. destruct Hok as [Hsz Hch].
  pose proof (branch_chain_children _ _ _ Hch ltac:(lia)) as Hcs.
  set (bytes := _ ++ _). unfold from_bytes.
  assert (dir_header_parse bytes = Ok (DirHeader.Mk 1 (len cs) (Agg.live_pages (branch_agg cs)) (Agg.checksum (branch_agg cs)))) as ->.
  { apply dir_header_iff. split; [by constructor; cbn; [right|..]|]. eexists. split; [done|]. by rewrite len_child_records. }
  cbn [mbind result_bind DirHeader.kind DirHeader.entries Z.eqb].
  destruct cs as [|c cs]; [unfold len in Hsz; simpl in Hsz; lia|]. pose proof Hcs as [[[[Hf _ _ _] _ _ _ _] _] _]%Forall_cons.
  destruct (exists_last (l := c :: cs)) as (cs' & c' & Elast); [done|].
  rewrite (read_u32_slice bytes DIR_HEADER_BYTES (Agg.first (Node.aggregate c))); [|done|].
  2: { unfold bytes. cbn [map concat]. unfold child_record at 1. rewrite <- !app_assoc.
       by apply slice_app; rewrite len_dir_header, ?len_to_be. }
  cbn [mbind result_bind].
  rewrite (read_u32_slice _ _ (Agg.last (Node.aggregate c'))); cycle 1.
  { rewrite Elast in Hcs. apply Forall_app in Hcs as [_ [[[[_ Hl _ _] _ _ _ _] _] _]%Forall_cons]. done. }
  { unfold bytes. replace (concat (map child_record (c :: cs))) with (concat (map child_record cs') ++ child_record c')
      by (rewrite Elast, map_app, concat_app; cbn [map concat]; by rewrite app_nil_r).
    unfold child_record at 2. rewrite app_assoc, (app_assoc _ (to_be 4 (Agg.first _))).
    apply slice_app; rewrite !len_app, len_dir_header, len_child_records; rewrite ?len_to_be, Elast, len_app, len_cons, len_nil; lia. }
  cbn [mbind result_bind DirHeader.live_pages DirHeader.checksum]. unfold branch_agg at 3. rewrite Elast, last_snoc, <- Elast. done.
Qed.
End Digests.

(** C16: directory nodes have one encoding. A leaf passes the header check and
    [verify_leaf] with the entries [es] exactly when it is [encode_leaf es] and
    these entries are at least one and at most 256, belong to one group of 256 pages,
    ascend within the database, skip the lock page, carry flagged checksums and lie in
    the known extents; its aggregate is then the one computed from the entries. The
    same holds of a branch and its children under the rules of [branch_ok]. *)
Theorem directory_node_exact ps n ext bytes :
  (forall a es,
     (exists h, dir_header_parse bytes = Ok h /\ DirHeader.kind h = 0 /\ verify_leaf bytes h ps n ext = Ok (a, es))
     <-> encode_leaf es = Ok bytes /\ leaf_ok ps n ext es /\ a = leaf_agg es)
  /\ (forall a cs,
     (exists h, dir_header_parse bytes = Ok h /\ DirHeader.kind h = 1 /\ verify_branch bytes h = Ok (a, cs))
     <-> encode_branch cs = Ok bytes /\ branch_ok cs /\ a = branch_agg cs /\ Forall (fun c => Node.index c = 0) cs).
Proof.
  split; intros a l; split.
  - intros (h & H1 & H2 & H3). by eapply verify_leaf_sound.
  - intros (H1 & H2 & ->). by apply verify_leaf_complete.
  - intros (h & H1 & H2 & H3). by eapply verify_branch_sound.
  - intros (H1 & H2 & -> & H3). by apply verify_branch_complete.
Qed.
