(* ===== verification/ReplicaCache.v ===== *)
(** * ReplicaCache: the process-wide cache of verified immutable objects

    Models [crates/cellule-ltx/src/replica/cache.rs]: bytes of root and directory
    objects under a key made of the store, the object path and the digest, evicted
    oldest first to stay within a byte budget. There are two bands, each a cache
    behind a lock; a poisoned lock is [None]. *)

From Stdlib Require Import ZArith Lia.
From Stdlib Require Import Strings.Byte.
From stdpp Require Import base gmap strings numbers.
From stdpp Require Import list.
From S2P Require Import Prelude Bytes Identity LtxTypes LtxCodec DirectoryNode.

Local Open Scope bool_scope.

(*@ cellule-ltx/src/replica/cache.rs 9-9 CACHE_BYTES *)
Definition CACHE_BYTES : Z := Z.shiftl 8 20.

Module Key.
(*@ cellule-ltx/src/replica/cache.rs 12-16 Key *)
Record Key := Mk { store : Z; path : string; digest : Digest }.
End Key.
Abbreviation Key := Key.Key.

#[global] Instance Key_eq_dec : EqDecision Key.
Proof. solve_decision. Defined.
#[global] Instance Key_countable : Countable Key.
Proof.
  refine (inj_countable' (fun k => (Key.store k, Key.path k, Key.digest k)) (fun '(s, p, d) => Key.Mk s p d) _).
  by intros [].
Defined.

(*@ cellule-ltx/src/replica/cache.rs 19-23 Cache *)
Record Cache := MkCache { objects : gmap Key (list byte); order : list Key; cached_bytes : Z }.

(*@ cellule-ltx/src/replica/cache.rs 18-23 Cache *)
Definition cache_default : Cache := MkCache ∅ [] 0.

(*@ cellule-ltx/src/replica/cache.rs 26-28 Cache::get *)
Definition cache_get (c : Cache) (k : Key) : option (list byte) := objects c !! k.

(** [bytes.len().max(1024)]. *)
Definition charge (bytes : list byte) : Z := Z.max (len bytes) 1024.

(** The eviction loop; every turn pops an element of [order]. *)
(*@ cellule-ltx/src/replica/cache.rs 34-41 Cache::insert *)
Fixpoint evict (needed : Z) (objects : gmap Key (list byte)) (order : list Key) (cached : Z)
  : gmap Key (list byte) * list Key * Z :=
  if CACHE_BYTES <? cached + needed then
    match order with
    | [] => (objects, [], cached)
    | old :: order =>
        match objects !! old with
        | Some removed => evict needed (delete old objects) order (cached - charge removed)
        | None => evict needed objects order cached
        end
    end
  else (objects, order, cached).

(*@ cellule-ltx/src/replica/cache.rs 30-46 Cache::insert *)
Definition cache_insert (c : Cache) (k : Key) (bytes : list byte) : Cache * list byte :=
  match objects c !! k with
  | Some existing => (c, existing)
  | None =>
      let '(os, ord, n) := evict (charge bytes) (objects c) (order c) (cached_bytes c) in
      (MkCache (<[k := bytes]> os) (ord ++ [k]) (n + charge bytes), bytes)
  end.

(** ** The bands *)

Record Bands := MkBands { roots : option Cache; directories : option Cache }.

(*@ cellule-ltx/src/replica/cache.rs 49-57 band *)
Definition band (kind : CellObjectKind) (b : Bands) : LtxResult (option Cache) :=
  match kind with
  | KRoot => Ok (roots b)
  | KDirectory => Ok (directories b)
  | _ => Err (LtxErr.InvalidState "unsupported immutable cache kind")
  end.

(** [band(kind)?.lock()]. *)
Definition lock_band (kind : CellObjectKind) (b : Bands) : LtxResult Cache :=
  c ← band kind b; ok_or c (LtxErr.InvalidState "immutable object cache poisoned").
Definition set_band (kind : CellObjectKind) (c : Cache) (b : Bands) : Bands :=
  match kind with
  | KRoot => MkBands (Some c) (directories b)
  | KDirectory => MkBands (roots b) (Some c)
  | _ => b
  end.

Module Immutable.
Section Layout.
(** [layout.immutable_cache_identity()] and [layout.incarnation_object_path] of the Cell incarnation. *)
Context (identity : Z) (object_path : CellObjectKind -> Digest -> string).

(*@ cellule-ltx/src/replica/cache.rs 59-73 key *)
Definition key (digest : Digest) (kind : CellObjectKind) : Key := Key.Mk identity (object_path kind digest) digest.

(*@ cellule-ltx/src/replica/cache.rs 75-86 get *)
Definition get (b : Bands) (digest : Digest) (kind : CellObjectKind) : LtxResult (option (list byte)) :=
  c ← lock_band kind b; Ok (cache_get c (key digest kind)).

(*@ cellule-ltx/src/replica/cache.rs 90-102 insert *)
Definition insert (b : Bands) (digest : Digest) (kind : CellObjectKind) (bytes : list byte) : LtxResult (Bands * list byte) :=
  c ← lock_band kind b;
  let '(c, bytes) := cache_insert c (key digest kind) bytes in
  Ok (set_band kind c b, bytes).

(** [header_path] is the path of the shared object with the offset after it. *)
(*@ cellule-ltx/src/replica/cache.rs 104-136 shared_header *)
Definition shared_header `{Blake3} (header_path : Digest -> Z -> string) (b : Bands) (object : Digest) (offset : Z)
    (expected : list byte) (verified : bool) : LtxResult (Bands * bool) :=
  let k := Key.Mk identity (header_path object offset) (blake3 expected) in
  c ← lock_band KDirectory b;
  if verified then Ok (set_band KDirectory (cache_insert c k expected).1 b, true)
  else Ok (b, is_some_and (fun bytes => bool_decide (bytes = expected)) (cache_get c k)).
End Layout.
End Immutable.

(** * Proofs *)

(** The order lists every cached key once; the budget is accounted exactly. *)
Record cache_wf (os : gmap Key (list byte)) (ord : list Key) (n : Z) : Prop := {
  cw_nodup : NoDup ord;
  cw_keys : forall k, k ∈ ord <-> is_Some (os !! k);
  cw_bytes : n = sum_by (fun k => charge (default [] (os !! k))) ord
}.

Lemma charge_pos b : 1024 <= charge b.
Proof. unfold charge. lia. Qed.

Lemma sum_by_ext {A} (f g : A -> Z) l : (forall x, x ∈ l -> f x = g x) -> sum_by f l = sum_by g l.
Proof.
  induction l as [|x l IH]; intros Hf; [done|]. rewrite !sum_by_cons, (Hf x), IH; set_solver.
Qed.

Lemma evict_wf needed os ord n os' ord' n' :
  cache_wf os ord n -> evict needed os ord n = (os', ord', n') ->
  cache_wf os' ord' n' /\ ord' `suffix_of` ord /\ (forall k, k ∈ ord' -> os' !! k = os !! k)
  /\ (n' + needed <= CACHE_BYTES \/ ord' = []).
Proof.
  revert os n. induction ord as [|old ord IH]; intros os n Hwf; cbn [evict].
  { destruct (Z.ltb_spec CACHE_BYTES (n + needed)); intros [= <- <- <-]; split_and!; try done; by (left + right). }
  destruct (Z.ltb_spec CACHE_BYTES (n + needed)) as [Hlt|Hle].
  2: { intros [= <- <- <-]. split_and!; try done. by left. }
  pose proof Hwf as [[Hno Hnd]%NoDup_cons Hk Hb]. destruct (proj1 (Hk old)) as [removed Hr]; [set_solver|]. rewrite Hr.
  intros He. apply IH in He as (Hwf' & Hsuf & Hsame & Hroom).
  - split_and!; try done; [by apply suffix_cons_r|]. intros k Hin. rewrite Hsame by done.
    apply lookup_delete_ne. intros ->. destruct Hsuf as [p ->]. set_solver.
  - constructor; [done| |].
    + intros k. rewrite lookup_delete_is_Some, <- Hk. set_solver.
    + rewrite sum_by_cons, Hr in Hb. cbn [default] in Hb. unfold default, id in Hb.
      rewrite (sum_by_ext _ (fun k => charge (default [] (os !! k)))); [unfold default, id; lia|].
      intros k Hin. rewrite lookup_delete_ne; [done|]. set_solver.
Qed.

Lemma evict_subset needed os ord n os' ord' n' k b :
  evict needed os ord n = (os', ord', n') -> os' !! k = Some b -> os !! k = Some b.
Proof.
  revert os n. induction ord as [|o ord IH]; intros os n He Hg; cbn [evict] in He.
  - destruct (_ <? _); by injection He as <- _ _.
  - destruct (_ <? _); [|by injection He as <- _ _]. destruct (os !! o) eqn:Eo; [|by eapply IH].
    eapply IH in Hg; [|done]. rewrite lookup_delete_Some in Hg. tauto.
Qed.

(** An insertion adds at most its own bytes. *)
Lemma cache_insert_get c k b k' b' :
  cache_get (cache_insert c k b).1 k' = Some b' -> cache_get c k' = Some b' \/ (k' = k /\ b' = b).
Proof.
  unfold cache_get, cache_insert. destruct (objects c !! k) eqn:Ek; [by left|].
  destruct (evict _ _ _ _) as [[os ord] n] eqn:He. cbn.
  destruct (decide (k' = k)) as [->|Hne]; [rewrite lookup_insert_eq; intros [= ->]; by right|].
  rewrite lookup_insert_ne by done. intros Hg. left. by eapply evict_subset.
Qed.
(** It returns the bytes the key had before, if any. *)
Lemma cache_insert_result c k b : (cache_insert c k b).2 = default b (cache_get c k).
Proof.
  unfold cache_get, cache_insert. destruct (objects c !! k); [done|]. by destruct (evict _ _ _ _) as [[? ?] ?].
Qed.

Definition wf (c : Cache) : Prop := cache_wf (objects c) (order c) (cached_bytes c).

Lemma cache_default_wf : wf cache_default.
Proof.
  split; [constructor| |done]. intros k. cbn. rewrite lookup_empty. split; [set_solver|]. by intros [].
Qed.

Lemma cache_insert_wf c k bytes c' b :
  wf c -> cache_insert c k bytes = (c', b) -> wf c' /\ objects c' !! k = Some b.
Proof.
  intros Hwf. unfold cache_insert. destruct (objects c !! k) as [ex|] eqn:Ek; [intros [= <- <-]; done|].
  destruct (evict _ _ _ _) as [[os ord] n] eqn:He. intros [= <- <-].
  destruct (evict_wf _ _ _ _ _ _ _ Hwf He) as ([Hnd Hk Hb] & Hsuf & Hsame & _).
  assert (k ∉ ord) as Hnin.
  { intros Hin. destruct Hsuf as [p Hp]. assert (k ∈ order c) as Hin' by (rewrite Hp; set_solver).
    apply (cw_keys _ _ _ Hwf) in Hin'. rewrite Ek in Hin'. by destruct Hin'. }
  split; [|cbn; by rewrite lookup_insert_eq]. constructor; cbn [objects order cached_bytes].
  - apply NoDup_app. split_and!; [done| |apply NoDup_singleton]. set_solver.
  - intros k'. rewrite elem_of_app, list_elem_of_singleton, Hk. destruct (decide (k' = k)) as [->|Hne].
    + rewrite lookup_insert_eq. naive_solver.
    + rewrite lookup_insert_ne by done. naive_solver.
  - rewrite sum_by_app, sum_by_cons, sum_by_nil, lookup_insert_eq. cbn [default].
    rewrite Hb. rewrite (sum_by_ext _ (fun k0 => charge (default [] (<[k:=bytes]> os !! k0)))); [unfold default, id; lia|].
    intros k' Hin. rewrite lookup_insert_ne; [done|]. set_solver.
Qed.

(** Any sequence of insertions. *)
Definition insert_all (c : Cache) (l : list (Key * list byte)) : Cache :=
  foldl (fun c e => (cache_insert c e.1 e.2).1) c l.

Lemma evict_bound needed os ord n os' ord' n' :
  cache_wf os ord n -> evict needed os ord n = (os', ord', n') -> needed <= CACHE_BYTES ->
  n' + needed <= CACHE_BYTES.
Proof.
  intros Hwf He Hn. destruct (evict_wf _ _ _ _ _ _ _ Hwf He) as ([_ _ Hb] & _ & _ & [Hr|E]); [done|subst ord'].
  rewrite Hb, sum_by_nil. lia.
Qed.

Lemma insert_all_wf l :
  Forall (fun e => len e.2 <= CACHE_BYTES) l ->
  forall c, wf c -> cached_bytes c <= CACHE_BYTES ->
  wf (insert_all c l) /\ cached_bytes (insert_all c l) <= CACHE_BYTES.
Proof.
  induction 1 as [|[k b] l Hb _ IH]; intros c Hwf Hc; [done|]. unfold insert_all. cbn [foldl fst snd].
  destruct (cache_insert c k b) as [c' b'] eqn:E. destruct (cache_insert_wf _ _ _ _ _ Hwf E) as [Hwf' _].
  apply IH; [done|]. unfold cache_insert in E. destruct (objects c !! k); [by injection E as <- _|].
  destruct (evict _ _ _ _) as [[os ord] n] eqn:He. injection E as <- _. cbn.
  eapply evict_bound; [exact Hwf|exact He|]. cbn in Hb. unfold charge. change CACHE_BYTES with 8388608 in *. lia.
Qed.

(** C23: the cache stays within its budget and tells the truth. After any sequence
    of insertions of objects no larger than the budget, the bytes charged are the
    exact sum over the cached objects and at most eight mebibytes, the eviction
    order lists every cached key once, a key reads back either nothing or bytes
    inserted under it, and the object inserted last is present. *)
Theorem cache_exact l k b :
  Forall (fun e => len e.2 <= CACHE_BYTES) (l ++ [(k, b)]) ->
  let c := insert_all cache_default (l ++ [(k, b)]) in
  wf c /\ cached_bytes c <= CACHE_BYTES
  /\ (forall k' b', cache_get c k' = Some b' -> (k', b') ∈ l ++ [(k, b)])
  /\ is_Some (cache_get c k).
Proof.
  intros Hf c. destruct (insert_all_wf _ Hf cache_default cache_default_wf) as [Hwf Hc]; [done|].
  split; [done|]. split; [done|]. split.
  - cut (forall l c0 k' b', objects (insert_all c0 l) !! k' = Some b' -> objects c0 !! k' = Some b' \/ (k', b') ∈ l).
    { intros Hcut k' b' Hg. apply Hcut in Hg as [Hg|]; [|done]. cbn in Hg. by rewrite lookup_empty in Hg. }
    clear. intros l. induction l as [|[k b] l IH]; intros c0 k' b' Hg; [by left|]. apply IH in Hg as [Hg|]; [|set_solver].
    apply cache_insert_get in Hg as [Hg|[-> ->]]; [by left|set_solver].
  - unfold c, insert_all. rewrite foldl_app. cbn [foldl fst snd].
    destruct (cache_insert _ k b) as [c' b'] eqn:E. apply cache_insert_wf in E as [_ E]; [by exists b'|].
    apply insert_all_wf; [by apply Forall_app in Hf as [? _]|apply cache_default_wf|done].
Qed.

Lemma cache_exact_witness :
  let c := insert_all cache_default ([(Key.Mk 1 "a" (array_fill 32 x01), [x01])] ++ [(Key.Mk 1 "b" (array_fill 32 x02), [x02])]) in
  wf c /\ cached_bytes c <= CACHE_BYTES
  /\ (forall k' b', cache_get c k' = Some b' ->
        (k', b') ∈ [(Key.Mk 1 "a" (array_fill 32 x01), [x01])] ++ [(Key.Mk 1 "b" (array_fill 32 x02), [x02])])
  /\ is_Some (cache_get c (Key.Mk 1 "b" (array_fill 32 x02))).
Proof.
  apply (cache_exact [(Key.Mk 1 "a" (array_fill 32 x01), [x01])] (Key.Mk 1 "b" (array_fill 32 x02)) [x02]).
  repeat constructor; vm_compute; discriminate.
Defined.
