(* ===== verification/Directory.v ===== *)
(** * Directory: reading the authenticated page directory

    Models the readers of [crates/cellule-ltx/src/replica/directory/mod.rs]: the
    lookup of one page, of a run of pages and of same-object spans, the check of a
    root, the walk that lists every reachable node, and the loader of the checksum
    file ([directory/checksums.rs]). Nodes come from a [NodeReader]; its
    implementation in the code tries an inlined root, a process cache, a disk
    cache and the object store in turn and checks digests.

    A tree of nodes stands for the list of entries in its leaves. Each reader is
    shown to compute a function of that list, whatever the reader underneath
    answers, or to fail because the reader did. *)

From Stdlib Require Import ZArith Lia.
From Stdlib Require Import Strings.Byte.
From stdpp Require Import base gmap strings numbers sorting.
From stdpp Require Import list.
From S2P Require Import Prelude Bytes Identity LtxTypes Lz4 Ltx LtxCodec DirectoryNode ReplicaCache.

Local Open Scope bool_scope.

(** ** Computations that read *)

Definition ReadM (W A : Type) : Type := W -> W * LtxResult A.
#[global] Instance readm_ret {W} : MRet (ReadM W) := fun A a w => (w, Ok a).
#[global] Instance readm_bind {W} : MBind (ReadM W) :=
  fun A B f m w => match m w with (w, Ok a) => f a w | (w, Err e) => (w, Err e) end.
Definition pure {W A} (r : LtxResult A) : ReadM W A := fun w => (w, r).
Definition fail {W A} (e : LtxError) : ReadM W A := pure (Err e).

Module Ver.
(** Of the layout, the Cell, the incarnation and the host only their use by the
    reader matters; they are part of its state. *)
(*@ cellule-ltx/src/replica/directory/mod.rs 251-261 Verification *)
Record Verification := Mk {
  page_size : Z;
  database_pages : Z;
  inline_root : option (list byte);
  extents : Extents
}.
End Ver.
Abbreviation Verification := Ver.Verification.

Module Span.
(*@ cellule-ltx/src/replica/directory/mod.rs 36-41 DirectorySpan *)
Record DirectorySpan := Mk { object : Digest; start : Z; ending : Z; entries : list DirectoryEntry }.
End Span.

Class NodeReader (W : Type) := read_node : Verification -> Digest -> ReadM W (list byte).

(*@ cellule-ltx/src/replica/root.rs 249-249 INLINE_DIRECTORY_BYTES *)
Definition INLINE_DIRECTORY_BYTES : Z := Z.shiftl 2 10.

(** [value != aggregate] of an expected aggregate. *)
Definition unexpected (expected : option Aggregate) (a : Aggregate) : bool :=
  is_some_and (fun value => bool_decide (value <> a)) expected.

Section Readers.
Context {W : Type} `{NodeReader W}.

(** ** Lookups *)

Definition verify_leaf_of (v : Verification) (bytes : list byte) (h : NodeHeader) :=
  verify_leaf bytes h (Ver.page_size v) (Ver.database_pages v) (Ver.extents v).

(** The [loop]; [height] counts down to the leaf. *)
(*@ cellule-ltx/src/replica/directory/mod.rs 405-438 lookup *)
Fixpoint lookup_loop (height : nat) (v : Verification) (digest : Digest) (expected : option Aggregate) (page : Z)
  : ReadM W DirectoryEntry :=
  bytes ← read_node v digest;
  h ← pure (dir_header_parse bytes);
  if negb (eqb_of (bool_decide (height = O)) (DirHeader.kind h =? 0)) then fail LtxErr.LTXCorrupted
  else if DirHeader.kind h =? 0 then
    '(a, entries) ← pure (verify_leaf_of v bytes h);
    if unexpected expected a then fail LtxErr.ChecksumMismatch
    else pure (ok_or (List.find (fun e => DirEntry.page e =? page) entries) LtxErr.LTXCorrupted)
  else
    '(a, children) ← pure (verify_branch bytes h);
    if unexpected expected a then fail LtxErr.ChecksumMismatch
    else
      child ← pure (ok_or (List.find (fun c => (Agg.first (Node.aggregate c) <=? page)
                                               && (page <=? Agg.last (Node.aggregate c))) children)
                          LtxErr.LTXCorrupted);
      match height with
      | O => fail LtxErr.LTXCorrupted
      | S height => lookup_loop height v (Node.digest child) (Some (Node.aggregate child)) page
      end.

(*@ cellule-ltx/src/replica/directory/mod.rs 394-439 lookup *)
Definition lookup (v : Verification) (root : Digest) (height page : Z) : ReadM W DirectoryEntry :=
  if (page =? 0) || (Ver.database_pages v <? page) then fail LtxErr.TxNotAvailable
  else lookup_loop (Z.to_nat height) v root None page.

(** ** Walks

    The stack of pending nodes: a node is popped and checked, its kept children
    are pushed in reverse so that they are visited in order before what was
    pending. [enter] runs after the kind of a node was checked, [leaf] on the
    entries of a leaf. *)
Section Walk.
Context {S : Type} (enter : S -> Digest -> LtxResult S) (leaf : S -> list DirectoryEntry -> LtxResult S)
  (keep : Node -> bool).

(*@ cellule-ltx/src/replica/directory/mod.rs 467-506 lookup_run *)
Fixpoint walk (remaining : nat) (v : Verification) (digest : Digest) (expected : option Aggregate) (s : S)
  : ReadM W S :=
  bytes ← read_node v digest;
  h ← pure (dir_header_parse bytes);
  if negb (eqb_of (bool_decide (remaining = O)) (DirHeader.kind h =? 0)) then fail LtxErr.LTXCorrupted
  else
    s ← pure (enter s digest);
    if DirHeader.kind h =? 0 then
      '(a, entries) ← pure (verify_leaf_of v bytes h);
      if unexpected expected a then fail LtxErr.ChecksumMismatch else pure (leaf s entries)
    else
      '(a, children) ← pure (verify_branch bytes h);
      if unexpected expected a then fail LtxErr.ChecksumMismatch
      else
        match remaining with
        | O => fail LtxErr.LTXCorrupted
        | Datatypes.S remaining =>
            (fix pending (cs : list Node) (s : S) : ReadM W S :=
               match cs with
               | [] => mret s
               | c :: cs =>
                   s ← walk remaining v (Node.digest c) (Some (Node.aggregate c)) s;
                   pending cs s
               end) (List.filter keep children) s
        end.
End Walk.

(** The run ends before the lock page. *)
(*@ cellule-ltx/src/replica/directory/mod.rs 453-462 lookup_run *)
Definition run_last (v : Verification) (first max_pages : Z) : LtxResult Z :=
  let lock := lock_pgno (Ver.page_size v) in
  requested ← ok_or (checked_add_u32 first (max_pages - 1)) LtxErr.LTXCorrupted;
  let requested := Z.min requested (Ver.database_pages v) in
  if (first <=? lock) && (lock <=? requested)
  then ok_or (checked_sub_u64 lock 1) LtxErr.LTXCorrupted else Ok requested.

(*@ cellule-ltx/src/replica/directory/mod.rs 512-519 lookup_run *)
Fixpoint check_run (first : Z) (index : Z) (entries : list DirectoryEntry) : LtxResult unit :=
  match entries with
  | [] => Ok tt
  | e :: entries =>
      if u32_max <? index then Err LtxErr.LTXCorrupted
      else
        expected ← ok_or (checked_add_u32 first index) LtxErr.LTXCorrupted;
        if negb (DirEntry.page e =? expected) then Err LtxErr.LTXCorrupted
        else check_run first (index + 1) entries
  end.

(*@ cellule-ltx/src/replica/directory/mod.rs 443-521 lookup_run *)
Definition lookup_run (v : Verification) (root : Digest) (height first max_pages : Z)
  : ReadM W (list DirectoryEntry) :=
  if (max_pages =? 0) || (first =? 0) || (Ver.database_pages v <? first) then mret []
  else
    last ← pure (run_last v first max_pages);
    if last <? first then mret []
    else
      entries ← walk (fun s _ => Ok s)
        (fun s es => Ok (s ++ List.filter (fun e => (first <=? DirEntry.page e) && (DirEntry.page e <=? last)) es))
        (fun c => (first <=? Agg.last (Node.aggregate c)) && (Agg.first (Node.aggregate c) <=? last))
        (Z.to_nat height) v root None [];
      if negb (len entries =? last - first + 1) then fail LtxErr.LTXCorrupted
      else
        _ ← pure (check_run first 0 entries);
        mret entries.

(** The spans so far, the last one first. *)
(*@ cellule-ltx/src/replica/directory/mod.rs 532-553 lookup_spans *)
Fixpoint group_spans (spans : list Span.DirectorySpan) (entries : list DirectoryEntry)
  : LtxResult (list Span.DirectorySpan) :=
  match entries with
  | [] => Ok (rev spans)
  | e :: entries =>
      ending ← ok_or (checked_add_u64 (DirEntry.offset e) (DirEntry.length e)) LtxErr.LTXCorrupted;
      match spans with
      | span :: rest =>
          if bool_decide (Span.object span = DirEntry.object e) && (Span.ending span =? DirEntry.offset e)
          then group_spans (Span.Mk (Span.object span) (Span.start span) ending (Span.entries span ++ [e]) :: rest) entries
          else group_spans (Span.Mk (DirEntry.object e) (DirEntry.offset e) ending [e] :: spans) entries
      | [] => group_spans [Span.Mk (DirEntry.object e) (DirEntry.offset e) ending [e]] entries
      end
  end.

(*@ cellule-ltx/src/replica/directory/mod.rs 524-554 lookup_spans *)
Definition lookup_spans (v : Verification) (root : Digest) (height first max_pages : Z)
  : ReadM W (list Span.DirectorySpan) :=
  entries ← lookup_run v root height first max_pages;
  pure (group_spans [] entries).

(** ** Roots *)

(** [database_pages - (lock <= database_pages)]. *)
Definition expected_pages (page_size database_pages : Z) : Z :=
  database_pages - (if lock_pgno page_size <=? database_pages then 1 else 0).

(*@ cellule-ltx/src/replica/directory/mod.rs 269-304 verify_root *)
Definition verify_root (v : Verification) (root : Digest) (height : Z) : ReadM W Aggregate :=
  if (3 <? height) || (Ver.database_pages v =? 0) then fail LtxErr.LTXCorrupted
  else
    bytes ← read_node v root;
    h ← pure (dir_header_parse bytes);
    if negb (eqb_of (height =? 0) (DirHeader.kind h =? 0)) then fail LtxErr.LTXCorrupted
    else
      a ← pure (if DirHeader.kind h =? 0 then '(a, _) ← verify_leaf_of v bytes h; Ok a
                else '(a, _) ← verify_branch bytes h; Ok a);
      if negb (Agg.live_pages a =? expected_pages (Ver.page_size v) (Ver.database_pages v))
         || (Agg.first a =? 0) || (Ver.database_pages v <? Agg.last a)
      then fail LtxErr.ChecksumMismatch else mret a.

(** The coverage of the pages so far. *)
Record Coverage := MkCoverage { previous_page : Z; seen : Z; running : Z }.

(** One entry of a leaf in a walk of the whole tree: the pages must follow one
    another, the lock page being stepped over. *)
(*@ cellule-ltx/src/replica/directory/mod.rs 346-358 reachable_digests *)
Definition cover_entry (page_size : Z) (c : Coverage) (e : DirectoryEntry) : LtxResult Coverage :=
  let lock := lock_pgno page_size in
  expected ← ok_or (checked_add_u32 (previous_page c) 1) LtxErr.LTXCorrupted;
  let previous := if expected =? lock then lock else previous_page c in
  next ← ok_or (checked_add_u32 previous 1) LtxErr.LTXCorrupted;
  if negb (DirEntry.page e =? next) then Err LtxErr.LTXCorrupted
  else Ok (MkCoverage (DirEntry.page e) (seen c + 1) (flag_xor (running c) (DirEntry.checksum e))).

Fixpoint cover_entries (page_size : Z) (c : Coverage) (es : list DirectoryEntry) : LtxResult Coverage :=
  match es with
  | [] => Ok c
  | e :: es => c ← cover_entry page_size c e; cover_entries page_size c es
  end.

(** After the walk the lock page may be the last page. *)
(*@ cellule-ltx/src/replica/directory/mod.rs 373-381 reachable_digests *)
Definition cover_end (v : Verification) (c : Coverage) : LtxResult Z :=
  let lock := lock_pgno (Ver.page_size v) in
  if previous_page c <? Ver.database_pages v then
    next ← ok_or (checked_add_u32 (previous_page c) 1) LtxErr.LTXCorrupted;
    if negb (next =? lock) || negb (lock =? Ver.database_pages v) then Err LtxErr.LTXCorrupted else Ok lock
  else Ok (previous_page c).

(** [inline_node]: whether the node is the one inlined in the root document. *)
(*@ cellule-ltx/src/replica/directory/mod.rs 556-564 inline_node *)
Definition inline_node `{Blake3} (v : Verification) (digest : Digest) : LtxResult (option (list byte)) :=
  match Ver.inline_root v with
  | None => Ok None
  | Some bytes =>
      if (INLINE_DIRECTORY_BYTES <? len bytes) || (len bytes =? 0) then Err LtxErr.LTXCorrupted
      else Ok (if bool_decide (blake3 bytes = digest) then Some bytes else None)
  end.

(** Entering a node counts it against the limit, then lists it unless it is inlined. *)
(*@ cellule-ltx/src/replica/directory/mod.rs 329-334 reachable_digests *)
Definition reach_enter `{Blake3} (v : Verification) (max_objects : option Z) (s : list Digest * Coverage) (digest : Digest)
  : LtxResult (list Digest * Coverage) :=
  let '(digests, c) := s in
  if is_some_and (fun limit => len digests =? limit) max_objects
  then Err (LtxErr.Limit Limit.RootInventoryObjects)
  else
    inlined ← inline_node v digest;
    Ok (if is_none inlined then digests ++ [digest] else digests, c).

Definition reach_leaf (v : Verification) (s : list Digest * Coverage) (es : list DirectoryEntry)
  : LtxResult (list Digest * Coverage) :=
  let '(digests, c) := s in c ← cover_entries (Ver.page_size v) c es; Ok (digests, c).

(*@ cellule-ltx/src/replica/directory/mod.rs 306-392 reachable_digests *)
Definition reachable_digests `{Blake3} (v : Verification) (root : Digest) (height : Z) (expected_root : Aggregate)
    (max_objects : option Z) : ReadM W (list Digest) :=
  if (3 <? height) || (Ver.database_pages v =? 0) then fail LtxErr.LTXCorrupted
  else
    '(digests, c) ← walk (reach_enter v max_objects) (reach_leaf v) (fun _ => true) (Z.to_nat height) v root
                         (Some expected_root) ([], MkCoverage 0 0 CHECKSUM_FLAG);
    last ← pure (cover_end v c);
    if negb (last =? Ver.database_pages v)
       || negb (seen c =? expected_pages (Ver.page_size v) (Ver.database_pages v))
       || negb (seen c =? Agg.live_pages expected_root) || negb (running c =? Agg.checksum expected_root)
    then fail LtxErr.ChecksumMismatch else mret digests.
End Readers.

(** ** The readers

    What is asked of the host and of the object store: the disk cache, whose
    answers are checked, an admission permit, and the origin. Their errors are the
    [LtxError]s they are converted to. *)

Class NodeStore (E : Type) := {
  cache_identity : Z;
  incarnation_object_path : CellObjectKind -> Digest -> string;
  directory_cache_get : Digest -> Z -> ReadM E (option (list byte));
  directory_cache_put : Digest -> list byte -> Z -> ReadM E unit;
  directory_cache_invalidate : Digest -> ReadM E unit;
  io_permit : ReadM E unit;
  get_with_etag_bounded : Digest -> Z -> ReadM E (list byte)
}.

Record ReaderState (E : Type) := MkReader { bands : Bands; env : E }.
Arguments MkReader {E}.
Arguments bands {E}.
Arguments env {E}.

Section NodeReaders.
Context {E : Type} `{NodeStore E, Blake3}.

Definition host {A} (m : ReadM E A) : ReadM (ReaderState E) A :=
  fun w => let '(e, r) := m (env w) in (MkReader (bands w) e, r).
(** [let _ = ...]: the result is dropped. *)
Definition ignore {A} (m : ReadM E A) : ReadM E unit := fun e => ((m e).1, Ok tt).
Definition cache_read (digest : Digest) : ReadM (ReaderState E) (option (list byte)) :=
  fun w => (w, Immutable.get cache_identity incarnation_object_path (bands w) digest KDirectory).
Definition cache_fill (digest : Digest) (bytes : list byte) : ReadM (ReaderState E) (list byte) :=
  fun w => match Immutable.insert cache_identity incarnation_object_path (bands w) digest KDirectory bytes with
           | Ok (b, bytes) => (MkReader b (env w), Ok bytes)
           | Err e => (w, Err e)
           end.

(** The request to the origin and the check of what it answers. *)
(*@ cellule-ltx/src/replica/directory/mod.rs 614-628 read_node *)
Definition fetch_node (digest : Digest) : ReadM E (list byte) :=
  _ ← io_permit;
  bytes ← get_with_etag_bounded digest MAX_NODE_BYTES;
  if bool_decide (blake3 bytes = digest) then mret bytes else fail LtxErr.ChecksumMismatch.

(*@ cellule-ltx/src/replica/directory/mod.rs 566-644 read_node *)
Definition read_node_cached (v : Verification) (digest : Digest) : ReadM (ReaderState E) (list byte) :=
  let origin :=
    bytes ← host (fetch_node digest);
    _ ← host (ignore (directory_cache_put digest bytes MAX_NODE_BYTES));
    cache_fill digest bytes in
  inlined ← pure (inline_node v digest);
  match inlined with
  | Some bytes => mret bytes
  | None =>
      cached ← cache_read digest;
      match cached with
      | Some bytes => mret bytes
      | None =>
          persistent ← host (directory_cache_get digest MAX_NODE_BYTES);
          match persistent with
          | Some bytes =>
              if (len bytes <=? MAX_NODE_BYTES) && bool_decide (blake3 bytes = digest)
              then cache_fill digest bytes
              else _ ← host (ignore (directory_cache_invalidate digest)); origin
          | None => origin
          end
      end
  end.

(*@ cellule-ltx/src/replica/directory/mod.rs 646-675 read_node_uncached *)
Definition read_node_uncached (v : Verification) (digest : Digest) : ReadM (ReaderState E) (list byte) :=
  inlined ← pure (inline_node v digest);
  match inlined with
  | Some bytes => mret bytes
  | None => host (fetch_node digest)
  end.
End NodeReaders.

(** * Proofs *)

(** ** Aggregates *)

Lemma foldl_lxor a l : foldl Z.lxor a l = Z.lxor a (foldl Z.lxor 0 l).
Proof.
  revert a. induction l as [|x l IH]; intros a; cbn [foldl]; [by rewrite Z.lxor_0_r|].
  rewrite IH, (IH (Z.lxor 0 x)), Z.lxor_0_l. by rewrite Z.lxor_assoc.
Qed.
Lemma lor_flag_r_testbit a i : 0 <= i -> Z.testbit (Z.lor a CHECKSUM_FLAG) i = (i =? 63) || Z.testbit a i.
Proof. intros Hi. rewrite Z.lor_comm. by apply lor_flag_testbit. Qed.
Lemma xor_sum_cons x l : xor_sum (x :: l) = Z.lor (Z.lxor x (foldl Z.lxor 0 l)) CHECKSUM_FLAG.
Proof. unfold xor_sum. cbn [foldl]. by rewrite foldl_lxor, Z.lxor_0_l. Qed.
Lemma xor_sum_app l l' :
  xor_sum (l ++ l') = Z.lor (Z.lxor (foldl Z.lxor 0 l) (foldl Z.lxor 0 l')) CHECKSUM_FLAG.
Proof. unfold xor_sum. by rewrite foldl_app, foldl_lxor. Qed.
Lemma xor_sum_concat ls : xor_sum (map xor_sum ls) = xor_sum (concat ls).
Proof.
  induction ls as [|l ls IH]; [done|]. cbn [map concat]. rewrite xor_sum_cons, xor_sum_app.
  apply Z.bits_inj'. intros i Hi. apply (f_equal (fun z => Z.testbit z i)) in IH. revert IH.
  rewrite !lor_flag_r_testbit, !Z.lxor_spec by done. unfold xor_sum at 1 3. rewrite !lor_flag_r_testbit by done.
  unfold xor_sum. rewrite lor_flag_r_testbit by done.
  destruct (i =? 63); [done|]. cbn [orb]. by intros ->.
Qed.

(** The entries of a tree: ascending pages that the verification admits. *)
Record entries_ok (v : Verification) (es : list DirectoryEntry) : Prop := {
  eo_some : es <> [];
  eo_sorted : StronglySorted Z.lt (map DirEntry.page es);
  eo_entries : Forall (leaf_entry (Ver.page_size v) (Ver.database_pages v) (Ver.extents v) 0) es
}.

Lemma sorted_last l x y : StronglySorted Z.lt l -> x ∈ l -> last l = Some y -> x <= y.
Proof.
  intros Hs Hx Hy. apply last_Some in Hy as [l' ->]. apply elem_of_app in Hx as [Hx|Hx]; [|set_solver by lia].
  induction l' as [|z l' IH]; [set_solver|]. cbn in Hs. apply StronglySorted_inv in Hs as [Hs Hf].
  apply elem_of_cons in Hx as [->|Hx]; [|by apply IH]. apply Forall_app in Hf as [_ [Hf _]%Forall_cons]. lia.
Qed.

Lemma entries_bounds es e :
  StronglySorted Z.lt (map DirEntry.page es) -> e ∈ es ->
  Agg.first (leaf_agg es) <= DirEntry.page e <= Agg.last (leaf_agg es).
Proof.
  intros Hs He. cbn [leaf_agg Agg.first Agg.last]. split.
  - destruct es as [|e0 es]; [set_solver|]. cbn [head fmap option_fmap option_map default].
    cbn in Hs. apply StronglySorted_inv in Hs as [_ Hf]. apply elem_of_cons in He as [->|He]; [done|].
    rewrite Forall_map, Forall_forall in Hf. specialize (Hf _ He). unfold default, id. lia.
  - destruct (last es) as [y|] eqn:E; [|apply last_None in E; set_solver].
    apply (sorted_last (map DirEntry.page es)); [done| |].
    2: { change (map DirEntry.page es) with (DirEntry.page <$> es). by rewrite fmap_last, E. }
    apply list_elem_of_fmap. eauto.
Qed.

(** A branch whose children stand for the lists [ess] stands for their concatenation. *)
Definition child_lists (cs : list Node) (ess : list (list DirectoryEntry)) : Prop :=
  Forall2 (fun c es => Node.aggregate c = leaf_agg es /\ es <> [] /\ StronglySorted Z.lt (map DirEntry.page es)) cs ess.

Lemma head_concat {A} (l : list A) ls : l <> [] -> head (concat (l :: ls)) = head l.
Proof. by destruct l. Qed.
Lemma last_concat {A} (ls : list (list A)) l : last ls = Some l -> l <> [] -> last (concat ls) = last l.
Proof.
  intros [ls' ->]%last_Some Hl. rewrite concat_app. cbn. rewrite app_nil_r.
  destruct (exists_last Hl) as (l' & x & ->). by rewrite app_assoc, !last_snoc.
Qed.

Lemma branch_agg_lists cs ess : cs <> [] -> child_lists cs ess -> branch_agg cs = leaf_agg (concat ess).
Proof.
  intros Hne Hf. unfold branch_agg, leaf_agg. f_equal.
  - clear Hne. induction Hf as [|c es cs ess (Ha & _ & _) _ IH]; [done|].
    unfold total_live in *. rewrite sum_by_cons. cbn [concat]. rewrite len_app, <- IH, Ha. done.
  - rewrite concat_map, <- xor_sum_concat. f_equal. rewrite map_map. clear Hne.
    induction Hf as [|c es cs ess (Ha & _ & _) _ IH]; [done|]. cbn [map]. rewrite Ha, IH. done.
  - destruct Hf as [|c es cs ess (Ha & Hes & _) _]; [done|]. rewrite head_concat by done. cbn. by rewrite Ha.
  - destruct (last cs) as [c|] eqn:Ec; [|by apply last_None in Ec].
    apply Forall2_length in Hf as Hlen. rewrite last_lookup in Ec.
    destruct (Forall2_lookup_l _ _ _ _ _ Hf Ec) as (es & Ees & Ha & Hes & _).
    rewrite (last_concat ess es); [cbn; by rewrite Ha| |done]. by rewrite last_lookup, <- Hlen.
Qed.

Lemma leaf_agg_range es : es <> [] -> StronglySorted Z.lt (map DirEntry.page es) ->
  Agg.first (leaf_agg es) <= Agg.last (leaf_agg es).
Proof. destruct es as [|e es]; [done|]. intros _ Hs. destruct (entries_bounds _ e Hs); [set_solver|lia]. Qed.

(** Ordered children have ordered pages. *)
Lemma chain_sorted live previous cs ess :
  branch_chain live previous cs -> child_lists cs ess -> 0 <= previous ->
  StronglySorted Z.lt (previous :: map DirEntry.page (concat ess)).
Proof.
  intros Hch Hf. revert live previous Hch. induction Hf as [|c es cs ess (Ha & Hes & Hs) _ IH]; intros live previous Hch Hp.
  { by repeat constructor. }
  cbn [branch_chain] in Hch. destruct Hch as ([] & _ & Hch). specialize (IH _ _ Hch ltac:(lia)).
  cbn [concat]. rewrite map_app. apply StronglySorted_inv in IH as [IHs IHf].
  assert (forall x, x ∈ map DirEntry.page es -> Agg.first (Node.aggregate c) <= x <= Agg.last (Node.aggregate c)) as Hr.
  { intros x (e & -> & He)%list_elem_of_fmap. rewrite Ha. by apply entries_bounds. }
  constructor.
  - apply StronglySorted_app. split_and!; [|done..]. intros x y Hx%Hr Hy. rewrite Forall_forall in IHf. specialize (IHf _ Hy). lia.
  - apply Forall_app. split; apply Forall_forall; [intros x Hx%Hr; lia|].
    intros x Hx. rewrite Forall_forall in IHf. specialize (IHf _ Hx). lia.
Qed.

(** ** What a reader promises

    [known] are the nodes at hand. For the verifications it admits the reader
    returns the known bytes with the digest asked for, or fails; it fails only when
    it is faulty, and a sound reader does not become faulty by reading. *)

Definition inline_sized (v : Verification) : Prop :=
  forall b, Ver.inline_root v = Some b -> 0 < len b <= INLINE_DIRECTORY_BYTES.

Class ReaderLaws (W : Type) `{NodeReader W, Blake3} (known : list byte -> Prop) := {
  reader_ok : W -> Prop;
  faulty : W -> Prop;
  admits : Verification -> Prop;
  admits_sized v : admits v -> inline_sized v;
  read_node_exact v d b w w' r :
    admits v -> reader_ok w -> known b -> blake3 b = d -> read_node v d w = (w', r) ->
    reader_ok w' /\ (faulty w' -> faulty w) /\ (r = Ok b \/ faulty w /\ exists e, r = Err e)
}.

Section Trees.
Context `{Blake3} (known : list byte -> Prop).

(** The tree of [height] under a digest stands for a list of entries. *)
Fixpoint tree (v : Verification) (height : nat) (d : Digest) (es : list DirectoryEntry) : Prop :=
  exists bytes, known bytes /\ blake3 bytes = d /\
    match height with
    | O => encode_leaf es = Ok bytes
           /\ leaf_ok (Ver.page_size v) (Ver.database_pages v) (Ver.extents v) es
    | S height => exists cs ess, encode_branch cs = Ok bytes /\ branch_ok cs
           /\ Forall (fun c => Node.index c = 0) cs
           /\ Forall2 (fun c es => Node.aggregate c = leaf_agg es /\ tree v height (Node.digest c) es) cs ess
           /\ es = concat ess
    end.

Lemma tree_entries v height d es : tree v height d es -> entries_ok v es.
Proof.
  revert d es. induction height as [|height IH]; intros d es (bytes & _ & _ & Ht).
  - destruct Ht as [_ [Hsz Hch _]]. constructor.
    + intros ->. change (len (@nil DirectoryEntry)) with 0 in Hsz. lia.
    + apply leaf_chain_sorted in Hch; [|lia]. by apply StronglySorted_inv in Hch as [? _].
    + by eapply leaf_chain_entries.
  - destruct Ht as (cs & ess & _ & [Hsz Hch] & _ & Hf & ->).
    assert (child_lists cs ess) as Hcl.
    { eapply Forall2_impl; [done|]. intros c es' [Ha Ht]. apply IH in Ht as []. done. }
    constructor.
    + destruct Hcl as [|c es cs ess (_ & Hes & _) _]; [change (len (@nil Node)) with 0 in Hsz; lia|].
      by destruct es.
    + apply (chain_sorted 0 0 cs ess) in Hch; [|done|lia]. by apply StronglySorted_inv in Hch as [? _].
    + clear -Hf IH. induction Hf as [|c es cs ess [_ Ht] _ IHf]; [constructor|].
      cbn [concat]. apply Forall_app. split; [by eapply IH|done].
Qed.

Lemma tree_child_lists v height cs ess :
  Forall2 (fun c es => Node.aggregate c = leaf_agg es /\ tree v height (Node.digest c) es) cs ess -> child_lists cs ess.
Proof.
  intros Hf. eapply Forall2_impl; [done|]. intros c es [Ha Ht]. by apply tree_entries in Ht as [].
Qed.
End Trees.

Section ReaderProofs.
Context {W : Type} `{HR : NodeReader W, HB : Blake3} (known : list byte -> Prop) `{!ReaderLaws W known}.

(** [m] computes [r], unless the reader fails on the way. *)
Definition computes {A} (m : ReadM W A) (r : LtxResult A) : Prop :=
  forall w, reader_ok w ->
    reader_ok (m w).1 /\ (faulty (m w).1 -> faulty w)
    /\ ((m w).2 = r \/ faulty w /\ exists e, (m w).2 = Err e).

Lemma computes_pure {A} (r : LtxResult A) : computes (pure r) r.
Proof. intros w Hw. by split_and!; [..|left]. Qed.
Lemma computes_ret {A} (a : A) : computes (mret a) (Ok a).
Proof. intros w Hw. by split_and!; [..|left]. Qed.
Lemma computes_fail {A} e : computes (@fail W A e) (Err e).
Proof. apply computes_pure. Qed.
Lemma computes_bind {A B} (m : ReadM W A) (f : A -> ReadM W B) r r' :
  computes m r -> (forall a, r = Ok a -> computes (f a) (r' a)) ->
  computes (m ≫= f) (r ≫= r').
Proof.
  intros Hm Hf w Hw. destruct (Hm w Hw) as (Hok & Hfa & Hr).
  change ((m ≫= f) w) with (match m w with (w, Ok a) => f a w | (w, Err e) => (w, Err e) end).
  destruct (m w) as [w1 [a|e]]; cbn [fst snd] in *.
  - destruct Hr as [<-|(_ & e & ?)]; [|done]. destruct (Hf a eq_refl w1 Hok) as (Hok' & Hfa' & Hr').
    cbn [mbind result_bind]. split_and!; [done|by auto|]. destruct Hr' as [->|[Hfl He]]; [by left|right]. split; [by auto|done].
  - split_and!; [done..|]. destruct Hr as [<-|[Hfl He]]; [by left|right]. split; [done|by exists e].
Qed.
Lemma computes_bind_Ok {A B} (m : ReadM W A) (f : A -> ReadM W B) a r :
  computes m (Ok a) -> computes (f a) r -> computes (m ≫= f) r.
Proof. intros Hm Hf. apply (computes_bind m f (Ok a) (fun _ => r)); [done|]. by intros ? [= <-]. Qed.
Lemma computes_read v d b :
  admits v -> known b -> blake3 b = d -> computes (read_node v d) (Ok b).
Proof.
  intros Hv Hb Hd w Hw. destruct (read_node v d w) as [w' r] eqn:E.
  by apply (read_node_exact v d b w w' r Hv Hw Hb Hd).
Qed.

Lemma unexpected_leaf expected a : (expected = None \/ expected = Some a) -> unexpected expected a = false.
Proof. intros [->| ->]; [done|]. cbn. by rewrite bool_decide_eq_false_2 by auto. Qed.

(** ** Lookups *)

Definition find_page (page : Z) (es : list DirectoryEntry) : option DirectoryEntry :=
  List.find (fun e => DirEntry.page e =? page) es.

Lemma find_app {A} (p : A -> bool) l l' :
  List.find p (l ++ l') = match List.find p l with Some x => Some x | None => List.find p l' end.
Proof. induction l as [|x l IH]; [done|]. cbn. by destruct (p x). Qed.
Lemma find_None {A} (p : A -> bool) l : (forall x, x ∈ l -> p x = false) -> List.find p l = None.
Proof. induction l as [|x l IH]; intros Hp; [done|]. cbn. rewrite (Hp x), IH; set_solver. Qed.

(** The child whose range holds a page has its entry. *)
Lemma find_child live previous cs ess page :
  branch_chain live previous cs -> child_lists cs ess -> 0 <= previous ->
  match List.find (fun c => (Agg.first (Node.aggregate c) <=? page) && (page <=? Agg.last (Node.aggregate c))) cs with
  | Some c => exists i es, cs !! i = Some c /\ ess !! i = Some es /\ find_page page (concat ess) = find_page page es
  | None => find_page page (concat ess) = None
  end.
Proof.
  intros Hch Hf. revert live previous Hch. induction Hf as [|c es cs ess (Ha & Hes & Hs) Hf IH]; intros live previous Hch Hp; [done|].
  cbn [branch_chain] in Hch. destruct Hch as ([] & _ & Hch). specialize (IH _ _ Hch ltac:(lia)).
  pose proof (chain_sorted _ _ _ _ Hch Hf ltac:(lia)) as [_ Hlater]%StronglySorted_inv.
  rewrite Forall_map, Forall_forall in Hlater.
  cbn [List.find concat]. unfold find_page in *. rewrite find_app.
  destruct (_ && _) eqn:Hin.
  - exists O, es. split; [done|]. split; [done|]. guards_in Hin. rewrite (find_None _ (concat ess)); [by destruct (List.find _ es)|].
    intros e He. specialize (Hlater _ He). apply Z.eqb_neq. lia.
  - rewrite (find_None _ es).
    + destruct (List.find _ cs); [|done]. destruct IH as (i & es' & Hz & Hz' & Hfd). by exists (S i), es'.
    + intros e He. destruct (entries_bounds _ _ Hs He) as [H1 H2]. rewrite <- Ha in H1, H2. apply Z.eqb_neq. intros E.
      rewrite E in *. by rewrite !(proj2 (Z.leb_le _ _)) in Hin by lia.
Qed.

Lemma lookup_loop_computes v height d es expected page :
  admits v -> tree known v height d es -> (expected = None \/ expected = Some (leaf_agg es)) ->
  computes (lookup_loop height v d expected page) (ok_or (find_page page es) LtxErr.LTXCorrupted).
Proof.
  intros Hv. revert d es expected. induction height as [|height IH]; intros d es expected (bytes & Hk & Hd & Ht) Hexp; cbn [lookup_loop].
  - destruct Ht as [Henc Hok]. destruct (verify_leaf_complete _ _ _ _ _ Henc Hok) as (h & Hh & Hkind & Hvl).
    eapply computes_bind_Ok; [by apply computes_read|]. eapply computes_bind_Ok; [rewrite Hh; apply computes_pure|].
    rewrite Hkind. cbn [Z.eqb]. unfold verify_leaf_of. rewrite Hvl.
    eapply computes_bind_Ok; [apply computes_pure|]. cbv beta iota. rewrite unexpected_leaf by done. apply computes_pure.
  - destruct Ht as (cs & ess & Henc & Hok & Hidx & Hf & ->).
    destruct (verify_branch_complete _ _ Henc Hok Hidx) as (h & Hh & Hkind & Hvb).
    pose proof (tree_child_lists _ _ _ _ _ Hf) as Hcl.
    rewrite <- (branch_agg_lists cs ess) in Hexp by (done || (intros ->; destruct Hok as [? _]; done)).
    eapply computes_bind_Ok; [by apply computes_read|]. eapply computes_bind_Ok; [rewrite Hh; apply computes_pure|].
    rewrite Hkind. cbn [Z.eqb]. rewrite Hvb.
    eapply computes_bind_Ok; [apply computes_pure|]. cbv beta iota. rewrite unexpected_leaf by done.
    pose proof (find_child 0 0 cs ess page (bo_chain _ Hok) Hcl ltac:(lia)) as Hfc.
    destruct (List.find _ cs) as [c|].
    + destruct Hfc as (i & es' & Hc & Hes & ->). eapply computes_bind_Ok; [apply computes_pure|].
      destruct (Forall2_lookup_lr _ _ _ _ _ _ Hf Hc Hes) as [Ha Ht]. apply IH; [done|]. right. by rewrite Ha.
    + rewrite Hfc. apply (computes_bind _ _ (Err LtxErr.LTXCorrupted) (fun _ => Err LtxErr.LTXCorrupted)); [apply computes_pure|done].
Qed.

(** ** Walks

    A walk is a sequence of events: it enters a node or visits a leaf. *)
Inductive event := Enter (d : Digest) | Leaf (es : list DirectoryEntry).
Definition leaves (evs : list event) : list DirectoryEntry :=
  concat (map (fun ev => match ev with Leaf es => es | Enter _ => [] end) evs).
Definition entered (evs : list event) : list Digest :=
  concat (map (fun ev => match ev with Enter d => [d] | Leaf _ => [] end) evs).

Lemma leaves_app a b : leaves (a ++ b) = leaves a ++ leaves b.
Proof. unfold leaves. by rewrite map_app, concat_app. Qed.
Lemma entered_app a b : entered (a ++ b) = entered a ++ entered b.
Proof. unfold entered. by rewrite map_app, concat_app. Qed.

(** The nodes below a digest, each before its children. *)
Fixpoint reaches (height : nat) (d : Digest) (ds : list Digest) : Prop :=
  match height with
  | O => ds = [d]
  | S height => exists bytes cs dss, known bytes /\ blake3 bytes = d /\ encode_branch cs = Ok bytes
      /\ Forall2 (fun c ds => reaches height (Node.digest c) ds) cs dss /\ ds = d :: concat dss
  end.

Section Walk.
Context {T : Type} (enter : T -> Digest -> LtxResult T) (leaf : T -> list DirectoryEntry -> LtxResult T)
  (keep : Node -> bool).

Fixpoint run_events (s : T) (evs : list event) : LtxResult T :=
  match evs with
  | [] => Ok s
  | Enter d :: evs => s ← enter s d; run_events s evs
  | Leaf es :: evs => s ← leaf s es; run_events s evs
  end.
Lemma run_events_app s a b : run_events s (a ++ b) = (s ← run_events s a; run_events s b).
Proof.
  revert s. induction a as [|[d|es] a IH]; intros s; [done|..]; cbn [app run_events].
  - destruct (enter s d); [|done]. cbn [mbind result_bind]. apply IH.
  - destruct (leaf s es); [|done]. cbn [mbind result_bind]. apply IH.
Qed.

Lemma pending_computes remaining v cs evss :
  Forall2 (fun c evs => forall s, computes (walk enter leaf keep remaining v (Node.digest c) (Some (Node.aggregate c)) s)
                                    (run_events s evs)) cs evss ->
  forall s, computes
    ((fix pending (cs : list Node) (s : T) : ReadM W T :=
        match cs with
        | [] => mret s
        | c :: cs => s ← walk enter leaf keep remaining v (Node.digest c) (Some (Node.aggregate c)) s; pending cs s
        end) cs s) (run_events s (concat evss)).
Proof.
  induction 1 as [|c evs cs evss Hc _ IH]; intros s; [apply computes_ret|]. cbn [concat]. rewrite run_events_app.
  apply computes_bind; [apply Hc|]. intros a _. apply IH.
Qed.

(** What a walk of a tree visits. *)
Record visits (height : nat) (v : Verification) (d : Digest) (es : list DirectoryEntry) (evs : list event) : Prop := {
  vi_walk expected s : (expected = None \/ expected = Some (leaf_agg es)) ->
    computes (walk enter leaf keep height v d expected s) (run_events s evs);
  vi_leaves (p : DirectoryEntry -> bool) :
    (forall c es', keep c = false -> Node.aggregate c = leaf_agg es' -> StronglySorted Z.lt (map DirEntry.page es') ->
                   forall e, e ∈ es' -> p e = false) ->
    List.filter p (leaves evs) = List.filter p es;
  vi_entered : (forall c, keep c = true) -> reaches height d (entered evs)
}.

Lemma filter_false {A} (p : A -> bool) l : (forall x, x ∈ l -> p x = false) -> List.filter p l = [].
Proof. induction l as [|x l IH]; intros Hp; [done|]. cbn. rewrite (Hp x), IH; set_solver. Qed.

Lemma kept_visits height v cs ess :
  Forall2 (fun c es => Node.aggregate c = leaf_agg es /\ tree known v height (Node.digest c) es
                       /\ exists evs, visits height v (Node.digest c) es evs) cs ess ->
  exists evss,
    (forall s, computes
      ((fix pending (cs : list Node) (s : T) : ReadM W T :=
        match cs with
        | [] => mret s
        | c :: cs => s ← walk enter leaf keep height v (Node.digest c) (Some (Node.aggregate c)) s; pending cs s
        end) (List.filter keep cs) s) (run_events s (concat evss)))
    /\ (forall p : DirectoryEntry -> bool,
         (forall c es', keep c = false -> Node.aggregate c = leaf_agg es' -> StronglySorted Z.lt (map DirEntry.page es') ->
                        forall e, e ∈ es' -> p e = false) ->
         List.filter p (leaves (concat evss)) = List.filter p (concat ess))
    /\ ((forall c, keep c = true) ->
         Forall2 (fun c ds => reaches height (Node.digest c) ds) cs (map entered evss)).
Proof.
  intros Hf. cut (exists evss,
    Forall2 (fun c evs => forall s, computes (walk enter leaf keep height v (Node.digest c) (Some (Node.aggregate c)) s)
                                      (run_events s evs)) (List.filter keep cs) evss
    /\ (forall p : DirectoryEntry -> bool,
         (forall c es', keep c = false -> Node.aggregate c = leaf_agg es' -> StronglySorted Z.lt (map DirEntry.page es') ->
                        forall e, e ∈ es' -> p e = false) ->
         List.filter p (leaves (concat evss)) = List.filter p (concat ess))
    /\ ((forall c, keep c = true) ->
         Forall2 (fun c ds => reaches height (Node.digest c) ds) cs (map entered evss))).
  { intros (evss & H1 & H2 & H3). exists evss. split; [|done]. by apply pending_computes. }
  induction Hf as [|c es cs ess (Ha & Ht & evs & [Hw Hl He]) _ (evss & IH1 & IH2 & IH3)]; [by exists []|].
  pose proof (eo_sorted _ _ (tree_entries _ _ _ _ _ Ht)) as Hsort. cbn [List.filter concat].
  destruct (keep c) eqn:Ek.
  - exists (evs :: evss). split; [constructor; [|done]; intros s; apply Hw; right; by rewrite Ha|]. split.
    + intros p Hp. cbn [concat]. by rewrite leaves_app, !List.filter_app, (Hl p Hp), (IH2 p Hp).
    + intros Hall. cbn [map]. constructor; [by apply He|by apply IH3].
  - exists evss. split; [done|]. split.
    + intros p Hp. rewrite List.filter_app, (IH2 p Hp), (filter_false p es); [done|]. by apply (Hp c es).
    + intros Hall. by rewrite Hall in Ek.
Qed.

Lemma walk_visits v height d es :
  admits v -> tree known v height d es -> exists evs, visits height v d es evs.
Proof.
  intros Hv. revert d es. induction height as [|height IH]; intros d es (bytes & Hk & Hd & Ht).
  - destruct Ht as [Henc Hok]. destruct (verify_leaf_complete _ _ _ _ _ Henc Hok) as (h & Hh & Hkind & Hvl).
    exists [Enter d; Leaf es]. constructor.
    + intros expected s Hexp. cbn [walk run_events]. eapply computes_bind_Ok; [by apply computes_read|].
      eapply computes_bind_Ok; [rewrite Hh; apply computes_pure|]. rewrite Hkind. cbn [Z.eqb].
      apply computes_bind; [apply computes_pure|]. intros s1 _. unfold verify_leaf_of. rewrite Hvl.
      eapply computes_bind_Ok; [apply computes_pure|]. cbv beta iota. rewrite unexpected_leaf by done.
      replace (leaf s1 es ≫= _) with (leaf s1 es) by (by destruct (leaf s1 es)). apply computes_pure.
    + intros p _. unfold leaves. cbn. by rewrite app_nil_r.
    + done.
  - destruct Ht as (cs & ess & Henc & Hok & Hidx & Hf & ->).
    destruct (verify_branch_complete _ _ Henc Hok Hidx) as (h & Hh & Hkind & Hvb).
    pose proof (tree_child_lists _ _ _ _ _ Hf) as Hcl.
    destruct (kept_visits height v cs ess) as (evss & Hw & Hl & He).
    { eapply Forall2_impl; [exact Hf|]. intros c es [Ha Ht]. split_and!; [done..|]. by apply IH. }
    exists (Enter d :: concat evss). constructor.
    + intros expected s Hexp. rewrite <- (branch_agg_lists cs ess) in Hexp by (done || (intros ->; destruct Hok as [? _]; done)).
      cbn [walk run_events]. eapply computes_bind_Ok; [by apply computes_read|].
      eapply computes_bind_Ok; [rewrite Hh; apply computes_pure|]. rewrite Hkind. cbn [Z.eqb].
      apply computes_bind; [apply computes_pure|]. intros s1 _. rewrite Hvb.
      eapply computes_bind_Ok; [apply computes_pure|]. cbv beta iota. rewrite unexpected_leaf by done. apply Hw.
    + intros p Hp. unfold leaves. cbn. fold (leaves (concat evss)). by apply Hl.
    + intros Hall. cbn [reaches]. exists bytes, cs, (map entered evss). split_and!; try done; [by apply He|].
      unfold entered at 1. cbn. f_equal. clear. induction evss as [|e evss IH]; [done|]. cbn.
      rewrite map_app, concat_app. f_equal. exact IH.
Qed.
End Walk.

(** ** Runs *)

Definition in_run (first last : Z) (e : DirectoryEntry) : bool :=
  (first <=? DirEntry.page e) && (DirEntry.page e <=? last).

(** The run of a list of entries, as [lookup_run] cuts it. *)
Definition run_of (v : Verification) (es : list DirectoryEntry) (first max_pages : Z) : LtxResult (list DirectoryEntry) :=
  if (max_pages =? 0) || (first =? 0) || (Ver.database_pages v <? first) then Ok []
  else
    last ← run_last v first max_pages;
    if last <? first then Ok []
    else
      let run := List.filter (in_run first last) es in
      if negb (len run =? last - first + 1) then Err LtxErr.LTXCorrupted else Ok run.

Lemma sorted_pages_filter (p : DirectoryEntry -> bool) es :
  StronglySorted Z.lt (map DirEntry.page es) -> StronglySorted Z.lt (map DirEntry.page (List.filter p es)).
Proof.
  induction es as [|e es IH]; intros Hs; [done|]. cbn in Hs. apply StronglySorted_inv in Hs as [Hs Hf].
  cbn [List.filter]. destruct (p e); [|by apply IH]. cbn [map]. constructor; [by apply IH|].
  rewrite Forall_map in *. apply Forall_forall. intros x Hx. rewrite Forall_forall in Hf. apply Hf.
  apply list_elem_of_In in Hx. apply list_elem_of_In. by apply filter_In in Hx as [? _].
Qed.

(** Distinct ascending pages that fill a range are the range. *)
Lemma sorted_fills l a b :
  StronglySorted Z.lt l -> Forall (fun x => a <= x <= b) l -> len l = b - a + 1 -> l = seqZ a (b - a + 1).
Proof.
  intros Hs Hf Hl. apply sorted_same; [done|apply sorted_seqZ| |rewrite length_seqZ; unfold len in Hl; lia].
  intros x Hx. rewrite Forall_forall in Hf. specialize (Hf _ Hx). apply elem_of_seqZ. lia.
Qed.

(** What a run is, in terms of single pages: page [p] belongs to the run that starts at
    [first] when it is one of the [max_pages] pages from there, lies in the database, and
    the lock page is not between them. *)
Definition in_window (v : Verification) (first max_pages p : Z) : bool :=
  (first <=? p) && (p <? first + max_pages) && (p <=? Ver.database_pages v)
  && negb ((first <=? lock_pgno (Ver.page_size v)) && (lock_pgno (Ver.page_size v) <=? p)).

(** A run is read when the directory has exactly the pages of the window. *)
Definition run_spec (v : Verification) (es : list DirectoryEntry) (first max_pages : Z) : LtxResult (list DirectoryEntry) :=
  if (max_pages =? 0) || (first =? 0) || (Ver.database_pages v <? first) then Ok []
  else if u32_max <? first + max_pages - 1 then Err LtxErr.LTXCorrupted
  else
    let run := List.filter (fun e => in_window v first max_pages (DirEntry.page e)) es in
    let wanted := List.filter (in_window v first max_pages) (seqZ first (Ver.database_pages v - first + 1)) in
    if bool_decide (map DirEntry.page run = wanted) then Ok run else Err LtxErr.LTXCorrupted.

(** The last page of a run bounds its window. *)
Lemma run_last_window v first max_pages :
  1 <= first <= Ver.database_pages v -> first + max_pages - 1 <= u32_max ->
  exists last, run_last v first max_pages = Ok last /\ last <= Ver.database_pages v
    /\ forall p, in_window v first max_pages p = (first <=? p) && (p <=? last).
Proof.
  intros Hf Hu. unfold run_last. rewrite (proj2 (checked_add_u32_Some _ _ (first + max_pages - 1))) by lia.
  cbn [ok_or mbind result_bind]. unfold in_window. set (lock := lock_pgno _).
  destruct (_ && _) eqn:Hb.
  - guards_in Hb. rewrite (proj2 (checked_sub_u64_Some lock 1 (lock - 1))) by lia. exists (lock - 1).
    split_and!; [done|lia|]. intros p. apply eq_true_iff_eq.
    rewrite !andb_true_iff, negb_true_iff, andb_false_iff, !Z.leb_le, !Z.leb_gt, Z.ltb_lt. lia.
  - eexists. split_and!; [done|lia|]. intros p. apply eq_true_iff_eq. apply andb_false_iff in Hb.
    rewrite !Z.leb_gt in Hb. rewrite !andb_true_iff, negb_true_iff, andb_false_iff, !Z.leb_le, !Z.leb_gt, Z.ltb_lt. lia.
Qed.

Lemma seqZ_filter_range first last count :
  last - first + 1 <= count ->
  List.filter (fun p => (first <=? p) && (p <=? last)) (seqZ first count) = seqZ first (last - first + 1).
Proof.
  intros Hc. destruct (Z.le_gt_cases first last) as [Hl|Hl].
  - replace count with ((last - first + 1) + (count - (last - first + 1))) by lia.
    rewrite seqZ_app, List.filter_app by lia.
    rewrite filter_keep, filter_false, app_nil_r; [done|..]; intros x Hx%elem_of_seqZ.
    + apply andb_false_iff. rewrite !Z.leb_gt. lia.
    + apply andb_true_iff. rewrite !Z.leb_le. lia.
  - rewrite (seqZ_nil _ (last - first + 1)) by lia. apply filter_false. intros x _.
    apply andb_false_iff. rewrite !Z.leb_gt. lia.
Qed.

(** [lookup_run] cuts the runs the specification names. *)
Lemma run_of_spec v es first max_pages :
  StronglySorted Z.lt (map DirEntry.page es) -> 0 <= first ->
  run_of v es first max_pages = run_spec v es first max_pages.
Proof.
  intros Hs Hf. unfold run_of, run_spec. destruct (_ || _) eqn:Hg; [done|]. guards_in Hg.
  destruct (Z.ltb_spec u32_max (first + max_pages - 1)) as [Hu|Hu].
  { unfold run_last. destruct (checked_add_u32 first (max_pages - 1)) eqn:E; [|done].
    apply checked_add_u32_Some in E. lia. }
  destruct (run_last_window v first max_pages) as (lst & -> & Hle & Hw); [lia..|]. cbn [mbind result_bind].
  assert (forall l, List.filter (in_window v first max_pages) l = List.filter (fun p => (first <=? p) && (p <=? lst)) l) as Ew
    by (intros l; apply filter_ext; intros p; apply Hw).
  assert (List.filter (fun e => in_window v first max_pages (DirEntry.page e)) es = List.filter (in_run first lst) es) as ->
    by (apply filter_ext; intros e; apply Hw).
  rewrite Ew, seqZ_filter_range by lia. set (run := List.filter (in_run first lst) es).
  assert (Forall (fun x => first <= x <= lst) (map DirEntry.page run)) as Hin.
  { apply Forall_map, Forall_forall. intros e [_ He]%elem_of_filter_bool. unfold in_run in He. by guards_in He. }
  destruct (Z.ltb_spec lst first) as [L|L].
  { rewrite seqZ_nil by lia. destruct run as [|e run]; [by rewrite bool_decide_eq_true_2|].
    apply Forall_cons in Hin as [? _]. lia. }
  destruct (Z.eqb_spec (len run) (lst - first + 1)) as [E|E]; cbn [negb].
  - rewrite bool_decide_eq_true_2; [done|]. apply sorted_fills; [by apply sorted_pages_filter|done|].
    unfold len. by rewrite length_map.
  - rewrite bool_decide_eq_false_2; [done|]. intros Hm. apply E. unfold len.
    rewrite <- (length_map DirEntry.page), Hm, length_seqZ. lia.
Qed.

Lemma check_run_ok first index es :
  map DirEntry.page es = seqZ (first + index) (len es) -> 0 <= first -> 0 <= index -> first + index + len es <= u32_max + 1 ->
  check_run first index es = Ok tt.
Proof.
  revert index. induction es as [|e es IH]; intros index Hp Hf Hi Hu; [done|]. rewrite len_cons in *.
  pose proof (len_nonneg es). rewrite seqZ_cons in Hp by lia. cbn [map] in Hp. injection Hp as He Hp. cbn [check_run].
  rewrite (proj2 (Z.ltb_ge _ _)) by lia. rewrite (proj2 (checked_add_u32_Some first index (first + index))) by lia.
  cbn [ok_or mbind result_bind]. rewrite He, Z.eqb_refl. cbn [negb]. apply IH; [|lia..]. rewrite Hp. f_equal; lia.
Qed.

Lemma lookup_run_computes v height d es first max_pages :
  admits v -> tree known v (Z.to_nat height) d es -> u32_ok (Ver.database_pages v) -> 0 <= first ->
  computes (lookup_run v d height first max_pages) (run_of v es first max_pages).
Proof.
  intros Hv Ht Hu Hfirst. unfold lookup_run, run_of.
  destruct (_ || _) eqn:Hg; [apply computes_ret|]. guards_in Hg. destruct Hg as [[_ Hf0] _].
  apply computes_bind; [apply computes_pure|]. intros last Hlast. destruct (Z.ltb_spec last first) as [L|L]; [apply computes_ret|].
  assert (last <= Ver.database_pages v) as Hld.
  { unfold run_last in Hlast. apply bind_Ok in Hlast as (req & _ & Hlast). destruct (_ && _) eqn:Hb; [|apply Ok_inj in Hlast; lia].
    guards_in Hb. apply ok_or_Ok, checked_sub_u64_Some in Hlast as [? ?]. lia. }
  set (leaf := fun s es0 : list DirectoryEntry => (Ok (s ++ List.filter (in_run first last) es0) : LtxResult (list DirectoryEntry))).
  set (enter := fun (s : list DirectoryEntry) (_ : Digest) => (Ok s : LtxResult (list DirectoryEntry))).
  destruct (walk_visits enter leaf
    (fun c => (first <=? Agg.last (Node.aggregate c)) && (Agg.first (Node.aggregate c) <=? last)) v _ d es Hv Ht) as (evs & [Hw Hl _]).
  eapply (computes_bind_Ok _ _ (List.filter (in_run first last) es)).
  { specialize (Hw None [] (or_introl eq_refl)).
    rewrite <- (Hl (in_run first last)).
    2: { intros c es' Hk Ha Hs e He. destruct (entries_bounds _ _ Hs He) as [H1 H2]. rewrite <- Ha in H1, H2.
         unfold in_run. guards_in Hk. apply andb_false_iff. rewrite !Z.leb_gt. lia. }
    replace (Ok (List.filter (in_run first last) (leaves evs))) with (run_events enter leaf [] evs); [exact Hw|].
    change (List.filter (in_run first last) (leaves evs)) with ([] ++ List.filter (in_run first last) (leaves evs)).
    clear. generalize (@nil DirectoryEntry) as s. induction evs as [|[x|x] evs IH]; intros s; cbn [run_events].
    - cbn. by rewrite app_nil_r.
    - change (enter s x) with (Ok s : LtxResult (list DirectoryEntry)). cbn [mbind result_bind]. rewrite IH. done.
    - change (leaf s x) with (Ok (s ++ List.filter (in_run first last) x) : LtxResult (list DirectoryEntry)).
      cbn [mbind result_bind]. rewrite IH. unfold leaves. cbn [map concat].
      by rewrite List.filter_app, app_assoc. }
  set (run := List.filter (in_run first last) es). destruct (Z.eqb_spec (len run) (last - first + 1)) as [E|E]; [|apply computes_fail].
  cbn [negb]. eapply computes_bind_Ok; [|apply computes_ret]. rewrite check_run_ok; [apply computes_pure| |lia|lia|].
  - rewrite Z.add_0_r, E. apply sorted_fills.
    + apply sorted_pages_filter. by apply tree_entries in Ht as [].
    + apply Forall_map, Forall_forall. intros e He. unfold run in He. apply list_elem_of_In in He.
      apply filter_In in He as [_ He]. unfold in_run in He. by guards_in He.
    + unfold len. rewrite length_map. exact E.
  - unfold u32_ok in Hu. lia.
Qed.

(** ** Complete directories *)

(** Every page of the database but the lock page has an entry. *)
Definition complete (v : Verification) (es : list DirectoryEntry) : Prop :=
  map DirEntry.page es = page_range (lock_pgno (Ver.page_size v)) 1 (Ver.database_pages v).

Lemma elem_of_page_range lock first count x :
  x ∈ page_range lock first count <-> first <= x < first + count /\ x <> lock.
Proof. unfold page_range. rewrite elem_of_filter_bool, elem_of_seqZ, negb_true_iff, Z.eqb_neq. done. Qed.

Lemma len_page_range lock n : 1 < lock -> 0 <= n ->
  len (page_range lock 1 n) = n - (if lock <=? n then 1 else 0).
Proof.
  intros Hl Hn0. pattern n. apply natlike_ind; [| |done]; [|clear n Hn0; intros n Hn IH].
  { destruct (Z.leb_spec lock 0); [lia|done]. }
  destruct (Z.eq_dec (1 + n) lock) as [E|E].
  - rewrite <- Z.add_1_r, page_range_snoc_lock, IH by lia. destruct (Z.leb_spec lock n), (Z.leb_spec lock (n + 1)); lia.
  - unfold page_range in *. rewrite <- Z.add_1_r, seqZ_app, List.filter_app, len_app, IH by lia.
    rewrite (seqZ_cons (1 + n) 1) by lia. cbn [List.filter]. rewrite (proj2 (Z.eqb_neq _ _) E). cbn [negb].
    change (seqZ (Z.succ (1 + n)) (Z.pred 1)) with (@nil Z). cbn [List.filter]. change (len [1 + n]) with 1.
    destruct (Z.leb_spec lock n), (Z.leb_spec lock (n + 1)); lia.
Qed.

(** Counting the entries is enough. *)
Lemma complete_count v es :
  entries_ok v es -> 1 < lock_pgno (Ver.page_size v) ->
  complete v es <-> len es = expected_pages (Ver.page_size v) (Ver.database_pages v).
Proof.
  intros [Hne Hs Hf] Hl. unfold complete, expected_pages.
  assert (0 <= Ver.database_pages v) as Hn.
  { destruct es as [|e es]; [done|]. apply Forall_cons in Hf as [[_ ? _ _ _ _ _ _] _]. lia. }
  rewrite <- len_page_range by done. split; intros E.
  - unfold len. by rewrite <- E, length_map.
  - apply sorted_same; [done|apply sorted_filter, sorted_seqZ| |].
    + intros x (e & -> & He)%list_elem_of_fmap. apply elem_of_page_range. rewrite Forall_forall in Hf. destruct (Hf _ He). lia.
    + rewrite length_map. unfold len in E. lia.
Qed.

Lemma verify_root_computes v height d es :
  admits v -> tree known v (Z.to_nat height) d es -> 0 <= height <= 3 ->
  computes (verify_root v d height)
    (if len es =? expected_pages (Ver.page_size v) (Ver.database_pages v) then Ok (leaf_agg es)
     else Err LtxErr.ChecksumMismatch).
Proof.
  intros Hv Ht Hh. pose proof (tree_entries _ _ _ _ _ Ht) as [Hne Hs Hf]. unfold verify_root.
  assert (forall e, e ∈ es -> 0 < DirEntry.page e <= Ver.database_pages v) as Hr.
  { intros e He. rewrite Forall_forall in Hf. by destruct (Hf _ He). }
  assert (0 < Agg.first (leaf_agg es) /\ Agg.last (leaf_agg es) <= Ver.database_pages v) as [H1 H2].
  { unfold leaf_agg. cbn [Agg.first Agg.last]. split.
    - destruct es as [|e es]; [done|]. cbn. apply Hr. set_solver.
    - destruct (last es) as [e|] eqn:E; [|by apply last_None in E]. cbn. apply Hr.
      apply last_Some in E as [? ->]. set_solver. }
  assert (0 < Ver.database_pages v) as Hn by (destruct es as [|e es]; [done|]; pose proof (Hr e (list_elem_of_here _ _)); lia).
  rewrite (proj2 (Z.ltb_ge 3 height)), (proj2 (Z.eqb_neq (Ver.database_pages v) 0)) by lia. cbn [orb].
  destruct (Z.to_nat height) as [|m] eqn:Em; destruct Ht as (bytes & Hk & Hd & Ht).
  - destruct Ht as [Henc Hok]. destruct (verify_leaf_complete _ _ _ _ _ Henc Hok) as (h & Hhd & Hkind & Hvl).
    eapply computes_bind_Ok; [by apply computes_read|]. eapply computes_bind_Ok; [rewrite Hhd; apply computes_pure|].
    rewrite Hkind, (proj2 (Z.eqb_eq height 0)) by lia. cbn [Z.eqb eqb_of negb]. unfold verify_leaf_of. rewrite Hvl.
    eapply computes_bind_Ok; [apply computes_pure|]. change (Agg.live_pages (leaf_agg es)) with (len es).
    rewrite (proj2 (Z.eqb_neq (Agg.first _) 0)), (proj2 (Z.ltb_ge _ _)) by lia.
    destruct (len es =? _); [apply computes_ret|apply computes_fail].
  - destruct Ht as (cs & ess & Henc & Hok & Hidx & Hfa & ->).
    destruct (verify_branch_complete _ _ Henc Hok Hidx) as (h & Hhd & Hkind & Hvb).
    eapply computes_bind_Ok; [by apply computes_read|]. eapply computes_bind_Ok; [rewrite Hhd; apply computes_pure|].
    rewrite Hkind, (proj2 (Z.eqb_neq height 0)) by lia. cbn [Z.eqb eqb_of negb]. rewrite Hvb.
    pose proof (tree_child_lists _ _ _ _ _ Hfa) as Hcl. cbn [mbind result_bind].
    rewrite (branch_agg_lists cs ess) by (done || (intros ->; destruct Hok as [? _]; done)).
    eapply computes_bind_Ok; [apply computes_pure|]. change (Agg.live_pages (leaf_agg ?x)) with (len x).
    rewrite (proj2 (Z.eqb_neq (Agg.first _) 0)), (proj2 (Z.ltb_ge _ _)) by lia.
    destruct (len _ =? _); [apply computes_ret|apply computes_fail].
Qed.

(** ** Spans *)

(** The frame of [b] follows that of [a] in the same object. *)
Definition follows (a b : DirectoryEntry) : Prop :=
  DirEntry.object a = DirEntry.object b /\ DirEntry.offset a + DirEntry.length a = DirEntry.offset b.

Record span_ok (s : Span.DirectorySpan) : Prop := {
  so_head : exists e, head (Span.entries s) = Some e /\ DirEntry.object e = Span.object s /\ DirEntry.offset e = Span.start s;
  so_last : exists e, last (Span.entries s) = Some e /\ DirEntry.object e = Span.object s
                      /\ DirEntry.offset e + DirEntry.length e = Span.ending s;
  so_chain : Sorted follows (Span.entries s)
}.

(** Adjacent spans cannot be joined. *)
Definition apart (s s' : Span.DirectorySpan) : Prop :=
  ~ (Span.object s = Span.object s' /\ Span.ending s = Span.start s').

Lemma Sorted_snoc {A} (R : A -> A -> Prop) l x :
  Sorted R l -> (forall y, last l = Some y -> R y x) -> Sorted R (l ++ [x]).
Proof.
  induction 1 as [|y l Hs IH Hy]; intros Hx; [by repeat constructor|]. cbn [app]. constructor.
  - apply IH. intros z Hz. apply Hx. destruct l; [done|exact Hz].
  - destruct Hy; cbn [app]; constructor; [by apply Hx|done].
Qed.

Lemma group_spans_ok es : Forall (fun e => 0 <= DirEntry.offset e + DirEntry.length e <= u64_max) es ->
  forall acc, Forall span_ok acc -> Sorted apart (rev acc) ->
  exists spans, group_spans acc es = Ok spans
    /\ concat (map Span.entries spans) = concat (map Span.entries (rev acc)) ++ es
    /\ Forall span_ok spans /\ Sorted apart spans.
Proof.
  induction 1 as [|e es He _ IH]; intros acc Hacc Hs; cbn [group_spans].
  { exists (rev acc). rewrite app_nil_r. split_and!; try done. by apply Forall_rev. }
  rewrite (proj2 (checked_add_u64_Some _ _ (DirEntry.offset e + DirEntry.length e))) by lia. cbn [ok_or mbind result_bind].
  set (fresh := Span.Mk (DirEntry.object e) (DirEntry.offset e) (DirEntry.offset e + DirEntry.length e) [e]).
  assert (span_ok fresh) as Hfresh by (constructor; [by exists e|by exists e|by repeat constructor]).
  assert ((forall s rest, acc = s :: rest -> apart s fresh) -> exists spans, group_spans (fresh :: acc) es = Ok spans
    /\ concat (map Span.entries spans) = concat (map Span.entries (rev acc)) ++ e :: es
    /\ Forall span_ok spans /\ Sorted apart spans) as Hnew.
  { intros Hap. destruct (IH (fresh :: acc)) as (spans & Hg & Hc & Hok & Hso); [by constructor| |].
    - cbn [rev]. apply Sorted_snoc; [done|]. intros y Hy. destruct acc as [|s rest]; [done|].
      cbn [rev] in Hy. rewrite last_snoc in Hy. injection Hy as <-. by eapply Hap.
    - exists spans. split_and!; try done. rewrite Hc. cbn [rev]. rewrite map_app, concat_app, <- app_assoc. done. }
  destruct acc as [|s rest]; [by apply Hnew|]. destruct (_ && _) eqn:Hj.
  2: { apply Hnew. intros ? ? [= <- <-] [Ho Hend]. cbn in Ho, Hend.
       rewrite bool_decide_eq_true_2, (proj2 (Z.eqb_eq _ _)) in Hj by done. done. }
  apply andb_true_iff in Hj as [Ho%bool_decide_eq_true Hend%Z.eqb_eq].
  apply Forall_cons in Hacc as [[Hhd (l & Hl & Hlo & Hle) Hch] Hrest].
  set (grown := Span.Mk _ _ _ _).
  destruct (IH (grown :: rest)) as (spans & Hg & Hc & Hok & Hso).
  - constructor; [|done]. constructor; cbn [grown Span.entries Span.object Span.start Span.ending].
    + destruct Hhd as (h & Hh & ?). exists h. destruct (Span.entries s); [done|]. done.
    + exists e. rewrite last_snoc. done.
    + apply Sorted_snoc; [done|]. intros y Hy. rewrite Hl in Hy. injection Hy as <-. split; [congruence|lia].
  - cbn [rev] in Hs |- *. clear -Hs. revert Hs. induction (rev rest) as [|a l IHl]; intros Hs; [by repeat constructor|].
    cbn [app] in Hs |- *. apply Sorted_inv in Hs as [Hs Ha]. constructor; [by apply IHl|].
    destruct l; cbn [app] in Ha |- *; apply HdRel_inv in Ha; by constructor.
  - exists spans. split_and!; try done. rewrite Hc. cbn [rev]. rewrite !map_app, !concat_app. cbn [map concat grown Span.entries].
    rewrite !app_nil_r, <- !app_assoc. done.
Qed.

Lemma lookup_spans_computes v height d es first max_pages run :
  admits v -> tree known v (Z.to_nat height) d es -> u32_ok (Ver.database_pages v) -> 0 <= first ->
  run_of v es first max_pages = Ok run ->
  exists spans, computes (lookup_spans v d height first max_pages) (Ok spans)
    /\ concat (map Span.entries spans) = run /\ Forall span_ok spans /\ Sorted apart spans.
Proof.
  intros Hv Ht Hu Hf Hrun. destruct (group_spans_ok run) with (acc := @nil Span.DirectorySpan) as (spans & Hg & Hc & Hok & Hso); [|constructor..|].
  - assert (forall e, e ∈ run -> e ∈ es) as Hsub.
    { unfold run_of in Hrun. destruct (_ || _); [apply Ok_inj in Hrun as <-; set_solver|].
      apply bind_Ok in Hrun as (last & _ & Hrun). destruct (_ <? _); [apply Ok_inj in Hrun as <-; set_solver|].
      destruct (negb _); [done|]. apply Ok_inj in Hrun as <-. intros e He. by apply elem_of_filter_bool in He as [? _]. }
    apply Forall_forall. intros e He%Hsub. destruct (tree_entries _ _ _ _ _ Ht) as [_ _ Hfe]. rewrite Forall_forall in Hfe.
    destruct (Hfe _ He) as [[] _ _ _ _ _ _ ?]. unfold u64_ok, u32_ok in *. lia.
  - exists spans. split; [|done]. apply (computes_bind_Ok _ _ run); [rewrite <- Hrun; by apply lookup_run_computes|].
    rewrite Hg. apply computes_pure.
Qed.

(** ** Walks of the whole tree *)

(** The page that may follow [p]. *)
Definition next_page (lock p : Z) : Z := if p + 1 =? lock then lock + 1 else p + 1.
Fixpoint covers (lock p : Z) (es : list DirectoryEntry) : bool :=
  match es with
  | [] => true
  | e :: es => (DirEntry.page e =? next_page lock p) && covers lock (DirEntry.page e) es
  end.

Definition last_page (p : Z) (es : list DirectoryEntry) : Z := default p (DirEntry.page <$> last es).
Lemma last_page_cons p e es : last_page p (e :: es) = last_page (DirEntry.page e) es.
Proof.
  unfold last_page. destruct es as [|e' es]; [done|]. rewrite last_cons_cons.
  destruct (last (e' :: es)) eqn:E; [done|by apply last_None in E].
Qed.

Lemma cover_entries_exact ps es : Forall (fun e => u32_ok (DirEntry.page e)) es -> forall p n r, 0 <= p ->
  cover_entries ps (MkCoverage p n r) es =
  if covers (lock_pgno ps) p es
  then Ok (MkCoverage (last_page p es) (n + len es) (foldl flag_xor r (map DirEntry.checksum es)))
  else Err LtxErr.LTXCorrupted.
Proof.
  induction 1 as [|e es He _ IH]; intros p n r Hp.
  { change (len (@nil DirectoryEntry)) with 0. by rewrite Z.add_0_r. }
  assert (cover_entry ps (MkCoverage p n r) e =
          if DirEntry.page e =? next_page (lock_pgno ps) p
          then Ok (MkCoverage (DirEntry.page e) (n + 1) (flag_xor r (DirEntry.checksum e))) else Err LtxErr.LTXCorrupted) as Hone.
  { unfold cover_entry, next_page. cbn [previous_page seen running]. unfold u32_ok in He.
    unfold checked_add_u32. destruct (Z.leb_spec (p + 1) u32_max) as [L|L]; cbn [ok_or mbind result_bind].
    - destruct (Z.eqb_spec (p + 1) (lock_pgno ps)) as [E|E]; [|by rewrite (proj2 (Z.leb_le _ _) L); cbn; destruct (_ =? _)].
      destruct (Z.leb_spec (lock_pgno ps + 1) u32_max); cbn; [by destruct (_ =? _)|]. by rewrite (proj2 (Z.eqb_neq _ _)) by lia.
    - by rewrite (proj2 (Z.eqb_neq (DirEntry.page e) _)) by (destruct (p + 1 =? lock_pgno ps) eqn:?; lia). }
  cbn [cover_entries covers]. rewrite Hone. destruct (_ =? _); [|done]. cbn [mbind result_bind andb].
  unfold u32_ok in He. rewrite IH by lia. rewrite last_page_cons, len_cons. cbn [map foldl]. by rewrite Z.add_assoc.
Qed.

Lemma cover_entries_app ps c a b :
  cover_entries ps c (a ++ b) = (c ← cover_entries ps c a; cover_entries ps c b).
Proof.
  revert c. induction a as [|e a IH]; intros c; [done|]. cbn [app cover_entries].
  destruct (cover_entry ps c e); [|done]. cbn [mbind result_bind]. apply IH.
Qed.

Lemma covers_range lock p es : covers lock p es = true -> p <> lock ->
  p <= last_page p es /\ map DirEntry.page es = page_range lock (p + 1) (last_page p es - p) /\ last_page p es <> lock.
Proof.
  revert p. induction es as [|e es IH]; intros p Hc Hp.
  { unfold last_page. cbn. rewrite Z.sub_diag. split_and!; [lia| |done]. unfold page_range. by rewrite seqZ_nil by lia. }
  cbn [covers] in Hc. apply andb_true_iff in Hc as [He%Z.eqb_eq Hc]. rewrite last_page_cons. unfold next_page in He.
  assert (DirEntry.page e <> lock) as Hne by (destruct (p + 1 =? lock) eqn:?; lia).
  destruct (IH _ Hc Hne) as (H1 & H2 & H3). cbn [map]. rewrite H2.
  revert He. destruct (Z.eqb_spec (p + 1) lock) as [E|E]; intros He.
  - split_and!; [lia| |done]. rewrite E, page_range_lock, (page_range_cons lock (lock + 1)) by lia. rewrite He. f_equal. f_equal; lia.
  - split_and!; [lia| |done]. rewrite (page_range_cons lock (p + 1)) by lia. rewrite He. f_equal. f_equal; lia.
Qed.

Lemma range_covers lock p n es : map DirEntry.page es = page_range lock (p + 1) n -> covers lock p es = true.
Proof.
  revert p n. induction es as [|e es IH]; intros p n Hm; [done|]. cbn [covers map] in *.
  assert (0 < n) as Hn.
  { destruct (Z.lt_ge_cases 0 n); [done|]. unfold page_range in Hm. by rewrite seqZ_nil in Hm by lia. }
  unfold next_page. destruct (Z.eqb_spec (p + 1) lock) as [E|E].
  - rewrite E, page_range_lock in Hm by done. destruct (Z.lt_ge_cases 0 (n - 1)).
    + rewrite page_range_cons in Hm by lia. injection Hm as He Hm. rewrite He, Z.eqb_refl. by eapply IH.
    + unfold page_range in Hm. by rewrite seqZ_nil in Hm by lia.
  - rewrite page_range_cons in Hm by lia. injection Hm as He Hm. rewrite He, Z.eqb_refl. by eapply IH.
Qed.

Lemma cover_end_exact v p n r :
  p <= Ver.database_pages v -> u32_ok (Ver.database_pages v) ->
  cover_end v (MkCoverage p n r) =
  if (p =? Ver.database_pages v)
     || ((p + 1 =? lock_pgno (Ver.page_size v)) && (lock_pgno (Ver.page_size v) =? Ver.database_pages v))
  then Ok (Ver.database_pages v) else Err LtxErr.LTXCorrupted.
Proof.
  intros Hp Hu. unfold cover_end, u32_ok in *. cbn [previous_page]. destruct (Z.ltb_spec p (Ver.database_pages v)) as [L|L].
  - rewrite (proj2 (checked_add_u32_Some p 1 (p + 1))) by lia. cbn [ok_or mbind result_bind].
    rewrite (proj2 (Z.eqb_neq p _)) by lia. cbn [orb]. destruct (_ =? _); [|done]. cbn [negb orb andb].
    destruct (Z.eqb_spec (lock_pgno (Ver.page_size v)) (Ver.database_pages v)) as [E|E]; [|done]. cbn [negb]. by rewrite E.
  - rewrite (proj2 (Z.eqb_eq p (Ver.database_pages v))) by lia. cbn [orb]. f_equal. lia.
Qed.

(** What [cover_entries] and [cover_end] accept is a complete directory. *)
Lemma complete_cover v es n r :
  entries_ok v es -> 1 < lock_pgno (Ver.page_size v) -> u32_ok (Ver.database_pages v) ->
  complete v es <-> covers (lock_pgno (Ver.page_size v)) 0 es = true
    /\ cover_end v (MkCoverage (last_page 0 es) n r) = Ok (Ver.database_pages v).
Proof.
  intros [Hne Hs Hf] Hl Hu. set (lock := lock_pgno (Ver.page_size v)) in *. set (N := Ver.database_pages v) in *.
  assert (0 < last_page 0 es <= N) as Hlast.
  { unfold last_page. destruct (last es) as [e|] eqn:E; [|by apply last_None in E]. cbn.
    apply last_Some in E as [l ->]. rewrite Forall_forall in Hf. destruct (Hf e) as [_ ? _ _ _ _ _ _]; [set_solver|done]. }
  assert (cover_end v (MkCoverage (last_page 0 es) n r) = Ok N <-> last_page 0 es = N \/ last_page 0 es + 1 = lock /\ lock = N) as ->.
  { rewrite cover_end_exact by (done || apply Hlast). fold lock N. destruct (_ || _) eqn:Hg.
    - split; [intros _|done]. apply orb_true_iff in Hg as [Hg|Hg]; guards_in Hg; lia.
    - split; [done|]. intros Ho. apply orb_false_iff in Hg as [Hg1 Hg2]. apply andb_false_iff in Hg2. rewrite !Z.eqb_neq in *. lia. }
  unfold complete. fold lock N. split.
  - intros Hm. split; [by eapply range_covers|]. pose proof (last_page_range lock N ltac:(lia) ltac:(lia)) as Hlp.
    rewrite <- Hm in Hlp. change (map DirEntry.page es) with (DirEntry.page <$> es) in Hlp. rewrite fmap_last in Hlp.
    unfold last_page. rewrite Hlp. cbn. destruct (Z.eqb_spec N lock); lia.
  - intros [Hc Hend]. apply covers_range in Hc as (_ & Hm & _); [|lia]. rewrite Hm, Z.sub_0_r, Z.add_0_l.
    destruct Hend as [->|[E1 E2]]; [done|]. rewrite <- (page_range_snoc_lock lock 1 (last_page 0 es)) by lia. f_equal. lia.
Qed.

Lemma foldl_flag_xor_sum r l : foldl flag_xor (Z.lor r CHECKSUM_FLAG) l = Z.lor (foldl Z.lxor r l) CHECKSUM_FLAG.
Proof.
  revert r. induction l as [|x l IH]; intros r; [done|]. cbn [foldl]. rewrite <- IH. f_equal.
  apply Z.bits_inj'. intros i Hi. unfold flag_xor.
  rewrite lor_flag_testbit, lor_flag_r_testbit, !Z.lxor_spec, lor_flag_r_testbit by done. by destruct (i =? 63).
Qed.

(** Whether a node is an object of the store. *)
Definition stored (v : Verification) (d : Digest) : bool :=
  match Ver.inline_root v with Some b => negb (bool_decide (blake3 b = d)) | None => true end.

Lemma inline_node_stored v d : inline_sized v -> exists o, inline_node v d = Ok o /\ is_none o = stored v d.
Proof.
  intros Hv. unfold inline_node, stored. destruct (Ver.inline_root v) as [b|] eqn:Eb; [|by exists None].
  pose proof (Hv b Eb) as Hl. rewrite (proj2 (Z.ltb_ge _ _)), (proj2 (Z.eqb_neq _ _)) by lia. cbn [orb].
  eexists. split; [done|]. by destruct (bool_decide _).
Qed.

Lemma reach_enter_ok v max_objects digests c d :
  inline_sized v -> is_some_and (fun limit => len digests =? limit) max_objects = false ->
  reach_enter v max_objects (digests, c) d = Ok (digests ++ List.filter (stored v) [d], c).
Proof.
  intros Hv Hm. unfold reach_enter. rewrite Hm. destruct (inline_node_stored v d Hv) as (o & -> & Ho).
  cbn [mbind result_bind List.filter]. rewrite Ho. destruct (stored v d); [done|]. by rewrite app_nil_r.
Qed.

Lemma filter_cons_app {A} (p : A -> bool) x l : List.filter p (x :: l) = List.filter p [x] ++ List.filter p l.
Proof. cbn. by destruct (p x). Qed.

Lemma reach_events v max_objects evs : inline_sized v -> forall digests c,
  (forall limit, max_objects = Some limit -> len digests + len (entered evs) <= limit) ->
  run_events (reach_enter v max_objects) (reach_leaf v) (digests, c) evs =
  (c' ← cover_entries (Ver.page_size v) c (leaves evs); Ok (digests ++ List.filter (stored v) (entered evs), c')).
Proof.
  intros Hv. induction evs as [|[d|es] evs IH]; intros digests c Hm.
  - cbn. by rewrite app_nil_r.
  - change (entered (Enter d :: evs)) with (d :: entered evs) in *. change (leaves (Enter d :: evs)) with (leaves evs).
    cbn [run_events]. rewrite reach_enter_ok; [|done|].
    2: { destruct max_objects as [limit|]; [|done]. specialize (Hm _ eq_refl). rewrite len_cons in Hm. cbn.
         pose proof (len_nonneg (entered evs)). apply Z.eqb_neq. lia. }
    cbn [mbind result_bind]. rewrite IH.
    + rewrite <- app_assoc, <- filter_cons_app. done.
    + intros limit E. specialize (Hm _ E). rewrite len_cons in Hm. rewrite len_app.
      assert (len (List.filter (stored v) [d]) <= 1) by (cbn; destruct (stored v d); vm_compute; discriminate). lia.
  - change (leaves (Leaf es :: evs)) with (es ++ leaves evs). change (entered (Leaf es :: evs)) with (entered evs) in *.
    cbn [run_events reach_leaf]. rewrite cover_entries_app. destruct (cover_entries _ c es); [|done].
    cbn [mbind result_bind]. by apply IH.
Qed.

Lemma reach_events_limit v limit evs : inline_sized v -> forall digests c c',
  cover_entries (Ver.page_size v) c (leaves evs) = Ok c' -> len digests <= limit ->
  limit < len digests + len (List.filter (stored v) (entered evs)) ->
  run_events (reach_enter v (Some limit)) (reach_leaf v) (digests, c) evs = Err (LtxErr.Limit Limit.RootInventoryObjects).
Proof.
  intros Hv. induction evs as [|[d|es] evs IH]; intros digests c c' Hc Hle Hlt.
  - change (len (List.filter _ _)) with 0 in Hlt. lia.
  - change (entered (Enter d :: evs)) with (d :: entered evs) in *. change (leaves (Enter d :: evs)) with (leaves evs) in *.
    cbn [run_events]. rewrite filter_cons_app, len_app in Hlt.
    destruct (Z.eqb_spec (len digests) limit) as [E|E].
    { unfold reach_enter. cbn [is_some_and]. by rewrite (proj2 (Z.eqb_eq _ _) E). }
    rewrite reach_enter_ok; [|done|by apply Z.eqb_neq]. cbn [mbind result_bind]. eapply IH; [done|..]; rewrite len_app; [|lia].
    assert (len (List.filter (stored v) [d]) <= 1) by (cbn; destruct (stored v d); vm_compute; discriminate). lia.
  - change (leaves (Leaf es :: evs)) with (es ++ leaves evs) in Hc. change (entered (Leaf es :: evs)) with (entered evs) in *.
    cbn [run_events reach_leaf]. rewrite cover_entries_app in Hc. apply bind_Ok in Hc as (c1 & Hc1 & Hc). rewrite Hc1.
    cbn [mbind result_bind]. by eapply IH.
Qed.

Lemma reachable_computes v height d es max_objects :
  admits v -> tree known v (Z.to_nat height) d es -> 0 <= height <= 3 ->
  1 < lock_pgno (Ver.page_size v) -> u32_ok (Ver.database_pages v) ->
  exists ds, reaches (Z.to_nat height) d ds
    /\ ((forall limit, max_objects = Some limit -> len ds <= limit) ->
        (complete v es -> computes (reachable_digests v d height (leaf_agg es) max_objects) (Ok (List.filter (stored v) ds)))
        /\ (~ complete v es -> computes (reachable_digests v d height (leaf_agg es) max_objects) (Err LtxErr.LTXCorrupted)))
    /\ (complete v es -> forall limit, max_objects = Some limit -> 0 <= limit < len (List.filter (stored v) ds) ->
        computes (reachable_digests v d height (leaf_agg es) max_objects) (Err (LtxErr.Limit Limit.RootInventoryObjects))).
Proof.
  intros Hv Ht Hh Hl Hu. pose proof (tree_entries _ _ _ _ _ Ht) as Heo. pose proof Heo as [Hne Hs Hf].
  destruct (walk_visits (reach_enter v max_objects) (reach_leaf v) (fun _ => true) v _ d es Hv Ht) as (evs & [Hw Hlv He]).
  exists (entered evs). split; [by apply He|].
  specialize (Hw _ ([], MkCoverage 0 0 CHECKSUM_FLAG) (or_intror eq_refl)).
  specialize (Hlv (fun _ => true) ltac:(done)). rewrite !filter_true in Hlv.
  assert (cover_entries (Ver.page_size v) (MkCoverage 0 0 CHECKSUM_FLAG) (leaves evs) =
          if covers (lock_pgno (Ver.page_size v)) 0 es
          then Ok (MkCoverage (last_page 0 es) (len es) (xor_sum (map DirEntry.checksum es)))
          else Err LtxErr.LTXCorrupted) as Hcov.
  { rewrite Hlv, cover_entries_exact; [|eapply Forall_impl; [exact Hf|]; intros e []; by destruct le_widths|lia].
    unfold xor_sum. rewrite <- foldl_flag_xor_sum. done. }
  pose proof (complete_cover v es (len es) (xor_sum (map DirEntry.checksum es)) Heo Hl Hu) as Hcc.
  assert (0 < Ver.database_pages v) as Hn.
  { destruct es as [|e0 ?]; [done|]. apply Forall_cons in Hf as [[_ ? _ _ _ _ _ _] _]. lia. }
  unfold reachable_digests. rewrite (proj2 (Z.ltb_ge 3 height)), (proj2 (Z.eqb_neq (Ver.database_pages v) 0)) by lia. cbn [orb].
  split.
  - intros Hm. rewrite (reach_events v max_objects evs (admits_sized _ Hv) [] _ Hm), Hcov in Hw. split; intros Hcomp.
    + pose proof Hcomp as [Hc Hend]%Hcc. rewrite Hc in Hw. cbn [mbind result_bind app] in Hw.
      eapply computes_bind_Ok; [exact Hw|]. cbv beta iota. rewrite Hend. eapply computes_bind_Ok; [apply computes_pure|].
      cbn [seen running]. apply (complete_count v es Heo Hl) in Hcomp. rewrite <- Hcomp.
      change (Agg.live_pages (leaf_agg es)) with (len es). change (Agg.checksum (leaf_agg es)) with (xor_sum (map DirEntry.checksum es)).
      rewrite !Z.eqb_refl. apply computes_ret.
    + destruct (covers _ 0 es) eqn:Hc; cbn [mbind result_bind app] in Hw.
      2: { apply (computes_bind _ _ (Err LtxErr.LTXCorrupted) (fun _ => Err LtxErr.LTXCorrupted)); [exact Hw|done]. }
      eapply computes_bind_Ok; [exact Hw|]. cbv beta iota.
      assert (cover_end v (MkCoverage (last_page 0 es) (len es) (xor_sum (map DirEntry.checksum es))) = Err LtxErr.LTXCorrupted) as ->.
      { revert Hcc. rewrite cover_end_exact; [by destruct (_ || _); [intros Hcc; destruct Hcomp; apply Hcc|]| |done].
        unfold last_page. destruct (last es) as [e|] eqn:El; [|by apply last_None in El]. cbn.
        apply last_Some in El as [l ->]. rewrite Forall_forall in Hf. destruct (Hf e) as [_ ? _ _ _ _ _ _]; [set_solver|lia]. }
      apply (computes_bind _ _ (Err LtxErr.LTXCorrupted) (fun _ => Err LtxErr.LTXCorrupted)); [apply computes_pure|done].
  - intros [Hc _]%Hcc limit -> Hlim. rewrite Hc in Hcov.
    rewrite (reach_events_limit v limit evs (admits_sized _ Hv) [] _ _ Hcov) in Hw by (change (len (@nil Digest)) with 0; lia).
    apply (computes_bind _ _ (Err (LtxErr.Limit Limit.RootInventoryObjects)) (fun _ => Err LtxErr.LTXCorrupted)); [exact Hw|done].
Qed.
End ReaderProofs.

(** ** The readers keep the promise *)

(** [objects] are the nodes of the store, [known] whatever may be answered and the
    inlined root, on which digests are unique. A sound host answers every request, and the origin
    has every object; a faulty one may fail or answer any known bytes. *)
Class StoreLaws (E : Type) `{NodeStore E, Blake3} (objects known : list byte -> Prop) := {
  store_faulty : E -> Prop;
  objects_known b : objects b -> known b;
  known_digests b b' : known b -> known b' -> blake3 b = blake3 b' -> b = b';
  disk_get_law d n e : (store_faulty (directory_cache_get d n e).1 -> store_faulty e)
    /\ match (directory_cache_get d n e).2 with
       | Ok (Some b) => known b
       | Ok None => True
       | Err _ => store_faulty e
       end;
  disk_put_law d b n e : store_faulty (directory_cache_put d b n e).1 -> store_faulty e;
  disk_invalidate_law d e : store_faulty (directory_cache_invalidate d e).1 -> store_faulty e;
  permit_law e : (store_faulty (io_permit e).1 -> store_faulty e)
    /\ ((io_permit e).2 = Ok tt \/ store_faulty e /\ exists err, (io_permit e).2 = Err err);
  origin_law d n e : (store_faulty (get_with_etag_bounded d n e).1 -> store_faulty e)
    /\ match (get_with_etag_bounded d n e).2 with Ok b => known b | Err _ => True end
    /\ (store_faulty e \/ forall b, objects b -> blake3 b = d -> len b <= n -> (get_with_etag_bounded d n e).2 = Ok b)
}.

Section StoreProofs.
Context {E : Type} `{HN : NodeStore E, HB : Blake3} (objects known : list byte -> Prop)
  `{!StoreLaws E objects known} (objects_small : forall b, objects b -> len b <= MAX_NODE_BYTES).

Definition cached_ok (c : Cache) : Prop :=
  forall d b, cache_get c (Immutable.key cache_identity incarnation_object_path d KDirectory) = Some b -> known b /\ blake3 b = d.
Definition state_ok (w : ReaderState E) : Prop := forall c, directories (bands w) = Some c -> cached_ok c.
Definition state_faulty (w : ReaderState E) : Prop := directories (bands w) = None \/ store_faulty (env w).

Definition answers (b : list byte) (w w' : ReaderState E) (r : LtxResult (list byte)) : Prop :=
  state_ok w' /\ (state_faulty w' -> state_faulty w) /\ (r = Ok b \/ state_faulty w /\ exists e, r = Err e).

(** The nodes at hand: those of the store and the inlined root. *)
Definition nodes_with (v : Verification) (b : list byte) : Prop := objects b \/ Ver.inline_root v = Some b.
Definition verification_ok (v : Verification) : Prop :=
  forall b, Ver.inline_root v = Some b -> known b /\ 0 < len b <= INLINE_DIRECTORY_BYTES.
Lemma nodes_known v b : verification_ok v -> nodes_with v b -> known b.
Proof. intros Hv [Hb|Hb]; [by apply objects_known|by apply Hv]. Qed.

Lemma known_same b b' : objects b -> known b' -> blake3 b' = blake3 b -> b' = b.
Proof. intros Hb Hk Hd. eapply known_digests; [done|by apply objects_known|done]. Qed.

Lemma fetch_node_law b e : objects b ->
  (store_faulty (fetch_node (blake3 b) e).1 -> store_faulty e)
  /\ ((fetch_node (blake3 b) e).2 = Ok b \/ store_faulty e /\ exists err, (fetch_node (blake3 b) e).2 = Err err).
Proof.
  intros Hb. unfold fetch_node. destruct (permit_law e) as [Hf Hp].
  change ((io_permit ≫= ?f) e) with (match io_permit e with (w, Ok a) => f a w | (w, Err x) => (w, Err x) end).
  destruct (io_permit e) as [e1 [[]|x]]; cbn [fst snd] in *; [|split; [done|]; right; split; [|by exists x]; by destruct Hp as [|[? _]]].
  destruct (origin_law (blake3 b) MAX_NODE_BYTES e1) as (Hf1 & Hk & Ho).
  change ((get_with_etag_bounded (blake3 b) MAX_NODE_BYTES ≫= ?f) e1)
    with (match get_with_etag_bounded (blake3 b) MAX_NODE_BYTES e1 with (w, Ok a) => f a w | (w, Err x) => (w, Err x) end).
  destruct (get_with_etag_bounded _ _ e1) as [e2 [b'|x]]; cbn [fst snd] in *.
  - destruct (bool_decide_reflect (blake3 b' = blake3 b)) as [Hd|Hd]; cbn.
    + split; [by auto|]. left. f_equal. by apply known_same.
    + split; [by auto|]. destruct Ho as [Ho|Ho]; [right; split; [by auto|by eexists]|].
      specialize (Ho b Hb eq_refl (objects_small _ Hb)). injection Ho as ->. done.
  - split; [by auto|]. destruct Ho as [Ho|Ho]; [right; split; [by auto|by eexists]|].
    by specialize (Ho b Hb eq_refl (objects_small _ Hb)).
Qed.

Lemma cache_fill_law b w w' r : objects b -> state_ok w -> cache_fill (blake3 b) b w = (w', r) -> answers b w w' r.
Proof.
  intros Hb Hok. unfold cache_fill, Immutable.insert, lock_band, band. cbn [mbind result_bind].
  destruct (directories (bands w)) as [c|] eqn:Ec; cbn [ok_or mbind result_bind].
  2: { intros [= <- <-]. split_and!; [done..|]. right. split; [by left|by eexists]. }
  destruct (cache_insert c _ b) as [c' b'] eqn:Ei. intros [= <- <-].
  pose proof (cache_insert_result c (Immutable.key cache_identity incarnation_object_path (blake3 b) KDirectory) b) as Hr.
  rewrite Ei in Hr. cbn [snd] in Hr. split_and!.
  - intros c0 [= <-]. intros d b0 Hg. pose proof (cache_insert_get c _ b _ b0 ltac:(rewrite Ei; exact Hg)) as [Hg'|[Hk ->]].
    + by apply (Hok c Ec).
    + unfold Immutable.key in Hk. injection Hk as _ ->. split; [by apply objects_known|done].
  - intros [?|?]; [done|by right].
  - left. f_equal. rewrite Hr. destruct (cache_get c _) as [b0|] eqn:Eg; [|done]. cbn.
    destruct (Hok c Ec _ _ Eg) as [Hk Hd]. by apply known_same.
Qed.

(** A reader gives the bytes, unless it was faulty. *)
Definition gives (m : ReadM (ReaderState E) (list byte)) (b : list byte) : Prop :=
  forall w, state_ok w -> answers b w (m w).1 (m w).2.

(** A step of the host that keeps the caches. *)
Lemma gives_host {A} (m : ReadM E A) (f : A -> ReadM (ReaderState E) (list byte)) b (P : A -> Prop) :
  (forall e, (store_faulty (m e).1 -> store_faulty e)
     /\ match (m e).2 with Ok a => P a | Err _ => store_faulty e end) ->
  (forall a, P a -> gives (f a) b) -> gives (host m ≫= f) b.
Proof.
  intros Hm Hf w Hw. destruct (Hm (env w)) as [Hs Hr].
  change ((host m ≫= f) w) with (match host m w with (w, Ok a) => f a w | (w, Err e) => (w, Err e) end).
  unfold host. destruct (m (env w)) as [e [a|err]]; cbn [fst snd] in *.
  - assert (state_ok (MkReader (bands w) e)) as Hw' by exact Hw.
    destruct (Hf a Hr _ Hw') as (H1 & H2 & H3). unfold state_faulty in H2, H3. cbn [bands env] in H2, H3.
    split_and!; [done|unfold state_faulty; tauto|]. destruct H3 as [H3|H3]; [by left|right]. unfold state_faulty. tauto.
  - split_and!; [exact Hw|unfold state_faulty; cbn; tauto|]. right. split; [by right|by exists err].
Qed.

Lemma gives_origin b : objects b ->
  gives (bytes ← host (fetch_node (blake3 b));
         _ ← host (ignore (directory_cache_put (blake3 b) bytes MAX_NODE_BYTES));
         cache_fill (blake3 b) bytes) b.
Proof.
  intros Hb. apply (gives_host _ _ _ (fun b' => b' = b)).
  { intros e. destruct (fetch_node_law b e Hb) as [Hf [-> |[Hs [err ->]]]]; done. }
  intros b' ->. apply (gives_host _ _ _ (fun _ => True)).
  { intros e. split; [apply disk_put_law|done]. }
  intros _ _ w Hw. destruct (cache_fill (blake3 b) b w) as [w' r] eqn:Ec. by apply cache_fill_law.
Qed.

Lemma inline_node_law v b : verification_ok v -> nodes_with v b ->
  inline_node v (blake3 b) = Ok None /\ objects b \/ inline_node v (blake3 b) = Ok (Some b).
Proof.
  intros Hv Hb. pose proof (nodes_known v b Hv Hb) as Hk. unfold nodes_with, inline_node in *.
  destruct (Ver.inline_root v) as [b'|] eqn:Eb; [|by destruct Hb; [left|]].
  destruct (Hv b' Eb) as [Ho Hl]. rewrite (proj2 (Z.ltb_ge _ _)), (proj2 (Z.eqb_neq _ _)) by lia. cbn [orb].
  destruct (bool_decide_reflect (blake3 b' = blake3 b)) as [Hd|Hd]; [right|left].
  - do 2 f_equal. by eapply known_digests.
  - split; [done|]. destruct Hb as [?|[= ->]]; done.
Qed.

Lemma read_node_cached_gives v b : verification_ok v -> nodes_with v b -> gives (read_node_cached v (blake3 b)) b.
Proof.
  intros Hv Hb w Hw. unfold read_node_cached. cbv zeta.
  change ((pure ?r ≫= ?f) w) with (match r with Ok a => f a w | Err e => (w, Err e) end).
  destruct (inline_node_law v b Hv Hb) as [[-> Ho]| ->]; [|by split_and!; [..|left]]. clear Hb. rename Ho into Hb.
  change ((cache_read ?d ≫= ?f) w) with (match (cache_read d w).2 with Ok a => f a w | Err e => (w, Err e) end).
  unfold cache_read, Immutable.get, lock_band, band. cbn [mbind result_bind snd].
  destruct (directories (bands w)) as [c|] eqn:Ec; cbn [ok_or mbind result_bind].
  2: { split_and!; [done..|]. right. split; [by left|by eexists]. }
  destruct (cache_get c _) as [b'|] eqn:Eg.
  { destruct (Hw c Ec _ _ Eg) as [Hk Hd]. split_and!; [done..|]. left. cbn. f_equal. by apply known_same. }
  revert w Hw c Ec Eg. cut (gives (persistent ← host (directory_cache_get (blake3 b) MAX_NODE_BYTES);
      match persistent with
      | Some bytes => if (len bytes <=? MAX_NODE_BYTES) && bool_decide (blake3 bytes = blake3 b)
                      then cache_fill (blake3 b) bytes
                      else _ ← host (ignore (directory_cache_invalidate (blake3 b)));
                           bytes ← host (fetch_node (blake3 b));
                           _ ← host (ignore (directory_cache_put (blake3 b) bytes MAX_NODE_BYTES));
                           cache_fill (blake3 b) bytes
      | None => bytes ← host (fetch_node (blake3 b));
                _ ← host (ignore (directory_cache_put (blake3 b) bytes MAX_NODE_BYTES));
                cache_fill (blake3 b) bytes
      end) b); [by auto|].
  apply (gives_host _ _ _ (fun o => match o with Some b' => known b' | None => True end)).
  { intros e. destruct (disk_get_law (blake3 b) MAX_NODE_BYTES e) as [Hf Hr]. split; [done|].
    by destruct (directory_cache_get _ _ e).2 as [[|]|]. }
  intros [b'|] Hk; [|by apply gives_origin]. destruct (_ && _) eqn:Hg.
  - apply andb_true_iff in Hg as [_ Hd%bool_decide_eq_true]. rewrite (known_same b b') by done.
    intros w Hw. destruct (cache_fill (blake3 b) b w) as [w' r] eqn:Ec. by apply cache_fill_law.
  - apply (gives_host _ _ _ (fun _ => True)); [|by intros; apply gives_origin].
    intros e. split; [apply disk_invalidate_law|done].
Qed.

Lemma read_node_uncached_gives v b : verification_ok v -> nodes_with v b -> gives (read_node_uncached v (blake3 b)) b.
Proof.
  intros Hv Hb w Hw. unfold read_node_uncached.
  change ((pure ?r ≫= ?f) w) with (match r with Ok a => f a w | Err e => (w, Err e) end).
  destruct (inline_node_law v b Hv Hb) as [[-> Ho]| ->]; [|by split_and!; [..|left]]. clear Hb. rename Ho into Hb.
  destruct (fetch_node_law b (env w) Hb) as [Hf Hr]. unfold host. destruct (fetch_node _ _) as [e r]. cbn [fst snd] in *.
  split_and!; [exact Hw|unfold state_faulty; cbn; tauto|]. destruct Hr as [->|[Hs He]]; [by left|right]. split; [by right|done].
Qed.
End StoreProofs.

(** The two readers as instances of the interface. *)
Section Instances.
Context {E : Type} `{HN : NodeStore E, HB : Blake3} (objects known : list byte -> Prop)
  `{HL : !StoreLaws E objects known} (objects_small : forall b, objects b -> len b <= MAX_NODE_BYTES).

Definition cached_reader : NodeReader (ReaderState E) := read_node_cached.
Definition uncached_reader : NodeReader (ReaderState E) := read_node_uncached.

Program Definition cached_laws v : @ReaderLaws (ReaderState E) cached_reader HB (nodes_with objects v) :=
  {| reader_ok := state_ok known; faulty := state_faulty objects known; admits := fun v' => v' = v /\ verification_ok known v |}.
Next Obligation. intros v ? [-> Hv] b Hb. by apply Hv. Qed.
Next Obligation.
  intros v ? d b w w' r [-> Hv] Hw Hb <- Hr. pose proof (read_node_cached_gives objects known objects_small v b Hv Hb w Hw) as Ha.
  unfold cached_reader, read_node in Hr. by rewrite Hr in Ha.
Qed.
Program Definition uncached_laws v : @ReaderLaws (ReaderState E) uncached_reader HB (nodes_with objects v) :=
  {| reader_ok := state_ok known; faulty := state_faulty objects known; admits := fun v' => v' = v /\ verification_ok known v |}.
Next Obligation. intros v ? [-> Hv] b Hb. by apply Hv. Qed.
Next Obligation.
  intros v ? d b w w' r [-> Hv] Hw Hb <- Hr. pose proof (read_node_uncached_gives objects known objects_small v b Hv Hb w Hw) as Ha.
  unfold uncached_reader, read_node in Hr. by rewrite Hr in Ha.
Qed.

(** From a sound state [w] the reading [m] ends in [r]; with a faulty host it may fail instead. *)
Definition reads_as {A} (w : ReaderState E) (m : ReadM (ReaderState E) A) (r : LtxResult A) : Prop :=
  state_ok known (m w).1 /\ (state_faulty objects known (m w).1 -> state_faulty objects known w)
  /\ ((m w).2 = r \/ state_faulty objects known w /\ exists e, (m w).2 = Err e).

Lemma cached_reads {A} v (m : ReadM (ReaderState E) A) r w :
  @computes _ cached_reader HB (nodes_with objects v) (cached_laws v) A m r -> state_ok known w -> reads_as w m r.
Proof. intros Hm Hw. exact (Hm w Hw). Qed.
Lemma uncached_reads {A} v (m : ReadM (ReaderState E) A) r w :
  @computes _ uncached_reader HB (nodes_with objects v) (uncached_laws v) A m r -> state_ok known w -> reads_as w m r.
Proof. intros Hm Hw. exact (Hm w Hw). Qed.

Lemma find_page_complete v es page :
  complete v es -> 1 <= page <= Ver.database_pages v -> page <> lock_pgno (Ver.page_size v) ->
  exists e, find_page page es = Some e /\ DirEntry.page e = page /\ e ∈ es.
Proof.
  intros Hc Hp Hl. unfold find_page. destruct (List.find _ es) as [e|] eqn:Ef.
  - apply find_some in Ef as [Hin He%Z.eqb_eq]. exists e. split_and!; [done..|]. by apply list_elem_of_In.
  - assert (page ∈ map DirEntry.page es) as (e & -> & He)%list_elem_of_fmap by (rewrite Hc; apply elem_of_page_range; lia).
    apply (find_none_all _ _ e) in Ef; [|done]. cbn beta in Ef. by rewrite Z.eqb_refl in Ef.
Qed.

(** C22: lookups read the directory they are given. Against a tree of authenticated
    nodes that stands for the entries [es], with the nodes read through the inlined
    root, the process cache, the disk cache and the origin, a lookup of a page ends
    in exactly the entry of that page; a run from [first] is exactly the entries of the
    pages among the [max_pages] from there that lie in the database and before the lock
    page, if the run starts before it, and fails when one of them has no entry; the
    spans of a run are its entries cut into maximal runs of adjacent frames of one
    object. A host that fails or answers other bytes can only make a reading fail. In a
    complete directory every page of the database but the lock page is found. *)
Theorem directory_reads_exact v height d es w page first max_pages :
  verification_ok known v -> tree (nodes_with objects v) v (Z.to_nat height) d es -> u32_ok (Ver.database_pages v) -> 0 <= first ->
  state_ok known w ->
  reads_as w (lookup (H := cached_reader) v d height page)
    (if (page =? 0) || (Ver.database_pages v <? page) then Err LtxErr.TxNotAvailable
     else ok_or (find_page page es) LtxErr.LTXCorrupted)
  /\ reads_as w (lookup_run (H := cached_reader) v d height first max_pages) (run_spec v es first max_pages)
  /\ (forall run, run_spec v es first max_pages = Ok run ->
       exists spans, reads_as w (lookup_spans (H := cached_reader) v d height first max_pages) (Ok spans)
         /\ concat (map Span.entries spans) = run /\ Forall span_ok spans /\ Sorted apart spans)
  /\ (complete v es -> 1 <= page <= Ver.database_pages v -> page <> lock_pgno (Ver.page_size v) ->
       exists e, find_page page es = Some e /\ DirEntry.page e = page /\ e ∈ es).
Proof.
  intros Hv Ht Hu Hf Hw. pose proof (eo_sorted _ _ (tree_entries _ _ _ _ _ Ht)) as Hsort.
  rewrite <- (run_of_spec v es first max_pages) by done. split_and!.
  - apply (cached_reads v); [|done]. unfold lookup. destruct (_ || _); [apply computes_fail|].
    apply lookup_loop_computes; [done..|by left].
  - apply (cached_reads v); [|done]. by apply lookup_run_computes.
  - intros run Hrun. pose (L := cached_laws v).
    destruct (lookup_spans_computes (HR := cached_reader) (nodes_with objects v) v height d es first max_pages run) as (spans & Hc & Hs); [done..|].
    exists spans. split; [|done]. by apply (cached_reads v).
  - apply find_page_complete.
Qed.

End Instances.

(** A small store: a branch over one leaf with two pages, answered by the origin alone. *)
Module SmallStore.
#[export] Instance digest : Blake3 := fun bytes => array_fill 32 (byte_of (sum_by (fun b => Z.of_N (to_N b)) bytes mod 256)).
Definition object : Digest := array_fill 32 x07.
Definition entry (page offset : Z) : DirectoryEntry := DirEntry.Mk page object offset 10 (array_fill 32 x09) CHECKSUM_FLAG.
Definition entries : list DirectoryEntry := [entry 1 100; entry 2 110].
Definition leaf_bytes : list byte := match encode_leaf entries with Ok b => b | Err _ => [] end.
Definition child : Node := Node.Mk 0 (blake3 leaf_bytes) (leaf_agg entries).
Definition root_bytes : list byte := match encode_branch [child] with Ok b => b | Err _ => [] end.
Definition node (b : list byte) : Prop := b = leaf_bytes \/ b = root_bytes.
Definition verification : Verification :=
  Ver.Mk 4096 2 None {[ object := MkExtent KLtx [(100, 120)] ]}.

#[export] Instance store : NodeStore unit := {|
  cache_identity := 1;
  incarnation_object_path := fun _ _ => "p";
  directory_cache_get := fun _ _ => mret None;
  directory_cache_put := fun _ _ _ => mret tt;
  directory_cache_invalidate := fun _ => mret tt;
  io_permit := mret tt;
  get_with_etag_bounded := fun d _ =>
    if bool_decide (d = blake3 leaf_bytes) then mret leaf_bytes
    else mret root_bytes
|}.
Definition state : ReaderState unit := MkReader (MkBands (Some cache_default) (Some cache_default)) tt.

Lemma digests_differ : blake3 leaf_bytes <> blake3 root_bytes.
Proof. vm_compute. discriminate. Qed.
Lemma nodes_unique b b' : node b -> node b' -> blake3 b = blake3 b' -> b = b'.
Proof. pose proof digests_differ. intros [->| ->] [->| ->] E; congruence. Qed.

#[export] Instance laws : StoreLaws unit node node.
Proof.
  refine {| store_faulty := fun _ => False; objects_known := fun b H => H; known_digests := nodes_unique |}; try done.
  - intros e. split; [done|by left].
  - intros d n e. cbn. destruct (bool_decide_reflect (d = blake3 leaf_bytes)) as [Hd|Hd]; cbn.
    + split_and!; [done|by left|]. right. intros b Hb Eb _. f_equal. apply nodes_unique; [by left|done|congruence].
    + split_and!; [done|by right|]. right. intros b [->| ->] Eb _; congruence.
Defined.

Lemma nodes_small b : node b -> len b <= MAX_NODE_BYTES.
Proof. intros [->| ->]; vm_compute; discriminate. Qed.

Lemma entry_ok page offset : page = 1 \/ page = 2 -> offset = 100 \/ offset = 110 ->
  leaf_entry 4096 2 (Ver.extents verification) 0 (entry page offset).
Proof.
  intros Hp Ho. destruct Hp as [->| ->], Ho as [->| ->]; constructor; try constructor; vm_compute; done.
Qed.

Lemma small_tree : tree (nodes_with node verification) verification (Z.to_nat 1) (blake3 root_bytes) entries.
Proof.
  exists root_bytes. split; [left; by right|]. split; [done|]. exists [child], [entries].
  split; [by vm_compute|]. split.
  { constructor; [by vm_compute|]. cbn [branch_chain]. split_and!; [|by vm_compute|done].
    constructor; try constructor; by vm_compute. }
  split; [by repeat constructor|]. split; [|done]. constructor; [|constructor]. split; [done|].
  exists leaf_bytes. split; [left; by left|]. split; [done|]. split; [by vm_compute|].
  constructor; [by vm_compute| |by vm_compute]. apply leaf_chain_of_entries.
  - repeat constructor; by vm_compute.
  - constructor; [apply entry_ok; tauto|]. constructor; [apply entry_ok; tauto|constructor].
Qed.

Lemma state_sound : state_ok node state.
Proof. intros c [= <-] d b Hg. by vm_compute in Hg. Qed.
Lemma inline_sound : verification_ok node verification.
Proof. intros b Hb. done. Qed.
End SmallStore.

#[local] Existing Instances SmallStore.digest SmallStore.store SmallStore.laws.

Lemma directory_reads_exact_witness :
  reads_as SmallStore.node SmallStore.node SmallStore.state
    (lookup (H := cached_reader) SmallStore.verification (blake3 SmallStore.root_bytes) 1 2)
    (if (2 =? 0) || (Ver.database_pages SmallStore.verification <? 2) then Err LtxErr.TxNotAvailable
     else ok_or (find_page 2 SmallStore.entries) LtxErr.LTXCorrupted)
  /\ reads_as SmallStore.node SmallStore.node SmallStore.state
    (lookup_run (H := cached_reader) SmallStore.verification (blake3 SmallStore.root_bytes) 1 1 5) (Ok SmallStore.entries)
  /\ find_page 2 SmallStore.entries = Some (SmallStore.entry 2 110).
Proof.
  destruct (directory_reads_exact SmallStore.node SmallStore.node SmallStore.nodes_small SmallStore.verification 1
    (blake3 SmallStore.root_bytes) SmallStore.entries SmallStore.state 2 1 5
    SmallStore.inline_sound SmallStore.small_tree) as (Hl & Hr & _);
    [split; by vm_compute|lia|exact SmallStore.state_sound|].
  split; [exact Hl|]. split; [|by vm_compute].
  replace (Ok SmallStore.entries : LtxResult (list DirectoryEntry)) with (run_spec SmallStore.verification SmallStore.entries 1 5)
    by (by vm_compute). exact Hr.
Defined.

