(* ===== verification/DirectoryShape.v ===== *)
(** * DirectoryShape: the directory a list of entries has

    The tree that stands for a list of entries is a function of the list and the
    height: the entries are cut where the index of the node they fall under
    changes, level by level. [canon] computes its root and all its nodes. This is
    the reference the builders of the directory are compared with; a tree of this
    shape whose nodes are at hand is readable by the lookups of [Directory]. *)

From Stdlib Require Import ZArith Lia.
From Stdlib Require Import Strings.Byte.
From stdpp Require Import base gmap strings numbers sorting.
From stdpp Require Import list.
From S2P Require Import Prelude OrdMap Bytes Identity LtxTypes Lz4 Ltx LtxCodec DirectoryNode ReplicaCache Directory.

Local Open Scope bool_scope.

(** The index of the node of [level] that a page falls under. *)
Definition slot (level : nat) (e : DirectoryEntry) : Z := (DirEntry.page e - 1) / FANOUT ^ (Z.of_nat level + 1).

Definition bytes_of (r : LtxResult (list byte)) : list byte := match r with Ok b => b | Err _ => [] end.

Section Canon.
Context `{Blake3}.

(** The root of the tree of [level] over the entries, and its nodes, children first. *)
Fixpoint canon (level : nat) (es : list DirectoryEntry) : Node * list (list byte) :=
  let index := default 0 (slot level <$> head es) in
  match level with
  | O => let b := bytes_of (encode_leaf es) in (Node.Mk index (blake3 b) (leaf_agg es), [b])
  | S l =>
      let kids := map (canon l) (chunk_by (slot l) es) in
      let b := bytes_of (encode_branch (map fst kids)) in
      (Node.Mk index (blake3 b) (leaf_agg es), concat (map snd kids) ++ [b])
  end.
Definition canon_root (level : nat) (es : list DirectoryEntry) : Node := (canon level es).1.
Definition canon_nodes (level : nat) (es : list DirectoryEntry) : list (list byte) := (canon level es).2.
Definition canon_bytes (level : nat) (es : list DirectoryEntry) : list byte :=
  match level with
  | O => bytes_of (encode_leaf es)
  | S l => bytes_of (encode_branch (map (canon_root l) (chunk_by (slot l) es)))
  end.

Lemma canon_root_eq level es :
  canon_root level es = Node.Mk (default 0 (slot level <$> head es)) (blake3 (canon_bytes level es)) (leaf_agg es).
Proof. destruct level; [done|]. unfold canon_root at 1, canon_bytes. cbn [canon fst]. by rewrite map_map. Qed.
Lemma canon_nodes_leaf es : canon_nodes 0 es = [canon_bytes 0 es].
Proof. done. Qed.
Lemma canon_nodes_branch l es :
  canon_nodes (S l) es = concat (map (canon_nodes l) (chunk_by (slot l) es)) ++ [canon_bytes (S l) es].
Proof. unfold canon_nodes at 1, canon_bytes. cbn [canon snd]. by rewrite !map_map. Qed.
Lemma canon_bytes_node level es : canon_bytes level es ∈ canon_nodes level es.
Proof. destruct level; [rewrite canon_nodes_leaf|rewrite canon_nodes_branch]; set_solver. Qed.

(** Entries that fall under the node [index] of [level]. *)
Record shaped (v : Verification) (level : nat) (index : Z) (es : list DirectoryEntry) : Prop := {
  sh_entries : entries_ok v es;
  sh_slot : Forall (fun e => slot level e = index) es
}.

Lemma slot_step level e : slot (S level) e = slot level e / FANOUT.
Proof.
  unfold slot, FANOUT. rewrite Nat2Z.inj_succ, <- Z.add_1_r, (Z.pow_add_r 256 (Z.of_nat level + 1) 1) by lia.
  rewrite Z.pow_1_r, Z.div_div; [done|apply Z.pow_nonzero; lia|lia].
Qed.
Lemma slot_mono level e e' : DirEntry.page e <= DirEntry.page e' -> slot level e <= slot level e'.
Proof. intros. unfold slot, FANOUT. apply Z.div_le_mono; [apply Z.pow_pos_nonneg|]; lia. Qed.

Lemma sorted_slots level es : StronglySorted Z.lt (map DirEntry.page es) -> StronglySorted Z.le (map (slot level) es).
Proof.
  induction es as [|e es IH]; intros Hs; [constructor|]. cbn [map] in *. apply StronglySorted_inv in Hs as [Hs Hf].
  constructor; [by apply IH|]. rewrite Forall_map in *. eapply Forall_impl; [exact Hf|]. simpl. intros x ?. apply slot_mono. lia.
Qed.

Lemma shaped_head v level index es : shaped v level index es -> default 0 (slot level <$> head es) = index.
Proof. intros [[Hne _ _] Hs]. destruct es as [|e es]; [done|]. by apply Forall_cons in Hs as [Hs _]. Qed.

(** *** Leaves *)

Lemma sorted_len_bound (l : list Z) a b : StronglySorted Z.lt l -> Forall (fun x => a <= x < b) l -> len l <= Z.max 0 (b - a).
Proof.
  revert a. induction l as [|x l IH]; intros a Hs Hf; [change (len (@nil Z)) with 0; lia|].
  apply StronglySorted_inv in Hs as [Hs Hx]. apply Forall_cons in Hf as [Ha Hf]. rewrite len_cons.
  assert (len l <= Z.max 0 (b - (x + 1))); [|lia]. apply IH; [done|].
  apply Forall_forall. intros y Hy. rewrite Forall_forall in Hx, Hf. specialize (Hx _ Hy). specialize (Hf _ Hy). lia.
Qed.

Lemma canon_leaf v index es : shaped v 0 index es ->
  encode_leaf es = Ok (canon_bytes 0 es) /\ leaf_ok (Ver.page_size v) (Ver.database_pages v) (Ver.extents v) es.
Proof.
  intros [[Hne Hs Hf] Hsl].
  assert (Forall (fun e => index * 256 + 1 <= DirEntry.page e < index * 256 + 257) es) as Hr.
  { eapply Forall_impl; [exact Hsl|]. simpl. intros e He. unfold slot, FANOUT in He. change (256 ^ (Z.of_nat 0 + 1)) with 256 in He.
    pose proof (Z.mul_div_le (DirEntry.page e - 1) 256). pose proof (Z.mul_succ_div_gt (DirEntry.page e - 1) 256). lia. }
  assert (0 < len es <= FANOUT) as Hlen.
  { split; [destruct es; [done|]; rewrite len_cons; pose proof (len_nonneg es); lia|].
    pose proof (sorted_len_bound (map DirEntry.page es) (index * 256 + 1) (index * 256 + 257) Hs) as Hb. rewrite Forall_map in Hb.
    specialize (Hb Hr). unfold len in *. rewrite length_map in Hb. unfold FANOUT. lia. }
  assert (StronglySorted Z.lt (0 :: map DirEntry.page es)) as Hs0.
  { constructor; [done|]. rewrite Forall_map. eapply Forall_impl; [exact Hf|]. by intros e []. }
  split.
  - unfold canon_bytes. cut (exists b, encode_leaf es = Ok b); [by intros [b ->]|].
    unfold encode_leaf. rewrite (proj2 (Z.eqb_neq _ _)), (proj2 (Z.ltb_ge _ _)) by lia. cbn [orb]. eexists.
    apply encode_leaf_records_iff; [done|]. split_and!; [done|done|]. eapply Forall_impl; [exact Hf|]. by intros e [].
  - constructor; [done|by apply leaf_chain_of_entries|].
    unfold leaf_agg. cbn [Agg.first Agg.last]. rewrite Forall_forall in Hsl.
    destruct (head es) as [e|] eqn:Eh; [|by destruct es]. destruct (last es) as [e'|] eqn:El; [|by apply last_None in El].
    cbn. transitivity index; [|symmetry]; apply Hsl.
    + destruct es; [done|]. injection Eh as ->. set_solver.
    + apply last_Some in El as [? ->]. set_solver.
Qed.

(** *** Branches *)

Lemma leaf_agg_child v es c previous : entries_ok v es -> Node.aggregate c = leaf_agg es -> u64_ok (len es) ->
  previous < Agg.first (leaf_agg es) -> child_ok previous c.
Proof.
  intros [Hne Hs Hf] Ha Hl Hp.
  assert (forall e, e ∈ es -> 0 < DirEntry.page e /\ u32_ok (DirEntry.page e) /\ u64_ok (DirEntry.checksum e)) as Hin.
  { intros e He. rewrite Forall_forall in Hf. destruct (Hf _ He) as [[] ? _ _ _ _ _ _]. by split_and!; [lia|..]. }
  destruct (head es) as [e|] eqn:Eh; [|by destruct es]. destruct (last es) as [e'|] eqn:El; [|by apply last_None in El].
  assert (e ∈ es) as He by (destruct es; [done|]; injection Eh as ->; set_solver).
  assert (e' ∈ es) as He' by (apply last_Some in El as [? ->]; set_solver).
  assert (leaf_agg es = Agg.Mk (len es) (xor_sum (map DirEntry.checksum es)) (DirEntry.page e) (DirEntry.page e')) as Hagg.
  { unfold leaf_agg. by rewrite Eh, El. }
  destruct (Hin _ He) as (H1 & H2 & _). destruct (Hin _ He') as (_ & H3 & _).
  assert (u64_ok (xor_sum (map DirEntry.checksum es))) as Hx.
  { apply xor_sum_u64. rewrite Forall_map. apply Forall_forall. intros x Hx. by apply Hin. }
  pose proof (leaf_agg_range es Hne Hs) as Hrange.
  constructor; rewrite ?Ha, ?Hagg in *; cbn [Agg.first Agg.last Agg.live_pages Agg.checksum] in *; try done; try lia.
  - constructor; rewrite Ha; done.
  - destruct es; [done|]. rewrite len_cons. pose proof (len_nonneg es). lia.
  - unfold xor_sum. by rewrite Z.lor_comm, land_flag_lor.
Qed.

Lemma chain_of_lists v cs ess live previous :
  Forall2 (fun c es => Node.aggregate c = leaf_agg es) cs ess -> Forall (entries_ok v) ess ->
  StronglySorted Z.lt (previous :: map DirEntry.page (concat ess)) -> 0 <= previous -> 0 <= live ->
  live + len (concat ess) <= u64_max -> branch_chain live previous cs.
Proof.
  intros Hf. revert live previous. induction Hf as [|c es cs ess Ha _ IH]; intros live previous He Hs Hp Hl Hu; [done|].
  apply Forall_cons in He as [He Hes]. cbn [concat] in Hs, Hu. rewrite map_app in Hs. rewrite len_app in Hu.
  pose proof (len_nonneg es). pose proof (len_nonneg (concat ess)).
  apply StronglySorted_inv in Hs as [Hs Hpf]. apply StronglySorted_app in Hs as (Hlt & Hs1 & Hs2).
  assert (Agg.first (leaf_agg es) ∈ map DirEntry.page es /\ Agg.last (leaf_agg es) ∈ map DirEntry.page es) as [Hfirst Hlast].
  { destruct He as [Hne _ _]. unfold leaf_agg. cbn [Agg.first Agg.last]. split; apply list_elem_of_fmap.
    - destruct es as [|e es]; [done|]. exists e. split; [done|set_solver].
    - destruct (last es) as [e|] eqn:El; [|by apply last_None in El]. exists e. split; [done|]. apply last_Some in El as [? ->]. set_solver. }
  rewrite Forall_forall in Hpf. cbn [branch_chain]. rewrite Ha. split.
  { apply (leaf_agg_child v es); [done|done|unfold u64_ok; lia|]. apply Hpf. set_solver. }
  change (Agg.live_pages (leaf_agg es)) with (len es). split; [lia|]. apply IH; [done| | |lia|lia].
  - constructor; [done|]. apply Forall_forall. intros x Hx. by apply Hlt.
  - assert (previous < Agg.last (leaf_agg es)) by (apply Hpf; set_solver). lia.
Qed.

Lemma sorted_part (ls : list (list Z)) : StronglySorted Z.lt (concat ls) -> Forall (StronglySorted Z.lt) ls.
Proof.
  induction ls as [|l ls IH]; intros Hs; [constructor|]. cbn in Hs. apply StronglySorted_app in Hs as (_ & H1 & H2).
  constructor; [done|by apply IH].
Qed.

(** The chunks of a list that falls under a branch fall under its children. *)
Lemma shaped_chunks v level index es : shaped v (S level) index es ->
  exists ks, StronglySorted Z.lt ks /\ Forall2 (fun k c => shaped v level k c /\ k / FANOUT = index) ks (chunk_by (slot level) es).
Proof.
  intros [[Hne Hs Hf] Hsl]. destruct (chunk_by_keys (slot level) es (sorted_slots level es Hs)) as (ks & Hks & Hc).
  exists ks. split; [done|]. pose proof (chunk_by_concat (slot level) es) as Hcc.
  assert (Forall (fun c => StronglySorted Z.lt (map DirEntry.page c)) (chunk_by (slot level) es)) as Hsc.
  { rewrite <- Hcc, concat_map in Hs. apply sorted_part in Hs. by rewrite Forall_map in Hs. }
  assert (forall c e, c ∈ chunk_by (slot level) es -> e ∈ c -> e ∈ es) as Hin.
  { intros c e Hc1 He. rewrite <- Hcc. apply list_elem_of_In, in_concat. exists c. rewrite <- !list_elem_of_In. done. }
  assert (Forall (fun c => c ∈ chunk_by (slot level) es) (chunk_by (slot level) es)) as Hself by (by apply Forall_forall).
  revert Hc Hsc Hself. generalize (chunk_by (slot level) es) at 1 2 4 5. intros cs Hc.
  induction Hc as [|k c ks cs [Hcne Hck] _ IH]; intros Hsc Hself; [constructor|].
  apply Forall_cons in Hsc as [Hsc1 Hsc]. apply Forall_cons in Hself as [Hself1 Hself]. apply StronglySorted_inv in Hks as [Hks _].
  constructor; [|by apply IH]. rewrite Forall_forall in Hck. split.
  - constructor; [|by apply Forall_forall]. constructor; [done|done|]. apply Forall_forall. intros e He.
    rewrite Forall_forall in Hf. by eapply Hf, Hin.
  - destruct c as [|e c]; [done|]. rewrite <- (Hck e) by set_solver. rewrite <- slot_step. rewrite Forall_forall in Hsl.
    eapply Hsl, Hin; [done|set_solver].
Qed.

Lemma pages_len v es : entries_ok v es -> len es <= u32_max.
Proof.
  intros [_ Hs Hf]. pose proof (sorted_len_bound (map DirEntry.page es) 1 (u32_max + 1) Hs) as Hb. rewrite Forall_map in Hb.
  unfold len in *. rewrite length_map in Hb. unfold u32_max in *. apply Z.le_trans with (Z.max 0 (4294967295 + 1 - 1)); [|lia].
  apply Hb. eapply Forall_impl; [exact Hf|]. intros e [[] ? _ _ _ _ _ _]. unfold u32_ok, u32_max in *. lia.
Qed.

Lemma canon_branch v level index es (f : Node -> Z) : shaped v (S level) index es ->
  let cs := map (fun c => at_index (f c) c) (map (canon_root level) (chunk_by (slot level) es)) in
  encode_branch cs = Ok (canon_bytes (S level) es) /\ branch_ok cs /\ branch_agg cs = leaf_agg es.
Proof.
  intros Hsh cs. destruct (shaped_chunks _ _ _ _ Hsh) as (ks & Hks & Hf).
  pose proof Hsh as [[Hne Hs Hfe] Hsl]. pose proof (chunk_by_concat (slot level) es) as Hcc.
  assert (Forall2 (fun c es => Node.aggregate c = leaf_agg es) cs (chunk_by (slot level) es)) as Hagg.
  { unfold cs. rewrite map_map. generalize (chunk_by (slot level) es). intros l. induction l; constructor; [|done].
    by rewrite canon_root_eq. }
  assert (Forall (entries_ok v) (chunk_by (slot level) es)) as Hok.
  { apply Forall_forall. intros c [i Hi]%list_elem_of_lookup. by destruct (Forall2_lookup_r _ _ _ _ _ Hf Hi) as (k & _ & [[? _] _]). }
  assert (len cs = len ks /\ len cs = len (chunk_by (slot level) es)) as [Hlen Hlen'].
  { unfold len. rewrite (Forall2_length _ _ _ Hagg). split; [|done]. by rewrite (Forall2_length _ _ _ Hf). }
  assert (branch_ok cs) as Hbo.
  { constructor.
    - split.
      + rewrite Hlen'. destruct (chunk_by (slot level) es) as [|c l]; [by subst es|]. rewrite len_cons. pose proof (len_nonneg l). lia.
      + rewrite Hlen. pose proof (sorted_len_bound ks (index * 256) (index * 256 + 256) Hks) as Hb. unfold FANOUT in *.
        apply Z.le_trans with (Z.max 0 (index * 256 + 256 - index * 256)); [|lia]. apply Hb.
        apply Forall_forall. intros k [i Hi]%list_elem_of_lookup. destruct (Forall2_lookup_l _ _ _ _ _ Hf Hi) as (c & _ & [_ Hk]).
        pose proof (Z.mul_div_le k 256). pose proof (Z.mul_succ_div_gt k 256). lia.
    - apply (chain_of_lists v cs (chunk_by (slot level) es)); [done|done| |lia|lia|].
      + rewrite Hcc. constructor; [done|]. rewrite Forall_map. eapply Forall_impl; [exact Hfe|]. by intros e [].
      + rewrite Hcc. pose proof (pages_len v es (sh_entries _ _ _ _ Hsh)). unfold u32_max, u64_max in *. lia. }
  split_and!; [|done|].
  - unfold canon_bytes. rewrite <- (encode_branch_at (map _ _) f). fold cs. by rewrite (encode_branch_ok cs Hbo).
  - transitivity (leaf_agg (concat (chunk_by (slot level) es))); [|by rewrite Hcc]. apply branch_agg_lists.
    + intros E. destruct Hbo as [Hz _]. rewrite E in Hz. change (len (@nil Node)) with 0 in Hz. lia.
    + clear -Hagg Hok. revert Hok. induction Hagg as [|c es' cs' ess Ha _ IH]; intros Hok; constructor.
      * apply Forall_cons in Hok as [[] _]. done.
      * apply IH. by apply Forall_cons in Hok as [_ ?].
Qed.

Lemma at_index_same c : at_index (Node.index c) c = c.
Proof. by destruct c. Qed.

Lemma map_at_index_same cs : map (fun c => at_index (Node.index c) c) cs = cs.
Proof. induction cs as [|c cs IH]; [done|]. cbn [map]. by rewrite at_index_same, IH. Qed.

(** What a builder computes of a shaped node. *)
Lemma canon_from_bytes v level index es : shaped v level index es ->
  from_bytes index (canon_bytes level es) = Ok (canon_root level es).
Proof.
  intros Hsh. rewrite canon_root_eq, (shaped_head _ _ _ _ Hsh). destruct level as [|level].
  - destruct (canon_leaf v index es Hsh) as [Henc _]. rewrite (from_bytes_leaf index es _ Henc); [done|].
    destruct Hsh as [[_ _ Hf] _]. eapply Forall_impl; [exact Hf|]. by intros e [].
  - destruct (canon_branch v level index es Node.index Hsh) as (Henc & Hok & Ha). by rewrite (from_bytes_branch index _ _ Henc Hok), Ha.
Qed.

(** Entries of the nodes determine nothing more: equal bytes have equal roots. *)
Lemma canon_bytes_agg v v' level index es es' :
  shaped v level index es -> shaped v' level index es' -> canon_bytes level es = canon_bytes level es' ->
  canon_root level es = canon_root level es'.
Proof.
  intros H1 H2 E. pose proof (canon_from_bytes _ _ _ _ H1) as E1. rewrite E, (canon_from_bytes _ _ _ _ H2) in E1.
  by apply Ok_inj in E1.
Qed.

(** ** A shaped directory is readable *)

Lemma canon_tree objects v level index es :
  shaped v level index es -> Forall objects (canon_nodes level es) ->
  tree objects v level (Node.digest (canon_root level es)) es.
Proof.
  revert index es. induction level as [|level IH]; intros index es Hsh Hob; rewrite canon_root_eq; cbn [Node.digest].
  - exists (canon_bytes 0 es). rewrite canon_nodes_leaf in Hob. apply Forall_cons in Hob as [Hob _].
    split; [done|]. split; [done|]. by eapply canon_leaf.
  - exists (canon_bytes (S level) es). rewrite canon_nodes_branch in Hob. apply Forall_app in Hob as [Hkids Hob].
    apply Forall_cons in Hob as [Hob _]. split; [done|]. split; [done|].
    destruct (canon_branch v level index es (fun _ => 0) Hsh) as (Henc & Hok & _).
    eexists _, (chunk_by (slot level) es). split_and!; [exact Henc|exact Hok| | |by rewrite chunk_by_concat].
    + apply Forall_forall. by intros c (c' & -> & _)%list_elem_of_fmap.
    + destruct (shaped_chunks _ _ _ _ Hsh) as (ks & _ & Hf). rewrite map_map. clear -Hf Hkids IH.
      induction Hf as [|k c ks cs [Hc _] _ IHf]; [constructor|]. cbn [map concat] in *. apply Forall_app in Hkids as [Hk Hkids].
      constructor; [|by apply IHf]. split; [by rewrite canon_root_eq|]. by eapply IH.
Qed.
End Canon.
