(* ===== verification/DirectoryUpdate.v ===== *)
(** * DirectoryUpdate: incremental update of the page directory

    Models [crates/cellule-ltx/src/replica/directory/update.rs]: the changed
    pages of the new segments are grouped by leaf, the nodes on their paths are
    rewritten over the nodes of the old tree, subtrees beyond a truncation are
    dropped unread, and the tree grows at the top when the database does. *)

From Stdlib Require Import ZArith Lia.
From Stdlib Require Import Strings.Byte.
From stdpp Require Import base gmap strings numbers sorting.
From stdpp Require Import list.
From S2P Require Import Prelude OrdMap Bytes Identity LtxTypes Lz4 Ltx LtxCodec PagedIndex DirectoryNode ReplicaCache Directory DirectoryShape.

Local Open Scope bool_scope.

(** ** Data *)

Module DirObject.
(*@ cellule-ltx/src/replica/directory/mod.rs 43-46 DirectoryObject *)
Record DirectoryObject := Mk { digest : Digest; bytes : list byte }.
End DirObject.
Abbreviation DirectoryObject := DirObject.DirectoryObject.

Module DirTree.
(*@ cellule-ltx/src/replica/directory/mod.rs 48-52 DirectoryTree *)
Record DirectoryTree := Mk { objects : list DirectoryObject; root : Node; height : Z }.
End DirTree.
Abbreviation DirectoryTree := DirTree.DirectoryTree.

Module DirRoot.
(*@ cellule-ltx/src/replica/directory/mod.rs 158-162 DirectoryRoot *)
Record DirectoryRoot := Mk { digest : Digest; height : Z; aggregate : Aggregate }.
End DirRoot.
Abbreviation DirectoryRoot := DirRoot.DirectoryRoot.

Abbreviation ChangedLeaves := (OrdMap (list DirectoryEntry)).

Definition is_empty {A} (l : list A) : bool := match l with [] => true | _ => false end.

(** ** Positions *)

(*@ cellule-ltx/src/replica/directory/update.rs 420-425 node_span *)
Fixpoint node_span (level : nat) : LtxResult Z :=
  match level with
  | O => Ok 1
  | S level =>
      span ← node_span level;
      ok_or (if span * FANOUT <=? u64_max then Some (span * FANOUT) else None) LtxErr.LTXCorrupted
  end.

(** [u32::try_from]. *)
Definition try_u32 (z : Z) : LtxResult Z := if (0 <=? z) && (z <=? u32_max) then Ok z else Err LtxErr.LTXCorrupted.

(*@ cellule-ltx/src/replica/directory/update.rs 415-418 node_index_for_leaf *)
Definition node_index_for_leaf (leaf : Z) (level : nat) : LtxResult Z :=
  span ← node_span level; try_u32 (leaf / span).

(*@ cellule-ltx/src/replica/directory/update.rs 408-413 index_for_page *)
Definition index_for_page (page : Z) (level : nat) : LtxResult Z :=
  if page =? 0 then Err LtxErr.LTXCorrupted else node_index_for_leaf ((page - 1) / FANOUT) level.

(** ** Changes *)

(*@ cellule-ltx/src/replica/directory/update.rs 359-375 group_changes *)
Fixpoint group_changes (page_size database_pages : Z) (changes : OrdMap DirectoryEntry) (leaves : ChangedLeaves)
  : LtxResult ChangedLeaves :=
  match changes with
  | [] => Ok leaves
  | (page, entry) :: changes =>
      if negb (page =? DirEntry.page entry) || (page =? 0) || (database_pages <? page) || (page =? lock_pgno page_size)
      then Err LtxErr.LTXCorrupted
      else
        let leaf := (page - 1) / FANOUT in
        group_changes page_size database_pages changes
          (om_insert leaf (default [] (om_lookup leaf leaves) ++ [entry]) leaves)
  end.

(*@ cellule-ltx/src/replica/directory/update.rs 377-389 changes_for_node *)
Definition changes_for_node (changes : ChangedLeaves) (index : Z) (level : nat) : LtxResult ChangedLeaves :=
  span ← node_span level;
  first ← ok_or (if index * span <=? u64_max then Some (index * span) else None) LtxErr.LTXCorrupted;
  ending ← ok_or (checked_add_u64 first span) LtxErr.LTXCorrupted;
  first ← try_u32 first;
  ending ← try_u32 ending;
  Ok (om_filter (fun leaf => (first <=? leaf) && (leaf <? ending)) changes).

(** The placement of decoded children under the branch [index] of [level + 1]. *)
(*@ cellule-ltx/src/replica/directory/update.rs 220-236 mutate_node *)
Fixpoint place_children (level : nat) (index : Z) (children : OrdMap Node) (decoded : list Node) : LtxResult (OrdMap Node) :=
  match decoded with
  | [] => Ok children
  | child :: decoded =>
      child_index ← index_for_page (Agg.first (Node.aggregate child)) level;
      last_index ← index_for_page (Agg.last (Node.aggregate child)) level;
      if negb (last_index =? child_index) || negb (child_index / FANOUT =? index)
         || is_some (om_lookup child_index children)
      then Err LtxErr.LTXCorrupted
      else place_children level index (om_insert child_index (at_index child_index child) children) decoded
  end.

(** The children to visit. *)
(*@ cellule-ltx/src/replica/directory/update.rs 239-242 mutate_node *)
Fixpoint select_children (level : nat) (selected : OrdMap unit) (leaves : list Z) : LtxResult (OrdMap unit) :=
  match leaves with
  | [] => Ok selected
  | leaf :: leaves =>
      index ← node_index_for_leaf leaf level;
      select_children level (om_insert index tt selected) leaves
  end.

(** ** Rewriting *)

Section Update.
Context {W : Type} `{NodeReader W, Blake3}.

(** [old.as_ref().is_some_and(|old| old.digest == node.digest)]: an unchanged node is kept. *)
(*@ cellule-ltx/src/replica/directory/update.rs 278-285 mutate_node *)
Definition push_node (old : option Node) (objects : list DirectoryObject) (node : Node) (bytes : list byte)
  : list DirectoryObject * option Node :=
  if is_some_and (fun o => bool_decide (Node.digest o = Node.digest node)) old then (objects, old)
  else (objects ++ [DirObject.Mk (Node.digest node) bytes], Some node).

(** The bytes of the old leaf: those given, once checked, or those read. *)
(*@ cellule-ltx/src/replica/directory/update.rs 301-309 mutate_leaf *)
Definition old_leaf_bytes (base : Verification) (node : Node) (private_bytes : option (list byte)) : ReadM W (list byte) :=
  match private_bytes with
  | Some bytes => if bool_decide (blake3 bytes = Node.digest node) then mret bytes else fail LtxErr.ChecksumMismatch
  | None => read_node base (Node.digest node)
  end.

(*@ cellule-ltx/src/replica/directory/update.rs 289-357 mutate_leaf *)
Definition mutate_leaf (base final : Verification) (old : option Node) (index : Z) (changes : ChangedLeaves)
    (retain_through : Z) (objects : list DirectoryObject) (private_bytes : option (list byte))
  : ReadM W (list DirectoryObject * option Node) :=
  retained ← match old with
             | None => mret []
             | Some node =>
                 bytes ← old_leaf_bytes base node private_bytes;
                 h ← pure (dir_header_parse bytes);
                 if negb (DirHeader.kind h =? 0) then fail LtxErr.LTXCorrupted
                 else
                   '(actual, decoded) ← pure (verify_leaf bytes h (Ver.page_size base) (Ver.database_pages base) (Ver.extents base));
                   if bool_decide (actual = Node.aggregate node)
                   then mret (List.filter (fun e => DirEntry.page e <=? retain_through) decoded)
                   else fail LtxErr.ChecksumMismatch
             end;
  let keyed := map (fun e => (DirEntry.page e, e)) in
  let entries := om_extend [] (keyed retained) in
  let entries := om_extend entries (keyed (default [] (om_lookup index changes))) in
  let entries := om_filter (fun page => page <=? Ver.database_pages final) entries in
  if is_empty entries then mret (objects, None)
  else
    let entries := map snd entries in
    bytes ← pure (encode_leaf entries);
    h ← pure (dir_header_parse bytes);
    _ ← pure (verify_leaf bytes h (Ver.page_size final) (Ver.database_pages final) (Ver.extents final));
    node ← pure (from_bytes index bytes);
    mret (push_node old objects node bytes).

(** The children of the old branch, if there is one. *)
(*@ cellule-ltx/src/replica/directory/update.rs 209-237 mutate_node *)
Definition old_children (base : Verification) (old : option Node) (level : nat) (index : Z) : ReadM W (OrdMap Node) :=
  match old with
  | None => mret []
  | Some node =>
      bytes ← read_node base (Node.digest node);
      h ← pure (dir_header_parse bytes);
      if negb (DirHeader.kind h =? 1) then fail LtxErr.LTXCorrupted
      else
        '(actual, decoded) ← pure (verify_branch bytes h);
        if bool_decide (actual = Node.aggregate node) then pure (place_children level index [] decoded)
        else fail LtxErr.ChecksumMismatch
  end.

(** A child is visited when it has changes or reaches beyond what is retained. *)
(*@ cellule-ltx/src/replica/directory/update.rs 247-250 mutate_node *)
Definition affected (subtree : ChangedLeaves) (old_child : option Node) (retain_through : Z) : bool :=
  negb (is_empty subtree) || is_some_and (fun c => retain_through <? Agg.last (Node.aggregate c)) old_child.

(** The loop over the selected children; [visit] rewrites one of them. *)
(*@ cellule-ltx/src/replica/directory/update.rs 243-271 mutate_node *)
Fixpoint each_child (visit : option Node -> Z -> ChangedLeaves -> list DirectoryObject -> ReadM W (list DirectoryObject * option Node))
    (level : nat) (changes : ChangedLeaves) (retain_through : Z) (selected : OrdMap unit) (children : OrdMap Node)
    (objects : list DirectoryObject) (output : list Node) : ReadM W (list DirectoryObject * list Node) :=
  match selected with
  | [] => mret (objects, output)
  | (child_index, _) :: selected =>
      let old_child := om_lookup child_index children in
      let children := om_remove child_index children in
      subtree ← pure (changes_for_node changes child_index level);
      if affected subtree old_child retain_through then
        '(objects, node) ← visit old_child child_index subtree objects;
        each_child visit level changes retain_through selected children objects
          (output ++ match node with Some n => [n] | None => [] end)
      else each_child visit level changes retain_through selected children objects
             (output ++ match old_child with Some n => [n] | None => [] end)
  end.

(*@ cellule-ltx/src/replica/directory/update.rs 167-287 mutate_node *)
Fixpoint mutate_node (level : nat) (base final : Verification) (old : option Node) (index : Z) (changes : ChangedLeaves)
    (retain_through : Z) (objects : list DirectoryObject) : ReadM W (list DirectoryObject * option Node) :=
  if is_some_and (fun n => (Agg.last (Node.aggregate n) <=? retain_through) && is_empty changes) old then mret (objects, old)
  else if is_some_and (fun n => (retain_through <? Agg.first (Node.aggregate n)) && is_empty changes) old then mret (objects, None)
  else if is_none old && is_empty changes then mret (objects, None)
  else
    match level with
    | O => mutate_leaf base final old index changes retain_through objects None
    | S level =>
        children ← old_children base old level index;
        selected ← pure (select_children level (map (fun x => (x.1, tt)) children) (map fst changes));
        '(objects, output) ← each_child (fun old index subtree objects =>
                                mutate_node level base final old index subtree retain_through objects)
                              level changes retain_through selected children objects [];
        if is_empty output then mret (objects, None)
        else
          let output := sort_by (fun a b => Node.index a ?= Node.index b) output in
          bytes ← pure (encode_branch output);
          node ← pure (from_bytes index bytes);
          mret (push_node old objects node bytes)
    end.

(** ** The whole update *)

(*@ cellule-ltx/src/replica/directory/update.rs 391-406 build_parent_level *)
Fixpoint build_parents (groups : list (list Node)) (objects : list DirectoryObject) (parents : list Node)
  : LtxResult (list Node * list DirectoryObject) :=
  match groups with
  | [] => Ok (parents, objects)
  | group :: groups =>
      let index := default 0 (Node.index <$> head group) / FANOUT in
      bytes ← encode_branch group;
      node ← from_bytes index bytes;
      build_parents groups (objects ++ [DirObject.Mk (Node.digest node) bytes]) (parents ++ [node])
  end.
(*@ cellule-ltx/src/replica/directory/update.rs 391-406 build_parent_level *)
Definition build_parent_level (nodes : list Node) (objects : list DirectoryObject) : LtxResult (list Node * list DirectoryObject) :=
  build_parents (chunk_by (fun n => Node.index n / FANOUT) nodes) objects [].

(** The loop that grows the tree: the height never passes three, so four turns are enough. *)
(*@ cellule-ltx/src/replica/directory/update.rs 130-137 run *)
Fixpoint grow (fuel : nat) (nodes : list Node) (objects : list DirectoryObject) (height : Z)
  : LtxResult (list Node * list DirectoryObject * Z) :=
  match fuel, nodes with
  | S fuel, _ :: _ :: _ =>
      '(nodes, objects) ← build_parent_level nodes objects;
      if height + 1 <=? 3 then grow fuel nodes objects (height + 1) else Err LtxErr.LTXCorrupted
  | O, _ :: _ :: _ => Err LtxErr.LTXCorrupted
  | _, _ => Ok (nodes, objects, height)
  end.

(*@ cellule-ltx/src/replica/directory/update.rs 142-165 finish_tree *)
Definition finish_tree (objects : list DirectoryObject) (root : Node) (height : Z) (final : Verification) (expected_checksum : Z)
  : LtxResult DirectoryTree :=
  let a := Node.aggregate root in
  if negb (Node.index root =? 0)
     || negb (Agg.live_pages a =? expected_pages (Ver.page_size final) (Ver.database_pages final))
     || negb (Agg.checksum a =? expected_checksum) || (Agg.first a =? 0) || (Ver.database_pages final <? Agg.last a)
  then Err LtxErr.ChecksumMismatch else Ok (DirTree.Mk objects root height).

(** Nodes of the height of the root beyond its span; each turn of the outer loop
    takes the changes of one node. *)
(*@ cellule-ltx/src/replica/directory/update.rs 99-128 run *)
Fixpoint outside_nodes (fuel : nat) (base final : Verification) (height : nat) (root_span : Z) (outside : ChangedLeaves)
    (retain_through : Z) (objects : list DirectoryObject) (nodes : list Node)
  : ReadM W (list DirectoryObject * list Node) :=
  match outside, fuel with
  | [], _ => mret (objects, nodes)
  | _ :: _, O => fail LtxErr.LTXCorrupted
  | (leaf, _) :: _, S fuel =>
      node_index ← pure (try_u32 (leaf / root_span));
      ending ← pure (ok_or (if (node_index + 1) * root_span <=? u64_max then Some ((node_index + 1) * root_span) else None)
                           LtxErr.LTXCorrupted);
      let subtree := om_filter (fun leaf => leaf <? ending) outside in
      '(objects, node) ← mutate_node height base final None node_index subtree retain_through objects;
      node ← pure (ok_or node LtxErr.LTXCorrupted);
      outside_nodes fuel base final height root_span (om_filter (fun leaf => ending <=? leaf) outside)
        retain_through objects (nodes ++ [node])
  end.

(*@ cellule-ltx/src/replica/directory/update.rs 44-76 run *)
Definition update_private (base final : Verification) (root : DirectoryRoot) (changed : ChangedLeaves) (retain_through : Z)
    (expected_checksum : Z) (leaf : DirectoryTree) : ReadM W DirectoryTree :=
  let old := Node.Mk 0 (DirRoot.digest root) (DirRoot.aggregate root) in
  if negb (DirRoot.height root =? 0) || negb (DirTree.height leaf =? 0)
     || negb (bool_decide (Node.digest (DirTree.root leaf) = DirRoot.digest root))
     || negb (bool_decide (Node.aggregate (DirTree.root leaf) = DirRoot.aggregate root))
     || negb (fits_leaf (Ver.database_pages final))
  then fail LtxErr.LTXCorrupted
  else
    let prepared := List.find (fun o => bool_decide (DirObject.digest o = DirRoot.digest root)) (DirTree.objects leaf) in
    '(objects, node) ← mutate_leaf base final (Some old) 0 changed retain_through [] (DirObject.bytes <$> prepared);
    node ← pure (ok_or node LtxErr.LTXCorrupted);
    let objects := match objects, prepared with [], Some p => [p] | _, _ => objects end in
    pure (finish_tree objects node 0 final expected_checksum).

(*@ cellule-ltx/src/replica/directory/update.rs 16-140 run *)
Definition update_run (base : Verification) (root : DirectoryRoot) (changes : OrdMap DirectoryEntry) (retain_through : Z)
    (final : Verification) (expected_checksum : Z) (private_leaf : option DirectoryTree) : ReadM W DirectoryTree :=
  let height := DirRoot.height root in
  if (3 <? height) || negb (Ver.page_size base =? Ver.page_size final)
     || (Ver.database_pages base <? retain_through) || (Ver.database_pages final =? 0)
  then fail LtxErr.LTXCorrupted
  else
    changed ← pure (group_changes (Ver.page_size final) (Ver.database_pages final) changes []);
    match private_leaf with
    | Some leaf => update_private base final root changed retain_through expected_checksum leaf
    | None =>
        let old := Node.Mk 0 (DirRoot.digest root) (DirRoot.aggregate root) in
        root_span ← pure (node_span (Z.to_nat height));
        root_end ← pure (try_u32 root_span);
        '(objects, node) ← mutate_node (Z.to_nat height) base final (Some old) 0
                             (om_filter (fun leaf => leaf <? root_end) changed) retain_through [];
        let outside := om_filter (fun leaf => root_end <=? leaf) changed in
        '(objects, nodes) ← outside_nodes (length outside) base final (Z.to_nat height) root_span outside retain_through
                              objects (match node with Some n => [n] | None => [] end);
        '(nodes, objects, final_height) ← pure (grow 4 nodes objects height);
        root ← pure (ok_or (last nodes) LtxErr.LTXCorrupted);
        pure (finish_tree objects root final_height final expected_checksum)
    end.
End Update.

(** * Proofs *)

(** ** The entries after an update *)

Definition keyed (es : list DirectoryEntry) : OrdMap DirectoryEntry := map (fun e => (DirEntry.page e, e)) es.
Definition at_most (n : Z) (e : DirectoryEntry) : bool := DirEntry.page e <=? n.

(** The entries up to [retain], overridden by the changes, up to [final]. *)
Definition merged (retain final : Z) (old changes : list DirectoryEntry) : list DirectoryEntry :=
  map snd (om_filter (fun page => page <=? final) (om_extend (keyed (List.filter (at_most retain) old)) (keyed changes))).

Abbreviation ascending := (fun es => StronglySorted Z.lt (map DirEntry.page es)).

Lemma map_fst_keyed es : map fst (keyed es) = map DirEntry.page es.
Proof. unfold keyed. by rewrite map_map. Qed.
Lemma keyed_sorted es : om_sorted (keyed es) <-> ascending es.
Proof. unfold om_sorted. by rewrite map_fst_keyed. Qed.
Lemma keyed_filter p es : keyed (List.filter (fun e => p (DirEntry.page e)) es) = om_filter p (keyed es).
Proof.
  induction es as [|e es IH]; [done|]. cbn [List.filter keyed map om_filter fst]. unfold om_filter. cbn [List.filter fst].
  destruct (p (DirEntry.page e)); cbn [map]; [f_equal|]; exact IH.
Qed.
Lemma map_snd_keyed es : map snd (keyed es) = es.
Proof. unfold keyed. rewrite map_map. apply map_id. Qed.

(** Maps whose keys are the pages of their entries. *)
Definition paged (m : OrdMap DirectoryEntry) : Prop := Forall (fun x => x.1 = DirEntry.page x.2) m.
Lemma paged_keyed es : paged (keyed es).
Proof. unfold paged, keyed. rewrite Forall_map. by apply Forall_forall. Qed.
Lemma paged_values m : paged m -> keyed (map snd m) = m.
Proof.
  induction 1 as [|[k e] m Hk _ IH]; [done|]. cbn [fst snd] in Hk. cbn [map snd].
  change (keyed (e :: map snd m)) with ((DirEntry.page e, e) :: keyed (map snd m)). by rewrite IH, Hk.
Qed.
Lemma paged_filter p m : paged m -> paged (om_filter p m).
Proof. intros Hm. apply Forall_forall. intros x [Hx _]%elem_of_filter_bool. unfold paged in Hm. rewrite Forall_forall in Hm. by apply Hm. Qed.
Lemma paged_insert e m : paged m -> paged (om_insert (DirEntry.page e) e m).
Proof.
  induction 1 as [|[k x] m Hk Hm IH]; [by repeat constructor|]. cbn [om_insert]. cbn in Hk.
  destruct (_ <? _); [by repeat constructor|]. destruct (_ =? _); by repeat constructor.
Qed.
Lemma paged_extend m es : paged m -> paged (om_extend m (keyed es)).
Proof. revert m. induction es as [|e es IH]; intros m Hm; [done|]. cbn. apply IH. by apply paged_insert. Qed.

Section Merged.
Context (retain final : Z).

Definition merged_map (old changes : list DirectoryEntry) : OrdMap DirectoryEntry :=
  om_filter (fun page => page <=? final) (om_extend (keyed (List.filter (at_most retain) old)) (keyed changes)).

Lemma merged_map_paged old changes : paged (merged_map old changes).
Proof. apply paged_filter, paged_extend, paged_keyed. Qed.
Lemma keyed_merged old changes : keyed (merged retain final old changes) = merged_map old changes.
Proof. apply paged_values, merged_map_paged. Qed.

Lemma merged_map_sorted old changes : ascending old -> om_sorted (merged_map old changes).
Proof. intros Ho. apply om_filter_sorted, om_extend_sorted, keyed_sorted. by apply sorted_pages_filter. Qed.
Lemma merged_sorted old changes : ascending old -> ascending (merged retain final old changes).
Proof. intros Ho. apply keyed_sorted. rewrite keyed_merged. by apply merged_map_sorted. Qed.

Lemma merged_lookup old changes k : ascending old -> ascending changes ->
  om_lookup k (merged_map old changes) =
  if k <=? final then
    match om_lookup k (keyed changes) with
    | Some e => Some e
    | None => if k <=? retain then om_lookup k (keyed old) else None
    end
  else None.
Proof.
  intros Ho Hc. unfold merged_map. rewrite om_lookup_filter, om_lookup_extend;
    [|by apply keyed_sorted, sorted_pages_filter|by apply keyed_sorted].
  unfold at_most. rewrite (keyed_filter (fun p => p <=? retain)), om_lookup_filter. done.
Qed.

(** Updating commutes with a restriction to some of the pages. *)
Lemma merged_filter (p : Z -> bool) old changes : ascending old -> ascending changes ->
  List.filter (fun e => p (DirEntry.page e)) (merged retain final old changes) =
  merged retain final (List.filter (fun e => p (DirEntry.page e)) old) (List.filter (fun e => p (DirEntry.page e)) changes).
Proof.
  intros Ho Hc. rewrite <- (map_snd_keyed (List.filter _ (merged _ _ _ _))), keyed_filter, keyed_merged.
  change (merged retain final ?a ?b) with (map snd (merged_map a b)). f_equal.
  assert (ascending (List.filter (fun e => p (DirEntry.page e)) old)) by by apply sorted_pages_filter.
  assert (ascending (List.filter (fun e => p (DirEntry.page e)) changes)) by by apply sorted_pages_filter.
  apply om_ext; [by apply om_filter_sorted, merged_map_sorted|by apply merged_map_sorted|].
  intros k. rewrite om_lookup_filter, !merged_lookup by done. rewrite !keyed_filter, !om_lookup_filter.
  by destruct (p k), (k <=? final), (k <=? retain).
Qed.

Lemma keyed_elem k e es : (k, e) ∈ keyed es <-> e ∈ es /\ k = DirEntry.page e.
Proof. unfold keyed. rewrite list_elem_of_fmap. naive_solver. Qed.

Lemma merged_elem old changes e : ascending old -> ascending changes ->
  e ∈ merged retain final old changes -> (e ∈ old /\ DirEntry.page e <= retain) \/ e ∈ changes.
Proof.
  intros Ho Hc He. assert ((DirEntry.page e, e) ∈ merged_map old changes) as Hm.
  { rewrite <- keyed_merged. by apply keyed_elem. }
  apply om_lookup_elem in Hm; [|by apply merged_map_sorted]. rewrite merged_lookup in Hm by done.
  destruct (_ <=? final); [|done]. destruct (om_lookup _ (keyed changes)) as [x|] eqn:Ex.
  - injection Hm as ->. apply om_lookup_elem in Ex; [|by apply keyed_sorted]. apply keyed_elem in Ex as [? _]. by right.
  - destruct (Z.leb_spec (DirEntry.page e) retain); [|done]. apply om_lookup_elem in Hm; [|by apply keyed_sorted].
    apply keyed_elem in Hm as [? _]. by left.
Qed.

Lemma merged_nothing old : ascending old -> retain <= final ->
  merged retain final old [] = List.filter (at_most retain) old.
Proof.
  intros Ho Hr. unfold merged. cbn [keyed map om_extend foldl]. rewrite om_filter_all; [apply map_snd_keyed|].
  rewrite map_fst_keyed. intros k (e & -> & [_ He]%elem_of_filter_bool)%list_elem_of_fmap. unfold at_most in He. lia.
Qed.
End Merged.

Lemma at_most_all retain es : ascending es -> Agg.last (leaf_agg es) <= retain -> List.filter (at_most retain) es = es.
Proof.
  intros Hs Hl. assert (forall e, e ∈ es -> at_most retain e = true) as Hall.
  { intros e He. unfold at_most. apply Z.leb_le. destruct (entries_bounds _ e Hs He). lia. }
  clear Hs Hl. induction es as [|e es IH]; [done|]. cbn. rewrite Hall by set_solver. f_equal. apply IH. set_solver.
Qed.
Lemma at_most_none retain es : ascending es -> retain < Agg.first (leaf_agg es) -> List.filter (at_most retain) es = [].
Proof.
  intros Hs Hl. apply filter_false. intros e He. unfold at_most. apply Z.leb_gt. destruct (entries_bounds _ e Hs He). lia.
Qed.

(** ** Changes by leaf *)

Record changes_ok (changes : ChangedLeaves) (es : list DirectoryEntry) : Prop := {
  ch_sorted : om_sorted changes;
  ch_flat : concat (map snd changes) = es;
  ch_leaves : Forall (fun x => x.2 <> [] /\ Forall (fun e => slot 0 e = x.1) x.2) changes
}.

Lemma changes_empty changes es : changes_ok changes es -> is_empty changes = is_empty es.
Proof.
  intros [_ <- Hl]. destruct changes as [|[leaf l] changes]; [done|]. apply Forall_cons in Hl as [[Hne _] _]. cbn in Hne |- *.
  by destruct l.
Qed.

(** Restriction to the leaves that a predicate selects. *)
Lemma changes_restrict changes es (p : Z -> bool) :
  changes_ok changes es -> changes_ok (om_filter p changes) (List.filter (fun e => p (slot 0 e)) es).
Proof.
  intros [Hs <- Hl]. constructor; [by apply om_filter_sorted| |].
  - clear Hs. induction Hl as [|[leaf l] changes [_ Hl] _ IH]; [done|]. unfold om_filter. cbn [List.filter fst snd map concat] in *.
    rewrite List.filter_app, <- IH. fold (om_filter p changes). destruct (p leaf) eqn:Ep; cbn [map concat snd].
    + f_equal. clear -Hl Ep. induction Hl as [|e l He _ IHl]; [done|]. cbn. rewrite He, Ep. by f_equal.
    + rewrite filter_false; [done|]. intros e He. rewrite Forall_forall in Hl. by rewrite (Hl _ He).
  - apply Forall_forall. intros x [Hx _]%elem_of_filter_bool. rewrite Forall_forall in Hl. by apply Hl.
Qed.

Lemma changes_leaf changes es index :
  changes_ok changes es -> Forall (fun e => slot 0 e = index) es -> default [] (om_lookup index changes) = es.
Proof.
  intros [Hs <- Hl] Hi. destruct changes as [|[leaf l] changes]; [done|]. apply Forall_cons in Hl as [[Hne Hl1] Hl].
  cbn [map concat fst snd] in *. apply Forall_app in Hi as [Hi1 Hi]. destruct l as [|e l]; [done|].
  assert (leaf = index) as ->. { apply Forall_cons in Hl1 as [<- _]. by apply Forall_cons in Hi1 as [? _]. }
  cbn [om_lookup]. rewrite Z.eqb_refl. cbn [default]. unfold default, id. destruct changes as [|[leaf' l'] changes]; [by rewrite app_nil_r|].
  exfalso. apply om_sorted_inv in Hs as [_ Hlt]. apply Forall_cons in Hlt as [Hlt _]. apply Forall_cons in Hl as [[Hne' Hl'] _].
  cbn in *. destruct l' as [|e' l']; [done|]. apply Forall_cons in Hl' as [<- _]. apply Forall_app in Hi as [Hi _].
  apply Forall_cons in Hi as [Hi _]. lia.
Qed.

(** ** Positions *)

Lemma node_span_ok level : (level <= 3)%nat -> node_span level = Ok (FANOUT ^ Z.of_nat level).
Proof. intros Hl. by do 4 (destruct level as [|level]; [by vm_compute|]); lia. Qed.

Lemma slot_leaf level e : slot level e = slot 0 e / FANOUT ^ Z.of_nat level.
Proof.
  unfold slot, FANOUT. rewrite (Z.add_comm (Z.of_nat level)), Z.pow_add_r by lia.
  change (256 ^ (Z.of_nat 0 + 1)) with 256. rewrite Z.pow_1_r, Z.div_div; [done|lia|]. apply Z.pow_pos_nonneg; lia.
Qed.

Definition page_ok (e : DirectoryEntry) : Prop := 0 < DirEntry.page e <= u32_max.

Lemma slot_bounds e : page_ok e -> 0 <= slot 0 e < 2 ^ 24.
Proof.
  intros [H1 H2]. unfold slot, FANOUT, u32_max in *. change (256 ^ (Z.of_nat 0 + 1)) with 256. split; [apply Z.div_pos; lia|].
  apply Z.div_lt_upper_bound; lia.
Qed.
Lemma span_divides level : (level <= 3)%nat -> exists q, 0 < FANOUT ^ Z.of_nat level /\ 2 ^ 24 = FANOUT ^ Z.of_nat level * q.
Proof.
  intros Hl. destruct level as [|[|[|[|]]]]; [exists (2 ^ 24)|exists (2 ^ 16)|exists (2 ^ 8)|exists 1|lia]; by vm_compute.
Qed.
(** The span of a node that has a leaf ends below [2 ^ 24]. *)
Lemma slot_span level e : page_ok e -> (level <= 3)%nat ->
  0 <= slot level e /\ (slot level e + 1) * FANOUT ^ Z.of_nat level <= 2 ^ 24.
Proof.
  intros Hp Hl. destruct (slot_bounds e Hp) as [H1 H2]. destruct (span_divides level Hl) as (q & Hs & Hq). rewrite slot_leaf.
  split; [by apply Z.div_pos|]. set (s := FANOUT ^ Z.of_nat level) in *.
  assert (slot 0 e / s < q) by (apply Z.div_lt_upper_bound; lia). nia.
Qed.

Lemma try_u32_Ok z n : try_u32 z = Ok n -> u32_ok z /\ n = z.
Proof. unfold try_u32, u32_ok. destruct (_ && _) eqn:E; [|done]. intros [= <-]. guards_in E. lia. Qed.
Lemma try_u32_ok z : 0 <= z <= u32_max -> try_u32 z = Ok z.
Proof. intros Hz. unfold try_u32. by rewrite !(proj2 (Z.leb_le _ _)) by lia. Qed.

Lemma node_index_ok e level : page_ok e -> (level <= 3)%nat -> node_index_for_leaf (slot 0 e) level = Ok (slot level e).
Proof.
  intros Hp Hl. unfold node_index_for_leaf. rewrite node_span_ok by done. cbn [mbind result_bind]. rewrite <- slot_leaf.
  destruct (slot_span level e Hp Hl). destruct (span_divides level Hl) as (q & Hs & _). apply try_u32_ok. unfold u32_max. nia.
Qed.
Lemma index_for_page_ok e level : page_ok e -> (level <= 3)%nat -> index_for_page (DirEntry.page e) level = Ok (slot level e).
Proof.
  intros Hp Hl. unfold index_for_page. pose proof Hp as [Hp1 _]. rewrite (proj2 (Z.eqb_neq _ _)) by lia. by apply node_index_ok.
Qed.

Lemma changes_for_node_ok changes level k :
  (level <= 3)%nat -> 0 <= k -> (k + 1) * FANOUT ^ Z.of_nat level <= 2 ^ 24 ->
  changes_for_node changes k level = Ok (om_filter (fun leaf => leaf / FANOUT ^ Z.of_nat level =? k) changes).
Proof.
  intros Hl Hk Hb. destruct (span_divides level Hl) as (q & Hs & _). unfold changes_for_node. rewrite node_span_ok by done.
  cbn [mbind result_bind]. set (s := FANOUT ^ Z.of_nat level) in *. rewrite (proj2 (Z.leb_le _ _)) by (unfold u64_max; nia).
  cbn [ok_or mbind result_bind]. rewrite (proj2 (checked_add_u64_Some (k * s) s (k * s + s))) by (unfold u64_max; nia).
  cbn [ok_or mbind result_bind]. rewrite !try_u32_ok by (unfold u32_max; nia). cbn [mbind result_bind]. f_equal.
  unfold om_filter. apply List.filter_ext. intros [leaf l]. cbn [fst].
  destruct (Z.eqb_spec (leaf / s) k) as [E|E].
  - pose proof (Z.mul_div_le leaf s Hs). pose proof (Z.mul_succ_div_gt leaf s Hs). apply andb_true_iff. split; [apply Z.leb_le|apply Z.ltb_lt]; nia.
  - apply andb_false_iff. rewrite Z.leb_gt, Z.ltb_ge. destruct (Z.lt_ge_cases leaf (k * s)) as [?|Hge]; [by left|].
    destruct (Z.lt_ge_cases leaf (k * s + s)) as [Hlt|?]; [|by right]. destruct E. symmetry. apply (Z.div_unique leaf s k (leaf - k * s)); lia.
Qed.

Lemma leaf_entry_page ps n ext p e : leaf_entry ps n ext p e -> page_ok e.
Proof. intros [[] ? _ _ _ _ _ _]. unfold page_ok, u32_ok in *. lia. Qed.

(** ** Rewriting a leaf *)

Section MutateProofs.
Context {W : Type} `{HR : NodeReader W, HB : Blake3} (objects known : list byte -> Prop) `{!ReaderLaws W objects}.
Context (known_digests : forall b b', known b -> known b' -> blake3 b = blake3 b' -> b = b').
Context (base final : Verification) (retain : Z) (Hbase : admits base)
  (Hretain : retain <= Ver.database_pages final).

Abbreviation entry_in v := (leaf_entry (Ver.page_size v) (Ver.database_pages v) (Ver.extents v) 0).
Abbreviation updated := (merged retain (Ver.database_pages final)).

(** The node over some entries, if there are any, and the nodes below it. *)
Definition node_at (level : nat) (es : list DirectoryEntry) : option Node :=
  match es with [] => None | _ => Some (canon_root level es) end.
Definition nodes_at (level : nat) (es : list DirectoryEntry) : list (list byte) :=
  match es with [] => [] | _ => canon_nodes level es end.

(** The objects an update adds: nodes of the new tree, and all of it that is not in the old one. *)
Record added_ok (level : nat) (old new : list DirectoryEntry) (added : list DirectoryObject) : Prop := {
  ad_new : Forall (fun o => DirObject.digest o = blake3 (DirObject.bytes o) /\ DirObject.bytes o ∈ nodes_at level new) added;
  ad_all : Forall (fun b => b ∈ nodes_at level old \/ b ∈ map DirObject.bytes added) (nodes_at level new)
}.

Lemma nodes_at_some level es : es <> [] -> nodes_at level es = canon_nodes level es.
Proof. by destruct es. Qed.
Lemma node_at_some level es : es <> [] -> node_at level es = Some (canon_root level es).
Proof. by destruct es. Qed.

(** Pushing the new node unless it is the old one. *)
Lemma push_node_ok level index old new objs :
  (old <> [] -> shaped base level index old /\ known (canon_bytes level old)) ->
  shaped final level index new -> known (canon_bytes level new) ->
  exists added, push_node (node_at level old) objs (canon_root level new) (canon_bytes level new)
                = (objs ++ added, node_at level new)
    /\ Forall (fun o => DirObject.digest o = blake3 (DirObject.bytes o) /\ DirObject.bytes o = canon_bytes level new) added
    /\ (canon_bytes level new ∈ nodes_at level old \/ canon_bytes level new ∈ map DirObject.bytes added).
Proof.
  intros Ho Hn Hk. pose proof Hn as [[Hne _ _] _]. unfold push_node. rewrite (node_at_some level new) by done.
  destruct (is_some_and _ _) eqn:Hd.
  - destruct old as [|e old]; [done|]. destruct (Ho ltac:(done)) as [Hso Hko]. cbn [node_at is_some_and] in Hd |- *.
    apply bool_decide_eq_true in Hd. rewrite !canon_root_eq in Hd. cbn [Node.digest] in Hd.
    apply known_digests in Hd; [|done..]. exists []. rewrite app_nil_r. split_and!.
    + do 2 f_equal. by eapply canon_bytes_agg.
    + constructor.
    + left. rewrite <- Hd. apply canon_bytes_node.
  - exists [DirObject.Mk (Node.digest (canon_root level new)) (canon_bytes level new)]. split_and!; [done| |right; cbn; set_solver].
    constructor; [|constructor]. split; [by rewrite canon_root_eq|done].
Qed.

Lemma extend_nil_keyed es : ascending es -> om_extend [] (keyed es) = keyed es.
Proof.
  intros Hs. apply keyed_sorted in Hs. apply om_ext; [by apply om_extend_sorted; constructor|done|].
  intros k. rewrite om_lookup_extend by (done || constructor). by destruct (om_lookup k (keyed es)).
Qed.

Lemma shaped_updated level index old es :
  (old <> [] -> shaped base level index old) -> ascending old -> ascending es -> Forall (fun e => slot level e = index) es ->
  Forall (entry_in final) (updated old es) -> updated old es <> [] -> shaped final level index (updated old es).
Proof.
  intros Ho Hao Hae Hes Hf Hne. constructor; [constructor; [done|by apply merged_sorted|done]|].
  apply Forall_forall. intros e [[He _]|He]%merged_elem; [|rewrite Forall_forall in Hes; by apply Hes|done..].
  destruct old as [|e0 old]; [set_solver|]. destruct (Ho ltac:(done)) as [_ Hs]. rewrite Forall_forall in Hs. by apply Hs.
Qed.

Lemma mutate_leaf_computes index old changes es objs private_bytes :
  (old <> [] -> shaped base 0 index old /\ known (canon_bytes 0 old)
     /\ (private_bytes = None /\ objects (canon_bytes 0 old) \/ private_bytes = Some (canon_bytes 0 old))) ->
  changes_ok changes es -> ascending es -> Forall (fun e => slot 0 e = index) es ->
  Forall (entry_in final) (updated old es) -> Forall known (nodes_at 0 (updated old es)) ->
  exists added,
    computes objects (mutate_leaf base final (node_at 0 old) index changes retain objs private_bytes)
      (Ok (objs ++ added, node_at 0 (updated old es)))
    /\ added_ok 0 old (updated old es) added.
Proof.
  intros Ho Hch Hes Hsl Hf Hk.
  assert (ascending old) as Hao. { destruct old; [constructor|]. by destruct (Ho ltac:(done)) as [[[] _] _]. }
  assert (forall r : list DirectoryEntry -> ReadM W (list DirectoryObject * option Node), forall res,
    computes objects (r (List.filter (at_most retain) old)) res ->
    computes objects ((match node_at 0 old with
             | None => mret []
             | Some node =>
                 bytes ← old_leaf_bytes base node private_bytes;
                 h ← pure (dir_header_parse bytes);
                 if negb (DirHeader.kind h =? 0) then fail LtxErr.LTXCorrupted
                 else
                   '(actual, decoded) ← pure (verify_leaf bytes h (Ver.page_size base) (Ver.database_pages base) (Ver.extents base));
                   if bool_decide (actual = Node.aggregate node)
                   then mret (List.filter (fun e => DirEntry.page e <=? retain) decoded)
                   else fail LtxErr.ChecksumMismatch
             end) ≫= r) res) as Hread.
  { intros r res Hr. eapply computes_bind_Ok; [|exact Hr]. destruct old as [|e0 old0]; [apply computes_ret|].
    set (old := e0 :: old0) in *. destruct (Ho ltac:(done)) as (Hsh & _ & Hsrc). cbn [node_at].
    destruct (canon_leaf base index old Hsh) as [Henc Hok]. destruct (verify_leaf_complete _ _ _ _ _ Henc Hok) as (h & Hh & Hkind & Hvl).
    assert (computes objects (old_leaf_bytes base (canon_root 0 old) private_bytes) (Ok (canon_bytes 0 old))) as Hb.
    { rewrite canon_root_eq. unfold old_leaf_bytes. cbn [Node.digest]. destruct Hsrc as [[-> Hob]| ->].
      - by apply computes_read.
      - rewrite bool_decide_eq_true_2 by done. apply computes_ret. }
    eapply computes_bind_Ok; [exact Hb|]. eapply computes_bind_Ok; [rewrite Hh; apply computes_pure|].
    rewrite Hkind. cbn [Z.eqb negb]. rewrite Hvl. eapply computes_bind_Ok; [apply computes_pure|]. cbv beta iota.
    rewrite bool_decide_eq_true_2 by (by rewrite canon_root_eq). apply computes_ret. }
  unfold mutate_leaf. cbv zeta.
  assert (is_empty (om_filter (fun page => page <=? Ver.database_pages final)
            (om_extend (om_extend [] (keyed (List.filter (at_most retain) old))) (keyed (default [] (om_lookup index changes)))))
          = is_empty (updated old es)
          /\ map snd (om_filter (fun page => page <=? Ver.database_pages final)
            (om_extend (om_extend [] (keyed (List.filter (at_most retain) old))) (keyed (default [] (om_lookup index changes)))))
          = updated old es) as [He Hv].
  { rewrite (changes_leaf _ _ _ Hch Hsl), extend_nil_keyed by by apply sorted_pages_filter. split; [|done].
    change (updated old es) with (map snd (merged_map retain (Ver.database_pages final) old es)).
    unfold merged_map. by destruct (om_filter _ _). }
  destruct (decide (updated old es = [])) as [En|Nn].
  { exists []. rewrite app_nil_r. split; [|rewrite En; by repeat constructor]. apply Hread. cbv beta zeta. fold (keyed).
    rewrite En in He |- *. change (map (fun e => (DirEntry.page e, e)) ?x) with (keyed x). rewrite He. apply computes_ret. }
  assert (shaped final 0 index (updated old es)) as Hsn by (apply shaped_updated; [intros; by apply Ho|done..]).
  destruct (canon_leaf final index _ Hsn) as [Henc Hok]. destruct (verify_leaf_complete _ _ _ _ _ Henc Hok) as (h & Hh & Hkind & Hvl).
  rewrite nodes_at_some, canon_nodes_leaf in Hk by done. apply Forall_cons in Hk as [Hk _].
  destruct (push_node_ok 0 index old (updated old es) objs) as (added & Hpush & Hnew & Hall); [|done..|].
  { intros Hne. by destruct (Ho Hne) as (? & ? & _). }
  exists added. split.
  - apply Hread. cbv beta zeta. change (map (fun e => (DirEntry.page e, e)) ?x) with (keyed x). rewrite He, Hv.
    destruct (updated old es) as [|e0 new] eqn:Eu; [done|]. cbn [is_empty]. rewrite <- Eu in *.
    rewrite Henc. eapply computes_bind_Ok; [apply computes_pure|]. rewrite Hh. eapply computes_bind_Ok; [apply computes_pure|].
    rewrite Hvl. eapply computes_bind_Ok; [apply computes_pure|]. rewrite (canon_from_bytes final 0 index) by done.
    eapply computes_bind_Ok; [apply computes_pure|]. rewrite Hpush. apply computes_ret.
  - constructor; rewrite (nodes_at_some 0 (updated old es)), canon_nodes_leaf by done.
    + eapply Forall_impl; [exact Hnew|]. simpl. intros o [? Hb]. split; [done|]. rewrite Hb. set_solver.
    + constructor; [exact Hall|constructor].
Qed.

(** ** Rewriting a branch *)

Lemma shaped_ends v level index es : shaped v level index es -> (level <= 3)%nat ->
  index_for_page (Agg.first (leaf_agg es)) level = Ok index /\ index_for_page (Agg.last (leaf_agg es)) level = Ok index.
Proof.
  intros [[Hne _ Hf] Hs] Hl. rewrite Forall_forall in Hf, Hs. unfold leaf_agg. cbn [Agg.first Agg.last]. split.
  - destruct es as [|e es]; [done|]. cbn. rewrite index_for_page_ok; [by rewrite Hs by set_solver|eapply leaf_entry_page, Hf; set_solver|done].
  - destruct (last es) as [e|] eqn:El; [|by apply last_None in El]. apply last_Some in El as [l ->]. cbn.
    rewrite index_for_page_ok; [by rewrite Hs by set_solver|eapply leaf_entry_page, Hf; set_solver|done].
Qed.

(** The children of a shaped branch by index. *)
Definition child_map (level : nat) (es : list DirectoryEntry) : OrdMap Node :=
  map (fun c => (default 0 (slot level <$> head c), canon_root level c)) (chunk_by (slot level) es).

Lemma place_children_ok v level index ks cs : (level <= 3)%nat ->
  StronglySorted Z.lt ks -> Forall2 (fun k c => shaped v level k c /\ k / FANOUT = index) ks cs ->
  forall acc, Forall (fun x => Forall (fun k => x.1 < k) ks) acc ->
  place_children level index acc (map (fun c => at_index 0 c) (map (canon_root level) cs)) =
  Ok (acc ++ map (fun c => (default 0 (slot level <$> head c), canon_root level c)) cs).
Proof.
  intros Hl Hks Hf. induction Hf as [|k c ks cs [Hc Hk] _ IH]; intros acc Hacc; [cbn; by rewrite app_nil_r|].
  apply StronglySorted_inv in Hks as [Hks Hk0]. cbn [map place_children at_index Node.aggregate].
  destruct (shaped_ends _ _ _ _ Hc Hl) as [H1 H2]. rewrite canon_root_eq. cbn [Node.aggregate Node.digest].
  rewrite H1, H2. cbn [mbind result_bind]. rewrite Z.eqb_refl, (proj2 (Z.eqb_eq _ _) Hk). cbn [negb orb].
  assert (Forall (fun x => x.1 < k) acc) as Hlt by (eapply Forall_impl; [exact Hacc|]; by intros x [? _]%Forall_cons).
  assert (om_lookup k acc = None) as ->.
  { apply om_lookup_None. intros (x & -> & Hx)%list_elem_of_fmap. rewrite Forall_forall in Hlt. specialize (Hlt _ Hx). lia. }
  cbn [is_some]. rewrite om_insert_above by done. rewrite (shaped_head _ _ _ _ Hc). unfold at_index. cbn [Node.digest Node.aggregate].
  rewrite IH; [by rewrite <- app_assoc|done|].
  apply Forall_app. split; [eapply Forall_impl; [exact Hacc|]; by intros x [_ ?]%Forall_cons|]. by repeat constructor.
Qed.

Lemma old_children_computes level index old : (level <= 3)%nat ->
  (old <> [] -> shaped base (S level) index old /\ Forall objects (canon_nodes (S level) old)) ->
  computes objects (old_children base (node_at (S level) old) level index) (Ok (child_map level old)).
Proof.
  intros Hl Ho. destruct old as [|e0 old0]; [apply computes_ret|]. set (old := e0 :: old0) in *.
  destruct (Ho ltac:(done)) as [Hsh Hob]. destruct (canon_branch base level index old (fun _ => 0) Hsh) as (Henc & Hok & Ha).
  destruct (verify_branch_complete _ _ Henc Hok) as (h & Hh & Hkind & Hvb).
  { apply Forall_forall. by intros c (c' & -> & _)%list_elem_of_fmap. }
  cbn [node_at old_children]. change (match old with [] => None | _ => Some (canon_root (S level) old) end) with (Some (canon_root (S level) old)).
  cbv iota. eapply computes_bind_Ok.
  { apply computes_read; [done| |by rewrite canon_root_eq]. rewrite Forall_forall in Hob. apply Hob, canon_bytes_node. }
  rewrite Hh. eapply computes_bind_Ok; [apply computes_pure|]. rewrite Hkind. cbn [Z.eqb negb]. rewrite Hvb.
  eapply computes_bind_Ok; [apply computes_pure|]. cbv beta iota. rewrite bool_decide_eq_true_2 by (rewrite canon_root_eq; exact Ha).
  destruct (shaped_chunks _ _ _ _ Hsh) as (ks & Hks & Hf). rewrite (place_children_ok base level index ks) by done. apply computes_pure.
Qed.

Lemma select_children_ok level es : (level <= 3)%nat -> Forall page_ok es ->
  forall changes, changes_ok changes es -> forall sel, om_sorted sel ->
  exists sel', select_children level sel (map fst changes) = Ok sel' /\ om_sorted sel'
    /\ forall k, k ∈ map fst sel' <-> k ∈ map fst sel \/ exists e, e ∈ es /\ slot level e = k.
Proof.
  intros Hl Hp changes [_ <- Hlv]. revert Hp. induction Hlv as [|[leaf l] changes [Hne Hlf] _ IH]; intros Hp sel Hs.
  { exists sel. split_and!; [done..|]. set_solver. }
  cbn [map fst snd concat select_children] in *. apply Forall_app in Hp as [Hp1 Hp].
  destruct l as [|e l]; [done|]. apply Forall_cons in Hlf as [He Hlf]. apply Forall_cons in Hp1 as [Hpe Hp1].
  subst leaf. rewrite node_index_ok by done. cbn [mbind result_bind].
  destruct (IH Hp (om_insert (slot level e) tt sel) (om_insert_sorted _ _ _ Hs)) as (sel' & Hsel & Hso & Hk).
  exists sel'. split_and!; [done..|]. intros k. rewrite Hk, om_insert_keys. split.
  - intros [[->|?]|(e' & ? & ?)]; [right; exists e; set_solver|by left|right; exists e'; set_solver].
  - intros [?|(e' & [He'|He']%elem_of_app & <-)]; [by left; right|left; left|right; by exists e'].
    rewrite (slot_leaf level e'), (slot_leaf level e). f_equal. apply elem_of_cons in He' as [->|He']; [done|]. rewrite Forall_forall in Hlf. by rewrite (Hlf _ He').
Qed.

Section Branch.
Context (level : nat) (Hlevel : (level <= 3)%nat) (old es : list DirectoryEntry) (changes : ChangedLeaves).
Context (Hold : ascending old) (Hes : ascending es) (Hch : changes_ok changes es).

(** What falls under the child [k]. *)
Abbreviation under k := (List.filter (has_key (slot level) k)).
Abbreviation new := (updated old es).

Lemma updated_under k : under k new = updated (under k old) (under k es).
Proof. apply (merged_filter retain (Ver.database_pages final) (fun page => (page - 1) / FANOUT ^ (Z.of_nat level + 1) =? k)); done. Qed.

Lemma under_ascending k l : ascending l -> ascending (under k l).
Proof. apply sorted_pages_filter. Qed.

Lemma changes_under k : 0 <= k -> (k + 1) * FANOUT ^ Z.of_nat level <= 2 ^ 24 ->
  exists subtree, changes_for_node changes k level = Ok subtree /\ changes_ok subtree (under k es).
Proof.
  intros Hk Hb. rewrite changes_for_node_ok by done. eexists. split; [done|].
  pose proof (changes_restrict changes es (fun leaf => leaf / FANOUT ^ Z.of_nat level =? k) Hch) as Hr.
  erewrite List.filter_ext; [exact Hr|]. intros e. unfold has_key. by rewrite slot_leaf.
Qed.

(** An unaffected child keeps its entries. *)
Lemma unaffected k subtree : changes_ok subtree (under k es) -> affected subtree (node_at level (under k old)) retain = false ->
  under k new = under k old.
Proof.
  intros Hsub Haff. rewrite updated_under. unfold affected in Haff. apply orb_false_iff in Haff as [He Hr].
  apply negb_false_iff in He. rewrite (changes_empty _ _ Hsub) in He. destruct (under k es); [|done].
  rewrite merged_nothing by (done || by apply under_ascending). destruct (under k old) as [|e0 c0] eqn:Eu; [done|]. rewrite <- Eu in *.
  assert (under k old <> []) as Hne by (by rewrite Eu). rewrite node_at_some in Hr by done.
  cbn [is_some_and] in Hr. rewrite canon_root_eq in Hr. cbn [Node.aggregate] in Hr. apply Z.ltb_ge in Hr.
  apply at_most_all; [by apply under_ascending|done].
Qed.

Definition visit_ok (visit : option Node -> Z -> ChangedLeaves -> list DirectoryObject -> ReadM W (list DirectoryObject * option Node)) : Prop :=
  forall k subtree objs, changes_ok subtree (under k es) ->
    exists added, computes objects (visit (node_at level (under k old)) k subtree objs) (Ok (objs ++ added, node_at level (under k new)))
      /\ added_ok level (under k old) (under k new) added.

Lemma each_child_ok visit sel : visit_ok visit ->
  NoDup (map fst sel) -> (forall k, k ∈ map fst sel -> 0 <= k /\ (k + 1) * FANOUT ^ Z.of_nat level <= 2 ^ 24) ->
  forall children objs output, (forall k, k ∈ map fst sel -> om_lookup k children = node_at level (under k old)) ->
  exists added,
    computes objects (each_child visit level changes retain sel children objs output)
      (Ok (objs ++ added, output ++ map (canon_root level) (fibres (slot level) (map fst sel) new)))
    /\ Forall (fun o => DirObject.digest o = blake3 (DirObject.bytes o)
                        /\ exists k, k ∈ map fst sel /\ DirObject.bytes o ∈ nodes_at level (under k new)) added
    /\ (forall k, k ∈ map fst sel -> Forall (fun b => b ∈ nodes_at level (under k old) \/ b ∈ map DirObject.bytes added)
                                           (nodes_at level (under k new))).
Proof.
  intros Hvisit. induction sel as [|[k []] sel IH]; intros Hnd Hb children objs output Hlk.
  { exists []. cbn. rewrite !app_nil_r. split_and!; [apply computes_ret|constructor|set_solver]. }
  cbn [map fst] in *. apply NoDup_cons in Hnd as [Hnk Hnd]. destruct (Hb k) as [Hk0 Hk1]; [set_solver|].
  destruct (changes_under k Hk0 Hk1) as (subtree & Hsub & Hsok). cbn [each_child]. rewrite Hsub, (Hlk k) by set_solver.
  assert (forall k', k' ∈ map fst sel -> om_lookup k' (om_remove k children) = node_at level (under k' old)) as Hlk'.
  { intros k' Hk'. rewrite om_lookup_remove. destruct (Z.eqb_spec k' k) as [->|]; [done|]. apply Hlk. set_solver. }
  assert (map (canon_root level) (fibres (slot level) (k :: map fst sel) new)
          = (match node_at level (under k new) with Some n => [n] | None => [] end)
            ++ map (canon_root level) (fibres (slot level) (map fst sel) new)) as Hfib.
  { cbn [fibres]. by destruct (List.filter _ new). }
  rewrite Hfib. rewrite app_assoc.
  destruct (affected subtree (node_at level (under k old)) retain) eqn:Haff.
  - destruct (Hvisit k subtree objs Hsok) as (added1 & Hc1 & [Hn1 Ha1]).
    destruct (IH Hnd ltac:(set_solver) (om_remove k children) (objs ++ added1)
                (output ++ match node_at level (under k new) with Some n => [n] | None => [] end) Hlk') as (added2 & Hc2 & Hn2 & Ha2).
    exists (added1 ++ added2). split_and!.
    + eapply computes_bind_Ok; [apply computes_pure|]. rewrite Haff. eapply computes_bind_Ok; [exact Hc1|]. cbv beta iota.
      rewrite (app_assoc objs). exact Hc2.
    + apply Forall_app. split; (eapply Forall_impl; [eassumption|]); simpl.
      * intros o [? ?]. split; [done|]. exists k. set_solver.
      * intros o (? & k' & ? & ?). split; [done|]. exists k'. set_solver.
    + intros k' [->|Hk']%elem_of_cons; rewrite map_app.
      * eapply Forall_impl; [exact Ha1|]. simpl. set_solver.
      * eapply Forall_impl; [exact (Ha2 k' Hk')|]. simpl. set_solver.
  - pose proof (unaffected k subtree Hsok Haff) as Eu.
    destruct (IH Hnd ltac:(set_solver) (om_remove k children) objs
                (output ++ match node_at level (under k new) with Some n => [n] | None => [] end) Hlk') as (added2 & Hc2 & Hn2 & Ha2).
    exists added2. split_and!.
    + eapply computes_bind_Ok; [apply computes_pure|]. rewrite Haff, <- Eu. exact Hc2.
    + eapply Forall_impl; [exact Hn2|]. simpl. intros o (? & k' & ? & ?). split; [done|]. exists k'. set_solver.
    + intros k' [->|Hk']%elem_of_cons; [|by apply Ha2]. rewrite Eu. apply Forall_forall. intros b Hb'. by left.
Qed.
End Branch.

Context (objects_known : forall b, objects b -> known b).

(** The nodes under a child are nodes of the branch. *)
Lemma nodes_under level k es b : ascending es ->
  b ∈ nodes_at level (List.filter (has_key (slot level) k) es) -> b ∈ concat (map (canon_nodes level) (chunk_by (slot level) es)).
Proof.
  intros Hs Hb. destruct (decide (List.filter (has_key (slot level) k) es = [])) as [E|N]; [rewrite E in Hb; set_solver|].
  rewrite nodes_at_some in Hb by done. apply list_elem_of_In, in_concat. eexists. rewrite <- !list_elem_of_In. split; [|exact Hb].
  apply list_elem_of_fmap. eexists. split; [done|]. apply chunk_by_fibre; [by apply sorted_slots|done].
Qed.
Lemma under_nodes level es b : ascending es ->
  b ∈ concat (map (canon_nodes level) (chunk_by (slot level) es)) ->
  exists e, e ∈ es /\ b ∈ nodes_at level (List.filter (has_key (slot level) (slot level e)) es).
Proof.
  intros Hs Hb. apply list_elem_of_In, in_concat in Hb as (l & Hl & Hb). apply list_elem_of_In in Hl. apply list_elem_of_In in Hb.
  apply list_elem_of_fmap in Hl as (c & -> & Hc). pose proof (sorted_slots level es Hs) as Hso.
  destruct (chunk_by_keys (slot level) es Hso) as (ks & Hks & Hf). apply list_elem_of_lookup in Hc as Hi. destruct Hi as [i Hi].
  destruct (Forall2_lookup_r _ _ _ _ _ Hf Hi) as (k & _ & Hne & Hk). destruct c as [|e c]; [done|]. exists e. split.
  { rewrite <- (chunk_by_concat (slot level) es). apply list_elem_of_In, in_concat. exists (e :: c). rewrite <- !list_elem_of_In. set_solver. }
  assert (List.filter (has_key (slot level) (slot level e)) es = e :: c) as ->; [|done].
  pose proof (chunk_by_lookup (slot level) (fun c => c) es (slot level e) Hso) as Hl.
  assert (om_lookup (slot level e) (map (fun c => (default 0 (slot level <$> head c), c)) (chunk_by (slot level) es)) = Some (e :: c)) as E.
  { apply om_lookup_elem; [|apply list_elem_of_fmap; by exists (e :: c)].
    unfold om_sorted. rewrite map_map. cbn [fst]. replace (map _ _) with ks; [done|]. clear -Hf.
    induction Hf as [|k c ks cs [Hne Hc] _ IH]; [done|]. cbn [map]. f_equal; [|done].
    destruct c as [|x c]; [done|]. by apply Forall_cons in Hc as [? _]. }
  pose proof (eq_trans (eq_sym E) Hl) as E'. destruct (List.filter _ es); [done|]. by injection E' as -> ->.
Qed.

Lemma child_map_sorted level es : ascending es -> om_sorted (child_map level es).
Proof.
  intros Hs. destruct (chunk_by_keys (slot level) es (sorted_slots level es Hs)) as (ks & Hks & Hf).
  unfold om_sorted, child_map. rewrite map_map. cbn [fst]. replace (map _ _) with ks; [done|]. clear -Hf.
  induction Hf as [|k c ks cs [Hne Hc] _ IH]; [done|]. cbn [map]. f_equal; [|done].
  destruct c as [|x c]; [done|]. by apply Forall_cons in Hc as [? _].
Qed.

Lemma child_map_keys level es k : ascending es -> k ∈ map fst (child_map level es) <-> exists e, e ∈ es /\ slot level e = k.
Proof.
  intros Hs. pose proof (chunk_by_lookup (slot level) (canon_root level) es k (sorted_slots level es Hs)) as Hl.
  destruct (decide (k ∈ map fst (child_map level es))) as [Hin|Hin]; split; try done.
  - intros _. destruct (List.filter _ es) as [|e c] eqn:Ef.
    + by apply om_lookup_None in Hl.
    + exists e. assert (e ∈ List.filter (has_key (slot level) k) es) as [He Hk]%elem_of_filter_bool by (rewrite Ef; set_solver).
      unfold has_key in Hk. split; [done|lia].
  - intros (e & He & Hk). exfalso. apply om_lookup_None in Hin. unfold child_map in Hin. rewrite Hin in Hl.
    assert (e ∈ List.filter (has_key (slot level) k) es) as Hel by (apply elem_of_filter_bool; split; [done|unfold has_key; lia]).
    destruct (List.filter _ es); [set_solver|done].
Qed.

Lemma canon_roots_sorted v level index es : shaped v (S level) index es ->
  StronglySorted (fun a b => (Node.index a ?= Node.index b) <> Gt) (map (canon_root level) (chunk_by (slot level) es)).
Proof.
  intros Hsh. destruct (shaped_chunks _ _ _ _ Hsh) as (ks & Hks & Hf).
  induction Hf as [|k c ks cs [Hc _] Hf IH]; [constructor|]. apply StronglySorted_inv in Hks as [Hks Hk]. cbn [map].
  constructor; [by apply IH|]. rewrite Forall_map. apply Forall_forall. intros c' [i Hi]%list_elem_of_lookup.
  destruct (Forall2_lookup_r _ _ _ _ _ Hf Hi) as (k' & Hk' & [Hc' _]). rewrite !canon_root_eq. cbn [Node.index].
  rewrite (shaped_head _ _ _ _ Hc), (shaped_head _ _ _ _ Hc'). rewrite Forall_forall in Hk.
  assert (k < k') by (apply Hk; eapply list_elem_of_lookup_2; exact Hk'). rewrite Z.compare_gt_iff. lia.
Qed.

(** What rewriting the node [index] of a level over the entries [old] with the changes [es] computes. *)
Definition rewrites (level : nat) (m : option Node -> Z -> ChangedLeaves -> list DirectoryObject -> ReadM W (list DirectoryObject * option Node))
    : Prop :=
  forall index old changes es objs,
  (old <> [] -> shaped base level index old /\ Forall objects (canon_nodes level old)) ->
  changes_ok changes es -> ascending es -> Forall page_ok es -> Forall (fun e => slot level e = index) es ->
  Forall (entry_in final) (updated old es) -> Forall known (nodes_at level (updated old es)) ->
  exists added,
    computes objects (m (node_at level old) index changes objs) (Ok (objs ++ added, node_at level (updated old es)))
    /\ added_ok level old (updated old es) added.

Lemma filter_elem {A} (p : A -> bool) (P : A -> Prop) l : Forall P l -> Forall P (List.filter p l).
Proof. intros Hl. apply Forall_forall. intros x [Hx _]%elem_of_filter_bool. rewrite Forall_forall in Hl. by apply Hl. Qed.

Lemma under_slot level k es : Forall (fun e => slot level e = k) (List.filter (has_key (slot level) k) es).
Proof. apply Forall_forall. intros e [_ He]%elem_of_filter_bool. unfold has_key in He. lia. Qed.

Lemma visit_children level index old es m : (level <= 3)%nat ->
  rewrites level m -> (old <> [] -> shaped base (S level) index old /\ Forall objects (canon_nodes (S level) old)) ->
  ascending old -> ascending es -> Forall page_ok es ->
  Forall (entry_in final) (updated old es) -> Forall known (nodes_at (S level) (updated old es)) ->
  visit_ok level old es m.
Proof.
  intros Hl Hm Ho Hao Hes Hpe Hf Hk k subtree objs Hsub.
  rewrite updated_under by done. apply Hm; [|done|by apply sorted_pages_filter|by apply filter_elem|apply under_slot|..].
  - intros Hne. assert (old <> []) as Hon by (by intros ->). destruct (Ho Hon) as [Hsh Hob].
    destruct Hsh as [[_ _ Hfe] _]. split.
    + constructor; [constructor; [done|by apply sorted_pages_filter|by apply filter_elem]|apply under_slot].
    + apply Forall_forall. intros b Hb. rewrite Forall_forall in Hob. apply Hob. rewrite canon_nodes_branch. apply elem_of_app. left.
      apply (nodes_under level k); [done|]. by rewrite nodes_at_some.
  - rewrite <- updated_under by done. by apply filter_elem.
  - rewrite <- updated_under by done. apply Forall_forall. intros b Hb. rewrite Forall_forall in Hk. apply Hk.
    assert (updated old es <> []) as Hne by (intros E; rewrite E in Hb; set_solver).
    rewrite nodes_at_some, canon_nodes_branch by done. apply elem_of_app. left. eapply nodes_under; [by apply merged_sorted|done].
Qed.

Lemma mutate_branch_computes level m : (S level <= 3)%nat -> rewrites level m ->
  rewrites (S level) (fun old index changes objs =>
    children ← old_children base old level index;
    selected ← pure (select_children level (map (fun x => (x.1, tt)) children) (map fst changes));
    '(objs, output) ← each_child m level changes retain selected children objs [];
    if is_empty output then mret (objs, None)
    else
      let output := sort_by (fun a b => Node.index a ?= Node.index b) output in
      bytes ← pure (encode_branch output);
      node ← pure (from_bytes index bytes);
      mret (push_node old objs node bytes)).
Proof.
  intros Hl Hm index old changes es objs Ho Hch Hes Hpe Hsl Hf Hk.
  assert (ascending old) as Hao by (destruct old; [constructor|]; by destruct (Ho ltac:(done)) as [[[] _] _]).
  assert (Forall page_ok old) as Hpo.
  { destruct old as [|e0 old0]; [constructor|]. destruct (Ho ltac:(done)) as [[[_ _ Hfo] _] _].
    eapply Forall_impl; [exact Hfo|]. intros e He. by eapply leaf_entry_page. }
  destruct (select_children_ok level es ltac:(lia) Hpe changes Hch (map (fun x => (x.1, tt)) (child_map level old))) as (sel & Hsel & Hso & Hkeys).
  { unfold om_sorted. rewrite map_map. by apply child_map_sorted. }
  assert (forall k, k ∈ map fst sel <-> (exists e, e ∈ old /\ slot level e = k) \/ exists e, e ∈ es /\ slot level e = k) as Hsk.
  { intros k. rewrite Hkeys, map_map. cbn [fst]. change (map (fun x => x.1) ?l) with (map fst l). by rewrite child_map_keys. }
  destruct (each_child_ok level ltac:(lia) old es changes Hao Hes Hch m sel) with (children := child_map level old) (objs := objs) (output := @nil Node)
    as (added & Hc & Hnew & Hall).
  { apply (visit_children level index); (done || lia). }
  { by apply sorted_nodup. }
  { intros k [(e & He & <-)|(e & He & <-)]%Hsk; apply slot_span; try lia.
    - rewrite Forall_forall in Hpo. by apply Hpo.
    - rewrite Forall_forall in Hpe. by apply Hpe. }
  { intros k _. unfold child_map. rewrite (chunk_by_lookup (slot level)) by by apply sorted_slots. by destruct (List.filter _ old). }
  assert (ascending (updated old es)) as Hnew_asc by by apply merged_sorted.
  rewrite app_nil_l, <- (chunk_by_fibres (slot level)) in Hc; [|by apply sorted_slots|done|].
  2: { intros e [[He _]|He]%merged_elem; [apply Hsk; left; by exists e|apply Hsk; right; by exists e|done..]. }
  assert (forall (r : list DirectoryObject * list Node -> ReadM W (list DirectoryObject * option Node)) res,
    computes objects (r (objs ++ added, map (canon_root level) (chunk_by (slot level) (updated old es)))) res ->
    computes objects (children ← old_children base (node_at (S level) old) level index;
      selected ← pure (select_children level (map (fun x => (x.1, tt)) children) (map fst changes));
      each_child m level changes retain selected children objs [] ≫= r) res) as Hrun.
  { intros r res Hr. eapply computes_bind_Ok; [apply old_children_computes; [lia|done]|]. rewrite Hsel.
    eapply computes_bind_Ok; [apply computes_pure|]. eapply computes_bind_Ok; [exact Hc|exact Hr]. }
  destruct (decide (updated old es = [])) as [En|Nn].
  { exists added. rewrite En in *. split; [apply Hrun; apply computes_ret|].
    constructor; [|constructor]. eapply Forall_impl; [exact Hnew|]. simpl. intros o (_ & k & _ & Hb). by apply elem_of_nil in Hb. }
  assert (shaped final (S level) index (updated old es)) as Hsn by (apply shaped_updated; [intros; by apply Ho|done..]).
  destruct (canon_branch final level index _ Node.index Hsn) as (Henc & _ & _). rewrite map_at_index_same in Henc.
  rewrite nodes_at_some in Hk by done.
  destruct (push_node_ok (S level) index old (updated old es) (objs ++ added)) as (added2 & Hpush & Hnew2 & Hall2); [|done| |].
  { intros Hne. destruct (Ho Hne) as [? Hob]. split; [done|]. rewrite Forall_forall in Hob. by apply objects_known, Hob, canon_bytes_node. }
  { rewrite Forall_forall in Hk. apply Hk, canon_bytes_node. }
  exists (added ++ added2). rewrite app_assoc. split.
  - apply Hrun. cbv beta iota. destruct (map (canon_root level) (chunk_by (slot level) (updated old es))) as [|c0 cs0] eqn:Ecs.
    { exfalso. apply Nn. rewrite <- (chunk_by_concat (slot level) (updated old es)). apply map_eq_nil in Ecs. by rewrite Ecs. }
    cbn [is_empty]. rewrite <- Ecs in *. cbv zeta. rewrite sort_by_id by (eapply canon_roots_sorted; exact Hsn). rewrite Henc.
    eapply computes_bind_Ok; [apply computes_pure|]. rewrite (canon_from_bytes final (S level) index) by done.
    eapply computes_bind_Ok; [apply computes_pure|]. rewrite Hpush. apply computes_ret.
  - constructor; rewrite (nodes_at_some (S level) (updated old es)), canon_nodes_branch by done.
    + apply Forall_app. split; (eapply Forall_impl; [eassumption|]); simpl.
      * intros o (? & k & _ & Hb). split; [done|]. apply elem_of_app. left. by eapply nodes_under.
      * intros o [? Hb]. split; [done|]. rewrite Hb. set_solver.
    + apply Forall_app. rewrite map_app. split.
      * apply Forall_forall. intros b (e & He & Hb)%under_nodes; [|done].
        assert (slot level e ∈ map fst sel) as Hin.
        { apply merged_elem in He as [[He _]|He]; [apply Hsk; left; by exists e|apply Hsk; right; by exists e|done..]. }
        specialize (Hall _ Hin). rewrite Forall_forall in Hall. destruct (Hall _ Hb) as [Hb'|Hb']; [left|right; set_solver].
        apply nodes_under in Hb'; [|done]. destruct old as [|e1 old1]; [cbn in Hb'; set_solver|].
        rewrite nodes_at_some, canon_nodes_branch by done. set_solver.
      * constructor; [|constructor]. destruct Hall2; [by left|right; set_solver].
Qed.

(** The part of [mutate_node] after its shortcuts. *)
Definition mutate_body (level : nat) (old : option Node) (index : Z) (changes : ChangedLeaves) (objs : list DirectoryObject)
  : ReadM W (list DirectoryObject * option Node) :=
  match level with
  | O => mutate_leaf base final old index changes retain objs None
  | S level =>
      children ← old_children base old level index;
      selected ← pure (select_children level (map (fun x => (x.1, tt)) children) (map fst changes));
      '(objs, output) ← each_child (fun old index subtree objs => mutate_node level base final old index subtree retain objs)
                            level changes retain selected children objs [];
      if is_empty output then mret (objs, None)
      else
        let output := sort_by (fun a b => Node.index a ?= Node.index b) output in
        bytes ← pure (encode_branch output);
        node ← pure (from_bytes index bytes);
        mret (push_node old objs node bytes)
  end.

Lemma mutate_node_eq level old index changes objs :
  mutate_node level base final old index changes retain objs =
  if is_some_and (fun n => (Agg.last (Node.aggregate n) <=? retain) && is_empty changes) old then mret (objs, old)
  else if is_some_and (fun n => (retain <? Agg.first (Node.aggregate n)) && is_empty changes) old then mret (objs, None)
  else if is_none old && is_empty changes then mret (objs, None)
  else mutate_body level old index changes objs.
Proof. by destruct level. Qed.

(** The shortcuts agree with the rewriting they avoid. *)
Lemma mutate_node_shortcuts level :
  rewrites level (mutate_body level) ->
  rewrites level (fun old index changes objs => mutate_node level base final old index changes retain objs).
Proof.
  intros Hbody index old changes es objs Ho Hch Hes Hpe Hsl Hf Hk. rewrite mutate_node_eq, (changes_empty _ _ Hch).
  assert (ascending old) as Hao by (destruct old; [constructor|]; by destruct (Ho ltac:(done)) as [[[] _] _]).
  specialize (Hbody index old changes es objs Ho Hch Hes Hpe Hsl Hf Hk).
  destruct es as [|e0 es0]; cbn [is_empty].
  2: { rewrite andb_false_r. destruct (node_at level old); cbn [is_some_and]; rewrite ?andb_false_r; exact Hbody. }
  rewrite merged_nothing in * by done.
  destruct (decide (old = [])) as [->|Hne].
  { exists []. rewrite app_nil_r. split; [apply computes_ret|by repeat constructor]. }
  rewrite (node_at_some level old) in * by done. cbn [is_some_and is_none andb].
  rewrite canon_root_eq. cbn [Node.aggregate]. rewrite !andb_true_r. rewrite <- canon_root_eq.
  destruct (Z.leb_spec (Agg.last (leaf_agg old)) retain) as [L|L].
  { exists []. rewrite app_nil_r, at_most_all by done. rewrite node_at_some by done. split; [apply computes_ret|].
    constructor; [constructor|]. apply Forall_forall. by left. }
  destruct (Z.ltb_spec retain (Agg.first (leaf_agg old))) as [L'|L'].
  { exists []. rewrite app_nil_r, at_most_none by done. split; [apply computes_ret|by repeat constructor]. }
  exact Hbody.
Qed.

Lemma mutate_node_computes level : (level <= 3)%nat ->
  rewrites level (fun old index changes objs => mutate_node level base final old index changes retain objs).
Proof.
  induction level as [|level IH]; intros Hl; apply mutate_node_shortcuts.
  - intros index old changes es objs Ho Hch Hes Hpe Hsl Hf Hk. apply mutate_leaf_computes; try done.
    intros Hne. destruct (Ho Hne) as [Hsh Hob]. rewrite canon_nodes_leaf in Hob. apply Forall_cons in Hob as [Hob _].
    split_and!; [done|by apply objects_known|by left].
  - apply mutate_branch_computes; [done|]. apply IH. lia.
Qed.
End MutateProofs.

(** ** Grouping the changes *)

Lemma om_insert_last {V} k (v v' : V) m : Forall (fun x => x.1 < k) m -> om_insert k v' (m ++ [(k, v)]) = m ++ [(k, v')].
Proof.
  induction 1 as [|[k0 v0] m Hk _ IH]; cbn [app om_insert]; [by rewrite Z.ltb_irrefl, Z.eqb_refl|]. cbn in Hk.
  rewrite (proj2 (Z.ltb_ge _ _)), (proj2 (Z.eqb_neq _ _)) by lia. by rewrite IH.
Qed.
Lemma om_lookup_last {V} k (v : V) m : Forall (fun x => x.1 < k) m -> om_lookup k (m ++ [(k, v)]) = Some v.
Proof.
  induction 1 as [|[k0 v0] m Hk _ IH]; cbn [app om_lookup]; [by rewrite Z.eqb_refl|]. cbn in Hk.
  by rewrite (proj2 (Z.eqb_neq _ _)) by lia.
Qed.
Lemma om_sorted_snoc {V} (m : OrdMap V) k v : om_sorted (m ++ [(k, v)]) <-> om_sorted m /\ Forall (fun x => x.1 < k) m.
Proof.
  unfold om_sorted. rewrite map_app. cbn [map fst]. rewrite StronglySorted_app. split.
  - intros (Hlt & Hs & _). split; [done|]. apply Forall_forall. intros x Hx. apply Hlt; [|set_solver]. apply list_elem_of_fmap. eauto.
  - intros [Hs Hf]. split_and!; [|done|by repeat constructor]. intros a b (x & -> & Hx)%list_elem_of_fmap ->%list_elem_of_singleton.
    rewrite Forall_forall in Hf. by apply Hf.
Qed.

Lemma changes_snoc leaves es e : changes_ok leaves es -> Forall (fun x => x.1 <= slot 0 e) leaves ->
  let leaf := slot 0 e in
  let leaves' := om_insert leaf (default [] (om_lookup leaf leaves) ++ [e]) leaves in
  changes_ok leaves' (es ++ [e]) /\ Forall (fun x => x.1 <= leaf) leaves'.
Proof.
  intros [Hs <- Hl] Hle leaf leaves'. subst leaves'.
  assert (Forall (fun x => x.1 < leaf) leaves -> changes_ok (leaves ++ [(leaf, [e])]) (concat (map snd leaves) ++ [e])) as Hnew.
  { intros Hlt. constructor.
    - by apply om_sorted_snoc.
    - rewrite map_app, concat_app. done.
    - apply Forall_app. split; [done|]. constructor; [|constructor]. split; [done|by repeat constructor]. }
  destruct leaves as [|[k v] l _] using rev_ind.
  { cbn in Hnew |- *. split; [by apply Hnew|by repeat constructor]. }
  apply om_sorted_snoc in Hs as Hs'. destruct Hs' as [Hsl Hlt]. apply Forall_app in Hle as [Hle1 Hle2].
  apply Forall_cons in Hle2 as [Hk _]. cbn in Hk. destruct (Z.eq_dec k leaf) as [->|N].
  - rewrite om_lookup_last by done. cbn [default]. unfold default, id. rewrite om_insert_last by done. split.
    + apply Forall_app in Hl as [Hl1 Hl2]. apply Forall_cons in Hl2 as [[Hv Hv'] _]. cbn in Hv, Hv'. constructor.
      * by apply om_sorted_snoc.
      * rewrite !map_app, !concat_app. cbn. by rewrite !app_nil_r, <- app_assoc.
      * apply Forall_app. split; [done|]. constructor; [|constructor]. cbn. split; [by destruct v|]. apply Forall_app. by repeat constructor.
    + apply Forall_app. by repeat constructor.
  - assert (Forall (fun x => x.1 < leaf) (l ++ [(k, v)])) as Hall.
    { apply Forall_app. split; [eapply Forall_impl; [exact Hlt|]; simpl; lia|]. constructor; [cbn; lia|constructor]. }
    rewrite (proj2 (om_lookup_None leaf (l ++ [(k, v)]))).
    2: { intros (x & Hx & Hin)%list_elem_of_fmap. rewrite Forall_forall in Hall. specialize (Hall _ Hin). lia. }
    cbn [default app]. rewrite om_insert_above by done. split; [by apply Hnew|]. apply Forall_app. split; [|by repeat constructor].
    eapply Forall_impl; [exact Hall|]. simpl. lia.
Qed.

(** The pages [group_changes] accepts. *)
Definition changeable (page_size database_pages : Z) (x : Z * DirectoryEntry) : Prop :=
  x.1 = DirEntry.page x.2 /\ x.1 <> 0 /\ x.1 <= database_pages /\ x.1 <> lock_pgno page_size.

Lemma group_changes_from ps n changes : om_sorted changes -> Forall (changeable ps n) changes -> Forall (fun x => 0 <= x.1) changes ->
  forall leaves es, changes_ok leaves es -> Forall (fun l => Forall (fun x => l.1 <= slot 0 x.2) changes) leaves ->
  exists leaves', group_changes ps n changes leaves = Ok leaves' /\ changes_ok leaves' (es ++ map snd changes).
Proof.
  induction changes as [|[p e] changes IH]; intros Hs Hc Hp leaves es Hok Hle.
  { exists leaves. cbn. by rewrite app_nil_r. }
  apply om_sorted_inv in Hs as [Hs Hlt]. apply Forall_cons in Hc as [(Hpe & H0 & Hn & Hlock) Hc]. apply Forall_cons in Hp as [Hp0 Hp].
  cbn [fst snd] in *. cbn [group_changes map snd]. rewrite Hpe, Z.eqb_refl in *. cbn [negb orb].
  rewrite !(proj2 (Z.eqb_neq _ _)), (proj2 (Z.ltb_ge _ _)) by done. cbn [orb].
  destruct (changes_snoc leaves es e Hok) as [Hok' Hle'].
  { eapply Forall_impl; [exact Hle|]. by intros l [? _]%Forall_cons. }
  change ((DirEntry.page e - 1) / FANOUT) with (slot 0 e). destruct (IH Hs Hc Hp _ _ Hok') as (leaves' & Hg & Hok2).
  - eapply Forall_impl; [exact Hle'|]. intros l Hl. apply Forall_forall. intros x Hx. apply Z.le_trans with (slot 0 e); [done|].
    apply slot_mono. rewrite Forall_forall in Hlt, Hc. specialize (Hlt _ Hx). destruct (Hc _ Hx) as [<- _]. cbn in Hlt. lia.
  - exists leaves'. split; [exact Hg|]. by rewrite <- app_assoc in Hok2.
Qed.

Lemma group_changes_ok ps n changes : om_sorted changes -> Forall (changeable ps n) changes -> Forall (fun x => 0 <= x.1) changes ->
  exists leaves, group_changes ps n changes [] = Ok leaves /\ changes_ok leaves (map snd changes).
Proof. intros Hs Hc Hp. apply (group_changes_from ps n changes Hs Hc Hp [] []); [|constructor]. by repeat constructor. Qed.

Lemma changes_ready ps n changes :
  om_sorted changes -> Forall (changeable ps n) changes -> Forall page_ok (map snd changes) ->
  ascending (map snd changes) /\ Forall (fun e => DirEntry.page e <= n) (map snd changes)
  /\ exists leaves, group_changes ps n changes [] = Ok leaves /\ changes_ok leaves (map snd changes).
Proof.
  intros Hcs Hch Hpe. split_and!.
  - unfold om_sorted in Hcs. replace (map DirEntry.page (map snd changes)) with (map fst changes); [done|].
    rewrite map_map. clear -Hch. induction Hch as [|x l [Hx _] _ IH]; [done|]. cbn [map]. by rewrite Hx, IH.
  - rewrite Forall_map. eapply Forall_impl; [exact Hch|]. intros x (-> & _ & ? & _). done.
  - apply group_changes_ok; [done..|]. apply Forall_forall. intros x Hx. rewrite Forall_forall in Hch. destruct (Hch _ Hx) as (-> & _).
    rewrite Forall_map, Forall_forall in Hpe. destruct (Hpe _ Hx). lia.
Qed.

(** ** Growing the tree *)

Section GrowProofs.
Context `{HB : Blake3} (v : Verification).

(** The index of the parent of a group of siblings. *)
Lemma group_index level k g : shaped v (S level) k g ->
  default 0 (Node.index <$> head (map (canon_root level) (chunk_by (slot level) g))) / FANOUT = k.
Proof.
  intros Hg. destruct (shaped_chunks _ _ _ _ Hg) as (ks & _ & Hf). pose proof (chunk_by_concat (slot level) g) as Hcc.
  destruct Hf as [|k' c ks cs [Hc Hk] _]; [destruct Hg as [[Hne _ _] _]; by subst g|].
  cbn [map head fmap option_fmap option_map default]. unfold default, id. rewrite canon_root_eq. cbn [Node.index].
  by rewrite (shaped_head _ _ _ _ Hc).
Qed.

Lemma build_parents_ok level gs : Forall (fun g => exists k, shaped v (S level) k g) gs -> forall objs parents,
  build_parents (map (fun g => map (canon_root level) (chunk_by (slot level) g)) gs) objs parents =
  Ok (parents ++ map (canon_root (S level)) gs,
      objs ++ map (fun g => DirObject.Mk (Node.digest (canon_root (S level) g)) (canon_bytes (S level) g)) gs).
Proof.
  induction 1 as [|g gs [k Hg] _ IH]; intros objs parents; [cbn; by rewrite !app_nil_r|]. cbn [map build_parents].
  destruct (canon_branch v level k g Node.index Hg) as (Henc & _ & _). rewrite map_at_index_same in Henc. rewrite Henc. cbn [mbind result_bind].
  rewrite (group_index level k g Hg).
  rewrite (canon_from_bytes v (S level) k g Hg). cbn [mbind result_bind]. rewrite IH, <- !app_assoc. done.
Qed.

Lemma chunks_shaped level es : entries_ok v es -> Forall (fun g => exists k, shaped v level k g) (chunk_by (slot level) es).
Proof.
  intros [Hne Hs Hf]. destruct (chunk_by_keys (slot level) es (sorted_slots level es Hs)) as (ks & Hks & Hc).
  pose proof (chunk_by_concat (slot level) es) as Hcc.
  assert (Forall (fun c => StronglySorted Z.lt (map DirEntry.page c)) (chunk_by (slot level) es)) as Hsc.
  { rewrite <- Hcc, concat_map in Hs. apply sorted_part in Hs. by rewrite Forall_map in Hs. }
  apply Forall_forall. intros c Hcin. apply list_elem_of_lookup in Hcin as Hi. destruct Hi as [i Hi].
  destruct (Forall2_lookup_r _ _ _ _ _ Hc Hi) as (k & _ & Hcne & Hck). exists k.
  constructor; [|done]. constructor; [done|rewrite Forall_forall in Hsc; by apply Hsc|].
  apply Forall_forall. intros e He. rewrite Forall_forall in Hf. apply Hf. rewrite <- Hcc.
  apply list_elem_of_In, in_concat. exists c. by rewrite <- !list_elem_of_In.
Qed.

(** Siblings are the children of the coarser chunks. *)
Lemma canon_groups level es : ascending es ->
  chunk_by (fun n => Node.index n / FANOUT) (map (canon_root level) (chunk_by (slot level) es))
  = map (fun g => map (canon_root level) (chunk_by (slot level) g)) (chunk_by (slot (S level)) es).
Proof.
  intros Hs. rewrite chunk_by_map, <- (map_map (chunk_by (slot level)) (map (canon_root level))). f_equal.
  rewrite (chunk_by_ext (slot (S level)) (fun e => slot level e / FANOUT)) by (intros; apply slot_step).
  apply (chunk_by_coarse (slot level) (fun k => k / FANOUT)).
  - intros a b Hab. by apply Z.div_le_mono.
  - by apply sorted_slots.
  - intros c k Hne Hk. rewrite canon_root_eq. cbn [Node.index]. destruct c as [|e c]; [done|]. apply Forall_cons in Hk as [Hk _].
    change (slot level e / FANOUT = k / FANOUT). by rewrite Hk.
Qed.

Lemma build_parent_level_ok level es objs : entries_ok v es ->
  build_parent_level (map (canon_root level) (chunk_by (slot level) es)) objs =
  Ok (map (canon_root (S level)) (chunk_by (slot (S level)) es),
      objs ++ map (fun g => DirObject.Mk (Node.digest (canon_root (S level) g)) (canon_bytes (S level) g)) (chunk_by (slot (S level)) es)).
Proof.
  intros He. unfold build_parent_level. rewrite canon_groups by apply He.
  rewrite build_parents_ok by (by apply chunks_shaped). done.
Qed.

(** The height of the tree over the entries, starting from [level]: the least with one node
    that is at least [level]. An update starts at the height of its base and only grows it. *)
Fixpoint top_height (fuel : nat) (level : nat) (es : list DirectoryEntry) : nat :=
  match fuel, chunk_by (slot level) es with
  | S fuel, _ :: _ :: _ => top_height fuel (S level) es
  | _, _ => level
  end.

Lemma top_height_least fuel level es :
  (level <= top_height fuel level es)%nat /\
  forall h, (level <= h < top_height fuel level es)%nat -> (1 < length (chunk_by (slot h) es))%nat.
Proof.
  revert level. induction fuel as [|fuel IH]; intros level; cbn [top_height]; [split; [done|lia]|].
  destruct (chunk_by (slot level) es) as [|g [|g' gs]] eqn:E; [split; [done|lia]..|].
  destruct (IH (S level)) as [Hle Hlt]. split; [lia|]. intros h Hh.
  destruct (decide (h = level)) as [->|]; [rewrite E; cbn; lia|]. apply Hlt. lia.
Qed.

(** The nodes above [level], level by level. *)
Fixpoint grown_objects (fuel : nat) (level : nat) (es : list DirectoryEntry) : list DirectoryObject :=
  match fuel, chunk_by (slot level) es with
  | S fuel, _ :: _ :: _ =>
      map (fun g => DirObject.Mk (Node.digest (canon_root (S level) g)) (canon_bytes (S level) g)) (chunk_by (slot (S level)) es)
      ++ grown_objects fuel (S level) es
  | _, _ => []
  end.

Lemma slot_three e : page_ok e -> slot 3 e = 0.
Proof.
  intros [H1 H2]. unfold slot, FANOUT, u32_max in *. apply Z.div_small. change (256 ^ (Z.of_nat 3 + 1)) with 4294967296. lia.
Qed.

Lemma chunk_by_single {A} (f : A -> Z) k l : l <> [] -> Forall (fun x => f x = k) l -> chunk_by f l = [l].
Proof.
  intros Hne Hf. rewrite <- (app_nil_r l) at 1. rewrite (chunk_by_app f k); [done|done|done|constructor|constructor].
Qed.

Lemma entries_pages es : entries_ok v es -> Forall page_ok es.
Proof. intros [_ _ Hf]. eapply Forall_impl; [exact Hf|]. intros e He. by eapply leaf_entry_page. Qed.

(** A level has one node, or several and is below the third. *)
Lemma one_or_more level es : entries_ok v es -> (level <= 3)%nat ->
  chunk_by (slot level) es = [es] \/ (level < 3)%nat /\ exists c1 c2 cs, chunk_by (slot level) es = c1 :: c2 :: cs.
Proof.
  intros He Hl. pose proof (chunk_by_concat (slot level) es) as Hcc. destruct (chunk_by (slot level) es) as [|c1 [|c2 cs]] eqn:Ec.
  - destruct He as [Hne _ _]. by subst es.
  - left. cbn [concat] in Hcc. rewrite app_nil_r in Hcc. by subst c1.
  - right. split; [|by exists c1, c2, cs]. destruct (Nat.eq_dec level 3%nat) as [->|]; [|lia]. exfalso.
    rewrite (chunk_by_single (slot 3) 0) in Ec; [done|by destruct He|]. eapply Forall_impl; [exact (entries_pages es He)|]. intros e. apply slot_three.
Qed.

Lemma grow_ok es : entries_ok v es -> forall fuel level objs, (level <= 3)%nat -> (3 - level < fuel)%nat ->
  grow fuel (map (canon_root level) (chunk_by (slot level) es)) objs (Z.of_nat level) =
  Ok ([canon_root (top_height fuel level es) es], objs ++ grown_objects fuel level es, Z.of_nat (top_height fuel level es))
  /\ (level <= top_height fuel level es <= 3)%nat /\ chunk_by (slot (top_height fuel level es)) es = [es].
Proof.
  intros He. induction fuel as [|fuel IH]; intros level objs Hl Hfu; [lia|]. cbn [grow top_height grown_objects].
  destruct (one_or_more level es He Hl) as [Hone|[Hlt (c1 & c2 & cs & Ec)]].
  { rewrite Hone. cbn [map]. rewrite app_nil_r. split_and!; [done|lia|lia|done]. }
  rewrite Ec. cbn [map]. change (canon_root level c1 :: canon_root level c2 :: map (canon_root level) cs) with (map (canon_root level) (c1 :: c2 :: cs)).
  rewrite <- Ec, build_parent_level_ok by done. cbn [mbind result_bind].
  rewrite (proj2 (Z.leb_le _ _)) by lia. replace (Z.of_nat level + 1) with (Z.of_nat (S level)) by lia.
  destruct (IH (S level) (objs ++ map (fun g => DirObject.Mk (Node.digest (canon_root (S level) g)) (canon_bytes (S level) g))
                            (chunk_by (slot (S level)) es)) ltac:(lia) ltac:(lia)) as (Hg & Hb & H1).
  rewrite Hg, <- app_assoc. split_and!; [done|lia|lia|done].
Qed.
End GrowProofs.

(** ** Nodes by level *)

Section LevelNodes.
Context `{HB : Blake3}.

(** All nodes up to a level. *)
Definition level_nodes (level : nat) (es : list DirectoryEntry) : list (list byte) :=
  concat (map (canon_nodes level) (chunk_by (slot level) es)).

Lemma level_nodes_elem level es b : b ∈ level_nodes level es <-> exists g, g ∈ chunk_by (slot level) es /\ b ∈ canon_nodes level g.
Proof.
  unfold level_nodes. rewrite list_elem_of_In, in_concat. split.
  - intros (l & Hl%list_elem_of_In & Hb%list_elem_of_In). apply list_elem_of_fmap in Hl as (g & -> & Hg). by exists g.
  - intros (g & Hg & Hb). exists (canon_nodes level g). rewrite <- !list_elem_of_In. split; [|done]. apply list_elem_of_fmap. by exists g.
Qed.

Lemma chunks_of_chunks level es : ascending es ->
  chunk_by (slot level) es = concat (map (chunk_by (slot level)) (chunk_by (slot (S level)) es)).
Proof.
  intros Hs. rewrite (chunk_by_ext (slot (S level)) (fun e => slot level e / FANOUT)) by (intros; apply slot_step).
  rewrite <- (chunk_by_coarse (slot level) (fun k => k / FANOUT) (fun c => default 0 (slot level <$> head c) / FANOUT)).
  - by rewrite chunk_by_concat.
  - intros a b Hab. by apply Z.div_le_mono.
  - by apply sorted_slots.
  - intros c k Hne Hk. destruct c as [|e c]; [done|]. apply Forall_cons in Hk as [Hk _].
    change (slot level e / FANOUT = k / FANOUT). by rewrite Hk.
Qed.

Lemma level_nodes_step level es b : ascending es ->
  b ∈ level_nodes (S level) es <-> b ∈ level_nodes level es
    \/ exists g, g ∈ chunk_by (slot (S level)) es /\ b = canon_bytes (S level) g.
Proof.
  intros Hs. rewrite !level_nodes_elem. rewrite (chunks_of_chunks level es Hs). split.
  - intros (g & Hg & Hb). rewrite canon_nodes_branch in Hb. apply elem_of_app in Hb as [Hb|Hb]; [left|right; exists g; set_solver].
    apply level_nodes_elem in Hb as (c & Hc & Hb). exists c. split; [|done]. apply list_elem_of_In, in_concat.
    exists (chunk_by (slot level) g). rewrite <- !list_elem_of_In. split; [|done]. apply list_elem_of_fmap. by exists g.
  - intros [(c & Hc & Hb)|(g & Hg & ->)].
    + apply list_elem_of_In, in_concat in Hc as (l & Hl%list_elem_of_In & Hc%list_elem_of_In).
      apply list_elem_of_fmap in Hl as (g & -> & Hg). exists g. split; [done|]. rewrite canon_nodes_branch. apply elem_of_app. left.
      apply level_nodes_elem. by exists c.
    + exists g. split; [done|]. apply canon_bytes_node.
Qed.

Lemma grown_nodes es fuel level : ascending es ->
  (forall b, b ∈ level_nodes (top_height fuel level es) es <->
     b ∈ level_nodes level es \/ b ∈ map DirObject.bytes (grown_objects fuel level es))
  /\ Forall (fun o => DirObject.digest o = blake3 (DirObject.bytes o)) (grown_objects fuel level es).
Proof.
  intros Hs. revert level. induction fuel as [|fuel IH]; intros level; cbn [top_height grown_objects].
  { split; [|constructor]. set_solver. }
  destruct (chunk_by (slot level) es) as [|c1 [|c2 cs]]; [split; [set_solver|constructor]..|].
  destruct (IH (S level)) as [IH1 IH2]. split.
  - intros b. rewrite IH1, level_nodes_step, map_app, map_map, elem_of_app by done. cbn [DirObject.bytes].
    rewrite (list_elem_of_fmap _ (chunk_by _ es)). naive_solver.
  - apply Forall_app. split; [|done]. rewrite Forall_map. apply Forall_forall. intros g _. cbn [DirObject.digest DirObject.bytes]. by rewrite canon_root_eq.
Qed.
End LevelNodes.

(** ** The whole update *)

Lemma merged_fresh retain final es : ascending es -> Forall (fun e => DirEntry.page e <= final) es -> merged retain final [] es = es.
Proof.
  intros Hs Hf. rewrite <- (map_snd_keyed es) at 2. unfold merged. cbn [List.filter keyed map]. f_equal.
  fold (keyed es). rewrite extend_nil_keyed, om_filter_all; [done| |done].
  rewrite map_fst_keyed. intros k (e & -> & He)%list_elem_of_fmap. rewrite Forall_forall in Hf. specialize (Hf _ He). lia.
Qed.

Section RunProofs.
Context {W : Type} `{HR : NodeReader W, HB : Blake3} (objects known : list byte -> Prop) `{!ReaderLaws W objects}.
Context (known_digests : forall b b', known b -> known b' -> blake3 b = blake3 b' -> b = b')
  (objects_known : forall b, objects b -> known b).
Context (base final : Verification) (retain : Z) (Hbase : admits base)
  (Hretain : retain <= Ver.database_pages final).
Context (height : nat) (Hheight : (height <= 3)%nat).

Abbreviation entry_in v := (leaf_entry (Ver.page_size v) (Ver.database_pages v) (Ver.extents v) 0).
Abbreviation updated := (merged retain (Ver.database_pages final)).

Lemma outside_computes fuel : forall outside es objs nodes, (length outside <= fuel)%nat ->
  changes_ok outside es -> ascending es -> Forall (entry_in final) es -> Forall known (level_nodes height es) ->
  exists added,
    computes objects (outside_nodes fuel base final height (FANOUT ^ Z.of_nat height) outside retain objs nodes)
      (Ok (objs ++ added, nodes ++ map (canon_root height) (chunk_by (slot height) es)))
    /\ Forall (fun o => DirObject.digest o = blake3 (DirObject.bytes o) /\ DirObject.bytes o ∈ level_nodes height es) added
    /\ Forall (fun b => b ∈ map DirObject.bytes added) (level_nodes height es).
Proof.
  set (span := FANOUT ^ Z.of_nat height). destruct (span_divides height Hheight) as (q & Hspan & Hq). fold span in Hspan, Hq.
  induction fuel as [|fuel IH]; intros outside es objs nodes Hfu Hch Hes Hf Hk.
  { destruct outside; [|cbn in Hfu; lia]. destruct Hch as [_ <- _]. exists []. cbn. rewrite !app_nil_r.
    split_and!; [apply computes_ret|constructor|constructor]. }
  destruct outside as [|[leaf l] rest]; [destruct Hch as [_ <- _]; exists []; cbn; rewrite !app_nil_r;
    split_and!; [apply computes_ret|constructor|constructor]|].
  set (outside := (leaf, l) :: rest) in *. pose proof Hch as [Hso Hflat Hleaves].
  assert (Forall page_ok es) as Hpe by (eapply Forall_impl; [exact Hf|]; intros e He; by eapply leaf_entry_page).
  apply Forall_cons in Hleaves as Hl0. destruct Hl0 as [[Hlne Hll] _]. cbn [fst snd] in Hlne, Hll.
  destruct l as [|e0 l0]; [done|]. apply Forall_cons in Hll as [He0 _].
  assert (e0 ∈ es) as He0in by (rewrite <- Hflat; cbn; set_solver).
  assert (page_ok e0) as Hpe0 by (rewrite Forall_forall in Hpe; by apply Hpe).
  set (k := slot height e0). destruct (slot_span height e0 Hpe0 Hheight) as [Hk0 Hk1]. fold k span in Hk0, Hk1.
  assert (leaf / span = k) as Hleaf by (unfold k; rewrite slot_leaf, He0; done).
  pose proof (changes_restrict outside es (fun x => x <? (k + 1) * span) Hch) as Hch1.
  pose proof (changes_restrict outside es (fun x => (k + 1) * span <=? x) Hch) as Hch2.
  set (es1 := List.filter (fun e => slot 0 e <? (k + 1) * span) es) in *. set (es2 := List.filter (fun e => (k + 1) * span <=? slot 0 e) es) in *.
  assert (es = es1 ++ es2) as Esplit.
  { destruct Hch1 as [_ <- _]. destruct Hch2 as [_ <- _]. rewrite <- concat_app, <- map_app, <- om_filter_split by done. by symmetry. }
  assert (forall x, x ∈ outside -> leaf <= x.1) as Hmin.
  { intros x [->|Hx]%elem_of_cons; [done|]. apply om_sorted_inv in Hso as [_ Hlt]. rewrite Forall_forall in Hlt. specialize (Hlt _ Hx). cbn in Hlt. lia. }
  assert (Forall (fun e => slot height e = k) es1) as Hs1.
  { apply Forall_forall. intros e He. assert (e ∈ es1) as He' by done. apply elem_of_filter_bool in He as [He Hlt].
    assert (leaf <= slot 0 e) as Hge.
    { rewrite <- Hflat in He. apply list_elem_of_In, in_concat in He as (l & Hl & He). apply list_elem_of_In in Hl, He.
      apply list_elem_of_fmap in Hl as (x & -> & Hx). rewrite Forall_forall in Hleaves. destruct (Hleaves _ Hx) as [_ Hxs].
      rewrite Forall_forall in Hxs. rewrite (Hxs _ He). by apply Hmin. }
    rewrite slot_leaf. fold span. symmetry. apply (Z.div_unique _ span k (slot 0 e - k * span)); [|lia]. left.
    pose proof (Z.mul_div_le leaf span Hspan). apply Z.ltb_lt in Hlt. nia. }
  assert (Forall (fun e => k < slot height e) es2) as Hs2.
  { apply Forall_forall. intros e [_ Hge]%elem_of_filter_bool. rewrite slot_leaf. fold span. apply Z.leb_le in Hge.
    assert (k + 1 <= slot 0 e / span); [|lia]. apply Z.div_le_lower_bound; lia. }
  assert (e0 ∈ es1) as He1.
  { apply elem_of_filter_bool. split; [done|]. apply Z.ltb_lt. rewrite He0. pose proof (Z.mul_succ_div_gt leaf span Hspan). nia. }
  assert (es1 <> []) as Hne1 by (intros E; rewrite E in He1; set_solver).
  rewrite Esplit, map_app in Hes. apply StronglySorted_app in Hes as (_ & Has1 & Has2).
  rewrite Esplit in Hf, Hpe. apply Forall_app in Hf as [Hf1 Hf2]. apply Forall_app in Hpe as [Hpe1 _].
  assert (chunk_by (slot height) es = es1 :: chunk_by (slot height) es2) as Echunk.
  { rewrite Esplit. apply (chunk_by_app _ k); [done|done|by apply sorted_slots|done]. }
  unfold level_nodes in Hk. rewrite Echunk in Hk. cbn [map concat] in Hk. apply Forall_app in Hk as [Hkn1 Hkn2].
  assert (updated [] es1 = es1) as Eup.
  { apply merged_fresh; [done|]. eapply Forall_impl; [exact Hf1|]. intros e [_ ? _ _ _ _ _ _]. lia. }
  destruct (mutate_node_computes objects known known_digests base final retain Hbase Hretain objects_known height Hheight
              k [] (om_filter (fun x => x <? (k + 1) * span) outside) es1 objs) as (added1 & Hc1 & [Hn1 Ha1]);
    [done|done|done|done|done|by rewrite Eup|by rewrite Eup, nodes_at_some|]. rewrite Eup, nodes_at_some in * by done.
  destruct (IH (om_filter (fun x => (k + 1) * span <=? x) outside) es2 (objs ++ added1) (nodes ++ [canon_root height es1])) as (added2 & Hc2 & Hn2 & Ha2);
    [|done..|].
  { unfold outside, om_filter. cbn [List.filter fst]. rewrite (proj2 (Z.leb_gt _ _)) by (pose proof (Z.mul_succ_div_gt leaf span Hspan); nia).
    cbn in Hfu. pose proof (filter_length_le (fun x => (k + 1) * span <=? x.1) rest). lia. }
  assert (level_nodes height es = canon_nodes height es1 ++ level_nodes height es2) as Eln by (unfold level_nodes; by rewrite Echunk).
  exists (added1 ++ added2). split_and!.
  - unfold outside at 1. cbn [outside_nodes]. rewrite Hleaf.
    rewrite try_u32_ok by (unfold u32_max; nia). eapply computes_bind_Ok; [apply computes_pure|].
    rewrite (proj2 (Z.leb_le _ _)) by (unfold u64_max; nia). eapply computes_bind_Ok; [apply computes_pure|]. cbv zeta.
    fold outside. eapply computes_bind_Ok; [exact Hc1|]. cbv beta iota. rewrite node_at_some by done. cbn [ok_or].
    eapply computes_bind_Ok; [apply computes_pure|]. rewrite Echunk. cbn [map]. rewrite (app_assoc objs).
    change (nodes ++ canon_root height es1 :: map (canon_root height) (chunk_by (slot height) es2))
      with (nodes ++ [canon_root height es1] ++ map (canon_root height) (chunk_by (slot height) es2)).
    rewrite (app_assoc nodes). exact Hc2.
  - rewrite Eln. apply Forall_app. split; (eapply Forall_impl; [eassumption|]); simpl; intros o [? ?]; set_solver.
  - rewrite Eln, map_app. apply Forall_app. split.
    + rewrite (nodes_at_some height es1) in Ha1 by done. eapply Forall_impl; [exact Ha1|]. simpl.
      intros b [Hb|Hb]; [by apply elem_of_nil in Hb|set_solver].
    + eapply Forall_impl; [exact Ha2|]. simpl. set_solver.
Qed.

Abbreviation reach := (FANOUT ^ (Z.of_nat height + 1)).

Lemma leaf_below_span e : (slot 0 e <? FANOUT ^ Z.of_nat height) = (DirEntry.page e <=? reach).
Proof.
  unfold slot, FANOUT. change (256 ^ (Z.of_nat 0 + 1)) with 256. rewrite Z.pow_add_r, Z.pow_1_r by lia.
  set (s := 256 ^ Z.of_nat height). destruct (Z.leb_spec (DirEntry.page e) (s * 256)) as [L|L].
  - apply Z.ltb_lt, Z.div_lt_upper_bound; lia.
  - apply Z.ltb_ge, Z.div_le_lower_bound; lia.
Qed.
Lemma slot_zero e : page_ok e -> (slot height e =? 0) = (DirEntry.page e <=? reach).
Proof.
  intros [Hp _]. unfold slot. set (s := reach). assert (0 < s) by (apply Z.pow_pos_nonneg; unfold FANOUT; lia).
  destruct (Z.leb_spec (DirEntry.page e) s) as [L|L].
  - apply Z.eqb_eq, Z.div_small. lia.
  - apply Z.eqb_neq. assert (1 <= (DirEntry.page e - 1) / s); [|lia]. apply Z.div_le_lower_bound; lia.
Qed.

Lemma ascending_split t es : ascending es ->
  es = List.filter (at_most t) es ++ List.filter (fun e => negb (at_most t e)) es.
Proof.
  induction es as [|e es IH]; intros Hs; [done|]. cbn [map] in Hs. apply StronglySorted_inv in Hs as [Hs Hf]. cbn [List.filter].
  destruct (at_most t e) eqn:L; unfold at_most in L; cbn [negb app].
  - f_equal. by apply IH.
  - rewrite (filter_false (at_most t) es); cbn [app].
    + f_equal. rewrite Forall_map in Hf. clear IH Hs. induction Hf as [|x es Hx _ IH]; [done|]. cbn [List.filter].
      unfold at_most at 1. rewrite (proj2 (Z.leb_gt _ _)) by lia. cbn [negb]. by f_equal.
    + intros x Hx. rewrite Forall_map, Forall_forall in Hf. specialize (Hf _ Hx). unfold at_most. apply Z.leb_gt. lia.
Qed.

Section Split.
Context (old es : list DirectoryEntry) (Hold : shaped base height 0 old) (Hes : ascending es)
  (Hnew : Forall (entry_in final) (updated old es)) (Hpe : Forall page_ok es)
  (Hle : Forall (fun e => DirEntry.page e <= Ver.database_pages final) es).

Definition inner : list DirectoryEntry := List.filter (at_most reach) es.
Definition outer : list DirectoryEntry := List.filter (fun e => negb (at_most reach e)) es.

Lemma old_ascending : ascending old.
Proof. by destruct Hold as [[] _]. Qed.

Lemma updated_split : updated old es = updated old inner ++ outer.
Proof.
  pose proof old_ascending as Hao. rewrite (ascending_split reach (updated old es)) by by apply merged_sorted.
  assert (List.filter (at_most reach) old = old /\ List.filter (fun e => negb (at_most reach e)) old = []) as [E1 E2].
  { destruct Hold as [[_ _ Hf] Hs]. assert (Forall (fun e => at_most reach e = true) old) as Hall.
    { apply Forall_forall. intros e He. rewrite Forall_forall in Hf, Hs. unfold at_most. rewrite <- slot_zero.
      - apply Z.eqb_eq. by apply Hs.
      - by eapply leaf_entry_page, Hf. }
    clear -Hall. induction Hall as [|e l He _ [IH1 IH2]]; [done|]. cbn. rewrite He. cbn. by rewrite IH1, IH2. }
  f_equal.
  - rewrite (merged_filter _ _ (fun page => page <=? reach)) by done. change (fun e => DirEntry.page e <=? reach) with (at_most reach).
    by rewrite E1.
  - rewrite (merged_filter _ _ (fun page => negb (page <=? reach))) by done.
    change (fun e => negb (DirEntry.page e <=? reach)) with (fun e => negb (at_most reach e)). rewrite E2.
    apply merged_fresh; [by apply sorted_pages_filter|]. by apply filter_elem.
Qed.

Lemma inner_slots : Forall (fun e => slot height e = 0) inner.
Proof.
  apply Forall_forall. intros e [He Hr]%elem_of_filter_bool. rewrite Forall_forall in Hpe. unfold at_most in Hr.
  rewrite <- slot_zero in Hr by by apply Hpe. by apply Z.eqb_eq.
Qed.
Lemma outer_slots : Forall (fun e => 0 < slot height e) outer.
Proof.
  apply Forall_forall. intros e [He Hr]%elem_of_filter_bool. rewrite Forall_forall in Hpe. unfold at_most in Hr.
  rewrite <- slot_zero in Hr by by apply Hpe. apply negb_true_iff, Z.eqb_neq in Hr.
  destruct (slot_span height e (Hpe _ He) Hheight). lia.
Qed.

Lemma updated_chunks :
  chunk_by (slot height) (updated old es) =
  (match updated old inner with [] => [] | a => [a] end) ++ chunk_by (slot height) outer.
Proof.
  rewrite updated_split. destruct (updated old inner) as [|e0 l0] eqn:E; [done|]. rewrite <- E.
  rewrite (chunk_by_app (slot height) 0); [done|by rewrite E| |apply sorted_slots; by apply sorted_pages_filter|apply outer_slots].
  apply Forall_forall. intros e [[He _]|He]%merged_elem.
  - destruct Hold as [_ Hs]. rewrite Forall_forall in Hs. by apply Hs.
  - pose proof inner_slots as Hi. rewrite Forall_forall in Hi. by apply Hi.
  - apply old_ascending.
  - by apply sorted_pages_filter.
Qed.
End Split.

(** The root of the old tree. *)
Definition old_root (old : list DirectoryEntry) : DirectoryRoot :=
  DirRoot.Mk (Node.digest (canon_root height old)) (Z.of_nat height) (leaf_agg old).

(** The objects of the update against the two trees. *)
Record update_objects (old new : list DirectoryEntry) (level : nat) (added : list DirectoryObject) : Prop := {
  uo_new : Forall (fun o => DirObject.digest o = blake3 (DirObject.bytes o) /\ DirObject.bytes o ∈ canon_nodes level new) added;
  uo_all : Forall (fun b => b ∈ canon_nodes height old \/ b ∈ map DirObject.bytes added) (canon_nodes level new)
}.

Lemma update_run_computes old changes expected :
  let es := map snd changes in
  let new := updated old es in
  let top := top_height 4 height new in
  shaped base height 0 old -> Forall objects (canon_nodes height old) ->
  Ver.page_size base = Ver.page_size final -> retain <= Ver.database_pages base ->
  om_sorted changes -> Forall (changeable (Ver.page_size final) (Ver.database_pages final)) changes -> Forall page_ok es ->
  entries_ok final new -> Forall known (canon_nodes top new) ->
  exists added,
    computes objects (update_run base (old_root old) changes retain final expected None)
      (finish_tree added (canon_root top new) (Z.of_nat top) final expected)
    /\ update_objects old new top added /\ chunk_by (slot top) new = [new] /\ (height <= top <= 3)%nat.
Proof.
  intros es new top Hold Hob Hps Hrb Hcs Hch Hpe Hnew Hk. pose proof (old_ascending old Hold) as Hao.
  destruct (changes_ready _ _ _ Hcs Hch Hpe) as (Hes & Hle & leaves & Hg & Hlv). fold es in Hes, Hle, Hlv.
  destruct (grow_ok final new Hnew 4 height (@nil DirectoryObject) Hheight ltac:(lia)) as (_ & Htop & Hone). fold top in Htop, Hone.
  destruct (grown_nodes new 4 height ltac:(by destruct Hnew)) as [Hgn Hgd]. fold top in Hgn.
  assert (level_nodes top new = canon_nodes top new) as Htn by (unfold level_nodes; rewrite Hone; cbn; by rewrite app_nil_r).
  pose proof (updated_split old es Hold Hes Hle) as Esplit. pose proof (updated_chunks old es Hold Hes Hpe Hle) as Echunks.
  set (a := updated old (inner es)) in *. set (o := outer es) in *. fold new in Esplit, Echunks.
  assert (forall b, b ∈ level_nodes height new <-> b ∈ nodes_at height a \/ b ∈ level_nodes height o) as Hln.
  { intros b. unfold level_nodes. rewrite Echunks, map_app, concat_app, elem_of_app. unfold nodes_at. destruct a; cbn [map concat]; [done|]. by rewrite app_nil_r. }
  assert (forall b, b ∈ level_nodes height new -> known b) as Hkn.
  { intros b Hb. rewrite Forall_forall in Hk. apply Hk. rewrite <- Htn. apply Hgn. by left. }
  assert (Forall (entry_in final) a /\ Forall (entry_in final) o) as [Hfa Hfo].
  { destruct Hnew as [_ _ Hf]. rewrite Esplit in Hf. by apply Forall_app in Hf. }
  assert (changes_ok (om_filter (fun x => x <? FANOUT ^ Z.of_nat height) leaves) (inner es)) as Hch1.
  { pose proof (changes_restrict leaves es (fun x => x <? FANOUT ^ Z.of_nat height) Hlv) as Hr.
    unfold inner. erewrite List.filter_ext; [exact Hr|]. intros e. unfold at_most. by rewrite <- leaf_below_span. }
  assert (changes_ok (om_filter (fun x => FANOUT ^ Z.of_nat height <=? x) leaves) o) as Hch2.
  { pose proof (changes_restrict leaves es (fun x => FANOUT ^ Z.of_nat height <=? x) Hlv) as Hr.
    unfold o, outer. erewrite List.filter_ext; [exact Hr|]. intros e. unfold at_most. rewrite <- leaf_below_span, Z.ltb_antisym. apply negb_involutive. }
  destruct (mutate_node_computes objects known known_digests base final retain Hbase Hretain objects_known height Hheight
              0 old (om_filter (fun x => x <? FANOUT ^ Z.of_nat height) leaves) (inner es) []) as (added1 & Hc1 & [Hn1 Ha1]).
  { done. } { done. } { by apply sorted_pages_filter. } { by apply filter_elem. } { by apply inner_slots. } { exact Hfa. }
  { apply Forall_forall. intros b Hb. apply Hkn, Hln. by left. }
  fold a in Hc1, Hn1, Ha1.
  destruct (outside_computes (length (om_filter (fun x => FANOUT ^ Z.of_nat height <=? x) leaves))
              (om_filter (fun x => FANOUT ^ Z.of_nat height <=? x) leaves) o added1
              (match node_at height a with Some n => [n] | None => [] end)) as (added2 & Hc2 & Hn2 & Ha2).
  { done. } { exact Hch2. } { by apply sorted_pages_filter. } { done. } { apply Forall_forall. intros b Hb. apply Hkn, Hln. by right. }
  exists (added1 ++ added2 ++ grown_objects 4 height new). split; [|split; [constructor|done]].
  - unfold update_run, old_root. cbn [DirRoot.height DirRoot.digest DirRoot.aggregate].
    destruct (span_divides height Hheight) as (q & Hspan & Hq).
    assert (FANOUT ^ Z.of_nat height <= 2 ^ 24) as Hspan24 by (assert (0 < q) by nia; nia).
    assert (0 < Ver.database_pages final) as Hfin.
    { destruct Hnew as [Hne _ Hf]. destruct new as [|e l]; [done|]. apply Forall_cons in Hf as [[_ ? _ _ _ _ _ _] _]. lia. }
    rewrite (proj2 (Z.ltb_ge 3 _)), (proj2 (Z.eqb_eq _ _) Hps), (proj2 (Z.ltb_ge (Ver.database_pages base) _)), (proj2 (Z.eqb_neq _ 0)) by lia.
    cbn [negb orb]. rewrite Hg. eapply computes_bind_Ok; [apply computes_pure|]. rewrite Nat2Z.id, node_span_ok by done.
    eapply computes_bind_Ok; [apply computes_pure|]. rewrite try_u32_ok by (unfold u32_max; lia).
    eapply computes_bind_Ok; [apply computes_pure|].
    replace (Some (Node.Mk 0 (Node.digest (canon_root height old)) (leaf_agg old))) with (node_at height old).
    2: { rewrite node_at_some by (by destruct Hold as [[] _]). rewrite canon_root_eq, (shaped_head _ _ _ _ Hold). done. }
    eapply computes_bind_Ok; [exact Hc1|]. cbv beta iota. rewrite app_nil_l. eapply computes_bind_Ok; [exact Hc2|]. cbv beta iota.
    replace ((match node_at height a with Some n => [n] | None => [] end) ++ map (canon_root height) (chunk_by (slot height) o))
      with (map (canon_root height) (chunk_by (slot height) new)).
    2: { rewrite Echunks, map_app. f_equal. unfold node_at. by destruct a. }
    destruct (grow_ok final new Hnew 4 height (added1 ++ added2) Hheight ltac:(lia)) as (Hgr & _). rewrite Hgr.
    eapply computes_bind_Ok; [apply computes_pure|]. cbv beta iota. cbn [last ok_or].
    eapply computes_bind_Ok; [apply computes_pure|]. fold top. rewrite <- app_assoc. apply computes_pure.
  - apply Forall_app. split; [|apply Forall_app; split].
    + eapply Forall_impl; [exact Hn1|]. simpl. intros x [? ?]. split; [done|]. rewrite <- Htn. apply Hgn. left. apply Hln. by left.
    + eapply Forall_impl; [exact Hn2|]. simpl. intros x [? ?]. split; [done|]. rewrite <- Htn. apply Hgn. left. apply Hln. by right.
    + apply Forall_forall. intros x Hx. rewrite Forall_forall in Hgd. split; [by apply Hgd|]. rewrite <- Htn. apply Hgn. right.
      apply list_elem_of_fmap. by exists x.
  - rewrite <- Htn. apply Forall_forall. intros b [[Hb|Hb]%Hln|Hb]%Hgn; rewrite !map_app, !elem_of_app.
    + rewrite Forall_forall in Ha1. destruct (Ha1 _ Hb) as [Hb'|Hb']; [left|right; by left].
      by rewrite nodes_at_some in Hb' by (by destruct Hold as [[] _]).
    + rewrite Forall_forall in Ha2. right. right. left. by apply Ha2.
    + right. right. by right.
Qed.

End RunProofs.

(** The last check of an update: the tree is complete and has the checksum expected. *)
Lemma finish_tree_exact `{Blake3} final new top objs expected :
  entries_ok final new -> chunk_by (slot top) new = [new] -> 1 < lock_pgno (Ver.page_size final) ->
  finish_tree objs (canon_root top new) (Z.of_nat top) final expected =
  (if (len new =? expected_pages (Ver.page_size final) (Ver.database_pages final))
      && (xor_sum (map DirEntry.checksum new) =? expected)
   then Ok (DirTree.Mk objs (canon_root top new) (Z.of_nat top)) else Err LtxErr.ChecksumMismatch)
  /\ (complete final new -> shaped final top 0 new).
Proof.
  intros Hnew Hone Hlock. pose proof Hnew as [Hne Hs Hf].
  assert (complete final new -> shaped final top 0 new) as Hsh.
  { intros Hc. destruct (chunk_by_keys (slot top) new (sorted_slots top new Hs)) as (ks & _ & Hk). rewrite Hone in Hk.
    apply Forall2_cons_inv_r in Hk as (k & ks' & [_ Hk] & _ & _). constructor; [done|].
    assert (1 ∈ map DirEntry.page new) as (e & Hp & He)%list_elem_of_fmap.
    { rewrite Hc. apply elem_of_page_range. split; [|lia]. destruct new as [|e l]; [done|].
      apply Forall_cons in Hf as [[_ ? _ _ _ _ _ _] _]. lia. }
    assert (slot top e = 0) as E0.
    { unfold slot. rewrite <- Hp. apply Z.div_small. split; [lia|]. apply Z.pow_pos_nonneg; unfold FANOUT; lia. }
    rewrite Forall_forall in Hk. rewrite (Hk _ He) in E0. subst k. by apply Forall_forall. }
  split; [|done]. unfold finish_tree. rewrite canon_root_eq. cbn [Node.aggregate Node.index].
  change (Agg.live_pages (leaf_agg new)) with (len new). change (Agg.checksum (leaf_agg new)) with (xor_sum (map DirEntry.checksum new)).
  assert (0 < Agg.first (leaf_agg new) /\ Agg.last (leaf_agg new) <= Ver.database_pages final) as [Hfirst Hlast].
  { unfold leaf_agg. cbn [Agg.first Agg.last]. rewrite Forall_forall in Hf. split.
    - destruct new as [|e l]; [done|]. cbn. destruct (Hf e) as [_ ? _ _ _ _ _ _]; [set_solver|lia].
    - destruct (last new) as [e|] eqn:El; [|by apply last_None in El]. cbn. apply last_Some in El as [l ->].
      destruct (Hf e) as [_ ? _ _ _ _ _ _]; [set_solver|lia]. }
  rewrite (proj2 (Z.eqb_neq (Agg.first _) 0)), (proj2 (Z.ltb_ge _ (Agg.last _))) by lia. rewrite !orb_false_r.
  destruct (Z.eqb_spec (len new) (expected_pages (Ver.page_size final) (Ver.database_pages final))) as [E|E]; cbn [negb andb].
  - apply (complete_count final new Hnew Hlock) in E. rewrite (shaped_head _ _ _ _ (Hsh E)). cbn [Z.eqb negb orb].
    by destruct (_ =? expected).
  - by rewrite orb_true_r.
Qed.
Section PrivateProofs.
Context {W : Type} `{HR : NodeReader W, HB : Blake3} (objects known : list byte -> Prop) `{!ReaderLaws W objects}.
Context (known_digests : forall b b', known b -> known b' -> blake3 b = blake3 b' -> b = b').
Context (base final : Verification) (retain : Z) (Hbase : admits base)
  (Hretain : retain <= Ver.database_pages final).

Abbreviation updated := (merged retain (Ver.database_pages final)).

(** A leaf built by an earlier step and not yet stored stands for the old tree. *)
Record private_ok (leaf : DirectoryTree) (old : list DirectoryEntry) : Prop := {
  pl_height : DirTree.height leaf = 0;
  pl_root : DirTree.root leaf = canon_root 0 old;
  pl_fits : fits_leaf (Ver.database_pages final) = true;
  pl_known : known (canon_bytes 0 old);
  pl_bytes : match List.find (fun o => bool_decide (DirObject.digest o = Node.digest (canon_root 0 old))) (DirTree.objects leaf) with
             | Some o => DirObject.bytes o = canon_bytes 0 old
             | None => objects (canon_bytes 0 old)
             end
}.

Lemma fits_slot es : Forall page_ok es -> Forall (fun e => DirEntry.page e <= Ver.database_pages final) es ->
  fits_leaf (Ver.database_pages final) = true -> Forall (fun e => slot 0 e = 0) es.
Proof.
  intros Hp Hle Hfit. unfold fits_leaf in Hfit. guards_in Hfit. apply Forall_forall. intros e He. rewrite Forall_forall in Hp, Hle.
  destruct (Hp _ He). specialize (Hle _ He). unfold slot, FANOUT in *. change (256 ^ (Z.of_nat 0 + 1)) with 256. apply Z.div_small. lia.
Qed.

Lemma fits_single new : entries_ok final new -> fits_leaf (Ver.database_pages final) = true -> chunk_by (slot 0) new = [new].
Proof.
  intros Hnew Hfit. apply (chunk_by_single (slot 0) 0); [by destruct Hnew|]. apply fits_slot; [by apply (entries_pages final)| |done].
  destruct Hnew as [_ _ Hf]. eapply Forall_impl; [exact Hf|]. intros e [_ ? _ _ _ _ _ _]. lia.
Qed.

Lemma update_private_computes old changes expected leaf :
  let es := map snd changes in
  let new := updated old es in
  shaped base 0 0 old -> private_ok leaf old ->
  Ver.page_size base = Ver.page_size final -> retain <= Ver.database_pages base ->
  om_sorted changes -> Forall (changeable (Ver.page_size final) (Ver.database_pages final)) changes -> Forall page_ok es ->
  entries_ok final new -> known (canon_bytes 0 new) ->
  exists added,
    computes objects (update_run base (old_root 0 old) changes retain final expected (Some leaf))
      (finish_tree added (canon_root 0 new) 0 final expected)
    /\ Forall (fun o => DirObject.bytes o = canon_bytes 0 new) added
    /\ (objects (canon_bytes 0 new) \/ canon_bytes 0 new ∈ map DirObject.bytes added)
    /\ chunk_by (slot 0) new = [new].
Proof.
  intros es new Hold Hpl Hps Hrb Hcs Hch Hpe Hnew Hk. assert (ascending old) as Hao by by destruct Hold as [[] _].
  assert (old <> []) as Hone by by destruct Hold as [[] _].
  destruct (changes_ready _ _ _ Hcs Hch Hpe) as (Hes & Hle & leaves & Hg & Hlv). fold es in Hes, Hle, Hlv.
  destruct Hpl as [Hph Hpr Hpf Hpk Hpb]. set (prepared := List.find _ _) in Hpb.
  destruct (mutate_leaf_computes objects known known_digests base final retain Hbase Hretain 0 old leaves es [] (DirObject.bytes <$> prepared))
    as (added & Hc & [Hn Ha]).
  { intros _. split_and!; [done|done|]. destruct prepared as [o|]; [right; cbn; by rewrite Hpb|by left]. }
  { done. } { done. } { by apply fits_slot. } { by destruct Hnew. }
  { rewrite nodes_at_some, canon_nodes_leaf by (by destruct Hnew). by repeat constructor. }
  fold es new in Hc, Hn, Ha. rewrite !nodes_at_some, !canon_nodes_leaf in Ha by (done || by destruct Hnew).
  rewrite nodes_at_some, canon_nodes_leaf in Hn by (by destruct Hnew).
  exists (match added, prepared with [], Some p => [p] | _, _ => added end). split_and!.
  - unfold update_run, old_root. cbn [DirRoot.height DirRoot.digest DirRoot.aggregate].
    assert (0 < Ver.database_pages final) as Hfin by (unfold fits_leaf in Hpf; guards_in Hpf; lia).
    rewrite (proj2 (Z.eqb_eq _ _) Hps), (proj2 (Z.ltb_ge (Ver.database_pages base) _)), (proj2 (Z.eqb_neq _ 0)) by lia.
    cbn [Z.ltb Z.of_nat Z.compare negb orb]. rewrite Hg. eapply computes_bind_Ok; [apply computes_pure|].
    unfold update_private. cbn [DirRoot.height DirRoot.digest DirRoot.aggregate].
    rewrite Hph, Hpr, Hpf, bool_decide_eq_true_2 by done. rewrite bool_decide_eq_true_2 by (by rewrite canon_root_eq).
    cbn [Z.eqb Z.of_nat negb orb]. fold prepared.
    replace (Some (Node.Mk 0 (Node.digest (canon_root 0 old)) (leaf_agg old))) with (node_at 0 old).
    2: { rewrite node_at_some by done. rewrite canon_root_eq, (shaped_head _ _ _ _ Hold). done. }
    eapply computes_bind_Ok; [exact Hc|]. cbv beta iota. rewrite node_at_some by (by destruct Hnew). cbn [ok_or].
    eapply computes_bind_Ok; [apply computes_pure|]. apply computes_pure.
  - assert (Forall (fun o => DirObject.bytes o = canon_bytes 0 new) added) as Hall.
    { eapply Forall_impl; [exact Hn|]. simpl. intros o [_ Hb]. set_solver. }
    destruct added; [|done]. destruct prepared as [o|]; [|constructor]. constructor; [|constructor].
    apply Forall_cons in Ha as [[Hb|Hb] _]; [|by apply elem_of_nil in Hb]. rewrite Hpb. symmetry. by apply list_elem_of_singleton.
  - apply Forall_cons in Ha as [[Hb|Hb] _].
    + apply list_elem_of_singleton in Hb. destruct added as [|a added].
      * destruct prepared as [o|]; [right|left; by rewrite Hb]. apply list_elem_of_fmap. exists o. split; [congruence|set_solver].
      * right. apply Forall_cons in Hn as [[_ Hn] _]. apply list_elem_of_singleton in Hn. apply list_elem_of_fmap.
        exists a. split; [congruence|]. destruct prepared; set_solver.
    + right. destruct added; [by apply elem_of_nil in Hb|exact Hb].
  - by apply fits_single.
Qed.
End PrivateProofs.

(** ** An update gives the canonical tree *)

Section UpdateExact.
Context {E : Type} `{HN : NodeStore E, HB : Blake3} (objects known : list byte -> Prop)
  `{HL : !StoreLaws E objects known} (objects_small : forall b, objects b -> len b <= MAX_NODE_BYTES).

(** The nodes after an update: those at hand before and those it adds. *)
Definition with_added (v : Verification) (added : list DirectoryObject) (b : list byte) : Prop :=
  nodes_with objects v b \/ b ∈ map DirObject.bytes added.

(** What an update computes, from a stored tree or from a leaf not yet stored. *)
Lemma update_computes base final (height : nat) old changes retain expected private_leaf :
  let new := merged retain (Ver.database_pages final) old (map snd changes) in
  let top := top_height 4 height new in
  verification_ok known base -> (height <= 3)%nat -> shaped base height 0 old ->
  match private_leaf with
  | None => Forall (nodes_with objects base) (canon_nodes height old)
  | Some leaf => height = 0%nat /\ private_ok (nodes_with objects base) known final leaf old
  end ->
  Ver.page_size base = Ver.page_size final ->
  retain <= Ver.database_pages base -> retain <= Ver.database_pages final ->
  om_sorted changes -> Forall (changeable (Ver.page_size final) (Ver.database_pages final)) changes ->
  Forall page_ok (map snd changes) -> entries_ok final new -> Forall known (canon_nodes top new) ->
  exists added, computes (nodes_with objects base) (HR := cached_reader) (ReaderLaws0 := cached_laws objects known objects_small base)
      (update_run (H := cached_reader) base (old_root height old) changes retain final expected private_leaf)
      (finish_tree added (canon_root top new) (Z.of_nat top) final expected)
    /\ Forall (fun o => DirObject.bytes o ∈ canon_nodes top new) added /\ Forall (with_added base added) (canon_nodes top new)
    /\ chunk_by (slot top) new = [new].
Proof.
  intros new top Hbase Hheight Hold Hsrc Hps Hrb Hrf Hcs Hch Hpe Hnew Hk. pose (L := cached_laws objects known objects_small base).
  destruct private_leaf as [leaf|].
  - destruct Hsrc as [-> Hpl].
    assert (top = 0%nat) as Htop by (unfold top; cbn [top_height]; by rewrite (fits_single final new Hnew (pl_fits _ _ _ _ _ Hpl))).
    rewrite Htop, canon_nodes_leaf in Hk |- *. apply Forall_cons in Hk as [Hk _].
    destruct (update_private_computes (HR := cached_reader) (ReaderLaws0 := L) (nodes_with objects base) known known_digests base final retain (conj eq_refl Hbase) Hrf
                old changes expected leaf Hold Hpl Hps Hrb Hcs Hch Hpe Hnew Hk) as (added & Hc & Hadd & Hall & Hone).
    exists added. split_and!; [exact Hc| | |exact Hone].
    + eapply Forall_impl; [exact Hadd|]. simpl. intros o ->. set_solver.
    + constructor; [exact Hall|constructor].
  - destruct (update_run_computes (HR := cached_reader) (ReaderLaws0 := L) (nodes_with objects base) known known_digests (fun b => nodes_known objects known base b Hbase) base final retain (conj eq_refl Hbase) Hrf
                height Hheight old changes expected Hold Hsrc Hps Hrb Hcs Hch Hpe Hnew Hk) as (added & Hc & [Hun Hua] & Hone & _).
    exists added. split_and!; [exact Hc| | |exact Hone].
    + eapply Forall_impl; [exact Hun|]. by intros o [_ ?].
    + eapply Forall_impl; [exact Hua|]. intros b [Hb|Hb]; [left|by right]. rewrite Forall_forall in Hsrc. by apply Hsrc.
Qed.

(** An incremental update computes the canonical directory of the new entries.
    Over an old tree of the canonical shape, with the changes of the new segments and
    the last page that survived their truncations, the new entries are the retained
    ones overridden by the changes; the update returns the root of the canonical tree
    over exactly these entries, at the least height that is not below the old one, when
    they are complete and have the checksum expected, and rejects them otherwise.
    Everything it adds is a node of the new tree, and whatever it does not add is
    already in the store, so the new tree can be read: an unchanged subtree is kept by
    digest, a truncated one is dropped unread. A leaf not yet stored may stand for the
    old tree; it is then among what is added. *)
Theorem directory_update_exact base final (height : nat) old changes retain expected private_leaf w :
  let new := merged retain (Ver.database_pages final) old (map snd changes) in
  let top := top_height 4 height new in
  verification_ok known base -> (height <= 3)%nat -> shaped base height 0 old ->
  match private_leaf with
  | None => Forall (nodes_with objects base) (canon_nodes height old)
  | Some leaf => height = 0%nat /\ private_ok (nodes_with objects base) known final leaf old
  end ->
  Ver.page_size base = Ver.page_size final -> is_valid_page_size (Ver.page_size final) = true ->
  retain <= Ver.database_pages base -> retain <= Ver.database_pages final ->
  om_sorted changes -> Forall (changeable (Ver.page_size final) (Ver.database_pages final)) changes ->
  Forall page_ok (map snd changes) -> entries_ok final new -> Forall known (canon_nodes top new) -> state_ok known w ->
  exists added,
    reads_as objects known w
      (update_run (H := cached_reader) base (old_root height old) changes retain final expected private_leaf)
      (if (len new =? expected_pages (Ver.page_size final) (Ver.database_pages final))
          && (xor_sum (map DirEntry.checksum new) =? expected)
       then Ok (DirTree.Mk added (canon_root top new) (Z.of_nat top)) else Err LtxErr.ChecksumMismatch)
    /\ Forall (fun o => DirObject.bytes o ∈ canon_nodes top new) added
    /\ Forall (with_added base added) (canon_nodes top new)
    /\ (complete final new -> tree (with_added base added) final top (Node.digest (canon_root top new)) new).
Proof.
  intros new top Hbase Hheight Hold Hsrc Hps Hvalid Hrb Hrf Hcs Hch Hpe Hnew Hk Hw.
  destruct (page_size_bounds _ Hvalid) as [_ Hlock].
  destruct (update_computes base final height old changes retain expected private_leaf Hbase Hheight Hold Hsrc Hps Hrb Hrf Hcs Hch Hpe Hnew Hk)
    as (added & Hc & Hadd & Hall & Hone). fold new top in Hc, Hadd, Hall, Hone.
  destruct (finish_tree_exact final new top added expected Hnew Hone ltac:(lia)) as [Hfin Hsh]. exists added. split_and!; [|done|done|].
  - rewrite <- Hfin. by apply (cached_reads objects known objects_small base).
  - intros Hcomp. by eapply canon_tree, Hall; apply Hsh.
Qed.
End UpdateExact.

(** Two pages become three: the second is rewritten in a new object. *)
Module UpdateDemo.
#[export] Instance digest : Blake3 := fun bytes => array_fill 32 (byte_of (sum_by (fun b => Z.of_N (to_N b)) bytes mod 251)).
Definition object (i : byte) : Digest := array_fill 32 i.
Definition entry (page : Z) (i : byte) (offset : Z) : DirectoryEntry :=
  DirEntry.Mk page (object i) offset 10 (array_fill 32 x09) CHECKSUM_FLAG.
Definition old : list DirectoryEntry := [entry 1 x07 100; entry 2 x07 110].
Definition changes : OrdMap DirectoryEntry := [(2, entry 2 x08 100); (3, entry 3 x08 110)].
Definition base : Verification := Ver.Mk 4096 2 None {[ object x07 := MkExtent KLtx [(100, 120)] ]}.
Definition final : Verification :=
  Ver.Mk 4096 3 None (<[ object x08 := MkExtent KLtx [(100, 120)] ]> {[ object x07 := MkExtent KLtx [(100, 120)] ]}).
Definition new : list DirectoryEntry := [entry 1 x07 100; entry 2 x08 100; entry 3 x08 110].
Definition stored_node (b : list byte) : Prop := b = canon_bytes 0 old.
Definition node (b : list byte) : Prop := b = canon_bytes 0 old \/ b = canon_bytes 0 new.

#[export] Instance store : NodeStore unit := {|
  cache_identity := 1;
  incarnation_object_path := fun _ _ => "p";
  directory_cache_get := fun _ _ => mret None;
  directory_cache_put := fun _ _ _ => mret tt;
  directory_cache_invalidate := fun _ => mret tt;
  io_permit := mret tt;
  get_with_etag_bounded := fun _ _ => mret (canon_bytes 0 old)
|}.
Definition state : ReaderState unit := MkReader (MkBands (Some cache_default) (Some cache_default)) tt.

Lemma update_digests_differ : blake3 (canon_bytes 0 old) <> blake3 (canon_bytes 0 new).
Proof. vm_compute. discriminate. Qed.
Lemma update_nodes_unique b b' : node b -> node b' -> blake3 b = blake3 b' -> b = b'.
Proof. pose proof update_digests_differ. intros [->| ->] [->| ->] E; congruence. Qed.

#[export] Instance laws : StoreLaws unit stored_node node.
Proof.
  refine {| store_faulty := fun _ => False; objects_known := fun b H => or_introl H; known_digests := update_nodes_unique |}; try done.
  - intros e. split; [done|by left].
  - intros d n e. cbn. split_and!; [done|by left|]. right. by intros b -> _ _.
Defined.

Lemma stored_small b : stored_node b -> len b <= MAX_NODE_BYTES.
Proof. intros ->. vm_compute. discriminate. Qed.

Lemma merged_new : merged 2 3 old (map snd changes) = new.
Proof. by vm_compute. Qed.

Lemma entry_valid v page i offset : Ver.page_size v = 4096 -> 0 < page <= Ver.database_pages v -> page <= 3 ->
  offset = 100 \/ offset = 110 -> covered (Ver.extents v) (entry page i offset) = true ->
  leaf_entry (Ver.page_size v) (Ver.database_pages v) (Ver.extents v) 0 (entry page i offset).
Proof.
  intros Hps Hp H3 Ho Hc. rewrite Hps. assert (page = 1 \/ page = 2 \/ page = 3) as Hpp by lia.
  destruct Hpp as [->|[->| ->]], Ho as [->| ->]; constructor; try constructor; try done; try (vm_compute; done); cbn; lia.
Qed.

Lemma old_shaped : shaped base 0 0 old.
Proof.
  constructor; [constructor|]; [done|repeat constructor; by vm_compute| |repeat constructor; by vm_compute].
  repeat (constructor; [apply entry_valid; (cbn; lia) || (by vm_compute) || tauto|]). constructor.
Qed.
Lemma new_entries : entries_ok final new.
Proof.
  constructor; [done|repeat constructor; by vm_compute|].
  repeat (constructor; [apply entry_valid; (cbn; lia) || (by vm_compute) || tauto|]). constructor.
Qed.
End UpdateDemo.

#[local] Existing Instances UpdateDemo.digest UpdateDemo.store UpdateDemo.laws.

Lemma directory_update_exact_witness :
  exists added,
    reads_as UpdateDemo.stored_node UpdateDemo.node UpdateDemo.state
      (update_run (H := cached_reader) UpdateDemo.base (old_root 0 UpdateDemo.old) UpdateDemo.changes 2 UpdateDemo.final
         CHECKSUM_FLAG None)
      (Ok (DirTree.Mk added (canon_root 0 UpdateDemo.new) 0)).
Proof.
  destruct (directory_update_exact UpdateDemo.stored_node UpdateDemo.node UpdateDemo.stored_small UpdateDemo.base UpdateDemo.final 0
    UpdateDemo.old UpdateDemo.changes 2 CHECKSUM_FLAG None UpdateDemo.state) as (added & Hr & _).
  - done.
  - lia.
  - apply UpdateDemo.old_shaped.
  - constructor; [by left|constructor].
  - done.
  - by vm_compute.
  - cbn. lia.
  - cbn. lia.
  - repeat constructor; by vm_compute.
  - repeat constructor; vm_compute; discriminate.
  - repeat constructor; vm_compute; discriminate.
  - change (Ver.database_pages UpdateDemo.final) with 3. rewrite UpdateDemo.merged_new. apply UpdateDemo.new_entries.
  - change (Ver.database_pages UpdateDemo.final) with 3. rewrite UpdateDemo.merged_new. constructor; [by right|constructor].
  - intros c [= <-] d b Hg. by vm_compute in Hg.
  - exists added. change (Ver.database_pages UpdateDemo.final) with 3 in Hr. rewrite UpdateDemo.merged_new in Hr. exact Hr.
Defined.
