(* ===== verification/Pages.v ===== *)
(** * Pages: the transactional index of page checksums

    Models [crates/cellule-ltx/src/pages.rs] and the bounded file operations of
    [crates/cellule-ltx/src/host.rs] it calls: [PageChecksums] with its memory or
    file base, the overlay of uncommitted changes, the apply session
    ([begin_apply], [page], [finish]), [commit] with its coalesced writes,
    [verify_database] and [write_dense].

    The file of a file base is the state [file], threaded through the operations.
    An error leaves a candidate that its owner discards, so an error carries no
    state.

    The abstract state is the list of the checksums of all pages, zero for the
    lock page. The theorems show that the incremental index refines it: the
    aggregate checksum is always the checksum of the whole list, whatever the
    sequence of overwrites, truncations, growth and commits. *)

From Stdlib Require Import ZArith Lia.
From Stdlib Require Import Strings.Byte.
From stdpp Require Import base gmap strings numbers sorting.
From stdpp Require Import list.
From S2P Require Import Prelude Bytes LtxTypes Ltx LtxCodec.

Local Open Scope bool_scope.

(** ** Bounded files *)

(*@ cellule-ltx/src/host.rs 171-176 check_size *)
Definition check_size (size limit : Z) : LtxResult unit :=
  if limit <? size then Err LtxErr.Io else Ok tt.

(*@ cellule-ltx/src/host.rs 39-47 HostFile::read_exact_at *)
Definition read_exact_at (file : list byte) (limit offset length : Z) : LtxResult (list byte) :=
  _ ← check_size length limit;
  _ ← check_size (len file) limit;
  ok_or (slice file offset (offset + length)) LtxErr.Eof.

(** [set_len] of a file: a shorter file is cut, a longer one filled with zeros. *)
(*@ cellule-ltx/src/host.rs 68-71 HostFile::set_len *)
Definition set_len (file : list byte) (limit length : Z) : LtxResult (list byte) :=
  _ ← check_size length limit;
  Ok (resize (Z.to_nat length) x00 file).

(** A positioned write extends the file, filling a gap with zeros. *)
(*@ cellule-ltx/src/host.rs 50-56 HostFile::write_all_at *)
Definition write_all_at (file : list byte) (limit offset : Z) (bytes : list byte) : LtxResult (list byte) :=
  ending ← ok_or (checked_add_u64 offset (len bytes)) LtxErr.Io;
  _ ← check_size ending limit;
  Ok (resize (Z.to_nat offset) x00 file ++ bytes ++ drop (Z.to_nat ending) file).

(** ** State *)

(*@ cellule-ltx/src/pages.rs 8-8 CHECKSUM_READ_BYTES *)
Definition CHECKSUM_READ_BYTES : Z := 64 * 1024.
(*@ cellule-ltx/src/pages.rs 11-11 DENSE_WRITE_BYTES *)
Definition DENSE_WRITE_BYTES : Z := 64 * 1024.
(*@ cellule-ltx/src/pages.rs 12-12 CHECKSUM_BLOCK_BYTES *)
Definition CHECKSUM_BLOCK_BYTES : Z := 4096.

(** [File] carries the size limit of its file. *)
(*@ cellule-ltx/src/pages.rs 15-19 ChecksumBase *)
Inductive ChecksumBase :=
| Memory (values : list Z)
| File (limit : Z).

(*@ cellule-ltx/src/pages.rs 48-54 PageChecksums *)
Record PageChecksums := MkPageChecksums {
  base : ChecksumBase;
  base_count : Z;
  count : Z;
  changes : gmap Z Z;
  checksum : Z
}.

(*@ cellule-ltx/src/pages.rs 66-70 ChecksumReader *)
Record ChecksumReader := MkReader { reader_limit : Z; first : Z; bytes : list byte }.

(*@ cellule-ltx/src/pages.rs 56-64 PageChecksumApply *)
Record PageChecksumApply := MkApply {
  target : PageChecksums;
  page_size : Z;
  acommit : Z;
  previous_count : Z;
  previous : Z;
  next_required : Z;
  base_file : option ChecksumReader
}.

(** [as_chunks::<8>()] read as big-endian words. *)
Fixpoint words (bs : list byte) : list Z :=
  match bs with
  | b0 :: b1 :: b2 :: b3 :: b4 :: b5 :: b6 :: b7 :: bs =>
      from_be [b0; b1; b2; b3; b4; b5; b6; b7] :: words bs
  | _ => []
  end.

(** A stored checksum is zero or flagged. *)
Definition unflagged (v : Z) : bool := negb (v =? 0) && (Z.land v CHECKSUM_FLAG =? 0).

(*@ cellule-ltx/src/pages.rs 93-101 PageChecksums::default *)
Definition pages_default : PageChecksums := MkPageChecksums (Memory []) 0 0 ∅ CHECKSUM_FLAG.

(*@ cellule-ltx/src/pages.rs 106-130 PageChecksums::from_file *)
Definition from_file (file : list byte) (limit ps n sum : Z) : LtxResult PageChecksums :=
  if negb (is_valid_page_size ps) || (n =? 0) || (Z.land sum CHECKSUM_FLAG =? 0)
  then Err LtxErr.LTXCorrupted
  else if negb (len file =? n * 8) then Err LtxErr.LTXCorrupted
  else Ok (MkPageChecksums (File limit) n n ∅ sum).

(** ** Reading a checksum *)

(*@ cellule-ltx/src/pages.rs 73-89 ChecksumReader::value *)
Definition reader_value (file : list byte) (r : ChecksumReader) (page n : Z)
  : LtxResult (Z * ChecksumReader) :=
  let per_block := CHECKSUM_BLOCK_BYTES / 8 in
  let start := (page - 1) / per_block * per_block in
  r ← (if bool_decide (bytes r = []) || negb (first r =? start) then
         if n <? start then Err LtxErr.Panic
         else
           let length := Z.min (n - start) per_block * 8 in
           bs ← read_exact_at file (reader_limit r) (start * 8) length;
           Ok (MkReader (reader_limit r) start bs)
       else Ok r);
  let offset := (page - 1 - first r) * 8 in
  word ← ok_or (slice (bytes r) offset (offset + 8)) LtxErr.Panic;
  Ok (from_be word, r).

(*@ cellule-ltx/src/pages.rs 437-464 PageChecksums::value *)
Definition value (p : PageChecksums) (file : list byte) (reader : option ChecksumReader) (page : Z)
  : LtxResult (Z * option ChecksumReader) :=
  if (page =? 0) || (count p <? page) then Err LtxErr.LTXCorrupted
  else
    match changes p !! page with
    | Some sum => Ok (sum, reader)
    | None =>
        if base_count p <? page then Ok (0, reader)
        else
          '(sum, reader) ←
            match reader, base p with
            | Some r, _ =>
                '(sum, r) ← reader_value file r page (base_count p); Ok (sum, Some r)
            | None, Memory values =>
                sum ← ok_or (values !! Z.to_nat (page - 1)) LtxErr.LTXCorrupted; Ok (sum, None)
            | None, File _ => Err (LtxErr.InvalidState "checksum file not open")
            end;
          if unflagged sum then Err LtxErr.LTXCorrupted else Ok (sum, reader)
    end.

(** ** Truncation *)

Definition set_checksum (p : PageChecksums) (sum : Z) : PageChecksums :=
  MkPageChecksums (base p) (base_count p) (count p) (changes p) sum.

(** [for page in commit + 1..=previous_count] of a memory base. *)
(*@ cellule-ltx/src/pages.rs 194-197 PageChecksums::begin_apply *)
Fixpoint remove_pages (p : PageChecksums) (file : list byte) (reader : option ChecksumReader) (pages : list Z)
  : LtxResult (PageChecksums * option ChecksumReader) :=
  match pages with
  | [] => Ok (p, reader)
  | page :: pages =>
      '(old, reader) ← value p file reader page;
      remove_pages (set_checksum p (flag_xor (checksum p) old)) file reader pages
  end.

(** [page.checked_add(1)] after one checksum was removed. *)
(*@ cellule-ltx/src/pages.rs 417-423 PageChecksums::remove_file_suffix *)
Definition remove_one (p : PageChecksums) (page stored : Z) : LtxResult (PageChecksums * Z) :=
  let old := default stored (changes p !! page) in
  if unflagged old then Err LtxErr.LTXCorrupted
  else
    let p := set_checksum p (flag_xor (checksum p) old) in
    page ← ok_or (checked_add_u32 page 1) LtxErr.LTXCorrupted;
    Ok (p, page).

(*@ cellule-ltx/src/pages.rs 416-424 PageChecksums::remove_file_suffix *)
Fixpoint remove_all (p : PageChecksums) (page : Z) (stored : list Z) : LtxResult (PageChecksums * Z) :=
  match stored with
  | [] => Ok (p, page)
  | s :: stored => '(p, page) ← remove_one p page s; remove_all p page stored
  end.

(** [while page <= file_end], one read of at most 8192 checksums a turn. *)
(*@ cellule-ltx/src/pages.rs 409-425 PageChecksums::remove_file_suffix *)
Fixpoint remove_chunks (fuel : nat) (p : PageChecksums) (file : list byte) (limit page file_end : Z)
  : LtxResult (PageChecksums * Z) :=
  match fuel with
  | O => Ok (p, page)
  | S fuel =>
      if page <=? file_end then
        let n := Z.min (file_end - page + 1) (CHECKSUM_READ_BYTES / 8) in
        bs ← read_exact_at file limit ((page - 1) * 8) (n * 8);
        '(p, page) ← remove_all p page (words bs);
        remove_chunks fuel p file limit page file_end
      else Ok (p, page)
  end.

(** The second loop reads no file: the pages past the base are in the overlay. *)
(*@ cellule-ltx/src/pages.rs 400-435 PageChecksums::remove_file_suffix *)
Definition remove_file_suffix (p : PageChecksums) (file : list byte) (limit commit previous_count : Z)
  : LtxResult PageChecksums :=
  page ← ok_or (checked_add_u32 commit 1) LtxErr.LTXCorrupted;
  let file_end := Z.min previous_count (base_count p) in
  '(p, page) ← remove_chunks (Z.to_nat (file_end - commit)) p file limit page file_end;
  '(p, _) ← remove_all p page (repeat 0 (Z.to_nat (previous_count - page + 1)));
  Ok p.

(** ** The apply session *)

(*@ cellule-ltx/src/pages.rs 204-204 PageChecksums::begin_apply *)
Definition retain_changes (p : PageChecksums) (commit : Z) : PageChecksums :=
  MkPageChecksums (base p) (base_count p) (count p)
    (filter (fun e => e.1 <= commit) (changes p)) (checksum p).

(*@ cellule-ltx/src/pages.rs 158-216 PageChecksums::begin_apply *)
Definition begin_apply (p : PageChecksums) (file : list byte) (ps commit limit : Z)
  : LtxResult PageChecksumApply :=
  if negb (is_valid_page_size ps) || (commit =? 0) then Err LtxErr.LTXCorrupted
  else if limit <? ps * commit then Err (LtxErr.Limit Limit.DatabaseBytes)
  else
    let previous_count := count p in
    let reader := match base p with File limit => Some (MkReader limit 0 []) | Memory _ => None end in
    '(p, reader) ←
      (if commit <? previous_count then
         '(p, reader) ←
           match base p with
           | File limit =>
               p ← remove_file_suffix p file limit commit previous_count; Ok (p, reader)
           | Memory _ =>
               remove_pages p file reader (seqZ (commit + 1) (previous_count - commit))
           end;
         Ok (retain_changes p commit, reader)
       else Ok (p, reader));
    Ok (MkApply p ps commit previous_count 0 (saturating_add_u32 previous_count 1) reader).

(** [while next_required == lock]: the increment leaves the lock page. *)
(*@ cellule-ltx/src/pages.rs 477-482 PageChecksumApply::page *)
Definition skip_lock (next lock : Z) : LtxResult Z :=
  if next =? lock then ok_or (checked_add_u32 next 1) LtxErr.LTXCorrupted else Ok next.

Section Checksums.
Context `{Crc64}.

(*@ cellule-ltx/src/pages.rs 468-502 PageChecksumApply::page *)
Definition apply_page (a : PageChecksumApply) (file : list byte) (pgno : Z) (data : list byte)
  : LtxResult PageChecksumApply :=
  let lock := lock_pgno (page_size a) in
  if (pgno <=? previous a) || (acommit a <? pgno) || (pgno =? lock) || negb (len data =? page_size a)
  then Err LtxErr.LTXCorrupted
  else
    next ← skip_lock (next_required a) lock;
    next ←
      (if previous_count a <? pgno then
         if negb (pgno =? next) then Err LtxErr.LTXCorrupted
         else ok_or (checked_add_u32 next 1) LtxErr.LTXCorrupted
       else Ok next);
    '(old, reader) ←
      (if pgno <=? previous_count a then value (target a) file (base_file a) pgno
       else Ok (0, base_file a));
    let sum := checksum_page pgno data in
    let t := target a in
    Ok (MkApply
          (MkPageChecksums (base t) (base_count t) (count t) (<[pgno := sum]> (changes t))
             (Z.lor CHECKSUM_FLAG (Z.lxor (Z.lxor (checksum t) old) sum)))
          (page_size a) (acommit a) (previous_count a) pgno next reader).

(*@ cellule-ltx/src/pages.rs 504-517 PageChecksumApply::finish *)
Definition apply_finish (a : PageChecksumApply) : LtxResult PageChecksums :=
  next ← skip_lock (next_required a) (lock_pgno (page_size a));
  if (previous_count a <? acommit a) && (next <=? acommit a) then Err LtxErr.LTXCorrupted
  else
    let t := target a in
    Ok (MkPageChecksums (base t) (base_count t) (acommit a) (changes t) (checksum t)).

Fixpoint apply_pages (a : PageChecksumApply) (file : list byte) (pages : list (Z * list byte))
  : LtxResult PageChecksumApply :=
  match pages with
  | [] => Ok a
  | (pgno, data) :: pages => a ← apply_page a file pgno data; apply_pages a file pages
  end.

(*@ cellule-ltx/src/pages.rs 143-156 PageChecksums::apply_iter *)
Definition apply_iter (p : PageChecksums) (file : list byte) (ps commit : Z)
  (pages : list (Z * list byte)) (limit : Z) : LtxResult PageChecksums :=
  a ← begin_apply p file ps commit limit;
  a ← apply_pages a file pages;
  apply_finish a.

(** ** Commit *)

(*@ cellule-ltx/src/pages.rs 231-235 PageChecksums::commit *)
Definition memory_write (n : Z) (dense : list Z) (change : Z * Z) : list Z :=
  if change.1 <=? n then <[Z.to_nat (change.1 - 1) := change.2]> dense else dense.

Definition page_order (a b : Z * Z) : comparison := a.1 ?= b.1.

(** The coalescing loop: a run of adjacent checksums is one positioned write. *)
(*@ cellule-ltx/src/pages.rs 256-272 PageChecksums::commit *)
Fixpoint write_changes (file : list byte) (limit : Z) (output : list byte) (start : Z) (sorted : list (Z * Z))
  : LtxResult (list byte) :=
  match sorted with
  | [] => if bool_decide (output = []) then Ok file else write_all_at file limit start output
  | (page, sum) :: sorted =>
      let offset := (page - 1) * 8 in
      '(file, output) ←
        (if bool_decide (output <> []) &&
            (negb (offset =? start + len output) || (len output =? DENSE_WRITE_BYTES))
         then file ← write_all_at file limit start output; Ok (file, [])
         else Ok (file, output));
      let start := if bool_decide (output = []) then offset else start in
      write_changes file limit (output ++ to_be 8 sum) start sorted
  end.

(*@ cellule-ltx/src/pages.rs 219-281 PageChecksums::commit *)
Definition commit (candidate : PageChecksums) (file : list byte) : LtxResult (PageChecksums * list byte) :=
  let n := count candidate in
  let committed b := MkPageChecksums b n n ∅ (checksum candidate) in
  match base candidate with
  | Memory values =>
      let dense := resize (Z.to_nat n) 0 (take (Z.to_nat (base_count candidate)) values) in
      Ok (committed (Memory (foldl (memory_write n) dense (map_to_list (changes candidate)))), file)
  | File limit =>
      let length := n * 8 in
      file ← (if base_count candidate * 8 <? length then set_len file limit length else Ok file);
      let kept := List.filter (fun c => c.1 <=? n) (map_to_list (changes candidate)) in
      file ← write_changes file limit [] 0 (sort_by page_order kept);
      file ← set_len file limit length;
      Ok (committed (File limit), file)
  end.

(** [PageChecksums::checksum]. *)
(*@ cellule-ltx/src/pages.rs 283-285 PageChecksums::checksum *)
Definition pages_checksum (p : PageChecksums) : Z := checksum p.

(** ** Scans *)

(** One read of stored checksums and pages, zipped. *)
(*@ cellule-ltx/src/pages.rs 320-340 PageChecksums::verify_database *)
Fixpoint verify_pages (ps page : Z) (stored : list Z) (image : list byte) (fold : Z) : LtxResult Z :=
  match stored with
  | [] => Ok fold
  | expected :: stored =>
      let data := take (Z.to_nat ps) image in
      fold ←
        (if page =? lock_pgno ps then
           if negb (expected =? 0) then Err LtxErr.ChecksumMismatch else Ok fold
         else if negb (expected =? checksum_page page data) then Err LtxErr.ChecksumMismatch
         else Ok (flag_xor fold expected));
      verify_pages ps (page + 1) stored (drop (Z.to_nat ps) image) fold
  end.

(*@ cellule-ltx/src/pages.rs 312-342 PageChecksums::verify_database *)
Fixpoint verify_reads (fuel : nat) (file : list byte) (limit : Z) (database : list byte) (database_limit : Z)
  (ps n start fold : Z) : LtxResult Z :=
  match fuel with
  | O => Ok fold
  | S fuel =>
      if start <=? n then
        let pages := Z.min (n - start + 1) (Z.max (CHECKSUM_READ_BYTES / ps) 1) in
        checksums ← read_exact_at file limit ((start - 1) * 8) (pages * 8);
        image ← read_exact_at database database_limit ((start - 1) * ps) (pages * ps);
        fold ← verify_pages ps start (words checksums) image fold;
        verify_reads fuel file limit database database_limit ps n (start + pages) fold
      else Ok fold
  end.

(*@ cellule-ltx/src/pages.rs 295-346 PageChecksums::verify_database *)
Definition verify_database (p : PageChecksums) (file database : list byte) (database_limit ps : Z)
  : LtxResult unit :=
  match base p with
  | Memory _ => Err (LtxErr.InvalidState "resume requires a file-backed checksum index")
  | File limit =>
      fold ← verify_reads (Z.to_nat (count p)) file limit database database_limit ps (count p) 1 CHECKSUM_FLAG;
      if negb (fold =? checksum p) then Err LtxErr.ChecksumMismatch else Ok tt
  end.

(** The checksum of one page of the dense copy and the unread rest of the base. *)
(*@ cellule-ltx/src/pages.rs 364-382 PageChecksums::write_dense *)
Definition dense_entry (p : PageChecksums) (file rest : list byte) (page : Z) : LtxResult (Z * list byte) :=
  match base p with
  | File limit =>
      if page <=? base_count p then
        _ ← check_size (len file) limit;
        '(word, rest) ← ok_or (read_exact 8 rest) LtxErr.Eof;
        let sum := default (from_be word) (changes p !! page) in
        if unflagged sum then Err LtxErr.LTXCorrupted else Ok (sum, rest)
      else '(sum, _) ← value p file None page; Ok (sum, rest)
  | Memory _ => '(sum, _) ← value p file None page; Ok (sum, rest)
  end.

(*@ cellule-ltx/src/pages.rs 363-392 PageChecksums::write_dense *)
Fixpoint dense_pages (p : PageChecksums) (file rest sink output : list byte) (fold : Z) (pages : list Z)
  : LtxResult (list byte * Z) :=
  match pages with
  | [] => Ok (if bool_decide (output <> []) then sink ++ output else sink, fold)
  | page :: pages =>
      '(sum, rest) ← dense_entry p file rest page;
      let fold := flag_xor fold sum in
      let output := output ++ to_be 8 sum in
      if DENSE_WRITE_BYTES <=? len output
      then dense_pages p file rest (sink ++ output) [] fold pages
      else dense_pages p file rest sink output fold pages
  end.

(** The bytes written to [sink]. *)
(*@ cellule-ltx/src/pages.rs 354-397 PageChecksums::write_dense *)
Definition write_dense (p : PageChecksums) (file : list byte) : LtxResult (list byte) :=
  '(sink, fold) ← dense_pages p file file [] [] CHECKSUM_FLAG (seqZ 1 (count p));
  if negb (fold =? checksum p) then Err LtxErr.ChecksumMismatch else Ok sink.
End Checksums.

(** * Proofs *)

(** ** The aggregate checksum *)

Definition xor_all (l : list Z) : Z := foldr Z.lxor 0 l.

(** The checksum of a database whose pages have these checksums. *)
Definition sums_checksum (l : list Z) : Z := foldl flag_xor CHECKSUM_FLAG l.

Lemma foldl_flag_xor c l : foldl flag_xor (Z.lor CHECKSUM_FLAG c) l = Z.lor CHECKSUM_FLAG (Z.lxor c (xor_all l)).
Proof.
  revert c. induction l as [|x l IH]; intros c; cbn [foldl xor_all foldr].
  - by rewrite Z.lxor_0_r.
  - rewrite flag_lor. unfold flag_xor. rewrite IH. by rewrite Z.lxor_assoc.
Qed.

Lemma sums_checksum_xor l : sums_checksum l = Z.lor CHECKSUM_FLAG (xor_all l).
Proof.
  unfold sums_checksum. replace CHECKSUM_FLAG with (Z.lor CHECKSUM_FLAG 0) at 1 by done.
  rewrite foldl_flag_xor. by rewrite Z.lxor_0_l.
Qed.

Lemma xor_all_app l l' : xor_all (l ++ l') = Z.lxor (xor_all l) (xor_all l').
Proof.
  induction l as [|x l IH]; cbn [app xor_all foldr].
  - by rewrite Z.lxor_0_l.
  - fold (xor_all (l ++ l')). by rewrite IH, Z.lxor_assoc.
Qed.

Lemma xor_all_zeros n : xor_all (repeat 0 n) = 0.
Proof. induction n as [|n IH]; [done|]. cbn. unfold xor_all in IH. by rewrite IH. Qed.

Lemma xor_all_u64 l : Forall u64_ok l -> u64_ok (xor_all l).
Proof. induction 1 as [|x l Hx Hl IH]; [unfold u64_ok, u64_max; cbn; lia|]. cbn. by apply lxor_u64. Qed.

Lemma xor_all_insert l i old new :
  l !! i = Some old -> xor_all (<[i := new]> l) = Z.lxor (Z.lxor (xor_all l) old) new.
Proof.
  intros Hi. rewrite <- (take_drop_middle l i old Hi) at 2. rewrite insert_take_drop by (by eapply lookup_lt_Some).
  rewrite !xor_all_app. cbn [xor_all foldr]. fold (xor_all (drop (S i) l)).
  apply Z.bits_inj'. intros k _. rewrite !Z.lxor_spec.
  by destruct (Z.testbit _ _), (Z.testbit old k), (Z.testbit new k), (Z.testbit (xor_all (drop _ _)) k).
Qed.

(** Replacing one checksum. *)
Lemma sums_checksum_insert l i old new :
  l !! i = Some old ->
  sums_checksum (<[i := new]> l) = Z.lor CHECKSUM_FLAG (Z.lxor (Z.lxor (sums_checksum l) old) new).
Proof. intros Hi. rewrite !sums_checksum_xor, (xor_all_insert _ _ _ _ Hi). flag_bits. Qed.

(** Removing a suffix. *)
Lemma sums_checksum_take n l :
  sums_checksum (take n l) = foldl flag_xor (sums_checksum l) (drop n l).
Proof.
  rewrite (sums_checksum_xor l), foldl_flag_xor, sums_checksum_xor.
  rewrite <- (take_drop n l) at 2. rewrite xor_all_app. flag_bits.
Qed.

Lemma sums_checksum_resize n l : (length l <= n)%nat -> sums_checksum (resize n 0 l) = sums_checksum l.
Proof.
  intros Hn. rewrite !sums_checksum_xor, resize_ge by done.
  rewrite xor_all_app. assert (xor_all (replicate (n - length l) 0) = 0) as ->.
  { generalize (n - length l)%nat. intros m. induction m as [|m IH]; [done|]. cbn. unfold xor_all in IH. by rewrite IH. }
  by rewrite Z.lxor_0_r.
Qed.

(** ** The dense file *)

Definition dense (l : list Z) : list byte := concat (map (to_be 8) l).

Lemma len_dense l : len (dense l) = 8 * len l.
Proof.
  induction l as [|x l IH]; [done|]. cbn [dense map concat].
  change (concat (map (to_be 8) l)) with (dense l). autorewrite with len. rewrite IH. lia.
Qed.
#[local] Hint Rewrite len_dense : len.

Lemma dense_app l l' : dense (l ++ l') = dense l ++ dense l'.
Proof. unfold dense. by rewrite map_app, concat_app. Qed.

Lemma words_app8 w l : length w = 8%nat -> words (w ++ l) = from_be w :: words l.
Proof. intros Hw. do 8 (destruct w as [|? w]; [done|]). by destruct w. Qed.

Lemma words_dense l : Forall u64_ok l -> words (dense l) = l.
Proof.
  induction 1 as [|x l Hx Hl IH]; [done|]. cbn [dense map concat].
  rewrite words_app8 by apply length_to_be. fold (dense l).
  change (concat (map (to_be 8) l)) with (dense l). rewrite IH. f_equal.
  apply from_to_be_small. unfold u64_ok, u64_max in Hx. change (256 ^ Z.of_nat 8) with 18446744073709551616. lia.
Qed.

Lemma slice_dense l a b :
  0 <= a <= b -> b <= len l ->
  slice (dense l) (a * 8) (b * 8) = Some (dense (take (Z.to_nat (b - a)) (drop (Z.to_nat a) l))).
Proof.
  intros Ha Hb. unfold len in Hb.
  rewrite <- (take_drop (Z.to_nat a) l) at 1.
  rewrite <- (take_drop (Z.to_nat (b - a)) (drop (Z.to_nat a) l)) at 1. rewrite !dense_app.
  apply slice_app; autorewrite with len; unfold len; rewrite ?length_take, ?length_drop; lia.
Qed.

Lemma read_dense l limit a n :
  0 <= a -> 0 <= n -> a + n <= len l -> len (dense l) <= limit ->
  read_exact_at (dense l) limit (a * 8) (n * 8) = Ok (dense (take (Z.to_nat n) (drop (Z.to_nat a) l))).
Proof.
  intros Ha Hn Hl Hlim. unfold read_exact_at, check_size. rewrite len_dense in *.
  rewrite (proj2 (Z.ltb_ge limit (n * 8))) by lia. cbn [mbind result_bind].
  rewrite (proj2 (Z.ltb_ge _ _)) by lia. cbn [mbind result_bind].
  replace (a * 8 + n * 8) with ((a + n) * 8) by lia. rewrite slice_dense by lia.
  by replace (a + n - a) with n by lia.
Qed.

Lemma word_dense l i v :
  Forall u64_ok l -> l !! i = Some v ->
  exists w, slice (dense l) (Z.of_nat i * 8) (Z.of_nat i * 8 + 8) = Some w /\ from_be w = v.
Proof.
  intros Hu Hi. pose proof (lookup_lt_Some _ _ _ Hi).
  replace (Z.of_nat i * 8 + 8) with ((Z.of_nat i + 1) * 8) by lia.
  rewrite slice_dense by (unfold len; lia). eexists. split; [done|].
  replace (Z.to_nat (Z.of_nat i + 1 - Z.of_nat i)) with 1%nat by lia. rewrite Nat2Z.id.
  rewrite <- (take_drop_middle l i v Hi), drop_app_ge by (rewrite length_take; lia).
  rewrite length_take, Nat.min_l, Nat.sub_diag by lia. cbn [drop take]. unfold dense. cbn [map concat].
  rewrite app_nil_r. apply from_to_be_small.
  eapply Forall_lookup_1 in Hu; [|done]. unfold u64_ok, u64_max in Hu.
  change (256 ^ Z.of_nat 8) with 18446744073709551616. lia.
Qed.

(** ** The abstract state

    [l] is the base, [sums] the checksums of all pages: the overlay over the base. *)

Definition stored_sum (v : Z) : Prop := u64_ok v /\ unflagged v = false.

Record based (p : PageChecksums) (file : list byte) (l : list Z) : Prop := {
  b_base : match base p with Memory values => values = l | File limit => file = dense l /\ len file <= limit end;
  b_count : base_count p = len l;
  b_u64 : Forall u64_ok l;
  b_u32 : len l <= u32_max
}.

Definition entry (p : PageChecksums) (l : list Z) (page : Z) : Z :=
  default (default 0 (l !! Z.to_nat (page - 1))) (changes p !! page).

Record describes (p : PageChecksums) (file : list byte) (lock : Z) (l sums : list Z) : Prop := {
  d_based : based p file l;
  d_count : count p = len sums;
  d_u32 : count p < u32_max;
  d_entries : forall page, 1 <= page <= count p -> sums !! Z.to_nat (page - 1) = Some (entry p l page);
  d_stored : Forall stored_sum sums;
  d_lock : entry p l lock = 0 /\ changes p !! lock = None;
  d_keys : forall page sum, changes p !! page = Some sum -> 1 <= page <= count p;
  d_checksum : checksum p = sums_checksum sums
}.

(** The window of the reader holds a block of the base. *)
Definition reader_ok (p : PageChecksums) (l : list Z) (reader : option ChecksumReader) : Prop :=
  match base p with
  | Memory _ => reader = None
  | File limit => exists r, reader = Some r /\ reader_limit r = limit /\
      (bytes r = [] \/
       (0 <= first r < len l /\ first r mod 512 = 0 /\
        bytes r = dense (take (Z.to_nat (Z.min (len l - first r) 512)) (drop (Z.to_nat (first r)) l))))
  end.

Lemma repeat_lookup {A} (x y : A) n i : repeat x n !! i = Some y -> y = x /\ (i < n)%nat.
Proof.
  intros Hi. pose proof (lookup_lt_Some _ _ _ Hi) as Hl. rewrite repeat_length in Hl. split; [|done].
  apply list_elem_of_lookup_2, list_elem_of_In, repeat_spec in Hi. done.
Qed.
Lemma lookup_len {A} (l : list A) page : 1 <= page <= len l -> exists v, l !! Z.to_nat (page - 1) = Some v.
Proof. unfold len. intros Hp. apply lookup_lt_is_Some. lia. Qed.

(** The window never changes the value that is read. *)
Lemma reader_value_ok file limit l r page v :
  file = dense l -> len file <= limit -> Forall u64_ok l -> reader_limit r = limit ->
  (bytes r = [] \/
   (0 <= first r < len l /\ first r mod 512 = 0 /\
    bytes r = dense (take (Z.to_nat (Z.min (len l - first r) 512)) (drop (Z.to_nat (first r)) l)))) ->
  1 <= page <= len l -> l !! Z.to_nat (page - 1) = Some v ->
  exists r', reader_value file r page (len l) = Ok (v, r') /\ reader_limit r' = limit /\
    0 <= first r' < len l /\ first r' mod 512 = 0 /\
    bytes r' = dense (take (Z.to_nat (Z.min (len l - first r') 512)) (drop (Z.to_nat (first r')) l)).
Proof.
  intros -> Hlim Hu Hrl Hr Hp Hv. unfold reader_value. change (CHECKSUM_BLOCK_BYTES / 8) with 512.
  set (start := (page - 1) / 512 * 512).
  assert (0 <= start <= page - 1 /\ page - 1 < start + 512 /\ start mod 512 = 0) as (H1 & H2 & H3).
  { unfold start. pose proof (Z.div_mod (page - 1) 512). pose proof (Z.mod_pos_bound (page - 1) 512).
    rewrite Z.mod_mul by lia. split_and!; try done; lia. }
  set (window := MkReader limit start (dense (take (Z.to_nat (Z.min (len l - start) 512)) (drop (Z.to_nat start) l)))).
  match goal with |- context [if ?b then _ else _] => assert ((if b then
         if len l <? start then Err LtxErr.Panic
         else bs ← read_exact_at (dense l) (reader_limit r) (start * 8) (Z.min (len l - start) 512 * 8);
              Ok (MkReader (reader_limit r) start bs) else Ok r) = Ok window) as -> end.
  { case_bool_decide as Hb; cbn [orb].
    2: destruct (Z.eqb_spec (first r) start) as [E|E]; cbn [negb].
    2: { destruct Hr as [?|(_ & _ & Hr)]; [done|]. f_equal. unfold window. rewrite <- E, <- Hr, <- Hrl. by destruct r. }
    all: rewrite (proj2 (Z.ltb_ge _ _)), Hrl, read_dense by lia; done. }
  cbn [mbind result_bind window first bytes reader_limit].
  destruct (word_dense (take (Z.to_nat (Z.min (len l - start) 512)) (drop (Z.to_nat start) l))
              (Z.to_nat (page - 1 - start)) v) as (w & Hw & Hwv).
  { by apply Forall_take, Forall_drop. }
  { rewrite lookup_take_lt, lookup_drop by lia. rewrite <- Hv. f_equal. lia. }
  rewrite Z2Nat.id in Hw by lia. rewrite Hw. cbn [ok_or mbind result_bind]. rewrite Hwv.
  eexists. split; [done|]. cbn. split_and!; try done; lia.
Qed.

Lemma value_ok p file l reader page :
  based p file l -> reader_ok p l reader -> 1 <= page <= count p -> stored_sum (entry p l page) ->
  exists reader', value p file reader page = Ok (entry p l page, reader') /\ reader_ok p l reader'.
Proof.
  intros [Hb Hbc Hu _] Hr Hp [_ Hs]. unfold value, entry in *.
  rewrite (proj2 (Z.eqb_neq page 0)), (proj2 (Z.ltb_ge _ _)) by lia. cbn [orb].
  destruct (changes p !! page); cbn [default from_option] in *; [by eauto|].
  destruct (Z.ltb_spec (base_count p) page) as [Hlt|Hle].
  { rewrite lookup_ge_None_2 by (unfold len in *; lia). by eauto. }
  destruct (lookup_len l page) as [v Hv]; [lia|]. rewrite Hv in *. cbn [default from_option id] in *.
  unfold reader_ok in Hr. destruct (base p) as [m|limit] eqn:Eb.
  - subst m reader. rewrite Hv. cbn [ok_or mbind result_bind]. unfold unflagged in *. rewrite Hs.
    exists None. split; [done|]. unfold reader_ok. by rewrite Eb.
  - destruct Hb as [Hf Hl]. destruct Hr as (r & -> & Hrl & Hr).
    destruct (reader_value_ok file limit l r page v Hf Hl Hu Hrl Hr) as (r' & Er & Hrl' & Hr'); [lia|done|].
    rewrite Hbc, Er. cbn [mbind result_bind]. rewrite Hs. eexists. split; [done|].
    unfold reader_ok. rewrite Eb. exists r'. split_and!; try done. by right.
Qed.

(** ** Truncation *)

Lemma based_set_checksum p file l s : based p file l -> based (set_checksum p s) file l.
Proof. by intros []. Qed.

(** The pages [a .. a + n). *)
Definition entries (p : PageChecksums) (l : list Z) (a n : Z) : list Z := map (entry p l) (seqZ a n).

Lemma entries_cons p l a n : 0 < n -> entries p l a n = entry p l a :: entries p l (a + 1) (n - 1).
Proof. intros Hn. unfold entries. rewrite seqZ_cons by lia. cbn [map]. do 2 f_equal; lia. Qed.

Lemma entries_app p l a n m : 0 <= n -> 0 <= m -> entries p l a (n + m) = entries p l a n ++ entries p l (a + n) m.
Proof. intros Hn Hm. unfold entries. by rewrite seqZ_app, map_app by lia. Qed.

Lemma describes_drop p file lock l sums c :
  describes p file lock l sums -> 0 <= c <= count p ->
  drop (Z.to_nat c) sums = entries p l (c + 1) (count p - c).
Proof.
  intros D Hc. pose proof (d_count _ _ _ _ _ D) as Hn. apply list_eq. intros i.
  rewrite lookup_drop. unfold entries. rewrite list_lookup_fmap. unfold len in Hn.
  destruct (decide (Z.of_nat i < count p - c)) as [Hi|Hi].
  - rewrite (proj2 (lookup_seqZ (c + 1) _ i (c + 1 + Z.of_nat i))) by lia. cbn [fmap option_fmap option_map].
    rewrite <- (d_entries _ _ _ _ _ D (c + 1 + Z.of_nat i)) by lia. f_equal. lia.
  - rewrite (lookup_seqZ_ge (c + 1) _ i) by lia. apply lookup_ge_None. lia.
Qed.

Lemma entry_stored p file lock l sums page :
  describes p file lock l sums -> 1 <= page <= count p -> stored_sum (entry p l page).
Proof. intros D Hp. apply (Forall_lookup_1 _ _ _ _ (d_stored _ _ _ _ _ D) (d_entries _ _ _ _ _ D _ Hp)). Qed.

Lemma remove_pages_ok p file l reader a n :
  based p file l -> reader_ok p l reader -> 0 <= n -> 1 <= a -> a + n - 1 <= count p ->
  (forall page, a <= page < a + n -> stored_sum (entry p l page)) ->
  exists reader', remove_pages p file reader (seqZ a n)
    = Ok (set_checksum p (foldl flag_xor (checksum p) (entries p l a n)), reader') /\ reader_ok p l reader'.
Proof.
  intros Hb Hr Hn. revert p a reader Hb Hr. pattern n. apply natlike_ind; [| |done]; clear n Hn.
  { intros p a reader Hb Hr _ _ _. exists reader. by destruct p. }
  intros n Hn IH p a reader Hb Hr Ha Hc Hs. rewrite seqZ_cons, entries_cons by lia. cbn [remove_pages foldl].
  destruct (value_ok p file l reader a Hb Hr) as (r' & -> & Hr'); [lia|apply Hs; lia|]. cbn [mbind result_bind].
  destruct (IH (set_checksum p (flag_xor (checksum p) (entry p l a))) (Z.succ a) r') as (r2 & E2 & Hr2).
  { by apply based_set_checksum. }
  { done. }
  { lia. }
  { cbn. lia. }
  { intros page Hp. apply (Hs page). lia. }
  rewrite Z.pred_succ, E2. exists r2. split; [|done].
  replace (Z.succ n - 1) with n by lia. by replace (Z.succ a) with (a + 1) by lia.
Qed.

Lemma remove_all_ok p l stored a :
  a + len stored <= u32_max -> 0 <= a ->
  (forall i v, stored !! i = Some v -> default v (changes p !! (a + Z.of_nat i)) = entry p l (a + Z.of_nat i)
     /\ stored_sum (entry p l (a + Z.of_nat i))) ->
  remove_all p a stored
  = Ok (set_checksum p (foldl flag_xor (checksum p) (entries p l a (len stored))), a + len stored).
Proof.
  revert p a. induction stored as [|v stored IH]; intros p a Hm Ha Hs; cbn [remove_all].
  { rewrite len_nil, Z.add_0_r. by destruct p. }
  rewrite len_cons in *. pose proof (len_nonneg stored). rewrite entries_cons by lia. cbn [foldl].
  destruct (Hs O v eq_refl) as [E0 [_ S0]]. rewrite Z.add_0_r in E0, S0.
  unfold remove_one. rewrite E0, S0. unfold checked_add_u32.
  rewrite (proj2 (Z.leb_le _ _)) by lia. cbn [ok_or mbind result_bind].
  rewrite IH; [|lia|lia|].
  - cbn. do 2 f_equal; [|lia]. unfold set_checksum. cbn. by replace (1 + len stored - 1) with (len stored) by lia.
  - intros i w Hi. specialize (Hs (S i) w Hi). cbn. by replace (a + 1 + Z.of_nat i) with (a + Z.of_nat (S i)) by lia.
Qed.

Lemma remove_chunks_ok fuel p l limit a file_end :
  let file := dense l in
  len file <= limit -> Forall u64_ok l -> 1 <= a <= file_end + 1 -> file_end <= len l -> file_end < u32_max ->
  (forall page, a <= page <= file_end -> stored_sum (entry p l page)) ->
  file_end - a + 1 <= Z.of_nat fuel ->
  remove_chunks fuel p file limit a file_end
  = Ok (set_checksum p (foldl flag_xor (checksum p) (entries p l a (file_end - a + 1))), file_end + 1).
Proof.
  intros file Hlim Hu. subst file. revert p a. induction fuel as [|fuel IH]; intros p a Ha He Hm Hs Hf;
    cbn [remove_chunks].
  { replace (file_end - a + 1) with 0 by lia. replace a with (file_end + 1) by lia. by destruct p. }
  destruct (Z.leb_spec a file_end) as [Hle|Hgt].
  2: { replace (file_end - a + 1) with 0 by lia. replace a with (file_end + 1) by lia. by destruct p. }
  change (CHECKSUM_READ_BYTES / 8) with 8192. set (n := Z.min (file_end - a + 1) 8192).
  assert (1 <= n <= file_end - a + 1) as Hn by (unfold n; lia).
  rewrite read_dense by lia. cbn [mbind result_bind].
  rewrite words_dense by (by apply Forall_take, Forall_drop).
  set (chunk := take (Z.to_nat n) (drop (Z.to_nat (a - 1)) l)).
  assert (len chunk = n) as Hlc by (unfold chunk, len in *; rewrite length_take, length_drop; lia).
  rewrite (remove_all_ok p l chunk a); [|lia|lia|].
  - cbn [mbind result_bind]. rewrite Hlc, IH; [|lia|lia|lia| |lia].
    + cbn. do 2 f_equal. unfold set_checksum. cbn. f_equal. rewrite <- foldl_app.
      change (entries _ l (a + n) ?k) with (entries p l (a + n) k). rewrite <- entries_app by lia. do 2 f_equal. lia.
    + intros page Hp. apply (Hs page). lia.
  - intros i v Hi. pose proof (lookup_lt_Some _ _ _ Hi) as Hlt.
    split; [|apply Hs; unfold len in Hlc; lia]. unfold chunk in Hi.
    rewrite lookup_take_lt, lookup_drop in Hi by (unfold len in Hlc; lia). unfold entry.
    replace (Z.to_nat (a + Z.of_nat i - 1)) with (Z.to_nat (a - 1) + i)%nat by lia. by rewrite Hi.
Qed.

Lemma remove_file_suffix_ok p file lock l sums limit c :
  describes p file lock l sums -> base p = File limit -> 0 <= c < count p ->
  remove_file_suffix p file limit c (count p)
  = Ok (set_checksum p (foldl flag_xor (checksum p) (entries p l (c + 1) (count p - c)))).
Proof.
  intros D Eb Hc. pose proof (d_u32 _ _ _ _ _ D) as Hm. pose proof (d_based _ _ _ _ _ D) as [Hb Hbc Hu _]. rewrite Eb in Hb. destruct Hb as [-> Hl].
  unfold remove_file_suffix, checked_add_u32. rewrite (proj2 (Z.leb_le _ _)) by lia. cbn [ok_or mbind result_bind].
  set (fe := Z.min (count p) (base_count p)).
  destruct (Z.le_gt_cases fe c) as [Hfe|Hfe].
  - replace (Z.to_nat (fe - c)) with O by lia. cbn [remove_chunks mbind result_bind].
    rewrite (remove_all_ok p l _ (c + 1)).
    + cbn [mbind result_bind]. do 4 f_equal. unfold len. rewrite repeat_length. lia.
    + unfold len. rewrite repeat_length. lia.
    + lia.
    + intros i v Hi%repeat_lookup. destruct Hi as [-> Hi]. split; [|apply (entry_stored _ _ _ _ _ _ D); lia].
      unfold entry. rewrite (lookup_ge_None_2 l) by (unfold fe, len in *; lia). done.
  - rewrite remove_chunks_ok; [|done|done|lia|lia|lia| |lia].
    2: { intros page Hp. apply (entry_stored _ _ _ _ _ _ D). lia. }
    cbn [mbind result_bind]. rewrite (remove_all_ok _ l).
    + cbn [mbind result_bind]. f_equal. unfold set_checksum. cbn. f_equal. rewrite <- foldl_app. f_equal.
      change (entries _ l (fe + 1) ?k) with (entries p l (fe + 1) k).
      unfold len. rewrite repeat_length.
      replace (Z.of_nat (Z.to_nat (count p - (fe + 1) + 1))) with (count p - fe) by lia.
      replace (count p - c) with ((fe - c) + (count p - fe)) by lia. rewrite (entries_app p l (c + 1) (fe - c)) by lia.
      replace (fe - (c + 1) + 1) with (fe - c) by lia. by replace (c + 1 + (fe - c)) with (fe + 1) by lia.
    + unfold len. rewrite repeat_length. lia.
    + lia.
    + intros i v Hi%repeat_lookup. destruct Hi as [-> Hi]. split.
      2: { apply (entry_stored p _ lock l sums _ D). lia. }
      unfold entry. cbn. rewrite (lookup_ge_None_2 l) by (unfold fe, len in *; lia). done.
Qed.

(** ** The apply session *)

(** The state of a session: [sums] is the target list as far as it was applied. *)
Record applying (a : PageChecksumApply) (file : list byte) (l sums : list Z) : Prop := {
  a_based : based (target a) file l;
  a_reader : reader_ok (target a) l (base_file a);
  a_size : is_valid_page_size (page_size a) = true;
  a_count : count (target a) = previous_count a;
  a_prev : 0 <= previous_count a < u32_max;
  a_commit : acommit a = len sums /\ 1 <= acommit a < u32_max;
  a_entries : forall page, 1 <= page <= acommit a ->
    sums !! Z.to_nat (page - 1)
    = Some (if page <=? previous_count a then entry (target a) l page else default 0 (changes (target a) !! page));
  a_stored : Forall stored_sum sums;
  a_lock : let lock := lock_pgno (page_size a) in
    entry (target a) l lock = 0 /\ changes (target a) !! lock = None;
  a_keys : forall page sum, changes (target a) !! page = Some sum ->
    1 <= page <= acommit a /\ (page <= previous_count a \/ page <= previous a);
  a_checksum : checksum (target a) = sums_checksum sums;
  a_previous : 0 <= previous a;
  a_next : previous_count a < next_required a;
  a_covered : forall q, previous_count a < q < next_required a ->
    q = lock_pgno (page_size a) \/ (q <= previous a /\ is_Some (changes (target a) !! q))
}.

Lemma lock_bounds ps : is_valid_page_size ps = true -> 1 <= lock_pgno ps <= 2097153.
Proof. intros Hv%page_size_bounds. lia. Qed.

Lemma stored_resize n sums : Forall stored_sum sums -> Forall stored_sum (resize n 0 sums).
Proof. intros Hs. apply Forall_resize; [|done]. split; [unfold u64_ok, u64_max; lia|done]. Qed.

(** The candidate after the truncation. *)
Lemma begin_apply_target p file lock l sums ps c limit :
  describes p file lock l sums -> is_valid_page_size ps = true -> 1 <= c -> ps * c <= limit ->
  exists reader, reader_ok p l reader /\
  begin_apply p file ps c limit
  = Ok (MkApply (MkPageChecksums (base p) (base_count p) (count p) (filter (fun e => e.1 <= c) (changes p))
                   (sums_checksum (resize (Z.to_nat c) 0 sums)))
          ps c (count p) 0 (count p + 1) reader).
Proof.
  intros D Hps Hc Hlim. pose proof (d_count _ _ _ _ _ D) as Hn. pose proof (d_u32 _ _ _ _ _ D).
  unfold begin_apply. rewrite Hps, (proj2 (Z.eqb_neq c 0)), (proj2 (Z.ltb_ge _ _)) by lia. cbn [negb orb].
  unfold saturating_add_u32. rewrite Z.min_l by lia.
  set (r0 := match base p with File limit => Some (MkReader limit 0 []) | Memory _ => None end).
  assert (reader_ok p l r0) as Hr0 by (unfold reader_ok, r0; destruct (base p); [done|by eauto 10]).
  destruct (Z.ltb_spec c (count p)) as [Hlt|Hge].
  - assert (foldl flag_xor (checksum p) (entries p l (c + 1) (count p - c)) = sums_checksum (resize (Z.to_nat c) 0 sums)) as Es.
    { rewrite (d_checksum _ _ _ _ _ D), <- (describes_drop _ _ _ _ _ _ D), <- sums_checksum_take by lia.
      rewrite resize_le by (unfold len in Hn; lia). done. }
    destruct (base p) as [m|lim] eqn:Eb.
    + destruct (remove_pages_ok p file l r0 (c + 1) (count p - c)) as (r' & -> & Hr'); try lia; try done.
      { apply (d_based _ _ _ _ _ D). }
      { intros page Hp. apply (entry_stored _ _ _ _ _ _ D). lia. }
      exists r'. split; [done|]. cbn. unfold retain_changes. cbn. by rewrite Es, Eb.
    + rewrite (remove_file_suffix_ok p file lock l sums lim c D Eb) by lia.
      exists r0. split; [done|]. cbn. unfold retain_changes. cbn. by rewrite Es, Eb.
  - exists r0. split; [done|]. cbn. do 2 f_equal. unfold len in Hn. rewrite sums_checksum_resize by lia.
    destruct p as [b bc n ch s]. cbn in *. f_equal; [|apply (d_checksum _ _ _ _ _ D)]. symmetry.
    apply map_filter_id. intros i x Hx%(d_keys _ _ _ _ _ D). cbn in Hx. cbn. lia.
Qed.

Lemma begin_apply_ok p file l sums ps c limit :
  describes p file (lock_pgno ps) l sums -> is_valid_page_size ps = true -> 1 <= c < u32_max -> ps * c <= limit ->
  exists a, begin_apply p file ps c limit = Ok a /\ applying a file l (resize (Z.to_nat c) 0 sums)
    /\ page_size a = ps /\ acommit a = c /\ previous_count a = len sums /\ previous a = 0
    /\ next_required a = len sums + 1.
Proof.
  intros D Hps Hc Hlim. pose proof (d_count _ _ _ _ _ D) as Hn. pose proof (d_u32 _ _ _ _ _ D).
  destruct (begin_apply_target p file _ l sums ps c limit D Hps) as (r & Hr & ->); [lia..|].
  eexists. split; [done|]. cbn. split; [|by rewrite <- Hn].
  assert (forall q, q <= c -> filter (fun e => e.1 <= c) (changes p) !! q = changes p !! q) as Hfil.
  { intros q Hq. rewrite map_lookup_filter. destruct (changes p !! q); [|done]. cbn.
    rewrite option_guard_True by done. done. }
  pose proof (lock_bounds ps Hps).
  constructor; cbn; try done; try lia.
  - destruct (d_based _ _ _ _ _ D). by constructor.
  - pose proof (len_nonneg sums). lia.
  - split; [|lia]. unfold len. rewrite length_resize. lia.
  - intros page Hp. unfold entry. cbn. rewrite Hfil by lia.
    destruct (Z.leb_spec page (count p)) as [Hle|Hgt].
    + rewrite lookup_resize by (unfold len in Hn; lia). apply (d_entries _ _ _ _ _ D). lia.
    + rewrite lookup_resize_new by (unfold len in Hn; lia).
      destruct (changes p !! page) as [v|] eqn:E; [|done]. apply (d_keys _ _ _ _ _ D) in E. lia.
  - apply stored_resize, (d_stored _ _ _ _ _ D).
  - destruct (d_lock _ _ _ _ _ D) as [He Hl]. unfold entry in *. cbn.
    assert (filter (fun e => e.1 <= c) (changes p) !! lock_pgno ps = None) as ->.
    { rewrite map_lookup_filter, Hl. done. }
    by rewrite Hl in He.
  - intros page v Hv. apply map_lookup_filter_Some in Hv as [Hv Hle]. cbn in Hle. apply (d_keys _ _ _ _ _ D) in Hv. lia.
Qed.

Section Sessions.
Context `{Crc64}.

(** The reference: the list resized to the committed size, each page replaced. *)
Definition put_sum (sums : list Z) (page : Z * list byte) : list Z :=
  <[Z.to_nat (page.1 - 1) := checksum_page page.1 page.2]> sums.
Definition apply_sums (sums : list Z) (c : Z) (pages : list (Z * list byte)) : list Z :=
  foldl put_sum (resize (Z.to_nat c) 0 sums) pages.

Lemma checksum_page_stored pgno data : stored_sum (checksum_page pgno data).
Proof.
  split; [apply lor_flag_u64, crc64_u64|]. unfold unflagged, checksum_page.
  rewrite land_flag_lor. apply andb_false_r.
Qed.

(** The page number growth waits for. *)
Definition wanted (a : PageChecksumApply) : Z :=
  if next_required a =? lock_pgno (page_size a) then next_required a + 1 else next_required a.

Lemma skip_lock_ok a file l sums :
  applying a file l sums -> skip_lock (next_required a) (lock_pgno (page_size a)) = Ok (wanted a).
Proof.
  intros A. unfold skip_lock, wanted. destruct (Z.eqb_spec (next_required a) (lock_pgno (page_size a))) as [E|E]; [|done].
  pose proof (lock_bounds _ (a_size _ _ _ _ A)). unfold checked_add_u32, u32_max.
  by rewrite (proj2 (Z.leb_le _ _)) by lia.
Qed.

Definition page_guard (a : PageChecksumApply) (pgno : Z) (data : list byte) : Prop :=
  previous a < pgno <= acommit a /\ pgno <> lock_pgno (page_size a) /\ len data = page_size a
  /\ (pgno <= previous_count a \/ pgno = wanted a).

Lemma apply_page_guard a file l sums pgno data a' :
  applying a file l sums -> apply_page a file pgno data = Ok a' -> page_guard a pgno data.
Proof.
  intros A. unfold apply_page. intros [Hg Hk]%reject_Ok. guards_in Hg. destruct Hg as [[[H1 H2] H3] H4].
  rewrite (skip_lock_ok _ _ _ _ A) in Hk. cbn [mbind result_bind] in Hk.
  split_and!; try done; try lia. destruct (Z.ltb_spec (previous_count a) pgno); [right|by left].
  apply bind_Ok in Hk as (? & [Hk _]%reject_Ok & _). by guards_in Hk.
Qed.

(** One page: the overlay gets it, the aggregate follows. *)
Definition put_page (a : PageChecksumApply) (old : Z) (reader : option ChecksumReader) (pgno : Z) (data : list byte)
  : PageChecksumApply :=
  let t := target a in
  let sum := checksum_page pgno data in
  MkApply
    (MkPageChecksums (base t) (base_count t) (count t) (<[pgno := sum]> (changes t))
       (Z.lor CHECKSUM_FLAG (Z.lxor (Z.lxor (checksum t) old) sum)))
    (page_size a) (acommit a) (previous_count a) pgno
    (if previous_count a <? pgno then pgno + 1 else wanted a) reader.

Lemma apply_page_run a file l sums pgno data :
  applying a file l sums -> page_guard a pgno data ->
  exists old r, apply_page a file pgno data = Ok (put_page a old r pgno data)
    /\ reader_ok (target a) l r /\ sums !! Z.to_nat (pgno - 1) = Some old.
Proof.
  intros A (Hp & Hnl & Hl & Hw). pose proof (a_previous _ _ _ _ A) as Hprev.
  pose proof (a_entries _ _ _ _ A pgno ltac:(lia)) as Hent. pose proof (a_commit _ _ _ _ A) as [Hlen Hc].
  assert (previous_count a < pgno -> changes (target a) !! pgno = None) as Hnone.
  { intros Hgt. destruct (changes (target a) !! pgno) eqn:E; [|done]. apply (a_keys _ _ _ _ A) in E. lia. }
  assert (exists old r, (if pgno <=? previous_count a then value (target a) file (base_file a) pgno
       else Ok (0, base_file a)) = Ok (old, r) /\ reader_ok (target a) l r
       /\ sums !! Z.to_nat (pgno - 1) = Some old) as (old & r & Hv & Hr & Ho).
  { rewrite Hent. destruct (Z.leb_spec pgno (previous_count a)) as [Hle|Hgt].
    - destruct (value_ok (target a) file l (base_file a) pgno) as (r & -> & Hr); [apply A|apply A| | |by eauto].
      + rewrite (a_count _ _ _ _ A). lia.
      + eapply Forall_lookup_1; [apply A|exact Hent].
    - rewrite Hnone by done. exists 0, (base_file a). split_and!; [done|apply A|done]. }
  unfold apply_page.
  rewrite (proj2 (Z.leb_gt _ _)), (proj2 (Z.ltb_ge _ _)), (proj2 (Z.eqb_neq _ _) Hnl), Hl, Z.eqb_refl by lia. cbn [orb negb].
  rewrite (skip_lock_ok _ _ _ _ A). cbn [mbind result_bind].
  assert ((if previous_count a <? pgno then if negb (pgno =? wanted a) then Err LtxErr.LTXCorrupted
           else ok_or (checked_add_u32 (wanted a) 1) LtxErr.LTXCorrupted else Ok (wanted a))
          = Ok (if previous_count a <? pgno then pgno + 1 else wanted a)) as ->.
  { destruct (Z.ltb_spec (previous_count a) pgno); [|done]. assert (pgno = wanted a) as <- by lia. rewrite Z.eqb_refl.
    unfold checked_add_u32. by rewrite (proj2 (Z.leb_le _ _)) by lia. }
  cbn [mbind result_bind]. rewrite Hv. cbn [mbind result_bind]. eauto.
Qed.

Lemma applying_put a file l sums pgno data old r :
  applying a file l sums -> page_guard a pgno data -> reader_ok (target a) l r ->
  sums !! Z.to_nat (pgno - 1) = Some old -> applying (put_page a old r pgno data) file l (put_sum sums (pgno, data)).
Proof.
  intros A (Hp & Hnl & Hl & Hw) Hr Hold. pose proof (a_previous _ _ _ _ A) as Hprev.
  pose proof (a_next _ _ _ _ A) as Hnext. pose proof (a_commit _ _ _ _ A) as [Hlen Hc].
  pose proof (lock_bounds _ (a_size _ _ _ _ A)). unfold put_sum, put_page. cbn [fst snd].
  constructor; cbn [target base_file page_size acommit previous_count previous next_required]; try apply A; try done.
  - destruct (a_based _ _ _ _ A). by constructor.
  - split; [|done]. unfold len. rewrite length_insert. apply Hlen.
  - intros page Hpg. unfold entry. cbn [changes]. destruct (decide (page = pgno)) as [->|Hne].
    + rewrite lookup_insert_eq, list_lookup_insert_eq by (unfold len in Hlen; lia). by destruct (pgno <=? previous_count a).
    + rewrite lookup_insert_ne, list_lookup_insert_ne by lia. by apply (a_entries _ _ _ _ A).
  - apply Forall_insert; [apply A|apply checksum_page_stored].
  - destruct (a_lock _ _ _ _ A) as [He Hlk]. unfold entry in *. cbn [changes]. by rewrite !lookup_insert_ne by done.
  - intros page v. cbn [changes]. rewrite lookup_insert_Some. intros [[<- _]|[_ Hk]]; [lia|].
    apply (a_keys _ _ _ _ A) in Hk. lia.
  - cbn [checksum]. by rewrite (sums_checksum_insert _ _ _ _ Hold), (a_checksum _ _ _ _ A).
  - lia.
  - unfold wanted in *. destruct (Z.ltb_spec (previous_count a) pgno), (Z.eqb_spec (next_required a) (lock_pgno (page_size a))); lia.
  - intros q Hq. cbn [changes]. destruct (decide (q = pgno)) as [->|Hne]; [right; split; [lia|]; rewrite lookup_insert_eq; by eauto|].
    rewrite lookup_insert_ne by done.
    destruct (decide (q = lock_pgno (page_size a))) as [->|Hnq]; [by left|].
    destruct (a_covered _ _ _ _ A q) as [?|[? ?]]; [|done|right; split; [lia|done]].
    unfold wanted in *. destruct (Z.ltb_spec (previous_count a) pgno), (Z.eqb_spec (next_required a) (lock_pgno (page_size a))); lia.
Qed.

Lemma apply_page_step a file l sums pgno data :
  applying a file l sums -> page_guard a pgno data ->
  exists a', apply_page a file pgno data = Ok a' /\ applying a' file l (put_sum sums (pgno, data))
    /\ page_size a' = page_size a /\ acommit a' = acommit a /\ previous_count a' = previous_count a
    /\ previous a' = pgno /\ next_required a' = (if previous_count a <? pgno then pgno + 1 else wanted a).
Proof.
  intros A G. destruct (apply_page_run _ _ _ _ _ _ A G) as (old & r & -> & Hr & Ho).
  eexists. split; [done|]. split; [by apply applying_put|done].
Qed.

(** ** Whole sessions *)

(** What the rest of a session must bring: ascending pages within the size, none
    of them the lock page, and every page the database grows by. *)
Record delta_from (a : PageChecksumApply) (pages : list (Z * list byte)) : Prop := {
  df_sorted : StronglySorted Z.lt (previous a :: map fst pages);
  df_range : Forall (fun p => p.1 <= acommit a /\ p.1 <> lock_pgno (page_size a) /\ len p.2 = page_size a) pages;
  df_growth : forall q, next_required a <= q <= acommit a -> q <> lock_pgno (page_size a) -> q ∈ map fst pages
}.

Definition apply_rest (a : PageChecksumApply) (file : list byte) (pages : list (Z * list byte)) : LtxResult PageChecksums :=
  a ← apply_pages a file pages; apply_finish a.

Lemma wanted_bounds a : next_required a <= wanted a /\ wanted a <> lock_pgno (page_size a)
  /\ forall q, next_required a <= q < wanted a -> q = lock_pgno (page_size a).
Proof. unfold wanted. destruct (Z.eqb_spec (next_required a) (lock_pgno (page_size a))); split_and!; lia. Qed.

Lemma finish_ok a file l sums :
  applying a file l sums -> (previous_count a < acommit a -> acommit a < wanted a) ->
  exists p, apply_finish a = Ok p /\ describes p file (lock_pgno (page_size a)) l sums.
Proof.
  intros A Hn. unfold apply_finish. rewrite (skip_lock_ok _ _ _ _ A). cbn [mbind result_bind].
  assert ((previous_count a <? acommit a) && (wanted a <=? acommit a) = false) as ->
    by (destruct (Z.ltb_spec (previous_count a) (acommit a)); [|done]; apply Z.leb_gt; by apply Hn).
  eexists. split; [done|]. destruct (a_commit _ _ _ _ A) as [Hl Hc].
  constructor; cbn [base base_count count changes checksum]; try apply A; try done; try lia.
  - destruct (a_based _ _ _ _ A). by constructor.
  - intros page Hp. rewrite (a_entries _ _ _ _ A page) by lia. f_equal.
    destruct (Z.leb_spec page (previous_count a)) as [Hle|Hgt]; [done|].
    destruct (wanted_bounds a) as (Hw1 & Hw2 & Hw3). unfold entry. cbn [changes].
    destruct (decide (page = lock_pgno (page_size a))) as [->|Hnl].
    { destruct (a_lock _ _ _ _ A) as [He Hlk]. unfold entry in He. rewrite Hlk in He |- *. cbn in He |- *. by rewrite He. }
    destruct (a_covered _ _ _ _ A page) as [?|[_ [v ->]]]; [|done|done].
    split; [done|]. apply Z.nle_gt. intros Hge. apply Hnl, Hw3. lia.
Qed.

Lemma apply_rest_complete pages a file l sums :
  applying a file l sums -> delta_from a pages ->
  exists p, apply_rest a file pages = Ok p
    /\ describes p file (lock_pgno (page_size a)) l (foldl put_sum sums pages).
Proof.
  revert a sums. induction pages as [|[pgno data] pages IH]; intros a sums A [Ds Dr Dg]; unfold apply_rest; cbn [apply_pages foldl].
  - cbn [mbind result_bind]. apply finish_ok; [done|]. intros Hlt. destruct (wanted_bounds a) as (Hw1 & Hw2 & _).
    apply Z.nle_gt. intros Hge. specialize (Dg (wanted a) ltac:(lia) Hw2). by apply not_elem_of_nil in Dg.
  - apply Forall_cons in Dr as [(Hr1 & Hr2 & Hr3) Dr]. cbn [fst snd map] in *.
    apply StronglySorted_inv in Ds as [Ds [Hlt Hall]%Forall_cons]. destruct (wanted_bounds a) as (Hw1 & Hw2 & Hw3).
    assert (page_guard a pgno data) as G.
    { split_and!; try done. destruct (Z.le_gt_cases pgno (previous_count a)) as [|Hgt]; [by left|right].
      assert (wanted a <= pgno) as Hge.
      { apply Z.nlt_ge. intros Hlt'. destruct (decide (pgno < next_required a)) as [Hb|Hb].
        - destruct (a_covered _ _ _ _ A pgno) as [|[? _]]; [lia|done|lia].
        - apply Hr2, Hw3. lia. }
      destruct (decide (pgno = wanted a)) as [|Hne]; [done|]. exfalso.
      specialize (Dg (wanted a) ltac:(lia) Hw2). apply elem_of_cons in Dg as [Dg|Dg]; [lia|].
      apply StronglySorted_inv in Ds as [_ Hs]. rewrite Forall_forall in Hs. specialize (Hs _ Dg). lia. }
    destruct (apply_page_step _ _ _ _ _ _ A G) as (a' & -> & A' & E1 & E2 & E3 & E4 & E5). cbn [mbind result_bind].
    rewrite <- E1. apply IH; [done|]. constructor; rewrite ?E1, ?E2, ?E4; try done.
    intros q Hq Hnq. rewrite E5 in Hq.
    assert (next_required a <= q /\ q <> pgno) as [Hq1 Hq2].
    { destruct G as (_ & _ & _ & G). pose proof (a_next _ _ _ _ A). destruct (Z.ltb_spec (previous_count a) pgno); lia. }
    specialize (Dg q ltac:(lia) Hnq). apply elem_of_cons in Dg as [|]; [lia|done].
Qed.

Lemma apply_rest_sound pages a file l sums p :
  applying a file l sums -> apply_rest a file pages = Ok p -> delta_from a pages.
Proof.
  revert a sums. induction pages as [|[pgno data] pages IH]; intros a sums A Hk; unfold apply_rest in Hk; cbn [apply_pages] in Hk.
  - cbn [mbind result_bind] in Hk. unfold apply_finish in Hk. rewrite (skip_lock_ok _ _ _ _ A) in Hk.
    cbn [mbind result_bind] in Hk. apply reject_Ok in Hk as [Hg _]. destruct (wanted_bounds a) as (Hw1 & Hw2 & Hw3).
    constructor; [repeat constructor|done|]. intros q Hq Hnq. exfalso. pose proof (a_next _ _ _ _ A).
    apply andb_false_iff in Hg as [Hg|Hg]; guards_in Hg; [lia|]. apply Hnq, Hw3. lia.
  - apply bind_Ok in Hk as (a2 & (a1 & H1 & H2)%bind_Ok & Hf).
    pose proof (apply_page_guard _ _ _ _ _ _ _ A H1) as G.
    destruct (apply_page_step _ _ _ _ _ _ A G) as (a' & H1' & A' & E1 & E2 & E3 & E4 & E5).
    rewrite H1 in H1'. apply Ok_inj in H1'. subst a'.
    destruct (IH a1 _ A') as [Ds Dr Dg]. { unfold apply_rest. by rewrite H2. }
    rewrite E1, E2, ?E4, ?E5 in *. destruct G as (G1 & G2 & G3 & G4). destruct (wanted_bounds a) as (Hw1 & Hw2 & Hw3).
    cbn [map fst]. constructor.
    + constructor; [done|]. apply Forall_cons. split; [cbn; lia|].
      apply StronglySorted_inv in Ds as [_ Hs]. eapply Forall_impl; [exact Hs|]. cbn. lia.
    + apply Forall_cons. split; [|done]. cbn. split_and!; try done; lia.
    + intros q Hq Hnq. apply elem_of_cons. destruct (decide (q = pgno)) as [|Hne]; [by left|]. right.
      apply Dg; [|done]. destruct (Z.ltb_spec (previous_count a) pgno).
      * assert (wanted a <= q) by (apply Z.nlt_ge; intros ?; apply Hnq, Hw3; lia). lia.
      * assert (wanted a <= q) by (apply Z.nlt_ge; intros ?; apply Hnq, Hw3; lia). lia.
Qed.
End Sessions.

(** ** Commit *)

Lemma take_dense n l : take (n * 8) (dense l) = dense (take n l).
Proof.
  destruct (decide (n <= length l)%nat) as [Hn|Hn].
  - rewrite <- (take_drop n l) at 1. rewrite dense_app. apply take_app_length'.
    pose proof (len_dense (take n l)) as Hl. unfold len in Hl. rewrite length_take in Hl. lia.
  - pose proof (len_dense l) as Hl. unfold len in Hl. rewrite !take_ge by lia. done.
Qed.
Lemma drop_dense n l : drop (n * 8) (dense l) = dense (drop n l).
Proof.
  destruct (decide (n <= length l)%nat) as [Hn|Hn].
  - rewrite <- (take_drop n l) at 1. rewrite dense_app. apply drop_app_length'.
    pose proof (len_dense (take n l)) as Hl. unfold len in Hl. rewrite length_take in Hl. lia.
  - pose proof (len_dense l) as Hl. unfold len in Hl. rewrite !drop_ge by lia. done.
Qed.

Lemma resize_dense n l : resize (n * 8) x00 (dense l) = dense (resize n 0 l).
Proof.
  pose proof (len_dense l) as Hl. unfold len in Hl.
  destruct (decide (n <= length l)%nat) as [Hn|Hn].
  - rewrite !resize_le by lia. apply take_dense.
  - rewrite !resize_ge by lia. rewrite dense_app. f_equal.
    replace (n * 8 - length (dense l))%nat with ((n - length l) * 8)%nat by lia.
    generalize (n - length l)%nat. intros m. induction m as [|m IH]; [done|].
    change (S m * 8)%nat with (8 + m * 8)%nat. rewrite replicate_add, IH. done.
Qed.

Lemma set_len_dense l limit n :
  0 <= n -> n * 8 <= limit -> set_len (dense l) limit (n * 8) = Ok (dense (resize (Z.to_nat n) 0 l)).
Proof.
  intros Hn Hl. unfold set_len, check_size. rewrite (proj2 (Z.ltb_ge _ _)) by lia. cbn [mbind result_bind].
  rewrite <- resize_dense. do 2 f_equal. lia.
Qed.

(** One run of adjacent checksums. *)
Definition write_run (d : list Z) (s : nat) (run : list Z) : list Z :=
  take s d ++ run ++ drop (s + length run) d.

Lemma write_run_snoc d s run v :
  (s + length run < length d)%nat -> write_run d s (run ++ [v]) = <[(s + length run)%nat := v]> (write_run d s run).
Proof.
  intros Hl. unfold write_run. rewrite <- !app_assoc.
  rewrite insert_app_r_alt by (rewrite length_take; lia). rewrite length_take, Nat.min_l by lia.
  rewrite insert_app_r_alt by lia. replace (s + length run - s - length run)%nat with O by lia. do 2 f_equal.
  rewrite length_app. cbn [length]. destruct (lookup_lt_is_Some_2 d (s + length run)) as [w Hw]; [lia|].
  rewrite (drop_S d w _ Hw). cbn [app insert list_insert]. do 2 f_equal. lia.
Qed.

Lemma write_run_nil d s : write_run d s [] = d.
Proof. unfold write_run. cbn. by rewrite Nat.add_0_r, take_drop. Qed.

Lemma length_write_run d s run : (s + length run <= length d)%nat -> length (write_run d s run) = length d.
Proof. intros Hl. unfold write_run. rewrite !length_app, length_take, length_drop. lia. Qed.

Lemma write_at_dense d limit s run :
  (s + length run <= length d)%nat -> 8 * len d <= limit -> 8 * len d <= u64_max ->
  write_all_at (dense d) limit (Z.of_nat s * 8) (dense run) = Ok (dense (write_run d s run)).
Proof.
  intros Hl Hlim Hmax. unfold write_all_at, checked_add_u64, check_size. rewrite len_dense. unfold len in *.
  rewrite (proj2 (Z.leb_le _ _)) by lia. cbn [ok_or mbind result_bind].
  rewrite (proj2 (Z.ltb_ge _ _)) by lia. cbn [mbind result_bind]. f_equal. unfold write_run.
  rewrite !dense_app. replace (Z.to_nat (Z.of_nat s * 8)) with (s * 8)%nat by lia.
  replace (Z.to_nat _) with ((s + length run) * 8)%nat by lia.
  rewrite resize_dense, resize_le by lia. by rewrite drop_dense.
Qed.

Lemma memory_write_one n d k v :
  1 <= k <= n -> memory_write n d (k, v) = <[Z.to_nat (k - 1) := v]> d.
Proof. intros Hk. unfold memory_write. cbn. by rewrite (proj2 (Z.leb_le _ _)) by lia. Qed.

Lemma dense_nil run : dense run = [] <-> run = [].
Proof.
  split; [|by intros ->]. intros E. pose proof (len_dense run) as Hl. rewrite E in Hl. destruct run; [done|].
  rewrite len_cons in Hl. change (len (@nil byte)) with 0 in Hl. pose proof (len_nonneg run). lia.
Qed.

(** Coalescing writes what one write per checksum would. *)
Lemma write_changes_ok n limit sorted d run s start :
  Forall (fun c => 1 <= c.1 <= n) sorted -> n <= len d -> 8 * len d <= limit -> 8 * len d <= u64_max ->
  (run = [] \/ start = Z.of_nat s * 8) -> (s + length run <= length d)%nat ->
  write_changes (dense d) limit (dense run) start sorted
  = Ok (dense (foldl (memory_write n) (write_run d s run) sorted)).
Proof.
  intros Hf Hn Hlim Hmax. revert d run s start Hn Hlim Hmax.
  induction Hf as [|[k v] sorted Hk Hf IH]; intros d run s start Hn Hlim Hmax Hs Hl; cbn [write_changes foldl].
  - case_bool_decide as E; rewrite dense_nil in E.
    + subst run. by rewrite write_run_nil.
    + destruct Hs as [?| ->]; [done|]. by apply write_at_dense.
  - cbn in Hk. unfold len in Hn. rewrite memory_write_one by done.
    assert (forall d', length d' = length d ->
      write_changes (dense d') limit (dense [] ++ to_be 8 v) ((k - 1) * 8) sorted
      = Ok (dense (foldl (memory_write n) (<[Z.to_nat (k - 1) := v]> d') sorted))) as Hfresh.
    { intros d' Hd'. change (to_be 8 v) with (dense [v]). rewrite <- dense_app. cbn [app].
      rewrite (IH d' [v] (Z.to_nat (k - 1))) by (unfold len in *; cbn [length]; rewrite ?Hd'; first [lia | right; lia]).
      change [v] with ([] ++ [v]). rewrite write_run_snoc by (cbn [length]; lia). cbn [length]. by rewrite write_run_nil, Nat.add_0_r. }
    case_bool_decide as E; rewrite dense_nil in E; cbn [andb].
    2: { subst run. cbn [mbind result_bind]. rewrite bool_decide_eq_true_2 by done.
         rewrite write_run_nil. by apply Hfresh. }
    destruct Hs as [?| ->]; [done|].
    destruct (Z.eqb_spec ((k - 1) * 8) (Z.of_nat s * 8 + len (dense run))) as [Ea|Ea]; cbn [negb orb].
    2: { rewrite write_at_dense by done. cbn [mbind result_bind]. rewrite bool_decide_eq_true_2 by done.
         apply (Hfresh (write_run d s run)). by apply length_write_run. }
    destruct (len (dense run) =? DENSE_WRITE_BYTES).
    { rewrite write_at_dense by done. cbn [mbind result_bind]. rewrite bool_decide_eq_true_2 by done.
      apply (Hfresh (write_run d s run)). by apply length_write_run. }
    cbn [mbind result_bind]. rewrite bool_decide_eq_false_2 by (by rewrite dense_nil).
    rewrite len_dense in Ea. unfold len in Ea.
    change (to_be 8 v) with (dense [v]). rewrite <- dense_app.
    rewrite (IH d (run ++ [v]) s); try done; [|by right|rewrite length_app; cbn [length]; lia].
    rewrite write_run_snoc by lia. do 4 f_equal. lia.
Qed.

(** Writing a map of changes, in any order. *)
Lemma foldl_writes n L d i :
  NoDup L.*1 -> Forall (fun c => 1 <= c.1 <= n) L -> (i < length d)%nat ->
  foldl (memory_write n) d L !! i
  = match (list_to_map L : gmap Z Z) !! (Z.of_nat i + 1) with Some v => Some v | None => d !! i end.
Proof.
  revert d. induction L as [|[k v] L IH]; intros d Hnd Hf Hi; [done|]. cbn [foldl fmap list_fmap list_to_map foldr curry fst] in *.
  apply NoDup_cons in Hnd as [Hk Hnd]. apply Forall_cons in Hf as [Hr Hf]. cbn in Hr.
  rewrite memory_write_one by done. rewrite IH by (try done; by rewrite length_insert).
  destruct (decide (Z.of_nat i + 1 = k)) as [<-|Hne].
  - rewrite lookup_insert_eq. rewrite not_elem_of_list_to_map_1 by done.
    replace (Z.to_nat (Z.of_nat i + 1 - 1)) with i by lia. by rewrite list_lookup_insert_eq.
  - rewrite lookup_insert_ne by done. by rewrite list_lookup_insert_ne by lia.
Qed.

Lemma length_writes n L d : length (foldl (memory_write n) d L) = length d.
Proof.
  revert d. induction L as [|[k v] L IH]; intros d; [done|]. cbn [foldl]. rewrite IH. unfold memory_write.
  destruct (_ <=? _); [apply length_insert|done].
Qed.

(** The overlay written over the base is the list of all checksums. *)
Lemma merged p file lock l sums d L :
  describes p file lock l sums -> L ≡ₚ map_to_list (changes p) -> (length sums <= length d)%nat ->
  (forall i, (i < length sums)%nat -> d !! i = Some (default 0 (l !! i))) ->
  take (length sums) (foldl (memory_write (count p)) d L) = sums.
Proof.
  intros D Hp Hl Hd. pose proof (d_count _ _ _ _ _ D) as Hn. unfold len in Hn.
  assert (Forall (fun c => 1 <= c.1 <= count p) L) as Hf.
  { apply Forall_forall. intros [k v] Hin. rewrite Hp in Hin. apply elem_of_map_to_list in Hin. by apply (d_keys _ _ _ _ _ D) in Hin. }
  assert (NoDup L.*1) as Hnd by (rewrite Hp; apply NoDup_fst_map_to_list).
  apply list_eq. intros i. destruct (decide (i < length sums)%nat) as [Hi|Hi].
  2: { rewrite !lookup_ge_None_2; [done|lia|rewrite length_take; lia]. }
  rewrite lookup_take_lt, foldl_writes by (try done; lia).
  assert ((list_to_map L : gmap Z Z) = changes p) as ->
    by (rewrite <- (list_to_map_to_list (changes p)); by apply list_to_map_proper).
  pose proof (d_entries _ _ _ _ _ D (Z.of_nat i + 1) ltac:(lia)) as He.
  replace (Z.to_nat (Z.of_nat i + 1 - 1)) with i in He by lia. rewrite He, Hd by done. unfold entry.
  destruct (changes p !! (Z.of_nat i + 1)); [done|]. cbn. by replace (Z.to_nat (Z.of_nat i + 1 - 1)) with i by lia.
Qed.

(** An index whose overlay is empty describes its base. *)
Lemma describes_dense sums lock limit :
  Forall stored_sum sums -> len sums < u32_max -> default 0 (sums !! Z.to_nat (lock - 1)) = 0 ->
  len (dense sums) <= limit ->
  describes (MkPageChecksums (File limit) (len sums) (len sums) ∅ (sums_checksum sums)) (dense sums) lock sums sums.
Proof.
  intros Hs Hu Hl Hlim. constructor; cbn [base base_count count changes checksum]; try done.
  - constructor; cbn [base base_count]; [done|done| |lia]. eapply Forall_impl; [exact Hs|]. by intros ? [].
  - intros page Hp. unfold entry. cbn [changes]. rewrite lookup_empty. cbn.
    destruct (lookup_len sums page) as [v Hv]; [lia|]. by rewrite Hv.
Qed.

(** The index after a commit: the base is the whole list, the overlay is empty. *)
Lemma describes_committed p file lock l sums b file' :
  describes p file lock l sums -> 1 <= lock ->
  match b with Memory m => m = sums | File limit => file' = dense sums /\ len file' <= limit end ->
  describes (MkPageChecksums b (count p) (count p) ∅ (checksum p)) file' lock sums sums.
Proof.
  intros D Hl1 Hb. pose proof (d_count _ _ _ _ _ D) as Hn. pose proof (d_u32 _ _ _ _ _ D).
  constructor; cbn [base base_count count changes checksum]; try apply D.
  - constructor; cbn [base base_count]; [done|done| |lia].
    eapply Forall_impl; [apply (d_stored _ _ _ _ _ D)|]. by intros ? [].
  - intros page Hp. unfold entry. cbn. rewrite lookup_empty. cbn.
    destruct (lookup_len sums page) as [v Hv]; [lia|]. by rewrite Hv.
  - unfold entry. cbn. rewrite lookup_empty. cbn. split; [|done].
    destruct (sums !! Z.to_nat (lock - 1)) as [v|] eqn:E; [|done]. pose proof (lookup_lt_Some _ _ _ E).
    rewrite (d_entries _ _ _ _ _ D) in E by (unfold len in *; lia). injection E as <-. apply (d_lock _ _ _ _ _ D).
  - done.
Qed.

Lemma resize_default (l : list Z) n i : (i < n)%nat -> resize n 0 l !! i = Some (default 0 (l !! i)).
Proof.
  intros Hi. destruct (decide (i < length l)%nat).
  - rewrite lookup_resize by lia. destruct (lookup_lt_is_Some_2 l i) as [v Hv]; [done|]. by rewrite Hv.
  - rewrite lookup_resize_new, (lookup_ge_None_2 l) by lia. done.
Qed.

Lemma filter_kept {A} (f : A -> bool) l : Forall (fun x => f x = true) l -> List.filter f l = l.
Proof. induction 1 as [|x l Hx Hl IH]; [done|]. cbn. by rewrite Hx, IH. Qed.

Lemma commit_memory p file lock l sums m :
  describes p file lock l sums -> base p = Memory m ->
  foldl (memory_write (count p)) (resize (Z.to_nat (count p)) 0 (take (Z.to_nat (base_count p)) m))
    (map_to_list (changes p)) = sums.
Proof.
  intros D Eb. pose proof (d_count _ _ _ _ _ D) as Hn. destruct (d_based _ _ _ _ _ D) as [Hb Hbc _ _].
  rewrite Eb in Hb. subst m. unfold len in Hn, Hbc. rewrite take_ge by lia.
  set (d := resize (Z.to_nat (count p)) 0 l).
  pose proof (merged p file lock l sums d (map_to_list (changes p)) D) as Hm.
  rewrite take_ge in Hm by (rewrite length_writes; unfold d; rewrite length_resize; lia).
  apply Hm; [done|unfold d; rewrite length_resize; lia|]. intros i Hi. apply resize_default. lia.
Qed.

Lemma commit_file p lock l sums limit :
  let file := dense l in
  describes p file lock l sums -> base p = File limit -> count p * 8 <= limit ->
  (f ← (if base_count p * 8 <? count p * 8 then set_len file limit (count p * 8) else Ok file);
   f ← write_changes f limit [] 0 (sort_by page_order (List.filter (fun c => c.1 <=? count p) (map_to_list (changes p))));
   set_len f limit (count p * 8)) = Ok (dense sums).
Proof.
  intros file D Eb Hlim. subst file. pose proof (d_count _ _ _ _ _ D) as Hn. pose proof (d_u32 _ _ _ _ _ D) as Hu.
  destruct (d_based _ _ _ _ _ D) as [Hb Hbc _ Hb32]. rewrite Eb in Hb. destruct Hb as [_ Hfl]. rewrite len_dense in Hfl.
  set (d := if base_count p <? count p then resize (Z.to_nat (count p)) 0 l else l).
  assert ((if base_count p * 8 <? count p * 8 then set_len (dense l) limit (count p * 8) else Ok (dense l)) = Ok (dense d)) as ->.
  { pose proof (len_nonneg sums). unfold d.
    destruct (Z.ltb_spec (base_count p * 8) (count p * 8)), (Z.ltb_spec (base_count p) (count p)); try lia; [|done].
    by rewrite set_len_dense by lia. }
  unfold len in Hn, Hbc, Hfl, Hb32.
  assert (len d = Z.max (count p) (len l)) as Hld.
  { unfold d, len in *. destruct (Z.ltb_spec (base_count p) (count p)); rewrite ?length_resize; lia. }
  unfold len in Hld. cbn [mbind result_bind]. rewrite filter_kept.
  2: { apply Forall_forall. intros [k v] Hin%elem_of_map_to_list%(d_keys _ _ _ _ _ D). cbn. apply Z.leb_le. lia. }
  change ([] : list byte) with (dense []).
  assert (sort_by page_order (map_to_list (changes p)) ≡ₚ map_to_list (changes p)) as Hperm by apply sort_by_perm.
  rewrite (write_changes_ok (count p) limit _ d [] 0) by first [by left | unfold u64_max, u32_max, len in *; cbn [length]; lia |
    rewrite Hperm; apply Forall_forall; intros [k v] Hin%elem_of_map_to_list%(d_keys _ _ _ _ _ D); cbn; lia].
  cbn [mbind result_bind]. rewrite set_len_dense, write_run_nil by lia.
  rewrite resize_le by (rewrite length_writes; lia). replace (Z.to_nat (count p)) with (length sums) by lia.
  rewrite (merged p (dense l) lock l sums d _ D Hperm); [done|lia|].
  intros i Hi. unfold d. destruct (Z.ltb_spec (base_count p) (count p)); [apply resize_default; lia|].
  destruct (lookup_lt_is_Some_2 l i) as [v Hv]; [lia|]. by rewrite Hv.
Qed.

(** C25: sealing a cut preserves the index. After [commit] the base (the vector, or
    the checksum file whose adjacent entries are written in runs) is exactly the
    list of the checksums of all pages, whatever was overwritten, cut off or
    regrown since the previous commit; the overlay is empty and the aggregate is
    unchanged. A file base must have room for the checksums within its limit. *)
Theorem commit_refines p file lock l sums :
  describes p file lock l sums -> 1 <= lock ->
  (forall limit, base p = File limit -> count p * 8 <= limit) ->
  exists p' file', commit p file = Ok (p', file') /\ describes p' file' lock sums sums
    /\ changes p' = ∅ /\ checksum p' = checksum p
    /\ match base p' with Memory m => m = sums /\ file' = file | File _ => file' = dense sums end.
Proof.
  intros D Hl1 Hlim. unfold commit. pose proof (d_based _ _ _ _ _ D) as [Hb _ _ _].
  destruct (base p) as [m|limit] eqn:Eb.
  - rewrite (commit_memory _ _ _ _ _ _ D Eb). eexists _, file. split; [done|]. split; [by eapply describes_committed|done].
  - destruct Hb as [-> _]. specialize (Hlim limit eq_refl). pose proof (commit_file p lock l sums limit D Eb Hlim) as E.
    apply bind_Ok in E as (f1 & E1 & (f2 & E2 & E3)%bind_Ok). rewrite E1. cbn [mbind result_bind]. rewrite E2.
    cbn [mbind result_bind]. rewrite E3. eexists _, _. split; [done|]. split; [|done].
    eapply describes_committed; [done|done|]. split; [done|]. rewrite len_dense, <- (d_count _ _ _ _ _ D). lia.
Qed.

(** ** What a session accepts *)

Section Apply.
Context `{Crc64}.

(** A delta over a database of [n] pages: ascending pages of the new size, none of
    them the lock page, among them every page the database grows by. *)
Record delta_ok (n ps c : Z) (pages : list (Z * list byte)) : Prop := {
  dl_sorted : StronglySorted Z.lt (map fst pages);
  dl_range : Forall (fun p => 1 <= p.1 <= c /\ p.1 <> lock_pgno ps /\ len p.2 = ps) pages;
  dl_growth : forall q, n < q <= c -> q <> lock_pgno ps -> q ∈ map fst pages
}.

Lemma apply_page_error a file l sums pgno data :
  applying a file l sums -> ~ page_guard a pgno data -> apply_page a file pgno data = Err LtxErr.LTXCorrupted.
Proof.
  intros A G. unfold apply_page. destruct (_ || negb _) eqn:Eg; [done|]. guards_in Eg. destruct Eg as [[[H1 H2] H3] H4].
  rewrite (skip_lock_ok _ _ _ _ A). cbn [mbind result_bind].
  destruct (Z.ltb_spec (previous_count a) pgno).
  - destruct (Z.eqb_spec pgno (wanted a)); [|done]. exfalso. apply G. split_and!; first [done | lia].
  - exfalso. apply G. split_and!; first [done | lia].
Qed.

Lemma apply_rest_error pages a file l sums :
  applying a file l sums ->
  (exists p, apply_rest a file pages = Ok p) \/ apply_rest a file pages = Err LtxErr.LTXCorrupted.
Proof.
  revert a sums. induction pages as [|[pgno data] pages IH]; intros a sums A; unfold apply_rest; cbn [apply_pages].
  - cbn [mbind result_bind]. unfold apply_finish. rewrite (skip_lock_ok _ _ _ _ A). cbn [mbind result_bind].
    destruct (_ && _); eauto.
  - assert (page_guard a pgno data \/ ~ page_guard a pgno data) as [G|G].
    { unfold page_guard. lia. }
    + destruct (apply_page_step _ _ _ _ _ _ A G) as (a' & -> & A' & _). cbn [mbind result_bind]. by apply (IH a' _ A').
    + right. by rewrite (apply_page_error _ _ _ _ _ _ A G).
Qed.

Lemma delta_from_iff a ps c n pages :
  page_size a = ps -> acommit a = c -> previous a = 0 -> next_required a = n + 1 ->
  delta_from a pages <-> delta_ok n ps c pages.
Proof.
  intros E1 E2 E4 E5. split; intros [Ds Dr Dg]; rewrite ?E1, ?E2, ?E4, ?E5 in *.
  - apply StronglySorted_inv in Ds as [Ds Hpos]. constructor; [done| |].
    + rewrite Forall_map in Hpos. rewrite Forall_forall in *. intros x Hx.
      specialize (Dr x Hx). specialize (Hpos x Hx). cbn in Hpos. lia.
    + intros q Hq. apply Dg. lia.
  - constructor; rewrite ?E1, ?E2, ?E4, ?E5.
    + constructor; [done|]. rewrite Forall_map. eapply Forall_impl; [exact Dr|]. cbn. intros x. lia.
    + eapply Forall_impl; [exact Dr|]. cbn. intros x. lia.
    + intros q Hq. apply Dg. lia.
Qed.

Lemma apply_iter_complete p file l sums ps c pages limit :
  describes p file (lock_pgno ps) l sums -> is_valid_page_size ps = true -> 1 <= c < u32_max -> ps * c <= limit ->
  delta_ok (len sums) ps c pages ->
  exists p', apply_iter p file ps c pages limit = Ok p'
    /\ describes p' file (lock_pgno ps) l (apply_sums sums c pages).
Proof.
  intros D Hps Hc Hlim Hd.
  destruct (begin_apply_ok p file l sums ps c limit D Hps Hc Hlim) as (a & Ha & A & E1 & E2 & E3 & E4 & E5).
  unfold apply_iter. rewrite Ha. cbn [mbind result_bind]. rewrite <- E1.
  apply (apply_rest_complete pages a file l _ A). by apply (delta_from_iff a ps c (len sums)).
Qed.

Lemma apply_iter_Ok p file l sums ps c pages limit p' :
  describes p file (lock_pgno ps) l sums -> 0 <= c < u32_max -> apply_iter p file ps c pages limit = Ok p' ->
  is_valid_page_size ps = true /\ 1 <= c /\ ps * c <= limit /\ delta_ok (len sums) ps c pages
  /\ describes p' file (lock_pgno ps) l (apply_sums sums c pages).
Proof.
  intros D Hc Hk. pose proof Hk as Hg. unfold apply_iter, begin_apply in Hg.
  apply bind_Ok in Hg as (? & [Hg [Hl _]%reject_Ok]%reject_Ok & _). guards_in Hg. guards_in Hl.
  destruct Hg as [Hps Hz].
  destruct (begin_apply_ok p file l sums ps c limit D Hps ltac:(lia) ltac:(lia)) as (a & Ha & A & E1 & E2 & E3 & E4 & E5).
  pose proof Hk as Hr. unfold apply_iter in Hr. rewrite Ha in Hr. cbn [mbind result_bind] in Hr.
  pose proof (apply_rest_sound pages _ _ _ _ _ A Hr) as Hd%(delta_from_iff a ps c (len sums)); [|done..].
  destruct (apply_iter_complete p file l sums ps c pages limit D Hps ltac:(lia) ltac:(lia) Hd) as (p2 & Hp2 & D2).
  rewrite Hk in Hp2. apply Ok_inj in Hp2. subst p2. split_and!; try done; lia.
Qed.

(** C24: the incremental index refines the list of page checksums. On an index that
    describes [sums], applying a delta either follows the reference (the result
    describes the list cut or extended to the new size with each page replaced, so
    its aggregate is the checksum of the whole new list) or is refused as corrupt;
    it is refused exactly when the delta is not well formed. *)
Theorem apply_refines p file l sums ps c pages limit :
  describes p file (lock_pgno ps) l sums -> is_valid_page_size ps = true -> 1 <= c < u32_max -> ps * c <= limit ->
  (delta_ok (len sums) ps c pages /\
   exists p', apply_iter p file ps c pages limit = Ok p'
     /\ describes p' file (lock_pgno ps) l (apply_sums sums c pages)
     /\ pages_checksum p' = sums_checksum (apply_sums sums c pages))
  \/ (~ delta_ok (len sums) ps c pages /\ apply_iter p file ps c pages limit = Err LtxErr.LTXCorrupted).
Proof.
  intros D Hps Hc Hlim.
  destruct (begin_apply_ok p file l sums ps c limit D Hps Hc Hlim) as (a & Ha & A & E1 & E2 & E3 & E4 & E5).
  pose proof (delta_from_iff a ps c (len sums) pages E1 E2 E4 E5) as Hiff.
  pose proof (apply_iter_complete p file l sums ps c pages limit D Hps Hc Hlim) as Hgo.
  unfold apply_iter in *. rewrite Ha in *. cbn [mbind result_bind] in *. fold (apply_rest a file pages) in *.
  destruct (apply_rest_error pages a file l _ A) as [[p' Hp']|He].
  - left. pose proof (apply_rest_sound _ _ _ _ _ _ A Hp') as Hd%Hiff. split; [done|].
    destruct (Hgo Hd) as (p2 & Hp2 & D2). exists p2. split_and!; [done|done|apply (d_checksum _ _ _ _ _ D2)].
  - right. split; [|done]. intros Hd. destruct (Hgo Hd) as (p2 & Hp2 & _). congruence.
Qed.
End Apply.

(** ** Scans *)

Lemma dense_pages_ok p file lock l sums n a rest sink output fold :
  describes p file lock l sums -> 0 <= n -> 1 <= a -> a + n - 1 = count p ->
  match base p with File _ => rest = dense (drop (Z.to_nat (a - 1)) l) | Memory _ => True end ->
  dense_pages p file rest sink output fold (seqZ a n)
  = Ok (sink ++ output ++ dense (entries p l a n), foldl flag_xor fold (entries p l a n)).
Proof.
  intros D Hn. revert a rest sink output fold. pattern n. apply natlike_ind; [| |done]; clear n Hn.
  { intros a rest sink output fold _ _ _. unfold entries. change (seqZ a 0) with (@nil Z). cbn [dense_pages map].
    change (dense []) with (@nil byte). rewrite app_nil_r.
    destruct output; [by rewrite app_nil_r|done]. }
  intros n Hn IH a rest sink output fold Ha Hc Hr. rewrite seqZ_cons, entries_cons by lia.
  cbn [dense_pages foldl]. rewrite Z.pred_succ. replace (Z.succ n - 1) with n by lia. replace (Z.succ a) with (a + 1) by lia.
  assert (stored_sum (entry p l a)) as Hs by (apply (entry_stored _ _ _ _ _ _ D); lia).
  assert (exists rest', dense_entry p file rest a = Ok (entry p l a, rest') /\
    match base p with File _ => rest' = dense (drop (Z.to_nat (a + 1 - 1)) l) | Memory _ => True end) as (rest' & -> & Hr').
  { pose proof (d_based _ _ _ _ _ D) as B. pose proof B as [Hb Hbc Hu _]. unfold dense_entry.
    destruct (base p) as [m|limit] eqn:Eb.
    { destruct (value_ok p file l None a B) as (r' & -> & _); [unfold reader_ok; by rewrite Eb|lia|done|]. by eauto. }
    destruct Hb as [-> Hlim]. subst rest. unfold check_size. destruct (Z.leb_spec a (base_count p)) as [Hle|Hgt].
    - rewrite (proj2 (Z.ltb_ge _ _)) by done. cbn [mbind result_bind].
      destruct (lookup_len l a) as [v Hv]; [lia|]. rewrite (drop_S l v _ Hv). unfold dense. cbn [map concat].
      rewrite (proj2 (read_exact_Some 8 _ (to_be 8 v) _)) by (split; [done|apply length_to_be]). cbn [ok_or mbind result_bind].
      rewrite from_to_be_small.
      2: { eapply Forall_lookup_1 in Hu; [|done]. unfold u64_ok, u64_max in Hu. change (256 ^ Z.of_nat 8) with 18446744073709551616. lia. }
      replace (default v (changes p !! a)) with (entry p l a) by (unfold entry; by rewrite Hv).
      destruct Hs as [_ ->]. eexists. split; [done|]. by replace (Z.to_nat (a + 1 - 1)) with (S (Z.to_nat (a - 1))) by lia.
    - eexists. unfold value. rewrite (proj2 (Z.eqb_neq a 0)), (proj2 (Z.ltb_ge _ _)) by lia. cbn [orb].
      rewrite (proj2 (Z.ltb_lt _ _)) by done. unfold entry. rewrite (lookup_ge_None_2 l (Z.to_nat (a - 1))) by (unfold len in *; lia).
      split; [by destruct (changes p !! a)|]. by rewrite !drop_ge by (unfold len in *; lia). }
  cbn [mbind result_bind].
  assert (dense (entry p l a :: entries p l (a + 1) n) = to_be 8 (entry p l a) ++ dense (entries p l (a + 1) n)) as -> by done.
  destruct (_ <=? _).
  - rewrite IH by (try done; lia). by rewrite <- !app_assoc.
  - rewrite IH by (try done; lia). by rewrite <- !app_assoc.
Qed.

(** The dense copy is complete. On an index that describes [sums], in memory or
    in a file, committed or not, [write_dense] succeeds and writes the big-endian
    checksum of every page in order. *)
Theorem write_dense_ok p file lock l sums :
  describes p file lock l sums -> write_dense p file = Ok (dense sums).
Proof.
  intros D. unfold write_dense. pose proof (d_count _ _ _ _ _ D). pose proof (len_nonneg sums).
  rewrite (dense_pages_ok p file lock l sums (count p)); try done; try lia.
  - cbn [mbind result_bind app]. pose proof (describes_drop _ _ _ _ _ 0 D ltac:(lia)) as E.
    rewrite Z.sub_0_r in E. change (0 + 1) with 1 in E. change (drop (Z.to_nat 0) sums) with sums in E. rewrite <- E.
    change (foldl flag_xor CHECKSUM_FLAG sums) with (sums_checksum sums). rewrite <- (d_checksum _ _ _ _ _ D).
    by rewrite Z.eqb_refl.
  - pose proof (d_based _ _ _ _ _ D) as [Hb _ _ _]. destruct (base p); [done|]. by destruct Hb.
Qed.

Section Verify.
Context `{Crc64}.

(** The bytes of a page of an image, and what the index must hold for it. *)
Definition page_bytes (ps : Z) (image : list byte) (page : Z) : list byte :=
  take (Z.to_nat ps) (drop (Z.to_nat ((page - 1) * ps)) image).
Definition page_sum (ps : Z) (image : list byte) (page : Z) : Z :=
  if page =? lock_pgno ps then 0 else checksum_page page (page_bytes ps image page).
Definition image_sums (ps n : Z) (image : list byte) : list Z := map (page_sum ps image) (seqZ 1 n).

Definition flagged (c : Z) : Prop := c = Z.lor CHECKSUM_FLAG c.

Lemma flagged_flag : flagged CHECKSUM_FLAG.
Proof. done. Qed.
Lemma flagged_xor c x : flagged (flag_xor c x).
Proof. unfold flagged. symmetry. apply flag_idem. Qed.
Lemma flagged_zero c : flagged c -> flag_xor c 0 = c.
Proof. intros ->. rewrite flag_lor. apply flag_xor_0. Qed.

Lemma foldl_flagged fold l : flagged fold -> flagged (foldl flag_xor fold l).
Proof. intros ->. rewrite foldl_flag_xor. unfold flagged. by rewrite Z.lor_assoc, Z.lor_diag. Qed.

Lemma verify_pages_spec ps database stored a fold :
  0 < ps -> 1 <= a -> flagged fold ->
  verify_pages ps a stored (take (length stored * Z.to_nat ps) (drop (Z.to_nat ((a - 1) * ps)) database)) fold
  = if decide (stored = map (page_sum ps database) (seqZ a (len stored)))
    then Ok (foldl flag_xor fold stored) else Err LtxErr.ChecksumMismatch.
Proof.
  intros Hps. revert a fold. induction stored as [|v stored IH]; intros a fold Ha Hfl; [done|].
  cbn [verify_pages length]. rewrite len_cons. pose proof (len_nonneg stored).
  replace (seqZ a (1 + len stored)) with (a :: seqZ (a + 1) (len stored)) by (rewrite (seqZ_cons a) by lia; do 2 f_equal; lia).
  cbn [map foldl].
  rewrite take_take, Nat.min_l by lia.
  change (take (Z.to_nat ps) (drop (Z.to_nat ((a - 1) * ps)) database)) with (page_bytes ps database a).
  assert (drop (Z.to_nat ps) (take (Z.to_nat ps + length stored * Z.to_nat ps) (drop (Z.to_nat ((a - 1) * ps)) database))
    = take (length stored * Z.to_nat ps) (drop (Z.to_nat ((a + 1 - 1) * ps)) database)) as E.
  { rewrite skipn_firstn_comm, drop_drop. f_equal; [lia|]. f_equal. nia. }
  change (S (length stored) * Z.to_nat ps)%nat with (Z.to_nat ps + length stored * Z.to_nat ps)%nat. rewrite E.
  assert (forall fold', flagged fold' -> v = page_sum ps database a -> fold' = flag_xor fold v ->
     verify_pages ps (a + 1) stored (take (length stored * Z.to_nat ps) (drop (Z.to_nat ((a + 1 - 1) * ps)) database)) fold'
     = if decide (v :: stored = page_sum ps database a :: map (page_sum ps database) (seqZ (a + 1) (len stored)))
       then Ok (foldl flag_xor (flag_xor fold v) stored) else Err LtxErr.ChecksumMismatch) as Hgo.
  { intros fold' Hf' Hv ->. rewrite IH by (try done; lia). case_decide as E1; case_decide as E2; try done; congruence. }
  assert (v <> page_sum ps database a -> Err LtxErr.ChecksumMismatch
     = if decide (v :: stored = page_sum ps database a :: map (page_sum ps database) (seqZ (a + 1) (len stored)))
       then Ok (foldl flag_xor (flag_xor fold v) stored) else Err LtxErr.ChecksumMismatch) as Hstop
    by (intros Hv; case_decide as E1; [congruence|done]).
  assert (page_sum ps database a = if a =? lock_pgno ps then 0 else checksum_page a (page_bytes ps database a)) as Eps by done.
  destruct (Z.eqb_spec a (lock_pgno ps)) as [El|El].
  - destruct (Z.eqb_spec v 0) as [Hv|Hv]; cbn [negb mbind result_bind]; [|apply Hstop; congruence].
    apply Hgo; [done|congruence|]. by rewrite Hv, flagged_zero.
  - destruct (Z.eqb_spec v (checksum_page a (page_bytes ps database a))) as [Hv|Hv]; cbn [negb mbind result_bind];
      [|apply Hstop; congruence].
    apply Hgo; [apply flagged_xor|congruence|done].
Qed.

Lemma verify_reads_spec fuel l limit database dlimit ps a fold :
  0 < ps -> 1 <= a <= len l + 1 -> flagged fold -> Forall u64_ok l -> len (dense l) <= limit ->
  len l * ps <= len database <= dlimit -> len l - a + 1 <= Z.of_nat fuel ->
  verify_reads fuel (dense l) limit database dlimit ps (len l) a fold
  = if decide (drop (Z.to_nat (a - 1)) l = map (page_sum ps database) (seqZ a (len l - a + 1)))
    then Ok (foldl flag_xor fold (drop (Z.to_nat (a - 1)) l)) else Err LtxErr.ChecksumMismatch.
Proof.
  intros Hps Ha Hfl Hu Hlim Hdb. revert a fold Ha Hfl. induction fuel as [|fuel IH]; intros a fold Ha Hfl Hfuel; cbn [verify_reads].
  { rewrite drop_ge by (unfold len in *; lia). replace (len l - a + 1) with 0 by lia. done. }
  destruct (Z.leb_spec a (len l)) as [Hle|Hgt].
  2: { rewrite drop_ge by (unfold len in *; lia). replace (len l - a + 1) with 0 by lia. done. }
  set (k := Z.min (len l - a + 1) (Z.max (CHECKSUM_READ_BYTES / ps) 1)).
  assert (1 <= k <= len l - a + 1) as Hk by (unfold k; lia).
  rewrite read_dense by lia. cbn [mbind result_bind].
  set (chunk := take (Z.to_nat k) (drop (Z.to_nat (a - 1)) l)).
  assert (length chunk = Z.to_nat k) as Hlc by (unfold chunk, len in *; rewrite length_take, length_drop; lia).
  assert (read_exact_at database dlimit ((a - 1) * ps) (k * ps)
    = Ok (take (length chunk * Z.to_nat ps) (drop (Z.to_nat ((a - 1) * ps)) database))) as ->.
  { unfold read_exact_at, check_size. assert (k * ps <= len database /\ (a - 1) * ps + k * ps <= len database) as [Hr1 Hr2] by nia.
    rewrite !(proj2 (Z.ltb_ge _ _)) by lia. cbn [mbind result_bind].
    assert (slice database ((a - 1) * ps) ((a - 1) * ps + k * ps)
            = Some (take (length chunk * Z.to_nat ps) (drop (Z.to_nat ((a - 1) * ps)) database))) as ->; [|done].
    apply slice_Some. split_and!; try nia. f_equal. rewrite Hlc. nia. }
  cbn [mbind result_bind]. rewrite words_dense by (by apply Forall_take, Forall_drop).
  rewrite verify_pages_spec by (try done; lia).
  assert (len chunk = k) as Hlk by (unfold len; lia). rewrite Hlk.
  assert (drop (Z.to_nat (a - 1)) l = chunk ++ drop (Z.to_nat (a + k - 1)) l) as Hsp.
  { unfold chunk. rewrite <- (take_drop (Z.to_nat k) (drop (Z.to_nat (a - 1)) l)) at 1. f_equal. rewrite drop_drop. f_equal. lia. }
  rewrite Hsp. replace (len l - a + 1) with (k + (len l - (a + k) + 1)) by lia. rewrite seqZ_app, map_app, foldl_app by lia.
  case_decide as E1.
  - cbn [mbind result_bind]. rewrite IH by first [lia | by apply foldl_flagged].
    rewrite <- E1. case_decide as E2; case_decide as E3; try done.
    + destruct E3. by rewrite <- E2.
    + destruct E2. by apply app_inv_head in E3.
  - cbn [mbind result_bind]. case_decide as E3; [|done]. destruct E1.
    apply app_inj_1 in E3 as [E3 _]; [done|]. rewrite length_map, length_seqZ. lia.
Qed.

(** A clean local database is resumed only if it is the one the index describes.
    The scan in large reads of a committed file-backed index succeeds exactly when
    the stored checksum of every page is the checksum of that page of the database
    (zero for the lock page), and reports a checksum mismatch otherwise. *)
Theorem verify_database_spec p l sums limit database dlimit ps :
  let file := dense l in
  describes p file (lock_pgno ps) l sums -> base p = File limit -> changes p = ∅ -> base_count p = count p ->
  is_valid_page_size ps = true -> count p * ps <= len database <= dlimit ->
  verify_database p file database dlimit ps
  = if decide (sums = image_sums ps (count p) database) then Ok tt else Err LtxErr.ChecksumMismatch.
Proof.
  intros file D Eb Hch Hbc Hps Hdb. subst file. unfold verify_database. rewrite Eb.
  pose proof (page_size_bounds _ Hps) as [Hpb _]. pose proof (d_count _ _ _ _ _ D) as Hn.
  destruct (d_based _ _ _ _ _ D) as [Hb Hbl Hu _]. rewrite Eb in Hb. destruct Hb as [_ Hlim].
  assert (l = sums) as ->.
  { apply list_eq. intros i. destruct (decide (i < length l)%nat) as [Hi|Hi].
    2: { rewrite !lookup_ge_None_2; [done|unfold len in *; lia|lia]. }
    pose proof (d_entries _ _ _ _ _ D (Z.of_nat i + 1) ltac:(unfold len in *; lia)) as He.
    unfold entry in He. rewrite Hch, lookup_empty in He. cbn in He.
    replace (Z.to_nat (Z.of_nat i + 1 - 1)) with i in He by lia. rewrite He.
    destruct (lookup_lt_is_Some_2 l i) as [v Hv]; [done|]. by rewrite Hv. }
  pose proof (len_nonneg sums). rewrite Hn in *.
  rewrite verify_reads_spec by first [done | lia]. change (drop (Z.to_nat (1 - 1)) sums) with sums.
  replace (len sums - 1 + 1) with (len sums) by lia. fold (image_sums ps (len sums) database).
  case_decide; [|done]. cbn [mbind result_bind]. rewrite (d_checksum _ _ _ _ _ D). unfold sums_checksum. by rewrite Z.eqb_refl.
Qed.
End Verify.

(** * Witnesses *)

#[local] Existing Instance Concrete.crc.

Lemma describes_default file lock : 1 <= lock -> describes pages_default file lock [] [].
Proof.
  intros Hl. constructor; cbn; try done; try lia.
Qed.

(** An index of two pages, before it is committed, and its file-backed twin. *)
Lemma two_pages : delta_ok 0 512 2 Concrete.pages.
Proof.
  constructor.
  - repeat constructor.
  - repeat constructor; done.
  - intros q Hq _. cbn. assert (q = 1 \/ q = 2) as [-> | ->] by lia; [left|right; left].
Qed.

Definition two_sums : list Z := [checksum_page 1 Concrete.page1; checksum_page 2 Concrete.page2].

Lemma apply_refines_witness :
  exists p', apply_iter pages_default [] 512 2 Concrete.pages 4096 = Ok p'
    /\ pages_checksum p' = sums_checksum (apply_sums [] 2 Concrete.pages).
Proof.
  destruct (apply_refines pages_default [] [] [] 512 2 Concrete.pages 4096) as [[_ (p' & Hp & _ & Hc)]|[Hno _]].
  - apply describes_default. done.
  - reflexivity.
  - done.
  - done.
  - exists p'. split; [exact Hp|exact Hc].
  - destruct (Hno two_pages).
Defined.

Lemma commit_refines_witness :
  exists p p' file', apply_iter pages_default [] 512 2 Concrete.pages 4096 = Ok p
    /\ commit p [] = Ok (p', file') /\ changes p' = ∅.
Proof.
  destruct (apply_iter_complete pages_default [] [] [] 512 2 Concrete.pages 4096) as (p & Hp & D);
    [by apply describes_default|reflexivity|done|done|exact two_pages|].
  destruct (commit_refines p [] (lock_pgno 512) [] (apply_sums [] 2 Concrete.pages)) as (p' & f' & Hc & _ & He & _).
  - exact D.
  - done.
  - intros limit Hb. vm_compute in Hp. injection Hp as <-. discriminate.
  - exists p, p', f'. split_and!; done.
Defined.

Lemma write_dense_ok_witness :
  exists p, apply_iter pages_default [] 512 2 Concrete.pages 4096 = Ok p /\ write_dense p [] = Ok (dense (apply_sums [] 2 Concrete.pages)).
Proof.
  destruct (apply_iter_complete pages_default [] [] [] 512 2 Concrete.pages 4096) as (p & Hp & D);
    [by apply describes_default|reflexivity|done|done|exact two_pages|].
  exists p. split; [exact Hp|]. exact (write_dense_ok p [] (lock_pgno 512) [] _ D).
Defined.

(** The index of a file that holds the checksums of the two pages. *)
Definition file_index : PageChecksums := MkPageChecksums (File 4096) (len two_sums) (len two_sums) ∅ (sums_checksum two_sums).

Lemma describes_file_index : describes file_index (dense two_sums) (lock_pgno 512) two_sums two_sums.
Proof.
  apply describes_dense; [|done|done|done].
  constructor; [apply checksum_page_stored|]. constructor; [apply checksum_page_stored|]. constructor.
Qed.

Lemma verify_database_spec_witness :
  verify_database file_index (dense two_sums) (Concrete.page1 ++ Concrete.page2) 4096 512 = Ok tt.
Proof.
  rewrite (verify_database_spec file_index two_sums two_sums 4096 (Concrete.page1 ++ Concrete.page2) 4096 512).
  - rewrite decide_True by (vm_compute; reflexivity). reflexivity.
  - exact describes_file_index.
  - reflexivity.
  - reflexivity.
  - reflexivity.
  - reflexivity.
  - vm_compute. split; discriminate.
Defined.
