(* ===== verification/Recovery.v ===== *)
(** * Recovery: verified plans, materialization and compaction

    Models [crates/cellule-ltx/src/recovery.rs]: [MaterializationState::apply] and
    [finish], [VerifiedPlan::with_host], [verify_segment] and its reader, and
    [compact_to_file]. It composes the decoder and encoder of [LtxCodec] with the
    checksum index of [Pages].

    Parameters: [host_read], the bounded read of a named file, and [stored], what
    the file system returns for the bytes written to the compaction's scratch file.
    The names of files are not interpreted.

    The theorems: a verified plan is an unbroken chain of decoded files from the
    empty database to the target, its image is the replay of their pages and has
    the target's checksum; the compacted file is a complete snapshot of that image
    and verifies, as a plan of one file, to the same image at the same position. *)

From Stdlib Require Import ZArith Lia.
From Stdlib Require Import Strings.Byte.
From stdpp Require Import base gmap strings numbers sorting.
From stdpp Require Import list.
From S2P Require Import Prelude Bytes LtxTypes Lz4 Ltx LtxCodec Pages.

Local Open Scope bool_scope.

(*@ cellule-ltx/src/recovery.rs 11-18 full_job_scratch_bytes *)
Definition full_job_scratch_bytes (page_size database_pages : Z) : LtxResult Z :=
  ok_or (bytes ← checked_mul_u64 page_size database_pages;
         bytes ← checked_mul_u64 bytes 2;
         checked_add_u64 bytes (Z.shiftl 64 20)) (LtxErr.Limit Limit.ScratchDiskBytes).

Module Mat.
(** The page buffer is scratch space that [decode_page] fills. *)
(*@ cellule-ltx/src/recovery.rs 42-49 MaterializationState *)
Record MaterializationState := Mk {
  image : list byte;
  checksums : PageChecksums;
  position : Position;
  page_size : Z;
  timestamp : Z
}.
End Mat.
Abbreviation MaterializationState := Mat.MaterializationState.

Module Materialized.
(*@ cellule-ltx/src/recovery.rs 32-39 MaterializedPlan *)
Record MaterializedPlan := Mk {
  image : list byte;
  checksums : PageChecksums;
  page_size : Z;
  database_pages : Z;
  position : Position;
  timestamp : Z
}.
End Materialized.
Abbreviation MaterializedPlan := Materialized.MaterializedPlan.

(*@ cellule-ltx/src/types.rs 120-127 LocalSegment *)
Record LocalSegment := MkLocal { path : string; info : SegmentInfo }.

(*@ cellule-ltx/src/recovery.rs 26-30 VerifiedPlan *)
Record VerifiedPlan := MkPlan {
  infos : list SegmentInfo;
  materialized : MaterializedPlan;
  limits : Limits
}.

Definition materialization_default : MaterializationState :=
  Mat.Mk [] pages_default (Pos.Mk 0 0) 0 0.

(*@ cellule-ltx/src/recovery.rs 194-203 validate_header *)
Definition validate_header (h : Header) (lim : Limits) : LtxResult unit :=
  _ ← header_validate h;
  if no_checksum h then Err LtxErr.LTXCorrupted
  else if max_database_bytes lim <? Header.commit h * Header.page_size h
  then Err (LtxErr.Limit Limit.DatabaseBytes)
  else Ok tt.

(** [self.image[offset..end].copy_from_slice(&self.page)]. *)
(*@ cellule-ltx/src/recovery.rs 93-99 MaterializationState::apply *)
Definition write_page (image : list byte) (ps pgno : Z) (data : list byte) : LtxResult (list byte) :=
  offset ← ok_or (checked_mul_u64 (pgno - 1) ps) (LtxErr.Limit Limit.DatabaseBytes);
  ending ← ok_or (checked_add_u64 offset ps) (LtxErr.Limit Limit.DatabaseBytes);
  if (ending <=? len image) && (len data =? ps)
  then Ok (take (Z.to_nat offset) image ++ data ++ drop (Z.to_nat ending) image)
  else Err LtxErr.Panic.

Section Recovery.
Context `{Crc64, Blake3, Lz4Flex}.

(** [while let Some(page) = decoder.decode_page(&mut self.page)?]. The index of a
    materialization is in memory: no file. *)
(*@ cellule-ltx/src/recovery.rs 91-100 MaterializationState::apply *)
Fixpoint materialize_pages (fuel : nat) (d : Decoder) (a : PageChecksumApply) (image : list byte) (ps : Z)
  : LtxResult (Decoder * PageChecksumApply * list byte) :=
  match fuel with
  | O => Err LtxErr.Panic
  | S fuel =>
      '(d, page) ← decode_page d ps;
      match page with
      | None => Ok (d, a, image)
      | Some (p, data) =>
          a ← apply_page a [] (PageHdr.pgno p) data;
          image ← write_page image ps (PageHdr.pgno p) data;
          materialize_pages fuel d a image ps
      end
  end.

(*@ cellule-ltx/src/recovery.rs 52-119 MaterializationState::apply *)
Definition materialize_apply (st : MaterializationState) (bytes : list byte) (i : SegmentInfo) (lim : Limits)
  : LtxResult MaterializationState :=
  if max_file_bytes lim <? len bytes then Err (LtxErr.Limit Limit.LtxBytes)
  else if negb (len bytes =? Segment.size_bytes i) then Err LtxErr.ChecksumMismatch
  else
    d ← decode_header (decoder_new bytes);
    let h := dheader d in
    _ ← validate_header h lim;
    next ← ok_or (checked_add_u64 (Pos.txid (Mat.position st)) 1) LtxErr.TxNotAvailable;
    if negb (Header.min_txid h =? next) then Err LtxErr.TxNotAvailable
    else if negb (Header.pre_apply_checksum h =? Pos.checksum (Mat.position st)) then Err LtxErr.ChecksumMismatch
    else if negb (Mat.page_size st =? 0) && negb (Mat.page_size st =? Header.page_size h) then Err LtxErr.LTXCorrupted
    else
      let ps := Header.page_size h in
      image_len ← ok_or (checked_mul_u64 (Header.commit h) ps) (LtxErr.Limit Limit.DatabaseBytes);
      let image := resize (Z.to_nat image_len) x00 (Mat.image st) in
      a ← begin_apply (Mat.checksums st) [] ps (Header.commit h) (max_database_bytes lim);
      '(d, a, image) ← materialize_pages (S (length (rest d))) d a image ps;
      checksums ← apply_finish a;
      d ← decoder_close d;
      '(size, digest) ← artifact d;
      let file := MkDecoded h (dtrailer d) in
      let post := Trailer.post_apply_checksum (file_trailer file) in
      if negb (pages_checksum checksums =? post) then Err LtxErr.ChecksumMismatch
      else if negb (size =? len bytes) || bool_decide (from_inspected file size digest <> i)
      then Err LtxErr.ChecksumMismatch
      else Ok (Mat.Mk image checksums (Pos.Mk (Header.max_txid h) post) ps (Header.timestamp h)).

(*@ cellule-ltx/src/recovery.rs 121-135 MaterializationState::finish *)
Definition materialize_finish (st : MaterializationState) (target : Position) : LtxResult MaterializedPlan :=
  if bool_decide (Mat.position st <> target) || (Mat.page_size st =? 0) then Err LtxErr.ChecksumMismatch
  else
    let database_pages := len (Mat.image st) / Mat.page_size st in
    if u32_max <? database_pages then Err (LtxErr.Limit Limit.DatabasePages)
    else Ok (Materialized.Mk (Mat.image st) (Mat.checksums st) (Mat.page_size st) database_pages
               (Mat.position st) (Mat.timestamp st)).

Context (host_read : string -> Z -> LtxResult (list byte)).

(** The loop over the segments. *)
(*@ cellule-ltx/src/recovery.rs 164-174 VerifiedPlan::with_host *)
Fixpoint apply_segments (segments : list LocalSegment) (lim : Limits) (total : Z) (st : MaterializationState)
  : LtxResult MaterializationState :=
  match segments with
  | [] => Ok st
  | s :: segments =>
      let size := Segment.size_bytes (info s) in
      total ← ok_or (checked_add_u64 total size) (LtxErr.Limit Limit.PlanBytes);
      if (max_plan_bytes lim <? total) || (max_file_bytes lim <? size) then Err (LtxErr.Limit Limit.PlanBytes)
      else
        bytes ← host_read (path s) size;
        st ← materialize_apply st bytes (info s) lim;
        apply_segments segments lim total st
  end.

(*@ cellule-ltx/src/recovery.rs 148-181 VerifiedPlan::with_host *)
Definition with_host (segments : list LocalSegment) (target : Position) (lim : Limits) : LtxResult VerifiedPlan :=
  lim ← limits_validate lim;
  if bool_decide (segments = []) then Err LtxErr.TxNotAvailable
  else if max_segments lim <? len segments then Err (LtxErr.Limit Limit.PlanSegments)
  else
    st ← apply_segments segments lim 0 materialization_default;
    m ← materialize_finish st target;
    Ok (MkPlan (map info segments) m lim).

(*@ cellule-ltx/src/recovery.rs 219-244 verify_segment_reader *)
Definition verify_segment_reader (reader : list byte) (i : SegmentInfo) (lim : Limits) : LtxResult unit :=
  if max_file_bytes lim <? Segment.size_bytes i then Err (LtxErr.Limit Limit.LtxBytes)
  else
    let reader := take (Z.to_nat (saturating_add_u64 (Segment.size_bytes i) 1)) reader in
    d ← decode_header (decoder_new reader);
    _ ← validate_header (dheader d) lim;
    '(d, _) ← decode_pages (S (length (rest d))) d (Header.page_size (dheader d));
    d ← decoder_close d;
    '(size, digest) ← artifact d;
    if bool_decide (from_inspected (MkDecoded (dheader d) (dtrailer d)) size digest <> i)
    then Err LtxErr.ChecksumMismatch else Ok tt.

(*@ cellule-ltx/src/recovery.rs 206-216 verify_segment *)
Definition verify_segment (bytes : list byte) (i : SegmentInfo) (lim : Limits) : LtxResult unit :=
  if max_file_bytes lim <? len bytes then Err (LtxErr.Limit Limit.LtxBytes)
  else if negb (len bytes =? Segment.size_bytes i) || bool_decide (blake3 bytes <> Segment.blake3 i)
  then Err LtxErr.ChecksumMismatch
  else verify_segment_reader bytes i lim.

(** ** Compaction *)

(** [for page in 1..=database_pages], skipping the lock page. *)
(*@ cellule-ltx/src/recovery.rs 295-317 compact_to_file *)
Fixpoint encode_image (e : Encoder) (image : list byte) (ps : Z) (pages : list Z) : LtxResult Encoder :=
  match pages with
  | [] => Ok e
  | page :: pages =>
      if page =? lock_pgno ps then encode_image e image ps pages
      else
        start ← ok_or (checked_mul_u64 (page - 1) ps) (LtxErr.Limit Limit.DatabaseBytes);
        ending ← ok_or (checked_add_u64 start ps) (LtxErr.Limit Limit.DatabaseBytes);
        data ← ok_or (slice image start ending) LtxErr.LTXCorrupted;
        '(e, _) ← encode_page e (PageHdr.Mk page 0) data;
        encode_image e image ps pages
  end.

(*@ cellule-ltx/src/recovery.rs 284-293 compact_to_file *)
Definition compaction_header (m : MaterializedPlan) (first last : SegmentInfo) : Header :=
  Header.Mk VERSION 0 (Materialized.page_size m) (Materialized.database_pages m) (Segment.min_txid first)
    (Segment.max_txid last) (Materialized.timestamp m) (Segment.pre_checksum first) 0 0 0 0 0.

(** The bytes of the installed file and its description. The [BoundedFileWriter] refuses to pass its limit;
    [stored] is what the synced scratch file reads back as. *)
(*@ cellule-ltx/src/recovery.rs 262-353 compact_to_file *)
Definition compact_to_file (plan : VerifiedPlan) (stored : list byte -> list byte)
  : LtxResult (list byte * SegmentInfo) :=
  first ← ok_or (head (infos plan)) LtxErr.TxNotAvailable;
  last ← ok_or (last (infos plan)) LtxErr.TxNotAvailable;
  if max_segments (limits plan) <? len (infos plan) then Err (LtxErr.Limit Limit.CompactionInputs)
  else
    let m := materialized plan in
    if negb (pages_checksum (Materialized.checksums m) =? Pos.checksum (Materialized.position m))
    then Err LtxErr.ChecksumMismatch
    else
      e ← encode_header encoder_new (compaction_header m first last);
      e ← encode_image e (Materialized.image m) (Materialized.page_size m) (seqZ 1 (Materialized.database_pages m));
      e ← encoder_close e (Pos.checksum (Materialized.position m));
      _ ← check_size (len (writer e)) (max_file_bytes (limits plan));
      let encoded := MkDecoded (eheader e) (etrailer e) in
      let size := len (writer e) in
      let digest := blake3 (writer e) in
      if negb (len (stored (writer e)) =? size) || bool_decide (blake3 (stored (writer e)) <> digest)
      then Err LtxErr.ChecksumMismatch
      else
        let i := from_inspected encoded size digest in
        if negb (Segment.min_txid i =? Segment.min_txid first) || negb (Segment.max_txid i =? Segment.max_txid last)
           || negb (Segment.pre_checksum i =? Segment.pre_checksum first)
           || bool_decide (segment_position i <> Materialized.position m)
           || negb (Segment.database_pages i =? Segment.database_pages last)
           || negb (Segment.page_size i =? Segment.page_size first)
        then Err LtxErr.ChecksumMismatch
        else Ok (stored (writer e), i).
End Recovery.

(** * Proofs *)

Section RecoveryProofs.
Context `{Crc64, Blake3, Lz4Flex}.

(** ** Materializing is decoding, then applying and copying the pages *)

Fixpoint write_pages (image : list byte) (ps : Z) (pages : list (Z * list byte)) : LtxResult (list byte) :=
  match pages with
  | [] => Ok image
  | (pgno, data) :: pages => image ← write_page image ps pgno data; write_pages image ps pages
  end.

Lemma materialize_pages_Ok fuel d a image ps d' a' image' :
  materialize_pages fuel d a image ps = Ok (d', a', image') ->
  exists pages, decode_pages fuel d ps = Ok (d', pages) /\ apply_pages a [] pages = Ok a'
    /\ write_pages image ps pages = Ok image'.
Proof.
  revert d a image. induction fuel as [|fuel IH]; intros d a image Hk; [done|]. cbn [materialize_pages decode_pages] in *.
  apply bind_Ok in Hk as ([d1 [[p data]|]] & Hd & Hk); rewrite Hd; cbn [mbind result_bind].
  - apply bind_Ok in Hk as (a1 & Ha & Hk). apply bind_Ok in Hk as (i1 & Hi & Hk).
    destruct (IH _ _ _ Hk) as (pages & -> & Hap & Hw). cbn [mbind result_bind].
    eexists. split; [done|]. cbn [apply_pages write_pages]. by rewrite Ha, Hi.
  - apply Ok_inj in Hk. injection Hk as <- <- <-. by exists [].
Qed.

Lemma materialize_pages_run fuel d a image ps d' a' image' pages :
  decode_pages fuel d ps = Ok (d', pages) -> apply_pages a [] pages = Ok a' -> write_pages image ps pages = Ok image' ->
  materialize_pages fuel d a image ps = Ok (d', a', image').
Proof.
  revert d a image pages. induction fuel as [|fuel IH]; intros d a image pages Hd Ha Hw; [done|].
  cbn [materialize_pages decode_pages] in *.
  apply bind_Ok in Hd as ([d1 [[p data]|]] & Hd & Hk); rewrite Hd; cbn [mbind result_bind].
  - apply bind_Ok in Hk as ([d2 more] & Hm & Hk). apply Ok_inj in Hk. injection Hk as <- <-.
    cbn [apply_pages write_pages] in *. apply bind_Ok in Ha as (a1 & -> & Ha). apply bind_Ok in Hw as (i1 & -> & Hw).
    cbn [mbind result_bind]. by apply (IH _ _ _ more).
  - apply Ok_inj in Hk. injection Hk as <- <-. apply Ok_inj in Ha. apply Ok_inj in Hw. by subst.
Qed.

(** ** The image *)

(** What the pages of a file do to the page [q]. *)
Definition page_of (pages : list (Z * list byte)) (q : Z) : option (list byte) :=
  (list_to_map pages : gmap Z (list byte)) !! q.

Definition put_bytes (ps : Z) (image : list byte) (page : Z * list byte) : list byte :=
  take (Z.to_nat ((page.1 - 1) * ps)) image ++ page.2 ++ drop (Z.to_nat ((page.1 - 1) * ps + ps)) image.

Lemma put_bytes_len ps image page :
  0 <= ps -> 1 <= page.1 -> page.1 * ps <= len image -> len page.2 = ps -> len (put_bytes ps image page) = len image.
Proof.
  intros Hps Hp Hl Hd. unfold put_bytes. autorewrite with len. unfold len in *. rewrite length_take, length_drop. nia.
Qed.

Lemma page_bytes_put ps image p q data :
  0 < ps -> 1 <= p -> 1 <= q -> p * ps <= len image -> q * ps <= len image -> len data = ps ->
  page_bytes ps (put_bytes ps image (p, data)) q = if decide (q = p) then data else page_bytes ps image q.
Proof.
  intros Hps Hp Hq Hpl Hql Hd. unfold page_bytes, put_bytes. cbn [fst snd]. unfold len in *.
  case_decide as E.
  - subst q. rewrite drop_app_length' by (rewrite length_take; lia).
    rewrite take_app_length' by lia. done.
  - apply list_eq. intros i. destruct (decide (i < Z.to_nat ps)%nat) as [Hi|Hi].
    2: { rewrite !lookup_ge_None_2; [done|rewrite length_take; lia|rewrite length_take; lia]. }
    rewrite !lookup_take_lt, !lookup_drop by lia.
    destruct (decide (q < p)) as [Hlt|Hge].
    + rewrite lookup_app_l by (rewrite length_take; nia). rewrite lookup_take_lt by nia. done.
    + assert (p < q) by lia. rewrite lookup_app_r by (rewrite length_take; nia).
      rewrite length_take, Nat.min_l by lia. rewrite lookup_app_r by nia. rewrite lookup_drop. f_equal. nia.
Qed.

Lemma page_bytes_resize ps image q n :
  0 < ps -> 1 <= q -> q * ps <= len image -> q * ps <= n ->
  page_bytes ps (resize (Z.to_nat n) x00 image) q = page_bytes ps image q.
Proof.
  intros Hps Hq Hl Hn. unfold page_bytes. unfold len in Hl. apply list_eq. intros i.
  destruct (decide (i < Z.to_nat ps)%nat) as [Hi|Hi].
  2: { rewrite !lookup_ge_None_2; [done|rewrite length_take; lia|rewrite length_take; lia]. }
  rewrite !lookup_take_lt, !lookup_drop by lia. by rewrite lookup_resize by nia.
Qed.

(** A page write within the image. *)
Lemma write_page_ok image ps pgno data :
  0 <= ps -> 1 <= pgno -> pgno * ps <= len image <= u64_max -> len data = ps ->
  write_page image ps pgno data = Ok (put_bytes ps image (pgno, data)).
Proof.
  intros Hps Hp Hl Hd. unfold write_page, checked_mul_u64, checked_add_u64.
  assert (0 <= (pgno - 1) * ps /\ (pgno - 1) * ps + ps = pgno * ps) as [Hz He] by nia.
  rewrite (proj2 (Z.leb_le _ _)) by lia. cbn [ok_or mbind result_bind].
  rewrite (proj2 (Z.leb_le _ _)) by lia. cbn [ok_or mbind result_bind].
  rewrite (proj2 (Z.leb_le _ _)), Hd, Z.eqb_refl by lia. done.
Qed.

Lemma write_pages_ok pages image ps :
  0 < ps -> Forall (fun p => 1 <= p.1 /\ p.1 * ps <= len image /\ len p.2 = ps) pages -> len image <= u64_max ->
  write_pages image ps pages = Ok (foldl (put_bytes ps) image pages).
Proof.
  intros Hps. revert image. induction pages as [|[p data] pages IH]; intros image Hf Hu; [done|].
  apply Forall_cons in Hf as [(H1' & H2' & H3') Hf]. cbn [write_pages foldl fst snd] in *.
  rewrite write_page_ok by (try done; lia). cbn [mbind result_bind].
  assert (len (put_bytes ps image (p, data)) = len image) as El by (apply put_bytes_len; cbn; lia || done).
  apply IH; rewrite El; done.
Qed.

(** Every page of the image after the writes: the last write, or what was there. *)
Lemma page_bytes_writes pages image ps q :
  0 < ps -> NoDup (map fst pages) ->
  Forall (fun p => 1 <= p.1 /\ p.1 * ps <= len image /\ len p.2 = ps) pages ->
  1 <= q -> q * ps <= len image ->
  page_bytes ps (foldl (put_bytes ps) image pages) q = default (page_bytes ps image q) (page_of pages q).
Proof.
  intros Hps. revert image. induction pages as [|[p data] pages IH]; intros image Hnd Hf Hq Hl; [done|].
  apply Forall_cons in Hf as [(H1' & H2' & H3') Hf]. cbn [foldl map fst snd] in *. apply NoDup_cons in Hnd as [Hn Hnd].
  assert (len (put_bytes ps image (p, data)) = len image) as El by (apply put_bytes_len; cbn; lia || done).
  rewrite IH; rewrite ?El; try done. unfold page_of. cbn [list_to_map foldr curry].
  rewrite page_bytes_put by done. change (foldr _ _ pages) with (list_to_map pages : gmap Z (list byte)).
  destruct (decide (q = p)) as [->|Hne].
  - change (uncurry insert (p, data) ?m) with (<[p := data]> m). rewrite lookup_insert_eq.
    by rewrite not_elem_of_list_to_map_1.
  - change (uncurry insert (p, data) ?m) with (<[p := data]> m). by rewrite lookup_insert_ne.
Qed.

Lemma len_writes pages image ps :
  0 < ps -> Forall (fun p => 1 <= p.1 /\ p.1 * ps <= len image /\ len p.2 = ps) pages ->
  len (foldl (put_bytes ps) image pages) = len image.
Proof.
  intros Hps. revert image. induction pages as [|[p data] pages IH]; intros image Hf; [done|].
  apply Forall_cons in Hf as [(H1' & H2' & H3') Hf]. cbn [foldl fst snd] in *.
  assert (len (put_bytes ps image (p, data)) = len image) as El by (apply put_bytes_len; cbn; lia || done).
  rewrite IH; by rewrite El.
Qed.
(** ** The index follows the image *)

Lemma foldl_put_sum pages sums i :
  NoDup (map fst pages) -> Forall (fun p => 1 <= p.1) pages -> (i < length sums)%nat ->
  foldl put_sum sums pages !! i
  = match page_of pages (Z.of_nat i + 1) with
    | Some data => Some (checksum_page (Z.of_nat i + 1) data)
    | None => sums !! i
    end.
Proof.
  revert sums. induction pages as [|[p data] pages IH]; intros sums Hnd Hf Hi; [done|].
  cbn [foldl map fst] in *. apply NoDup_cons in Hnd as [Hn Hnd]. apply Forall_cons in Hf as [Hp Hf]. cbn in Hp.
  rewrite IH; [|done|done|unfold put_sum; by rewrite length_insert]. unfold page_of, put_sum. cbn [list_to_map foldr fst snd].
  change (foldr _ _ pages) with (list_to_map pages : gmap Z (list byte)).
  change (uncurry insert (p, data) ?m) with (<[p := data]> m).
  destruct (decide (Z.of_nat i + 1 = p)) as [<-|Hne].
  - rewrite lookup_insert_eq, not_elem_of_list_to_map_1 by done.
    replace (Z.to_nat (Z.of_nat i + 1 - 1)) with i by lia. by rewrite list_lookup_insert_eq.
  - rewrite lookup_insert_ne by done. by rewrite list_lookup_insert_ne by lia.
Qed.

Lemma length_put_sums pages sums : length (foldl put_sum sums pages) = length sums.
Proof. revert sums. induction pages as [|p pages IH]; intros sums; [done|]. cbn. rewrite IH. apply length_insert. Qed.

Lemma image_sums_lookup ps n image i :
  Z.of_nat i < n -> image_sums ps n image !! i = Some (page_sum ps image (Z.of_nat i + 1)).
Proof.
  intros Hq. unfold image_sums. rewrite list_lookup_fmap.
  rewrite (proj2 (lookup_seqZ 1 n i (Z.of_nat i + 1))) by lia. done.
Qed.

Lemma length_image_sums ps n image : length (image_sums ps n image) = Z.to_nat n.
Proof. unfold image_sums. by rewrite length_map, length_seqZ. Qed.

Lemma sorted_NoDup (l : list Z) : StronglySorted Z.lt l -> NoDup l.
Proof.
  induction 1 as [|x l Hs IH Hx]; constructor; [|done]. intros Hin. rewrite Forall_forall in Hx.
  specialize (Hx x Hin). lia.
Qed.

(** The writes of a delta stay within the new image. *)
Lemma delta_writes n ps c pages (image : list byte) :
  delta_ok n ps c pages -> 0 < ps -> len image = c * ps ->
  Forall (fun p => 1 <= p.1 /\ p.1 * ps <= len image /\ len p.2 = ps) pages.
Proof.
  intros [_ Hr _] Hps Hl. eapply Forall_impl; [exact Hr|]. cbn. intros [p data] (Hp & _ & Hd). cbn in *.
  split; [lia|]. split; [nia|done].
Qed.

Definition apply_image (ps c : Z) (image : list byte) (pages : list (Z * list byte)) : list byte :=
  foldl (put_bytes ps) (resize (Z.to_nat (c * ps)) x00 image) pages.

Lemma len_apply_image n ps c pages image :
  delta_ok n ps c pages -> 0 < ps -> 0 <= c -> len (apply_image ps c image pages) = c * ps.
Proof.
  intros Hd Hps Hc. assert (len (resize (Z.to_nat (c * ps)) x00 image) = c * ps) as El by (unfold len; rewrite length_resize; lia).
  unfold apply_image. rewrite len_writes; [done|done|]. by eapply delta_writes.
Qed.

(** Each page of the new image is the delta's, or the old one. *)
Lemma apply_image_page n ps c pages image q :
  delta_ok n ps c pages -> 0 < ps -> len image = n * ps -> 1 <= q <= c -> q <> lock_pgno ps ->
  page_bytes ps (apply_image ps c image pages) q = default (page_bytes ps image q) (page_of pages q)
  /\ (page_of pages q = None -> q <= n).
Proof.
  intros Hd Hps Hl Hq Hnl. assert (len (resize (Z.to_nat (c * ps)) x00 image) = c * ps) as El
    by (unfold len; rewrite length_resize; nia).
  assert (page_of pages q = None -> q <= n) as Hold.
  { intros Hn. apply Z.nlt_ge. intros Hgt. pose proof (dl_growth _ _ _ _ Hd q ltac:(lia) Hnl) as Hin.
    unfold page_of in Hn. by apply not_elem_of_list_to_map in Hn. }
  split; [|done]. unfold apply_image. rewrite page_bytes_writes.
  - destruct (page_of pages q) eqn:E; [done|]. cbn. specialize (Hold eq_refl). apply page_bytes_resize; nia.
  - done.
  - apply sorted_NoDup, (dl_sorted _ _ _ _ Hd).
  - by eapply delta_writes.
  - lia.
  - nia.
Qed.

Lemma image_sums_apply n ps c pages image :
  delta_ok n ps c pages -> 0 < ps -> 0 <= n -> 1 <= lock_pgno ps -> len image = n * ps ->
  apply_sums (image_sums ps n image) c pages = image_sums ps c (apply_image ps c image pages).
Proof.
  intros Hd Hps Hn Hlk Hl. apply list_eq. intros i. unfold apply_sums.
  destruct (decide (i < Z.to_nat c)%nat) as [Hi|Hi].
  2: { rewrite !lookup_ge_None_2; [done|rewrite length_image_sums; lia|rewrite length_put_sums, length_resize; lia]. }
  rewrite foldl_put_sum.
  2: { apply sorted_NoDup, (dl_sorted _ _ _ _ Hd). }
  2: { eapply Forall_impl; [apply (dl_range _ _ _ _ Hd)|]. cbn. intros p. lia. }
  2: { rewrite length_resize. lia. }
  rewrite (image_sums_lookup ps c) by lia. unfold page_sum.
  destruct (Z.eqb_spec (Z.of_nat i + 1) (lock_pgno ps)) as [El|El].
  - assert (page_of pages (Z.of_nat i + 1) = None) as ->.
    { apply not_elem_of_list_to_map_1. intros Hin. apply list_elem_of_fmap in Hin as ([p data] & Ep & Hin).
      pose proof (dl_range _ _ _ _ Hd) as Hr. rewrite Forall_forall in Hr. specialize (Hr _ Hin). cbn in *. lia. }
    destruct (decide (i < Z.to_nat n)%nat).
    + rewrite lookup_resize by (rewrite ?length_image_sums; lia).
      rewrite image_sums_lookup by lia. unfold page_sum.
      by rewrite El, Z.eqb_refl.
    + by rewrite lookup_resize_new by (rewrite ?length_image_sums; lia).
  - destruct (apply_image_page n ps c pages image (Z.of_nat i + 1) Hd Hps Hl ltac:(lia) El) as [-> Hold].
    destruct (page_of pages (Z.of_nat i + 1)) as [data|] eqn:E; [done|]. specialize (Hold eq_refl). cbn.
    rewrite lookup_resize by (rewrite ?length_image_sums; lia). rewrite image_sums_lookup by lia. unfold page_sum.
    by rewrite (proj2 (Z.eqb_neq _ _) El).
Qed.
(** ** Replay *)

(** The reference: a database as a map of pages, a file as what it does to it. *)
Definition replay_file (db : gmap Z (list byte)) (file : DecodedFile * list (Z * list byte)) : gmap Z (list byte) :=
  filter (fun e => e.1 <= Header.commit (file_header file.1)) ((list_to_map file.2 : gmap Z (list byte)) ∪ db).

(** The files lead from [pos] to [target] without a gap. *)
Fixpoint chain (pos : Position) (files : list (DecodedFile * list (Z * list byte))) (target : Position) : Prop :=
  match files with
  | [] => pos = target
  | (f, _) :: files =>
      Header.min_txid (file_header f) = Pos.txid pos + 1
      /\ Header.pre_apply_checksum (file_header f) = Pos.checksum pos
      /\ chain (Pos.Mk (Header.max_txid (file_header f)) (Trailer.post_apply_checksum (file_trailer f))) files target
  end.

(** [db] is the image of [st], but for the lock page. *)
Record live (lim : Limits) (st : MaterializationState) (db : gmap Z (list byte)) (n : Z) : Prop := {
  l_size : is_valid_page_size (Mat.page_size st) = true;
  l_pages : 1 <= n < u32_max;
  l_len : len (Mat.image st) = n * Mat.page_size st;
  l_sums : describes (Mat.checksums st) [] (lock_pgno (Mat.page_size st)) []
             (image_sums (Mat.page_size st) n (Mat.image st));
  l_db : forall q, 1 <= q <= n -> q <> lock_pgno (Mat.page_size st) ->
    db !! q = Some (page_bytes (Mat.page_size st) (Mat.image st) q);
  l_dom : forall q, is_Some (db !! q) -> 1 <= q <= n /\ q <> lock_pgno (Mat.page_size st);
  l_checksum : Pos.checksum (Mat.position st) = sums_checksum (image_sums (Mat.page_size st) n (Mat.image st));
  l_limit : Mat.page_size st * n <= max_database_bytes lim;
  l_widths : i64_ok (Mat.timestamp st) /\ u64_ok (Pos.txid (Mat.position st))
}.

(** Before the first file there is no page size. *)
Definition mat_inv (lim : Limits) (st : MaterializationState) (db : gmap Z (list byte)) (n : Z) : Prop :=
  (st = materialization_default /\ db = ∅ /\ n = 0) \/ live lim st db n.

(** What either case gives for a file of page size [ps]. *)
Lemma mat_inv_start lim st db n ps :
  mat_inv lim st db n -> is_valid_page_size ps = true -> Mat.page_size st = 0 \/ Mat.page_size st = ps ->
  0 <= n /\ len (Mat.image st) = n * ps
  /\ describes (Mat.checksums st) [] (lock_pgno ps) [] (image_sums ps n (Mat.image st))
  /\ (forall q, 1 <= q <= n -> q <> lock_pgno ps -> db !! q = Some (page_bytes ps (Mat.image st) q))
  /\ (forall q, is_Some (db !! q) -> 1 <= q <= n /\ q <> lock_pgno ps).
Proof.
  intros [(-> & -> & ->)|L] Hps Hsz.
  - pose proof (page_size_bounds _ Hps). cbn. split_and!; try done; try lia.
    + apply describes_default. lia.
    + intros q [? Hq]. by rewrite lookup_empty in Hq.
  - pose proof (page_size_bounds _ (l_size _ _ _ _ L)). pose proof (l_pages _ _ _ _ L).
    assert (Mat.page_size st = ps) as <- by (destruct Hsz; lia). split; [lia|]. split_and!; apply L.
Qed.

Lemma page_of_range n ps c pages q :
  delta_ok n ps c pages -> is_Some (page_of pages q) -> 1 <= q <= c /\ q <> lock_pgno ps.
Proof.
  intros Hd [data Hq]. unfold page_of in Hq. apply elem_of_list_to_map in Hq.
  2: { apply sorted_NoDup, (dl_sorted _ _ _ _ Hd). }
  pose proof (dl_range _ _ _ _ Hd) as Hr. rewrite Forall_forall in Hr. specialize (Hr _ Hq). cbn in Hr. lia.
Qed.

(** The state a delta leads to. *)
Lemma live_apply lim st db n ps c f pages sums txid ts :
  ps * c <= max_database_bytes lim -> i64_ok ts -> u64_ok txid ->
  mat_inv lim st db n -> Mat.page_size st = 0 \/ Mat.page_size st = ps ->
  is_valid_page_size ps = true -> 1 <= c < u32_max -> delta_ok n ps c pages -> Header.commit (file_header f) = c ->
  describes sums [] (lock_pgno ps) [] (apply_sums (image_sums ps n (Mat.image st)) c pages) ->
  live lim (Mat.Mk (apply_image ps c (Mat.image st) pages) sums (Pos.Mk txid (pages_checksum sums)) ps ts)
    (replay_file db (f, pages)) c.
Proof.
  intros Hlim Hts Htx Hi Hsz Hps Hc Hd Hf D.
  destruct (mat_inv_start _ _ _ _ ps Hi Hps Hsz) as (Hn & Hl & _ & Hdb & Hdom).
  pose proof (page_size_bounds _ Hps) as [Hpb Hlb]. rewrite (image_sums_apply n) in D by (try done; lia).
  constructor; cbn [Mat.page_size Mat.image Mat.checksums Mat.position Pos.checksum]; try done.
  - apply (len_apply_image n); [done|lia|lia].
  - intros q Hq Hnl. unfold replay_file. cbn [fst snd]. rewrite Hf, map_lookup_filter.
    destruct (apply_image_page n ps c pages (Mat.image st) q Hd ltac:(lia) Hl Hq Hnl) as [-> Hold].
    unfold page_of in *. destruct ((list_to_map pages : gmap Z (list byte)) !! q) as [data|] eqn:E.
    + rewrite (lookup_union_Some_l _ _ _ _ E). cbn. rewrite option_guard_True by (cbn; lia). done.
    + rewrite lookup_union_r by done. rewrite Hdb by (specialize (Hold eq_refl); done || lia). cbn.
      rewrite option_guard_True by (cbn; lia). done.
  - intros q [data Hq]. unfold replay_file in Hq. cbn [fst snd] in Hq. rewrite Hf in Hq.
    apply map_lookup_filter_Some in Hq as [Hq Hle]. cbn in Hle.
    apply lookup_union_Some_raw in Hq as [Hq|[_ Hq]].
    + by apply (page_of_range n ps c pages).
    + destruct (Hdom q) as [? ?]; [by eauto|]. split; [lia|done].
  - unfold pages_checksum. apply (d_checksum _ _ _ _ _ D).
Qed.
(** The decoder reads the whole file under one header. *)
Lemma decode_steps bytes d1 d2 d3 pages :
  decode_header (decoder_new bytes) = Ok d1 ->
  decode_pages (S (length (rest d1))) d1 (Header.page_size (dheader d1)) = Ok (d2, pages) ->
  decoder_close d2 = Ok d3 ->
  let f := MkDecoded (dheader d1) (dtrailer d3) in
  decoded bytes f pages /\ artifact d3 = Ok (len bytes, blake3 bytes) /\ dheader d3 = dheader d1
  /\ decode_reader_inner bytes true = Ok (f, pages, len bytes, blake3 bytes).
Proof.
  intros E1 E2 E3. assert (decode_all (decoder_new bytes) = Ok (d3, pages)) as Ea.
  { unfold decode_all. rewrite E1. cbn [mbind result_bind]. rewrite E2. cbn [mbind result_bind]. by rewrite E3. }
  assert (dheader d3 = dheader d1) as Eh.
  { pose proof E1 as E1'. unfold decode_header in E1'. apply reject_Ok in E1' as [_ E1'].
    apply bind_Ok in E1' as ([hb d0] & _ & (h & Hh & ([] & Hval & E1'%Ok_inj)%bind_Ok)%bind_Ok). subst d1.
    apply decode_pages_ordered in E2 as (Hs2 & Hh2 & _); [|done].
    apply decoder_close_sound in E3 as (_ & Hh3 & _); [|done]. congruence. }
  pose proof (decode_all_sound _ _ _ Ea) as (Hst & Hc & Hdec). rewrite Eh in Hdec. cbv zeta.
  assert (artifact d3 = Ok (len bytes, blake3 bytes)) as Har.
  { unfold artifact. rewrite bool_decide_eq_false_2 by (intros Hn; by apply Hn). by rewrite Hc. }
  split; [done|]. split; [done|]. split; [done|].
  unfold decode_reader_inner. rewrite Ea. cbn [mbind result_bind]. rewrite Har. cbn [mbind result_bind]. by rewrite Eh.
Qed.

(** A file was applied: it continues the chain and its pages are in the image. *)
Record applied (st st' : MaterializationState) (bytes : list byte) (i : SegmentInfo)
  (f : DecodedFile) (pages : list (Z * list byte)) : Prop := {
  ap_decoded : decode_reader_inner bytes true = Ok (f, pages, len bytes, blake3 bytes);
  ap_info : i = from_inspected f (len bytes) (blake3 bytes);
  ap_min : Header.min_txid (file_header f) = Pos.txid (Mat.position st) + 1;
  ap_pre : Header.pre_apply_checksum (file_header f) = Pos.checksum (Mat.position st);
  ap_position : Mat.position st' = Pos.Mk (Header.max_txid (file_header f)) (Trailer.post_apply_checksum (file_trailer f));
  ap_page_size : Mat.page_size st' = Header.page_size (file_header f)
}.

(** Databases of fewer than 2^32 - 1 pages. *)
Definition bounded (lim : Limits) : Prop := max_database_bytes lim < 512 * u32_max.

Lemma materialize_apply_Ok st bytes i lim st' db n :
  mat_inv lim st db n -> bounded lim -> materialize_apply st bytes i lim = Ok st' ->
  exists f pages, applied st st' bytes i f pages /\ live lim st' (replay_file db (f, pages)) (Header.commit (file_header f)).
Proof.
  intros Hi Hlim Hk. unfold materialize_apply in Hk. apply reject_Ok in Hk as [_ Hk]. apply reject_Ok in Hk as [_ Hk].
  apply bind_Ok in Hk as (d1 & E1 & Hk). set (h := dheader d1) in *.
  apply bind_Ok in Hk as ([] & Hvh & Hk).
  apply bind_Ok in Hk as (next & [-> _]%ok_or_Ok%checked_add_u64_Some & Hk).
  apply reject_Ok in Hk as [Hmin Hk]. guards_in Hmin. apply reject_Ok in Hk as [Hpre Hk]. guards_in Hpre.
  apply reject_Ok in Hk as [Hsz Hk].
  apply bind_Ok in Hk as (image_len & Hil%ok_or_Ok & Hk). apply bind_Ok in Hk as (a & Ha & Hk).
  apply bind_Ok in Hk as ([[d2 a1] image'] & (pages & E2 & Hap & Hw)%materialize_pages_Ok & Hk).
  apply bind_Ok in Hk as (sums & Hfin & Hk). apply bind_Ok in Hk as (d3 & E3 & Hk).
  destruct (decode_steps bytes d1 d2 d3 pages E1 E2 E3) as ([Hwd _ _ _ _] & Har & Eh & Hinner).
  rewrite Har in Hk. cbn [mbind result_bind file_trailer] in Hk.
  apply reject_Ok in Hk as [Hck Hk]. guards_in Hck. apply reject_Ok in Hk as [Hinf Hk]. apply Ok_inj in Hk. subst st'.
  assert (apply_iter (Mat.checksums st) [] (Header.page_size h) (Header.commit h) pages (max_database_bytes lim) = Ok sums) as Hit
    by (unfold apply_iter; rewrite Ha; cbn [mbind result_bind]; by rewrite Hap).
  assert (Mat.page_size st = 0 \/ Mat.page_size st = Header.page_size h) as Hsz'
    by (apply andb_false_iff in Hsz as [Hsz|Hsz]; guards_in Hsz; tauto).
  unfold validate_header in Hvh. apply bind_Ok in Hvh as ([] & Hv & Hvh). apply reject_Ok in Hvh as [_ Hvh].
  apply reject_Ok in Hvh as [Hdb _]. guards_in Hdb. unfold bounded in Hlim.
  pose proof (header_validate_page_size _ Hv) as Hps. pose proof (page_size_bounds _ Hps) as [Hpb _].
  assert (0 <= Header.commit h) as Hc0 by apply (hw_commit _ Hwd). assert (0 <= Header.commit h < u32_max) as Hcm by nia.
  destruct (mat_inv_start _ _ _ _ _ Hi Hps Hsz') as (Hn & Hl & D & _).
  destruct (apply_iter_Ok _ _ _ _ _ _ _ _ _ D Hcm Hit) as (_ & Hc1 & Hcl & Hd & D').
  assert (len (image_sums (Header.page_size h) n (Mat.image st)) = n) as El by (unfold len; rewrite length_image_sums; lia).
  rewrite El in Hd. unfold checked_mul_u64 in Hil. case_match; [|done]. injection Hil as <-.
  assert (image' = apply_image (Header.page_size h) (Header.commit h) (Mat.image st) pages) as ->.
  { rewrite write_pages_ok in Hw; [by apply Ok_inj in Hw|lia| |unfold len; rewrite length_resize; lia].
    eapply delta_writes; [exact Hd|lia|unfold len; rewrite length_resize; lia]. }
  eexists (MkDecoded h (dtrailer d3)), pages. cbn [file_header]. split.
  - constructor; cbn [file_header file_trailer Mat.position Mat.page_size]; try done.
    apply orb_false_iff in Hinf as [_ Hinf]. apply bool_decide_eq_false in Hinf. by apply dec_stable in Hinf.
  - rewrite <- Hck. apply (live_apply lim st db n); try done; [apply (hw_timestamp _ Hwd)|apply (hw_max _ Hwd)|lia].
Qed.

(** ** Plans *)

Context (host_read : string -> Z -> LtxResult (list byte)).

(** A segment of a plan and the file it names. *)
Definition segment_file (s : LocalSegment) (file : DecodedFile * list (Z * list byte)) : Prop :=
  exists bytes, host_read (path s) (Segment.size_bytes (info s)) = Ok bytes
    /\ decode_reader_inner bytes true = Ok (file.1, file.2, len bytes, blake3 bytes)
    /\ info s = from_inspected file.1 (len bytes) (blake3 bytes).

Lemma apply_segments_Ok segments lim total st st' db n :
  mat_inv lim st db n -> bounded lim -> apply_segments host_read segments lim total st = Ok st' ->
  exists files n', Forall2 segment_file segments files /\ chain (Mat.position st) files (Mat.position st')
    /\ mat_inv lim st' (foldl replay_file db files) n'.
Proof.
  intros Hi Hlim. revert total st db n Hi. induction segments as [|s segments IH]; intros total st db n Hi Hk; cbn [apply_segments] in Hk.
  { apply Ok_inj in Hk. subst st'. exists [], n. split; [constructor|done]. }
  apply bind_Ok in Hk as (total' & _ & Hk). apply reject_Ok in Hk as [_ Hk].
  apply bind_Ok in Hk as (bytes & Hb & Hk). apply bind_Ok in Hk as (st1 & (f & pages & A & L)%(materialize_apply_Ok _ _ _ _ _ _ _ Hi) & Hk);
    [|done].
  destruct (IH total' st1 (replay_file db (f, pages)) _ (or_intror L) Hk) as (files & n' & Hf & Hc & Hi').
  exists ((f, pages) :: files), n'. split_and!; [|cbn [chain]|exact Hi'].
  - constructor; [|done]. exists bytes. split; [done|]. split; apply A.
  - split; [apply A|]. split; [apply A|]. by rewrite <- (ap_position _ _ _ _ _ _ A).
Qed.

(** A verified plan in one piece. *)
Record verified (segments : list LocalSegment) (target : Position) (lim : Limits) (plan : VerifiedPlan)
  (files : list (DecodedFile * list (Z * list byte))) (n : Z) (st : MaterializationState) : Prop := {
  v_limits : limits_validate lim = Ok lim;
  v_files : Forall2 segment_file segments files;
  v_chain : chain (Pos.Mk 0 0) files target;
  v_live : live lim st (foldl replay_file ∅ files) n;
  v_position : Mat.position st = target;
  v_count : 1 <= len segments <= max_segments lim;
  v_plan : plan = MkPlan (map info segments)
    (Materialized.Mk (Mat.image st) (Mat.checksums st) (Mat.page_size st) n (Mat.position st) (Mat.timestamp st)) lim
}.

Lemma with_host_Ok segments target lim plan :
  bounded lim -> with_host host_read segments target lim = Ok plan ->
  exists files n st, verified segments target lim plan files n st.
Proof.
  intros Hlim Hk. unfold with_host in Hk. apply bind_Ok in Hk as (lim' & Hv & Hk).
  assert (lim' = lim) as -> by (unfold limits_validate in Hv; by apply reject_Ok in Hv as [_ ?%Ok_inj]).
  apply reject_Ok in Hk as [Hne Hk]. apply reject_Ok in Hk as [Hmax Hk]. guards_in Hmax.
  apply bind_Ok in Hk as (st & Hst & Hk). apply bind_Ok in Hk as (m & Hm & Hk). apply Ok_inj in Hk. subst plan.
  destruct (apply_segments_Ok segments lim 0 materialization_default st ∅ 0) as (files & n & Hf & Hc & Hi); [by left|done|done|].
  unfold materialize_finish in Hm. apply reject_Ok in Hm as [Hg Hm]. apply orb_false_iff in Hg as [Hpos Hz].
  apply bool_decide_eq_false, dec_stable in Hpos. guards_in Hz. apply reject_Ok in Hm as [_ Hm]. apply Ok_inj in Hm. subst m.
  destruct Hi as [(-> & _ & _)|L]; [done|]. exists files, n, st.
  assert (len (Mat.image st) / Mat.page_size st = n) as En.
  { rewrite (l_len _ _ _ _ L). apply Z.div_mul. done. }
  rewrite En. constructor; try done.
  - by rewrite <- Hpos.
  - split; [|lia]. apply bool_decide_eq_false in Hne. destruct segments; [done|]. rewrite len_cons. pose proof (len_nonneg segments). lia.
Qed.

(** C11: a verified plan is sound. If verification succeeds, every segment names a
    file that decodes and matches its expected description; the files form an
    unbroken chain from the empty database to the target, without a gap or an
    overlap in transactions or checksums; the image is the replay of their pages
    (each page is the one the last file that holds it wrote, pages past a file's
    size being cut off); and the checksum of all pages of the image is the target's. *)
Theorem plan_sound segments target lim plan :
  bounded lim -> with_host host_read segments target lim = Ok plan ->
  let m := materialized plan in
  let ps := Materialized.page_size m in
  exists files, Forall2 segment_file segments files /\ infos plan = map info segments
    /\ chain (Pos.Mk 0 0) files target /\ Materialized.position m = target
    /\ is_valid_page_size ps = true /\ len (Materialized.image m) = Materialized.database_pages m * ps
    /\ (forall q, 1 <= q <= Materialized.database_pages m -> q <> lock_pgno ps ->
          foldl replay_file ∅ files !! q = Some (page_bytes ps (Materialized.image m) q))
    /\ sums_checksum (image_sums ps (Materialized.database_pages m) (Materialized.image m)) = Pos.checksum target.
Proof.
  intros Hlim Hk. destruct (with_host_Ok _ _ _ _ Hlim Hk) as (files & n & st & V).
  rewrite (v_plan _ _ _ _ _ _ _ V). cbn [materialized infos Materialized.page_size Materialized.database_pages Materialized.image Materialized.position].
  pose proof (v_live _ _ _ _ _ _ _ V) as L. pose proof (v_position _ _ _ _ _ _ _ V) as Hp.
  exists files. split_and!; try apply V; try apply L; [done|]. by rewrite <- Hp, (l_checksum _ _ _ _ L).
Qed.

(** ** Compaction *)

(** The pages of an image that a snapshot holds. *)
Definition cut_pages (ps : Z) (image : list byte) (pages : list Z) : list (Z * list byte) :=
  map (fun q => (q, page_bytes ps image q)) (List.filter (fun p => negb (p =? lock_pgno ps)) pages).

Lemma cut_pages_cons ps image q pages :
  cut_pages ps image (q :: pages)
  = if q =? lock_pgno ps then cut_pages ps image pages else (q, page_bytes ps image q) :: cut_pages ps image pages.
Proof. unfold cut_pages. cbn [List.filter]. by destruct (q =? lock_pgno ps). Qed.

Lemma map_fst_cut ps image pages :
  map fst (cut_pages ps image pages) = List.filter (fun p => negb (p =? lock_pgno ps)) pages.
Proof. unfold cut_pages. rewrite map_map. apply map_id. Qed.

Lemma encode_image_Ok pages e image ps e' :
  0 < ps -> encode_image e image ps pages = Ok e' -> encode_pages e (cut_pages ps image pages) = Ok e'.
Proof.
  intros Hps. revert e. induction pages as [|q pages IH]; intros e Hk; [done|]. cbn [encode_image] in Hk. rewrite cut_pages_cons.
  destruct (q =? lock_pgno ps); [by apply IH|].
  apply bind_Ok in Hk as (start & Hs%ok_or_Ok & Hk). unfold checked_mul_u64 in Hs. case_match; [|done]. injection Hs as <-.
  apply bind_Ok in Hk as (ending & [-> _]%ok_or_Ok%checked_add_u64_Some & Hk).
  apply bind_Ok in Hk as (data & (_ & _ & ->)%ok_or_Ok%slice_Some & Hk).
  apply bind_Ok in Hk as ([e1 ep] & He & Hk). cbn [encode_pages].
  replace ((q - 1) * ps + ps - (q - 1) * ps) with ps in He by lia. fold (page_bytes ps image q) in He. rewrite He.
  cbn [mbind result_bind]. by apply IH.
Qed.

Lemma fold_pages_cut pages fold image ps :
  flagged fold -> fold_pages fold (cut_pages ps image pages) = foldl flag_xor fold (map (page_sum ps image) pages).
Proof.
  revert fold. induction pages as [|q pages IH]; intros fold Hf; [done|]. rewrite cut_pages_cons. cbn [map foldl].
  assert (page_sum ps image q = if q =? lock_pgno ps then 0 else checksum_page q (page_bytes ps image q)) as -> by done.
  destruct (q =? lock_pgno ps).
  - rewrite flagged_zero by done. by apply IH.
  - cbn [fold_pages foldl fst snd]. apply IH, flagged_xor.
Qed.

(** The checksum of a snapshot of the image is the checksum of the image. *)
Lemma snapshot_checksum_cut ps n image :
  snapshot_checksum (cut_pages ps image (seqZ 1 n)) = sums_checksum (image_sums ps n image).
Proof. apply fold_pages_cut, flagged_flag. Qed.

(** A complete snapshot is a delta over the empty database. *)
Lemma snapshot_delta ps n image :
  0 < ps -> len image = n * ps -> delta_ok 0 ps n (cut_pages ps image (seqZ 1 n)).
Proof.
  intros Hps Hl. constructor.
  - rewrite map_fst_cut. apply sorted_filter, sorted_seqZ.
  - unfold cut_pages. rewrite Forall_map. apply Forall_forall. intros q Hq. cbn.
    apply elem_of_filter_bool in Hq as [Hq%elem_of_seqZ Hnl]. guards_in Hnl. split; [lia|]. split; [done|].
    unfold page_bytes, len in *. rewrite length_take, length_drop. nia.
  - intros q Hq Hnl. rewrite map_fst_cut. apply elem_of_filter_bool. split; [apply elem_of_seqZ; lia|].
    apply negb_true_iff. by apply Z.eqb_neq.
Qed.

Lemma page_of_cut ps n image q :
  1 <= q <= n -> q <> lock_pgno ps -> page_of (cut_pages ps image (seqZ 1 n)) q = Some (page_bytes ps image q).
Proof.
  intros Hq Hnl. apply elem_of_list_to_map_1'.
  - intros y Hy. unfold cut_pages in Hy. apply list_elem_of_fmap in Hy as (q' & [= -> ->] & _). done.
  - unfold cut_pages. apply list_elem_of_fmap. exists q. split; [done|].
    apply elem_of_filter_bool. split; [apply elem_of_seqZ; lia|]. apply negb_true_iff. by apply Z.eqb_neq.
Qed.

(** The image of a snapshot applied to nothing. *)
Lemma snapshot_image ps n image :
  0 < ps -> 1 <= lock_pgno ps -> 0 <= n -> len image = n * ps ->
  let image' := apply_image ps n [] (cut_pages ps image (seqZ 1 n)) in
  len image' = n * ps
  /\ (forall q, 1 <= q <= n -> q <> lock_pgno ps -> page_bytes ps image' q = page_bytes ps image q)
  /\ apply_sums [] n (cut_pages ps image (seqZ 1 n)) = image_sums ps n image.
Proof.
  intros Hps Hlk Hn Hl. cbv zeta. pose proof (snapshot_delta ps n image Hps Hl) as Hd.
  split; [by apply (len_apply_image 0)|].
  assert (forall q, 1 <= q <= n -> q <> lock_pgno ps ->
    page_bytes ps (apply_image ps n [] (cut_pages ps image (seqZ 1 n))) q = page_bytes ps image q) as Hp.
  { intros q Hq Hnl. destruct (apply_image_page 0 ps n _ [] q Hd Hps eq_refl Hq Hnl) as [-> _]. by rewrite page_of_cut. }
  split; [done|]. change [] with (image_sums ps 0 []) at 1. rewrite (image_sums_apply 0) by done.
  unfold image_sums. apply map_ext_in. intros q Hq%list_elem_of_In%elem_of_seqZ. unfold page_sum.
  destruct (Z.eqb_spec q (lock_pgno ps)); [done|]. rewrite Hp by (done || lia). done.
Qed.

(** Applying a decodable snapshot of an image to the empty state. *)
Lemma materialize_snapshot lim bytes d h ps n image :
  decode_all (decoder_new bytes) = Ok (d, cut_pages ps image (seqZ 1 n)) -> dheader d = h ->
  Header.page_size h = ps -> Header.commit h = n -> Header.min_txid h = 1 -> Header.pre_apply_checksum h = 0 ->
  header_validate h = Ok tt -> no_checksum h = false -> ps * n <= max_database_bytes lim -> 1 <= n < u32_max ->
  len image = n * ps -> Trailer.post_apply_checksum (dtrailer d) = sums_checksum (image_sums ps n image) ->
  len bytes <= max_file_bytes lim ->
  exists st, materialize_apply materialization_default bytes
      (from_inspected (MkDecoded h (dtrailer d)) (len bytes) (blake3 bytes)) lim = Ok st
    /\ Mat.image st = apply_image ps n [] (cut_pages ps image (seqZ 1 n)) /\ Mat.page_size st = ps
    /\ Mat.position st = Pos.Mk (Header.max_txid h) (Trailer.post_apply_checksum (dtrailer d)).
Proof.
  intros Ha Hh Hps Hn Hmin Hpre Hv Hnc Hdb Hnb Hl Hpost Hfile. unfold decode_all in Ha.
  apply bind_Ok in Ha as (d1 & E1 & Ha). apply bind_Ok in Ha as ([d2 pages] & E2 & Ha).
  apply bind_Ok in Ha as (d3 & E3 & Ha). apply Ok_inj in Ha. injection Ha as -> ->.
  destruct (decode_steps bytes d1 d2 d _ E1 E2 E3) as (_ & Har & Eh & _). rewrite Hh in Eh.
  pose proof (header_validate_page_size _ Hv) as Hvp. rewrite Hps in Hvp. pose proof (page_size_bounds _ Hvp) as [Hpb Hlb].
  destruct (snapshot_image ps n image) as (Hil & Hip & Hs); [lia..|done|].
  pose proof (snapshot_delta ps n image ltac:(lia) Hl) as Hd.
  destruct (apply_iter_complete pages_default [] [] [] ps n _ (max_database_bytes lim)
    (describes_default [] (lock_pgno ps) ltac:(lia)) Hvp Hnb Hdb Hd) as (sums & Hit & D).
  rewrite Hs in D. unfold apply_iter in Hit. apply bind_Ok in Hit as (a & Hb & (a1 & Hap & Hfin)%bind_Ok).
  assert (write_pages (resize (Z.to_nat (n * ps)) x00 []) ps (cut_pages ps image (seqZ 1 n))
    = Ok (apply_image ps n [] (cut_pages ps image (seqZ 1 n)))) as Hw.
  { unfold apply_image. apply write_pages_ok; [lia| |unfold len; rewrite length_resize; unfold u64_max, u32_max in *; nia].
    eapply delta_writes; [exact Hd|lia|unfold len; rewrite length_resize; lia]. }
  rewrite <- Eh, Hps in E2. pose proof (materialize_pages_run _ _ _ _ _ _ _ _ _ E2 Hap Hw) as Hm.
  unfold materialize_apply. cbn [Segment.size_bytes from_inspected].
  rewrite (proj2 (Z.ltb_ge _ _) Hfile), Z.eqb_refl, E1. cbn [negb mbind result_bind]. rewrite <- Eh.
  unfold validate_header. rewrite Hv, Hnc, Hn, Hps, (proj2 (Z.ltb_ge _ _)) by lia.
  cbn [mbind result_bind Mat.position materialization_default Pos.txid Pos.checksum Mat.page_size Mat.image Mat.checksums].
  rewrite Hmin, Hpre. cbn [checked_add_u64]. change (checked_add_u64 0 1) with (Some 1). cbn [ok_or mbind result_bind Z.eqb negb andb].
  change (1 =? 1) with true. change (0 =? 0) with true. cbn [negb andb].
  unfold checked_mul_u64. rewrite (proj2 (Z.leb_le _ _)) by (unfold u64_max, u32_max in *; nia). cbn [ok_or mbind result_bind].
  rewrite Hb. cbn [mbind result_bind]. rewrite Hm. cbn [mbind result_bind]. rewrite Hfin. cbn [mbind result_bind].
  rewrite E3. cbn [mbind result_bind]. rewrite Har. cbn [mbind result_bind file_trailer].
  assert (pages_checksum sums = sums_checksum (image_sums ps n image)) as -> by apply (d_checksum _ _ _ _ _ D).
  rewrite Hpost, Z.eqb_refl, Z.eqb_refl, bool_decide_eq_false_2 by (intros Hx; by apply Hx). cbn [negb orb].
  eexists. split; [done|]. done.
Qed.

(** The first segment of a plan starts at the empty database. *)
Lemma first_segment segments target lim plan files n st first :
  verified segments target lim plan files n st -> head (infos plan) = Some first ->
  Segment.min_txid first = 1 /\ Segment.pre_checksum first = 0.
Proof.
  intros V. rewrite (v_plan _ _ _ _ _ _ _ V). cbn [infos]. destruct (v_files _ _ _ _ _ _ _ V) as [|s [f pages] segments files Hs Hf]; [done|].
  intros [= <-]. pose proof (v_chain _ _ _ _ _ _ _ V) as (Hm & Hp & _). destruct Hs as (bytes & _ & _ & ->). cbn in *. done.
Qed.

(** What a successful compaction wrote. *)
Lemma compact_encoded segments target lim plan files n st stored bytes i :
  verified segments target lim plan files n st -> (forall b, stored b = b) ->
  compact_to_file plan stored = Ok (bytes, i) ->
  let ps := Mat.page_size st in
  let pages := cut_pages ps (Mat.image st) (seqZ 1 n) in
  exists h e, encode_file h pages (Pos.checksum target) = Ok e /\ bytes = writer e /\ eheader e = h
    /\ h = Header.Mk VERSION 0 ps n 1 (Pos.txid target) (Mat.timestamp st) 0 0 0 0 0 0
    /\ i = from_inspected (MkDecoded h (etrailer e)) (len bytes) (blake3 bytes)
    /\ len bytes <= max_file_bytes lim /\ segment_position i = target.
Proof.
  intros V Hst Hk. cbv zeta. unfold compact_to_file in Hk.
  apply bind_Ok in Hk as (first & Hf%ok_or_Ok & Hk). apply bind_Ok in Hk as (lst & Hl%ok_or_Ok & Hk).
  destruct (first_segment _ _ _ _ _ _ _ _ V Hf) as [Hmin Hpre].
  apply reject_Ok in Hk as [_ Hk]. apply reject_Ok in Hk as [_ Hk]. rewrite (v_plan _ _ _ _ _ _ _ V) in Hk.
  cbn [materialized Materialized.image Materialized.page_size Materialized.database_pages Materialized.position limits] in Hk.
  apply bind_Ok in Hk as (e0 & He0 & Hk). apply bind_Ok in Hk as (e1 & He1 & Hk). apply bind_Ok in Hk as (e & He & Hk).
  apply bind_Ok in Hk as ([] & Hsz & Hk). unfold check_size in Hsz. apply reject_Ok in Hsz as [Hsz _]. guards_in Hsz.
  rewrite !Hst in Hk. apply reject_Ok in Hk as [_ Hk]. apply reject_Ok in Hk as [Hg Hk].
  apply Ok_inj in Hk. injection Hk as <- <-.
  pose proof (v_live _ _ _ _ _ _ _ V) as L. pose proof (page_size_bounds _ (l_size _ _ _ _ L)) as [Hpb _].
  apply encode_image_Ok in He1; [|lia]. rewrite (v_position _ _ _ _ _ _ _ V) in *.
  repeat (apply orb_false_iff in Hg as [Hg ?]).
  assert (segment_position (from_inspected (MkDecoded (eheader e) (etrailer e)) (len (writer e)) (blake3 (writer e))) = target) as Hpos
    by (match goal with Hx : bool_decide _ = false |- _ => by apply bool_decide_eq_false, dec_stable in Hx end).
  assert (encode_file (compaction_header _ first lst) _ (Pos.checksum target) = Ok e) as Hfile
    by (unfold encode_file; rewrite He0; cbn [mbind result_bind]; rewrite He1; exact He).
  assert (eheader e = compaction_header (Materialized.Mk (Mat.image st) (Mat.checksums st) (Mat.page_size st) n target (Mat.timestamp st)) first lst) as Hh.
  { apply encoder_close_Ok in He as (_ & _ & _ & _ & -> & _). apply encode_pages_writer in He1 as [-> _].
    unfold encode_header in He0. apply reject_Ok in He0 as [_ He0]. apply bind_Ok in He0 as ([] & _ & He0%Ok_inj). by subst e0. }
  rewrite Hh in Hpos. eexists _, e. split; [exact Hfile|]. split; [done|]. split; [done|]. split.
  - pose proof Hpos as Hp2. unfold segment_position in Hp2. cbn in Hp2. unfold compaction_header. rewrite Hmin, Hpre. rewrite <- Hp2 at 4. done.
  - rewrite Hh. done.
Qed.

Lemma limits_validate_Ok lim :
  limits_validate lim = Ok lim ->
  max_file_bytes lim <= max_plan_bytes lim /\ max_plan_bytes lim <= u64_max / 8.
Proof. intros [Hg _]%reject_Ok. guards_in Hg. destruct Hg as [[[[[[[H1' H2'] H3'] H4'] H5'] H6'] H7'] H8']. lia. Qed.

(** A plan of one file. *)
Lemma with_host_one read name i lim bytes st target :
  limits_validate lim = Ok lim -> 1 <= max_segments lim -> read name (Segment.size_bytes i) = Ok bytes ->
  0 <= Segment.size_bytes i <= max_file_bytes lim -> materialize_apply materialization_default bytes i lim = Ok st ->
  Mat.position st = target -> Mat.page_size st <> 0 -> len (Mat.image st) / Mat.page_size st <= u32_max ->
  with_host read [MkLocal name i] target lim
  = Ok (MkPlan [i] (Materialized.Mk (Mat.image st) (Mat.checksums st) (Mat.page_size st)
         (len (Mat.image st) / Mat.page_size st) (Mat.position st) (Mat.timestamp st)) lim).
Proof.
  intros Hv Hms Hr Hsz Hm Hp Hps Hn. pose proof (limits_validate_Ok _ Hv) as [Hl1 Hl2]. unfold with_host. rewrite Hv.
  cbn [mbind result_bind]. rewrite bool_decide_eq_false_2 by done. rewrite (proj2 (Z.ltb_ge _ _)) by (rewrite len_cons, len_nil; lia).
  cbn [apply_segments path info]. unfold checked_add_u64. rewrite Z.add_0_l.
  assert (u64_max / 8 <= u64_max) by (unfold u64_max; apply Z.div_le_upper_bound; lia).
  rewrite (proj2 (Z.leb_le _ _)) by lia. cbn [ok_or mbind result_bind].
  rewrite !(proj2 (Z.ltb_ge _ _)) by lia. cbn [orb]. rewrite Hr. cbn [mbind result_bind]. rewrite Hm. cbn [mbind result_bind].
  unfold materialize_finish. rewrite bool_decide_eq_false_2 by (intros Hx; by apply Hx). rewrite (proj2 (Z.eqb_neq _ _)) by done.
  cbn [orb]. rewrite (proj2 (Z.ltb_ge _ _)) by lia. done.
Qed.

(** C10: compaction is exact. When a verified plan is compacted (the file system
    returning what was written), the one file produced is a complete snapshot that
    verifies as a plan of its own, with the same limits, to the same position, page
    size and number of pages, and to the same bytes of every page but the lock page,
    which no segment carries. The limits are assumed to exclude databases of 2^32 - 1
    pages or more. The encoder, the LZ4 compressor, the decoder and the checksum index
    all take part. *)
Theorem compaction_exact segments target lim plan stored bytes i read name :
  bounded lim -> with_host host_read segments target lim = Ok plan -> (forall b, stored b = b) ->
  compact_to_file plan stored = Ok (bytes, i) -> read name (Segment.size_bytes i) = Ok bytes ->
  let m := materialized plan in
  exists plan', with_host read [MkLocal name i] target lim = Ok plan' /\
    let m' := materialized plan' in
    Materialized.page_size m' = Materialized.page_size m
    /\ Materialized.database_pages m' = Materialized.database_pages m
    /\ Materialized.position m' = Materialized.position m
    /\ forall q, 1 <= q <= Materialized.database_pages m -> q <> lock_pgno (Materialized.page_size m) ->
         page_bytes (Materialized.page_size m) (Materialized.image m') q
         = page_bytes (Materialized.page_size m) (Materialized.image m) q.
Proof.
  intros Hb Hk Hst Hc Hr. destruct (with_host_Ok _ _ _ _ Hb Hk) as (files & n & st & V).
  destruct (compact_encoded _ _ _ _ _ _ _ _ _ _ V Hst Hc) as (h & e & He & -> & Hh & Ehd & Ei & Hsz & Hpos).
  pose proof (v_live _ _ _ _ _ _ _ V) as L. pose proof (v_position _ _ _ _ _ _ _ V) as Hpt.
  pose proof (page_size_bounds _ (l_size _ _ _ _ L)) as [Hpb Hlb]. pose proof (l_pages _ _ _ _ L) as Hn.
  pose proof (l_checksum _ _ _ _ L) as Hck. rewrite Hpt in Hck.
  pose proof (limits_validate_Ok _ (v_limits _ _ _ _ _ _ _ V)) as [Hl1 Hl2].
  assert (u64_max / 8 <= u64_max) by (unfold u64_max; apply Z.div_le_upper_bound; lia).
  assert (u64_ok (Pos.checksum target)) as Hcu by (rewrite Hck, sums_checksum_xor; apply lor_flag_u64, xor_all_u64;
    eapply Forall_impl; [apply (d_stored _ _ _ _ _ (l_sums _ _ _ _ L))|by intros ? []]).
  destruct (l_widths _ _ _ _ L) as [Hts Htx]. rewrite Hpt in Htx.
  edestruct (decode_all_encoded h) as (d & Hd & _ & Hdh & Hdt & _); [|exact Hcu|exact He| | |].
  { rewrite Ehd. constructor; cbn; unfold u32_ok, u64_ok, i64_ok, u32_max, u64_max, i64_min, i64_max in *; try lia; done. }
  { lia. }
  { intros _. rewrite snapshot_checksum_cut, map_fst_cut, Ehd. cbn. split; [|done].
    change (List.filter _ _) with (page_range (lock_pgno (Mat.page_size st)) 1 n). rewrite last_page_range by lia. cbn.
    unfold last_snapshot_page. cbn. done. }
  pose proof (encode_file_Ok _ _ _ _ He) as (e1 & Hval & _ & _ & _ & Htr & _).
  destruct (materialize_snapshot lim (writer e) d h (Mat.page_size st) n (Mat.image st) Hd Hdh)
    as (st' & Hm & Him & Hps' & Hpos'); try (rewrite Ehd; done); try done; try apply L.
  { rewrite Hdt, Htr. cbn. exact Hck. }
  rewrite Hdt, <- Ei in Hm. rewrite Hdt in Hpos'.
  destruct (snapshot_image (Mat.page_size st) n (Mat.image st)) as (Hil & Hip & _); [lia..|apply L|].
  assert (len (Mat.image st') / Mat.page_size st' = n) as En by (rewrite Him, Hps', Hil; apply Z.div_mul; lia).
  eexists. split; [apply (with_host_one read name i lim (writer e) st'); try done|].
  - apply V.
  - pose proof (v_count _ _ _ _ _ _ _ V). lia.
  - rewrite Ei. cbn. pose proof (len_nonneg (writer e)). lia.
  - rewrite Hpos', <- Hpos, Ei. done.
  - rewrite Hps'. lia.
  - rewrite En. lia.
  - rewrite (v_plan _ _ _ _ _ _ _ V). cbn. rewrite En, Hps', Hpt, Him. split_and!; try done.
    rewrite Hpos', <- Hpos, Ei. done.
Qed.
End RecoveryProofs.

(** * Witnesses

    A snapshot of two pages and a delta that rewrites the second. *)
Import Concrete.

Definition delta_pages : list (Z * list byte) := [(2, page1)].
Definition delta_post : Z := snapshot_checksum [(1, page1); (2, page1)].
Definition delta_header : Header :=
  Header.Mk VERSION 0 512 2 2 3 1700000000001 (snapshot_checksum pages) 0 0 0 0 7.
Definition delta : Encoder := encoder_of (encode_file delta_header delta_pages delta_post).

Definition describe (e : Encoder) : SegmentInfo :=
  from_inspected (MkDecoded (eheader e) (etrailer e)) (len (writer e)) (blake3 (writer e)).
Definition disk (name : string) (size : Z) : LtxResult (list byte) :=
  if bool_decide (name = "snapshot") then Ok (writer encoded)
  else if bool_decide (name = "delta") then Ok (writer delta) else Err LtxErr.Io.
Definition segments : list LocalSegment :=
  [MkLocal "snapshot" (describe encoded); MkLocal "delta" (describe delta)].
Definition target : Position := Pos.Mk 3 delta_post.
Definition plan_of (r : LtxResult VerifiedPlan) : VerifiedPlan :=
  match r with
  | Ok p => p
  | Err _ => MkPlan [] (Materialized.Mk [] pages_default 0 0 (Pos.Mk 0 0) 0) limits_default
  end.
Definition plan : VerifiedPlan := plan_of (with_host disk segments target limits_default).

Lemma plan_ok : with_host disk segments target limits_default = Ok plan.
Proof. by vm_compute. Qed.
Lemma plan_shape : Materialized.page_size (materialized plan) = 512 /\ Materialized.database_pages (materialized plan) = 2.
Proof. by vm_compute. Qed.

Lemma plan_sound_witness :
  sums_checksum (image_sums 512 2 (Materialized.image (materialized plan))) = Pos.checksum target
  /\ page_bytes 512 (Materialized.image (materialized plan)) 2 = page1.
Proof.
  destruct (plan_sound disk segments target limits_default plan) as (files & _ & _ & _ & _ & _ & _ & _ & Hc).
  - unfold bounded. vm_compute. reflexivity.
  - exact plan_ok.
  - split; [|by vm_compute]. destruct plan_shape as [Hp Hn]. cbv zeta in Hc. rewrite Hp, Hn in Hc. exact Hc.
Defined.

Definition file_of (r : LtxResult (list byte * SegmentInfo)) : list byte * SegmentInfo :=
  match r with Ok c => c | Err _ => ([], describe encoded) end.
Definition compacted_file : list byte * SegmentInfo := file_of (compact_to_file plan (fun b => b)).

Lemma compacted_ok : compact_to_file plan (fun b => b) = Ok (fst compacted_file, snd compacted_file).
Proof. by vm_compute. Qed.

Lemma compaction_exact_witness :
  exists plan', with_host (fun _ _ => Ok (fst compacted_file)) [MkLocal "compacted" (snd compacted_file)] target limits_default
                = Ok plan'
    /\ page_bytes 512 (Materialized.image (materialized plan')) 2
       = page_bytes 512 (Materialized.image (materialized plan)) 2.
Proof.
  destruct (compaction_exact disk segments target limits_default plan (fun b => b) (fst compacted_file) (snd compacted_file)
    (fun _ _ => Ok (fst compacted_file)) "compacted") as (plan' & Hp & _ & _ & _ & Hq).
  - unfold bounded. vm_compute. reflexivity.
  - exact plan_ok.
  - reflexivity.
  - exact compacted_ok.
  - reflexivity.
  - exists plan'. split; [exact Hp|]. destruct plan_shape as [Hs Hn]. rewrite Hs, Hn in Hq. apply Hq; [lia|]. by vm_compute.
Defined.
