(* ===== verification/NodeFrame.v ===== *)
(** * NodeFrame: the envelope of a node-log frame

    Models [crates/cellule-ltx/src/node_frame.rs]: the scope and range a frame
    authenticates, [encode_node_frame_range], [inspect_node_frame] with its
    cursor-based readers, and [with_node_sequence], which patches an encoded frame
    in place. The body is verified with [verify_segment] of [Recovery].

    The theorems: inspecting is the exact inverse of encoding, so that a frame has
    one encoding and version two is never used for a range of one command; and
    assigning a sequence in place is encoding anew. *)

From Stdlib Require Import ZArith Lia.
From Stdlib Require Import Strings.Byte.
From stdpp Require Import base strings.
From stdpp Require Import list.
From S2P Require Import Prelude Bytes LtxTypes Ltx LtxCodec Pages Recovery.

Local Open Scope bool_scope.

(*@ cellule-ltx/src/node_frame.rs 7-7 MAGIC *)
Definition FRAME_MAGIC : list byte := ["C"; "N"; "L"; "1"]%byte.
(*@ cellule-ltx/src/node_frame.rs 8-8 VERSION *)
Definition FRAME_VERSION : Z := 1.
(*@ cellule-ltx/src/node_frame.rs 9-9 HEADER_BYTES *)
Definition HEADER_BYTES : Z := 240.
(*@ cellule-ltx/src/node_frame.rs 10-10 NODE_SEQUENCE_OFFSET *)
Definition NODE_SEQUENCE_OFFSET : Z := 32.
(*@ cellule-ltx/src/node_frame.rs 11-11 RANGE_VERSION *)
Definition RANGE_VERSION : Z := 2.
(*@ cellule-ltx/src/node_frame.rs 13-13 MAX_NODE_FRAME_HEADER_BYTES *)
Definition MAX_NODE_FRAME_HEADER_BYTES : Z := HEADER_BYTES + 8.
(*@ cellule-ltx/src/node_frame.rs 14-14 RANGE_HEADER_BYTES *)
Definition RANGE_HEADER_BYTES : Z := MAX_NODE_FRAME_HEADER_BYTES.

Module Scope.
(*@ cellule-ltx/src/node_frame.rs 18-35 NodeFrameScope *)
Record NodeFrameScope := Mk {
  leader_session : array 16;
  log_epoch : Z;
  node_sequence : Z;
  application : array 16;
  cell : array 32;
  incarnation : array 16;
  cell_epoch : Z;
  commit_sequence : Z
}.
End Scope.
Abbreviation NodeFrameScope := Scope.NodeFrameScope.

Module Frame.
(*@ cellule-ltx/src/node_frame.rs 43-49 VerifiedNodeFrame *)
Record VerifiedNodeFrame := Mk {
  scope : NodeFrameScope;
  first_commit_sequence : Z;
  segment : SegmentInfo;
  body : list byte;
  encoded : list byte
}.
End Frame.
Abbreviation VerifiedNodeFrame := Frame.VerifiedNodeFrame.

(*@ cellule-ltx/src/node_frame.rs 253-258 validate_range *)
Definition validate_range (first last : Z) : LtxResult unit :=
  if (first =? 0) || (last <? first) || (i64_max <? last)
  then Err (LtxErr.InvalidState "invalid node frame commit range") else Ok tt.

(*@ cellule-ltx/src/node_frame.rs 260-273 validate_scope *)
Definition validate_scope (s : NodeFrameScope) : LtxResult unit :=
  if all_zero (Scope.leader_session s) || all_zero (Scope.application s) || all_zero (Scope.cell s)
     || all_zero (Scope.incarnation s) || (Scope.log_epoch s =? 0) || (Scope.node_sequence s =? 0)
     || (Scope.cell_epoch s =? 0) || (Scope.commit_sequence s =? 0)
  then Err (LtxErr.InvalidState "invalid node frame scope") else Ok tt.

(** ** Writers and readers *)

(*@ cellule-ltx/src/node_frame.rs 282-284 push_u64 *)
Definition push_u64 (bytes : list byte) (v : Z) : list byte := bytes ++ to_le 8 v.

(*@ cellule-ltx/src/node_frame.rs 286-295 push_segment *)
Definition push_segment (bytes : list byte) (s : SegmentInfo) : list byte :=
  let bytes := push_u64 bytes (Segment.min_txid s) in
  let bytes := push_u64 bytes (Segment.max_txid s) in
  let bytes := bytes ++ to_le 4 (Segment.page_size s) in
  let bytes := bytes ++ to_le 4 (Segment.database_pages s) in
  let bytes := push_u64 bytes (Segment.pre_checksum s) in
  let bytes := push_u64 bytes (Segment.post_checksum s) in
  let bytes := push_u64 bytes (Segment.size_bytes s) in
  bytes ++ as_bytes (Segment.blake3 s).

(*@ cellule-ltx/src/node_frame.rs 322-331 take_array *)
Definition take_array (n : nat) (bytes : list byte) (cursor : Z) : LtxResult (array n * Z) :=
  ending ← ok_or (checked_add_u64 cursor (Z.of_nat n)) LtxErr.LTXCorrupted;
  value ← ok_or (slice bytes cursor ending) LtxErr.LTXCorrupted;
  value ← ok_or (array_of n value) LtxErr.LTXCorrupted;
  Ok (value, ending).

(*@ cellule-ltx/src/node_frame.rs 310-312 take_u16 *)
Definition take_u16 (bytes : list byte) (cursor : Z) : LtxResult (Z * Z) :=
  '(a, cursor) ← take_array 2 bytes cursor; Ok (from_le (as_bytes a), cursor).
(*@ cellule-ltx/src/node_frame.rs 314-316 take_u32 *)
Definition take_u32 (bytes : list byte) (cursor : Z) : LtxResult (Z * Z) :=
  '(a, cursor) ← take_array 4 bytes cursor; Ok (from_le (as_bytes a), cursor).
(*@ cellule-ltx/src/node_frame.rs 318-320 take_u64 *)
Definition take_u64 (bytes : list byte) (cursor : Z) : LtxResult (Z * Z) :=
  '(a, cursor) ← take_array 8 bytes cursor; Ok (from_le (as_bytes a), cursor).

(*@ cellule-ltx/src/node_frame.rs 297-308 take_segment *)
Definition take_segment (bytes : list byte) (cursor : Z) : LtxResult (SegmentInfo * Z) :=
  '(min_txid, cursor) ← take_u64 bytes cursor;
  '(max_txid, cursor) ← take_u64 bytes cursor;
  '(page_size, cursor) ← take_u32 bytes cursor;
  '(database_pages, cursor) ← take_u32 bytes cursor;
  '(pre_checksum, cursor) ← take_u64 bytes cursor;
  '(post_checksum, cursor) ← take_u64 bytes cursor;
  '(size_bytes, cursor) ← take_u64 bytes cursor;
  '(blake3, cursor) ← take_array 32 bytes cursor;
  Ok (Segment.Mk min_txid max_txid page_size database_pages pre_checksum post_checksum size_bytes blake3, cursor).

(** The scope is read field by field, in the order of the envelope. *)
(*@ cellule-ltx/src/node_frame.rs 207-216 inspect_node_frame *)
Definition take_scope (bytes : list byte) (cursor : Z) : LtxResult (NodeFrameScope * Z) :=
  '(leader_session, cursor) ← take_array 16 bytes cursor;
  '(log_epoch, cursor) ← take_u64 bytes cursor;
  '(node_sequence, cursor) ← take_u64 bytes cursor;
  '(application, cursor) ← take_array 16 bytes cursor;
  '(cell, cursor) ← take_array 32 bytes cursor;
  '(incarnation, cursor) ← take_array 16 bytes cursor;
  '(cell_epoch, cursor) ← take_u64 bytes cursor;
  '(commit_sequence, cursor) ← take_u64 bytes cursor;
  Ok (Scope.Mk leader_session log_epoch node_sequence application cell incarnation cell_epoch commit_sequence, cursor).

Section Frames.
Context `{Crc64, Blake3, Lz4Flex}.

(*@ cellule-ltx/src/node_frame.rs 275-280 validate_body *)
Definition validate_body (body : list byte) (s : SegmentInfo) (lim : Limits) : LtxResult unit :=
  if max_capture_bytes lim <? len body then Err (LtxErr.Limit Limit.NodeFrameBody)
  else verify_segment body s lim.

(** The envelope up to the body. *)
(*@ cellule-ltx/src/node_frame.rs 151-178 encode_node_frame_range *)
Definition envelope (s : NodeFrameScope) (first : Z) (seg : SegmentInfo) (body_len : Z) : list byte :=
  let ranged := negb (first =? Scope.commit_sequence s) in
  let header_bytes := if ranged then RANGE_HEADER_BYTES else HEADER_BYTES in
  let version := if ranged then RANGE_VERSION else FRAME_VERSION in
  let e := FRAME_MAGIC ++ to_le 2 version ++ to_le 2 header_bytes in
  let e := e ++ as_bytes (Scope.leader_session s) in
  let e := push_u64 e (Scope.log_epoch s) in
  let e := push_u64 e (Scope.node_sequence s) in
  let e := e ++ as_bytes (Scope.application s) in
  let e := e ++ as_bytes (Scope.cell s) in
  let e := e ++ as_bytes (Scope.incarnation s) in
  let e := push_u64 e (Scope.cell_epoch s) in
  let e := push_u64 e (Scope.commit_sequence s) in
  let e := push_segment e seg in
  let e := push_u64 e body_len in
  let e := e ++ as_bytes (Segment.blake3 seg) in
  if ranged then push_u64 e first else e.

(*@ cellule-ltx/src/node_frame.rs 141-191 encode_node_frame_range *)
Definition encode_node_frame_range (s : NodeFrameScope) (first : Z) (seg : SegmentInfo) (body : list byte) (lim : Limits)
  : LtxResult VerifiedNodeFrame :=
  _ ← validate_scope s;
  _ ← validate_range first (Scope.commit_sequence s);
  _ ← validate_body body seg lim;
  let ranged := negb (first =? Scope.commit_sequence s) in
  let header_bytes := if ranged then RANGE_HEADER_BYTES else HEADER_BYTES in
  _ ← ok_or (checked_add_u64 header_bytes (len body)) (LtxErr.Limit Limit.NodeFrameBytes);
  let encoded := envelope s first seg (len body) ++ body in
  Ok (Frame.Mk s first seg (drop (Z.to_nat header_bytes) encoded) encoded).

(*@ cellule-ltx/src/node_frame.rs 126-133 encode_node_frame *)
Definition encode_node_frame (s : NodeFrameScope) (seg : SegmentInfo) (body : list byte) (lim : Limits) :=
  encode_node_frame_range s (Scope.commit_sequence s) seg body lim.

(*@ cellule-ltx/src/node_frame.rs 194-251 inspect_node_frame *)
Definition inspect_node_frame (encoded : list byte) (lim : Limits) : LtxResult VerifiedNodeFrame :=
  if (len encoded <? HEADER_BYTES) || bool_decide (take 4 encoded <> FRAME_MAGIC) then Err LtxErr.LTXCorrupted
  else
    let cursor := 4 in
    '(version, cursor) ← take_u16 encoded cursor;
    '(header_bytes, cursor) ← take_u16 encoded cursor;
    if negb (((version =? FRAME_VERSION) && (header_bytes =? HEADER_BYTES))
             || ((version =? RANGE_VERSION) && (header_bytes =? RANGE_HEADER_BYTES)))
    then Err LtxErr.LTXCorrupted
    else
      '(s, cursor) ← take_scope encoded cursor;
      '(seg, cursor) ← take_segment encoded cursor;
      '(body_len, cursor) ← take_u64 encoded cursor;
      '(body_digest, cursor) ← take_array 32 encoded cursor;
      '(first, cursor) ←
        (if version =? RANGE_VERSION then
           '(first, cursor) ← take_u64 encoded cursor;
           if first =? Scope.commit_sequence s then Err LtxErr.LTXCorrupted else Ok (first, cursor)
         else Ok (Scope.commit_sequence s, cursor));
      _ ← validate_range first (Scope.commit_sequence s);
      if negb (cursor =? header_bytes) || negb (body_len =? Segment.size_bytes seg)
         || (max_capture_bytes lim <? body_len) || (u64_max <? body_len)
         || negb (len encoded =? saturating_add_u64 header_bytes body_len)
      then Err (LtxErr.Limit Limit.NodeFrameBytes)
      else
        _ ← validate_scope s;
        let body := drop (Z.to_nat header_bytes) encoded in
        if bool_decide (body_digest <> Segment.blake3 seg) || bool_decide (body_digest <> blake3 body)
        then Err LtxErr.ChecksumMismatch
        else
          _ ← validate_body body seg lim;
          Ok (Frame.Mk s first seg body encoded).

Definition set_sequence (s : NodeFrameScope) (n : Z) : NodeFrameScope :=
  Scope.Mk (Scope.leader_session s) (Scope.log_epoch s) n (Scope.application s) (Scope.cell s)
    (Scope.incarnation s) (Scope.cell_epoch s) (Scope.commit_sequence s).

(** The bytes are patched in place or in a copy; a frame shorter than the patched
    field would panic. *)
(*@ cellule-ltx/src/node_frame.rs 58-84 VerifiedNodeFrame::with_node_sequence *)
Definition with_node_sequence (f : VerifiedNodeFrame) (n : Z) : LtxResult VerifiedNodeFrame :=
  let s := set_sequence (Frame.scope f) n in
  _ ← validate_scope s;
  let header_bytes := len (Frame.encoded f) - len (Frame.body f) in
  if len (Frame.encoded f) <? NODE_SEQUENCE_OFFSET + 8 then Err LtxErr.Panic
  else
    let encoded := take (Z.to_nat NODE_SEQUENCE_OFFSET) (Frame.encoded f) ++ to_le 8 n
                   ++ drop (Z.to_nat (NODE_SEQUENCE_OFFSET + 8)) (Frame.encoded f) in
    Ok (Frame.Mk s (Frame.first_commit_sequence f) (Frame.segment f)
          (drop (Z.to_nat header_bytes) encoded) encoded).

(*@ cellule-ltx/src/node_frame.rs 120-122 VerifiedNodeFrame::digest *)
Definition frame_digest (f : VerifiedNodeFrame) : array 32 := blake3 (Frame.encoded f).
End Frames.

(** * Proofs *)

(** ** Cursors

    The bytes [bs] stand between the cursors [c] and [c']. *)
Definition reads (bytes : list byte) (c : Z) (bs : list byte) (c' : Z) : Prop :=
  0 <= c /\ c' = c + len bs /\ c' <= u64_max /\ slice bytes c c' = Some bs.

Lemma reads_join bytes a b c x y : reads bytes a x b -> reads bytes b y c -> reads bytes a (x ++ y) c.
Proof.
  intros (Ha & -> & Hu & Hx) (Hb & -> & Hu' & Hy). split_and!; [done| |done|].
  - rewrite len_app. lia.
  - by eapply slice_join.
Qed.

Lemma reads_split bytes a c x y :
  reads bytes a (x ++ y) c -> reads bytes a x (a + len x) /\ reads bytes (a + len x) y c.
Proof.
  intros (Ha & -> & Hu & Hs). rewrite len_app in *. pose proof (len_nonneg x). pose proof (len_nonneg y).
  destruct (slice_split _ _ _ _ Hs) as (l1 & l2 & -> & Hl).
  split; (split_and!; [lia|lia|lia|]).
  - rewrite <- app_assoc. apply slice_app; lia.
  - rewrite <- app_assoc, (app_assoc l1). apply slice_app; rewrite ?len_app; lia.
Qed.

Lemma reads_nonneg bytes a x b : reads bytes a x b -> 0 <= a /\ 0 <= b.
Proof. intros (Ha & -> & _). pose proof (len_nonneg x). lia. Qed.

Lemma reads_end bytes a x b : reads bytes a x b -> 0 <= b.
Proof. intros Hr. apply (reads_nonneg _ _ _ _ Hr). Qed.

Lemma reads_fun bytes a x b y c : reads bytes a x b -> reads bytes a y c -> len x = len y -> x = y.
Proof. intros (_ & -> & _ & Hx) (_ & -> & _ & Hy) E. rewrite E in Hx. congruence. Qed.

Lemma take_array_reads n bytes c a c' : 0 <= c -> take_array n bytes c = Ok (a, c') <-> reads bytes c (as_bytes a) c'.
Proof.
  intros Hc. unfold take_array, reads. rewrite len_array. split.
  - intros (e & [-> Hu]%ok_or_Ok%checked_add_u64_Some & (v & Hs%ok_or_Ok & (a' & Ha%ok_or_Ok & Hk)%bind_Ok)%bind_Ok)%bind_Ok.
    apply Ok_inj in Hk. injection Hk as -> <-. apply array_of_Some in Ha. subst v. split_and!; done || lia.
  - intros (_ & -> & Hu & Hs). unfold checked_add_u64. rewrite (proj2 (Z.leb_le _ _) Hu). cbn [ok_or mbind result_bind].
    rewrite Hs. cbn [ok_or mbind result_bind]. by rewrite array_of_as_bytes.
Qed.

Lemma take_word_reads n bytes c v c' :
  0 <= c ->
  ('(a, cursor) ← take_array n bytes c; Ok (from_le (as_bytes a), cursor)) = Ok (v, c')
  <-> 0 <= v < 256 ^ Z.of_nat n /\ reads bytes c (to_le n v) c'.
Proof.
  intros Hc. split.
  - intros ([a c1] & Ha%take_array_reads & Hk)%bind_Ok; [|done]. apply Ok_inj in Hk. injection Hk as <- <-.
    pose proof (from_le_bound (as_bytes a)) as Hb. pose proof (to_from_le (as_bytes a)) as Ht.
    rewrite as_bytes_length in Hb, Ht. rewrite Ht. done.
  - intros [Hv Hr]. assert (exists a, array_of n (to_le n v) = Some a) as [a Ha].
    { unfold array_of. case_decide as Hd; [by eexists|]. destruct Hd. apply length_to_le. }
    pose proof (array_of_Some _ _ _ Ha) as Hb. rewrite <- Hb in Hr. apply take_array_reads in Hr; [|done].
    rewrite Hr. cbn [mbind result_bind]. by rewrite Hb, from_to_le_small.
Qed.

Lemma take_u16_reads bytes c v c' : 0 <= c -> take_u16 bytes c = Ok (v, c') <-> 0 <= v < 65536 /\ reads bytes c (to_le 2 v) c'.
Proof. apply take_word_reads. Qed.
Lemma take_u32_reads bytes c v c' : 0 <= c -> take_u32 bytes c = Ok (v, c') <-> u32_ok v /\ reads bytes c (to_le 4 v) c'.
Proof.
  intros Hc. unfold take_u32. rewrite take_word_reads by done. change (256 ^ Z.of_nat 4) with 4294967296.
  unfold u32_ok, u32_max. by assert (0 <= v < 4294967296 <-> 0 <= v <= 4294967295) as -> by lia.
Qed.
Lemma take_u64_reads bytes c v c' : 0 <= c -> take_u64 bytes c = Ok (v, c') <-> u64_ok v /\ reads bytes c (to_le 8 v) c'.
Proof.
  intros Hc. unfold take_u64. rewrite take_word_reads by done. change (256 ^ Z.of_nat 8) with 18446744073709551616.
  unfold u64_ok, u64_max. by assert (0 <= v < 18446744073709551616 <-> 0 <= v <= 18446744073709551615) as -> by lia.
Qed.

(** ** Structures *)

Definition segment_bytes (s : SegmentInfo) : list byte :=
  to_le 8 (Segment.min_txid s) ++ to_le 8 (Segment.max_txid s) ++ to_le 4 (Segment.page_size s)
  ++ to_le 4 (Segment.database_pages s) ++ to_le 8 (Segment.pre_checksum s) ++ to_le 8 (Segment.post_checksum s)
  ++ to_le 8 (Segment.size_bytes s) ++ as_bytes (Segment.blake3 s).

Record segment_widths (s : SegmentInfo) : Prop := {
  sw_min : u64_ok (Segment.min_txid s);
  sw_max : u64_ok (Segment.max_txid s);
  sw_page_size : u32_ok (Segment.page_size s);
  sw_pages : u32_ok (Segment.database_pages s);
  sw_pre : u64_ok (Segment.pre_checksum s);
  sw_post : u64_ok (Segment.post_checksum s);
  sw_size : u64_ok (Segment.size_bytes s)
}.

Definition scope_bytes (s : NodeFrameScope) : list byte :=
  as_bytes (Scope.leader_session s) ++ to_le 8 (Scope.log_epoch s) ++ to_le 8 (Scope.node_sequence s)
  ++ as_bytes (Scope.application s) ++ as_bytes (Scope.cell s) ++ as_bytes (Scope.incarnation s)
  ++ to_le 8 (Scope.cell_epoch s) ++ to_le 8 (Scope.commit_sequence s).

Record scope_widths (s : NodeFrameScope) : Prop := {
  cw_epoch : u64_ok (Scope.log_epoch s);
  cw_sequence : u64_ok (Scope.node_sequence s);
  cw_cell_epoch : u64_ok (Scope.cell_epoch s);
  cw_commit : u64_ok (Scope.commit_sequence s)
}.

(** One field of a reader, in each direction. *)
Ltac take_field H :=
  let v := fresh "v" in let c := fresh "c" in let R := fresh "R" in
  apply bind_Ok in H as ([v c] & R & H);
  first [ apply take_u64_reads in R as [? R] | apply take_u32_reads in R as [? R]
        | apply take_u16_reads in R as [? R] | apply take_array_reads in R ];
  [|by eauto using reads_end..].
Ltac join_reads := repeat (eapply reads_join; [eassumption|]); eassumption.
Lemma take_array_ok n bytes c a c' : reads bytes c (as_bytes a) c' -> take_array n bytes c = Ok (a, c').
Proof. intros Hr. apply take_array_reads; [apply Hr|done]. Qed.
Lemma take_u64_ok bytes c v c' : reads bytes c (to_le 8 v) c' -> u64_ok v -> take_u64 bytes c = Ok (v, c').
Proof. intros Hr Hv. apply take_u64_reads; [apply Hr|done]. Qed.
Lemma take_u32_ok bytes c v c' : reads bytes c (to_le 4 v) c' -> u32_ok v -> take_u32 bytes c = Ok (v, c').
Proof. intros Hr Hv. apply take_u32_reads; [apply Hr|done]. Qed.
Lemma take_u16_ok bytes c v c' : reads bytes c (to_le 2 v) c' -> 0 <= v < 65536 -> take_u16 bytes c = Ok (v, c').
Proof. intros Hr Hv. apply take_u16_reads; [apply Hr|done]. Qed.
#[local] Opaque to_le.
Ltac give_field H :=
  let R := fresh "R" in
  first [ apply reads_split in H as [R H] | rename H into R ];
  first [ rewrite (take_array_ok _ _ _ _ _ R) | rewrite (take_u64_ok _ _ _ _ R) by assumption
        | rewrite (take_u32_ok _ _ _ _ R) by assumption ];
  cbn [mbind result_bind].

Lemma take_segment_reads bytes c s c' :
  0 <= c -> take_segment bytes c = Ok (s, c') <-> segment_widths s /\ reads bytes c (segment_bytes s) c'.
Proof.
  intros Hc. unfold take_segment. split.
  - intros Hk. do 8 take_field Hk. apply Ok_inj in Hk. injection Hk as <- <-. split; [by constructor|].
    unfold segment_bytes. cbn. join_reads.
  - intros [[] Hr]. destruct s. unfold segment_bytes in Hr.
    cbn [Segment.min_txid Segment.max_txid Segment.page_size Segment.database_pages Segment.pre_checksum Segment.post_checksum Segment.size_bytes Segment.blake3] in *. do 8 give_field Hr. done.
Qed.

Lemma take_scope_reads bytes c s c' :
  0 <= c -> take_scope bytes c = Ok (s, c') <-> scope_widths s /\ reads bytes c (scope_bytes s) c'.
Proof.
  intros Hc. unfold take_scope. split.
  - intros Hk. do 8 take_field Hk. apply Ok_inj in Hk. injection Hk as <- <-. split; [by constructor|].
    unfold scope_bytes. cbn. join_reads.
  - intros [[] Hr]. destruct s. unfold scope_bytes in Hr.
    cbn [Scope.leader_session Scope.log_epoch Scope.node_sequence Scope.application Scope.cell Scope.incarnation Scope.cell_epoch Scope.commit_sequence] in *. do 8 give_field Hr. done.
Qed.

(** ** The envelope *)

Section FrameProofs.
Context `{Crc64, Blake3, Lz4Flex}.

Definition is_ranged (s : NodeFrameScope) (first : Z) : bool := negb (first =? Scope.commit_sequence s).
Definition header_len (s : NodeFrameScope) (first : Z) : Z := if is_ranged s first then RANGE_HEADER_BYTES else HEADER_BYTES.
Definition version_of (s : NodeFrameScope) (first : Z) : Z := if is_ranged s first then RANGE_VERSION else FRAME_VERSION.
Definition range_bytes (s : NodeFrameScope) (first : Z) : list byte := if is_ranged s first then to_le 8 first else [].

Lemma envelope_eq s first seg n :
  envelope s first seg n
  = FRAME_MAGIC ++ to_le 2 (version_of s first) ++ to_le 2 (header_len s first) ++ scope_bytes s ++ segment_bytes seg
    ++ to_le 8 n ++ as_bytes (Segment.blake3 seg) ++ range_bytes s first.
Proof.
  unfold envelope, scope_bytes, segment_bytes, push_segment, push_u64, version_of, header_len, range_bytes, is_ranged.
  destruct (first =? Scope.commit_sequence s); cbn [negb]; rewrite <- !app_assoc; rewrite ?app_nil_r; done.
Qed.

Lemma len_scope_bytes s : len (scope_bytes s) = 112.
Proof. unfold scope_bytes. autorewrite with len. lia. Qed.
Lemma len_segment_bytes s : len (segment_bytes s) = 80.
Proof. unfold segment_bytes. autorewrite with len. lia. Qed.
Lemma len_range_bytes s first : len (range_bytes s first) = header_len s first - 240.
Proof. unfold range_bytes, header_len. destruct (is_ranged s first); [autorewrite with len|]; done. Qed.
Lemma len_envelope s first seg n : len (envelope s first seg n) = header_len s first.
Proof.
  rewrite envelope_eq, !len_app, len_scope_bytes, len_segment_bytes, !len_to_le, len_array, len_range_bytes.
  change (len FRAME_MAGIC) with 4. lia.
Qed.
Lemma header_len_bounds s first : 240 <= header_len s first <= 248.
Proof. unfold header_len, RANGE_HEADER_BYTES, MAX_NODE_FRAME_HEADER_BYTES, HEADER_BYTES. destruct (is_ranged s first); lia. Qed.

Lemma drop_envelope s first seg n body : drop (Z.to_nat (header_len s first)) (envelope s first seg n ++ body) = body.
Proof. apply drop_app_length'. pose proof (len_envelope s first seg n). unfold len in *. lia. Qed.

Lemma validate_body_Ok body seg lim :
  validate_body body seg lim = Ok tt ->
  len body <= max_capture_bytes lim /\ len body = Segment.size_bytes seg /\ blake3 body = Segment.blake3 seg.
Proof.
  unfold validate_body. intros [Hc Hv]%reject_Ok. guards_in Hc. unfold verify_segment in Hv.
  apply reject_Ok in Hv as [_ Hv]. apply reject_Ok in Hv as [Hg _]. apply orb_false_iff in Hg as [Hl Hb].
  guards_in Hl. apply bool_decide_eq_false, dec_stable in Hb. done.
Qed.

(** A well-formed frame: its parts pass every check and it is their encoding. *)
Record frame_ok (lim : Limits) (f : VerifiedNodeFrame) : Prop := {
  fo_scope : validate_scope (Frame.scope f) = Ok tt;
  fo_range : validate_range (Frame.first_commit_sequence f) (Scope.commit_sequence (Frame.scope f)) = Ok tt;
  fo_body : validate_body (Frame.body f) (Frame.segment f) lim = Ok tt;
  fo_fits : header_len (Frame.scope f) (Frame.first_commit_sequence f) + len (Frame.body f) <= u64_max;
  fo_encoded : Frame.encoded f
    = envelope (Frame.scope f) (Frame.first_commit_sequence f) (Frame.segment f) (len (Frame.body f)) ++ Frame.body f
}.

Lemma encode_frame_Ok s first seg body lim f :
  encode_node_frame_range s first seg body lim = Ok f <->
  frame_ok lim f /\ Frame.scope f = s /\ Frame.first_commit_sequence f = first /\ Frame.segment f = seg /\ Frame.body f = body.
Proof.
  unfold encode_node_frame_range. fold (is_ranged s first). fold (header_len s first). rewrite drop_envelope. split.
  - intros ([] & Hs & ([] & Hr & ([] & Hb & (c & [-> Hc]%ok_or_Ok%checked_add_u64_Some & Hk)%bind_Ok)%bind_Ok)%bind_Ok)%bind_Ok.
    apply Ok_inj in Hk. subst f. done.
  - intros ([Hs Hr Hb Hf He] & <- & <- & <- & <-). rewrite Hs, Hr, Hb. cbn [mbind result_bind].
    unfold checked_add_u64. rewrite (proj2 (Z.leb_le _ _) Hf). cbn [ok_or mbind result_bind]. rewrite <- He. by destruct f.
Qed.

(** The version decides whether the first command is read. *)
Lemma take_range_Ok n bytes s version header_bytes c0 (a : array n) c first c' :
  negb (((version =? FRAME_VERSION) && (header_bytes =? HEADER_BYTES))
        || ((version =? RANGE_VERSION) && (header_bytes =? RANGE_HEADER_BYTES))) = false ->
  scope_widths s -> reads bytes c0 (as_bytes a) c ->
  (if version =? RANGE_VERSION then
     '(first, cursor) ← take_u64 bytes c;
     if first =? Scope.commit_sequence s then Err LtxErr.LTXCorrupted else Ok (first, cursor)
   else Ok (Scope.commit_sequence s, c)) = Ok (first, c') ->
  reads bytes c (range_bytes s first) c' /\ version = version_of s first /\ header_bytes = header_len s first /\ u64_ok first.
Proof.
  intros Hver Hsw Hr Hf. unfold range_bytes, version_of, header_len, is_ranged.
  apply negb_false_iff, orb_true_iff in Hver as [Hv|Hv]; apply andb_true_iff in Hv as [Hv1 Hv2]; guards_in Hv1; guards_in Hv2; subst.
  - apply Ok_inj in Hf. injection Hf as <- <-. rewrite Z.eqb_refl. cbn [negb]. split_and!; try done; [|apply Hsw..].
    split; [by eapply reads_end|]. split; [rewrite len_nil; lia|]. split; [apply Hr|].
    destruct Hr as (_ & -> & _ & (? & ? & _)%slice_Some). apply slice_Some. rewrite len_array in *. split_and!; try lia.
    by rewrite Z.sub_diag.
  - change (RANGE_VERSION =? RANGE_VERSION) with true in Hf. cbn iota in Hf. take_field Hf.
    apply reject_Ok in Hf as [Hne Hf]. apply Ok_inj in Hf. injection Hf as <- <-. rewrite Hne. cbn [negb]. done.
Qed.

(** What [inspect_node_frame] accepts is the encoding of what it returns. *)
Lemma inspect_frame_Ok bytes lim f :
  inspect_node_frame bytes lim = Ok f ->
  frame_ok lim f /\ Frame.encoded f = bytes /\ scope_widths (Frame.scope f) /\ segment_widths (Frame.segment f)
  /\ u64_ok (Frame.first_commit_sequence f).
Proof.
  unfold inspect_node_frame. intros [Hg Hk]%reject_Ok. apply orb_false_iff in Hg as [Hlen Hm]. guards_in Hlen.
  apply bool_decide_eq_false, dec_stable in Hm.
  assert (reads bytes 0 FRAME_MAGIC 4) as R0.
  { split_and!; try done. apply slice_Some. unfold HEADER_BYTES in Hlen. split_and!; [lia..|]. by rewrite <- Hm. }
  do 2 take_field Hk. apply reject_Ok in Hk as [Hver Hk].
  apply bind_Ok in Hk as ([s c1] & [Hsw Rs]%take_scope_reads & Hk); [|by eauto using reads_end].
  apply bind_Ok in Hk as ([seg c2] & [Hgw Rg]%take_segment_reads & Hk); [|by eauto using reads_end].
  do 2 take_field Hk.
  apply bind_Ok in Hk as ([first c5] & Hf & Hk).
  apply bind_Ok in Hk as ([] & Hr & Hk). apply reject_Ok in Hk as [Hg Hk].
  apply bind_Ok in Hk as ([] & Hs & Hk). apply reject_Ok in Hk as [Hd Hk]. apply bind_Ok in Hk as ([] & Hb & Hk).
  apply Ok_inj in Hk. subst f. cbn [Frame.scope Frame.first_commit_sequence Frame.segment Frame.body Frame.encoded].
  destruct (take_range_Ok _ _ _ _ _ _ _ _ _ _ Hver Hsw R3 Hf) as (Rx & -> & -> & Hfw).
  assert (reads bytes 0 (envelope s first seg v1) c5) as Renv by (rewrite envelope_eq;
    apply orb_false_iff in Hd as [Hd _]; apply bool_decide_eq_false, dec_stable in Hd; rewrite <- Hd; join_reads).
  pose proof (validate_body_Ok _ _ _ Hb) as (_ & Hbl & _). pose proof (header_len_bounds s first).
  repeat (apply orb_false_iff in Hg as [Hg ?]). guards.
  assert (bytes = envelope s first seg v1 ++ drop (Z.to_nat (header_len s first)) bytes) as Ebytes.
  { destruct Renv as (_ & Ec & _ & (_ & _ & Hsl)%slice_Some). rewrite <- (take_drop (Z.to_nat (header_len s first)) bytes) at 1. f_equal.
    rewrite Hsl, Z.sub_0_r. cbn [Z.to_nat drop]. f_equal. rewrite Ec, len_envelope. lia. }
  assert (len (drop (Z.to_nat (header_len s first)) bytes) = v1) as El by (rewrite Hbl; congruence).
  split; [|split_and!; done]. constructor; cbn [Frame.scope Frame.first_commit_sequence Frame.segment Frame.body Frame.encoded]; try done.
  - rewrite El. assert (len bytes = header_len s first + v1) as Et by (rewrite Ebytes, len_app, len_envelope; lia).
    unfold saturating_add_u64 in *. lia.
  - by rewrite El.
Qed.
(** The encoding of a well-formed frame is accepted as that frame. *)
Lemma inspect_encoded lim f :
  frame_ok lim f -> scope_widths (Frame.scope f) -> segment_widths (Frame.segment f) ->
  u64_ok (Frame.first_commit_sequence f) -> inspect_node_frame (Frame.encoded f) lim = Ok f.
Proof.
  destruct f as [s first seg body encoded]. intros [Hs Hr Hb Hfit He] Hsw Hgw Hfw.
  cbn [Frame.scope Frame.first_commit_sequence Frame.segment Frame.body Frame.encoded] in *.
  pose proof (validate_body_Ok _ _ _ Hb) as (Hcap & Hlen & Hdig). pose proof (header_len_bounds s first) as Hhb.
  pose proof (len_envelope s first seg (len body)) as Henv. pose proof (len_nonneg body).
  assert (len encoded = header_len s first + len body) as Hle by (rewrite He, len_app; lia).
  assert (reads encoded 0 (envelope s first seg (len body)) (header_len s first)) as R.
  { split; [lia|]. split; [lia|]. split; [lia|]. rewrite He.
    rewrite <- (app_nil_l (envelope s first seg (len body) ++ body)). apply slice_app; [done|]. change (len (@nil byte)) with 0. lia. }
  unfold inspect_node_frame. rewrite (proj2 (Z.ltb_ge _ _)) by (unfold HEADER_BYTES; lia).
  rewrite bool_decide_eq_false_2 by (rewrite He, envelope_eq; intros Hn; by apply Hn). cbn [orb].
  rewrite envelope_eq in R. apply reads_split in R as [_ R]. change (0 + len FRAME_MAGIC) with 4 in R.
  apply reads_split in R as [Rv R]. rewrite (take_u16_ok _ _ _ _ Rv) by (unfold version_of; by destruct (is_ranged s first)).
  cbn [mbind result_bind]. apply reads_split in R as [Rh R]. rewrite (take_u16_ok _ _ _ _ Rh) by lia. cbn [mbind result_bind].
  assert (negb (((version_of s first =? FRAME_VERSION) && (header_len s first =? HEADER_BYTES))
     || ((version_of s first =? RANGE_VERSION) && (header_len s first =? RANGE_HEADER_BYTES))) = false) as ->
    by (unfold version_of, header_len; by destruct (is_ranged s first)).
  apply reads_split in R as [Rs R]. rewrite (proj2 (take_scope_reads _ _ _ _ (proj1 Rs)) (conj Hsw Rs)). cbn [mbind result_bind].
  apply reads_split in R as [Rg R]. rewrite (proj2 (take_segment_reads _ _ _ _ (proj1 Rg)) (conj Hgw Rg)). cbn [mbind result_bind].
  apply reads_split in R as [Rl R]. rewrite (take_u64_ok _ _ _ _ Rl) by (unfold u64_ok; lia). cbn [mbind result_bind].
  apply reads_split in R as [Rd R]. rewrite (take_array_ok _ _ _ _ _ Rd). cbn [mbind result_bind].
  match goal with |- context [if version_of s first =? RANGE_VERSION then ?a else ?b] =>
    assert ((if version_of s first =? RANGE_VERSION then a else b) = Ok (first, header_len s first)) as -> end.
  { unfold version_of, range_bytes in *. destruct (is_ranged s first) eqn:Er.
    - change (RANGE_VERSION =? RANGE_VERSION) with true. cbn iota. rewrite (take_u64_ok _ _ _ _ R) by done. cbn [mbind result_bind].
      unfold is_ranged in Er. apply negb_true_iff in Er. by rewrite Er.
    - change (FRAME_VERSION =? RANGE_VERSION) with false. cbn iota. unfold is_ranged in Er. guards_in Er. destruct R as (_ & Ec & _).
      change (len (@nil byte)) with 0 in Ec. rewrite <- Er. do 2 f_equal. lia. }
  cbn [mbind result_bind]. rewrite Hr. cbn [mbind result_bind].
  rewrite Z.eqb_refl, Hlen, Z.eqb_refl, <- Hlen, Hle. unfold saturating_add_u64. rewrite Z.min_l, Z.eqb_refl by lia.
  rewrite !(proj2 (Z.ltb_ge _ _)) by lia. cbn [negb orb]. rewrite Hs. cbn [mbind result_bind].
  assert (drop (Z.to_nat (header_len s first)) encoded = body) as -> by (rewrite He; apply drop_envelope).
  rewrite !bool_decide_eq_false_2 by (intros Hn; by apply Hn). cbn [orb]. rewrite Hb. done.
Qed.

(** C28: a node frame has exactly one encoding. What [inspect_node_frame] accepts is,
    byte for byte, the encoding of the frame it returns; and every frame that is
    encoded is accepted and returned unchanged, body included. *)
Theorem node_frame_exact :
  (forall bytes lim f, inspect_node_frame bytes lim = Ok f ->
     Frame.encoded f = bytes /\
     encode_node_frame_range (Frame.scope f) (Frame.first_commit_sequence f) (Frame.segment f) (Frame.body f) lim = Ok f)
  /\ (forall s first seg body lim f, scope_widths s -> segment_widths seg -> u64_ok first ->
     encode_node_frame_range s first seg body lim = Ok f ->
     inspect_node_frame (Frame.encoded f) lim = Ok f /\ Frame.body f = body).
Proof.
  split.
  - intros bytes lim f (Hf & He & _)%inspect_frame_Ok. split; [done|]. by apply encode_frame_Ok.
  - intros s first seg body lim f Hs Hg Hf (Hok & <- & <- & <- & Hb)%encode_frame_Ok. split; [by apply inspect_encoded|done].
Qed.

Lemma envelope_split s first seg n :
  exists pre post, len pre = NODE_SEQUENCE_OFFSET
    /\ forall m, envelope (set_sequence s m) first seg n = pre ++ to_le 8 m ++ post.
Proof.
  exists (FRAME_MAGIC ++ to_le 2 (version_of s first) ++ to_le 2 (header_len s first)
          ++ as_bytes (Scope.leader_session s) ++ to_le 8 (Scope.log_epoch s)),
    (as_bytes (Scope.application s) ++ as_bytes (Scope.cell s) ++ as_bytes (Scope.incarnation s)
     ++ to_le 8 (Scope.cell_epoch s) ++ to_le 8 (Scope.commit_sequence s) ++ segment_bytes seg
     ++ to_le 8 n ++ as_bytes (Segment.blake3 seg) ++ range_bytes s first).
  split; [by autorewrite with len|]. intros m. rewrite envelope_eq. unfold scope_bytes. by rewrite <- !app_assoc.
Qed.

(** Assigning a sequence in place is encoding anew. Patching eight bytes of a
    verified frame gives exactly the frame that verifying and encoding its parts
    under the new sequence would give, errors included. *)
Theorem with_node_sequence_exact s first seg body lim f n :
  encode_node_frame_range s first seg body lim = Ok f ->
  with_node_sequence f n = encode_node_frame_range (set_sequence s n) first seg body lim.
Proof.
  intros ([Hs Hr Hb Hfit He] & <- & <- & <- & <-)%encode_frame_Ok. destruct f as [s first seg body encoded].
  cbn [Frame.scope Frame.first_commit_sequence Frame.segment Frame.body Frame.encoded] in *.
  unfold with_node_sequence. cbn [Frame.scope Frame.first_commit_sequence Frame.segment Frame.body Frame.encoded].
  destruct (validate_scope (set_sequence s n)) as [[]|e] eqn:Ev.
  2: { cbn. unfold encode_node_frame_range. by rewrite Ev. }
  cbn [mbind result_bind]. pose proof (header_len_bounds s first) as Hh. pose proof (len_envelope s first seg (len body)) as Hl.
  rewrite (proj2 (Z.ltb_ge _ _)) by (rewrite He, len_app; unfold NODE_SEQUENCE_OFFSET; pose proof (len_nonneg body); lia).
  destruct (envelope_split s first seg (len body)) as (pre & post & Hpre & Henv).
  assert (envelope s first seg (len body) = pre ++ to_le 8 (Scope.node_sequence s) ++ post) as Eold
    by (rewrite <- Henv; by destruct s).
  assert (take (Z.to_nat NODE_SEQUENCE_OFFSET) encoded ++ to_le 8 n ++ drop (Z.to_nat (NODE_SEQUENCE_OFFSET + 8)) encoded
    = envelope (set_sequence s n) first seg (len body) ++ body) as ->.
  { rewrite He, Henv, Eold, <- !app_assoc, <- Hpre.
    rewrite take_app_length' by (unfold len; lia). f_equal. f_equal.
    rewrite (app_assoc pre). apply drop_app_length'. rewrite length_app, length_to_le. unfold len. lia. }
  symmetry. apply encode_frame_Ok. cbn [Frame.scope Frame.first_commit_sequence Frame.segment Frame.body Frame.encoded].
  assert (drop (Z.to_nat (len encoded - len body)) (envelope (set_sequence s n) first seg (len body) ++ body) = body) as ->.
  { rewrite He, len_app, Hl, Z.add_simpl_r. change (header_len s first) with (header_len (set_sequence s n) first).
    apply drop_envelope. }
  split; [|done]. by constructor.
Qed.
End FrameProofs.

(** * Witnesses: a frame that covers the commands 5 to 7 *)
Import Concrete.

Definition frame_scope : NodeFrameScope :=
  Scope.Mk (array_fill 16 x01) 3 9 (array_fill 16 x02) (array_fill 32 x03) (array_fill 16 x04) 2 7.
Definition frame_segment : SegmentInfo := describe encoded.
Definition frame_of (r : LtxResult VerifiedNodeFrame) : VerifiedNodeFrame :=
  match r with Ok f => f | Err _ => Frame.Mk frame_scope 0 frame_segment [] [] end.
Definition frame : VerifiedNodeFrame :=
  frame_of (encode_node_frame_range frame_scope 5 frame_segment (writer encoded) limits_default).

Lemma frame_encodes : encode_node_frame_range frame_scope 5 frame_segment (writer encoded) limits_default = Ok frame.
Proof. by vm_compute. Qed.

Lemma frame_widths : scope_widths frame_scope /\ segment_widths frame_segment /\ u64_ok 5.
Proof. split_and!; [by constructor| |done]. constructor; vm_compute; split; discriminate. Qed.

Lemma node_frame_exact_witness :
  inspect_node_frame (Frame.encoded frame) limits_default = Ok frame /\ Frame.body frame = writer encoded.
Proof.
  destruct frame_widths as (Hs & Hg & Hf).
  exact (proj2 node_frame_exact frame_scope 5 frame_segment (writer encoded) limits_default frame Hs Hg Hf frame_encodes).
Defined.

Lemma with_node_sequence_exact_witness :
  with_node_sequence frame 10
  = encode_node_frame_range (set_sequence frame_scope 10) 5 frame_segment (writer encoded) limits_default.
Proof. exact (with_node_sequence_exact frame_scope 5 frame_segment (writer encoded) limits_default frame 10 frame_encodes). Defined.
