(* ===== verification/Wal.v ===== *)
(** * Wal: reading a SQLite write-ahead log

    Models [crates/cellule-ltx/src/wal.rs] and [wal_checksum] of
    [crates/cellule-ltx/src/lib.rs]: the reader over a whole log or over a header
    and a tail, the header check, frames with their cumulative checksum, resuming
    at an offset, the page map and the salt scan. A reader is a state; a read that
    fails may still have changed it, so operations return the state beside the
    result.

    The theorems: the page map of a log is the one of its committed frames; a
    reader resumed at an offset is the reader that arrived there from the start; a
    reader over a tail sees what a reader over the whole log sees. *)

From Stdlib Require Import ZArith Lia.
From Stdlib Require Import Strings.Byte.
From stdpp Require Import base gmap strings numbers.
From stdpp Require Import list.
From S2P Require Import Prelude Bytes LtxTypes Ltx.

Local Open Scope bool_scope.

(*@ cellule-ltx/src/lib.rs 110-110 WAL_HEADER_SIZE *)
Definition WAL_HEADER_SIZE : Z := 32.
(*@ cellule-ltx/src/lib.rs 111-111 WAL_FRAME_HEADER_SIZE *)
Definition WAL_FRAME_HEADER_SIZE : Z := 24.
(*@ cellule-ltx/src/wal.rs 8-8 WAL_VERSION *)
Definition WAL_VERSION : Z := 3007000.
(*@ cellule-ltx/src/wal.rs 10-10 WAL_MAGIC_LITTLE_ENDIAN *)
Definition WAL_MAGIC_LITTLE_ENDIAN : Z := 931071618.
(*@ cellule-ltx/src/wal.rs 12-12 WAL_MAGIC_BIG_ENDIAN *)
Definition WAL_MAGIC_BIG_ENDIAN : Z := 931071619.

Module WalErr.
(*@ cellule-ltx/src/wal.rs 15-30 WalError *)
Inductive WalError :=
| Eof
| InvalidMagic (magic : Z)
| InvalidPageSize (size : Z)
| UnsupportedVersion (version : Z)
| BufferSize (got want : Z)
| OffsetTooSmall (offset header_size : Z)
| UnalignedOffset (offset page_size : Z)
| PrevFrameMismatch.
End WalErr.
Abbreviation WalError := WalErr.WalError.
Abbreviation WalResult := (result WalError).

(*@ cellule-ltx/src/wal.rs 34-36 WalError::is_eof *)
Definition is_eof (e : WalError) : bool := match e with WalErr.Eof => true | _ => false end.

(*@ cellule-ltx/src/wal.rs 79-90 WalReader *)
Record WalReader := MkWal {
  data : list byte;
  tail_base : Z;
  frame_n : Z;
  big_endian : bool;
  page_size : Z;
  salt1 : Z;
  salt2 : Z;
  chksum1 : Z;
  chksum2 : Z
}.

Definition wrapping_add_u32 (a b : Z) : Z := (a + b) mod 4294967296.

(** The chunks of eight bytes; a remainder is ignored. *)
(*@ cellule-ltx/src/lib.rs 119-132 wal_checksum *)
Fixpoint wal_checksum (big : bool) (s0 s1 : Z) (bytes : list byte) : Z * Z :=
  match bytes with
  | b0 :: b1 :: b2 :: b3 :: b4 :: b5 :: b6 :: b7 :: bytes =>
      let a := if big then from_be [b0; b1; b2; b3] else from_le [b0; b1; b2; b3] in
      let b := if big then from_be [b4; b5; b6; b7] else from_le [b4; b5; b6; b7] in
      let s0 := wrapping_add_u32 (wrapping_add_u32 s0 a) s1 in
      let s1 := wrapping_add_u32 (wrapping_add_u32 s1 b) s0 in
      wal_checksum big s0 s1 bytes
  | _ => (s0, s1)
  end.

(*@ cellule-ltx/src/wal.rs 395-397 be_u32 *)
Definition be_u32 (off : nat) (b : list byte) : Z := from_be (take 4 (drop off b)).

(*@ cellule-ltx/src/wal.rs 176-194 WalReader::read_at *)
Definition read_at (r : WalReader) (offset n : Z) : option (list byte) :=
  if offset <? 0 then None
  else
    start ← (if (tail_base r =? 0) || (offset <? WAL_HEADER_SIZE) then Some offset
             else rest ← checked_sub_u64 offset (tail_base r); Some (WAL_HEADER_SIZE + rest));
    ending ← checked_add_u64 start n;
    if len (data r) <? ending then None else slice (data r) start ending.

(*@ cellule-ltx/src/wal.rs 214-255 WalReader::read_header *)
Definition read_header (r : WalReader) : WalResult WalReader :=
  match read_at r 0 WAL_HEADER_SIZE with
  | None => Err WalErr.Eof
  | Some hdr =>
      let magic := be_u32 0 hdr in
      big ← (if magic =? WAL_MAGIC_LITTLE_ENDIAN then Ok false
             else if magic =? WAL_MAGIC_BIG_ENDIAN then Ok true
             else Err (WalErr.InvalidMagic magic));
      let c1 := be_u32 24 hdr in
      let c2 := be_u32 28 hdr in
      let '(v0, v1) := wal_checksum big 0 0 (take 24 hdr) in
      if negb (v0 =? c1) || negb (v1 =? c2) then Err WalErr.Eof
      else
        let version := be_u32 4 hdr in
        if negb (version =? WAL_VERSION) then Err (WalErr.UnsupportedVersion version)
        else
          let ps := be_u32 8 hdr in
          if negb (is_valid_page_size ps) then Err (WalErr.InvalidPageSize ps)
          else Ok (MkWal (data r) (tail_base r) (frame_n r) big ps (be_u32 16 hdr) (be_u32 20 hdr) c1 c2)
  end.

(*@ cellule-ltx/src/wal.rs 93-107 WalReader::new *)
Definition wal_new (data : list byte) : WalResult WalReader :=
  read_header (MkWal data 0 0 false 0 0 0 0 0).

(*@ cellule-ltx/src/wal.rs 122-137 WalReader::new_with_offset_inner *)
Definition new_with_offset_inner (data : list byte) (tail_base : Z) : WalResult WalReader :=
  read_header (MkWal data tail_base 0 false 0 0 0 0 0).

Definition set_chksum (r : WalReader) (c1 c2 : Z) : WalReader :=
  MkWal (data r) (tail_base r) (frame_n r) (big_endian r) (page_size r) (salt1 r) (salt2 r) c1 c2.
Definition set_frame_n (r : WalReader) (n : Z) : WalReader :=
  MkWal (data r) (tail_base r) n (big_endian r) (page_size r) (salt1 r) (salt2 r) (chksum1 r) (chksum2 r).

Definition frame_size (r : WalReader) : Z := page_size r + WAL_FRAME_HEADER_SIZE.

(** The reader after the read, and the page number, the commit size and the page,
    which is copied into a buffer of [buffer] bytes. The checksum of a frame that
    fails verification stays in the reader. *)
(*@ cellule-ltx/src/wal.rs 261-320 WalReader::read_frame_inner *)
Definition read_frame_inner (r : WalReader) (buffer : Z) (verify_checksum : bool)
  : WalReader * WalResult (Z * Z * list byte) :=
  if negb (buffer =? page_size r) then (r, Err (WalErr.BufferSize buffer (page_size r)))
  else
    let offset := WAL_HEADER_SIZE + frame_n r * frame_size r in
    match read_at r offset WAL_FRAME_HEADER_SIZE with
    | None => (r, Err WalErr.Eof)
    | Some hdr =>
        match read_at r (offset + WAL_FRAME_HEADER_SIZE) buffer with
        | None => (r, Err WalErr.Eof)
        | Some page =>
            if negb (salt1 r =? be_u32 8 hdr) || negb (salt2 r =? be_u32 12 hdr) then (r, Err WalErr.Eof)
            else
              let c1 := be_u32 16 hdr in
              let c2 := be_u32 20 hdr in
              let '(n1, n2) :=
                if verify_checksum then
                  let '(a, b) := wal_checksum (big_endian r) (chksum1 r) (chksum2 r) (take 8 hdr) in
                  wal_checksum (big_endian r) a b page
                else (c1, c2) in
              let r := set_chksum r n1 n2 in
              if negb (n1 =? c1) || negb (n2 =? c2) then (r, Err WalErr.Eof)
              else (set_frame_n r (frame_n r + 1), Ok (be_u32 0 hdr, be_u32 4 hdr, page))
        end
    end.

(*@ cellule-ltx/src/wal.rs 257-259 WalReader::read_frame *)
Definition read_frame (r : WalReader) (buffer : Z) := read_frame_inner r buffer true.

(*@ cellule-ltx/src/wal.rs 168-174 WalReader::offset *)
Definition wal_offset (r : WalReader) : Z :=
  if frame_n r =? 0 then 0
  else WAL_HEADER_SIZE + (frame_n r - 1) * (WAL_FRAME_HEADER_SIZE + page_size r).

(** [%] of a negative number has the sign of the dividend; zero either way. *)
(*@ cellule-ltx/src/wal.rs 139-161 WalReader::seek_to_offset *)
Definition seek_to_offset (r : WalReader) (offset s1 s2 : Z) : WalResult WalReader :=
  let r := MkWal (data r) (tail_base r) (frame_n r) (big_endian r) (page_size r) s1 s2 (chksum1 r) (chksum2 r) in
  if negb (Z.rem (offset - WAL_HEADER_SIZE) (frame_size r) =? 0)
  then Err (WalErr.UnalignedOffset offset (page_size r))
  else
    let r := set_frame_n r (Z.quot (offset - WAL_HEADER_SIZE) (frame_size r)) in
    let r := set_frame_n r (frame_n r - 1) in
    match read_frame_inner r (page_size r) false with
    | (_, Err _) => Err WalErr.PrevFrameMismatch
    | (r, Ok _) => Ok r
    end.

(*@ cellule-ltx/src/wal.rs 109-120 WalReader::new_with_offset *)
Definition new_with_offset (data : list byte) (offset s1 s2 : Z) : WalResult WalReader :=
  if offset <=? WAL_HEADER_SIZE then Err (WalErr.OffsetTooSmall offset WAL_HEADER_SIZE)
  else r ← new_with_offset_inner data 0; seek_to_offset r offset s1 s2.

(*@ cellule-ltx/src/wal.rs 196-212 WalReader::new_with_offset_over_tail *)
Definition new_with_offset_over_tail (data : list byte) (tail_base offset s1 s2 : Z) : WalResult WalReader :=
  if (tail_base <? WAL_HEADER_SIZE) || (offset <? tail_base) then Err (WalErr.OffsetTooSmall offset WAL_HEADER_SIZE)
  else r ← new_with_offset_inner data tail_base; seek_to_offset r offset s1 s2.

(** ** The page map *)

Record Scan := MkScan { m : gmap Z Z; tx_map : gmap Z Z; commit : Z }.

(** One frame of page [pgno] at [offset]; a commit record promotes the
    transaction. *)
(*@ cellule-ltx/src/wal.rs 337-347 WalReader::page_map *)
Definition scan_frame (s : Scan) (pgno fcommit offset : Z) : Scan :=
  let tx := <[pgno := offset]> (tx_map s) in
  if negb (fcommit =? 0) then MkScan (tx ∪ m s) ∅ fcommit else MkScan (m s) tx (commit s).

(** The [loop]: every turn but the last moves past a frame. *)
(*@ cellule-ltx/src/wal.rs 328-348 WalReader::page_map *)
Fixpoint scan_frames (fuel : nat) (r : WalReader) (s : Scan) : WalReader * WalResult Scan :=
  match fuel with
  | O => (r, Ok s)
  | S fuel =>
      match read_frame r (page_size r) with
      | (r, Ok (pgno, fcommit, _)) => scan_frames fuel r (scan_frame s pgno fcommit (wal_offset r))
      | (r, Err e) => if is_eof e then (r, Ok s) else (r, Err e)
      end
  end.

Definition frame_fuel (r : WalReader) : nat := S (length (data r)).

(*@ cellule-ltx/src/wal.rs 361-363 WalReader::page_map *)
Definition highest (offset ending : Z) : Z := if (ending =? 0) || (ending <? offset) then offset else ending.

(*@ cellule-ltx/src/wal.rs 322-368 WalReader::page_map *)
Definition page_map (r : WalReader) : WalReader * WalResult (gmap Z Z * Z * Z) :=
  let '(r, s) := scan_frames (frame_fuel r) r (MkScan ∅ ∅ 0) in
  (r, s ← s;
      let kept := filter (fun e => e.1 <= commit s) (m s) in
      if bool_decide (kept = ∅) then Ok (kept, 0, 0)
      else
        let ending := map_fold (fun _ o e => highest o e) 0 kept in
        Ok (kept, ending + (WAL_FRAME_HEADER_SIZE + page_size r), commit s)).

(*@ cellule-ltx/src/wal.rs 376-389 WalReader::frame_salts_until *)
Fixpoint salts_from (fuel : nat) (r : WalReader) (until : Z * Z) (offset : Z) : gset (Z * Z) :=
  match fuel with
  | O => ∅
  | S fuel =>
      match read_at r offset WAL_FRAME_HEADER_SIZE with
      | None => ∅
      | Some hdr =>
          let s := (be_u32 8 hdr, be_u32 12 hdr) in
          if (s.1 =? until.1) && (s.2 =? until.2) then {[s]}
          else {[s]} ∪ salts_from fuel r until (offset + (WAL_FRAME_HEADER_SIZE + page_size r))
      end
  end.

(*@ cellule-ltx/src/wal.rs 370-391 WalReader::frame_salts_until *)
Definition frame_salts_until (r : WalReader) (until : Z * Z) : gset (Z * Z) :=
  salts_from (frame_fuel r) r until WAL_HEADER_SIZE.

(** * Proofs *)

(** ** The frames of a log

    The reference: the frames of [l], a log after its header, as long as each is
    complete, carries the salts and continues the checksum. *)

Definition frame_ok (r : WalReader) (frame : list byte) (c1 c2 : Z) : option (Z * Z) :=
  let hdr := take 24 frame in
  let '(a, b) := wal_checksum (big_endian r) c1 c2 (take 8 hdr) in
  let '(n1, n2) := wal_checksum (big_endian r) a b (drop 24 frame) in
  if (salt1 r =? be_u32 8 hdr) && (salt2 r =? be_u32 12 hdr) && (n1 =? be_u32 16 hdr) && (n2 =? be_u32 20 hdr)
  then Some (n1, n2) else None.

Fixpoint valid_frames (fuel : nat) (r : WalReader) (l : list byte) (c1 c2 : Z) : list (Z * Z) :=
  match fuel with
  | O => []
  | S fuel =>
      match read_exact (Z.to_nat (frame_size r)) l with
      | None => []
      | Some (frame, l) =>
          match frame_ok r frame c1 c2 with
          | None => []
          | Some (n1, n2) => (be_u32 0 (take 24 frame), be_u32 4 (take 24 frame)) :: valid_frames fuel r l n1 n2
          end
      end
  end.

(** The frames up to the last commit record. *)
Fixpoint committed (frames : list (Z * Z)) : list (Z * Z) :=
  match frames with
  | [] => []
  | f :: frames =>
      let c := committed frames in
      if negb (f.2 =? 0) || bool_decide (c <> []) then f :: c else []
  end.

(** The database size after them. *)
Definition final_commit (frames : list (Z * Z)) : Z := match last frames with Some f => f.2 | None => 0 end.

(** The last frame of a page, the frames being numbered from [i]. *)
Fixpoint last_frame (frames : list (Z * Z)) (i page : Z) : option Z :=
  match frames with
  | [] => None
  | f :: frames =>
      match last_frame frames (i + 1) page with
      | Some j => Some j
      | None => if f.1 =? page then Some i else None
      end
  end.

(** A reader over a whole log. *)
Record whole (r : WalReader) : Prop := {
  w_tail : tail_base r = 0;
  w_len : len (data r) <= u64_max;
  w_size : is_valid_page_size (page_size r) = true;
  w_frame : 0 <= frame_n r
}.

Lemma read_at_whole r offset n :
  whole r -> 0 <= offset -> 0 <= n -> read_at r offset n = slice (data r) offset (offset + n).
Proof.
  intros W Ho Hn. unfold read_at. rewrite (proj2 (Z.ltb_ge _ _)), (w_tail _ W) by lia. cbn [Z.eqb orb mbind option_bind].
  unfold checked_add_u64. pose proof (w_len _ W). destruct (Z.leb_spec (offset + n) u64_max).
  - cbn [mbind option_bind]. destruct (Z.ltb_spec (len (data r)) (offset + n)); [|done].
    unfold slice. rewrite (proj2 (Z.leb_gt (offset + n) _)) by lia. by rewrite andb_false_r.
  - cbn [mbind option_bind]. unfold slice. rewrite (proj2 (Z.leb_gt (offset + n) _)) by lia. by rewrite andb_false_r.
Qed.

Lemma slice_drop {A} (l : list A) a b n :
  0 <= a -> 0 <= b -> 0 < n -> slice l (a + b) (a + b + n) = slice (drop (Z.to_nat a) l) b (b + n).
Proof.
  intros Ha Hb Hn. unfold slice, len. rewrite length_drop.
  assert (((0 <=? a + b) && (a + b <=? a + b + n) && (a + b + n <=? Z.of_nat (length l)))
    = ((0 <=? b) && (b <=? b + n) && (b + n <=? Z.of_nat (length l - Z.to_nat a)))) as ->.
  { destruct (Z.leb_spec (a + b + n) (Z.of_nat (length l))), (Z.leb_spec (b + n) (Z.of_nat (length l - Z.to_nat a)));
      rewrite ?(proj2 (Z.leb_le _ _)) by lia; cbn; try done; lia. }
  case_match; [|done]. do 2 f_equal; [lia|]. rewrite drop_drop. f_equal. lia.
Qed.

(** The log from the next frame on. *)
Definition ahead (r : WalReader) : list byte := drop (Z.to_nat (WAL_HEADER_SIZE + frame_n r * frame_size r)) (data r).

Definition advance (r : WalReader) (n1 n2 : Z) : WalReader := set_frame_n (set_chksum r n1 n2) (frame_n r + 1).

Lemma frame_size_bounds r : is_valid_page_size (page_size r) = true -> 536 <= frame_size r.
Proof. intros [Hp _]%page_size_bounds. unfold frame_size, WAL_FRAME_HEADER_SIZE. lia. Qed.

(** Where a frame is read from. *)
Lemma read_ahead r b n :
  whole r -> 0 <= b -> 0 < n ->
  read_at r (WAL_HEADER_SIZE + frame_n r * frame_size r + b) n = slice (ahead r) b (b + n).
Proof.
  intros W Hb Hn. pose proof (frame_size_bounds _ (w_size _ W)). pose proof (w_frame _ W).
  assert (0 <= frame_n r * frame_size r) by nia. unfold WAL_HEADER_SIZE in *.
  rewrite read_at_whole by (try done; lia). unfold ahead, WAL_HEADER_SIZE. apply slice_drop; lia.
Qed.

Lemma read_parts r :
  whole r ->
  read_at r (WAL_HEADER_SIZE + frame_n r * frame_size r) WAL_FRAME_HEADER_SIZE = slice (ahead r) 0 24
  /\ read_at r (WAL_HEADER_SIZE + frame_n r * frame_size r + WAL_FRAME_HEADER_SIZE) (page_size r)
     = slice (ahead r) 24 (frame_size r).
Proof.
  intros W. pose proof (page_size_bounds _ (w_size _ W)) as [Hp _]. split.
  - rewrite <- (Z.add_0_r (_ + _)). rewrite read_ahead by (done || (unfold WAL_FRAME_HEADER_SIZE; lia)). done.
  - rewrite read_ahead by (done || (unfold WAL_FRAME_HEADER_SIZE; lia)). unfold frame_size, WAL_FRAME_HEADER_SIZE. f_equal. lia.
Qed.

Lemma slice_frame (l frame rest : list byte) n :
  24 <= Z.of_nat n -> read_exact n l = Some (frame, rest) ->
  slice l 0 24 = Some (take 24 frame) /\ slice l 24 (Z.of_nat n) = Some (drop 24 frame).
Proof.
  intros Hn [-> Hl]%read_exact_Some. split; apply slice_Some; unfold len; rewrite length_app; split_and!; try lia.
  - rewrite drop_0. by rewrite take_app_le by lia.
  - rewrite drop_app_le by lia. rewrite take_app_le by (rewrite length_drop; lia).
    symmetry. apply take_ge. rewrite length_drop. lia.
Qed.

Lemma read_frame_valid r frame rest n1 n2 :
  whole r -> read_exact (Z.to_nat (frame_size r)) (ahead r) = Some (frame, rest) ->
  frame_ok r frame (chksum1 r) (chksum2 r) = Some (n1, n2) ->
  read_frame r (page_size r)
  = (advance r n1 n2, Ok (be_u32 0 (take 24 frame), be_u32 4 (take 24 frame), drop 24 frame))
  /\ n1 = be_u32 16 (take 24 frame) /\ n2 = be_u32 20 (take 24 frame).
Proof.
  intros W Hr Hf. pose proof (frame_size_bounds _ (w_size _ W)) as Hfs. destruct (read_parts r W) as [E1 E2].
  apply slice_frame in Hr as [S1 S2]; [|lia]. rewrite Z2Nat.id in S2 by lia.
  unfold read_frame, read_frame_inner. rewrite Z.eqb_refl, E1, S1. cbn [negb]. rewrite E2, S2.
  unfold frame_ok in Hf. destruct (wal_checksum _ _ _ (take 8 _)) as [a b]. destruct (wal_checksum _ a b _) as [x1 x2].
  destruct (_ && (x2 =? _)) eqn:Eg; [|done]. injection Hf as <- <-.
  apply andb_true_iff in Eg as [[[G1 G2]%andb_true_iff G3]%andb_true_iff G4]. rewrite G1, G2. cbn [negb orb].
  rewrite G3, G4. cbn [negb orb]. apply Z.eqb_eq in G3, G4. done.
Qed.

Lemma read_frame_end r :
  whole r ->
  match read_exact (Z.to_nat (frame_size r)) (ahead r) with
  | Some (frame, _) => frame_ok r frame (chksum1 r) (chksum2 r) = None
  | None => True
  end ->
  exists r', read_frame r (page_size r) = (r', Err WalErr.Eof) /\ page_size r' = page_size r.
Proof.
  intros W Hr. pose proof (frame_size_bounds _ (w_size _ W)) as Hfs. destruct (read_parts r W) as [E1 E2].
  unfold read_frame, read_frame_inner. rewrite Z.eqb_refl, E1. cbn [negb]. rewrite E2.
  destruct (read_exact (Z.to_nat (frame_size r)) (ahead r)) as [[frame rest]|] eqn:Er.
  - apply slice_frame in Er as [S1 S2]; [|lia]. rewrite Z2Nat.id in S2 by lia. rewrite S1, S2.
    unfold frame_ok in Hr. destruct (wal_checksum _ _ _ (take 8 _)) as [a b]. destruct (wal_checksum _ a b _) as [x1 x2].
    destruct (salt1 r =? be_u32 8 _), (salt2 r =? be_u32 12 _), (x1 =? be_u32 16 _), (x2 =? be_u32 20 _); try done; cbn; eauto.
  - assert (slice (ahead r) 24 (frame_size r) = None) as ->.
    { unfold read_exact in Er. case_decide as Hd; [done|]. unfold slice, len.
      rewrite (proj2 (Z.leb_gt (frame_size r) _)) by lia. by rewrite andb_false_r. }
    destruct (slice _ 0 24); eauto.
Qed.

Lemma whole_advance r n1 n2 : whole r -> whole (advance r n1 n2).
Proof. intros []. constructor; cbn; try done. lia. Qed.

Lemma ahead_advance r n1 n2 frame rest :
  whole r -> read_exact (Z.to_nat (frame_size r)) (ahead r) = Some (frame, rest) -> ahead (advance r n1 n2) = rest.
Proof.
  intros W [E Hl]%read_exact_Some. pose proof (frame_size_bounds _ (w_size _ W)). pose proof (w_frame _ W).
  assert (0 <= frame_n r * frame_size r) by nia.
  assert (ahead (advance r n1 n2) = drop (Z.to_nat (frame_size r)) (ahead r)) as ->.
  { unfold ahead at 2. rewrite drop_drop. unfold ahead, advance. cbn [frame_n data set_frame_n set_chksum].
    change (frame_size (set_frame_n (set_chksum r n1 n2) (frame_n r + 1))) with (frame_size r).
    f_equal. unfold WAL_HEADER_SIZE. lia. }
  rewrite E. by apply drop_app_length'.
Qed.

(** ** The page map *)

Lemma valid_frames_advance fuel r n1 n2 l c1 c2 : valid_frames fuel (advance r n1 n2) l c1 c2 = valid_frames fuel r l c1 c2.
Proof.
  revert l c1 c2. induction fuel as [|fuel IH]; intros l c1 c2; [done|]. cbn [valid_frames].
  change (frame_size (advance r n1 n2)) with (frame_size r).
  destruct (read_exact _ l) as [[frame rest]|]; [|done]. change (frame_ok (advance r n1 n2)) with (frame_ok r).
  destruct (frame_ok r frame c1 c2) as [[x1 x2]|]; [|done]. by rewrite IH.
Qed.

Fixpoint scan_list (s : Scan) (fs i : Z) (frames : list (Z * Z)) : Scan :=
  match frames with
  | [] => s
  | f :: frames => scan_list (scan_frame s f.1 f.2 (WAL_HEADER_SIZE + i * fs)) fs (i + 1) frames
  end.

(** The loop reads the valid frames; its fuel is enough. *)
Lemma scan_frames_ok fuel r s :
  whole r -> (length (ahead r) < fuel)%nat ->
  exists r', scan_frames fuel r s
    = (r', Ok (scan_list s (frame_size r) (frame_n r) (valid_frames fuel r (ahead r) (chksum1 r) (chksum2 r))))
    /\ page_size r' = page_size r.
Proof.
  revert r s. induction fuel as [|fuel IH]; intros r s W Hf; [lia|]. cbn [scan_frames valid_frames].
  pose proof (read_frame_end r W) as Hend.
  destruct (read_exact (Z.to_nat (frame_size r)) (ahead r)) as [[frame rest]|] eqn:Er.
  2: { destruct Hend as (r' & -> & Hp); [done|]. by exists r'. }
  destruct (frame_ok r frame (chksum1 r) (chksum2 r)) as [[n1 n2]|] eqn:Ef.
  2: { destruct Hend as (r' & -> & Hp); [done|]. by exists r'. }
  destruct (read_frame_valid r frame rest n1 n2 W Er Ef) as [-> _]. cbn [scan_list fst snd].
  assert (wal_offset (advance r n1 n2) = WAL_HEADER_SIZE + frame_n r * frame_size r) as ->.
  { unfold wal_offset, advance. cbn [frame_n page_size set_frame_n set_chksum]. pose proof (w_frame _ W).
    rewrite (proj2 (Z.eqb_neq _ _)) by lia. unfold frame_size. lia. }
  pose proof (ahead_advance r n1 n2 frame rest W Er) as Ea. apply read_exact_Some in Er as [El Hl].
  pose proof (frame_size_bounds _ (w_size _ W)).
  destruct (IH (advance r n1 n2) (scan_frame s (be_u32 0 (take 24 frame)) (be_u32 4 (take 24 frame))
    (WAL_HEADER_SIZE + frame_n r * frame_size r))) as (r' & -> & Hp).
  - by apply whole_advance.
  - rewrite Ea. rewrite El, length_app in Hf. lia.
  - exists r'. split; [|done]. rewrite Ea, valid_frames_advance. done.
Qed.

(** What the scan of a list of frames computes. *)
Lemma scan_list_spec frames s fs i :
  let s' := scan_list s fs i frames in
  let c := committed frames in
  commit s' = match last c with Some f => f.2 | None => commit s end
  /\ forall page, m s' !! page
     = match last_frame c i page with
       | Some j => Some (WAL_HEADER_SIZE + j * fs)
       | None => match c with [] => m s !! page | _ => (tx_map s ∪ m s) !! page end
       end.
Proof.
  revert s i. induction frames as [|[p q] frames IH]; intros s i; [done|]. cbn [scan_list committed fst snd].
  destruct (IH (scan_frame s p q (WAL_HEADER_SIZE + i * fs)) (i + 1)) as [Hc Hm]. cbv zeta in *.
  unfold scan_frame in *. destruct (Z.eqb_spec q 0) as [->|Hq]; cbn [negb orb] in *.
  - destruct (committed frames) as [|f c] eqn:Ec.
    { split; [exact Hc|]. intros page. rewrite Hm. done. }
    rewrite bool_decide_eq_true_2 by done. split; [by rewrite Hc|]. intros page. rewrite Hm. cbn [m tx_map].
    change (last_frame ((p, 0) :: f :: c) i page) with
      (match last_frame (f :: c) (i + 1) page with Some j => Some j | None => if p =? page then Some i else None end).
    destruct (last_frame (f :: c) (i + 1) page); [done|]. destruct (Z.eqb_spec p page) as [->|Hne].
    + by rewrite lookup_union, lookup_insert_eq, union_Some_l.
    + by rewrite !lookup_union, lookup_insert_ne.
  - split.
    { rewrite Hc. destruct (committed frames) as [|f c]; [done|]. change (last ((p, q) :: f :: c)) with (last (f :: c)).
      destruct (last (f :: c)) eqn:El; [done|]. by apply last_None in El. }
    intros page. rewrite Hm. cbn [m tx_map last_frame fst snd].
    destruct (last_frame (committed frames) (i + 1) page); [done|].
    assert (forall x y : gmap Z Z, (match committed frames with [] => x !! page | _ => (∅ ∪ x) !! page end) = x !! page) as Hx
      by (intros; destruct (committed frames); by rewrite ?(left_id_L ∅ (∪))).
    rewrite Hx by exact ∅. destruct (Z.eqb_spec p page) as [->|Hne].
    + by rewrite lookup_union, lookup_insert_eq, union_Some_l.
    + by rewrite !lookup_union, lookup_insert_ne.
Qed.

Lemma highest_spec (mp : gmap Z Z) :
  (forall k o, mp !! k = Some o -> 0 < o) ->
  let e := map_fold (fun _ o e => highest o e) 0 mp in
  (mp = ∅ -> e = 0) /\ (forall k o, mp !! k = Some o -> o <= e) /\ (mp <> ∅ -> exists k, mp !! k = Some e).
Proof.
  cbv zeta. apply (map_fold_weak_ind (fun e mp => (forall k o, mp !! k = Some o -> 0 < o) ->
    (mp = ∅ -> e = 0) /\ (forall k o, mp !! k = Some o -> o <= e) /\ (mp <> ∅ -> exists k, mp !! k = Some e))).
  { intros _. split_and!; [done|intros k o Hk; by rewrite lookup_empty in Hk|done]. }
  intros i x mp' e Hi IH Hpos.
  assert (0 < x) as Hx by (apply (Hpos i); apply lookup_insert_eq).
  destruct IH as (H0 & Hle & Hex).
  { intros k o Hk. apply (Hpos k). rewrite lookup_insert_ne; [done|]. intros ->. congruence. }
  unfold highest. destruct (decide (mp' = ∅)) as [->|Hne].
  - rewrite (H0 eq_refl). cbn [Z.eqb orb]. split_and!.
    + intros Hn. by apply insert_non_empty in Hn.
    + intros k o [[<- ->]|[_ Hk]]%lookup_insert_Some; [lia|by rewrite lookup_empty in Hk].
    + intros _. exists i. apply lookup_insert_eq.
  - destruct (Hex Hne) as [k0 Hk0]. assert (0 < e) by (apply (Hpos k0); rewrite lookup_insert_ne; [done|congruence]).
    rewrite (proj2 (Z.eqb_neq e 0)) by lia. cbn [orb]. split_and!.
    + intros Hn. by apply insert_non_empty in Hn.
    + intros k o [[<- ->]|[_ Hk]]%lookup_insert_Some; [destruct (Z.ltb_spec e o); lia|]. specialize (Hle _ _ Hk).
      destruct (Z.ltb_spec e x); lia.
    + intros _. destruct (Z.ltb_spec e x); [exists i; apply lookup_insert_eq|]. exists k0. rewrite lookup_insert_ne; [done|congruence].
Qed.

Lemma wal_new_whole d r : wal_new d = Ok r -> len d <= u64_max -> whole r /\ data r = d /\ frame_n r = 0.
Proof.
  unfold wal_new, read_header. intros Hk Hl. destruct (read_at _ _ _) as [hdr|]; [|done].
  apply bind_Ok in Hk as (big & _ & Hk). destruct (wal_checksum _ _ _ _) as [v0 v1].
  apply reject_Ok in Hk as [_ Hk]. apply reject_Ok in Hk as [_ Hk]. apply reject_Ok in Hk as [Hps Hk]. guards_in Hps.
  apply Ok_inj in Hk. subst r. split; [by constructor|done].
Qed.

Lemma last_frame_ge frames i page j : last_frame frames i page = Some j -> i <= j.
Proof.
  revert i. induction frames as [|f frames IH]; intros i; cbn [last_frame]; [done|].
  destruct (last_frame frames (i + 1) page) as [k|] eqn:E; [intros [= <-]; specialize (IH _ E); lia|].
  case_match; [|done]. intros [= <-]. lia.
Qed.

(** C26: the page map of a log is the one of its committed frames. Opening a log and
    mapping it succeeds; a page is mapped exactly when it is within the size of the
    last commit record and occurs in a frame up to that record, and then to its last
    such frame. Frames past a torn or foreign frame, or after the last commit
    record, count for nothing. The end is the end of the highest mapped frame. *)
Theorem page_map_spec d r :
  wal_new d = Ok r -> len d <= u64_max ->
  let frames := committed (valid_frames (S (length d)) r (drop 32 d) (chksum1 r) (chksum2 r)) in
  exists r' mp ending c, page_map r = (r', Ok (mp, ending, c))
    /\ (forall page, mp !! page
        = if page <=? final_commit frames
          then (fun j => WAL_HEADER_SIZE + j * frame_size r) <$> last_frame frames 0 page else None)
    /\ (mp = ∅ -> ending = 0 /\ c = 0)
    /\ (mp <> ∅ -> c = final_commit frames
          /\ (exists page o, mp !! page = Some o /\ ending = o + frame_size r)
          /\ forall page o, mp !! page = Some o -> o + frame_size r <= ending).
Proof.
  intros Hr Hl. destruct (wal_new_whole d r Hr Hl) as (W & Hd & Hn). cbv zeta.
  assert (ahead r = drop 32 d) as Ea by (unfold ahead; by rewrite Hn, Hd).
  unfold page_map, frame_fuel. rewrite Hd.
  destruct (scan_frames_ok (S (length d)) r (MkScan ∅ ∅ 0) W) as (r' & -> & Hps); [rewrite Ea, length_drop; lia|].
  rewrite Ea, Hn. set (frames := valid_frames _ _ _ _ _). clearbody frames.
  destruct (scan_list_spec frames (MkScan ∅ ∅ 0) (frame_size r) 0) as [Hc Hm]. cbv zeta in Hc, Hm.
  set (s := scan_list _ _ _ _) in *. clearbody s. change (commit s = final_commit (committed frames)) in Hc.
  cbn [mbind result_bind]. set (kept := filter (fun e => e.1 <= commit s) (m s)).
  assert (forall page, kept !! page = if page <=? final_commit (committed frames)
     then (fun j => WAL_HEADER_SIZE + j * frame_size r) <$> last_frame (committed frames) 0 page else None) as Hk.
  { intros page. unfold kept. rewrite map_lookup_filter, Hm, Hc. cbn [m tx_map].
    assert ((match committed frames with [] => (∅ : gmap Z Z) !! page | _ => (∅ ∪ ∅ : gmap Z Z) !! page end) = None) as ->
      by (destruct (committed frames); by rewrite ?(left_id_L ∅ (∪)), lookup_empty).
    destruct (last_frame (committed frames) 0 page); cbn; [|by destruct (_ <=? _)].
    destruct (Z.leb_spec page (final_commit (committed frames))); [by rewrite option_guard_True by (cbn [fst]; lia)|].
    by rewrite option_guard_False by (cbn [fst]; lia). }
  assert (forall k o, kept !! k = Some o -> 0 < o) as Hpos.
  { intros k o Ho. rewrite Hk in Ho. destruct (k <=? _); [|done]. destruct (last_frame _ 0 k) as [j|] eqn:Ej; [|done].
    injection Ho as <-. apply last_frame_ge in Ej. pose proof (frame_size_bounds _ (w_size _ W)). unfold WAL_HEADER_SIZE. nia. }
  destruct (highest_spec kept Hpos) as (He0 & Hle & Hex). exists r'.
  case_bool_decide as Eb.
  - exists kept, 0, 0. split; [done|]. split; [done|]. split; [done|]. done.
  - eexists kept, _, _. split; [done|]. split; [done|]. split; [done|]. intros Hne. rewrite Hps.
    replace (WAL_FRAME_HEADER_SIZE + page_size r) with (frame_size r) by (unfold frame_size; lia). split; [done|]. split.
    + destruct (Hex Hne) as [k Hk0]. eexists k, _. done.
    + intros page o Ho. specialize (Hle _ _ Ho). lia.
Qed.

(** ** Resuming *)

(** [k] frames read one after the other. *)
Fixpoint read_frames (k : nat) (r : WalReader) : option WalReader :=
  match k with
  | O => Some r
  | S k => match read_frames k r with
           | Some r => match read_frame r (page_size r) with (r, Ok _) => Some r | (_, Err _) => None end
           | None => None
           end
  end.

(** A successful read, inverted. *)
Lemma read_frame_inv r r' x :
  whole r -> read_frame r (page_size r) = (r', Ok x) ->
  exists frame rest n1 n2, read_exact (Z.to_nat (frame_size r)) (ahead r) = Some (frame, rest)
    /\ salt1 r = be_u32 8 (take 24 frame) /\ salt2 r = be_u32 12 (take 24 frame)
    /\ n1 = be_u32 16 (take 24 frame) /\ n2 = be_u32 20 (take 24 frame) /\ r' = advance r n1 n2.
Proof.
  intros W Hk. pose proof (read_frame_end r W) as Hend.
  destruct (read_exact _ (ahead r)) as [[frame rest]|] eqn:Er.
  2: { destruct Hend as (r2 & E & _); [done|]. congruence. }
  destruct (frame_ok r frame (chksum1 r) (chksum2 r)) as [[n1 n2]|] eqn:Ef.
  2: { destruct Hend as (r2 & E & _); [done|]. congruence. }
  destruct (read_frame_valid r frame rest n1 n2 W Er Ef) as (E & -> & ->). rewrite E in Hk. injection Hk as <- <-.
  unfold frame_ok in Ef. destruct (wal_checksum _ _ _ (take 8 _)) as [a b]. destruct (wal_checksum _ a b _) as [x1 x2].
  destruct (_ && (x2 =? _)) eqn:Eg; [|done].
  apply andb_true_iff in Eg as [[[G1 G2]%andb_true_iff _]%andb_true_iff _]. apply Z.eqb_eq in G1, G2.
  exists frame, rest, (be_u32 16 (take 24 frame)), (be_u32 20 (take 24 frame)). done.
Qed.

(** A frame read without verification: the stored checksum is adopted. *)
Lemma read_frame_unverified r frame rest :
  whole r -> read_exact (Z.to_nat (frame_size r)) (ahead r) = Some (frame, rest) ->
  salt1 r = be_u32 8 (take 24 frame) -> salt2 r = be_u32 12 (take 24 frame) ->
  exists x, read_frame_inner r (page_size r) false
  = (advance r (be_u32 16 (take 24 frame)) (be_u32 20 (take 24 frame)), Ok x).
Proof.
  intros W Hr Hs1 Hs2. pose proof (frame_size_bounds _ (w_size _ W)) as Hfs. destruct (read_parts r W) as [E1 E2].
  apply slice_frame in Hr as [S1 S2]; [|lia]. rewrite Z2Nat.id in S2 by lia.
  unfold read_frame_inner. rewrite Z.eqb_refl, E1, S1. cbn [negb]. rewrite E2, S2, <- Hs1, <- Hs2, !Z.eqb_refl. cbn. by eexists.
Qed.

Definition same_log (r r' : WalReader) : Prop :=
  data r' = data r /\ tail_base r' = tail_base r /\ big_endian r' = big_endian r /\ page_size r' = page_size r
  /\ salt1 r' = salt1 r /\ salt2 r' = salt2 r.

Lemma read_frames_log k r rk :
  whole r -> read_frames k r = Some rk -> whole rk /\ same_log r rk /\ frame_n rk = frame_n r + Z.of_nat k.
Proof.
  intros W. revert rk. induction k as [|k IH]; intros rk; cbn [read_frames].
  { intros [= <-]. split; [done|]. split; [done|lia]. }
  destruct (read_frames k r) as [r1|] eqn:E1; [|done]. destruct (IH _ eq_refl) as (W1 & L1 & N1).
  destruct (read_frame r1 (page_size r1)) as [r2 [x|]] eqn:E2; [|done]. intros [= <-].
  destruct (read_frame_inv r1 r2 x W1 E2) as (f & rest & n1 & n2 & _ & _ & _ & _ & _ & ->).
  split; [by apply whole_advance|]. split; [done|]. cbn. lia.
Qed.

(** C27: a reader can be resumed anywhere it has been. If a reader over a log has read
    [k >= 1] frames from the start, verifying each checksum, then opening the log at
    the offset after the [k]th frame with the log's salts yields exactly that reader:
    same position, same running checksum, so everything read afterwards agrees. *)
Theorem resume_exact d r k rk :
  wal_new d = Ok r -> len d <= u64_max -> (1 <= k)%nat -> read_frames k r = Some rk ->
  new_with_offset d (WAL_HEADER_SIZE + Z.of_nat k * frame_size r) (salt1 r) (salt2 r) = Ok rk.
Proof.
  intros Hr Hl Hk Hrk. destruct (wal_new_whole d r Hr Hl) as (W & Hd & Hn).
  pose proof (frame_size_bounds _ (w_size _ W)) as Hfs.
  destruct k as [|k]; [lia|]. cbn [read_frames] in Hrk. destruct (read_frames k r) as [r1|] eqn:E1; [|done].
  destruct (read_frame r1 (page_size r1)) as [r2 [x|]] eqn:E2; [|done]. injection Hrk as ->.
  destruct (read_frames_log k r r1 W E1) as (W1 & (L1 & L2 & L3 & L4 & L5 & L6) & N1).
  destruct (read_frame_inv r1 rk x W1 E2) as (f & rest & n1 & n2 & Er & S1 & S2 & -> & -> & ->).
  unfold new_with_offset. rewrite (proj2 (Z.leb_gt _ _)) by nia.
  change (new_with_offset_inner d 0) with (wal_new d). rewrite Hr. cbn [mbind result_bind].
  unfold seek_to_offset. set (r0 := MkWal _ _ _ _ _ _ _ _ _). assert (r0 = r) as -> by (unfold r0; by destruct r).
  replace (WAL_HEADER_SIZE + Z.of_nat (S k) * frame_size r - WAL_HEADER_SIZE) with (Z.of_nat (S k) * frame_size r) by lia.
  rewrite Z.rem_mul, Z.quot_mul by lia. cbn [Z.eqb negb frame_n set_frame_n].
  set (r2 := set_frame_n _ _).
  assert (frame_size r2 = frame_size r1) as Ef by (unfold frame_size, r2; cbn; by rewrite L4).
  assert (ahead r2 = ahead r1) as Ea by (unfold ahead; rewrite Ef; unfold r2; cbn [frame_n data set_frame_n]; rewrite L1, N1, Hn; do 3 f_equal; lia).
  assert (whole r2) as W2 by (destruct W; constructor; cbn; try done; lia).
  destruct (read_frame_unverified r2 f rest W2) as (y & ->).
  - by rewrite Ef, Ea.
  - unfold r2. cbn. by rewrite <- L5.
  - unfold r2. cbn. by rewrite <- L6.
  - f_equal. unfold advance, set_frame_n, set_chksum, r2. cbn. rewrite L1, L2, L3, L4, L5, L6, N1, Hn. f_equal. lia.
Qed.

(** ** Tails *)

(** The image of a log that leaves out the bytes between the header and [tb]. *)
Definition tail_image (tb : Z) (d : list byte) : list byte := take 32 d ++ drop (Z.to_nat tb) d.

Definition tail_of (tb : Z) (r : WalReader) : WalReader :=
  MkWal (tail_image tb (data r)) tb (frame_n r) (big_endian r) (page_size r) (salt1 r) (salt2 r) (chksum1 r) (chksum2 r).

Definition map_ok {E A B} (f : A -> B) (x : result E A) : result E B :=
  match x with Ok a => Ok (f a) | Err e => Err e end.

Lemma read_at_tail tb r offset n :
  whole r -> 32 <= tb <= len (data r) -> tb <= offset -> 0 <= n -> read_at (tail_of tb r) offset n = read_at r offset n.
Proof.
  intros W Htb Ho Hn. rewrite (read_at_whole r) by (try done; lia). unfold read_at. cbn [tail_base tail_of data].
  rewrite (proj2 (Z.ltb_ge offset 0)), (proj2 (Z.eqb_neq tb 0)), (proj2 (Z.ltb_ge offset WAL_HEADER_SIZE)) by (unfold WAL_HEADER_SIZE; lia).
  cbn [orb]. unfold checked_sub_u64, checked_add_u64, WAL_HEADER_SIZE. pose proof (w_len _ W).
  rewrite (proj2 (Z.leb_le _ _)) by lia. cbn [mbind option_bind].
  assert (len (tail_image tb (data r)) = 32 + (len (data r) - tb)) as El
    by (unfold tail_image, len in *; rewrite length_app, length_take, length_drop; lia).
  destruct (Z.leb_spec (32 + (offset - tb) + n) u64_max); cbn [mbind option_bind].
  2: { unfold slice. rewrite (proj2 (Z.leb_gt (offset + n) _)) by lia. by rewrite andb_false_r. }
  rewrite El. destruct (Z.ltb_spec (32 + (len (data r) - tb)) (32 + (offset - tb) + n)).
  { unfold slice. rewrite (proj2 (Z.leb_gt (offset + n) _)) by lia. by rewrite andb_false_r. }
  unfold slice. rewrite El. rewrite !(proj2 (Z.leb_le _ _)) by lia. cbn [andb].
  f_equal. f_equal; [lia|]. unfold tail_image, len in *. rewrite drop_app_ge by (rewrite length_take; lia).
  rewrite length_take, drop_drop. f_equal. lia.
Qed.

Lemma read_frame_tail tb r buffer v :
  whole r -> 32 <= tb <= len (data r) -> tb <= WAL_HEADER_SIZE + frame_n r * frame_size r -> 0 <= buffer ->
  read_frame_inner (tail_of tb r) buffer v
  = (tail_of tb (read_frame_inner r buffer v).1, (read_frame_inner r buffer v).2).
Proof.
  intros W Htb Hf Hb. unfold read_frame_inner. change (page_size (tail_of tb r)) with (page_size r).
  destruct (negb (buffer =? page_size r)); [done|]. change (frame_n (tail_of tb r)) with (frame_n r).
  change (frame_size (tail_of tb r)) with (frame_size r).
  rewrite !read_at_tail by (try done; unfold WAL_FRAME_HEADER_SIZE in *; lia).
  destruct (read_at r _ _) as [hdr|]; [|done]. destruct (read_at r _ _) as [page|]; [|done].
  change (salt1 (tail_of tb r)) with (salt1 r). change (salt2 (tail_of tb r)) with (salt2 r).
  destruct (negb (salt1 r =? _) || _); [done|]. change (big_endian (tail_of tb r)) with (big_endian r).
  change (chksum1 (tail_of tb r)) with (chksum1 r). change (chksum2 (tail_of tb r)) with (chksum2 r).
  destruct (if v then _ else _) as [n1 n2]. by destruct (_ || _).
Qed.

Lemma read_at_header r : read_at r 0 WAL_HEADER_SIZE = slice (data r) 0 32.
Proof.
  unfold read_at. change (0 <? 0) with false. change (0 <? WAL_HEADER_SIZE) with true. rewrite orb_true_r.
  change (checked_add_u64 0 WAL_HEADER_SIZE) with (Some 32). cbn [mbind option_bind].
  change (checked_add_u64 0 WAL_HEADER_SIZE) with (Some 32). cbn [mbind option_bind].
  destruct (Z.ltb_spec (len (data r)) 32); [|done]. unfold slice. rewrite (proj2 (Z.leb_gt 32 _)) by lia. done.
Qed.

Lemma read_header_tail tb d :
  32 <= tb <= len d -> new_with_offset_inner (tail_image tb d) tb = map_ok (tail_of tb) (wal_new d).
Proof.
  intros Htb. unfold new_with_offset_inner, wal_new, read_header.
  set (t0 := MkWal (tail_image tb d) _ _ _ _ _ _ _ _). set (r0 := MkWal d _ _ _ _ _ _ _ _).
  assert (read_at t0 0 WAL_HEADER_SIZE = read_at r0 0 WAL_HEADER_SIZE) as ->.
  { rewrite !read_at_header. unfold t0, r0, tail_image. cbn [data]. unfold slice, len in *.
    rewrite length_app, length_take, length_drop. rewrite !(proj2 (Z.leb_le 32 _)) by lia. cbn [andb Z.leb Z.compare].
    change (Z.to_nat (32 - 0)) with 32%nat. change (Z.to_nat 0) with O. rewrite !drop_0.
    by rewrite take_app_le, take_take by (rewrite length_take; lia). }
  destruct (read_at r0 0 WAL_HEADER_SIZE) as [hdr|]; [|done].
  destruct (if be_u32 0 hdr =? WAL_MAGIC_LITTLE_ENDIAN then _ else _) as [big|]; [|done]. cbn [mbind result_bind].
  destruct (wal_checksum big 0 0 (take 24 hdr)) as [v0 v1].
  destruct (_ || _); [done|]. destruct (negb (_ =? WAL_VERSION)); [done|]. by destruct (negb (is_valid_page_size _)).
Qed.

Lemma whole_seek r n s1 s2 :
  whole r -> 0 <= n ->
  whole (set_frame_n (MkWal (data r) (tail_base r) (frame_n r) (big_endian r) (page_size r) s1 s2 (chksum1 r) (chksum2 r)) n).
Proof. intros [] Hn. by constructor. Qed.

(** Any read of a whole log leaves a reader of that log that is at least as far. *)
Lemma read_frame_whole r buffer v r' x :
  whole r -> read_frame_inner r buffer v = (r', x) ->
  whole r' /\ frame_n r <= frame_n r' /\ data r' = data r /\ page_size r' = page_size r.
Proof.
  intros W. unfold read_frame_inner. destruct (negb (buffer =? _)); [intros [= <- _]; by split_and!|].
  destruct (read_at r _ _) as [hdr|]; [|intros [= <- _]; by split_and!].
  destruct (read_at r _ _) as [page|]; [|intros [= <- _]; by split_and!].
  destruct (negb (salt1 r =? _) || _); [intros [= <- _]; by split_and!|]. destruct (if v then _ else _) as [n1 n2].
  destruct W. destruct (_ || _); intros [= <- _]; (split; [constructor; cbn; done || lia|]); cbn; split_and!; done || lia.
Qed.

Lemma scan_frames_tail fuel tb r s :
  whole r -> 32 <= tb <= len (data r) -> tb <= WAL_HEADER_SIZE + frame_n r * frame_size r ->
  scan_frames fuel (tail_of tb r) s = (tail_of tb (scan_frames fuel r s).1, (scan_frames fuel r s).2).
Proof.
  revert r s. induction fuel as [|fuel IH]; intros r s W Htb Hf; [done|]. cbn [scan_frames].
  pose proof (page_size_bounds _ (w_size _ W)) as [Hp _]. unfold read_frame.
  change (page_size (tail_of tb r)) with (page_size r). rewrite read_frame_tail by (try done; lia).
  destruct (read_frame_inner r (page_size r) true) as [r1 [[[p c] page]|e]] eqn:E1; cbn [fst snd].
  - destruct (read_frame_whole _ _ _ _ _ W E1) as (W1 & Hn & Hd & Hps). change (wal_offset (tail_of tb r1)) with (wal_offset r1).
    apply IH; [done|by rewrite Hd|]. unfold frame_size in *. rewrite Hps. pose proof (w_frame _ W).
    unfold WAL_FRAME_HEADER_SIZE in *. nia.
  - by destruct (is_eof e).
Qed.

Lemma valid_frames_fuel r fuel fuel' l c1 c2 :
  0 < frame_size r -> (length l < fuel)%nat -> (length l < fuel')%nat ->
  valid_frames fuel r l c1 c2 = valid_frames fuel' r l c1 c2.
Proof.
  intros Hfs. revert fuel' l c1 c2. induction fuel as [|fuel IH]; intros [|fuel'] l c1 c2 Hf Hf'; [lia..|]. cbn [valid_frames].
  destruct (read_exact _ l) as [[frame rest]|] eqn:E; [|done]. apply read_exact_Some in E as [-> El]. rewrite length_app in *.
  destruct (frame_ok r frame c1 c2) as [[n1 n2]|]; [|done]. f_equal. apply IH; lia.
Qed.

(** The page map from a position, whole or tail. *)
Lemma page_map_tail tb r :
  whole r -> 32 <= tb <= len (data r) -> tb <= WAL_HEADER_SIZE + frame_n r * frame_size r ->
  (page_map (tail_of tb r)).2 = (page_map r).2.
Proof.
  intros W Htb Hf. unfold page_map. rewrite scan_frames_tail by done.
  pose proof (frame_size_bounds _ (w_size _ W)) as Hfs. pose proof (w_frame _ W) as Hn.
  assert (length (ahead r) <= length (data r) - Z.to_nat tb)%nat as Hla.
  { unfold ahead. rewrite length_drop. lia. }
  assert (frame_fuel (tail_of tb r) = S (32 + (length (data r) - Z.to_nat tb)))%nat as Eff.
  { unfold frame_fuel, tail_of, tail_image. cbn [data]. rewrite length_app, length_take, length_drop. unfold len in Htb. lia. }
  destruct (scan_frames_ok (frame_fuel (tail_of tb r)) r (MkScan ∅ ∅ 0) W) as (r1 & -> & P1); [lia|].
  destruct (scan_frames_ok (frame_fuel r) r (MkScan ∅ ∅ 0) W) as (r2 & -> & P2); [unfold frame_fuel; lia|].
  cbn [fst snd]. rewrite (valid_frames_fuel r (frame_fuel (tail_of tb r)) (frame_fuel r)) by (unfold frame_fuel in *; lia).
  change (page_size (tail_of tb r1)) with (page_size r1). by rewrite P1, P2.
Qed.

Lemma seek_tail tb r offset s1 s2 :
  whole r -> 32 <= tb <= len (data r) -> tb + frame_size r <= offset ->
  seek_to_offset (tail_of tb r) offset s1 s2 = map_ok (tail_of tb) (seek_to_offset r offset s1 s2)
  /\ forall r', seek_to_offset r offset s1 s2 = Ok r' ->
       whole r' /\ data r' = data r /\ tb <= WAL_HEADER_SIZE + frame_n r' * frame_size r'.
Proof.
  intros W Htb Ho. pose proof (frame_size_bounds _ (w_size _ W)) as Hfs. pose proof (page_size_bounds _ (w_size _ W)) as [Hp _].
  unfold seek_to_offset. cbv zeta. set (r0 := MkWal (data r) _ _ _ _ _ _ _ _).
  set (t0 := MkWal (data (tail_of tb r)) _ _ _ _ _ _ _ _). change t0 with (tail_of tb r0).
  change (frame_size (tail_of tb r0)) with (frame_size r0). change (frame_size r0) with (frame_size r).
  destruct (Z.eqb_spec (Z.rem (offset - WAL_HEADER_SIZE) (frame_size r)) 0) as [Em|Em]; cbn [negb]; [|done].
  set (q := Z.quot (offset - WAL_HEADER_SIZE) (frame_size r)).
  assert (offset - WAL_HEADER_SIZE = q * frame_size r) as Eq
    by (pose proof (Z.quot_rem' (offset - WAL_HEADER_SIZE) (frame_size r)); fold q in H; lia).
  assert (1 <= q) as Hq by (unfold WAL_HEADER_SIZE in *; nia).
  set (r1 := set_frame_n (set_frame_n r0 q) _).
  change (set_frame_n (set_frame_n (tail_of tb r0) q) _) with (tail_of tb r1).
  assert (whole r1) as W1 by (apply whole_seek; [done|cbn; lia]).
  assert (frame_n r1 = q - 1) as N1 by done. assert (frame_size r1 = frame_size r) as F1 by done.
  change (page_size (tail_of tb r1)) with (page_size r1). change (page_size r1) with (page_size r) in *.
  rewrite read_frame_tail by (try done; rewrite ?N1, ?F1; unfold WAL_HEADER_SIZE in *; nia).
  destruct (read_frame_inner r1 (page_size r) false) as [r2 [x|e]] eqn:E2; cbn [fst snd map_ok]; [|done].
  split; [done|]. intros r' [= <-]. destruct (read_frame_whole _ _ _ _ _ W1 E2) as (W2 & Hn & Hd & Hps).
  split; [done|]. split; [done|]. unfold frame_size. rewrite Hps. change (page_size r1 + WAL_FRAME_HEADER_SIZE) with (frame_size r).
  unfold WAL_HEADER_SIZE in *. nia.
Qed.

(** A tail is as good as the log. Reading the header of a log and its bytes from
    [tb] on, instead of the whole file, opens at an offset at least a frame past
    [tb] exactly when the whole log does, with the same error otherwise; the two
    readers are in the same position with the same checksum, and their page maps
    are equal. *)
Theorem tail_exact d tb offset s1 s2 :
  len d <= u64_max -> 32 <= tb <= len d -> tb < offset ->
  (forall r, wal_new d = Ok r -> tb + frame_size r <= offset) ->
  new_with_offset_over_tail (tail_image tb d) tb offset s1 s2 = map_ok (tail_of tb) (new_with_offset d offset s1 s2)
  /\ forall r, new_with_offset d offset s1 s2 = Ok r -> (page_map (tail_of tb r)).2 = (page_map r).2.
Proof.
  intros Hl Htb Ho Hf. unfold new_with_offset_over_tail, new_with_offset.
  rewrite !(proj2 (Z.ltb_ge _ _)), (proj2 (Z.leb_gt _ _)) by (unfold WAL_HEADER_SIZE; lia). cbn [orb].
  rewrite read_header_tail by done. change (new_with_offset_inner d 0) with (wal_new d).
  destruct (wal_new d) as [r|e] eqn:Er; [|done]. cbn [map_ok mbind result_bind].
  destruct (wal_new_whole d r Er Hl) as (W & Hd & _).
  destruct (seek_tail tb r offset s1 s2 W ltac:(by rewrite Hd) (Hf r eq_refl)) as [Hs Hr].
  split; [done|]. intros r' (W' & Hd' & Hb)%Hr. apply page_map_tail; [done|by rewrite Hd', Hd|done].
Qed.

(** * Witnesses: a log of three frames, the second of them a commit record *)

Definition demo_header : list byte :=
  let h := to_be 4 WAL_MAGIC_BIG_ENDIAN ++ to_be 4 WAL_VERSION ++ to_be 4 512 ++ to_be 4 0 ++ to_be 4 11 ++ to_be 4 12 in
  let '(a, b) := wal_checksum true 0 0 h in h ++ to_be 4 a ++ to_be 4 b.
Definition demo_frame (c : Z * Z) (pgno fcommit : Z) (page : list byte) : list byte * (Z * Z) :=
  let h := to_be 4 pgno ++ to_be 4 fcommit in
  let '(a, b) := wal_checksum true c.1 c.2 h in
  let '(a, b) := wal_checksum true a b page in
  (h ++ to_be 4 11 ++ to_be 4 12 ++ to_be 4 a ++ to_be 4 b ++ page, (a, b)).
Definition demo_log : list byte :=
  let c := (be_u32 24 demo_header, be_u32 28 demo_header) in
  let '(f1, c) := demo_frame c 1 0 (repeat "a"%byte 512) in
  let '(f2, c) := demo_frame c 2 2 (repeat "b"%byte 512) in
  let '(f3, _) := demo_frame c 1 0 (repeat "c"%byte 512) in
  demo_header ++ f1 ++ f2 ++ f3.
Definition reader_of (r : WalResult WalReader) : WalReader :=
  match r with Ok r => r | Err _ => MkWal [] 0 0 false 0 0 0 0 0 end.
Definition demo_reader : WalReader := reader_of (wal_new demo_log).

Lemma demo_opens : wal_new demo_log = Ok demo_reader.
Proof. by vm_compute. Qed.
Lemma demo_fits : len demo_log <= u64_max.
Proof. by vm_compute. Qed.

Lemma page_map_spec_witness :
  exists r' mp ending c, page_map demo_reader = (r', Ok (mp, ending, c)) /\ mp !! 1 = Some 32 /\ mp !! 2 = Some 568.
Proof.
  destruct (page_map_spec demo_log demo_reader demo_opens demo_fits) as (r' & mp & ending & c & Hp & Hm & _).
  exists r', mp, ending, c. split; [exact Hp|]. rewrite !Hm. clear Hp Hm. vm_compute. split; reflexivity.
Defined.

Definition demo_resumed : WalReader :=
  reader_of (new_with_offset demo_log (WAL_HEADER_SIZE + 2 * frame_size demo_reader) (salt1 demo_reader) (salt2 demo_reader)).

Lemma resume_exact_witness :
  new_with_offset demo_log (WAL_HEADER_SIZE + Z.of_nat 2 * frame_size demo_reader) (salt1 demo_reader) (salt2 demo_reader)
  = Ok demo_resumed.
Proof.
  apply (resume_exact demo_log demo_reader 2 demo_resumed demo_opens demo_fits).
  - lia.
  - by vm_compute.
Defined.

Lemma tail_exact_witness :
  new_with_offset_over_tail (tail_image 568 demo_log) 568 1104 11 12
  = map_ok (tail_of 568) (new_with_offset demo_log 1104 11 12).
Proof.
  apply (tail_exact demo_log 568 1104 11 12 demo_fits).
  - by vm_compute.
  - lia.
  - intros r Hr. rewrite demo_opens in Hr. apply Ok_inj in Hr. subst r. vm_compute. discriminate.
Defined.
