(* ===== verification/Control.v ===== *)
(** * Control: the durable owner/root record of a Cell and its transitions

    Models [crates/cellule-runtime/src/control/mod.rs]. A [Control] is the whole
    authority of a Cell: its ownership epoch, its owner, its published root and
    a pinned recovery overlay. [validate] is the record's well-formedness,
    [validate_transition] the predicate every conditional update must pass, and
    the builders ([renew], [takeover], [publish_prepared], ...) produce the
    successors the runtime proposes.

    The theorems are about chains of validated transitions: an epoch has one
    owner, revisions and epochs only grow, the published root never regresses
    or forks, a tombstone is final, and each builder returns the only successor
    its transition admits. *)

From Stdlib Require Import ZArith Lia.
From Stdlib Require Import Strings.Byte.
From stdpp Require Import base list gmap strings relations.
From S2P Require Import Prelude Bytes Identity LtxTypes.

Local Open Scope bool_scope.

(** ** Data *)

(*@ control/mod.rs 24-33 RootRef *)
Record RootRef := MkRoot {
  digest : Digest;
  txid : Z;
  checksum : Z;
  commit_sequence : Z
}.

(** [cellule_ltx::RootRef], with its [Position] flattened. *)
(*@ cellule-ltx/src/replica/mod.rs 63-74 RootRef *)
Record LtxRootRef := MkLtxRoot {
  ltx_cell : CellId;
  ltx_incarnation : IncarnationId;
  ltx_digest : Digest;
  position_txid : Z;
  position_checksum : Z;
  ltx_commit_sequence : Z
}.

(** What the control record reads of a [cellule_ltx::PreparedRoot]: the root, the
    root it supersedes and the verified schema. *)
(*@ cellule-ltx/src/replica/mod.rs 135-138 PreparedRoot *)
Record PreparedRoot := MkPrepared {
  prepared_predecessor : option LtxRootRef;
  prepared_root : LtxRootRef;
  prepared_schema : Z
}.

(*@ control/mod.rs 77-82 OwnerFence *)
Record OwnerFence := MkFence { fence_incarnation : IncarnationId; fence_epoch : Z }.

(*@ control/mod.rs 86-91 Owner *)
Record Owner := MkOwner { session : SessionId; endpoint : str }.

(*@ control/mod.rs 95-102 BundleBindingRef *)
Record BundleBindingRef := MkBinding {
  binding_session : SessionId;
  binding_epoch : Z;
  binding_digest : Digest
}.

(*@ control/mod.rs 106-125 RecoveryOverlayRef *)
Record RecoveryOverlayRef := MkOverlay {
  leader_session : SessionId;
  log_epoch : Z;
  manifest_digest : Digest;
  first_node_sequence : Z;
  last_node_sequence : Z;
  predecessor : RootRef;
  final_txid : Z;
  final_checksum : Z;
  final_commit_sequence : Z
}.

(*@ control/mod.rs 152-161 ControlState *)
Inductive ControlState := Recovering | Serving | Idle | Tombstoned.

(*@ control/mod.rs 165-192 Control *)
Record Control := MkControl {
  cell : CellId;
  incarnation : IncarnationId;
  epoch : Z;
  revision : Z;
  progress : Z;
  state : ControlState;
  owner : option Owner;
  root : option RootRef;
  recovery : option RecoveryOverlayRef;
  bundle_binding : option BundleBindingRef;
  code : Digest;
  schema : Z;
  next_due_ms : option Z
}.

Module Transition.
(*@ control/mod.rs 196-217 Transition *)
Inductive Transition :=
| BindBundle | Renew | Activate | Publish | Migrate | Release
| AttachRecovery | PublishRecovery | Takeover | Tombstone.
End Transition.
Abbreviation Transition := Transition.Transition.

Global Instance RootRef_eq_dec : EqDecision RootRef.
Proof. solve_decision. Defined.
Global Instance LtxRootRef_eq_dec : EqDecision LtxRootRef.
Proof. solve_decision. Defined.
Global Instance Owner_eq_dec : EqDecision Owner.
Proof. solve_decision. Defined.
Global Instance BundleBindingRef_eq_dec : EqDecision BundleBindingRef.
Proof. solve_decision. Defined.
Global Instance RecoveryOverlayRef_eq_dec : EqDecision RecoveryOverlayRef.
Proof. solve_decision. Defined.
Global Instance ControlState_eq_dec : EqDecision ControlState.
Proof. solve_decision. Defined.
Global Instance Control_eq_dec : EqDecision Control.
Proof. solve_decision. Defined.
Global Instance Transition_eq_dec : EqDecision Transition.
Proof. solve_decision. Defined.

(** ** Roots *)

(*@ control/mod.rs 37-51 RootRef::from_ltx *)
Definition from_ltx (cell : CellId) (incarnation : IncarnationId) (r : LtxRootRef)
  : Result RootRef :=
  if negb (eqb_of (ltx_cell r) cell) || negb (eqb_of (ltx_incarnation r) incarnation) then
    Err (Error.Control "prepared root changed Cell scope")
  else Ok {| digest := ltx_digest r; txid := position_txid r;
             checksum := position_checksum r; commit_sequence := ltx_commit_sequence r |}.

(*@ control/mod.rs 55-66 RootRef::to_ltx *)
Definition to_ltx (r : RootRef) (cell : CellId) (incarnation : IncarnationId) : LtxRootRef :=
  {| ltx_cell := cell; ltx_incarnation := incarnation; ltx_digest := digest r;
     position_txid := txid r; position_checksum := checksum r;
     ltx_commit_sequence := commit_sequence r |}.

(*@ control/mod.rs 305-309 Control::ltx_root *)
Definition ltx_root (c : Control) : option LtxRootRef :=
  (fun r => to_ltx r (cell c) (incarnation c)) <$> root c.

(*@ control/mod.rs 245-250 Control::owner_fence *)
Definition owner_fence (c : Control) : OwnerFence :=
  {| fence_incarnation := incarnation c; fence_epoch := epoch c |}.

(** ** Well-formedness *)

Definition flagged (checksum : Z) : bool := negb (Z.land checksum CHECKSUM_FLAG =? 0).

(*@ control/mod.rs 128-146 RecoveryOverlayRef::validate *)
Definition validate_overlay (r : RecoveryOverlayRef) : Result unit :=
  if all_zero (leader_session r) || all_zero (manifest_digest r)
     || (log_epoch r =? 0) || (first_node_sequence r =? 0)
     || (last_node_sequence r <? first_node_sequence r)
     || (final_txid r <=? txid (predecessor r))
     || negb (flagged (final_checksum r))
     || (final_commit_sequence r <=? commit_sequence (predecessor r))
     || (i64_max <? final_commit_sequence r) then
    Err (Error.Control "invalid recovery overlay")
  else Ok tt.

(** [str::chars().any(char::is_control)]: the category Cc is U+0000..U+001F,
    U+007F and U+0080..U+009F, the last range encoded as [C2 80]..[C2 9F]. *)
Fixpoint any_control_char (s : str) : bool :=
  match s with
  | [] => false
  | b :: s' =>
      (byte_val b <? 32) || (byte_val b =? 127)
      || ((byte_val b =? 194)
          && match s' with
             | c :: _ => (128 <=? byte_val c) && (byte_val c <=? 159)
             | [] => false
             end)
      || any_control_char s'
  end.

Definition invalid_binding (c : Control) : bool :=
  match bundle_binding c with
  | None => false
  | Some b =>
      (binding_epoch b =? 0) || all_zero (binding_session b) || all_zero (binding_digest b)
      || negb (eqb_of (state c) Serving)
      || is_some_and (fun r => negb (eqb_of (leader_session r) (binding_session b))
                               || negb (log_epoch r =? binding_epoch b)) (recovery c)
      || is_none_or (fun o => negb (eqb_of (session o) (binding_session b))) (owner c)
  end.

Definition invalid_endpoint (o : Owner) : bool :=
  (length (endpoint o) =? 0)%nat || (512 <? length (endpoint o))%nat
  || any_control_char (endpoint o).

Definition invalid_root (r : RootRef) : bool :=
  (txid r =? 0) || negb (flagged (checksum r)) || (i64_max <? commit_sequence r).

Definition state_matches (c : Control) : bool :=
  match state c with
  | Recovering => is_some (owner c)
  | Serving => is_some (owner c) && is_some (root c)
  | Idle | Tombstoned => is_none (owner c)
  end.

(*@ control/mod.rs 716-766 Control::validate *)
Definition validate (c : Control) : Result unit :=
  if (epoch c =? 0) || (revision c =? 0) || (schema c =? 0) then
    Err (Error.Control "zero epoch, revision, or schema")
  else if is_some_and (fun v => v <? 0) (next_due_ms c) then
    Err (Error.Control "negative next due time")
  else if invalid_binding c then Err (Error.Control "invalid bundle binding")
  else if is_some_and invalid_endpoint (owner c) then
    Err (Error.Control "invalid owner endpoint")
  else if is_some_and invalid_root (root c) then Err (Error.Control "invalid recovery root")
  else
    _ ← match recovery c with
        | None => Ok tt
        | Some r =>
            _ ← validate_overlay r;
            if negb (eqb_of (root c) (Some (predecessor r))) then
              Err (Error.Control "recovery overlay does not match control")
            else Ok tt
        end;
    if state_matches c then Ok tt else Err (Error.Control "owner/root do not match state").

(*@ control/mod.rs 769-781 valid_root_successor *)
Definition valid_root_successor (previous next : option RootRef) : bool :=
  match next with
  | None => false
  | Some next =>
      match previous with
      | None => true
      | Some previous =>
          if (txid next <? txid previous)
             || (commit_sequence next <? commit_sequence previous) then false
          else negb (txid next =? txid previous)
               || ((checksum next =? checksum previous)
                   && (commit_sequence next =? commit_sequence previous))
      end
  end.

(*@ control/mod.rs 783-791 valid_migration_version *)
Definition valid_migration_version (current_code : Digest) (current_schema : Z)
    (next_code : Digest) (next_schema : Z) : bool :=
  eqb_of (checked_add_u32 current_schema 1) (Some next_schema)
  || ((current_schema =? next_schema) && negb (eqb_of current_code next_code)).

(** ** Transition predicates

    One boolean per arm: the disjunction under which the arm returns its error. *)
Local Infix "≟" := eqb_of (at level 70).
Local Notation "x ≠? y" := (negb (eqb_of x y)) (at level 70).

(** [self.epoch.checked_add(1) != Some(next.epoch)]. *)
Definition not_successor (a b : Z) : bool := checked_add_u64 a 1 ≠? Some b.

Definition writer_state (s : ControlState) : bool :=
  match s with Recovering | Serving => true | _ => false end.

(** The fields every transition except a migration or publication protects. *)
Definition version_changed (c n : Control) : bool :=
  (code c ≠? code n) || (schema c ≠? schema n).

(*@ control/mod.rs 546-558 validate_transition::BindBundle *)
Definition bad_bind_bundle (c n : Control) : bool :=
  let expected :=
    {| cell := cell c; incarnation := incarnation c; epoch := epoch c;
       revision := revision n; progress := progress n; state := state c;
       owner := owner c; root := root c; recovery := recovery c;
       bundle_binding := bundle_binding n; code := code c; schema := schema c;
       next_due_ms := next_due_ms c |} in
  (state c ≠? Serving) || is_some (bundle_binding c) || is_none (bundle_binding n)
  || (expected ≠? n).

(*@ control/mod.rs 559-571 validate_transition::Renew *)
Definition bad_renew (c n : Control) : bool :=
  (epoch c ≠? epoch n) || (state c ≠? state n) || (owner c ≠? owner n)
  || (root c ≠? root n) || (recovery c ≠? recovery n)
  || version_changed c n || (next_due_ms c ≠? next_due_ms n).

(*@ control/mod.rs 572-587 validate_transition::Activate *)
Definition bad_activate (c n : Control) : bool :=
  (state c ≠? Recovering) || (state n ≠? Serving) || (epoch c ≠? epoch n)
  || (owner c ≠? owner n) || is_none (root c) || (root c ≠? root n)
  || is_some (recovery c) || is_some (recovery n)
  || version_changed c n || (next_due_ms c ≠? next_due_ms n).

(*@ control/mod.rs 588-602 validate_transition::Publish *)
Definition bad_publish (c n : Control) : bool :=
  negb (writer_state (state c)) || (state n ≠? Serving) || (epoch c ≠? epoch n)
  || (owner c ≠? owner n) || is_none (root n) || is_some (recovery c) || is_some (recovery n)
  || version_changed c n || negb (valid_root_successor (root c) (root n)).

(*@ control/mod.rs 603-618 validate_transition::Migrate *)
Definition bad_migrate (c n : Control) : bool :=
  is_some (bundle_binding c) || negb (writer_state (state c)) || (state n ≠? Serving)
  || (epoch c ≠? epoch n) || (owner c ≠? owner n) || is_none (root n)
  || is_some (recovery c) || is_some (recovery n) || all_zero (code n)
  || negb (valid_migration_version (code c) (schema c) (code n) (schema n))
  || negb (valid_root_successor (root c) (root n)).

(*@ control/mod.rs 619-636 validate_transition::Release *)
Definition bad_release (c n : Control) : bool :=
  negb (writer_state (state c)) || is_some (bundle_binding n) || (state n ≠? Idle)
  || is_some (owner n) || is_none (root n) || is_some (recovery c) || is_some (recovery n)
  || (epoch c ≠? epoch n) || (root c ≠? root n) || (recovery c ≠? recovery n)
  || version_changed c n || (next_due_ms c ≠? next_due_ms n).

(*@ control/mod.rs 637-656 validate_transition::AttachRecovery *)
Definition bad_attach_recovery (c n : Control) : bool :=
  match recovery n with
  | None => true
  | Some r =>
      (state c ≟ Tombstoned) || is_some (recovery c) || (epoch c ≠? epoch n)
      || (state c ≠? state n) || ((session <$> owner c) ≠? Some (leader_session r))
      || (owner c ≠? owner n) || (root c ≠? Some (predecessor r)) || (root c ≠? root n)
      || version_changed c n || (next_due_ms c ≠? next_due_ms n)
  end.

(*@ control/mod.rs 657-679 validate_transition::PublishRecovery *)
Definition bad_publish_recovery (c n : Control) : bool :=
  match recovery c with
  | None => true
  | Some r =>
      let original_bound_writer := (state c ≟ Serving) && is_some (bundle_binding c) in
      ((state c ≠? Recovering) && negb original_bound_writer) || (state n ≠? state c)
      || is_some (recovery n) || (epoch c ≠? epoch n) || (owner c ≠? owner n)
      || (root c ≠? Some (predecessor r))
      || is_none_or (fun root => negb (txid root =? final_txid r)
                                 || negb (checksum root =? final_checksum r)
                                 || negb (commit_sequence root =? final_commit_sequence r))
           (root n)
      || version_changed c n
  end.

(*@ control/mod.rs 680-695 validate_transition::Takeover *)
Definition bad_takeover (c n : Control) : bool :=
  (state c ≟ Tombstoned) || is_some (bundle_binding n) || (state n ≠? Recovering)
  || is_none (owner n) || (owner c ≟ owner n) || not_successor (epoch c) (epoch n)
  || (root c ≠? root n) || (recovery c ≠? recovery n)
  || version_changed c n || (next_due_ms c ≠? next_due_ms n).

(*@ control/mod.rs 696-711 validate_transition::Tombstone *)
Definition bad_tombstone (c n : Control) : bool :=
  (state c ≟ Tombstoned) || is_some (bundle_binding n) || (state n ≠? Tombstoned)
  || is_some (owner n) || not_successor (epoch c) (epoch n) || (root c ≠? root n)
  || is_some (recovery c) || is_some (recovery n)
  || version_changed c n || (next_due_ms c ≠? next_due_ms n).

Definition changes_binding (t : Transition) : bool :=
  match t with
  | Transition.BindBundle | Transition.Release | Transition.Takeover | Transition.Tombstone => true
  | _ => false
  end.

Definition bad_transition (t : Transition) (c n : Control) : bool * string :=
  match t with
  | Transition.BindBundle => (bad_bind_bundle c n, "invalid bundle binding transition")
  | Transition.Renew => (bad_renew c n, "renew changed protected fields")
  | Transition.Activate => (bad_activate c n, "invalid activation transition")
  | Transition.Publish => (bad_publish c n, "invalid publish transition")
  | Transition.Migrate => (bad_migrate c n, "invalid migration transition")
  | Transition.Release => (bad_release c n, "invalid release transition")
  | Transition.AttachRecovery => (bad_attach_recovery c n, "invalid recovery attachment")
  | Transition.PublishRecovery => (bad_publish_recovery c n, "invalid recovery publication")
  | Transition.Takeover => (bad_takeover c n, "invalid takeover transition")
  | Transition.Tombstone => (bad_tombstone c n, "invalid tombstone transition")
  end%string.

(*@ control/mod.rs 524-545 Control::validate_transition *)
Definition validate_transition (c n : Control) (t : Transition) : Result unit :=
  _ ← validate c;
  _ ← validate n;
  if (cell c ≠? cell n) || (incarnation c ≠? incarnation n) then
    Err (Error.Control "successor changed Cell scope")
  else if not_successor (revision c) (revision n) || not_successor (progress c) (progress n) then
    Err (Error.Control "successor revision or progress")
  else if negb (changes_binding t) && (bundle_binding c ≠? bundle_binding n) then
    Err (Error.Control "successor changed bundle binding")
  else
    let '(bad, message) := bad_transition t c n in
    if bad then Err (Error.Control message) else Ok tt.

(** ** Builders *)

(** The checked increments of revision and progress every builder performs. *)
Definition bumped (c : Control) : Result (Z * Z) :=
  r ← ok_or (checked_add_u64 (revision c) 1) (Error.Control "revision overflow");
  p ← ok_or (checked_add_u64 (progress c) 1) (Error.Control "progress overflow");
  Ok (r, p).

(** Return a proposed successor once its transition validates. *)
Definition proposed (c n : Control) (t : Transition) : Result Control :=
  _ ← validate_transition c n t; Ok n.

(*@ control/mod.rs 253-277 Control::initial *)
Definition initial (cell : CellId) (incarnation : IncarnationId) (o : Owner)
    (code : Digest) (schema : Z) : Result Control :=
  let c := {| cell := cell; incarnation := incarnation; epoch := 1; revision := 1;
              progress := 1; state := Recovering; owner := Some o; root := None;
              recovery := None; bundle_binding := None; code := code; schema := schema;
              next_due_ms := None |} in
  _ ← validate c; Ok c.

(*@ control/mod.rs 311-327 Control::is_same_or_pure_renewal_of *)
Definition is_same_or_pure_renewal_of (c previous : Control) : bool :=
  let revisions := checked_sub_u64 (revision c) (revision previous) in
  let progresses := checked_sub_u64 (progress c) (progress previous) in
  is_some revisions && (revisions ≟ progresses)
  && (cell previous ≟ cell c) && (incarnation previous ≟ incarnation c)
  && (epoch previous ≟ epoch c) && (state previous ≟ state c)
  && (owner previous ≟ owner c) && (root previous ≟ root c)
  && (recovery previous ≟ recovery c) && (bundle_binding previous ≟ bundle_binding c)
  && (code previous ≟ code c) && (schema previous ≟ schema c)
  && (next_due_ms previous ≟ next_due_ms c).

(*@ control/mod.rs 330-342 Control::renew *)
Definition renew (c : Control) : Result Control :=
  '(r, p) ← bumped c;
  proposed c
    {| cell := cell c; incarnation := incarnation c; epoch := epoch c; revision := r;
       progress := p; state := state c; owner := owner c; root := root c;
       recovery := recovery c; bundle_binding := bundle_binding c; code := code c;
       schema := schema c; next_due_ms := next_due_ms c |} Transition.Renew.

(*@ control/mod.rs 345-358 Control::activate *)
Definition activate (c : Control) : Result Control :=
  '(r, p) ← bumped c;
  proposed c
    {| cell := cell c; incarnation := incarnation c; epoch := epoch c; revision := r;
       progress := p; state := Serving; owner := owner c; root := root c;
       recovery := recovery c; bundle_binding := bundle_binding c; code := code c;
       schema := schema c; next_due_ms := next_due_ms c |} Transition.Activate.

(*@ control/mod.rs 361-380 Control::takeover *)
Definition takeover (c : Control) (o : Owner) : Result Control :=
  e ← ok_or (checked_add_u64 (epoch c) 1) (Error.Control "epoch overflow");
  '(r, p) ← bumped c;
  proposed c
    {| cell := cell c; incarnation := incarnation c; epoch := e; revision := r;
       progress := p; state := Recovering; owner := Some o; root := root c;
       recovery := recovery c; bundle_binding := None; code := code c;
       schema := schema c; next_due_ms := next_due_ms c |} Transition.Takeover.

(*@ control/mod.rs 383-396 Control::attach_recovery *)
Definition attach_recovery (c : Control) (overlay : RecoveryOverlayRef) : Result Control :=
  '(r, p) ← bumped c;
  proposed c
    {| cell := cell c; incarnation := incarnation c; epoch := epoch c; revision := r;
       progress := p; state := state c; owner := owner c; root := root c;
       recovery := Some overlay; bundle_binding := bundle_binding c; code := code c;
       schema := schema c; next_due_ms := next_due_ms c |} Transition.AttachRecovery.

(*@ control/mod.rs 399-434 Control::publish_recovery *)
Definition publish_recovery (c : Control) (prepared : PreparedRoot) (due : option Z)
  : Result Control :=
  overlay ← ok_or (recovery c) (Error.Control "recovery overlay is not pinned");
  let expected := to_ltx (predecessor overlay) (cell c) (incarnation c) in
  let r := prepared_root prepared in
  if (prepared_predecessor prepared ≠? Some expected)
     || (prepared_schema prepared ≠? schema c)
     || (position_txid r ≠? final_txid overlay)
     || (position_checksum r ≠? final_checksum overlay)
     || (ltx_commit_sequence r ≠? final_commit_sequence overlay) then
    Err (Error.Control "prepared recovery does not match pinned overlay")
  else
    '(rev, p) ← bumped c;
    published ← from_ltx (cell c) (incarnation c) r;
    proposed c
      {| cell := cell c; incarnation := incarnation c; epoch := epoch c; revision := rev;
         progress := p; state := state c; owner := owner c; root := Some published;
         recovery := None; bundle_binding := bundle_binding c; code := code c;
         schema := schema c; next_due_ms := due |} Transition.PublishRecovery.

(*@ control/mod.rs 437-464 Control::publish_prepared *)
Definition publish_prepared (c : Control) (prepared : PreparedRoot) (due : option Z)
  : Result Control :=
  if (prepared_predecessor prepared ≠? ltx_root c) || (prepared_schema prepared ≠? schema c) then
    Err (Error.Control "prepared root does not continue control")
  else
    '(rev, p) ← bumped c;
    published ← from_ltx (cell c) (incarnation c) (prepared_root prepared);
    proposed c
      {| cell := cell c; incarnation := incarnation c; epoch := epoch c; revision := rev;
         progress := p; state := Serving; owner := owner c; root := Some published;
         recovery := recovery c; bundle_binding := bundle_binding c; code := code c;
         schema := schema c; next_due_ms := due |} Transition.Publish.

(*@ control/mod.rs 467-503 Control::migrate_prepared *)
Definition migrate_prepared (c : Control) (prepared : PreparedRoot) (due : option Z)
    (new_code : Digest) (new_schema : Z) : Result Control :=
  if (prepared_predecessor prepared ≠? ltx_root c) || (prepared_schema prepared ≠? new_schema)
     || all_zero new_code
     || negb (valid_migration_version (code c) (schema c) new_code new_schema) then
    Err (Error.Control "prepared migration does not continue control")
  else
    '(rev, p) ← bumped c;
    published ← from_ltx (cell c) (incarnation c) (prepared_root prepared);
    proposed c
      {| cell := cell c; incarnation := incarnation c; epoch := epoch c; revision := rev;
         progress := p; state := Serving; owner := owner c; root := Some published;
         recovery := recovery c; bundle_binding := bundle_binding c; code := new_code;
         schema := new_schema; next_due_ms := due |} Transition.Migrate.

(*@ control/mod.rs 506-521 Control::release *)
Definition release (c : Control) : Result Control :=
  '(r, p) ← bumped c;
  proposed c
    {| cell := cell c; incarnation := incarnation c; epoch := epoch c; revision := r;
       progress := p; state := Idle; owner := None; root := root c;
       recovery := recovery c; bundle_binding := None; code := code c;
       schema := schema c; next_due_ms := next_due_ms c |} Transition.Release.

(** ** Reading the predicates *)

Lemma not_successor_false a b : not_successor a b = false <-> b = a + 1 /\ a + 1 <= u64_max.
Proof.
  unfold not_successor. rewrite negb_false_iff, eqb_of_true, checked_add_u64_Some. naive_solver.
Qed.

Lemma version_changed_false c n :
  version_changed c n = false <-> code c = code n /\ schema c = schema n.
Proof. unfold version_changed. guards. done. Qed.

Lemma writer_state_true s : writer_state s = true <-> s = Recovering \/ s = Serving.
Proof. destruct s; naive_solver. Qed.

#[export] Hint Rewrite not_successor_false version_changed_false writer_state_true : guards.

Definition scoped (c n : Control) : Prop :=
  cell n = cell c /\ incarnation n = incarnation c /\
  revision n = revision c + 1 /\ revision c + 1 <= u64_max /\
  progress n = progress c + 1 /\ progress c + 1 <= u64_max.

Lemma validate_transition_Ok c n t :
  validate_transition c n t = Ok tt <->
  validate c = Ok tt /\ validate n = Ok tt /\ scoped c n /\
  (changes_binding t = false -> bundle_binding n = bundle_binding c) /\
  (bad_transition t c n).1 = false.
Proof.
  unfold validate_transition, scoped. split.
  - intros H. open_ok H. destruct x, x0. destruct (bad_transition t c n) as [bad m].
    simpl. destruct bad; [done|].
    rewrite orb_false_iff, !negb_false_iff, !eqb_of_true in H2.
    rewrite orb_false_iff, !not_successor_false in H3.
    rewrite andb_false_iff, !negb_false_iff, eqb_of_true in H4.
    destruct (changes_binding t); naive_solver.
  - intros (-> & -> & (E1 & E2 & E3 & E4 & E5 & E6) & Hb & Hbad). simpl.
    rewrite E1, E2, !eqb_of_refl. simpl.
    replace (not_successor (revision c) (revision n)) with false
      by (symmetry; by apply not_successor_false).
    replace (not_successor (progress c) (progress n)) with false
      by (symmetry; by apply not_successor_false). simpl.
    destruct (bad_transition t c n) as [bad m]; simpl in *; subst bad.
    destruct (changes_binding t); simpl; [done|].
    rewrite (Hb eq_refl), eqb_of_refl. done.
Qed.

(** One validated transition, whatever its name. *)
Definition control_step (c n : Control) : Prop :=
  exists t, validate_transition c n t = Ok tt.

(** Order on published roots: a root never disappears, its transaction id and
    commit sequence never regress, and a transaction id fixes the other two. *)
Definition root_le (a b : option RootRef) : Prop :=
  match a, b with
  | None, _ => True
  | Some _, None => False
  | Some a, Some b =>
      txid a <= txid b /\ commit_sequence a <= commit_sequence b /\
      (txid a = txid b -> checksum a = checksum b /\ commit_sequence a = commit_sequence b)
  end.

Global Instance root_le_preorder : PreOrder root_le.
Proof.
  split.
  - intros [a|]; simpl; naive_solver lia.
  - intros [a|] [b|] [c|]; simpl; try done.
    intros (? & ? & Hab) (? & ? & Hbc). split_and!; [lia..|].
    intros E. destruct Hab, Hbc; [lia..|]. split; congruence.
Qed.

Lemma valid_root_successor_le a b : valid_root_successor a b = true -> root_le a b.
Proof.
  destruct b as [b|], a as [a|]; simpl; try done.
  case_match eqn:E; [done|]. guards. naive_solver lia.
Qed.

Lemma validate_state c :
  validate c = Ok tt ->
  state_matches c = true /\
  (forall r, recovery c = Some r ->
     root c = Some (predecessor r) /\ txid (predecessor r) < final_txid r /\
     commit_sequence (predecessor r) < final_commit_sequence r).
Proof.
  unfold validate. intros H. open_ok H.
  split; [by destruct (state_matches c)|].
  intros r Hr. rewrite Hr in *. unfold validate_overlay in *.
  repeat match goal with H : _ ≫= _ = Ok _ |- _ => open_ok H end.
  repeat case_match; simplify_eq. guards. naive_solver lia.
Qed.

Lemma validate_unowned c :
  validate c = Ok tt -> owner c = None -> state c = Idle \/ state c = Tombstoned.
Proof.
  intros [H _]%validate_state Ho. unfold state_matches in H. rewrite Ho in H.
  destruct (state c); simpl in H; auto; done.
Qed.

Lemma validate_tombstoned c : validate c = Ok tt -> state c = Tombstoned -> owner c = None.
Proof.
  intros [H _]%validate_state Hs. unfold state_matches in H. rewrite Hs in H.
  by apply is_none_true.
Qed.

(** Open the arm of a validated transition into its field equations. *)
Ltac open_arm H :=
  cbn [bad_transition fst] in H;
  unfold bad_bind_bundle, bad_renew, bad_activate, bad_publish, bad_migrate, bad_release,
    bad_attach_recovery, bad_publish_recovery, bad_takeover, bad_tombstone in H;
  cbv zeta in H;
  repeat match type of H with
  | context [match ?x with _ => _ end] => destruct x eqn:?; try discriminate H
  end;
  autorewrite with guards in H;
  repeat match goal with H : _ /\ _ |- _ => destruct H end.

(** The equation an accepted [BindBundle] leaves on the successor. *)
Lemma bind_bundle_fields c n :
  bad_bind_bundle c n = false ->
  epoch n = epoch c /\ owner n = owner c /\ root n = root c /\ state n = state c /\
  recovery n = recovery c /\ code n = code c /\ schema n = schema c /\
  next_due_ms n = next_due_ms c /\ state c = Serving.
Proof.
  unfold bad_bind_bundle. cbv zeta. intros H. autorewrite with guards in H.
  destruct H as [[[Hs _] _] <-]. by split_and!.
Qed.

Lemma step_epoch_owner c n t :
  validate_transition c n t = Ok tt ->
  (epoch n = epoch c /\ (owner n = owner c \/ owner n = None)) \/
  (epoch n = epoch c + 1 /\ (t = Transition.Takeover \/ t = Transition.Tombstone)).
Proof.
  rewrite validate_transition_Ok. intros (_ & _ & _ & _ & Hb).
  destruct t; try (apply bind_bundle_fields in Hb; naive_solver);
    open_arm Hb; naive_solver.
Qed.

Lemma step_root_le c n t : validate_transition c n t = Ok tt -> root_le (root c) (root n).
Proof.
  rewrite validate_transition_Ok. intros (Hc & _ & _ & _ & Hb).
  destruct t; try (apply bind_bundle_fields in Hb as (_ & _ & -> & _); reflexivity);
    open_arm Hb; try (replace (root n) with (root c) by congruence; reflexivity);
    try (by apply valid_root_successor_le).
  destruct (validate_state _ Hc) as [_ Hr].
  destruct (Hr _ ltac:(eassumption)) as (Hroot & Ht & Hs). rewrite Hroot.
  destruct (root n) as [rn|]; simpl in *; [|done]. guards.
  destruct_and!. split_and!; try lia.
Qed.

Lemma step_tombstoned c n t :
  validate_transition c n t = Ok tt -> state c = Tombstoned ->
  t = Transition.Renew /\ state n = Tombstoned /\ owner n = None /\
  epoch n = epoch c /\ root n = root c.
Proof.
  rewrite validate_transition_Ok. intros (Hc & _ & _ & _ & Hb) Hs.
  pose proof (validate_tombstoned _ Hc Hs).
  destruct t; try (apply bind_bundle_fields in Hb; naive_solver);
    open_arm Hb; try congruence; try (naive_solver congruence).
  all: rewrite Hs in *; naive_solver.
Qed.

(** ** Chains of transitions *)

Lemma chain_epoch_owner c n :
  rtc control_step c n ->
  epoch c <= epoch n /\ (epoch n = epoch c -> owner n = owner c \/ owner n = None).
Proof.
  revert n. apply rtc_ind_r; [split; [lia|auto]|].
  intros m n _ [t Ht] [IHe IHo].
  apply step_epoch_owner in Ht as [[He Ho]|[He _]]; [|split; lia].
  split; [lia|]. intros E. destruct IHo as [IHo|IHo]; [lia|..];
    destruct Ho as [Ho|Ho]; rewrite Ho; auto.
Qed.

(** C29: one owner per epoch, without a gap. On any chain of validated control
    transitions, when a record names an owner, every earlier record of the same
    ownership epoch names that owner too: an epoch is never shared by two writers,
    and a Cell released or found unowned in an epoch stays unowned until a new epoch,
    so that not even the owner it had can come back within it. *)
Theorem epoch_single_owner c m n o :
  rtc control_step c m -> rtc control_step m n -> owner n = Some o ->
  epoch c <= epoch m <= epoch n /\
  (epoch n = epoch c -> owner m = Some o /\ owner c = Some o) /\
  (owner m <> Some o -> epoch c < epoch n).
Proof.
  intros H1 H2 Ho. apply chain_epoch_owner in H1 as [He1 Ho1], H2 as [He2 Ho2].
  assert (epoch n = epoch c -> owner m = Some o /\ owner c = Some o) as Hsame.
  { intros E. destruct Ho2 as [Ho2|Ho2], Ho1 as [Ho1|Ho1]; try lia; split; congruence. }
  split_and!; [done..|]. intros Hne. destruct (Z.eq_dec (epoch n) (epoch c)) as [E|E]; [|lia].
  by destruct (Hsame E).
Qed.

Lemma chain_root_le c n : rtc control_step c n -> root_le (root c) (root n).
Proof.
  induction 1 as [|c m n [t Ht] _ IH]; [reflexivity|].
  etrans; [by eapply step_root_le|done].
Qed.

(** The published root neither regresses nor forks. Along any chain of
    validated transitions a published root never disappears, its transaction id
    and commit sequence never decrease, and one transaction id is never
    published with two different checksums or commit sequences. *)
Theorem root_monotone c n r r' :
  rtc control_step c n -> root c = Some r ->
  is_Some (root n) /\
  (root n = Some r' ->
   txid r <= txid r' /\ commit_sequence r <= commit_sequence r' /\
   (txid r = txid r' -> checksum r = checksum r' /\ commit_sequence r = commit_sequence r')).
Proof.
  intros Hrun%chain_root_le Hr. rewrite Hr in Hrun.
  destruct (root n) as [rn|]; [|done]. split; [done|]. by intros [= ->].
Qed.

(** A tombstone is final. After a Cell is tombstoned every later control
    record is tombstoned, unowned, in the same epoch and with the same root. *)
Theorem tombstone_final c n :
  rtc control_step c n -> validate c = Ok tt -> state c = Tombstoned ->
  state n = Tombstoned /\ owner n = None /\ epoch n = epoch c /\ root n = root c.
Proof.
  intros Hrun Hv Hs. pose proof (validate_tombstoned _ Hv Hs) as Ho. clear Hv.
  induction Hrun as [|c m n [t Ht] _ IH]; [done|].
  apply step_tombstoned in Ht as (_ & H1 & H2 & H3 & H4); [|done].
  destruct (IH H1 H2) as (? & ? & ? & ?). split_and!; congruence.
Qed.

(** The revision counts the transitions of a chain. *)
Lemma nsteps_revision k c n :
  nsteps control_step k c n ->
  revision n = revision c + Z.of_nat k /\ progress n = progress c + Z.of_nat k.
Proof.
  induction 1 as [|k c m n [t Ht] _ IH]; [lia|].
  apply validate_transition_Ok in Ht as (_ & _ & (_ & _ & ? & _ & ? & _) & _). lia.
Qed.

(** Revisions identify records. On one chain a record is determined by its
    revision, revision and progress advance together by one per transition, and
    the Cell and incarnation never change. *)
Theorem revision_identifies c n :
  rtc control_step c n ->
  cell n = cell c /\ incarnation n = incarnation c /\ revision c <= revision n /\
  progress n - progress c = revision n - revision c /\
  (revision n = revision c -> n = c).
Proof.
  intros Hrun.
  assert (cell n = cell c /\ incarnation n = incarnation c) as [Hcell Hinc].
  { induction Hrun as [|c m n [t Ht] _ IH]; [done|].
    apply validate_transition_Ok in Ht as (_ & _ & (? & ? & _) & _).
    destruct IH; split; congruence. }
  apply rtc_nsteps in Hrun as [k Hk]. pose proof (nsteps_revision _ _ _ Hk).
  split_and!; try done; try lia. intros E.
  assert (k = 0%nat) as -> by lia. by inversion Hk.
Qed.

(** ** Builders return the only successor *)

Lemma bumped_Ok c n :
  scoped c n -> bumped c = Ok (revision n, progress n).
Proof.
  intros (_ & _ & E1 & H1 & E2 & H2). unfold bumped.
  rewrite (proj2 (checked_add_u64_Some (revision c) 1 (revision n))) by done.
  simpl. by rewrite (proj2 (checked_add_u64_Some (progress c) 1 (progress n))).
Qed.

Lemma proposed_Ok c n m t :
  proposed c m t = Ok n <-> m = n /\ validate_transition c n t = Ok tt.
Proof.
  unfold proposed. split.
  - intros H. open_ok H. by destruct x.
  - intros [-> ->]. done.
Qed.

Ltac same_record :=
  match goal with
  | Hs : scoped _ _ |- _ => destruct Hs as (? & ? & ? & ? & ? & ?)
  end;
  match goal with c : Control, n : Control |- _ => destruct c, n end;
  simpl in *; congruence.

Lemma renew_sole c n : validate_transition c n Transition.Renew = Ok tt <-> renew c = Ok n.
Proof.
  split.
  - intros H. pose proof H as (_ & _ & Hs & Hb & Ha)%validate_transition_Ok.
    unfold renew. rewrite (bumped_Ok _ _ Hs). simpl. apply proposed_Ok. split; [|done].
    specialize (Hb eq_refl). open_arm Ha. same_record.
  - unfold renew. intros H. open_ok H. destruct x. by apply proposed_Ok in H as [_ H].
Qed.

Lemma activate_sole c n : validate_transition c n Transition.Activate = Ok tt <-> activate c = Ok n.
Proof.
  split.
  - intros H. pose proof H as (_ & _ & Hs & Hb & Ha)%validate_transition_Ok.
    unfold activate. rewrite (bumped_Ok _ _ Hs). simpl. apply proposed_Ok. split; [|done].
    specialize (Hb eq_refl). open_arm Ha. same_record.
  - unfold activate. intros H. open_ok H. destruct x. by apply proposed_Ok in H as [_ H].
Qed.

Lemma release_sole c n : validate_transition c n Transition.Release = Ok tt <-> release c = Ok n.
Proof.
  split.
  - intros H. pose proof H as (_ & _ & Hs & _ & Ha)%validate_transition_Ok.
    unfold release. rewrite (bumped_Ok _ _ Hs). simpl. apply proposed_Ok. split; [|done].
    open_arm Ha. same_record.
  - unfold release. intros H. open_ok H. destruct x. by apply proposed_Ok in H as [_ H].
Qed.

Lemma takeover_sole c n o :
  validate_transition c n Transition.Takeover = Ok tt /\ owner n = Some o <-> takeover c o = Ok n.
Proof.
  split.
  - intros [H Ho]. pose proof H as (_ & _ & Hs & _ & Ha)%validate_transition_Ok.
    unfold takeover. open_arm Ha.
    rewrite (proj2 (checked_add_u64_Some (epoch c) 1 (epoch n))) by done.
    simpl. rewrite (bumped_Ok _ _ Hs). simpl. apply proposed_Ok. split; [|done].
    same_record.
  - unfold takeover. intros H. open_ok H. destruct x0. apply proposed_Ok in H as [<- H].
    done.
Qed.

(** The builders return the sole valid successors. A record passes the
    Renew, Activate or Release predicate exactly when it is what the builder of
    that transition returns, and passes Takeover exactly when it is the takeover
    by the owner it names. *)
Theorem sole_successors c n :
  (validate_transition c n Transition.Renew = Ok tt <-> renew c = Ok n) /\
  (validate_transition c n Transition.Activate = Ok tt <-> activate c = Ok n) /\
  (validate_transition c n Transition.Release = Ok tt <-> release c = Ok n) /\
  (validate_transition c n Transition.Takeover = Ok tt <->
   exists o, owner n = Some o /\ takeover c o = Ok n).
Proof.
  split_and!; [apply renew_sole|apply activate_sole|apply release_sole|].
  split.
  - intros H. pose proof H as (_ & _ & _ & _ & Ha)%validate_transition_Ok.
    open_arm Ha. destruct (owner n) as [o|] eqn:Eo.
    + exists o. split; [done|]. by apply takeover_sole.
    + match goal with H : is_Some None |- _ => by destruct H end.
  - intros (o & Ho & H). by apply takeover_sole in H as [H _].
Qed.

(** What a well-formed record guarantees, field by field. *)
Lemma validate_Ok c :
  validate c = Ok tt <->
  (epoch c <> 0 /\ revision c <> 0 /\ schema c <> 0) /\
  is_some_and (fun v => v <? 0) (next_due_ms c) = false /\
  invalid_binding c = false /\
  is_some_and invalid_endpoint (owner c) = false /\
  is_some_and invalid_root (root c) = false /\
  (forall r, recovery c = Some r ->
     validate_overlay r = Ok tt /\ root c = Some (predecessor r)) /\
  state_matches c = true.
Proof.
  unfold validate. split.
  - intros H. open_ok H. guards. split_and!; try tauto.
    + intros r Hr. rewrite Hr in *.
      match goal with H : _ ≫= _ = Ok _ |- _ => open_ok H end.
      repeat case_match; simplify_eq. guards. by destruct x0.
    + by destruct (state_matches c).
  - intros ((H1 & H2 & H3) & -> & -> & -> & -> & Hr & ->).
    apply Z.eqb_neq in H1 as ->, H2 as ->, H3 as ->. simpl.
    destruct (recovery c) as [r|]; [|done].
    destruct (Hr r eq_refl) as [-> ->]. simpl. by rewrite eqb_of_refl.
Qed.

(** A dead owner can always be replaced. Any well-formed record that is not
    tombstoned and whose counters have room accepts a takeover by a different
    owner with a legal endpoint; the successor raises the epoch by one and keeps
    the published root and the pinned recovery overlay. *)
Theorem takeover_available c o :
  validate c = Ok tt -> 0 <= epoch c -> 0 <= revision c ->
  epoch c < u64_max -> revision c < u64_max -> progress c < u64_max ->
  state c <> Tombstoned -> owner c <> Some o -> invalid_endpoint o = false ->
  exists n, takeover c o = Ok n /\ epoch n = epoch c + 1 /\ owner n = Some o /\
            state n = Recovering /\ root n = root c /\ recovery n = recovery c.
Proof.
  intros Hv He0 Hr0 He Hr Hp Hs Ho Hend.
  exists (MkControl (cell c) (incarnation c) (epoch c + 1) (revision c + 1) (progress c + 1)
            Recovering (Some o) (root c) (recovery c) None (code c) (schema c) (next_due_ms c)).
  split; [|by split_and!]. apply takeover_sole. split; [|done].
  apply validate_transition_Ok. pose proof Hv as (H1 & H2 & H3 & H4 & H5 & H6 & H7)%validate_Ok.
  split_and!; try done; simpl.
  - apply validate_Ok; simpl. split_and!; try done; simpl; try lia; tauto.
  - unfold scoped; simpl. split_and!; try done; lia.
  - unfold bad_takeover; simpl. guards. split_and!; try done; try lia.
Qed.

(** Publication is exact. [publish_prepared] succeeds precisely when the
    prepared root supersedes the exact root the record publishes, under its
    schema, and the successor validates; the successor then publishes that very
    prepared root. *)
Theorem publish_prepared_iff c p due n :
  publish_prepared c p due = Ok n <->
  prepared_predecessor p = ltx_root c /\ prepared_schema p = schema c /\
  ltx_root n = Some (prepared_root p) /\ next_due_ms n = due /\
  validate_transition c n Transition.Publish = Ok tt.
Proof.
  unfold publish_prepared, from_ltx, ltx_root. split.
  - intros H. open_ok H. destruct x as [rev pr].
    apply bind_Ok in H as (published & Hp & H). apply proposed_Ok in H as [<- Hv].
    open_ok Hp. guards. simpl. destruct (prepared_root p).
    unfold to_ltx; simpl in *. naive_solver.
  - intros (E1 & E2 & E3 & E4 & Hv).
    pose proof Hv as (_ & _ & Hs & Hb & Ha)%validate_transition_Ok.
    rewrite E1, E2, !eqb_of_refl. simpl. rewrite (bumped_Ok _ _ Hs). simpl.
    destruct (root n) as [r|] eqn:Er; [|done]. simpl in E3. injection E3 as <-.
    destruct Hs as (Ec & Ei & Hs). simpl. rewrite Ec, Ei, !eqb_of_refl. simpl.
    apply proposed_Ok. split; [|done]. specialize (Hb eq_refl). open_arm Ha.
    destruct c, n, r; simpl in *; congruence.
Qed.

(** ** Pure renewals *)

Definition with_counters (c : Control) (r p : Z) : Control :=
  MkControl (cell c) (incarnation c) (epoch c) r p (state c) (owner c) (root c)
    (recovery c) (bundle_binding c) (code c) (schema c) (next_due_ms c).

Definition renewal_step (c n : Control) : Prop := renew c = Ok n.

Lemma renew_with_counters c n :
  renew c = Ok n -> n = with_counters c (revision c + 1) (progress c + 1).
Proof.
  unfold renew, bumped. intros H. open_ok H. destruct x as [r p].
  match goal with H : _ ≫= _ = Ok (_, _) |- _ => open_ok H end.
  apply proposed_Ok in H as [<- _].
  repeat match goal with H : ok_or _ _ = Ok _ |- _ =>
    apply ok_or_Ok, checked_add_u64_Some in H as [-> _] end.
  done.
Qed.

Lemma renewals_with_counters k c n :
  nsteps renewal_step k c n ->
  n = with_counters c (revision c + Z.of_nat k) (progress c + Z.of_nat k).
Proof.
  induction 1 as [c|k c m n Hr _ IH].
  - destruct c; unfold with_counters; simpl; f_equal; lia.
  - apply renew_with_counters in Hr as ->. rewrite IH. unfold with_counters; simpl. f_equal; lia.
Qed.

Lemma validate_with_counters c r p :
  validate c = Ok tt -> r <> 0 -> validate (with_counters c r p) = Ok tt.
Proof. rewrite !validate_Ok. unfold with_counters; simpl. naive_solver. Qed.

Lemma renew_valid c :
  validate c = Ok tt -> 0 <= revision c -> revision c < u64_max -> progress c < u64_max ->
  renew c = Ok (with_counters c (revision c + 1) (progress c + 1)).
Proof.
  intros Hv H0 Hr Hp. apply renew_sole, validate_transition_Ok.
  split_and!; [done|by apply validate_with_counters; [|lia]| | |].
  - unfold scoped; simpl. split_and!; done || lia.
  - done.
  - simpl. unfold bad_renew; simpl. guards. by split_and!.
Qed.

Lemma renewals_reach c k :
  validate c = Ok tt -> 0 <= revision c ->
  revision c + Z.of_nat k <= u64_max -> progress c + Z.of_nat k <= u64_max ->
  rtc renewal_step c (with_counters c (revision c + Z.of_nat k) (progress c + Z.of_nat k)).
Proof.
  intros Hv H0. assert (revision c <> 0) by (apply validate_Ok in Hv; tauto).
  induction k as [|k IH]; intros Hr Hp.
  { replace (with_counters c _ _) with c; [constructor|].
    destruct c; unfold with_counters; simpl; f_equal; lia. }
  eapply rtc_r; [apply IH; lia|]. unfold renewal_step.
  rewrite renew_valid; simpl; [|by apply validate_with_counters; [|lia]|lia..].
  f_equal. unfold with_counters; simpl. f_equal; lia.
Qed.

Lemma same_or_renewal_counters c n :
  is_same_or_pure_renewal_of n c = true ->
  exists k : nat, n = with_counters c (revision c + Z.of_nat k) (progress c + Z.of_nat k).
Proof.
  unfold is_same_or_pure_renewal_of. intros H. guards. destruct_and!.
  destruct (checked_sub_u64 (revision n) (revision c)) as [d|] eqn:Ed.
  2: { match goal with H : is_Some None |- _ => by destruct H end. }
  apply checked_sub_u64_Some in Ed as [Ed Hle].
  match goal with H : Some d = _ |- _ => symmetry in H;
    apply checked_sub_u64_Some in H as [Ed' Hle'] end.
  exists (Z.to_nat d).
  destruct c, n; unfold with_counters; simpl in *; f_equal; congruence || lia.
Qed.

(** An observer may treat a control record as the one it already verified
    exactly when [is_same_or_pure_renewal_of] holds: for a well-formed record
    the test accepts precisely the records reached from it by zero or more
    lease renewals. *)
Theorem pure_renewal_iff c n :
  validate c = Ok tt -> 0 <= revision c -> u64_ok (revision n) -> u64_ok (progress n) ->
  is_same_or_pure_renewal_of n c = true <-> rtc renewal_step c n.
Proof.
  unfold u64_ok. intros Hv H0 Hrn Hpn. split.
  - intros [k ->]%same_or_renewal_counters. simpl in *. apply renewals_reach; lia || done.
  - intros Hrun. assert (revision c <> 0) by (apply validate_Ok in Hv; tauto).
    apply rtc_nsteps in Hrun as [k ->%renewals_with_counters]. simpl in *.
    unfold is_same_or_pure_renewal_of, with_counters; simpl.
    rewrite !(proj2 (checked_sub_u64_Some _ _ (Z.of_nat k))) by lia.
    by rewrite !eqb_of_refl.
Qed.

(** ** Concrete records *)

Definition example_owner : Owner := MkOwner (array_fill 16 x01) (text "https://a:1").
Definition example_successor : Owner := MkOwner (array_fill 16 x02) (text "https://b:1").
Definition example_root : RootRef := MkRoot (array_fill 32 x05) 3 (CHECKSUM_FLAG + 9) 2.
Definition example_recovering : Control :=
  MkControl (array_fill 32 x0a) (array_fill 16 x0b) 1 1 1 Recovering (Some example_owner)
    None None None (array_fill 32 x0c) 1 None.
Definition example_serving : Control :=
  MkControl (array_fill 32 x0a) (array_fill 16 x0b) 1 2 2 Serving (Some example_owner)
    (Some example_root) None None (array_fill 32 x0c) 1 (Some 50).
Definition example_released : Control :=
  MkControl (array_fill 32 x0a) (array_fill 16 x0b) 1 3 3 Idle None
    (Some example_root) None None (array_fill 32 x0c) 1 (Some 50).
Definition example_tombstoned : Control :=
  MkControl (array_fill 32 x0a) (array_fill 16 x0b) 2 4 4 Tombstoned None
    (Some example_root) None None (array_fill 32 x0c) 1 (Some 50).

Example example_initial :
  initial (array_fill 32 x0a) (array_fill 16 x0b) example_owner (array_fill 32 x0c) 1 =
  Ok example_recovering.
Proof. vm_compute. reflexivity. Qed.

Lemma example_renewal :
  control_step example_serving (with_counters example_serving 3 3).
Proof. exists Transition.Renew. vm_compute. reflexivity. Qed.

Lemma example_tombstone_renewal :
  control_step example_tombstoned (with_counters example_tombstoned 5 5).
Proof. exists Transition.Renew. vm_compute. reflexivity. Qed.

Lemma epoch_single_owner_witness :
  owner (with_counters example_serving 3 3) = Some example_owner /\ owner example_serving = Some example_owner.
Proof.
  destruct (epoch_single_owner example_serving (with_counters example_serving 3 3) (with_counters example_serving 3 3)
    example_owner) as (_ & H & _); [apply rtc_once, example_renewal|apply rtc_refl|reflexivity|].
  apply H. reflexivity.
Defined.

Lemma root_monotone_witness :
  is_Some (root (with_counters example_serving 3 3)) /\
  (root (with_counters example_serving 3 3) = Some example_root ->
   3 <= 3 /\ 2 <= 2 /\ (3 = 3 -> CHECKSUM_FLAG + 9 = CHECKSUM_FLAG + 9 /\ 2 = 2)).
Proof.
  apply (root_monotone example_serving (with_counters example_serving 3 3) example_root example_root);
    [apply rtc_once, example_renewal|reflexivity].
Defined.

Lemma tombstone_final_witness :
  state (with_counters example_tombstoned 5 5) = Tombstoned /\
  owner (with_counters example_tombstoned 5 5) = None /\
  epoch (with_counters example_tombstoned 5 5) = 2 /\
  root (with_counters example_tombstoned 5 5) = Some example_root.
Proof.
  apply (tombstone_final example_tombstoned);
    [apply rtc_once, example_tombstone_renewal|vm_compute; reflexivity|reflexivity].
Defined.

Lemma revision_identifies_witness :
  let n := with_counters example_serving 3 3 in
  cell n = cell example_serving /\ incarnation n = incarnation example_serving /\
  2 <= revision n /\ progress n - 2 = revision n - 2 /\
  (revision n = 2 -> n = example_serving).
Proof. apply (revision_identifies example_serving), rtc_once, example_renewal. Defined.

Lemma takeover_available_witness :
  exists n, takeover example_serving example_successor = Ok n /\ epoch n = 2 /\
            owner n = Some example_successor /\ state n = Recovering /\
            root n = Some example_root /\ recovery n = None.
Proof.
  apply (takeover_available example_serving example_successor);
    vm_compute; first [reflexivity|discriminate|intros [=]].
Defined.

Lemma pure_renewal_iff_witness :
  is_same_or_pure_renewal_of (with_counters example_serving 9 9) example_serving = true <->
  rtc renewal_step example_serving (with_counters example_serving 9 9).
Proof.
  apply (pure_renewal_iff example_serving (with_counters example_serving 9 9));
    [vm_compute; reflexivity|vm_compute; discriminate|split; vm_compute; discriminate..].
Defined.
