(* ===== verification/ControlCodec.v ===== *)
(** * ControlCodec: the canonical JSON form of a control record

    Models [crates/cellule-runtime/src/control/codec.rs] and [Control::encode] /
    [Control::decode] of [control/mod.rs]. The code maps a [Control] to a raw
    record of text fields and lets serde_json print it. The mapping is modelled
    exactly, decimal and hex text included; serde_json is a third-party crate and
    enters as the class [SerdeJson], whose one law is that parsing what it printed
    returns the printed record. *)

From Stdlib Require Import ZArith Lia.
From Stdlib Require Import Strings.Byte.
From stdpp Require Import base list strings.
From S2P Require Import Prelude Identity Text Control.

Local Open Scope bool_scope.

(*@ control/codec.rs 213-221 decimal_u64 *)
Definition decimal_u64 (value : str) : Result Z :=
  number ← ok_or (parse_u64 value) (Error.Control "invalid decimal u64");
  if negb (eqb_of (to_string_u64 number) value)
  then Err (Error.Control "noncanonical decimal u64") else Ok number.

(*@ control/codec.rs 223-231 decimal_i64 *)
Definition decimal_i64 (value : str) : Result Z :=
  number ← ok_or (parse_i64 value) (Error.Control "invalid decimal i64");
  if negb (eqb_of (to_string_i64 number) value)
  then Err (Error.Control "noncanonical decimal i64") else Ok number.

(** ** Raw records *)

(*@ control/codec.rs 31-35 RawBundleBinding *)
Record RawBundleBinding := MkRawBinding {
  raw_binding_session : str; raw_binding_epoch : str; raw_binding_digest : str }.

(*@ control/codec.rs 39-42 RawOwner *)
Record RawOwner := MkRawOwner { raw_session : str; raw_endpoint : str }.

(*@ control/codec.rs 46-51 RawRoot *)
Record RawRoot := MkRawRoot {
  raw_digest : str; raw_txid : str; raw_checksum : str; raw_commit_sequence : str }.

(*@ control/codec.rs 79-89 RawRecoveryOverlay *)
Record RawRecoveryOverlay := MkRawOverlay {
  raw_leader_session : str;
  raw_log_epoch : str;
  raw_manifest_digest : str;
  raw_first_node_sequence : str;
  raw_last_node_sequence : str;
  raw_predecessor : RawRoot;
  raw_final_txid : str;
  raw_final_checksum : str;
  raw_final_commit_sequence : str
}.

(*@ control/codec.rs 11-27 RawControl *)
Record RawControl := MkRaw {
  raw_version : Z;
  raw_cell : str;
  raw_incarnation : str;
  raw_epoch : str;
  raw_revision : str;
  raw_progress : str;
  raw_state : ControlState;
  raw_owner : option RawOwner;
  raw_root : option RawRoot;
  raw_recovery : option RawRecoveryOverlay;
  raw_bundle_binding : option RawBundleBinding;
  raw_code : str;
  raw_schema : Z;
  raw_next_due_ms : option str
}.

(*@ control/codec.rs 53-62 From<&RootRef> for RawRoot *)
Definition root_to_raw (r : RootRef) : RawRoot :=
  {| raw_digest := encode_hex (as_bytes (digest r));
     raw_txid := to_string_u64 (txid r);
     raw_checksum := encode_hex (to_be 8 (checksum r));
     raw_commit_sequence := to_string_u64 (commit_sequence r) |}.

(*@ control/codec.rs 64-75 TryFrom<RawRoot> for RootRef *)
Definition root_of_raw (r : RawRoot) : Result RootRef :=
  d ← decode_hex 32 (raw_digest r);
  t ← decimal_u64 (raw_txid r);
  c ← decode_hex 8 (raw_checksum r);
  s ← decimal_u64 (raw_commit_sequence r);
  Ok (MkRoot d t (from_be (as_bytes c)) s).

Definition owner_to_raw (o : Owner) : RawOwner :=
  {| raw_session := encode_hex (as_bytes (session o)); raw_endpoint := endpoint o |}.
Definition owner_of_raw (o : RawOwner) : Result Owner :=
  s ← decode_hex 16 (raw_session o);
  Ok (MkOwner s (raw_endpoint o)).

Definition overlay_to_raw (r : RecoveryOverlayRef) : RawRecoveryOverlay :=
  {| raw_leader_session := encode_hex (as_bytes (leader_session r));
     raw_log_epoch := to_string_u64 (log_epoch r);
     raw_manifest_digest := encode_hex (as_bytes (manifest_digest r));
     raw_first_node_sequence := to_string_u64 (first_node_sequence r);
     raw_last_node_sequence := to_string_u64 (last_node_sequence r);
     raw_predecessor := root_to_raw (predecessor r);
     raw_final_txid := to_string_u64 (final_txid r);
     raw_final_checksum := encode_hex (to_be 8 (final_checksum r));
     raw_final_commit_sequence := to_string_u64 (final_commit_sequence r) |}.
Definition overlay_of_raw (r : RawRecoveryOverlay) : Result RecoveryOverlayRef :=
  s ← decode_hex 16 (raw_leader_session r);
  e ← decimal_u64 (raw_log_epoch r);
  m ← decode_hex 32 (raw_manifest_digest r);
  a ← decimal_u64 (raw_first_node_sequence r);
  z ← decimal_u64 (raw_last_node_sequence r);
  p ← root_of_raw (raw_predecessor r);
  t ← decimal_u64 (raw_final_txid r);
  c ← decode_hex 8 (raw_final_checksum r);
  q ← decimal_u64 (raw_final_commit_sequence r);
  Ok (MkOverlay s e m a z p t (from_be (as_bytes c)) q).

Definition binding_to_raw (b : BundleBindingRef) : RawBundleBinding :=
  {| raw_binding_session := encode_hex (as_bytes (binding_session b));
     raw_binding_epoch := to_string_u64 (binding_epoch b);
     raw_binding_digest := encode_hex (as_bytes (binding_digest b)) |}.
Definition binding_of_raw (b : RawBundleBinding) : Result BundleBindingRef :=
  s ← decode_hex 16 (raw_binding_session b);
  e ← decimal_u64 (raw_binding_epoch b);
  d ← decode_hex 32 (raw_binding_digest b);
  Ok (MkBinding s e d).

(*@ control/codec.rs 91-139 From<&Control> for RawControl *)
Definition control_to_raw (c : Control) : RawControl :=
  {| raw_version := if is_some (bundle_binding c) then 2 else 1;
     raw_cell := encode_hex (as_bytes (cell c));
     raw_incarnation := encode_hex (as_bytes (incarnation c));
     raw_epoch := to_string_u64 (epoch c);
     raw_revision := to_string_u64 (revision c);
     raw_progress := to_string_u64 (progress c);
     raw_state := state c;
     raw_owner := owner_to_raw <$> owner c;
     raw_root := root_to_raw <$> root c;
     raw_recovery := overlay_to_raw <$> recovery c;
     raw_bundle_binding := binding_to_raw <$> bundle_binding c;
     raw_code := encode_hex (as_bytes (code c));
     raw_schema := schema c;
     raw_next_due_ms := to_string_i64 <$> next_due_ms c |}.

(*@ control/codec.rs 141-211 TryFrom<RawControl> for Control *)
Definition control_of_raw (r : RawControl) : Result Control :=
  if negb (raw_version r =? (if is_some (raw_bundle_binding r) then 2 else 1))
  then Err (Error.Control "unsupported version")
  else
    binding ← transpose_map binding_of_raw (raw_bundle_binding r);
    cl ← decode_hex 32 (raw_cell r);
    inc ← decode_hex 16 (raw_incarnation r);
    e ← decimal_u64 (raw_epoch r);
    rev ← decimal_u64 (raw_revision r);
    prog ← decimal_u64 (raw_progress r);
    own ← transpose_map owner_of_raw (raw_owner r);
    rt ← transpose_map root_of_raw (raw_root r);
    rc ← transpose_map overlay_of_raw (raw_recovery r);
    cd ← decode_hex 32 (raw_code r);
    due ← transpose_map decimal_i64 (raw_next_due_ms r);
    Ok (MkControl cl inc e rev prog (raw_state r) own rt rc binding cd (raw_schema r) due).

(** ** serde_json *)

(** [serde_json::to_vec] and [from_slice] at the derived implementations of
    [RawControl]; [None] is a serde_json error. *)
Class SerdeJson := {
  to_vec : RawControl -> option (list byte);
  from_slice : list byte -> option RawControl
}.

(** Documented behaviour: parsing what was printed from a record, and a parsed
    [u32] field is a [u32]. *)
Class SerdeJsonLaws `{SerdeJson} : Prop := {
  from_slice_to_vec raw b :
    u32_ok (raw_version raw) -> u32_ok (raw_schema raw) ->
    to_vec raw = Some b -> from_slice b = Some raw;
  from_slice_u32 raw b : from_slice b = Some raw -> u32_ok (raw_schema raw)
}.

(*@ control/mod.rs 20-20 MAX_CONTROL_BYTES *)
Definition MAX_CONTROL_BYTES : Z := 8 * 1024.

Section Codec.
Context `{SerdeJson}.

(*@ control/mod.rs 280-287 Control::encode *)
Definition encode (c : Control) : Result (list byte) :=
  _ ← validate c;
  bytes ← ok_or (to_vec (control_to_raw c)) Error.Json;
  if MAX_CONTROL_BYTES <? Z.of_nat (length bytes)
  then Err (Error.Control "body exceeds 8 KiB") else Ok bytes.

(*@ control/mod.rs 290-301 Control::decode *)
Definition decode (bytes : list byte) : Result Control :=
  if MAX_CONTROL_BYTES <? Z.of_nat (length bytes)
  then Err (Error.Control "body exceeds 8 KiB")
  else
    raw ← ok_or (from_slice bytes) Error.Json;
    control ← control_of_raw raw;
    _ ← validate control;
    again ← encode control;
    if negb (eqb_of again bytes) then Err (Error.Control "JSON is not canonical")
    else Ok control.
End Codec.

(** ** Decimal text is canonical *)

Lemma decimal_u64_Ok v n : decimal_u64 v = Ok n <-> u64_ok n /\ v = to_string_u64 n.
Proof. apply canonical_u64. Qed.

Lemma decimal_i64_Ok v n : decimal_i64 v = Ok n <-> i64_ok n /\ v = to_string_i64 n.
Proof.
  unfold decimal_i64. rewrite bind_Ok. split.
  - intros (k & Hk%ok_or_Ok & [He [= ->]]%reject_Ok). guards. subst v. split; [|done].
    unfold i64_ok. eapply (parse_int_range i64_min); [|exact Hk]. by vm_compute.
  - intros [Hn ->]. exists n. rewrite eqb_of_refl. split; [|done]. apply ok_or_Ok.
    unfold i64_ok, i64_min, i64_max in Hn. unfold to_string_i64, parse_i64.
    destruct (Z.ltb_spec n 0).
    + destruct (digits_head 20 (- n)) as (d & t & E & _); [lia|].
      pose proof (parse_digits_app i64_min i64_max (-1) 20 (- n) []) as Hp.
      rewrite app_nil_r in Hp. rewrite E in *. cbn -[i64_min i64_max parse_digits digit_char].
      change (byte_val (byte_of 45)) with 45. cbn -[i64_min i64_max parse_digits digit_char].
      unfold i64_min, i64_max in *. rewrite Hp; [|lia|by right|lia|lia|lia].
      simpl. f_equal. lia.
    + apply parse_int_digits; unfold i64_min, i64_max; lia.
Qed.

(** ** Round trip of the raw record *)

#[local] Arguments to_string_u64 : simpl never.
#[local] Arguments to_string_i64 : simpl never.
#[local] Arguments decimal_u64 : simpl never.
#[local] Arguments decimal_i64 : simpl never.
#[local] Arguments transpose_map : simpl never.
#[local] Arguments to_be : simpl never.
#[local] Arguments decode_hex : simpl never.
#[local] Arguments encode_hex : simpl never.
#[local] Arguments root_of_raw : simpl never.
#[local] Arguments root_to_raw : simpl never.

(** The widths of the Rust fields, which the [Z] fields of the model do not carry. *)
Definition root_width (r : RootRef) : Prop :=
  u64_ok (txid r) /\ u64_ok (checksum r) /\ u64_ok (commit_sequence r).
Definition overlay_width (r : RecoveryOverlayRef) : Prop :=
  u64_ok (log_epoch r) /\ u64_ok (first_node_sequence r) /\ u64_ok (last_node_sequence r) /\
  root_width (predecessor r) /\ u64_ok (final_txid r) /\ u64_ok (final_checksum r) /\
  u64_ok (final_commit_sequence r).
Definition control_width (c : Control) : Prop :=
  u64_ok (epoch c) /\ u64_ok (revision c) /\ u64_ok (progress c) /\ u32_ok (schema c) /\
  from_option root_width True (root c) /\ from_option overlay_width True (recovery c) /\
  from_option (fun b => u64_ok (binding_epoch b)) True (bundle_binding c) /\
  from_option i64_ok True (next_due_ms c).

Lemma decimal_u64_to_string n : u64_ok n -> decimal_u64 (to_string_u64 n) = Ok n.
Proof. intros. by apply decimal_u64_Ok. Qed.
Lemma decimal_i64_to_string n : i64_ok n -> decimal_i64 (to_string_i64 n) = Ok n.
Proof. intros. by apply decimal_i64_Ok. Qed.

(** A 64-bit word written as sixteen hex digits. *)
Lemma decode_hex_be8 z : decode_hex 8 (encode_hex (to_be 8 z)) = Ok (Array (to_be 8 z) (length_to_be 8 z)).
Proof. apply (decode_encode_hex (Array (to_be 8 z) (length_to_be 8 z))). Qed.
Lemma from_be8 z : u64_ok z -> from_be (to_be 8 z) = z.
Proof. unfold u64_ok, u64_max. intros. apply from_to_be_small. change (256 ^ Z.of_nat 8) with 18446744073709551616. lia. Qed.

Create Rewrite HintDb codec.
#[export] Hint Rewrite @decode_encode_hex decode_hex_be8 : codec.
#[export] Hint Rewrite decimal_u64_to_string decimal_i64_to_string from_be8 using done : codec.

(** Evaluate a decoder on the text its encoder printed. *)
Ltac run_codec := repeat (autorewrite with codec; cbn [mbind result_bind as_bytes]).

Lemma root_raw_roundtrip r : root_width r -> root_of_raw (root_to_raw r) = Ok r.
Proof.
  intros (H1 & H2 & H3). unfold root_of_raw, root_to_raw; cbn. run_codec.
  by destruct r.
Qed.
Lemma owner_raw_roundtrip o : owner_of_raw (owner_to_raw o) = Ok o.
Proof. unfold owner_of_raw, owner_to_raw; cbn. run_codec. by destruct o. Qed.
Lemma binding_raw_roundtrip b : u64_ok (binding_epoch b) -> binding_of_raw (binding_to_raw b) = Ok b.
Proof. intros. unfold binding_of_raw, binding_to_raw; cbn. run_codec. by destruct b. Qed.
Lemma overlay_raw_roundtrip r : overlay_width r -> overlay_of_raw (overlay_to_raw r) = Ok r.
Proof.
  intros (H1 & H2 & H3 & H4 & H5 & H6 & H7).
  unfold overlay_of_raw, overlay_to_raw; cbn. run_codec.
  rewrite root_raw_roundtrip by done. run_codec. by destruct r.
Qed.

Lemma transpose_map_fmap {A B} (f : A -> B) (g : B -> Result A) (P : A -> Prop) o :
  (forall a, P a -> g (f a) = Ok a) -> from_option P True o ->
  transpose_map g (f <$> o) = Ok o.
Proof. intros Hg Ho. destruct o as [a|]; [|done]. unfold transpose_map; simpl in *. by rewrite Hg. Qed.

Lemma control_raw_roundtrip c : control_width c -> control_of_raw (control_to_raw c) = Ok c.
Proof.
  intros (H1 & H2 & H3 & H4 & H5 & H6 & H7 & H8).
  unfold control_of_raw, control_to_raw; cbn.
  replace (is_some (binding_to_raw <$> bundle_binding c)) with (is_some (bundle_binding c))
    by (by destruct (bundle_binding c)).
  rewrite Z.eqb_refl. cbn.
  rewrite (transpose_map_fmap _ _ _ _ binding_raw_roundtrip H7),
    (transpose_map_fmap owner_to_raw owner_of_raw (fun _ => True))
    by (eauto using owner_raw_roundtrip || by destruct (owner c)).
  rewrite (transpose_map_fmap _ _ _ _ root_raw_roundtrip H5),
    (transpose_map_fmap _ _ _ _ overlay_raw_roundtrip H6),
    (transpose_map_fmap _ _ _ _ decimal_i64_to_string H8).
  run_codec. by destruct c.
Qed.

(** ** What decoding establishes *)

Lemma decode_hex_be8_ok v (a : array 8) : decode_hex 8 v = Ok a -> u64_ok (from_be (as_bytes a)).
Proof.
  intros _. pose proof (from_be_bound (as_bytes a)) as H. rewrite as_bytes_length in H.
  unfold u64_ok, u64_max. change (256 ^ Z.of_nat 8) with 18446744073709551616 in H. lia.
Qed.

Lemma decimal_u64_ok v n : decimal_u64 v = Ok n -> u64_ok n.
Proof. by intros [? _]%decimal_u64_Ok. Qed.
Lemma decimal_i64_ok v n : decimal_i64 v = Ok n -> i64_ok n.
Proof. by intros [? _]%decimal_i64_Ok. Qed.
#[export] Hint Resolve decode_hex_be8_ok decimal_u64_ok decimal_i64_ok : cellule.

(** Open the binds of a raw conversion without unfolding the field decoders. *)
Ltac open_raw H :=
  repeat (let H1 := fresh in let x := fresh in rewrite bind_Ok in H; destruct H as (x & H1 & H)).

Lemma root_of_raw_width raw r : root_of_raw raw = Ok r -> root_width r.
Proof. unfold root_of_raw. intros H. open_raw H. injection H as <-. split_and!; simpl; eauto with cellule. Qed.
Lemma overlay_of_raw_width raw r : overlay_of_raw raw = Ok r -> overlay_width r.
Proof.
  unfold overlay_of_raw. intros H. open_raw H. injection H as <-.
  unfold overlay_width; split_and!; simpl; eauto using root_of_raw_width with cellule.
Qed.
Lemma binding_of_raw_width raw b : binding_of_raw raw = Ok b -> u64_ok (binding_epoch b).
Proof. unfold binding_of_raw. intros H. open_raw H. injection H as <-. simpl; eauto with cellule. Qed.

Lemma transpose_map_all {A B} (g : A -> Result B) (P : B -> Prop) o o' :
  (forall a b, g a = Ok b -> P b) -> transpose_map g o = Ok o' -> from_option P True o'.
Proof.
  intros Hg. unfold transpose_map. destruct o as [a|]; [|by intros [= <-]].
  intros (b & Hb & [= <-])%bind_Ok. simpl. eauto.
Qed.

Lemma control_of_raw_width raw c : u32_ok (raw_schema raw) -> control_of_raw raw = Ok c -> control_width c.
Proof.
  intros Hs. unfold control_of_raw. rewrite reject_Ok. intros [_ H]. open_raw H. injection H as <-.
  unfold control_width; split_and!; simpl;
    eauto using transpose_map_all, root_of_raw_width, overlay_of_raw_width, binding_of_raw_width
      with cellule.
Qed.

Section Codec_facts.
Context `{SerdeJson}.

Lemma encode_Ok c b :
  encode c = Ok b <->
  validate c = Ok tt /\ to_vec (control_to_raw c) = Some b /\ Z.of_nat (length b) <= MAX_CONTROL_BYTES.
Proof.
  unfold encode. rewrite bind_Ok. split.
  - intros ([] & Hv & (b' & Hb%ok_or_Ok & [Hl [= ->]]%reject_Ok)%bind_Ok). guards. done.
  - intros (Hv & Hb & Hl). exists tt. split; [done|]. rewrite Hb. simpl.
    apply reject_Ok. split; [|done]. by apply Z.ltb_ge.
Qed.

Context {laws : SerdeJsonLaws}.

Lemma decode_Ok b c : decode b = Ok c <-> encode c = Ok b /\ control_width c.
Proof.
  unfold decode. rewrite reject_Ok, bind_Ok. split.
  - intros [_ (raw & Hr%ok_or_Ok & (c' & Hc & ([] & _ & (b' & Hb & [He [= ->]]%reject_Ok)%bind_Ok)%bind_Ok)%bind_Ok)].
    guards. subst b'. split; [done|]. eauto using control_of_raw_width, from_slice_u32.
  - intros [He Hw]. pose proof He as (Hv & Hb & Hl)%encode_Ok.
    split; [by apply Z.ltb_ge|]. exists (control_to_raw c). split.
    + apply ok_or_Ok, from_slice_to_vec; [| |done].
      * simpl. by case_match.
      * unfold control_width in Hw. simpl. tauto.
    + rewrite control_raw_roundtrip by done. simpl. rewrite Hv. simpl. rewrite He. simpl.
      by rewrite eqb_of_refl.
Qed.
End Codec_facts.

(** C30: the stored control record is canonical and lossless. Bytes decode to a
    record exactly when they are that record's encoding and its fields have their
    machine widths: decoding inverts encoding, every accepted body is a
    well-formed record in its one canonical form (leading zeros, plus signs, a
    different key order or spacing are refused), and distinct bodies are distinct
    records. *)
Theorem control_codec_exact `{SerdeJsonLaws} b c :
  (decode b = Ok c <-> encode c = Ok b /\ control_width c) /\
  (forall b', decode b = Ok c -> decode b' = Ok c -> b' = b /\ validate c = Ok tt).
Proof.
  split; [apply decode_Ok|]. intros b' [He _]%decode_Ok [He' _]%decode_Ok.
  split; [congruence|]. by apply encode_Ok in He as [? _].
Qed.

(** ** A concrete serializer

    A total serializer that meets the laws: the fields of the record as
    delimited strings ([Text.pack]). *)
Module PlainText.
Definition state_tag (s : ControlState) : str :=
  match s with
  | Recovering => text "recovering" | Serving => text "serving"
  | Idle => text "idle" | Tombstoned => text "tombstoned"
  end.
Definition tag_state (s : str) : option ControlState :=
  if eqb_of s (text "recovering") then Some Recovering
  else if eqb_of s (text "serving") then Some Serving
  else if eqb_of s (text "idle") then Some Idle
  else if eqb_of s (text "tombstoned") then Some Tombstoned else None.

(** An optional group of fields: a marker, then its fields. *)
Definition put {A} (f : A -> list str) (o : option A) : list str :=
  match o with None => [[]] | Some a => [x01] :: f a end.
Definition get {A} (f : list str -> option (A * list str)) (fs : list str)
  : option (option A * list str) :=
  match fs with
  | [] :: fs => Some (None, fs)
  | _ :: fs => '(a, fs) ← f fs; Some (Some a, fs)
  | [] => None
  end.

Definition put_root (r : RawRoot) : list str :=
  [raw_digest r; raw_txid r; raw_checksum r; raw_commit_sequence r].
Definition get_root (fs : list str) : option (RawRoot * list str) :=
  match fs with a :: b :: c :: d :: fs => Some (MkRawRoot a b c d, fs) | _ => None end.
Definition put_owner (o : RawOwner) : list str := [raw_session o; raw_endpoint o].
Definition get_owner (fs : list str) : option (RawOwner * list str) :=
  match fs with a :: b :: fs => Some (MkRawOwner a b, fs) | _ => None end.
Definition put_binding (b : RawBundleBinding) : list str :=
  [raw_binding_session b; raw_binding_epoch b; raw_binding_digest b].
Definition get_binding (fs : list str) : option (RawBundleBinding * list str) :=
  match fs with a :: b :: c :: fs => Some (MkRawBinding a b c, fs) | _ => None end.
Definition put_overlay (r : RawRecoveryOverlay) : list str :=
  raw_leader_session r :: raw_log_epoch r :: raw_manifest_digest r :: raw_first_node_sequence r
  :: raw_last_node_sequence r :: raw_final_txid r :: raw_final_checksum r
  :: raw_final_commit_sequence r :: put_root (raw_predecessor r).
Definition get_overlay (fs : list str) : option (RawRecoveryOverlay * list str) :=
  match fs with
  | a :: b :: c :: d :: e :: f :: g :: h :: fs =>
      '(p, fs) ← get_root fs; Some (MkRawOverlay a b c d e p f g h, fs)
  | _ => None
  end.

Definition fields_of (r : RawControl) : list str :=
  to_be 4 (raw_version r) :: raw_cell r :: raw_incarnation r :: raw_epoch r :: raw_revision r
  :: raw_progress r :: state_tag (raw_state r) :: raw_code r :: to_be 4 (raw_schema r)
  :: put put_owner (raw_owner r) ++ put put_root (raw_root r) ++ put put_overlay (raw_recovery r)
  ++ put put_binding (raw_bundle_binding r) ++ put (fun s => [s]) (raw_next_due_ms r).

Definition of_fields (fs : list str) : option RawControl :=
  match fs with
  | v :: c :: i :: e :: r :: p :: s :: d :: h :: fs =>
      v ← get_u32 v; s ← tag_state s; h ← get_u32 h;
      '(o, fs) ← get get_owner fs;
      '(rt, fs) ← get get_root fs;
      '(rc, fs) ← get get_overlay fs;
      '(b, fs) ← get get_binding fs;
      '(n, fs) ← get (fun fs => match fs with a :: fs => Some (a, fs) | [] => None end) fs;
      Some (MkRaw v c i e r p s o rt rc b d h n)
  | _ => None
  end.

Definition serializer : SerdeJson :=
  {| to_vec r := Some (pack (fields_of r));
     from_slice b := fs ← unpack b []; of_fields fs |}.

Lemma get_put {A} (f : A -> list str) g (o : option A) rest :
  (forall a, g (f a ++ rest) = Some (a, rest)) -> get g (put f o ++ rest) = Some (o, rest).
Proof. intros Hg. destruct o as [a|]; simpl; [|done]. by rewrite Hg. Qed.

Lemma tag_state_tag s : tag_state (state_tag s) = Some s.
Proof. by destruct s. Qed.

Global Instance serializer_laws : @SerdeJsonLaws serializer.
Proof.
  split.
  - intros raw b Hv Hs [= <-]. cbn [from_slice serializer]. rewrite unpack_pack. cbn [mbind option_bind].
    unfold of_fields, fields_of. rewrite !get_u32_to_be, tag_state_tag by done. cbn [mbind option_bind].
    rewrite (get_put put_owner) by (by intros []). cbn [mbind option_bind].
    rewrite (get_put put_root) by (by intros []). cbn [mbind option_bind].
    rewrite (get_put put_overlay) by (by intros [? ? ? ? ? [] ? ? ?]). cbn [mbind option_bind].
    rewrite (get_put put_binding) by (by intros []). cbn [mbind option_bind].
    by destruct raw as [? ? ? ? ? ? ? ? ? ? ? ? ? [d|]].
  - intros raw b. cbn [from_slice serializer]. destruct (unpack b []) as [fs|]; [|done].
    cbn [mbind option_bind]. unfold of_fields.
    do 9 (destruct fs as [|? fs]; [done|]).
    match goal with |- get_u32 ?v ≫= _ = _ -> _ => destruct (get_u32 v) end;
      cbn [mbind option_bind]; [|done].
    destruct (tag_state _); cbn [mbind option_bind]; [|done].
    destruct (get_u32 _) eqn:E; cbn [mbind option_bind]; [|done]. apply get_u32_ok in E.
    repeat (match goal with |- context [get ?f ?l] =>
              destruct (get f l) as [[? ?]|]; cbn [mbind option_bind]; [|done] end).
    by intros [= <-].
Qed.
End PlainText.

Definition example_body : list byte :=
  pack (PlainText.fields_of (control_to_raw example_serving)).

Lemma control_codec_exact_witness :
  (@decode PlainText.serializer example_body = Ok example_serving) /\
  (forall b', @decode PlainText.serializer b' = Ok example_serving ->
     b' = example_body /\ validate example_serving = Ok tt).
Proof.
  assert (@decode PlainText.serializer example_body = Ok example_serving) as Hd.
  { apply (control_codec_exact example_body example_serving). split; [vm_compute; reflexivity|].
    unfold control_width, root_width, u64_ok, u32_ok, i64_ok; simpl.
    repeat split; vm_compute; discriminate. }
  split; [exact Hd|].
  intros b'. apply (control_codec_exact example_body example_serving). exact Hd.
Defined.
