(* ===== verification/Root.v ===== *)
(** * Root: segment descriptors and the root document of a replica

    Models [crates/cellule-ltx/src/replica/root.rs] with the constants it reads of
    [replica/mod.rs], [replica/packed.rs], [replica/shared/mod.rs] and
    [replica/upload.rs]. A root names the page directory and the segments of one
    published state; descriptors beyond the inlined tail live in pages of their
    own. Both are canonical JSON. serde_json enters as the class [Json], whose
    laws are that parsing what was printed returns it and that parsed integers
    have the width of their fields. *)

From Stdlib Require Import ZArith Lia.
From Stdlib Require Import Strings.Byte.
From stdpp Require Import base gmap strings numbers.
From stdpp Require Import list.
From S2P Require Import Prelude Bytes Identity Text LtxTypes Ltx LtxCodec DirectoryNode Directory.

Local Open Scope bool_scope.

(*@ cellule-ltx/src/replica/mod.rs 42-42 ROOT_BYTES *)
Definition ROOT_BYTES : Z := Z.shiftl 32 10.
(*@ cellule-ltx/src/replica/mod.rs 43-43 SEGMENT_PAGE_BYTES *)
Definition SEGMENT_PAGE_BYTES : Z := Z.shiftl 64 10.
(*@ cellule-ltx/src/replica/mod.rs 47-47 MAX_INLINE_SEGMENTS *)
Definition MAX_INLINE_SEGMENTS : Z := 32.
(*@ cellule-ltx/src/replica/mod.rs 48-48 MAX_SEGMENT_PAGES *)
Definition MAX_SEGMENT_PAGES : Z := 64.
(*@ cellule-ltx/src/replica/packed.rs 11-11 HEADER_BYTES *)
Definition PACKED_HEADER_BYTES : Z := 64.
(*@ cellule-ltx/src/replica/shared/mod.rs 15-21 FIRST_BODY_OFFSET *)
Definition FIRST_BODY_OFFSET : Z := 16 + 48 + PACKED_HEADER_BYTES.
(*@ cellule-ltx/src/replica/upload.rs 157-157 SINGLE_PUT_BYTES *)
Definition SINGLE_PUT_BYTES : Z := Z.shiftl 256 10.

(** ** Segment descriptors *)

Module Desc.
(*@ cellule-ltx/src/replica/root.rs 28-38 SegmentDescriptor *)
Record SegmentDescriptor := Mk {
  info : SegmentInfo;
  index_digest : Digest;
  index_length : Z;
  object_digest : Digest;
  offset : Z;
  length : Z;
  level : Z;
  packed : bool;
  shared : bool
}.
End Desc.
Abbreviation SegmentDescriptor := Desc.SegmentDescriptor.

#[global] Instance SegmentDescriptor_eq_dec : EqDecision SegmentDescriptor.
Proof. solve_decision. Defined.

(*@ cellule-ltx/src/replica/root.rs 41-55 SegmentDescriptor::native *)
Definition native (info : SegmentInfo) (index_digest : Digest) (index_length : Z) : SegmentDescriptor :=
  Desc.Mk info index_digest index_length (Segment.blake3 info) 0 (Segment.size_bytes info) 0 false false.

(*@ cellule-ltx/src/replica/root.rs 57-76 SegmentDescriptor::bundled *)
Definition bundled (info : SegmentInfo) (index_digest : Digest) (index_length : Z) (object_digest : Digest) (offset : Z)
  : SegmentDescriptor :=
  Desc.Mk info index_digest index_length object_digest offset (Segment.size_bytes info) 0 false false.

(*@ cellule-ltx/src/replica/root.rs 78-96 SegmentDescriptor::packed *)
Definition packed_in (info : SegmentInfo) (index_digest : Digest) (index_length : Z) (object_digest : Digest)
  : SegmentDescriptor :=
  Desc.Mk info index_digest index_length object_digest PACKED_HEADER_BYTES (Segment.size_bytes info) 0 true false.

(*@ cellule-ltx/src/replica/root.rs 98-109 SegmentDescriptor::shared *)
Definition shared_in (info : SegmentInfo) (index_digest : Digest) (index_length : Z) (object_digest : Digest) (offset : Z)
  : SegmentDescriptor :=
  let d := bundled info index_digest index_length object_digest offset in
  Desc.Mk (Desc.info d) (Desc.index_digest d) (Desc.index_length d) (Desc.object_digest d) (Desc.offset d)
    (Desc.length d) (Desc.level d) true true.

(*@ cellule-ltx/src/replica/root.rs 123-126 SegmentDescriptor::with_level *)
Definition with_level (d : SegmentDescriptor) (level : Z) : SegmentDescriptor :=
  Desc.Mk (Desc.info d) (Desc.index_digest d) (Desc.index_length d) (Desc.object_digest d) (Desc.offset d)
    (Desc.length d) level (Desc.packed d) (Desc.shared d).

(*@ cellule-ltx/src/replica/root.rs 145-155 SegmentDescriptor::object_kind *)
Definition object_kind (d : SegmentDescriptor) : CellObjectKind :=
  if Desc.shared d then KSharedPacked
  else if Desc.packed d then KPacked
  else if bool_decide (Desc.object_digest d = Segment.blake3 (Desc.info d)) then KLtx
  else KBundle.

(*@ cellule-ltx/src/replica/root.rs 157-164 SegmentDescriptor::object_extent *)
Definition object_extent (d : SegmentDescriptor) : Digest * Z * Z * CellObjectKind :=
  (Desc.object_digest d, Desc.offset d, Desc.length d, object_kind d).

(** Where the index of a segment is; the sum is within 64 bits for a validated descriptor. *)
(*@ cellule-ltx/src/replica/root.rs 111-121 SegmentDescriptor::index_extent *)
Definition index_extent (d : SegmentDescriptor) : LtxResult (Digest * CellObjectKind * Z) :=
  if Desc.packed d then
    start ← ok_or (checked_add_u64 (Desc.offset d) (Desc.length d)) LtxErr.Panic;
    Ok (Desc.object_digest d, object_kind d, start)
  else Ok (Desc.index_digest d, KIndex, 0).

(** [is_power_of_two] of a [u32]. *)
Definition is_power_of_two (z : Z) : bool := (0 <? z) && (2 ^ Z.log2 z =? z).

(** [o.is_none_or(|v| p(v))]. *)
Definition is_none_or {A} (p : A -> bool) (o : option A) : bool := match o with None => true | Some a => p a end.

(*@ cellule-ltx/src/replica/root.rs 166-198 SegmentDescriptor::validate *)
Definition descriptor_validate (d : SegmentDescriptor) (limits : Limits) : LtxResult unit :=
  let i := Desc.info d in
  let ending := checked_add_u64 (Desc.offset d) (Desc.length d) in
  if (9 <? Desc.level d)
     || (Segment.max_txid i <? Segment.min_txid i)
     || (Segment.database_pages i =? 0)
     || negb ((512 <=? Segment.page_size i) && (Segment.page_size i <=? 65536))
     || negb (is_power_of_two (Segment.page_size i))
     || (Z.land (Segment.post_checksum i) CHECKSUM_FLAG =? 0)
     || (Segment.size_bytes i <? 128)
     || (max_file_bytes limits <? Segment.size_bytes i)
     || (Segment.database_pages i * 60 <? Desc.index_length d)
     || negb (Desc.length d =? Segment.size_bytes i)
     || negb (is_some ending)
     || (Desc.shared d && (negb (Desc.packed d) || (Desc.offset d <? FIRST_BODY_OFFSET)))
     || (bool_decide (object_kind d = KLtx) && negb (Desc.offset d =? 0))
     || (Desc.packed d
         && ((negb (Desc.shared d) && negb (Desc.offset d =? PACKED_HEADER_BYTES))
             || is_none_or (fun e => SINGLE_PUT_BYTES <? e)
                  (n ← ending; checked_add_u64 n (Desc.index_length d))))
     || is_none_or (fun e => max_plan_bytes limits <? e) ending
     || (max_database_bytes limits <? Segment.database_pages i * Segment.page_size i)
  then Err LtxErr.LTXCorrupted else Ok tt.

Definition zero_digest : Digest := array_fill 32 x00.

(*@ cellule-ltx/src/replica/root.rs 200-206 SegmentDescriptor::validate_published *)
Definition validate_published (d : SegmentDescriptor) (limits : Limits) : LtxResult unit :=
  _ ← descriptor_validate d limits;
  if bool_decide (Desc.index_digest d = zero_digest) || (Desc.index_length d =? 0)
     || bool_decide (Desc.object_digest d = zero_digest)
  then Err LtxErr.LTXCorrupted else Ok tt.

(** ** Text fields *)

(** [format!("{value:016x}")] of a [u64]: its sixteen nibbles. *)
Fixpoint hex_digits (n : nat) (v : Z) : str :=
  match n with
  | O => []
  | S n => hex_digits n (Z.shiftr v 4) ++ [hex_digit (Z.land v 15)]
  end.
(*@ cellule-ltx/src/replica/root.rs 443-445 checksum *)
Definition checksum_text (value : Z) : str := hex_digits 16 value.

(** [byte.is_ascii_digit() || (b'a'..=b'f').contains(&byte)]. *)
Definition is_lower_hex (b : byte) : bool :=
  let v := byte_val b in ((48 <=? v) && (v <=? 57)) || ((97 <=? v) && (v <=? 102)).

(** [char::to_digit(16)]. *)
Definition to_digit_16 (b : byte) : option Z :=
  let v := byte_val b in
  if (48 <=? v) && (v <=? 57) then Some (v - 48)
  else if (97 <=? v) && (v <=? 102) then Some (v - 87)
  else if (65 <=? v) && (v <=? 70) then Some (v - 55)
  else None.

(** The digit loop of [u64::from_str_radix] at radix sixteen; a sign and empty
    text, which the function also looks at, are refused before the call. *)
Fixpoint from_hex_digits (s : str) (acc : Z) : option Z :=
  match s with
  | [] => Some acc
  | c :: s =>
      d ← to_digit_16 c;
      m ← (if acc * 16 <=? u64_max then Some (acc * 16) else None);
      a ← checked_add_u64 m d;
      from_hex_digits s a
  end.

(*@ cellule-ltx/src/replica/root.rs 447-456 parse_checksum *)
Definition parse_checksum (value : str) : LtxResult Z :=
  if negb (len value =? 16) || existsb (fun b => negb (is_lower_hex b)) value then Err LtxErr.LTXCorrupted
  else ok_or (from_hex_digits value 0) LtxErr.LTXCorrupted.

(*@ cellule-ltx/src/replica/root.rs 473-479 nibble *)
Definition root_nibble (value : byte) : LtxResult Z :=
  let v := byte_val value in
  if (48 <=? v) && (v <=? 57) then Ok (v - 48)
  else if (97 <=? v) && (v <=? 102) then Ok (v - 97 + 10)
  else Err LtxErr.LTXCorrupted.

(** The bytes of the two-character chunks; a last odd character is left over. *)
Fixpoint hex_chunks (value : str) : LtxResult (list byte) :=
  match value with
  | a :: b :: value =>
      high ← root_nibble a;
      low ← root_nibble b;
      rest ← hex_chunks value;
      Ok (byte_of (Z.lor (Z.shiftl high 4) low) :: rest)
  | _ => Ok []
  end.

(*@ cellule-ltx/src/replica/root.rs 458-471 parse_hex *)
Definition parse_hex (N : nat) (value : str) : LtxResult (array N) :=
  if negb (length value =? N * 2)%nat || existsb (fun b => negb (is_lower_hex b)) value then Err LtxErr.LTXCorrupted
  else
    output ← hex_chunks value;
    (* [2 * N] characters make [N] bytes *)
    ok_or (array_of N output) LtxErr.Panic.

(*@ cellule-ltx/src/replica/root.rs 251-266 parse_inline *)
Definition parse_inline (value : str) : LtxResult (list byte) :=
  if (len value =? 0) || negb (len value mod 2 =? 0) || (INLINE_DIRECTORY_BYTES * 2 <? len value)
  then Err LtxErr.LTXCorrupted else hex_chunks value.

(*@ cellule-ltx/src/replica/root.rs 435-441 decimal *)
Definition decimal (value : str) : LtxResult Z :=
  parsed ← ok_or (parse_u64 value) LtxErr.LTXCorrupted;
  if negb (eqb_of (to_string_u64 parsed) value) then Err LtxErr.LTXCorrupted else Ok parsed.

(** ** Documents and their JSON records *)

Module RootDoc.
(*@ cellule-ltx/src/replica/root.rs 11-25 RootDocument *)
Record RootDocument := Mk {
  cell : array 32;
  checksum : Z;
  commit_sequence : Z;
  database_pages : Z;
  directory_digest : Digest;
  directory_height : Z;
  directory_inline : option (list byte);
  incarnation : array 16;
  page_size : Z;
  schema : Z;
  segment_pages : list Digest;
  segments : list SegmentDescriptor;
  txid : Z
}.
End RootDoc.
Abbreviation RootDocument := RootDoc.RootDocument.

Module SegWire.
(*@ cellule-ltx/src/replica/root.rs 230-247 SegmentWire *)
Record SegmentWire := Mk {
  blake3 : str;
  database_pages : Z;
  index_digest : str;
  index_length : str;
  length : str;
  level : Z;
  max_txid : str;
  min_txid : str;
  object_digest : str;
  offset : str;
  packed : bool;
  page_size : Z;
  post_checksum : str;
  pre_checksum : str;
  shared : bool;
  size_bytes : str
}.
End SegWire.
Abbreviation SegmentWire := SegWire.SegmentWire.

Module RootW.
(*@ cellule-ltx/src/replica/root.rs 211-226 RootWire *)
Record RootWire := Mk {
  cell : str;
  checksum : str;
  commit_sequence : str;
  database_pages : Z;
  directory_digest : str;
  directory_height : Z;
  directory_inline : option str;
  incarnation : str;
  page_size : Z;
  schema : Z;
  segment_pages : list str;
  segments : list SegmentWire;
  txid : str;
  version : Z
}.
End RootW.
Abbreviation RootWire := RootW.RootWire.

(*@ cellule-ltx/src/replica/root.rs 391-410 segment_wire *)
Definition segment_wire (s : SegmentDescriptor) : SegmentWire :=
  let i := Desc.info s in
  {| SegWire.blake3 := encode_hex (as_bytes (Segment.blake3 i));
     SegWire.database_pages := Segment.database_pages i;
     SegWire.index_digest := encode_hex (as_bytes (Desc.index_digest s));
     SegWire.index_length := to_string_u64 (Desc.index_length s);
     SegWire.length := to_string_u64 (Desc.length s);
     SegWire.level := Desc.level s;
     SegWire.max_txid := to_string_u64 (Segment.max_txid i);
     SegWire.min_txid := to_string_u64 (Segment.min_txid i);
     SegWire.object_digest := encode_hex (as_bytes (Desc.object_digest s));
     SegWire.offset := to_string_u64 (Desc.offset s);
     SegWire.packed := Desc.packed s;
     SegWire.page_size := Segment.page_size i;
     SegWire.post_checksum := checksum_text (Segment.post_checksum i);
     SegWire.pre_checksum := checksum_text (Segment.pre_checksum i);
     SegWire.shared := Desc.shared s;
     SegWire.size_bytes := to_string_u64 (Segment.size_bytes i) |}.

(*@ cellule-ltx/src/replica/root.rs 412-433 segment_descriptor *)
Definition segment_descriptor (s : SegmentWire) : LtxResult SegmentDescriptor :=
  min_txid ← decimal (SegWire.min_txid s);
  max_txid ← decimal (SegWire.max_txid s);
  pre ← parse_checksum (SegWire.pre_checksum s);
  post ← parse_checksum (SegWire.post_checksum s);
  size ← decimal (SegWire.size_bytes s);
  body ← parse_hex 32 (SegWire.blake3 s);
  index_digest ← parse_hex 32 (SegWire.index_digest s);
  index_length ← decimal (SegWire.index_length s);
  object_digest ← parse_hex 32 (SegWire.object_digest s);
  offset ← decimal (SegWire.offset s);
  length ← decimal (SegWire.length s);
  Ok (Desc.Mk (Segment.Mk min_txid max_txid (SegWire.page_size s) (SegWire.database_pages s) pre post size body)
        index_digest index_length object_digest offset length (SegWire.level s) (SegWire.packed s) (SegWire.shared s)).

(** [iter().map(f).collect::<Result<Vec<_>>>()]. *)
Fixpoint collect {E A B} (f : A -> result E B) (l : list A) : result E (list B) :=
  match l with
  | [] => Ok []
  | a :: l => b ← f a; bs ← collect f l; Ok (b :: bs)
  end.

(** [serde_json::to_vec] and [from_slice] at the derived implementations of a type. *)
Class Json (A : Type) := {
  json_to_vec : A -> option (list byte);
  json_from_slice : list byte -> option A
}.
(** Documented behaviour: parsing returns what was printed, and a parsed integer
    has the width of its field. *)
Class JsonLaws (A : Type) `{Json A} (width : A -> Prop) : Prop := {
  json_roundtrip a b : width a -> json_to_vec a = Some b -> json_from_slice b = Some a;
  json_width a b : json_from_slice b = Some a -> width a
}.

Section RootCodec.
Context `{Blake3, Json RootWire, Json (list SegmentWire)}.

(** The record that is printed. *)
(*@ cellule-ltx/src/replica/root.rs 288-310 encode_root *)
Definition root_wire (r : RootDocument) : RootWire :=
  {| RootW.cell := encode_hex (as_bytes (RootDoc.cell r));
     RootW.checksum := checksum_text (RootDoc.checksum r);
     RootW.commit_sequence := to_string_u64 (RootDoc.commit_sequence r);
     RootW.database_pages := RootDoc.database_pages r;
     RootW.directory_digest := encode_hex (as_bytes (RootDoc.directory_digest r));
     RootW.directory_height := RootDoc.directory_height r;
     RootW.directory_inline := encode_hex <$> RootDoc.directory_inline r;
     RootW.incarnation := encode_hex (as_bytes (RootDoc.incarnation r));
     RootW.page_size := RootDoc.page_size r;
     RootW.schema := RootDoc.schema r;
     RootW.segment_pages := map (fun d => encode_hex (as_bytes d)) (RootDoc.segment_pages r);
     RootW.segments := map segment_wire (RootDoc.segments r);
     RootW.txid := to_string_u64 (RootDoc.txid r);
     RootW.version := 3 |}.

(*@ cellule-ltx/src/replica/root.rs 268-315 encode_root *)
Definition encode_root (r : RootDocument) : LtxResult (list byte) :=
  if match RootDoc.directory_inline r with
     | Some bytes => negb (RootDoc.directory_height r =? 0) || (len bytes =? 0) || (INLINE_DIRECTORY_BYTES <? len bytes)
                     || negb (bool_decide (blake3 bytes = RootDoc.directory_digest r))
     | None => false
     end
  then Err LtxErr.LTXCorrupted
  else if (RootDoc.schema r =? 0) || (RootDoc.txid r =? 0) || (Z.land (RootDoc.checksum r) CHECKSUM_FLAG =? 0)
          || (i64_max <? RootDoc.commit_sequence r) || (RootDoc.database_pages r =? 0)
          || ((len (RootDoc.segment_pages r) =? 0) && (len (RootDoc.segments r) =? 0))
          || (MAX_SEGMENT_PAGES <? len (RootDoc.segment_pages r)) || (MAX_INLINE_SEGMENTS <? len (RootDoc.segments r))
  then Err LtxErr.LTXCorrupted
  else
    bytes ← ok_or (json_to_vec (root_wire r)) LtxErr.Json;
    if ROOT_BYTES <? len bytes then Err (LtxErr.Limit Limit.CellRootBytes) else Ok bytes.

(** The document a parsed record stands for. *)
(*@ cellule-ltx/src/replica/root.rs 335-360 decode_root *)
Definition root_of_wire (wire : RootWire) : LtxResult RootDocument :=
  cell ← parse_hex 32 (RootW.cell wire);
  checksum ← parse_checksum (RootW.checksum wire);
  commit_sequence ← decimal (RootW.commit_sequence wire);
  directory_digest ← parse_hex 32 (RootW.directory_digest wire);
  directory_inline ← transpose_map parse_inline (RootW.directory_inline wire);
  incarnation ← parse_hex 16 (RootW.incarnation wire);
  segment_pages ← collect (parse_hex 32) (RootW.segment_pages wire);
  segments ← collect segment_descriptor (RootW.segments wire);
  txid ← decimal (RootW.txid wire);
  Ok (RootDoc.Mk cell checksum commit_sequence (RootW.database_pages wire) directory_digest (RootW.directory_height wire)
        directory_inline incarnation (RootW.page_size wire) (RootW.schema wire) segment_pages segments txid).

(*@ cellule-ltx/src/replica/root.rs 327-365 decode_root *)
Definition decode_root (bytes : list byte) : LtxResult RootDocument :=
  if ROOT_BYTES <? len bytes then Err (LtxErr.Limit Limit.CellRootBytes)
  else
    wire ← ok_or (json_from_slice bytes) LtxErr.Json;
    if negb (RootW.version wire =? 3) then Err LtxErr.LTXCorrupted
    else
      root ← root_of_wire wire;
      again ← encode_root root;
      if negb (eqb_of again bytes) then Err LtxErr.LTXCorrupted else Ok root.

(*@ cellule-ltx/src/replica/root.rs 367-374 encode_segment_page *)
Definition encode_segment_page (segments : list SegmentDescriptor) : LtxResult (list byte) :=
  bytes ← ok_or (json_to_vec (map segment_wire segments)) LtxErr.Json;
  if SEGMENT_PAGE_BYTES <? len bytes then Err (LtxErr.Limit Limit.CellSegmentPageBytes) else Ok bytes.

(*@ cellule-ltx/src/replica/root.rs 376-389 decode_segment_page *)
Definition decode_segment_page (bytes : list byte) : LtxResult (list SegmentDescriptor) :=
  if SEGMENT_PAGE_BYTES <? len bytes then Err (LtxErr.Limit Limit.CellSegmentPageBytes)
  else
    wire ← ok_or (json_from_slice bytes) LtxErr.Json;
    segments ← collect segment_descriptor wire;
    again ← encode_segment_page segments;
    if negb (eqb_of again bytes) then Err LtxErr.LTXCorrupted else Ok segments.

(*@ cellule-ltx/src/replica/root.rs 318-320 inspect_root *)
Definition inspect_root (bytes : list byte) : LtxResult Z :=
  root ← decode_root bytes; Ok (len (RootDoc.segment_pages root)).
(*@ cellule-ltx/src/replica/root.rs 323-325 inspect_segment_page *)
Definition inspect_segment_page (bytes : list byte) : LtxResult Z :=
  segments ← decode_segment_page bytes; Ok (len segments).
End RootCodec.

(** ** Text fields round-trip *)

Lemma root_nibble_hex v : 0 <= v < 16 -> root_nibble (hex_digit v) = Ok v /\ to_digit_16 (hex_digit v) = Some v /\ is_lower_hex (hex_digit v) = true.
Proof.
  intros Hv.
  assert (forallb (fun v => bool_decide (root_nibble (hex_digit v) = Ok v /\ to_digit_16 (hex_digit v) = Some v /\
            is_lower_hex (hex_digit v) = true)) (seqZ 0 16) = true) as H by (vm_compute; reflexivity).
  rewrite forallb_forall in H. specialize (H v). rewrite bool_decide_eq_true in H. apply H.
  apply list_elem_of_In, elem_of_seqZ. lia.
Qed.

Lemma byte_nibbles b : 0 <= Z.shiftr (byte_val b) 4 < 16 /\ 0 <= Z.land (byte_val b) 15 < 16.
Proof. destruct b; vm_compute; intuition congruence. Qed.

Lemma hex_chunks_encode bs : hex_chunks (encode_hex bs) = Ok bs.
Proof.
  induction bs as [|b bs IH]; [done|]. destruct (byte_nibbles b) as [H1 H2].
  cbn [encode_hex flat_map app hex_chunks]. rewrite (proj1 (root_nibble_hex _ H1)), (proj1 (root_nibble_hex _ H2)).
  cbn [mbind result_bind]. fold (encode_hex bs). rewrite IH. cbn [mbind result_bind].
  by rewrite (proj2 (proj2 (hex_pair b))).
Qed.

Lemma encode_hex_lower bs : existsb (fun b => negb (is_lower_hex b)) (encode_hex bs) = false.
Proof.
  induction bs as [|b bs IH]; [done|]. destruct (byte_nibbles b) as [H1 H2].
  cbn [encode_hex flat_map app existsb]. fold (encode_hex bs).
  by rewrite (proj2 (proj2 (root_nibble_hex _ H1))), (proj2 (proj2 (root_nibble_hex _ H2))), IH.
Qed.

Lemma parse_encode_hex {N} (a : array N) : parse_hex N (encode_hex (as_bytes a)) = Ok a.
Proof.
  unfold parse_hex. rewrite length_encode_hex, as_bytes_length, Nat.eqb_refl, encode_hex_lower. simpl.
  rewrite hex_chunks_encode. simpl. by rewrite array_of_as_bytes.
Qed.

Lemma parse_encode_inline bs : 0 < len bs <= INLINE_DIRECTORY_BYTES -> parse_inline (encode_hex bs) = Ok bs.
Proof.
  intros Hl. unfold parse_inline. rewrite hex_chunks_encode. unfold len in *. rewrite length_encode_hex, Nat2Z.inj_mul.
  change (Z.of_nat 2) with 2. rewrite Z_mod_mult. apply reject_Ok. split; [|done].
  rewrite !orb_false_iff, Z.eqb_neq, Z.ltb_ge. simpl. lia.
Qed.

Lemma length_hex_digits n v : length (hex_digits n v) = n.
Proof. revert v. induction n as [|n IH]; intros v; [done|]. simpl. rewrite length_app, IH. simpl. lia. Qed.

Lemma land_15 v : 0 <= Z.land v 15 < 16.
Proof. change 15 with (Z.ones 4). rewrite Z.land_ones by lia. apply Z.mod_pos_bound. lia. Qed.

Lemma hex_digits_lower n v : existsb (fun b => negb (is_lower_hex b)) (hex_digits n v) = false.
Proof.
  revert v. induction n as [|n IH]; intros v; [done|]. simpl.
  rewrite existsb_app, IH. simpl. by rewrite (proj2 (proj2 (root_nibble_hex _ (land_15 v)))).
Qed.

Lemma from_hex_digits_app n v rest :
  0 <= v < 16 ^ Z.of_nat n -> v <= u64_max -> from_hex_digits (hex_digits n v ++ rest) 0 = from_hex_digits rest v.
Proof.
  revert v rest. induction n as [|n IH]; intros v rest Hv Hm.
  - simpl in *. f_equal. lia.
  - cbn [hex_digits]. rewrite <- app_assoc.
    rewrite Nat2Z.inj_succ, Z.pow_succ_r in Hv by lia.
    assert (Z.shiftr v 4 = v / 16) as E by (rewrite Z.shiftr_div_pow2 by lia; done).
    assert (Z.land v 15 = v mod 16) as E' by (change 15 with (Z.ones 4); rewrite Z.land_ones by lia; done).
    pose proof (Z.div_mod v 16 ltac:(lia)) as Hdm. pose proof (Z.mod_pos_bound v 16 eq_refl).
    rewrite IH; rewrite E; [|split; [apply Z.div_pos; lia|apply Z.div_lt_upper_bound; lia]|lia].
    cbn [app from_hex_digits]. rewrite (proj1 (proj2 (root_nibble_hex _ (land_15 v)))), E'. cbn [mbind option_bind].
    rewrite (proj2 (Z.leb_le _ _)) by lia. cbn [mbind option_bind]. unfold checked_add_u64.
    replace (v / 16 * 16 + v mod 16) with v by lia. by rewrite (proj2 (Z.leb_le _ _)) by lia.
Qed.

Lemma parse_checksum_text v : u64_ok v -> parse_checksum (checksum_text v) = Ok v.
Proof.
  unfold u64_ok, u64_max. intros Hv. unfold parse_checksum, checksum_text, len.
  rewrite length_hex_digits, hex_digits_lower. cbn [negb orb Z.of_nat]. change (Z.of_nat 16) with 16. cbn [Z.eqb negb orb].
  apply ok_or_Ok. pose proof (from_hex_digits_app 16 v []) as H. rewrite app_nil_r in H. apply H; [|unfold u64_max; lia].
  change (16 ^ Z.of_nat 16) with 18446744073709551616. lia.
Qed.

Lemma from_hex_digits_range s acc v : 0 <= acc <= u64_max -> from_hex_digits s acc = Some v -> u64_ok v.
Proof.
  revert acc. induction s as [|c s IH]; intros acc Hacc; simpl; [by intros [= <-]|].
  destruct (to_digit_16 c) as [d|] eqn:Ed; simpl; [|done].
  assert (0 <= d) by (unfold to_digit_16 in Ed; repeat case_match; simplify_eq; guards; lia).
  case_match eqn:E; simpl; [|done]. unfold checked_add_u64. case_match eqn:E'; simpl; [|done].
  guards. apply IH. lia.
Qed.

Lemma parse_checksum_u64 s v : parse_checksum s = Ok v -> u64_ok v.
Proof.
  unfold parse_checksum. intros [_ H%ok_or_Ok]%reject_Ok. eapply from_hex_digits_range; [|exact H]. by vm_compute.
Qed.

Lemma decimal_Ok s n : decimal s = Ok n <-> u64_ok n /\ s = to_string_u64 n.
Proof. apply canonical_u64. Qed.
Lemma decimal_to_string n : u64_ok n -> decimal (to_string_u64 n) = Ok n.
Proof. intros. by apply decimal_Ok. Qed.
Lemma decimal_u64_width s n : decimal s = Ok n -> u64_ok n.
Proof. by intros [? _]%decimal_Ok. Qed.

(** ** The records round-trip *)

(** The widths of the Rust fields. *)
Definition u8_ok (z : Z) : Prop := 0 <= z <= 255.
Definition descriptor_width (d : SegmentDescriptor) : Prop :=
  let i := Desc.info d in
  u64_ok (Segment.min_txid i) /\ u64_ok (Segment.max_txid i) /\ u32_ok (Segment.page_size i) /\
  u32_ok (Segment.database_pages i) /\ u64_ok (Segment.pre_checksum i) /\ u64_ok (Segment.post_checksum i) /\
  u64_ok (Segment.size_bytes i) /\ u64_ok (Desc.index_length d) /\ u64_ok (Desc.offset d) /\ u64_ok (Desc.length d) /\
  u8_ok (Desc.level d).
Definition root_width (r : RootDocument) : Prop :=
  u64_ok (RootDoc.checksum r) /\ u64_ok (RootDoc.commit_sequence r) /\ u32_ok (RootDoc.database_pages r) /\
  u32_ok (RootDoc.directory_height r) /\ u32_ok (RootDoc.page_size r) /\ u32_ok (RootDoc.schema r) /\
  Forall descriptor_width (RootDoc.segments r) /\ u64_ok (RootDoc.txid r).
Definition segment_wire_width (s : SegmentWire) : Prop :=
  u32_ok (SegWire.database_pages s) /\ u8_ok (SegWire.level s) /\ u32_ok (SegWire.page_size s).
Definition root_wire_width (w : RootWire) : Prop :=
  u32_ok (RootW.database_pages w) /\ u32_ok (RootW.directory_height w) /\ u32_ok (RootW.page_size w) /\
  u32_ok (RootW.schema w) /\ Forall segment_wire_width (RootW.segments w) /\ u32_ok (RootW.version w).

Lemma collect_map {E A B} (f : A -> B) (g : B -> result E A) l :
  Forall (fun a => g (f a) = Ok a) l -> collect g (map f l) = Ok l.
Proof. induction 1 as [|a l Ha _ IH]; [done|]. simpl. by rewrite Ha, IH. Qed.

Lemma collect_Forall {E A B} (P : A -> Prop) (Q : B -> Prop) (g : A -> result E B) l l' :
  (forall a b, P a -> g a = Ok b -> Q b) -> Forall P l -> collect g l = Ok l' -> Forall Q l'.
Proof.
  intros Hg Hl. revert l'. induction Hl as [|a l Ha _ IH]; intros l'; simpl; [by intros [= <-]|].
  intros (b & Hb & (bs & Hbs & [= <-])%bind_Ok)%bind_Ok. eauto.
Qed.

#[local] Arguments to_string_u64 : simpl never.
#[local] Arguments decimal : simpl never.
#[local] Arguments parse_hex : simpl never.
#[local] Arguments parse_checksum : simpl never.
#[local] Arguments checksum_text : simpl never.
#[local] Arguments encode_hex : simpl never.

Create Rewrite HintDb rootcodec.
#[export] Hint Rewrite @parse_encode_hex : rootcodec.
#[export] Hint Rewrite decimal_to_string parse_checksum_text using done : rootcodec.
#[export] Hint Resolve decimal_u64_width parse_checksum_u64 : cellule.

Lemma segment_roundtrip d : descriptor_width d -> segment_descriptor (segment_wire d) = Ok d.
Proof.
  intros (H1 & H2 & H3 & H4 & H5 & H6 & H7 & H8 & H9 & H10 & H11).
  unfold segment_descriptor, segment_wire; cbn. repeat (autorewrite with rootcodec; cbn [mbind result_bind]).
  by destruct d as [[] ? ? ? ? ? ? ? ?].
Qed.
Lemma segment_wire_width_of d : descriptor_width d -> segment_wire_width (segment_wire d).
Proof. unfold descriptor_width, segment_wire_width. simpl. tauto. Qed.

Lemma segment_descriptor_width s d : segment_wire_width s -> segment_descriptor s = Ok d -> descriptor_width d.
Proof.
  intros (H1 & H2 & H3). unfold segment_descriptor. intros H.
  repeat (let Hx := fresh "Hx" in let x := fresh in rewrite bind_Ok in H; destruct H as (x & Hx & H)).
  injection H as <-. unfold descriptor_width; cbn. split_and!; eauto with cellule.
Qed.

Lemma segments_roundtrip l : Forall descriptor_width l -> collect segment_descriptor (map segment_wire l) = Ok l.
Proof. intros Hl. apply collect_map. eapply Forall_impl; [exact Hl|]. apply segment_roundtrip. Qed.

Lemma root_wire_roundtrip r :
  root_width r -> from_option (fun b => 0 < len b <= INLINE_DIRECTORY_BYTES) True (RootDoc.directory_inline r) ->
  root_of_wire (root_wire r) = Ok r.
Proof.
  intros (H1 & H2 & H3 & H4 & H5 & H6 & H7 & H8) Hi. unfold root_of_wire, root_wire; cbn.
  repeat (autorewrite with rootcodec; cbn [mbind result_bind]).
  assert (transpose_map parse_inline (encode_hex <$> RootDoc.directory_inline r) = Ok (RootDoc.directory_inline r)) as ->.
  { destruct (RootDoc.directory_inline r) as [b|]; [|done]. simpl in *. by rewrite parse_encode_inline. }
  repeat (autorewrite with rootcodec; cbn [mbind result_bind]).
  rewrite (collect_map _ (parse_hex 32)) by (apply Forall_true; intros; apply parse_encode_hex). cbn [mbind result_bind].
  rewrite segments_roundtrip by done. cbn [mbind result_bind]. repeat (autorewrite with rootcodec; cbn [mbind result_bind]). by destruct r.
Qed.

Lemma root_of_wire_width w r : root_wire_width w -> root_of_wire w = Ok r -> root_width r.
Proof.
  intros (H1 & H2 & H3 & H4 & H5 & H6). unfold root_of_wire. intros H.
  repeat (let Hx := fresh "Hx" in let x := fresh in rewrite bind_Ok in H; destruct H as (x & Hx & H)).
  injection H as <-. unfold root_width; cbn. split_and!; eauto using collect_Forall, segment_descriptor_width with cellule.
Qed.

Section RootCodecFacts.
Context `{Blake3, JR : Json RootWire, JS : Json (list SegmentWire)}.

(** What a root that can be written satisfies. *)
Definition root_valid (r : RootDocument) : Prop :=
  (forall b, RootDoc.directory_inline r = Some b ->
     RootDoc.directory_height r = 0 /\ 0 < len b <= INLINE_DIRECTORY_BYTES /\ blake3 b = RootDoc.directory_digest r) /\
  RootDoc.schema r <> 0 /\ RootDoc.txid r <> 0 /\ Z.land (RootDoc.checksum r) CHECKSUM_FLAG <> 0 /\
  RootDoc.commit_sequence r <= i64_max /\ RootDoc.database_pages r <> 0 /\
  0 < len (RootDoc.segment_pages r) + len (RootDoc.segments r) /\
  len (RootDoc.segment_pages r) <= MAX_SEGMENT_PAGES /\ len (RootDoc.segments r) <= MAX_INLINE_SEGMENTS.

Lemma encode_root_Ok r b :
  encode_root r = Ok b <-> root_valid r /\ json_to_vec (root_wire r) = Some b /\ len b <= ROOT_BYTES.
Proof.
  unfold encode_root. rewrite !reject_Ok, bind_Ok, !orb_false_iff, !Z.eqb_neq, !Z.ltb_ge, andb_false_iff, !Z.eqb_neq.
  unfold root_valid.
  assert ((exists a, ok_or (json_to_vec (root_wire r)) LtxErr.Json = Ok a /\
             (if ROOT_BYTES <? len a then Err (LtxErr.Limit Limit.CellRootBytes) else Ok a) = Ok b) <->
          json_to_vec (root_wire r) = Some b /\ len b <= ROOT_BYTES) as ->.
  { split.
    - intros (a & Ha%ok_or_Ok & [Hl%Z.ltb_ge [= ->]]%reject_Ok). done.
    - intros [Hj Hl]. exists b. split; [by apply ok_or_Ok|]. apply reject_Ok. split; [by apply Z.ltb_ge|done]. }
  pose proof (len_nonneg (RootDoc.segment_pages r)). pose proof (len_nonneg (RootDoc.segments r)).
  assert ((match RootDoc.directory_inline r with
     | Some bytes => negb (RootDoc.directory_height r =? 0) || (len bytes =? 0) || (INLINE_DIRECTORY_BYTES <? len bytes)
                     || negb (bool_decide (blake3 bytes = RootDoc.directory_digest r))
     | None => false
     end = false) <-> (forall b, RootDoc.directory_inline r = Some b ->
     RootDoc.directory_height r = 0 /\ 0 < len b <= INLINE_DIRECTORY_BYTES /\ blake3 b = RootDoc.directory_digest r)) as ->.
  { destruct (RootDoc.directory_inline r) as [i|]; [|naive_solver].
    rewrite !orb_false_iff, !negb_false_iff, Z.eqb_eq, Z.eqb_neq, Z.ltb_ge, bool_decide_eq_true.
    pose proof (len_nonneg i). split; [intros ? ? [= <-]; intuition lia|intros Hi; specialize (Hi i eq_refl); intuition lia]. }
  intuition lia.
Qed.

Context `{!JsonLaws RootWire root_wire_width, !JsonLaws (list SegmentWire) (Forall segment_wire_width)}.

Lemma root_wire_width_of r : root_width r -> root_wire_width (root_wire r).
Proof.
  intros (H1 & H2 & H3 & H4 & H5 & H6 & H7 & H8). unfold root_wire_width; simpl. split_and!; try done.
  apply Forall_map. eapply Forall_impl; [exact H7|]. apply segment_wire_width_of.
Qed.

Lemma decode_root_Ok b r : decode_root b = Ok r <-> encode_root r = Ok b /\ root_width r.
Proof.
  unfold decode_root. rewrite reject_Ok, bind_Ok. split.
  - intros [_ (w & Hw%ok_or_Ok & [_ (r' & Hr & (b' & Hb & [He [= ->]]%reject_Ok)%bind_Ok)%bind_Ok]%reject_Ok)].
    guards. subst b'. split; [done|].
    eapply root_of_wire_width; [eapply json_width; exact Hw|exact Hr].
  - intros [He Hw]. pose proof He as (Hv & Hj & Hl)%encode_root_Ok. split; [by apply Z.ltb_ge|].
    exists (root_wire r). split; [by apply ok_or_Ok, json_roundtrip; [apply root_wire_width_of|]|].
    simpl. rewrite root_wire_roundtrip; [|done|].
    + cbn [mbind result_bind]. rewrite He. simpl. by rewrite eqb_of_refl.
    + destruct Hv as [Hi _]. destruct (RootDoc.directory_inline r) as [i|]; [|done]. simpl. by destruct (Hi i eq_refl) as (_ & ? & _).
Qed.

Lemma decode_segment_page_Ok b l : decode_segment_page b = Ok l <-> encode_segment_page l = Ok b /\ Forall descriptor_width l.
Proof.
  unfold decode_segment_page. rewrite reject_Ok, bind_Ok. split.
  - intros [_ (w & Hw%ok_or_Ok & (l' & Hl & (b' & Hb & [He [= ->]]%reject_Ok)%bind_Ok)%bind_Ok)].
    guards. subst b'. split; [done|].
    eapply collect_Forall; [apply segment_descriptor_width|eapply json_width; exact Hw|exact Hl].
  - intros [He Hw]. pose proof He as (b' & Hj%ok_or_Ok & [Hl [= ->]]%reject_Ok)%bind_Ok. split; [done|].
    exists (map segment_wire l). split.
    + apply ok_or_Ok, json_roundtrip; [|done]. apply Forall_map. eapply Forall_impl; [exact Hw|]. apply segment_wire_width_of.
    + rewrite segments_roundtrip by done. cbn [mbind result_bind]. rewrite He. simpl. by rewrite eqb_of_refl.
Qed.
End RootCodecFacts.

(** C21: published metadata is canonical and lossless. Bytes decode to a root
    document exactly when they are its encoding and its fields have their machine
    widths, and the same holds of descriptor pages; so a root has one byte string
    and with it one digest. A decoded root satisfies the writer's rules: a
    non-zero schema and transaction, a flagged checksum, a commit sequence within
    a signed word, between one and the permitted number of descriptor pages and
    inlined descriptors, and an inlined directory node only at height zero, within
    its bound and under the digest the root names. *)
Theorem root_codec_exact `{Blake3, Json RootWire, Json (list SegmentWire)}
    `{!JsonLaws RootWire root_wire_width, !JsonLaws (list SegmentWire) (Forall segment_wire_width)} :
  (forall b r, decode_root b = Ok r <-> encode_root r = Ok b /\ root_width r) /\
  (forall b r, decode_root b = Ok r -> root_valid r /\ forall b', decode_root b' = Ok r -> b' = b) /\
  (forall b l, decode_segment_page b = Ok l <-> encode_segment_page l = Ok b /\ Forall descriptor_width l).
Proof.
  split; [exact decode_root_Ok|]. split; [|exact decode_segment_page_Ok].
  intros b r [He _]%decode_root_Ok. split; [by apply encode_root_Ok in He as [? _]|].
  intros b' [He' _]%decode_root_Ok. congruence.
Qed.

(** ** A concrete serializer

    The fields of a record, nested lists packed into a field of their own. *)
Module PlainRoot.
Definition put_bool (b : bool) : str := if b then [x01] else [].
Definition get_bool (s : str) : bool := match s with [] => false | _ => true end.
Definition put_option (o : option str) : str := match o with None => [] | Some s => x01 :: s end.
Definition get_option (s : str) : option str := match s with [] => None | _ :: s => Some s end.
Definition get_u8 (s : str) : option Z := match s with [b] => Some (byte_val b) | _ => None end.

Definition put_segment (s : SegmentWire) : list byte :=
  pack [SegWire.blake3 s; to_be 4 (SegWire.database_pages s); SegWire.index_digest s; SegWire.index_length s;
        SegWire.length s; [byte_of (SegWire.level s)]; SegWire.max_txid s; SegWire.min_txid s; SegWire.object_digest s;
        SegWire.offset s; put_bool (SegWire.packed s); to_be 4 (SegWire.page_size s); SegWire.post_checksum s;
        SegWire.pre_checksum s; put_bool (SegWire.shared s); SegWire.size_bytes s].
Definition get_segment (b : list byte) : option SegmentWire :=
  fs ← unpack b [];
  match fs with
  | [b3; dp; xd; xl; ln; lv; mx; mn; od; ofs; pk; ps; po; pr; sh; sz] =>
      dp ← get_u32 dp; lv ← get_u8 lv; ps ← get_u32 ps;
      Some (SegWire.Mk b3 dp xd xl ln lv mx mn od ofs (get_bool pk) ps po pr (get_bool sh) sz)
  | _ => None
  end.
Definition get_segments (b : list byte) : option (list SegmentWire) := fs ← unpack b []; mapM get_segment fs.

Definition put_root (w : RootWire) : list byte :=
  pack [RootW.cell w; RootW.checksum w; RootW.commit_sequence w; to_be 4 (RootW.database_pages w); RootW.directory_digest w;
        to_be 4 (RootW.directory_height w); put_option (RootW.directory_inline w); RootW.incarnation w;
        to_be 4 (RootW.page_size w); to_be 4 (RootW.schema w); pack (RootW.segment_pages w);
        pack (map put_segment (RootW.segments w)); RootW.txid w; to_be 4 (RootW.version w)].
Definition get_root (b : list byte) : option RootWire :=
  fs ← unpack b [];
  match fs with
  | [cl; ck; cs; dp; dd; dh; di; ic; ps; sc; sp; sg; tx; vr] =>
      dp ← get_u32 dp; dh ← get_u32 dh; ps ← get_u32 ps; sc ← get_u32 sc; vr ← get_u32 vr;
      sp ← unpack sp []; sg ← get_segments sg;
      Some (RootW.Mk cl ck cs dp dd dh (get_option di) ic ps sc sp sg tx vr)
  | _ => None
  end.

#[global] Instance root_json : Json RootWire := {| json_to_vec w := Some (put_root w); json_from_slice := get_root |}.
#[global] Instance segments_json : Json (list SegmentWire) :=
  {| json_to_vec l := Some (pack (map put_segment l)); json_from_slice := get_segments |}.

Lemma get_put_segment s : segment_wire_width s -> get_segment (put_segment s) = Some s.
Proof.
  intros (H1 & H2 & H3). unfold get_segment, put_segment. rewrite unpack_pack. cbn [mbind option_bind].
  rewrite !get_u32_to_be by done. cbn [mbind option_bind get_u8]. rewrite byte_val_of, Z.mod_small by (unfold u8_ok in H2; lia).
  cbn [mbind option_bind]. by destruct s as [? ? ? ? ? ? ? ? ? ? [] ? ? ? [] ?].
Qed.
Lemma get_put_segments l : Forall segment_wire_width l -> get_segments (pack (map put_segment l)) = Some l.
Proof.
  intros Hl. unfold get_segments. rewrite unpack_pack. cbn [mbind option_bind].
  induction Hl as [|s l Hs _ IH]; [done|]. simpl. rewrite get_put_segment by done. simpl. by rewrite IH.
Qed.
Lemma get_segment_width b s : get_segment b = Some s -> segment_wire_width s.
Proof.
  unfold get_segment. destruct (unpack b []) as [fs|]; [|done]. cbn [mbind option_bind].
  do 16 (destruct fs as [|? fs]; [done|]). destruct fs; [|done].
  intros Hs. simplify_option_eq. repeat match goal with H : get_u32 _ = Some _ |- _ => apply get_u32_ok in H end.
  split_and!; cbn; [done| |done]. unfold get_u8 in *. repeat case_match; simplify_eq. apply byte_val_bound.
Qed.
Lemma get_segments_width b l : get_segments b = Some l -> Forall segment_wire_width l.
Proof.
  unfold get_segments. destruct (unpack b []) as [fs|]; [|done]. cbn [mbind option_bind]. intros H%mapM_Some.
  induction H; eauto using get_segment_width.
Qed.

#[global] Instance segments_json_laws : JsonLaws (list SegmentWire) (Forall segment_wire_width).
Proof. split; [intros a b Ha [= <-]; by apply get_put_segments|intros a b; apply get_segments_width]. Qed.
#[global] Instance root_json_laws : JsonLaws RootWire root_wire_width.
Proof.
  split.
  - intros w b (H1 & H2 & H3 & H4 & H5 & H6) [= <-]. simpl. unfold get_root, put_root. rewrite unpack_pack. cbn [mbind option_bind].
    rewrite !get_u32_to_be by done. cbn [mbind option_bind]. rewrite unpack_pack. cbn [mbind option_bind].
    rewrite get_put_segments by done. cbn [mbind option_bind]. by destruct w as [? ? ? ? ? ? [] ? ? ? ? ? ? ?].
  - intros w b. simpl. unfold get_root. destruct (unpack b []) as [fs|]; [|done]. cbn [mbind option_bind].
    do 14 (destruct fs as [|? fs]; [done|]). destruct fs; [|done].
    intros Hs. simplify_option_eq.
    repeat match goal with H : get_u32 _ = _ |- _ => apply get_u32_ok in H end.
    unfold root_wire_width; cbn. eauto 10 using get_segments_width.
Qed.

(** A digest for the example: 32 copies of the first byte. *)
#[global] Instance first_byte_digest : Blake3 := fun b => array_fill 32 (default x00 (head b)).
Definition segment : SegmentDescriptor :=
  bundled (Segment.Mk 1 2 4096 9 0 (CHECKSUM_FLAG + 7) 1024 (array_fill 32 x01)) (array_fill 32 x02) 60 (array_fill 32 x03) 4096.
Definition root : RootDocument :=
  RootDoc.Mk (array_fill 32 x01) (CHECKSUM_FLAG + 7) 3 9 (array_fill 32 x05) 0 (Some [x05; x06]) (array_fill 16 x03) 4096 1
    [array_fill 32 x04] [segment] 2.
End PlainRoot.

#[local] Existing Instances PlainRoot.root_json PlainRoot.segments_json PlainRoot.first_byte_digest.

Lemma root_codec_exact_witness :
  decode_root (PlainRoot.put_root (root_wire PlainRoot.root)) = Ok PlainRoot.root /\
  (forall b', decode_root b' = Ok PlainRoot.root -> b' = PlainRoot.put_root (root_wire PlainRoot.root)) /\
  decode_segment_page (pack (map PlainRoot.put_segment (map segment_wire [PlainRoot.segment]))) = Ok [PlainRoot.segment].
Proof.
  assert (decode_root (PlainRoot.put_root (root_wire PlainRoot.root)) = Ok PlainRoot.root) as Hd.
  { apply (proj1 root_codec_exact). split; [vm_compute; reflexivity|].
    unfold root_width. simpl. split_and!; try (split; vm_compute; discriminate).
    repeat constructor; vm_compute; discriminate. }
  split; [exact Hd|]. split; [exact (proj2 (proj1 (proj2 root_codec_exact) _ _ Hd))|].
  apply (proj2 (proj2 root_codec_exact)). split; [vm_compute; reflexivity|].
  repeat constructor; vm_compute; discriminate.
Defined.
