(* ===== verification/Merge.v ===== *)
(** * Merge: which locator a page has after a sequence of segments

    Models [crates/cellule-ltx/src/replica/merge.rs], the cursors and the iterator
    of [replica/directory/initial.rs], and [object_extents] and
    [directory_changes] of [replica/mod.rs]. A segment locates the pages it wrote
    and cuts the database to its page count; the newest surviving locator of a
    page counts. [replay] says so by applying one segment after the other. The
    code has two implementations of it: [directory_changes] keeps an ordered map
    and retains its keys, and the merge walks all indexes at once with a heap,
    deciding about truncation with suffix minima of the page counts. *)

From Stdlib Require Import ZArith Lia.
From Stdlib Require Import Strings.Byte.
From stdpp Require Import base gmap strings numbers sorting.
From stdpp Require Import list.
From S2P Require Import Prelude OrdMap Bytes Identity Text LtxTypes Lz4 Ltx LtxCodec PagedIndex DirectoryNode Directory DirectoryShape DirectoryUpdate Root.

Local Open Scope bool_scope.

Module DirInput.
(*@ cellule-ltx/src/replica/mod.rs 999-1002 DirectoryInput *)
Record DirectoryInput := Mk { descriptor : SegmentDescriptor; index : list byte }.
End DirInput.
Abbreviation DirectoryInput := DirInput.DirectoryInput.

Definition input_pages (i : DirectoryInput) : Z := Segment.database_pages (Desc.info (DirInput.descriptor i)).

(** The directory entry of an index entry of a segment. *)
(*@ cellule-ltx/src/replica/directory/initial.rs 30-41 IndexCursor::advance *)
Definition locator (d : SegmentDescriptor) (e : IndexEntry) : LtxResult DirectoryEntry :=
  offset ← ok_or (checked_add_u64 (Desc.offset d) (IndexEntry.offset e)) LtxErr.LTXCorrupted;
  length ← try_u32 (IndexEntry.size e);
  Ok (DirEntry.Mk (IndexEntry.page e) (Desc.object_digest d) offset length (IndexEntry.hash e) (IndexEntry.checksum e)).

(** ** Changes of an append *)

(*@ cellule-ltx/src/replica/mod.rs 1057-1073 directory_changes *)
Fixpoint insert_changes (d : SegmentDescriptor) (es : list IndexEntry) (changes : OrdMap DirectoryEntry)
  : LtxResult (OrdMap DirectoryEntry) :=
  match es with
  | [] => Ok changes
  | e :: es => l ← locator d e; insert_changes d es (om_insert (IndexEntry.page e) l changes)
  end.

(*@ cellule-ltx/src/replica/mod.rs 1050-1074 directory_changes *)
Fixpoint changes_loop (prepared : list DirectoryInput) (changes : OrdMap DirectoryEntry) (retain_through : Z)
  : LtxResult (OrdMap DirectoryEntry * Z) :=
  match prepared with
  | [] => Ok (changes, retain_through)
  | p :: prepared =>
      let retain_through := Z.min retain_through (input_pages p) in
      let changes := om_filter (fun page => page <=? input_pages p) changes in
      es ← decode_index (DirInput.index p);
      changes ← insert_changes (DirInput.descriptor p) es changes;
      changes_loop prepared changes retain_through
  end.

(*@ cellule-ltx/src/replica/mod.rs 1044-1076 directory_changes *)
Definition directory_changes (prepared : list DirectoryInput) (base_pages : Z) : LtxResult (OrdMap DirectoryEntry * Z) :=
  changes_loop prepared [] base_pages.

(** ** Newest-wins merge *)

(** [BinaryHeap<Reverse<(u32, usize)>>]: its elements in the order they are popped. *)
Abbreviation Heap := (list (Z * nat)).
Definition heap_before (x y : Z * nat) : bool := (x.1 <? y.1) || ((x.1 =? y.1) && (x.2 <=? y.2)%nat).
Fixpoint heap_push (x : Z * nat) (h : Heap) : Heap :=
  match h with
  | [] => [x]
  | y :: h' => if heap_before x y then x :: h else y :: heap_push x h'
  end.

(*@ cellule-ltx/src/replica/merge.rs 16-20 LocatorMerge *)
Record LocatorMerge := MkMerge { heap : Heap; valid_through : list Z; failed : bool }.

(** The loop of [LocatorMerge::new] over the page counts in reverse. *)
(*@ cellule-ltx/src/replica/merge.rs 25-31 LocatorMerge::new *)
Fixpoint minima_loop (reversed : list Z) (suffix_min : Z) (valid_through : list Z) : list Z :=
  match reversed with
  | [] => valid_through
  | pages :: reversed =>
      let suffix_min := Z.min suffix_min pages in
      minima_loop reversed suffix_min (valid_through ++ [suffix_min])
  end.
(*@ cellule-ltx/src/replica/merge.rs 24-37 LocatorMerge::new *)
Definition merge_new (database_pages : list Z) : LocatorMerge :=
  MkMerge [] (rev (minima_loop (rev database_pages) u32_max [])) false.

(*@ cellule-ltx/src/replica/merge.rs 40-42 LocatorMerge::push *)
Definition merge_push (m : LocatorMerge) (index : nat) (page : Z) : LocatorMerge :=
  MkMerge (heap_push (page, index) (heap m)) (valid_through m) (failed m).

Section NextGroup.
(** [take]: remove the current locator of a source and report the page it moved to. *)
Context {S : Type} (take_source : nat -> S -> LtxResult (S * (DirectoryEntry * option Z))).

(** The locator kept of those seen at [page]. *)
(*@ cellule-ltx/src/replica/merge.rs 68-77 LocatorMerge::next_group *)
Definition select (m : LocatorMerge) (page : Z) (index : nat) (entry : DirectoryEntry) (selected : option (nat * DirectoryEntry))
  : option (nat * DirectoryEntry) :=
  if is_some_and (fun pages => page <=? pages) (valid_through m !! index)
     && is_none_or (fun s => (s.1 <? index)%nat) selected
  then Some (index, entry) else selected.

(** The loop over the sources positioned on [page]. Validated pages ascend, so no
    source comes back and [fuel] sources are the most a group has. *)
(*@ cellule-ltx/src/replica/merge.rs 57-89 LocatorMerge::next_group *)
Fixpoint group_loop (fuel : nat) (m : LocatorMerge) (page : Z) (index : nat) (selected : option (nat * DirectoryEntry)) (s : S)
  : LtxResult (S * Heap * option (nat * DirectoryEntry)) :=
  match fuel with
  | O => Err LtxErr.Panic
  | Datatypes.S fuel =>
      '(s, (entry, next_page)) ← take_source index s;
      let selected := select m page index entry selected in
      let h := match next_page with Some p => heap_push (p, index) (heap m) | None => heap m end in
      match h with
      | (next_page, next_index) :: h' =>
          if next_page =? page
          then group_loop fuel (MkMerge h' (valid_through m) (failed m)) page next_index selected s
          else Ok (s, h, selected)
      | [] => Ok (s, h, selected)
      end
  end.

(** An error fails the merge and empties its heap; the sources are not looked at again. *)
(*@ cellule-ltx/src/replica/merge.rs 49-91 LocatorMerge::next_group *)
Definition next_group (fuel : nat) (m : LocatorMerge) (s : S)
  : LocatorMerge * S * option (LtxResult (option DirectoryEntry)) :=
  if failed m then (m, s, None)
  else
    match heap m with
    | [] => (m, s, None)
    | (page, first_index) :: h =>
        match group_loop fuel (MkMerge h (valid_through m) (failed m)) page first_index None s with
        | Ok (s, h, selected) => (MkMerge h (valid_through m) (failed m), s, Some (Ok (snd <$> selected)))
        | Err e => (MkMerge [] (valid_through m) true, s, Some (Err e))
        end
    end.
End NextGroup.

(** ** Cursors over the indexes *)

Module Cursor.
(*@ cellule-ltx/src/replica/directory/initial.rs 8-12 IndexCursor *)
Record IndexCursor := Mk { input : DirectoryInput; entries : ValidatedIndexEntries; current : option DirectoryEntry }.
End Cursor.
Abbreviation IndexCursor := Cursor.IndexCursor.

(*@ cellule-ltx/src/replica/directory/initial.rs 25-43 IndexCursor::advance *)
Definition cursor_advance (c : IndexCursor) : LtxResult IndexCursor :=
  match entries_next (Cursor.entries c) with
  | (entries, None) => Ok (Cursor.Mk (Cursor.input c) entries None)
  | (entries, Some e) =>
      e ← e;
      l ← locator (DirInput.descriptor (Cursor.input c)) e;
      Ok (Cursor.Mk (Cursor.input c) entries (Some l))
  end.

(*@ cellule-ltx/src/replica/directory/initial.rs 15-23 IndexCursor::new *)
Definition cursor_new (input : DirectoryInput) : LtxResult IndexCursor :=
  entries ← validated_index_entries (DirInput.index input) (Desc.info (DirInput.descriptor input));
  cursor_advance (Cursor.Mk input entries None).

Module Iter.
(*@ cellule-ltx/src/replica/directory/initial.rs 46-49 Entries *)
Record Entries := Mk { cursors : list IndexCursor; merge : LocatorMerge }.
End Iter.
Abbreviation Entries := Iter.Entries.

(*@ cellule-ltx/src/replica/directory/initial.rs 60-67 entries *)
Fixpoint cursors_loop (inputs : list DirectoryInput) (cursors : list IndexCursor) (m : LocatorMerge)
  : LtxResult (list IndexCursor * LocatorMerge) :=
  match inputs with
  | [] => Ok (cursors, m)
  | input :: inputs =>
      cursor ← cursor_new input;
      let m := match Cursor.current cursor with
               | Some entry => merge_push m (length cursors) (DirEntry.page entry)
               | None => m
               end in
      cursors_loop inputs (cursors ++ [cursor]) m
  end.

(*@ cellule-ltx/src/replica/directory/initial.rs 51-69 entries *)
Definition initial_entries (inputs : list DirectoryInput) : LtxResult Entries :=
  match inputs with
  | [] => Err LtxErr.LTXCorrupted
  | _ =>
      '(cursors, m) ← cursors_loop inputs [] (merge_new (map input_pages inputs));
      Ok (Iter.Mk cursors m)
  end.

(*@ cellule-ltx/src/replica/directory/initial.rs 77-82 Entries::next *)
Definition take_cursor (index : nat) (cursors : list IndexCursor)
  : LtxResult (list IndexCursor * (DirectoryEntry * option Z)) :=
  cursor ← ok_or (cursors !! index) LtxErr.LTXCorrupted;
  entry ← ok_or (Cursor.current cursor) LtxErr.LTXCorrupted;
  cursor ← cursor_advance (Cursor.Mk (Cursor.input cursor) (Cursor.entries cursor) None);
  Ok (<[index := cursor]> cursors, (entry, DirEntry.page <$> Cursor.current cursor)).

(** [Iterator::next]; each turn consumes a locator. *)
(*@ cellule-ltx/src/replica/directory/initial.rs 74-89 Entries::next *)
Fixpoint entries_iter_next (fuel : nat) (it : Entries) : Entries * option (LtxResult DirectoryEntry) :=
  match fuel with
  | O => (it, None)
  | S fuel =>
      match next_group take_cursor (length (Iter.cursors it)) (Iter.merge it) (Iter.cursors it) with
      | (m, cs, None) => (Iter.Mk cs m, None)
      | (m, cs, Some (Ok None)) => entries_iter_next fuel (Iter.Mk cs m)
      | (m, cs, Some (Ok (Some entry))) => (Iter.Mk cs m, Some (Ok entry))
      | (m, cs, Some (Err e)) => (Iter.Mk cs m, Some (Err e))
      end
  end.

(** The locators that are left in the sources. *)
Definition cursor_left (c : IndexCursor) : nat :=
  match Cursor.current c with Some _ => 1 | None => 0 end + length (chunks (Cursor.entries c)).
Definition entries_left (it : Entries) : nat := sum_list_with cursor_left (Iter.cursors it).

(** What the iterator yields until it ends. *)
Fixpoint drain (fuel : nat) (it : Entries) : list (LtxResult DirectoryEntry) :=
  match fuel with
  | O => []
  | S fuel =>
      match entries_iter_next (S (entries_left it)) it with
      | (_, None) => []
      | (it, Some r) => r :: drain fuel it
      end
  end.
Definition entries_stream (it : Entries) : list (LtxResult DirectoryEntry) := drain (S (entries_left it)) it.

(** ** Extents of the objects *)

(*@ cellule-ltx/src/replica/mod.rs 1006-1029 object_extents *)
Fixpoint extents_loop (descriptors : list SegmentDescriptor) (extents : Extents) : LtxResult Extents :=
  match descriptors with
  | [] => Ok extents
  | d :: descriptors =>
      let '(digest, offset, length, kind) := object_extent d in
      ending ← ok_or (checked_add_u64 offset length) LtxErr.LTXCorrupted;
      match extents !! digest with
      | None => extents_loop descriptors (<[digest := MkExtent kind [(offset, ending)]]> extents)
      | Some extent =>
          if negb (bool_decide (DirectoryNode.kind extent = kind)) then Err LtxErr.LTXCorrupted
          else if existsb (fun r => (r.1 =? offset) && (r.2 =? ending)) (ranges extent)
          then extents_loop descriptors extents
          else extents_loop descriptors (<[digest := MkExtent kind (ranges extent ++ [(offset, ending)])]> extents)
      end
  end.

Definition sort_ranges (e : ObjectExtent) : ObjectExtent :=
  MkExtent (DirectoryNode.kind e) (sort_by (fun a b => a.1 ?= b.1) (ranges e)).
(** [ranges.windows(2).any(|ranges| ranges[0].end > ranges[1].start)]. *)
Fixpoint overlapping (ranges : list (Z * Z)) : bool :=
  match ranges with
  | a :: (b :: _) as rest => (b.1 <? a.2) || overlapping rest
  | _ => false
  end.

(** The loop over the values stops at the first overlap, with the same error
    whichever comes first. *)
(*@ cellule-ltx/src/replica/mod.rs 1004-1042 object_extents *)
Definition object_extents (descriptors : list SegmentDescriptor) : LtxResult Extents :=
  extents ← extents_loop descriptors ∅;
  let sorted : Extents := sort_ranges <$> (extents : Extents) in
  if existsb (fun x => overlapping (ranges x.2)) (map_to_list sorted) then Err LtxErr.LTXCorrupted else Ok sorted.

(** * Proofs *)

(** ** Replay *)

(** The locators after segments in order: each cuts the pages and adds its own. *)
Definition replay (l : list (Z * list DirectoryEntry)) : OrdMap DirectoryEntry :=
  foldl (fun m x => om_extend (om_filter (fun page => page <=? x.1) m) (keyed x.2)) [] l.

(** The last source that has the page and reaches it. *)
Fixpoint newest (p : Z) (l : list (Z * list DirectoryEntry)) : option DirectoryEntry :=
  match l with
  | [] => None
  | (v, es) :: l => match newest p l with Some e => Some e | None => if p <=? v then om_lookup p (keyed es) else None end
  end.

(** The least page count of each suffix, and of [s]. *)
Fixpoint minima (s : Z) (l : list Z) : list Z :=
  match l with
  | [] => []
  | n :: l => foldr Z.min s (n :: l) :: minima s l
  end.

Lemma minima_loop_app a b s acc : minima_loop (a ++ b) s acc = minima_loop b (foldl Z.min s a) (minima_loop a s acc).
Proof. revert s acc. induction a as [|n a IH]; intros s acc; [done|]. cbn. apply IH. Qed.
Lemma foldl_min_rev l s : foldl Z.min s (rev l) = foldr Z.min s l.
Proof. induction l as [|n l IH]; [done|]. cbn. rewrite foldl_app. cbn. rewrite IH. lia. Qed.
Lemma merge_new_minima l : valid_through (merge_new l) = minima u32_max l.
Proof.
  cbn. cut (forall s acc, minima_loop (rev l) s acc = acc ++ rev (minima s l)).
  { intros E. rewrite E. apply rev_involutive. }
  induction l as [|n l IH]; intros s acc; [by rewrite app_nil_r|]. cbn [rev minima].
  rewrite minima_loop_app, IH, foldl_min_rev. cbn [minima_loop foldr]. by rewrite <- app_assoc, Z.min_comm.
Qed.
Lemma length_minima s l : length (minima s l) = length l.
Proof. induction l; cbn; auto. Qed.
Lemma minima_snoc s l n : minima s (l ++ [n]) = minima (Z.min s n) l ++ [Z.min n s].
Proof. induction l as [|m l IH]; [done|]. cbn [app minima]. rewrite IH. cbn [app foldr]. rewrite foldr_app. cbn. by rewrite (Z.min_comm n s). Qed.
Lemma foldr_min l s n : foldr Z.min (Z.min s n) l = Z.min n (foldr Z.min s l).
Proof. induction l as [|m l IH]; cbn; lia. Qed.

Lemma newest_app p l l' : newest p (l ++ l') = match newest p l' with Some e => Some e | None => newest p l end.
Proof. induction l as [|[v es] l IH]; cbn; [by destruct (newest p l')|]. rewrite IH. by destruct (newest p l'). Qed.
Lemma newest_cut p n s ns (ess : list (list DirectoryEntry)) :
  newest p (zip (minima (Z.min s n) ns) ess) = if p <=? n then newest p (zip (minima s ns) ess) else None.
Proof.
  revert ess. induction ns as [|m ns IH]; intros ess; [by destruct (p <=? n)|]. destruct ess as [|es ess]; [by cbn; destruct (p <=? n)|].
  cbn [minima zip_with newest]. rewrite IH. cbn [foldr]. rewrite foldr_min.
  destruct (Z.leb_spec p n) as [L|L].
  - destruct (newest p _); [done|].
    destruct (Z.leb_spec p (Z.min m (Z.min n (foldr Z.min s ns)))), (Z.leb_spec p (Z.min m (foldr Z.min s ns))); try done; lia.
  - by rewrite (proj2 (Z.leb_gt _ _)) by lia.
Qed.

(** Sources in ascending order of pages that none passes. *)
Definition source_ok (x : Z * list DirectoryEntry) : Prop :=
  x.1 <= u32_max /\ ascending x.2 /\ Forall (fun e => DirEntry.page e <= x.1) x.2.

Lemma keyed_lookup_page p es e : om_lookup p (keyed es) = Some e -> e ∈ es /\ DirEntry.page e = p.
Proof. intros H%om_lookup_Some_elem. by apply keyed_elem in H as [? ->]. Qed.

Lemma replay_snoc l x : replay (l ++ [x]) = om_extend (om_filter (fun page => page <=? x.1) (replay l)) (keyed x.2).
Proof. unfold replay. by rewrite foldl_app. Qed.
Lemma replay_paged l : paged (replay l).
Proof. induction l as [|x l IH] using rev_ind; [constructor|]. rewrite replay_snoc. by apply paged_extend, paged_filter. Qed.
Lemma replay_sorted l : om_sorted (replay l).
Proof. induction l as [|x l IH] using rev_ind; [constructor|]. rewrite replay_snoc. by apply om_extend_sorted, om_filter_sorted. Qed.

Lemma replay_snoc_lookup l x p : source_ok x ->
  om_lookup p (replay (l ++ [x])) =
  match om_lookup p (keyed x.2) with Some e => Some e | None => if p <=? x.1 then om_lookup p (replay l) else None end.
Proof.
  intros (_ & Hs & _). rewrite replay_snoc, om_lookup_extend.
  - by rewrite om_lookup_filter.
  - apply om_filter_sorted, replay_sorted.
  - by apply keyed_sorted.
Qed.

(** The merge's rule: suffix minima decide what truncation left. *)
Lemma replay_newest l p : Forall source_ok l ->
  om_lookup p (replay l) = newest p (zip (minima u32_max (map fst l)) (map snd l)).
Proof.
  induction l as [|[n es] l IH] using rev_ind; intros Hl; [done|]. apply Forall_app in Hl as [Hl [Hx _]%Forall_cons].
  rewrite replay_snoc_lookup by done. destruct Hx as (Hn & _ & Hp). cbn [fst snd] in *.
  rewrite !map_app. cbn [map fst snd]. rewrite minima_snoc, zip_with_app by (by rewrite length_minima, !length_map).
  rewrite newest_app. cbn [zip_with newest]. rewrite (Z.min_l n u32_max) by done.
  destruct (om_lookup p (keyed es)) as [e|] eqn:E.
  - apply keyed_lookup_page in E as [He <-]. rewrite Forall_forall in Hp. by rewrite (proj2 (Z.leb_le _ _)) by (by apply Hp).
  - replace (if p <=? n then None else None) with (@None DirectoryEntry) by (by destruct (p <=? n)).
    rewrite newest_cut. destruct (p <=? n); [by apply IH|done].
Qed.

(** Replaying more segments on top: what they locate, or what survived them all. *)
Lemma replay_app_lookup l l' p : Forall source_ok l' ->
  om_lookup p (replay (l ++ l')) =
  match om_lookup p (replay l') with
  | Some e => Some e
  | None => if forallb (fun x => p <=? x.1) l' then om_lookup p (replay l) else None
  end.
Proof.
  induction l' as [|x l' IH] using rev_ind; intros Hl; [by rewrite app_nil_r|]. apply Forall_app in Hl as [Hl [Hx _]%Forall_cons].
  rewrite app_assoc, !replay_snoc_lookup, IH, forallb_app by done. cbn [forallb]. rewrite andb_true_r.
  destruct (om_lookup p (keyed x.2)); [done|]. destruct (p <=? x.1); rewrite ?andb_true_r, ?andb_false_r; [|done].
  by destruct (om_lookup p (replay l')).
Qed.

(** ** What a source yields *)

Abbreviation Source := (list DirectoryEntry * option LtxError)%type.

(** The locators of an index up to its end or its first error. *)
Fixpoint stream (d : SegmentDescriptor) (v : IndexValidator) (cs : list (list byte)) : Source :=
  match cs with
  | [] => ([], None)
  | c :: cs =>
      match (e ← decode_index_entry c; '(v, e) ← validate_entry v e; l ← locator d e; Ok (v, l)) with
      | Ok (v, l) => let s := stream d v cs in (l :: s.1, s.2)
      | Err x => ([], Some x)
      end
  end.
Definition index_source (i : DirectoryInput) (it : ValidatedIndexEntries) : Source :=
  stream (DirInput.descriptor i) (validator it) (chunks it).
Definition cursor_source (c : IndexCursor) : Source :=
  let s := index_source (Cursor.input c) (Cursor.entries c) in
  (match Cursor.current c with Some e => e :: s.1 | None => s.1 end, s.2).
#[local] Arguments cursor_source : simpl never.
#[local] Arguments cursor_left : simpl never.
(** A cursor without a current locator is at its end. *)
Definition settled (c : IndexCursor) : Prop := Cursor.current c = None -> cursor_source c = ([], None).

Lemma cursor_advance_ok c :
  match index_source (Cursor.input c) (Cursor.entries c) with
  | ([], Some x) => cursor_advance c = Err x
  | (es, x) => exists c', cursor_advance c = Ok c' /\ Cursor.current c' = head es /\ cursor_source c' = (es, x) /\ settled c'
  end.
Proof.
  destruct c as [i [cs v] cur]. unfold index_source, cursor_advance, entries_next. cbn [Cursor.input Cursor.entries validator chunks].
  destruct cs as [|c cs]; cbn [stream].
  { eexists. split; [done|]. split_and!; [done..|]. by intros _. }
  destruct (decode_index_entry c) as [e|x]; cbn [mbind result_bind]; [|done].
  destruct (validate_entry v e) as [[v' e']|x]; cbn [mbind result_bind]; [|done].
  destruct (locator (DirInput.descriptor i) e') as [l|x]; cbn [mbind result_bind]; [|done].
  destruct (stream (DirInput.descriptor i) v' cs) as [es x] eqn:Es. cbn [fst snd].
  eexists. split; [done|]. cbn [Cursor.current]. unfold cursor_source, index_source, settled. cbn. by rewrite Es.
Qed.

Lemma length_stream d v cs : (length (stream d v cs).1 <= length cs)%nat.
Proof.
  revert v. induction cs as [|c cs IH]; intros v; [done|]. cbn [stream]. destruct (_ ≫= _) as [[v' l]|x]; cbn; [|lia].
  specialize (IH v'). lia.
Qed.
Lemma length_cursor_source c : (length (cursor_source c).1 <= cursor_left c)%nat.
Proof.
  unfold cursor_source, cursor_left, index_source. cbn [fst].
  pose proof (length_stream (DirInput.descriptor (Cursor.input c)) (validator (Cursor.entries c)) (chunks (Cursor.entries c))).
  destruct (Cursor.current c); cbn; lia.
Qed.

Lemma cursor_current c e es x : settled c -> cursor_source c = (e :: es, x) ->
  Cursor.current c = Some e /\ index_source (Cursor.input c) (Cursor.entries c) = (es, x).
Proof.
  intros Hs Hc. destruct (Cursor.current c) as [e'|] eqn:Ec; [|by rewrite (Hs Ec) in Hc].
  unfold cursor_source in Hc. rewrite Ec in Hc. injection Hc as -> <- <-. split; [done|]. by destruct (index_source _ _).
Qed.

Lemma map_insert {A B} (f : A -> B) l i x : map f (<[i:=x]> l) = <[i:=f x]> (map f l).
Proof. revert i. induction l as [|y l IH]; intros [|i]; cbn; [done..|]. f_equal. apply IH. Qed.

(** Taking the locator of a source; an error right behind it comes first. *)
Lemma take_cursor_ok i cs e es x : Forall settled cs -> map cursor_source cs !! i = Some (e :: es, x) ->
  match es, x with
  | [], Some err => take_cursor i cs = Err err
  | _, _ => exists cs', take_cursor i cs = Ok (cs', (e, DirEntry.page <$> head es)) /\
              map cursor_source cs' = <[i := (es, x)]> (map cursor_source cs) /\ Forall settled cs'
  end.
Proof.
  intros Hset Hi. rewrite list_lookup_fmap in Hi. destruct (cs !! i) as [c|] eqn:Ec; [|done].
  change (Some (cursor_source c) = Some (e :: es, x)) in Hi. apply (inj Some) in Hi as Hc.
  destruct (cursor_current c e es x) as [Hcur Hsrc]; [by eapply Forall_lookup_1|done|].
  pose proof (cursor_advance_ok (Cursor.Mk (Cursor.input c) (Cursor.entries c) None)) as Ha. cbn [Cursor.input Cursor.entries] in Ha.
  rewrite Hsrc in Ha. unfold take_cursor. rewrite Ec. cbn [ok_or mbind result_bind]. rewrite Hcur. cbn [ok_or mbind result_bind].
  assert (forall c', cursor_advance (Cursor.Mk (Cursor.input c) (Cursor.entries c) None) = Ok c' ->
     Cursor.current c' = head es -> cursor_source c' = (es, x) -> settled c' ->
     exists cs', (cursor ← cursor_advance (Cursor.Mk (Cursor.input c) (Cursor.entries c) None);
        Ok (<[i := cursor]> cs, (e, DirEntry.page <$> Cursor.current cursor))) = Ok (cs', (e, DirEntry.page <$> head es))
       /\ map cursor_source cs' = <[i := (es, x)]> (map cursor_source cs) /\ Forall settled cs') as Hgo.
  { intros c' -> Hh Hs' Hset'. cbn [mbind result_bind]. exists (<[i := c']> cs). rewrite Hh, map_insert, Hs'. split_and!; [done..|].
    by apply Forall_insert. }
  destruct es as [|e' es]; [destruct x as [err|]|]; [by rewrite Ha| |];
    destruct Ha as (c' & Hc' & Hh & Hs' & Hset'); by apply (Hgo c').
Qed.

(** ** One group *)

Definition hlt (x y : Z * nat) : Prop := x.1 < y.1 \/ x.1 = y.1 /\ (x.2 < y.2)%nat.
Lemma heap_before_spec x y : x.2 <> y.2 -> heap_before x y = true <-> hlt x y.
Proof. unfold heap_before, hlt. intros. rewrite orb_true_iff, andb_true_iff, Z.ltb_lt, Z.eqb_eq, Nat.leb_le. lia. Qed.

Lemma heap_push_elem x h y : y ∈ heap_push x h <-> y = x \/ y ∈ h.
Proof.
  induction h as [|z h IH]; cbn [heap_push]; [set_solver|]. destruct (heap_before x z); [set_solver|]. rewrite !elem_of_cons, IH. tauto.
Qed.
Lemma heap_push_sorted x h : StronglySorted hlt h -> Forall (fun y => y.2 <> x.2) h -> StronglySorted hlt (heap_push x h).
Proof.
  induction h as [|z h IH]; intros Hs Hd; cbn [heap_push]; [by repeat constructor|].
  apply StronglySorted_inv in Hs as Hi. destruct Hi as [Hs' Hz]. apply Forall_cons in Hd as [Hzx Hd].
  destruct (heap_before x z) eqn:E.
  - apply heap_before_spec in E; [|done]. constructor; [done|]. constructor; [done|]. eapply Forall_impl; [exact Hz|].
    unfold hlt in *. intros y. lia.
  - constructor; [by apply IH|]. apply Forall_forall. intros y [->|Hy]%heap_push_elem.
    + assert (~ hlt x z) as Hn by (rewrite <- heap_before_spec, E by done; done). unfold hlt in *. lia.
    + rewrite Forall_forall in Hz. by apply Hz.
Qed.

(** A source is on a page. *)
Definition positioned (srcs : list Source) (y : Z * nat) : Prop :=
  exists e es x, srcs !! y.2 = Some (e :: es, x) /\ DirEntry.page e = y.1.

Definition strip (p : Z) (s : Source) : Source := (List.filter (fun e => negb (DirEntry.page e =? p)) s.1, s.2).
(** The sources when the group at [p] is done up to the source [i]. *)
Definition taken (p : Z) (i : nat) (srcs : list Source) : list Source :=
  imap (fun j s => if (j <? i)%nat then strip p s else s) srcs.


Lemma strip_other p s : p ∉ map DirEntry.page s.1 -> strip p s = s.
Proof.
  intros Hp. unfold strip. rewrite filter_keep; [by destruct s|]. intros e He. apply negb_true_iff, Z.eqb_neq. intros <-.
  apply Hp, list_elem_of_fmap. by exists e.
Qed.
Lemma strip_head p e es x : ascending (e :: es) -> DirEntry.page e = p -> strip p (e :: es, x) = (es, x).
Proof.
  intros Hs <-. unfold strip. cbn [fst snd List.filter]. rewrite Z.eqb_refl. cbn [negb]. f_equal.
  cbn [map] in Hs. apply StronglySorted_inv in Hs as [_ Hf]. rewrite Forall_map, Forall_forall in Hf. apply filter_keep. intros y Hy.
  apply negb_true_iff, Z.eqb_neq. specialize (Hf _ Hy). lia.
Qed.

Lemma taken_lookup p i srcs j : taken p i srcs !! j = (fun s => if (j <? i)%nat then strip p s else s) <$> srcs !! j.
Proof. unfold taken. by rewrite list_lookup_imap. Qed.
Lemma taken_done p i srcs j s : (j < i)%nat -> srcs !! j = Some s -> taken p i srcs !! j = Some (strip p s).
Proof. intros Hj Hs. rewrite taken_lookup, Hs. cbn [fmap option_fmap option_map]. by rewrite (proj2 (Nat.ltb_lt _ _)) by done. Qed.
Lemma taken_left p i srcs j s : (i <= j)%nat -> srcs !! j = Some s -> taken p i srcs !! j = Some s.
Proof. intros Hj Hs. rewrite taken_lookup, Hs. cbn [fmap option_fmap option_map]. by rewrite (proj2 (Nat.ltb_ge _ _)) by done. Qed.
Lemma taken_step p i srcs s : srcs !! i = Some s -> <[i := strip p s]> (taken p i srcs) = taken p (S i) srcs.
Proof.
  intros Hi. assert (i < length srcs)%nat as Hlen by (by eapply lookup_lt_Some). apply list_eq. intros j.
  destruct (decide (j = i)) as [->|N].
  - rewrite list_lookup_insert_eq by (unfold taken; by rewrite length_imap).
    symmetry. apply taken_done; [lia|done].
  - rewrite list_lookup_insert_ne by done. rewrite !taken_lookup. destruct (srcs !! j); [|done].
    cbn [fmap option_fmap option_map]. f_equal.
    destruct (Nat.ltb_spec j i), (Nat.ltb_spec j (S i)); try done; lia.
Qed.
Lemma taken_skip p i i' srcs : (i <= i')%nat ->
  (forall j s, (i <= j < i')%nat -> srcs !! j = Some s -> p ∉ map DirEntry.page s.1) -> taken p i srcs = taken p i' srcs.
Proof.
  intros Hle Hno. apply list_eq. intros j. rewrite !taken_lookup. destruct (srcs !! j) as [s|] eqn:E; [|done].
  cbn [fmap option_fmap option_map]. f_equal. destruct (Nat.ltb_spec j i), (Nat.ltb_spec j i'); try done; try lia. symmetry. eapply strip_other, Hno; [|done]. lia.
Qed.
Lemma taken_all p i srcs : (forall j s, (i <= j)%nat -> srcs !! j = Some s -> p ∉ map DirEntry.page s.1) ->
  taken p i srcs = map (strip p) srcs.
Proof.
  intros Hno. apply list_eq. intros j. rewrite taken_lookup, list_lookup_fmap. destruct (srcs !! j) as [s|] eqn:E; [|done].
  cbn [fmap option_fmap option_map]. f_equal.
  destruct (Nat.ltb_spec j i); [done|]. symmetry. by eapply strip_other, Hno.
Qed.
Lemma taken_0 p srcs : taken p 0 srcs = srcs.
Proof. apply list_eq. intros j. rewrite taken_lookup. by destruct (srcs !! j). Qed.

Lemma newest_skip p l i i' : (i <= i')%nat ->
  (forall j v es, (i <= j < i')%nat -> l !! j = Some (v, es) -> om_lookup p (keyed es) = None) ->
  newest p (take i' l) = newest p (take i l).
Proof.
  intros Hle. induction Hle as [|k Hle IH]; intros Hno; [done|]. rewrite <- IH by (intros j v es ?; apply Hno; lia).
  destruct (l !! k) as [[v es]|] eqn:E.
  - rewrite (take_S_r _ _ _ E), newest_app. cbn. rewrite (Hno k v es) by (done || lia). by destruct (p <=? v).
  - apply lookup_ge_None in E. by rewrite !take_ge by lia.
Qed.

Lemma keyed_lookup_None p es : p ∉ map DirEntry.page es -> om_lookup p (keyed es) = None.
Proof.
  intros Hp. destruct (om_lookup p (keyed es)) as [e|] eqn:E; [|done]. apply keyed_lookup_page in E as [He <-].
  exfalso. apply Hp, list_elem_of_fmap. by exists e.
Qed.

Section Groups.
Context (valid : list Z).

(** The sources of the merge: ascending, no page below [p]. *)
Definition sources_from (p : Z) (srcs : list Source) : Prop :=
  length valid = length srcs /\ Forall (fun s : Source => ascending s.1 /\ Forall (fun e => p <= DirEntry.page e) s.1) srcs.

Lemma source_head p srcs j e es x : sources_from p srcs -> srcs !! j = Some (e :: es, x) -> p ∈ map DirEntry.page (e :: es) ->
  DirEntry.page e = p.
Proof.
  intros [_ Hf] Hj Hp. destruct (Forall_lookup_1 _ _ _ _ Hf Hj) as [Hs Hge]. cbn [fst map] in *.
  apply StronglySorted_inv in Hs as [_ Hs]. apply Forall_cons in Hge as [Hge _]. apply elem_of_cons in Hp as [->|Hp]; [done|].
  rewrite Forall_forall in Hs. specialize (Hs _ Hp). lia.
Qed.

(** The merge at rest: the cursors have these sources and the heap their positions. *)
Record merging (srcs : list Source) (cs : list IndexCursor) (h : Heap) : Prop := {
  mg_source : map cursor_source cs = srcs;
  mg_settled : Forall settled cs;
  mg_sorted : StronglySorted hlt h;
  mg_heap : forall y, y ∈ h <-> positioned srcs y
}.
(** Within a group: the sources below [i] are done. *)
Definition grouping (p : Z) (srcs : list Source) (i : nat) : list IndexCursor -> Heap -> Prop := merging (taken p i srcs).

Lemma grouping_taken p srcs i cs h e es x cs' : sources_from p srcs -> grouping p srcs i cs ((p, i) :: h) ->
  srcs !! i = Some (e :: es, x) -> DirEntry.page e = p ->
  map cursor_source cs' = <[i := (es, x)]> (map cursor_source cs) -> Forall settled cs' ->
  grouping p srcs (S i) cs' (match DirEntry.page <$> head es with Some q => heap_push (q, i) h | None => h end).
Proof.
  intros Hsrcs [Hsrc Hset Hsort Hheap] Hi He Hcs' Hset'. pose proof Hsrcs as [_ Hf].
  destruct (Forall_lookup_1 _ _ _ _ Hf Hi) as [Hs _]. cbn [fst] in Hs.
  assert (i < length srcs)%nat as Hlen by (by eapply lookup_lt_Some).
  assert (map cursor_source cs' = taken p (S i) srcs) as Hsrc'.
  { rewrite Hcs', Hsrc, <- (strip_head p e es x) by done. by apply taken_step. }
  apply StronglySorted_inv in Hsort as [Hsort Hlow].
  assert (forall y, y ∈ h <-> positioned (taken p (S i) srcs) y /\ y.2 <> i) as Hrest.
  { intros y. assert (y ∈ h -> y.2 <> i) as Hne.
    { intros Hy E. rewrite Forall_forall in Hlow. specialize (Hlow _ Hy). assert (y ∈ (p, i) :: h) as Hy' by set_solver.
      apply Hheap in Hy' as (e1 & es1 & x1 & H1 & H2). rewrite E, (taken_left p i srcs i _ (le_n i) Hi) in H1.
      injection H1 as <- <- <-. unfold hlt in Hlow. cbn in Hlow. lia. }
    split.
    - intros Hy. split; [|by apply Hne]. assert (y ∈ (p, i) :: h) as Hy' by set_solver. apply Hheap in Hy' as (e1 & es1 & x1 & H1 & H2).
      exists e1, es1, x1. split; [|done]. rewrite <- (taken_step p i srcs _ Hi), list_lookup_insert_ne by (specialize (Hne Hy); lia). done.
    - intros [(e1 & es1 & x1 & H1 & H2) N]. rewrite <- (taken_step p i srcs _ Hi), list_lookup_insert_ne in H1 by lia.
      assert (y ∈ (p, i) :: h) as [->|Hy]%elem_of_cons by (apply Hheap; by exists e1, es1, x1); [done|exact Hy]. }
  assert (taken p (S i) srcs !! i = Some (es, x)) as Hti.
  { rewrite (taken_done p (S i) srcs i _ ltac:(lia) Hi). by rewrite strip_head. }
  constructor; [done|done| |].
  - destruct es as [|e' es]; [done|]. cbn. apply heap_push_sorted; [done|]. apply Forall_forall. intros y [_ Hy]%Hrest. done.
  - intros y. destruct es as [|e' es]; cbn.
    + rewrite Hrest. split; [tauto|]. intros Hy. split; [done|]. intros E. destruct Hy as (e1 & es1 & x1 & H1 & _). rewrite E, Hti in H1. done.
    + rewrite heap_push_elem, Hrest. split.
      * intros [->|[Hy _]]; [|done]. exists e', es, x. done.
      * intros Hy. destruct (decide (y.2 = i)) as [E|N]; [left|by right]. destruct Hy as (e1 & es1 & x1 & H1 & H2).
        rewrite E, Hti in H1. injection H1 as <- <- <-. destruct y. cbn in *. congruence.
Qed.

(** The sources that follow in the group: none is skipped. *)
Lemma grouping_skip p srcs i cs h q j h' : sources_from p srcs -> grouping p srcs i cs h -> h = (q, j) :: h' -> q = p ->
  (i <= j)%nat /\ (exists e es x, srcs !! j = Some (e :: es, x) /\ DirEntry.page e = p) /\
  (forall k s, (i <= k < j)%nat -> srcs !! k = Some s -> p ∉ map DirEntry.page s.1) /\ grouping p srcs j cs h.
Proof.
  intros Hsrcs Hg -> ->. pose proof Hg as [Hsrc Hset Hsort Hheap].
  assert (positioned (taken p i srcs) (p, j)) as (e & es & x & Hj & Hp) by (apply Hheap; set_solver). cbn [fst snd] in Hj, Hp.
  rewrite taken_lookup in Hj. destruct (srcs !! j) as [s|] eqn:Ej; [|done].
  cbn [fmap option_fmap option_map] in Hj. apply (inj Some) in Hj as Hs.
  assert (i <= j)%nat as Hij.
  { destruct (Nat.ltb_spec j i) as [L|L]; [|lia]. exfalso. unfold strip in Hs. injection Hs as Hs _.
    assert (e ∈ List.filter (fun e => negb (DirEntry.page e =? p)) s.1) as [_ He]%elem_of_filter_bool by (rewrite Hs; set_solver).
    guards. lia. }
  rewrite (proj2 (Nat.ltb_ge _ _)) in Hs by lia. subst s.
  assert (forall k s, (i <= k < j)%nat -> srcs !! k = Some s -> p ∉ map DirEntry.page s.1) as Hno.
  { intros k s Hk Es Hin. destruct s as [[|e1 es1] x1]; [by apply elem_of_nil in Hin|].
    pose proof (source_head p srcs k e1 es1 x1 Hsrcs Es Hin) as Hpk.
    assert ((p, k) ∈ (p, j) :: h') as Hk'.
    { apply Hheap. exists e1, es1, x1. cbn [fst snd]. split; [|done]. apply taken_left; [lia|done]. }
    apply elem_of_cons in Hk' as [[= ->]|Hk']; [lia|]. apply StronglySorted_inv in Hsort as [_ Hl]. rewrite Forall_forall in Hl.
    specialize (Hl _ Hk'). unfold hlt in Hl. cbn in Hl. lia. }
  split; [done|]. split; [by exists e, es, x|]. split; [done|]. rewrite (taken_skip p i j srcs Hij Hno) in Hsrc, Hheap. by constructor.
Qed.

Abbreviation weighed srcs := (zip valid (map (@fst (list DirectoryEntry) (option LtxError)) srcs)).

(** What [select] keeps is the newest so far. *)
Lemma select_newest m p srcs i e es x selected : valid_through m = valid -> length valid = length srcs ->
  srcs !! i = Some (e :: es, x) -> DirEntry.page e = p ->
  snd <$> selected = newest p (take i (weighed srcs)) -> (forall s, selected = Some s -> (s.1 < i)%nat) ->
  snd <$> select m p i e selected = newest p (take (S i) (weighed srcs)) /\
  (forall s, select m p i e selected = Some s -> (s.1 < S i)%nat).
Proof.
  intros Hv Hlen Hi He Hsel Hlt. destruct (lookup_lt_is_Some_2 valid i) as [v Hvi].
  { rewrite Hlen. by eapply lookup_lt_Some. }
  assert (weighed srcs !! i = Some (v, e :: es)) as Hw.
  { rewrite lookup_zip_with, Hvi, list_lookup_fmap, Hi. done. }
  rewrite (take_S_r _ _ _ Hw), newest_app. unfold select. rewrite Hv, Hvi. cbn [is_some_and newest keyed map om_lookup].
  rewrite (proj2 (Z.eqb_eq _ _)) by done.
  assert (is_none_or (fun s : nat * DirectoryEntry => (s.1 <? i)%nat) selected = true) as ->.
  { destruct selected as [s|]; [|done]. cbn. apply Nat.ltb_lt. by apply Hlt. }
  rewrite andb_true_r. destruct (p <=? v); cbn.
  - split; [done|]. intros s [= <-]. cbn. lia.
  - split; [done|]. intros s Hs%Hlt. lia.
Qed.

(** The locators of a source that is left out of the group. *)
Lemma weighed_skip p srcs i i' : (i <= i')%nat ->
  (forall j s, (i <= j < i')%nat -> srcs !! j = Some s -> p ∉ map DirEntry.page s.1) ->
  newest p (take i' (weighed srcs)) = newest p (take i (weighed srcs)).
Proof.
  intros Hle Hno. apply newest_skip; [done|]. intros j v es Hj Hl. rewrite lookup_zip_with, list_lookup_fmap in Hl.
  destruct (valid !! j); [|done]. cbn in Hl. destruct (srcs !! j) as [s|] eqn:Es; [|done]. cbn in Hl. injection Hl as <- <-.
  apply keyed_lookup_None. by eapply Hno.
Qed.

(** A source further on that has the page is in the heap. *)
Lemma grouping_late p srcs i cs h j s : sources_from p srcs -> grouping p srcs i cs h -> (i <= j)%nat ->
  srcs !! j = Some s -> p ∈ map DirEntry.page s.1 -> (p, j) ∈ h.
Proof.
  intros Hsrcs Hg Hj Es Hin. destruct s as [[|e1 es1] x1]; [by apply elem_of_nil in Hin|]. apply (mg_heap _ _ _ Hg).
  exists e1, es1, x1. cbn [fst snd]. split; [by apply taken_left|]. by eapply source_head.
Qed.

(** No position in the heap is before the group's page. *)
Lemma grouping_low p srcs i cs h y : sources_from p srcs -> grouping p srcs i cs h -> y ∈ h -> p <= y.1.
Proof.
  intros [_ Hf] Hg (e & es & x & Hj & <-)%(mg_heap _ _ _ Hg). rewrite taken_lookup in Hj.
  destruct (srcs !! y.2) as [s|] eqn:Ej; [|done]. cbn [fmap option_fmap option_map] in Hj. apply (inj Some) in Hj.
  destruct (Forall_lookup_1 _ _ _ _ Hf Ej) as [_ Hge]. rewrite Forall_forall in Hge. apply Hge.
  destruct (_ <? _)%nat; [|subst s; set_solver]. unfold strip in Hj. injection Hj as Hj _.
  assert (e ∈ List.filter (fun e => negb (DirEntry.page e =? p)) s.1) as [? _]%elem_of_filter_bool by (rewrite Hj; set_solver). done.
Qed.

Lemma group_ended p srcs i cs h (selected : option (nat * DirectoryEntry)) : sources_from p srcs -> grouping p srcs (S i) cs h -> (i < length srcs)%nat ->
  match h with (q, _) :: _ => q <> p | [] => True end -> snd <$> selected = newest p (take (S i) (weighed srcs)) ->
  merging (map (strip p) srcs) cs h /\ snd <$> selected = newest p (weighed srcs).
Proof.
  intros Hsrcs Hg Hi Hh Hsel. pose proof Hsrcs as [Hlen _].
  assert (forall j s, (S i <= j)%nat -> srcs !! j = Some s -> p ∉ map DirEntry.page s.1) as Hno.
  { intros j s Hj Es Hin. pose proof (grouping_late p srcs (S i) cs h j s Hsrcs Hg Hj Es Hin) as Hl.
    destruct h as [|[q k] h]; [by apply elem_of_nil in Hl|]. apply elem_of_cons in Hl as [[= -> ->]|Hl]; [done|].
    pose proof (mg_sorted _ _ _ Hg) as [_ Hlow]%StronglySorted_inv. rewrite Forall_forall in Hlow. specialize (Hlow _ Hl).
    pose proof (grouping_low p srcs (S i) cs _ (q, k) Hsrcs Hg ltac:(set_solver)). unfold hlt in Hlow. cbn in *. lia. }
  split; [by rewrite <- (taken_all p (S i)) by done|]. rewrite Hsel.
  rewrite <- (take_ge (weighed srcs) (length srcs)) at 2 by (rewrite length_zip_with, length_map; lia).
  symmetry. apply weighed_skip; [lia|]. intros j s Hj. apply Hno. lia.
Qed.

Lemma group_loop_ok p srcs : sources_from p srcs -> forall fuel m i cs selected e es x,
  valid_through m = valid -> grouping p srcs i cs ((p, i) :: heap m) ->
  srcs !! i = Some (e :: es, x) -> DirEntry.page e = p ->
  snd <$> selected = newest p (take i (weighed srcs)) -> (forall s, selected = Some s -> (s.1 < i)%nat) ->
  (length srcs - i <= fuel)%nat ->
  match group_loop take_cursor fuel m p i selected cs with
  | Ok (cs', h', selected') => merging (map (strip p) srcs) cs' h' /\ snd <$> selected' = newest p (weighed srcs)
  | Err err => exists j s, srcs !! j = Some s /\ s.2 = Some err
  end.
Proof.
  intros Hsrcs. pose proof Hsrcs as [Hlen _].
  induction fuel as [|fuel IH]; intros m i cs selected e es x Hv Hg Hi He Hsel Hlt Hfuel.
  { apply lookup_lt_Some in Hi. lia. }
  cbn [group_loop]. pose proof (take_cursor_ok i cs e es x) as Ht. rewrite (mg_source _ _ _ Hg) in Ht.
  specialize (Ht (mg_settled _ _ _ Hg) (taken_left p i srcs i _ (le_n i) Hi)).
  destruct (select_newest m p srcs i e es x selected Hv Hlen Hi He Hsel Hlt) as [Hsel' Hlt'].
  assert ((exists err, es = [] /\ x = Some err /\ take_cursor i cs = Err err) \/
          exists cs', take_cursor i cs = Ok (cs', (e, DirEntry.page <$> head es)) /\
            map cursor_source cs' = <[i := (es, x)]> (taken p i srcs) /\ Forall settled cs') as [(err & -> & -> & ->)|(cs' & -> & Hcs' & Hset')].
  { destruct es as [|e' es]; [destruct x as [err|]; [left; by exists err|]|]; by right. }
  { cbn [mbind result_bind]. by exists i, ([e], Some err). }
  clear Ht. cbn [mbind result_bind]. cbv zeta.
  pose proof (grouping_taken p srcs i cs (heap m) e es x cs' Hsrcs Hg Hi He) as Hg'.
  rewrite (mg_source _ _ _ Hg) in Hg'. specialize (Hg' Hcs' Hset'). apply lookup_lt_Some in Hi.
  revert Hg'. generalize (match DirEntry.page <$> head es with Some q => heap_push (q, i) (heap m) | None => heap m end). intros h Hg'.
  destruct h as [|[q j] h']; [by eapply group_ended|]. destruct (Z.eqb_spec q p) as [->|Nq]; [|by eapply group_ended].
  destruct (grouping_skip p srcs (S i) cs' _ p j h' Hsrcs Hg' eq_refl eq_refl) as (Hij & (e1 & es1 & x1 & Hj & Hp1) & Hno & Hgj).
  eapply (IH (MkMerge h' (valid_through m) (failed m)) j cs' _ e1 es1 x1); [done|exact Hgj|exact Hj|exact Hp1| | |lia].
  - rewrite Hsel'. symmetry. by apply weighed_skip.
  - intros s Hs. specialize (Hlt' s Hs). lia.
Qed.

(** ** The whole merge *)

Lemma merging_from srcs cs p i h : length valid = length srcs -> Forall (fun s : Source => ascending s.1) srcs ->
  merging srcs cs ((p, i) :: h) -> sources_from p srcs.
Proof.
  intros Hlen Hs Hm. split; [done|]. apply Forall_forall. intros s [j Hj]%list_elem_of_lookup.
  pose proof (Forall_lookup_1 _ _ _ _ Hs Hj) as Hsj. cbn beta in Hsj. split; [done|]. destruct s as [[|e es] x]; [constructor|]. cbn [fst] in *.
  assert ((DirEntry.page e, j) ∈ (p, i) :: h) as Hin by (apply (mg_heap _ _ _ Hm); by exists e, es, x).
  assert (p <= DirEntry.page e) as Hle.
  { apply elem_of_cons in Hin as [[= -> ->]|Hin]; [lia|]. pose proof (mg_sorted _ _ _ Hm) as [_ Hl]%StronglySorted_inv.
    rewrite Forall_forall in Hl. specialize (Hl _ Hin). unfold hlt in Hl. cbn in Hl. lia. }
  cbn [map] in Hsj. apply StronglySorted_inv in Hsj as [_ Hf]. rewrite Forall_map in Hf. constructor; [done|].
  eapply Forall_impl; [exact Hf|]. simpl. lia.
Qed.

Lemma next_group_ok m cs srcs : length valid = length srcs -> Forall (fun s : Source => ascending s.1) srcs ->
  merging srcs cs (heap m) -> valid_through m = valid -> failed m = false ->
  match heap m with
  | [] => next_group take_cursor (length cs) m cs = (m, cs, None)
  | (p, _) :: _ => sources_from p srcs /\
      ((exists cs' h, next_group take_cursor (length cs) m cs = (MkMerge h valid false, cs', Some (Ok (newest p (weighed srcs))))
          /\ merging (map (strip p) srcs) cs' h) \/
       (exists err j s, next_group take_cursor (length cs) m cs = (MkMerge [] valid true, cs, Some (Err err))
          /\ srcs !! j = Some s /\ s.2 = Some err))
  end.
Proof.
  intros Hlen Hs Hm Hv Hfa. destruct m as [h v f]. cbn in Hv, Hfa, Hm |- *. subst v f. unfold next_group. cbn [failed heap valid_through].
  destruct h as [|[p i] h]; [done|]. pose proof (merging_from srcs cs p i h Hlen Hs Hm) as Hsrcs. split; [done|].
  assert (grouping p srcs 0 cs ((p, i) :: h)) as Hg0 by (unfold grouping; by rewrite taken_0).
  destruct (grouping_skip p srcs 0 cs _ p i h Hsrcs Hg0 eq_refl eq_refl) as (_ & (e & es & x & Hi & He) & Hno & Hg).
  assert (length cs = length srcs) as El by (rewrite <- (mg_source _ _ _ Hm); by rewrite length_map).
  pose proof (group_loop_ok p srcs Hsrcs (length cs) (MkMerge h valid false) i cs None e es x eq_refl Hg Hi He) as Hl.
  assert (newest p (take i (weighed srcs)) = None) as Hn.
  { rewrite (weighed_skip p srcs 0 i); [done|lia|]. done. }
  specialize (Hl (eq_sym Hn) ltac:(done) ltac:(lia)).
  destruct (group_loop _ _ _ _ _ _ _) as [[[cs' h'] sel]|err].
  - destruct Hl as [Hm' Hsel]. left. exists cs', h'. by rewrite <- Hsel.
  - right. destruct Hl as (j & s & Hj & Hx). by exists err, j, s.
Qed.

(** What an iterator over these sources yields: the newest locators in ascending
    order of pages, or some of them and then the error of a source. *)
Definition yields (srcs : list Source) (rs : list (LtxResult DirectoryEntry)) : Prop :=
  (exists l, rs = map Ok l /\ Forall (fun s : Source => s.2 = None) srcs /\ ascending l /\
     (forall p, om_lookup p (keyed l) = newest p (weighed srcs))) \/
  (exists l err s, rs = map Ok l ++ [Err err] /\ s ∈ srcs /\ s.2 = Some err).

Lemma newest_strip p q srcs : newest q (weighed (map (strip p) srcs)) = if q =? p then None else newest q (weighed srcs).
Proof.
  rewrite map_map. revert srcs. induction valid as [|v vs IH]; intros srcs; [by cbn; destruct (q =? p)|].
  destruct srcs as [|s srcs]; [by cbn; destruct (q =? p)|]. cbn [map zip_with newest]. rewrite IH. cbn [strip fst].
  assert (om_lookup q (keyed (List.filter (fun e => negb (DirEntry.page e =? p)) s.1)) = if q =? p then None else om_lookup q (keyed s.1)) as ->.
  { rewrite (keyed_filter (fun k => negb (k =? p))), om_lookup_filter. by destruct (q =? p). }
  destruct (q =? p); [by destruct (q <=? v)|done].
Qed.
Lemma newest_elem p (l : list (Z * list DirectoryEntry)) e : newest p l = Some e -> exists v es, (v, es) ∈ l /\ e ∈ es /\ DirEntry.page e = p.
Proof.
  induction l as [|[v es] l IH]; [done|]. cbn. destruct (newest p l) as [e'|].
  - intros [= ->]. destruct (IH eq_refl) as (v' & es' & ? & ? & ?). exists v', es'. set_solver.
  - destruct (p <=? v); [|done]. intros [He Hp]%keyed_lookup_page. exists v, es. set_solver.
Qed.

Lemma yields_step p srcs rs : sources_from p srcs -> yields (map (strip p) srcs) rs ->
  yields srcs (match newest p (weighed srcs) with Some e => Ok e :: rs | None => rs end).
Proof.
  intros [Hlen Hf] [(l & -> & Hend & Hl & Hlook)|(l & err & s & -> & Hs & Hx)].
  - left. rewrite Forall_map in Hend. exists (match newest p (weighed srcs) with Some e => e :: l | None => l end).
    split; [by destruct (newest p (weighed srcs))|]. split; [exact Hend|].
    assert (forall e, e ∈ l -> p < DirEntry.page e) as Hgt.
    { intros e He. assert (om_lookup (DirEntry.page e) (keyed l) = Some e) as E.
      { apply om_lookup_elem; [by apply keyed_sorted|]. apply keyed_elem. done. }
      rewrite Hlook, newest_strip in E. destruct (Z.eqb_spec (DirEntry.page e) p) as [|N]; [done|].
      apply newest_elem in E as (v & es & Hin & He' & _). apply elem_of_zip_r in Hin.
      apply list_elem_of_fmap in Hin as (s & -> & Hin). rewrite Forall_forall in Hf. destruct (Hf _ Hin) as [_ Hge].
      rewrite Forall_forall in Hge. specialize (Hge _ He'). lia. }
    destruct (newest p (weighed srcs)) as [e|] eqn:En.
    + pose proof (newest_elem _ _ _ En) as (_ & _ & _ & _ & Hp). split.
      * cbn [map]. constructor; [done|]. rewrite Forall_map. apply Forall_forall. intros y Hy. rewrite Hp. by apply Hgt.
      * intros q. cbn [keyed map om_lookup]. fold (keyed l). rewrite Hlook, newest_strip, Hp. destruct (Z.eqb_spec q p) as [->|]; [by rewrite En|done].
    + split; [done|]. intros q. rewrite Hlook, newest_strip. destruct (Z.eqb_spec q p) as [->|]; [by rewrite En|done].
  - right. apply list_elem_of_fmap in Hs as (s' & -> & Hs').
    exists (match newest p (weighed srcs) with Some e => e :: l | None => l end), err, s'. split_and!; [|done|done].
    by destruct (newest p (weighed srcs)).
Qed.

Definition total (srcs : list Source) : nat := sum_list_with (fun s : Source => length s.1) srcs.

Lemma total_strip p srcs : (total (map (strip p) srcs) <= total srcs)%nat.
Proof.
  unfold total. induction srcs as [|s srcs IH]; [done|]. cbn.
  pose proof (filter_length_le (fun e => negb (DirEntry.page e =? p)) s.1). lia.
Qed.
Lemma total_strip_lt p i srcs e es x : srcs !! i = Some (e :: es, x) -> DirEntry.page e = p ->
  (total (map (strip p) srcs) < total srcs)%nat.
Proof.
  revert i. induction srcs as [|s srcs IH]; intros [|i] Hi Hp; [done..| |].
  - cbn in Hi. injection Hi as ->. cbn. rewrite (proj2 (Z.eqb_eq _ _) Hp). cbn [negb].
    pose proof (filter_length_le (fun e => negb (DirEntry.page e =? p)) es). pose proof (total_strip p srcs). unfold total in *. lia.
  - cbn in Hi. specialize (IH i Hi Hp). cbn. pose proof (filter_length_le (fun e => negb (DirEntry.page e =? p)) s.1). unfold total in *. lia.
Qed.

Lemma strip_ascending p srcs : Forall (fun s : Source => ascending s.1) srcs -> Forall (fun s : Source => ascending s.1) (map (strip p) srcs).
Proof.
  intros Hs. apply Forall_map. eapply Forall_impl; [exact Hs|]. intros s Hss. cbn.
  apply keyed_sorted. rewrite (keyed_filter (fun k => negb (k =? p))). apply om_filter_sorted. by apply keyed_sorted.
Qed.

(** An iterator that is in step with its sources. *)
Definition iterating (srcs : list Source) (it : Entries) : Prop :=
  length valid = length srcs /\ Forall (fun s : Source => ascending s.1) srcs /\
  merging srcs (Iter.cursors it) (heap (Iter.merge it)) /\ valid_through (Iter.merge it) = valid /\ failed (Iter.merge it) = false.

Lemma iterating_left srcs it : iterating srcs it -> (total srcs <= entries_left it)%nat.
Proof.
  intros (_ & _ & [<- _ _ _] & _). unfold total, entries_left. induction (Iter.cursors it) as [|c cs IH]; [done|].
  cbn. pose proof (length_cursor_source c). lia.
Qed.

Lemma merging_done srcs cs : merging srcs cs [] -> Forall (fun s : Source => s = ([], None)) srcs.
Proof.
  intros [<- Hset _ Hheap]. apply Forall_map. apply Forall_forall. intros c [i Hi]%list_elem_of_lookup.
  destruct (cursor_source c) as [[|e es] x] eqn:Es.
  - pose proof (Forall_lookup_1 _ _ _ _ Hset Hi) as Hc. unfold settled in Hc. rewrite Es in Hc. apply Hc.
    destruct (Cursor.current c) eqn:E; [|done]. unfold cursor_source in Es. by rewrite E in Es.
  - exfalso. apply (elem_of_nil (DirEntry.page e, i)). apply Hheap. exists e, es, x. cbn [fst snd]. split; [|done].
    rewrite list_lookup_fmap, Hi. cbn. by rewrite Es.
Qed.

Lemma yields_done srcs : Forall (fun s : Source => s = ([], None)) srcs -> yields srcs [].
Proof.
  intros Hs. left. exists []. split_and!; [done| |constructor|].
  - eapply Forall_impl; [exact Hs|]. by intros s ->.
  - intros p. cbn. symmetry. apply eq_None_not_Some. intros [e (v & es & Hin & He & _)%newest_elem].
    apply elem_of_zip_r, list_elem_of_fmap in Hin as (s & -> & Hin). rewrite Forall_forall in Hs. rewrite (Hs _ Hin) in He. by apply elem_of_nil in He.
Qed.

Lemma iter_next_ok fuel srcs it : iterating srcs it -> (total srcs < fuel)%nat ->
  match entries_iter_next fuel it with
  | (_, None) => yields srcs []
  | (it', Some (Ok e)) => exists srcs', iterating srcs' it' /\ (total srcs' < total srcs)%nat /\
      forall rs, yields srcs' rs -> yields srcs (Ok e :: rs)
  | (it', Some (Err err)) => failed (Iter.merge it') = true /\ yields srcs [Err err]
  end.
Proof.
  revert srcs it. induction fuel as [|fuel IH]; intros srcs it Hit Hfuel; [lia|]. cbn [entries_iter_next].
  destruct Hit as (Hlen & Hs & Hm & Hv & Hfa). pose proof (next_group_ok _ _ srcs Hlen Hs Hm Hv Hfa) as Hn.
  destruct (heap (Iter.merge it)) as [|[p i] h] eqn:Eh.
  { rewrite Hn. by eapply yields_done, merging_done. }
  destruct Hn as [Hsrcs [(cs' & h' & -> & Hm')|(err & j & s & -> & Hj & Hx)]].
  2: { split; [done|]. right. exists [], err, s. split_and!; [done|by eapply list_elem_of_lookup_2|done]. }
  assert (iterating (map (strip p) srcs) (Iter.Mk cs' (MkMerge h' valid false))) as Hit'.
  { split_and!; [by rewrite length_map|by apply strip_ascending|done|done|done]. }
  assert (total (map (strip p) srcs) < total srcs)%nat as Hlt.
  { assert (positioned srcs (p, i)) as (e & es & x & Hi & He) by (apply (mg_heap _ _ _ Hm); set_solver). by eapply total_strip_lt. }
  pose proof (fun rs => yields_step p srcs rs Hsrcs) as Hstep.
  destruct (newest p (weighed srcs)) as [e|] eqn:En.
  - exists (map (strip p) srcs). by split_and!.
  - specialize (IH _ _ Hit' ltac:(lia)). destruct (entries_iter_next fuel _) as [it' [[e|err]|]].
    + destruct IH as (srcs' & Hit'' & Ht & Hy). exists srcs'. split_and!; [done|lia|]. intros rs Hrs. by apply Hstep, Hy.
    + destruct IH as [Hf Hy]. split; [done|]. by apply Hstep.
    + by apply Hstep.
Qed.

Lemma drain_failed fuel it : failed (Iter.merge it) = true -> drain fuel it = [].
Proof. intros Hf. destruct fuel as [|fuel]; [done|]. cbn [drain entries_iter_next]. unfold next_group. by rewrite Hf. Qed.

Lemma drain_yields fuel srcs it : iterating srcs it -> (total srcs < fuel)%nat -> yields srcs (drain fuel it).
Proof.
  revert srcs it. induction fuel as [|fuel IH]; intros srcs it Hit Hfuel; [lia|]. cbn [drain].
  pose proof (iter_next_ok (S (entries_left it)) srcs it Hit) as Hn. pose proof (iterating_left _ _ Hit).
  specialize (Hn ltac:(lia)). destruct (entries_iter_next _ it) as [it' [[e|err]|]]; [| |done].
  - destruct Hn as (srcs' & Hit' & Ht & Hy). apply Hy, IH; [done|lia].
  - destruct Hn as [Hf Hy]. by rewrite drain_failed.
Qed.
End Groups.

(** ** From the indexes to the merge *)

Definition input_source (i : DirectoryInput) : LtxResult Source :=
  it ← validated_index_entries (DirInput.index i) (Desc.info (DirInput.descriptor i));
  Ok (index_source i it).
(** The locators of an index that is read to its end. *)
Definition input_locators (i : DirectoryInput) : LtxResult (list DirectoryEntry) :=
  s ← input_source i;
  match s.2 with None => Ok s.1 | Some x => Err x end.

Lemma validate_entry_page v e v' e' : validate_entry v e = Ok (v', e') ->
  e' = e /\ PagedIndex.info v' = PagedIndex.info v /\ PagedIndex.previous_page v' = IndexEntry.page e /\ PagedIndex.previous_page v < IndexEntry.page e <= Segment.database_pages (PagedIndex.info v).
Proof.
  unfold validate_entry. intros (mx & _ & (en & _ & [Hg [= <- <-]]%reject_Ok)%bind_Ok)%bind_Ok.
  rewrite !orb_false_iff in Hg. destruct Hg as [[[[[H1 H2] _] _] _] _]. guards. cbn. split_and!; [done..|lia|lia].
Qed.
Lemma locator_page d e l : locator d e = Ok l -> DirEntry.page l = IndexEntry.page e.
Proof. unfold locator. by intros (o & _ & (n & _ & [= <-])%bind_Ok)%bind_Ok. Qed.

Lemma stream_ascending d cs v : StronglySorted Z.lt (PagedIndex.previous_page v :: map DirEntry.page (stream d v cs).1) /\
  Forall (fun e => DirEntry.page e <= Segment.database_pages (PagedIndex.info v)) (stream d v cs).1.
Proof.
  revert v. induction cs as [|c cs IH]; intros v; [by cbn; repeat constructor|]. cbn [stream].
  destruct (_ ≫= _) as [[v' l]|x] eqn:E; [|by cbn; repeat constructor]. cbn [fst map].
  apply bind_Ok in E as (e & _ & ([v1 e1] & Hv & (l1 & Hl & [= <- <-])%bind_Ok)%bind_Ok).
  apply validate_entry_page in Hv as (-> & Hinfo & Hprev & Hlt). apply locator_page in Hl. destruct (IH v1) as [Hs Hle].
  rewrite Hprev, <- Hl in Hs. rewrite Hinfo in Hle. split; [|constructor; [lia|done]].
  constructor; [exact Hs|]. apply StronglySorted_inv in Hs as [_ Hf]. constructor; [lia|]. eapply Forall_impl; [exact Hf|]. simpl. lia.
Qed.

Lemma input_source_ok i s : input_source i = Ok s -> ascending s.1 /\ Forall (fun e => DirEntry.page e <= input_pages i) s.1.
Proof.
  unfold input_source, validated_index_entries.
  intros (it & (chunks & _ & [= <-])%bind_Ok & [= <-])%bind_Ok. unfold index_source. cbn.
  destruct (stream_ascending (DirInput.descriptor i) chunks (validator_new (Desc.info (DirInput.descriptor i)))) as [[Hs _]%StronglySorted_inv Hle].
  split; [exact Hs|exact Hle].
Qed.

Lemma cursor_new_ok i :
  match cursor_new i with
  | Ok c => exists s, input_source i = Ok s /\ Cursor.current c = head s.1 /\ cursor_source c = s /\ settled c
  | Err x => input_locators i = Err x
  end.
Proof.
  unfold cursor_new, input_locators, input_source. destruct (validated_index_entries _ _) as [it|x]; cbn [mbind result_bind]; [|done].
  pose proof (cursor_advance_ok (Cursor.Mk i it None)) as Ha. cbn [Cursor.input Cursor.entries] in Ha.
  destruct (index_source i it) as [[|e es] [x|]]; [by rewrite Ha| | |];
    destruct Ha as (c & -> & Hh & Hsrc & Hset); eexists; by split_and!.
Qed.

(** A cursor joins the merge. *)
Lemma merging_snoc srcs cs h c : merging srcs cs h -> settled c ->
  merging (srcs ++ [cursor_source c]) (cs ++ [c])
    (match Cursor.current c with Some e => heap_push (DirEntry.page e, length cs) h | None => h end).
Proof.
  intros [Hsrc Hset Hs Hh] Hc. assert (length srcs = length cs) as Hlen by (rewrite <- Hsrc; by rewrite length_map).
  assert (forall y, positioned (srcs ++ [cursor_source c]) y <->
            positioned srcs y \/ exists e, Cursor.current c = Some e /\ y = (DirEntry.page e, length cs)) as Hpos.
  { intros [p i]. split.
    - intros (e & es & x & Hi & Hp). cbn [fst snd] in *. apply lookup_app_Some in Hi as [Hi|[Hge Hi]]; [left; by exists e, es, x|right].
      apply list_lookup_singleton_Some in Hi as [Hz Hi]. destruct (cursor_current c e es x Hc Hi) as [He _]. exists e.
      split; [done|]. rewrite <- Hp. f_equal. lia.
    - intros [(e & es & x & Hi & Hp)|(e & He & [= -> ->])].
      + exists e, es, x. split; [|done]. by apply lookup_app_l_Some.
      + eexists e, _, _. cbn [fst snd]. split; [|done]. rewrite lookup_app_r, Hlen, Nat.sub_diag by lia. unfold cursor_source. by rewrite He. }
  assert (forall y, y ∈ h -> y.2 <> length cs) as Hne.
  { intros y (e & es & x & Hi & _)%Hh. apply lookup_lt_Some in Hi. lia. }
  constructor.
  - by rewrite map_app, Hsrc.
  - apply Forall_app. split; [done|by repeat constructor].
  - destruct (Cursor.current c) as [e|]; [|done]. apply heap_push_sorted; [done|]. apply Forall_forall. intros y Hy. by apply Hne.
  - intros y. rewrite Hpos. destruct (Cursor.current c) as [e|].
    + rewrite heap_push_elem, Hh. split; [intros [->|?]; [right; by exists e|by left]|]. intros [?|(e' & [= <-] & ->)]; [by right|by left].
    + rewrite Hh. split; [by left|]. by intros [?|(e & ? & _)].
Qed.

Lemma cursors_loop_ok inputs : forall srcs cs m, merging srcs cs (heap m) ->
  match cursors_loop inputs cs m with
  | Ok (cs', m') => exists srcs', collect input_source inputs = Ok srcs' /\ merging (srcs ++ srcs') cs' (heap m') /\
      valid_through m' = valid_through m /\ failed m' = failed m
  | Err x => exists i, i ∈ inputs /\ input_locators i = Err x
  end.
Proof.
  induction inputs as [|i inputs IH]; intros srcs cs m Hm; cbn [cursors_loop collect].
  { exists []. by rewrite app_nil_r. }
  pose proof (cursor_new_ok i) as Hn. destruct (cursor_new i) as [c|x]; cbn [mbind result_bind]; [|exists i; set_solver].
  destruct Hn as (s & Hs & Hh & Hsrc & Hset). rewrite Hs. cbn [mbind result_bind].
  pose proof (merging_snoc srcs cs (heap m) c Hm Hset) as Hm'. rewrite Hsrc in Hm'.
  specialize (IH (srcs ++ [s]) (cs ++ [c])
    (match Cursor.current c with Some e => merge_push m (length cs) (DirEntry.page e) | None => m end)).
  destruct (cursors_loop inputs _ _) as [[cs' m']|x].
  - destruct IH as (srcs' & -> & Hmm & Hv & Hf); [by destruct (Cursor.current c)|]. exists (s :: srcs').
    rewrite <- app_assoc in Hmm. cbn [mbind result_bind]. split_and!; [done|done|..]; [rewrite Hv|rewrite Hf]; by destruct (Cursor.current c).
  - destruct IH as (j & Hj & Hx); [by destruct (Cursor.current c)|]. exists j. set_solver.
Qed.

(** ** Changes replay as well *)

Lemma stream_decodes d cs v es : stream d v cs = (es, None) ->
  exists ies, foldr (fun c es => e ← decode_index_entry c; es ← es; Ok (e :: es)) (Ok []) cs = Ok ies /\
    Forall2 (fun ie e => locator d ie = Ok e) ies es.
Proof.
  revert v es. induction cs as [|c cs IH]; intros v es; cbn [stream].
  { intros [= <-]. exists []. by split. }
  destruct (_ ≫= _) as [[v' l]|x] eqn:E; [|done]. destruct (stream d v' cs) as [es' x] eqn:Es. cbn [fst snd]. intros [= <- ->].
  apply bind_Ok in E as (e & He & ([v1 e1] & Hv & (l1 & Hl & [= <- <-])%bind_Ok)%bind_Ok).
  apply validate_entry_page in Hv as (-> & _). destruct (IH _ _ Es) as (ies & Hies & Hf). exists (e :: ies).
  cbn [foldr]. rewrite He. cbn [mbind result_bind]. rewrite Hies. split; [done|]. by constructor.
Qed.

Lemma input_locators_decode i es : input_locators i = Ok es ->
  exists ies, decode_index (DirInput.index i) = Ok ies /\ Forall2 (fun ie e => locator (DirInput.descriptor i) ie = Ok e) ies es.
Proof.
  unfold input_locators, input_source, validated_index_entries, decode_index.
  intros (s & (it & (cs & -> & [= <-])%bind_Ok & [= <-])%bind_Ok & Hs)%bind_Ok. cbn [mbind result_bind].
  unfold index_source in Hs. cbn in Hs. destruct (stream _ _ cs) as [es' [x|]] eqn:Es; [done|]. cbn in Hs. injection Hs as ->.
  by eapply stream_decodes.
Qed.

Lemma insert_changes_ok d ies es m : Forall2 (fun ie e => locator d ie = Ok e) ies es -> insert_changes d ies m = Ok (om_extend m (keyed es)).
Proof.
  intros Hf. revert m. induction Hf as [|ie e ies es Hl _ IH]; intros m; [done|]. cbn [insert_changes]. rewrite Hl. cbn [mbind result_bind].
  rewrite IH. apply locator_page in Hl. by rewrite <- Hl.
Qed.

(** The sources of the inputs, as [replay] takes them. *)
Abbreviation cuts inputs ess := (zip (map input_pages inputs) ess).

Lemma changes_loop_ok inputs ess m retain : Forall2 (fun i es => input_locators i = Ok es) inputs ess ->
  changes_loop inputs m retain =
  Ok (foldl (fun m x => om_extend (om_filter (fun page => page <=? x.1) m) (keyed x.2)) m (cuts inputs ess),
      foldl Z.min retain (map input_pages inputs)).
Proof.
  intros Hf. revert m retain. induction Hf as [|i es inputs ess Hi _ IH]; intros m retain; [done|]. cbn [changes_loop].
  destruct (input_locators_decode i es Hi) as (ies & -> & Hl). cbn [mbind result_bind]. rewrite (insert_changes_ok _ _ _ _ Hl).
  cbn [mbind result_bind]. by rewrite IH.
Qed.

Lemma directory_changes_ok inputs ess base : Forall2 (fun i es => input_locators i = Ok es) inputs ess ->
  directory_changes inputs base = Ok (replay (cuts inputs ess), foldl Z.min base (map input_pages inputs)).
Proof. apply changes_loop_ok. Qed.

Lemma input_locators_source i es : input_locators i = Ok es <-> input_source i = Ok (es, None).
Proof.
  unfold input_locators. split.
  - intros ([es' [x|]] & Hs & Hx)%bind_Ok; [done|]. cbn in Hx. by injection Hx as ->.
  - by intros ->.
Qed.

Lemma input_source_cut i es : u32_ok (input_pages i) -> input_locators i = Ok es -> source_ok (input_pages i, es).
Proof.
  intros [_ Hu] [Hs Hp]%input_locators_source%input_source_ok. by split_and!.
Qed.
Lemma cuts_ok inputs ess : Forall (fun i => u32_ok (input_pages i)) inputs ->
  Forall2 (fun i es => input_locators i = Ok es) inputs ess -> Forall source_ok (cuts inputs ess).
Proof.
  intros Hu Hf. induction Hf as [|i es inputs ess Hi _ IH]; [constructor|]. apply Forall_cons in Hu as [Hu1 Hu].
  cbn. constructor; [by apply input_source_cut|by apply IH].
Qed.

Lemma collect_Forall2 {E A B} (f : A -> result E B) l l' : collect f l = Ok l' <-> Forall2 (fun a b => f a = Ok b) l l'.
Proof.
  revert l'. induction l as [|a l IH]; intros l'; cbn [collect].
  - split; [intros [= <-]; constructor|]. by intros ->%Forall2_nil_inv_l.
  - rewrite bind_Ok. split.
    + intros (b & Hb & (bs & Hbs & [= <-])%bind_Ok). constructor; [done|]. by apply IH.
    + intros (b & bs & Hb & Hbs%IH & ->)%Forall2_cons_inv_l. exists b. by rewrite Hbs.
Qed.

(** An iterator over the inputs, in step with their sources. *)
Lemma initial_entries_ok inputs : inputs <> [] ->
  match initial_entries inputs with
  | Ok it => exists srcs, Forall2 (fun i s => input_source i = Ok s) inputs srcs /\
               iterating (minima u32_max (map input_pages inputs)) srcs it
  | Err x => exists i, i ∈ inputs /\ input_locators i = Err x
  end.
Proof.
  intros Hne. unfold initial_entries. destruct inputs as [|i0 inputs0]; [done|]. set (inputs := i0 :: inputs0).
  pose proof (cursors_loop_ok inputs [] [] (merge_new (map input_pages inputs))) as Hl.
  destruct (cursors_loop inputs [] _) as [[cs m]|x]; cbn [mbind result_bind].
  - destruct Hl as (srcs & Hc & Hm & Hv & Hf).
    { constructor; [done|constructor|constructor|]. intros y. split; [by intros ?%elem_of_nil|]. by intros (e & es & x & Hi & _). }
    exists srcs. apply collect_Forall2 in Hc. split; [done|]. unfold iterating. cbn [Iter.merge Iter.cursors].
    rewrite merge_new_minima in Hv. rewrite length_minima, length_map, (Forall2_length _ _ _ Hc). split_and!; try done.
    apply Forall_forall. intros s [j Hj]%list_elem_of_lookup. destruct (Forall2_lookup_r _ _ _ _ _ Hc Hj) as (i & _ & Hi).
    by apply input_source_ok in Hi as [? _].
  - apply Hl. constructor; [done|constructor|constructor|]. intros y. split; [by intros ?%elem_of_nil|]. by intros (e & es & x' & Hi & _).
Qed.

(** The entries of valid indexes are those a replay leaves. *)
Lemma initial_stream_ok inputs ess : inputs <> [] -> Forall (fun i => u32_ok (input_pages i)) inputs ->
  Forall2 (fun i es => input_locators i = Ok es) inputs ess ->
  exists it, initial_entries inputs = Ok it /\ entries_stream it = map (fun x => Ok x.2) (replay (cuts inputs ess)).
Proof.
  intros Hne Hu Ec. pose proof (initial_entries_ok inputs Hne) as Hi. destruct (initial_entries inputs) as [it|x].
  2: { destruct Hi as (i & [j Hj]%list_elem_of_lookup & Hx). destruct (Forall2_lookup_l _ _ _ _ _ Ec Hj) as (es & _ & Hes). congruence. }
  exists it. split; [done|]. destruct Hi as (srcs & Hs & Hit).
  assert (srcs = map (fun es => (es, None)) ess) as ->.
  { clear -Ec Hs. revert srcs Hs. induction Ec as [|i es inputs ess Hi _ IH]; intros srcs Hs; [by apply Forall2_nil_inv_l in Hs|].
    apply Forall2_cons_inv_l in Hs as (s & srcs' & Hs & Hss & ->). apply input_locators_source in Hi. cbn. f_equal; [congruence|by apply IH]. }
  destruct (drain_yields _ _ _ _ Hit (le_n_S _ _ (iterating_left _ _ _ Hit))) as [(l & Hl & _ & Hasc & Hlook)|(l & err & s & _ & Hin & Hx)].
  2: { apply list_elem_of_fmap in Hin as (es & -> & _). done. }
  unfold entries_stream. rewrite Hl, <- (map_map snd Ok). f_equal. rewrite <- (map_snd_keyed l). f_equal.
  apply om_ext; [by apply keyed_sorted|apply replay_sorted|]. intros p. rewrite Hlook, replay_newest by (by apply cuts_ok).
  rewrite map_map, map_id. f_equal. pose proof (Forall2_length _ _ _ Ec).
  rewrite fst_zip, snd_zip by (rewrite length_map; lia). done.
Qed.

(** An invalid index is found. *)
Lemma initial_stream_error inputs x : inputs <> [] -> collect input_locators inputs = Err x ->
  match initial_entries inputs with
  | Ok it => exists l err, entries_stream it = map Ok l ++ [Err err]
  | Err _ => True
  end.
Proof.
  intros Hne Ec. pose proof (initial_entries_ok inputs Hne) as Hi.
  destruct (initial_entries inputs) as [it|]; [|done]. destruct Hi as (srcs & Hs & Hit).
  destruct (drain_yields _ _ _ _ Hit (le_n_S _ _ (iterating_left _ _ _ Hit))) as [(l & Hl & Hend & _)|(l & err & s & Hl & _)]; [|by exists l, err].
  exfalso. assert (collect input_locators inputs = Ok (map fst srcs)) as E; [|by rewrite E in Ec].
  apply collect_Forall2. clear -Hs Hend. induction Hs as [|i s inputs srcs Hi _ IH]; [constructor|]. apply Forall_cons in Hend as [Hx Hend].
  constructor; [|by apply IH]. apply input_locators_source. destruct s. cbn in Hx. by subst.
Qed.

(** C20: both ways of resolving locators agree with replaying the segments. When
    every index is valid, the heap merge over all of them yields, in ascending
    order of pages and without an error, exactly the locators that remain when the
    segments are applied one after the other, each cutting the database to its
    page count and then locating the pages it wrote; the map an append accumulates
    is the same replay, together with the least page count, below which the pages
    of the older state survive. When some index is not valid the merge reports an
    error, at once or as the last thing it yields, and never a complete result. *)
Theorem merge_exact inputs base : inputs <> [] -> Forall (fun i => u32_ok (input_pages i)) inputs ->
  match collect input_locators inputs with
  | Ok ess => exists it, initial_entries inputs = Ok it /\
      entries_stream it = map (fun x => Ok x.2) (replay (cuts inputs ess)) /\
      directory_changes inputs base = Ok (replay (cuts inputs ess), foldl Z.min base (map input_pages inputs))
  | Err _ =>
      match initial_entries inputs with
      | Ok it => exists l err, entries_stream it = map Ok l ++ [Err err]
      | Err _ => True
      end
  end.
Proof.
  intros Hne Hu. destruct (collect input_locators inputs) as [ess|x] eqn:Ec; [|by eapply initial_stream_error].
  apply collect_Forall2 in Ec. destruct (initial_stream_ok inputs ess Hne Hu Ec) as (it & Hi & Hs). exists it.
  split_and!; [done|done|by apply directory_changes_ok].
Qed.

(** Three segments: the first has three pages, the second cuts the third one off and
    rewrites the second, the third grows the database again. *)
Module MergeDemo.
Definition record (page offset size : Z) : list byte :=
  to_be 4 page ++ to_be 8 offset ++ to_be 8 size ++ repeat x09 32 ++ to_be 8 CHECKSUM_FLAG.
Definition input (n : Z) (i : byte) (index : list byte) : DirectoryInput :=
  DirInput.Mk (native (Segment.Mk 1 1 4096 n 0 CHECKSUM_FLAG 1024 (array_fill 32 i)) (array_fill 32 x01) (len index)) index.
Definition inputs : list DirectoryInput :=
  [input 3 x07 (record 1 100 20 ++ record 2 120 20 ++ record 3 140 20);
   input 2 x08 (record 2 100 20);
   input 3 x06 (record 3 100 20)].
Definition entry (page : Z) (i : byte) (offset : Z) : DirectoryEntry :=
  DirEntry.Mk page (array_fill 32 i) offset 20 (array_fill 32 x09) CHECKSUM_FLAG.
End MergeDemo.

Lemma merge_exact_witness :
  exists it, initial_entries MergeDemo.inputs = Ok it /\
    entries_stream it = [Ok (MergeDemo.entry 1 x07 100); Ok (MergeDemo.entry 2 x08 100); Ok (MergeDemo.entry 3 x06 100)] /\
    directory_changes MergeDemo.inputs 5 =
      Ok ([(1, MergeDemo.entry 1 x07 100); (2, MergeDemo.entry 2 x08 100); (3, MergeDemo.entry 3 x06 100)], 2).
Proof.
  pose proof (merge_exact MergeDemo.inputs 5 ltac:(discriminate)) as H.
  assert (Forall (fun i => u32_ok (input_pages i)) MergeDemo.inputs) as Hu by (repeat constructor; vm_compute; discriminate).
  specialize (H Hu).
  assert (collect input_locators MergeDemo.inputs =
          Ok [[MergeDemo.entry 1 x07 100; MergeDemo.entry 2 x07 120; MergeDemo.entry 3 x07 140];
              [MergeDemo.entry 2 x08 100]; [MergeDemo.entry 3 x06 100]]) as E by (apply (bool_decide_unpack _); vm_compute; exact I).
  rewrite E in H. destruct H as (it & H1 & H2 & H3). exists it. split; [exact H1|]. rewrite H2, H3. split; vm_compute; reflexivity.
Defined.
