(* ===== verification/Graph.v ===== *)
(** * Graph: opening a published root

    Models the loading of a root in [crates/cellule-ltx/src/replica/verify.rs]: the
    root document and the pages of segment descriptors are read by digest through
    the cache, checked against the reference, the chain of segments is validated,
    and the root node of the page directory is verified. Metadata comes from a
    [MetadataReader], which the replica implements over the object store. *)

From Stdlib Require Import ZArith Lia.
From Stdlib Require Import Strings.Byte.
From stdpp Require Import base gmap strings numbers sorting.
From stdpp Require Import list.
From S2P Require Import Prelude OrdMap Bytes Identity Text LtxTypes Lz4 Ltx LtxCodec PagedIndex DirectoryNode ReplicaCache Directory DirectoryShape DirectoryUpdate Control Root Merge.

Local Open Scope bool_scope.

(*@ cellule-ltx/src/replica/mod.rs 44-44 MAX_SEGMENTS *)
Definition MAX_SEGMENTS : Z := 4096.
(*@ cellule-ltx/src/replica/mod.rs 45-45 SEGMENTS_PER_PAGE *)
Definition SEGMENTS_PER_PAGE : Z := 96.

(** What a root is checked against: the scope and the limits of the replica. *)
Module Replica.
(*@ cellule-ltx/src/replica/mod.rs 740-751 CellReplica *)
Record CellReplica := Mk { cell : CellId; incarnation : IncarnationId; limits : Limits; preparation_predecessor : option LtxRootRef }.
End Replica.
Abbreviation CellReplica := Replica.CellReplica.

Definition position (root : LtxRootRef) : Position := Pos.Mk (position_txid root) (position_checksum root).

(*@ cellule-ltx/src/replica/verify.rs 400-407 CellReplica::check_scope *)
Definition check_scope (r : CellReplica) (root : LtxRootRef) : LtxResult unit :=
  if negb (bool_decide (ltx_cell root = Replica.cell r)) || negb (bool_decide (ltx_incarnation root = Replica.incarnation r))
  then Err (LtxErr.InvalidState "root belongs to another Cell incarnation") else Ok tt.

(** ** Chains *)

(*@ cellule-ltx/src/replica/verify.rs 377-393 CellReplica::validate_chain *)
Fixpoint chain_loop (limits : Limits) (ds : list SegmentDescriptor) (previous : Position) (page_size : option Z) (total : Z)
  : LtxResult Position :=
  match ds with
  | [] => Ok previous
  | d :: ds =>
      _ ← descriptor_validate d limits;
      let info := Desc.info d in
      total ← ok_or (value ← checked_add_u64 total (Segment.size_bytes info); checked_add_u64 value (Desc.index_length d))
                    (LtxErr.Limit Limit.CellRootBytes);
      if (max_plan_bytes limits <? total)
         || negb (bool_decide (checked_add_u64 (Pos.txid previous) 1 = Some (Segment.min_txid info)))
         || negb (Segment.pre_checksum info =? Pos.checksum previous)
         || is_some_and (fun value => negb (value =? Segment.page_size info)) page_size
      then Err LtxErr.LTXCorrupted
      else chain_loop limits ds (segment_position info) (Some (Segment.page_size info)) total
  end.

(*@ cellule-ltx/src/replica/verify.rs 365-398 CellReplica::validate_chain *)
Definition validate_chain (limits : Limits) (ds : list SegmentDescriptor) (target : Position) : LtxResult unit :=
  if is_empty ds || (Z.min MAX_SEGMENTS (max_segments limits) <? len ds) then Err (LtxErr.Limit Limit.CellRootSegments)
  else
    previous ← chain_loop limits ds (Pos.Mk 0 0) None 0;
    if negb (bool_decide (previous = target)) then Err LtxErr.ChecksumMismatch else Ok tt.

Fixpoint validate_descriptors (ds : list SegmentDescriptor) (limits : Limits) : LtxResult unit :=
  match ds with
  | [] => Ok tt
  | d :: ds => _ ← validate_published d limits; validate_descriptors ds limits
  end.

(** ** Loading *)

Class MetadataReader (W : Type) := {
  read_object : Digest -> CellObjectKind -> Z -> bool -> ReadM W (list byte * bool);
  head_object : Digest -> ReadM W Z
}.

Module Loaded.
(*@ cellule-ltx/src/replica/mod.rs 932-936 LoadedGraph *)
Record LoadedGraph := Mk { aggregate : Aggregate; document : RootDocument; descriptors : list SegmentDescriptor }.
End Loaded.
Abbreviation LoadedGraph := Loaded.LoadedGraph.

Section Load.
Context {W : Type} `{NodeReader W, MetadataReader W, Blake3, Json RootWire, Json (list SegmentWire)}.
Context (r : CellReplica).

(*@ cellule-ltx/src/replica/verify.rs 247-274 CellReplica::read_root_document *)
Definition read_root_document (root : LtxRootRef) (use_cache : bool) : ReadM W (RootDocument * option Z) :=
  _ ← pure (check_scope r root);
  '(bytes, cached_root) ← read_object (ltx_digest root) KRoot ROOT_BYTES use_cache;
  if negb (bool_decide (blake3 bytes = ltx_digest root)) then fail LtxErr.ChecksumMismatch
  else
    document ← pure (decode_root bytes);
    if negb (bool_decide (RootDoc.cell document = Replica.cell r))
       || negb (bool_decide (RootDoc.incarnation document = Replica.incarnation r))
       || negb (RootDoc.txid document =? position_txid root)
       || negb (RootDoc.checksum document =? position_checksum root)
       || negb (RootDoc.commit_sequence document =? ltx_commit_sequence root)
    then fail (LtxErr.InvalidState "Cell root reference mismatch")
    else if (is_empty (RootDoc.segment_pages document) && is_empty (RootDoc.segments document))
            || (MAX_SEGMENT_PAGES <? len (RootDoc.segment_pages document))
    then fail LtxErr.LTXCorrupted
    else mret (document, if cached_root : bool then Some (len bytes) else None).

(** One page of descriptors, with its size when it came from the cache. *)
(*@ cellule-ltx/src/replica/verify.rs 288-300 CellReplica::load_graph_document *)
Definition read_segment_page (use_cache : bool) (digest : Digest) : ReadM W (list SegmentDescriptor * option (Digest * Z)) :=
  '(bytes, cached) ← read_object digest KRoot SEGMENT_PAGE_BYTES use_cache;
  if negb (bool_decide (blake3 bytes = digest)) then fail LtxErr.ChecksumMismatch
  else
    page ← pure (decode_segment_page bytes);
    if is_empty page || (SEGMENTS_PER_PAGE <? len page) then fail LtxErr.LTXCorrupted
    else mret (page, if cached : bool then Some (digest, len bytes) else None).

(** [buffered]: the results in the order of the digests. *)
(*@ cellule-ltx/src/replica/verify.rs 283-304 CellReplica::load_graph_document *)
Fixpoint read_segment_pages (use_cache : bool) (digests : list Digest)
  : ReadM W (list (list SegmentDescriptor * option (Digest * Z))) :=
  match digests with
  | [] => mret []
  | digest :: digests =>
      page ← read_segment_page use_cache digest;
      pages ← read_segment_pages use_cache digests;
      mret (page :: pages)
  end.

(*@ cellule-ltx/src/replica/verify.rs 459-480 CellReplica::verify_cached_metadata *)
Fixpoint verify_cached_metadata (objects : list (Digest * Z)) : ReadM W unit :=
  match objects with
  | [] => mret tt
  | (digest, size) :: objects =>
      found ← head_object digest;
      if negb (found =? size) then fail LtxErr.LTXCorrupted else verify_cached_metadata objects
  end.

Definition option_list {A} (o : option A) : list A := match o with Some a => [a] | None => [] end.

(*@ cellule-ltx/src/replica/verify.rs 276-363 CellReplica::load_graph_document *)
Definition load_graph_document (root : LtxRootRef) (use_cache : bool) (document : RootDocument) (cached_root : option Z)
  : ReadM W LoadedGraph :=
  pages ← read_segment_pages use_cache (RootDoc.segment_pages document);
  let cached_metadata := option_list (pair (ltx_digest root) <$> cached_root) ++ concat (map (fun p => option_list p.2) pages) in
  let descriptors := concat (map fst pages) ++ RootDoc.segments document in
  _ ← verify_cached_metadata cached_metadata;
  _ ← pure (validate_chain (Replica.limits r) descriptors (position root));
  _ ← pure (validate_descriptors descriptors (Replica.limits r));
  endpoint ← pure (ok_or (last descriptors) LtxErr.LTXCorrupted);
  if negb (RootDoc.page_size document =? Segment.page_size (Desc.info endpoint))
     || negb (RootDoc.database_pages document =? Segment.database_pages (Desc.info endpoint))
     || (RootDoc.schema document =? 0)
  then fail LtxErr.LTXCorrupted
  else
    extents ← pure (object_extents descriptors);
    aggregate ← verify_root
      (Ver.Mk (RootDoc.page_size document) (RootDoc.database_pages document) (RootDoc.directory_inline document) extents)
      (RootDoc.directory_digest document) (RootDoc.directory_height document);
    if negb (Agg.checksum aggregate =? RootDoc.checksum document) then fail LtxErr.ChecksumMismatch
    else mret (Loaded.Mk aggregate document descriptors).

(** Timing the call has no influence on it. *)
(*@ cellule-ltx/src/replica/verify.rs 233-245 CellReplica::load_graph_with_cache *)
Definition load_graph_with_cache (root : LtxRootRef) (use_cache : bool) : ReadM W LoadedGraph :=
  '(document, cached_root) ← read_root_document root use_cache;
  load_graph_document root use_cache document cached_root.

(*@ cellule-ltx/src/replica/verify.rs 229-231 CellReplica::load_graph *)
Definition load_graph (root : LtxRootRef) : ReadM W LoadedGraph := load_graph_with_cache root true.
End Load.

(** ** Views *)

Module Paged.
(** The replica itself is left out. *)
(*@ cellule-ltx/src/replica/mod.rs 352-362 CellPagedDatabase *)
Record CellPagedDatabase := Mk {
  directory_digest : Digest;
  directory_height : Z;
  directory_inline : option (list byte);
  extents : Extents;
  shared_segments : list SegmentDescriptor;
  page_size : Z;
  database_pages : Z;
  position : Position
}.
End Paged.
Abbreviation CellPagedDatabase := Paged.CellPagedDatabase.

Module View.
(*@ cellule-ltx/src/replica/mod.rs 275-283 VerifiedRoot *)
Record VerifiedRoot := Mk {
  root : LtxRootRef;
  page_size : Z;
  database_pages : Z;
  schema : Z;
  segment_count : Z;
  directory_height : Z;
  pages : CellPagedDatabase
}.
End View.
Abbreviation VerifiedRoot := View.VerifiedRoot.

(*@ cellule-ltx/src/replica/verify.rs 484-517 VerifiedRoot::from_graph *)
Definition from_graph (root : LtxRootRef) (document : RootDocument) (descriptors : list SegmentDescriptor) : LtxResult VerifiedRoot :=
  extents ← object_extents descriptors;
  Ok (View.Mk root (RootDoc.page_size document) (RootDoc.database_pages document) (RootDoc.schema document) (len descriptors)
        (RootDoc.directory_height document)
        (Paged.Mk (RootDoc.directory_digest document) (RootDoc.directory_height document) (RootDoc.directory_inline document)
           extents (List.filter (fun d => bool_decide (object_kind d = KSharedPacked)) descriptors)
           (RootDoc.page_size document) (RootDoc.database_pages document) (position root))).

(*@ cellule-ltx/src/replica/verify.rs 16-19 CellReplica::open_root *)
Definition open_root {W} `{NodeReader W, MetadataReader W, Blake3, Json RootWire, Json (list SegmentWire)}
    (r : CellReplica) (root : LtxRootRef) : ReadM W VerifiedRoot :=
  graph ← load_graph r root;
  pure (from_graph root (Loaded.document graph) (Loaded.descriptors graph)).

(** ** The replica's reader

    The requests to the origin by kind and digest. *)

Class ObjectStore (E : Type) := {
  store_get : CellObjectKind -> Digest -> Z -> ReadM E (list byte);
  store_head : CellObjectKind -> Digest -> ReadM E Z
}.

Section ReplicaReader.
Context {E : Type} `{NodeStore E, ObjectStore E, Blake3}.

Definition metadata_get (digest : Digest) (kind : CellObjectKind) : ReadM (ReaderState E) (option (list byte)) :=
  fun w => (w, Immutable.get cache_identity incarnation_object_path (bands w) digest kind).
Definition metadata_insert (digest : Digest) (kind : CellObjectKind) (bytes : list byte) : ReadM (ReaderState E) unit :=
  fun w => match Immutable.insert cache_identity incarnation_object_path (bands w) digest kind bytes with
           | Ok (b, _) => (MkReader b (env w), Ok tt)
           | Err e => (w, Err e)
           end.

(*@ cellule-ltx/src/replica/verify.rs 428-456 CellReplica::read_object *)
Definition read_origin (digest : Digest) (kind : CellObjectKind) (max_bytes : Z) : ReadM (ReaderState E) (list byte * bool) :=
  _ ← host io_permit;
  bytes ← host (store_get kind digest max_bytes);
  if bool_decide (kind = KRoot) then
    if negb (bool_decide (blake3 bytes = digest)) then fail LtxErr.ChecksumMismatch
    else _ ← metadata_insert digest kind bytes; mret (bytes, false)
  else mret (bytes, false).

(*@ cellule-ltx/src/replica/verify.rs 409-457 CellReplica::read_object *)
Definition replica_read_object (digest : Digest) (kind : CellObjectKind) (max_bytes : Z) (use_cache : bool)
  : ReadM (ReaderState E) (list byte * bool) :=
  if use_cache && bool_decide (kind = KRoot) then
    cached ← metadata_get digest kind;
    match cached with
    | Some bytes => if max_bytes <? len bytes then fail LtxErr.LTXCorrupted else mret (bytes, true)
    | None => read_origin digest kind max_bytes
    end
  else read_origin digest kind max_bytes.

(*@ cellule-ltx/src/replica/verify.rs 461-471 CellReplica::verify_cached_metadata *)
Definition replica_head_object (digest : Digest) : ReadM (ReaderState E) Z :=
  _ ← host io_permit; host (store_head KRoot digest).

#[global] Instance replica_metadata : MetadataReader (ReaderState E) :=
  {| read_object := replica_read_object; head_object := replica_head_object |}.
End ReplicaReader.

(** * Proofs *)

(** ** What a metadata reader promises

    [meta] are the metadata objects at hand. Whether the answer came from a cache is
    left open. *)
Lemma run_bind {W A B} (m : ReadM W A) (f : A -> ReadM W B) w :
  (m ≫= f) w = match m w with (w, Ok a) => f a w | (w, Err e) => (w, Err e) end.
Proof. done. Qed.

Section Obtain.
Context {W : Type} `{HR : NodeReader W, HB : Blake3} (known : list byte -> Prop) `{!ReaderLaws W known}.

(** [m] ends in some result with [P], unless the reader fails on the way. *)
Definition obtains {A} (m : ReadM W A) (P : A -> Prop) : Prop := forall w, reader_ok w ->
  reader_ok (m w).1 /\ (faulty (m w).1 -> faulty w)
  /\ ((exists a, (m w).2 = Ok a /\ P a) \/ faulty w /\ exists e, (m w).2 = Err e).

Lemma obtains_ret {A} (a : A) (P : A -> Prop) : P a -> obtains (mret a) P.
Proof. intros Ha w Hw. split_and!; [done..|]. left. by exists a. Qed.
Lemma obtains_bind {A B} (m : ReadM W A) (f : A -> ReadM W B) P Q :
  obtains m P -> (forall a, P a -> obtains (f a) Q) -> obtains (m ≫= f) Q.
Proof.
  intros Hm Hf w Hw. destruct (Hm w Hw) as (H1 & H2 & H3). unfold mbind, readm_bind.
  destruct (m w) as [w' [a|e]]; cbn [fst snd] in *.
  - destruct H3 as [(a' & [= <-] & Ha)|[_ [e ?]]]; [|done]. destruct (Hf a Ha w' H1) as (F1 & F2 & F3).
    split_and!; [done|by auto|]. destruct F3 as [?|[? ?]]; [by left|right; auto].
  - split_and!; [done..|]. destruct H3 as [(a & ? & _)|[? _]]; [done|]. right. split; [done|by exists e].
Qed.
Lemma obtains_computes {A B} (m : ReadM W A) (f : A -> ReadM W B) P res :
  obtains m P -> (forall a, P a -> computes known (f a) res) -> computes known (m ≫= f) res.
Proof.
  intros Hm Hf w Hw. destruct (Hm w Hw) as (H1 & H2 & H3). unfold mbind, readm_bind.
  destruct (m w) as [w' [a|e]]; cbn [fst snd] in *.
  - destruct H3 as [(a' & [= <-] & Ha)|[_ [e ?]]]; [|done]. destruct (Hf a Ha w' H1) as (F1 & F2 & F3).
    split_and!; [done|by auto|]. destruct F3 as [?|[? ?]]; [by left|right; auto].
  - split_and!; [done..|]. destruct H3 as [(a & ? & _)|[? _]]; [done|]. right. split; [done|by exists e].
Qed.
Lemma obtains_eq {A} (m : ReadM W A) a : obtains m (fun x => x = a) -> computes known m (Ok a).
Proof.
  intros Hm w Hw. destruct (Hm w Hw) as (H1 & H2 & H3). split_and!; [done..|]. destruct H3 as [(x & -> & ->)|?]; [by left|by right].
Qed.
End Obtain.

Class MetaLaws (W : Type) `{NodeReader W, MetadataReader W, Blake3} (known meta : list byte -> Prop) `{!ReaderLaws W known} := {
  read_object_exact use_cache b max : meta b -> len b <= max ->
    obtains known (read_object (blake3 b) KRoot max use_cache) (fun x => x.1 = b);
  head_object_exact b : meta b -> computes known (head_object (blake3 b)) (Ok (len b))
}.

Section LoadProofs.
Context {W : Type} `{HR : NodeReader W, HM : MetadataReader W, HB : Blake3, JR : Json RootWire, JS : Json (list SegmentWire)}.
Context `{!JsonLaws RootWire root_wire_width, !JsonLaws (list SegmentWire) (Forall segment_wire_width)}.
Context (known meta : list byte -> Prop) `{!ReaderLaws W known, !MetaLaws W known meta} (r : CellReplica).

Abbreviation computes := (computes known).

Lemma computes_object {A} use_cache b max (f : list byte * bool -> ReadM W A) res :
  meta b -> len b <= max -> (forall c, computes (f (b, c)) res) -> computes (read_object (blake3 b) KRoot max use_cache ≫= f) res.
Proof.
  intros Hb Hl Hf. eapply obtains_computes; [by apply read_object_exact|]. intros [b' c] Hx. cbn in Hx. by subst b'.
Qed.

Lemma computes_assoc {A B C} (m : ReadM W A) (g : A -> ReadM W B) (f : B -> ReadM W C) res :
  computes (m ≫= fun x => g x ≫= f) res -> computes ((m ≫= g) ≫= f) res.
Proof.
  intros Hc w Hw. specialize (Hc w Hw).
  assert (((m ≫= g) ≫= f) w = (m ≫= fun x => g x ≫= f) w) as ->; [|done].
  unfold mbind, readm_bind. by destruct (m w) as [w' [a|e]].
Qed.

(** The pages of descriptors under their digests. *)
Definition page_of (d : Digest) (page : list SegmentDescriptor) : Prop :=
  exists b, meta b /\ blake3 b = d /\ encode_segment_page page = Ok b /\ Forall descriptor_width page /\ 0 < len page <= SEGMENTS_PER_PAGE.
(** What is cached has the size of the object. *)
Definition sized (x : Digest * Z) : Prop := exists b, meta b /\ x = (blake3 b, len b).

Lemma computes_page {A} use_cache d page (f : list SegmentDescriptor * option (Digest * Z) -> ReadM W A) res :
  page_of d page -> (forall c, (forall x, c = Some x -> sized x) -> computes (f (page, c)) res) ->
  computes (read_segment_page use_cache d ≫= f) res.
Proof.
  intros (b & Hb & <- & He & Hw & Hn) Hf. unfold read_segment_page.
  assert (len b <= SEGMENT_PAGE_BYTES) as Hl.
  { unfold encode_segment_page in He. by apply bind_Ok in He as (b' & _ & [?%Z.ltb_ge [= ->]]%reject_Ok). }
  apply computes_assoc, computes_object; [done|done|]. intros c. cbv beta iota.
  rewrite bool_decide_eq_true_2 by done. cbn [negb]. rewrite (proj2 (decode_segment_page_Ok b page) (conj He Hw)).
  apply computes_assoc. eapply computes_bind_Ok; [apply computes_pure|]. cbv beta.
  rewrite (proj2 (Z.ltb_ge _ (len page))) by lia. destruct page as [|x page]; [by destruct Hn|]. cbn [is_empty orb].
  eapply computes_bind_Ok; [apply computes_ret|]. apply Hf. destruct c; [|done]. intros y [= <-]. by exists b.
Qed.

Lemma computes_pages {A} use_cache ds pages : Forall2 page_of ds pages ->
  forall (f : list (list SegmentDescriptor * option (Digest * Z)) -> ReadM W A) res,
  (forall ps, map fst ps = pages -> Forall sized (concat (map (fun p => option_list p.2) ps)) -> computes (f ps) res) ->
  computes (read_segment_pages use_cache ds ≫= f) res.
Proof.
  induction 1 as [|d page ds pages Hd _ IH]; intros f res Hf; cbn [read_segment_pages].
  { eapply computes_bind_Ok; [apply computes_ret|]. by apply Hf. }
  apply computes_assoc. apply (computes_page use_cache d page); [done|]. intros c Hc. apply computes_assoc.
  apply IH. intros ps Hps Hs. eapply computes_bind_Ok; [apply computes_ret|]. apply Hf; [by cbn; rewrite Hps|].
  cbn [map concat snd]. apply Forall_app. split; [|done]. destruct c as [x|]; [|constructor]. constructor; [by apply Hc|constructor].
Qed.

Lemma computes_cached objs : Forall sized objs -> computes (verify_cached_metadata objs) (Ok tt).
Proof.
  induction 1 as [|x objs (b & Hb & ->) _ IH]; [apply computes_ret|]. cbn [verify_cached_metadata].
  eapply computes_bind_Ok; [by apply head_object_exact|]. cbv beta. by rewrite Z.eqb_refl.
Qed.

(** A root that was published: its bytes and its pages are at hand and it says what
    the reference says. *)
Record published (root : LtxRootRef) (doc : RootDocument) (pages : list (list SegmentDescriptor)) : Prop := {
  pb_scope : check_scope r root = Ok tt;
  pb_bytes : exists b, meta b /\ blake3 b = ltx_digest root /\ encode_root doc = Ok b;
  pb_width : root_width doc;
  pb_cell : RootDoc.cell doc = Replica.cell r;
  pb_incarnation : RootDoc.incarnation doc = Replica.incarnation r;
  pb_position : Pos.Mk (RootDoc.txid doc) (RootDoc.checksum doc) = position root;
  pb_sequence : RootDoc.commit_sequence doc = ltx_commit_sequence root;
  pb_pages : Forall2 page_of (RootDoc.segment_pages doc) pages
}.

(** The verification its directory is read with. *)
Definition document_verification (doc : RootDocument) (extents : Extents) : Verification :=
  Ver.Mk (RootDoc.page_size doc) (RootDoc.database_pages doc) (RootDoc.directory_inline doc) extents.

(** The rules for its segments. *)
Record chain_ok (root : LtxRootRef) (doc : RootDocument) (ds : list SegmentDescriptor) (extents : Extents) : Prop := {
  ch_chain : validate_chain (Replica.limits r) ds (position root) = Ok tt;
  ch_published : validate_descriptors ds (Replica.limits r) = Ok tt;
  ch_last : exists d, last ds = Some d /\ Segment.page_size (Desc.info d) = RootDoc.page_size doc
                      /\ Segment.database_pages (Desc.info d) = RootDoc.database_pages doc;
  ch_extents : object_extents ds = Ok extents
}.

Lemma computes_document {A} root doc pages use_cache (f : RootDocument * option Z -> ReadM W A) res : published root doc pages ->
  (forall c, (forall n, c = Some n -> sized (ltx_digest root, n)) -> computes (f (doc, c)) res) ->
  computes (read_root_document r root use_cache ≫= f) res.
Proof.
  intros [Hscope (b & Hb & Hd & He) Hw Hcell Hinc Hpos Hseq _] Hf. pose proof He as (Hv & _ & Hl)%encode_root_Ok.
  unfold read_root_document. rewrite Hscope. apply computes_assoc. eapply computes_bind_Ok; [apply computes_pure|]. cbv beta.
  rewrite <- Hd. apply computes_assoc, computes_object; [done|done|]. intros c. cbv beta iota.
  rewrite bool_decide_eq_true_2 by done. cbn [negb]. apply computes_assoc.
  rewrite (proj2 (decode_root_Ok b doc) (conj He Hw)). eapply computes_bind_Ok; [apply computes_pure|]. cbv beta.
  unfold position in Hpos. injection Hpos as Ht Hc.
  rewrite !bool_decide_eq_true_2, Ht, Hc, Hseq, !Z.eqb_refl by done. cbn [negb orb].
  destruct Hv as (_ & _ & _ & _ & _ & _ & Hsome & Hpages & _). rewrite (proj2 (Z.ltb_ge _ (len (RootDoc.segment_pages doc)))) by done.
  rewrite orb_false_r.
  assert (is_empty (RootDoc.segment_pages doc) && is_empty (RootDoc.segments doc) = false) as ->.
  { destruct (RootDoc.segment_pages doc), (RootDoc.segments doc); [by vm_compute in Hsome|done..]. }
  eapply computes_bind_Ok; [apply computes_ret|]. apply Hf. destruct c; [|done]. intros n [= <-]. exists b. split; [done|by rewrite Hd].
Qed.

Lemma load_computes root doc pages extents es use_cache : let ds := concat pages ++ RootDoc.segments doc in
  let v := document_verification doc extents in
  published root doc pages -> chain_ok root doc ds extents ->
  admits v -> 0 <= RootDoc.directory_height doc <= 3 ->
  tree known v (Z.to_nat (RootDoc.directory_height doc)) (RootDoc.directory_digest doc) es ->
  computes (load_graph_with_cache r root use_cache)
    (if negb (len es =? expected_pages (RootDoc.page_size doc) (RootDoc.database_pages doc))
        || negb (xor_sum (map DirEntry.checksum es) =? RootDoc.checksum doc)
     then Err LtxErr.ChecksumMismatch else Ok (Loaded.Mk (leaf_agg es) doc ds)).
Proof.
  intros ds v Hp [Hchain Hpub (d & Hlast & Eps & Edp) Hext] Hv Hh Ht. unfold load_graph_with_cache.
  apply (computes_document root doc pages); [done|]. intros c Hc. cbv beta iota. unfold load_graph_document.
  apply (computes_pages use_cache _ pages); [apply Hp|]. intros ps Hps Hsz. cbv zeta. rewrite Hps. fold ds.
  eapply computes_bind_Ok.
  { apply computes_cached, Forall_app. split; [|done]. destruct c as [n|]; [|constructor]. constructor; [by apply Hc|constructor]. }
  rewrite Hchain, Hpub, Hlast. do 3 (eapply computes_bind_Ok; [apply computes_pure|]; cbv beta).
  rewrite Eps, Edp, !Z.eqb_refl. destruct Hp as [_ (b & _ & _ & [(_ & Hschema & _) _]%encode_root_Ok) _ _ _ _ _ _].
  rewrite (proj2 (Z.eqb_neq _ 0)) by done. cbn [negb orb]. rewrite Hext. eapply computes_bind_Ok; [apply computes_pure|]. cbv beta.
  fold (document_verification doc extents). fold v. pose proof (verify_root_computes known v _ _ es Hv Ht Hh) as Hvr.
  change (Ver.page_size v) with (RootDoc.page_size doc) in Hvr. change (Ver.database_pages v) with (RootDoc.database_pages doc) in Hvr.
  destruct (_ =? expected_pages _ _); cbn [negb orb].
  - eapply computes_bind_Ok; [exact Hvr|]. cbv beta. change (Agg.checksum (leaf_agg es)) with (xor_sum (map DirEntry.checksum es)).
    destruct (_ =? RootDoc.checksum doc); cbn [negb]; [apply computes_ret|apply computes_fail].
  - apply (computes_bind known _ _ (Err LtxErr.ChecksumMismatch) (fun _ => Err LtxErr.ChecksumMismatch)); [exact Hvr|done].
Qed.
End LoadProofs.

(** ** The replica keeps the promise *)

Class ObjectStoreLaws (E : Type) `{NodeStore E, ObjectStore E, Blake3} (objects known meta : list byte -> Prop) `{!StoreLaws E objects known} := {
  meta_known b : meta b -> known b;
  metadata_get_law d n e : (store_faulty (store_get KRoot d n e).1 -> store_faulty e)
    /\ match (store_get KRoot d n e).2 with Ok b => known b | Err _ => True end
    /\ (store_faulty e \/ forall b, meta b -> blake3 b = d -> len b <= n -> (store_get KRoot d n e).2 = Ok b);
  metadata_head_law b e : meta b -> (store_faulty (store_head KRoot (blake3 b) e).1 -> store_faulty e)
    /\ ((store_head KRoot (blake3 b) e).2 = Ok (len b) \/ store_faulty e /\ exists err, (store_head KRoot (blake3 b) e).2 = Err err)
}.

Section ReplicaReaderProofs.
Context {E : Type} `{HN : NodeStore E, HS : ObjectStore E, HB : Blake3} (objects known meta : list byte -> Prop).
Context `{HL : !StoreLaws E objects known} `{!ObjectStoreLaws E objects known meta}.
Context (objects_small : forall b, objects b -> len b <= MAX_NODE_BYTES).

Definition roots_ok (w : ReaderState E) : Prop := forall c, roots (bands w) = Some c ->
  forall d b, cache_get c (Immutable.key cache_identity incarnation_object_path d KRoot) = Some b -> known b /\ blake3 b = d.
Definition view_ok (w : ReaderState E) : Prop := state_ok known w /\ roots_ok w.
Definition view_faulty (w : ReaderState E) : Prop := state_faulty objects known w \/ roots (bands w) = None.

(** Reading nodes leaves the other band alone. *)
Definition keeps_roots {A} (m : ReadM (ReaderState E) A) : Prop := forall w, roots (bands (m w).1) = roots (bands w).
Lemma keeps_bind {A B} (m : ReadM (ReaderState E) A) (f : A -> ReadM (ReaderState E) B) :
  keeps_roots m -> (forall a, keeps_roots (f a)) -> keeps_roots (m ≫= f).
Proof.
  intros Hm Hf w. specialize (Hm w). unfold mbind, readm_bind. destruct (m w) as [w' [a|e]]; [|done]. by rewrite Hf.
Qed.
Lemma keeps_pure {A} (x : LtxResult A) : keeps_roots (pure x).
Proof. done. Qed.
Lemma keeps_host {A} (m : ReadM E A) : keeps_roots (host m).
Proof. intros w. unfold host. by destruct (m (env w)). Qed.
Lemma keeps_fill d b : keeps_roots (cache_fill d b).
Proof.
  intros w. unfold cache_fill, Immutable.insert. destruct (lock_band _ _) as [c|]; cbn [mbind result_bind]; [|done].
  by destruct (cache_insert _ _ _).
Qed.
Lemma read_node_keeps v d : keeps_roots (read_node_cached v d).
Proof.
  unfold read_node_cached. cbv zeta.
  repeat first [apply keeps_bind; intros | apply keeps_host | apply keeps_fill | apply keeps_pure | case_match | done].
Qed.

Program Definition view_laws v : @ReaderLaws (ReaderState E) cached_reader HB (nodes_with objects v) :=
  {| reader_ok := view_ok; faulty := view_faulty; admits := fun v' => v' = v /\ verification_ok known v |}.
Next Obligation. intros v ? [-> Hv] b Hb. by apply Hv. Qed.
Next Obligation.
  intros v ? d b w w' r [-> Hv] [Hw Hr] Hb <- Hread.
  pose proof (read_node_cached_gives objects known objects_small v b Hv Hb w Hw) as (H1 & H2 & H3).
  pose proof (read_node_keeps v (blake3 b) w) as Hk. unfold cached_reader, read_node in Hread. rewrite Hread in H1, H2, H3, Hk.
  cbn [fst snd] in *. unfold view_ok, view_faulty, roots_ok. rewrite Hk. split_and!; [done|done|tauto|]. tauto.
Qed.

Section OneView.
Context (v : Verification).
Abbreviation obtained := (@obtains _ cached_reader HB (nodes_with objects v) (view_laws v) _).

Lemma metadata_insert_law b : known b -> obtained (metadata_insert (blake3 b) KRoot b) (fun _ => True).
Proof.
  intros Hb w [Hs Hr]. cbn [reader_ok faulty view_laws]. unfold metadata_insert, Immutable.insert, lock_band, band. cbn [mbind result_bind].
  destruct (roots (bands w)) as [c|] eqn:Ec; cbn [ok_or mbind result_bind].
  2: { split_and!; [done|done|]. right. split; [by right|by eexists]. }
  destruct (cache_insert c _ b) as [c' b'] eqn:Ei. cbn [fst snd]. split_and!.
  - split; [exact Hs|]. intros c0 [= <-] d b0 Hg. cbn [bands] in *.
    pose proof (cache_insert_get c _ b _ b0 ltac:(rewrite Ei; exact Hg)) as [Hg'|[Hk ->]]; [by apply (Hr c Ec)|].
    unfold Immutable.key in Hk. injection Hk as _ ->. done.
  - intros [Hf|Hf]; [left; exact Hf|done].
  - left. by exists tt.
Qed.

(** A request to the host. *)
Lemma host_obtains {A} (m : ReadM E A) (P : A -> Prop) :
  (forall e, (store_faulty (m e).1 -> store_faulty e) /\ match (m e).2 with Ok a => store_faulty e \/ P a | Err _ => store_faulty e end) ->
  forall w, view_ok w -> view_ok (host m w).1 /\ (view_faulty (host m w).1 -> view_faulty w)
    /\ match (host m w).2 with Ok a => view_faulty w \/ P a | Err _ => view_faulty w end.
Proof.
  intros Hm w [H1 H2]. destruct (Hm (env w)) as [Hf Hr]. unfold host.
  destruct (m (env w)) as [e [a|x]]; cbn [fst snd] in *; unfold view_ok, view_faulty, state_faulty in *; cbn [bands env];
    split_and!; try done; tauto.
Qed.

Lemma permit_obtained : obtained (host io_permit) (fun _ => True).
Proof.
  intros w Hw. destruct (host_obtains io_permit (fun _ => True)) with (w := w) as (H1 & H2 & H3); [|exact Hw|].
  { intros e. destruct (permit_law e) as [Hf Hr]. split; [done|]. destruct Hr as [->|[? [err ->]]]; [by right|done]. }
  split_and!; [done|done|]. destruct (host io_permit w).2 as [a|x]; [left; by exists a|right]. split; [done|by exists x].
Qed.

(** What is answered is either the object or refused. *)
Lemma read_origin_obtained b max : meta b -> len b <= max -> obtained (read_origin (blake3 b) KRoot max) (fun x => x.1 = b).
Proof.
  intros Hb Hl. unfold read_origin. eapply obtains_bind; [apply permit_obtained|]. intros _ _ w Hw.
  destruct (host_obtains (store_get KRoot (blake3 b) max) (fun b' => b' = b)) with (w := w) as (H1 & H2 & H3); [|exact Hw|].
  { intros e. destruct (metadata_get_law (blake3 b) max e) as (Hf & _ & Hr). split; [done|].
    destruct Hr as [Hr|Hr]; [destruct (store_get _ _ _ e).2; tauto|]. rewrite (Hr b Hb eq_refl Hl). by right. }
  assert (match (host (store_get KRoot (blake3 b) max) w).2 with Ok b' => known b' | Err _ => True end) as Hk.
  { unfold host. destruct (metadata_get_law (blake3 b) max (env w)) as (_ & Hk & _). revert Hk. by destruct (store_get _ _ _ (env w)). }
  rewrite run_bind. cbn [reader_ok faulty view_laws] in *.
  destruct (host (store_get KRoot (blake3 b) max) w) as [w' [b'|x]]; cbn [fst snd] in *.
  2: { split_and!; [done|done|]. right. split; [done|by exists x]. }
  rewrite (bool_decide_eq_true_2 (KRoot = KRoot)) by done. destruct (bool_decide_reflect (blake3 b' = blake3 b)) as [Hd|Hd]; cbn [negb].
  - assert (b' = b) as -> by (eapply known_digests; [done|by apply meta_known|done]).
    destruct (obtains_bind (HR := cached_reader) (ReaderLaws0 := view_laws v) (nodes_with objects v) (metadata_insert (blake3 b) KRoot b) (fun _ => mret (b, false)) (fun _ => True) (fun x => x.1 = b)
      (metadata_insert_law b Hk) (fun _ _ => obtains_ret (HR := cached_reader) (ReaderLaws0 := view_laws v) _ (b, false) (fun x => x.1 = b) eq_refl) w' H1) as (F1 & F2 & F3).
    cbn [reader_ok faulty view_laws] in *. split_and!; [done|tauto|]. destruct F3 as [?|[? ?]]; [by left|right; tauto].
  - split_and!; [done|done|]. right. split; [|by eexists]. destruct H3 as [?| ->]; done.
Qed.

Lemma read_object_obtained use_cache b max : meta b -> len b <= max ->
  obtained (replica_read_object (blake3 b) KRoot max use_cache) (fun x => x.1 = b).
Proof.
  intros Hb Hl. unfold replica_read_object. destruct (use_cache && _); [|by apply read_origin_obtained]. intros w Hw.
  rewrite run_bind. unfold metadata_get, Immutable.get, lock_band, band. cbn [mbind result_bind].
  destruct (roots (bands w)) as [c|] eqn:Ec; cbn [ok_or mbind result_bind].
  2: { split_and!; [done|done|]. right. split; [by right|by eexists]. }
  destruct (cache_get c _) as [b'|] eqn:Eg; [|by apply read_origin_obtained].
  destruct (proj2 Hw c Ec _ _ Eg) as [Hk Hd]. assert (b' = b) as -> by (eapply known_digests; [done|by apply meta_known|done]).
  rewrite (proj2 (Z.ltb_ge _ _)) by lia. split_and!; [done|done|]. left. by exists (b, true).
Qed.

Lemma head_object_computes b : meta b ->
  @computes _ cached_reader HB (nodes_with objects v) (view_laws v) _ (replica_head_object (blake3 b)) (Ok (len b)).
Proof.
  intros Hb. unfold replica_head_object. eapply obtains_computes; [apply permit_obtained|]. intros _ _ w Hw.
  destruct (host_obtains (store_head KRoot (blake3 b)) (fun n => n = len b)) with (w := w) as (H1 & H2 & H3); [|exact Hw|].
  { intros e. destruct (metadata_head_law b e Hb) as [Hf Hr]. split; [done|]. destruct Hr as [->|[? [err ->]]]; [by right|done]. }
  assert ((host (store_head KRoot (blake3 b)) w).2 = Ok (len b) \/ exists e, (host (store_head KRoot (blake3 b)) w).2 = Err e) as Hc.
  { unfold host. destruct (metadata_head_law b (env w) Hb) as [_ Hr]. revert Hr. destruct (store_head _ _ (env w)) as [e x]. cbn. tauto. }
  split_and!; [done|done|]. destruct Hc as [->|[e He]]; [by left|right]. rewrite He in H3. split; [done|by exists e].
Qed.

Definition view_meta_laws : @MetaLaws (ReaderState E) cached_reader replica_metadata HB (nodes_with objects v) meta (view_laws v).
Proof. split; [intros; by apply read_object_obtained|intros; by apply head_object_computes]. Qed.
End OneView.
End ReplicaReaderProofs.
