(* ===== verification/Segments.v ===== *)
(** * Segments: the locators of published segments are admissible

    What [object_extents] computes, and that the locators of validated indexes,
    replayed over a chain of segments, are entries the directory accepts: within
    the database, off the lock page, in ascending order, and within a range some
    segment of the object covers. *)

From Stdlib Require Import ZArith Lia.
From Stdlib Require Import Strings.Byte.
From stdpp Require Import base gmap strings numbers sorting.
From stdpp Require Import list.
From S2P Require Import Prelude OrdMap Bytes Identity Text LtxTypes Lz4 Ltx LtxCodec PagedIndex DirectoryNode Directory DirectoryShape DirectoryUpdate Root Merge.

Local Open Scope bool_scope.

(** ** Extents *)

(** The extents have the range of a descriptor. *)
Definition has_range (exts : Extents) (d : SegmentDescriptor) : Prop :=
  exists x, exts !! Desc.object_digest d = Some x /\ DirectoryNode.kind x = object_kind d /\
    (Desc.offset d, Desc.offset d + Desc.length d) ∈ ranges x.
(** One set of extents has all the ranges of another. *)
Definition extends (a b : Extents) : Prop := forall k x, a !! k = Some x ->
  exists y, b !! k = Some y /\ DirectoryNode.kind y = DirectoryNode.kind x /\ forall r, r ∈ ranges x -> r ∈ ranges y.

#[global] Instance extends_preorder : PreOrder extends.
Proof.
  split.
  - intros a k x Hx. by exists x.
  - intros a b c Hab Hbc k x Hx. destruct (Hab k x Hx) as (y & Hy & Hk & Hr). destruct (Hbc k y Hy) as (z & Hz & Hk' & Hr').
    exists z. split_and!; [done|congruence|auto].
Qed.
Lemma has_range_extends a b d : extends a b -> has_range a d -> has_range b d.
Proof.
  intros He (x & Hx & Hk & Hr). destruct (He _ _ Hx) as (y & Hy & Hk' & Hr'). exists y. split_and!; [done|congruence|auto].
Qed.
Lemma extends_insert (a : Extents) k y :
  (forall x, a !! k = Some x -> DirectoryNode.kind y = DirectoryNode.kind x /\ forall r, r ∈ ranges x -> r ∈ ranges y) -> extends a (<[k := y]> a).
Proof.
  intros Hy k' x Hx. destruct (decide (k' = k)) as [->|N].
  - exists y. rewrite lookup_insert_eq. destruct (Hy x Hx). done.
  - exists x. by rewrite lookup_insert_ne.
Qed.

Lemma extents_loop_ok ds exts exts' : extents_loop ds exts = Ok exts' ->
  extends exts exts' /\ Forall (fun d => has_range exts' d /\ Desc.offset d + Desc.length d <= u64_max) ds.
Proof.
  revert exts. induction ds as [|d ds IH]; intros exts; cbn [extents_loop object_extent].
  { intros [= <-]. split; [done|constructor]. }
  intros (en & Hen%ok_or_Ok & H)%bind_Ok. apply checked_add_u64_Some in Hen as [-> Hle].
  assert (Hgo : forall exts1, extends exts exts1 -> has_range exts1 d -> extents_loop ds exts1 = Ok exts' ->
            extends exts exts' /\ Forall (fun d => has_range exts' d /\ Desc.offset d + Desc.length d <= u64_max) (d :: ds)).
  { intros exts1 He1 Hr1 H1. destruct (IH exts1 H1) as [He Hf]. split; [by transitivity exts1|].
    constructor; [|done]. split; [by eapply has_range_extends|lia]. }
  destruct (exts !! Desc.object_digest d) as [x|] eqn:Ex.
  - apply reject_Ok in H as [Hk H]. apply negb_false_iff, bool_decide_eq_true in Hk.
    destruct (existsb _ (ranges x)) eqn:Ee.
    + apply (Hgo exts); [done| |exact H]. apply existsb_exists in Ee as ([s f] & Hin & Hr). apply list_elem_of_In in Hin.
      cbn [fst snd] in Hr. guards_in Hr. exists x. split_and!; [done|done|]. destruct Hr as [<- <-]. done.
    + apply (Hgo (<[Desc.object_digest d := MkExtent (object_kind d) (ranges x ++ [(Desc.offset d, Desc.offset d + Desc.length d)])]> exts)); [| |exact H].
      * apply extends_insert. intros x' [= <-]%(eq_trans (eq_sym Ex)). split; [done|]. cbn. set_solver.
      * eexists. rewrite lookup_insert_eq. split_and!; [done|done|]. cbn. set_solver.
  - apply (Hgo (<[Desc.object_digest d := MkExtent (object_kind d) [(Desc.offset d, Desc.offset d + Desc.length d)]]> exts)); [| |exact H].
    + apply extends_insert. intros x' Hx'. congruence.
    + eexists. rewrite lookup_insert_eq. split_and!; [done|done|]. cbn. set_solver.
Qed.

Lemma object_extents_ok ds exts : object_extents ds = Ok exts ->
  Forall (fun d => has_range exts d /\ Desc.offset d + Desc.length d <= u64_max) ds.
Proof.
  unfold object_extents. intros (exts0 & H0 & [_ [= <-]]%reject_Ok)%bind_Ok. apply extents_loop_ok in H0 as [_ Hf].
  eapply Forall_impl; [exact Hf|]. cbn beta. intros d [(x & Hx & Hk & Hr) Hle]. split; [|done].
  exists (sort_ranges x). rewrite lookup_fmap, Hx. split_and!; [done|done|]. cbn. by rewrite sort_by_perm.
Qed.

(** ** Locators *)

(** The fields of an index entry have their widths. *)
Lemma decode_index_entry_widths c e : decode_index_entry c = Ok e ->
  u32_ok (IndexEntry.page e) /\ u64_ok (IndexEntry.offset e) /\ u64_ok (IndexEntry.size e) /\ u64_ok (IndexEntry.checksum e).
Proof.
  unfold decode_index_entry. intros H.
  repeat (let Hx := fresh "Hx" in let x := fresh in rewrite bind_Ok in H; destruct H as (x & Hx & H); apply ok_or_Ok in Hx).
  injection H as <-. cbn. unfold u32_ok, u64_ok, u32_max, u64_max.
  repeat match goal with Hx : get_be _ _ _ = Some _ |- _ => apply get_be_Some in Hx as [Hx _] end.
  change (256 ^ Z.of_nat 4) with 4294967296 in *. change (256 ^ Z.of_nat 8) with 18446744073709551616 in *. lia.
Qed.

(** What validation and location establish of an entry. *)
Record located_in (d : SegmentDescriptor) (e : DirectoryEntry) : Prop := {
  li_widths : entry_widths e;
  li_page : 0 < DirEntry.page e <= Segment.database_pages (Desc.info d);
  li_lock : DirEntry.page e <> lock_pgno (Segment.page_size (Desc.info d));
  li_object : DirEntry.object e = Desc.object_digest d;
  li_start : Desc.offset d <= DirEntry.offset e;
  li_end : DirEntry.offset e + DirEntry.length e <= Desc.offset d + Segment.size_bytes (Desc.info d);
  li_length : DirEntry.length e <> 0
}.

Lemma locate_entry d v c e v' e' l :
  PagedIndex.info v = Desc.info d -> 0 <= PagedIndex.previous_page v -> 0 <= Segment.size_bytes (Desc.info d) ->
  decode_index_entry c = Ok e -> validate_entry v e = Ok (v', e') -> locator d e' = Ok l -> 0 <= Desc.offset d -> located_in d l.
Proof.
  intros Hi Hp Hsz (W1 & W2 & W3 & W4)%decode_index_entry_widths Hv Hl Hoff. unfold validate_entry in Hv. rewrite Hi in Hv.
  apply bind_Ok in Hv as (mx & _ & (en & Hen%ok_or_Ok & [Hg [= <- <-]]%reject_Ok)%bind_Ok).
  rewrite !orb_false_iff in Hg. destruct Hg as [[[[[H1 H2] H3] _] H5] H6]. apply checked_add_u64_Some in Hen as [-> Hen].
  apply negb_false_iff, andb_true_iff in H5 as [H5 _]. rewrite Z.leb_gt in H1. rewrite Z.ltb_ge in H2, H6. rewrite Z.eqb_neq in H3. rewrite Z.leb_le in H5.
  unfold locator in Hl. apply bind_Ok in Hl as (o & Ho%ok_or_Ok & (n & Hn & [= <-])%bind_Ok). apply checked_add_u64_Some in Ho as [-> Ho].
  apply try_u32_Ok in Hn as [Hn ->]. unfold saturating_sub_u, FRAME_PREFIX, PAGE_HEADER_SIZE, TRAILER_SIZE, u32_ok, u64_ok in *.
  constructor; cbn; try lia; [|done]. constructor; cbn; unfold u32_ok, u64_ok; lia.
Qed.

Lemma stream_located d cs v : PagedIndex.info v = Desc.info d -> 0 <= PagedIndex.previous_page v ->
  0 <= Segment.size_bytes (Desc.info d) -> 0 <= Desc.offset d -> Forall (located_in d) (stream d v cs).1.
Proof.
  intros Hi Hp Hsz Hoff. revert v Hi Hp. induction cs as [|c cs IH]; intros v Hi Hp; [constructor|]. cbn [stream].
  destruct (_ ≫= _) as [[v' l]|x] eqn:E; [|constructor]. cbn [fst].
  apply bind_Ok in E as (e & He & ([v1 e1] & Hv & (l1 & Hl & [= <- <-])%bind_Ok)%bind_Ok).
  constructor; [by eapply locate_entry|]. apply validate_entry_page in Hv as (-> & Hinfo & Hprev & Hlt). apply IH; [congruence|lia].
Qed.

Lemma input_located i es : descriptor_width (DirInput.descriptor i) -> input_locators i = Ok es -> Forall (located_in (DirInput.descriptor i)) es.
Proof.
  intros Hw H%input_locators_source. unfold input_source, validated_index_entries in H.
  apply bind_Ok in H as (it & (cs & _ & [= <-])%bind_Ok & [= H]). unfold index_source in H. cbn in H.
  destruct Hw as (_ & _ & _ & _ & _ & _ & Hsz & _ & Hoff & _). unfold u64_ok in *.
  pose proof (stream_located (DirInput.descriptor i) cs (validator_new (Desc.info (DirInput.descriptor i))) eq_refl ltac:(cbn; lia) ltac:(lia) ltac:(lia)) as Hf.
  by rewrite H in Hf.
Qed.

(** ** Replayed segments *)

Lemma replay_elem l p e : Forall source_ok l -> (p, e) ∈ replay l -> p = DirEntry.page e /\ exists x, x ∈ l /\ e ∈ x.2.
Proof.
  intros Hl Hin. split.
  { pose proof (replay_paged l) as Hp. unfold paged in Hp. rewrite Forall_forall in Hp. by apply (Hp _ Hin). }
  induction l as [|x l IH] using rev_ind; [by apply elem_of_nil in Hin|]. apply Forall_app in Hl as [Hl Hx]. apply Forall_cons in Hx as [Hx _].
  apply om_lookup_elem in Hin; [|apply replay_sorted]. rewrite replay_snoc_lookup in Hin by done.
  destruct (om_lookup p (keyed x.2)) as [e'|] eqn:E.
  - injection Hin as ->. apply keyed_lookup_page in E as [E _]. exists x. set_solver.
  - destruct (p <=? x.1); [|done]. apply om_lookup_elem in Hin; [|apply replay_sorted]. destruct (IH Hl Hin) as (y & Hy & He).
    exists y. set_solver.
Qed.
Lemma replay_last_bound l x p e : Forall source_ok l -> last l = Some x -> (p, e) ∈ replay l -> p <= x.1.
Proof.
  intros Hl [l' ->]%last_Some Hin. apply Forall_app in Hl as [Hl Hx]. apply Forall_cons in Hx as [Hx _].
  apply om_lookup_elem in Hin; [|apply replay_sorted]. rewrite replay_snoc_lookup in Hin by done.
  destruct (om_lookup p (keyed x.2)) as [e'|] eqn:E.
  - apply keyed_lookup_page in E as [E <-]. destruct Hx as (_ & _ & Hf). rewrite Forall_forall in Hf. by apply Hf.
  - destruct (Z.leb_spec p x.1); [done|]. done.
Qed.

(** A chain of published segments whose last has the page count of [v]. The index
    checksums carry their flag, which the writer of an index sees to. *)
Record segments (v : Verification) (inputs : list DirectoryInput) (ess : list (list DirectoryEntry)) : Prop := {
  sg_locators : Forall2 (fun i es => input_locators i = Ok es) inputs ess;
  sg_widths : Forall (fun i => descriptor_width (DirInput.descriptor i)) inputs;
  sg_lengths : Forall (fun i => Desc.length (DirInput.descriptor i) = Segment.size_bytes (Desc.info (DirInput.descriptor i))) inputs;
  sg_page_size : Forall (fun i => Segment.page_size (Desc.info (DirInput.descriptor i)) = Ver.page_size v) inputs;
  sg_extents : object_extents (map DirInput.descriptor inputs) = Ok (Ver.extents v);
  sg_flags : Forall (Forall (fun e => Z.land (DirEntry.checksum e) CHECKSUM_FLAG <> 0)) ess;
  sg_last : exists i es, last inputs = Some i /\ last ess = Some es /\ input_pages i = Ver.database_pages v /\ es <> []
}.

Lemma segments_pages v inputs ess : segments v inputs ess -> Forall (fun i => u32_ok (input_pages i)) inputs.
Proof. intros H. eapply Forall_impl; [apply (sg_widths _ _ _ H)|]. intros i Hw. apply Hw. Qed.

(** The entries after the segments. *)
Abbreviation entries_after inputs ess := (map snd (replay (cuts inputs ess))).

Lemma segment_entry v inputs ess i d e : segments v inputs ess -> inputs !! i = Some d -> located_in (DirInput.descriptor d) e ->
  Z.land (DirEntry.checksum e) CHECKSUM_FLAG <> 0 -> DirEntry.page e <= Ver.database_pages v ->
  leaf_entry (Ver.page_size v) (Ver.database_pages v) (Ver.extents v) 0 e.
Proof.
  intros Hs Hi [W1 W2 W3 W4 W5 W6 W7] Hflag Hp.
  pose proof (object_extents_ok _ _ (sg_extents _ _ _ Hs)) as He. rewrite Forall_map in He.
  destruct (Forall_lookup_1 _ _ _ _ He Hi) as [(x & Hx & _ & Hr) Hle].
  pose proof (Forall_lookup_1 _ _ _ _ (sg_lengths _ _ _ Hs) Hi) as Hlen. cbn beta in Hlen.
  pose proof (Forall_lookup_1 _ _ _ _ (sg_page_size _ _ _ Hs) Hi) as Hps. cbn beta in Hps. rewrite Hlen in *.
  constructor; [done|lia|by rewrite <- Hps|lia|done|done| |lia].
  unfold covered. rewrite W4, Hx. cbn [is_some_and]. apply existsb_exists. eexists. split; [by apply list_elem_of_In|]. cbn [fst snd].
  apply andb_true_iff. rewrite !Z.leb_le. lia.
Qed.

Lemma segments_entries v inputs ess : segments v inputs ess -> entries_ok v (entries_after inputs ess).
Proof.
  intros Hs. pose proof (segments_pages _ _ _ Hs) as Hu. pose proof (cuts_ok _ _ Hu (sg_locators _ _ _ Hs)) as Hcuts.
  pose proof (Forall2_length _ _ _ (sg_locators _ _ _ Hs)) as Hlen.
  destruct (sg_last _ _ _ Hs) as (il & esl & Hil & Hesl & Hpl & Hne).
  assert (last (cuts inputs ess) = Some (input_pages il, esl)) as Hlast.
  { apply last_Some in Hil as [inputs' ->]. apply last_Some in Hesl as [ess' ->]. rewrite !length_app in Hlen. cbn in Hlen.
    rewrite map_app, zip_with_app by (rewrite length_map; lia). cbn. apply last_snoc. }
  constructor.
  - destruct esl as [|e esl]; [done|]. pose proof Hlast as [l' El]%last_Some. rewrite El, replay_snoc. cbn [fst snd].
    intros Hnil. apply map_eq_nil in Hnil.
    assert (om_lookup (DirEntry.page e) (om_extend (om_filter (fun page => page <=? input_pages il) (replay l')) (keyed (e :: esl))) = Some e) as Hl.
    { rewrite El in Hcuts. apply Forall_app in Hcuts as [_ Hx]. apply Forall_cons in Hx as [(_ & Hasc & _) _].
      rewrite om_lookup_extend; [|apply om_filter_sorted, replay_sorted|by apply keyed_sorted]. cbn. by rewrite Z.eqb_refl. }
    by rewrite Hnil in Hl.
  - pose proof (replay_sorted (cuts inputs ess)) as Hso. rewrite <- (paged_values _ (replay_paged (cuts inputs ess))) in Hso. by apply keyed_sorted in Hso.
  - apply Forall_forall. intros e ([p e'] & -> & Hin)%list_elem_of_fmap. cbn [snd].
    pose proof (replay_last_bound _ _ _ _ Hcuts Hlast Hin) as Hp. destruct (replay_elem _ _ _ Hcuts Hin) as [-> (x & Hx & He)].
    apply list_elem_of_lookup in Hx as [k Hk]. rewrite lookup_zip_with, list_lookup_fmap in Hk.
    destruct (inputs !! k) as [i|] eqn:Ei; [|done]. cbn in Hk. destruct (ess !! k) as [es|] eqn:Ee; [|done]. cbn in Hk. injection Hk as <-.
    cbn [snd] in He. pose proof (Forall2_lookup_lr _ _ _ _ _ _ (sg_locators _ _ _ Hs) Ei Ee) as Hloc. eapply (segment_entry v inputs ess k i e'); [done|done| | |].
    + pose proof (input_located i es) as Hil'. rewrite Forall_forall in Hil'. apply Hil'; [by apply (Forall_lookup_1 _ _ _ _ (sg_widths _ _ _ Hs) Ei)|done|done].
    + pose proof (Forall_lookup_1 _ _ _ _ (sg_flags _ _ _ Hs) Ee) as Hf. rewrite Forall_forall in Hf. by apply Hf.
    + cbn [fst] in Hp. lia.
Qed.

(** ** Appending *)

Lemma foldl_min_le l a p : p <= foldl Z.min a l <-> p <= a /\ Forall (fun x => p <= x) l.
Proof.
  revert a. induction l as [|x l IH]; intros a; cbn [foldl]; [rewrite Forall_nil; tauto|]. rewrite IH, Forall_cons, Z.min_glb_iff. tauto.
Qed.

Lemma cuts_app inputs inputs' (ess ess' : list (list DirectoryEntry)) : length inputs = length ess ->
  cuts (inputs ++ inputs') (ess ++ ess') = cuts inputs ess ++ cuts inputs' ess'.
Proof. intros Hl. rewrite map_app. apply zip_with_app. by rewrite length_map. Qed.

Lemma last_cut inputs (ess : list (list DirectoryEntry)) i es : length inputs = length ess -> last inputs = Some i -> last ess = Some es ->
  last (cuts inputs ess) = Some (input_pages i, es).
Proof.
  intros Hlen [inputs' ->]%last_Some [ess' ->]%last_Some. rewrite !length_app in Hlen. cbn in Hlen.
  rewrite cuts_app by lia. apply last_snoc.
Qed.

Section Append.
Context (base final : Verification) (inputs inputs' : list DirectoryInput) (ess ess' : list (list DirectoryEntry)).
Context (Hbase : segments base inputs ess) (Hfinal : segments final (inputs ++ inputs') (ess ++ ess')) (Hsome : inputs' <> []).

Abbreviation retain := (foldl Z.min (Ver.database_pages base) (map input_pages inputs')).

Lemma append_lengths : length inputs = length ess /\ length inputs' = length ess'.
Proof.
  pose proof (Forall2_length _ _ _ (sg_locators _ _ _ Hbase)). pose proof (Forall2_length _ _ _ (sg_locators _ _ _ Hfinal)) as H1.
  rewrite !length_app in H1. lia.
Qed.

Lemma append_locators : Forall2 (fun i es => input_locators i = Ok es) inputs' ess'.
Proof.
  destruct append_lengths as [Hl _]. pose proof (sg_locators _ _ _ Hfinal) as Hf.
  by apply Forall2_app_inv in Hf as [_ ?].
Qed.

Lemma append_page_size : Ver.page_size base = Ver.page_size final.
Proof.
  destruct (sg_last _ _ _ Hbase) as (i & _ & Hi & _). apply last_Some in Hi as [l E].
  pose proof (sg_page_size _ _ _ Hbase) as H1. pose proof (sg_page_size _ _ _ Hfinal) as H2. apply Forall_app in H2 as [H2 _].
  rewrite E in H1, H2. apply Forall_app in H1 as [_ H1]. apply Forall_app in H2 as [_ H2].
  apply Forall_cons in H1 as [H1 _]. apply Forall_cons in H2 as [H2 _]. congruence.
Qed.

Lemma append_cuts : Forall source_ok (cuts inputs ess) /\ Forall source_ok (cuts inputs' ess').
Proof.
  pose proof (segments_pages _ _ _ Hfinal) as Hu. apply Forall_app in Hu as [_ Hu].
  split; apply cuts_ok; [by apply (segments_pages base _ ess)|apply (sg_locators _ _ _ Hbase)|done|apply append_locators].
Qed.

Lemma append_last : exists es, last (cuts inputs' ess') = Some (Ver.database_pages final, es).
Proof.
  destruct append_lengths as [_ Hl]. destruct (sg_last _ _ _ Hfinal) as (i & es & Hi & He & <- & _). exists es.
  assert (ess' <> []) as Hne by (destruct inputs', ess'; done).
  apply last_cut; [done| |].
  - destruct inputs' as [|x l _] using rev_ind; [done|]. rewrite app_assoc, last_snoc in Hi. by rewrite last_snoc.
  - destruct ess' as [|x l _] using rev_ind; [done|]. rewrite app_assoc, last_snoc in He. by rewrite last_snoc.
Qed.

Lemma append_retain : retain <= Ver.database_pages base /\ retain <= Ver.database_pages final.
Proof.
  pose proof (proj1 (foldl_min_le (map input_pages inputs') (Ver.database_pages base) retain) ltac:(lia)) as [H1 H2].
  split; [done|]. destruct (sg_last _ _ _ Hfinal) as (i & _ & Hi & _ & <- & _).
  destruct inputs' as [|x l _] using rev_ind; [done|]. rewrite app_assoc, last_snoc in Hi. injection Hi as ->.
  rewrite Forall_forall in H2. apply H2. rewrite map_app. set_solver.
Qed.

Lemma replay_bound p e : om_lookup p (replay (cuts inputs ess)) = Some e -> p <= Ver.database_pages base.
Proof.
  intros Hin%om_lookup_elem; [|apply replay_sorted]. destruct (sg_last _ _ _ Hbase) as (i & es & Hi & He & <- & _).
  by apply (replay_last_bound _ _ _ _ (proj1 append_cuts) (last_cut _ _ _ _ (proj1 append_lengths) Hi He) Hin).
Qed.
Lemma change_bound p e : om_lookup p (replay (cuts inputs' ess')) = Some e -> p <= Ver.database_pages final.
Proof.
  intros Hin%om_lookup_elem; [|apply replay_sorted]. destruct append_last as [es Hl].
  by apply (replay_last_bound _ _ _ _ (proj2 append_cuts) Hl Hin).
Qed.

Lemma forallb_cuts p : forallb (fun x : Z * list DirectoryEntry => p <=? x.1) (cuts inputs' ess') = forallb (fun n => p <=? n) (map input_pages inputs').
Proof.
  destruct append_lengths as [_ Hl]. revert Hl. clear. revert ess'. induction inputs' as [|i l IH]; intros [|es ess'] Hl; try done.
  cbn. f_equal. apply IH. by injection Hl.
Qed.

(** The pages the base keeps, overridden by the changes, are what the longer chain leaves. *)
Lemma append_merged :
  merged retain (Ver.database_pages final) (entries_after inputs ess) (entries_after inputs' ess') =
  entries_after (inputs ++ inputs') (ess ++ ess').
Proof.
  destruct append_lengths as [Hl _]. destruct append_cuts as [Hc Hc']. destruct append_retain as [_ Hrf].
  rewrite cuts_app by done. rewrite <- (map_snd_keyed (merged _ _ _ _)), keyed_merged. f_equal.
  assert (forall l, ascending (map snd (replay l))) as Hasc.
  { intros l. apply keyed_sorted. rewrite paged_values by apply replay_paged. apply replay_sorted. }
  apply om_ext; [by apply merged_map_sorted|apply replay_sorted|]. intros p.
  rewrite merged_lookup, replay_app_lookup, !paged_values by (apply Hasc || apply replay_paged || done).
  rewrite forallb_cuts. destruct (om_lookup p (replay (cuts inputs' ess'))) as [e|] eqn:Ec.
  { by rewrite (proj2 (Z.leb_le _ _) (change_bound _ _ Ec)). }
  assert ((p <=? retain) = (p <=? Ver.database_pages base) && forallb (fun n => p <=? n) (map input_pages inputs')) as ->.
  { apply Bool.eq_iff_eq_true. rewrite andb_true_iff, !Z.leb_le, foldl_min_le, forallb_forall, Forall_forall.
    setoid_rewrite <- list_elem_of_In. setoid_rewrite Z.leb_le. done. }
  destruct (om_lookup p (replay (cuts inputs ess))) as [e|] eqn:Eb.
  - rewrite (proj2 (Z.leb_le p (Ver.database_pages base))) by (by eapply replay_bound). cbn [andb].
    destruct (forallb _ _) eqn:Ef; [|by destruct (_ <=? _)]. rewrite (proj2 (Z.leb_le _ _)); [done|].
    apply Z.le_trans with retain; [|done]. apply foldl_min_le. split; [by eapply replay_bound|].
    rewrite forallb_forall in Ef. apply Forall_forall. intros n Hn%list_elem_of_In. by apply Z.leb_le, Ef.
  - by destruct (p <=? Ver.database_pages final), (p <=? Ver.database_pages base), (forallb _ _).
Qed.

(** The changes are ones an update accepts. *)
Lemma append_changes : Forall (fun x => changeable (Ver.page_size final) (Ver.database_pages final) x /\ page_ok x.2) (replay (cuts inputs' ess')).
Proof.
  destruct append_cuts as [Hc Hc']. destruct append_lengths as [Hl _]. apply Forall_forall. intros [p e] Hin.
  destruct (replay_elem _ _ _ Hc' Hin) as [-> _]. cbn [snd]. pose proof (segments_entries _ _ _ Hfinal) as [_ _ Hf].
  assert (e ∈ entries_after (inputs ++ inputs') (ess ++ ess')) as He.
  { apply list_elem_of_fmap. exists (DirEntry.page e, e). split; [done|]. apply om_lookup_elem; [apply replay_sorted|].
    rewrite cuts_app, replay_app_lookup by done. apply om_lookup_elem in Hin; [|apply replay_sorted]. by rewrite Hin. }
  rewrite Forall_forall in Hf. specialize (Hf _ He). pose proof (leaf_entry_page _ _ _ _ _ Hf) as Hp. split; [|done].
  destruct Hf as [_ ? ? _ _ _ _ _]. unfold changeable. cbn [fst snd]. split_and!; [done|lia|lia|done].
Qed.
End Append.
