(* ===== verification/DirectoryBuild.v ===== *)
(** * DirectoryBuild: the directory of the first segments

    Models [build_and_upload] of [crates/cellule-ltx/src/replica/directory/initial.rs]
    and the object uploads of [replica/upload.rs] it calls. The stream of locators
    is checked for completeness as it is cut into leaves; nodes are uploaded in
    batches while the tree is built, and a tree of one leaf is handed back instead,
    so that its root may inline it. *)

From Stdlib Require Import ZArith Lia.
From Stdlib Require Import Strings.Byte.
From stdpp Require Import base gmap strings numbers sorting.
From stdpp Require Import list.
From S2P Require Import Prelude OrdMap Bytes Identity Text LtxTypes Lz4 Ltx LtxCodec PagedIndex DirectoryNode ReplicaCache Directory DirectoryShape DirectoryUpdate Root Merge Graph.

Local Open Scope bool_scope.

(*@ cellule-ltx/src/replica/mod.rs 54-54 OBJECT_UPLOAD_CONCURRENCY *)
Definition OBJECT_UPLOAD_CONCURRENCY : Z := 8.

(** ** Uploads

    What the builder needs of the replica: uploading a batch of objects. *)

Class ObjectWriter (W : Type) := put_objects : CellObjectKind -> list (Digest * list byte) -> ReadM W unit.

(** ** Building *)

Section Build.
Context {W : Type} `{ObjectWriter W, Blake3}.

(*@ cellule-ltx/src/replica/directory/initial.rs 183-188 encode_leaf_node *)
Definition encode_leaf_node (index : option Z) (entries : list DirectoryEntry) : LtxResult (Node * list byte) :=
  index ← ok_or index LtxErr.LTXCorrupted;
  bytes ← encode_leaf entries;
  node ← from_bytes index bytes;
  Ok (node, bytes).

(** The nodes written so far; [pending] is emptied. *)
(*@ cellule-ltx/src/replica/directory/initial.rs 190-213 flush_node_uploads *)
Definition flush_node_uploads (pending : list (Node * list byte)) (output : list Node) : ReadM W (list Node) :=
  match pending with
  | [] => mret output
  | _ =>
      _ ← put_objects KDirectory (map (fun x => (Node.digest x.1, x.2)) pending);
      mret (output ++ map fst pending)
  end.

(** [pending.push(..)] and the upload of a full batch. *)
Definition push_pending (x : Node * list byte) (pending : list (Node * list byte)) (output : list Node)
  : ReadM W (list (Node * list byte) * list Node) :=
  let pending := pending ++ [x] in
  if len pending =? OBJECT_UPLOAD_CONCURRENCY
  then output ← flush_node_uploads pending output; mret ([], output)
  else mret (pending, output).

(** The variables of the loop over the entries. *)
Record Building := MkBuilding {
  expected_page : Z;
  live_pages : Z;
  leaf_index : option Z;
  leaf_entries : list DirectoryEntry;
  nodes : list Node;
  pending : list (Node * list byte)
}.

(*@ cellule-ltx/src/replica/directory/initial.rs 110-133 build_and_upload *)
Definition build_entry (lock database_pages : Z) (s : Building) (entry : DirectoryEntry) : ReadM W Building :=
  let page := DirEntry.page entry in
  let expected := if expected_page s =? lock then expected_page s + 1 else expected_page s in
  if negb (page =? expected) || (database_pages <? page) || (page =? lock) then fail LtxErr.LTXCorrupted
  else
    let index := (page - 1) / FANOUT in
    '(pending, nodes, entries) ←
      (if is_some_and (fun current => negb (current =? index)) (leaf_index s)
       then
         x ← pure (encode_leaf_node (leaf_index s) (leaf_entries s));
         '(pending, nodes) ← push_pending x (pending s) (nodes s);
         mret (pending, nodes, [])
       else mret (pending s, nodes s, leaf_entries s));
    mret (MkBuilding (expected + 1) (live_pages s + 1) (Some index) (entries ++ [entry]) nodes pending).

(*@ cellule-ltx/src/replica/directory/initial.rs 109-134 build_and_upload *)
Fixpoint build_entries (lock database_pages : Z) (stream : list (LtxResult DirectoryEntry)) (s : Building) : ReadM W Building :=
  match stream with
  | [] => mret s
  | entry :: stream =>
      entry ← pure entry;
      s ← build_entry lock database_pages s entry;
      build_entries lock database_pages stream s
  end.

(*@ cellule-ltx/src/replica/directory/initial.rs 135-137 build_and_upload *)
Definition push_last_leaf (s : Building) : ReadM W (list (Node * list byte)) :=
  if is_empty (leaf_entries s) then mret (pending s)
  else x ← pure (encode_leaf_node (leaf_index s) (leaf_entries s)); mret (pending s ++ [x]).

(** The last leaf; the only leaf of a tree is not uploaded. *)
(*@ cellule-ltx/src/replica/directory/initial.rs 135-147 build_and_upload *)
Definition finish_leaves (s : Building) : ReadM W (list DirectoryObject * list Node) :=
  pending ← push_last_leaf s;
  match nodes s, pending with
  | [], [(node, bytes)] => mret ([DirObject.Mk (Node.digest node) bytes], [node])
  | _, _ => nodes ← flush_node_uploads pending (nodes s); mret ([], nodes)
  end.

(*@ cellule-ltx/src/replica/directory/initial.rs 158-171 build_and_upload *)
Fixpoint upload_parents (groups : list (list Node)) (pending : list (Node * list byte)) (parents : list Node) : ReadM W (list Node) :=
  match groups with
  | [] => flush_node_uploads pending parents
  | group :: groups =>
      let index := default 0 (Node.index <$> head group) / FANOUT in
      bytes ← pure (encode_branch group);
      node ← pure (from_bytes index bytes);
      '(pending, parents) ← push_pending (node, bytes) pending parents;
      upload_parents groups pending parents
  end.

(** Each turn divides the indexes by the fan-out: after three of them one node is left. *)
(*@ cellule-ltx/src/replica/directory/initial.rs 156-174 build_and_upload *)
Fixpoint upload_levels (fuel : nat) (nodes : list Node) (height : Z) : ReadM W (list Node * Z) :=
  match fuel, nodes with
  | S fuel, _ :: _ :: _ =>
      parents ← upload_parents (chunk_by (fun n => Node.index n / FANOUT) nodes) [] [];
      upload_levels fuel parents (height + 1)
  | O, _ :: _ :: _ => fail LtxErr.Panic
  | _, _ => mret (nodes, height)
  end.

(*@ cellule-ltx/src/replica/directory/initial.rs 92-181 build_and_upload *)
Definition build_and_upload (stream : list (LtxResult DirectoryEntry)) (page_size database_pages : Z) : ReadM W DirectoryTree :=
  if database_pages =? 0 then fail LtxErr.LTXCorrupted
  else
    let lock := lock_pgno page_size in
    s ← build_entries lock database_pages stream (MkBuilding 1 0 None [] [] []);
    '(retained_leaf, nodes) ← finish_leaves s;
    let expected := if expected_page s =? lock then expected_page s + 1 else expected_page s in
    let expected_live := expected_pages page_size database_pages in
    if negb (expected =? database_pages + 1) || negb (live_pages s =? expected_live) then fail LtxErr.LTXCorrupted
    else
      '(nodes, height) ← upload_levels 4 nodes 0;
      root ← pure (ok_or (last nodes) LtxErr.LTXCorrupted);
      mret (DirTree.Mk retained_leaf root height).
End Build.

(** ** Putting objects

    The store's [put] is a parameter: it writes bytes under a path. *)

Class ObjectPut (E : Type) := store_put : string -> list byte -> ReadM E unit.

Section Put.
Context {E : Type} `{NodeStore E, ObjectPut E, Blake3}.

(** Recording the cost of the upload has no influence on it. *)
(*@ cellule-ltx/src/replica/upload.rs 20-46 CellReplica::put_object_bytes *)
Definition put_object_bytes (digest : Digest) (kind : CellObjectKind) (bytes : list byte) : ReadM (ReaderState E) unit :=
  if negb (bool_decide (blake3 bytes = digest)) then fail LtxErr.ChecksumMismatch
  else
    _ ← host io_permit;
    _ ← host (store_put (incarnation_object_path kind digest) bytes);
    match kind with
    | KRoot | KDirectory => metadata_insert digest kind bytes
    | _ => mret tt
    end.

(** The batch in the order given; all of it must succeed. *)
(*@ cellule-ltx/src/replica/upload.rs 48-62 CellReplica::put_objects *)
Fixpoint put_all (kind : CellObjectKind) (objects : list (Digest * list byte)) : ReadM (ReaderState E) unit :=
  match objects with
  | [] => mret tt
  | (digest, bytes) :: objects => _ ← put_object_bytes digest kind bytes; put_all kind objects
  end.
#[global] Instance replica_writer : ObjectWriter (ReaderState E) := put_all.
End Put.

(** * Proofs *)

(** ** Uploads

    A sound writer stores a batch whose digests are right; a faulty one may fail.
    What is written stays. *)
Class WriterLaws (W : Type) `{ObjectWriter W, Blake3} := {
  written : W -> CellObjectKind -> list byte -> Prop;
  write_faulty : W -> Prop;
  put_law kind objs w : kind = KRoot \/ kind = KDirectory -> Forall (fun o => blake3 o.2 = o.1) objs ->
    (write_faulty (put_objects kind objs w).1 -> write_faulty w) /\
    (forall k b, written w k b -> written (put_objects kind objs w).1 k b) /\
    ((put_objects kind objs w).2 = Ok tt /\ Forall (written (put_objects kind objs w).1 kind) (map snd objs) \/
     write_faulty w /\ exists e, (put_objects kind objs w).2 = Err e)
}.

Section Uploads.
Context {W : Type} `{HW : ObjectWriter W, HB : Blake3} {L : WriterLaws W}.

(** [m] computes [r] and writes the nodes [bs] on the way, unless the writer is faulty. *)
Definition uploads {A} (m : ReadM W A) (r : LtxResult A) (bs : list (list byte)) : Prop := forall w,
  (write_faulty (m w).1 -> write_faulty w) /\ (forall k b, written w k b -> written (m w).1 k b) /\
  ((m w).2 = r /\ Forall (written (m w).1 KDirectory) bs \/ write_faulty w /\ exists e, (m w).2 = Err e).

Lemma uploads_pure {A} (r : LtxResult A) : uploads (pure r) r [].
Proof. intros w. split_and!; [done|done|]. left. by split. Qed.
Lemma uploads_ret {A} (a : A) : uploads (mret a) (Ok a) [].
Proof. apply (uploads_pure (Ok a)). Qed.
Lemma uploads_fail {A} e : uploads (fail (A := A) e) (Err e) [].
Proof. apply uploads_pure. Qed.

Lemma uploads_bind {A B} (m : ReadM W A) (f : A -> ReadM W B) a r bs bs' :
  uploads m (Ok a) bs -> uploads (f a) r bs' -> uploads (m ≫= f) r (bs ++ bs').
Proof.
  intros Hm Hf w. destruct (Hm w) as (H1 & H2 & H3).
  change ((m ≫= f) w) with (match m w with (w, Ok a) => f a w | (w, Err x) => (w, Err x) end).
  destruct (m w) as [w' [a'|x]]; cbn [fst snd] in *.
  - destruct H3 as [[[= ->] Hw]|[_ [e He]]]; [|done]. destruct (Hf w') as (F1 & F2 & F3). split_and!; [tauto|by auto|].
    destruct F3 as [[-> Hw']|[? ?]]; [left|right; tauto]. split; [done|]. apply Forall_app. split; [|done].
    eapply Forall_impl; [exact Hw|]. intros b. apply F2.
  - split_and!; [done|done|]. right. destruct H3 as [[? _]|[? _]]; [done|]. split; [done|by exists x].
Qed.
Lemma uploads_bind_err {A B} (m : ReadM W A) (f : A -> ReadM W B) e bs : uploads m (Err e) bs -> uploads (m ≫= f) (Err e) bs.
Proof.
  intros Hm w. destruct (Hm w) as (H1 & H2 & H3).
  change ((m ≫= f) w) with (match m w with (w, Ok a) => f a w | (w, Err x) => (w, Err x) end).
  destruct (m w) as [w' [a'|x]]; cbn [fst snd] in *.
  - destruct H3 as [[? _]|[_ [? ?]]]; done.
  - split_and!; [done|done|]. destruct H3 as [[[= ->] ?]|[? _]]; [by left|right]. split; [done|by exists x].
Qed.
(** The lists of what is written need only have the same elements. *)
Lemma uploads_weaken {A} (m : ReadM W A) r bs bs' : uploads m r bs -> (forall b, b ∈ bs' -> b ∈ bs) -> uploads m r bs'.
Proof.
  intros Hm Hin w. destruct (Hm w) as (H1 & H2 & H3). split_and!; [done|done|]. destruct H3 as [[? Hw]|?]; [left|by right].
  split; [done|]. apply Forall_forall. intros b Hb. rewrite Forall_forall in Hw. by apply Hw, Hin.
Qed.
Lemma uploads_step {A B} (m : ReadM W A) (f : A -> ReadM W B) a r bs :
  uploads m (Ok a) [] -> uploads (f a) r bs -> uploads (m ≫= f) r bs.
Proof. intros Hm Hf. change bs with ([] ++ bs). by eapply uploads_bind. Qed.

Abbreviation digested := (fun x : Node * list byte => blake3 x.2 = Node.digest x.1).

Lemma flush_uploads pending output : Forall digested pending ->
  uploads (flush_node_uploads pending output) (Ok (output ++ map fst pending)) (map snd pending).
Proof.
  intros Hp. unfold flush_node_uploads. destruct pending as [|x pending].
  { cbn [map]. rewrite app_nil_r. apply uploads_ret. }
  rewrite <- (app_nil_r (map snd _)). eapply (uploads_bind _ _ tt); [|apply uploads_ret].
  replace (map snd (x :: pending)) with (map snd (map (fun x : Node * list byte => (Node.digest x.1, x.2)) (x :: pending)))
    by (by rewrite map_map).
  intros w. apply put_law; [by right|]. rewrite Forall_map. eapply Forall_impl; [exact Hp|]. done.
Qed.

(** The nodes written, [D], and those pending, [P]: one more comes in. *)
Lemma push_pending_uploads x D P : Forall digested (P ++ [x]) ->
  exists D' P' bs, uploads (push_pending x P (map fst D)) (Ok (P', map fst D')) bs /\ D' ++ P' = D ++ P ++ [x] /\
    Forall digested P' /\ forall b, b ∈ map snd D' -> b ∈ map snd D \/ b ∈ bs.
Proof.
  intros Hp. unfold push_pending. destruct (_ =? _).
  - exists (D ++ P ++ [x]), [], (map snd (P ++ [x]) ++ []). split_and!; [|by rewrite app_nil_r|constructor|].
    + eapply uploads_bind; [by apply flush_uploads|]. rewrite <- map_app. apply uploads_ret.
    + intros b. rewrite map_app, !elem_of_app. tauto.
  - exists D, (P ++ [x]), []. split_and!; [apply uploads_ret|done|done|by left].
Qed.
End Uploads.

Section BuildProofs.
Context {W : Type} `{HW : ObjectWriter W, HB : Blake3} {L : WriterLaws W} (v : Verification).

(** A node with its bytes. *)
Definition item (level : nat) (g : list DirectoryEntry) : Node * list byte := (canon_root level g, canon_bytes level g).
Lemma item_digested level g : blake3 (item level g).2 = Node.digest (item level g).1.
Proof. unfold item. cbn. by rewrite canon_root_eq. Qed.
Lemma items_digested level gs : Forall (fun x : Node * list byte => blake3 x.2 = Node.digest x.1) (map (item level) gs).
Proof. rewrite Forall_map. apply Forall_forall. intros g _. apply item_digested. Qed.

(** ** Levels above the leaves *)

Lemma upload_parents_ok level gs : Forall (fun g => exists k, shaped v (S level) k g) gs -> forall D P,
  Forall (fun x : Node * list byte => blake3 x.2 = Node.digest x.1) P ->
  exists bs, uploads (upload_parents (map (fun g => map (canon_root level) (chunk_by (slot level) g)) gs) P (map fst D))
      (Ok (map fst (D ++ P ++ map (item (S level)) gs))) bs /\
    forall b, b ∈ map snd (D ++ P ++ map (item (S level)) gs) -> b ∈ map snd D \/ b ∈ bs.
Proof.
  induction 1 as [|g gs [k Hg] _ IH]; intros D P HP; cbn [map upload_parents].
  { exists (map snd P). rewrite app_nil_r, map_app. split; [by apply flush_uploads|]. intros b. rewrite map_app, elem_of_app. tauto. }
  destruct (canon_branch v level k g Node.index Hg) as (Henc & _ & _). rewrite map_at_index_same in Henc. rewrite Henc.
  assert (default 0 (Node.index <$> head (map (canon_root level) (chunk_by (slot level) g))) / FANOUT = k) as -> by (by eapply group_index).
  destruct (push_pending_uploads (item (S level) g) D P) as (D' & P' & bs1 & Hu & Hdp & HP' & Hb1).
  { apply Forall_app. split; [done|]. constructor; [apply item_digested|constructor]. }
  destruct (IH D' P' HP') as (bs2 & Hu2 & Hb2). exists (bs1 ++ bs2).
  assert (D' ++ P' ++ map (item (S level)) gs = D ++ P ++ item (S level) g :: map (item (S level)) gs) as E.
  { by rewrite app_assoc, Hdp, <- !app_assoc. }
  rewrite E in Hu2, Hb2. split.
  - eapply uploads_step; [apply uploads_pure|]. cbv beta. rewrite (canon_from_bytes v (S level) k g Hg).
    eapply uploads_step; [apply uploads_pure|]. eapply uploads_bind; [exact Hu|exact Hu2].
  - intros b [Hb|Hb]%Hb2; [|set_solver]. apply Hb1 in Hb. set_solver.
Qed.

Lemma top_single es : entries_ok v es ->
  chunk_by (slot (top_height 4 0 es)) es = [es] /\ (top_height 4 0 es <= 3)%nat.
Proof. intros He. destruct (grow_ok v es He 4 0 [] ltac:(lia) ltac:(lia)) as (_ & ? & ?). split; [done|lia]. Qed.

Lemma upload_levels_ok es : entries_ok v es -> forall fuel level, (level <= 3)%nat -> (3 - level < fuel)%nat ->
  exists bs, uploads (upload_levels fuel (map (canon_root level) (chunk_by (slot level) es)) (Z.of_nat level))
      (Ok ([canon_root (top_height fuel level es) es], Z.of_nat (top_height fuel level es))) bs /\
    forall b, b ∈ level_nodes (top_height fuel level es) es -> b ∈ level_nodes level es \/ b ∈ bs.
Proof.
  intros He. induction fuel as [|fuel IH]; intros level Hl Hfu; [lia|]. cbn [upload_levels top_height].
  destruct (one_or_more v level es He Hl) as [Hone|[Hlt (c1 & c2 & cs & Ec)]].
  { rewrite Hone. cbn [map]. exists []. split; [apply uploads_ret|by left]. }
  rewrite Ec. cbn [map]. change (canon_root level c1 :: canon_root level c2 :: map (canon_root level) cs) with (map (canon_root level) (c1 :: c2 :: cs)).
  rewrite <- Ec, canon_groups by apply He.
  destruct (upload_parents_ok level _ (chunks_shaped v (S level) es He) [] [] ltac:(constructor)) as (bs1 & Hu1 & Hb1).
  destruct (IH (S level) ltac:(lia) ltac:(lia)) as (bs2 & Hu2 & Hb2). exists (bs1 ++ bs2). split.
  - eapply uploads_bind; [exact Hu1|]. cbn [app]. rewrite map_map. cbn [item fst].
    replace (Z.of_nat level + 1) with (Z.of_nat (S level)) by lia. exact Hu2.
  - intros b [Hb|Hb]%Hb2; [|set_solver]. apply level_nodes_step in Hb as [Hb|(g & Hg & ->)]; [by left| |apply He]. right.
    apply elem_of_app. left. destruct (Hb1 (canon_bytes (S level) g)) as [Hb|?]; [|by apply elem_of_nil in Hb|done].
    cbn [app]. rewrite map_map. apply list_elem_of_fmap. by exists g.
Qed.

(** ** Leaves *)

Lemma slot_index e : slot 0 e = (DirEntry.page e - 1) / FANOUT.
Proof. unfold slot. by rewrite Z.pow_1_r. Qed.

(** The state after the entries [es]: the leaves written, [gd], those pending, [gp],
    and the one being filled. *)
Record building (es : list DirectoryEntry) (gd gp : list (list DirectoryEntry)) (s : Building) : Prop := {
  bd_expected : expected_page s = last_page 0 es + 1;
  bd_live : live_pages s = len es;
  bd_nodes : nodes s = map (canon_root 0) gd;
  bd_pending : pending s = map (item 0) gp;
  bd_leaf : match last es with
            | None => gd = [] /\ gp = [] /\ leaf_index s = None /\ leaf_entries s = []
            | Some z => leaf_index s = Some (slot 0 z) /\ chunk_by (slot 0) es = gd ++ gp ++ [leaf_entries s]
            end
}.

Lemma last_chunk_slot es cs g z : entries_ok v es -> chunk_by (slot 0) es = cs ++ [g] -> last es = Some z -> shaped v 0 (slot 0 z) g.
Proof.
  intros He Hc Hz. pose proof (chunks_shaped v 0 es He) as Hs. rewrite Hc in Hs. apply Forall_app in Hs as [_ [[k Hk] _]%Forall_cons].
  enough (slot 0 z = k) as -> by done. destruct Hk as [[Hne _ _] Hk]. rewrite Forall_forall in Hk. apply Hk.
  pose proof (chunk_by_concat (slot 0) es) as Hcc. rewrite Hc, concat_app in Hcc. cbn [concat] in Hcc. rewrite app_nil_r in Hcc.
  subst es. destruct g as [|x g _] using rev_ind; [done|]. rewrite app_assoc, last_snoc in Hz. injection Hz as ->. set_solver.
Qed.

Lemma encode_leaf_node_ok k g : shaped v 0 k g -> encode_leaf_node (Some k) g = Ok (item 0 g).
Proof.
  intros Hg. unfold encode_leaf_node. cbn [ok_or mbind result_bind]. rewrite (proj1 (canon_leaf v k g Hg)). cbn [mbind result_bind].
  by rewrite (canon_from_bytes v 0 k g Hg).
Qed.

Lemma last_page_snoc p es e : last_page p (es ++ [e]) = DirEntry.page e.
Proof. unfold last_page. by rewrite last_snoc. Qed.

(** The leaf that is left when an entry of another one comes in. *)
Lemma turn_leaf_ok es gd gp s e z : entries_ok v es -> building es gd gp s -> last es = Some z ->
  exists gd' gp' entries bs,
    uploads (if is_some_and (fun current => negb (current =? slot 0 e)) (leaf_index s)
             then x ← pure (encode_leaf_node (leaf_index s) (leaf_entries s));
                  '(pending, nodes) ← push_pending x (pending s) (nodes s); mret (pending, nodes, [])
             else mret (pending s, nodes s, leaf_entries s))
      (Ok (map (item 0) gp', map (canon_root 0) gd', entries)) bs /\
    chunk_by (slot 0) (es ++ [e]) = gd' ++ gp' ++ [entries ++ [e]] /\
    forall b, b ∈ map (canon_bytes 0) gd' -> b ∈ map (canon_bytes 0) gd \/ b ∈ bs.
Proof.
  intros Hes [_ _ Hn Hp Hleaf] Hz. rewrite Hz in Hleaf. destruct Hleaf as [Hidx Hc]. rewrite Hidx. cbn [is_some_and].
  rewrite app_assoc in Hc. pose proof (chunk_by_snoc (slot 0) es e _ _ z Hc Hz) as Hcs.
  destruct (Z.eqb_spec (slot 0 z) (slot 0 e)) as [E|N]; cbn [negb].
  - exists gd, gp, (leaf_entries s), []. rewrite Hn, Hp. split_and!; [apply uploads_ret|by rewrite Hcs, <- app_assoc|by left].
  - rewrite (encode_leaf_node_ok _ _ (last_chunk_slot _ _ _ _ Hes Hc Hz)).
    destruct (push_pending_uploads (item 0 (leaf_entries s)) (map (item 0) gd) (map (item 0) gp)) as (D' & P' & bs & Hu & Hdp & _ & Hb).
    { change [item 0 (leaf_entries s)] with (map (item 0) [leaf_entries s]). rewrite <- map_app. apply items_digested. }
    change [item 0 (leaf_entries s)] with (map (item 0) [leaf_entries s]) in Hdp. rewrite <- !map_app in Hdp. symmetry in Hdp. apply map_eq_app in Hdp as (gd' & gp' & Hg & <- & <-).
    exists gd', gp', [], bs. split_and!.
    + eapply uploads_step; [apply uploads_pure|]. cbv beta. rewrite <- (app_nil_r bs). rewrite Hn, Hp.
      replace (map (canon_root 0) gd) with (map fst (map (item 0) gd)) by (by rewrite map_map).
      eapply uploads_bind; [exact Hu|]. cbv beta iota. rewrite map_map. apply uploads_ret.
    + cbn [app]. by rewrite Hcs, (app_assoc gd' gp'), <- Hg, <- !app_assoc.
    + intros b Hb'. specialize (Hb b). rewrite !map_map in Hb. by apply Hb.
Qed.

Lemma building_first gd gp s : building [] gd gp s -> gd = [] /\ gp = [] /\ leaf_index s = None /\ leaf_entries s = [] /\ nodes s = [] /\ pending s = [].
Proof. intros [_ _ Hn Hp (-> & -> & ? & ?)]. done. Qed.

Lemma build_entry_ok lock es gd gp s e : 1 < lock -> entries_ok v (es ++ [e]) -> building es gd gp s ->
  if DirEntry.page e =? next_page lock (last_page 0 es)
  then exists s' gd' gp' bs, uploads (build_entry lock (Ver.database_pages v) s e) (Ok s') bs /\ building (es ++ [e]) gd' gp' s' /\
         forall b, b ∈ map (canon_bytes 0) gd' -> b ∈ map (canon_bytes 0) gd \/ b ∈ bs
  else uploads (build_entry lock (Ver.database_pages v) s e) (Err LtxErr.LTXCorrupted) [].
Proof.
  intros Hlock Hes Hb. pose proof Hes as [_ Hs Hf]. apply Forall_app in Hf as [Hf [He _]%Forall_cons].
  unfold build_entry. rewrite (bd_expected _ _ _ _ Hb). cbv zeta.
  assert ((if last_page 0 es + 1 =? lock then last_page 0 es + 1 + 1 else last_page 0 es + 1) = next_page lock (last_page 0 es)) as ->.
  { unfold next_page. destruct (Z.eqb_spec (last_page 0 es + 1) lock); lia. }
  destruct (Z.eqb_spec (DirEntry.page e) (next_page lock (last_page 0 es))) as [E|N]; [|apply uploads_fail].
  assert (DirEntry.page e <> lock) as Hnl by (rewrite E; unfold next_page; destruct (Z.eqb_spec (last_page 0 es + 1) lock); lia).
  rewrite (proj2 (Z.ltb_ge _ _)) by (by destruct He; lia). rewrite (proj2 (Z.eqb_neq _ lock)) by done. cbn [negb orb].
  rewrite <- slot_index.
  assert (exists gd' gp' entries bs,
    uploads (if is_some_and (fun current => negb (current =? slot 0 e)) (leaf_index s)
             then x ← pure (encode_leaf_node (leaf_index s) (leaf_entries s));
                  '(pending, nodes) ← push_pending x (pending s) (nodes s); mret (pending, nodes, [])
             else mret (pending s, nodes s, leaf_entries s))
      (Ok (map (item 0) gp', map (canon_root 0) gd', entries)) bs /\
    chunk_by (slot 0) (es ++ [e]) = gd' ++ gp' ++ [entries ++ [e]] /\
    forall b, b ∈ map (canon_bytes 0) gd' -> b ∈ map (canon_bytes 0) gd \/ b ∈ bs) as (gd' & gp' & entries & bs & Hu & Hc & Hbs).
  { destruct (last es) as [z|] eqn:Hz; [|].
    - eapply turn_leaf_ok; [|done|done]. constructor; [by intros ->| |done]. rewrite map_app in Hs. by apply StronglySorted_app in Hs as (_ & ? & _).
    - apply last_None in Hz as ->. destruct (building_first gd gp s Hb) as (-> & -> & -> & -> & -> & ->).
      exists [], [], [], []. split_and!; [apply uploads_ret|done|by left]. }
  exists (MkBuilding (next_page lock (last_page 0 es) + 1) (live_pages s + 1) (Some (slot 0 e)) (entries ++ [e]) (map (canon_root 0) gd') (map (item 0) gp')), gd', gp', (bs ++ []).
  split_and!.
  - eapply uploads_bind; [exact Hu|]. apply uploads_ret.
  - constructor; cbn [expected_page live_pages nodes pending]; [by rewrite last_page_snoc, E| |done|done|].
    + rewrite (bd_live _ _ _ _ Hb), len_app. done.
    + by rewrite last_snoc.
  - rewrite app_nil_r. exact Hbs.
Qed.

Lemma build_entries_ok lock rest : 1 < lock -> forall es gd gp s, entries_ok v (es ++ rest) \/ es ++ rest = [] -> building es gd gp s ->
  if covers lock (last_page 0 es) rest
  then exists s' gd' gp' bs, uploads (build_entries lock (Ver.database_pages v) (map Ok rest) s) (Ok s') bs /\ building (es ++ rest) gd' gp' s' /\
         forall b, b ∈ map (canon_bytes 0) gd' -> b ∈ map (canon_bytes 0) gd \/ b ∈ bs
  else exists bs, uploads (build_entries lock (Ver.database_pages v) (map Ok rest) s) (Err LtxErr.LTXCorrupted) bs.
Proof.
  intros Hlock. induction rest as [|e rest IH]; intros es gd gp s Hes Hb; cbn [map build_entries covers].
  { rewrite app_nil_r. exists s, gd, gp, []. split_and!; [apply uploads_ret|done|by left]. }
  destruct Hes as [Hes|Hes]; [|by destruct es]. change (e :: rest) with ([e] ++ rest) in Hes. rewrite app_assoc in Hes.
  assert (entries_ok v (es ++ [e])) as He.
  { destruct Hes as [_ Hs Hf]. rewrite map_app in Hs. apply StronglySorted_app in Hs as (_ & Hs & _). apply Forall_app in Hf as [Hf _].
    constructor; [by destruct es|done|done]. }
  pose proof (build_entry_ok lock es gd gp s e Hlock He Hb) as H1.
  destruct (DirEntry.page e =? next_page lock (last_page 0 es)); cbn [andb].
  - destruct H1 as (s1 & gd1 & gp1 & bs1 & Hu1 & Hb1 & Hin1). specialize (IH (es ++ [e]) gd1 gp1 s1 (or_introl Hes) Hb1).
    rewrite last_page_snoc in IH. destruct (covers lock (DirEntry.page e) rest).
    + destruct IH as (s' & gd' & gp' & bs & Hu & Hb' & Hin). exists s', gd', gp', (bs1 ++ bs). rewrite <- app_assoc in Hb'. split_and!; [|exact Hb'|].
      * eapply uploads_step; [apply uploads_pure|]. eapply uploads_bind; [exact Hu1|exact Hu].
      * intros b [Hb2|?]%Hin; [|set_solver]. apply Hin1 in Hb2. set_solver.
    + destruct IH as [bs Hu]. exists (bs1 ++ bs). eapply uploads_step; [apply uploads_pure|]. eapply uploads_bind; [exact Hu1|exact Hu].
  - exists []. eapply uploads_step; [apply uploads_pure|]. by apply uploads_bind_err.
Qed.

(** The leaf that is handed back. *)
Definition retained (es : list DirectoryEntry) : list DirectoryObject :=
  match chunk_by (slot 0) es with
  | [g] => [DirObject.Mk (Node.digest (canon_root 0 g)) (canon_bytes 0 g)]
  | _ => []
  end.

Lemma flush_leaves gd gp :
  uploads (nodes ← flush_node_uploads (map (item 0) gp) (map (canon_root 0) gd); mret ([], nodes))
    (Ok (@nil DirectoryObject, map (canon_root 0) (gd ++ gp))) (map (canon_bytes 0) gp).
Proof.
  rewrite <- (app_nil_r (map (canon_bytes 0) gp)). replace (map (canon_bytes 0) gp) with (map snd (map (item 0) gp)) by (by rewrite map_map).
  eapply uploads_bind; [apply flush_uploads, items_digested|]. cbv beta. rewrite map_map, map_app. apply uploads_ret.
Qed.

(** The tree of one leaf is told by the two lists. *)
Lemma finish_match gd gp : gp <> [] ->
  (exists g, gd = [] /\ gp = [g]) \/
  ((forall (A : Type) (one : Node -> list byte -> A) (other : A),
    match map (canon_root 0) gd, map (item 0) gp with [], [(node, bytes)] => one node bytes | _, _ => other end = other) /\
   (forall (A : Type) (one : list DirectoryEntry -> A) (other : A), match gd ++ gp with [g] => one g | _ => other end = other)).
Proof.
  intros Hne. destruct gp as [|g1 gp]; [done|]. destruct gd as [|g0 gd].
  - destruct gp as [|g2 gp]; [left; by exists g1|by right].
  - right. split; [done|]. intros. cbn. by destruct gd.
Qed.

Lemma finish_leaves_ok es gd gp s : entries_ok v es -> building es gd gp s ->
  exists bs, uploads (finish_leaves s) (Ok (retained es, map (canon_root 0) (chunk_by (slot 0) es))) bs /\
    forall b, b ∈ level_nodes 0 es -> b ∈ map (canon_bytes 0) gd \/ b ∈ bs \/ b ∈ map DirObject.bytes (retained es).
Proof.
  intros Hes [_ _ Hn Hp Hleaf]. destruct (last es) as [z|] eqn:Hz; [|apply last_None in Hz; by destruct Hes].
  destruct Hleaf as [Hidx Hc]. set (g := leaf_entries s) in *.
  assert (shaped v 0 (slot 0 z) g) as Hg by (eapply last_chunk_slot; [done|by rewrite app_assoc in Hc|done]).
  assert (forall b, b ∈ level_nodes 0 es -> b ∈ map (canon_bytes 0) (chunk_by (slot 0) es)) as Hlevel.
  { intros b (c & Hcin & Hb)%level_nodes_elem. rewrite canon_nodes_leaf in Hb. apply list_elem_of_fmap. exists c. set_solver. }
  assert (uploads (push_last_leaf s) (Ok (map (item 0) (gp ++ [g]))) []) as Hpend.
  { unfold push_last_leaf. fold g. assert (is_empty g = false) as -> by (destruct g; [by destruct Hg as [[] _]|done]).
    rewrite Hidx, (encode_leaf_node_ok _ _ Hg), Hp, map_app. eapply uploads_step; [apply uploads_pure|apply uploads_ret]. }
  unfold finish_leaves, retained. rewrite Hc in Hlevel |- *. rewrite Hn.
  destruct (finish_match gd (gp ++ [g]) ltac:(by destruct gp)) as [(g1 & -> & Eg)|[Hm Hr]].
  - destruct gp as [|? gp]; [|by destruct gp]. injection Eg as <-. exists []. split; [|intros b Hb%Hlevel; right; right; exact Hb].
    eapply uploads_step; [exact Hpend|]. cbv beta. cbn [map app item]. apply uploads_ret.
  - rewrite Hr. exists (map (canon_bytes 0) (gp ++ [g])). split.
    + eapply uploads_step; [exact Hpend|]. cbv beta. rewrite Hm. apply flush_leaves.
    + intros b Hb%Hlevel. rewrite map_app, elem_of_app in Hb. tauto.
Qed.

(** ** The whole build *)

(** The page after the last one, the lock page skipped. *)
Lemma complete_end es : entries_ok v es -> 1 < lock_pgno (Ver.page_size v) -> complete v es ->
  covers (lock_pgno (Ver.page_size v)) 0 es = true /\
  next_page (lock_pgno (Ver.page_size v)) (last_page 0 es) =
  if Ver.database_pages v + 1 =? lock_pgno (Ver.page_size v) then Ver.database_pages v + 2 else Ver.database_pages v + 1.
Proof.
  intros [Hne Hs Hf] Hl Hc. split; [by eapply range_covers|].
  assert (1 <= Ver.database_pages v) as Hn.
  { destruct es as [|e es]; [done|]. apply Forall_cons in Hf as [[_ ? _ _ _ _ _ _] _]. lia. }
  pose proof (last_page_range (lock_pgno (Ver.page_size v)) (Ver.database_pages v) Hn ltac:(lia)) as Hlp. unfold complete in Hc.
  rewrite <- Hc in Hlp. change (map DirEntry.page es) with (DirEntry.page <$> es) in Hlp. rewrite fmap_last in Hlp.
  unfold last_page, next_page. rewrite Hlp. cbn. destruct (Z.eqb_spec (Ver.database_pages v) (lock_pgno (Ver.page_size v))) as [E|E].
  - rewrite (proj2 (Z.eqb_eq _ _)), (proj2 (Z.eqb_neq _ _)) by lia. lia.
  - destruct (Z.eqb_spec (Ver.database_pages v + 1) (lock_pgno (Ver.page_size v))); lia.
Qed.

(** A build is accepted unless the lock page is the one right after the database. *)
Definition buildable (es : list DirectoryEntry) : bool :=
  (len es =? expected_pages (Ver.page_size v) (Ver.database_pages v))
  && negb (Ver.database_pages v + 1 =? lock_pgno (Ver.page_size v)).

Lemma build_ok es : entries_ok v es -> is_valid_page_size (Ver.page_size v) = true ->
  exists bs, uploads (build_and_upload (map Ok es) (Ver.page_size v) (Ver.database_pages v))
      (if buildable es then Ok (DirTree.Mk (retained es) (canon_root (top_height 4 0 es) es) (Z.of_nat (top_height 4 0 es)))
       else Err LtxErr.LTXCorrupted) bs /\
    (buildable es = true -> forall b, b ∈ canon_nodes (top_height 4 0 es) es -> b ∈ bs \/ b ∈ map DirObject.bytes (retained es)).
Proof.
  intros Hes Hps. destruct (page_size_bounds _ Hps) as [_ Hlock]. set (lock := lock_pgno (Ver.page_size v)) in *.
  assert (1 <= Ver.database_pages v) as Hn.
  { destruct Hes as [Hne _ Hf]. destruct es as [|e es]; [done|]. apply Forall_cons in Hf as [[_ ? _ _ _ _ _ _] _]. lia. }
  unfold build_and_upload. rewrite (proj2 (Z.eqb_neq _ 0)) by lia. fold lock.
  assert (building [] [] [] (MkBuilding 1 0 None [] [] [])) as H0 by (by constructor).
  pose proof (build_entries_ok lock es ltac:(lia) [] [] [] _ (or_introl Hes) H0) as Hb. cbn [app] in Hb.
  change (last_page 0 []) with 0 in Hb. pose proof (complete_count v es Hes ltac:(fold lock; lia)) as Hcount.
  destruct (covers lock 0 es) eqn:Hc.
  2: { destruct Hb as [bs Hb]. exists bs. assert (buildable es = false) as ->.
       { unfold buildable. destruct (Z.eqb_spec (len es) (expected_pages (Ver.page_size v) (Ver.database_pages v))) as [E|E]; [|done].
         apply Hcount, complete_end in E as [E _]; [|done|fold lock; lia]. fold lock in E. congruence. }
       split; [by apply uploads_bind_err|done]. }
  destruct Hb as (s & gd & gp & bs1 & Hu1 & Hb & Hin1). destruct (finish_leaves_ok es gd gp s Hes Hb) as (bs2 & Hu2 & Hin2).
  destruct (upload_levels_ok es Hes 4 0 ltac:(lia) ltac:(lia)) as (bs3 & Hu3 & Hin3).
  assert ((negb ((if expected_page s =? lock then expected_page s + 1 else expected_page s) =? Ver.database_pages v + 1)
           || negb (live_pages s =? expected_pages (Ver.page_size v) (Ver.database_pages v))) = negb (buildable es)) as Hchk.
  { rewrite (bd_expected _ _ _ _ Hb), (bd_live _ _ _ _ Hb). unfold buildable. fold lock.
    assert ((if last_page 0 es + 1 =? lock then last_page 0 es + 1 + 1 else last_page 0 es + 1) = next_page lock (last_page 0 es)) as ->
      by (unfold next_page; destruct (Z.eqb_spec (last_page 0 es + 1) lock); lia).
    destruct (Z.eqb_spec (len es) (expected_pages (Ver.page_size v) (Ver.database_pages v))) as [E|E]; [|by rewrite orb_true_r].
    apply Hcount, complete_end in E as [_ E]; [|done|fold lock; lia]. fold lock in E. rewrite E.
    destruct (Z.eqb_spec (Ver.database_pages v + 1) lock); cbn [negb andb]; rewrite orb_false_r;
      [rewrite (proj2 (Z.eqb_neq _ _)) by lia|rewrite (proj2 (Z.eqb_eq _ _)) by lia]; done. }
  exists (bs1 ++ bs2 ++ (if buildable es then bs3 else [])). split.
  - eapply uploads_bind; [exact Hu1|]. cbv beta. eapply uploads_bind; [exact Hu2|]. cbv beta iota zeta. rewrite Hchk.
    destruct (buildable es); cbn [negb]; [|apply uploads_fail]. rewrite <- (app_nil_r bs3). eapply uploads_bind; [exact Hu3|].
    cbv beta iota. eapply uploads_step; [apply uploads_pure|]. apply uploads_ret.
  - intros -> b Hb'. destruct (top_single es Hes) as [Htop _]. specialize (Hin3 b). unfold level_nodes at 1 in Hin3. rewrite Htop in Hin3.
    cbn [map concat] in Hin3. rewrite app_nil_r in Hin3. destruct (Hin3 Hb') as [H1|H1]; [|set_solver].
    destruct (Hin2 b H1) as [H2|[H2|H2]]; [|set_solver|by right]. destruct (Hin1 b H2) as [H3|H3]; [by apply elem_of_nil in H3|set_solver].
Qed.
(** A complete database that ends right before the lock page is rejected, although
    the check of an incremental update accepts the same tree. *)
Theorem build_rejects_lock_boundary es objs w : entries_ok v es -> is_valid_page_size (Ver.page_size v) = true ->
  complete v es -> Ver.database_pages v + 1 = lock_pgno (Ver.page_size v) ->
  let top := top_height 4 0 es in
  (exists e, (build_and_upload (map Ok es) (Ver.page_size v) (Ver.database_pages v) w).2 = Err e)
  /\ finish_tree objs (canon_root top es) (Z.of_nat top) v (xor_sum (map DirEntry.checksum es)) =
     Ok (DirTree.Mk objs (canon_root top es) (Z.of_nat top)).
Proof.
  intros Hes Hps Hc Hlock top. destruct (page_size_bounds _ Hps) as [_ Hl]. split.
  - destruct (build_ok es Hes Hps) as (bs & Hu & _). assert (buildable es = false) as Hb.
    { unfold buildable. by rewrite Hlock, Z.eqb_refl, andb_false_r. }
    rewrite Hb in Hu. destruct (Hu w) as (_ & _ & [[-> _]|[_ ?]]); [by eexists|done].
  - destruct (top_single es Hes) as [Hone _]. destruct (finish_tree_exact v es top objs (xor_sum (map DirEntry.checksum es)) Hes Hone ltac:(lia)) as [-> _].
    apply (complete_count v es Hes ltac:(lia)) in Hc. by rewrite (proj2 (Z.eqb_eq _ _) Hc), Z.eqb_refl.
Qed.
End BuildProofs.

(** ** Putting objects

    A sound store grants permits and stores what is put; what it stores stays. *)
Class PutLaws (E : Type) `{NodeStore E, ObjectPut E} := {
  stored_at : E -> string -> list byte -> Prop;
  put_faulty : E -> Prop;
  put_permit_law e : (put_faulty (io_permit e).1 -> put_faulty e) /\
    (forall p b, stored_at e p b -> stored_at (io_permit e).1 p b) /\
    ((io_permit e).2 = Ok tt \/ put_faulty e /\ exists err, (io_permit e).2 = Err err);
  put_store_law path bytes e : (put_faulty (store_put path bytes e).1 -> put_faulty e) /\
    (forall p b, stored_at e p b -> stored_at (store_put path bytes e).1 p b) /\
    ((store_put path bytes e).2 = Ok tt /\ stored_at (store_put path bytes e).1 path bytes \/
     put_faulty e /\ exists err, (store_put path bytes e).2 = Err err)
}.

Section PutProofs.
Context {E : Type} `{HN : NodeStore E, HP : ObjectPut E, HB : Blake3} {PL : PutLaws E}.

Definition put_written (w : ReaderState E) (kind : CellObjectKind) (b : list byte) : Prop :=
  stored_at (env w) (incarnation_object_path kind (blake3 b)) b.
Definition put_poisoned (w : ReaderState E) : Prop := directories (bands w) = None \/ roots (bands w) = None \/ put_faulty (env w).

(** A step that keeps what is stored and adds [bs], or fails for a reason. *)
Definition put_step (kind : CellObjectKind) (bs : list (list byte)) (m : ReadM (ReaderState E) unit) : Prop := forall w,
  (put_poisoned (m w).1 -> put_poisoned w) /\ (forall k b, put_written w k b -> put_written (m w).1 k b) /\
  ((m w).2 = Ok tt /\ Forall (put_written (m w).1 kind) bs \/ put_poisoned w /\ exists e, (m w).2 = Err e).

Section Kind.
Context (kind : CellObjectKind) (Hkind : kind = KRoot \/ kind = KDirectory).

Lemma put_step_bind bs bs' m m' : put_step kind bs m -> put_step kind bs' m' -> put_step kind (bs ++ bs') (_ ← m; m').
Proof.
  intros Hm Hm' w. destruct (Hm w) as (H1 & H2 & H3).
  change ((_ ← m; m') w) with (match m w with (w, Ok a) => m' w | (w, Err x) => (w, Err x) end).
  destruct (m w) as [w' [[]|x]]; cbn [fst snd] in *.
  - destruct H3 as [[_ Hw]|[_ [e He]]]; [|done]. destruct (Hm' w') as (F1 & F2 & F3). split_and!; [tauto|by auto|].
    destruct F3 as [[-> Hw']|[? ?]]; [left|right; tauto]. split; [done|]. apply Forall_app. split; [|done].
    eapply Forall_impl; [exact Hw|]. intros b. apply F2.
  - split_and!; [done|done|]. right. destruct H3 as [[? _]|[? _]]; [done|]. split; [done|by exists x].
Qed.

Lemma put_step_permit : put_step kind [] (host io_permit).
Proof.
  intros w. unfold host, put_poisoned, put_written. destruct (put_permit_law (env w)) as (H1 & H2 & H3).
  destruct (io_permit (env w)) as [e r]. cbn [fst snd env bands] in *. split_and!; [tauto|by auto|].
  destruct H3 as [->|[? ?]]; [by left|right; tauto].
Qed.
Lemma put_step_store b : put_step kind [b] (host (store_put (incarnation_object_path kind (blake3 b)) b)).
Proof.
  intros w. unfold host, put_poisoned, put_written. destruct (put_store_law (incarnation_object_path kind (blake3 b)) b (env w)) as (H1 & H2 & H3).
  destruct (store_put _ b (env w)) as [e r]. cbn [fst snd env bands] in *. split_and!; [tauto|by auto|].
  destruct H3 as [[-> Hs]|[? ?]]; [left; split; [done|by repeat constructor]|right; tauto].
Qed.
Lemma put_step_cache d b : put_step kind [] (metadata_insert d kind b).
Proof.
  intros w. unfold metadata_insert, Immutable.insert, lock_band, band, put_poisoned, put_written.
  destruct Hkind as [->| ->]; cbn [mbind result_bind].
  - destruct (roots (bands w)) as [c|] eqn:Ec; cbn [ok_or mbind result_bind].
    + destruct (cache_insert c _ b) as [c' b']. cbn [fst snd env bands roots directories set_band]. split_and!; [|done|by left].
      intros [?|[?|?]]; [by left|done|right; by right].
    + cbn [fst snd]. split_and!; [tauto|done|]. right. split; [right; by left|by eexists].
  - destruct (directories (bands w)) as [c|] eqn:Ec; cbn [ok_or mbind result_bind].
    + destruct (cache_insert c _ b) as [c' b']. cbn [fst snd env bands roots directories set_band]. split_and!; [|done|by left].
      intros [?|[?|?]]; [done|right; by left|right; by right].
    + cbn [fst snd]. split_and!; [by left|done|]. right. split; [by left|by eexists].
Qed.

Lemma put_object_step d b : blake3 b = d -> put_step kind [b] (put_object_bytes d kind b).
Proof.
  intros <-. unfold put_object_bytes. rewrite bool_decide_eq_true_2 by done. cbn [negb].
  apply (put_step_bind [] [b]); [apply put_step_permit|]. apply (put_step_bind [b] []); [apply put_step_store|].
  pose proof (put_step_cache (blake3 b) b). by destruct Hkind as [->| ->].
Qed.

Lemma put_all_step objs : Forall (fun o => blake3 o.2 = o.1) objs -> put_step kind (map snd objs) (put_all kind objs).
Proof.
  induction 1 as [|[d b] objs Hd _ IH]; cbn [put_all map].
  - intros w. split_and!; [done|done|]. left. by split.
  - apply (put_step_bind [b]); [by apply put_object_step|done].
Qed.
End Kind.

(** The replica's uploads meet what the builder asks of a writer. *)
#[global] Instance replica_writer_laws : WriterLaws (ReaderState E).
Proof. refine {| written := put_written; write_faulty := put_poisoned |}. intros kind objs w Hk Hf. by apply put_all_step. Defined.
End PutProofs.

(** ** An initial directory *)

(** A stream with an error builds nothing. *)
Lemma build_entries_error {W} `{ObjectWriter W, Blake3} lock n l err rest s w :
  exists e, (build_entries lock n (map Ok l ++ Err err :: rest) s w).2 = Err e.
Proof.
  revert s w. induction l as [|x l IH]; intros s w; cbn [map app build_entries]; [by exists err|].
  rewrite run_bind. cbn [pure]. rewrite run_bind.
  destruct (build_entry lock n s x w) as [w' [s'|e]]; [apply IH|by exists e].
Qed.
Lemma build_error {W} `{ObjectWriter W, Blake3} ps n l err rest w :
  exists e, (build_and_upload (map Ok l ++ Err err :: rest) ps n w).2 = Err e.
Proof.
  unfold build_and_upload. destruct (n =? 0); [by exists LtxErr.LTXCorrupted|].
  destruct (build_entries_error (lock_pgno ps) n l err rest (MkBuilding 1 0 None [] [] []) w) as [e He].
  cbv zeta. rewrite run_bind.
  destruct (build_entries _ _ _ _ w) as [w' [s|e']]; [done|by exists e'].
Qed.
