(* ===== verification/Preparation.v ===== *)
(** * Preparation: the directory of a root that is being prepared

    Models the choice of [finish_preparation] in
    [crates/cellule-ltx/src/replica/prepare.rs]: the first root of a Cell builds its
    directory from all segments, every later one updates the directory of its base
    with the new segments. The theorems join the parts: the directory built from a
    chain of segments holds the locators the chain leaves, and updating the
    directory of a chain with more segments gives the directory of the longer
    chain. *)

From Stdlib Require Import ZArith Lia.
From Stdlib Require Import Strings.Byte.
From stdpp Require Import base gmap strings numbers sorting.
From stdpp Require Import list.
From S2P Require Import Prelude OrdMap Bytes Identity Text LtxTypes Lz4 Ltx LtxCodec PagedIndex DirectoryNode ReplicaCache Directory DirectoryShape DirectoryUpdate Root Merge Graph Segments DirectoryBuild.

Local Open Scope bool_scope.

Module BaseState.
(*@ cellule-ltx/src/replica/mod.rs 896-907 AppendBaseState *)
Record AppendBaseState := Mk {
  private_directory : option DirectoryTree;
  aggregate : Aggregate;
  directory_digest : Digest;
  directory_height : Z;
  directory_inline : option (list byte);
  page_size : Z;
  database_pages : Z;
  inherited_segment_pages : list Digest;
  descriptors : list SegmentDescriptor
}.
End BaseState.
Abbreviation AppendBaseState := BaseState.AppendBaseState.

Section Prepare.
Context {W : Type} `{NodeReader W, ObjectWriter W, Blake3}.

(** The directory of the first segments. *)
(*@ cellule-ltx/src/replica/prepare.rs 791-804 CellReplica::finish_preparation *)
Definition initial_directory (inputs : list DirectoryInput) (page_size database_pages checksum : Z) : ReadM W DirectoryTree :=
  entries ← pure (initial_entries inputs);
  directory ← build_and_upload (entries_stream entries) page_size database_pages;
  if negb (Agg.checksum (Node.aggregate (DirTree.root directory)) =? checksum) then fail LtxErr.ChecksumMismatch else mret directory.

(** The directory of an append. *)
(*@ cellule-ltx/src/replica/prepare.rs 753-790 CellReplica::finish_preparation *)
Definition appended_directory (graph : AppendBaseState) (extents : Extents) (inputs : list DirectoryInput)
    (page_size database_pages checksum : Z) : ReadM W DirectoryTree :=
  '(changes, retain_through) ← pure (directory_changes inputs (BaseState.database_pages graph));
  base_extents ← pure (object_extents (BaseState.descriptors graph));
  update_run
    (Ver.Mk (BaseState.page_size graph) (BaseState.database_pages graph) (BaseState.directory_inline graph) base_extents)
    (DirRoot.Mk (BaseState.directory_digest graph) (BaseState.directory_height graph) (BaseState.aggregate graph))
    changes retain_through (Ver.Mk page_size database_pages None extents) checksum (BaseState.private_directory graph).

(** The part of [finish_preparation] before the root is finished. *)
(*@ cellule-ltx/src/replica/prepare.rs 736-804 CellReplica::finish_preparation *)
Definition prepare_directory (limits : Limits) (base_graph : option AppendBaseState) (descriptors : list SegmentDescriptor)
    (inputs : list DirectoryInput) (checksum : Z) : ReadM W DirectoryTree :=
  _ ← pure (validate_descriptors descriptors limits);
  endpoint ← pure (ok_or (last descriptors) LtxErr.LTXCorrupted);
  let page_size := Segment.page_size (Desc.info endpoint) in
  let database_pages := Segment.database_pages (Desc.info endpoint) in
  extents ← pure (object_extents descriptors);
  match base_graph with
  | Some graph => appended_directory graph extents inputs page_size database_pages checksum
  | None => initial_directory inputs page_size database_pages checksum
  end.
End Prepare.

(** * Proofs *)

(** A complete list of entries under one node lies under the first one. *)
Lemma complete_shaped v level es : entries_ok v es -> is_valid_page_size (Ver.page_size v) = true -> complete v es ->
  (top_height 4 0 es <= level <= 3)%nat -> shaped v level 0 es.
Proof.
  intros He Hps Hc [Hlo Hhi]. destruct (page_size_bounds _ Hps) as [_ Hlock]. destruct (top_single v es He) as [Hone _].
  assert (shaped v (top_height 4 0 es) 0 es) as Hs.
  { by apply (finish_tree_exact v es (top_height 4 0 es) [] 0 He Hone ltac:(lia)). }
  clear Hhi. induction Hlo as [|level _ IH]; [done|]. destruct IH as [_ Hsl]. constructor; [done|].
  eapply Forall_impl; [exact Hsl|]. cbn beta. intros e E. by rewrite slot_step, E.
Qed.

Section Initial.
Context {E : Type} `{HN : NodeStore E, HP : ObjectPut E, HB : Blake3} {PL : PutLaws E}.

(** What can be read of a tree: the objects stored and those handed back. *)
Definition at_hand (w : ReaderState E) (t : DirectoryTree) (b : list byte) : Prop :=
  put_written w KDirectory b \/ b ∈ map DirObject.bytes (DirTree.objects t).

Definition initial_tree (es : list DirectoryEntry) : DirectoryTree :=
  DirTree.Mk (retained es) (canon_root (top_height 4 0 es) es) (Z.of_nat (top_height 4 0 es)).

Lemma initial_uploads v inputs ess checksum : is_valid_page_size (Ver.page_size v) = true -> segments v inputs ess ->
  let es := entries_after inputs ess in
  exists bs, uploads (W := ReaderState E) (initial_directory inputs (Ver.page_size v) (Ver.database_pages v) checksum)
      (if negb (buildable v es) then Err LtxErr.LTXCorrupted
       else if xor_sum (map DirEntry.checksum es) =? checksum then Ok (initial_tree es) else Err LtxErr.ChecksumMismatch) bs
    /\ (buildable v es = true -> forall b, b ∈ canon_nodes (top_height 4 0 es) es -> b ∈ bs \/ b ∈ map DirObject.bytes (retained es)).
Proof.
  intros Hps Hs es. pose proof (segments_entries _ _ _ Hs) as He. destruct (sg_last _ _ _ Hs) as (i & _ & Hi & _).
  assert (inputs <> []) as Hne by (by intros ->).
  destruct (initial_stream_ok inputs ess Hne (segments_pages _ _ _ Hs) (sg_locators _ _ _ Hs)) as (it & Hit & Hst).
  destruct (build_ok (W := ReaderState E) v es He Hps) as (bs & Hu & Hb). exists bs. split; [|exact Hb].
  unfold initial_directory. rewrite Hit. eapply uploads_step; [apply uploads_pure|]. cbv beta.
  rewrite Hst, <- (map_map snd Ok). fold es. destruct (buildable v es); cbn [negb]; [|by apply uploads_bind_err].
  rewrite <- (app_nil_r bs). eapply uploads_bind; [exact Hu|]. cbv beta.
  assert (Agg.checksum (Node.aggregate (DirTree.root (initial_tree es))) = xor_sum (map DirEntry.checksum es)) as Hx.
  { cbn [DirTree.root initial_tree]. by rewrite canon_root_eq. }
  fold (initial_tree es). rewrite Hx.
  destruct (_ =? checksum); cbn [negb]; [apply uploads_ret|apply uploads_fail].
Qed.

(** C19: the first root of a Cell gets the directory its segments call for. When
    some index is not valid nothing is returned. Of a chain of [segments] (valid
    indexes whose checksums carry their flag, objects whose extents are accepted
    together, a last segment with a page), unless a store call fails, the result is decided by the locators that replaying the segments
    leaves: the canonical tree over exactly these, when they are complete, the
    database does not end right before the lock page and the checksum is the one
    expected, and an error else. The tree can be read from what was uploaded and
    the leaf that is handed back, and nothing stored before is lost. *)
Theorem initial_directory_exact v inputs checksum (w : ReaderState E) : inputs <> [] -> is_valid_page_size (Ver.page_size v) = true ->
  let run := initial_directory inputs (Ver.page_size v) (Ver.database_pages v) checksum w in
  (forall x, collect input_locators inputs = Err x -> exists e, run.2 = Err e) /\
  (forall ess, segments v inputs ess ->
    let es := entries_after inputs ess in
    (forall k b, put_written w k b -> put_written run.1 k b) /\
    (put_poisoned w /\ (exists e, run.2 = Err e) \/
     run.2 = (if negb (buildable v es) then Err LtxErr.LTXCorrupted
              else if xor_sum (map DirEntry.checksum es) =? checksum then Ok (initial_tree es) else Err LtxErr.ChecksumMismatch)) /\
    (forall t, run.2 = Ok t -> complete v es /\
       tree (at_hand run.1 t) v (Z.to_nat (DirTree.height t)) (Node.digest (DirTree.root t)) es)).
Proof.
  intros Hne Hps run. split.
  - intros x Hx. pose proof (initial_stream_error inputs x Hne Hx) as Hi. unfold run, initial_directory. rewrite run_bind. cbn [pure].
    destruct (initial_entries inputs) as [it|e]; [|by exists e]. destruct Hi as (l & err & ->).
    destruct (build_error (W := ReaderState E) (Ver.page_size v) (Ver.database_pages v) l err [] w) as [e He].
    rewrite run_bind. destruct (build_and_upload _ _ _ w) as [w' [t|e']]; [done|by exists e'].
  - intros ess Hs es. destruct (initial_uploads v inputs ess checksum Hps Hs) as (bs & Hu & Hb). fold es in Hu, Hb.
    destruct (Hu w) as (_ & Hw & Hr). fold run in Hw, Hr. split; [done|]. split; [tauto|].
    intros t Ht. destruct Hr as [[Hr Hbs]|[_ [e He]]]; [|congruence]. rewrite Ht in Hr. destruct (buildable v es) eqn:Hbl; [|done].
    cbn [negb] in Hr. destruct (_ =? checksum); [|done]. injection Hr as ->. cbn [DirTree.height DirTree.root DirTree.objects initial_tree].
    rewrite Nat2Z.id. pose proof (segments_entries _ _ _ Hs) as He. destruct (page_size_bounds _ Hps) as [_ Hlock].
    assert (complete v es) as Hc.
    { apply (complete_count v es He ltac:(lia)). unfold buildable in Hbl. guards_in Hbl. apply Hbl. }
    split; [done|]. eapply canon_tree; [apply complete_shaped; [done|done|done|pose proof (top_single v es He); lia]|].
    apply Forall_forall. intros b [Hb'|Hb']%(Hb eq_refl); [left|by right]. rewrite Forall_forall in Hbs. by apply Hbs.
Qed.
End Initial.

Section Append.
Context {E : Type} `{HN : NodeStore E, HW : ObjectWriter (ReaderState E), HB : Blake3} (objects known : list byte -> Prop)
  `{HL : !StoreLaws E objects known} (objects_small : forall b, objects b -> len b <= MAX_NODE_BYTES).

(** The base of an append: the root over a chain of segments, its directory stored,
    or prepared by an earlier append and still at hand. *)
Record base_ok (final : Verification) (graph : AppendBaseState) (v : Verification) (height : nat) (inputs : list DirectoryInput)
    (ess : list (list DirectoryEntry)) : Prop := {
  bo_segments : segments v inputs ess;
  bo_fields : v = Ver.Mk (BaseState.page_size graph) (BaseState.database_pages graph) (BaseState.directory_inline graph) (Ver.extents v);
  bo_descriptors : BaseState.descriptors graph = map DirInput.descriptor inputs;
  bo_root : DirRoot.Mk (BaseState.directory_digest graph) (BaseState.directory_height graph) (BaseState.aggregate graph) =
            old_root height (entries_after inputs ess);
  bo_complete : complete v (entries_after inputs ess);
  bo_height : (top_height 4 0 (entries_after inputs ess) <= height <= 3)%nat;
  bo_inline : verification_ok known v;
  bo_stored : match BaseState.private_directory graph with
              | None => Forall (nodes_with objects v) (canon_nodes height (entries_after inputs ess))
              | Some leaf => height = 0%nat /\ private_ok (nodes_with objects v) known final leaf (entries_after inputs ess)
              end
}.

(** C18: an append gives the canonical directory of what the chain leaves. Over the
    root of a chain of segments, the changes of the new ones lead to the canonical
    tree over exactly the locators that replaying the old and the new segments
    leaves, of the least height that is at least the base's and has a single root:
    an append never lowers a tree, so after a shrink it may be higher than the tree
    of a first root. The tree is returned when the locators are complete and have the
    checksum expected, and rejected otherwise; truncations by any of the new segments
    are accounted for. It can be read from the objects of the base and the objects
    the update adds. The chains are of [segments]: valid indexes whose checksums
    carry their flag, objects whose extents are accepted together, and a last
    segment with a page. *)
Theorem append_exact final graph base height inputs ess inputs' ess' checksum w :
  let new := entries_after (inputs ++ inputs') (ess ++ ess') in
  let top := top_height 4 height new in
  base_ok final graph base height inputs ess -> inputs' <> [] -> segments final (inputs ++ inputs') (ess ++ ess') ->
  is_valid_page_size (Ver.page_size final) = true -> Ver.inline_root final = None ->
  Forall known (canon_nodes top new) -> state_ok known w ->
  exists added,
    reads_as objects known w
      (appended_directory (H := cached_reader) graph (Ver.extents final) inputs' (Ver.page_size final) (Ver.database_pages final) checksum)
      (if (len new =? expected_pages (Ver.page_size final) (Ver.database_pages final))
          && (xor_sum (map DirEntry.checksum new) =? checksum)
       then Ok (DirTree.Mk added (canon_root top new) (Z.of_nat top)) else Err LtxErr.ChecksumMismatch)
    /\ (complete final new -> tree (with_added objects base added) final top (Node.digest (canon_root top new)) new)
    /\ (height <= top)%nat /\ chunk_by (slot top) new = [new]
    /\ (forall h, (height <= h < top)%nat -> (1 < length (chunk_by (slot h) new))%nat).
Proof.
  intros new top [Hseg Hfields Hdesc Hroot Hcomp Hheight Hinline Hstored] Hne Hfinal Hps Hnone Hk Hw.
  destruct (page_size_bounds _ Hps) as [_ Hlock]. pose proof (append_page_size _ _ _ _ _ _ Hseg Hfinal) as Eps.
  pose proof (append_retain _ _ _ _ _ _ Hseg Hfinal Hne) as [Hrb Hrf].
  pose proof (append_merged _ _ _ _ _ _ Hseg Hfinal Hne) as Hm.
  pose proof (append_changes _ _ _ _ _ _ Hseg Hfinal) as Hch.
  apply Forall_and in Hch as [Hch Hpe].
  destruct (update_computes objects known objects_small base final height (entries_after inputs ess) (replay (cuts inputs' ess'))
    (foldl Z.min (Ver.database_pages base) (map input_pages inputs')) checksum (BaseState.private_directory graph))
    as (added & Hc & _ & Hall & Hone); rewrite ?Hm; try done; [lia| |apply replay_sorted|by rewrite Forall_map|by apply segments_entries|].
  { apply complete_shaped; [by apply segments_entries|by rewrite Eps|done|done]. }
  rewrite Hm in Hc, Hall, Hone. fold new top in Hc, Hall, Hone. exists added.
  destruct (finish_tree_exact final new top added checksum (segments_entries _ _ _ Hfinal) Hone ltac:(lia)) as [Hfin Hsh].
  destruct (top_height_least 4 height new) as [Hle Hleast]. split_and!; [| |done..].
  - rewrite <- Hfin. apply (cached_reads objects known objects_small base); [|done]. unfold appended_directory.
    rewrite (directory_changes_ok inputs' ess' _ (append_locators _ _ _ _ _ _ Hseg Hfinal)), Hdesc, (sg_extents _ _ _ Hseg), Hroot.
    assert (Ver.Mk (Ver.page_size final) (Ver.database_pages final) None (Ver.extents final) = final) as Ef.
    { rewrite <- Hnone. by destruct final. }
    eapply computes_bind_Ok; [apply computes_pure|]. eapply computes_bind_Ok; [apply computes_pure|]. cbv beta.
    rewrite <- Hfields, Ef. by replace (BaseState.database_pages graph) with (Ver.database_pages base) by (by rewrite Hfields).
  - intros Hcf. by eapply canon_tree, Hall; apply Hsh.
Qed.
End Append.

(** Two segments: the first has two pages, the second rewrites the second page and
    adds a third. *)
Module PreparationDemo.
Definition chain : list DirectoryInput :=
  [MergeDemo.input 2 x07 (MergeDemo.record 1 100 20 ++ MergeDemo.record 2 120 20);
   MergeDemo.input 3 x08 (MergeDemo.record 2 100 20 ++ MergeDemo.record 3 120 20)].
Definition first_entries : list DirectoryEntry := [MergeDemo.entry 1 x07 100; MergeDemo.entry 2 x07 120].
Definition second_entries : list DirectoryEntry := [MergeDemo.entry 2 x08 100; MergeDemo.entry 3 x08 120].
Definition located : list (list DirectoryEntry) := [first_entries; second_entries].
Definition all_entries : list DirectoryEntry := [MergeDemo.entry 1 x07 100; MergeDemo.entry 2 x08 100; MergeDemo.entry 3 x08 120].
Definition extents_upto (n : nat) : Extents :=
  match object_extents (map DirInput.descriptor (take n chain)) with Ok x => x | Err _ => ∅ end.
Definition version (n : nat) : Verification := Ver.Mk 4096 (Z.of_nat n + 1) None (extents_upto n).

Lemma extents_known n : (n <= 2)%nat -> object_extents (map DirInput.descriptor (take n chain)) = Ok (extents_upto n).
Proof.
  intros Hn. unfold extents_upto. assert (is_ok (object_extents (map DirInput.descriptor (take n chain))) = true) as H.
  { destruct n as [|[|[|]]]; [by vm_compute..|lia]. }
  by destruct (object_extents _).
Qed.

Lemma chain_segments n : (1 <= n <= 2)%nat -> segments (version n) (take n chain) (take n located).
Proof.
  intros Hn. constructor; [| | | |apply extents_known; lia| |]; destruct n as [|[|[|]]]; try lia; cbn [take chain located].
  all: try (repeat constructor; vm_compute; (discriminate || reflexivity)).
  all: try (apply collect_Forall2, (bool_decide_unpack _); vm_compute; exact I).
  all: eexists _, _; split_and!; [done|done|by vm_compute|done].
Qed.

(** A store that keeps what is put; its reads answer with the first leaf. *)
Definition Disk : Type := list (string * list byte).
#[local] Existing Instance UpdateDemo.digest.
#[export] Instance disk_store : NodeStore Disk := {|
  cache_identity := 1;
  incarnation_object_path := fun kind _ => match kind with KRoot => "root" | _ => "node" end;
  directory_cache_get := fun _ _ => mret None;
  directory_cache_put := fun _ _ _ => mret tt;
  directory_cache_invalidate := fun _ => mret tt;
  io_permit := mret tt;
  get_with_etag_bounded := fun _ _ => mret (canon_bytes 0 first_entries)
|}.
#[export] Instance disk_put : ObjectPut Disk := fun path bytes disk => ((path, bytes) :: disk, Ok tt).
#[export] Instance disk_put_laws : PutLaws Disk.
Proof.
  refine {| stored_at := fun disk path bytes => (path, bytes) ∈ disk; put_faulty := fun _ => False |}.
  - intros e. cbn. split_and!; [done|done|by left].
  - intros path bytes e. cbn. split_and!; [done|set_solver|]. left. split; [done|set_solver].
Defined.

Definition stored_leaf (b : list byte) : Prop := b = canon_bytes 0 first_entries.
Definition leaf_node (b : list byte) : Prop := stored_leaf b \/ b = canon_bytes 0 all_entries.
Definition start : ReaderState Disk := MkReader (MkBands (Some cache_default) (Some cache_default)) [].

Lemma leaf_digests_differ : blake3 (canon_bytes 0 first_entries) <> blake3 (canon_bytes 0 all_entries).
Proof. vm_compute. discriminate. Qed.
Lemma leaf_nodes_unique b b' : leaf_node b -> leaf_node b' -> blake3 b = blake3 b' -> b = b'.
Proof. pose proof leaf_digests_differ. intros [->| ->] [->| ->] E; congruence. Qed.
Lemma stored_leaf_small b : stored_leaf b -> len b <= MAX_NODE_BYTES.
Proof. intros ->. vm_compute. discriminate. Qed.

#[export] Instance disk_laws : StoreLaws Disk stored_leaf leaf_node.
Proof.
  refine {| store_faulty := fun _ => False; objects_known := fun b H => or_introl H; known_digests := leaf_nodes_unique |}; try done.
  - intros e. split; [done|by left].
  - intros d n e. cbn. split_and!; [done|by left|]. right. by intros b -> _ _.
Defined.

(** The root over the first segment. *)
Definition graph : AppendBaseState :=
  BaseState.Mk None (leaf_agg first_entries) (Node.digest (canon_root 0 first_entries)) 0 None 4096 2 [] (map DirInput.descriptor (take 1 chain)).
Lemma graph_ok final : base_ok stored_leaf leaf_node final graph (version 1) 0 (take 1 chain) (take 1 located).
Proof.
  assert (entries_after (take 1 chain) (take 1 located) = first_entries) as E by (by vm_compute).
  constructor; rewrite ?E; [apply chain_segments; lia|done|done|done|by vm_compute| |done|constructor; [by left|constructor]].
  split; [by vm_compute|lia].
Qed.
Lemma all_after : entries_after chain located = all_entries.
Proof. by vm_compute. Qed.
End PreparationDemo.

#[local] Existing Instances UpdateDemo.digest PreparationDemo.disk_store PreparationDemo.disk_put PreparationDemo.disk_put_laws PreparationDemo.disk_laws.

Lemma initial_directory_exact_witness :
  (initial_directory PreparationDemo.chain 4096 3 CHECKSUM_FLAG PreparationDemo.start).2 = Ok (initial_tree PreparationDemo.all_entries).
Proof.
  destruct (initial_directory_exact (PreparationDemo.version 2) PreparationDemo.chain CHECKSUM_FLAG PreparationDemo.start
    ltac:(discriminate) eq_refl) as [_ H].
  destruct (H PreparationDemo.located (PreparationDemo.chain_segments 2 ltac:(lia))) as (_ & [[Hp _]|Hr] & _).
  { destruct Hp as [?|[?|[]]]; discriminate. }
  rewrite PreparationDemo.all_after in Hr. exact Hr.
Defined.

Lemma append_exact_witness :
  exists added,
    reads_as PreparationDemo.stored_leaf PreparationDemo.leaf_node PreparationDemo.start
      (appended_directory (H := cached_reader) PreparationDemo.graph (PreparationDemo.extents_upto 2) (drop 1 PreparationDemo.chain) 4096 3 CHECKSUM_FLAG)
      (Ok (DirTree.Mk added (canon_root 0 PreparationDemo.all_entries) 0)).
Proof.
  destruct (append_exact PreparationDemo.stored_leaf PreparationDemo.leaf_node PreparationDemo.stored_leaf_small
    (PreparationDemo.version 2) PreparationDemo.graph (PreparationDemo.version 1) 0 (take 1 PreparationDemo.chain) (take 1 PreparationDemo.located)
    (drop 1 PreparationDemo.chain) (drop 1 PreparationDemo.located) CHECKSUM_FLAG PreparationDemo.start
    (PreparationDemo.graph_ok _)) as (added & Hr & _).
  - discriminate.
  - apply (PreparationDemo.chain_segments 2). lia.
  - done.
  - done.
  - rewrite !take_drop, PreparationDemo.all_after. constructor; [by right|constructor].
  - intros c [= <-] d b Hg. by vm_compute in Hg.
  - exists added. rewrite !take_drop, PreparationDemo.all_after in Hr. exact Hr.
Defined.
