(* ===== verification/Publication.v ===== *)
(** * Publication: from a directory to a published root, and back

    Models [finish_root] of [crates/cellule-ltx/src/replica/prepare.rs]: the
    descriptors are cut into pages, a small tail stays in the root document, a
    small leaf is inlined, and the new objects are uploaded; nothing is returned
    before that. The theorem follows a publication to the reader that opens it. *)

From Stdlib Require Import ZArith Lia.
From Stdlib Require Import Strings.Byte.
From stdpp Require Import base gmap strings numbers sorting.
From stdpp Require Import list.
From S2P Require Import Prelude OrdMap Bytes Identity Text LtxTypes Lz4 Ltx LtxCodec PagedIndex DirectoryNode ReplicaCache Directory DirectoryShape DirectoryUpdate Control Root Merge Graph Segments DirectoryBuild Preparation.

Local Open Scope bool_scope.

(** [slice::chunks]: the last chunk may be short. *)
Fixpoint slice_chunks {A} (fuel n : nat) (l : list A) : list (list A) :=
  match fuel, l with
  | S fuel, _ :: _ => take n l :: slice_chunks fuel n (drop n l)
  | _, _ => []
  end.
Definition chunks {A} (n : Z) (l : list A) : list (list A) := slice_chunks (length l) (Z.to_nat n) l.

Module Preparing.
(*@ cellule-ltx/src/replica/preparation.rs 11-14 RootPreparation *)
Record RootPreparation := Mk { root : LtxRootRef; predecessor : option LtxRootRef }.
End Preparing.
Abbreviation RootPreparation := Preparing.RootPreparation.

Module Prepared.
(*@ cellule-ltx/src/replica/mod.rs 135-138 PreparedRoot *)
Record PreparedRoot := Mk { predecessor : option LtxRootRef; verified : VerifiedRoot }.
End Prepared.

(** The metadata a host retains of a preparation, under a permit; none unless set. *)
Class RootMetadata (W : Type) := root_metadata : option (RootPreparation -> ReadM W unit).

Section Publish.
Context {W : Type} `{ObjectWriter W, RootMetadata W, Blake3, Json RootWire, Json (list SegmentWire)}.
Context (r : CellReplica).

(** The digests of the pages and those of the pages that are not inherited. *)
(*@ cellule-ltx/src/replica/prepare.rs 846-856 CellReplica::finish_root *)
Fixpoint segment_page_objects (inherited : list Digest) (pages : list (list SegmentDescriptor))
  : LtxResult (list Digest * list (Digest * list byte)) :=
  match pages with
  | [] => Ok ([], [])
  | page :: pages =>
      bytes ← encode_segment_page page;
      let digest := blake3 bytes in
      '(segment_pages, root_objects) ← segment_page_objects inherited pages;
      Ok (digest :: segment_pages,
          if bool_decide (digest ∈ inherited) then root_objects else (digest, bytes) :: root_objects)
  end.

Definition with_inline (document : RootDocument) (o : option (list byte)) : RootDocument :=
  RootDoc.Mk (RootDoc.cell document) (RootDoc.checksum document) (RootDoc.commit_sequence document) (RootDoc.database_pages document)
    (RootDoc.directory_digest document) (RootDoc.directory_height document) o (RootDoc.incarnation document) (RootDoc.page_size document)
    (RootDoc.schema document) (RootDoc.segment_pages document) (RootDoc.segments document) (RootDoc.txid document).

(*@ cellule-ltx/src/replica/prepare.rs 875-891 CellReplica::finish_root *)
Definition inline_leaf (document : RootDocument) (directory : DirectoryTree) : RootDocument :=
  if DirTree.height directory =? 0 then
    match List.find (fun node => bool_decide (DirObject.digest node = Node.digest (DirTree.root directory))) (DirTree.objects directory) with
    | Some leaf =>
        if len (DirObject.bytes leaf) <=? INLINE_DIRECTORY_BYTES then
          let inlined := with_inline document (Some (DirObject.bytes leaf)) in
          match encode_root inlined with
          | Err (LtxErr.Limit Limit.CellRootBytes) => document
          | _ => inlined
          end
        else document
    | None => document
    end
  else document.

(*@ cellule-ltx/src/replica/prepare.rs 892-899 CellReplica::finish_root *)
Definition directory_uploads (document : RootDocument) (directory : DirectoryTree) : list (Digest * list byte) :=
  map (fun node => (DirObject.digest node, DirObject.bytes node))
    (List.filter (fun node => is_none (RootDoc.directory_inline document)
                              || negb (bool_decide (DirObject.digest node = RootDoc.directory_digest document)))
       (DirTree.objects directory)).

(** What is uploaded and returned, before anything is. *)
Record RootPlan := MkPlan {
  plan_objects : list (Digest * list byte);
  plan_directory : list (Digest * list byte);
  plan_document : RootDocument;
  plan_verified : VerifiedRoot
}.

(*@ cellule-ltx/src/replica/prepare.rs 835-921 CellReplica::finish_root *)
Definition plan_root (inherited : list Digest) (descriptors : list SegmentDescriptor) (target : Position)
    (commit_sequence schema page_size database_pages : Z) (directory : DirectoryTree) : LtxResult RootPlan :=
  if negb (Agg.checksum (Node.aggregate (DirTree.root directory)) =? Pos.checksum target) then Err LtxErr.ChecksumMismatch
  else
    let tail := len descriptors mod SEGMENTS_PER_PAGE in
    let inline_count := if tail <=? MAX_INLINE_SEGMENTS then tail else 0 in
    let external_count := Z.to_nat (len descriptors - inline_count) in
    '(segment_pages, root_objects) ← segment_page_objects inherited (chunks SEGMENTS_PER_PAGE (take external_count descriptors));
    if MAX_SEGMENT_PAGES <? len segment_pages then Err (LtxErr.Limit Limit.CellRootSegmentPages)
    else
      let document := inline_leaf
        (RootDoc.Mk (Replica.cell r) (Pos.checksum target) commit_sequence database_pages (Node.digest (DirTree.root directory))
           (DirTree.height directory) None (Replica.incarnation r) page_size schema segment_pages (drop external_count descriptors)
           (Pos.txid target)) directory in
      bytes ← encode_root document;
      let digest := blake3 bytes in
      let root := MkLtxRoot (Replica.cell r) (Replica.incarnation r) digest (Pos.txid target) (Pos.checksum target) commit_sequence in
      verified ← from_graph root document descriptors;
      Ok (MkPlan (root_objects ++ [(digest, bytes)]) (directory_uploads document directory) document verified).

(** The uploads and the metadata, one after the other. *)
(*@ cellule-ltx/src/replica/prepare.rs 823-948 CellReplica::finish_root *)
Definition finish_root (base : option LtxRootRef) (inherited : list Digest) (descriptors : list SegmentDescriptor) (target : Position)
    (commit_sequence schema page_size database_pages : Z) (directory : DirectoryTree) : ReadM W Prepared.PreparedRoot :=
  plan ← pure (plan_root inherited descriptors target commit_sequence schema page_size database_pages directory);
  let predecessor := match Replica.preparation_predecessor r with Some p => Some p | None => base end in
  _ ← put_objects KRoot (plan_objects plan);
  _ ← put_objects KDirectory (plan_directory plan);
  _ ← match root_metadata with
      | Some retain => retain (Preparing.Mk (View.root (plan_verified plan)) predecessor)
      | None => mret tt
      end;
  mret (Prepared.Mk predecessor (plan_verified plan)).
End Publish.

(** * Proofs *)

Lemma slice_chunks_concat {A} (n fuel : nat) (l : list A) : (0 < n)%nat -> (length l <= fuel)%nat -> concat (slice_chunks fuel n l) = l.
Proof.
  intros Hn. revert l. induction fuel as [|fuel IH]; intros l Hl; [by destruct l; [|cbn in Hl; lia]|].
  destruct l as [|x l]; [done|]. cbn [slice_chunks concat]. rewrite IH by (rewrite length_drop; cbn in *; lia). apply take_drop.
Qed.
Lemma slice_chunks_bounds {A} (n fuel : nat) (l : list A) : (0 < n)%nat -> Forall (fun c => 0 < len c <= Z.of_nat n) (slice_chunks fuel n l).
Proof.
  intros Hn. revert l. induction fuel as [|fuel IH]; intros l; [constructor|]. destruct l as [|x l]; [constructor|].
  cbn [slice_chunks]. constructor; [|apply IH]. unfold len. rewrite length_take. cbn [length]. lia.
Qed.
Lemma page_chunks_concat {A} n (l : list A) : 0 < n -> concat (chunks n l) = l.
Proof. intros Hn. apply slice_chunks_concat; lia. Qed.
Lemma chunks_bounds {A} n (l : list A) : 0 < n -> Forall (fun c => 0 < len c <= n) (chunks n l).
Proof. intros Hn. pose proof (slice_chunks_bounds (Z.to_nat n) (length l) l ltac:(lia)) as H. by rewrite Z2Nat.id in H by lia. Qed.

Section PlanProofs.
Context `{HB : Blake3, JR : Json RootWire, JS : Json (list SegmentWire)} (r : CellReplica).

Lemma segment_page_objects_ok inherited pages ds objs : segment_page_objects inherited pages = Ok (ds, objs) ->
  Forall2 (fun d page => exists b, encode_segment_page page = Ok b /\ blake3 b = d /\ (d ∈ inherited \/ b ∈ map snd objs)) ds pages /\
  Forall (fun o => blake3 o.2 = o.1) objs.
Proof.
  revert ds objs. induction pages as [|page pages IH]; intros ds objs; cbn [segment_page_objects].
  { intros [= <- <-]. by split. }
  intros (b & Hb & ([ds' objs'] & Hp & [= <- <-])%bind_Ok)%bind_Ok. destruct (IH _ _ Hp) as [Hf Ho]. split.
  - constructor.
    + exists b. split_and!; [done|done|]. destruct (bool_decide_reflect (blake3 b ∈ inherited)); [by left|right; cbn; set_solver].
    + eapply Forall2_impl; [exact Hf|]. intros d pg (b' & H1 & H2 & H3). exists b'. split_and!; [done|done|].
      destruct H3 as [?|?]; [by left|right]. destruct (bool_decide _); cbn; set_solver.
  - destruct (bool_decide _); [done|]. by constructor.
Qed.

(** The document is the plain one or inlines the leaf the root names. *)
Lemma inline_leaf_cases doc directory :
  inline_leaf doc directory = doc \/
  exists leaf, leaf ∈ DirTree.objects directory /\ DirObject.digest leaf = Node.digest (DirTree.root directory) /\
    inline_leaf doc directory = with_inline doc (Some (DirObject.bytes leaf)).
Proof.
  unfold inline_leaf. destruct (_ =? 0); [|by left]. destruct (List.find _ _) as [leaf|] eqn:Ef; [|by left].
  apply find_some in Ef as [Hin%list_elem_of_In Hd%bool_decide_eq_true]. destruct (_ <=? _); [|by left].
  destruct (encode_root _) as [b|[]]; try (right; by exists leaf). destruct kind; try (right; by exists leaf). by left.
Qed.

(** What is given to [finish_root]: a valid chain of segments up to the target and
    the canonical directory over complete entries. *)
Record publishable (ds : list SegmentDescriptor) (target : Position) (commit_sequence schema page_size database_pages : Z)
    (directory : DirectoryTree) (height : nat) (es : list DirectoryEntry) (extents : Extents) : Prop := {
  pu_chain : validate_chain (Replica.limits r) ds target = Ok tt;
  pu_published : validate_descriptors ds (Replica.limits r) = Ok tt;
  pu_last : exists d, last ds = Some d /\ Segment.page_size (Desc.info d) = page_size /\ Segment.database_pages (Desc.info d) = database_pages;
  pu_extents : object_extents ds = Ok extents;
  pu_descriptors : Forall descriptor_width ds;
  pu_widths : u64_ok (Pos.txid target) /\ u64_ok (Pos.checksum target) /\ u64_ok commit_sequence /\ u32_ok schema;
  pu_page_size : is_valid_page_size page_size = true;
  pu_root : DirTree.root directory = canon_root height es;
  pu_height : DirTree.height directory = Z.of_nat height /\ (height <= 3)%nat;
  pu_shaped : shaped (Ver.Mk page_size database_pages None extents) height 0 es;
  pu_complete : complete (Ver.Mk page_size database_pages None extents) es;
  pu_objects : Forall (fun o => DirObject.digest o = blake3 (DirObject.bytes o)) (DirTree.objects directory)
}.

(** What a plan consists of. *)
Record planned (inherited : list Digest) (ds : list SegmentDescriptor) (target : Position)
    (commit_sequence schema page_size database_pages : Z) (directory : DirectoryTree) (plan : RootPlan) : Prop := {
  pl_checksum : Agg.checksum (Node.aggregate (DirTree.root directory)) = Pos.checksum target;
  pl_split : exists pages, ds = concat pages ++ RootDoc.segments (plan_document plan) /\ Forall (fun c => 0 < len c <= SEGMENTS_PER_PAGE) pages /\
    Forall2 (fun d page => exists b, encode_segment_page page = Ok b /\ blake3 b = d /\ (d ∈ inherited \/ b ∈ map snd (plan_objects plan)))
      (RootDoc.segment_pages (plan_document plan)) pages;
  pl_document : exists inline, plan_document plan =
    RootDoc.Mk (Replica.cell r) (Pos.checksum target) commit_sequence database_pages (Node.digest (DirTree.root directory))
      (DirTree.height directory) inline (Replica.incarnation r) page_size schema (RootDoc.segment_pages (plan_document plan))
      (RootDoc.segments (plan_document plan)) (Pos.txid target) /\
    (forall b, inline = Some b -> exists o, o ∈ DirTree.objects directory /\ DirObject.digest o = Node.digest (DirTree.root directory) /\ DirObject.bytes o = b);
  pl_bytes : exists b, encode_root (plan_document plan) = Ok b /\ b ∈ map snd (plan_objects plan) /\
    View.root (plan_verified plan) = MkLtxRoot (Replica.cell r) (Replica.incarnation r) (blake3 b) (Pos.txid target) (Pos.checksum target) commit_sequence;
  pl_verified : from_graph (View.root (plan_verified plan)) (plan_document plan) ds = Ok (plan_verified plan);
  pl_uploads : plan_directory plan = directory_uploads (plan_document plan) directory;
  pl_digests : Forall (fun o => blake3 o.2 = o.1) (plan_objects plan)
}.

Lemma plan_root_ok inherited ds target commit_sequence schema page_size database_pages directory plan :
  plan_root r inherited ds target commit_sequence schema page_size database_pages directory = Ok plan ->
  planned inherited ds target commit_sequence schema page_size database_pages directory plan.
Proof.
  unfold plan_root. intros [Hck%negb_false_iff%Z.eqb_eq H]%reject_Ok. cbv zeta in H.
  set (external := Z.to_nat _) in H.
  apply bind_Ok in H as ([sps objs] & Hobjs & [_ (b & Hb & (view & Hview & [= <-])%bind_Ok)%bind_Ok]%reject_Ok).
  destruct (segment_page_objects_ok _ _ _ _ Hobjs) as [Hf Hd].
  set (plain := RootDoc.Mk _ _ _ _ _ _ _ _ _ _ _ _ _) in *.
  assert (exists inline, inline_leaf plain directory = with_inline plain inline /\
    forall b, inline = Some b -> exists o, o ∈ DirTree.objects directory /\ DirObject.digest o = Node.digest (DirTree.root directory) /\ DirObject.bytes o = b)
    as (inline & Hi & Hin).
  { destruct (inline_leaf_cases plain directory) as [E|(leaf & Hin & Hld & E)]; rewrite E.
    - by exists None.
    - exists (Some (DirObject.bytes leaf)). split; [done|]. intros ? [= <-]. by exists leaf. }
  rewrite Hi in *. pose proof Hview as (exts & _ & [= <-])%bind_Ok. constructor; cbn [plan_document plan_objects plan_verified plan_directory View.root]; try done.
  - exists (chunks SEGMENTS_PER_PAGE (take external ds)). rewrite page_chunks_concat by done. split_and!.
    + cbn. by rewrite take_drop.
    + by apply chunks_bounds.
    + eapply Forall2_impl; [exact Hf|]. intros d page (b' & H1 & H2 & H3). exists b'. split_and!; [done|done|].
      rewrite map_app. set_solver.
  - by exists inline.
  - exists b. split_and!; [done| |done]. rewrite map_app. cbn. set_solver.
  - apply Forall_app. split; [done|]. by repeat constructor.
Qed.

(** A planned root whose objects are at hand is a published one. *)
Lemma planned_published (meta : list byte -> Prop) inherited ds target commit_sequence schema page_size database_pages directory height es extents plan :
  publishable ds target commit_sequence schema page_size database_pages directory height es extents ->
  planned inherited ds target commit_sequence schema page_size database_pages directory plan ->
  (forall b, b ∈ map snd (plan_objects plan) -> meta b) ->
  (forall page b, encode_segment_page page = Ok b -> blake3 b ∈ inherited -> meta b) ->
  let root := View.root (plan_verified plan) in
  exists pages, ds = concat pages ++ RootDoc.segments (plan_document plan) /\ published meta r root (plan_document plan) pages /\
    chain_ok r root (plan_document plan) ds extents.
Proof.
  intros [Hchain Hpub (d & Hd & Eps & Edp) Hext Hds (W1 & W2 & W3 & W4) _ _ [Eh Hh] _ _ _]
    [_ (pages & Eds & Hlen & Hpages) (inline & Edoc & _) (b & Hb & Hin & Hroot) _ _ _] Hmeta Hinh root. exists pages.
  assert (descriptor_width d) as Hwd by (apply last_Some in Hd as [l El]; rewrite El in Hds; by apply Forall_app in Hds as [_ [? _]%Forall_cons]).
  unfold root. rewrite Hroot. split_and!; [done| |].
  - set (doc := plan_document plan) in *. clearbody doc. destruct doc as [cl ck cs dp dd dh di ic ps sc sp sg tx]. cbn in Edoc, Hpages, Eds |- *.
    injection Edoc as -> -> -> -> -> -> -> -> -> -> ->. constructor; cbn; try done.
    + unfold check_scope. cbn. by rewrite !bool_decide_eq_true_2 by done.
    + exists b. split_and!; [by apply Hmeta|done|done].
    + destruct Hwd as (_ & _ & P1 & P2 & _). rewrite Eps in P1. rewrite Edp in P2. unfold root_width. cbn. rewrite Eh.
      assert (u32_ok (Z.of_nat height)) by (unfold u32_ok, u32_max; lia). split_and!; try done.
      rewrite Eds in Hds. by apply Forall_app in Hds as [_ ?].
    + rewrite Eds in Hds. apply Forall_app in Hds as [Hds _]. clear -Hds Hlen Hpages Hmeta Hinh.
      induction Hpages as [|dg page dgs pages (b & H1 & H2 & H3) _ IH]; [constructor|]. apply Forall_cons in Hlen as [Hl Hlen].
      cbn [concat] in Hds. apply Forall_app in Hds as [Hp Hds]. constructor; [|by apply IH].
      exists b. split_and!; try done; [|lia|lia]. destruct H3 as [H3|H3]; [eapply Hinh; [done|by rewrite H2]|by apply Hmeta].
  - constructor; [by destruct target|exact Hpub| |exact Hext]. exists d. rewrite Edoc. by cbn.
Qed.
End PlanProofs.

(** ** Publishing *)

Section FinishProofs.
Context {W : Type} `{HW : ObjectWriter W, HM : RootMetadata W, HB : Blake3, JR : Json RootWire, JS : Json (list SegmentWire)} {L : WriterLaws W}.
Context (metadata_retained : match root_metadata with Some retain => forall p, uploads (W := W) (retain p) (Ok tt) [] | None => True end).
Context (r : CellReplica).

Lemma directory_uploads_digests doc directory :
  Forall (fun o => DirObject.digest o = blake3 (DirObject.bytes o)) (DirTree.objects directory) ->
  Forall (fun o => blake3 o.2 = o.1) (directory_uploads doc directory).
Proof.
  intros Ho. unfold directory_uploads. rewrite Forall_map. apply filter_elem. eapply Forall_impl; [exact Ho|]. cbn. done.
Qed.

(** What is planned is uploaded and returned. *)
Lemma finish_root_runs base inherited ds target commit_sequence schema page_size database_pages directory w :
  Forall (fun o => DirObject.digest o = blake3 (DirObject.bytes o)) (DirTree.objects directory) ->
  let plan := plan_root r inherited ds target commit_sequence schema page_size database_pages directory in
  let run := finish_root r base inherited ds target commit_sequence schema page_size database_pages directory w in
  (write_faulty run.1 -> write_faulty w) /\ (forall k b, written w k b -> written run.1 k b) /\
  (run.2 = (plan ← plan; Ok (Prepared.Mk (match Replica.preparation_predecessor r with Some p => Some p | None => base end) (plan_verified plan))) /\
     (forall p, plan = Ok p -> Forall (written run.1 KRoot) (map snd (plan_objects p)) /\ Forall (written run.1 KDirectory) (map snd (plan_directory p)))
   \/ write_faulty w /\ exists e, run.2 = Err e).
Proof.
  intros Ho plan run. unfold run, finish_root. fold plan. rewrite run_bind. cbn [pure].
  destruct plan as [p|e] eqn:Ep; [|split_and!; [done|done|]; left; by split]. cbn [mbind result_bind].
  pose proof (plan_root_ok r _ _ _ _ _ _ _ _ _ Ep) as Hp.
  destruct (put_law KRoot (plan_objects p) w ltac:(by left) (pl_digests _ _ _ _ _ _ _ _ _ _ Hp)) as (A1 & A2 & A3). rewrite run_bind.
  destruct (put_objects KRoot _ w) as [w1 [[]|e]]; cbn [fst snd] in *.
  2: { split_and!; [done|done|]. right. destruct A3 as [[? _]|[? _]]; [done|]. split; [done|by exists e]. }
  destruct A3 as [[_ A3]|[_ [e ?]]]; [|done].
  destruct (put_law KDirectory (plan_directory p) w1 ltac:(by right)) as (B1 & B2 & B3).
  { rewrite (pl_uploads _ _ _ _ _ _ _ _ _ _ Hp). by apply directory_uploads_digests. }
  rewrite run_bind. destruct (put_objects KDirectory _ w1) as [w2 [[]|e]]; cbn [fst snd] in *.
  2: { split_and!; [tauto|by auto|]. right. destruct B3 as [[? _]|[? _]]; [done|]. split; [tauto|by exists e]. }
  destruct B3 as [[_ B3]|[_ [e ?]]]; [|done].
  set (meta := match root_metadata with Some retain => _ | None => _ end).
  assert (uploads meta (Ok tt) []) as Hm by (unfold meta; destruct root_metadata; [apply metadata_retained|apply uploads_ret]).
  destruct (Hm w2) as (C1 & C2 & C3). rewrite run_bind. destruct (meta w2) as [w3 [[]|e]]; cbn [fst snd] in *.
  2: { split_and!; [tauto|by auto|]. right. destruct C3 as [[? _]|[? _]]; [done|]. split; [tauto|by exists e]. }
  split_and!; [tauto|by auto|]. left. split; [done|]. intros ? [= <-]. split; (eapply Forall_impl; [eassumption|]); intros b Hb; by auto.
Qed.
End FinishProofs.

(** ** Publishing and opening *)

Section PublishOpen.
Context {W : Type} `{HW : ObjectWriter W, HM : RootMetadata W, HB : Blake3, JR : Json RootWire, JS : Json (list SegmentWire)} {L : WriterLaws W}.
Context (metadata_retained : match root_metadata with Some retain => forall p, uploads (W := W) (retain p) (Ok tt) [] | None => True end).
Context `{!JsonLaws RootWire root_wire_width, !JsonLaws (list SegmentWire) (Forall segment_wire_width)}.
Context {E : Type} `{HN : NodeStore E, HS : ObjectStore E} (objects known meta : list byte -> Prop).
Context `{HL : !StoreLaws E objects known} `{!ObjectStoreLaws E objects known meta}.
Context (objects_small : forall b, objects b -> len b <= MAX_NODE_BYTES) (r : CellReplica).

(** From the state [w] the reading [m] ends in [res], or fails with a faulty host. *)
Definition sees {A} (w : ReaderState E) (m : ReadM (ReaderState E) A) (res : LtxResult A) : Prop :=
  view_ok known (m w).1 /\ (view_faulty objects known (m w).1 -> view_faulty objects known w)
  /\ ((m w).2 = res \/ view_faulty objects known w /\ exists e, (m w).2 = Err e).

Abbreviation computed v := (@computes _ cached_reader HB (nodes_with objects v) (view_laws objects known objects_small v) _).
Lemma computed_sees {A} v w (m : ReadM (ReaderState E) A) res : computed v m res -> view_ok known w -> sees w m res.
Proof. intros Hm Hw. exact (Hm w Hw). Qed.

(** The directory of an opened root is at hand: what was not uploaded is inlined. *)
Lemma opened_nodes (inherited : list Digest) ds target commit_sequence schema page_size database_pages directory height es extents plan (stored : list byte -> Prop) :
  publishable r ds target commit_sequence schema page_size database_pages directory height es extents ->
  planned r inherited ds target commit_sequence schema page_size database_pages directory plan ->
  Forall known (map DirObject.bytes (DirTree.objects directory)) -> (forall b, stored b -> objects b) ->
  (forall b, b ∈ map snd (plan_directory plan) -> stored b) ->
  Forall (fun b => stored b \/ b ∈ map DirObject.bytes (DirTree.objects directory)) (canon_nodes height es) ->
  let v := document_verification (plan_document plan) extents in
  verification_ok known v /\ Forall (nodes_with objects v) (canon_nodes height es).
Proof.
  intros Hp Hplan Hk Hst Hup Hn v. rewrite Forall_forall in Hk.
  destruct (pl_document _ _ _ _ _ _ _ _ _ _ Hplan) as (inline & Edoc & Hinl).
  destruct (pl_bytes _ _ _ _ _ _ _ _ _ _ Hplan) as (rb & [(Hrv & _) _]%encode_root_Ok & _).
  pose proof (pu_objects _ _ _ _ _ _ _ _ _ _ _ Hp) as Ho. rewrite Forall_forall in Ho.
  assert (RootDoc.directory_inline (plan_document plan) = inline) as Ei by (by rewrite Edoc).
  assert (RootDoc.directory_digest (plan_document plan) = Node.digest (DirTree.root directory)) as Ed by (by rewrite Edoc).
  rewrite Ei, Ed in Hrv. split.
  - intros b Hb. change (Ver.inline_root v) with (RootDoc.directory_inline (plan_document plan)) in Hb. rewrite Ei in Hb.
    destruct (Hrv b Hb) as (_ & Hl & _). split; [|done]. destruct (Hinl b Hb) as (o & Hin & _ & <-). apply Hk, list_elem_of_fmap. by exists o.
  - eapply Forall_impl; [exact Hn|]. cbn beta. intros b [Hb|Hb]; [left; by apply Hst|].
    apply list_elem_of_fmap in Hb as (o & -> & Hin). unfold nodes_with. change (Ver.inline_root v) with (RootDoc.directory_inline (plan_document plan)).
    rewrite Ei. assert (known (DirObject.bytes o)) as Hko by (apply Hk, list_elem_of_fmap; by exists o).
    destruct (is_none inline || negb (bool_decide (DirObject.digest o = Node.digest (DirTree.root directory)))) eqn:Hf.
    + left. apply Hst, Hup. rewrite (pl_uploads _ _ _ _ _ _ _ _ _ _ Hplan). unfold directory_uploads. rewrite map_map. apply list_elem_of_fmap.
      exists o. split; [done|]. apply elem_of_filter_bool. by rewrite Ei, Ed.
    + right. apply orb_false_iff in Hf as [Hi Hd%negb_false_iff%bool_decide_eq_true]. destruct inline as [i|]; [|done]. f_equal.
      destruct (Hrv i eq_refl) as (_ & _ & Hbi). destruct (Hinl i eq_refl) as (o' & Hin' & _ & Hbo).
      apply known_digests; [rewrite <- Hbo; apply Hk, list_elem_of_fmap; by exists o'|done|]. by rewrite Hbi, <- (Ho _ Hin).
Qed.

(** Only the sizes and the extents of a verification matter to the entries. *)
Lemma shaped_same v v' level index es : Ver.page_size v = Ver.page_size v' -> Ver.database_pages v = Ver.database_pages v' ->
  Ver.extents v = Ver.extents v' -> shaped v level index es -> shaped v' level index es.
Proof. intros E1 E2 E3 [[H1 H2 H3] H4]. rewrite E1, E2, E3 in H3. by constructor. Qed.

(** A sound reader opens a published root and locates its pages. *)
Lemma opened_view root doc pgs extents height es view reader :
  let ds := concat pgs ++ RootDoc.segments doc in
  let v := document_verification doc extents in
  published meta r root doc pgs -> chain_ok r root doc ds extents -> from_graph root doc ds = Ok view ->
  verification_ok known v -> Forall (nodes_with objects v) (canon_nodes height es) -> shaped v height 0 es -> complete v es ->
  is_valid_page_size (RootDoc.page_size doc) = true -> (height <= 3)%nat ->
  RootDoc.directory_height doc = Z.of_nat height -> RootDoc.directory_digest doc = Node.digest (canon_root height es) ->
  xor_sum (map DirEntry.checksum es) = RootDoc.checksum doc -> view_ok known reader ->
  let pages := View.pages view in
  sees reader (open_root (H := cached_reader) r root) (Ok view) /\
  forall page, 1 <= page <= RootDoc.database_pages doc -> page <> lock_pgno (RootDoc.page_size doc) ->
    exists e, e ∈ es /\ DirEntry.page e = page /\
      sees reader (lookup (H := cached_reader)
        (Ver.Mk (Paged.page_size pages) (Paged.database_pages pages) (Paged.directory_inline pages) (Paged.extents pages))
        (Paged.directory_digest pages) (Paged.directory_height pages) page) (Ok e).
Proof.
  intros ds v Hpub Hchain Hview Hv Hnodes Hsh Hc Hps Hh Eh Ed Ex Hreader pages. destruct (page_size_bounds _ Hps) as [_ Hlock].
  pose proof (canon_tree _ v height 0 es Hsh Hnodes) as Ht. rewrite <- Ed in Ht.
  pose proof (proj1 (complete_count v es (sh_entries _ _ _ _ Hsh) ltac:(cbn; lia)) Hc) as Hcount.
  split.
  - apply (computed_sees v); [|done]. pose (ML := view_meta_laws objects known meta objects_small v). unfold open_root, load_graph.
    eapply computes_bind_Ok.
    + pose proof (load_computes (HR := cached_reader) (ReaderLaws0 := view_laws objects known objects_small v) (nodes_with objects v) meta r root doc pgs
        extents es true Hpub Hchain (conj eq_refl Hv)) as Hload. rewrite Eh, Nat2Z.id in Hload. specialize (Hload ltac:(lia) Ht).
      change (expected_pages (RootDoc.page_size doc) (RootDoc.database_pages doc)) with (expected_pages (Ver.page_size v) (Ver.database_pages v)) in Hload.
      rewrite Hcount, Ex, !Z.eqb_refl in Hload. exact Hload.
    + cbv beta. cbn [Loaded.document Loaded.descriptors]. fold ds. rewrite Hview. apply computes_pure.
  - intros page Hpage Hpl. destruct (find_page_complete v es page Hc Hpage Hpl) as (e & Hf & He & Hin). exists e. split_and!; [done|done|].
    unfold from_graph in Hview. rewrite (ch_extents _ _ _ _ _ Hchain) in Hview. cbn [mbind result_bind] in Hview. injection Hview as <-.
    unfold pages. cbn [View.pages Paged.page_size Paged.database_pages Paged.directory_inline Paged.extents Paged.directory_digest Paged.directory_height].
    fold (document_verification doc extents). fold v. apply (computed_sees v); [|done]. unfold lookup.
    change (Ver.database_pages v) with (RootDoc.database_pages doc).
    rewrite (proj2 (Z.eqb_neq page 0)), (proj2 (Z.ltb_ge _ _)) by lia. cbn [orb]. rewrite Eh, Nat2Z.id.
    pose proof (lookup_loop_computes (HR := cached_reader) (ReaderLaws0 := view_laws objects known objects_small v) (nodes_with objects v) v height
      (RootDoc.directory_digest doc) es None page (conj eq_refl Hv) Ht (or_introl eq_refl)) as Hl. by rewrite Hf in Hl.
Qed.

(** C17: a published root opens to what was published. Publishing a valid chain of
    segments with the canonical directory over complete entries returns, unless an
    upload fails, what the plan of the root decides. A returned root can be
    opened by any sound reader whose store holds what was written: pages of
    descriptors, new or inherited from the base, and nodes, uploaded, inherited or
    inlined. Opening gives exactly the view that was returned, and through it every
    page but the lock page is located at its entry. *)
Theorem publish_then_open base inherited ds target commit_sequence schema page_size database_pages directory height es extents w reader :
  publishable r ds target commit_sequence schema page_size database_pages directory height es extents ->
  (forall page b, encode_segment_page page = Ok b -> blake3 b ∈ inherited -> written w KRoot b) ->
  Forall (fun b => written w KDirectory b \/ b ∈ map DirObject.bytes (DirTree.objects directory)) (canon_nodes height es) ->
  let run := finish_root r base inherited ds target commit_sequence schema page_size database_pages directory w in
  (write_faulty w /\ (exists e, run.2 = Err e) \/
   run.2 = (plan ← plan_root r inherited ds target commit_sequence schema page_size database_pages directory;
            Ok (Prepared.Mk (match Replica.preparation_predecessor r with Some p => Some p | None => base end) (plan_verified plan)))) /\
  (forall p, run.2 = Ok p ->
    (forall b, written run.1 KRoot b -> meta b) -> (forall b, written run.1 KDirectory b -> objects b) ->
    Forall known (map DirObject.bytes (DirTree.objects directory)) -> view_ok known reader ->
    let view := Prepared.verified p in
    let pages := View.pages view in
    sees reader (open_root (H := cached_reader) r (View.root view)) (Ok view) /\
    forall page, 1 <= page <= database_pages -> page <> lock_pgno page_size ->
      exists e, e ∈ es /\ DirEntry.page e = page /\
        sees reader (lookup (H := cached_reader)
          (Ver.Mk (Paged.page_size pages) (Paged.database_pages pages) (Paged.directory_inline pages) (Paged.extents pages))
          (Paged.directory_digest pages) (Paged.directory_height pages) page) (Ok e)).
Proof.
  intros Hp Hinh Hn run.
  destruct (finish_root_runs metadata_retained r base inherited ds target commit_sequence schema page_size database_pages directory w
    (pu_objects _ _ _ _ _ _ _ _ _ _ _ Hp)) as (_ & Hkeep & Hrun). fold run in Hkeep, Hrun. split; [tauto|].
  intros p Hok Hmeta Hobj Hknown Hreader view pages. destruct Hrun as [[Hr Hup]|[_ [e He]]]; [|congruence].
  rewrite Hok in Hr. symmetry in Hr. apply bind_Ok in Hr as (plan & Eplan & [= <-]). destruct (Hup plan Eplan) as [Hup1 Hup2]. clear Hup.
  rewrite Forall_forall in Hup1, Hup2. pose proof (plan_root_ok r _ _ _ _ _ _ _ _ _ Eplan) as Hplan.
  destruct (planned_published r meta inherited ds target commit_sequence schema page_size database_pages directory height es extents plan Hp Hplan)
    as (pgs & Eds & Hpub & Hchain); [by auto|by eauto|].
  destruct (opened_nodes inherited ds target commit_sequence schema page_size database_pages directory height es extents plan
    (written run.1 KDirectory) Hp Hplan Hknown Hobj Hup2) as [Hv Hnodes].
  { eapply Forall_impl; [exact Hn|]. cbn beta. intros b [?|?]; [left; by auto|by right]. }
  set (v := document_verification (plan_document plan) extents) in *.
  destruct (pl_document _ _ _ _ _ _ _ _ _ _ Hplan) as (inline & Edoc & _).
  assert (Ver.page_size v = page_size /\ Ver.database_pages v = database_pages /\ RootDoc.directory_height (plan_document plan) = Z.of_nat height
          /\ RootDoc.directory_digest (plan_document plan) = Node.digest (canon_root height es) /\ RootDoc.checksum (plan_document plan) = Pos.checksum target)
    as (Eps & Edp & Eh & Ed & Ec).
  { destruct (pu_height _ _ _ _ _ _ _ _ _ _ _ Hp) as [<- _]. rewrite <- (pu_root _ _ _ _ _ _ _ _ _ _ _ Hp). cbn. by rewrite Edoc. }
  assert (shaped v height 0 es) as Hsh by (eapply shaped_same; [..|apply (pu_shaped _ _ _ _ _ _ _ _ _ _ _ Hp)]; done).
  pose proof (pu_complete _ _ _ _ _ _ _ _ _ _ _ Hp) as Hc. unfold complete in Hc. cbn [Ver.page_size Ver.database_pages] in Hc. rewrite <- Eps, <- Edp in Hc.
  pose proof (pl_verified _ _ _ _ _ _ _ _ _ _ Hplan) as Hview. rewrite Eds in Hchain, Hview.
  change (Ver.page_size v) with (RootDoc.page_size (plan_document plan)) in Eps. change (Ver.database_pages v) with (RootDoc.database_pages (plan_document plan)) in Edp.
  rewrite <- Eps, <- Edp. apply (opened_view _ (plan_document plan) pgs extents height es (plan_verified plan) reader); try done.
  - rewrite Eps. apply (pu_page_size _ _ _ _ _ _ _ _ _ _ _ Hp).
  - apply (pu_height _ _ _ _ _ _ _ _ _ _ _ Hp).
  - rewrite Ec, <- (pl_checksum _ _ _ _ _ _ _ _ _ _ Hplan), (pu_root _ _ _ _ _ _ _ _ _ _ _ Hp). by rewrite canon_root_eq.
Qed.
End PublishOpen.

(** One segment of two pages: the leaf of its directory is inlined in the root. *)
Module PublicationDemo.
#[local] Existing Instances UpdateDemo.digest PreparationDemo.disk_store PreparationDemo.disk_put PreparationDemo.disk_put_laws
  PlainRoot.root_json PlainRoot.segments_json.
Definition replica : CellReplica := Replica.Mk (array_fill 32 x01) (array_fill 16 x02) limits_default None.
Definition descriptors : list SegmentDescriptor := map DirInput.descriptor (take 1 PreparationDemo.chain).
Definition target : Position := Pos.Mk 1 CHECKSUM_FLAG.
Definition directory : DirectoryTree := initial_tree PreparationDemo.first_entries.
#[export] Instance no_metadata : RootMetadata (ReaderState PreparationDemo.Disk) := None.
Definition run := finish_root replica None [] descriptors target 1 1 4096 2 directory PreparationDemo.start.
Definition root_bytes : list byte :=
  match plan_root replica [] descriptors target 1 1 4096 2 directory with
  | Ok plan => default [] (snd <$> last (plan_objects plan))
  | Err _ => []
  end.
Definition leaf : list byte := canon_bytes 0 PreparationDemo.first_entries.

(** A reader that has the root alone. *)
Definition metadata (b : list byte) : Prop := b = root_bytes.
Definition answered (b : list byte) : Prop := b = root_bytes \/ b = leaf.
#[export] Instance reader_store : NodeStore unit := {|
  cache_identity := 1;
  incarnation_object_path := fun kind _ => match kind with KRoot => "root" | _ => "node" end;
  directory_cache_get := fun _ _ => mret None;
  directory_cache_put := fun _ _ _ => mret tt;
  directory_cache_invalidate := fun _ => mret tt;
  io_permit := mret tt;
  get_with_etag_bounded := fun _ _ => fail LtxErr.LTXCorrupted
|}.
#[export] Instance reader_objects : ObjectStore unit :=
  {| store_get := fun _ _ _ => mret root_bytes; store_head := fun _ _ => mret (len root_bytes) |}.

Lemma answered_unique b b' : answered b -> answered b' -> blake3 b = blake3 b' -> b = b'.
Proof.
  assert (blake3 root_bytes <> blake3 leaf) as H by (vm_compute; discriminate).
  intros [->| ->] [->| ->] E; congruence.
Qed.
#[export] Instance reader_laws : StoreLaws unit (fun _ => False) answered.
Proof.
  refine {| store_faulty := fun _ => False; known_digests := answered_unique |}; try done.
  - intros e. split; [done|by left].
  - intros d n e. cbn. split_and!; [done|done|by right].
Defined.
#[export] Instance reader_object_laws : ObjectStoreLaws unit (fun _ => False) answered metadata.
Proof.
  split.
  - by left.
  - intros d n e. cbn. split_and!; [done|by left|]. right. by intros b -> _ _.
  - intros b e ->. cbn. split; [done|by left].
Defined.
Definition reader : ReaderState unit := MkReader (MkBands (Some cache_default) (Some cache_default)) tt.

Lemma publishable_demo :
  publishable replica descriptors target 1 1 4096 2 directory 0 PreparationDemo.first_entries (PreparationDemo.extents_upto 1).
Proof.
  pose proof (segments_entries _ _ _ (PreparationDemo.chain_segments 1 ltac:(lia))) as He.
  assert (entries_after (take 1 PreparationDemo.chain) (take 1 PreparationDemo.located) = PreparationDemo.first_entries) as E by (by vm_compute).
  rewrite E in He. constructor.
  - by vm_compute.
  - by vm_compute.
  - eexists. split_and!; [done|done|done].
  - apply PreparationDemo.extents_known. lia.
  - repeat constructor; vm_compute; discriminate.
  - split_and!; vm_compute; split; discriminate.
  - done.
  - done.
  - split; [done|lia].
  - apply (complete_shaped (PreparationDemo.version 1)); [exact He|done|by vm_compute|]. split; [by vm_compute|lia].
  - by vm_compute.
  - repeat constructor.
Qed.
Lemma run_written : (forall b, written run.1 KRoot b -> metadata b) /\ (forall b, written run.1 KDirectory b -> False).
Proof.
  assert (env run.1 = [("root", root_bytes)]) as E by (vm_compute; reflexivity).
  unfold metadata, written, replica_writer_laws, put_written. rewrite E. generalize root_bytes. intros root.
  split; intros b Hb; apply list_elem_of_singleton in Hb; [by injection Hb|discriminate Hb].
Qed.
End PublicationDemo.

#[local] Existing Instances UpdateDemo.digest PreparationDemo.disk_store PreparationDemo.disk_put PreparationDemo.disk_put_laws
  PlainRoot.root_json PlainRoot.segments_json PublicationDemo.no_metadata PublicationDemo.reader_store PublicationDemo.reader_objects
  PublicationDemo.reader_laws PublicationDemo.reader_object_laws.

Lemma publish_then_open_witness :
  exists p, PublicationDemo.run.2 = Ok p /\
    sees (fun _ => False) PublicationDemo.answered PublicationDemo.reader
      (open_root (H := cached_reader) PublicationDemo.replica (View.root (Prepared.verified p))) (Ok (Prepared.verified p)).
Proof.
  destruct (publish_then_open (W := ReaderState PreparationDemo.Disk) (HM := PublicationDemo.no_metadata) I (fun _ => False) PublicationDemo.answered PublicationDemo.metadata
    (fun b (H : False) => match H with end) PublicationDemo.replica None [] PublicationDemo.descriptors PublicationDemo.target 1 1 4096 2
    PublicationDemo.directory 0 PreparationDemo.first_entries (PreparationDemo.extents_upto 1) PreparationDemo.start PublicationDemo.reader
    PublicationDemo.publishable_demo) as [_ H].
  - intros page b _ Hb. by apply elem_of_nil in Hb.
  - constructor; [right; vm_compute; by left|constructor].
  - fold PublicationDemo.run in H. destruct PublicationDemo.run_written as [Hr Hd].
    assert (is_ok PublicationDemo.run.2 = true) as Hok by (by vm_compute).
    destruct (PublicationDemo.run.2) as [p|] eqn:Ep; [|done]. exists p. split; [done|].
    refine (proj1 (H p eq_refl Hr Hd _ _)).
    + constructor; [by right|constructor].
    + split; intros c [= <-] d b Hg; by vm_compute in Hg.
Defined.
