(* ===== verification/Authority.v ===== *)
(** * Authority: conditional updates of control records in an object store

    Models [crates/cellule-runtime/src/control/authority/mod.rs] and
    [authority/history.rs]. An operation of [CellAuthority] is a program: a tree
    of object-store requests, whose continuation receives the reply. Between two
    requests of one operation any other operation may run, and any request may
    fail before it is applied or after it was applied (a lost reply), so the
    theorems hold for every interleaving and every fault.

    The object store is third-party code behind [cellule_store::Store]; [serve]
    is its contract: create-if-absent, compare-and-swap on the entity tag, bounded
    reads, and a tag per applied write that is never reused. The retries inside
    [create_strict_with_etag] and [get_with_etag_bounded] re-issue the same
    request; a lost first attempt followed by a conflicting retry is the fault
    [After StateConflict].

    The theorems: the stored control of a Cell only ever follows validated
    transitions, hence one owner per epoch whatever the interleaving; a writer
    that was told its update succeeded did publish it; an owner cannot be
    replaced before its observation is retained; and a returned owner history
    lists the actual past records of the Cell. *)

From Stdlib Require Import ZArith Lia.
From Stdlib Require Import Strings.Byte.
From stdpp Require Import base list gmap strings relations.
From S2P Require Import Prelude Identity Control ControlCodec.

Local Open Scope bool_scope.
Local Infix "≟" := eqb_of (at level 70).
Local Notation "x ≠? y" := (negb (eqb_of x y)) (at level 70).

(** ** The object store *)

Abbreviation Path := str.
Abbreviation ETag := Z.

Module Req.
Inductive Request :=
| Get (path : Path) (max_bytes : Z)
| Create (path : Path) (body : list byte)
| Update (path : Path) (body : list byte) (tag : ETag).
End Req.
Abbreviation Request := Req.Request.

(** A read returns the body and its tag; a write returns the body it wrote and
    the tag of the new version. *)
Abbreviation Reply := (result StorageError (list byte * ETag)).

Record Store := MkStore {
  objects : gmap Path (list byte * ETag);
  next_tag : ETag
}.

Definition write (s : Store) (p : Path) (body : list byte) : Store * Reply :=
  (MkStore (<[p := (body, next_tag s)]> (objects s)) (next_tag s + 1), Ok (body, next_tag s)).

Definition perform (s : Store) (r : Request) : Store * Reply :=
  match r with
  | Req.Get p max =>
      match objects s !! p with
      | None => (s, Err StorageError.NotFound)
      | Some (body, tag) =>
          if max <? Z.of_nat (length body) then (s, Err StorageError.CorruptObject)
          else (s, Ok (body, tag))
      end
  | Req.Create p body =>
      match objects s !! p with
      | None => write s p body
      | Some _ => (s, Err StorageError.StateConflict)
      end
  | Req.Update p body tag =>
      match objects s !! p with
      | Some (_, current) =>
          if tag =? current then write s p body else (s, Err StorageError.StateConflict)
      | None => (s, Err StorageError.StateConflict)
      end
  end.

(** The environment decides how a request fares: it is performed, it fails before
    it is performed, or it is performed and the reply is an error. *)
Inductive Fault := NoFault | Before (e : StorageError) | After (e : StorageError).

Definition serve (f : Fault) (s : Store) (r : Request) : Store * Reply :=
  match f with
  | NoFault => perform s r
  | Before e => (s, Err e)
  | After e => ((perform s r).1, Err e)
  end.

(** ** Programs *)

Inductive prog (A : Type) :=
| Ret (a : A)
| Call (r : Request) (k : Reply -> prog A).
Arguments Ret {A} _.
Arguments Call {A} _ _.

Fixpoint then_ {A B} (m : prog A) (f : A -> prog B) : prog B :=
  match m with
  | Ret a => f a
  | Call r k => Call r (fun x => then_ (k x) f)
  end.

(** [.await?]: stop at an error, continue with the value. *)
Definition try_ {A B} (m : prog (Result A)) (f : A -> prog (Result B)) : prog (Result B) :=
  then_ m (fun r => match r with Ok a => f a | Err e => Ret (Err e) end).
Notation "x <~ m ;; k" := (try_ m (fun x => k))
  (at level 100, m at next level, right associativity).
(** A pure fallible step inside a program. *)
Definition pure {A} (r : Result A) : prog (Result A) := Ret r.
Definition from_storage {A} (e : StorageError) : prog (Result A) := Ret (Err (Error.Storage e)).

(** ** Data *)

(*@ control/authority/mod.rs 28-31 VersionedControl *)
Record VersionedControl := MkVersioned { value : Control; token : ETag }.

(** What [create_initial] reads of a catalog proof. *)
Record CatalogEntry := MkEntry {
  entry_cell : CellId;
  initial_code : Digest;
  initial_schema : Z
}.

(*@ control/authority/history.rs 11-14 CellOwnerHistory *)
Record CellOwnerHistory := MkHistory { current : Control; owners : list Control }.

Section Authority.
(** [{root}/cells/v1/apps/{application}/], the scope of the storage layout. *)
Context (application_prefix : Path).
Context `{SerdeJson}.

(*@ cellule-ltx/src/cell_layout.rs 126-128 CellStorageLayout::control_path *)
Definition control_path (c : CellId) : Path :=
  application_prefix ++ text "cells/" ++ encode_hex (as_bytes c) ++ text "/control.json".

(** [{epoch:016x}] is the hex text of the big-endian word. *)
(*@ cellule-ltx/src/cell_layout.rs 133-144 CellStorageLayout::owner_observation_path *)
Definition owner_observation_path (c : CellId) (i : IncarnationId) (e : Z) : Path :=
  application_prefix ++ text "cells/" ++ encode_hex (as_bytes c) ++ text "/owner-history/v1/"
  ++ encode_hex (as_bytes i) ++ text "/" ++ encode_hex (to_be 8 e) ++ text ".json".

(** Guards of the node-bundle component that [transition] awaits; they enter as
    programs. *)
Context (ensure_enrollment : Control -> prog (Result unit)).
Context (ensure_attachment : Control -> RecoveryOverlayRef -> prog (Result unit)).
Context (ensure_departure : Control -> prog (Result unit)).

(** ** Operations *)

(*@ control/authority/mod.rs 112-137 CellAuthority::load *)
Definition load (c : CellId) : prog (Result (option VersionedControl)) :=
  Call (Req.Get (control_path c) MAX_CONTROL_BYTES) (fun observed =>
    match observed with
    | Ok (body, tag) =>
        v <~ pure (decode body);;
        if cell v ≠? c then Ret (Err (Error.Control "control path does not match Cell ID"))
        else Ret (Ok (Some (MkVersioned v tag)))
    | Err StorageError.NotFound => Ret (Ok None)
    | Err error => from_storage error
    end).

(*@ control/authority/mod.rs 78-109 CellAuthority::create_initial *)
Definition create_initial (entry : CatalogEntry) (inc : IncarnationId) (o : Owner)
  : prog (Result VersionedControl) :=
  init <~ pure (initial (entry_cell entry) inc o (initial_code entry) (initial_schema entry));;
  body <~ pure (encode init);;
  Call (Req.Create (control_path (entry_cell entry)) body) (fun created =>
    match created with
    | Ok (_, tag) => Ret (Ok (MkVersioned init tag))
    | Err create_error =>
        found <~ load (entry_cell entry);;
        match found with
        | Some v => if value v ≟ init then Ret (Ok v) else Ret (Err Error.CellAlreadyActive)
        | None => from_storage create_error
        end
    end).

(*@ control/authority/mod.rs 139-168 CellAuthority::install_restored *)
Definition install_restored (control : Control) : prog (Result VersionedControl) :=
  if is_some (owner control)
     || negb match state control with Idle | Tombstoned => true | _ => false end
     || ((state control ≟ Idle) && is_none (root control))
  then Ret (Err (Error.Control "restored control is not safely unowned"))
  else
    body <~ pure (encode control);;
    Call (Req.Create (control_path (cell control)) body) (fun created =>
      match created with
      | Ok (_, tag) => Ret (Ok (MkVersioned control tag))
      | Err create_error =>
          found <~ load (cell control);;
          match found with
          | Some v => if value v ≟ control then Ret (Ok v)
                      else Ret (Err (Error.Control "restored control conflicts with existing authority"))
          | None => from_storage create_error
          end
      end).

(*@ control/authority/history.rs 143-176 CellAuthority::load_owner_observation *)
Definition load_owner_observation (c : CellId) (i : IncarnationId) (e : Z)
  : prog (Result (option (Control * ETag))) :=
  if e =? 0 then Ret (Err (Error.Control "Cell owner history epoch is zero"))
  else
    Call (Req.Get (owner_observation_path c i e) MAX_CONTROL_BYTES) (fun observed =>
      match observed with
      | Ok (body, tag) =>
          v <~ pure (decode body);;
          if (cell v ≠? c) || (incarnation v ≠? i) || negb (epoch v =? e) || is_none (owner v)
          then Ret (Err (Error.Control "Cell owner history path differs from its scope"))
          else Ret (Ok (Some (v, tag)))
      | Err StorageError.NotFound => Ret (Ok None)
      | Err source => from_storage source
      end).

(*@ control/authority/history.rs 36-46 CellAuthority::owner_observation *)
Definition owner_observation (c : CellId) (i : IncarnationId) (e : Z)
  : prog (Result (option Control)) :=
  found <~ load_owner_observation c i e;;
  Ret (Ok (fst <$> found)).

(*@ control/authority/history.rs 181-199 retained *)
Definition retained (previous observed : Control) : Result bool :=
  let ordered_progress :=
    if revision observed <=? revision previous
    then checked_sub_u64 (progress previous) (progress observed)
           ≟ Some (revision previous - revision observed)
    else checked_sub_u64 (progress observed) (progress previous)
           ≟ Some (revision observed - revision previous) in
  if (owner previous ≠? owner observed) || (cell previous ≠? cell observed)
     || (incarnation previous ≠? incarnation observed)
     || negb (epoch previous =? epoch observed)
     || negb ordered_progress
     || ((revision previous =? revision observed) && (previous ≠? observed))
  then Err (Error.Control "Cell owner history observations conflict")
  else Ok (revision observed <=? revision previous).

(*@ control/authority/history.rs 99-141 CellAuthority::retain_owner *)
Definition retain_owner (observed : Control) : prog (Result unit) :=
  let path := owner_observation_path (cell observed) (incarnation observed) (epoch observed) in
  body <~ pure (encode observed);;
  previous <~ load_owner_observation (cell observed) (incarnation observed) (epoch observed);;
  done_already <~ pure match previous with
                       | Some (p, _) => retained p observed
                       | None => Ok false
                       end;;
  if done_already : bool then Ret (Ok tt)
  else
    Call (match previous with
          | Some (_, tag) => Req.Update path body tag
          | None => Req.Create path body
          end) (fun written =>
      match written with
      | Ok _ => Ret (Ok tt)
      | Err source =>
          then_ (load_owner_observation (cell observed) (incarnation observed) (epoch observed))
            (fun again =>
               match again with
               | Ok (Some (p, _)) =>
                   kept <~ pure (retained p observed);;
                   if kept : bool then Ret (Ok tt) else from_storage source
               | _ => from_storage source
               end)
      end).

(*@ control/authority/mod.rs 174-222 CellAuthority::transition *)
Definition transition (observed : VersionedControl) (next : Control) (t : Transition)
  : prog (Result VersionedControl) :=
  let o := value observed in
  _ <~ pure (validate_transition o next t);;
  _ <~ (if t ≟ Transition.BindBundle then ensure_enrollment next else Ret (Ok tt));;
  _ <~ (if match t with Transition.AttachRecovery | Transition.PublishRecovery => true | _ => false end
           && is_some (bundle_binding o)
        then overlay <~ pure (ok_or (match recovery next with
                                     | Some r => Some r
                                     | None => recovery o
                                     end) Error.Fenced);;
             ensure_attachment o overlay
        else Ret (Ok tt));;
  _ <~ (if is_some (bundle_binding o) && (bundle_binding o ≠? bundle_binding next)
        then ensure_departure o else Ret (Ok tt));;
  _ <~ (if is_some (owner o) && (owner o ≠? owner next)
        then retain_owner o else Ret (Ok tt));;
  body <~ pure (encode next);;
  Call (Req.Update (control_path (cell o)) body (token observed)) (fun result =>
    match result with
    | Ok (_, tag) => Ret (Ok (MkVersioned next tag))
    | Err e => from_storage e
    end).

(** The body of the loop of [owner_history] for [n] epochs from [e] on. *)
Fixpoint collect_owners (c : CellId) (n : nat) (e : Z) (now : Control) (rows : list Control)
  : prog (Result (list Control)) :=
  match n with
  | O => Ret (Ok rows)
  | S n =>
      found <~ owner_observation c (incarnation now) e;;
      row <~ pure (ok_or found (Error.OwnerHistoryIncomplete c (incarnation now) e));;
      if (revision now <=? revision row) || (progress now <=? progress row)
         || is_some_and (fun previous => (revision row <=? revision previous)
                                         || (progress row <=? progress previous)) (last rows)
      then Ret (Err (Error.Control "Cell owner history is not ordered"))
      else collect_owners c n (e + 1) now (rows ++ [row])
  end.

(*@ control/authority/history.rs 52-97 CellAuthority::owner_history *)
Definition owner_history (c : CellId) (limit : Z) : prog (Result CellOwnerHistory) :=
  found <~ load c;;
  loaded <~ pure (ok_or found Error.Fenced);;
  let now := value loaded in
  let count := match state now with Tombstoned => epoch now - 1 | _ => epoch now end in
  if (limit =? 0) || (limit <? count)
  then Ret (Err (Error.Capacity "Cell owner history exceeds its row limit"))
  else
    let closed := if is_some (owner now) then count - 1 else count in
    rows <~ collect_owners c (Z.to_nat closed) 1 now [];;
    let rows := if is_some (owner now) then rows ++ [now] else rows in
    latest <~ load c;;
    if is_none_or (fun latest => value latest ≠? now) latest
    then Ret (Err Error.Fenced)
    else Ret (Ok (MkHistory now rows)).
End Authority.

(** ** Paths *)

Section Paths.
Context (prefix : Path).

Lemma hex_prefix_inj {n} (a b : array n) l l' :
  encode_hex (as_bytes a) ++ l = encode_hex (as_bytes b) ++ l' -> a = b /\ l = l'.
Proof.
  intros H. apply app_inj_1 in H as [H ->]; [|by rewrite !length_encode_hex, !as_bytes_length].
  split; [|done]. pose proof (decode_encode_hex a) as Ha. rewrite H, decode_encode_hex in Ha.
  by injection Ha.
Qed.

Lemma control_path_inj c c' : control_path prefix c = control_path prefix c' -> c = c'.
Proof.
  unfold control_path. intros H. apply app_inv_head, app_inv_head in H.
  by apply hex_prefix_inj in H as [-> _].
Qed.

Lemma control_owner_path c c' i e :
  control_path prefix c <> owner_observation_path prefix c' i e.
Proof.
  unfold control_path, owner_observation_path. intros H. apply app_inv_head, app_inv_head in H.
  by apply hex_prefix_inj in H as [_ H].
Qed.

Lemma owner_path_inj c i e c' i' e' :
  u64_ok e -> u64_ok e' ->
  owner_observation_path prefix c i e = owner_observation_path prefix c' i' e' ->
  c = c' /\ i = i' /\ e = e'.
Proof.
  unfold owner_observation_path. intros He He' H. apply app_inv_head, app_inv_head in H.
  apply hex_prefix_inj in H as [-> H]. apply app_inv_head in H.
  apply hex_prefix_inj in H as [-> H]. apply app_inv_head in H.
  apply (hex_prefix_inj (Array (to_be 8 e) (length_to_be 8 e))
           (Array (to_be 8 e') (length_to_be 8 e'))) in H as [H _].
  apply (f_equal (fun a => from_be (as_bytes a))) in H. cbn [as_bytes] in H.
  by rewrite !from_be8 in H.
Qed.
End Paths.

(** ** Ghost ledger

    The ledger remembers the path and body of every version ever written. It only
    grows; what an operation learns from a reply is a fact about it. *)

Section Safety.
Context (prefix : Path).
Context `{laws : SerdeJsonLaws}.
Local Abbreviation control_path := (control_path prefix).
Local Abbreviation owner_path := (owner_observation_path prefix).

Local Abbreviation ledger := (gmap ETag (Path * list byte)).

(** [body] was stored at some time as version [t] of [p]. *)
Definition was (L : ledger) (t : ETag) (p : Path) (body : list byte) : Prop :=
  L !! t = Some (p, body).

(** The record [v] was at some time the control of its Cell. *)
Definition was_control (L : ledger) (t : ETag) (v : Control) : Prop :=
  exists body, was L t (control_path (cell v)) body /\ decode body = Ok v.

(** The owner [v] had is retained in the history of its epoch. *)
Definition observed_owner (L : ledger) (v : Control) : Prop :=
  exists t body w, was L t (owner_path (cell v) (incarnation v) (epoch v)) body /\
    decode body = Ok w /\ owner w = owner v /\ cell w = cell v /\
    incarnation w = incarnation v /\ epoch w = epoch v.

(** A body may be written to an owner history path when it is the encoding of a
    record that was the control of its Cell while owned. *)
Definition history_entry (L : ledger) (p : Path) (body : list byte) : Prop :=
  exists v t, decode body = Ok v /\ p = owner_path (cell v) (incarnation v) (epoch v) /\
    is_Some (owner v) /\ was_control L t v.

(** The writes the authority may request, given what it has learned. *)
Definition allowed (L : ledger) (r : Request) : Prop :=
  match r with
  | Req.Get _ _ => True
  | Req.Create p body =>
      (forall c, p = control_path c -> exists v, decode body = Ok v /\ cell v = c) /\
      (forall c i e, p = owner_path c i e -> history_entry L p body)
  | Req.Update p body t =>
      (forall c, p = control_path c -> exists v0 v,
         was_control L t v0 /\ cell v0 = c /\ decode body = Ok v /\ control_step v0 v /\
         (is_Some (owner v0) -> owner v0 <> owner v -> observed_owner L v0)) /\
      (forall c i e, p = owner_path c i e -> history_entry L p body)
  end.

Definition reply_ok (L : ledger) (r : Request) (x : Reply) : Prop :=
  match x with
  | Err _ => True
  | Ok (body, t) =>
      match r with
      | Req.Get p _ => was L t p body
      | Req.Create p b | Req.Update p b _ => body = b /\ was L t p body
      end
  end.

Record ledger_inv (L : ledger) : Prop := {
  ledger_control t c body :
    was L t (control_path c) body -> exists v, decode body = Ok v /\ cell v = c;
  ledger_history t c i e body :
    was L t (owner_path c i e) body -> history_entry L (owner_path c i e) body;
  ledger_chain t t' v v' :
    was_control L t v -> was_control L t' v' -> cell v = cell v' -> t <= t' ->
    rtc control_step v v';
  ledger_departed t t' v v' :
    was_control L t v -> was_control L t' v' -> cell v = cell v' -> t <= t' ->
    is_Some (owner v) -> (owner v', epoch v') <> (owner v, epoch v) -> observed_owner L v
}.

(** A program is safe when every request it may issue is allowed and it ends in
    [Q], for every reply that is true of some later ledger. *)
Fixpoint safe {A} (L : ledger) (m : prog A) (Q : ledger -> A -> Prop) : Prop :=
  match m with
  | Ret a => Q L a
  | Call r k =>
      allowed L r /\
      forall L' x, L ⊆ L' -> ledger_inv L' -> reply_ok L' r x -> safe L' (k x) Q
  end.

Lemma safe_then {A B} (m : prog A) (f : A -> prog B) L Q R :
  safe L m R -> (forall L' a, L ⊆ L' -> R L' a -> safe L' (f a) Q) -> safe L (then_ m f) Q.
Proof.
  revert L. induction m as [a|r k IH]; intros L; simpl.
  - intros HR Hf. by apply Hf.
  - intros [Ha Hk] Hf. split; [done|]. intros L' x HL Hi Hx. apply (IH x).
    + by apply Hk.
    + intros L'' a HL'. apply Hf. by etrans.
Qed.

(** The rule for [.await?]: errors end the program with no knowledge. *)
Definition on_ok {A} (R : ledger -> A -> Prop) (L : ledger) (r : Result A) : Prop :=
  match r with Ok a => R L a | Err _ => True end.

Lemma safe_try {A B} (m : prog (Result A)) (f : A -> prog (Result B)) L Q R :
  safe L m (on_ok R) -> (forall L' a, L ⊆ L' -> R L' a -> safe L' (f a) (on_ok Q)) ->
  safe L (try_ m f) (on_ok Q).
Proof.
  intros Hm Hf. unfold try_. eapply safe_then; [exact Hm|].
  intros L' [a|e] HL HR; [by apply Hf|done].
Qed.

Lemma safe_pure {A B} (r : Result A) (f : A -> prog (Result B)) L Q :
  (forall a, r = Ok a -> safe L (f a) (on_ok Q)) -> safe L (try_ (pure r) f) (on_ok Q).
Proof. intros Hf. destruct r; simpl; [by apply Hf|done]. Qed.

Lemma safe_weaken {A} (m : prog A) L Q Q' :
  (forall L' a, L ⊆ L' -> Q L' a -> Q' L' a) -> safe L m Q -> safe L m Q'.
Proof.
  revert L. induction m as [a|r k IH]; intros L HQ; simpl.
  - by apply HQ.
  - intros [Ha Hk]. split; [done|]. intros L' x HL Hi Hx. apply IH; [|by apply Hk].
    intros L'' a HL'. apply HQ. by etrans.
Qed.

(** Facts about the ledger persist. *)
Lemma was_mono L L' t p b : L ⊆ L' -> was L t p b -> was L' t p b.
Proof. intros HL Hw. by eapply lookup_weaken. Qed.
Lemma was_control_mono L L' t v : L ⊆ L' -> was_control L t v -> was_control L' t v.
Proof. intros HL (b & Hw & Hd). exists b. eauto using was_mono. Qed.
Lemma observed_owner_mono L L' v : L ⊆ L' -> observed_owner L v -> observed_owner L' v.
Proof. intros HL (t & b & w & Hw & H'). exists t, b, w. eauto using was_mono. Qed.
Lemma history_entry_mono L L' p b : L ⊆ L' -> history_entry L p b -> history_entry L' p b.
Proof. intros HL (v & t & Hd & Hp & Ho & Hw). exists v, t. eauto using was_control_mono. Qed.
Lemma allowed_mono L L' r : L ⊆ L' -> allowed L r -> allowed L' r.
Proof.
  intros HL. destruct r as [p m|p b|p b t]; simpl; [done|..]; intros [Hc Ho];
    (split; [|eauto using history_entry_mono]).
  - done.
  - intros c Hp. destruct (Hc c Hp) as (v0 & v & ? & ? & ? & ? & ?). exists v0, v.
    split_and!; eauto using was_control_mono, observed_owner_mono.
Qed.
Lemma safe_mono {A} (m : prog A) L L' Q :
  (forall L1 L2 a, L1 ⊆ L2 -> Q L1 a -> Q L2 a) -> L ⊆ L' -> safe L m Q -> safe L' m Q.
Proof.
  intros HQ HL. destruct m as [a|r k]; simpl; [by apply HQ|].
  intros [Ha Hk]. split; [by eapply allowed_mono|].
  intros L'' x HL'. apply Hk. by etrans.
Qed.

(** ** Every operation is safe *)

Definition versioned_ok (L : ledger) (v : VersionedControl) : Prop :=
  was_control L (token v) (value v).

Lemma load_safe L c :
  safe L (load prefix c)
    (on_ok (fun L' o => forall v, o = Some v -> versioned_ok L' v /\ cell (value v) = c)).
Proof.
  simpl. split; [done|]. intros L' [[body t]|e] HL Hi Hx; simpl in *.
  - apply safe_pure. intros v Hd. destruct (cell v ≠? c) eqn:Hc; [done|]. guards. subst c.
    intros _ [= <-]. simpl. split; [|done]. by exists body.
  - by destruct e.
Qed.

Lemma encoded_control c body : control_width c -> encode c = Ok body -> decode body = Ok c.
Proof. intros Hw He. by apply decode_Ok. Qed.

(** Creating a control record: shared by [create_initial] and [install_restored]. *)
Lemma create_control_safe L c body (e : Error) :
  control_width c -> encode c = Ok body ->
  safe L (Call (Req.Create (control_path (cell c)) body) (fun created =>
    match created with
    | Ok (_, tag) => Ret (Ok (MkVersioned c tag))
    | Err create_error =>
        found <~ load prefix (cell c);;
        match found with
        | Some v => if value v ≟ c then Ret (Ok v) else Ret (Err e)
        | None => from_storage create_error
        end
    end)) (on_ok versioned_ok).
Proof.
  intros Hw He. pose proof (encoded_control _ _ Hw He) as Hd. split.
  - split; [|by intros ? ? ? ?%control_owner_path].
    intros c' <-%control_path_inj. by exists c.
  - intros L' [[b t]|err] HL Hi Hx.
    + destruct Hx as [-> Hx]. exists body. by split.
    + eapply safe_try; [apply load_safe|]. intros L'' [v|] HL' Hv; [|done].
      destruct (value v ≟ c); [|done]. by apply Hv.
Qed.

Lemma create_initial_safe L entry inc o :
  u32_ok (initial_schema entry) ->
  safe L (create_initial prefix entry inc o) (on_ok versioned_ok).
Proof.
  intros Hs. apply safe_pure. intros c Hc. apply safe_pure. intros body He.
  assert (cell c = entry_cell entry /\ control_width c) as [<- Hw].
  { unfold initial in Hc. apply bind_Ok in Hc as (_ & _ & [= <-]). split; [done|].
    split_and!; try done. }
  by apply create_control_safe.
Qed.

Lemma install_restored_safe L c :
  control_width c -> safe L (install_restored prefix c) (on_ok versioned_ok).
Proof.
  intros Hw. unfold install_restored. case_match; [done|]. apply safe_pure. intros body He.
  by apply create_control_safe.
Qed.

(** What a successful read of an owner observation establishes. *)
Definition observation_ok (c : CellId) (i : IncarnationId) (e : Z) (L : ledger)
    (o : Control * ETag) : Prop :=
  cell o.1 = c /\ incarnation o.1 = i /\ epoch o.1 = e /\ is_Some (owner o.1) /\
  (exists body, was L o.2 (owner_path c i e) body /\ decode body = Ok o.1) /\
  exists t, was_control L t o.1.

Lemma load_owner_observation_safe L c i e :
  safe L (load_owner_observation prefix c i e)
    (on_ok (fun L' o => forall v, o = Some v -> observation_ok c i e L' v)).
Proof.
  unfold load_owner_observation. case_match; [done|]. split; [done|].
  intros L' [[body t]|err] HL Hi Hx; simpl in *; [|by destruct err].
  apply safe_pure. intros v Hd.
  destruct (_ || _) eqn:Hc; [done|]. guards. destruct Hc as [[[<- <-] <-] Ho].
  intros _ [= <-]. unfold observation_ok; simpl. split_and!; try done; [by exists body|].
  apply (ledger_history _ Hi) in Hx as (w & t' & Hw & _ & _ & Hc).
  rewrite Hw in Hd. injection Hd as ->. by exists t'.
Qed.

Lemma retained_Ok p o b :
  retained p o = Ok b ->
  owner p = owner o /\ cell p = cell o /\ incarnation p = incarnation o /\ epoch p = epoch o.
Proof. unfold retained. intros [Hc _]%reject_Ok. guards. tauto. Qed.

Lemma observation_observed L v t o b :
  observation_ok (cell o) (incarnation o) (epoch o) L (v, t) -> retained v o = Ok b ->
  observed_owner L o.
Proof.
  intros (Hc & Hi & He & Ho & (body & Hw & Hd) & _) (Eo & Ec & Ei & Ee)%retained_Ok.
  exists t, body, v. by split_and!.
Qed.

Lemma retain_owner_safe L t o :
  was_control L t o -> is_Some (owner o) ->
  safe L (retain_owner prefix o) (on_ok (fun L' _ => observed_owner L' o)).
Proof.
  intros Hwas Ho. unfold retain_owner. apply safe_pure. intros body He.
  eapply safe_try; [apply load_owner_observation_safe|]. intros L1 prev HL1 Hprev.
  apply safe_pure. intros kept Hkept. destruct kept.
  { destruct prev as [[p tag]|]; [|done]. eapply observation_observed; eauto. }
  assert (decode body = Ok o) as Hdec.
  { destruct Hwas as (b & _ & [Heb Hw]%decode_Ok). by apply encoded_control. }
  assert (history_entry L1 (owner_path (cell o) (incarnation o) (epoch o)) body) as Hent.
  { exists o, t. eauto using was_control_mono. }
  split.
  { destruct prev as [[p tag]|]; (split; [|done]); intros c E; by apply symmetry, control_owner_path in E. }
  intros L2 [[b tag2]|err] HL2 Hi2 Hx.
  - assert (was L2 tag2 (owner_path (cell o) (incarnation o) (epoch o)) body) as Hw2
      by (destruct prev as [[p tag]|]; simpl in Hx; by destruct Hx as [-> Hx]).
    exists tag2, body, o. by split_and!.
  - eapply safe_then; [apply load_owner_observation_safe|].
    intros L3 [[[p tag3]|]|e3] HL3 H3; simpl in H3; [|done..].
    apply safe_pure. intros [] Hk; [|done]. eapply observation_observed; eauto.
Qed.

(** Programs of other components: they may read anything and write anywhere but
    on the authority's own paths. *)
Fixpoint foreign {A} (m : prog A) : Prop :=
  match m with
  | Ret _ => True
  | Call r k =>
      match r with
      | Req.Get _ _ => True
      | Req.Create p _ | Req.Update p _ _ =>
          (forall c, p <> control_path c) /\ (forall c i e, p <> owner_path c i e)
      end /\ forall x, foreign (k x)
  end.

Lemma foreign_safe {A} (m : prog A) L Q :
  (forall L' a, Q L' a) -> foreign m -> safe L m Q.
Proof.
  intros HQ. revert L. induction m as [a|r k IH]; intros L; simpl; [done|].
  intros [Hr Hk]. split; [|by intros; apply IH].
  destruct r; simpl; [done|..]; destruct Hr as [Hc Ho];
    (split; [intros c E; by apply Hc in E|intros c i e E; by apply Ho in E]).
Qed.

Lemma step_scope c n : control_step c n -> cell n = cell c /\ incarnation n = incarnation c.
Proof. intros [t (_ & _ & (? & ? & _) & _)%validate_transition_Ok]. done. Qed.

Lemma step_keeps_epoch c n :
  control_step c n -> is_Some (owner c) -> owner n = owner c -> epoch n = epoch c.
Proof.
  intros [t Ht] Ho E. pose proof Ht as H1. apply step_epoch_owner in H1 as [[? _]|[_ Hk]]; [done|].
  apply validate_transition_Ok in Ht as (_ & _ & _ & _ & Hb).
  destruct Hk as [-> | ->]; open_arm Hb; [congruence|].
  exfalso. destruct Ho as [o Ho]. congruence.
Qed.

Section Operations.
Context (ensure_enrollment : Control -> prog (Result unit)).
Context (ensure_attachment : Control -> RecoveryOverlayRef -> prog (Result unit)).
Context (ensure_departure : Control -> prog (Result unit)).
Context (enrollment_foreign : forall c, foreign (ensure_enrollment c)).
Context (attachment_foreign : forall c r, foreign (ensure_attachment c r)).
Context (departure_foreign : forall c, foreign (ensure_departure c)).
Local Abbreviation transition :=
  (transition prefix ensure_enrollment ensure_attachment ensure_departure).

Lemma safe_guard {B} (b : bool) (m : prog (Result unit)) (f : unit -> prog (Result B)) L Q :
  (b = true -> foreign m) -> (forall L' u, L ⊆ L' -> safe L' (f u) (on_ok Q)) ->
  safe L (try_ (if b then m else Ret (Ok tt)) f) (on_ok Q).
Proof.
  intros Hm Hf. eapply (safe_try _ _ _ _ (fun _ _ => True)).
  - destruct b; [|done]. apply foreign_safe; [by intros ? []|auto].
  - intros L' u HL _. auto.
Qed.

Lemma transition_safe L observed next t :
  versioned_ok L observed -> control_width next ->
  safe L (transition observed next t) (on_ok versioned_ok).
Proof.
  intros Hobs Hw. unfold Authority.transition. apply safe_pure. intros [] Ht.
  assert (control_step (value observed) next) as Hstep by (by exists t).
  apply safe_guard; [auto|]. intros L1 _ HL1.
  apply safe_guard.
  { intros _. unfold try_, pure. simpl. destruct (ok_or _ _); simpl; auto. }
  intros L2 _ HL2. apply safe_guard; [auto|]. intros L3 _ HL3.
  assert (versioned_ok L3 observed) as Hobs3
    by (unfold versioned_ok in *; eauto using was_control_mono).
  eapply (safe_try _ _ _ _ (fun L' _ =>
    is_Some (owner (value observed)) -> owner (value observed) <> owner next ->
    observed_owner L' (value observed))).
  { destruct (is_some (owner (value observed)) && _) eqn:Hd.
    - guards. destruct Hd as [Ho _]. eapply safe_weaken; [|by eapply retain_owner_safe].
      intros L' [] _ Hr; simpl in *; auto.
    - intros Ho Hne. guards. destruct Hd; [|done]. destruct Ho; congruence. }
  intros L4 _ HL4 Hret. apply safe_pure. intros body He.
  pose proof (encoded_control _ _ Hw He) as Hd. split.
  - split; [|by intros ? ? ? ?%control_owner_path]. intros c <-%control_path_inj.
    exists (value observed), next. split_and!; try done. by eapply was_control_mono.
  - intros L5 [[b tag]|err] HL5 Hi Hx; [|done]. destruct Hx as [-> Hx].
    exists body. simpl. destruct (step_scope _ _ Hstep) as [-> _]. done.
Qed.

(** A row of the history of [now]: the record of epoch [e] while it was owned. *)
Definition row_ok (L : ledger) (now : Control) (e : Z) (row : Control) : Prop :=
  epoch row = e /\ is_Some (owner row) /\ cell row = cell now /\
  incarnation row = incarnation now /\ exists t, was_control L t row.
Definition rows_ok (L : ledger) (now : Control) (rows : list Control) : Prop :=
  forall k row, rows !! k = Some row -> row_ok L now (Z.of_nat k + 1) row.

Lemma rows_ok_mono L L' now rows : L ⊆ L' -> rows_ok L now rows -> rows_ok L' now rows.
Proof.
  intros HL Hr k row Hk. destruct (Hr k row Hk) as (? & ? & ? & ? & t & ?).
  split_and!; try done. exists t. eauto using was_control_mono.
Qed.

Lemma rows_ok_snoc L now rows row :
  rows_ok L now rows -> row_ok L now (Z.of_nat (length rows) + 1) row ->
  rows_ok L now (rows ++ [row]).
Proof.
  intros Hr Hrow k r. rewrite lookup_app_Some. intros [Hk|[Hk Hs]]; [by apply Hr|].
  apply list_lookup_singleton_Some in Hs as [Hz ->]. replace k with (length rows) by lia. done.
Qed.

Lemma collect_owners_safe n e now rows L :
  rows_ok L now rows -> e = Z.of_nat (length rows) + 1 ->
  safe L (collect_owners prefix (cell now) n e now rows)
    (on_ok (fun L' out => rows_ok L' now out /\ length out = (length rows + n)%nat)).
Proof.
  revert e rows L. induction n as [|n IH]; intros e rows L Hr ->; simpl.
  { split; [done|lia]. }
  eapply (safe_try _ _ _ _ (fun L' o => forall v, o = Some v ->
    row_ok L' now (Z.of_nat (length rows) + 1) v)).
  { unfold owner_observation. eapply safe_try; [apply load_owner_observation_safe|].
    intros L' o HL Ho v Hv. destruct o as [[w tag]|]; [|done]. injection Hv as <-.
    destruct (Ho _ eq_refl) as (? & ? & ? & ? & _ & ?). by split_and!. }
  intros L1 found HL1 Hfound. apply safe_pure. intros row Hrow%ok_or_Ok.
  case_match; [done|]. eapply safe_weaken; [|apply IH].
  - intros L' [out|] _; [|done]. simpl. intros [Hout Hlen]. split; [done|].
    rewrite Hlen, length_app. simpl. lia.
  - apply rows_ok_snoc; [by eapply rows_ok_mono|auto].
  - rewrite length_app. simpl. lia.
Qed.

Definition history_ok (L : ledger) (h : CellOwnerHistory) : Prop :=
  (exists t, was_control L t (current h)) /\ rows_ok L (current h) (owners h) /\
  Z.of_nat (length (owners h)) =
    match state (current h) with Tombstoned => epoch (current h) - 1 | _ => epoch (current h) end.

Lemma owner_history_safe L c limit :
  safe L (owner_history prefix c limit) (on_ok history_ok).
Proof.
  unfold owner_history. eapply safe_try; [apply load_safe|]. intros L1 found HL1 Hfound.
  apply safe_pure. intros loaded Hl%ok_or_Ok. destruct (Hfound _ Hl) as [Hok Hcell].
  destruct loaded as [now tag]. cbn [value] in *. subst c. cbv zeta.
  set (count := match state now with Tombstoned => epoch now - 1 | _ => epoch now end).
  case_match; [done|].
  assert (validate now = Ok tt /\ control_width now) as [Hv Hwid].
  { destruct Hok as (b & _ & [He Hw]%decode_Ok). by apply encode_Ok in He as [? _]. }
  assert (0 <= count /\ (is_Some (owner now) -> count = epoch now /\ 1 <= count)) as [Hc0 Hc1].
  { apply validate_Ok in Hv as Hv'. destruct Hv' as ((? & _) & _).
    destruct Hwid as ((? & ?) & _). split; [subst count; case_match; lia|].
    intros [o Ho]. subst count. destruct (state now) eqn:Es; try lia.
    apply validate_tombstoned in Hv; congruence. }
  eapply safe_try; [apply collect_owners_safe; [by intros k r|done]|].
  intros L2 rows HL2 [Hrows Hlen]. simpl in Hlen.
  eapply safe_try; [apply load_safe|]. intros L3 latest HL3 _.
  destruct (is_none_or _ latest); [done|]. assert (was_control L3 tag now) as Hnow
    by (eapply was_control_mono; [|exact Hok]; by etrans).
  split; cbn [current owners]; [by exists tag|].
  destruct (owner now) as [o|] eqn:Ho; cbn [is_some] in *.
  - destruct Hc1 as [Hc1 Hc2]; [done|]. split.
    + apply rows_ok_snoc; [by eapply rows_ok_mono|]. split_and!; try done; [lia|by exists tag].
    + rewrite length_app. simpl. fold count. lia.
  - split; [by eapply rows_ok_mono|]. fold count. lia.
Qed.

(** ** The system: a store, running operations, and what callers were told *)

Inductive Known :=
| KnownControl (v : VersionedControl)
| KnownHistory (h : CellOwnerHistory).

Record System := MkSystem {
  store : Store;
  pool : list (prog (list Known));
  known : list Known
}.

(** A caller keeps the value of a successful operation. *)
Definition keep {A} (f : A -> list Known) (m : prog (Result A)) : prog (list Known) :=
  then_ m (fun r => Ret match r with Ok a => f a | Err _ => [] end).

(** The operations a process may start: a transition from a control it was given,
    to any record of the Rust type, and any other operation at any time. *)
Inductive startable (k : list Known) : prog (list Known) -> Prop :=
| start_load c :
    startable k (keep (fun o => match o with Some v => [KnownControl v] | None => [] end)
                   (load prefix c))
| start_create entry inc o :
    u32_ok (initial_schema entry) ->
    startable k (keep (fun v => [KnownControl v]) (create_initial prefix entry inc o))
| start_restore c :
    control_width c ->
    startable k (keep (fun v => [KnownControl v]) (install_restored prefix c))
| start_transition v n t :
    KnownControl v ∈ k -> control_width n ->
    startable k (keep (fun v => [KnownControl v]) (transition v n t))
| start_history c limit :
    startable k (keep (fun h => [KnownHistory h]) (owner_history prefix c limit))
| start_foreign (m : prog unit) :
    foreign m -> startable k (then_ m (fun _ => Ret [])).

(** Start an operation, serve one request of one operation with any fault, or
    deliver a result. An operation may also be abandoned: it simply never runs
    again. *)
Inductive sys_step : System -> System -> Prop :=
| sys_start s ps ks m :
    startable ks m -> sys_step (MkSystem s ps ks) (MkSystem s (m :: ps) ks)
| sys_serve s ps1 r k ps2 ks f :
    sys_step (MkSystem s (ps1 ++ Call r k :: ps2) ks)
      (MkSystem (serve f s r).1 (ps1 ++ k (serve f s r).2 :: ps2) ks)
| sys_finish s ps1 out ps2 ks :
    sys_step (MkSystem s (ps1 ++ Ret out :: ps2) ks) (MkSystem s (ps1 ++ ps2) (out ++ ks)).

Definition sys_init : System := MkSystem (MkStore ∅ 0) [] [].

Definition known_ok (L : ledger) (k : Known) : Prop :=
  match k with
  | KnownControl v => versioned_ok L v
  | KnownHistory h => history_ok L h
  end.
Definition out_ok (L : ledger) (ks : list Known) : Prop := Forall (known_ok L) ks.

Lemma known_ok_mono L L' k : L ⊆ L' -> known_ok L k -> known_ok L' k.
Proof.
  intros HL. destruct k as [v|h]; simpl; [apply was_control_mono; done|].
  intros ((t & Ht) & Hr & Hlen). split_and!; [|by eapply rows_ok_mono|done].
  exists t. by eapply was_control_mono.
Qed.
Lemma out_ok_mono L L' ks : L ⊆ L' -> out_ok L ks -> out_ok L' ks.
Proof. intros HL Hk. eapply Forall_impl; [exact Hk|]. intros k. by apply known_ok_mono. Qed.

Lemma keep_safe {A} (f : A -> list Known) (m : prog (Result A)) L R :
  safe L m (on_ok R) -> (forall L' a, R L' a -> out_ok L' (f a)) -> safe L (keep f m) out_ok.
Proof.
  intros Hm Hf. eapply safe_then; [exact Hm|]. intros L' [a|e] _ HR; simpl; [by apply Hf|].
  constructor.
Qed.

Lemma startable_safe L k m : out_ok L k -> startable k m -> safe L m out_ok.
Proof.
  intros Hk Hs.
  assert (forall L' v, versioned_ok L' v -> out_ok L' [KnownControl v]) as Hone
    by (intros; by apply Forall_singleton).
  destruct Hs as [c|entry inc o Hw|c Hw|v n t Hv Hw|c limit|m Hf].
  - eapply keep_safe; [apply load_safe|]. intros L' [v|] HR; [|by constructor].
    apply Hone. by apply HR.
  - by eapply keep_safe; [apply create_initial_safe|].
  - by eapply keep_safe; [apply install_restored_safe|].
  - eapply keep_safe; [apply transition_safe|]; [|done..].
    unfold out_ok in Hk. rewrite Forall_forall in Hk. by apply (Hk (KnownControl v)).
  - eapply keep_safe; [apply owner_history_safe|]. intros L' h Hh. by apply Forall_singleton.
  - eapply (safe_then _ _ _ _ (fun _ _ => True)); [by apply foreign_safe|].
    intros; by constructor.
Qed.

(** The store agrees with the ledger: the current version of a path is its latest
    entry, an absent path has none, and tags are fresh. *)
Record store_inv (s : Store) (L : ledger) : Prop := {
  store_current p b t : objects s !! p = Some (b, t) ->
    was L t p b /\ forall t' b', was L t' p b' -> t' <= t;
  store_absent p : objects s !! p = None -> forall t b, ~ was L t p b;
  store_fresh t p b : was L t p b -> t < next_tag s
}.

Record sys_inv (y : System) (L : ledger) : Prop := {
  inv_ledger : ledger_inv L;
  inv_store : store_inv (store y) L;
  inv_pool : Forall (fun m => safe L m out_ok) (pool y);
  inv_known : out_ok L (known y)
}.

(** One applied write extends the ledger by one version. *)
Section Write.
Context (s : Store) (L : ledger) (p : Path) (body : list byte).
Context (Hs : store_inv s L) (Hl : ledger_inv L).
Local Abbreviation L' := (<[next_tag s := (p, body)]> L : ledger).

Lemma ledger_extends : L ⊆ L'.
Proof.
  apply insert_subseteq. destruct (L !! next_tag s) as [[q b]|] eqn:E; [|done].
  apply (store_fresh _ _ Hs) in E. lia.
Qed.

Lemma was_write t q b :
  was L' t q b <-> (t = next_tag s /\ q = p /\ b = body) \/ was L t q b.
Proof.
  unfold was. destruct (decide (t = next_tag s)) as [->|Hne].
  - rewrite lookup_insert_eq. split; [by intros [= -> ->]; left|].
    intros [(_ & -> & ->)|Hw]; [done|]. apply (store_fresh _ _ Hs) in Hw. lia.
  - rewrite lookup_insert_ne by done. naive_solver.
Qed.

Lemma was_control_write t v :
  was_control L' t v <->
  (t = next_tag s /\ p = control_path (cell v) /\ decode body = Ok v) \/ was_control L t v.
Proof.
  unfold was_control. split.
  - intros (b & [(Ht & Hq & Hb)|Hw]%was_write & Hd); [left; by rewrite <- Hb|right; by exists b].
  - intros [(-> & Hp & Hd)|(b & Hw & Hd)]; [exists body|exists b]; rewrite was_write; auto.
Qed.

Lemma store_write : store_inv (write s p body).1 L'.
Proof.
  split; unfold write; cbn [fst objects next_tag].
  - intros q b t. rewrite lookup_insert_Some, was_write. intros [[Hq [= Hb Ht]]|[Hne Hq]].
    + split; [by left|]. intros t' b' [(? & _)|Hw]%was_write; [lia|].
      apply (store_fresh _ _ Hs) in Hw. lia.
    + apply (store_current _ _ Hs) in Hq as [Hw Hmax]. split; [by right|].
      intros t' b' [(_ & ? & _)|Hw']%was_write; [congruence|by eapply Hmax].
  - intros q. rewrite lookup_insert_None. intros [Hq Hne] t b [(_ & ? & _)|Hw]%was_write; [congruence|].
    by eapply store_absent.
  - intros t q b [(? & _)|Hw]%was_write; [lia|]. apply (store_fresh _ _ Hs) in Hw. lia.
Qed.

(** The new version continues the chain of its Cell: [prior] is the record it
    replaces, if any. *)
Definition continues (v' : Control) : Prop :=
  forall t v, was_control L t v -> cell v = cell v' ->
    rtc control_step v v' /\
    (is_Some (owner v) -> (owner v', epoch v') <> (owner v, epoch v) -> observed_owner L v).

Lemma ledger_write :
  (forall c, p = control_path c -> exists v', decode body = Ok v' /\ cell v' = c /\ continues v') ->
  (forall c i e, p = owner_path c i e -> history_entry L p body) ->
  ledger_inv L'.
Proof.
  intros Hcont Hhist. pose proof ledger_extends as Hext.
  assert (forall v, p = control_path (cell v) -> decode body = Ok v -> continues v) as Hnew.
  { intros v Hp Hd. destruct (Hcont _ Hp) as (v' & Hd' & _ & Hc).
    rewrite Hd in Hd'. by injection Hd' as <-. }
  split.
  - intros t c b [(_ & Hp & Hb)|Hw]%was_write; [rewrite Hb|by eapply ledger_control].
    destruct (Hcont c (eq_sym Hp)) as (v' & ? & ? & _). by exists v'.
  - intros t c i e b [(_ & Hp & Hb)|Hw]%was_write; (eapply history_entry_mono; [done|]).
    + rewrite Hp, Hb. by eapply Hhist.
    + by eapply ledger_history.
  - intros t t' v v' [(-> & Hp & Hd)|Hv]%was_control_write [(-> & Hp' & Hd')|Hv']%was_control_write Hc Hle.
    + by replace v' with v by congruence.
    + destruct Hv' as (b & Hw & _). apply (store_fresh _ _ Hs) in Hw. lia.
    + by apply (Hnew v' Hp' Hd' t).
    + by apply (ledger_chain _ Hl t t').
  - intros t t' v v' [(-> & Hp & Hd)|Hv]%was_control_write [(-> & Hp' & Hd')|Hv']%was_control_write Hc Hle Ho Hne;
      (eapply observed_owner_mono; [done|]).
    + by replace v' with v in Hne by congruence.
    + destruct Hv' as (b & Hw & _). apply (store_fresh _ _ Hs) in Hw. lia.
    + by apply (Hnew v' Hp' Hd' t).
    + by apply (ledger_departed _ Hl t t' v v').
Qed.
End Write.

Lemma chain_scope c n : rtc control_step c n -> cell n = cell c /\ incarnation n = incarnation c.
Proof.
  induction 1 as [|c m n Hst _ IH]; [done|]. apply step_scope in Hst. destruct IH, Hst. split; congruence.
Qed.

(** A compare-and-swap against the current version continues the chain. *)
Lemma update_continues s L t v0 v :
  store_inv s L -> ledger_inv L ->
  (exists b, objects s !! control_path (cell v) = Some (b, t)) ->
  was_control L t v0 -> cell v0 = cell v -> control_step v0 v ->
  (is_Some (owner v0) -> owner v0 <> owner v -> observed_owner L v0) ->
  continues L v.
Proof.
  intros Hs Hl [b Hcur] H0 Hc0 Hstep Hobs t1 v1 H1 Hc1.
  assert (t1 <= t) as Hle.
  { destruct H1 as (b1 & Hw1 & _). rewrite Hc1 in Hw1.
    apply (store_current _ _ Hs) in Hcur as [_ Hmax]. by eapply Hmax. }
  assert (rtc control_step v1 v0) as Hrun by (apply (ledger_chain _ Hl t1 t); congruence || done).
  split; [by eapply rtc_r|]. intros Ho1 Hne.
  destruct (decide ((owner v0, epoch v0) = (owner v1, epoch v1))) as [E|E].
  2: { apply (ledger_departed _ Hl t1 t v1 v0); congruence || done. }
  injection E as Eo Ee. rewrite <- Eo in Ho1.
  assert (owner v0 <> owner v) as Hdep.
  { intros E. apply Hne. rewrite (step_keeps_epoch _ _ Hstep Ho1 (eq_sym E)). congruence. }
  destruct (Hobs Ho1 Hdep) as (t3 & b3 & w & Hw3 & Hd3 & ? & ? & ? & ?).
  apply chain_scope in Hrun as [Ec Ei]. rewrite Ec, Ei, Ee in Hw3.
  exists t3, b3, w. split_and!; congruence || done.
Qed.

(** The ledger grows only by the versions a store holds. *)
Definition recorded (s : Store) (L L1 : ledger) : Prop :=
  L ⊆ L1 /\ forall t p b, was L1 t p b -> was L t p b \/ objects s !! p = Some (b, t).

Lemma recorded_refl s L : recorded s L L.
Proof. split; [done|by left]. Qed.

(** Serving one allowed request keeps the invariants and answers truthfully. *)
Lemma perform_inv s L r :
  store_inv s L -> ledger_inv L -> allowed L r ->
  exists L1, recorded (perform s r).1 L L1 /\ ledger_inv L1 /\ store_inv (perform s r).1 L1 /\
             reply_ok L1 r (perform s r).2.
Proof.
  intros Hs Hl Ha.
  assert (forall p body, ledger_inv (<[next_tag s := (p, body)]> L) ->
    exists L1, recorded (write s p body).1 L L1 /\ ledger_inv L1 /\ store_inv (write s p body).1 L1 /\
      body = body /\ was L1 (next_tag s) p body) as Hwrite.
  { intros p body Hi. exists (<[next_tag s := (p, body)]> L).
    split_and!; [split; [by apply ledger_extends|]|done|by apply store_write|done|].
    - intros t q b [(-> & -> & ->)|?]%was_write; [right; apply lookup_insert_eq|by left|done].
    - apply was_write; [done|by left]. }
  pose proof (recorded_refl s L) as Hrefl.
  destruct r as [p max|p body|p body t]; simpl.
  - exists L. destruct (objects s !! p) as [[b t]|] eqn:E; [|done].
    apply (store_current _ _ Hs) in E as [Hw _]. by case_match.
  - destruct (objects s !! p) as [[b t]|] eqn:E; [by exists L|].
    apply Hwrite. destruct Ha as [Hc Ho]. apply ledger_write; [done..| |done].
    intros c Hp. destruct (Hc c Hp) as (v & Hd & Hcell). exists v. split_and!; try done.
    intros t1 v1 (b1 & Hw & _) E1. rewrite E1, Hcell, <- Hp in Hw.
    by apply (store_absent _ _ Hs) in Hw.
  - destruct (objects s !! p) as [[b cur]|] eqn:E; [|by exists L].
    destruct (Z.eqb_spec t cur) as [->|Hne]; [|by exists L].
    apply Hwrite. destruct Ha as [Hc Ho]. apply ledger_write; [done..| |done].
    intros c Hp. destruct (Hc c Hp) as (v0 & v & Hw0 & Hc0 & Hd & Hst & Hobs).
    destruct (step_scope _ _ Hst) as [Ec _]. exists v. split_and!; [done|congruence|].
    apply (update_continues s L cur v0); try done. exists b. by rewrite Ec, Hc0, <- Hp.
Qed.

Lemma serve_inv f s L r :
  store_inv s L -> ledger_inv L -> allowed L r ->
  exists L1, recorded (serve f s r).1 L L1 /\ ledger_inv L1 /\ store_inv (serve f s r).1 L1 /\
             reply_ok L1 r (serve f s r).2.
Proof.
  intros Hs Hl Ha. destruct f; simpl.
  - by apply perform_inv.
  - exists L. by pose proof (recorded_refl s L).
  - destruct (perform_inv _ _ _ Hs Hl Ha) as (L1 & ? & ? & ? & _). by exists L1.
Qed.

Lemma sys_step_inv y y' L :
  sys_inv y L -> sys_step y y' -> exists L1, recorded (store y') L L1 /\ sys_inv y' L1.
Proof.
  intros [Hl Hs Hp Hk] Hst. destruct Hst as [s ps ks m Hm|s ps1 r k ps2 ks f|s ps1 out ps2 ks];
    cbn [store pool known] in *.
  - exists L. split; [apply recorded_refl|]. split; try done. constructor; [by eapply startable_safe|done].
  - apply Forall_app in Hp as [Hp1 [[Ha Hcont] Hp2]%Forall_cons].
    destruct (serve_inv f _ _ _ Hs Hl Ha) as (L1 & Hrec & Hl1 & Hs1 & Hx).
    destruct Hrec as [HL1 Hnew].
    assert (forall ms, Forall (fun m => safe L m out_ok) ms -> Forall (fun m => safe L1 m out_ok) ms)
      as Hmono by (intros ms Hms; eapply Forall_impl; [exact Hms|];
                   intros m; apply safe_mono; [apply out_ok_mono|done]).
    exists L1. split; [done|]. split; cbn [store pool known]; [done..| |by eapply out_ok_mono].
    apply Forall_app. split; [by apply Hmono|]. constructor; [by apply Hcont|by apply Hmono].
  - apply Forall_app in Hp as [Hp1 [Hout Hp2]%Forall_cons].
    exists L. split; [apply recorded_refl|]. split; try done; cbn [pool known].
    + by apply Forall_app.
    + apply Forall_app. by split.
Qed.

Lemma sys_run_inv y y' L :
  sys_inv y L -> rtc sys_step y y' -> exists L1, L ⊆ L1 /\ sys_inv y' L1.
Proof.
  intros Hy Hrun. revert L Hy. induction Hrun as [y|y y1 y' Hst _ IH]; intros L Hy; [by exists L|].
  destruct (sys_step_inv _ _ _ Hy Hst) as (L1 & [HL1 _] & Hy1).
  destruct (IH _ Hy1) as (L2 & HL2 & Hy2). exists L2. split; [by etrans|done].
Qed.

Lemma sys_init_inv : sys_inv sys_init ∅.
Proof.
  split; [split| |constructor..]; try (by intros; unfold was in *; rewrite lookup_empty in *).
  - intros t t' v v' (b & Hw & _). unfold was in Hw. by rewrite lookup_empty in Hw.
  - intros t t' v v' (b & Hw & _). unfold was in Hw. by rewrite lookup_empty in Hw.
  - split; simpl; unfold was; intros *; rewrite ?lookup_empty; done.
Qed.

(** The control record stored for a Cell. *)
Definition stored (y : System) (c : CellId) : option Control :=
  match objects (store y) !! control_path c with
  | Some (body, _) => match decode body with Ok v => Some v | Err _ => None end
  | None => None
  end.

Lemma stored_was y L c v :
  sys_inv y L -> stored y c = Some v ->
  exists t, was_control L t v /\ cell v = c /\
    forall t' v', was_control L t' v' -> cell v' = c -> t' <= t.
Proof.
  intros [Hl Hs _ _]. unfold stored.
  destruct (objects (store y) !! control_path c) as [[b t]|] eqn:E; [|done].
  apply (store_current _ _ Hs) in E as [Hw Hmax].
  destruct (ledger_control _ Hl _ _ _ Hw) as (v' & Hd & Hc). rewrite Hd. intros [= ->]. exists t.
  split_and!; [exists b; by rewrite Hc|done|]. clear Hd.
  intros t' v' (b' & Hw' & _) <-. by eapply Hmax.
Qed.

Lemma was_stored y L c t v :
  sys_inv y L -> was_control L t v -> cell v = c -> exists v', stored y c = Some v' /\ rtc control_step v v'.
Proof.
  intros Hy Hv <-. pose proof (inv_ledger _ _ Hy) as Hl. pose proof (inv_store _ _ Hy) as Hs.
  assert (exists v', stored y (cell v) = Some v') as [v' Hv'].
  { unfold stored. destruct Hv as (b & Hw & _).
    destruct (objects (store y) !! control_path (cell v)) as [[b' t']|] eqn:E.
    - apply (store_current _ _ Hs) in E as [Hw' _].
      destruct (ledger_control _ Hl _ _ _ Hw') as (v' & -> & _). eauto.
    - by apply (store_absent _ _ Hs _ E) in Hw. }
  exists v'. split; [done|].
  destruct (stored_was _ _ _ _ Hy Hv') as (t' & Hw & Hc & Hmax).
  apply (ledger_chain _ Hl t t'); eauto.
Qed.

Lemma run_stored y y' L c v :
  sys_inv y L -> rtc sys_step y y' -> stored y c = Some v ->
  exists v', stored y' c = Some v' /\ rtc control_step v v'.
Proof.
  intros Hy Hrun Hv. destruct (stored_was _ _ _ _ Hy Hv) as (t & Hw & Hc & _).
  destruct (sys_run_inv _ _ _ Hy Hrun) as (L1 & HL & Hy1).
  eapply was_stored; eauto using was_control_mono.
Qed.

Lemma was_control_width L t v : was_control L t v -> control_width v.
Proof. intros (b & _ & [_ Hw]%decode_Ok). done. Qed.

(** Two owned records of one epoch of a Cell name the same owner. *)
Lemma was_same_owner L t t' v v' :
  ledger_inv L -> was_control L t v -> was_control L t' v' -> cell v = cell v' ->
  epoch v = epoch v' -> is_Some (owner v) -> is_Some (owner v') -> owner v = owner v'.
Proof.
  intros Hl Hv Hv' Hc He [o Ho] [o' Ho'].
  destruct (Z.le_ge_cases t t') as [Hle|Hle].
  - destruct (chain_epoch_owner v v') as [_ [E|E]]; [by apply (ledger_chain _ Hl t t')|congruence..].
  - destruct (chain_epoch_owner v' v) as [_ [E|E]]; [by apply (ledger_chain _ Hl t' t)|congruence..].
Qed.

(** The history object of an observed owner still names that owner. *)
Lemma history_current y L t v :
  sys_inv y L -> was_control L t v -> is_Some (owner v) -> observed_owner L v ->
  exists body t' w,
    objects (store y) !! owner_path (cell v) (incarnation v) (epoch v) = Some (body, t') /\
    decode body = Ok w /\ owner w = owner v /\ epoch w = epoch v /\
    cell w = cell v /\ incarnation w = incarnation v.
Proof.
  intros Hy Hv Ho (t1 & b1 & w1 & Hw1 & _).
  pose proof (inv_ledger _ _ Hy) as Hl. pose proof (inv_store _ _ Hy) as Hs.
  destruct (objects (store y) !! owner_path (cell v) (incarnation v) (epoch v))
    as [[body t']|] eqn:E; [|by apply (store_absent _ _ Hs _ E) in Hw1].
  apply (store_current _ _ Hs) in E as [Hw _].
  destruct (ledger_history _ Hl _ _ _ _ _ Hw) as (w & t2 & Hd & Hp & Ho2 & Hw2).
  apply owner_path_inj in Hp as (Ec & Ei & Ee); [|eapply was_control_width; eauto..].
  exists body, t', w. split_and!; try done.
  by apply (was_same_owner L t2 t).
Qed.

Lemma reachable_inv y : rtc sys_step sys_init y -> exists L, sys_inv y L.
Proof. intros Hrun. destruct (sys_run_inv _ _ _ sys_init_inv Hrun) as (L & _ & Hy). by exists L. Qed.

(** At some moment of the history of [y], the store held [c] as the record of its Cell
    under exactly the version [t]. *)
Definition once_stored (y : System) (c : Control) (t : ETag) : Prop :=
  exists y0 body, rtc sys_step sys_init y0 /\ rtc sys_step y0 y /\
    objects (store y0) !! control_path (cell c) = Some (body, t) /\ decode body = Ok c.

(** The ledger of a reachable state holds only what was stored on the way to it. *)
Lemma reachable_realised y :
  rtc sys_step sys_init y ->
  exists L, sys_inv y L /\ forall t c, was_control L t c -> once_stored y c t.
Proof.
  intros Hrun.
  cut (exists L, sys_inv y L /\ forall t p b, was L t p b ->
         exists y0, rtc sys_step sys_init y0 /\ rtc sys_step y0 y /\ objects (store y0) !! p = Some (b, t)).
  { intros (L & Hy & Hall). exists L. split; [done|]. intros t c (b & Hw & Hd).
    destruct (Hall _ _ _ Hw) as (y0 & ? & ? & ?). by exists y0, b. }
  revert y Hrun. apply (rtc_ind_r _ sys_init); [|intros y y' Hrun Hst (L & Hy & Hall)].
  { exists ∅. split; [apply sys_init_inv|]. intros t p b Hw. unfold was in Hw. by rewrite lookup_empty in Hw. }
  destruct (sys_step_inv _ _ _ Hy Hst) as (L1 & [_ Hnew] & Hy1). exists L1. split; [done|].
  intros t p b [Hw|Hw]%Hnew.
  - destruct (Hall _ _ _ Hw) as (y0 & ? & ? & ?). exists y0. split_and!; [done|by eapply rtc_r|done].
  - exists y'. split_and!; [by eapply rtc_r|constructor|done].
Qed.
End Operations.
End Safety.

(** ** Theorems

    [guards_foreign] is the one assumption about the bundle guards: they write
    no control or owner history object. *)
Definition guards_foreign prefix (enroll depart : Control -> prog (Result unit))
    (attach : Control -> RecoveryOverlayRef -> prog (Result unit)) : Prop :=
  (forall c, foreign prefix (enroll c)) /\ (forall c r, foreign prefix (attach c r)) /\
  (forall c, foreign prefix (depart c)).

(** C1: one owner per epoch, whatever runs. From the empty store, under every
    interleaving of loads, creations, restores, transitions, history reads and
    foreign programs, with requests failing before or after they are applied, the
    control record of a Cell only moves along validated transitions and is never
    lost; so if at two moments it names owners in the same epoch, they are the
    same owner. *)
Theorem authority_single_owner `{SerdeJsonLaws} prefix enroll attach depart y y' c v :
  guards_foreign prefix enroll depart attach ->
  rtc (sys_step prefix enroll attach depart) sys_init y ->
  rtc (sys_step prefix enroll attach depart) y y' ->
  stored prefix y c = Some v ->
  exists v', stored prefix y' c = Some v' /\ rtc control_step v v' /\
    (forall o o', epoch v = epoch v' -> owner v = Some o -> owner v' = Some o' -> o = o').
Proof.
  intros (He & Ha & Hd) Hr Hrun Hv.
  destruct (reachable_inv prefix enroll attach depart He Ha Hd _ Hr) as [L Hy].
  destruct (run_stored prefix enroll attach depart He Ha Hd _ _ _ _ _ Hy Hrun Hv) as (v' & Hv' & Hc).
  exists v'. split_and!; [done..|]. intros o o' E Ho Ho'.
  destruct (chain_epoch_owner _ _ Hc) as [_ [Hs|Hs]]; congruence.
Qed.

(** C4: a reported success is real. Every control an operation returned to its
    caller was the stored record of its Cell, at some moment of the history and
    under exactly the conditional-write token it was returned with, and the record
    stored now descends from it by validated transitions, even when the success
    was inferred by reading back after a failed write. *)
Theorem reported_control_stored `{SerdeJsonLaws} prefix enroll attach depart y v :
  guards_foreign prefix enroll depart attach ->
  rtc (sys_step prefix enroll attach depart) sys_init y ->
  KnownControl v ∈ known y ->
  once_stored prefix enroll attach depart y (value v) (token v) /\
  exists v', stored prefix y (cell (value v)) = Some v' /\ rtc control_step (value v) v'.
Proof.
  intros (He & Ha & Hd) Hr Hk.
  destruct (reachable_realised prefix enroll attach depart He Ha Hd _ Hr) as (L & Hy & Hreal).
  pose proof (inv_known _ _ _ Hy) as Hok. unfold out_ok in Hok. rewrite Forall_forall in Hok.
  specialize (Hok _ Hk). split; [by apply Hreal|]. by eapply was_stored.
Qed.

(** C2: no owner leaves unrecorded. Once the stored record of a Cell no longer
    carries an owner it once had in that epoch, the owner history of that
    incarnation and epoch holds an observation naming that owner, whatever
    failed in between. *)
Theorem departed_owner_retained `{SerdeJsonLaws} prefix enroll attach depart y y' c v v' :
  guards_foreign prefix enroll depart attach ->
  rtc (sys_step prefix enroll attach depart) sys_init y ->
  rtc (sys_step prefix enroll attach depart) y y' ->
  stored prefix y c = Some v -> is_Some (owner v) ->
  stored prefix y' c = Some v' -> (owner v', epoch v') <> (owner v, epoch v) ->
  exists body t w,
    objects (store y') !! owner_observation_path prefix c (incarnation v) (epoch v) = Some (body, t) /\
    decode body = Ok w /\ owner w = owner v /\ epoch w = epoch v /\
    cell w = c /\ incarnation w = incarnation v.
Proof.
  intros (He & Ha & Hd) Hr Hrun Hv Ho Hv' Hne.
  destruct (reachable_inv prefix enroll attach depart He Ha Hd _ Hr) as [L Hy].
  destruct (sys_run_inv prefix enroll attach depart He Ha Hd _ _ _ Hy Hrun) as (L1 & HL & Hy1).
  destruct (stored_was _ _ _ _ _ Hy Hv) as (t & Hw & Hc & _).
  destruct (stored_was _ _ _ _ _ Hy1 Hv') as (t' & Hw' & Hc' & Hmax).
  eapply was_control_mono in Hw as Hw1; [|exact HL].
  rewrite <- Hc. refine (history_current _ _ _ _ _ Hy1 Hw1 Ho _).
  apply (ledger_departed _ _ (inv_ledger _ _ _ Hy1) t t' v v'); try done; [congruence|].
  by apply (Hmax t v).
Qed.

(** C3: an owner history is the truth. When [owner_history] returns, its current
    record was the stored control of a Cell, and its rows are the owned records of
    that Cell and incarnation for the epochs 1, 2, 3, ... in order, without a gap,
    up to the last ownership epoch of the current record. Every row was the stored
    control of the Cell too, so the record stored now descends from it, and any
    record ever reported with the same epoch and an owner names the same owner. *)
Theorem owner_history_true `{SerdeJsonLaws} prefix enroll attach depart y h :
  guards_foreign prefix enroll depart attach ->
  rtc (sys_step prefix enroll attach depart) sys_init y ->
  KnownHistory h ∈ known y ->
  (exists t, once_stored prefix enroll attach depart y (current h) t) /\
  (exists now, stored prefix y (cell (current h)) = Some now /\ rtc control_step (current h) now) /\
  Z.of_nat (length (owners h)) =
    match state (current h) with Tombstoned => epoch (current h) - 1 | _ => epoch (current h) end /\
  forall k row, owners h !! k = Some row ->
    cell row = cell (current h) /\ incarnation row = incarnation (current h) /\
    epoch row = Z.of_nat k + 1 /\ is_Some (owner row) /\
    (exists t, once_stored prefix enroll attach depart y row t) /\
    (exists now, stored prefix y (cell row) = Some now /\ rtc control_step row now) /\
    (forall v, KnownControl v ∈ known y -> cell (value v) = cell row ->
       epoch (value v) = epoch row -> is_Some (owner (value v)) -> owner (value v) = owner row).
Proof.
  intros (He & Ha & Hd) Hr Hk.
  destruct (reachable_realised prefix enroll attach depart He Ha Hd _ Hr) as (L & Hy & Hreal).
  pose proof (inv_known _ _ _ Hy) as Hok. unfold out_ok in Hok. rewrite Forall_forall in Hok.
  destruct (Hok _ Hk) as ((t0 & Hcur) & Hrows & Hlen).
  split_and!; [exists t0; by apply Hreal|by eapply was_stored|done|].
  intros k row Hrow. destruct (Hrows k row Hrow) as (Hep & Ho & Hcell & Hinc & t & Hw).
  split_and!; [done..|exists t; by apply Hreal|by eapply was_stored|].
  intros v Hv Hc Hev Hov. specialize (Hok _ Hv).
  eapply was_same_owner; [exact (inv_ledger _ _ _ Hy)|exact Hok|exact Hw|done..].
Qed.

(** ** Uncontended operations succeed *)

(** An operation alone with a store that does not fail. *)
Fixpoint run {A} (m : prog A) (s : Store) : Store * A :=
  match m with
  | Ret a => (s, a)
  | Call r k => run (k (perform s r).2) (perform s r).1
  end.

Lemma run_then {A B} (m : prog A) (f : A -> prog B) s :
  run (then_ m f) s = run (f (run m s).2) (run m s).1.
Proof. revert s. induction m as [a|r k IH]; intros s; simpl; [done|]. apply IH. Qed.

Lemma run_try {A B} (m : prog (Result A)) (f : A -> prog (Result B)) s s' a :
  run m s = (s', Ok a) -> run (try_ m f) s = run (f a) s'.
Proof. intros E. unfold try_. by rewrite run_then, E. Qed.

Section Uncontended.
Context `{SerdeJson} (prefix : Path).
Let pass1 (_ : Control) : prog (Result unit) := Ret (Ok tt).
Let pass2 (_ : Control) (_ : RecoveryOverlayRef) : prog (Result unit) := Ret (Ok tt).

(** Retaining a first observation writes it and nothing else. *)
Lemma retain_owner_first o body s :
  encode o = Ok body -> epoch o <> 0 ->
  objects s !! owner_observation_path prefix (cell o) (incarnation o) (epoch o) = None ->
  run (retain_owner prefix o) s =
    ((write s (owner_observation_path prefix (cell o) (incarnation o) (epoch o)) body).1, Ok tt).
Proof.
  intros He Hep Hn. unfold retain_owner, load_owner_observation.
  rewrite He. apply Z.eqb_neq in Hep as ->. simpl. rewrite Hn. simpl. by rewrite Hn.
Qed.

(** C5: an uncontended transition commits. If the observed version is still
    current, the successor validates and encodes, the guards pass and the epoch
    has no history yet, then [transition] succeeds: the successor becomes the
    stored record under the returned token, and when the owner changes the
    departing owner's record is stored in the history first. *)
Theorem transition_commits v tok n t old body bv s :
  objects s !! control_path prefix (cell v) = Some (old, tok) ->
  validate_transition v n t = Ok tt -> encode v = Ok bv -> encode n = Ok body ->
  (recovery v <> None \/ recovery n <> None \/
     (t <> Transition.AttachRecovery /\ t <> Transition.PublishRecovery)) ->
  objects s !! owner_observation_path prefix (cell v) (incarnation v) (epoch v) = None ->
  let '(s', r) := run (transition prefix pass1 pass2 pass1 (MkVersioned v tok) n t) s in
  exists tag, r = Ok (MkVersioned n tag) /\
    objects s' !! control_path prefix (cell v) = Some (body, tag) /\
    (is_Some (owner v) -> owner v <> owner n ->
       objects s' !! owner_observation_path prefix (cell v) (incarnation v) (epoch v)
         = Some (bv, next_tag s)).
Proof.
  intros Hcur Ht Hev Hen Hrec Hhist. unfold transition. cbn [value token].
  rewrite (run_try _ _ _ s tt) by (by rewrite Ht).
  rewrite (run_try _ _ _ s tt) by (by case_match).
  rewrite (run_try _ _ _ s tt).
  2: { destruct (_ && is_some (bundle_binding v)) eqn:E; [|done]. guards.
       destruct E as [Et _]. destruct (recovery n); [done|]. destruct (recovery v); [done|].
       destruct Hrec as [|[|[]]], t; done. }
  rewrite (run_try _ _ _ s tt) by (by case_match).
  assert (epoch v <> 0) as Hep.
  { apply validate_transition_Ok in Ht as (Hv & _). by apply validate_Ok in Hv as ((? & _) & _). }
  pose proof (control_owner_path prefix (cell v) (cell v) (incarnation v) (epoch v)) as Hdiff.
  destruct (is_some (owner v) && negb (eqb_of (owner v) (owner n))) eqn:Hd.
  - rewrite (run_try _ _ _ _ tt) by (by apply retain_owner_first).
    rewrite (run_try _ _ _ _ body) by (by rewrite Hen). simpl.
    rewrite lookup_insert_ne, Hcur, Z.eqb_refl by done. simpl. eexists. split; [done|].
    rewrite lookup_insert_eq. split; [done|]. intros _ _.
    by rewrite lookup_insert_ne, lookup_insert_eq.
  - rewrite (run_try _ _ _ s tt), (run_try _ _ _ s body) by (done || by rewrite Hen). simpl.
    rewrite Hcur, Z.eqb_refl. simpl. eexists. split; [done|].
    rewrite lookup_insert_eq. split; [done|]. intros Ho Hne. guards.
    destruct Hd; [|done]. destruct Ho; congruence.
Qed.
End Uncontended.

(** ** A concrete execution

    One process creates a control, another takes it over while the reply to its
    update is lost, and a third reads the owner history. *)
#[local] Existing Instance PlainText.serializer.

Module Demo.
Definition prefix : Path := text "fleet/cells/v1/apps/00/".
Definition guard1 (_ : Control) : prog (Result unit) := Ret (Ok tt).
Definition guard2 (_ : Control) (_ : RecoveryOverlayRef) : prog (Result unit) := Ret (Ok tt).
Local Abbreviation step := (sys_step prefix guard1 guard2 guard1).

Instance VersionedControl_eq_dec : EqDecision VersionedControl.
Proof. solve_decision. Defined.
Instance CellOwnerHistory_eq_dec : EqDecision CellOwnerHistory.
Proof. solve_decision. Defined.
Instance Known_eq_dec : EqDecision Known.
Proof. solve_decision. Defined.

(** Run the first operation of the pool under a list of faults. *)
Fixpoint exec (fs : list Fault) (y : System) : System :=
  match fs with
  | [] => y
  | f :: fs =>
      match pool y with
      | [] => y
      | Call r k :: ps =>
          exec fs (MkSystem (serve f (store y) r).1 (k (serve f (store y) r).2 :: ps) (known y))
      | Ret out :: ps => exec fs (MkSystem (store y) ps (out ++ known y))
      end
  end.

Lemma exec_run fs y : rtc step y (exec fs y).
Proof.
  revert y. induction fs as [|f fs IH]; intros [s ps ks]; simpl; [constructor|].
  destruct ps as [|[out|r k] ps]; [constructor|..].
  - eapply rtc_l; [apply (sys_finish _ _ _ _ _ [])|apply IH].
  - eapply rtc_l; [apply (sys_serve _ _ _ _ _ [])|apply IH].
Qed.

Definition begin (m : prog (list Known)) (y : System) : System :=
  MkSystem (store y) (m :: pool y) (known y).

Lemma begin_run m y fs y0 :
  rtc step y0 y -> startable prefix guard1 guard2 guard1 (known y) m ->
  rtc step y0 (exec fs (begin m y)).
Proof.
  intros H0 Hm. etrans; [exact H0|]. eapply rtc_l; [|apply exec_run].
  destruct y. by constructor.
Qed.

Definition entry : CatalogEntry := MkEntry (array_fill 32 x0a) (array_fill 32 x0c) 1.
Definition created : System :=
  exec [NoFault; NoFault]
    (begin (keep (fun v => [KnownControl v])
              (create_initial prefix entry (array_fill 16 x0b) example_owner)) sys_init).
Definition taken : Control :=
  match takeover example_recovering example_successor with Ok n => n | Err _ => example_recovering end.
Definition taken_over : System :=
  exec [NoFault; NoFault; After StorageError.Unavailable; NoFault]
    (begin (keep (fun v => [KnownControl v])
              (transition prefix guard1 guard2 guard1
                 (MkVersioned example_recovering 0) taken Transition.Takeover)) created).
Definition audited : System :=
  exec [NoFault; NoFault; NoFault; NoFault]
    (begin (keep (fun h => [KnownHistory h]) (owner_history prefix (array_fill 32 x0a) 8)) taken_over).

Lemma guards_ok : guards_foreign prefix guard1 guard1 guard2.
Proof. by repeat split. Qed.

Lemma created_run : rtc step sys_init created.
Proof.
  apply begin_run; [constructor|]. apply start_create. split; vm_compute; discriminate.
Qed.

Lemma taken_over_run : rtc step created taken_over.
Proof.
  apply begin_run; [constructor|]. apply start_transition.
  - replace (known created) with [KnownControl (MkVersioned example_recovering 0)]
      by (apply (bool_decide_eq_true_1 _); vm_compute; reflexivity). by constructor.
  - unfold control_width, u64_ok, u32_ok; simpl. repeat split; vm_compute; discriminate.
Qed.

Lemma audited_run : rtc step taken_over audited.
Proof. apply begin_run; [constructor|]. apply start_history. Qed.

Lemma created_stored : stored prefix created (array_fill 32 x0a) = Some example_recovering.
Proof. apply (bool_decide_eq_true_1 _). vm_compute. reflexivity. Qed.
Lemma taken_stored : stored prefix taken_over (array_fill 32 x0a) = Some taken.
Proof. apply (bool_decide_eq_true_1 _). vm_compute. reflexivity. Qed.
Lemma audited_known :
  known audited = [KnownHistory (MkHistory taken [example_recovering; taken]);
                   KnownControl (MkVersioned example_recovering 0)].
Proof. apply (bool_decide_eq_true_1 _). vm_compute. reflexivity. Qed.

Lemma audited_reached : rtc step sys_init audited.
Proof. etrans; [apply created_run|]. etrans; [apply taken_over_run|apply audited_run]. Qed.
End Demo.

Lemma authority_single_owner_witness :
  exists v', stored Demo.prefix Demo.taken_over (array_fill 32 x0a) = Some v' /\
    rtc control_step example_recovering v' /\
    (forall o o', epoch example_recovering = epoch v' -> owner example_recovering = Some o ->
       owner v' = Some o' -> o = o').
Proof.
  exact (authority_single_owner Demo.prefix Demo.guard1 Demo.guard2 Demo.guard1 Demo.created
    Demo.taken_over (array_fill 32 x0a) example_recovering Demo.guards_ok Demo.created_run
    Demo.taken_over_run Demo.created_stored).
Defined.

Lemma reported_control_stored_witness :
  once_stored Demo.prefix Demo.guard1 Demo.guard2 Demo.guard1 Demo.audited example_recovering 0 /\
  exists v', stored Demo.prefix Demo.audited (array_fill 32 x0a) = Some v' /\
    rtc control_step example_recovering v'.
Proof.
  apply (reported_control_stored Demo.prefix Demo.guard1 Demo.guard2 Demo.guard1 Demo.audited
    (MkVersioned example_recovering 0) Demo.guards_ok Demo.audited_reached).
  rewrite Demo.audited_known. right. left.
Defined.

Lemma departed_owner_retained_witness :
  exists body t w,
    objects (store Demo.taken_over) !!
      owner_observation_path Demo.prefix (array_fill 32 x0a) (array_fill 16 x0b) 1 = Some (body, t) /\
    decode body = Ok w /\ owner w = Some example_owner /\ epoch w = 1 /\
    cell w = array_fill 32 x0a /\ incarnation w = array_fill 16 x0b.
Proof.
  apply (departed_owner_retained Demo.prefix Demo.guard1 Demo.guard2 Demo.guard1 Demo.created
    Demo.taken_over (array_fill 32 x0a) example_recovering Demo.taken Demo.guards_ok
    Demo.created_run Demo.taken_over_run Demo.created_stored);
    [eexists; reflexivity|exact Demo.taken_stored|vm_compute; discriminate].
Defined.

Lemma owner_history_true_witness :
  (exists t, once_stored Demo.prefix Demo.guard1 Demo.guard2 Demo.guard1 Demo.audited Demo.taken t) /\
  Z.of_nat (length [example_recovering; Demo.taken]) = 2 /\
  forall k row, [example_recovering; Demo.taken] !! k = Some row ->
    cell row = cell Demo.taken /\ incarnation row = incarnation Demo.taken /\
    epoch row = Z.of_nat k + 1 /\ is_Some (owner row).
Proof.
  destruct (owner_history_true Demo.prefix Demo.guard1 Demo.guard2 Demo.guard1 Demo.audited
    (MkHistory Demo.taken [example_recovering; Demo.taken]) Demo.guards_ok Demo.audited_reached)
    as (Hcur & _ & Hlen & Hrows).
  { rewrite Demo.audited_known. left. }
  split; [exact Hcur|]. split; [reflexivity|].
  intros k row Hk. destruct (Hrows k row Hk) as (? & ? & ? & ? & _). by repeat split.
Defined.

Definition demo_body (c : Control) : list byte :=
  match encode c with Ok b => b | Err _ => [] end.

Lemma transition_commits_witness :
  let '(s', r) := run (transition Demo.prefix (fun _ => Ret (Ok tt)) (fun _ _ => Ret (Ok tt))
        (fun _ => Ret (Ok tt)) (MkVersioned example_recovering 0) Demo.taken Transition.Takeover)
        (store Demo.created) in
  exists tag, r = Ok (MkVersioned Demo.taken tag) /\
    objects s' !! control_path Demo.prefix (cell example_recovering) = Some (demo_body Demo.taken, tag) /\
    (is_Some (owner example_recovering) -> owner example_recovering <> owner Demo.taken ->
     objects s' !! owner_observation_path Demo.prefix (cell example_recovering)
       (incarnation example_recovering) (epoch example_recovering)
       = Some (demo_body example_recovering, next_tag (store Demo.created))).
Proof.
  apply (transition_commits Demo.prefix example_recovering 0 Demo.taken Transition.Takeover
           (demo_body example_recovering) (demo_body Demo.taken) (demo_body example_recovering)
           (store Demo.created));
    [vm_compute; reflexivity..| |vm_compute; reflexivity].
  right. right. split; discriminate.
Defined.
