(* ===== verification/Coordination.v ===== *)
(** * Coordination: the pure protocol kernel of one active Cell

    Models [crates/cellule-runtime/src/coordination/mod.rs]: the volatile state
    an actor keeps for a Cell (lifecycle, exclusive foreground slot, renewal,
    outstanding publications, pending effects) and the decision each input
    receives. [step] is [CoordinationState::step], one definition per match arm;
    [begin_effect] is the effect-identity allocator with its collision loop.

    The theorems say that fencing is terminal and stops service, that a Cell is
    released only when nothing is in flight, that an effect identity is fresh
    and completes once, that the foreground slot is exclusive, and that the
    lifecycle refines a five-state abstract machine. *)

From Stdlib Require Import ZArith Lia.
From stdpp Require Import base list gmap.
From S2P Require Import Prelude.

Local Open Scope bool_scope.

(** ** Data *)

(*@ coordination/mod.rs 7-14 AdmissionKind *)
Inductive AdmissionKind :=
| Command | Query | Resolve | Migration | LeaseCommand | LeaseQuery.

(*@ coordination/mod.rs 17-19 AdmissionKind::allowed_while_quiescing *)
Definition allowed_while_quiescing (k : AdmissionKind) : bool :=
  match k with LeaseCommand | LeaseQuery | Resolve => true | _ => false end.

(*@ coordination/mod.rs 28-36 CoordinationEffect *)
Inductive CoordinationEffect :=
| Work (kind : AdmissionKind)
| Hydration | Inventory | Compaction | Publication | Proof_ | Renewal.

Module Reject.
(*@ coordination/mod.rs 39-45 RejectReason *)
Inductive RejectReason :=
| NotActive | Fenced | Draining | Busy | PublicationPending.
End Reject.
Abbreviation RejectReason := Reject.RejectReason.

Module Input.
(*@ coordination/mod.rs 48-161 CoordinationInput *)
Inductive CoordinationInput :=
| Admit (kind : AdmissionKind) (admission_matches : bool)
| Lookup
| BeginWork (kind : AdmissionKind) (publisher_ready : bool)
| Schedule (queue_empty publisher_ready publication_blocked lease_live : bool)
| CompleteEffect (effect_id : Z) (effect : CoordinationEffect)
| FinishWork (fenced : bool)
| BeginDrain
| BeginMaintenanceQuiescence
| BeginShutdown
| BeginMigration
| FinishMigration (fenced : bool)
| BeginRenewal (queue_empty publication_idle lease_live : bool)
| FinishRenewal (fenced : bool)
| BeginPublication
| CallerCancel
| FollowerProof (accepted : bool)
| FinishPublication (fenced succeeded : bool)
| BeginHydration (queue_empty publication_idle lease_live : bool)
| BeginInventory (queue_empty publication_idle inventory_unknown refreshing lease_live : bool)
| BeginMaintenanceInventory (refreshing finalizing queue_empty publisher_ready lease_live : bool)
| BeginTransferPreflight (queue_empty publication_idle lease_live : bool)
| ConfirmTransfer
| AbortTransfer
| BeginCompaction (queue_empty publication_idle publisher_ready due lease_live : bool)
| FinishCompaction (fenced : bool)
| FinishHydration (complete stale : bool)
| Fence.
End Input.
Abbreviation CoordinationInput := Input.CoordinationInput.

Module Outcome.
(*@ coordination/mod.rs 164-177 CoordinationDecision *)
Inductive CoordinationDecision :=
| Admit
| ResolveUnknown
| LocalHandle
| Reject (reason : RejectReason)
| Started
| EffectCompleted
| StaleEffect
| Ignored
| ReadyToDeactivate
| ReadyToDeactivateFenced
| StartQueuedWork
| Fence.
End Outcome.
Abbreviation CoordinationDecision := Outcome.CoordinationDecision.

Module Life.
(*@ coordination/mod.rs 180-186 Lifecycle *)
Inductive Lifecycle := Serving | Fenced | Draining | Migrating | Shutdown.
End Life.
Abbreviation Lifecycle := Life.Lifecycle.

(*@ coordination/mod.rs 189-193 Residency *)
Inductive Residency := Sparse | Hydrating | Resident.

Global Instance AdmissionKind_eq_dec : EqDecision AdmissionKind.
Proof. solve_decision. Defined.
Global Instance CoordinationEffect_eq_dec : EqDecision CoordinationEffect.
Proof. solve_decision. Defined.
Global Instance RejectReason_eq_dec : EqDecision RejectReason.
Proof. solve_decision. Defined.
Global Instance CoordinationDecision_eq_dec : EqDecision CoordinationDecision.
Proof. solve_decision. Defined.
Global Instance Lifecycle_eq_dec : EqDecision Lifecycle.
Proof. solve_decision. Defined.
Global Instance Residency_eq_dec : EqDecision Residency.
Proof. solve_decision. Defined.

(*@ coordination/mod.rs 201-213 CoordinationState *)
Record CoordinationState := MkState {
  lifecycle : Lifecycle;
  busy : bool;
  renewing : bool;
  publications : Z;
  follower_proof : bool;
  residency : Residency;
  shutdown_requested : bool;
  transfer_preparing : bool;
  maintenance_quiescing : bool;
  next_effect_id : Z;
  pending_effects : gmap Z CoordinationEffect
}.

(** Field assignment. *)
Definition set_lifecycle (v : Lifecycle) (s : CoordinationState) :=
  MkState v (busy s) (renewing s) (publications s) (follower_proof s) (residency s)
    (shutdown_requested s) (transfer_preparing s) (maintenance_quiescing s)
    (next_effect_id s) (pending_effects s).
Definition set_busy (v : bool) (s : CoordinationState) :=
  MkState (lifecycle s) v (renewing s) (publications s) (follower_proof s) (residency s)
    (shutdown_requested s) (transfer_preparing s) (maintenance_quiescing s)
    (next_effect_id s) (pending_effects s).
Definition set_renewing (v : bool) (s : CoordinationState) :=
  MkState (lifecycle s) (busy s) v (publications s) (follower_proof s) (residency s)
    (shutdown_requested s) (transfer_preparing s) (maintenance_quiescing s)
    (next_effect_id s) (pending_effects s).
Definition set_publications (v : Z) (s : CoordinationState) :=
  MkState (lifecycle s) (busy s) (renewing s) v (follower_proof s) (residency s)
    (shutdown_requested s) (transfer_preparing s) (maintenance_quiescing s)
    (next_effect_id s) (pending_effects s).
Definition set_follower_proof (v : bool) (s : CoordinationState) :=
  MkState (lifecycle s) (busy s) (renewing s) (publications s) v (residency s)
    (shutdown_requested s) (transfer_preparing s) (maintenance_quiescing s)
    (next_effect_id s) (pending_effects s).
Definition set_residency (v : Residency) (s : CoordinationState) :=
  MkState (lifecycle s) (busy s) (renewing s) (publications s) (follower_proof s) v
    (shutdown_requested s) (transfer_preparing s) (maintenance_quiescing s)
    (next_effect_id s) (pending_effects s).
Definition set_shutdown_requested (v : bool) (s : CoordinationState) :=
  MkState (lifecycle s) (busy s) (renewing s) (publications s) (follower_proof s) (residency s)
    v (transfer_preparing s) (maintenance_quiescing s)
    (next_effect_id s) (pending_effects s).
Definition set_transfer_preparing (v : bool) (s : CoordinationState) :=
  MkState (lifecycle s) (busy s) (renewing s) (publications s) (follower_proof s) (residency s)
    (shutdown_requested s) v (maintenance_quiescing s)
    (next_effect_id s) (pending_effects s).
Definition set_maintenance_quiescing (v : bool) (s : CoordinationState) :=
  MkState (lifecycle s) (busy s) (renewing s) (publications s) (follower_proof s) (residency s)
    (shutdown_requested s) (transfer_preparing s) v
    (next_effect_id s) (pending_effects s).
Definition set_effects (n : Z) (m : gmap Z CoordinationEffect) (s : CoordinationState) :=
  MkState (lifecycle s) (busy s) (renewing s) (publications s) (follower_proof s) (residency s)
    (shutdown_requested s) (transfer_preparing s) (maintenance_quiescing s)
    n m.

(** ** Queries *)

(*@ coordination/mod.rs 239-256 CoordinationState::serving_with_residency *)
Definition serving_with_residency (_publisher_ready : bool) (r : Residency) : CoordinationState :=
  {| lifecycle := Life.Serving; busy := false; renewing := false; publications := 0;
     follower_proof := false; residency := r; shutdown_requested := false;
     transfer_preparing := false; maintenance_quiescing := false;
     next_effect_id := 0; pending_effects := ∅ |}.

(*@ coordination/mod.rs 223-237 CoordinationState::serving *)
Definition serving (publisher_ready : bool) : CoordinationState :=
  {| lifecycle := Life.Serving; busy := false; renewing := false; publications := 0;
     follower_proof := false; residency := Resident; shutdown_requested := false;
     transfer_preparing := false; maintenance_quiescing := false;
     next_effect_id := 0; pending_effects := ∅ |}.

(*@ coordination/mod.rs 258-260 CoordinationState::is_fenced *)
Definition is_fenced (s : CoordinationState) : bool :=
  match lifecycle s with Life.Fenced => true | _ => false end.

(*@ coordination/mod.rs 262-268 CoordinationState::is_draining *)
Definition is_draining (s : CoordinationState) : bool :=
  shutdown_requested s ||
  match lifecycle s with Life.Draining | Life.Migrating | Life.Shutdown => true | _ => false end.

(*@ coordination/mod.rs 270-272 CoordinationState::is_shutdown *)
Definition is_shutdown (s : CoordinationState) : bool :=
  shutdown_requested s || match lifecycle s with Life.Shutdown => true | _ => false end.

Definition is_migrating (s : CoordinationState) : bool :=
  match lifecycle s with Life.Migrating => true | _ => false end.

(** [pending_effects.values().any(p)]. *)
Definition any_effect (p : CoordinationEffect -> bool) (s : CoordinationState) : bool :=
  existsb (fun kv => p kv.2) (map_to_list (pending_effects s)).

(** [pending_effects.is_empty()]. *)
Definition no_effects (s : CoordinationState) : bool :=
  bool_decide (pending_effects s = ∅).

(*@ coordination/mod.rs 324-326 CoordinationState::effect_matches *)
Definition effect_matches (s : CoordinationState) (effect_id : Z) (e : CoordinationEffect) : bool :=
  eqb_of (pending_effects s !! effect_id) (Some e).

(*@ coordination/mod.rs 328-336 CoordinationState::lookup *)
Definition lookup_handle (s : CoordinationState) : CoordinationDecision :=
  if is_fenced s then Outcome.Reject Reject.Fenced
  else if is_draining s || transfer_preparing s then Outcome.Reject Reject.Draining
  else Outcome.LocalHandle.

(*@ coordination/mod.rs 338-340 CoordinationState::can_deactivate *)
Definition can_deactivate (s : CoordinationState) : bool :=
  negb (busy s) && negb (renewing s) && (publications s =? 0) && no_effects s.

(*@ coordination/mod.rs 345-347 CoordinationState::ready_to_deactivate *)
Definition ready_to_deactivate (s : CoordinationState) (queue_empty publisher_ready : bool) : bool :=
  queue_empty && publisher_ready && can_deactivate s.

(*@ coordination/mod.rs 784-811 CoordinationState::admit *)
Definition admit_request (s : CoordinationState) (kind : AdmissionKind) (admission_matches : bool)
  : CoordinationDecision :=
  if negb admission_matches then Outcome.Reject Reject.NotActive
  else if is_fenced s then
    match kind with
    | Resolve => Outcome.ResolveUnknown
    | _ => Outcome.Reject Reject.Fenced
    end
  else if transfer_preparing s then Outcome.Reject Reject.Draining
  else if maintenance_quiescing s && negb (allowed_while_quiescing kind) then
    Outcome.Reject Reject.Draining
  else if is_migrating s && negb (shutdown_requested s) then Outcome.Admit
  else if is_draining s then Outcome.Reject Reject.Draining
  else Outcome.Admit.

(** ** Effect identities *)

(** One turn of the allocation loop: [next_effect_id.wrapping_add(1).max(1)]. *)
Definition bump_id (n : Z) : Z := Z.max (wrapping_add_u64 n 1) 1.

Fixpoint begin_effect_loop (fuel : nat) (s : CoordinationState) (e : CoordinationEffect)
  : option (CoordinationState * Z) :=
  match fuel with
  | O => None
  | S fuel =>
      let n := bump_id (next_effect_id s) in
      match pending_effects s !! n with
      | None => Some (set_effects n (<[n := e]> (pending_effects s)) s, n)
      | Some _ => begin_effect_loop fuel (set_effects n (pending_effects s) s) e
      end
  end.

(** The source loops until a free identity is found; one turn more than there
    are pending effects is always enough (see [begin_effect_total]). *)
(*@ coordination/mod.rs 314-322 CoordinationState::begin_effect *)
Definition begin_effect (s : CoordinationState) (e : CoordinationEffect)
  : option (CoordinationState * Z) :=
  begin_effect_loop (S (size (pending_effects s))) s e.

(** ** One definition per arm of [CoordinationState::step] *)

Abbreviation reply := (CoordinationState * CoordinationDecision)%type.

(*@ coordination/mod.rs 356-372 step::BeginWork *)
Definition step_begin_work (s : CoordinationState) (kind : AdmissionKind) (publisher_ready : bool) : reply :=
  if is_fenced s then (s, Outcome.Reject Reject.Fenced)
  else if busy s then (s, Outcome.Reject Reject.Busy)
  else if eqb_of kind Migration && (negb (publications s =? 0) || negb publisher_ready) then
    (s, Outcome.Reject Reject.PublicationPending)
  else (set_busy true s, Outcome.Started).

(*@ coordination/mod.rs 373-410 step::Schedule *)
Definition step_schedule (s : CoordinationState)
    (queue_empty publisher_ready publication_blocked lease_live : bool) : reply :=
  if negb lease_live then
    let s := set_renewing false (set_busy false (set_lifecycle Life.Fenced s)) in
    if ready_to_deactivate s queue_empty publisher_ready then (s, Outcome.ReadyToDeactivateFenced)
    else (s, Outcome.Fence)
  else if (is_fenced s || is_draining s) && ready_to_deactivate s queue_empty publisher_ready then
    if is_fenced s then (s, Outcome.ReadyToDeactivateFenced) else (s, Outcome.ReadyToDeactivate)
  else if is_fenced s || busy s || renewing s
          || any_effect (fun e => match e with Inventory => true | _ => false end) s
          || queue_empty || publication_blocked then
    (s, Outcome.Ignored)
  else (s, Outcome.StartQueuedWork).

(*@ coordination/mod.rs 411-418 step::CompleteEffect *)
Definition step_complete_effect (s : CoordinationState) (effect_id : Z) (e : CoordinationEffect) : reply :=
  if eqb_of (pending_effects s !! effect_id) (Some e) then
    (set_effects (next_effect_id s) (delete effect_id (pending_effects s)) s, Outcome.EffectCompleted)
  else (s, Outcome.StaleEffect).

(*@ coordination/mod.rs 419-430 step::FinishWork *)
Definition step_finish_work (s : CoordinationState) (fenced : bool) : reply :=
  let s := set_busy false s in
  if fenced || is_fenced s then (set_lifecycle Life.Fenced s, Outcome.Fence)
  else if can_deactivate s && is_draining s then (s, Outcome.ReadyToDeactivate)
  else (s, Outcome.Ignored).

(*@ coordination/mod.rs 431-442 step::BeginMaintenanceQuiescence *)
Definition step_begin_maintenance_quiescence (s : CoordinationState) : reply :=
  if is_fenced s then (s, Outcome.Reject Reject.Fenced)
  else if is_draining s || transfer_preparing s then (s, Outcome.Reject Reject.Draining)
  else (set_maintenance_quiescing true s, Outcome.Started).

(*@ coordination/mod.rs 443-456 step::BeginDrain *)
Definition step_begin_drain (s : CoordinationState) : reply :=
  if is_fenced s then (s, Outcome.Reject Reject.Fenced)
  else if is_draining s then (s, Outcome.Reject Reject.Draining)
  else
    let s := set_lifecycle Life.Draining s in
    if can_deactivate s then (s, Outcome.ReadyToDeactivate) else (s, Outcome.Started).

(*@ coordination/mod.rs 457-480 step::BeginShutdown *)
Definition step_begin_shutdown (s : CoordinationState) : reply :=
  let s := set_transfer_preparing false s in
  if is_shutdown s then (s, Outcome.Ignored)
  else if is_fenced s then
    let s := set_shutdown_requested true s in
    if can_deactivate s then (s, Outcome.ReadyToDeactivate) else (s, Outcome.Started)
  else if is_migrating s then (set_shutdown_requested true s, Outcome.Started)
  else
    let s := set_lifecycle Life.Shutdown (set_shutdown_requested true s) in
    if can_deactivate s then (s, Outcome.ReadyToDeactivate) else (s, Outcome.Started).

(*@ coordination/mod.rs 481-490 step::BeginMigration *)
Definition step_begin_migration (s : CoordinationState) : reply :=
  if is_fenced s then (s, Outcome.Reject Reject.Fenced)
  else if is_draining s then (s, Outcome.Reject Reject.Draining)
  else (set_lifecycle Life.Migrating s, Outcome.Started).

(*@ coordination/mod.rs 491-508 step::FinishMigration *)
Definition step_finish_migration (s : CoordinationState) (fenced : bool) : reply :=
  let s := set_busy false s in
  if fenced || is_fenced s then (set_lifecycle Life.Fenced s, Outcome.Fence)
  else if is_migrating s then
    let s := set_lifecycle (if shutdown_requested s then Life.Shutdown else Life.Serving) s in
    if can_deactivate s && is_draining s then (s, Outcome.ReadyToDeactivate)
    else (s, Outcome.Ignored)
  else (s, Outcome.Ignored).

(*@ coordination/mod.rs 509-535 step::BeginRenewal *)
Definition step_begin_renewal (s : CoordinationState)
    (queue_empty publication_idle lease_live : bool) : reply :=
  if negb lease_live then
    (set_renewing false (set_busy false (set_lifecycle Life.Fenced s)), Outcome.Fence)
  else if is_fenced s || is_draining s
          || (transfer_preparing s && negb (maintenance_quiescing s)) || renewing s then
    (s, Outcome.Reject (if is_fenced s then Reject.Fenced else Reject.Draining))
  else if busy s || negb queue_empty || negb publication_idle then (s, Outcome.Ignored)
  else (set_renewing true s, Outcome.Started).

(*@ coordination/mod.rs 536-544 step::FinishRenewal *)
Definition step_finish_renewal (s : CoordinationState) (fenced : bool) : reply :=
  let s := set_renewing false s in
  if fenced || is_fenced s then (set_lifecycle Life.Fenced s, Outcome.Fence)
  else (s, Outcome.Ignored).

(*@ coordination/mod.rs 545-555 step::BeginPublication *)
Definition step_begin_publication (s : CoordinationState) : reply :=
  if is_fenced s then (s, Outcome.Reject Reject.Fenced)
  else if is_draining s && negb (busy s) then (s, Outcome.Reject Reject.Draining)
  else (set_follower_proof false (set_publications (saturating_add_u64 (publications s) 1) s),
        Outcome.Started).

(*@ coordination/mod.rs 557-562 step::FollowerProof *)
Definition step_follower_proof (s : CoordinationState) (accepted : bool) : reply :=
  (if accepted && negb (publications s =? 0) then set_follower_proof true s else s,
   Outcome.Ignored).

(*@ coordination/mod.rs 563-576 step::FinishPublication *)
Definition step_finish_publication (s : CoordinationState) (fenced succeeded : bool) : reply :=
  let succeeded := succeeded || follower_proof s in
  let s := set_follower_proof false (set_publications (saturating_sub_u (publications s) 1) s) in
  if fenced || negb succeeded then (set_lifecycle Life.Fenced s, Outcome.Fence)
  else if can_deactivate s && is_draining s then (s, Outcome.ReadyToDeactivate)
  else (s, Outcome.Ignored).

(*@ coordination/mod.rs 577-604 step::BeginHydration *)
Definition step_begin_hydration (s : CoordinationState)
    (queue_empty publication_idle lease_live : bool) : reply :=
  if negb lease_live then (set_busy false (set_lifecycle Life.Fenced s), Outcome.Fence)
  else if is_fenced s then (s, Outcome.Reject Reject.Fenced)
  else if is_draining s || transfer_preparing s || maintenance_quiescing s then
    (s, Outcome.Reject Reject.Draining)
  else if busy s then (s, Outcome.Reject Reject.Busy)
  else if negb queue_empty || negb publication_idle || negb (eqb_of (residency s) Sparse) then
    (s, Outcome.Ignored)
  else (set_residency Hydrating s, Outcome.Started).

(*@ coordination/mod.rs 605-628 step::BeginInventory *)
Definition step_begin_inventory (s : CoordinationState)
    (queue_empty publication_idle inventory_unknown refreshing lease_live : bool) : reply :=
  if negb lease_live then
    (set_renewing false (set_busy false (set_lifecycle Life.Fenced s)), Outcome.Fence)
  else if is_fenced s then (s, Outcome.Reject Reject.Fenced)
  else if is_draining s || transfer_preparing s then (s, Outcome.Reject Reject.Draining)
  else if busy s then (s, Outcome.Reject Reject.Busy)
  else if negb queue_empty || negb publication_idle || negb inventory_unknown || refreshing then
    (s, Outcome.Ignored)
  else (s, Outcome.Started).

(*@ coordination/mod.rs 629-655 step::BeginMaintenanceInventory *)
Definition step_begin_maintenance_inventory (s : CoordinationState)
    (refreshing finalizing queue_empty publisher_ready lease_live : bool) : reply :=
  if negb lease_live then (set_lifecycle Life.Fenced s, Outcome.Fence)
  else if is_fenced s then (s, Outcome.Reject Reject.Fenced)
  else if is_draining s || negb (maintenance_quiescing s) then
    (s, Outcome.Reject Reject.Draining)
  else if refreshing || negb publisher_ready
          || (finalizing && (negb (transfer_preparing s) || negb queue_empty
                             || negb (can_deactivate s))) then
    (s, Outcome.Ignored)
  else (s, Outcome.Started).

(*@ coordination/mod.rs 656-688 step::BeginTransferPreflight *)
Definition step_begin_transfer_preflight (s : CoordinationState)
    (queue_empty publication_idle lease_live : bool) : reply :=
  if negb lease_live then
    (set_renewing false (set_busy false (set_lifecycle Life.Fenced s)), Outcome.Fence)
  else if is_fenced s then (s, Outcome.Reject Reject.Fenced)
  else if is_draining s || transfer_preparing s then (s, Outcome.Reject Reject.Draining)
  else if renewing s
          || any_effect (fun e => match e with
                                  | Hydration | Inventory | Compaction | Renewal => true
                                  | _ => false
                                  end) s then
    (s, Outcome.Ignored)
  else (set_transfer_preparing true s, Outcome.Started).

(*@ coordination/mod.rs 689-705 step::ConfirmTransfer *)
Definition step_confirm_transfer (s : CoordinationState) : reply :=
  if is_fenced s then (s, Outcome.Reject Reject.Fenced)
  else if is_shutdown s || is_draining s then (s, Outcome.Reject Reject.Draining)
  else if negb (transfer_preparing s) || negb (can_deactivate s) then (s, Outcome.Ignored)
  else
    let s := set_lifecycle Life.Draining (set_transfer_preparing false s) in
    if can_deactivate s then (s, Outcome.ReadyToDeactivate) else (s, Outcome.Started).

(*@ coordination/mod.rs 706-717 step::AbortTransfer *)
Definition step_abort_transfer (s : CoordinationState) : reply :=
  if is_fenced s then (s, Outcome.Reject Reject.Fenced)
  else if is_shutdown s || is_draining s then (s, Outcome.Reject Reject.Draining)
  else if transfer_preparing s then (set_transfer_preparing false s, Outcome.Ignored)
  else (s, Outcome.Ignored).

(*@ coordination/mod.rs 718-747 step::BeginCompaction *)
Definition step_begin_compaction (s : CoordinationState)
    (queue_empty publication_idle publisher_ready due lease_live : bool) : reply :=
  if negb lease_live then (set_lifecycle Life.Fenced s, Outcome.Fence)
  else if is_fenced s || is_draining s || transfer_preparing s || maintenance_quiescing s
          || busy s || renewing s || negb queue_empty || negb publication_idle
          || negb publisher_ready || negb due || negb (no_effects s) then
    (s, Outcome.Ignored)
  else (set_busy true s, Outcome.Started).

(*@ coordination/mod.rs 748-758 step::FinishCompaction *)
Definition step_finish_compaction (s : CoordinationState) (fenced : bool) : reply :=
  let s := set_busy false s in
  if fenced || is_fenced s then (set_lifecycle Life.Fenced s, Outcome.Fence)
  else if can_deactivate s && is_draining s then (s, Outcome.ReadyToDeactivate)
  else (s, Outcome.Ignored).

(*@ coordination/mod.rs 759-773 step::FinishHydration *)
Definition step_finish_hydration (s : CoordinationState) (complete stale : bool) : reply :=
  if negb stale then (set_residency (if complete then Resident else Sparse) s, Outcome.Ignored)
  else (set_residency Sparse s, Outcome.Fence).

(*@ coordination/mod.rs 774-780 step::Fence *)
Definition step_fence (s : CoordinationState) : reply :=
  (set_transfer_preparing false (set_renewing false (set_busy false (set_lifecycle Life.Fenced s))),
   Outcome.Ignored).

(*@ coordination/mod.rs 349-355 CoordinationState::step *)
Definition step (s : CoordinationState) (i : CoordinationInput) : reply :=
  match i with
  | Input.Admit kind m => (s, admit_request s kind m)
  | Input.Lookup => (s, lookup_handle s)
  | Input.BeginWork kind pr => step_begin_work s kind pr
  | Input.Schedule qe pr pb ll => step_schedule s qe pr pb ll
  | Input.CompleteEffect n e => step_complete_effect s n e
  | Input.FinishWork f => step_finish_work s f
  | Input.BeginMaintenanceQuiescence => step_begin_maintenance_quiescence s
  | Input.BeginDrain => step_begin_drain s
  | Input.BeginShutdown => step_begin_shutdown s
  | Input.BeginMigration => step_begin_migration s
  | Input.FinishMigration f => step_finish_migration s f
  | Input.BeginRenewal qe pi ll => step_begin_renewal s qe pi ll
  | Input.FinishRenewal f => step_finish_renewal s f
  | Input.BeginPublication => step_begin_publication s
  | Input.CallerCancel => (s, Outcome.Ignored)
  | Input.FollowerProof a => step_follower_proof s a
  | Input.FinishPublication f ok => step_finish_publication s f ok
  | Input.BeginHydration qe pi ll => step_begin_hydration s qe pi ll
  | Input.BeginInventory qe pi iu r ll => step_begin_inventory s qe pi iu r ll
  | Input.BeginMaintenanceInventory r f qe pr ll => step_begin_maintenance_inventory s r f qe pr ll
  | Input.BeginTransferPreflight qe pi ll => step_begin_transfer_preflight s qe pi ll
  | Input.ConfirmTransfer => step_confirm_transfer s
  | Input.AbortTransfer => step_abort_transfer s
  | Input.BeginCompaction qe pi pr due ll => step_begin_compaction s qe pi pr due ll
  | Input.FinishCompaction f => step_finish_compaction s f
  | Input.FinishHydration c st => step_finish_hydration s c st
  | Input.Fence => step_fence s
  end.

(** ** Runs

    The actor serializes inputs and effect allocations on one state; a run is
    any such sequence, each label carrying the decision or identity returned. *)
Inductive label :=
| LInput (i : CoordinationInput) (d : CoordinationDecision)
| LEffect (e : CoordinationEffect) (n : Z).

Inductive kernel_step : CoordinationState -> label -> CoordinationState -> Prop :=
| tr_input s i s' d : step s i = (s', d) -> kernel_step s (LInput i d) s'
| tr_effect s e s' n : begin_effect s e = Some (s', n) -> kernel_step s (LEffect e n) s'.

Inductive run : CoordinationState -> list label -> CoordinationState -> Prop :=
| run_nil s : run s [] s
| run_cons s l s' ls s'' : kernel_step s l s' -> run s' ls s'' -> run s (l :: ls) s''.

Definition reachable (s : CoordinationState) : Prop :=
  exists pr r ls, run (serving_with_residency pr r) ls s.

(** Lift a one-transition fact to runs. *)
Lemma run_invariant (P : CoordinationState -> Prop) s ls s' :
  (forall s l s', P s -> kernel_step s l s' -> P s') ->
  run s ls s' -> P s -> P s'.
Proof. intros Hstep Hrun. induction Hrun; eauto. Qed.

Lemma run_app s ls s' ls' s'' : run s ls s' -> run s' ls' s'' -> run s (ls ++ ls') s''.
Proof. induction 1; simpl; eauto using run. Qed.

(** Feed a list of inputs, collecting the labels. *)
Fixpoint drive (s : CoordinationState) (inputs : list CoordinationInput)
  : CoordinationState * list label :=
  match inputs with
  | [] => (s, [])
  | i :: inputs =>
      let r := step s i in
      let t := drive r.1 inputs in
      (t.1, LInput i r.2 :: t.2)
  end.

Lemma drive_run s inputs : run s (drive s inputs).2 (drive s inputs).1.
Proof.
  revert s; induction inputs as [|i inputs IH]; intros s; simpl; [constructor|].
  econstructor; [|apply IH]. constructor. by destruct (step s i).
Qed.

(** Open every arm of [step] into its branches. *)
Ltac step_arms :=
  unfold step, step_begin_work, step_schedule, step_complete_effect, step_finish_work,
    step_begin_maintenance_quiescence, step_begin_drain, step_begin_shutdown,
    step_begin_migration, step_finish_migration, step_begin_renewal, step_finish_renewal,
    step_begin_publication, step_follower_proof, step_finish_publication,
    step_begin_hydration, step_begin_inventory, step_begin_maintenance_inventory,
    step_begin_transfer_preflight, step_confirm_transfer, step_abort_transfer,
    step_begin_compaction, step_finish_compaction, step_finish_hydration, step_fence in *.

Ltac step_cases i :=
  destruct i; step_arms; cbn zeta in *;
  repeat case_match; simplify_eq/=.

(** What [begin_effect] touches. *)
Lemma begin_effect_loop_frame fuel s e s' n :
  begin_effect_loop fuel s e = Some (s', n) ->
  s' = set_effects n (<[n := e]> (pending_effects s)) s /\ pending_effects s !! n = None.
Proof.
  revert s; induction fuel as [|fuel IH]; intros s; cbn; [done|].
  case_match eqn:E; [|naive_solver].
  intros H. by apply IH in H.
Qed.

Lemma begin_effect_frame s e s' n :
  begin_effect s e = Some (s', n) ->
  s' = set_effects n (<[n := e]> (pending_effects s)) s /\ pending_effects s !! n = None.
Proof. apply begin_effect_loop_frame. Qed.

(** *** Lifecycle *)

(** Labels that may fence a Cell: an explicit fence, a lease found expired, and a
    completion that reports a fence or a publication that failed. *)
Definition may_fence (l : label) : bool :=
  match l with
  | LInput Input.Fence _ | LInput (Input.Schedule _ _ _ false) _
  | LInput (Input.BeginRenewal _ _ false) _ | LInput (Input.BeginHydration _ _ false) _
  | LInput (Input.BeginInventory _ _ _ _ false) _
  | LInput (Input.BeginMaintenanceInventory _ _ _ _ false) _
  | LInput (Input.BeginTransferPreflight _ _ false) _
  | LInput (Input.BeginCompaction _ _ _ _ false) _
  | LInput (Input.FinishWork true) _ | LInput (Input.FinishMigration true) _
  | LInput (Input.FinishRenewal true) _ | LInput (Input.FinishCompaction true) _
  | LInput (Input.FinishPublication true _) _ | LInput (Input.FinishPublication _ false) _ => true
  | _ => false
  end.

(** The abstract lifecycle machine: which label moves a Cell where. *)
Inductive lifecycle_step : label -> Lifecycle -> Lifecycle -> Prop :=
| ls_stay i l : lifecycle_step i l l
| ls_fence i l : may_fence i = true -> lifecycle_step i l Life.Fenced
| ls_drain d : lifecycle_step (LInput Input.BeginDrain d) Life.Serving Life.Draining
| ls_transfer d : lifecycle_step (LInput Input.ConfirmTransfer d) Life.Serving Life.Draining
| ls_migrate d : lifecycle_step (LInput Input.BeginMigration d) Life.Serving Life.Migrating
| ls_migrated d : lifecycle_step (LInput (Input.FinishMigration false) d) Life.Migrating Life.Serving
| ls_migrated_shutdown d : lifecycle_step (LInput (Input.FinishMigration false) d) Life.Migrating Life.Shutdown
| ls_shutdown d : lifecycle_step (LInput Input.BeginShutdown d) Life.Serving Life.Shutdown
| ls_drain_shutdown d : lifecycle_step (LInput Input.BeginShutdown d) Life.Draining Life.Shutdown.
#[export] Hint Constructors lifecycle_step : cellule.

(** One abstract step per label. *)
Inductive lifecycle_run : Lifecycle -> list label -> Lifecycle -> Prop :=
| lr_nil l : lifecycle_run l [] l
| lr_cons l i l' is_ l'' : lifecycle_step i l l' -> lifecycle_run l' is_ l'' -> lifecycle_run l (i :: is_) l''.

Lemma step_lifecycle s i : lifecycle_step (LInput i (step s i).2) (lifecycle s) (lifecycle (step s i).1).
Proof.
  destruct s as [l]; destruct i; step_arms; cbn zeta;
    repeat case_match; destruct l; simplify_eq/=; auto with cellule;
    unfold is_draining in *; simpl in *; guards; destruct_or?; simplify_eq/=; auto with cellule;
    repeat match goal with b : bool |- _ => destruct b end; simplify_eq/=; auto with cellule; naive_solver.
Qed.

Lemma transition_lifecycle s l s' :
  kernel_step s l s' -> lifecycle_step l (lifecycle s) (lifecycle s').
Proof.
  destruct 1 as [s i s' d H|s e s' n H].
  - pose proof (step_lifecycle s i) as Hl. by rewrite H in Hl.
  - apply begin_effect_frame in H as [-> _]. constructor.
Qed.

Lemma run_lifecycle s ls s' :
  run s ls s' -> lifecycle_run (lifecycle s) ls (lifecycle s').
Proof. induction 1; econstructor; eauto using transition_lifecycle. Qed.

(** *** Fencing and draining *)

(** What a fenced Cell may still answer. *)
Definition fenced_label (l : label) : Prop :=
  match l with
  | LInput i d =>
      d <> Outcome.Admit /\ d <> Outcome.LocalHandle /\ d <> Outcome.StartQueuedWork /\
      (d = Outcome.Started -> i = Input.BeginShutdown)
  | LEffect _ _ => True
  end.

Lemma is_fenced_lifecycle s : is_fenced s = true <-> lifecycle s = Life.Fenced.
Proof. unfold is_fenced. destruct (lifecycle s); naive_solver. Qed.

Lemma transition_fenced s l s' :
  is_fenced s = true -> kernel_step s l s' -> is_fenced s' = true /\ fenced_label l.
Proof.
  rewrite !is_fenced_lifecycle. intros Hf Ht. split.
  { apply transition_lifecycle in Ht. rewrite Hf in Ht. by inversion Ht. }
  destruct Ht as [s i s' d H|]; [|done].
  apply is_fenced_lifecycle in Hf. unfold fenced_label.
  destruct i; step_arms; unfold admit_request, lookup_handle in *; cbn zeta in *;
    rewrite ?Hf in H; simpl in H;
    repeat case_match; simplify_eq/=; naive_solver.
Qed.

(** Fencing is terminal and stops service. Once a Cell is fenced, no
    sequence of inputs and effect allocations unfences it, and along the whole
    run it admits no request, hands out no local handle, starts no queued work
    and starts nothing except its own shutdown. *)
Theorem fenced_terminal s ls s' :
  is_fenced s = true -> run s ls s' -> is_fenced s' = true /\ Forall fenced_label ls.
Proof.
  intros Hf Hrun. induction Hrun as [|s l s1 ls s2 Ht Hrun IH]; [done|].
  apply transition_fenced in Ht as [Hf1 Hl]; [|done].
  destruct (IH Hf1). split; [done|]. by constructor.
Qed.

Lemma fenced_terminal_witness :
  let s := (step (serving true) Input.Fence).1 in
  let t := drive s [Input.BeginShutdown; Input.Admit Command true] in
  is_fenced s = true /\ (is_fenced t.1 = true /\ Forall fenced_label t.2).
Proof.
  split; [reflexivity|].
  apply (fenced_terminal (step (serving true) Input.Fence).1); [reflexivity|].
  apply drive_run.
Defined.

Definition closing (l : Lifecycle) : Prop :=
  l = Life.Draining \/ l = Life.Shutdown \/ l = Life.Fenced.

Lemma lifecycle_step_closing i l l' : lifecycle_step i l l' -> closing l -> closing l'.
Proof. unfold closing. destruct 1; naive_solver. Qed.

Lemma lifecycle_run_closing l is_ l' : lifecycle_run l is_ l' -> closing l -> closing l'.
Proof. induction 1; eauto using lifecycle_step_closing. Qed.

Lemma closing_rejects s k m :
  closing (lifecycle s) -> admit_request s k m <> Outcome.Admit /\ lookup_handle s <> Outcome.LocalHandle.
Proof.
  unfold closing, admit_request, lookup_handle, is_fenced, is_draining, is_migrating.
  intros [-> | [-> | ->]]; simpl; split; repeat case_match; simplify_eq/=; try done;
    guards; naive_solver.
Qed.

(** A Cell that has begun to drain, shut down or has been fenced never
    serves again: in every later state of the run each admission kind is
    refused and no lookup returns a local handle. *)
Theorem closing_never_reopens s ls s' k m :
  closing (lifecycle s) -> run s ls s' ->
  closing (lifecycle s') /\ admit_request s' k m <> Outcome.Admit /\
  lookup_handle s' <> Outcome.LocalHandle.
Proof.
  intros Hc Hrun.
  assert (closing (lifecycle s')) as Hc'
    by eauto using lifecycle_run_closing, run_lifecycle.
  split; [done|]. by apply closing_rejects.
Qed.

Lemma closing_never_reopens_witness :
  let s := (step (serving true) Input.BeginDrain).1 in
  let t := drive s [Input.BeginMigration; Input.BeginShutdown] in
  closing (lifecycle s) /\
  (closing (lifecycle t.1) /\ admit_request t.1 Command true <> Outcome.Admit /\
   lookup_handle t.1 <> Outcome.LocalHandle).
Proof.
  split; [by left|].
  eapply (closing_never_reopens (step (serving true) Input.BeginDrain).1);
    [by left|apply drive_run].
Defined.

(** C33: the lifecycle of the kernel refines the abstract five-state machine, step
    by step. Every input and every effect allocation, in whatever state, is one step
    of [lifecycle_step] under its own label or leaves the lifecycle alone, and a run
    is matched label by label: only a drain or a confirmed transfer of a serving Cell
    starts to drain it, only the inputs that report a fence, an expired lease or a
    failed publication fence it, and it returns to Serving only by finishing a
    migration; so a run that ends serving began serving or migrating. *)
Theorem lifecycle_refinement s ls s' :
  run s ls s' ->
  lifecycle_run (lifecycle s) ls (lifecycle s') /\
  (forall l s'', kernel_step s' l s'' -> lifecycle_step l (lifecycle s') (lifecycle s'')) /\
  (lifecycle s' = Life.Serving -> lifecycle s = Life.Serving \/ lifecycle s = Life.Migrating).
Proof.
  intros Hrun. apply run_lifecycle in Hrun. split; [done|]. split; [apply transition_lifecycle|].
  intros E. pose proof (lifecycle_run_closing _ _ _ Hrun) as Hc. unfold closing in Hc.
  rewrite E in Hc. destruct (lifecycle s); auto; exfalso;
    (destruct Hc as [?|[?|?]]; [auto|congruence..]).
Qed.

Lemma lifecycle_refinement_witness :
  let t := drive (serving true) [Input.BeginMigration; Input.FinishMigration false] in
  lifecycle_run Life.Serving t.2 (lifecycle t.1) /\
  lifecycle_step (LInput Input.BeginDrain Outcome.ReadyToDeactivate) (lifecycle t.1) Life.Draining.
Proof.
  destruct (lifecycle_refinement (serving true) _ _
    (drive_run (serving true) [Input.BeginMigration; Input.FinishMigration false])) as (H1 & H2 & _).
  split; [exact H1|]. refine (H2 _ (step (drive (serving true) [Input.BeginMigration; Input.FinishMigration false]).1 Input.BeginDrain).1 _).
  constructor. reflexivity.
Defined.

(** *** Admission *)

(** Exactly when a request is admitted: the caller names the active
    generation, the Cell is serving (or migrating, where the successor may
    queue), it is not preparing a transfer, no shutdown was requested, and while
    maintenance quiesces only lease work and resolution pass. *)
Theorem admit_iff s k m :
  admit_request s k m = Outcome.Admit <->
  m = true /\ (lifecycle s = Life.Serving \/ lifecycle s = Life.Migrating) /\
  transfer_preparing s = false /\ shutdown_requested s = false /\
  (maintenance_quiescing s = true ->
   k = LeaseCommand \/ k = LeaseQuery \/ k = Resolve).
Proof.
  unfold admit_request, is_fenced, is_migrating, is_draining.
  destruct m, (lifecycle s), (transfer_preparing s), (shutdown_requested s),
    (maintenance_quiescing s), k; simpl; intuition congruence.
Qed.

(** *** Releasing a Cell *)

Definition releases (d : CoordinationDecision) : bool :=
  match d with Outcome.ReadyToDeactivate | Outcome.ReadyToDeactivateFenced => true | _ => false end.

(** The release decisions carry the quiescence test they were taken under. *)
Lemma step_releases s i s' d :
  step s i = (s', d) -> releases d = true ->
  can_deactivate s' = true /\ (is_fenced s' = true \/ is_draining s' = true) /\
  (d = Outcome.ReadyToDeactivateFenced -> is_fenced s' = true).
Proof.
  intros H Hd.
  destruct i; step_arms; unfold admit_request, lookup_handle in *; cbn zeta in *;
    repeat (case_match; try (simplify_eq/=; fail));
    simplify_eq/=; unfold ready_to_deactivate in *;
    rewrite ?andb_true_iff, ?orb_true_iff in *; destruct_and?; split_and?;
    try solve [assumption | by left | by right | by intros | tauto].
  all: unfold is_draining in *; simpl in *; rewrite ?orb_true_r; auto.
Qed.

Lemma can_deactivate_true s :
  can_deactivate s = true <->
  busy s = false /\ renewing s = false /\ publications s = 0 /\ pending_effects s = ∅.
Proof.
  unfold can_deactivate, no_effects. guards. rewrite bool_decide_eq_true. naive_solver.
Qed.

(** C31: release ordering. Whatever the input, a decision to deactivate is only
    returned in a state with no executing work, no renewal, no outstanding
    publication and no pending effect, and only for a Cell that is fenced or
    draining; the fenced variant is only returned for a fenced Cell. *)
Theorem deactivation_safe s i s' d :
  step s i = (s', d) -> releases d = true ->
  busy s' = false /\ renewing s' = false /\ publications s' = 0 /\ pending_effects s' = ∅ /\
  (is_fenced s' = true \/ is_draining s' = true) /\
  (d = Outcome.ReadyToDeactivateFenced -> is_fenced s' = true).
Proof.
  intros H Hd. destruct (step_releases _ _ _ _ H Hd) as (Hc%can_deactivate_true & ? & ?).
  naive_solver.
Qed.

Lemma deactivation_safe_witness :
  let s := (drive (serving true) [Input.BeginPublication; Input.BeginDrain]).1 in
  let r := step s (Input.FinishPublication false true) in
  releases r.2 = true /\
  (busy r.1 = false /\ renewing r.1 = false /\ publications r.1 = 0 /\ pending_effects r.1 = ∅ /\
   (is_fenced r.1 = true \/ is_draining r.1 = true) /\
   (r.2 = Outcome.ReadyToDeactivateFenced -> is_fenced r.1 = true)).
Proof.
  split; [reflexivity|].
  apply (deactivation_safe
    (drive (serving true) [Input.BeginPublication; Input.BeginDrain]).1
    (Input.FinishPublication false true)); reflexivity.
Defined.

(** Counting publications along a run. *)
Definition pub_started (l : label) : Z :=
  match l with LInput Input.BeginPublication Outcome.Started => 1 | _ => 0 end.
Definition pub_finished (l : label) : Z :=
  match l with LInput (Input.FinishPublication _ _) _ => 1 | _ => 0 end.
Definition total (f : label -> Z) (ls : list label) : Z :=
  fold_right (fun l acc => f l + acc) 0 ls.

Lemma total_nonneg f ls : (forall l, 0 <= f l) -> 0 <= total f ls.
Proof. intros Hf. induction ls as [|l ls IH]; simpl; [lia|]. pose proof (Hf l). lia. Qed.

Lemma pub_started_nonneg l : 0 <= pub_started l.
Proof. unfold pub_started. repeat case_match; lia. Qed.

Lemma total_app f ls ls' : total f (ls ++ ls') = total f ls + total f ls'.
Proof. induction ls as [|l ls IH]; simpl; lia. Qed.

Lemma step_publications s i s' d :
  0 <= publications s -> publications s + 1 <= u64_max -> step s i = (s', d) ->
  0 <= publications s' /\
  publications s + pub_started (LInput i d) <= publications s' + pub_finished (LInput i d) /\
  publications s' <= publications s + pub_started (LInput i d).
Proof.
  intros Hp Hm H. destruct i; step_arms; cbn zeta in *; repeat case_match;
    simplify_eq/=; unfold saturating_add_u64, saturating_sub_u; try lia.
  all: destruct (admit_request _ _ _); lia.
Qed.

Lemma run_publications s ls s' :
  0 <= publications s -> publications s + total pub_started ls <= u64_max - 1 ->
  run s ls s' ->
  0 <= publications s' /\
  publications s + total pub_started ls <= publications s' + total pub_finished ls.
Proof.
  intros Hp Hm Hrun; revert Hp Hm.
  induction Hrun as [|s l s1 ls s2 Ht Hrun IH]; intros Hp Hm; simpl in *; [lia|].
  pose proof (pub_started_nonneg l).
  pose proof (total_nonneg pub_started ls pub_started_nonneg).
  destruct Ht as [s i s1 d Hs|s e s1 n Hs].
  - apply step_publications in Hs; [|lia..].
    destruct IH; [lia..|]. split; [lia|]. simpl in *. lia.
  - apply begin_effect_frame in Hs as [-> _]. simpl in *. destruct IH; lia.
Qed.

(** No publication is lost at release. In any run from activation that ends
    with a decision to deactivate, every publication that was started has been
    reported finished (the counter may only under-report starts after 2^64 - 2
    of them). *)
Theorem release_publications pr r ls s i s' d :
  run (serving_with_residency pr r) ls s ->
  step s i = (s', d) -> releases d = true ->
  let ls' := ls ++ [LInput i d] in
  total pub_started ls' <= u64_max - 1 ->
  total pub_started ls' <= total pub_finished ls'.
Proof.
  intros Hrun Hs Hd ls' Hm.
  assert (run (serving_with_residency pr r) ls' s') as Hrun'.
  { eapply run_app; [done|]. eapply run_cons; [|apply run_nil]. by constructor. }
  apply run_publications in Hrun'; simpl; [|lia|lia].
  apply step_releases in Hs as [(_ & _ & Hp & _)%can_deactivate_true _]; [|done].
  simpl in Hrun'. lia.
Qed.

Lemma release_publications_witness :
  let t := drive (serving_with_residency true Resident) [Input.BeginPublication; Input.BeginDrain] in
  let i := Input.FinishPublication false true in
  releases (step t.1 i).2 = true /\
  total pub_started (t.2 ++ [LInput i (step t.1 i).2]) <=
  total pub_finished (t.2 ++ [LInput i (step t.1 i).2]).
Proof.
  split; [reflexivity|].
  eapply (release_publications true Resident _ _ (Input.FinishPublication false true));
    [apply drive_run|apply surjective_pairing|reflexivity|vm_compute; discriminate].
Defined.

(** *** Effect identities are fresh and complete once *)

Lemma bump_id_mod n :
  u64_ok n -> bump_id n = n mod u64_max + 1.
Proof.
  unfold bump_id, wrapping_add_u64, u64_ok. intros Hn.
  destruct (Z.eq_dec n u64_max) as [->|Hne].
  - reflexivity.
  - rewrite (Z.mod_small (n + 1)), (Z.mod_small n) by lia. lia.
Qed.

Lemma bump_id_range n : u64_ok n -> 1 <= bump_id n <= u64_max.
Proof.
  intros Hn. rewrite bump_id_mod by done.
  pose proof (Z.mod_pos_bound n u64_max eq_refl). lia.
Qed.

(** The [k]-th candidate the loop examines. *)
Definition candidate (n : Z) (k : nat) : Z := (n + Z.of_nat k) mod u64_max + 1.

Lemma candidate_bump n k : u64_ok n -> candidate (bump_id n) k = candidate n (S k).
Proof.
  intros Hn. rewrite bump_id_mod by done. unfold candidate. f_equal.
  rewrite <- Z.add_assoc, Z.add_mod_idemp_l by done. f_equal. lia.
Qed.

Lemma candidate_inj n j k :
  Z.of_nat j < u64_max -> Z.of_nat k < u64_max -> candidate n j = candidate n k -> j = k.
Proof.
  unfold candidate. intros Hj Hk H.
  assert ((n + Z.of_nat j) mod u64_max = (n + Z.of_nat k) mod u64_max) as E by lia.
  assert ((Z.of_nat j - Z.of_nat k) mod u64_max = 0) as D.
  { replace (Z.of_nat j - Z.of_nat k) with ((n + Z.of_nat j) - (n + Z.of_nat k)) by lia.
    rewrite Zminus_mod, E, Z.sub_diag. reflexivity. }
  assert (0 < u64_max) by done.
  apply Z.mod_divide in D as [q Hq]; [|done]. 
  destruct (Z.lt_trichotomy q 0) as [?|[->|?]]; [|lia|].
  - assert (q * u64_max <= -1 * u64_max) by (apply Z.mul_le_mono_nonneg_r; lia). lia.
  - assert (1 * u64_max <= q * u64_max) by (apply Z.mul_le_mono_nonneg_r; lia). lia.
Qed.

(** A loop that runs out of fuel has seen only used identities. *)
Lemma begin_effect_loop_None fuel s e :
  u64_ok (next_effect_id s) -> begin_effect_loop fuel s e = None ->
  forall k, (k < fuel)%nat -> candidate (next_effect_id s) k ∈ dom (pending_effects s).
Proof.
  revert s; induction fuel as [|fuel IH]; intros s Hn; cbn; [lia|].
  case_match eqn:E; [|done]. intros H [|k] Hk.
  - unfold candidate. rewrite Z.add_0_r, <- bump_id_mod by done.
    apply elem_of_dom. eauto.
  - rewrite <- candidate_bump by done.
    pose proof (bump_id_range _ Hn).
    eapply (IH (set_effects (bump_id (next_effect_id s)) (pending_effects s) s));
      [unfold u64_ok; simpl; lia|done|lia].
Qed.

Lemma candidates_NoDup n m :
  Z.of_nat m <= u64_max -> NoDup (candidate n <$> seq 0 m).
Proof.
  intros Hm. apply NoDup_fmap_2_strong; [|apply NoDup_seq].
  intros j k Hj Hk. rewrite !elem_of_seq in Hj, Hk. apply candidate_inj; lia.
Qed.

(** The loop examines every non-zero identity, so it fails only when all are used. *)
Lemma begin_effect_Some s e :
  u64_ok (next_effect_id s) -> Z.of_nat (size (pending_effects s)) < u64_max ->
  is_Some (begin_effect s e).
Proof.
  intros Hn Hsize. unfold begin_effect.
  destruct (begin_effect_loop _ s e) eqn:E; [done|exfalso].
  pose proof (begin_effect_loop_None _ _ _ Hn E) as Hall.
  set (m := size (pending_effects s)) in *.
  assert (length (candidate (next_effect_id s) <$> seq 0 (S m)) <= m)%nat as Hlen;
    [|rewrite length_fmap, length_seq in Hlen; lia].
  rewrite <- (size_list_to_set (C := gset Z)) by (apply candidates_NoDup; lia).
  unfold m in *. rewrite <- size_dom. apply subseteq_size.
  intros x. rewrite elem_of_list_to_set, list_elem_of_fmap.
  intros (k & -> & Hk%elem_of_seq). apply Hall.
  rewrite size_dom in Hk. lia.
Qed.

Lemma begin_effect_loop_range fuel s e s' n :
  u64_ok (next_effect_id s) -> begin_effect_loop fuel s e = Some (s', n) -> 1 <= n <= u64_max.
Proof.
  revert s; induction fuel as [|fuel IH]; intros s Hn; cbn; [done|].
  pose proof (bump_id_range _ Hn).
  case_match; [|naive_solver].
  apply IH. unfold u64_ok; simpl; lia.
Qed.

(** Allocating an effect identity terminates and is fresh. While fewer than
    2^64 - 1 effects are pending, the wrapping collision loop returns, with an
    identity in 1..2^64-1 that no pending effect uses; the new effect is
    recorded under it and nothing else of the state changes. *)
Theorem begin_effect_total s e :
  u64_ok (next_effect_id s) -> Z.of_nat (size (pending_effects s)) < u64_max ->
  exists n,
    begin_effect s e = Some (set_effects n (<[n := e]> (pending_effects s)) s, n) /\
    1 <= n <= u64_max /\ pending_effects s !! n = None.
Proof.
  intros Hn Hsize. destruct (begin_effect_Some s e Hn Hsize) as [[s' n] E].
  pose proof (begin_effect_frame _ _ _ _ E) as [-> Hfresh].
  pose proof (begin_effect_loop_range _ _ _ _ _ Hn E). eauto.
Qed.

(** The counter wraps past an identity that is still pending. *)
Lemma begin_effect_total_witness :
  let s := set_effects u64_max {[1 := Renewal]} (serving true) in
  begin_effect s Publication =
    Some (set_effects 2 (<[2 := Publication]> {[1 := Renewal]}) s, 2) /\
  exists n,
    begin_effect s Publication =
      Some (set_effects n (<[n := Publication]> (pending_effects s)) s, n) /\
    1 <= n <= u64_max /\ pending_effects s !! n = None.
Proof.
  split; [reflexivity|].
  apply (begin_effect_total (set_effects u64_max {[1 := Renewal]} (serving true)) Publication);
    [split; vm_compute; discriminate|reflexivity].
Defined.

Lemma step_pending s i s' d :
  step s i = (s', d) ->
  pending_effects s' = pending_effects s \/
  exists n e, i = Input.CompleteEffect n e /\ d = Outcome.EffectCompleted /\
    pending_effects s !! n = Some e /\ pending_effects s' = delete n (pending_effects s).
Proof.
  intros H. destruct i; step_arms; cbn zeta in *; repeat case_match; simplify_eq/=; auto.
  right. do 2 eexists. split_and!; eauto. by apply eqb_of_true.
Qed.

Lemma run_stays_completed n s ls s' :
  run s ls s' -> (forall e, LEffect e n ∉ ls) -> pending_effects s !! n = None ->
  pending_effects s' !! n = None.
Proof.
  induction 1 as [|s l s1 ls s2 Ht Hrun IH]; [done|].
  intros Hls Hn. apply IH; [set_solver|].
  destruct Ht as [s i s1 d Hs|s e s1 m Hs].
  - apply step_pending in Hs as [->|(k & e & _ & _ & _ & ->)]; [done|].
    rewrite lookup_delete. by case_decide.
  - apply begin_effect_frame in Hs as [-> _]. simpl.
    rewrite lookup_insert_ne; [done|]. intros ->. apply (Hls e). set_solver.
Qed.

(** An effect completes at most once and only under its own intent. After a
    completion is accepted, and until the same identity is allocated again,
    every further completion of that identity is stale and changes nothing. *)
Theorem effect_completes_once s n e s1 ls s2 e' :
  step s (Input.CompleteEffect n e) = (s1, Outcome.EffectCompleted) ->
  run s1 ls s2 -> (forall e0, LEffect e0 n ∉ ls) ->
  pending_effects s !! n = Some e /\
  step s2 (Input.CompleteEffect n e') = (s2, Outcome.StaleEffect).
Proof.
  intros Hs Hrun Hls.
  pose proof (step_pending _ _ _ _ Hs) as [Heq|(? & ? & [= <- <-] & _ & Hn & Hd)].
  { exfalso. simpl in Hs. unfold step_complete_effect in Hs. case_match eqn:E; [|done].
    apply eqb_of_true in E. simplify_eq/=. by rewrite <- Heq, lookup_delete_eq in E. }
  split; [done|].
  assert (pending_effects s2 !! n = None) as Hnone.
  { eapply run_stays_completed; [done..|]. by rewrite Hd, lookup_delete_eq. }
  simpl. unfold step_complete_effect. by rewrite Hnone.
Qed.

Lemma effect_completes_once_witness :
  let s := set_effects 7 {[7 := Renewal]} (serving true) in
  let s1 := (step s (Input.CompleteEffect 7 Renewal)).1 in
  let t := drive s1 [Input.FinishRenewal false; Input.BeginDrain] in
  pending_effects s !! 7 = Some Renewal /\
  step t.1 (Input.CompleteEffect 7 Renewal) = (t.1, Outcome.StaleEffect).
Proof.
  eapply (effect_completes_once (set_effects 7 {[7 := Renewal]} (serving true)) 7 Renewal);
    [reflexivity|apply drive_run|].
  intros e0 He. simpl in He. set_solver.
Defined.

(** *** The exclusive foreground slot *)

(** Labels that take the slot, and inputs that may give it back. *)
Definition takes_slot (l : label) : bool :=
  match l with
  | LInput (Input.BeginWork _ _) Outcome.Started
  | LInput (Input.BeginCompaction _ _ _ _ _) Outcome.Started => true
  | _ => false
  end.

Definition frees_slot (l : label) : bool :=
  match l with
  | LInput (Input.FinishWork _) _ | LInput (Input.FinishMigration _) _
  | LInput (Input.FinishCompaction _) _ | LInput Input.Fence _
  | LInput (Input.Schedule _ _ _ false) _ | LInput (Input.BeginRenewal _ _ false) _
  | LInput (Input.BeginHydration _ _ false) _ | LInput (Input.BeginInventory _ _ _ _ false) _
  | LInput (Input.BeginTransferPreflight _ _ false) _ => true
  | _ => false
  end.

Lemma step_slot s i s' d :
  step s i = (s', d) ->
  (takes_slot (LInput i d) = true -> busy s = false /\ busy s' = true) /\
  (frees_slot (LInput i d) = false -> busy s = true -> busy s' = true).
Proof.
  intros H. destruct i; step_arms; cbn zeta in *;
    repeat case_match; simplify_eq/=; try (split; done).
  all: guards; try (split; naive_solver).
  all: split; [by repeat case_match|done].
Qed.

Lemma transition_slot s l s' :
  kernel_step s l s' ->
  (takes_slot l = true -> busy s = false /\ busy s' = true) /\
  (frees_slot l = false -> busy s = true -> busy s' = true).
Proof.
  destruct 1 as [s i s' d H|s e s' n H]; [by apply step_slot|].
  by apply begin_effect_frame in H as [-> _].
Qed.

(** The foreground slot is exclusive. Once work or a compaction has taken
    it, nothing else takes it until a completion, an explicit fence or an
    expired lease gives it back. *)
Theorem slot_exclusive s l s1 ls s2 :
  kernel_step s l s1 -> takes_slot l = true ->
  run s1 ls s2 -> Forall (fun l => frees_slot l = false) ls ->
  busy s = false /\ busy s2 = true /\ Forall (fun l => takes_slot l = false) ls.
Proof.
  intros Ht Htake Hrun Hls. destruct (transition_slot _ _ _ Ht) as [Hs _].
  destruct (Hs Htake) as [Hs0 Hs1]. split; [done|].
  clear - Hs1 Hrun Hls. induction Hrun as [|s l s1 ls s2 Ht Hrun IH]; [done|].
  apply Forall_cons in Hls as [Hl Hls].
  destruct (transition_slot _ _ _ Ht) as [Ha Hb].
  destruct (IH Hls (Hb Hl Hs1)). split; [done|]. constructor; [|done].
  destruct (takes_slot l); [|done]. destruct (Ha eq_refl). congruence.
Qed.

Lemma slot_exclusive_witness :
  let s := serving true in
  let i := Input.BeginWork Command true in
  let t := drive (step s i).1
             [Input.BeginWork Query true; Input.BeginDrain;
              Input.BeginCompaction true true true true true] in
  takes_slot (LInput i (step s i).2) = true /\
  (busy s = false /\ busy t.1 = true /\ Forall (fun l => takes_slot l = false) t.2).
Proof.
  split; [reflexivity|].
  apply (slot_exclusive (serving true)
           (LInput (Input.BeginWork Command true) Outcome.Started)
           (step (serving true) (Input.BeginWork Command true)).1);
    [constructor; reflexivity|reflexivity|apply drive_run|repeat constructor].
Defined.

(** *** Type invariant of the reachable states *)

Definition coordination_wf (s : CoordinationState) : Prop :=
  u64_ok (next_effect_id s) /\ u64_ok (publications s) /\
  map_Forall (fun n _ => 1 <= n <= u64_max) (pending_effects s) /\
  (shutdown_requested s = true ->
   lifecycle s = Life.Fenced \/ lifecycle s = Life.Migrating \/ lifecycle s = Life.Shutdown) /\
  (follower_proof s = true -> publications s <> 0).

Lemma step_shutdown_lifecycle s i s' d :
  step s i = (s', d) ->
  (shutdown_requested s = true ->
   lifecycle s = Life.Fenced \/ lifecycle s = Life.Migrating \/ lifecycle s = Life.Shutdown) ->
  shutdown_requested s' = true ->
  lifecycle s' = Life.Fenced \/ lifecycle s' = Life.Migrating \/ lifecycle s' = Life.Shutdown.
Proof.
  intros H Hinv. destruct i; step_arms; cbn zeta in *;
    repeat case_match; simplify_eq/=; auto;
    unfold is_draining, is_migrating, is_fenced, is_shutdown in *; simpl in *; guards;
    repeat case_match; intuition congruence.
Qed.

Lemma step_follower_proof_inv s i s' d :
  step s i = (s', d) -> u64_ok (publications s) ->
  (follower_proof s = true -> publications s <> 0) ->
  u64_ok (publications s') /\ (follower_proof s' = true -> publications s' <> 0).
Proof.
  unfold u64_ok. intros H Hp Hinv. destruct i; step_arms; cbn zeta in *;
    repeat case_match; simplify_eq/=; auto;
    unfold saturating_add_u64, saturating_sub_u; guards; split; try done; try lia.
Qed.

Lemma kernel_step_wf s l s' : coordination_wf s -> kernel_step s l s' -> coordination_wf s'.
Proof.
  intros Hwf Ht. destruct Ht as [s0 i s0' d H|s0 e s0' n H];
    destruct Hwf as (Hn & Hp & Hk & Hl & Hf).
  - destruct (step_follower_proof_inv _ _ _ _ H Hp Hf).
    pose proof (step_shutdown_lifecycle _ _ _ _ H Hl).
    assert (next_effect_id s0' = next_effect_id s0) as Hid.
    { clear - H. destruct i; step_arms; cbn zeta in *; repeat case_match; by simplify_eq/=. }
    unfold coordination_wf. rewrite Hid. split_and!; try done.
    apply step_pending in H as [->|(? & ? & _ & _ & _ & ->)]; [done|].
    by apply map_Forall_delete.
  - pose proof (begin_effect_loop_range _ _ _ _ _ Hn H) as Hr.
    apply begin_effect_frame in H as [-> Hfresh]. split_and!; try done; simpl.
    + unfold u64_ok; lia.
    + apply map_Forall_insert_2; [lia|done].
Qed.

Lemma serving_wf pr r : coordination_wf (serving_with_residency pr r).
Proof. by split_and!. Qed.

Lemma run_wf s ls s' : run s ls s' -> coordination_wf s -> coordination_wf s'.
Proof. apply run_invariant, kernel_step_wf. Qed.

(** C40: type invariant. Every reachable coordination state keeps its counters in
    their machine widths, its effect identities non-zero, a shutdown request
    only together with a fenced, migrating or shut-down lifecycle, and a
    follower proof only while a publication is outstanding. *)
Theorem reachable_wf s : reachable s -> coordination_wf s.
Proof.
  intros (pr & r & ls & Hrun).
  eapply run_wf; [done|apply serving_wf].
Qed.

Lemma reachable_wf_witness :
  reachable (drive (serving_with_residency true Sparse) [Input.BeginPublication]).1 /\
  coordination_wf (drive (serving_with_residency true Sparse) [Input.BeginPublication]).1.
Proof.
  assert (reachable (drive (serving_with_residency true Sparse) [Input.BeginPublication]).1) as H
    by (do 3 eexists; apply drive_run).
  split; [exact H|]. apply (reachable_wf _ H).
Defined.

(** *** Draining completes *)

(** The work in flight: the foreground slot, the renewal, the publications and the
    effects. *)
Definition in_flight (s : CoordinationState) : Z :=
  Z.b2z (busy s) + Z.b2z (renewing s) + publications s + Z.of_nat (size (pending_effects s)).

(** The successful completions of what is in flight. The slot does not say who took it,
    so any of the three completions that give it back may report it. *)
Definition reports (s : CoordinationState) (i : CoordinationInput) : bool :=
  match i with
  | Input.FinishWork false | Input.FinishMigration false | Input.FinishCompaction false => busy s
  | Input.FinishRenewal false => renewing s
  | Input.FinishPublication false succeeded => (0 <? publications s) && (succeeded || follower_proof s)
  | Input.CompleteEffect n e => eqb_of (pending_effects s !! n) (Some e)
  | _ => false
  end.

(** Completions that arrive one after the other, each for something in flight then. *)
Inductive completes : CoordinationState -> list CoordinationInput -> CoordinationState -> Prop :=
| completes_nil s : completes s [] s
| completes_cons s i is_ t : reports s i = true -> completes (step s i).1 is_ t -> completes s (i :: is_) t.

Definition draining (l : Lifecycle) : Prop := l = Life.Draining \/ l = Life.Shutdown.

Lemma draining_step s :
  draining (lifecycle s) -> is_fenced s = false /\ is_draining s = true /\ is_migrating s = false.
Proof. unfold is_fenced, is_draining, is_migrating. intros [-> | ->]; by rewrite ?orb_true_r. Qed.

(** A completion settles one piece of work and nothing else. *)
Lemma reports_settle s i :
  0 <= publications s -> draining (lifecycle s) -> reports s i = true ->
  let t := (step s i).1 in
  draining (lifecycle t) /\ 0 <= publications t /\ in_flight t = in_flight s - 1.
Proof.
  intros Hp Hd Hr. destruct (draining_step s Hd) as (Hf & _ & Hm). unfold in_flight.
  destruct i as [| | | |n e|[]| | | | |[]| |[]| | | |[] ok| | | | | | | |[]| |]; try done; simpl in Hr.
  - simpl. unfold step_complete_effect. rewrite Hr. simpl. apply (proj1 (eqb_of_true _ _)) in Hr.
    pose proof (map_size_delete_Some n (pending_effects s) (mk_is_Some _ _ Hr)) as Hsize.
    assert (size (pending_effects s) <> 0%nat) by (apply (map_size_ne_0_lookup_2 _ n); eauto).
    split_and!; [done..|]. rewrite Hsize. lia.
  - simpl. unfold step_finish_work. simpl. change (is_fenced (set_busy false s)) with (is_fenced s).
    rewrite Hf, Hr. case_match; simpl; split_and!; done || lia.
  - simpl. unfold step_finish_migration. simpl. change (is_fenced (set_busy false s)) with (is_fenced s).
    change (is_migrating (set_busy false s)) with (is_migrating s). rewrite Hf, Hm, Hr. simpl. split_and!; done || lia.
  - simpl. unfold step_finish_renewal. simpl. change (is_fenced (set_renewing false s)) with (is_fenced s).
    rewrite Hf, Hr. simpl. split_and!; done || lia.
  - guards_in Hr. destruct Hr as [Hpos Hok]. simpl. unfold step_finish_publication.
    rewrite (proj2 (orb_true_iff ok (follower_proof s))) by done. simpl.
    case_match; simpl; unfold saturating_sub_u; split_and!; done || lia.
  - simpl. unfold step_finish_compaction. simpl. change (is_fenced (set_busy false s)) with (is_fenced s).
    rewrite Hf, Hr. case_match; simpl; split_and!; done || lia.
Qed.

Lemma completes_settle s is_ t :
  completes s is_ t -> 0 <= publications s -> draining (lifecycle s) ->
  draining (lifecycle t) /\ 0 <= publications t /\ in_flight t = in_flight s - Z.of_nat (length is_).
Proof.
  induction 1 as [s|s i is_ t Hr _ IH]; intros Hp Hd; [simpl; split_and!; [done..|lia]|].
  destruct (reports_settle s i Hp Hd Hr) as (Hd1 & Hp1 & Hn1). destruct (IH Hp1 Hd1) as (? & ? & Hn).
  simpl length. split_and!; [done..|lia].
Qed.

(** While work is in flight, some completion of it is outstanding. *)
Lemma in_flight_reported s :
  0 <= publications s -> in_flight s <> 0 -> exists i, reports s i = true.
Proof.
  intros Hp Hn. unfold in_flight in Hn. destruct (busy s) eqn:Hb; [by exists (Input.FinishWork false)|].
  destruct (renewing s) eqn:Hr; [by exists (Input.FinishRenewal false)|].
  destruct (Z.ltb_spec 0 (publications s)) as [Hpos|Hpos].
  { exists (Input.FinishPublication false true). simpl. by rewrite (proj2 (Z.ltb_lt _ _)). }
  destruct (decide (pending_effects s = ∅)) as [E|E].
  { rewrite E, map_size_empty in Hn. simpl in Hn. lia. }
  apply map_choose in E as (n & e & En). exists (Input.CompleteEffect n e). simpl. by rewrite En, eqb_of_refl.
Qed.

Lemma in_flight_nonneg s : 0 <= publications s -> 0 <= in_flight s.
Proof. unfold in_flight. destruct (busy s), (renewing s); simpl; lia. Qed.

Lemma completes_all s :
  0 <= publications s -> draining (lifecycle s) -> exists is_ t, completes s is_ t /\ in_flight t = 0.
Proof.
  intros Hp Hd. remember (Z.to_nat (in_flight s)) as k eqn:Hk. revert s Hp Hd Hk.
  induction k as [|k IH]; intros s Hp Hd Hk; pose proof (in_flight_nonneg s Hp) as Hn.
  { exists [], s. split; [constructor|lia]. }
  destruct (in_flight_reported s Hp ltac:(lia)) as [i Hi].
  destruct (reports_settle s i Hp Hd Hi) as (Hd1 & Hp1 & Hn1).
  destruct (IH _ Hp1 Hd1 ltac:(lia)) as (is_ & t & Hc & Ht). exists (i :: is_), t. split; [by constructor|done].
Qed.

Lemma settled_releases s pb :
  0 <= publications s -> draining (lifecycle s) -> in_flight s = 0 ->
  step s (Input.Schedule true true pb true) = (s, Outcome.ReadyToDeactivate).
Proof.
  intros Hp Hd Hn. destruct (draining_step s Hd) as (Hf & Hdr & _). unfold in_flight in Hn.
  assert (can_deactivate s = true) as Hq.
  { apply can_deactivate_true. destruct (busy s), (renewing s); simpl in Hn; try lia.
    split_and!; [done..|lia|]. apply map_size_empty_inv. lia. }
  simpl. unfold step_schedule, ready_to_deactivate. by rewrite Hf, Hdr, Hq.
Qed.


