(* ===== verification/NodeLog.v ===== *)
(** * NodeLog: the durability log of a node session, its recovery claims and the lease

    Models [crates/cellule-runtime/src/node/log_state.rs] and
    [node/lease.rs]. A [NodeLogStatus] is the compare-and-swap protected state of
    one session's follower log: it is open, then recovered under a bounded
    claim, sealed and retired. [LeaseState] is the process-local guard that a
    node session checks before it dispatches work.

    The theorems are about sequences of successful status updates (fencing
    tokens, exclusivity of claims, no append after recovery starts) and about
    sequences of lease operations at advancing instants (expiry is terminal). *)

From Stdlib Require Import ZArith Lia.
From Stdlib Require Import Strings.Byte.
From stdpp Require Import base list gmap strings relations.
From S2P Require Import Prelude Identity.

Local Open Scope bool_scope.
Local Infix "≟" := eqb_of (at level 70).
Local Notation "x ≠? y" := (negb (eqb_of x y)) (at level 70).

(** ** Data *)

(*@ node/log_state.rs 6-6 RECOVERY_CLAIM_LIFETIME_MS *)
Definition RECOVERY_CLAIM_LIFETIME_MS : Z := 30000.
(*@ node/log_state.rs 7-7 MAX_NODE_LOG_MEMBERS *)
Definition MAX_NODE_LOG_MEMBERS : nat := 2.

Module Phase.
(*@ node/log_state.rs 11-20 NodeLogPhase *)
Inductive NodeLogPhase := Open | Recovering | Sealed | Retired.
End Phase.
Abbreviation NodeLogPhase := Phase.NodeLogPhase.

Global Instance NodeLogPhase_eq_dec : EqDecision NodeLogPhase.
Proof. solve_decision. Defined.

(*@ node/log_state.rs 24-28 NodeRecoveryClaim *)
Record NodeRecoveryClaim := MkClaim {
  claimant : SessionId;
  generation : Z;
  expires_at_ms : Z
}.

Global Instance NodeRecoveryClaim_eq_dec : EqDecision NodeRecoveryClaim.
Proof. solve_decision. Defined.

(*@ node/log_state.rs 113-121 NodeLogStatus *)
Record NodeLogStatus := MkStatus {
  phase : NodeLogPhase;
  log_epoch : Z;
  members : list NodeId;
  active : bool;
  tiered_through : Z;
  recovery : option NodeRecoveryClaim;
  recovery_manifest : option Digest
}.

Global Instance NodeLogStatus_eq_dec : EqDecision NodeLogStatus.
Proof. solve_decision. Defined.

(** ** Recovery claims *)

(*@ node/log_state.rs 100-108 NodeRecoveryClaim::validate *)
Definition claim_validate (c : NodeRecoveryClaim) : Result unit :=
  if all_zero (claimant c) || (generation c =? 0) || (expires_at_ms c <? 0)
  then Err (Error.Node "node recovery claim is invalid")
  else Ok tt.

(*@ node/log_state.rs 62-74 NodeRecoveryClaim::from_parts *)
Definition claim_from_parts (who : SessionId) (gen expires : Z) : Result NodeRecoveryClaim :=
  let claim := MkClaim who gen expires in
  _ ← claim_validate claim;
  Ok claim.

(*@ node/log_state.rs 49-60 NodeRecoveryClaim::new *)
Definition claim_new (who : SessionId) (gen now_ms : Z) : Result NodeRecoveryClaim :=
  expires ← ok_or (checked_add_i64 now_ms RECOVERY_CLAIM_LIFETIME_MS)
                  (Error.Node "node recovery claim time overflow");
  let claim := MkClaim who gen expires in
  _ ← claim_validate claim;
  Ok claim.

(*@ node/log_state.rs 76-85 NodeRecoveryClaim::renew *)
Definition claim_renew (c : NodeRecoveryClaim) (who : SessionId) (now_ms : Z)
  : Result NodeRecoveryClaim :=
  if (claimant c ≠? who) || (expires_at_ms c <=? now_ms) then Err Error.Fenced
  else
    renewed ← claim_new who (generation c) now_ms;
    if expires_at_ms renewed <=? expires_at_ms c
    then Err (Error.Node "node recovery claim expiry did not advance")
    else Ok renewed.

(*@ node/log_state.rs 87-98 NodeRecoveryClaim::take_over *)
Definition claim_take_over (c : NodeRecoveryClaim) (who : SessionId) (now_ms : Z)
  : Result NodeRecoveryClaim :=
  if now_ms <? expires_at_ms c then Err (Error.Node "node recovery is already claimed")
  else
    gen ← ok_or (checked_add_u64 (generation c) 1)
                (Error.Node "node recovery claim generation overflow");
    claim_new who gen now_ms.

(** ** Log status *)

(** [members.windows(2).all(|pair| pair[0] < pair[1])] over the bytes. *)
Fixpoint strictly_ascending (l : list NodeId) : bool :=
  match l with
  | a :: (b :: _) as tl =>
      (match bytes_compare (as_bytes a) (as_bytes b) with Lt => true | _ => false end)
      && strictly_ascending tl
  | _ => true
  end.

(** [members.contains(&member)]. *)
Definition contains (l : list NodeId) (m : NodeId) : bool := existsb (fun x => x ≟ m) l.

(** The match over phase, claim and manifest at the end of [validate]. *)
Definition validate_phase (s : NodeLogStatus) : Result unit :=
  match phase s, recovery s, recovery_manifest s with
  | Phase.Open, None, None => Ok tt
  | Phase.Recovering, Some claim, None => claim_validate claim
  | Phase.Sealed, None, manifest | Phase.Retired, None, manifest =>
      if is_some_and all_zero manifest
      then Err (Error.Node "node recovery manifest digest is zero") else Ok tt
  | _, _, _ => Err (Error.Node "node log state is invalid")
  end.

(*@ node/log_state.rs 386-413 NodeLogStatus::validate *)
Definition status_validate (s : NodeLogStatus) (leader : NodeId) : Result unit :=
  if (log_epoch s =? 0)
     || match members s with [] => true | _ => false end
     || (MAX_NODE_LOG_MEMBERS <? length (members s))%nat
     || contains (members s) leader
     || existsb all_zero (members s)
     || negb (strictly_ascending (members s))
  then Err (Error.Node "node log ensemble is invalid")
  else validate_phase s.

(*@ node/log_state.rs 138-159 NodeLogStatus::from_parts *)
Definition from_parts (leader : NodeId) (ph : NodeLogPhase) (e : Z) (ms : list NodeId)
    (act : bool) (tiered : Z) (rec : option NodeRecoveryClaim) (manifest : option Digest)
  : Result NodeLogStatus :=
  let status := MkStatus ph e ms act tiered rec manifest in
  _ ← status_validate status leader;
  Ok status.

(*@ node/log_state.rs 124-136 NodeLogStatus::open *)
Definition open (leader : NodeId) (e : Z) (ms : list NodeId) : Result NodeLogStatus :=
  let status := MkStatus Phase.Open e ms false 0 None None in
  _ ← status_validate status leader;
  Ok status.

(*@ node/log_state.rs 204-218 NodeLogStatus::activate *)
Definition activate (s : NodeLogStatus) (leader : NodeId) : Result NodeLogStatus :=
  if (phase s ≠? Phase.Open) || active s then Err (Error.Node "node log cannot be activated")
  else from_parts leader (phase s) (log_epoch s) (members s) true (tiered_through s) None None.

(*@ node/log_state.rs 220-234 NodeLogStatus::advance_tiered *)
Definition advance_tiered (s : NodeLogStatus) (leader : NodeId) (through : Z)
  : Result NodeLogStatus :=
  if (phase s ≠? Phase.Open) || (through <? tiered_through s)
  then Err (Error.Node "node log object coverage regressed")
  else from_parts leader (phase s) (log_epoch s) (members s) (active s) through None None.

(*@ node/log_state.rs 236-280 NodeLogStatus::begin_recovery *)
Definition begin_recovery (s : NodeLogStatus) (leader : NodeId) (who : SessionId) (now_ms : Z)
  : Result NodeLogStatus :=
  match phase s, recovery s with
  | Phase.Open, None =>
      claim ← claim_new who 1 now_ms;
      from_parts leader Phase.Recovering (log_epoch s) (members s) (active s)
        (tiered_through s) (Some claim) None
  | Phase.Recovering, Some current =>
      if claimant current ≟ who then
        if now_ms <? expires_at_ms current then Ok s
        else
          claim ← claim_take_over current who now_ms;
          from_parts leader Phase.Recovering (log_epoch s) (members s) (active s)
            (tiered_through s) (Some claim) None
      else
        claim ← claim_take_over current who now_ms;
        from_parts leader Phase.Recovering (log_epoch s) (members s) (active s)
          (tiered_through s) (Some claim) None
  | _, _ => Err (Error.Node "node log cannot enter recovery")
  end.

(*@ node/log_state.rs 282-303 NodeLogStatus::renew_recovery *)
Definition renew_recovery (s : NodeLogStatus) (leader : NodeId) (who : SessionId)
    (gen now_ms : Z) : Result NodeLogStatus :=
  current ← ok_or (match recovery s with
                   | Some claim => if generation claim =? gen then Some claim else None
                   | None => None
                   end) Error.Fenced;
  claim ← claim_renew current who now_ms;
  from_parts leader Phase.Recovering (log_epoch s) (members s) (active s)
    (tiered_through s) (Some claim) None.

(*@ node/log_state.rs 305-329 NodeLogStatus::seal_recovery *)
Definition seal_recovery (s : NodeLogStatus) (leader : NodeId) (who : SessionId)
    (gen : Z) (manifest : option Digest) : Result NodeLogStatus :=
  current ← ok_or (recovery s) Error.Fenced;
  if (phase s ≠? Phase.Recovering) || (claimant current ≠? who)
     || negb (generation current =? gen)
  then Err Error.Fenced
  else from_parts leader Phase.Sealed (log_epoch s) (members s) (active s)
         (tiered_through s) None manifest.

(*@ node/log_state.rs 331-346 NodeLogStatus::retire_recovered *)
Definition retire_recovered (s : NodeLogStatus) (leader : NodeId) : Result NodeLogStatus :=
  _ ← status_validate s leader;
  if negb match phase s with Phase.Sealed | Phase.Retired => true | _ => false end
  then Err Error.Fenced
  else from_parts leader Phase.Retired (log_epoch s) (members s) (active s)
         (tiered_through s) None (recovery_manifest s).

(*@ node/log_state.rs 348-359 NodeLogStatus::permits_append *)
Definition permits_append (s : NodeLogStatus) (leader member : NodeId) (e : Z) : Result unit :=
  _ ← status_validate s leader;
  if (phase s ≠? Phase.Open) || negb (log_epoch s =? e) || negb (contains (members s) member)
  then Err (Error.PeerAuthorization "node-log append is outside the enrolled ensemble")
  else Ok tt.

(*@ node/log_state.rs 361-384 NodeLogStatus::permits_recovery_read *)
Definition permits_recovery_read (s : NodeLogStatus) (leader : NodeId) (who : SessionId)
    (member : NodeId) (e now_ms : Z) : Result unit :=
  _ ← status_validate s leader;
  claim ← ok_or (recovery s) (Error.PeerAuthorization "node-log recovery is not claimed");
  if (phase s ≠? Phase.Recovering) || negb (log_epoch s =? e)
     || (claimant claim ≠? who) || (expires_at_ms claim <=? now_ms)
     || negb (contains (members s) member)
  then Err (Error.PeerAuthorization "node-log recovery claim or member differs")
  else Ok tt.

(** ** Status updates as a step relation *)

Section Updates.
Context (leader : NodeId).

(** One successful update of the stored status, decided at time [now]. *)
Inductive log_step (now : Z) (s n : NodeLogStatus) : Prop :=
| log_activate : activate s leader = Ok n -> log_step now s n
| log_advance through : advance_tiered s leader through = Ok n -> log_step now s n
| log_begin who : begin_recovery s leader who now = Ok n -> log_step now s n
| log_renew who gen : renew_recovery s leader who gen now = Ok n -> log_step now s n
| log_seal who gen manifest : seal_recovery s leader who gen manifest = Ok n -> log_step now s n
| log_retire : retire_recovered s leader = Ok n -> log_step now s n.

(** A sequence of updates, each decided no later than [horizon]. *)
Definition log_run (horizon : Z) : relation NodeLogStatus :=
  rtc (fun s n => exists now, now <= horizon /\ log_step now s n).

Definition phase_rank (p : NodeLogPhase) : Z :=
  match p with Phase.Open => 0 | Phase.Recovering => 1 | Phase.Sealed => 2 | Phase.Retired => 3 end.

(** How one update at [now] may replace a claim: extend it, or supersede it with
    the next generation after it expired. *)
Definition claim_replaced (now : Z) (a b : NodeRecoveryClaim) : Prop :=
  (generation b = generation a /\ claimant b = claimant a /\ expires_at_ms a <= expires_at_ms b)
  \/ (generation b = generation a + 1 /\ expires_at_ms a <= now).

Record log_change (now : Z) (s n : NodeLogStatus) : Prop := {
  change_valid : status_validate n leader = Ok tt;
  change_epoch : log_epoch n = log_epoch s;
  change_members : members n = members s;
  change_active : active s = true -> active n = true;
  change_tiered : tiered_through s <= tiered_through n;
  change_rank : phase_rank (phase s) <= phase_rank (phase n);
  change_closed : phase s <> Phase.Open -> active n = active s /\ tiered_through n = tiered_through s;
  change_manifest : phase_rank (phase s) >= 2 -> recovery_manifest n = recovery_manifest s;
  change_claim : forall a b, recovery s = Some a -> recovery n = Some b -> claim_replaced now a b
}.

Lemma from_parts_Ok ph e ms act tiered rec manifest n :
  from_parts leader ph e ms act tiered rec manifest = Ok n <->
  n = MkStatus ph e ms act tiered rec manifest /\ status_validate n leader = Ok tt.
Proof.
  unfold from_parts. rewrite bind_Ok. split.
  - intros ([] & Hv & [= <-]). done.
  - intros [-> Hv]. by exists tt.
Qed.

Lemma claim_new_Ok who gen now c :
  claim_new who gen now = Ok c ->
  c = MkClaim who gen (now + RECOVERY_CLAIM_LIFETIME_MS) /\ claim_validate c = Ok tt.
Proof.
  unfold claim_new. rewrite bind_Ok. intros (e & He & H). open_ok H.
  apply ok_or_Ok, checked_add_i64_Some in He as [-> _]. by destruct x.
Qed.

Lemma claim_renew_Ok c who now c' :
  claim_renew c who now = Ok c' ->
  now < expires_at_ms c /\ claimant c = who /\ claimant c' = who /\
  generation c' = generation c /\ expires_at_ms c < expires_at_ms c'.
Proof.
  unfold claim_renew. rewrite reject_Ok, bind_Ok. intros (Hg & c'' & Hn & H). open_ok H.
  apply claim_new_Ok in Hn as [-> _]. guards. simpl in *. naive_solver lia.
Qed.

Lemma claim_take_over_Ok c who now c' :
  claim_take_over c who now = Ok c' ->
  expires_at_ms c <= now /\ claimant c' = who /\ generation c' = generation c + 1.
Proof.
  unfold claim_take_over. rewrite reject_Ok, bind_Ok. intros (Hg & g & H & Hn). guards.
  apply ok_or_Ok, checked_add_u64_Some in H as [-> _].
  apply claim_new_Ok in Hn as [-> _]. simpl. split_and!; done || lia.
Qed.

(** Validity decides the claim and the manifest from the phase. *)
Lemma valid_phase s :
  status_validate s leader = Ok tt ->
  (phase s = Phase.Recovering <-> is_Some (recovery s)) /\
  (phase_rank (phase s) < 2 -> recovery_manifest s = None).
Proof.
  unfold status_validate. intros H. open_ok H. unfold validate_phase in H.
  destruct (phase s), (recovery s), (recovery_manifest s); simpl in *; try done;
    (split; [split; [done || by intros [] | by intros || by eauto]| try done; try lia]).
Qed.

Lemma take_over_change s n who now current claim :
  phase s = Phase.Recovering -> recovery s = Some current ->
  status_validate s leader = Ok tt ->
  claim_take_over current who now = Ok claim ->
  from_parts leader Phase.Recovering (log_epoch s) (members s) (active s)
    (tiered_through s) (Some claim) None = Ok n ->
  log_change now s n.
Proof.
  intros Hp Hr Hv Ht [-> Hn]%from_parts_Ok. apply claim_take_over_Ok in Ht.
  constructor; simpl; try done; rewrite ?Hp; simpl; try lia.
  rewrite Hr. intros a b [= <-] [= <-]. right. tauto.
Qed.

Lemma begin_recovery_change s n who now :
  status_validate s leader = Ok tt ->
  begin_recovery s leader who now = Ok n -> log_change now s n.
Proof.
  intros Hv. unfold begin_recovery.
  destruct (phase s) eqn:Hp, (recovery s) as [current|] eqn:Hr; try discriminate.
  - intros (claim & [-> _]%claim_new_Ok & [-> Hn]%from_parts_Ok)%bind_Ok.
    constructor; simpl; rewrite ?Hp; simpl; try done; try lia. by rewrite Hr.
  - destruct (claimant current ≟ who) eqn:Hw; [case_match|]; intros Hs.
    + injection Hs as <-. constructor; rewrite ?Hp; simpl; try done; try lia.
      rewrite Hr. intros a b [= <-] [= <-]. left. split_and!; done || lia.
    + apply bind_Ok in Hs as (claim & Hc & Hs). eauto using take_over_change.
    + apply bind_Ok in Hs as (claim & Hc & Hs). eauto using take_over_change.
Qed.

Lemma log_step_change now s n :
  status_validate s leader = Ok tt -> log_step now s n -> log_change now s n.
Proof.
  intros Hv. destruct (valid_phase _ Hv) as [Hrec _].
  destruct 1 as [H|through H|who H|who gen H|who gen manifest H|H].
  - apply reject_Ok in H as [[Hp _]%orb_false_iff [-> Hn]%from_parts_Ok]. guards.
    rewrite Hp in *. constructor; simpl; rewrite ?Hp; simpl; done || lia.
  - apply reject_Ok in H as [[Hp Ht]%orb_false_iff [-> Hn]%from_parts_Ok]. guards.
    rewrite Hp in *. constructor; simpl; rewrite ?Hp; simpl; done || lia.
  - eauto using begin_recovery_change.
  - apply bind_Ok in H as (current & Hc%ok_or_Ok & (claim & Hr & [-> Hn]%from_parts_Ok)%bind_Ok).
    repeat case_match; try done. injection Hc as ->.
    assert (phase s = Phase.Recovering) as Hp by naive_solver.
    apply claim_renew_Ok in Hr.
    constructor; simpl; rewrite ?Hp; simpl; try done; try lia.
    rewrite H. intros a b [= <-] [= <-]. left. destruct_and!. split_and!; congruence || lia.
  - apply bind_Ok in H as (current & _ & [Hg [-> Hn]%from_parts_Ok]%reject_Ok). guards.
    destruct Hg as [[Hp _] _]. constructor; simpl; rewrite ?Hp; simpl; done || lia.
  - apply bind_Ok in H as (_ & _ & [Hg%negb_false_iff [-> Hn]%from_parts_Ok]%reject_Ok).
    constructor; simpl; try done; try lia. destruct (phase s); simpl; lia.
Qed.

(** What a whole run preserves. *)
Record log_progress (s n : NodeLogStatus) : Prop := {
  progress_valid : status_validate n leader = Ok tt;
  progress_epoch : log_epoch n = log_epoch s;
  progress_members : members n = members s;
  progress_active : active s = true -> active n = true;
  progress_tiered : tiered_through s <= tiered_through n;
  progress_rank : phase_rank (phase s) <= phase_rank (phase n);
  progress_closed : phase s <> Phase.Open ->
    active n = active s /\ tiered_through n = tiered_through s;
  progress_manifest : phase_rank (phase s) >= 2 -> recovery_manifest n = recovery_manifest s
}.

Lemma run_progress horizon s n :
  status_validate s leader = Ok tt -> log_run horizon s n -> log_progress s n.
Proof.
  intros Hv Hrun. induction Hrun as [s|s m n (now & _ & Hstep) Hrun IH].
  - constructor; done || lia.
  - apply log_step_change in Hstep as []; [|done]. destruct (IH change_valid0).
    constructor; [done|congruence|congruence|by auto|lia|lia| |].
    + intros Ho. assert (phase m <> Phase.Open).
      { intros E. rewrite E in *. by destruct (phase s). }
      destruct progress_closed0, change_closed0; try done. split; congruence.
    + intros H2. rewrite progress_manifest0 by lia. auto.
Qed.

(** Along a run a claim is only ever extended by its holder, or superseded by a
    larger generation after it expired. *)
Definition claim_succeeds (horizon : Z) (a b : NodeRecoveryClaim) : Prop :=
  (generation b = generation a /\ claimant b = claimant a /\ expires_at_ms a <= expires_at_ms b)
  \/ (generation a < generation b /\ expires_at_ms a <= horizon).

Lemma run_claim horizon s n a b :
  status_validate s leader = Ok tt -> log_run horizon s n ->
  recovery s = Some a -> recovery n = Some b -> claim_succeeds horizon a b.
Proof.
  intros Hv Hrun. revert a. induction Hrun as [s|s m n (now & Hnow & Hstep) Hrun IH]; intros a Ha Hb.
  - left. rewrite Ha in Hb. injection Hb as ->. split_and!; done || lia.
  - apply log_step_change in Hstep as Hc; [|done].
    pose proof (change_valid _ _ _ Hc) as Hvm.
    assert (phase m = Phase.Recovering) as Hp.
    { pose proof (change_rank _ _ _ Hc) as H1. pose proof (run_progress _ _ _ Hvm Hrun) as H2.
      apply progress_rank in H2.
      assert (phase s = Phase.Recovering) as Es by (apply valid_phase; eauto).
      assert (phase n = Phase.Recovering) as En
        by (apply valid_phase; [by eapply progress_valid, run_progress|eauto]).
      rewrite Es in H1. rewrite En in H2. destruct (phase m); simpl in *; lia || done. }
    apply valid_phase in Hp as [c Hmc]; [|done].
    pose proof (change_claim _ _ _ Hc a c Ha Hmc) as Hac.
    specialize (IH Hvm c Hmc Hb).
    unfold claim_replaced, claim_succeeds in *.
    destruct Hac as [(? & ? & ?)|[? ?]], IH as [(? & ? & ?)|[? ?]].
    + left. split_and!; congruence || lia.
    + right. lia.
    + right. lia.
    + right. lia.
Qed.

End Updates.

(** The node log only moves forward. Over any sequence of successful
    updates of a valid status the result is valid, the epoch and the enrolled
    members never change, an active log stays active, object coverage never
    regresses, the phase never goes back, coverage is frozen once recovery
    starts and the manifest is frozen once the log is sealed. *)
Theorem log_monotone leader horizon s n :
  status_validate s leader = Ok tt -> log_run leader horizon s n ->
  status_validate n leader = Ok tt /\
  log_epoch n = log_epoch s /\ members n = members s /\
  (active s = true -> active n = true) /\
  tiered_through s <= tiered_through n /\
  phase_rank (phase s) <= phase_rank (phase n) /\
  (phase s <> Phase.Open -> active n = active s /\ tiered_through n = tiered_through s) /\
  (phase s = Phase.Sealed \/ phase s = Phase.Retired -> recovery_manifest n = recovery_manifest s).
Proof.
  intros Hv Hrun. destruct (run_progress _ _ _ _ Hv Hrun). split_and!; try done.
  intros [E|E]; apply progress_manifest0; by rewrite E.
Qed.

(** C35: recovery claims are exclusive. If a session may read the log for
    recovery at [now] according to a status [s] it observed, and a later status
    [n], reached by updates decided no later than [now], lets a session read at
    [now], then both are the same session: deciding on a stale status never
    lets two recoverers read at once. *)
Theorem recovery_read_exclusive leader s n A B member member' e e' now :
  log_run leader now s n ->
  permits_recovery_read s leader A member e now = Ok tt ->
  permits_recovery_read n leader B member' e' now = Ok tt ->
  A = B.
Proof.
  intros Hrun HA HB. unfold permits_recovery_read in HA, HB.
  apply bind_Ok in HA as ([] & Hv & (a & Ha%ok_or_Ok & [HA _]%reject_Ok)%bind_Ok).
  apply bind_Ok in HB as ([] & _ & (b & Hb%ok_or_Ok & [HB _]%reject_Ok)%bind_Ok).
  guards. destruct (run_claim _ _ _ _ _ _ Hv Hrun Ha Hb) as [(? & ? & ?)|[? ?]]; [|lia].
  intuition congruence.
Qed.

(** Generations are fencing tokens. Once a claim of generation [g] has been
    superseded or its log sealed, every later renewal and every later seal
    presented with generation [g] is fenced, whoever presents it. *)
Theorem stale_claim_fenced leader horizon horizon' s m n a who now manifest :
  status_validate s leader = Ok tt ->
  recovery s = Some a ->
  log_run leader horizon s m -> from_option generation 0 (recovery m) <> generation a ->
  log_run leader horizon' m n ->
  renew_recovery n leader who (generation a) now = Err Error.Fenced /\
  seal_recovery n leader who (generation a) manifest = Err Error.Fenced.
Proof.
  intros Hv Ha Hsm Hm Hmn.
  pose proof (run_progress _ _ _ _ Hv Hsm) as Psm.
  pose proof (run_progress _ _ _ _ (progress_valid _ _ _ Psm) Hmn) as Pmn.
  unfold renew_recovery, seal_recovery.
  destruct (recovery n) as [b|] eqn:Hb; [|done]. simpl.
  assert (generation b <> generation a) as Hne.
  { assert (phase s = Phase.Recovering /\ phase n = Phase.Recovering) as [Es En]
      by (split; apply (valid_phase leader); eauto using progress_valid).
    apply progress_rank in Psm as H1. apply progress_rank in Pmn as H2.
    assert (is_Some (recovery m)) as [c Hc].
    { apply (valid_phase leader); [by eapply progress_valid|].
      rewrite Es in H1. rewrite En in H2. destruct (phase m); simpl in *; lia || done. }
    rewrite Hc in Hm. simpl in Hm.
    destruct (run_claim _ _ _ _ _ _ Hv Hsm Ha Hc) as [(? & ? & ?)|[? ?]]; [lia|].
    destruct (run_claim _ _ _ _ _ _ (progress_valid _ _ _ Psm) Hmn Hc Hb) as [(? & ? & ?)|[? ?]]; lia. }
  apply Z.eqb_neq in Hne. rewrite Hne, !orb_true_r. done.
Qed.

(** Recovery ends the log. Once [begin_recovery] succeeds no later status of
    that log authorizes an append, for any leader's follower or epoch. *)
Theorem recovery_closes_append leader horizon s m n who now member e :
  status_validate s leader = Ok tt ->
  begin_recovery s leader who now = Ok m -> log_run leader horizon m n ->
  permits_append n leader member e =
    Err (Error.PeerAuthorization "node-log append is outside the enrolled ensemble").
Proof.
  intros Hv Hb Hrun. apply begin_recovery_change in Hb as Hc; [|done].
  pose proof (run_progress _ _ _ _ (change_valid _ _ _ _ Hc) Hrun) as Hp.
  assert (phase m = Phase.Recovering) as Em.
  { unfold begin_recovery in Hb. clear -Hb.
    destruct (phase s) eqn:E, (recovery s); try discriminate Hb; [|repeat case_match];
      try (apply bind_Ok in Hb as (? & _ & [-> _]%from_parts_Ok); done).
    by injection Hb as <-. }
  unfold permits_append. rewrite (progress_valid _ _ _ Hp). simpl.
  pose proof (progress_rank _ _ _ Hp) as Hr. rewrite Em in Hr.
  destruct (phase n); simpl in *; done || lia.
Qed.

(** ** The process lease *)

(** [tokio::time::Instant] in milliseconds of the monotonic clock; the largest
    instant the platform can represent is a parameter. *)
(*@ node/lease.rs 25-28 LeaseState *)
Record LeaseState := MkLease { deadline : Z; fenced : bool }.

(*@ node/lease.rs 8-8 MAX_NODE_LEASE_MS *)
Definition MAX_NODE_LEASE_MS : Z := 60000.

(*@ node/lease.rs 155-161 lease_remaining *)
Definition lease_remaining (now_ms expires : Z) : Result Z :=
  ok_or (match checked_sub_i64 expires now_ms with
         | Some remaining =>
             if (1 <=? remaining) && (remaining <=? MAX_NODE_LEASE_MS)
             then Some remaining else None
         | None => None
         end) (Error.Node "node lease bounds are invalid").

Section Lease.
(** The latest representable monotonic instant. *)
Context (instant_max : Z).

(** [Instant::checked_add]. *)
Definition instant_add (t d : Z) : option Z :=
  if t + d <=? instant_max then Some (t + d) else None.

(** [in_runtime]: a Tokio runtime is current, so the watchdog can be spawned. *)
(*@ node/lease.rs 36-48 NodeLeaseGuard::new *)
Definition lease_new (in_runtime : bool) (now : Z) (now_ms expires : Z) : Result LeaseState :=
  remaining ← lease_remaining now_ms expires;
  if negb in_runtime then Err Error.RuntimeStart
  else Ok (MkLease (now + remaining) false).

(*@ node/lease.rs 51-71 NodeLeaseGuard::renew *)
Definition lease_renew (st : LeaseState) (now : Z) (now_ms expires : Z)
  : LeaseState * Result unit :=
  match lease_remaining now_ms expires with
  | Err e => (st, Err e)
  | Ok remaining =>
      match instant_add now remaining with
      | None => (st, Err (Error.Node "node lease deadline overflow"))
      | Some next =>
          if fenced st || (deadline st <=? now)
          then (MkLease (deadline st) true, Err Error.Fenced)
          else if next <=? deadline st
          then (st, Err (Error.Node "node lease deadline did not advance"))
          else (MkLease next (fenced st), Ok tt)
      end
  end.

(*@ node/lease.rs 74-83 NodeLeaseGuard::check *)
Definition lease_check (st : LeaseState) (now : Z) : LeaseState * Result unit :=
  if fenced st || (deadline st <=? now)
  then (MkLease (deadline st) true, Err Error.Fenced)
  else (st, Ok tt).

(*@ node/lease.rs 87-98 NodeLeaseGuard::remaining *)
Definition lease_time_left (st : LeaseState) (now : Z) : Z :=
  if fenced st then 0 else Z.max 0 (deadline st - now).

(*@ node/lease.rs 101-106 NodeLeaseGuard::fence *)
Definition lease_fence (st : LeaseState) : LeaseState := MkLease (deadline st) true.

(** The wake-up of the watchdog task: its sleep ended at [now]. It re-reads the
    deadline, which a renewal may have moved. *)
(*@ node/lease.rs 140-149 watchdog wake-up *)
Definition watchdog_wake (st : LeaseState) (now : Z) : LeaseState :=
  if deadline st <=? now then MkLease (deadline st) true else st.

Inductive LeaseOp :=
| OpRenew (now_ms expires : Z)
| OpCheck
| OpFence
| OpWatchdog.

(** One call on the shared guard at instant [now]; the mutex makes calls atomic. *)
Definition lease_op (st : LeaseState) (now : Z) (op : LeaseOp) : LeaseState * Result unit :=
  match op with
  | OpRenew now_ms expires => lease_renew st now now_ms expires
  | OpCheck => lease_check st now
  | OpFence => (lease_fence st, Ok tt)
  | OpWatchdog => (watchdog_wake st now, Ok tt)
  end.

Fixpoint lease_run (st : LeaseState) (ops : list (Z * LeaseOp)) : LeaseState :=
  match ops with
  | [] => st
  | (now, op) :: ops => lease_run (fst (lease_op st now op)) ops
  end.

(** The guard can no longer pass at [t] or later. *)
Definition lease_dead (t : Z) (st : LeaseState) : Prop := fenced st = true \/ deadline st <= t.

Lemma lease_dead_guard t t' st :
  lease_dead t st -> t <= t' -> fenced st || (deadline st <=? t') = true.
Proof. intros [->|H] Ht; [done|]. apply orb_true_intro. right. apply Z.leb_le. lia. Qed.

Lemma lease_op_dead t t' st op :
  lease_dead t st -> t <= t' -> lease_dead t (fst (lease_op st t' op)).
Proof.
  intros Hd Ht. pose proof (lease_dead_guard _ _ _ Hd Ht) as Hg.
  destruct op; simpl; unfold lease_renew, lease_check, watchdog_wake; rewrite ?Hg;
    repeat case_match; simpl; try done; by left.
Qed.

Lemma lease_run_dead t st ops :
  lease_dead t st -> Forall (fun o => t <= o.1) ops -> lease_dead t (lease_run st ops).
Proof.
  intros Hd Hops. revert st Hd. induction Hops as [|[t' op] ops Ht _ IH]; intros st Hd; simpl; [done|].
  by apply IH, lease_op_dead.
Qed.

Lemma lease_remaining_Ok now_ms expires r :
  lease_remaining now_ms expires = Ok r ->
  r = expires - now_ms /\ 1 <= r <= MAX_NODE_LEASE_MS.
Proof.
  unfold lease_remaining. rewrite ok_or_Ok. case_match eqn:E; [|done].
  apply checked_sub_i64_Some in E as [-> _]. case_match eqn:E; [|done].
  guards. naive_solver.
Qed.
End Lease.

(** C36: lease expiry is terminal. Once the guard is fenced, or an instant at or
    past its deadline is reached, no sequence of renewals, checks, fences and
    watchdog wake-ups at later instants revives it: every later check is fenced,
    no later renewal succeeds or moves the deadline, and no time remains. *)
Theorem lease_expiry_terminal instant_max st t ops t' now_ms expires :
  lease_dead t st -> Forall (fun o => t <= o.1) ops -> t <= t' ->
  let st' := lease_run instant_max st ops in
  (lease_check st' t').2 = Err Error.Fenced /\
  (lease_renew instant_max st' t' now_ms expires).2 <> Ok tt /\
  deadline (lease_renew instant_max st' t' now_ms expires).1 = deadline st' /\
  lease_time_left st' t' = 0.
Proof.
  intros Hd Hops Ht st'. pose proof (lease_run_dead instant_max _ _ _ Hd Hops) as Hd'.
  fold st' in Hd'. pose proof (lease_dead_guard _ _ _ Hd' Ht) as Hg.
  unfold lease_check, lease_renew, lease_time_left. rewrite Hg.
  split_and!; [done|by repeat case_match..|].
  destruct Hd' as [->|Hd']; [done|]. case_match; lia.
Qed.

Lemma lease_renew_deadline instant_max st now now_ms expires :
  deadline (lease_renew instant_max st now now_ms expires).1 = deadline st \/
  deadline (lease_renew instant_max st now now_ms expires).1 <= now + MAX_NODE_LEASE_MS.
Proof.
  unfold lease_renew. destruct (lease_remaining now_ms expires) as [r|] eqn:E; [|by left].
  apply lease_remaining_Ok in E as [_ Hr]. unfold instant_add.
  repeat case_match; simpl; try by left.
  right. repeat match goal with H : Some _ = Some _ |- _ => injection H as H end. lia.
Qed.

Lemma lease_run_deadline instant_max ops st :
  deadline (lease_run instant_max st ops) = deadline st \/
  exists now now_ms expires, (now, OpRenew now_ms expires) ∈ ops /\
    deadline (lease_run instant_max st ops) <= now + MAX_NODE_LEASE_MS.
Proof.
  revert st. induction ops as [|[now op] ops IH]; intros st; simpl; [by left|].
  destruct (IH (lease_op instant_max st now op).1) as [H|(i & a & b & Hin & H)].
  2: { right. exists i, a, b. split; [by right|done]. }
  rewrite H. destruct op as [now_ms expires| | |]; simpl;
    unfold lease_check, lease_fence, watchdog_wake.
  - destruct (lease_renew_deadline instant_max st now now_ms expires) as [E|E]; [by left|].
    right. exists now, now_ms, expires. split; [by left|done].
  - left. by case_match.
  - by left.
  - left. by case_match.
Qed.

(** A passing lease check proves a recent authoritative observation: a check
    at instant [t] succeeds only within 60 seconds after the guard was created
    or after some renewal in its history. *)
Theorem lease_proves_recency instant_max b t0 now_ms expires st ops t :
  lease_new b t0 now_ms expires = Ok st ->
  (lease_check (lease_run instant_max st ops) t).2 = Ok tt ->
  t < t0 + MAX_NODE_LEASE_MS \/
  exists i a e, (i, OpRenew a e) ∈ ops /\ t < i + MAX_NODE_LEASE_MS.
Proof.
  unfold lease_new. intros (r & [_ Hr]%lease_remaining_Ok & [_ [= <-]]%reject_Ok)%bind_Ok.
  unfold lease_check. case_match eqn:E; [done|]. guards. intros _.
  destruct (lease_run_deadline instant_max ops (MkLease (t0 + r) false))
    as [H|(i & a & e & Hin & H)].
  - left. simpl in H. lia.
  - right. exists i, a, e. split; [done|lia].
Qed.

(** ** Concrete statuses *)

Definition example_leader : NodeId := array_fill 16 x09.
Definition example_open : NodeLogStatus :=
  MkStatus Phase.Open 1 [array_fill 16 x01; array_fill 16 x02] true 7 None None.
Definition example_claimed : NodeLogStatus :=
  MkStatus Phase.Recovering 1 [array_fill 16 x01; array_fill 16 x02] true 7
    (Some (MkClaim (array_fill 16 x0a) 1 31000)) None.
Definition example_superseded : NodeLogStatus :=
  MkStatus Phase.Recovering 1 [array_fill 16 x01; array_fill 16 x02] true 7
    (Some (MkClaim (array_fill 16 x0b) 2 62000)) None.

Lemma example_begin :
  begin_recovery example_open example_leader (array_fill 16 x0a) 1000 = Ok example_claimed.
Proof. vm_compute. reflexivity. Qed.

Lemma example_take_over_step : log_step example_leader 32000 example_claimed example_superseded.
Proof. apply (log_begin _ _ _ _ (array_fill 16 x0b)). vm_compute. reflexivity. Qed.

Lemma example_take_over_run horizon :
  32000 <= horizon -> log_run example_leader horizon example_claimed example_superseded.
Proof. intros H. apply rtc_once. exists 32000. split; [done|apply example_take_over_step]. Qed.

Lemma log_monotone_witness :
  status_validate example_superseded example_leader = Ok tt /\
  7 <= tiered_through example_superseded.
Proof.
  destruct (log_monotone example_leader 32000 example_claimed example_superseded)
    as (H1 & _ & _ & _ & H2 & _);
    [vm_compute; reflexivity|by apply example_take_over_run|].
  split; [exact H1|exact H2].
Defined.

Lemma recovery_read_exclusive_witness :
  permits_recovery_read example_superseded example_leader (array_fill 16 x0b)
    (array_fill 16 x01) 1 40000 = Ok tt /\
  (array_fill 16 x0b : SessionId) = array_fill 16 x0b.
Proof.
  split; [vm_compute; reflexivity|].
  apply (recovery_read_exclusive example_leader example_superseded example_superseded
           (array_fill 16 x0b) (array_fill 16 x0b) (array_fill 16 x01) (array_fill 16 x02)
           1 1 40000);
    [constructor|vm_compute; reflexivity..].
Defined.

Lemma stale_claim_fenced_witness :
  renew_recovery example_superseded example_leader (array_fill 16 x0a) 1 30000 = Err Error.Fenced /\
  seal_recovery example_superseded example_leader (array_fill 16 x0a) 1 None = Err Error.Fenced.
Proof.
  apply (stale_claim_fenced example_leader 32000 32000 example_claimed example_superseded
           example_superseded (MkClaim (array_fill 16 x0a) 1 31000));
    [vm_compute; reflexivity|reflexivity|by apply example_take_over_run|discriminate|constructor].
Defined.

Lemma recovery_closes_append_witness :
  permits_append example_superseded example_leader (array_fill 16 x01) 1 =
    Err (Error.PeerAuthorization "node-log append is outside the enrolled ensemble").
Proof.
  apply (recovery_closes_append example_leader 32000 example_open example_claimed
           example_superseded (array_fill 16 x0a) 1000);
    [vm_compute; reflexivity|apply example_begin|by apply example_take_over_run].
Defined.

Lemma lease_expiry_terminal_witness :
  (lease_check (lease_run 1000000 (MkLease 100 false) [(120, OpRenew 0 50)]) 130).2
    = Err Error.Fenced.
Proof.
  apply (lease_expiry_terminal 1000000 (MkLease 100 false) 110 [(120, OpRenew 0 50)] 130 0 50);
    [right; vm_compute; discriminate|repeat constructor; vm_compute; discriminate|
     vm_compute; discriminate].
Defined.

Lemma lease_proves_recency_witness :
  70000 < 0 + MAX_NODE_LEASE_MS \/
  exists i a e, (i, OpRenew a e) ∈ [(50000, OpRenew 5 60005)] /\ 70000 < i + MAX_NODE_LEASE_MS.
Proof.
  apply (lease_proves_recency 1000000 true 0 0 60000 (MkLease 60000 false)
           [(50000, OpRenew 5 60005)] 70000); vm_compute; reflexivity.
Defined.
