(* ===== verification/FollowerRecords.v ===== *)
(** * FollowerRecords: the records of a follower lane

    Models the record framing of [crates/cellule-runtime/src/follower/]: the header a
    frame is stored under ([write_record], [parse_record_header]), the scan of one
    chunk file with the witnesses of an earlier scan ([scan_chunk], [finish_scan],
    [verified_record]), chunk names, and the reservation a lane's index holds.

    The theorems: scanning an open chunk keeps exactly its longest prefix of valid
    records, whatever bytes follow, and a closed chunk is accepted exactly when it is
    a sequence of valid records; what was written is what is found. *)

From Stdlib Require Import ZArith Lia.
From Stdlib Require Import Strings.Byte.
From stdpp Require Import base strings.
From stdpp Require Import list.
From S2P Require Import Prelude OrdMap Bytes Identity Text LtxTypes Ltx LtxCodec Recovery NodeFrame.

Local Open Scope bool_scope.

(** ** Errors: those of the runtime, of the LTX crate, of the file system *)

Module LaneErr.
Inductive LaneErr :=
| Runtime (e : Error)
| Ltx (e : LtxError)
| UnexpectedEof
| NotFound
| Io.
End LaneErr.
Abbreviation LaneErr := LaneErr.LaneErr.
Abbreviation LaneResult := (result LaneErr).

(** [Error::Node]. *)
Definition node_error (message : string) : LaneErr := LaneErr.Runtime (Error.Node message).
Definition capacity_error : LaneErr := LaneErr.Runtime (Error.Capacity "follower lane index").

(** ** Constants and data *)

(*@ follower/mod.rs 33-33 RECORD_MAGIC *)
Definition RECORD_MAGIC : list byte := ["C"; "F"; "R"; "1"]%byte.
(*@ follower/mod.rs 34-34 RECORD_HEADER_BYTES *)
Definition RECORD_HEADER_BYTES : Z := 52.
(*@ follower/mod.rs 37-37 ROTATE_BYTES *)
Definition ROTATE_BYTES : Z := 1048576.
(*@ follower/mod.rs 43-43 INDEX_BYTES_PER_RECORD *)
Definition INDEX_BYTES_PER_RECORD : Z := 128.
(*@ follower/mod.rs 44-44 MAX_FOLLOWER_INDEX_BYTES *)
Definition MAX_FOLLOWER_INDEX_BYTES : Z := 268435456.

(*@ follower/mod.rs 80-84 Lane *)
Record Lane := MkLane { leader : SessionId; epoch : Z }.

(** A record's location. Every chunk of a lane lives in its one [chunks] directory, so
    that a path is the name of the file. *)
(*@ follower/records/mod.rs 15-22 StoredRecord *)
Record StoredRecord := MkRecord {
  sequence : Z;
  digest : Digest;
  path : str;
  offset : Z;
  length_of : Z
}.

(** The bytes a reservation holds of the shared count. *)
(*@ follower/records/mod.rs 23-26 IndexReservation *)
Record IndexReservation := MkReservation { reserved : Z }.

(*@ follower/records/mod.rs 94-103 LaneMemory *)
Record LaneMemory := MkMemory {
  mlane : Lane;
  mlimits : Limits;
  records : OrdMap StoredRecord;
  open_first : option Z;
  open_last : option Z;
  index : IndexReservation;
  needs_reconciliation : bool;
  covered_through : Z
}.

#[export] Instance Lane_eq_dec : EqDecision Lane.
Proof. solve_decision. Defined.
#[export] Instance StoredRecord_eq_dec : EqDecision StoredRecord.
Proof. solve_decision. Defined.

(** ** The index reservation

    Each operation takes the shared count and returns it with the reservation; the
    lock is held throughout. *)
Module Reservation.
(*@ follower/records/mod.rs 28-43 IndexReservation::new *)
Definition new (used bytes : Z) : LaneResult (Z * IndexReservation) :=
  next ← ok_or (checked_add_u64 used bytes) capacity_error;
  if MAX_FOLLOWER_INDEX_BYTES <? next then Err capacity_error else Ok (next, MkReservation bytes).

(** The second addition cannot fail: a reservation is part of the shared count, which
    the first one has bounded. *)
(*@ follower/records/mod.rs 45-65 IndexReservation::grow *)
Definition grow (used : Z) (r : IndexReservation) (additional : Z) : LaneResult (Z * IndexReservation) :=
  if additional =? 0 then Ok (used, r)
  else
    next ← ok_or (checked_add_u64 used additional) capacity_error;
    if MAX_FOLLOWER_INDEX_BYTES <? next then Err capacity_error
    else
      bytes ← ok_or (checked_add_u64 (reserved r) additional) capacity_error;
      Ok (next, MkReservation bytes).

(*@ follower/records/mod.rs 67-76 IndexReservation::shrink_to *)
Definition shrink_to (used : Z) (r : IndexReservation) (bytes : Z) : Z * IndexReservation :=
  if reserved r <=? bytes then (used, r)
  else (saturating_sub_u used (reserved r - bytes), MkReservation bytes).

(*@ follower/records/mod.rs 78-85 IndexReservation::resize_to *)
Definition resize_to (used : Z) (r : IndexReservation) (bytes : Z) : LaneResult (Z * IndexReservation) :=
  if reserved r <? bytes then grow used r (bytes - reserved r) else Ok (shrink_to used r bytes).

(*@ follower/records/mod.rs 87-93 IndexReservation::drop *)
Definition release (used : Z) (r : IndexReservation) : Z := saturating_sub_u used (reserved r).
End Reservation.

(** ** Records *)

(*@ follower/records/append.rs 377-389 write_record *)
Definition write_record (sequence : Z) (digest : Digest) (encoded : list byte) : list byte :=
  RECORD_MAGIC ++ to_le 8 sequence ++ to_le 8 (len encoded) ++ as_bytes digest ++ encoded.

(** The header is an array of 52 bytes: the conversions of its fields cannot fail. *)
(*@ follower/records/append.rs 390-413 parse_record_header *)
Definition parse_record_header (header : list byte) : LaneResult (Z * Z * Digest) :=
  if bool_decide (take 4 header <> RECORD_MAGIC) then Err (node_error "invalid follower record magic")
  else
    let sequence := from_le (take 8 (drop 4 header)) in
    let length := from_le (take 8 (drop 12 header)) in
    digest ← ok_or (array_of 32 (drop 20 header)) (node_error "invalid follower record digest");
    if (sequence =? 0) || (length =? 0) then Err (node_error "invalid follower record header")
    else Ok (sequence, length, digest).

(*@ follower/records/append.rs 621-628 parse_chunk_name *)
Definition parse_chunk_name (name : str) : option (Z * Z) :=
  (* strip_suffix(".log") *)
  if (4 <=? len name) && bool_decide (drop (length name - 4) name = text ".log") then
    let value := take (length name - 4) name in
    (* split_once('-') *)
    i ← fst <$> list_find (fun b => b = "-"%byte) value;
    let first := take i value in
    let last := drop (S i) value in
    if negb (len first =? 20) || negb (len last =? 20) then None
    else
      first ← parse_u64 first;
      last ← parse_u64 last;
      Some (first, last)
  else None.

(** [format!("{first:020}-{last:020}.log")]. *)
Definition padded (z : Z) : str := let s := to_string_u64 z in repeat "0"%byte (20 - length s) ++ s.
(*@ follower/records/append.rs 447-447 rotate_open *)
Definition chunk_name (first last : Z) : str := padded first ++ text "-" ++ padded last ++ text ".log".

Definition OPEN_LOG : str := text "open.log".

(** ** Scanning a chunk *)

(*@ follower/records/scan.rs 449-464 verification_bounds *)
Definition verification_bounds (l : Limits) : Z * Z * Z * Z * Z :=
  (max_database_bytes l, max_capture_bytes l, max_file_bytes l, max_plan_bytes l, max_segments l).

(*@ follower/records/scan.rs 436-447 verified_record *)
Definition verified_record (known : option LaneMemory) (lane : Lane) (limits : Limits) (seq : Z) : option StoredRecord :=
  known ← known;
  if bool_decide (mlane known <> lane) || bool_decide (verification_bounds (mlimits known) <> verification_bounds limits)
  then None else om_lookup seq (records known).

(** What a scan returns: the records found and, when the file is cut, its new length. *)
Definition Scan : Type := list StoredRecord * option Z.

(** The rejection of a suffix: cut it off, or fail. *)
Definition cut (truncate_suffix : bool) (found : list StoredRecord) (valid_bytes : Z) (e : LaneErr) : LaneResult Scan :=
  if truncate_suffix then Ok (found, Some valid_bytes) else Err e.

(** [file_len] is where [seek(SeekFrom::End(0))] ends up. *)
(*@ follower/records/scan.rs 465-479 finish_scan *)
Definition finish_scan (file_len : Z) (found : list StoredRecord) (valid_bytes : Z) (truncate_suffix : bool) : LaneResult Scan :=
  if negb (file_len =? valid_bytes) then
    cut truncate_suffix found valid_bytes (node_error "sealed follower chunk has a torn suffix")
  else Ok (found, None).

Section Scan.
Context `{Crc64, Blake3, Lz4Flex}.

(** The verdict on one record: accepted, rejected as a suffix, or an error even of an
    open chunk. *)
Inductive Verdict := Accept | Suffix (e : LaneErr) | Fatal (e : LaneErr).

Definition differs (r : StoredRecord) (sequence length : Z) (digest : Digest) : bool :=
  negb (FollowerRecords.sequence r =? sequence) || negb (length_of r =? length) || bool_decide (FollowerRecords.digest r <> digest).

(** The decision of one turn of the loop over a record that was read in full. *)
(*@ follower/records/scan.rs 379-420 scan_chunk *)
Definition check_record (lane : Lane) (limits : Limits) (known : option LaneMemory)
    (sequence : Z) (digest : Digest) (encoded : list byte) : Verdict :=
  let previous := verified_record known lane limits sequence in
  let unchanged := is_some_and (fun record =>
    (FollowerRecords.sequence record =? sequence) && (length_of record =? len encoded)
    && bool_decide (FollowerRecords.digest record = digest) && bool_decide (blake3 encoded = digest)) previous in
  if unchanged then Accept
  else
    match inspect_node_frame encoded limits with
    | Err e => Suffix (LaneErr.Ltx e)
    | Ok frame =>
        if bool_decide (frame_digest frame <> digest) then Suffix (node_error "stored follower record digest differs")
        else
          let scope := Frame.scope frame in
          if negb (Scope.node_sequence scope =? sequence) || bool_decide (Scope.leader_session scope <> leader lane)
             || negb (Scope.log_epoch scope =? epoch lane)
          then Suffix (node_error "stored follower record scope differs")
          else if is_some_and (fun r => differs r sequence (len encoded) digest) previous
                  && is_none_or (fun memory => covered_through memory <? sequence) known
          then Fatal (node_error "stored follower record changed after index")
          else Accept
    end.

(** One turn of the loop over the bytes not yet read: the end of the file, a suffix to
    reject, an error, or a record and the bytes after it. *)
Inductive Turn :=
| Eof
| Rejected (e : LaneErr)
| Failed (e : LaneErr)
| Found (sequence length : Z) (digest : Digest) (encoded rest : list byte).

(*@ follower/records/scan.rs 338-420 scan_chunk *)
Definition scan_turn (lane : Lane) (limits : Limits) (known : option LaneMemory) (rest : list byte) : Turn :=
  match read_exact (Z.to_nat RECORD_HEADER_BYTES) rest with
  | None => Eof
  | Some (header, rest) =>
      match parse_record_header header with
      | Err e => Rejected e
      | Ok (sequence, length, digest) =>
          if (saturating_add_u64 (max_capture_bytes limits) MAX_NODE_FRAME_HEADER_BYTES <? length) || (u64_max <? length)
          then Rejected (node_error "stored follower frame exceeds limit")
          else
            match read_exact (Z.to_nat length) rest with
            | None => Rejected LaneErr.UnexpectedEof
            | Some (encoded, rest) =>
                match check_record lane limits known sequence digest encoded with
                | Suffix e => Rejected e
                | Fatal e => Failed e
                | Accept => Found sequence length digest encoded rest
                end
            end
      end
  end.

(** The loop. A turn that goes on reads at least a header, so that fuel for every byte is
    enough: without fuel nothing is left to read. *)
(*@ follower/records/scan.rs 334-434 scan_chunk *)
Fixpoint scan_loop (fuel : nat) (file_len : Z) (path : str) (lane : Lane) (limits : Limits) (truncate_suffix : bool)
    (known : option LaneMemory) (rest : list byte) (found : list StoredRecord) (valid_bytes : Z) : LaneResult Scan :=
  match fuel with
  | O => finish_scan file_len found valid_bytes truncate_suffix
  | S fuel =>
      match scan_turn lane limits known rest with
      | Eof => finish_scan file_len found valid_bytes truncate_suffix
      | Rejected e => cut truncate_suffix found valid_bytes e
      | Failed e => Err e
      | Found sequence length digest encoded rest =>
          let record := MkRecord sequence digest path (valid_bytes + RECORD_HEADER_BYTES) (len encoded) in
          valid_bytes ← ok_or (checked_add_u64 valid_bytes (RECORD_HEADER_BYTES + length))
                              (node_error "follower chunk length overflow");
          scan_loop fuel file_len path lane limits truncate_suffix known rest (found ++ [record]) valid_bytes
      end
  end.

(** The scan of the file's bytes. *)
(*@ follower/records/scan.rs 318-434 scan_chunk *)
Definition scan_bytes (path : str) (lane : Lane) (limits : Limits) (truncate_suffix : bool) (known : option LaneMemory)
    (bytes : list byte) : LaneResult Scan :=
  scan_loop (length bytes) (len bytes) path lane limits truncate_suffix known bytes [] 0.

(** The bytes a scan leaves in the file. *)
Definition scanned (bytes : list byte) (s : Scan) : list byte :=
  match s.2 with Some n => take (Z.to_nat n) bytes | None => bytes end.
End Scan.

(** * Proofs *)

Section ScanProofs.
Context `{Crc64, Blake3, Lz4Flex}.

(** A frame with the sequence it carries; it is valid in a lane when it inspects to a
    frame of that lane and sequence. *)
Definition Body : Type := Z * list byte.

Definition valid_body (lane : Lane) (limits : Limits) (b : Body) : bool :=
  match inspect_node_frame b.2 limits with
  | Ok f => (Scope.node_sequence (Frame.scope f) =? b.1) && bool_decide (Scope.leader_session (Frame.scope f) = leader lane)
            && (Scope.log_epoch (Frame.scope f) =? epoch lane)
  | Err _ => false
  end.

Definition record_of (b : Body) : list byte := write_record b.1 (blake3 b.2) b.2.
Definition log (bs : list Body) : list byte := concat (map record_of bs).

(** Where the bodies of a chunk lie. *)
Fixpoint locate (path : str) (base : Z) (bs : list Body) : list StoredRecord :=
  match bs with
  | [] => []
  | b :: bs => MkRecord b.1 (blake3 b.2) path (base + RECORD_HEADER_BYTES) (len b.2)
               :: locate path (base + RECORD_HEADER_BYTES + len b.2) bs
  end.

(** No valid record starts here. *)
Definition stops (lane : Lane) (limits : Limits) (tail : list byte) : Prop :=
  forall b rest, valid_body lane limits b = true -> tail <> record_of b ++ rest.

Lemma log_cons b bs : log (b :: bs) = record_of b ++ log bs.
Proof. done. Qed.
Lemma log_single b : log [b] = record_of b.
Proof. unfold log. cbn [map concat]. apply app_nil_r. Qed.
Lemma log_app bs bs' : log (bs ++ bs') = log bs ++ log bs'.
Proof. unfold log. by rewrite map_app, concat_app. Qed.
Lemma len_record b : len (record_of b) = RECORD_HEADER_BYTES + len b.2.
Proof.
  unfold record_of, write_record. rewrite !len_app, !len_to_le, len_array. change (len RECORD_MAGIC) with 4. unfold RECORD_HEADER_BYTES. lia.
Qed.

(** What validity of a body implies of its size and sequence. *)
Lemma valid_body_facts lane limits b : valid_body lane limits b = true ->
  u64_ok b.1 /\ b.1 <> 0 /\ 240 <= len b.2 <= u64_max
  /\ len b.2 <= saturating_add_u64 (max_capture_bytes limits) MAX_NODE_FRAME_HEADER_BYTES.
Proof.
  unfold valid_body. destruct (inspect_node_frame b.2 limits) as [f|e] eqn:E; [|done]. intros Hv.
  apply andb_true_iff in Hv as [[Hs _]%andb_true_iff _]. guards_in Hs.
  apply inspect_frame_Ok in E as ([Hsc _ Hb Hfit He] & Hb2 & Hw & _ & _). rewrite <- Hs, <- Hb2, He, len_app, len_envelope.
  pose proof (header_len_bounds (Frame.scope f) (Frame.first_commit_sequence f)) as Hh. pose proof (len_nonneg (Frame.body f)).
  apply validate_body_Ok in Hb as (Hc & _). unfold validate_scope in Hsc. apply reject_Ok in Hsc as [Hg _].
  unfold saturating_add_u64, MAX_NODE_FRAME_HEADER_BYTES, HEADER_BYTES.
  repeat (apply orb_false_iff in Hg as [Hg ?]). guards. split_and!; try lia; apply Hw.
Qed.

(** ** Headers *)

Definition header_of (s n : Z) (d : Digest) : list byte := RECORD_MAGIC ++ to_le 8 s ++ to_le 8 n ++ as_bytes d.

Lemma record_header b : record_of b = header_of b.1 (len b.2) (blake3 b.2) ++ b.2.
Proof. unfold record_of, write_record, header_of. by rewrite <- !app_assoc. Qed.

Lemma length_header s n d : length (header_of s n d) = Z.to_nat RECORD_HEADER_BYTES.
Proof. unfold header_of. rewrite !length_app, !length_to_le, as_bytes_length. done. Qed.

Lemma parse_header_of s n d : u64_ok s -> s <> 0 -> u64_ok n -> n <> 0 -> parse_record_header (header_of s n d) = Ok (s, n, d).
Proof.
  intros Hs Hs0 Hn Hn0. unfold parse_record_header, header_of. unfold u64_ok, u64_max in *.
  rewrite (take_app_length' RECORD_MAGIC) by done. rewrite bool_decide_eq_false_2 by (by intros []).
  rewrite (drop_app_length' RECORD_MAGIC) by done.
  assert (drop 12 (RECORD_MAGIC ++ to_le 8 s ++ to_le 8 n ++ as_bytes d) = to_le 8 n ++ as_bytes d) as ->
    by (rewrite app_assoc; apply drop_app_length'; by rewrite length_app, length_to_le).
  assert (drop 20 (RECORD_MAGIC ++ to_le 8 s ++ to_le 8 n ++ as_bytes d) = as_bytes d) as ->
    by (rewrite !app_assoc; apply drop_app_length'; by rewrite !length_app, !length_to_le).
  rewrite !(take_app_length' (to_le 8 _)) by (by rewrite length_to_le).
  rewrite array_of_as_bytes, !from_to_le_small by (change (256 ^ Z.of_nat 8) with 18446744073709551616; lia).
  cbn [ok_or mbind result_bind]. by rewrite (proj2 (Z.eqb_neq _ _) Hs0), (proj2 (Z.eqb_neq _ _) Hn0).
Qed.

Lemma parse_header_Ok h s n d : length h = Z.to_nat RECORD_HEADER_BYTES -> parse_record_header h = Ok (s, n, d) ->
  h = header_of s n d /\ u64_ok s /\ u64_ok n /\ n <> 0.
Proof.
  intros Hl. unfold parse_record_header. intros [Hm Hk]%reject_Ok. apply bool_decide_eq_false, dec_stable in Hm.
  apply bind_Ok in Hk as (d' & Hd%ok_or_Ok%array_of_Some & Hk). apply reject_Ok in Hk as [Hz Hk].
  apply orb_false_iff in Hz as [_ Hn0]. guards_in Hn0.
  apply Ok_inj in Hk. injection Hk as <- <- <-. change (Z.to_nat RECORD_HEADER_BYTES) with 52%nat in Hl.
  assert (length (take 8 (drop 4 h)) = 8%nat) as L1 by (rewrite length_take, length_drop; lia).
  assert (length (take 8 (drop 12 h)) = 8%nat) as L2 by (rewrite length_take, length_drop; lia).
  pose proof (from_le_bound (take 8 (drop 4 h))) as B1. pose proof (from_le_bound (take 8 (drop 12 h))) as B2.
  rewrite L1 in B1. rewrite L2 in B2. change (256 ^ Z.of_nat 8) with 18446744073709551616 in *.
  split; [|unfold u64_ok, u64_max; split_and!; try lia; done].
  pose proof (to_from_le (take 8 (drop 4 h))) as E1. rewrite L1 in E1.
  pose proof (to_from_le (take 8 (drop 12 h))) as E2. rewrite L2 in E2.
  unfold header_of. rewrite <- Hm, E1, E2, Hd.
  rewrite <- (take_drop 4 h) at 1. f_equal. rewrite <- (take_drop 8 (drop 4 h)) at 1. f_equal. rewrite drop_drop.
  rewrite <- (take_drop 8 (drop (4 + 8) h)) at 1. f_equal. by rewrite drop_drop.
Qed.

(** ** One turn *)

(** A valid record is accepted, or refused for good by a witness that it contradicts. *)
Lemma check_record_any lane limits known b : valid_body lane limits b = true ->
  check_record lane limits known b.1 (blake3 b.2) b.2 = Accept
  \/ exists e, check_record lane limits known b.1 (blake3 b.2) b.2 = Fatal e /\ known <> None.
Proof.
  intros Hv. unfold valid_body in Hv. unfold check_record.
  lazymatch goal with |- (if ?u then _ else _) = _ \/ _ => destruct u end; [by left|].
  destruct (inspect_node_frame b.2 limits) as [f|e] eqn:E; [|done].
  pose proof (inspect_frame_Ok _ _ _ E) as (_ & He & _). unfold frame_digest. rewrite He.
  rewrite bool_decide_eq_false_2 by (by intros []). apply andb_true_iff in Hv as [[Hs Hl]%andb_true_iff Hep].
  apply bool_decide_eq_true in Hl. rewrite Hs, Hep, (bool_decide_eq_false_2 (_ <> leader lane)) by (by intros Hn).
  cbn [negb orb]. destruct known as [m|]; [|by left]. case_match; [|by left]. right. by eexists.
Qed.

Lemma check_record_cold lane limits s d e : check_record lane limits None s d e = Accept ->
  d = blake3 e /\ valid_body lane limits (s, e) = true.
Proof.
  unfold check_record, valid_body. cbn [verified_record mbind option_bind is_some_and snd fst].
  destruct (inspect_node_frame e limits) as [f|] eqn:E; [|done].
  pose proof (inspect_frame_Ok _ _ _ E) as (_ & He & _). unfold frame_digest. rewrite He.
  case_match eqn:Ed; [done|]. apply bool_decide_eq_false, dec_stable in Ed. case_match eqn:Es; [done|]. intros _.
  split; [done|]. apply orb_false_iff in Es as [[Es El]%orb_false_iff Ep]. apply negb_false_iff in Es, Ep.
  rewrite Es, Ep. apply bool_decide_eq_false, dec_stable in El. by rewrite bool_decide_eq_true_2.
Qed.

Lemma scan_turn_any lane limits known b rest : valid_body lane limits b = true ->
  scan_turn lane limits known (record_of b ++ rest) = Found b.1 (len b.2) (blake3 b.2) b.2 rest
  \/ exists e, scan_turn lane limits known (record_of b ++ rest) = Failed e /\ known <> None.
Proof.
  intros Hv. pose proof (valid_body_facts _ _ _ Hv) as (Hs & Hs0 & Hl & Hm).
  unfold scan_turn. rewrite record_header, <- app_assoc, <- (length_header b.1 (len b.2) (blake3 b.2)), read_exact_app.
  rewrite parse_header_of by (unfold u64_ok; lia || done).
  rewrite (proj2 (Z.ltb_ge _ _) Hm), (proj2 (Z.ltb_ge _ _)) by lia. cbn [orb].
  replace (Z.to_nat (len b.2)) with (length b.2) by (unfold len; lia). rewrite read_exact_app.
  destruct (check_record_any lane limits known b Hv) as [->|(e & -> & Hk)]; [by left|right; by eexists].
Qed.

Lemma scan_turn_record lane limits b rest : valid_body lane limits b = true ->
  scan_turn lane limits None (record_of b ++ rest) = Found b.1 (len b.2) (blake3 b.2) b.2 rest.
Proof. intros Hv. destruct (scan_turn_any lane limits None b rest Hv) as [->|(e & _ & [])]; done. Qed.

(** Without witnesses a record that is found is a valid one. *)
Lemma scan_turn_cold lane limits rest s n d e rest' : scan_turn lane limits None rest = Found s n d e rest' ->
  n = len e /\ d = blake3 e /\ valid_body lane limits (s, e) = true /\ rest = record_of (s, e) ++ rest'.
Proof.
  unfold scan_turn. destruct (read_exact _ rest) as [[h r]|] eqn:Eh; [|done].
  apply read_exact_Some in Eh as [-> Hh]. destruct (parse_record_header h) as [[[s' n'] d']|] eqn:Ep; [|done].
  apply parse_header_Ok in Ep as (-> & Hs & Hn & Hn0); [|done]. case_match; [done|].
  destruct (read_exact _ r) as [[e' r']|] eqn:Eb; [|done]. apply read_exact_Some in Eb as [-> Hb].
  destruct (check_record lane limits None s' d' e') eqn:Ec; [|done..]. intros [= <- <- <- <- <-].
  apply check_record_cold in Ec as [-> Hv]. unfold u64_ok in Hn.
  assert (n' = len e') as -> by (unfold len; lia).
  split_and!; try done. by rewrite record_header, <- app_assoc.
Qed.

(** ** The loop *)

(** The scan stops at these bytes without an error of its own. *)
Definition halts (lane : Lane) (limits : Limits) (known : option LaneMemory) (tail : list byte) : Prop :=
  match scan_turn lane limits known tail with Eof | Rejected _ => True | _ => False end.

Lemma stops_halts lane limits tail : stops lane limits tail -> halts lane limits None tail.
Proof.
  unfold halts. intros Hs. destruct (scan_turn lane limits None tail) eqn:E; try done.
  - unfold scan_turn in E. repeat (case_match; try done). injection E as <-.
    unfold check_record in *. cbn [verified_record mbind option_bind is_some_and andb] in *. repeat (case_match; try done).
  - apply scan_turn_cold in E as (_ & _ & Hv & ->). by destruct (Hs _ rest Hv).
Qed.

(** A record that was not written to its end. *)
Definition torn (b : Body) (tail : list byte) : Prop := exists rest, rest <> [] /\ record_of b = tail ++ rest.

Lemma torn_halts lane limits known b tail : valid_body lane limits b = true -> torn b tail -> halts lane limits known tail.
Proof.
  intros Hv (rest & Hr & Hb). pose proof (valid_body_facts _ _ _ Hv) as (Hs & Hs0 & Hl & Hm). unfold halts, scan_turn.
  destruct (read_exact _ tail) as [[h r]|] eqn:Eh; [|done]. apply read_exact_Some in Eh as [-> Hh].
  rewrite record_header, <- app_assoc in Hb. apply app_inj_1 in Hb as [<- Hb]; [|by rewrite length_header].
  rewrite parse_header_of by (unfold u64_ok; lia || done).
  rewrite (proj2 (Z.ltb_ge _ _) Hm), (proj2 (Z.ltb_ge _ _)) by lia. cbn [orb].
  destruct (read_exact _ r) as [[e r']|] eqn:Eb; [|done]. apply read_exact_Some in Eb as [-> He].
  rewrite Hb, !len_app in He. unfold len in He. destruct rest; [done|]. cbn [length] in He. lia.
Qed.

(** What a scan that cuts suffixes returns at the end. *)
Definition ended (tail : list byte) (found : list StoredRecord) (valid_bytes : Z) : Scan :=
  (found, if decide (tail = []) then None else Some valid_bytes).

Lemma scan_halts fuel file_len path lane limits t known tail found valid_bytes :
  halts lane limits known tail -> file_len = valid_bytes + len tail -> (length tail <= fuel)%nat ->
  match scan_loop fuel file_len path lane limits t known tail found valid_bytes with
  | Ok s => (t = true \/ tail = []) /\ s = ended tail found valid_bytes
  | Err _ => t = false /\ tail <> []
  end.
Proof.
  intros Hh -> Hf. assert (match finish_scan (valid_bytes + len tail) found valid_bytes t with
    | Ok s => (t = true \/ tail = []) /\ s = ended tail found valid_bytes | Err _ => t = false /\ tail <> [] end) as Hfin.
  { unfold finish_scan, cut, ended. case_decide as Ht.
    - subst tail. rewrite len_nil, Z.add_0_r, Z.eqb_refl. cbn [negb]. auto.
    - destruct tail as [|x tail]; [done|]. rewrite len_cons. pose proof (len_nonneg tail).
      rewrite (proj2 (Z.eqb_neq _ _)) by lia. cbn [negb]. destruct t; auto. }
  destruct fuel as [|fuel]; [done|]. cbn [scan_loop]. unfold halts in Hh.
  destruct (scan_turn lane limits known tail) as [|e|e|] eqn:E; try done.
  assert (tail <> []) as Ht by (by intros ->). unfold cut, ended. rewrite decide_False by done. destruct t; auto.
Qed.

Lemma scan_loop_any lane limits fuel fl path t known bs tail found n :
  Forall (fun b => valid_body lane limits b = true) bs -> 0 <= n -> n + len (log bs) <= u64_max ->
  scan_loop (length bs + fuel) fl path lane limits t known (log bs ++ tail) found n
  = scan_loop fuel fl path lane limits t known tail (found ++ locate path n bs) (n + len (log bs))
  \/ exists e, scan_loop (length bs + fuel) fl path lane limits t known (log bs ++ tail) found n = Err e /\ known <> None.
Proof.
  revert found n. induction bs as [|b bs IH]; intros found n Hbs Hpos Hmax.
  - cbn [log map concat locate length Nat.add app]. rewrite app_nil_r, len_nil, Z.add_0_r. by left.
  - apply Forall_cons in Hbs as [Hv Hbs]. rewrite log_cons, len_app, len_record in Hmax.
    pose proof (len_nonneg b.2). pose proof (len_nonneg (log bs)). unfold RECORD_HEADER_BYTES in *.
    rewrite log_cons, <- app_assoc. cbn [length Nat.add scan_loop locate].
    destruct (scan_turn_any lane limits known b (log bs ++ tail) Hv) as [->|(e & -> & Hk)]; [|right; by eexists].
    rewrite (proj2 (ok_or_Ok (checked_add_u64 n (RECORD_HEADER_BYTES + len b.2)) _ (n + RECORD_HEADER_BYTES + len b.2)))
      by (apply checked_add_u64_Some; unfold RECORD_HEADER_BYTES; lia).
    cbn [mbind result_bind].
    destruct (IH (found ++ [MkRecord b.1 (blake3 b.2) path (n + RECORD_HEADER_BYTES) (len b.2)]) (n + RECORD_HEADER_BYTES + len b.2))
      as [->|(e & -> & Hk)]; [done|unfold RECORD_HEADER_BYTES; lia..| |right; by eexists].
    left. rewrite <- app_assoc, len_app, len_record. cbn [app]. f_equal. unfold RECORD_HEADER_BYTES. lia.
Qed.

(** Every byte string is a sequence of valid records followed by bytes that do not start
    with one. *)
Lemma split_log lane limits bytes : exists bs tail,
  bytes = log bs ++ tail /\ Forall (fun b => valid_body lane limits b = true) bs /\ stops lane limits tail.
Proof.
  remember (length bytes) as n eqn:Hn. assert (length bytes <= n)%nat as Hle by lia. clear Hn. revert bytes Hle.
  induction n as [|n IH]; intros bytes Hle.
  - exists [], bytes. split_and!; [done..|]. intros b rest Hv ->. pose proof (len_record b). rewrite length_app in Hle.
    pose proof (len_nonneg b.2). unfold len, RECORD_HEADER_BYTES in *. lia.
  - destruct (scan_turn lane limits None bytes) as [| | |s k d e rest] eqn:E.
    4: { apply scan_turn_cold in E as (_ & _ & Hv & ->).
         destruct (IH rest) as (bs & tail & -> & Hbs & Ht).
         { pose proof (len_record (s, e)). pose proof (len_nonneg e). rewrite length_app in Hle. unfold len, RECORD_HEADER_BYTES in *. cbn [snd] in *. lia. }
         exists ((s, e) :: bs), tail. rewrite log_cons, <- app_assoc. auto. }
    all: exists [], bytes; split_and!; [done..|]; intros b rest Hv ->; by rewrite (scan_turn_record lane limits b rest Hv) in E.
Qed.

(** Records are self-delimiting. *)
Lemma log_prefix lane limits bs bs' rest tail :
  Forall (fun b => valid_body lane limits b = true) bs -> Forall (fun b => valid_body lane limits b = true) bs' ->
  stops lane limits tail -> log bs ++ rest = log bs' ++ tail -> bs `prefix_of` bs'.
Proof.
  intros Hbs Hbs' Ht. revert bs' Hbs'. induction bs as [|b bs IH]; intros bs' Hbs' He; [apply prefix_nil|].
  apply Forall_cons in Hbs as [Hv Hbs]. rewrite log_cons, <- app_assoc in He. destruct bs' as [|b' bs'].
  - cbn [log map concat app] in He. symmetry in He. by apply Ht in He.
  - apply Forall_cons in Hbs' as [Hv' Hbs']. rewrite log_cons, <- app_assoc in He.
    pose proof (scan_turn_record lane limits b (log bs ++ rest) Hv) as E.
    rewrite He, scan_turn_record in E by done. injection E as E1 _ _ E2 E3.
    assert (b = b') as -> by (destruct b, b'; cbn in *; congruence).
    apply prefix_cons, IH; [done..|]. by rewrite E3.
Qed.

(** The scan of a sequence of records followed by bytes it stops at. *)
Lemma scan_bytes_any lane limits path t known bs tail : Forall (fun b => valid_body lane limits b = true) bs -> halts lane limits known tail -> len (log bs ++ tail) <= u64_max ->
  match scan_bytes path lane limits t known (log bs ++ tail) with
  | Ok s => (t = true \/ tail = []) /\ s = ended tail (locate path 0 bs) (len (log bs))
  | Err _ => known <> None \/ (t = false /\ tail <> [])
  end.
Proof.
  intros Hbs Hh Hmax. rewrite len_app in Hmax. pose proof (len_nonneg tail). unfold scan_bytes.
  assert (length bs + length tail <= length (log bs ++ tail))%nat as Hf.
  { rewrite length_app. cut (length bs <= length (log bs))%nat; [lia|]. clear. induction bs as [|b bs IH]; [done|].
    rewrite log_cons, length_app. pose proof (len_record b). pose proof (len_nonneg b.2). unfold len, RECORD_HEADER_BYTES in *. cbn [length]. lia. }
  replace (length (log bs ++ tail)) with (length bs + (length (log bs ++ tail) - length bs))%nat by lia.
  destruct (scan_loop_any lane limits (length (log bs ++ tail) - length bs) (len (log bs ++ tail)) path t known bs tail [] 0 Hbs)
    as [->|(e & -> & Hk)]; [lia..| |by left].
  pose proof (scan_halts (length (log bs ++ tail) - length bs) (len (log bs ++ tail)) path lane limits t known tail (locate path 0 bs)
    (0 + len (log bs)) Hh) as Hs. rewrite len_app in Hs. specialize (Hs ltac:(lia) ltac:(lia)). rewrite len_app.
  cbn [app]. case_match; [done|by right].
Qed.

Lemma scanned_ended bs tail found : scanned (log bs ++ tail) (ended tail found (len (log bs))) = log bs.
Proof.
  unfold scanned, ended. cbn [snd]. case_decide as Ht; [subst tail; apply app_nil_r|].
  apply take_app_length'. unfold len. lia.
Qed.

(** C8: Whatever bytes a chunk file holds, scanning it after a restart finds exactly its
    longest prefix of valid records: every run of valid records at the start of the file
    is among them, the open chunk is cut to the bytes of those records and no others, and
    a closed chunk is accepted exactly when nothing follows them. A torn or corrupted
    suffix neither hides an earlier record nor passes for one. *)
Theorem scan_longest_valid_prefix path lane limits bytes : len bytes <= u64_max ->
  exists bs tail,
    bytes = log bs ++ tail /\ Forall (fun b => valid_body lane limits b = true) bs
    /\ (forall bs' rest, Forall (fun b => valid_body lane limits b = true) bs' -> bytes = log bs' ++ rest -> bs' `prefix_of` bs)
    /\ (exists s, scan_bytes path lane limits true None bytes = Ok s /\ s.1 = locate path 0 bs /\ scanned bytes s = log bs)
    /\ match scan_bytes path lane limits false None bytes with
        | Ok s => tail = [] /\ s = (locate path 0 bs, None)
        | Err _ => tail <> []
        end.
Proof.
  intros Hmax. destruct (split_log lane limits bytes) as (bs & tail & -> & Hbs & Ht). exists bs, tail.
  apply stops_halts in Ht as Hh. split_and!; [done..| | |].
  - intros bs' rest Hv He. by eapply log_prefix.
  - pose proof (scan_bytes_any lane limits path true None bs tail Hbs Hh Hmax) as Hs.
    destruct (scan_bytes _ _ _ true _ _) as [s|]; [|by destruct Hs as [[]|[]]]. destruct Hs as [_ ->]. eexists. split_and!; [done..|apply scanned_ended].
  - pose proof (scan_bytes_any lane limits path false None bs tail Hbs Hh Hmax) as Hs.
    destruct (scan_bytes _ _ _ false _ _) as [s|]; [|by destruct Hs as [[]|[_ ?]]].
    destruct Hs as [[?|Htail] ->]; [done|]. unfold ended. by rewrite decide_True.
Qed.
End ScanProofs.

(** * Witness: the stored frame of [NodeFrame] followed by a torn second one *)
Import Concrete.

Definition demo_lane : Lane := MkLane (Scope.leader_session frame_scope) (Scope.log_epoch frame_scope).
Definition demo_body : Body := (Scope.node_sequence frame_scope, Frame.encoded frame).

Lemma scan_longest_valid_prefix_witness :
  let bytes := record_of demo_body ++ take 70 (record_of demo_body) in
  len bytes <= u64_max /\ exists bs tail, bytes = log bs ++ tail /\ [demo_body] `prefix_of` bs /\ tail <> [].
Proof.
  intros bytes. assert (len bytes <= u64_max) as Hmax by (vm_compute; discriminate).
  split; [exact Hmax|].
  destruct (scan_longest_valid_prefix OPEN_LOG demo_lane limits_default bytes Hmax) as (bs & tail & He & _ & Hp & _ & Hc).
  exists bs, tail. split; [exact He|]. split.
  - apply (Hp [demo_body] (take 70 (record_of demo_body))); [|exact (f_equal (fun x => x ++ take 70 (record_of demo_body)) (eq_sym (log_single demo_body)))].
    apply Forall_singleton. vm_compute. reflexivity.
  - assert (is_ok (scan_bytes OPEN_LOG demo_lane limits_default false None bytes) = false) as Hf by (vm_compute; reflexivity).
    destruct (scan_bytes OPEN_LOG demo_lane limits_default false None bytes); [discriminate Hf|exact Hc].
Defined.
