(* ===== verification/FollowerDisk.v ===== *)
(** * FollowerDisk: the files under a follower lane, and their accounting

    The part of the file system a lane uses, as [std::fs] presents it: a directory of
    names for files, whose bytes and whose entries survive a crash only once they are
    synced. Every call the code propagates the error of may fail, as a list of faults
    says. Operations run in a monad that also records every disk an operation passes
    through, which are the states a crash can hit.

    What is assumed of the file system: of the bytes a file got after its last sync a
    crash keeps a prefix; a failed sync loses nothing, and a later one persists what it
    did not; the entries of the directory above [chunks] persist at once; and the probes
    whose errors the code ignores ([Path::exists]) answer.

    The accounting models [crates/cellule-runtime/src/follower/accounting/mod.rs] over
    the budget and the reservation of
    [crates/cellule-ltx/src/environment/host/budget.rs]; the hooks an embedding runtime
    installs on a budget are trait objects and enter as a parameter. *)

From Stdlib Require Import ZArith Lia.
From Stdlib Require Import Strings.Byte.
From stdpp Require Import base strings.
From stdpp Require Import list.
From S2P Require Import Prelude OrdMap Bytes Identity LtxTypes FollowerRecords.

Local Open Scope bool_scope.

(** ** Files and directories *)

(** [pending] was written after the last [sync_data]. *)
Record file := MkFile { durable : list byte; pending : list byte }.
Definition content (f : file) : list byte := durable f ++ pending f.

#[export] Instance file_eq_dec : EqDecision file.
Proof. solve_decision. Defined.

(** The entries of a directory: a name and the file it is linked to. *)
Definition Dir : Type := list (str * nat).

(** [unsynced] are the states of the [chunks] directory since its last [sync_directory].
    The entries of the directory above it, which holds the markers, persist at once. *)
Record LaneDisk := MkDisk {
  files : list file;
  chunks : option Dir;
  unsynced : list Dir;
  sealed : option file;
  retired : option file
}.

Definition dir_find (name : str) (d : Dir) : option nat := snd <$> List.find (fun e => bool_decide (e.1 = name)) d.
Definition dir_remove (name : str) (d : Dir) : Dir := List.filter (fun e => bool_decide (e.1 <> name)) d.
Definition dir_link (name : str) (i : nat) (d : Dir) : Dir := dir_remove name d ++ [(name, i)].

(** The order in which [read_dir] lists a directory is not specified. *)
Class ReadDir := {
  read_dir : Dir -> Dir;
  read_dir_perm d : read_dir d ≡ₚ d
}.

(** ** Crashes

    A crash leaves the directory in one of its states since the last sync, and of every
    file its synced bytes and a prefix of the bytes written after them. *)
Definition file_crash (f f' : file) : Prop :=
  pending f' = [] /\ exists kept, kept `prefix_of` pending f /\ durable f' = durable f ++ kept.

Definition disk_crash (d d' : LaneDisk) : Prop :=
  Forall2 file_crash (files d) (files d')
  /\ match chunks d with
     | None => chunks d' = None
     | Some dir => exists dir', chunks d' = Some dir' /\ dir' ∈ dir :: unsynced d
     end
  /\ unsynced d' = [] /\ option_Forall2 file_crash (sealed d) (sealed d') /\ option_Forall2 file_crash (retired d) (retired d').

(** ** Disk admission *)

(** [DiskBudgetAdmission::reconcile] of the installed hooks, on the bytes in use. *)
Class DiskBudgetAdmission := reconcile : Z -> LtxResult unit.

(** A budget that is not a child scope, and the one reservation the store holds of it. *)
(*@ cellule-ltx/src/environment/host/budget.rs 13-23 DiskBudgetInner *)
Record DiskBudget := MkBudget { capacity : Z; used : Z }.
(*@ cellule-ltx/src/environment/host/budget.rs 256-259 DiskReservation *)
Record DiskReservation := MkDiskReservation { budget : DiskBudget; held : Z }.

Definition disk_limit : LtxError := LtxErr.Limit Limit.LocalDiskBytes.
Definition set_used (n : Z) (b : DiskBudget) : DiskBudget := MkBudget (capacity b) n.

Module Budget.
(*@ cellule-ltx/src/environment/host/budget.rs 172-180 DiskBudget::add *)
Definition add (b : DiskBudget) (bytes : Z) : LtxResult DiskBudget :=
  match checked_add_u64 (used b) bytes with
  | Some next => if next <=? capacity b then Ok (set_used next b) else Err disk_limit
  | None => Err disk_limit
  end.

(*@ cellule-ltx/src/environment/host/budget.rs 245-252 DiskBudget::remove *)
Definition remove (b : DiskBudget) (bytes : Z) : LtxResult DiskBudget :=
  n ← ok_or (checked_sub_u64 (used b) bytes) (LtxErr.InvalidState "local disk reservation underflow");
  Ok (set_used n b).
End Budget.

Section Admission.
Context `{DiskBudgetAdmission}.

(** The reservation as the call leaves it, and its result. A failed growth takes back what
    it added; a failed shrink adds back what it removed. *)
(*@ cellule-ltx/src/environment/host/budget.rs 296-313 DiskReservation::try_grow *)
Definition try_grow (r : DiskReservation) (bytes : Z) : DiskReservation * LtxResult unit :=
  match checked_add_u64 (held r) bytes with
  | None => (r, Err disk_limit)
  | Some next =>
      match Budget.add (budget r) bytes with
      | Err e => (r, Err e)
      | Ok b => match reconcile (used b) with Ok _ => (MkDiskReservation b next, Ok tt) | Err e => (r, Err e) end
      end
  end.

(*@ cellule-ltx/src/environment/host/budget.rs 316-346 DiskReservation::resize *)
Definition resize (r : DiskReservation) (bytes : Z) : DiskReservation * LtxResult unit :=
  let current := held r in
  if current <? bytes then
    match Budget.add (budget r) (bytes - current) with
    | Err e => (r, Err e)
    | Ok b => match reconcile (used b) with Ok _ => (MkDiskReservation b bytes, Ok tt) | Err e => (r, Err e) end
    end
  else
    let released := current - bytes in
    match Budget.remove (budget r) released with
    | Err e => (r, Err e)
    | Ok b =>
        match reconcile (used b) with
        | Ok _ => (MkDiskReservation b bytes, Ok tt)
        | Err e => match Budget.add b released with
                   | Ok b => (MkDiskReservation b current, Err e)
                   | Err e => (MkDiskReservation b bytes, Err e)
                   end
        end
    end.
End Admission.

(** ** The charge of every lane *)

Definition LaneMap : Type := Lane -> option Z.
Definition lane_insert (k : Lane) (v : Z) (m : LaneMap) : LaneMap := fun l => if decide (l = k) then Some v else m l.
Definition lane_remove (k : Lane) (m : LaneMap) : LaneMap := fun l => if decide (l = k) then None else m l.

(*@ follower/accounting/mod.rs 6-12 DiskAccounting *)
Record DiskAccounting := MkAccounting {
  reservation : DiskReservation;
  charged : LaneMap;
  settled : LaneMap
}.

Definition lift_ltx {A} (r : LtxResult A) : LaneResult A := match r with Ok a => Ok a | Err e => Err (LaneErr.Ltx e) end.
Definition set_reservation (r : DiskReservation) (a : DiskAccounting) : DiskAccounting := MkAccounting r (charged a) (settled a).

(** An update of the accounting keeps what was changed before it fails. *)
Definition Accounted : Type := DiskAccounting * LaneResult unit.
Definition and_then (x : Accounted) (f : DiskAccounting -> Accounted) : Accounted :=
  match x.2 with Ok _ => f x.1 | Err e => (x.1, Err e) end.
Definition reserve (f : DiskReservation -> DiskReservation * LtxResult unit) (a : DiskAccounting) : Accounted :=
  let '(r, result) := f (reservation a) in (set_reservation r a, lift_ltx result).

Section Accounting.
Context `{DiskBudgetAdmission}.

(** The reservation once [from] of it has become [to]. *)
Definition exchanged (a : DiskAccounting) (from to : Z) : LaneResult Z :=
  ok_or (n ← checked_sub_u64 (held (reservation a)) from; checked_add_u64 n to) (node_error "follower disk settlement overflow").

(*@ follower/accounting/mod.rs 30-45 DiskAccounting::settle *)
Definition settle (a : DiskAccounting) (lane : Lane) (actual : Z) : Accounted :=
  match charged a lane with
  | None => (a, Err (node_error "follower lane has no disk charge"))
  | Some charge =>
      match exchanged a charge actual with
      | Err e => (a, Err e)
      | Ok next => and_then (reserve (fun r => resize r next) a) (fun a =>
          (MkAccounting (reservation a) (lane_remove lane (charged a)) (lane_insert lane actual (settled a)), Ok tt))
      end
  end.

(*@ follower/accounting/mod.rs 47-72 DiskAccounting::begin *)
Definition begin_charge (a : DiskAccounting) (lane : Lane) (actual growth : Z) : Accounted :=
  and_then (if is_some (charged a lane) then settle a lane actual else (a, Ok tt)) (fun a =>
  and_then (match settled a lane with
            | Some previous =>
                if negb (previous =? actual) then
                  match exchanged a previous actual with
                  | Err e => (a, Err e)
                  | Ok next => and_then (reserve (fun r => resize r next) a) (fun a =>
                      (MkAccounting (reservation a) (charged a) (lane_insert lane actual (settled a)), Ok tt))
                  end
                else (a, Ok tt)
            | None => (a, Ok tt)
            end) (fun a =>
  match checked_add_u64 actual growth with
  | None => (a, Err (node_error "follower disk charge overflow"))
  | Some charge => and_then (reserve (fun r => try_grow r growth) a) (fun a =>
      (MkAccounting (reservation a) (lane_insert lane charge (charged a)) (settled a), Ok tt))
  end)).

(*@ follower/accounting/mod.rs 74-85 DiskAccounting::grow *)
Definition grow_charge (a : DiskAccounting) (lane : Lane) (growth : Z) : Accounted :=
  match charged a lane with
  | None => (a, Err (node_error "follower lane has no disk charge"))
  | Some charge =>
      match checked_add_u64 charge growth with
      | None => (a, Err (node_error "follower disk charge overflow"))
      | Some next => and_then (reserve (fun r => try_grow r growth) a) (fun a =>
          (MkAccounting (reservation a) (lane_insert lane next (charged a)) (settled a), Ok tt))
      end
  end.
End Accounting.

(** ** Lane operations

    What an operation on a locked lane reads and changes: the disk, the lane's cached
    index with the shared count it reserves from, and the accounting with the byte
    count the operation keeps ([LaneAccounting::actual]). *)
Record World := MkWorld {
  disk : LaneDisk;
  memory : option LaneMemory;
  index_used : Z;
  actual : option Z;
  accounts : DiskAccounting
}.

Definition set_disk (d : LaneDisk) (w : World) : World := MkWorld d (memory w) (index_used w) (actual w) (accounts w).
Definition set_memory (m : option LaneMemory) (w : World) : World := MkWorld (disk w) m (index_used w) (actual w) (accounts w).
Definition set_index_used (n : Z) (w : World) : World := MkWorld (disk w) (memory w) n (actual w) (accounts w).
Definition set_actual (n : option Z) (w : World) : World := MkWorld (disk w) (memory w) (index_used w) n (accounts w).
Definition set_accounts (a : DiskAccounting) (w : World) : World := MkWorld (disk w) (memory w) (index_used w) (actual w) a.

(** The outcome of a call to the file system. A call that fails does nothing, but that a
    failed write has written so many of its bytes and a failed removal of a directory has
    removed so many of its entries. *)
Inductive Fault := Healthy | Failing (part : nat).

(** A run: the disks it passes through, the world it ends in, the faults to come (none are
    left of an empty list), and its result. *)
Definition M (A : Type) : Type := World -> list Fault -> list LaneDisk * World * list Fault * LaneResult A.

#[global] Instance M_ret : MRet M := fun A a w fs => ([], w, fs, Ok a).
#[global] Instance M_bind : MBind M := fun A B f m w fs =>
  match m w fs with
  | (trace, w, fs, Ok a) => let '(trace', w, fs, r) := f a w fs in (trace ++ trace', w, fs, r)
  | (trace, w, fs, Err e) => (trace, w, fs, Err e)
  end.

Definition throw {A} (e : LaneErr) : M A := fun w fs => ([], w, fs, Err e).
Definition lift {A} (r : LaneResult A) : M A := fun w fs => ([], w, fs, r).
Definition gets {A} (f : World -> A) : M A := fun w fs => ([], w, fs, Ok (f w)).
Definition modify (f : World -> World) : M unit := fun w fs => ([], f w, fs, Ok tt).

(** A change of the disk. *)
Definition change (f : LaneDisk -> LaneDisk) : M unit := fun w fs =>
  let d := f (disk w) in ([d], set_disk d w, fs, Ok tt).

(** A call that may fail halfway through. *)
Definition fallible_after {A} (m : M A) (partly : nat -> M unit) : M A := fun w fs =>
  match fs with
  | [] => m w []
  | Healthy :: fs => m w fs
  | Failing n :: fs => (_ ← partly n; throw LaneErr.Io) w fs
  end.
(** A call that fails before it does anything. *)
Definition fallible {A} (m : M A) : M A := fallible_after m (fun _ => mret tt).

(** A failed run is followed by a cleanup whose outcome is ignored. *)
Definition cleanup {A} (m : M A) (handler : M unit) : M A := fun w fs =>
  match m w fs with
  | (trace, w, fs, Err e) => let '(trace', w, fs, _) := handler w fs in (trace ++ trace', w, fs, Err e)
  | ok => ok
  end.

(** A step that sees the result of the one before. *)
Definition attempt {A B} (m : M A) (f : LaneResult A -> M B) : M B := fun w fs =>
  let '(trace, w, fs, result) := m w fs in
  let '(trace', w, fs, result) := f result w fs in (trace ++ trace', w, fs, result).

(** *** [std::fs] *)

Definition set_file (i : nat) (f : file) (d : LaneDisk) : LaneDisk :=
  MkDisk (<[i := f]> (files d)) (chunks d) (unsynced d) (sealed d) (retired d).
Definition new_file (f : file) (d : LaneDisk) : LaneDisk :=
  MkDisk (files d ++ [f]) (chunks d) (unsynced d) (sealed d) (retired d).
(** A new state of the directory; the old one may come back until the next sync. *)
Definition set_dir (dir : Dir) (d : LaneDisk) : LaneDisk :=
  MkDisk (files d) (Some dir) (match chunks d with Some old => old :: unsynced d | None => unsynced d end) (sealed d) (retired d).
Definition sync_dir (d : LaneDisk) : LaneDisk := MkDisk (files d) (chunks d) [] (sealed d) (retired d).

Definition the_dir : M Dir := dir ← gets (fun w => chunks (disk w)); lift (ok_or dir LaneErr.NotFound).
(** [Path::exists], and the file the path is linked to. *)
Definition lookup (name : str) : M (option nat) := gets (fun w => chunks (disk w) ≫= dir_find name).
(** A call for which a name that is not there is no error. *)
Definition probe (name : str) : M (option nat) := fallible (lookup name).
(** [File::open]: a name that is not there is an error. *)
Definition open_file (name : str) : M nat := fallible (i ← lookup name; lift (ok_or i LaneErr.NotFound)).
Definition read_file (i : nat) : M (list byte) :=
  fallible (gets (fun w => match files (disk w) !! i with Some f => content f | None => [] end)).
Definition file_len (i : nat) : M Z := bytes ← read_file i; mret (len bytes).
Definition extend_file (i : nat) (bytes : list byte) : M unit := change (fun d =>
  match files d !! i with Some f => set_file i (MkFile (durable f) (pending f ++ bytes)) d | None => d end).
Definition write_all (i : nat) (bytes : list byte) : M unit :=
  fallible_after (extend_file i bytes) (fun n => extend_file i (take n bytes)).
Definition sync_data (i : nat) : M unit := fallible (change (fun d =>
  match files d !! i with Some f => set_file i (MkFile (content f) []) d | None => d end)).
Definition set_len (i : nat) (n : Z) : M unit := fallible (change (fun d =>
  match files d !! i with
  | Some f => set_file i (MkFile (take (Z.to_nat n) (durable f)) (take (Z.to_nat n - length (durable f)) (pending f))) d
  | None => d
  end)).
(** [OpenOptions::create]: the file linked to the name, a new and empty one if there is none. *)
Definition create (name : str) : M nat := fallible (dir ← the_dir;
  match dir_find name dir with
  | Some i => mret i
  | None => i ← gets (fun w => length (files (disk w)));
            _ ← change (fun d => set_dir (dir_link name i dir) (new_file (MkFile [] []) d)); mret i
  end).
Definition rename (from to : str) : M unit := dir ← the_dir;
  i ← open_file from;
  change (set_dir (dir_link to i (dir_remove from dir))).
Definition remove_file (name : str) : M unit := dir ← the_dir;
  _ ← open_file name;
  change (set_dir (dir_remove name dir)).
Definition sync_directory : M unit := fallible (change sync_dir).

(** *** [LaneAccounting] *)

(*@ follower/accounting/mod.rs 129-131 LaneAccounting::invalidate *)
Definition invalidate_count : M unit := modify (set_actual None).

(*@ follower/accounting/mod.rs 133-142 LaneAccounting::added *)
Definition added (bytes : Z) : M unit :=
  a ← gets actual;
  match a with
  | None => mret tt
  | Some n => match checked_add_u64 n bytes with
              | Some n => modify (set_actual (Some n))
              | None => throw (node_error "follower retained byte count overflow")
              end
  end.

(*@ follower/accounting/mod.rs 144-152 LaneAccounting::removed *)
Definition removed (bytes : Z) : M unit :=
  a ← gets actual;
  match a with
  | None => mret tt
  | Some n => match checked_sub_u64 n bytes with
              | Some n => modify (set_actual (Some n))
              | None => throw (node_error "follower removed byte count exceeds retained bytes")
              end
  end.

(*@ follower/accounting/mod.rs 207-221 LaneAccounting::update *)
Definition update_accounts (f : DiskAccounting -> Accounted) : M unit :=
  a ← gets accounts;
  let '(a, r) := f a in
  _ ← modify (set_accounts a);
  lift r.

(*@ follower/accounting/mod.rs 167-169 LaneAccounting::try_grow *)
Definition try_grow_charge `{DiskBudgetAdmission} (lane : Lane) (growth : Z) : M unit :=
  update_accounts (fun a => grow_charge a lane growth).

(** The files of the lane: its markers, then its chunks. *)
Definition lane_files (d : LaneDisk) : list file :=
  option_list (sealed d) ++ option_list (retired d)
  ++ match chunks d with Some dir => omap (fun e => files d !! e.2) dir | None => [] end.

(*@ follower/directory.rs 6-25 directory_bytes *)
Fixpoint directory_bytes (fs : list file) (total : Z) : LaneResult Z :=
  match fs with
  | [] => Ok total
  | f :: fs =>
      total ← ok_or (checked_add_u64 total (len (content f))) (node_error "follower retained byte count overflow");
      directory_bytes fs total
  end.

(** A lane without its directory has no files. *)
(*@ follower/accounting/mod.rs 194-205 LaneAccounting::recount *)
Definition recount : M Z := fallible (d ← gets disk; lift (directory_bytes (lane_files d) 0)).

(*@ follower/accounting/mod.rs 97-127 LaneAccounting::begin *)
Definition begin_accounting `{DiskBudgetAdmission} (lane : Lane) (growth : Z) (doubted : bool) : M unit :=
  _ ← modify (set_actual None);
  a ← gets accounts;
  let cached := if doubted || is_some (charged a lane) then None else settled a lane in
  n ← match cached with Some n => mret n | None => recount end;
  _ ← update_accounts (fun a => begin_charge a lane n growth);
  modify (set_actual (Some n)).

(** The charge becomes the bytes the lane has, counted again after a failure; a failed
    operation stays the error. *)
(*@ follower/accounting/mod.rs 171-192 LaneAccounting::finish *)
Definition finish_accounting `{DiskBudgetAdmission} {A} (lane : Lane) (result : LaneResult A) : M A :=
  attempt (n ← (if is_ok result then n ← gets actual; match n with Some n => mret n | None => recount end else recount);
           update_accounts (fun a => settle a lane n))
    (fun settled => lift (match result with Err e => Err e | Ok a => match settled with Ok _ => Ok a | Err e => Err e end end)).

(** * Runs

    [runs_with b I m w Q E]: under any faults, or without faults if [b] is false, every disk
    the run of [m] from [w] passes through satisfies [I]; if it succeeds it ends in [Q], and
    if it fails in [E]. *)
Definition runs_with {A} (b : bool) (I : LaneDisk -> Prop) (m : M A) (w : World) (Q : World -> A -> Prop) (E : World -> Prop) : Prop :=
  forall fs, (b = false -> fs = []) ->
  let '(trace, w', fs', r) := m w fs in
  Forall I trace /\ (b = false -> fs' = []) /\ match r with Ok a => Q w' a | Err _ => E w' end.

Section Runs.
Context {b : bool} (I : LaneDisk -> Prop).
Abbreviation runs := (runs_with b I).

Lemma runs_bind {A B} (m : M A) (f : A -> M B) w Q E :
  runs m w (fun w' a => runs (f a) w' Q E) E -> runs (m ≫= f) w Q E.
Proof.
  intros Hm fs Hfs. specialize (Hm fs Hfs). unfold mbind, M_bind. destruct (m w fs) as [[[t w'] fs'] [a|e]]; [|done].
  destruct Hm as (Ht & Hfs' & Hf). specialize (Hf fs' Hfs'). destruct (f a w' fs') as [[[t' w''] fs''] r].
  destruct Hf as (Ht' & ? & ?). split_and!; [by apply Forall_app|done..].
Qed.

Lemma runs_mono {A} (m : M A) w (Q Q' : World -> A -> Prop) (E E' : World -> Prop) :
  runs m w Q E -> (forall w' a, Q w' a -> Q' w' a) -> (forall w', E w' -> E' w') -> runs m w Q' E'.
Proof.
  intros Hm HQ HE fs Hfs. specialize (Hm fs Hfs). destruct (m w fs) as [[[t w'] fs'] [a|e]]; destruct Hm as (? & ? & ?); split_and!; auto.
Qed.

Lemma runs_ret {A} (a : A) w (Q : World -> A -> Prop) E : Q w a -> runs (mret a) w Q E.
Proof. by intros ? fs Hfs. Qed.
Lemma runs_throw {A} e w (Q : World -> A -> Prop) (E : World -> Prop) : E w -> runs (throw e) w Q E.
Proof. by intros ? fs Hfs. Qed.
Lemma runs_gets {A} (f : World -> A) w (Q : World -> A -> Prop) E : Q w (f w) -> runs (gets f) w Q E.
Proof. by intros ? fs Hfs. Qed.
Lemma runs_modify f w (Q : World -> unit -> Prop) E : Q (f w) tt -> runs (modify f) w Q E.
Proof. by intros ? fs Hfs. Qed.
Lemma runs_lift {A} (r : LaneResult A) w (Q : World -> A -> Prop) (E : World -> Prop) :
  (forall a, r = Ok a -> Q w a) -> (forall e, r = Err e -> E w) -> runs (lift r) w Q E.
Proof. intros HQ HE fs Hfs. destruct r; cbn; split_and!; eauto. Qed.
Lemma runs_change f w (Q : World -> unit -> Prop) E :
  I (f (disk w)) -> Q (set_disk (f (disk w)) w) tt -> runs (change f) w Q E.
Proof. intros HI HQ fs Hfs. split_and!; [by apply Forall_singleton|done..]. Qed.

(** A call that may fail: when it does, what it did until then. *)
Lemma runs_fallible_after {A} (m : M A) partly w Q E :
  runs m w Q E -> (b = true -> forall n, runs (partly n) w (fun w' _ => E w') E) -> runs (fallible_after m partly) w Q E.
Proof.
  intros Hm Hp [|[|n] fs] Hfs; cbn [fallible_after].
  - by apply Hm.
  - apply Hm. intros Eb. by specialize (Hfs Eb).
  - assert (b = true) as Eb by (destruct b; [done|by specialize (Hfs eq_refl)]).
    assert (runs (_ ← partly n; throw LaneErr.Io) w Q E) as Hr; [|apply Hr; congruence].
    apply runs_bind. eapply runs_mono; [by apply Hp| |done]. cbn beta. intros w' _ HE. by apply runs_throw.
Qed.
Lemma runs_fallible {A} (m : M A) w Q E : (b = true -> E w) -> runs m w Q E -> runs (fallible m) w Q E.
Proof. intros HE Hm. apply runs_fallible_after; [done|]. intros Eb n. apply runs_ret. auto. Qed.

Lemma runs_cleanup {A} (m : M A) handler w (Q : World -> A -> Prop) E :
  runs m w Q (fun w' => runs handler w' (fun w'' _ => E w'') E) -> runs (cleanup m handler) w Q E.
Proof.
  intros Hm fs Hfs. specialize (Hm fs Hfs). unfold cleanup. destruct (m w fs) as [[[t w'] fs'] [a|e]]; [done|]. destruct Hm as (Ht & Hfs' & Hh).
  specialize (Hh fs' Hfs'). destruct (handler w' fs') as [[[t' w''] fs''] r]. destruct Hh as (Ht' & ? & HE).
  split_and!; [by apply Forall_app|done|by destruct r].
Qed.

Lemma runs_attempt {A B} (m : M A) (f : LaneResult A -> M B) w Q E :
  runs m w (fun w' a => runs (f (Ok a)) w' Q E) (fun w' => forall e, runs (f (Err e)) w' Q E) -> runs (attempt m f) w Q E.
Proof.
  intros Hm fs Hfs. specialize (Hm fs Hfs). unfold attempt. destruct (m w fs) as [[[t w'] fs'] r]. destruct Hm as (Ht & Hfs' & Hf).
  assert (runs (f r) w' Q E) as Hr by (destruct r; auto). specialize (Hr fs' Hfs').
  destruct (f r w' fs') as [[[t' w''] fs''] r']. destruct Hr as (Ht' & ? & ?). split_and!; [by apply Forall_app|done..].
Qed.

Lemma runs_the_dir w dir (Q : World -> Dir -> Prop) E : chunks (disk w) = Some dir -> Q w dir -> runs the_dir w Q E.
Proof. intros Hd HQ. unfold the_dir. apply runs_bind, runs_gets. rewrite Hd. apply runs_lift; [|done]. by intros a [= <-]. Qed.
Lemma runs_open_file name w (Q : World -> nat -> Prop) (E : World -> Prop) :
  (forall i, chunks (disk w) ≫= dir_find name = Some i -> Q w i) -> (b = true \/ chunks (disk w) ≫= dir_find name = None -> E w) ->
  runs (open_file name) w Q E.
Proof.
  intros HQ HE. unfold open_file, lookup. apply runs_fallible; [auto|]. apply runs_bind, runs_gets, runs_lift.
  - intros i Hi%ok_or_Ok. auto.
  - intros e He. apply HE. right. by destruct (chunks (disk w) ≫= dir_find name).
Qed.
(** A name that is there. *)
Lemma runs_open_found name w i (Q : World -> nat -> Prop) (E : World -> Prop) :
  chunks (disk w) ≫= dir_find name = Some i -> (b = true -> E w) -> Q w i -> runs (open_file name) w Q E.
Proof. intros Hi HE HQ. apply runs_open_file; rewrite Hi; [by intros ? [= <-]|]. intros [?|?]; [auto|done]. Qed.
Lemma runs_probe name w (Q : World -> option nat -> Prop) (E : World -> Prop) :
  (b = true -> E w) -> Q w (chunks (disk w) ≫= dir_find name) -> runs (probe name) w Q E.
Proof. intros HE HQ. apply runs_fallible; [done|]. by apply runs_gets. Qed.
Lemma runs_read_file i w (Q : World -> list byte -> Prop) (E : World -> Prop) :
  (b = true -> E w) -> Q w (match files (disk w) !! i with Some f => content f | None => [] end) -> runs (read_file i) w Q E.
Proof. intros HE HQ. apply runs_fallible; [done|]. by apply runs_gets. Qed.
Lemma runs_file_len i w (Q : World -> Z -> Prop) (E : World -> Prop) :
  (b = true -> E w) -> Q w (len (match files (disk w) !! i with Some f => content f | None => [] end)) -> runs (file_len i) w Q E.
Proof. intros HE HQ. unfold file_len. apply runs_bind, runs_read_file; [done|]. by apply runs_ret. Qed.

(** An operation that touches neither the disk nor the index. *)
Definition quiet {A} (m : M A) : Prop := forall w fs, exists w' fs' r,
  m w fs = ([], w', fs', r) /\ (fs = [] -> fs' = []) /\ disk w' = disk w /\ memory w' = memory w.

Lemma runs_quiet {A} (m : M A) w (Q : World -> A -> Prop) (E : World -> Prop) : quiet m ->
  (forall w' a, disk w' = disk w -> memory w' = memory w -> Q w' a) ->
  (forall w', disk w' = disk w -> memory w' = memory w -> E w') -> runs m w Q E.
Proof.
  intros Hm HQ HE fs Hfs. destruct (Hm w fs) as (w' & fs' & r & Ew & Hf & Hd & Hmem). rewrite Ew. split_and!; [done|auto|]. destruct r; auto.
Qed.
End Runs.

Lemma ret_quiet {A} (a : A) : quiet (mret a : M A).
Proof. intros w fs. by eexists w, fs, _. Qed.
Lemma throw_quiet {A} e : quiet (throw e : M A).
Proof. intros w fs. by eexists w, fs, _. Qed.
Lemma gets_quiet {A} (f : World -> A) : quiet (gets f).
Proof. intros w fs. by eexists w, fs, _. Qed.
Lemma lift_quiet {A} (r : LaneResult A) : quiet (lift r).
Proof. intros w fs. by eexists w, fs, _. Qed.
Lemma set_actual_quiet n : quiet (modify (set_actual n)).
Proof. intros w fs. by eexists _, fs, _. Qed.
Lemma set_accounts_quiet a : quiet (modify (set_accounts a)).
Proof. intros w fs. by eexists _, fs, _. Qed.
Lemma bind_quiet {A B} (m : M A) (f : A -> M B) : quiet m -> (forall a, quiet (f a)) -> quiet (m ≫= f).
Proof.
  intros Hm Hf w fs. unfold mbind, M_bind. destruct (Hm w fs) as (w1 & fs1 & r & -> & Hfs & Hd & Hm1). destruct r as [a|e]; [|by eexists w1, fs1, _].
  destruct (Hf a w1 fs1) as (w2 & fs2 & r2 & -> & Hfs2 & Hd2 & Hm2). eexists w2, fs2, r2. split_and!; [done|auto|congruence..].
Qed.
Lemma attempt_quiet {A B} (m : M A) (f : LaneResult A -> M B) : quiet m -> (forall r, quiet (f r)) -> quiet (attempt m f).
Proof.
  intros Hm Hf w fs. unfold attempt. destruct (Hm w fs) as (w1 & fs1 & r & -> & Hfs & Hd & Hm1).
  destruct (Hf r w1 fs1) as (w2 & fs2 & r2 & -> & Hfs2 & Hd2 & Hm2). eexists w2, fs2, r2. split_and!; [done|auto|congruence..].
Qed.
Lemma fallible_quiet {A} (m : M A) : quiet m -> quiet (fallible m).
Proof.
  intros Hm w [|[|n] fs]; cbn [fallible fallible_after]; [apply Hm| |by eexists w, fs, _].
  destruct (Hm w fs) as (w1 & fs1 & r & Ew & _ & ?). by eexists w1, fs1, r.
Qed.

Create HintDb quiet discriminated.
#[export] Hint Resolve ret_quiet throw_quiet gets_quiet lift_quiet set_actual_quiet set_accounts_quiet bind_quiet attempt_quiet fallible_quiet : quiet.

Lemma added_quiet n : quiet (added n).
Proof. apply bind_quiet; [auto with quiet|]. intros [a|]; [case_match|]; auto with quiet. Qed.
Lemma removed_quiet n : quiet (removed n).
Proof. apply bind_quiet; [auto with quiet|]. intros [a|]; [case_match|]; auto with quiet. Qed.
Lemma update_accounts_quiet f : quiet (update_accounts f).
Proof. apply bind_quiet; [auto with quiet|]. intros a. destruct (f a). auto with quiet. Qed.
Lemma try_grow_quiet `{DiskBudgetAdmission} lane n : quiet (try_grow_charge lane n).
Proof. apply update_accounts_quiet. Qed.
Lemma recount_quiet : quiet recount.
Proof. unfold recount. auto with quiet. Qed.
Lemma invalidate_count_quiet : quiet invalidate_count.
Proof. apply set_actual_quiet. Qed.
#[export] Hint Resolve added_quiet removed_quiet try_grow_quiet invalidate_count_quiet update_accounts_quiet recount_quiet : quiet.

Lemma begin_accounting_quiet `{DiskBudgetAdmission} lane growth doubted : quiet (begin_accounting lane growth doubted).
Proof. unfold begin_accounting. repeat (apply bind_quiet; [|intros ?]); try case_match; auto with quiet. Qed.

Lemma finish_accounting_quiet `{DiskBudgetAdmission} {A} lane (r : LaneResult A) : quiet (finish_accounting lane r).
Proof.
  apply attempt_quiet; [|auto with quiet]. apply bind_quiet; [|auto with quiet]. case_match; [|auto with quiet].
  apply bind_quiet; [auto with quiet|]. intros [n|]; auto with quiet.
Qed.
#[export] Hint Resolve begin_accounting_quiet finish_accounting_quiet : quiet.
