(* ===== verification/FollowerLane.v ===== *)
(** * FollowerLane: appending to, sealing and reading a follower lane

    Models [crates/cellule-runtime/src/follower/records/]: the scan of a lane and its
    cached index, [append_sync] with pruning, rotation and duplicate checks, [seal_sync],
    [retire_sync], the paged tail reads, and the validation of a stored lane at startup
    ([follower/directory.rs]). Every operation runs over the disk of [FollowerDisk], and
    every call to it whose error the code returns may fail. Locks are held throughout,
    timings are left out, the entries of a lane's directories are regular files, and the
    directory of a lane appears together with its [chunks]. *)

From Stdlib Require Import ZArith Lia.
From Stdlib Require Import Strings.Byte.
From stdpp Require Import base strings.
From stdpp Require Import list.
From S2P Require Import Prelude OrdMap Bytes Identity Text LtxTypes Ltx LtxCodec Recovery NodeFrame FollowerRecords FollowerDisk.

Local Open Scope bool_scope.

(*@ follower/mod.rs 104-110 FollowerReceipt *)
Record FollowerReceipt := MkReceipt { base_sequence : Z; durable_through : Z }.
(*@ follower/mod.rs 113-118 FollowerTailPage *)
Record FollowerTailPage := MkPage { frames : list (list byte); next_sequence : option Z }.
(*@ follower/mod.rs 86-89 RetirementWatermark *)
Inductive RetirementWatermark := Covered (watermark : Z) | Recovered (active : bool).

(** The keys of an ordered map at its ends. *)
Definition first_key {V} (m : OrdMap V) : option Z := fst <$> head m.
Definition last_key {V} (m : OrdMap V) : option Z := fst <$> last m.

(*@ follower/directory.rs 361-366 validate_lane *)
Definition validate_lane (lane : Lane) : LaneResult unit :=
  if all_zero (leader lane) || (epoch lane =? 0) then Err (node_error "invalid follower lane") else Ok tt.

(** [with_memory f] runs on the lane's cached index. *)
Definition the_memory : M LaneMemory :=
  m ← gets memory; lift (ok_or m (node_error "follower lane state did not initialize")).
Definition put_memory (m : LaneMemory) : M unit := modify (set_memory (Some m)).

Definition set_records (r : OrdMap StoredRecord) (m : LaneMemory) : LaneMemory :=
  MkMemory (mlane m) (mlimits m) r (open_first m) (open_last m) (index m) (needs_reconciliation m) (covered_through m).
Definition set_index (i : IndexReservation) (m : LaneMemory) : LaneMemory :=
  MkMemory (mlane m) (mlimits m) (records m) (open_first m) (open_last m) i (needs_reconciliation m) (covered_through m).
Definition set_open (f l : option Z) (m : LaneMemory) : LaneMemory :=
  MkMemory (mlane m) (mlimits m) (records m) f l (index m) (needs_reconciliation m) (covered_through m).
Definition set_needs (b : bool) (m : LaneMemory) : LaneMemory :=
  MkMemory (mlane m) (mlimits m) (records m) (open_first m) (open_last m) (index m) b (covered_through m).
Definition set_covered (n : Z) (m : LaneMemory) : LaneMemory :=
  MkMemory (mlane m) (mlimits m) (records m) (open_first m) (open_last m) (index m) (needs_reconciliation m) n.

(** The index bytes of so many records. *)
Definition index_bytes (count : Z) : LaneResult Z :=
  let bytes := count * INDEX_BYTES_PER_RECORD in if bytes <=? u64_max then Ok bytes else Err capacity_error.

(** The shared count and the reservation change together. *)
Definition grow_index (additional : Z) : M unit :=
  m ← the_memory;
  used ← gets index_used;
  '(used, r) ← lift (Reservation.grow used (index m) additional);
  _ ← modify (set_index_used used);
  put_memory (set_index r m).
Definition shrink_index (bytes : Z) : M unit :=
  m ← the_memory;
  used ← gets index_used;
  let '(used, r) := Reservation.shrink_to used (index m) bytes in
  _ ← modify (set_index_used used);
  put_memory (set_index r m).

(*@ follower/records/mod.rs 114-122 LaneMemory::invalidate *)
Definition invalidate : M unit :=
  m ← gets memory;
  match m with
  | None => mret tt
  | Some m =>
      _ ← put_memory (set_needs true m);
      shrink_index (Z.min (len (records m) * INDEX_BYTES_PER_RECORD) u64_max)
  end.

Section Lane.
Context `{Crc64, Blake3, Lz4Flex, ReadDir, DiskBudgetAdmission}.
Context (lane : Lane) (limits : Limits).

(** ** Scans *)

(*@ follower/records/scan.rs 318-434 scan_chunk *)
Definition scan_chunk (name : str) (truncate_suffix : bool) (known : option LaneMemory) : M (list StoredRecord) :=
  i ← probe name;
  match i with
  | None => mret []
  | Some i =>
      bytes ← read_file i;
      '(found, cut) ← lift (scan_bytes name lane limits truncate_suffix known bytes);
      match cut with
      | Some n => _ ← set_len i n; _ ← sync_data i; mret found
      | None => mret found
      end
  end.

(** The entries of one chunk enter the index. *)
(*@ follower/records/scan.rs 276-286 scan_lane *)
Fixpoint collect (chunk : list StoredRecord) (index : OrdMap StoredRecord) : LaneResult (OrdMap StoredRecord) :=
  match chunk with
  | [] => Ok index
  | r :: chunk =>
      match om_lookup (sequence r) index with
      | None => collect chunk (om_insert (sequence r) r index)
      | Some existing =>
          if bool_decide (digest existing = digest r) then collect chunk index
          else Err (node_error "conflicting stored follower frame")
      end
  end.

(*@ follower/records/scan.rs 257-287 scan_lane *)
Fixpoint scan_paths (names : list str) (known : option LaneMemory) (index : OrdMap StoredRecord) : M (OrdMap StoredRecord) :=
  match names with
  | [] => mret index
  | name :: names =>
      let open := bool_decide (name = OPEN_LOG) in
      expected ← (if open then mret None
                  else range ← lift (ok_or (parse_chunk_name name) (node_error "invalid follower chunk name")); mret (Some range));
      chunk ← scan_chunk name open known;
      _ ← match expected with
          | Some (first, last_) =>
              if bool_decide (sequence <$> head chunk <> Some first) || bool_decide (sequence <$> last chunk <> Some last_)
              then throw (node_error "follower chunk name differs from contents") else mret tt
          | None => mret tt
          end;
      index ← lift (collect chunk index);
      scan_paths names known index
  end.

(** [windows(2).all(...)]. *)
Fixpoint contiguous (keys : list Z) : bool :=
  match keys with
  | a :: ((b :: _) as keys) => bool_decide (checked_add_u64 a 1 = Some b) && contiguous keys
  | _ => true
  end.

(*@ follower/records/scan.rs 244-298 scan_lane *)
Definition scan_lane (known : option LaneMemory) : M (OrdMap StoredRecord) :=
  dir ← gets (fun w => chunks (disk w));
  match dir with
  | None => mret []
  | Some dir =>
      dir ← fallible (mret (read_dir dir));
      index ← scan_paths (sort_by bytes_compare (map fst dir)) known [];
      if negb (contiguous (map fst index)) then throw (node_error "stored follower lane has a sequence gap")
      else mret index
  end.

(** ** The cached index *)

(*@ follower/records/scan.rs 156-178 lane_memory *)
Definition lane_memory (index : OrdMap StoredRecord) (open_records : list StoredRecord) : M LaneMemory :=
  bytes ← lift (index_bytes (len index));
  used ← gets index_used;
  '(used, r) ← lift (Reservation.new used bytes);
  _ ← modify (set_index_used used);
  mret (MkMemory lane limits index (sequence <$> head open_records) (sequence <$> last open_records) r false 0).

Fixpoint sync_files (names : list str) : M unit :=
  match names with
  | [] => mret tt
  | name :: names => i ← open_file name; _ ← sync_data i; sync_files names
  end.

(*@ follower/records/scan.rs 218-243 persist_lane_records *)
Definition persist_lane_records (index : OrdMap StoredRecord) (open_records : list StoredRecord) : M unit :=
  _ ← sync_files (sort_by bytes_compare (remove_dups (map path (map snd index ++ open_records))));
  dir ← gets (fun w => chunks (disk w));
  match dir with Some _ => sync_directory | None => mret tt end.

Definition witnessed (index : OrdMap StoredRecord) (original : Z * StoredRecord) : bool :=
  is_some_and (fun r => bool_decide (digest r = digest original.2) && (length_of r =? length_of original.2)) (om_lookup original.1 index).

(*@ follower/records/scan.rs 180-216 reconcile_lane_memory *)
Definition reconcile_lane_memory : M unit :=
  m ← the_memory;
  index ← scan_lane (Some m);
  if negb (forallb (witnessed index) (om_filter (fun s => covered_through m <? s) (records m)))
  then throw (node_error "follower lane lost an uncovered indexed frame")
  else
    open_records ← scan_chunk OPEN_LOG true (Some m);
    _ ← (if needs_reconciliation m then persist_lane_records index open_records else mret tt);
    bytes ← lift (index_bytes (len index));
    used ← gets index_used;
    '(used, r) ← lift (Reservation.resize_to used (FollowerRecords.index m) bytes);
    _ ← modify (set_index_used used);
    put_memory (MkMemory (mlane m) (mlimits m) index (sequence <$> head open_records) (sequence <$> last open_records)
                  r false (covered_through m)).

(*@ follower/records/append.rs 228-241 expected_open_bytes *)
Definition expected_open_bytes (m : LaneMemory) : LaneResult Z :=
  match open_last m with
  | Some s =>
      r ← ok_or (om_lookup s (records m)) (node_error "follower open record is missing");
      ok_or (checked_add_u64 (offset r) (length_of r)) (node_error "follower open byte count overflow")
  | None => Ok 0
  end.

(*@ follower/records/scan.rs 309-317 read_watermark *)
Definition read_watermark (marker : option file) (invalid : string) : M Z := fallible
  match marker with
  | None => throw LaneErr.NotFound
  | Some f => if (length (content f) =? 8)%nat then mret (from_le (content f)) else throw (node_error invalid)
  end.

(*@ follower/records/scan.rs 114-155 read_indexed_record *)
Definition read_indexed_record (r : StoredRecord) : M (list byte) :=
  i ← open_file (path r);
  header_offset ← lift (ok_or (checked_sub_u64 (offset r) RECORD_HEADER_BYTES) (node_error "indexed follower record offset is invalid"));
  bytes ← read_file i;
  let bytes := drop (Z.to_nat header_offset) bytes in
  '(header, rest) ← lift (ok_or (read_exact (Z.to_nat RECORD_HEADER_BYTES) bytes) LaneErr.UnexpectedEof);
  '(seq, length, dig) ← lift (parse_record_header header);
  if negb (seq =? sequence r) || negb (length =? length_of r) || bool_decide (dig <> digest r)
  then throw (node_error "indexed follower record header changed")
  else
    '(encoded, _) ← lift (ok_or (read_exact (Z.to_nat (length_of r)) rest) LaneErr.UnexpectedEof);
    if bool_decide (blake3 encoded <> digest r) then throw (node_error "stored follower record changed after index")
    else
      frame ← lift (lift_ltx (inspect_node_frame encoded limits));
      let scope := Frame.scope frame in
      if negb (Scope.node_sequence scope =? sequence r) || bool_decide (Scope.leader_session scope <> leader lane)
         || negb (Scope.log_epoch scope =? epoch lane) || bool_decide (frame_digest frame <> digest r)
      then throw (node_error "indexed follower record scope changed")
      else mret encoded.

(** ** Pruning what object storage covers *)

Definition OPEN_TMP : str := text "open.log.tmp".

(*@ follower/records/append.rs 599-608 rewrite_open_chunk *)
Fixpoint copy_records (source output : nat) (rs : list StoredRecord) : M unit :=
  match rs with
  | [] => mret tt
  | r :: rs =>
      bytes ← read_file source;
      '(encoded, _) ← lift (ok_or (read_exact (Z.to_nat (length_of r)) (drop (Z.to_nat (offset r)) bytes)) LaneErr.UnexpectedEof);
      if bool_decide (blake3 encoded <> digest r) then throw (node_error "stored follower record changed during prune")
      else
        _ ← write_all output (write_record (sequence r) (digest r) encoded);
        _ ← added (RECORD_HEADER_BYTES + len encoded);
        copy_records source output rs
  end.

(** The bytes the retained records take. *)
Fixpoint scratch_bytes (rs : list StoredRecord) (bytes : Z) : option Z :=
  match rs with
  | [] => Some bytes
  | r :: rs => bytes ← checked_add_u64 bytes RECORD_HEADER_BYTES; bytes ← checked_add_u64 bytes (length_of r); scratch_bytes rs bytes
  end.

(*@ follower/records/append.rs 555-620 rewrite_open_chunk *)
Definition rewrite_open_chunk (rs : list StoredRecord) : M unit :=
  temporary ← lookup OPEN_TMP;
  _ ← match temporary with
      | Some i => bytes ← file_len i; _ ← remove_file OPEN_TMP; removed bytes
      | None => mret tt
      end;
  source ← open_file OPEN_LOG;
  original_bytes ← file_len source;
  match rs with
  | [] => _ ← remove_file OPEN_LOG; _ ← removed original_bytes; sync_directory
  | _ =>
      scratch ← lift (ok_or (scratch_bytes rs 0) (node_error "follower prune byte count overflow"));
      _ ← try_grow_charge lane scratch;
      cleanup (source ← open_file OPEN_LOG;
               output ← create OPEN_TMP;
               _ ← copy_records source output rs;
               _ ← sync_data output;
               _ ← rename OPEN_TMP OPEN_LOG;
               _ ← removed original_bytes;
               sync_directory)
              (remove_file OPEN_TMP)
  end.

(** The loop over the directory: whether a chunk was removed, and the names that stay. Each
    entry is read, and the type of one that stays. *)
(*@ follower/records/append.rs 479-502 prune_covered *)
Fixpoint prune_chunks (entries : Dir) (covered : Z) (gone : bool) (retained : list str) : M (bool * list str) :=
  match entries with
  | [] => mret (gone, retained)
  | (name, i) :: entries =>
      _ ← fallible (mret tt);
      if bool_decide (name = OPEN_LOG) then prune_chunks entries covered gone retained
      else
        '(_, last_) ← lift (ok_or (parse_chunk_name name) (node_error "invalid follower chunk name"));
        if last_ <=? covered then
          bytes ← file_len i;
          _ ← remove_file name;
          _ ← removed bytes;
          prune_chunks entries covered true retained
        else
          _ ← fallible (mret tt);
          prune_chunks entries covered gone (retained ++ [name])
  end.

(** The open chunk no longer is what the index says. *)
(*@ follower/records/append.rs 518-529 prune_covered *)
Definition open_changed (rs : list StoredRecord) (known : LaneMemory) : bool :=
  bool_decide (open_first known <> sequence <$> head rs) || bool_decide (open_last known <> sequence <$> last rs)
  || existsb (fun r => negb (is_some_and (fun previous =>
       bool_decide (digest previous = digest r) && (length_of previous =? length_of r)
       && (offset previous =? offset r) && bool_decide (path previous = path r)) (om_lookup (sequence r) (records known)))) rs.

(*@ follower/records/append.rs 463-554 prune_covered *)
Definition prune_covered (covered : Z) (known : option LaneMemory) : M bool :=
  dir ← gets (fun w => chunks (disk w));
  match dir with
  | None => mret (is_some_and (fun known => negb (len (records known) =? 0)) known)
  | Some dir =>
      dir ← fallible (mret (read_dir dir));
      '(gone, retained_paths) ← prune_chunks dir covered false [];
      i ← lookup OPEN_LOG;
      '(gone, changed) ←
        match i with
        | Some i =>
            original_bytes ← file_len i;
            rs ← scan_chunk OPEN_LOG true known;
            valid_bytes ← lift (match last rs with
                                | None => Ok 0
                                | Some r => ok_or (checked_add_u64 (offset r) (length_of r)) (node_error "follower open byte count overflow")
                                end);
            cut ← lift (ok_or (checked_sub_u64 original_bytes valid_bytes) (node_error "follower open grew during prune scan"));
            _ ← removed cut;
            let retained := List.filter (fun r => covered <? sequence r) rs in
            let open_removed := existsb (fun r => sequence r <=? covered) rs in
            _ ← (if open_removed then rewrite_open_chunk retained else mret tt);
            mret (gone || open_removed, is_some_and (open_changed rs) known)
        | None => mret (gone, is_some_and (fun known => is_some (open_first known)) known)
        end;
      let changed := changed || is_some_and (fun known => existsb (fun r =>
        negb (bool_decide (path r = OPEN_LOG)) && negb (bool_decide (path r ∈ retained_paths))) (map snd (records known))) known in
      _ ← (if gone then sync_directory else mret tt);
      mret (gone || changed)
  end.

(** ** Appending *)

(*@ follower/records/append.rs 414-436 open_append *)
Definition open_append : M nat :=
  existed ← probe OPEN_LOG;
  i ← create OPEN_LOG;
  _ ← (if is_some existed then mret tt else sync_directory);
  mret i.

(*@ follower/records/append.rs 437-451 rotate_open *)
Definition rotate_open (first last_ : option Z) : M str :=
  match first, last_ with
  | Some first, Some last_ =>
      let destination := chunk_name first last_ in
      _ ← rename OPEN_LOG destination;
      _ ← sync_directory;
      mret destination
  | _, _ => throw (node_error "cannot rotate an empty follower chunk")
  end.

Definition set_path (name : str) (r : StoredRecord) : StoredRecord := MkRecord (sequence r) (digest r) name (offset r) (length_of r).

(*@ follower/records/append.rs 452-462 relocate_records *)
Definition relocate_records (rs : OrdMap StoredRecord) (first last_ : Z) (destination : str) : OrdMap StoredRecord :=
  map (fun x => if (first <=? x.1) && (x.1 <=? last_) then (x.1, set_path destination x.2) else x) rs.

(** The variables of the loop over the submitted frames. *)
(*@ follower/records/append.rs 108-111 append_sync *)
Record Batch := MkBatch {
  bfile : nat;
  open_bytes : Z;
  pending_records : list StoredRecord;
  pending_digests : OrdMap Digest;
  batch_first : option Z;
  batch_last : option Z;
  through : Z
}.

(** A full open chunk is synced, renamed to its range and replaced by a new one. *)
(*@ follower/records/append.rs 162-181 append_sync *)
Definition rotate (b : Batch) : M Batch :=
  _ ← sync_data (bfile b);
  destination ← rotate_open (batch_first b) (batch_last b);
  first ← lift (ok_or (batch_first b) (node_error "follower open range is missing"));
  last_ ← lift (ok_or (batch_last b) (node_error "follower open range is missing"));
  m ← the_memory;
  _ ← put_memory (set_records (relocate_records (records m) first last_ destination) m);
  let moved := map (fun r => if bool_decide (path r = OPEN_LOG) then set_path destination r else r) (pending_records b) in
  i ← open_append;
  mret (MkBatch i 0 moved (pending_digests b) None (batch_last b) (through b)).

(** The record of a frame goes to the end of the open chunk. The five writes of
    [write_record] are one here: the first that fails leaves a prefix of all their bytes. *)
(*@ follower/records/append.rs 183-201 append_sync *)
Definition write_frame (b : Batch) (sequence : Z) (digest : Digest) (encoded : list byte) : M Batch :=
  let record_bytes := RECORD_HEADER_BYTES + len encoded in
  let offset := open_bytes b in
  _ ← write_all (bfile b) (write_record sequence digest encoded);
  _ ← added record_bytes;
  n ← lift (ok_or (checked_add_u64 (open_bytes b) record_bytes) (node_error "follower open byte count overflow"));
  offset ← lift (ok_or (checked_add_u64 offset RECORD_HEADER_BYTES) (node_error "follower record offset overflow"));
  mret (MkBatch (bfile b) n (pending_records b ++ [MkRecord sequence digest OPEN_LOG offset (len encoded)])
          (om_insert sequence digest (pending_digests b)) (Some (default sequence (batch_first b))) (Some sequence) sequence).

(** A frame that the index, the batch and the coverage do not have yet. *)
(*@ follower/records/append.rs 157-201 append_sync *)
Definition store_frame (b : Batch) (sequence : Z) (digest : Digest) (encoded : list byte) : M Batch :=
  if negb (sequence =? saturating_add_u64 (through b) 1) then throw (node_error "follower append has a sequence gap")
  else
    let record_bytes := RECORD_HEADER_BYTES + len encoded in
    b ← (if (0 <? open_bytes b) && (ROTATE_BYTES <? saturating_add_u64 (open_bytes b) record_bytes) then rotate b else mret b);
    write_frame b sequence digest encoded.

(** One submitted frame. *)
(*@ follower/records/append.rs 119-202 append_sync *)
Definition append_frame (covered : Z) (grant : option (Z * Z)) (b : Batch) (encoded : list byte) : M Batch :=
  frame ← lift (lift_ltx (inspect_node_frame encoded limits));
  let scope := Frame.scope frame in
  if bool_decide (Scope.leader_session scope <> leader lane) || negb (Scope.log_epoch scope =? epoch lane)
  then throw (node_error "follower frame changed lane scope")
  else
    let sequence := Scope.node_sequence scope in
    if is_some_and (fun grant => (sequence <? grant.1) || (grant.2 <? sequence)) grant
    then throw (LaneErr.Runtime (Error.PeerAuthorization "follower frame exceeds append grant"))
    else
      let digest := frame_digest frame in
      m ← the_memory;
      match om_lookup sequence (records m) with
      | Some existing =>
          if bool_decide (FollowerRecords.digest existing <> digest) then throw (node_error "conflicting duplicate follower frame")
          else _ ← read_indexed_record existing; mret b
      | None =>
          match om_lookup sequence (pending_digests b) with
          | Some existing =>
              if bool_decide (existing <> digest) then throw (node_error "conflicting duplicate follower frame") else mret b
          | None => if sequence <=? covered then mret b else store_frame b sequence digest encoded
          end
      end.

Fixpoint append_frames (covered : Z) (grant : option (Z * Z)) (b : Batch) (fs : list (list byte)) : M Batch :=
  match fs with
  | [] => mret b
  | encoded :: fs => b ← append_frame covered grant b encoded; append_frames covered grant b fs
  end.

(** The lane's directories exist after a success. A directory that is made is followed by a
    sync of the one above, whose entries persist at once. *)
(*@ follower/directory.rs 321-342 ensure_lane_directories *)
Definition ensure_lane_directories : M unit :=
  dir ← gets (fun w => chunks (disk w));
  match dir with
  | Some _ => mret tt
  | None =>
      _ ← fallible (change (fun d => MkDisk (files d) (Some []) [] (sealed d) (retired d)));
      fallible (mret tt)
  end.

(** The first part of an append: the cached index, from a scan when there is none. *)
(*@ follower/records/append.rs 27-52 append_sync *)
Definition load_memory (covered : Z) : M unit :=
  m ← gets memory;
  _ ← match m with None => ensure_lane_directories | Some _ => mret tt end;
  d ← gets disk;
  if is_some (retired d) then throw (node_error "follower lane is retired")
  else if is_some (sealed d) then throw (node_error "follower lane is sealed")
  else
    _ ← match m with
        | Some _ => mret tt
        | None =>
            _ ← invalidate_count;
            retained ← scan_lane None;
            open_records ← scan_chunk OPEN_LOG true None;
            _ ← persist_lane_records retained open_records;
            m ← lane_memory retained open_records;
            put_memory m
        end;
    m ← the_memory;
    put_memory (set_covered (Z.max (covered_through m) covered) m).

(** The length of the open chunk; a missing one has none. *)
Definition open_length : M Z :=
  i ← probe OPEN_LOG;
  match i with Some i => file_len i | None => mret 0 end.

(** Pruning, and a fresh index where it or an earlier failure calls for one. *)
(*@ follower/records/append.rs 53-90 append_sync *)
Definition prune_and_reconcile (covered : Z) : M unit :=
  m ← the_memory;
  _ ← (if needs_reconciliation m then mret tt
       else
         n ← open_length;
         expected ← lift (expected_open_bytes m);
         if negb (n =? expected) then throw (node_error "follower open length changed after index") else mret tt);
  changed ← prune_covered covered (Some m);
  if changed || needs_reconciliation m then
    _ ← (if needs_reconciliation m then invalidate_count else mret tt);
    reconcile_lane_memory
  else mret tt.

(** The loop over the frames and the commit of the batch to the index. *)
(*@ follower/records/append.rs 91-226 append_sync *)
Definition append_batch (fs : list (list byte)) (covered : Z) (grant : option (Z * Z)) : M FollowerReceipt :=
  m ← the_memory;
  let durable := Z.max (default covered (last_key (records m))) covered in
  i ← open_append;
  n ← file_len i;
  expected ← lift (expected_open_bytes m);
  if negb (n =? expected) then throw (node_error "follower open length changed after index")
  else
    bytes ← lift (index_bytes (len fs));
    _ ← grow_index bytes;
    b ← append_frames covered grant (MkBatch i n [] [] (open_first m) (open_last m) durable) fs;
    _ ← (if negb (len (pending_records b) =? 0) then
           _ ← sync_data (bfile b);
           m ← the_memory;
           put_memory (set_open (batch_first b) (batch_last b)
             (set_records (om_extend (records m) (map (fun r => (sequence r, r)) (pending_records b))) m))
         else mret tt);
    m ← the_memory;
    bytes ← lift (index_bytes (len (records m)));
    _ ← shrink_index bytes;
    mret (MkReceipt (default (saturating_add_u64 (through b) 1) (first_key (records m))) (through b)).

(*@ follower/records/append.rs 10-226 append_sync *)
Definition append_sync (fs : list (list byte)) (covered : Z) (grant : option (Z * Z)) : M FollowerReceipt :=
  _ ← lift (validate_lane lane);
  _ ← load_memory covered;
  _ ← prune_and_reconcile covered;
  append_batch fs covered grant.

(** ** The append of the store *)

(** The window and the coverage of a grant. *)
Record AppendGrant := MkGrant { first_sequence_of : Z; last_sequence_of : Z; grant_covered : Z }.

(** What the store is told while it appends: whether the node takes new roles before the
    lane is locked and at enrollment, the grant as authorized before and after the write
    (none for an append without one), and whether no one else holds the lane's slot. *)
Record AppendGate := MkGate {
  role : LaneResult unit;
  enrollment : LaneResult unit;
  authorization : option (LaneResult AppendGrant);
  release_check : LaneResult unit;
  sole_holder : bool
}.

(*@ follower/mod.rs 38-38 MAX_APPEND_FRAMES *)
Definition MAX_APPEND_FRAMES : Z := 64.

Fixpoint total_bytes (fs : list (list byte)) (total : Z) : option Z :=
  match fs with
  | [] => Some total
  | encoded :: fs => total ← checked_add_u64 total (len encoded); total_bytes fs total
  end.

(** [lane_directory(..).exists()]. *)
Definition lane_exists (d : LaneDisk) : bool := is_some (chunks d) || is_some (sealed d) || is_some (retired d).

(*@ follower/mod.rs 293-307 FollowerStore::append_inner *)
Definition batch_bytes (fs : list (list byte)) : LaneResult Z :=
  match total_bytes fs 0 with
  | Some bytes =>
      if (len fs =? 0) || (MAX_APPEND_FRAMES <? len fs)
         || (saturating_add_u64 (max_capture_bytes limits) (64 * MAX_NODE_FRAME_HEADER_BYTES) <? bytes)
      then Err (node_error "invalid follower append batch") else Ok bytes
  | None => Err (node_error "invalid follower append batch")
  end.

Definition covers (gate : AppendGate) (requested : Z) : Z :=
  match authorization gate with Some (Ok grant) => grant_covered grant | _ => requested end.
Definition window (gate : AppendGate) : option (Z * Z) :=
  match authorization gate with Some (Ok grant) => Some (first_sequence_of grant, last_sequence_of grant) | _ => None end.

(** The job that holds the lane: enrollment, the append, and the settlement of its bytes. *)
(*@ follower/mod.rs 374-404 FollowerStore::append_inner *)
Definition append_job (fs : list (list byte)) (covered : Z) (gate : AppendGate) : M FollowerReceipt :=
  attempt (d ← gets disk;
           _ ← (if lane_exists d then mret tt else _ ← lift (enrollment gate); ensure_lane_directories);
           append_sync fs covered (window gate))
    (fun result =>
       receipt ← finish_accounting lane result;
       _ ← (if is_some (authorization gate) then lift (release_check gate) else mret tt);
       mret receipt).

(*@ follower/accounting/mod.rs 158-165 LaneAccounting::forget_empty *)
Definition forget_empty : M unit := update_accounts (fun a =>
  (if bool_decide (settled a lane = Some 0) then MkAccounting (reservation a) (charged a) (lane_remove lane (settled a)) else a, Ok tt)).

(** After a failure the index is doubted; a lane that was refused leaves no slot. *)
(*@ follower/mod.rs 405-423 FollowerStore::append_inner *)
Definition abandon (gate : AppendGate) : M unit :=
  _ ← invalidate;
  d ← gets disk;
  m ← gets memory;
  if negb (lane_exists d) && match m with Some m => len (records m) =? 0 | None => true end && sole_holder gate
  then
    _ ← modify (fun w => match memory w with
                         | Some m => set_memory None (set_index_used (Reservation.release (index_used w) (index m)) w)
                         | None => w
                         end);
    forget_empty
  else mret tt.

(*@ follower/mod.rs 285-431 FollowerStore::append_inner *)
Definition append_inner (fs : list (list byte)) (requested : Z) (gate : AppendGate) : M FollowerReceipt :=
  bytes ← lift (batch_bytes fs);
  _ ← lift (validate_lane lane);
  d ← gets disk;
  _ ← (if lane_exists d then mret tt else lift (role gate));
  growth ← lift (ok_or (checked_add_u64 bytes (len fs * RECORD_HEADER_BYTES)) (node_error "follower append byte count overflow"));
  _ ← lift (match authorization gate with Some (Err e) => Err e | _ => Ok tt end);
  m ← gets memory;
  _ ← begin_accounting lane growth (is_some_and needs_reconciliation m);
  cleanup (append_job fs (covers gate requested) gate) (abandon gate).

(** ** Sealing and retiring *)

Definition set_sealed (f : option file) (d : LaneDisk) : LaneDisk := MkDisk (files d) (chunks d) (unsynced d) f (retired d).
Definition set_retired (f : option file) (d : LaneDisk) : LaneDisk := MkDisk (files d) (chunks d) (unsynced d) (sealed d) f.

(** [create_new] in a lane that has its directories, [write_all]; the sync is the caller's. *)
Definition write_marker (set : option file -> LaneDisk -> LaneDisk) (watermark : Z) : M unit :=
  _ ← fallible (change (set (Some (MkFile [] []))));
  fallible_after (change (set (Some (MkFile [] (to_le 8 watermark)))))
    (fun n => change (set (Some (MkFile [] (take n (to_le 8 watermark)))))).
(** [sync_all] of the marker and of the directory above. *)
Definition sync_marker (get : LaneDisk -> option file) (set : option file -> LaneDisk -> LaneDisk) : M unit :=
  _ ← fallible (change (fun d => match get d with Some f => set (Some (MkFile (content f) [])) d | None => d end));
  fallible (mret tt).

(*@ follower/records/append.rs 243-303 seal_sync *)
Definition seal_sync : M FollowerReceipt :=
  _ ← lift (validate_lane lane);
  d ← gets disk;
  if is_some (retired d) then
    watermark ← read_watermark (retired d) "follower retire marker is invalid";
    _ ← sync_marker retired set_retired;
    mret (MkReceipt (saturating_add_u64 watermark 1) watermark)
  else
    m ← gets memory;
    _ ← match m with
        | Some _ => mret tt
        | None =>
            _ ← invalidate_count;
            retained ← scan_lane None;
            _ ← persist_lane_records retained [];
            m ← lane_memory retained [];
            put_memory m
        end;
    m ← the_memory;
    _ ← (if needs_reconciliation m then _ ← invalidate_count; reconcile_lane_memory else mret tt);
    m ← the_memory;
    let durable := default 0 (last_key (records m)) in
    let base := default 0 (first_key (records m)) in
    d ← gets disk;
    _ ← (if is_some (sealed d) then
           stored ← read_watermark (sealed d) "follower seal marker is invalid";
           if negb (stored =? durable) then throw (node_error "follower seal watermark differs") else mret tt
         else _ ← the_dir; _ ← write_marker set_sealed durable; added 8);
    _ ← sync_marker sealed set_sealed;
    mret (MkReceipt base durable).

(** The watermark a retirement is taken at. *)
(*@ follower/records/append.rs 318-344 retire_sync *)
Definition retirement_watermark (d : LaneDisk) (durable : Z) (watermark : RetirementWatermark) : M Z :=
  match watermark with
  | Covered n => mret n
  | Recovered active =>
      if negb active && negb (durable =? 0) then throw (node_error "follower lane has uncovered records")
      else if is_some (retired d) then read_watermark (retired d) "follower retire marker is invalid"
      else if is_some (sealed d) then
        n ← read_watermark (sealed d) "follower seal marker is invalid";
        if negb (n =? durable) then throw (node_error "follower seal watermark differs") else mret n
      else if negb active then mret 0
      else throw (node_error "recovered follower lane has no native seal")
  end.

(** [remove_dir_all]: a failure leaves the entries that were not removed yet. *)
Definition remove_chunks : M unit := fallible_after
  (change (fun d => MkDisk (files d) None [] (sealed d) (retired d)))
  (fun n => change (fun d => match chunks d with Some dir => set_dir (drop n (read_dir dir)) d | None => d end)).

(*@ follower/records/append.rs 304-376 retire_sync *)
Definition retire_sync (watermark : RetirementWatermark) : M FollowerReceipt :=
  _ ← lift (validate_lane lane);
  _ ← ensure_lane_directories;
  retained ← scan_lane None;
  let durable := default 0 (last_key retained) in
  d ← gets disk;
  covered ← retirement_watermark d durable watermark;
  if covered <? durable then throw (node_error "follower lane has uncovered records")
  else
    _ ← (if is_some (retired d) then
           n ← read_watermark (retired d) "follower retire marker is invalid";
           if negb (n =? covered) then throw (node_error "follower retire watermark differs") else mret tt
         else write_marker set_retired covered);
    _ ← sync_marker retired set_retired;
    _ ← remove_chunks;
    _ ← (if is_some (sealed d) then fallible (change (set_sealed None)) else mret tt);
    _ ← fallible (mret tt);
    mret (MkReceipt (saturating_add_u64 covered 1) covered).

(** ** Reading a sealed tail *)

(** The loop over [records.range(first_sequence..)]. *)
(*@ follower/records/scan.rs 95-112 read_tail_records *)
Fixpoint read_page (max_bytes max_frames : Z) (rs : OrdMap StoredRecord) (page : list (list byte)) (bytes : Z) : M FollowerTailPage :=
  match rs with
  | [] => mret (MkPage page None)
  | (seq, r) :: rs =>
      if (len page =? max_frames) || (negb (len page =? 0) && (max_bytes <? saturating_add_u64 bytes (length_of r)))
      then mret (MkPage page (Some seq))
      else
        encoded ← read_indexed_record r;
        read_page max_bytes max_frames rs (page ++ [encoded]) (saturating_add_u64 bytes (length_of r))
  end.

(*@ follower/records/scan.rs 72-113 read_tail_records *)
Definition read_tail_records (first_sequence : Z) (index : OrdMap StoredRecord) (max_bytes max_frames : Z) : M FollowerTailPage :=
  d ← gets disk;
  let durable := default 0 (last_key index) in
  watermark ← read_watermark (sealed d) "follower seal marker is invalid";
  if negb (watermark =? durable) then throw (node_error "follower seal watermark differs")
  else if (len index =? 0) || (first_sequence <? default u64_max (first_key index))
  then throw (node_error "requested follower tail is not retained")
  else if saturating_add_u64 durable 1 <? first_sequence
  then throw (node_error "requested follower tail is beyond durable data")
  else read_page max_bytes max_frames (om_filter (fun s => first_sequence <=? s) index) [] 0.

(*@ follower/records/scan.rs 10-71 read_tail_sync *)
Definition read_tail_sync (first_sequence max_bytes max_frames : Z) : M FollowerTailPage :=
  _ ← lift (validate_lane lane);
  d ← gets disk;
  if negb (is_some (sealed d)) then throw (node_error "follower lane is not sealed")
  else
    m ← gets memory;
    let continue :=
      m ← the_memory;
      _ ← (if needs_reconciliation m then reconcile_lane_memory else mret tt);
      m ← the_memory;
      read_tail_records first_sequence (records m) max_bytes max_frames in
    match m with
    | Some _ => continue
    | None =>
        retained ← scan_lane None;
        open_records ← scan_chunk OPEN_LOG true None;
        attempt (lane_memory retained open_records) (fun result =>
          match result with
          | Ok m => _ ← put_memory m; continue
          | Err (LaneErr.Runtime (Error.Capacity _)) => read_tail_records first_sequence retained max_bytes max_frames
          | Err e => throw e
          end)
    end.

(** ** Startup *)

(*@ follower/directory.rs 127-160 validate_stored_lane *)
Definition validate_stored_lane : M unit :=
  _ ← fallible (mret tt);
  index ← scan_lane None;
  let durable := default 0 (last_key index) in
  d ← gets disk;
  _ ← (if is_some (sealed d) then
         n ← read_watermark (sealed d) "follower seal marker is invalid";
         if negb (n =? durable) then throw (node_error "follower seal watermark differs") else mret tt
       else mret tt);
  if is_some (retired d) then
    n ← read_watermark (retired d) "follower retire marker is invalid";
    if n <? durable then throw (node_error "follower lane has uncovered records") else mret tt
  else mret tt.

(** A lane that does not validate is moved to the quarantine. *)
Definition keep_or_quarantine : M bool :=
  attempt validate_stored_lane (fun result =>
    if is_ok result then mret true
    else _ ← fallible (change (fun d => MkDisk (files d) None [] None None)); mret false).

(** One lane of the scrub: the temporary of a crashed rewrite goes, and what is left must
    validate. *)
(*@ follower/directory.rs 72-102 scrub_followers *)
Definition scrub_lane : M bool :=
  _ ← fallible (mret tt);
  temporary ← lookup OPEN_TMP;
  _ ← match temporary with Some _ => _ ← remove_file OPEN_TMP; sync_directory | None => mret tt end;
  keep_or_quarantine.
End Lane.
