(* ===== verification/FollowerCrash.v ===== *)
(** * FollowerCrash: a follower lane survives crashes

    The disk of a lane as a structure: closed chunks named by their range, the open
    chunk, the temporary of a rewrite. Every disk an append passes through has this
    structure in each directory state a crash may restore, so that a restart finds the
    lane valid with every frame that was acknowledged and is not covered. *)

From Stdlib Require Import ZArith Lia Sorting.Sorted.
From Stdlib Require Import Strings.Byte.
From stdpp Require Import base strings.
From stdpp Require Import list.
From S2P Require Import Prelude OrdMap Bytes Identity Text LtxTypes Ltx LtxCodec Recovery NodeFrame FollowerRecords FollowerDisk FollowerLane.

Local Open Scope bool_scope.

(** ** Chunk names *)

Definition is_digit (c : byte) : Prop := 48 <= byte_val c <= 57.

Lemma digits_shape f z : 0 <= z -> Forall is_digit (digits f z) /\ (length (digits f z) <= f)%nat.
Proof.
  revert z. induction f as [|f IH]; intros z Hz; [done|]. cbn [digits]. destruct (Z.ltb_spec z 10).
  - split; [|cbn; lia]. apply Forall_singleton. unfold is_digit. rewrite digit_char_val; lia.
  - destruct (IH (z / 10)) as [IH1 IH2]; [apply Z.div_pos; lia|]. split.
    + apply Forall_app. split; [done|]. apply Forall_singleton. unfold is_digit.
      pose proof (Z.mod_pos_bound z 10 eq_refl). rewrite digit_char_val; lia.
    + rewrite length_app. cbn [length]. lia.
Qed.

Lemma padded_shape z : 0 <= z -> Forall is_digit (padded z) /\ length (padded z) = 20%nat.
Proof.
  intros Hz. destruct (digits_shape 20 z Hz) as [Hd Hl]. unfold padded, to_string_u64. split.
  - apply Forall_app. split; [|done]. apply Forall_forall. intros c Hc%list_elem_of_In%repeat_spec. subst c. unfold is_digit. by vm_compute.
  - rewrite length_app, repeat_length. lia.
Qed.

Lemma parse_digits_zeros lo hi sign k s : lo <= 0 <= hi -> parse_digits lo hi sign (repeat "0"%byte k ++ s) 0 = parse_digits lo hi sign s 0.
Proof.
  intros Hr. induction k as [|k IH]; [done|]. cbn [repeat app parse_digits].
  change (to_digit "0"%byte) with (Some 0). cbn [mbind option_bind]. change (0 * 10) with 0. rewrite Z.mul_0_r. change (0 + 0) with 0.
  by rewrite !(proj2 (Z.leb_le _ _)) by lia.
Qed.

Lemma parse_padded z : u64_ok z -> parse_u64 (padded z) = Some z.
Proof.
  intros Hz. unfold u64_ok in Hz. destruct (padded_shape z ltac:(lia)) as [Hd Hl].
  assert (parse_digits 0 u64_max 1 (padded z) 0 = Some z) as Hp.
  { unfold padded, to_string_u64. rewrite parse_digits_zeros by (unfold u64_max; lia).
    rewrite <- (app_nil_r (digits 20 z)), parse_digits_app; [cbn; f_equal; lia|unfold u64_max; lia|by left|lia|unfold u64_max in *; lia|lia]. }
  unfold parse_u64, parse_int. destruct (padded z) as [|c s]; [done|]. apply Forall_cons in Hd as [Hc _]. unfold is_digit in Hc.
  rewrite (proj2 (Z.eqb_neq (byte_val c) 43)), (proj2 (Z.eqb_neq (byte_val c) 45)) by lia. exact Hp.
Qed.

Lemma find_dash s t : Forall is_digit s -> list_find (fun b => b = "-"%byte) (s ++ "-"%byte :: t) = Some (length s, "-"%byte).
Proof.
  intros Hs. apply list_find_Some. split_and!; [by rewrite list_lookup_middle|done|].
  intros j y Hj Hlt ->. rewrite lookup_app_l in Hj by done. eapply Forall_lookup_1 in Hs; [|exact Hj].
  unfold is_digit in Hs. change (byte_val "-"%byte) with 45 in Hs. lia.
Qed.

Lemma parse_chunk_of first last_ : u64_ok first -> u64_ok last_ -> parse_chunk_name (chunk_name first last_) = Some (first, last_).
Proof.
  intros Hf Hl. destruct (padded_shape first ltac:(unfold u64_ok in *; lia)) as [Df Lf].
  destruct (padded_shape last_ ltac:(unfold u64_ok in *; lia)) as [Dl Ll].
  pose proof (parse_padded first Hf) as Pf. pose proof (parse_padded last_ Hl) as Pl.
  unfold parse_chunk_name, chunk_name. set (x := padded first) in *. set (y := padded last_) in *.
  change (text "-") with ["-"%byte]. cbn [app].
  assert (x ++ "-"%byte :: y ++ text ".log" = (x ++ "-"%byte :: y) ++ text ".log") as -> by (by rewrite <- app_assoc).
  assert (length (x ++ "-"%byte :: y) = 41%nat) as Lv by (rewrite length_app; cbn [length]; lia).
  assert (length ((x ++ "-"%byte :: y) ++ text ".log") = 45%nat) as -> by (rewrite length_app, Lv; done).
  rewrite drop_app_length', take_app_length' by (by rewrite Lv).
  rewrite len_app. unfold len at 1. rewrite Lv. cbn [Z.of_nat].
  rewrite (proj2 (Z.leb_le 4 _)) by (pose proof (len_nonneg (text ".log")); lia). rewrite bool_decide_eq_true_2 by done. cbn [andb].
  rewrite find_dash by done. cbn [fmap option_fmap option_map fst mbind option_bind].
  rewrite take_app_length, (drop_app_ge x) by lia. rewrite (Nat.sub_succ_l _ _ (le_n _)), Nat.sub_diag. cbn [drop].
  rewrite drop_0. unfold len. rewrite Lf, Ll. cbn [Z.of_nat]. rewrite Pf. cbn [negb orb]. cbn [mbind option_bind Z.eqb]. by rewrite Pl.
Qed.

(** ** Directories *)

Lemma dir_find_elem name i (dir : Dir) : NoDup (map fst dir) -> dir_find name dir = Some i <-> (name, i) ∈ dir.
Proof.
  intros Hn. unfold dir_find. induction dir as [|[n k] dir IH]; cbn [List.find].
  - split; [done|]. by intros ?%not_elem_of_nil.
  - cbn [map fst] in Hn. apply NoDup_cons in Hn as [Hk Hn]. rewrite elem_of_cons. case_bool_decide as E; cbn [fst] in E.
    + subst n. cbn. split; [intros [= ->]; by left|]. intros [[= ->]|Hin]; [done|]. destruct Hk.
      apply list_elem_of_fmap. by exists (name, i).
    + rewrite IH by done. split; [by right|]. intros [[= -> ->]|?]; done.
Qed.

Lemma dir_find_None name (dir : Dir) : dir_find name dir = None <-> name ∉ map fst dir.
Proof.
  unfold dir_find. induction dir as [|[n k] dir IH]; cbn [List.find map fst].
  - split; [intros _; apply not_elem_of_nil|done].
  - case_bool_decide as E; cbn [fst] in E; rewrite not_elem_of_cons; [subst n; cbn; naive_solver|]. rewrite IH. naive_solver.
Qed.

Lemma dir_remove_absent name (dir : Dir) : name ∉ map fst dir -> dir_remove name dir = dir.
Proof.
  intros Hn. unfold dir_remove. induction dir as [|[n k] dir IH]; [done|]. cbn [map fst] in Hn. apply not_elem_of_cons in Hn as [H1 H2].
  cbn [List.filter fst]. rewrite bool_decide_eq_true_2 by done. by rewrite IH.
Qed.

Lemma dir_remove_perm name i (dir rest : Dir) : NoDup (map fst dir) -> dir ≡ₚ (name, i) :: rest -> dir_remove name dir ≡ₚ rest.
Proof.
  intros Hn Hp. assert (dir_remove name dir ≡ₚ dir_remove name ((name, i) :: rest)) as -> by (by apply filter_perm).
  assert (name ∉ map fst rest) as Hr.
  { rewrite Hp in Hn. cbn [map fst] in Hn. by apply NoDup_cons in Hn as [? _]. }
  unfold dir_remove at 1. cbn [List.filter fst]. rewrite bool_decide_eq_false_2 by (by intros []).
  fold (dir_remove name rest). by rewrite dir_remove_absent.
Qed.

(** ** Sequences of frames *)

Section Crash.
Context `{Crc64, Blake3, Lz4Flex}.
Context (lane : Lane) (limits : Limits).

Definition valid (b : Body) : Prop := valid_body lane limits b = true.

(** The bodies carry consecutive sequences. *)
Fixpoint in_order (bs : list Body) : Prop :=
  match bs with
  | b :: ((b' :: _) as bs) => b'.1 = b.1 + 1 /\ in_order bs
  | _ => True
  end.

Definition chunk_of (c : list Body) : str := chunk_name (default 0 (fst <$> head c)) (default 0 (fst <$> last c)).

(** ** The structure of a lane's directory *)

(** A closed chunk: named by its range, synced, and of a size a file has. *)
Definition closed_entry (fs : list file) (e : str * nat) (c : list Body) : Prop :=
  c <> [] /\ e.1 = chunk_of c /\ fs !! e.2 = Some (MkFile (log c) []) /\ len (log c) <= u64_max.

Definition open_entry (o : option (nat * file)) : Dir := match o with Some (i, _) => [(OPEN_LOG, i)] | None => [] end.

(** [ces] are the entries of the closed chunks, [o] the open chunk, whose bytes are a
    prefix of the records of [full], and [tmp] what a rewrite left. *)
Record structure (fs : list file) (dir ces : Dir) (closed : list (list Body)) (o : option (nat * file)) (full : list Body) (tmp : Dir) : Prop := {
  st_perm : dir ≡ₚ ces ++ open_entry o ++ tmp;
  st_names : NoDup (map fst dir);
  st_files : NoDup (map snd dir);
  st_bound : Forall (fun e => (e.2 < length fs)%nat) dir;
  st_closed : Forall2 (closed_entry fs) ces closed;
  st_open : match o with Some (i, f) => fs !! i = Some f /\ content f `prefix_of` log full | None => full = [] end;
  st_tmp : map fst tmp `sublist_of` [OPEN_TMP];
  st_valid : Forall valid (concat closed ++ full);
  st_order : in_order (concat closed ++ full);
  st_size : len (log full) <= u64_max
}.

(** Every frame of [acked] is in a closed chunk or in the synced part of the open one. *)
Definition safe (acked : list Body) (fs : list file) (dir : Dir) : Prop := exists ces closed o full tmp sync,
  structure fs dir ces closed o full tmp
  /\ match o with Some (_, f) => log sync `prefix_of` durable f | None => sync = [] end
  /\ sync `prefix_of` full
  /\ Forall (fun b => b ∈ concat closed ++ sync) acked.

(** So it is in every directory a crash may restore. *)
Definition disk_safe (acked : list Body) (d : LaneDisk) : Prop :=
  match chunks d with
  | None => acked = []
  | Some dir => Forall (safe acked (files d)) (dir :: unsynced d)
  end /\ sealed d = None /\ retired d = None.

(** ** Files *)

Lemma closed_entry_frame fs fs' e c : fs' !! e.2 = fs !! e.2 -> closed_entry fs e c -> closed_entry fs' e c.
Proof. intros E (Hc & Hn & Hf & Hs). split_and!; try done. by rewrite E. Qed.

(** Files outside the structure do not matter. *)
Lemma structure_frame fs fs' dir ces closed o full tmp :
  structure fs dir ces closed o full tmp -> (length fs <= length fs')%nat ->
  (forall e, e ∈ ces ++ open_entry o -> fs' !! e.2 = fs !! e.2) -> structure fs' dir ces closed o full tmp.
Proof.
  intros [Hp Hn Hi Hb Hc Ho Ht Hv Hr Hs] Hl He. constructor; try done.
  - eapply Forall_impl; [exact Hb|]. cbn. lia.
  - clear -Hc He. assert (forall e, e ∈ ces -> fs' !! e.2 = fs !! e.2) as He' by (intros e ?; apply He, elem_of_app; by left).
    clear He. induction Hc as [|e c ces closed Hec Hc IH]; [done|]. constructor.
    + eapply closed_entry_frame; [|exact Hec]. apply He'. by left.
    + apply IH. intros e' ?. apply He'. by right.
  - destruct o as [[i f]|]; [|done]. pose proof (He (OPEN_LOG, i)) as Ei. cbn [snd] in Ei. rewrite Ei; [done|]. apply elem_of_app. right. by left.
Qed.

Lemma file_crash_closed bs f : file_crash (MkFile bs []) f -> f = MkFile bs [].
Proof.
  intros [Hp (kept & Hk%prefix_nil_inv & Hd)]. destruct f as [d p]. cbn in *. subst kept p. by rewrite Hd, app_nil_r.
Qed.

Lemma file_crash_grows f f' : file_crash f f' -> content f' `prefix_of` content f /\ durable f `prefix_of` durable f'.
Proof.
  intros [Hp (kept & Hk & Hd)]. unfold content. rewrite Hp, app_nil_r, Hd. split; [by apply prefix_app|]. by exists kept.
Qed.

(** A crash keeps the structure, with less of the open chunk. *)
Lemma structure_crash fs fs' dir ces closed o full tmp : Forall2 file_crash fs fs' -> structure fs dir ces closed o full tmp ->
  exists o', structure fs' dir ces closed o' full tmp
    /\ option_Forall2 (fun x y => x.1 = y.1 /\ file_crash x.2 y.2) o o'.
Proof.
  intros Hf [Hp Hn Hi Hb Hc Ho Ht Hv Hr Hs]. pose proof (Forall2_length _ _ _ Hf) as Hl.
  assert (Forall2 (closed_entry fs') ces closed) as Hc'.
  { eapply Forall2_impl; [exact Hc|]. intros e c (? & ? & He & ?). split_and!; try done.
    eapply Forall2_lookup_l in Hf as (f' & Hf' & Hcr); [|exact He]. apply file_crash_closed in Hcr. by subst f'. }
  assert (Forall (fun e : str * nat => (e.2 < length fs')%nat) dir) as Hb' by (by rewrite <- Hl).
  destruct o as [[i f]|]; [|by exists None; split; constructor].
  destruct Ho as [Hi' Hpre]. eapply Forall2_lookup_l in Hf as (f' & Hf' & Hcr); [|exact Hi'].
  exists (Some (i, f')). split; [|by constructor]. constructor; try done. split; [done|].
  etrans; [|exact Hpre]. by apply file_crash_grows.
Qed.

Lemma safe_crash acked fs fs' dir : Forall2 file_crash fs fs' -> safe acked fs dir -> safe acked fs' dir.
Proof.
  intros Hf (ces & closed & o & full & tmp & sync & Hst & Hsy & Hpre & Ha).
  destruct (structure_crash _ _ _ _ _ _ _ _ Hf Hst) as (o' & Hst' & Ho). exists ces, closed, o', full, tmp, sync.
  split_and!; try done. destruct Ho as [[i f] [i' f'] [Hi Hcr]|]; [|done]. cbn in *. etrans; [exact Hsy|]. by apply file_crash_grows.
Qed.

Lemma disk_safe_crash acked d d' : disk_safe acked d -> disk_crash d d' -> disk_safe acked d' /\ unsynced d' = [].
Proof.
  intros (Hd & Hs & Hr) (Hf & Hc & Hu & Hs' & Hr'). rewrite Hs in Hs'. rewrite Hr in Hr'. inversion Hs' as [|Es]. inversion Hr' as [|Er].
  unfold disk_safe. split; [|done]. split; [|done]. destruct (chunks d) as [dir|]; [|by rewrite Hc].
  destruct Hc as (dir' & -> & Hin). rewrite Hu. apply Forall_singleton. eapply safe_crash; [exact Hf|].
  by eapply Forall_forall in Hd.
Qed.

(** ** Reading what a crash left *)

Lemma prefix_split_record b (p rest : list byte) : p `prefix_of` record_of b ++ rest ->
  torn b p \/ exists p', p = record_of b ++ p' /\ p' `prefix_of` rest.
Proof.
  intros Hp. destruct (prefix_weak_total p (record_of b) (record_of b ++ rest)) as [[k Hk]|[k ->]];
    [done|by exists rest| |].
  - destruct k as [|x k]; [|left; by exists (x :: k)]. right. exists []. rewrite app_nil_r in *. split; [done|apply prefix_nil].
  - right. exists k. split; [done|]. by apply prefix_app_inv in Hp.
Qed.

(** A prefix of a log is a log and a torn record. *)
Lemma prefix_log full p : Forall valid full -> p `prefix_of` log full ->
  exists bs tail, p = log bs ++ tail /\ bs `prefix_of` full /\ (tail = [] \/ exists b, valid b /\ torn b tail).
Proof.
  revert p. induction full as [|b full IH]; intros p Hv Hp.
  - apply prefix_nil_inv in Hp as ->. exists [], []. split_and!; [done..|by left].
  - apply Forall_cons in Hv as [Hb Hv]. rewrite log_cons in Hp. apply prefix_split_record in Hp as [Ht|(p' & -> & Hp)].
    + exists [], p. split_and!; [done|apply prefix_nil|]. right. by exists b.
    + destruct (IH p' Hv Hp) as (bs & tail & -> & Hpre & Ht). exists (b :: bs), tail.
      rewrite log_cons, <- app_assoc. split_and!; [done|by apply prefix_cons|done].
Qed.

Lemma tail_halts known tail : tail = [] \/ (exists b, valid b /\ torn b tail) -> halts lane limits known tail.
Proof. intros [->|(b & Hv & Ht)]; [done|by eapply torn_halts]. Qed.

Lemma tail_stops tail : tail = [] \/ (exists b, valid b /\ torn b tail) -> stops lane limits tail.
Proof.
  intros Ht b rest Hv ->. pose proof (tail_halts None _ Ht) as Hh. unfold halts in Hh. by rewrite scan_turn_record in Hh.
Qed.


(** ** How file operations keep a directory safe *)

Lemma in_order_seqs bs : Forall valid bs -> Forall (fun b => u64_ok b.1) bs.
Proof. intros Hv. eapply Forall_impl; [exact Hv|]. intros b Hb. by apply (valid_body_facts lane limits). Qed.

Lemma chunk_range (c : list Body) : c <> [] -> exists b b', head c = Some b /\ last c = Some b' /\ b ∈ c /\ b' ∈ c.
Proof.
  intros Hc. destruct c as [|b c]; [done|]. destruct (last (b :: c)) as [b'|] eqn:El; [|by apply last_None in El].
  exists b, b'. split_and!; [done..|by left|]. apply last_Some in El as [l ->]. apply elem_of_app. right. by left.
Qed.

(** The name of a closed chunk parses to the range of its bodies. *)
Lemma closed_name fs e c : Forall valid c -> closed_entry fs e c ->
  exists b b', head c = Some b /\ last c = Some b' /\ parse_chunk_name e.1 = Some (b.1, b'.1).
Proof.
  intros Hv (Hc & -> & _ & _). destruct (chunk_range c Hc) as (b & b' & Hh & Hl & Hb & Hb'). exists b, b'. split_and!; [done..|].
  unfold chunk_of. rewrite Hh, Hl. cbn. apply in_order_seqs in Hv. rewrite Forall_forall in Hv.
  apply parse_chunk_of; by apply Hv.
Qed.

Lemma closed_elem fs dir ces closed o full tmp e : structure fs dir ces closed o full tmp -> e ∈ ces ->
  exists c, c ∈ closed /\ Forall valid c /\ closed_entry fs e c.
Proof.
  intros Hst He. apply st_closed in Hst as Hc. apply list_elem_of_lookup in He as [k He].
  eapply Forall2_lookup_l in Hc as (c & Hc & Hec); [|exact He]. apply list_elem_of_lookup_2 in Hc. exists c. split_and!; try done.
  pose proof (st_valid _ _ _ _ _ _ _ Hst) as Hv. apply Forall_app in Hv as [Hv _]. rewrite Forall_forall in Hv |- *.
  intros b Hb. apply Hv. apply list_elem_of_In, in_concat. exists c. by rewrite <- !list_elem_of_In.
Qed.

(** A name that is no chunk's is no closed chunk's. *)
Lemma closed_unnamed fs dir ces closed o full tmp name : structure fs dir ces closed o full tmp -> parse_chunk_name name = None -> name ∉ map fst ces.
Proof.
  intros Hst Hp Hin. apply list_elem_of_fmap in Hin as (e & -> & He).
  destruct (closed_elem _ _ _ _ _ _ _ _ Hst He) as (c & _ & Hv & Hc). destruct (closed_name _ _ _ Hv Hc) as (? & ? & _ & _ & Hn). congruence.
Qed.

Lemma closed_unlinked fs dir ces closed o full tmp i : structure fs dir ces closed o full tmp ->
  (forall n, (n, i) ∈ dir -> parse_chunk_name n = None) -> forall e, e ∈ ces -> e.2 <> i.
Proof.
  intros Hst Hn [n k] He <-. destruct (closed_elem _ _ _ _ _ _ _ _ Hst He) as (c & _ & Hv & Hec).
  destruct (closed_name _ _ _ Hv Hec) as (b & b' & _ & _ & Hp). cbn [fst snd] in *.
  rewrite Hn in Hp; [done|]. rewrite (st_perm _ _ _ _ _ _ _ Hst). apply elem_of_app. by left.
Qed.

Lemma open_linked fs dir ces closed i f full tmp : structure fs dir ces closed (Some (i, f)) full tmp -> (OPEN_LOG, i) ∈ dir.
Proof. intros Hst. rewrite (st_perm _ _ _ _ _ _ _ Hst). rewrite !elem_of_app. right. left. by left. Qed.

(** The open chunk is the file of its name alone. *)
Lemma open_names fs dir ces closed i f full tmp n : structure fs dir ces closed (Some (i, f)) full tmp -> (n, i) ∈ dir -> n = OPEN_LOG.
Proof.
  intros Hst Hn. apply open_linked in Hst as Ho. apply st_files in Hst.
  apply list_elem_of_lookup in Hn as [k Hk], Ho as [k' Hk'].
  assert (k = k') as -> by (eapply NoDup_lookup; [exact Hst|..]; rewrite list_lookup_fmap, ?Hk, ?Hk'; done). congruence.
Qed.

(** A file that keeps at most its bytes and at least what of a log was synced. *)
Definition resyncs (f f' : file) : Prop :=
  content f' `prefix_of` content f /\ forall s, Forall valid s -> log s `prefix_of` durable f -> log s `prefix_of` durable f'.

Lemma structure_resync fs dir ces closed i f f' full tmp : structure fs dir ces closed (Some (i, f)) full tmp ->
  content f' `prefix_of` log full -> structure (<[i := f']> fs) dir ces closed (Some (i, f')) full tmp.
Proof.
  intros Hst Hf. pose proof (fun n => open_names _ _ _ _ _ _ _ _ n Hst) as Hn.
  assert (forall e, e ∈ ces -> e.2 <> i) as Hne.
  { eapply closed_unlinked; [exact Hst|]. intros n Hin. by rewrite (Hn n Hin). }
  destruct Hst as [Hp Hnm Hi Hb Hc [Ho Ho'] Ht Hv Hr Hs]. constructor; try done.
  - by rewrite length_insert.
  - clear -Hc Hne. induction Hc as [|e c ces closed Hec Hc IH]; [done|]. constructor.
    + eapply closed_entry_frame; [|exact Hec]. apply list_lookup_insert_ne. symmetry. apply Hne. by left.
    + apply IH. intros e' ?. apply Hne. by right.
  - split; [|done]. apply list_lookup_insert_eq. by eapply lookup_lt_Some.
Qed.

Lemma safe_resync acked fs dir i f f' : safe acked fs dir -> fs !! i = Some f ->
  (forall n, (n, i) ∈ dir -> parse_chunk_name n = None) -> resyncs f f' -> safe acked (<[i := f']> fs) dir.
Proof.
  intros (ces & closed & o & full & tmp & sync & Hst & Hsy & Hpre & Ha) Hf Hn [Hc Hd].
  pose proof (closed_unlinked _ _ _ _ _ _ _ _ Hst Hn) as Hne.
  assert ((exists f0, o = Some (i, f0)) \/ ~ (exists f0, o = Some (i, f0))) as [[f0 ->]|Hno].
  { destruct o as [[k f0]|]; [|right; by intros [? ?]]. destruct (decide (k = i)) as [->|]; [left; by eexists|right; intros [? [=]]; done]. }
  - destruct (st_open _ _ _ _ _ _ _ Hst) as [Ho Ho']. rewrite Hf in Ho. injection Ho as <-.
    exists ces, closed, (Some (i, f')), full, tmp, sync. split_and!; try done.
    + eapply structure_resync; [exact Hst|]. by etrans.
    + apply Hd; [|done]. pose proof (st_valid _ _ _ _ _ _ _ Hst) as [_ Hv]%Forall_app. destruct Hpre as [k ->]. by apply Forall_app in Hv as [? _].
  - exists ces, closed, o, full, tmp, sync. split_and!; try done. eapply structure_frame; [exact Hst|by rewrite length_insert|].
    intros e [He|He]%elem_of_app; apply list_lookup_insert_ne; symmetry; [by apply Hne|].
    destruct o as [[k f0]|]; [|by apply not_elem_of_nil in He]. apply list_elem_of_singleton in He as ->. cbn. intros ->. by apply Hno; eexists.
Qed.

(** A file that is linked as the temporary, or not at all. *)
Lemma safe_other acked fs dir i f' : safe acked fs dir -> (forall n, (n, i) ∈ dir -> n = OPEN_TMP) -> safe acked (<[i := f']> fs) dir.
Proof.
  intros (ces & closed & o & full & tmp & sync & Hst & Hsy & Hpre & Ha) Hn.
  exists ces, closed, o, full, tmp, sync. split_and!; try done. eapply structure_frame; [exact Hst|by rewrite length_insert|].
  intros e [He|He]%elem_of_app; apply list_lookup_insert_ne; symmetry.
  - eapply closed_unlinked; [exact Hst| |done]. intros n Hin. by rewrite (Hn n Hin).
  - destruct o as [[k f0]|]; [|by apply not_elem_of_nil in He]. apply list_elem_of_singleton in He as ->. cbn. intros ->.
    by specialize (Hn _ (open_linked _ _ _ _ _ _ _ _ Hst)).
Qed.

Lemma safe_new acked fs dir f' : safe acked fs dir -> safe acked (fs ++ [f']) dir.
Proof.
  intros (ces & closed & o & full & tmp & sync & Hst & Hsy & Hpre & Ha).
  exists ces, closed, o, full, tmp, sync. split_and!; try done. eapply structure_frame; [exact Hst|rewrite length_app; lia|].
  intros e He. apply lookup_app_l. pose proof (st_bound _ _ _ _ _ _ _ Hst) as Hb. rewrite Forall_forall in Hb. apply Hb.
  rewrite (st_perm _ _ _ _ _ _ _ Hst), app_assoc. apply elem_of_app. by left.
Qed.

Lemma resyncs_sync f : resyncs f (MkFile (content f) []).
Proof.
  split; unfold content; cbn; [by rewrite app_nil_r|]. intros s _ Hs. etrans; [exact Hs|]. by eexists.
Qed.

(** Cutting a torn record off. *)
Lemma resyncs_set_len f bs tail : content f = log bs ++ tail -> Forall valid bs ->
  tail = [] \/ (exists b, valid b /\ torn b tail) ->
  let n := Z.to_nat (len (log bs)) in
  resyncs f (MkFile (take n (durable f)) (take (n - length (durable f)) (pending f)))
  /\ content (MkFile (take n (durable f)) (take (n - length (durable f)) (pending f))) = log bs.
Proof.
  intros Hc Hv Ht n. assert (n = length (log bs)) as Hn by (unfold n, len; lia).
  assert (content (MkFile (take n (durable f)) (take (n - length (durable f)) (pending f))) = log bs) as He.
  { unfold content. cbn [durable pending]. rewrite <- take_app. fold (content f). rewrite Hc. by apply take_app_length'. }
  split; [|done]. split; [rewrite He, Hc; by eexists|]. cbn [durable]. intros s Hs [k Hk].
  assert (s `prefix_of` bs) as [r ->].
  { eapply (log_prefix lane limits _ _ (k ++ pending f) tail); [done|done|by apply tail_stops|]. rewrite <- Hc, app_assoc, <- Hk. done. }
  exists (take (length (log r)) k). rewrite Hk. rewrite Hn, log_app, length_app. apply take_app_add.
Qed.
End Crash.

(** ** How disks stay safe *)

Section Disks.
Context `{Crc64, Blake3, Lz4Flex}.
Context (lane : Lane) (limits : Limits) (acked : list Body).
Abbreviation Safe := (disk_safe lane limits acked).

(** The directory states a crash may restore. *)
Definition dirs (d : LaneDisk) : list Dir := match chunks d with Some dir => dir :: unsynced d | None => [] end.

(** A file that is no closed chunk in any of them. *)
Definition unlinked (i : nat) (d : LaneDisk) : Prop := forall dir n, dir ∈ dirs d -> (n, i) ∈ dir -> parse_chunk_name n = None.

Lemma disk_safe_files fs' d : Safe d -> (forall dir, dir ∈ dirs d -> safe lane limits acked (files d) dir -> safe lane limits acked fs' dir) ->
  Safe (MkDisk fs' (chunks d) (unsynced d) (sealed d) (retired d)).
Proof.
  intros (Hd & Hs & Hr) Hf. unfold disk_safe, dirs in *. cbn [chunks files unsynced sealed retired]. split; [|done].
  destruct (chunks d) as [dir|]; [|done]. rewrite Forall_forall in Hd |- *. auto.
Qed.

Lemma disk_resync d i f f' : Safe d -> files d !! i = Some f -> unlinked i d -> resyncs lane limits f f' -> Safe (set_file i f' d).
Proof.
  intros Hd Hf Hu Hr. apply disk_safe_files; [done|]. intros dir Hdir Hsf. eapply safe_resync; [done..| |done]. intros n. by apply Hu.
Qed.

(** Syncing a file never hurts: a closed chunk is synced already. *)
Lemma disk_sync d i f : Safe d -> files d !! i = Some f -> Safe (set_file i (MkFile (content f) []) d).
Proof.
  intros Hd Hf. apply disk_safe_files; [done|]. intros dir Hdir Hsf.
  destruct (decide (f = MkFile (content f) [])) as [<-|Hne]; [by rewrite list_insert_id|].
  eapply safe_resync; [done..| |apply resyncs_sync]. intros n Hn.
  destruct Hsf as (ces & closed & o & full & tmp & sync & Hst & _). rewrite (st_perm _ _ _ _ _ _ _ _ _ Hst), !elem_of_app in Hn.
  destruct Hn as [Hn|[Hn|Hn]].
  - destruct (closed_elem _ _ _ _ _ _ _ _ _ _ Hst Hn) as (c & _ & _ & (_ & _ & Hc & _)). cbn in Hc. rewrite Hf in Hc. injection Hc as ->.
    unfold content in Hne. cbn in Hne. by rewrite app_nil_r in Hne.
  - destruct o as [[k f0]|]; [|by apply not_elem_of_nil in Hn]. apply list_elem_of_singleton in Hn. by injection Hn as -> _.
  - pose proof (st_tmp _ _ _ _ _ _ _ _ _ Hst) as Ht. assert (n ∈ map fst tmp) as Hn' by (apply list_elem_of_fmap; by exists (n, i)).
    eapply elem_of_submseteq in Hn'; [|by apply sublist_submseteq]. apply list_elem_of_singleton in Hn'. by subst n.
Qed.

Lemma runs_sync_data {b} i w (Q : World -> unit -> Prop) E : Safe (disk w) -> (b = true -> E w) ->
  (forall d, Safe d -> (files (disk w) !! i = None /\ d = disk w \/ exists f, files (disk w) !! i = Some f /\ d = set_file i (MkFile (content f) []) (disk w)) -> Q (set_disk d w) tt) ->
  runs_with b Safe (sync_data i) w Q E.
Proof.
  intros Hs HE HQ. apply runs_fallible; [done|]. apply runs_change.
  - destruct (files (disk w) !! i) as [f|] eqn:Ef; [by apply disk_sync|done].
  - destruct (files (disk w) !! i) as [f|] eqn:Ef; apply HQ; eauto using disk_sync.
Qed.

Lemma disk_sync_dir d : Safe d -> Safe (sync_dir d).
Proof.
  intros (Hd & Hs & Hr). unfold disk_safe, sync_dir. cbn [chunks files unsynced sealed retired]. split; [|done].
  destruct (chunks d); [|done]. by apply Forall_cons in Hd as [? _]; apply Forall_singleton.
Qed.

Lemma runs_sync_directory {b} w (Q : World -> unit -> Prop) E : Safe (disk w) -> (b = true -> E w) ->
  Q (set_disk (sync_dir (disk w)) w) tt -> runs_with b Safe sync_directory w Q E.
Proof. intros Hs HE HQ. apply runs_fallible; [done|]. apply runs_change; [by apply disk_sync_dir|done]. Qed.

(** A new state of the directory: it and the old ones are safe. *)
Lemma disk_set_dir d dir old : Safe d -> chunks d = Some old -> safe lane limits acked (files d) dir -> Safe (set_dir dir d).
Proof.
  intros (Hd & Hs & Hr) Hc Hdir. unfold disk_safe, set_dir. cbn [chunks files unsynced sealed retired]. split; [|done].
  rewrite Hc in Hd |- *. by apply Forall_cons.
Qed.
End Disks.

(** ** Scans *)

Definition keyed (rs : list StoredRecord) : OrdMap StoredRecord := map (fun r => (sequence r, r)) rs.

Lemma keyed_fst rs : map fst (keyed rs) = map sequence rs.
Proof. unfold keyed. by rewrite map_map. Qed.
Lemma keyed_snd rs : map snd (keyed rs) = rs.
Proof. unfold keyed. rewrite map_map. apply map_id. Qed.

Section Locate.
Context `{Blake3}.

(** The locations of all bodies of a lane. *)
Definition located (closed : list (list Body)) (bs : list Body) : list StoredRecord :=
  concat (map (fun c => locate (chunk_of c) 0 c) closed) ++ locate OPEN_LOG 0 bs.

Lemma locate_seqs path n bs : map sequence (locate path n bs) = map fst bs.
Proof. revert n. induction bs as [|b bs IH]; intros n; [done|]. cbn. by rewrite IH. Qed.

Lemma locate_head path n bs : sequence <$> head (locate path n bs) = fst <$> head bs.
Proof. by destruct bs. Qed.

Lemma locate_last path n bs : sequence <$> last (locate path n bs) = fst <$> last bs.
Proof.
  revert n. induction bs as [|b bs IH]; intros n; [done|]. cbn [locate]. destruct bs as [|b' bs]; [done|].
  change (last (b :: b' :: bs)) with (last (b' :: bs)). rewrite <- (IH (n + RECORD_HEADER_BYTES + len b.2)). done.
Qed.

Lemma located_seqs closed bs : map sequence (located closed bs) = map fst (concat closed ++ bs).
Proof.
  unfold located. rewrite !map_app, locate_seqs. f_equal. induction closed as [|c closed IH]; [done|].
  cbn [map concat]. by rewrite !map_app, locate_seqs, IH.
Qed.

Lemma in_order_sorted bs : in_order bs -> StronglySorted Z.lt (map fst bs).
Proof.
  induction bs as [|b bs IH]; intros Hb; [constructor|]. assert (in_order bs) as Ho by (destruct bs; [done|apply Hb]).
  cbn [map]. constructor; [by apply IH|]. destruct bs as [|b' bs]; [constructor|]. destruct Hb as [Hb _].
  specialize (IH Ho). cbn [map] in *. apply StronglySorted_inv in IH as [_ IH]. constructor; [lia|].
  eapply Forall_impl; [exact IH|]. cbn. lia.
Qed.

Lemma in_order_contiguous bs : in_order bs -> Forall (fun b => u64_ok b.1) bs -> contiguous (map fst bs) = true.
Proof.
  induction bs as [|b bs IH]; intros Hb Hv; [done|]. apply Forall_cons in Hv as [Hu Hv]. destruct bs as [|b' bs]; [done|].
  destruct Hb as [Hb Ho]. cbn [map contiguous] in *. rewrite IH by done. rewrite bool_decide_eq_true_2; [done|].
  apply checked_add_u64_Some. apply Forall_cons in Hv as [Hu' _]. unfold u64_ok in *. lia.
Qed.

Lemma in_order_app_l bs bs' : in_order (bs ++ bs') -> in_order bs.
Proof.
  induction bs as [|b bs IH]; intros Hb; [done|]. destruct bs as [|b1 bs]; [done|]. cbn [app in_order] in *. naive_solver.
Qed.

Lemma in_order_app_r bs bs' : in_order (bs ++ bs') -> in_order bs'.
Proof.
  induction bs as [|b bs IH]; intros Hb; [done|]. apply IH. cbn [app] in Hb. destruct (bs ++ bs'); [done|apply Hb].
Qed.

Lemma in_order_prefix cs bs full : bs `prefix_of` full -> in_order (cs ++ full) -> in_order (cs ++ bs).
Proof. intros [k ->]. rewrite app_assoc. apply in_order_app_l. Qed.

Lemma collect_new chunk index : om_sorted index -> NoDup (map fst index ++ map sequence chunk) ->
  collect chunk index = Ok (om_extend index (keyed chunk)).
Proof.
  revert index. induction chunk as [|r chunk IH]; intros index Hs Hn; [done|]. cbn [collect map] in *.
  apply NoDup_app in Hn as (N1 & N2 & N3). apply NoDup_cons in N3 as [N3 N4].
  assert (sequence r ∉ map fst index) as Hr by (intros Hin; apply (N2 _ Hin); by left).
  rewrite (proj2 (om_lookup_None _ _) Hr). apply IH; [by apply om_insert_sorted|]. apply NoDup_app.
  split_and!; [apply sorted_nodup; by apply om_insert_sorted| |done].
  intros x [->|Hx]%om_insert_keys; [done|]. intros Hl. apply (N2 _ Hx). by right.
Qed.

(** A map built from entries in any order is the sorted list of them. *)
Lemma extend_perm rs rs' : StronglySorted Z.lt (map sequence rs) -> rs ≡ₚ rs' -> om_extend [] (keyed rs') = keyed rs.
Proof.
  intros Hs Hp. assert (om_sorted (keyed rs)) as Hk by (unfold om_sorted; by rewrite keyed_fst).
  assert (om_sorted (om_extend [] (keyed rs'))) as Hk' by (by apply om_extend_sorted; constructor).
  apply om_ext; [done..|]. intros k. apply option_eq. intros r. rewrite !om_lookup_elem by done.
  rewrite om_extend_elem; [|constructor|].
  - assert (keyed rs ≡ₚ keyed rs') as -> by (by apply Permutation_map). split; [|by right]. by intros [?%not_elem_of_nil|?].
  - cbn [map app]. rewrite keyed_fst, <- Hp. by apply sorted_nodup.
Qed.
End Locate.

(** What a run leaves alone. *)
Definition kept (w w' : World) : Prop :=
  chunks (disk w') = chunks (disk w) /\ unsynced (disk w') = unsynced (disk w) /\ memory w' = memory w.

Lemma kept_refl w : kept w w.
Proof. done. Qed.

Section Scans.
Context `{Crc64, Blake3, Lz4Flex, ReadDir}.
Context (lane : Lane) (limits : Limits) (acked : list Body).
Abbreviation Safe := (disk_safe lane limits acked).
Context (faulty : bool) (dir ces tmp : Dir) (closed : list (list Body)) (full bs : list Body) (known : option LaneMemory).
Abbreviation runs := (runs_with faulty).

(** The lane in a world, its open chunk split into complete records and a torn one. *)
Record view (w : World) (o : option (nat * file)) (tail : list byte) : Prop := {
  v_dir : chunks (disk w) = Some dir;
  v_structure : structure lane limits (files (disk w)) dir ces closed o full tmp;
  v_prefix : bs `prefix_of` full;
  v_open : match o with Some (_, f) => content f = log bs ++ tail | None => bs = [] /\ tail = [] end;
  v_tail : tail = [] \/ exists b, valid lane limits b /\ torn b tail;
  v_unlinked : match o with Some (i, _) => unlinked i (disk w) | None => True end;
  v_synced : exists sync, sync `prefix_of` full /\ match o with Some (_, f) => log sync `prefix_of` durable f | None => sync = [] end
                          /\ Forall (fun b => b ∈ concat closed ++ sync) acked;
  v_safe : Safe (disk w)
}.

Lemma view_find w o tail : view w o tail -> dir_find OPEN_LOG dir = fst <$> o.
Proof.
  intros [_ Hst _ _ _ _ _ _]. pose proof (st_names _ _ _ _ _ _ _ _ _ Hst) as Hn. destruct o as [[i f]|].
  - apply dir_find_elem; [done|]. by eapply open_linked.
  - apply dir_find_None. intros Hin. apply list_elem_of_fmap in Hin as ([n k] & Hnk & Hin). cbn in Hnk. subst n.
    rewrite (st_perm _ _ _ _ _ _ _ _ _ Hst) in Hin. cbn [open_entry app] in Hin. apply elem_of_app in Hin as [Hin|Hin].
    + apply (closed_unnamed _ _ _ _ _ _ _ _ _ OPEN_LOG Hst); [done|]. apply list_elem_of_fmap. by exists (OPEN_LOG, k).
    + assert (OPEN_LOG ∈ map fst tmp) as Hn' by (apply list_elem_of_fmap; by exists (OPEN_LOG, k)).
      eapply elem_of_submseteq in Hn'; [|apply sublist_submseteq, (st_tmp _ _ _ _ _ _ _ _ _ Hst)]. by apply list_elem_of_singleton in Hn'.
Qed.

Lemma view_valid w o tail : view w o tail -> Forall (valid lane limits) (concat closed ++ bs) /\ in_order (concat closed ++ bs).
Proof.
  intros [_ Hst Hpre _ _ _ _ _]. split.
  - pose proof (st_valid _ _ _ _ _ _ _ _ _ Hst) as [Hc Hf]%Forall_app. apply Forall_app. split; [done|].
    destruct Hpre as [k ->]. by apply Forall_app in Hf as [? _].
  - eapply in_order_prefix; [exact Hpre|]. by apply (st_order _ _ _ _ _ _ _ _ _ Hst).
Qed.

Lemma view_len w i f tail : view w (Some (i, f)) tail -> len (log bs ++ tail) <= u64_max.
Proof.
  intros Hv. rewrite <- (v_open _ _ _ Hv). destruct (st_open _ _ _ _ _ _ _ _ _ (v_structure _ _ _ Hv)) as [_ [k Hk]].
  pose proof (st_size _ _ _ _ _ _ _ _ _ (v_structure _ _ _ Hv)) as Hs. rewrite Hk, len_app in Hs. pose proof (len_nonneg k). lia.
Qed.

(** The open chunk after its scan. *)
Definition cut_file (f : file) (tail : list byte) : file := if decide (tail = []) then f else MkFile (log bs) [].

Lemma view_cut w i f tail : view w (Some (i, f)) tail -> tail <> [] ->
  Safe (set_file i (MkFile (log bs) []) (disk w))
  /\ view (set_disk (set_file i (MkFile (log bs) []) (disk w)) w) (Some (i, MkFile (log bs) [])) [].
Proof.
  intros Hv Ht. pose proof (view_valid _ _ _ Hv) as [[_ Hbs]%Forall_app _]. destruct Hv as [Hd Hst Hpre Ho Hta Hu (sync & Hsp & Hsy & Ha) Hs].
  destruct (st_open _ _ _ _ _ _ _ _ _ Hst) as [Hf Hfull].
  assert (resyncs lane limits f (MkFile (log bs) [])) as Hr.
  { destruct (resyncs_set_len lane limits f bs tail Ho Hbs Hta) as [[R1 R2] Rc]. rewrite Rc in R1. split; [unfold content; cbn; by rewrite app_nil_r|].
    intros s Hvs Hls. cbn. etrans; [by apply R2|]. eexists. symmetry. exact Rc. }
  assert (Safe (set_file i (MkFile (log bs) []) (disk w))) as Hs' by (by eapply disk_resync).
  split; [done|]. constructor; try done; try by left.
  - eapply structure_resync; [exact Hst|]. unfold content. cbn. rewrite app_nil_r. destruct Hpre as [k ->]. rewrite log_app. by eexists.
  - exists sync. split_and!; try done. apply Hr; [|done]. pose proof (st_valid _ _ _ _ _ _ _ _ _ Hst) as [_ Hv]%Forall_app.
    destruct Hsp as [k Hk]. rewrite Hk in Hv. by apply Forall_app in Hv as [? _].
Qed.

(** The cut alone, before its sync. *)
Lemma view_set_len w i f tail : view w (Some (i, f)) tail ->
  let n := Z.to_nat (len (log bs)) in
  let f' := MkFile (take n (durable f)) (take (n - length (durable f)) (pending f)) in
  Safe (set_file i f' (disk w)) /\ view (set_disk (set_file i f' (disk w)) w) (Some (i, f')) [].
Proof.
  intros Hv n f'. pose proof (view_valid _ _ _ Hv) as [[_ Hbs]%Forall_app _]. destruct Hv as [Hd Hst Hpre Ho Hta Hu (sync & Hsp & Hsy & Ha) Hs].
  destruct (st_open _ _ _ _ _ _ _ _ _ Hst) as [Hf Hfull].
  destruct (resyncs_set_len lane limits f bs tail Ho Hbs Hta) as [Hr Hc]. fold n in Hr, Hc. fold f' in Hr, Hc.
  assert (Safe (set_file i f' (disk w))) as Hs' by (by eapply disk_resync).
  split; [done|]. constructor; try done.
  - eapply structure_resync; [exact Hst|]. rewrite Hc. destruct Hpre as [k ->]. rewrite log_app. by eexists.
  - by rewrite Hc, app_nil_r.
  - by left.
  - exists sync. split_and!; try done. apply Hr; [|done]. pose proof (st_valid _ _ _ _ _ _ _ _ _ Hst) as [_ Hv]%Forall_app.
    destruct Hsp as [k Hk]. rewrite Hk in Hv. by apply Forall_app in Hv as [? _].
Qed.

(** A scan can only fail when it compares with an index, when a call fails or when it meets
    a temporary, and the lane is as readable as before. *)
Definition unread (w' : World) : Prop := (known <> None \/ faulty = true \/ tmp <> []) /\ exists o' tail', view w' o' tail'.

Lemma unread_fault w o tail : view w o tail -> faulty = true -> unread w.
Proof. intros Hv Hb. split; [by right; left|by exists o, tail]. Qed.

Lemma scan_open_runs w o tail : view w o tail ->
  runs Safe (scan_chunk lane limits OPEN_LOG true known) w
    (fun w' rs => rs = locate OPEN_LOG 0 bs /\ kept w w' /\ (tail = [] -> w' = w) /\ exists o', fst <$> o' = fst <$> o /\ view w' o' [])
    unread.
Proof.
  intros Hv. unfold scan_chunk. apply runs_bind, runs_probe; [by eapply unread_fault|]. rewrite (v_dir _ _ _ Hv). cbn [mbind option_bind].
  rewrite (view_find _ _ _ Hv). destruct o as [[i f]|]; cbn [fmap option_fmap option_map fst].
  2:{ apply runs_ret. destruct (v_open _ _ _ Hv) as [Eb Et]. subst tail. split_and!; [by rewrite Eb|done|done|by exists None]. }
  apply runs_bind, runs_read_file; [by eapply unread_fault|]. destruct (st_open _ _ _ _ _ _ _ _ _ (v_structure _ _ _ Hv)) as [Hf _]. rewrite Hf.
  pose proof (view_valid _ _ _ Hv) as [[_ Hbs]%Forall_app _]. rewrite (v_open _ _ _ Hv).
  pose proof (scan_bytes_any lane limits OPEN_LOG true known bs tail Hbs (tail_halts lane limits known tail (v_tail _ _ _ Hv)) (view_len _ _ _ _ Hv)) as Hscan.
  apply runs_bind, runs_lift.
  2:{ intros e Ee. rewrite Ee in Hscan. split; [left; by destruct Hscan as [?|[? _]]|by exists (Some (i, f)), tail]. }
  intros s Es. rewrite Es in Hscan. destruct Hscan as [_ ->]. unfold ended. case_decide as Ht.
  - subst tail. apply runs_ret. split_and!; [done..|]. by exists (Some (i, f)).
  - destruct (view_cut _ _ _ _ Hv Ht) as [Hs' Hv']. destruct (resyncs_set_len lane limits f bs tail (v_open _ _ _ Hv) Hbs (v_tail _ _ _ Hv)) as [Hr Hc].
    apply runs_bind, runs_fallible; [by eapply unread_fault|]. destruct (view_set_len _ _ _ _ Hv) as [Hs1 Hv1]. apply runs_change; rewrite Hf; [exact Hs1|].
    apply runs_bind, runs_fallible; [by eapply unread_fault|]. apply runs_change; cbn [disk set_disk set_file files]; rewrite list_lookup_insert_eq by (by eapply lookup_lt_Some);
        rewrite Hc; unfold set_file; cbn [files chunks unsynced sealed retired]; rewrite list_insert_insert_eq; [exact Hs'|]. apply runs_ret. split_and!; [done..|]. by exists (Some (i, MkFile (log bs) [])).
Qed.

Lemma closed_zip w o tail e c : view w o tail -> (e, c) ∈ zip ces closed -> Forall (valid lane limits) c /\ closed_entry (files (disk w)) e c.
Proof.
  intros Hv He. pose proof (v_structure _ _ _ Hv) as Hst. split.
  - apply elem_of_zip_r in He. pose proof (view_valid _ _ _ Hv) as [[Hval _]%Forall_app _].
    rewrite Forall_forall in Hval |- *. intros b Hb. apply Hval.
    apply list_elem_of_In, in_concat. exists c. by rewrite <- !list_elem_of_In.
  - apply list_elem_of_lookup in He as [k [K1 K2]%lookup_zip_Some].
    by eapply Forall2_lookup_lr; [apply (st_closed _ _ _ _ _ _ _ _ _ Hst)|..].
Qed.

Lemma scan_closed_runs w o tail e c : view w o tail -> (e, c) ∈ zip ces closed ->
  runs Safe (scan_chunk lane limits e.1 false known) w (fun w' rs => w' = w /\ rs = locate e.1 0 c) unread.
Proof.
  intros Hv He. pose proof (v_structure _ _ _ Hv) as Hst. apply elem_of_zip_l in He as Hce.
  destruct (closed_zip _ _ _ _ _ Hv He) as [Hval (Hc & Hn & Hf & Hsz)].
  unfold scan_chunk. apply runs_bind, runs_probe; [by eapply unread_fault|]. rewrite (v_dir _ _ _ Hv). cbn [mbind option_bind].
  rewrite (proj2 (dir_find_elem e.1 e.2 dir (st_names _ _ _ _ _ _ _ _ _ Hst))).
  2:{ rewrite (st_perm _ _ _ _ _ _ _ _ _ Hst). apply elem_of_app. left. by destruct e. }
  apply runs_bind, runs_read_file; [by eapply unread_fault|]. rewrite Hf. unfold content. cbn [durable pending].
  pose proof (scan_bytes_any lane limits e.1 false known c [] Hval (tail_halts lane limits known [] (or_introl eq_refl))) as Hscan.
  rewrite app_nil_r in Hscan |- *. specialize (Hscan Hsz). apply runs_bind, runs_lift.
  - intros s Es. rewrite Es in Hscan. destruct Hscan as [_ ->]. cbn. by apply runs_ret.
  - intros err Ee. rewrite Ee in Hscan. split; [left; by destruct Hscan as [?|[_ ?]]|by exists o, tail].
Qed.

(** The entries of the directory with the records behind them. *)
Definition entries_of (o : option (nat * file)) : list (str * list StoredRecord) :=
  map (fun x => (x.1.1, locate x.1.1 0 x.2)) (zip ces closed)
  ++ match o with Some _ => [(OPEN_LOG, locate OPEN_LOG 0 bs)] | None => [] end ++ map (fun e => (e.1, [])) tmp.

Lemma entries_names w o tail : view w o tail -> map fst (entries_of o) = map fst (ces ++ open_entry o ++ tmp).
Proof.
  intros Hv. unfold entries_of. rewrite !map_app, map_map. f_equal; [|f_equal; [by destruct o as [[]|]|by rewrite map_map]].
  pose proof (st_closed _ _ _ _ _ _ _ _ _ (v_structure _ _ _ Hv)) as Hc. clear -Hc.
  induction Hc as [|e c ces closed _ _ IH]; [done|]. cbn [zip zip_with map]. by rewrite <- IH.
Qed.

Lemma entries_located w o tail : view w o tail -> concat (map snd (entries_of o)) = located closed bs.
Proof.
  intros Hv. unfold entries_of, located. rewrite map_app, map_map, concat_app. f_equal.
  - pose proof (st_closed _ _ _ _ _ _ _ _ _ (v_structure _ _ _ Hv)) as Hc. clear -Hc.
    induction Hc as [|e c ces closed (_ & Hn & _) _ IH]; [done|]. cbn [zip zip_with map concat fst snd]. by rewrite <- IH, Hn.
  - rewrite map_app, concat_app, map_map. cbn [snd].
    assert (concat (map (fun _ : str * nat => @nil StoredRecord) tmp) = []) as -> by (clear; by induction tmp).
    rewrite app_nil_r. destruct o as [[i f]|]; [cbn; apply app_nil_r|]. destruct (v_open _ _ _ Hv) as [-> _]. done.
Qed.

Lemma extend_nodup index rs rest : om_sorted index -> NoDup ((map fst index ++ map sequence rs) ++ rest) ->
  NoDup (map fst (om_extend index (keyed rs)) ++ rest).
Proof.
  intros Hs Hn. apply NoDup_app in Hn as (_ & Hd & Hr). apply NoDup_app. split_and!; [| |done].
  - apply sorted_nodup. by apply om_extend_sorted.
  - intros k [Hk|Hk]%om_extend_keys; apply Hd, elem_of_app; [by left|right]. by rewrite <- keyed_fst.
Qed.

(** A scan of these entries, in any order, that met no temporary. *)
Definition scans (w : World) (o : option (nat * file)) (tail : list byte) (visit : list (str * list StoredRecord))
    (index : OrdMap StoredRecord) (w' : World) (index' : OrdMap StoredRecord) : Prop :=
  index' = om_extend index (keyed (concat (map snd visit))) /\ (OPEN_TMP ∉ map fst visit) /\ kept w w' /\ (tail = [] -> w' = w)
  /\ exists o' tail', fst <$> o' = fst <$> o /\ (tail = [] \/ OPEN_LOG ∈ map fst visit -> tail' = []) /\ view w' o' tail'.

Lemma scans_cons w o tail w' o' tail' n rs visit index w2 index2 : n <> OPEN_TMP ->
  kept w w' -> (tail = [] -> w' = w) -> fst <$> o' = fst <$> o -> (tail = [] \/ n = OPEN_LOG -> tail' = []) ->
  scans w' o' tail' visit (om_extend index (keyed rs)) w2 index2 -> scans w o tail ((n, rs) :: visit) index w2 index2.
Proof.
  intros Hn Hk Hw Ho Ht (-> & Hn2 & Hk2 & Hw2 & o2 & tail2 & Ho2 & Ht2 & Hv2). split_and!.
  - cbn [map snd concat]. unfold keyed, om_extend. by rewrite map_app, foldl_app.
  - cbn [map fst]. by apply not_elem_of_cons.
  - destruct Hk as (? & ? & ?), Hk2 as (? & ? & ?). split_and!; congruence.
  - intros E. rewrite Hw2 by (apply Ht; by left). by apply Hw.
  - exists o2, tail2. split_and!; [congruence| |done]. cbn [map fst]. rewrite elem_of_cons.
    intros [E|[E|E]]; apply Ht2; [left; apply Ht; by left|left; apply Ht; by right|by right].
Qed.

Lemma scan_paths_runs w o tail visit index : view w o tail -> Forall (fun v => v ∈ entries_of o) visit ->
  om_sorted index -> NoDup (map fst index ++ map sequence (concat (map snd visit))) ->
  runs Safe (scan_paths lane limits (map fst visit) known index) w (scans w o tail visit index) unread.
Proof.
  revert w o tail index. induction visit as [|[n rs] visit IH]; intros w o tail index Hv Hvs Hs Hn.
  - apply runs_ret. split_and!; [done|apply not_elem_of_nil|done..|]. exists o, tail. split_and!; try done. intros [?|?%not_elem_of_nil]; done.
  - apply Forall_cons in Hvs as [Hin Hvs]. cbn [map fst snd concat scan_paths] in *. rewrite map_app, app_assoc in Hn.
    assert (forall w' o' tail', n <> OPEN_TMP -> kept w w' -> (tail = [] -> w' = w) -> fst <$> o' = fst <$> o -> (tail = [] \/ n = OPEN_LOG -> tail' = []) -> view w' o' tail' ->
      runs Safe (index0 ← lift (collect rs index); scan_paths lane limits (map fst visit) known index0) w'
        (scans w o tail ((n, rs) :: visit) index) unread) as Hnext.
    { intros w' o' tail' Hnt Hk Hw Ho Ht' Hv'. rewrite collect_new; [|done|by apply NoDup_app in Hn as (? & _ & _)].
      apply runs_bind, runs_lift; [|done]. intros a [= <-].
      eapply runs_mono; [apply (IH w' o' tail')|by intros w2 index2; apply scans_cons|done]; [done| | |].
      - eapply Forall_impl; [exact Hvs|]. intros v Hv0. unfold entries_of in *. destruct o, o'; done.
      - by apply om_extend_sorted.
      - by apply extend_nodup. }
    unfold entries_of in Hin. rewrite !elem_of_app in Hin. destruct Hin as [Hin|[Hin|Hin]].
    + apply list_elem_of_fmap in Hin as ([e c] & [= -> ->] & Hin). cbn [fst snd] in *.
      destruct (closed_zip _ _ _ _ _ Hv Hin) as [Hval Hce].
      destruct (closed_name _ _ _ _ _ Hval Hce) as (b & b' & Hh & Hl & Hp).
      rewrite bool_decide_eq_false_2 by (intros E; by rewrite E in Hp). rewrite Hp. cbn [ok_or].
      apply runs_bind, runs_bind, runs_lift; [|done]. intros range [= <-]. apply runs_ret. cbn beta.
      apply runs_bind. eapply runs_mono; [by eapply scan_closed_runs| |done]. cbn beta. intros w' chunk [-> ->].
      rewrite locate_head, locate_last, Hh, Hl. cbn [fmap option_fmap option_map fst].
      rewrite !bool_decide_eq_false_2 by (by intros []). cbn [orb]. apply runs_bind, runs_ret.
      apply (Hnext w o tail); [intros E; by rewrite E in Hp|done..| |done]. intros [?|E]; [done|]. by rewrite E in Hp.
    + destruct o as [[i f]|]; [|by apply not_elem_of_nil in Hin]. apply list_elem_of_singleton in Hin as [= -> ->].
      rewrite bool_decide_eq_true_2 by done. apply runs_bind, runs_ret. cbn beta. apply runs_bind.
      eapply runs_mono; [by eapply scan_open_runs| |done]. cbn beta. intros w' chunk (-> & Hk & Hw & o' & Ho & Hv').
      apply runs_bind, runs_ret. by apply (Hnext w' o' []).
    + apply list_elem_of_fmap in Hin as (e & [= -> ->] & Hin). pose proof (st_tmp _ _ _ _ _ _ _ _ _ (v_structure _ _ _ Hv)) as Ht.
      assert (e.1 = OPEN_TMP) as ->.
      { apply list_elem_of_singleton. eapply elem_of_submseteq; [|by apply sublist_submseteq]. apply list_elem_of_fmap. by exists e. }
      rewrite bool_decide_eq_false_2 by done. apply runs_bind, runs_bind, runs_lift; [done|]. intros err _.
      split; [|by exists o, tail]. right. right. intros ->. by apply not_elem_of_nil in Hin.
Qed.

(** A scan that succeeds met no temporary and gives the locations of all bodies. *)
Lemma scan_lane_runs w o tail : view w o tail ->
  runs Safe (scan_lane lane limits known) w
    (fun w' index => tmp = [] /\ index = keyed (located closed bs) /\ kept w w' /\ (tail = [] -> w' = w) /\ exists o', fst <$> o' = fst <$> o /\ view w' o' [])
    unread.
Proof.
  intros Hv. unfold scan_lane. apply runs_bind, runs_gets. rewrite (v_dir _ _ _ Hv).
  apply runs_bind, runs_fallible; [by eapply unread_fault|]. apply runs_ret.
  pose proof (st_perm _ _ _ _ _ _ _ _ _ (v_structure _ _ _ Hv)) as Hp.
  destruct (view_valid _ _ _ Hv) as [Hval Hord]. pose proof (in_order_sorted _ Hord) as Hsort.
  assert (map fst (entries_of o) ≡ₚ sort_by bytes_compare (map fst (read_dir dir))) as Hnames.
  { rewrite sort_by_perm, read_dir_perm, (entries_names _ _ _ Hv). by rewrite Hp. }
  apply Permutation_sym, Permutation_map_inv in Hnames as (visit & -> & Hvis).
  assert (located closed bs ≡ₚ concat (map snd visit)) as Hloc by (rewrite <- (entries_located _ _ _ Hv); by rewrite Hvis).
  apply runs_bind. eapply runs_mono; [apply (scan_paths_runs w o tail visit [])| |done].
  - done.
  - apply Forall_forall. intros v Hin. by rewrite Hvis.
  - constructor.
  - cbn [map app]. rewrite <- Hloc, located_seqs. by apply sorted_nodup.
  - intros w' index (-> & Hnt & Hk & Hw & o' & tail' & Ho & Ht & Hv').
    rewrite (extend_perm (located closed bs)) by (done || by rewrite located_seqs).
    rewrite keyed_fst, located_seqs, in_order_contiguous by (done || by eapply in_order_seqs). cbn [negb].
    apply runs_ret. split_and!; [|done..|].
    { rewrite <- Hvis, (entries_names _ _ _ Hv), !map_app, !not_elem_of_app in Hnt. destruct Hnt as (_ & _ & Hnt).
      pose proof (st_tmp _ _ _ _ _ _ _ _ _ (v_structure _ _ _ Hv)) as Hs. destruct tmp as [|e tmp']; [done|]. destruct Hnt.
      assert (e.1 = OPEN_TMP) as <-; [|by left]. apply list_elem_of_singleton. eapply elem_of_submseteq; [|by apply sublist_submseteq]. by left. }
    exists o'. split; [done|]. destruct tail' as [|x tail']; [done|]. exfalso.
    assert (o = None \/ exists i f, o = Some (i, f)) as [->|(i & f & ->)] by (destruct o as [[]|]; eauto).
    + destruct o'; [done|]. by destruct (v_open _ _ _ Hv').
    + assert (x :: tail' = []); [|done]. apply Ht. right. rewrite <- Hvis, (entries_names _ _ _ Hv), !map_app, !elem_of_app. right. left. by left.
Qed.
End Scans.
