(* ===== verification/FollowerSafety.v ===== *)
(** * FollowerSafety: restarting from a safe disk

    A restart scrubs and scans what a crash left of a lane ([restart], composed of the
    code's [scrub_lane], [scan_lane] and [read_indexed_record]). From a disk that is safe
    in the sense of [FollowerCrash], and when no call to the file system fails, it keeps
    the lane, reads back every frame to keep, and ends in a disk that is safe again and has
    nothing left to sync. *)

From Stdlib Require Import ZArith Lia Sorting.Sorted.
From Stdlib Require Import Strings.Byte.
From stdpp Require Import base strings.
From stdpp Require Import list.
From S2P Require Import Prelude OrdMap Bytes Identity Text LtxTypes Ltx LtxCodec Recovery NodeFrame FollowerRecords FollowerDisk FollowerLane FollowerCrash.

Local Open Scope bool_scope.

(** ** Restarting *)

Section Restart.
Context `{Crc64, Blake3, Lz4Flex, ReadDir}.
Context (lane : Lane) (limits : Limits).

Fixpoint read_all (rs : list StoredRecord) : M (list Body) :=
  match rs with
  | [] => mret []
  | r :: rs => encoded ← read_indexed_record lane limits r; rest ← read_all rs; mret ((sequence r, encoded) :: rest)
  end.

(** What a restarted node finds of a lane; [None] when it quarantines it. *)
Definition restart : M (option (list Body)) :=
  kept ← scrub_lane lane limits;
  if negb kept then mret None
  else index ← scan_lane lane limits None; found ← read_all (map snd index); mret (Some found).
End Restart.

Section Recovery.
Context `{Crc64, Blake3, Lz4Flex, ReadDir}.
Context (lane : Lane) (limits : Limits) (acked : list Body).
Abbreviation Safe := (disk_safe lane limits acked).
Abbreviation View := (view lane limits acked).
Abbreviation runs := (runs_with false).

(** ** Reading records back *)

(** A record that is where the index says reads as its body. *)
Lemma read_record_at I w (Q : World -> list byte -> Prop) E name i f bs1 b rest :
  valid lane limits b -> chunks (disk w) ≫= dir_find name = Some i -> files (disk w) !! i = Some f ->
  content f = log bs1 ++ record_of b ++ rest -> len (content f) <= u64_max -> Q w b.2 ->
  runs I (read_indexed_record lane limits (MkRecord b.1 (blake3 b.2) name (len (log bs1) + RECORD_HEADER_BYTES) (len b.2))) w Q E.
Proof.
  intros Hv Hn Hf Hc Hmax HQ. unfold valid in Hv. pose proof (valid_body_facts _ _ _ Hv) as (Hs & Hs0 & Hl & _).
  pose proof (len_nonneg (log bs1)) as Hp. unfold read_indexed_record. cbn [sequence digest path offset length_of].
  apply runs_bind, (runs_open_found _ _ _ i); [done..|].
  rewrite (proj2 (ok_or_Ok (checked_sub_u64 _ _) _ (len (log bs1))))
    by (apply checked_sub_u64_Some; unfold RECORD_HEADER_BYTES; lia).
  apply runs_bind, runs_lift; [|done]. intros n [= <-]. apply runs_bind, runs_read_file; [done|]. rewrite Hf, Hc.
  rewrite drop_app_length' by (unfold len; lia). rewrite record_header, <- app_assoc.
  rewrite <- (length_header b.1 (len b.2) (blake3 b.2)), read_exact_app. cbn [ok_or].
  apply runs_bind, runs_lift; [|done]. intros [h r] [= <- <-]. rewrite parse_header_of by (unfold u64_ok; lia || done).
  apply runs_bind, runs_lift; [|done]. intros [[s n] d] [= <- <- <-]. rewrite !Z.eqb_refl, bool_decide_eq_false_2 by (by intros []). cbn [negb orb].
  replace (Z.to_nat (len b.2)) with (length b.2) by (unfold len; lia). rewrite read_exact_app. cbn [ok_or].
  apply runs_bind, runs_lift; [|done]. intros [e r] [= <- <-]. rewrite bool_decide_eq_false_2 by (by intros []).
  unfold valid_body in Hv. destruct (inspect_node_frame b.2 limits) as [fr|] eqn:Ei; [|done].
  apply runs_bind, runs_lift; [|done]. intros fr' [= <-]. pose proof (inspect_frame_Ok _ _ _ Ei) as (_ & He & _).
  apply andb_true_iff in Hv as [[Hq Hle]%andb_true_iff Hep]. apply bool_decide_eq_true in Hle. unfold frame_digest. rewrite He, Hq, Hep, Hle.
  rewrite !bool_decide_eq_false_2 by (by intros []). cbn [negb orb]. by apply runs_ret.
Qed.

(** ** From a safe disk to its view *)

Lemma synced_unlinked fs dir ces closed i f full tmp d : structure lane limits fs dir ces closed (Some (i, f)) full tmp ->
  chunks d = Some dir -> unsynced d = [] -> unlinked i d.
Proof.
  intros Hst Hd Hu dir' n Hin Hn. unfold dirs in Hin. rewrite Hd, Hu in Hin. apply list_elem_of_singleton in Hin as ->.
  by rewrite (open_names _ _ _ _ _ _ _ _ _ _ _ Hst Hn).
Qed.

Lemma structure_view w dir ces closed o full tmp sync : chunks (disk w) = Some dir ->
  structure lane limits (files (disk w)) dir ces closed o full tmp ->
  match o with Some (i, _) => unlinked i (disk w) | None => True end ->
  sync `prefix_of` full -> match o with Some (_, f) => log sync `prefix_of` durable f | None => sync = [] end ->
  Forall (fun b => b ∈ concat closed ++ sync) acked -> Safe (disk w) ->
  exists bs tail, View dir ces tmp closed full bs w o tail.
Proof.
  intros Hd Hst Hu Hsp Hsy Ha Hs. pose proof (st_open _ _ _ _ _ _ _ _ _ Hst) as Ho.
  pose proof (st_valid _ _ _ _ _ _ _ _ _ Hst) as [_ Hv]%Forall_app. destruct o as [[i f]|].
  - destruct Ho as [Hf Hp]. destruct (prefix_log lane limits full _ Hv Hp) as (bs & tail & Hc & Hpre & Ht). exists bs, tail.
    constructor; try done. by exists sync.
  - exists [], []. constructor; try done; [apply prefix_nil|by left|by exists sync].
Qed.

(** Every acknowledged frame is among the complete records of the view. *)
Lemma view_acked dir ces tmp closed full bs w o tail : View dir ces tmp closed full bs w o tail -> Forall (fun b => b ∈ concat closed ++ bs) acked.
Proof.
  intros Hv. destruct (v_synced _ _ _ _ _ _ _ _ _ _ _ _ Hv) as (sync & Hpre & Hsy & Ha).
  assert (sync `prefix_of` bs) as [k ->].
  { destruct o as [[i f]|]; [|subst; apply prefix_nil]. destruct Hsy as [k Hk].
    pose proof (st_valid _ _ _ _ _ _ _ _ _ (v_structure _ _ _ _ _ _ _ _ _ _ _ _ Hv)) as [_ Hval]%Forall_app.
    pose proof (view_valid _ _ _ _ _ _ _ _ _ _ _ _ Hv) as [[_ Hbs]%Forall_app _].
    eapply (log_prefix lane limits _ _ (k ++ pending f) tail); [|done|apply tail_stops, (v_tail _ _ _ _ _ _ _ _ _ _ _ _ Hv)|].
    - destruct Hpre as [k' ->]. by apply Forall_app in Hval as [? _].
    - rewrite <- (v_open _ _ _ _ _ _ _ _ _ _ _ _ Hv). unfold content. rewrite Hk. by rewrite <- app_assoc. }
  eapply Forall_impl; [exact Ha|]. intros b. rewrite !elem_of_app. naive_solver.
Qed.

Lemma safe_view w dir : Safe (disk w) -> chunks (disk w) = Some dir -> unsynced (disk w) = [] ->
  exists ces tmp closed full bs o tail, View dir ces tmp closed full bs w o tail.
Proof.
  intros Hs Hd Hu. pose proof Hs as (Hd' & _ & _). rewrite Hd, Hu in Hd'. apply Forall_singleton in Hd' as (ces & closed & o & full & tmp & sync & Hst & Hsy & Hpre & Ha).
  assert (match o with Some (i, _) => unlinked i (disk w) | None => True end) as Hul by (destruct o as [[i f]|]; [by eapply synced_unlinked|done]).
  destruct (structure_view w dir ces closed o full tmp sync Hd Hst Hul Hpre Hsy Ha Hs) as (bs & tail & Hv).
  by exists ces, tmp, closed, full, bs, o, tail.
Qed.

(** ** Reading the whole lane *)

(** The records of one file, and then others. *)
Lemma read_file_runs I w name i f bs1 bs rest rs (Q : World -> list Body -> Prop) E :
  Forall (valid lane limits) bs -> chunks (disk w) ≫= dir_find name = Some i -> files (disk w) !! i = Some f ->
  content f = log bs1 ++ log bs ++ rest -> len (content f) <= u64_max ->
  runs I (read_all lane limits rs) w (fun w' x => Q w' (bs ++ x)) E ->
  runs I (read_all lane limits (locate name (len (log bs1)) bs ++ rs)) w Q E.
Proof.
  intros Hv Hn Hf. revert bs1 Q. induction bs as [|b bs IH]; intros bs1 Q Hc Hmax HQ; [done|].
  apply Forall_cons in Hv as [Hb Hv]. cbn [locate read_all app]. apply runs_bind.
  rewrite log_cons, <- app_assoc in Hc. eapply read_record_at; [done..|]. apply runs_bind.
  replace (len (log bs1) + RECORD_HEADER_BYTES + len b.2) with (len (log (bs1 ++ [b])))
    by (rewrite log_app, len_app, log_cons, len_app, len_record; change (len (log [])) with 0; lia).
  apply IH; [done|by rewrite log_app, log_cons, app_nil_r, <- app_assoc|done|].
  eapply runs_mono; [exact HQ| |done]. cbn beta. intros w' x Hx. apply runs_ret. by destruct b.
Qed.

Lemma read_closed_runs I w ces closed rs (Q : World -> list Body -> Prop) E :
  Forall (valid lane limits) (concat closed) -> (forall e, e ∈ ces -> chunks (disk w) ≫= dir_find e.1 = Some e.2) ->
  Forall2 (closed_entry (files (disk w))) ces closed ->
  runs I (read_all lane limits rs) w (fun w' x => Q w' (concat closed ++ x)) E ->
  runs I (read_all lane limits (concat (map (fun c => locate (chunk_of c) 0 c) closed) ++ rs)) w Q E.
Proof.
  intros Hval Hfind Hc. revert Q Hval Hfind. induction Hc as [|e c ces closed (_ & Hn & Hf & Hsz) Hc IH]; intros Q Hval Hfind HQ; [done|].
  cbn [map concat] in *. apply Forall_app in Hval as [Hvc Hval]. rewrite <- app_assoc.
  eapply (read_file_runs I w (chunk_of c) e.2 (MkFile (log c) []) [] c []); [done| |done|..].
  - rewrite <- Hn. apply Hfind. by left.
  - unfold content. cbn [durable pending]. by rewrite !app_nil_r.
  - unfold content. cbn [durable pending]. by rewrite app_nil_r.
  - apply IH; [done|intros e' He'; apply Hfind; by right|].
    eapply runs_mono; [exact HQ| |done]. cbn beta. intros w' x. by rewrite app_assoc.
Qed.

Lemma read_lane I w dir ces tmp closed full bs o tail (Q : World -> list Body -> Prop) E :
  View dir ces tmp closed full bs w o tail -> Q w (concat closed ++ bs) -> runs I (read_all lane limits (located closed bs)) w Q E.
Proof.
  intros Hv HQ. pose proof (v_structure _ _ _ _ _ _ _ _ _ _ _ _ Hv) as Hst. pose proof (view_valid _ _ _ _ _ _ _ _ _ _ _ _ Hv) as [[Hval Hbs]%Forall_app _].
  unfold located. apply (read_closed_runs I w ces); [done| |by apply (st_closed _ _ _ _ _ _ _ _ _ Hst)|].
  { intros [n k] He. rewrite (v_dir _ _ _ _ _ _ _ _ _ _ _ _ Hv). cbn [mbind option_bind].
    apply dir_find_elem; [by apply (st_names _ _ _ _ _ _ _ _ _ Hst)|]. rewrite (st_perm _ _ _ _ _ _ _ _ _ Hst). apply elem_of_app. by left. }
  destruct o as [[i f]|].
  2:{ destruct (v_open _ _ _ _ _ _ _ _ _ _ _ _ Hv) as [-> _]. by apply runs_ret. }
  destruct (st_open _ _ _ _ _ _ _ _ _ Hst) as [Hf _]. rewrite <- (app_nil_r (locate _ _ _)).
  eapply (read_file_runs I w OPEN_LOG i f [] bs tail); [done| |done|exact (v_open _ _ _ _ _ _ _ _ _ _ _ _ Hv)|..].
  - rewrite (v_dir _ _ _ _ _ _ _ _ _ _ _ _ Hv). cbn [mbind option_bind]. by rewrite (view_find _ _ _ _ _ _ _ _ _ _ _ _ Hv).
  - rewrite (v_open _ _ _ _ _ _ _ _ _ _ _ _ Hv). by eapply view_len.
  - apply runs_ret. by rewrite app_nil_r.
Qed.

(** ** The restart *)

Lemma structure_remove_tmp fs dir ces closed o full k : structure lane limits fs dir ces closed o full [(OPEN_TMP, k)] ->
  structure lane limits fs (dir_remove OPEN_TMP dir) ces closed o full [].
Proof.
  intros [Hp Hn Hi Hb Hc Ho Ht Hv Hr Hs].
  assert (dir_remove OPEN_TMP dir ≡ₚ ces ++ open_entry o) as Hp'.
  { apply (dir_remove_perm _ k); [done|]. rewrite Hp, app_assoc. by rewrite (Permutation_app_comm _ [(OPEN_TMP, k)]). }
  assert (dir ≡ₚ (OPEN_TMP, k) :: dir_remove OPEN_TMP dir) as Hp2.
  { rewrite Hp', Hp, app_assoc. by rewrite (Permutation_app_comm _ [(OPEN_TMP, k)]). }
  constructor; try done.
  - by rewrite Hp', app_nil_r.
  - rewrite Hp2 in Hn. by apply NoDup_cons in Hn as [_ ?].
  - rewrite Hp2 in Hi. by apply NoDup_cons in Hi as [_ ?].
  - rewrite Hp2 in Hb. by apply Forall_cons in Hb as [_ ?].
  - apply sublist_nil_l.
Qed.

Lemma runs_keep w (Q : World -> Prop) E : runs Safe (validate_stored_lane lane limits) w (fun w' _ => Q w') (fun _ => False) ->
  runs Safe (keep_or_quarantine lane limits) w (fun w' kept => kept = true /\ Q w') E.
Proof.
  intros Hv. unfold keep_or_quarantine. apply runs_attempt. eapply runs_mono; [exact Hv| |done]. cbn beta. intros w' [] HQ. by apply runs_ret.
Qed.

Lemma structure_tmp fs dir ces closed o full tmp : structure lane limits fs dir ces closed o full tmp ->
  (tmp = [] /\ dir_find OPEN_TMP dir = None) \/ exists k, tmp = [(OPEN_TMP, k)] /\ dir_find OPEN_TMP dir = Some k.
Proof.
  intros Hst. pose proof (st_names _ _ _ _ _ _ _ _ _ Hst) as Hn. pose proof (st_tmp _ _ _ _ _ _ _ _ _ Hst) as Ht.
  pose proof (st_perm _ _ _ _ _ _ _ _ _ Hst) as Hp. destruct tmp as [|[n k] tmp].
  - left. split; [done|]. apply dir_find_None. intros Hin. apply list_elem_of_fmap in Hin as ([n k] & Hnk & Hin). cbn in Hnk. subst n.
    rewrite Hp, app_nil_r in Hin. apply elem_of_app in Hin as [Hin|Hin].
    + apply (closed_unnamed _ _ _ _ _ _ _ _ _ OPEN_TMP Hst); [done|]. apply list_elem_of_fmap. by exists (OPEN_TMP, k).
    + destruct o as [[i f]|]; [|by apply not_elem_of_nil in Hin]. by apply list_elem_of_singleton in Hin.
  - right. exists k. assert (n = OPEN_TMP /\ tmp = []) as [-> ->].
    { cbn [map fst] in Ht. apply sublist_cons_r in Ht as [Ht|(l & [= -> <-] & Ht)].
      - by apply sublist_nil_r in Ht.
      - apply sublist_nil_r in Ht. split; [done|]. by apply fmap_nil_inv in Ht. }
    split; [done|]. apply dir_find_elem; [done|]. rewrite Hp, !elem_of_app. right. right. by left.
Qed.

Lemma safe_remove_tmp fs dir : safe lane limits acked fs dir -> safe lane limits acked fs (dir_remove OPEN_TMP dir).
Proof.
  intros (ces & closed & o & full & tmp & sync & Hst & Hsy & Hpre & Ha).
  destruct (structure_tmp _ _ _ _ _ _ _ Hst) as [[-> Hf]|(k & -> & Hf)].
  - rewrite dir_remove_absent by (by apply dir_find_None). by exists ces, closed, o, full, [], sync.
  - exists ces, closed, o, full, [], sync. split_and!; try done. by eapply structure_remove_tmp.
Qed.

(** A lane that can be read, once the temporary of a rewrite that could not be cleaned up
    is removed; and one without a temporary. *)
Definition readable (w : World) : Prop := exists dir ces tmp closed full bs o tail, View dir ces tmp closed full bs w o tail.
Definition scannable (w : World) : Prop := exists dir ces closed full bs o tail, View dir ces [] closed full bs w o tail.

Lemma scannable_intro w dir : Safe (disk w) -> chunks (disk w) = Some dir -> unsynced (disk w) = [] -> dir_find OPEN_TMP dir = None -> scannable w.
Proof.
  intros Hs Hd Hu Hf. destruct (safe_view w dir Hs Hd Hu) as (ces & tmp & closed & full & bs & o & tail & Hv).
  destruct (structure_tmp _ _ _ _ _ _ _ (v_structure _ _ _ _ _ _ _ _ _ _ _ _ Hv)) as [[-> _]|(k & _ & Hf')]; [|congruence].
  by exists dir, ces, closed, full, bs, o, tail.
Qed.

Lemma scannable_readable w : scannable w -> readable w.
Proof. intros (dir & ces & closed & full & bs & o & tail & Hv). by exists dir, ces, [], closed, full, bs, o, tail. Qed.

(** Without faults, index and temporary a scan does not fail. *)
Lemma read_unfailing dir ces closed full bs w : ~ unread lane limits acked false dir ces [] closed full bs None w.
Proof. intros [[?|[?|?]] _]; done. Qed.

Lemma validate_runs w : scannable w -> runs Safe (validate_stored_lane lane limits) w (fun w' _ => kept w w' /\ scannable w') (fun _ => False).
Proof.
  intros (dir & ces & closed & full & bs & o & tail & Hv). unfold validate_stored_lane. apply runs_bind, runs_fallible; [done|]. apply runs_ret, runs_bind.
  eapply runs_mono; [by eapply scan_lane_runs|cbn beta|by intros ? ?%read_unfailing]. intros w' index (_ & -> & Hk & _ & o' & _ & Hv').
  apply runs_bind, runs_gets. destruct (v_safe _ _ _ _ _ _ _ _ _ _ _ _ Hv') as (_ & -> & ->). cbn [is_some].
  apply runs_bind, runs_ret, runs_ret. split; [done|]. by exists dir, ces, closed, full, bs, o', [].
Qed.

(** The lane after a restart: safe, synced and without a temporary. *)
Definition recovered (w : World) : Prop := Safe (disk w) /\ unsynced (disk w) = [] /\ memory w = None
  /\ forall dir, chunks (disk w) = Some dir -> dir_find OPEN_TMP dir = None.

Lemma scannable_recovered w : scannable w -> unsynced (disk w) = [] -> memory w = None -> recovered w.
Proof.
  intros (dir & ces & closed & full & bs & o & tail & Hv) Hu Hm. split_and!; try done; [exact (v_safe _ _ _ _ _ _ _ _ _ _ _ _ Hv)|].
  rewrite (v_dir _ _ _ _ _ _ _ _ _ _ _ _ Hv). intros _ [= <-].
  destruct (structure_tmp _ _ _ _ _ _ _ (v_structure _ _ _ _ _ _ _ _ _ _ _ _ Hv)) as [[_ ?]|(k & ? & _)]; done.
Qed.

(** A restart from a safe disk keeps the lane and finds every acknowledged frame. *)
Definition finds (found : option (list Body)) : Prop :=
  exists bs, found = Some bs /\ Forall (fun b => b ∈ bs) acked /\ Forall (valid lane limits) bs /\ in_order bs.

Lemma read_back_runs w : scannable w -> unsynced (disk w) = [] -> memory w = None ->
  runs Safe (index ← scan_lane lane limits None; found ← read_all lane limits (map snd index); mret (Some found)) w
    (fun w' found => finds found /\ recovered w') (fun _ => False).
Proof.
  intros (dir & ces & closed & full & bs & o & tail & Hv) Hu Hm. apply runs_bind.
  eapply runs_mono; [by eapply scan_lane_runs|cbn beta|by intros ? ?%read_unfailing]. intros w' index (_ & -> & (Hkc & Hku & Hkm) & _ & o' & _ & Hv').
  apply runs_bind. rewrite keyed_snd. eapply read_lane; [exact Hv'|]. apply runs_ret. split.
  - exists (concat closed ++ bs). destruct (view_valid _ _ _ _ _ _ _ _ _ _ _ _ Hv'). pose proof (view_acked _ _ _ _ _ _ _ _ _ Hv'). by split_and!.
  - apply scannable_recovered; [by exists dir, ces, closed, full, bs, o', []|congruence..].
Qed.

(** The lane of a disk without its directory. *)
Lemma absent_runs w : chunks (disk w) = None -> Safe (disk w) -> unsynced (disk w) = [] -> memory w = None ->
  runs Safe (keep_or_quarantine lane limits) w (fun w' kept => runs Safe (if negb kept then mret None else
      index ← scan_lane lane limits None; found ← read_all lane limits (map snd index); mret (Some found)) w'
    (fun w' found => finds found /\ recovered w') (fun _ => False)) (fun _ => False).
Proof.
  intros Hd Hs Hu Hm. pose proof Hs as (Hn & Hse & Hre). rewrite Hd in Hn.
  eapply (runs_mono _ _ _ _ _ (fun _ => False)); [apply (runs_keep w (fun w' => w' = w))| |done].
  - unfold validate_stored_lane, scan_lane. apply runs_bind, runs_fallible; [done|]. apply runs_ret, runs_bind, runs_bind, runs_gets. rewrite Hd.
    apply runs_ret, runs_bind, runs_gets. rewrite Hse, Hre. cbn [is_some]. by apply runs_bind, runs_ret, runs_ret.
  - cbn beta. intros w' k [-> ->]. cbn [negb]. unfold scan_lane. apply runs_bind, runs_bind, runs_gets. rewrite Hd.
    apply runs_ret, runs_bind. cbn [map read_all]. apply runs_ret, runs_ret. split; [exists []; split_and!; try done; by rewrite Hn|].
    split_and!; try done. by rewrite Hd.
Qed.

Lemma scannable_runs w : scannable w -> unsynced (disk w) = [] -> memory w = None ->
  runs Safe (keep_or_quarantine lane limits) w (fun w' kept => runs Safe (if negb kept then mret None else
      index ← scan_lane lane limits None; found ← read_all lane limits (map snd index); mret (Some found)) w'
    (fun w' found => finds found /\ recovered w') (fun _ => False)) (fun _ => False).
Proof.
  intros Hr Hu Hm. eapply (runs_mono _ _ _ _ _ (fun _ => False)); [apply runs_keep; by apply validate_runs| |done].
  cbn beta. intros w' k (-> & (Hkc & Hku & Hkm) & Hr'). apply read_back_runs; [done|congruence..].
Qed.

Lemma restart_runs w : Safe (disk w) -> unsynced (disk w) = [] -> memory w = None ->
  runs Safe (restart lane limits) w (fun w' found => finds found /\ recovered w') (fun _ => False).
Proof.
  intros Hs Hu Hm. unfold restart, scrub_lane, lookup. apply runs_bind, runs_bind, runs_fallible; [done|].
  apply runs_ret, runs_bind, runs_gets. destruct (chunks (disk w)) as [dir|] eqn:Hd; cbn [mbind option_bind].
  2:{ apply runs_bind, runs_ret. by apply absent_runs. }
  pose proof Hs as (Hd' & _ & _). rewrite Hd, Hu, Forall_singleton in Hd'.
  destruct (dir_find OPEN_TMP dir) as [k|] eqn:Hf; apply runs_bind.
  - apply runs_bind. unfold remove_file. apply runs_bind, (runs_the_dir _ _ dir); [done|].
    apply runs_bind, (runs_open_found _ _ _ k); [by rewrite Hd|done|].
    assert (Safe (set_dir (dir_remove OPEN_TMP dir) (disk w))) as Hs1.
    { apply (disk_set_dir _ _ _ _ _ dir); [done..|]. by apply safe_remove_tmp. }
    apply runs_change; [done|]. apply runs_sync_directory; [done..|]. apply scannable_runs; [|done..].
    eapply scannable_intro; [by apply disk_sync_dir|done..|]. apply dir_find_None. unfold dir_remove.
    intros Hin. apply list_elem_of_fmap in Hin as ([n i] & Hn & [_ Hb]%elem_of_filter_bool). cbn in *. subst n.
    by apply bool_decide_eq_true in Hb.
  - apply runs_ret. apply scannable_runs; [by eapply scannable_intro|done..].
Qed.
End Recovery.
