(* ===== verification/FollowerAppend.v ===== *)
(** * FollowerAppend: preparing a lane for an append

    The first part of [append_sync]: the index is loaded, what object storage covers is
    pruned, and the index is reconciled. Whatever calls fail, every disk on the way is safe
    in the sense of [FollowerCrash] for the frames to keep; at the end the lane is settled
    and its index describes it, and a failure leaves a lane that can be read. *)

From Stdlib Require Import ZArith Lia Sorting.Sorted.
From Stdlib Require Import Strings.Byte.
From stdpp Require Import base strings.
From stdpp Require Import list.
From S2P Require Import Prelude OrdMap Bytes Identity Text LtxTypes Ltx LtxCodec Recovery NodeFrame FollowerRecords FollowerDisk FollowerLane FollowerCrash FollowerSafety.

Local Open Scope bool_scope.

Arguments v_dir {_ _ _ _ _ _ _ _ _ _ _ _ _ _ _} _.
Arguments v_structure {_ _ _ _ _ _ _ _ _ _ _ _ _ _ _} _.
Arguments v_prefix {_ _ _ _ _ _ _ _ _ _ _ _ _ _ _} _.
Arguments v_open {_ _ _ _ _ _ _ _ _ _ _ _ _ _ _} _.
Arguments v_unlinked {_ _ _ _ _ _ _ _ _ _ _ _ _ _ _} _.
Arguments v_synced {_ _ _ _ _ _ _ _ _ _ _ _ _ _ _} _.
Arguments v_safe {_ _ _ _ _ _ _ _ _ _ _ _ _ _ _} _.

(** Chunks are listed in the order of their ranges. *)
Definition chunk_key (e : str * nat) : Z := match parse_chunk_name e.1 with Some (_, last_) => last_ | None => u64_max + 1 end.
Class OrderedReadDir `{ReadDir} := read_dir_ordered d : StronglySorted Z.le (map chunk_key (read_dir d)).

Section Append.
Context `{Crc64, Blake3, Lz4Flex, DiskBudgetAdmission} {RD : ReadDir}.
Context (lane : Lane) (limits : Limits) (acked : list Body).
Abbreviation Safe := (disk_safe lane limits acked).
Abbreviation View := (view lane limits acked).
Abbreviation Readable := (readable lane limits acked).
Abbreviation runs := (runs_with true).

(** ** Worlds with the same disk and index *)

Lemma view_disk w w' dir ces tmp closed full bs o tail : View dir ces tmp closed full bs w o tail -> disk w' = disk w ->
  View dir ces tmp closed full bs w' o tail.
Proof. intros [? ? ? ? ? ? ? ?] E. constructor; rewrite ?E; done. Qed.

Lemma view_readable w w' dir ces tmp closed full bs o tail : View dir ces tmp closed full bs w o tail -> disk w' = disk w -> Readable w'.
Proof. intros Hv E. exists dir, ces, tmp, closed, full, bs, o, tail. by apply (view_disk w). Qed.

Lemma unread_readable known w dir ces tmp closed full bs : unread lane limits acked true dir ces tmp closed full bs known w -> Readable w.
Proof. intros (_ & o & tail & Hv). by exists dir, ces, tmp, closed, full, bs, o, tail. Qed.

(** ** Syncing files *)

(** Syncing a file other than the open chunk: a closed chunk is synced already. *)
Lemma structure_sync fs dir ces closed o full tmp i f : structure lane limits fs dir ces closed o full tmp -> fs !! i = Some f ->
  match o with Some (k, _) => k <> i | None => True end ->
  structure lane limits (<[i := MkFile (content f) []]> fs) dir ces closed o full tmp.
Proof.
  intros Hst Hf Ho. eapply structure_frame; [exact Hst|by rewrite length_insert|]. intros e He.
  destruct (decide (e.2 = i)) as [Ei|]; [|by apply list_lookup_insert_ne]. rewrite Ei, list_lookup_insert_eq by (by eapply lookup_lt_Some).
  apply elem_of_app in He as [He|He].
  - destruct (closed_elem _ _ _ _ _ _ _ _ _ _ Hst He) as (c & _ & _ & (_ & _ & Hc & _)). rewrite Ei, Hf in Hc. injection Hc as ->.
    rewrite Hf. unfold content. cbn. by rewrite app_nil_r.
  - destruct o as [[k fo]|]; [|by apply not_elem_of_nil in He]. apply list_elem_of_singleton in He as ->. by destruct Ho.
Qed.

(** The open chunk is synced to its end. *)
Definition solid (o : option (nat * file)) : Prop := match o with Some (_, f) => pending f = [] | None => True end.

Lemma view_sync w dir ces tmp closed full bs o tail i f : View dir ces tmp closed full bs w o tail -> files (disk w) !! i = Some f ->
  exists o', fst <$> o' = fst <$> o /\ View dir ces tmp closed full bs (set_disk (set_file i (MkFile (content f) []) (disk w)) w) o' tail
    /\ (solid o \/ i ∈ fst <$> option_list o -> solid o').
Proof.
  intros Hv Hf. assert (Safe (set_file i (MkFile (content f) []) (disk w))) as Hs by (apply disk_sync; [by apply v_safe in Hv|done]).
  pose proof (v_structure Hv) as Hst.
  assert ((exists fo, o = Some (i, fo)) \/ match o with Some (k, _) => k <> i | None => True end) as [[fo ->]|Hno].
  { destruct o as [[k fo]|]; [|by right]. destruct (decide (k = i)) as [->|]; [left; by eexists|by right]. }
  - destruct (st_open _ _ _ _ _ _ _ _ _ Hst) as [Ho Hp]. destruct (v_synced Hv) as (sync & Hsp & Hsy & Ha).
    rewrite Hf in Ho. injection Ho as <-. exists (Some (i, MkFile (content f) [])). split_and!; [done| |done].
    destruct Hv as [? ? ? Hop ? ? ? ?]. constructor; try done.
    + eapply structure_resync; [exact Hst|]. unfold content at 1. cbn. by rewrite app_nil_r.
    + unfold content at 1. cbn. by rewrite app_nil_r.
    + exists sync. split_and!; try done. cbn. etrans; [exact Hsy|]. unfold content. by eexists.
  - exists o. split_and!; [done| |].
    + destruct Hv. constructor; try done. by apply structure_sync.
    + intros [?|Hi]; [done|]. destruct o as [[k fo]|]; [|by apply not_elem_of_nil in Hi].
      apply list_elem_of_singleton in Hi. by destruct Hno.
Qed.

Lemma sync_files_runs names w dir ces tmp closed full bs o tail : View dir ces tmp closed full bs w o tail ->
  runs Safe (sync_files names) w
    (fun w' _ => kept w w' /\ exists o', fst <$> o' = fst <$> o /\ View dir ces tmp closed full bs w' o' tail
                                       /\ (solid o \/ OPEN_LOG ∈ names -> solid o'))
    (fun w' => exists o' tail', View dir ces tmp closed full bs w' o' tail').
Proof.
  revert w o. induction names as [|name names IH]; intros w o Hv; cbn [sync_files].
  - apply runs_ret. split; [done|]. exists o. split_and!; try done. intros [?|?%not_elem_of_nil]; done.
  - apply runs_bind, runs_open_file; [|by exists o, tail]. intros i Hi. apply runs_bind.
    assert (i ∈ fst <$> option_list o \/ name <> OPEN_LOG) as Hname.
    { destruct (decide (name = OPEN_LOG)) as [->|]; [left|by right]. rewrite (v_dir Hv) in Hi. cbn [mbind option_bind] in Hi.
      rewrite (view_find _ _ _ _ _ _ _ _ _ _ _ _ Hv) in Hi. destruct o as [[k fo]|]; [|done]. injection Hi as <-. by left. }
    apply runs_sync_data; [by apply v_safe in Hv|by exists o, tail|]. intros d Hd [[Hnone ->]|(f & Hf & ->)].
    + eapply runs_mono; [apply (IH _ o); by apply (view_disk w)| |done]. cbn beta. intros w' _ (Hk & o' & Ho & Hv' & Hsol).
      split; [done|]. exists o'. split_and!; try done. intros [?|[<-|?]%elem_of_cons]; [apply Hsol; by left| |apply Hsol; by right].
      destruct Hname as [Hi'|]; [|done]. exfalso. destruct o as [[k fo]|]; [|by apply not_elem_of_nil in Hi'].
      apply list_elem_of_singleton in Hi' as ->. cbn in Hnone. by destruct (st_open _ _ _ _ _ _ _ _ _ (v_structure Hv)) as [E _]; rewrite E in Hnone.
    + destruct (view_sync _ _ _ _ _ _ _ _ _ _ _ Hv Hf) as (o1 & Ho1 & Hv1 & Hs1).
      eapply runs_mono; [apply (IH _ o1 Hv1)| |done]. cbn beta. intros w' _ (Hk & o' & Ho & Hv' & Hsol).
      split; [done|]. exists o'. split_and!; [congruence|done|].
      intros [?|[<-|?]%elem_of_cons]; [apply Hsol; left; apply Hs1; by left| |apply Hsol; by right].
      apply Hsol. left. apply Hs1. right. by destruct Hname.
Qed.

(** Syncing the directory. *)
Lemma view_sync_dir w dir ces tmp closed full bs o tail : View dir ces tmp closed full bs w o tail ->
  View dir ces tmp closed full bs (set_disk (sync_dir (disk w)) w) o tail.
Proof.
  intros Hv. pose proof (disk_sync_dir _ _ _ _ (v_safe Hv)) as Hs. destruct Hv as [Hd ? ? ? ? Hu ? ?]. constructor; try done.
  destruct o as [[i f]|]; [|done]. intros dir' n Hin. apply Hu. unfold dirs in *. cbn in Hin. rewrite Hd in *.
  apply list_elem_of_singleton in Hin as ->. by left.
Qed.

(** A lane that is settled: nothing of it is lost by a crash. *)
Definition settled_lane (w : World) dir ces closed bs : Prop := unsynced (disk w) = []
  /\ exists o full, View dir ces [] closed full bs w o [] /\ solid o.

Lemma persist_runs w dir ces closed full bs o ors : View dir ces [] closed full bs w o [] ->
  runs Safe (persist_lane_records (keyed (located closed bs)) ors) w
    (fun w' _ => settled_lane w' dir ces closed bs /\ memory w' = memory w) Readable.
Proof.
  intros Hv. unfold persist_lane_records. apply runs_bind.
  eapply runs_mono; [by apply (sync_files_runs _ _ _ _ _ _ _ _ _ _ Hv)| |intros w' (o' & tail' & Hv'); by eapply view_readable]. cbn beta. intros w1 _ ((Hc & Hu & Hm) & o1 & Ho & Hv1 & Hsol).
  apply runs_bind, runs_gets. rewrite (v_dir Hv1). apply runs_sync_directory; [exact (v_safe Hv1)|intros _; by eapply view_readable|].
  split; [|done]. split; [done|]. exists o1, full. split; [by apply view_sync_dir|].
  destruct bs as [|b bs].
  - destruct o1 as [[i f]|]; [|done]. pose proof (v_open Hv1) as Hop. cbn in *. unfold content in Hop. by apply app_nil in Hop as [_ ?].
  - apply Hsol. right. rewrite sort_by_perm. apply elem_of_remove_dups. rewrite map_app, elem_of_app. left.
    rewrite keyed_snd. unfold located. rewrite map_app, elem_of_app. right. by left.
Qed.

(** ** The cached index *)

(** The index has the sequences and digests of the lane's bodies and knows the range of
    its open chunk. *)
Definition digests (rs : OrdMap StoredRecord) : list (Z * Digest) := map (fun x => (x.1, digest x.2)) rs.
Definition body_digests (bs : list Body) : list (Z * Digest) := map (fun b => (b.1, blake3 b.2)) bs.
Definition indexed (m : LaneMemory) (closed : list (list Body)) (bs : list Body) : Prop :=
  digests (records m) = body_digests (concat closed ++ bs) /\ open_first m = fst <$> head bs /\ open_last m = fst <$> last bs.

Lemma locate_digests path n bs : map (fun r => (sequence r, digest r)) (locate path n bs) = body_digests bs.
Proof. revert n. induction bs as [|b bs IH]; intros n; [done|]. cbn. by rewrite IH. Qed.

Lemma located_digests closed bs : digests (keyed (located closed bs)) = body_digests (concat closed ++ bs).
Proof.
  unfold digests, keyed, located. rewrite map_map, map_app. cbn [fst snd]. rewrite locate_digests. unfold body_digests. rewrite map_app. f_equal.
  induction closed as [|c closed IH]; [done|]. cbn [map concat]. by rewrite !map_app, locate_digests, IH.
Qed.

(** ** A lane that is ready for an append *)

Definition memory_ok (w : World) : Prop := forall m, memory w = Some m -> needs_reconciliation m = false ->
  exists dir ces closed bs, settled_lane w dir ces closed bs /\ indexed m closed bs.

(** Safe for the acknowledged frames, and with an index that is missing, doubted or right. *)
Definition lane_ready (w : World) : Prop := Safe (disk w)
  /\ (chunks (disk w) = None -> memory w = None /\ unsynced (disk w) = [])
  /\ (chunks (disk w) <> None -> Readable w) /\ memory_ok w.

(** After the first part: an index, and a view that it describes unless it is doubted. *)
Definition loaded (w : World) : Prop := exists dir ces tmp closed full bs o tail m,
  View dir ces tmp closed full bs w o tail /\ memory w = Some m
  /\ (needs_reconciliation m = false -> tail = [] /\ solid o /\ unsynced (disk w) = [] /\ indexed m closed bs).

Lemma lane_memory_runs I w closed bs (Q : World -> LaneMemory -> Prop) (E : World -> Prop) :
  (forall w' m, disk w' = disk w -> indexed m closed bs -> needs_reconciliation m = false -> Q w' m) -> E w ->
  runs I (lane_memory lane limits (keyed (located closed bs)) (locate OPEN_LOG 0 bs)) w Q E.
Proof.
  intros HQ HE. unfold lane_memory. apply runs_bind, runs_lift; [|done]. intros n _. apply runs_bind, runs_gets.
  apply runs_bind, runs_lift; [|done]. intros [u r] _. apply runs_bind, runs_modify, runs_ret. apply HQ; try done.
  split_and!; cbn [records open_first open_last]; [apply located_digests|apply locate_head|apply locate_last].
Qed.

Lemma runs_the_memory I w (Q : World -> LaneMemory -> Prop) (E : World -> Prop) :
  (forall m, memory w = Some m -> Q w m) -> E w -> runs I the_memory w Q E.
Proof.
  intros HQ HE. unfold the_memory. apply runs_bind, runs_gets, runs_lift; [|done]. intros m Hm%ok_or_Ok. auto.
Qed.

Lemma indexed_covered m n closed bs : indexed m closed bs -> indexed (set_covered n m) closed bs.
Proof. done. Qed.

(** The lane of an empty directory. *)
Lemma empty_structure fs : structure lane limits fs [] [] [] None [] [].
Proof. constructor; cbn; try done; try constructor. apply sublist_nil_l. Qed.

Lemma empty_view w : Safe (disk w) -> chunks (disk w) = Some [] -> acked = [] -> unsynced (disk w) = [] ->
  View [] [] [] [] [] [] w None [].
Proof.
  intros Hs Hd Ha Hu. constructor; try done; [|by left|].
  - apply empty_structure.
  - exists []. by rewrite Ha.
Qed.

Lemma ensure_runs w : lane_ready w -> memory w = None ->
  runs Safe ensure_lane_directories w (fun w' _ => Readable w' /\ memory w' = memory w) (fun w' => w' = w \/ Readable w').
Proof.
  intros (Hs & Hn & Hr & _) Hm. unfold ensure_lane_directories. apply runs_bind, runs_gets. destruct (chunks (disk w)) as [dir|] eqn:Hd.
  - apply runs_ret. split; [|done]. by apply Hr.
  - pose proof Hs as (Ha & Hse & Hre). rewrite Hd in Ha.
    assert (Safe (MkDisk (files (disk w)) (Some []) [] (sealed (disk w)) (retired (disk w)))) as Hs'.
    { split; [|done]. cbn. apply Forall_singleton. exists [], [], None, [], [], []. rewrite Ha. split_and!; try done. apply empty_structure. }
    apply runs_bind, runs_fallible; [by left|]. apply runs_change; [done|].
    set (w1 := set_disk _ w). assert (Readable w1) as Hr1 by (exists [], [], [], [], [], [], None, []; by apply empty_view).
    apply runs_fallible; [by right|]. by apply runs_ret.
Qed.

Lemma loaded_covered w n : loaded w -> runs Safe (m ← the_memory; put_memory (set_covered (Z.max (covered_through m) n) m)) w (fun w' _ => loaded w') Readable.
Proof.
  intros (dir & ces & tmp & closed & full & bs & o & tail & m & Hv & Hm & Hc). apply runs_bind, runs_the_memory; [|by eapply view_readable].
  intros m' Hm'. rewrite Hm in Hm'. injection Hm' as <-. apply runs_modify.
  exists dir, ces, tmp, closed, full, bs, o, tail, (set_covered (Z.max (covered_through m) n) m). split_and!; try done. by apply (view_disk w).
Qed.

(** A lane with an index is loaded. *)
Lemma ready_loaded w m : lane_ready w -> memory w = Some m -> loaded w.
Proof.
  intros (Hs & Hn & Hr & Hmem) Em. destruct (chunks (disk w)) as [dir|] eqn:Hd; [|destruct Hn as [? _]; congruence].
  destruct (needs_reconciliation m) eqn:En.
  - destruct (Hr ltac:(done)) as (dir' & ces & tmp & closed & full & bs & o & tail & Hv).
    exists dir', ces, tmp, closed, full, bs, o, tail, m. split_and!; try done. by rewrite En.
  - destruct (Hmem m Em En) as (dir' & ces & closed & bs & (Hu & o & full & Hv & Hsol) & Hix).
    by exists dir', ces, [], closed, full, bs, o, [], m.
Qed.

(** The index from a scan. *)
Lemma scan_memory_runs w : Readable w ->
  runs Safe (_ ← invalidate_count; retained ← scan_lane lane limits None; open_records ← scan_chunk lane limits OPEN_LOG true None;
             _ ← persist_lane_records retained open_records; m ← lane_memory lane limits retained open_records; put_memory m) w
    (fun w' _ => loaded w') Readable.
Proof.
  intros (dir & ces & tmp & closed & full & bs & o & tail & Hv).
  apply runs_bind, runs_quiet; [auto with quiet| |by intros; eapply view_readable]. intros w2 _ Hd2 Hm2.
  apply runs_bind. eapply runs_mono; [eapply scan_lane_runs; by apply (view_disk w)| |intros w'; apply unread_readable].
  cbn beta. intros w3 index (-> & -> & (Hc3 & Hu3 & Hm3) & _ & o3 & _ & Hv3).
  apply runs_bind. eapply runs_mono; [by eapply scan_open_runs| |intros w'; apply unread_readable].
  cbn beta. intros w4 ors (-> & (Hc4 & Hu4 & Hm4) & _ & o4 & _ & Hv4).
  apply runs_bind. eapply runs_mono; [by eapply persist_runs| |done]. cbn beta. intros w5 _ ((Hu5 & o5 & full5 & Hv5 & Hsol) & Hm5).
  apply runs_bind, lane_memory_runs; [|by eapply view_readable]. intros w6 m Hd6 Hix Hn. apply runs_modify.
  exists dir, ces, [], closed, full5, bs, o5, [], m. split_and!; try done; [by apply (view_disk w5)|]. intros _. split_and!; try done. cbn. by rewrite Hd6.
Qed.

Lemma load_memory_runs w covered : lane_ready w -> runs Safe (load_memory lane limits covered) w (fun w' _ => loaded w') (fun w' => w' = w \/ Readable w').
Proof.
  intros Hw. unfold load_memory. apply runs_bind, runs_gets. destruct (memory w) as [m|] eqn:Em.
  - apply runs_bind, runs_ret, runs_bind, runs_gets. pose proof Hw as ((_ & Hse & Hre) & _). rewrite Hse, Hre. cbn [is_some].
    apply runs_bind, runs_ret. eapply runs_mono; [apply loaded_covered; by eapply ready_loaded|done|by right].
  - apply runs_bind. eapply runs_mono; [by apply ensure_runs| |done]. cbn beta. intros w1 _ (Hr & Hm1).
    apply runs_bind, runs_gets. pose proof Hr as (dir & ces & tmp & closed & full & bs & o & tail & Hv).
    destruct (v_safe Hv) as (_ & -> & ->). cbn [is_some].
    apply runs_bind. eapply runs_mono; [by apply scan_memory_runs| |by right]. cbn beta. intros w2 _ Hl.
    eapply runs_mono; [by apply loaded_covered|done|by right].
Qed.

(** ** The order of the chunks *)

Lemma sorted_unique {A} (key : A -> Z) l l' : l ≡ₚ l' -> StronglySorted Z.le (map key l) -> StronglySorted Z.lt (map key l') -> l = l'.
Proof.
  revert l. induction l' as [|x l' IH]; intros l Hp Hl Hl'; [by apply Permutation_nil_r in Hp|].
  destruct l as [|y l]; [by apply Permutation_sym, Permutation_nil_r in Hp|]. cbn [map] in Hl, Hl'.
  apply StronglySorted_inv in Hl as [Hl Hy], Hl' as [Hl' Hx]. rewrite Forall_map, Forall_forall in Hy, Hx.
  assert (y = x) as ->.
  { assert (y ∈ x :: l') as Hin by (rewrite <- Hp; by left). assert (x ∈ y :: l) as Hin' by (rewrite Hp; by left).
    apply elem_of_cons in Hin as [?|Hin]; [done|]. apply elem_of_cons in Hin' as [?|Hin']; [done|].
    specialize (Hx _ Hin). specialize (Hy _ Hin'). lia. }
  f_equal. apply IH; [|done..]. by apply Permutation_cons_inv in Hp.
Qed.

Lemma closed_key fs e c : Forall (valid lane limits) c -> closed_entry fs e c -> exists b, last c = Some b /\ chunk_key e = b.1.
Proof.
  intros Hv Hc. destruct (closed_name _ _ _ _ _ Hv Hc) as (b & b' & _ & Hl & Hp). exists b'. split; [done|]. unfold chunk_key. by rewrite Hp.
Qed.

Lemma sorted_app_lt (l l' : list Z) : StronglySorted Z.lt (l ++ l') -> forall x y, x ∈ l -> y ∈ l' -> x < y.
Proof.
  induction l as [|a l IH]; intros Hs x y Hx Hy; [by apply not_elem_of_nil in Hx|].
  cbn [app] in Hs. apply StronglySorted_inv in Hs as [Hs Ha]. rewrite Forall_forall in Ha.
  apply elem_of_cons in Hx as [->|Hx]; [|by apply (IH Hs)]. apply Ha, elem_of_app. by right.
Qed.

(** Every body of an earlier chunk comes before every body of a later one. *)
Lemma chunk_before fs ces c closed rest e : Forall (valid lane limits) (concat (c :: closed)) -> in_order (concat (c :: closed) ++ rest) ->
  Forall2 (closed_entry fs) ces closed -> e ∈ ces -> forall b, b ∈ c -> b.1 < chunk_key e.
Proof.
  intros Hv Ho Hc He b Hb. apply list_elem_of_lookup in He as [k He]. eapply Forall2_lookup_l in Hc as (c' & Hc' & Hce); [|exact He].
  apply list_elem_of_lookup_2 in Hc'. cbn [concat] in *. apply Forall_app in Hv as [_ Hv].
  assert (forall x, x ∈ c' -> x ∈ concat closed) as Hin by (intros x Hx; apply list_elem_of_In, in_concat; exists c'; by rewrite <- !list_elem_of_In).
  destruct (closed_key fs e c') as (b' & Hl & ->); [|done|].
  - rewrite Forall_forall in Hv |- *. auto.
  - apply in_order_app_l in Ho. apply in_order_sorted in Ho. rewrite map_app in Ho. eapply sorted_app_lt; [exact Ho|..]; apply list_elem_of_fmap.
    + by exists b.
    + exists b'. split; [done|]. apply Hin. apply last_Some in Hl as [l ->]. apply elem_of_app. right. by left.
Qed.

Lemma closed_keys fs ces closed rest : Forall (valid lane limits) (concat closed) -> in_order (concat closed ++ rest) ->
  Forall2 (closed_entry fs) ces closed -> StronglySorted Z.lt (map chunk_key ces).
Proof.
  intros Hv Ho Hc. revert Hv Ho. induction Hc as [|e c ces closed Hec Hc IH]; intros Hv Ho; cbn [map]; constructor.
  - apply IH; [by apply Forall_app in Hv as [_ ?]|]. cbn [concat] in Ho. rewrite <- app_assoc in Ho. by apply in_order_app_r in Ho.
  - apply Forall_map, Forall_forall. intros e' He'. pose proof Hv as [Hvc _]%Forall_app.
    destruct (closed_key fs e c Hvc Hec) as (b & Hl & ->). eapply chunk_before; [done..|].
    apply last_Some in Hl as [l ->]. apply elem_of_app. right. by left.
Qed.

Lemma sorted_map_filter {A} (f : A -> Z) (p : A -> bool) l : StronglySorted Z.le (map f l) -> StronglySorted Z.le (map f (List.filter p l)).
Proof.
  induction l as [|x l IH]; intros Hs; [done|]. cbn [map] in Hs. apply StronglySorted_inv in Hs as [Hs Hx]. cbn [List.filter].
  destruct (p x); [|by apply IH]. cbn [map]. constructor; [by apply IH|]. rewrite Forall_map, Forall_forall in Hx |- *.
  intros y [Hy _]%elem_of_filter_bool. by apply Hx.
Qed.

(** A name of a closed chunk. *)
Definition named (e : str * nat) : bool := is_some (parse_chunk_name e.1).

(** Where the directory is listed in order, the closed chunks are met in theirs. *)
Lemma listing_closed `{!OrderedReadDir} w dir ces tmp closed full bs o tail : View dir ces tmp closed full bs w o tail ->
  List.filter named (read_dir dir) = ces.
Proof.
  intros Hv. pose proof (v_structure Hv) as Hst.
  pose proof (st_valid _ _ _ _ _ _ _ _ _ Hst) as [Hval _]%Forall_app.
  apply (sorted_unique chunk_key).
  - rewrite (filter_perm _ _ _ (read_dir_perm dir)), (filter_perm _ _ _ (st_perm _ _ _ _ _ _ _ _ _ Hst)).
    rewrite !List.filter_app. assert (List.filter named (open_entry o) = []) as -> by (by destruct o as [[i f]|]).
    assert (List.filter named tmp = []) as ->.
    { destruct (structure_tmp _ _ _ _ _ _ _ _ _ Hst) as [[-> _]|(k & -> & _)]; done. }
    rewrite !app_nil_r. rewrite filter_keep; [done|]. intros e He.
    destruct (closed_elem _ _ _ _ _ _ _ _ _ _ Hst He) as (c & _ & Hvc & Hc).
    destruct (closed_name _ _ _ _ _ Hvc Hc) as (? & ? & _ & _ & Hp). unfold named. by rewrite Hp.
  - apply sorted_map_filter, read_dir_ordered.
  - eapply closed_keys; [exact Hval|by apply (st_order _ _ _ _ _ _ _ _ _ Hst)|by apply (st_closed _ _ _ _ _ _ _ _ _ Hst)].
Qed.

(** ** New states of the directory *)

Lemma view_set_dir w old ces0 tmp0 closed0 full0 bs0 o0 tail0 dir ces tmp closed full bs o tail :
  View old ces0 tmp0 closed0 full0 bs0 w o0 tail0 -> structure lane limits (files (disk w)) dir ces closed o full tmp ->
  bs `prefix_of` full -> match o with Some (_, f) => content f = log bs ++ tail | None => bs = [] /\ tail = [] end ->
  tail = [] \/ (exists b, valid lane limits b /\ torn b tail) ->
  match o with Some (i, _) => unlinked i (set_dir dir (disk w)) | None => True end ->
  (exists sync, sync `prefix_of` full /\ match o with Some (_, f) => log sync `prefix_of` durable f | None => sync = [] end
                /\ Forall (fun b => b ∈ concat closed ++ sync) acked) ->
  View dir ces tmp closed full bs (set_disk (set_dir dir (disk w)) w) o tail.
Proof.
  intros Hv Hst Hp Ho Ht Hu Hsy. constructor; try done. apply (disk_set_dir _ _ _ _ _ old); [exact (v_safe Hv)|exact (v_dir Hv)|].
  destruct Hsy as (sync & ? & ? & ?). by exists ces, closed, o, full, tmp, sync.
Qed.

Lemma unlinked_set_dir i dir old d : chunks d = Some old -> unlinked i d -> (forall n, (n, i) ∈ dir -> parse_chunk_name n = None) ->
  unlinked i (set_dir dir d).
Proof.
  intros Hd Hu Hn dir' n Hin. unfold dirs, set_dir in Hin. cbn [chunks unsynced] in Hin. rewrite Hd in Hin.
  apply elem_of_cons in Hin as [->|Hin]; [apply Hn|]. apply Hu. unfold dirs. by rewrite Hd.
Qed.

Lemma dir_remove_elem name e (dir : Dir) : e ∈ dir_remove name dir <-> e ∈ dir /\ e.1 <> name.
Proof. unfold dir_remove. rewrite elem_of_filter_bool. by rewrite bool_decide_eq_true. Qed.

Lemma structure_drop_chunk fs dir e ces c closed o full tmp : structure lane limits fs dir (e :: ces) (c :: closed) o full tmp ->
  structure lane limits fs (dir_remove e.1 dir) ces closed o full tmp.
Proof.
  intros [Hp Hn Hi Hb Hc Ho Ht Hv Hr Hs]. cbn [concat app] in *.
  assert (dir ≡ₚ e :: (ces ++ open_entry o ++ tmp)) as Hp1 by done.
  assert (dir_remove e.1 dir ≡ₚ ces ++ open_entry o ++ tmp) as Hp' by (apply (dir_remove_perm _ e.2); [done|by destruct e]).
  rewrite Hp1 in Hn, Hi, Hb. cbn [map] in Hn, Hi. constructor; try done; rewrite ?Hp'.
  - by apply NoDup_cons in Hn as [_ ?].
  - by apply NoDup_cons in Hi as [_ ?].
  - by apply Forall_cons in Hb as [_ ?].
  - by apply Forall2_cons in Hc as [_ ?].
  - rewrite <- app_assoc in Hv. by apply Forall_app in Hv as [_ ?].
  - rewrite <- app_assoc in Hr. by apply in_order_app_r in Hr.
Qed.

Lemma view_remove_chunk covered w dir e ces tmp c closed full bs o tail : Forall (fun b => covered < b.1) acked ->
  View dir (e :: ces) tmp (c :: closed) full bs w o tail -> Forall (fun b => b.1 <= covered) c ->
  View (dir_remove e.1 dir) ces tmp closed full bs (set_disk (set_dir (dir_remove e.1 dir) (disk w)) w) o tail.
Proof.
  intros Hcov Hv Hc. destruct (v_synced Hv) as (sync & Hsp & Hsy & Ha).
  eapply view_set_dir; [exact Hv|by eapply structure_drop_chunk, (v_structure Hv)|exact (v_prefix Hv)|exact (v_open Hv)|by destruct Hv| |].
  - destruct o as [[i f]|]; [|done]. eapply unlinked_set_dir; [exact (v_dir Hv)|exact (v_unlinked Hv)|].
    intros n [Hn _]%dir_remove_elem. by rewrite (open_names _ _ _ _ _ _ _ _ _ _ _ (v_structure Hv) Hn).
  - exists sync. split_and!; try done. rewrite Forall_forall in Hcov, Hc, Ha |- *. intros b Hb. specialize (Ha b Hb).
    cbn [concat] in Ha. rewrite <- app_assoc in Ha. apply elem_of_app in Ha as [Hin|?]; [|done]. specialize (Hcov b Hb). specialize (Hc b Hin). lia.
Qed.

(** ** Pruning *)

Context (covered : Z) (Hcov : Forall (fun b => covered < b.1) acked).

Lemma runs_remove_file name i w dir (Q : World -> unit -> Prop) E : chunks (disk w) = Some dir -> dir_find name dir = Some i ->
  E w -> Safe (set_dir (dir_remove name dir) (disk w)) -> Q (set_disk (set_dir (dir_remove name dir) (disk w)) w) tt ->
  runs Safe (remove_file name) w Q E.
Proof.
  intros Hd Hf HE Hs HQ. unfold remove_file. apply runs_bind, (runs_the_dir _ _ dir); [done|].
  apply runs_bind, (runs_open_found _ _ _ i); [by rewrite Hd|done|]. by apply runs_change.
Qed.

(** What the loop over the directory leaves: every chunk it kept is uncovered, and when
    none was removed nothing changed. *)
Definition pruned (w : World) dir ces tmp closed full bs o tail (gone : bool) (w' : World) (gone' : bool) : Prop :=
  exists dir' ces' closed', View dir' ces' tmp closed' full bs w' o tail /\ Forall (fun e => covered < chunk_key e) ces' /\ memory w' = memory w
    /\ (gone' = true \/ gone' = gone /\ disk w' = disk w /\ dir' = dir /\ ces' = ces /\ closed' = closed).

Lemma pruned_mono w w1 dir ces tmp closed dir1 ces1 closed1 full bs o tail gone w' gone' : memory w1 = memory w ->
  pruned w1 dir1 ces1 tmp closed1 full bs o tail true w' gone' -> pruned w dir ces tmp closed full bs o tail gone w' gone'.
Proof.
  intros Hm (dir' & ces' & closed' & Hv & Hf & Hm' & Hg). exists dir', ces', closed'. split_and!; try done; [congruence|].
  left. by destruct Hg as [?|[? _]].
Qed.

(** The remaining entries, all of uncovered chunks: nothing is removed, and a success has
    met no temporary. *)
Lemma prune_rest_runs entries w (Q : World -> bool * list str -> Prop) (E : World -> Prop) gone retained :
  Forall (fun e => named e = true -> covered < chunk_key e) entries -> ((OPEN_TMP ∉ map fst entries) -> forall retained', Q w (gone, retained')) -> E w ->
  runs Safe (prune_chunks entries covered gone retained) w Q E.
Proof.
  intros He HQ HE. revert retained HQ. induction entries as [|[name i] entries IH]; intros retained HQ; cbn [prune_chunks].
  { apply runs_ret, HQ, not_elem_of_nil. }
  apply Forall_cons in He as [Hk He]. cbn [map fst] in HQ. apply runs_bind, runs_fallible; [done|]. apply runs_ret.
  assert (name <> OPEN_TMP -> forall retained, runs Safe (prune_chunks entries covered gone retained) w Q E) as Hnext.
  { intros Hn retained'. apply IH; [done|]. intros Hno. apply HQ. by apply not_elem_of_cons. }
  case_bool_decide as En; [apply Hnext; by subst name|].
  apply runs_bind, runs_lift; [|done]. intros [first last_] Hp%ok_or_Ok. unfold named, chunk_key in Hk. cbn [fst] in Hk. rewrite Hp in Hk.
  rewrite (proj2 (Z.leb_gt _ _)) by (by apply Hk). apply runs_bind, runs_fallible; [done|]. apply runs_ret, Hnext. by intros ->.
Qed.

Lemma chunk_covered fs e c rest b : closed_entry fs e c -> in_order (c ++ rest) -> last c = Some b -> b.1 <= covered -> Forall (fun x => x.1 <= covered) c.
Proof.
  intros Hce Ho Hla Hle. apply Forall_forall. intros x Hx. apply in_order_app_l, in_order_sorted in Ho. apply last_Some in Hla as [l ->].
  apply elem_of_app in Hx as [Hx|Hx]; [|apply list_elem_of_singleton in Hx as ->; lia].
  rewrite map_app in Ho. pose proof (sorted_app_lt _ _ Ho x.1 b.1) as Hlt. cut (x.1 < b.1); [lia|].
  apply Hlt; [apply list_elem_of_fmap; by exists x|by left].
Qed.

Lemma prune_chunks_runs entries w dir ces tmp closed full bs o tail gone retained :
  View dir ces tmp closed full bs w o tail -> List.filter named entries = ces ->
  runs Safe (prune_chunks entries covered gone retained) w
    (fun w' r => (OPEN_TMP ∉ map fst entries) /\ pruned w dir ces tmp closed full bs o tail gone w' r.1) Readable.
Proof.
  revert w dir ces closed gone retained. induction entries as [|[name i] entries IH]; intros w dir ces closed gone retained Hv Hl; cbn [prune_chunks].
  { apply runs_ret. split; [apply not_elem_of_nil|]. exists dir, ces, closed. cbn in Hl. subst ces. split_and!; try done. by right. }
  assert (Readable w) as Hr by (by eapply view_readable). apply runs_bind, runs_fallible; [done|]. apply runs_ret. cbn [map fst].
  cbn [List.filter] in Hl. case_bool_decide as En.
  { subst name. eapply runs_mono; [by apply (IH w dir ces closed)| |done]. cbn beta. intros w' r [Hno Hp]. split; [|done]. by apply not_elem_of_cons. }
  apply runs_bind, runs_lift; [|done]. intros [first last_] Hp%ok_or_Ok.
  assert (named (name, i) = true) as En' by (unfold named; cbn [fst]; by rewrite Hp). rewrite En' in Hl.
  subst ces. set (rest := List.filter _ _) in *. pose proof (v_structure Hv) as Hst.
  pose proof (st_closed _ _ _ _ _ _ _ _ _ Hst) as Hc. apply Forall2_cons_inv_l in Hc as (c & closed' & Hce & Hc & ->).
  pose proof (st_valid _ _ _ _ _ _ _ _ _ Hst) as [Hval _]%Forall_app. pose proof Hval as [Hvc _]%Forall_app.
  pose proof (st_order _ _ _ _ _ _ _ _ _ Hst) as Hord.
  destruct (closed_name _ _ _ _ _ Hvc Hce) as (b & b' & Hh & Hla & Hp'). cbn [fst] in Hp'. rewrite Hp in Hp'. injection Hp' as -> ->.
  assert (forall e, e ∈ rest -> b'.1 < chunk_key e) as Hlater.
  { intros e He. eapply (chunk_before _ rest c closed' full e); [done..|]. apply last_Some in Hla as [l ->]. apply elem_of_app. right. by left. }
  assert (name <> OPEN_TMP) as Hnt by (by intros ->). destruct (Z.leb_spec b'.1 covered) as [Hle|Hgt].
  - apply runs_bind, runs_file_len; [done|]. apply runs_bind.
    assert (Forall (fun x => x.1 <= covered) c) as Hcle by (cbn [concat] in Hord; rewrite <- app_assoc in Hord; by eapply chunk_covered).
    pose proof (view_remove_chunk covered w dir (name, i) rest tmp c closed' full bs o tail Hcov Hv Hcle) as Hv'. cbn [fst] in Hv'.
    apply (runs_remove_file _ i _ dir); [exact (v_dir Hv)| |done|exact (v_safe Hv')|].
    { apply dir_find_elem; [by apply (st_names _ _ _ _ _ _ _ _ _ Hst)|]. rewrite (st_perm _ _ _ _ _ _ _ _ _ Hst). by left. }
    apply runs_bind, runs_quiet; [auto with quiet| |by intros; eapply view_readable]. intros w2 _ Hd2 Hm2.
    eapply runs_mono; [eapply (IH w2); [by apply (view_disk _ _ _ _ _ _ _ _ _ _ Hv')|done]| |done].
    cbn beta. intros w' r [Hno Hpr]. split; [by apply not_elem_of_cons|]. eapply pruned_mono; [|exact Hpr]. by rewrite Hm2.
  - apply runs_bind, runs_fallible; [done|]. apply runs_ret, prune_rest_runs; [| |done].
    + apply Forall_forall. intros e He Hne. trans b'.1; [done|]. apply Hlater. by apply elem_of_filter_bool.
    + intros Hno retained'. split; [by apply not_elem_of_cons|].
      exists dir, ((name, i) :: rest), (c :: closed'). split_and!; try done; [|by right].
      apply Forall_cons. split; [unfold chunk_key; cbn [fst]; by rewrite Hp|]. apply Forall_forall. intros e He. trans b'.1; [done|]. by apply Hlater.
Qed.

(** ** Rewriting the open chunk *)

Lemma covered_split bs : in_order bs -> exists cb rb, bs = cb ++ rb /\ Forall (fun b => b.1 <= covered) cb /\ Forall (fun b => covered < b.1) rb.
Proof.
  intros Ho. apply in_order_sorted in Ho. induction bs as [|b bs IH]; [by exists [], []|].
  cbn [map] in Ho. apply StronglySorted_inv in Ho as [Ho Hb]. destruct (Z.leb_spec b.1 covered) as [Hle|Hgt].
  - destruct (IH Ho) as (cb & rb & -> & Hc & Hr). exists (b :: cb), rb. split_and!; [done|by apply Forall_cons|done].
  - exists [], (b :: bs). split_and!; [done..|]. apply Forall_cons. split; [done|]. rewrite Forall_map in Hb.
    eapply Forall_impl; [exact Hb|]. cbn. lia.
Qed.

Lemma locate_app path n bs bs' : locate path n (bs ++ bs') = locate path n bs ++ locate path (n + len (log bs)) bs'.
Proof.
  revert n. induction bs as [|b bs IH]; intros n; cbn [app locate].
  - change (len (log [])) with 0. by rewrite Z.add_0_r.
  - rewrite IH, log_cons, len_app, len_record. cbn [app]. do 3 f_equal. unfold RECORD_HEADER_BYTES. lia.
Qed.

Lemma filter_locate path cb rb : Forall (fun b => b.1 <= covered) cb -> Forall (fun b => covered < b.1) rb ->
  List.filter (fun r => covered <? sequence r) (locate path 0 (cb ++ rb)) = locate path (len (log cb)) rb.
Proof.
  intros Hc Hr. rewrite locate_app, List.filter_app, Z.add_0_l.
  assert (forall n, List.filter (fun r => covered <? sequence r) (locate path n cb) = []) as ->.
  { clear Hr. induction Hc as [|b cb Hb Hc IH]; intros n; [done|]. cbn [locate List.filter sequence]. rewrite (proj2 (Z.ltb_ge _ _)) by done. apply IH. }
  assert (forall n, List.filter (fun r => covered <? sequence r) (locate path n rb) = locate path n rb) as ->; [|done].
  clear Hc. induction Hr as [|b rb Hb Hr IH]; intros n; [done|]. cbn [locate List.filter sequence]. rewrite (proj2 (Z.ltb_lt _ _)) by done. by rewrite IH.
Qed.

Lemma exists_locate path n cb rb : Forall (fun b => b.1 <= covered) cb -> Forall (fun b => covered < b.1) rb ->
  existsb (fun r => sequence r <=? covered) (locate path n (cb ++ rb)) = negb (bool_decide (cb = [])).
Proof.
  intros Hc Hr. destruct cb as [|b cb].
  - cbn [app]. rewrite bool_decide_eq_true_2 by done. revert n. induction Hr as [|b rb Hb Hr IH]; intros n; [done|].
    cbn [locate existsb sequence]. rewrite (proj2 (Z.leb_gt _ _)) by done. apply IH.
  - rewrite bool_decide_eq_false_2 by done. apply Forall_cons in Hc as [Hb _]. cbn [app locate existsb sequence]. by rewrite (proj2 (Z.leb_le _ _)).
Qed.

(** The temporary is linked under its own name only. *)
Definition temporary (k : nat) (d : LaneDisk) : Prop := forall dir n, dir ∈ dirs d -> (n, k) ∈ dir -> n = OPEN_TMP.

Lemma disk_temporary d k f : Safe d -> temporary k d -> Safe (set_file k f d).
Proof. intros Hs Ht. apply disk_safe_files; [done|]. intros dir Hdir Hsf. apply safe_other; [done|]. intros n. by apply Ht. Qed.

(** Writing to the temporary. *)
Lemma view_temporary w dir ces tmp closed full bs o tail k f' : View dir ces tmp closed full bs w o tail -> temporary k (disk w) ->
  View dir ces tmp closed full bs (set_disk (set_file k f' (disk w)) w) o tail.
Proof.
  intros Hv Ht. pose proof (v_structure Hv) as Hst. pose proof (disk_temporary _ k f' (v_safe Hv) Ht) as Hs.
  assert (forall n, (n, k) ∈ dir -> n = OPEN_TMP) as Hk by (intros n; apply Ht; unfold dirs; rewrite (v_dir Hv); by left).
  assert (structure lane limits (<[k := f']> (files (disk w))) dir ces closed o full tmp) as Hst'.
  { eapply structure_frame; [exact Hst|by rewrite length_insert|]. intros e [He|He]%elem_of_app; apply list_lookup_insert_ne; symmetry.
    - eapply closed_unlinked; [exact Hst| |done]. intros n Hin. by rewrite (Hk n Hin).
    - destruct o as [[i f]|]; [|by apply not_elem_of_nil in He]. apply list_elem_of_singleton in He as ->. cbn [snd]. intros ->.
      apply open_linked in Hst. by apply Hk in Hst. }
  destruct Hv. by constructor.
Qed.

Lemma copy_records_runs i k f rb cb rest p w : Forall (valid lane limits) rb ->
  files (disk w) !! i = Some f -> content f = log cb ++ log rb ++ rest -> i <> k ->
  files (disk w) !! k = Some (MkFile [] p) -> temporary k (disk w) -> Readable w ->
  runs Safe (copy_records i k (locate OPEN_LOG (len (log cb)) rb)) w
    (fun w' _ => disk w' = set_file k (MkFile [] (p ++ log rb)) (disk w) /\ memory w' = memory w) Readable.
Proof.
  intros Hv. revert cb p w. induction rb as [|b rb IH]; intros cb p w Hf Hc Hne Hk Ht Hcl; cbn [locate copy_records].
  { apply runs_ret. rewrite app_nil_r. split; [|done]. unfold set_file. rewrite list_insert_id by done. by destruct (disk w). }
  apply Forall_cons in Hv as [Hb Hv]. cbn [sequence digest offset length_of].
  apply runs_bind, runs_read_file; [done|]. rewrite Hf, Hc.
  replace (drop (Z.to_nat (len (log cb) + RECORD_HEADER_BYTES)) (log cb ++ log (b :: rb) ++ rest)) with (b.2 ++ log rb ++ rest).
  2:{ rewrite log_cons, record_header, <- !app_assoc, (app_assoc (log cb)). symmetry. apply drop_app_length'.
      rewrite length_app, length_header. unfold len, RECORD_HEADER_BYTES. lia. }
  replace (Z.to_nat (len b.2)) with (length b.2) by (unfold len; lia). rewrite read_exact_app.
  apply runs_bind, runs_lift; [|done]. intros [e r] [= <- <-]. rewrite bool_decide_eq_false_2 by (by intros []).
  destruct Hcl as (dir & ces & tmp & closed & full & bs & o & tail & Hvw).
  pose proof (view_temporary _ _ _ _ _ _ _ _ _ k (MkFile [] (p ++ record_of b)) Hvw Ht) as Hvw1.
  apply runs_bind, runs_fallible_after.
  2:{ intros _ n. pose proof (view_temporary _ _ _ _ _ _ _ _ _ k (MkFile [] (p ++ take n (record_of b))) Hvw Ht) as Hvw2.
      apply runs_change; rewrite Hk; cbn [durable pending]; fold (record_of b); [exact (v_safe Hvw2)|]. by eapply view_readable. }
  apply runs_change; rewrite Hk; cbn [durable pending]; fold (record_of b); [exact (v_safe Hvw1)|].
  apply runs_bind, runs_quiet; [auto with quiet| |].
  - intros w1 _ Hd1 Hm1. replace (len (log cb) + RECORD_HEADER_BYTES + len b.2) with (len (log (cb ++ [b])))
      by (rewrite log_app, len_app, log_cons, len_app, len_record; change (len (log [])) with 0; lia).
    eapply runs_mono; [apply (IH Hv (cb ++ [b]) (p ++ record_of b) w1)| |done]; rewrite ?Hd1; cbn [disk set_disk set_file files].
    + by rewrite list_lookup_insert_ne.
    + by rewrite log_app, log_cons, app_nil_r, <- app_assoc, Hc, log_cons, <- app_assoc.
    + done.
    + apply list_lookup_insert_eq. by eapply lookup_lt_Some.
    + exact Ht.
    + by eapply view_readable.
    + cbn beta. intros w2 _ [Hd2 Hm2]. split; [|by rewrite Hm2, Hm1]. rewrite Hd2, ?Hd1. cbn [disk set_disk]. unfold set_file. cbn [files chunks unsynced sealed retired].
      by rewrite list_insert_insert_eq, log_cons, <- app_assoc.
  - intros w1 Hd1 _. by eapply view_readable.
Qed.

Lemma structure_new fs dir ces closed o full tmp f : structure lane limits fs dir ces closed o full tmp ->
  structure lane limits (fs ++ [f]) dir ces closed o full tmp.
Proof.
  intros Hst. eapply structure_frame; [exact Hst|rewrite length_app; lia|]. intros e He. apply lookup_app_l.
  pose proof (st_bound _ _ _ _ _ _ _ _ _ Hst) as Hb. rewrite Forall_forall in Hb. apply Hb.
  rewrite (st_perm _ _ _ _ _ _ _ _ _ Hst), app_assoc. apply elem_of_app. by left.
Qed.

(** A new file under a new name. *)
Lemma link_new (fs : list file) (dir : Dir) name : name ∉ map fst dir -> NoDup (map fst dir) -> NoDup (map snd dir) ->
  Forall (fun e => (e.2 < length fs)%nat) dir ->
  dir_link name (length fs) dir = dir ++ [(name, length fs)] /\ NoDup (map fst (dir ++ [(name, length fs)]))
  /\ NoDup (map snd (dir ++ [(name, length fs)])) /\ forall f, Forall (fun e => (e.2 < length (fs ++ [f]))%nat) (dir ++ [(name, length fs)]).
Proof.
  intros Hn Hnn Hni Hb. unfold dir_link. rewrite dir_remove_absent by done. split_and!; [done|..].
  - rewrite map_app. apply NoDup_app. split_and!; [done| |apply NoDup_singleton]. intros x Hx Hx'. apply list_elem_of_singleton in Hx' as ->. done.
  - rewrite map_app. apply NoDup_app. split_and!; [done| |apply NoDup_singleton]. intros x Hx Hx'. apply list_elem_of_singleton in Hx' as ->.
    apply list_elem_of_fmap in Hx as (e & He & Hin). rewrite Forall_forall in Hb. specialize (Hb e Hin). cbn in He. lia.
  - intros f. rewrite length_app. cbn [length]. apply Forall_app. split; [eapply Forall_impl; [exact Hb|]; cbn; lia|apply Forall_singleton; cbn; lia].
Qed.

Lemma structure_link_tmp fs dir ces closed o full : structure lane limits fs dir ces closed o full [] ->
  structure lane limits (fs ++ [MkFile [] []]) (dir_link OPEN_TMP (length fs) dir) ces closed o full [(OPEN_TMP, length fs)].
Proof.
  intros Hst. destruct (structure_tmp _ _ _ _ _ _ _ _ _ Hst) as [[_ Hno]|(k & ? & _)]; [|done]. apply dir_find_None in Hno.
  apply (structure_new _ _ _ _ _ _ _ (MkFile [] [])) in Hst as Hst'.
  destruct (link_new fs dir OPEN_TMP Hno) as (-> & Hn & Hi & Hb); [by destruct Hst..|].
  destruct Hst' as [Hp _ _ _ Hc Ho Ht Hv Hr Hs]. constructor; try done. by rewrite Hp, app_nil_r, app_assoc.
Qed.

(** The temporary replaces the open chunk. *)
Lemma structure_rename fs dir ces closed o full k rb : structure lane limits fs dir ces closed o full [(OPEN_TMP, k)] ->
  fs !! k = Some (MkFile (log rb) []) -> Forall (valid lane limits) rb -> in_order (concat closed ++ rb) -> len (log rb) <= u64_max ->
  structure lane limits fs (dir_link OPEN_LOG k (dir_remove OPEN_TMP dir)) ces closed (Some (k, MkFile (log rb) [])) rb [].
Proof.
  intros Hst Hk Hv Ho Hsz. apply structure_remove_tmp in Hst as Hst1. destruct Hst1 as [Hp1 Hn1 Hi1 Hb1 _ _ _ _ _ _].
  assert (dir_remove OPEN_LOG (dir_remove OPEN_TMP dir) ≡ₚ ces) as Hp2.
  { destruct o as [[i f]|]; cbn [open_entry app] in Hp1.
    - apply (dir_remove_perm _ i); [done|]. rewrite Hp1. by rewrite (Permutation_app_comm ces).
    - rewrite !app_nil_r in Hp1. rewrite dir_remove_absent; [done|]. rewrite Hp1. by eapply closed_unnamed. }
  assert (dir ≡ₚ (OPEN_TMP, k) :: (ces ++ open_entry o)) as Hp3.
  { rewrite (st_perm _ _ _ _ _ _ _ _ _ Hst), app_assoc. by rewrite (Permutation_app_comm _ [(OPEN_TMP, k)]). }
  pose proof (closed_unnamed _ _ _ _ _ _ _ _ _ OPEN_LOG Hst eq_refl) as Hno. destruct Hst as [Hp Hn Hi Hb Hc _ _ Hvc _ _]. unfold dir_link.
  rewrite Hp3 in Hn, Hi, Hb. cbn [map fst snd] in Hn, Hi. rewrite map_app in Hn, Hi. apply NoDup_cons in Hn as [_ Hn], Hi as [Hki Hi].
  apply NoDup_app in Hn as (Hn & _ & _), Hi as (Hi & _ & _). apply Forall_cons in Hb as [Hkb Hb]. apply Forall_app in Hb as [Hb _].
  constructor; rewrite ?map_app, ?Hp2; try done.
  - apply NoDup_app. split_and!; [done| |apply NoDup_singleton]. intros n Hin Hin'. apply list_elem_of_singleton in Hin' as ->. done.
  - apply NoDup_app. split_and!; [done| |apply NoDup_singleton]. intros n Hin Hin'. apply list_elem_of_singleton in Hin' as ->.
    apply Hki, elem_of_app. by left.
  - apply Forall_app. split; [done|]. by apply Forall_singleton.
  - split; [done|]. unfold content. cbn. by rewrite app_nil_r.
  - apply sublist_nil_l.
  - apply Forall_app. split; [by apply Forall_app in Hvc as [? _]|done].
Qed.

(** An open chunk of exactly these synced records. *)
Definition open_exact (o : option (nat * file)) (bs : list Body) : Prop :=
  match o with Some (_, f) => f = MkFile (log bs) [] | None => bs = [] end.

Lemma open_exact_synced o bs : open_exact o bs -> match o with Some (_, f) => log bs `prefix_of` durable f | None => bs = [] end.
Proof. destruct o as [[i f]|]; [|done]. by intros ->. Qed.

Lemma safe_exact fs dir ces closed o bs : structure lane limits fs dir ces closed o bs [] -> open_exact o bs ->
  Forall (fun b => b ∈ concat closed ++ bs) acked -> safe lane limits acked fs dir.
Proof. intros Hst Ho Ha. exists ces, closed, o, bs, [], bs. split_and!; try done. by apply open_exact_synced. Qed.

Lemma exact_view w dir ces closed o bs : chunks (disk w) = Some dir -> unsynced (disk w) = [] ->
  structure lane limits (files (disk w)) dir ces closed o bs [] -> open_exact o bs ->
  Forall (fun b => b ∈ concat closed ++ bs) acked -> Safe (disk w) -> View dir ces [] closed bs bs w o [].
Proof.
  intros Hd Hu Hst Ho Ha Hs. constructor; try done; [|by left| |].
  - destruct o as [[i f]|]; [|done]. cbn in Ho. subst f. unfold content. cbn. by rewrite app_nil_r.
  - destruct o as [[i f]|]; [|done]. by eapply synced_unlinked.
  - exists bs. split_and!; try done. by apply open_exact_synced.
Qed.

Lemma settle_intro w dir ces closed o bs : chunks (disk w) = Some dir -> unsynced (disk w) = [] ->
  structure lane limits (files (disk w)) dir ces closed o bs [] -> open_exact o bs ->
  Forall (fun b => b ∈ concat closed ++ bs) acked -> Safe (disk w) -> settled_lane w dir ces closed bs.
Proof.
  intros Hd Hu Hst Ho Ha Hs. split; [done|]. exists o, bs. split; [by apply exact_view|].
  destruct o as [[i f]|]; [|done]. cbn in Ho. by subst f.
Qed.

Lemma uncovered_acked w dir ces closed full cb rb o tail : View dir ces [] closed full (cb ++ rb) w o tail ->
  Forall (fun b => b.1 <= covered) cb -> Forall (fun b => b ∈ concat closed ++ rb) acked.
Proof.
  intros Hv Hc. pose proof (view_acked _ _ _ _ _ _ _ _ _ _ _ _ Hv) as Ha. rewrite Forall_forall in Ha, Hc, Hcov |- *.
  intros b Hb. specialize (Ha b Hb). rewrite !elem_of_app in *. destruct Ha as [?|[Hin|?]]; [by left| |by right].
  specialize (Hc b Hin). specialize (Hcov b Hb). lia.
Qed.

(** A new file is in no directory that a crash may restore. *)
Lemma safe_fresh d dir n : Safe d -> dir ∈ dirs d -> (n, length (files d)) ∉ dir.
Proof.
  intros (Hd & _ & _) Hin Hn. unfold dirs in Hin. destruct (chunks d) as [dir0|]; [|by apply not_elem_of_nil in Hin].
  rewrite Forall_forall in Hd. destruct (Hd dir Hin) as (ces & closed & o & full & tmp & sync & Hst & _).
  pose proof (st_bound _ _ _ _ _ _ _ _ _ Hst) as Hb. rewrite Forall_forall in Hb. specialize (Hb _ Hn). cbn in Hb. lia.
Qed.

Lemma disk_new_file d f : Safe d -> Safe (new_file f d).
Proof. intros Hs. apply disk_safe_files; [done|]. intros dir _ Hsf. by apply safe_new. Qed.

(** The temporary is created beside the open chunk. *)
Lemma create_tmp_runs w dir full bs i f : View dir [] [] [] full bs w (Some (i, f)) [] ->
  runs Safe (create OPEN_TMP) w (fun w' k => memory w' = memory w /\ files (disk w') = files (disk w) ++ [MkFile [] []] /\ k = length (files (disk w))
    /\ temporary k (disk w') /\ exists dir1, View dir1 [] [(OPEN_TMP, k)] [] full bs w' (Some (i, f)) []) Readable.
Proof.
  intros Hv. pose proof (v_structure Hv) as Hst. pose proof (v_dir Hv) as Hd. set (k := length (files (disk w))).
  destruct (structure_tmp _ _ _ _ _ _ _ _ _ Hst) as [[_ Hft]|(? & ? & _)]; [|done].
  pose proof (structure_link_tmp _ _ _ _ _ _ Hst) as Hst1. fold k in Hst1. set (dir1 := dir_link OPEN_TMP k dir) in *.
  set (w0 := set_disk (new_file (MkFile [] []) (disk w)) w).
  assert (View dir [] [] [] full bs w0 (Some (i, f)) []) as Hv0.
  { pose proof (disk_new_file _ (MkFile [] []) (v_safe Hv)) as Hs0. destruct Hv. constructor; try done. by apply structure_new. }
  assert (View dir1 [] [(OPEN_TMP, k)] [] full bs (set_disk (set_dir dir1 (disk w0)) w0) (Some (i, f)) []) as Hv1.
  { eapply view_set_dir; [exact Hv0|exact Hst1|exact (v_prefix Hv)|exact (v_open Hv)|by left| |exact (v_synced Hv)].
    eapply unlinked_set_dir; [exact (v_dir Hv0)|exact (v_unlinked Hv0)|]. intros n Hn. by rewrite (open_names _ _ _ _ _ _ _ _ _ _ _ Hst1 Hn). }
  unfold create. apply runs_fallible; [intros _; exact (view_readable _ _ _ _ _ _ _ _ _ _ Hv eq_refl)|].
  apply runs_bind, (runs_the_dir _ _ dir); [done|]. rewrite Hft. apply runs_bind, runs_gets. fold k.
  apply runs_bind, runs_change; [exact (v_safe Hv1)|]. apply runs_ret. split_and!; try done; [|by exists dir1].
  intros dir' n Hin Hn. unfold dirs, set_dir in Hin. cbn [chunks unsynced new_file disk set_disk] in Hin. rewrite Hd in Hin.
  apply elem_of_cons in Hin as [->|Hin].
  - unfold dir_link in Hn. apply elem_of_app in Hn as [[Hn _]%dir_remove_elem|Hn]; [|apply list_elem_of_singleton in Hn; congruence].
    destruct (safe_fresh (disk w) dir n (v_safe Hv)); [unfold dirs; rewrite Hd; by left|done].
  - destruct (safe_fresh (disk w) dir' n (v_safe Hv)); [unfold dirs; by rewrite Hd|done].
Qed.

(** The synced temporary takes the place of the open chunk. *)
Lemma finish_replace_runs w dir o full bs k rb original : View dir [] [(OPEN_TMP, k)] [] full bs w o [] -> temporary k (disk w) ->
  files (disk w) !! k = Some (MkFile (log rb) []) ->
  Forall (valid lane limits) rb -> in_order rb -> len (log rb) <= u64_max -> Forall (fun b => b ∈ rb) acked ->
  runs Safe (_ ← rename OPEN_TMP OPEN_LOG; _ ← removed original; sync_directory) w
    (fun w' _ => (exists dir', settled_lane w' dir' [] [] rb) /\ memory w' = memory w) Readable.
Proof.
  intros Hv Ht Hk Hval Hord Hsz Ha. pose proof (v_structure Hv) as Hst. pose proof (v_dir Hv) as Hd.
  destruct (structure_tmp _ _ _ _ _ _ _ _ _ Hst) as [[? _]|(k' & [= <-] & Hft)]; [done|].
  pose proof (structure_rename _ _ _ _ _ _ _ rb Hst Hk Hval Hord Hsz) as Hst'.
  set (dir' := dir_link OPEN_LOG k (dir_remove OPEN_TMP dir)) in *.
  assert (View dir' [] [] [] rb rb (set_disk (set_dir dir' (disk w)) w) (Some (k, MkFile (log rb) [])) []) as Hv'.
  { eapply view_set_dir; [exact Hv|exact Hst'|done|done|by left| |by exists rb].
    eapply unlinked_set_dir; [exact Hd|intros dir0 n Hin Hn; by rewrite (Ht dir0 n Hin Hn)|].
    intros n Hn. by rewrite (open_names _ _ _ _ _ _ _ _ _ _ _ Hst' Hn). }
  unfold rename. apply runs_bind, runs_bind, (runs_the_dir _ _ dir); [done|].
  apply runs_bind, (runs_open_found _ _ _ k); [by rewrite Hd|intros _; exact (view_readable _ _ _ _ _ _ _ _ _ _ Hv eq_refl)|].
  apply runs_change; [exact (v_safe Hv')|]. apply runs_bind, runs_quiet; [auto with quiet| |by intros; eapply view_readable].
  intros w1 _ Hd1 Hm1. apply runs_sync_directory; rewrite ?Hd1; [exact (v_safe Hv')|intros _; by eapply view_readable|]. split; [|done]. exists dir'.
  eapply settle_intro; [done..|exact Hst'|done|done|]. apply disk_sync_dir, (v_safe Hv').
Qed.

(** The part of a rewrite that is cleaned up after a failure. *)
Lemma replace_open_runs w dir full cb rb i f original : View dir [] [] [] full (cb ++ rb) w (Some (i, f)) [] ->
  Forall (fun b => b.1 <= covered) cb ->
  runs Safe (source ← open_file OPEN_LOG; output ← create OPEN_TMP; _ ← copy_records source output (locate OPEN_LOG (len (log cb)) rb);
             _ ← sync_data output; _ ← rename OPEN_TMP OPEN_LOG; _ ← removed original; sync_directory) w
    (fun w' _ => (exists dir', settled_lane w' dir' [] [] rb) /\ memory w' = memory w) Readable.
Proof.
  intros Hv Hc. pose proof (v_structure Hv) as Hst. pose proof (v_dir Hv) as Hd. pose proof (uncovered_acked _ _ _ _ _ _ _ _ _ Hv Hc) as Ha.
  destruct (view_valid _ _ _ _ _ _ _ _ _ _ _ _ Hv) as [[_ Hval]%Forall_app Hord]. cbn [concat app] in Ha, Hord.
  apply Forall_app in Hval as [_ Hval]. apply in_order_app_r in Hord.
  pose proof (view_len _ _ _ _ _ _ _ _ _ _ _ _ _ Hv) as Hsz. rewrite app_nil_r, log_app, len_app in Hsz. pose proof (len_nonneg (log cb)).
  destruct (st_open _ _ _ _ _ _ _ _ _ Hst) as [Hf _]. pose proof (v_open Hv) as Hop. rewrite app_nil_r, log_app in Hop.
  pose proof (view_find _ _ _ _ _ _ _ _ _ _ _ _ Hv) as Hfo. cbn [fmap option_fmap option_map fst] in Hfo.
  apply runs_bind, (runs_open_found _ _ _ i); [by rewrite Hd|intros _; by eapply view_readable|].
  apply runs_bind. eapply runs_mono; [by eapply create_tmp_runs| |done].
  cbn beta. intros w1 k (Hm1 & Hf1 & Hk & Ht1 & dir1 & Hv1). pose proof (lookup_lt_Some _ _ _ Hf) as Hlt.
  assert (files (disk w1) !! k = Some (MkFile [] [])) as Hk1 by (rewrite Hf1, Hk; by apply list_lookup_middle).
  apply runs_bind. eapply runs_mono; [apply (copy_records_runs i k f rb cb [] [] w1)| |done]; try done.
  { rewrite Hf1. by apply lookup_app_l_Some. }
  { by rewrite Hop, app_nil_r. }
  { lia. }
  { by eapply view_readable. }
  cbn [app]. intros w2 _ [Hd2 Hm2]. pose proof (view_temporary _ _ _ _ _ _ _ _ _ k (MkFile [] (log rb)) Hv1 Ht1) as Hv2.
  apply (view_disk _ w2) in Hv2; [|done]. assert (temporary k (disk w2)) as Ht2 by (by rewrite Hd2).
  assert (files (disk w2) !! k = Some (MkFile [] (log rb))) as Hk2 by (rewrite Hd2; apply list_lookup_insert_eq; by eapply lookup_lt_Some).
  apply runs_bind, runs_sync_data; [exact (v_safe Hv2)|intros _; by eapply view_readable|]. intros d3 Hs3 [[Hn _]|(f2 & Hf2 & ->)]; [by rewrite Hk2 in Hn|].
  rewrite Hk2 in Hf2. injection Hf2 as <-. change (content (MkFile [] (log rb))) with (log rb) in *.
  eapply runs_mono; [eapply (finish_replace_runs _ dir1 (Some (i, f)) full (cb ++ rb) k rb)| |done]; try done.
  - by apply view_temporary.
  - cbn [disk set_disk set_file files]. apply list_lookup_insert_eq. by eapply lookup_lt_Some.
  - lia.
  - cbn beta. intros w' _ [? ->]. split; [done|]. cbn [memory set_disk]. by rewrite Hm2.
Qed.

Lemma remove_tmp_runs w : Readable w -> runs Safe (remove_file OPEN_TMP) w (fun w' _ => Readable w') Readable.
Proof.
  intros Hr. pose proof Hr as (dir & ces & tmp & closed & full & bs & o & tail & Hv). pose proof (v_structure Hv) as Hst. pose proof (v_dir Hv) as Hd.
  unfold remove_file. apply runs_bind, (runs_the_dir _ _ dir); [done|]. apply runs_bind, runs_open_file; rewrite Hd; cbn [mbind option_bind]; [|done].
  intros k Hk. destruct (structure_tmp _ _ _ _ _ _ _ _ _ Hst) as [[_ ?]|(k' & -> & _)]; [congruence|].
  pose proof (structure_remove_tmp _ _ _ _ _ _ _ _ _ Hst) as Hst'.
  assert (View (dir_remove OPEN_TMP dir) ces [] closed full bs (set_disk (set_dir (dir_remove OPEN_TMP dir) (disk w)) w) o tail) as Hv'.
  { eapply view_set_dir; [exact Hv|exact Hst'|exact (v_prefix Hv)|exact (v_open Hv)|by destruct Hv| |exact (v_synced Hv)].
    destruct o as [[i f]|]; [|done]. eapply unlinked_set_dir; [exact Hd|exact (v_unlinked Hv)|].
    intros n Hn. by rewrite (open_names _ _ _ _ _ _ _ _ _ _ _ Hst' Hn). }
  apply runs_change; [exact (v_safe Hv')|]. exact (view_readable _ _ _ _ _ _ _ _ _ _ Hv' eq_refl).
Qed.

Lemma rewrite_runs w dir full cb rb i f : View dir [] [] [] full (cb ++ rb) w (Some (i, f)) [] -> Forall (fun b => b.1 <= covered) cb ->
  runs Safe (rewrite_open_chunk lane (locate OPEN_LOG (len (log cb)) rb)) w
    (fun w' _ => (exists dir', settled_lane w' dir' [] [] rb) /\ memory w' = memory w) Readable.
Proof.
  intros Hv Hc. pose proof (v_structure Hv) as Hst. pose proof (v_dir Hv) as Hd.
  destruct (structure_tmp _ _ _ _ _ _ _ _ _ Hst) as [[_ Hft]|(k & ? & _)]; [|done]. assert (Readable w) as Hr by (by eapply view_readable).
  unfold rewrite_open_chunk, lookup. apply runs_bind, runs_gets. rewrite Hd. cbn [mbind option_bind]. rewrite Hft.
  apply runs_bind, runs_ret, runs_bind, runs_open_file; [|done]. intros i' Hi'.
  rewrite Hd in Hi'. cbn [mbind option_bind] in Hi'.
  apply runs_bind, runs_file_len; [done|].
  destruct rb as [|b rb].
  - cbn [locate]. pose proof (uncovered_acked _ _ _ _ _ _ _ _ _ Hv Hc) as Ha. cbn in Ha.
    assert (structure lane limits (files (disk w)) (dir_remove OPEN_LOG dir) [] [] None [] []) as Hst'.
    { assert (dir_remove OPEN_LOG dir = []) as ->; [|apply empty_structure].
      apply Permutation_nil_r. eapply (dir_remove_perm _ i); [by apply (st_names _ _ _ _ _ _ _ _ _ Hst)|].
      by rewrite (st_perm _ _ _ _ _ _ _ _ _ Hst). }
    assert (View (dir_remove OPEN_LOG dir) [] [] [] [] [] (set_disk (set_dir (dir_remove OPEN_LOG dir) (disk w)) w) None []) as Hv'
      by (eapply view_set_dir; [exact Hv|exact Hst'|done|done|by left|done|by exists []]).
    apply runs_bind, (runs_remove_file _ i' _ dir); [done..|exact (v_safe Hv')|].
    apply runs_bind, runs_quiet; [auto with quiet| |intros; by apply (view_readable _ _ _ _ _ _ _ _ _ _ Hv')].
    intros w1 _ Hd1 Hm1. apply runs_sync_directory; rewrite ?Hd1; [exact (v_safe Hv')|intros _; by apply (view_readable _ _ _ _ _ _ _ _ _ _ Hv')|]. split; [|done].
    exists (dir_remove OPEN_LOG dir). eapply settle_intro; [done..|exact Hst'|done|done|]. apply disk_sync_dir, (v_safe Hv').
  - cbn [locate]. apply runs_bind, runs_lift; [|intros; by eapply view_readable]. intros n _.
    apply runs_bind, runs_quiet; [auto with quiet| |intros; by eapply view_readable].
    intros w1 _ Hd1 Hm1. apply runs_cleanup. eapply runs_mono; [eapply (replace_open_runs w1 dir full cb (b :: rb) i f)| |].
    + by apply (view_disk w).
    + done.
    + cbn beta. intros w' _ [? ->]. by split.
    + apply remove_tmp_runs.
Qed.

(** ** [prune_covered] *)

(** Nothing that is left is covered. *)
Definition uncovered (bodies : list Body) : Prop := bodies = [] \/ exists b, last bodies = Some b /\ covered < b.1.

Lemma uncovered_intro fs ces closed rb : Forall (valid lane limits) (concat closed) -> Forall2 (closed_entry fs) ces closed ->
  Forall (fun e => covered < chunk_key e) ces -> Forall (fun b => covered < b.1) rb -> uncovered (concat closed ++ rb).
Proof.
  intros Hv Hc Hk Hr. destruct (last rb) as [b|] eqn:El.
  - right. exists b. split; [apply last_app_Some; by left|]. rewrite Forall_forall in Hr. apply Hr.
    apply last_Some in El as [l ->]. apply elem_of_app. right. by left.
  - apply last_None in El as ->. rewrite app_nil_r. destruct closed as [|c0 closed0] eqn:Ecl; [by left|].
    rewrite <- Ecl in *. destruct (last closed) as [c|] eqn:Elc; [|apply last_None in Elc; congruence].
    clear c0 closed0 Ecl. apply last_Some in Elc as [closed' ->]. apply Forall2_app_inv_r in Hc as (ces1 & ces2 & _ & Hc2 & ->).
    apply Forall2_cons_inv_r in Hc2 as (e & ces3 & Hce & Hnil & ->). apply Forall2_nil_inv_r in Hnil as ->.
    rewrite concat_app in *. cbn [concat] in *. rewrite app_nil_r in *. apply Forall_app in Hv as [_ Hv], Hk as [_ Hk].
    destruct (closed_key fs e c Hv Hce) as (b & Hl & Hkey). right. exists b. split; [apply last_app_Some; by left|].
    rewrite <- Hkey. by rewrite Forall_singleton in Hk.
Qed.

(** A covered record in the open chunk leaves no closed chunk. *)
Lemma covered_open w dir ces closed full cb rb o tail b : View dir ces [] closed full (b :: cb ++ rb) w o tail -> b.1 <= covered ->
  Forall (fun e => covered < chunk_key e) ces -> ces = [] /\ closed = [].
Proof.
  intros Hv Hb Hk. pose proof (v_structure Hv) as Hst. pose proof (st_closed _ _ _ _ _ _ _ _ _ Hst) as Hc.
  destruct Hc as [|e c ces closed Hce Hc]; [done|]. exfalso. destruct (view_valid _ _ _ _ _ _ _ _ _ _ _ _ Hv) as [Hval Hord].
  cbn [concat] in Hval, Hord. apply Forall_app in Hval as [[Hvc _]%Forall_app _].
  destruct (closed_key _ e c Hvc Hce) as (x & Hl & Hkey). apply Forall_cons in Hk as [Hk _].
  apply in_order_sorted in Hord. rewrite map_app in Hord.
  pose proof (sorted_app_lt _ _ Hord x.1 b.1) as Hlt. cut (x.1 < b.1); [lia|]. apply Hlt; [|by left].
  apply list_elem_of_fmap. exists x. split; [done|]. apply elem_of_app. left. apply last_Some in Hl as [l ->]. apply elem_of_app. right. by left.
Qed.

(** After pruning: a complete lane without covered records, unchanged unless reported. *)
Definition pruned_lane (w : World) closed bs (sound : Prop) (w' : World) (changed : bool) : Prop :=
  memory w' = memory w
  /\ exists dir' ces' closed' full' bs' o', View dir' ces' [] closed' full' bs' w' o' [] /\ uncovered (concat closed' ++ bs')
    /\ (sound -> solid o' /\ unsynced (disk w') = []) /\ (changed = true \/ closed' = closed /\ bs' = bs).

(** The end of the operation: the directory is synced when an entry went. *)
Lemma finish_prune_runs w w0 dir ces closed0 closed full bs0 bs o (gone changed : bool) (sound : Prop) : View dir ces [] closed full bs w o [] ->
  memory w = memory w0 -> uncovered (concat closed ++ bs) -> (sound -> solid o) ->
  (gone = true \/ (sound -> unsynced (disk w) = []) /\ closed = closed0 /\ bs = bs0) ->
  runs Safe (_ ← (if gone then sync_directory else mret tt); mret (gone || changed)) w (pruned_lane w0 closed0 bs0 sound) Readable.
Proof.
  intros Hv Hm Hun Hsol Hg. destruct gone; cbn [orb].
  - apply runs_bind, runs_sync_directory; [exact (v_safe Hv)|intros _; by eapply view_readable|]. apply runs_ret. split; [done|].
    exists dir, ces, closed, full, bs, o. split_and!; try done; [by apply view_sync_dir|by intros ?%Hsol|by left].
  - destruct Hg as [?|(Hu & -> & ->)]; [done|]. apply runs_bind, runs_ret, runs_ret. split; [done|].
    exists dir, ces, closed0, full, bs0, o. split_and!; try done; [|by right]. intros Hso. split; [by apply Hsol|by apply Hu].
Qed.

Lemma prune_covered_runs `{!OrderedReadDir} w dir ces tmp closed full bs o tail known : View dir ces tmp closed full bs w o tail ->
  runs Safe (prune_covered lane limits covered known) w (pruned_lane w closed bs (tail = [] /\ solid o /\ unsynced (disk w) = [])) Readable.
Proof.
  intros Hv. unfold prune_covered. apply runs_bind, runs_gets. rewrite (v_dir Hv).
  apply runs_bind, runs_fallible; [intros _; by eapply view_readable|]. apply runs_ret, runs_bind.
  eapply runs_mono; [eapply prune_chunks_runs; [exact Hv|by eapply listing_closed]| |done].
  cbn beta. intros w1 [gone retained] [Hno (dir1 & ces1 & closed1 & Hv1 & Hk1 & Hm1 & Hg1)]. cbn [fst] in Hg1.
  assert (tmp = []) as ->.
  { rewrite read_dir_perm in Hno. destruct (structure_tmp _ _ _ _ _ _ _ _ _ (v_structure Hv)) as [[? _]|(k & _ & Hf)]; [done|].
    apply dir_find_None in Hno. congruence. }
  pose proof (v_structure Hv1) as Hst1. pose proof (st_valid _ _ _ _ _ _ _ _ _ Hst1) as [Hval1 _]%Forall_app.
  assert (forall rb, Forall (fun b => covered < b.1) rb -> uncovered (concat closed1 ++ rb)) as Hunc
    by (intros rb; eapply uncovered_intro; [exact Hval1|by apply (st_closed _ _ _ _ _ _ _ _ _ Hst1)|exact Hk1]).
  unfold lookup. apply runs_bind, runs_gets. rewrite (v_dir Hv1). cbn [mbind option_bind]. rewrite (view_find _ _ _ _ _ _ _ _ _ _ _ _ Hv1).
  destruct o as [[i f]|]; cbn [fmap option_fmap option_map fst].
  2:{ destruct (v_open Hv1) as [-> ->]. apply runs_bind, runs_ret.
      eapply finish_prune_runs; [exact Hv1|done|by apply Hunc|done|].
      destruct Hg1 as [?|(-> & Hd & -> & -> & ->)]; [by left|right]. split_and!; try done. rewrite Hd. by intros (_ & _ & ?). }
  apply runs_bind, runs_bind, runs_file_len; [intros _; exact (view_readable _ _ _ _ _ _ _ _ _ _ Hv1 eq_refl)|].
  apply runs_bind. eapply runs_mono; [by eapply scan_open_runs| |intros w'; apply unread_readable]. cbn beta. intros w2 rs (-> & (Hc2 & Hu2 & Hm2) & Hw2 & o2 & Ho2 & Hv2).
  apply runs_bind, runs_quiet; [auto with quiet| |intros; apply (view_readable w2 _ _ _ _ _ _ _ _ _ Hv2); congruence]. intros w3 n Hd3 Hm3.
  apply runs_bind, runs_quiet; [auto with quiet| |intros; apply (view_readable w2 _ _ _ _ _ _ _ _ _ Hv2); congruence]. intros w4 cut Hd4 Hm4.
  apply runs_bind, runs_quiet; [auto with quiet| |intros; apply (view_readable w2 _ _ _ _ _ _ _ _ _ Hv2); congruence]. intros w5 _ Hd5 Hm5.
  assert (disk w5 = disk w2) as Hd52 by congruence. assert (memory w5 = memory w) as Hm5' by congruence.
  pose proof (view_disk w2 w5 _ _ _ _ _ _ _ _ Hv2 Hd52) as Hv5.
  destruct (view_valid _ _ _ _ _ _ _ _ _ _ _ _ Hv5) as [_ Hord]. apply in_order_app_r in Hord.
  destruct (covered_split bs Hord) as (cb & rb & Ebs & Hcb & Hrb). rewrite Ebs in *.
  rewrite filter_locate, exists_locate by done. case_bool_decide as Ecb; cbn [negb].
  - subst cb. cbn [app] in *. apply runs_bind, runs_ret, runs_ret. rewrite orb_false_r.
    assert (exists o5, View dir1 ces1 [] closed1 full rb w5 o5 [] /\ (tail = [] /\ solid (Some (i, f)) /\ unsynced (disk w) = [] -> solid o5)) as (o5 & Hv5' & Hsol).
    { destruct (decide (tail = [])) as [->|Ht]; [|exists o2; split; [done|by intros [? _]]].
      exists (Some (i, f)). split; [|by intros (_ & ? & _)]. apply (view_disk w1); [done|]. by rewrite Hd52, Hw2. }
    eapply finish_prune_runs; [exact Hv5'|done|by apply Hunc|done|].
    destruct Hg1 as [?|(-> & Hd & -> & -> & ->)]; [by left|right]. split_and!; try done. rewrite Hd52, Hu2, Hd. by intros (_ & _ & ?).
  - destruct cb as [|b cb]; [done|]. pose proof Hcb as [Hb _]%Forall_cons. destruct (covered_open _ _ _ _ _ _ _ _ _ _ Hv5 Hb Hk1) as [-> ->].
    assert (exists f5, o2 = Some (i, f5)) as [f5 ->] by (destruct o2 as [[]|]; [injection Ho2 as ->; by eexists|done]).
    apply runs_bind. eapply runs_mono; [by eapply rewrite_runs| |done]. cbn beta.
    intros w6 _ [(dir6 & Hu6 & o6 & full6 & Hv6 & Hsol6) Hm6]. apply runs_ret. rewrite orb_true_r.
    eapply finish_prune_runs; [exact Hv6|by rewrite Hm6|by apply (Hunc rb)|done|by left].
Qed.

(** ** Reconciling the index *)

(** The lane is settled, its index describes it, and nothing of it is covered. *)
Definition prepared (w : World) : Prop := exists dir ces closed bs m,
  settled_lane w dir ces closed bs /\ memory w = Some m /\ indexed m closed bs /\ uncovered (concat closed ++ bs).

Lemma reconcile_runs w dir ces closed full bs o m : View dir ces [] closed full bs w o [] -> memory w = Some m ->
  (needs_reconciliation m = false -> solid o /\ unsynced (disk w) = []) -> uncovered (concat closed ++ bs) ->
  runs Safe (reconcile_lane_memory lane limits) w (fun w' _ => prepared w') Readable.
Proof.
  intros Hv Hm Hsol Hunc. assert (Readable w) as Hr by (by eapply view_readable).
  unfold reconcile_lane_memory. apply runs_bind, runs_the_memory; [|done]. rewrite Hm. intros _ [= <-].
  apply runs_bind. eapply runs_mono; [by eapply scan_lane_runs| |intros w'; apply unread_readable].
  cbn beta. intros w1 index (_ & -> & _ & Hw1 & _). rewrite (Hw1 eq_refl). clear Hw1.
  case_match; [by apply runs_throw|]. apply runs_bind. eapply runs_mono; [by eapply scan_open_runs| |intros w'; apply unread_readable].
  cbn beta. intros w2 ors (-> & _ & Hw2 & _). rewrite (Hw2 eq_refl). clear w1 w2 Hw2.
  apply runs_bind. eapply (runs_mono _ _ _ (fun w' _ => settled_lane w' dir ces closed bs /\ memory w' = Some m) _ Readable); [| |done].
  - destruct (needs_reconciliation m) eqn:En.
    + eapply runs_mono; [by eapply persist_runs| |done]. cbn beta. intros w' _ [? ->]. by split.
    + destruct (Hsol eq_refl) as [Hso Hu]. apply runs_ret. split; [|done]. split; [done|]. by exists o, full.
  - cbn beta. intros w3 _ [(Hu3 & o3 & full3 & Hv3 & Hsol3) Hm3]. assert (Readable w3) as Hr3 by (by eapply view_readable).
    apply runs_bind, runs_lift; [|done]. intros n _. apply runs_bind, runs_gets.
    apply runs_bind, runs_lift; [|done]. intros [u r] _. apply runs_bind, runs_modify, runs_modify.
    eexists dir, ces, closed, bs, _. split_and!; [|done|..]; [|split_and!; cbn [records open_first open_last]; [apply located_digests|apply locate_head|apply locate_last]|done].
    split; [done|]. exists o3, full3. split; [|done]. by apply (view_disk w3).
Qed.

Lemma prune_and_reconcile_runs `{!OrderedReadDir} w : loaded w ->
  runs Safe (prune_and_reconcile lane limits covered) w (fun w' _ => prepared w') Readable.
Proof.
  intros (dir & ces & tmp & closed & full & bs & o & tail & m & Hv & Hm & Hc). assert (Readable w) as Hr by (by eapply view_readable). unfold prune_and_reconcile.
  apply runs_bind, runs_the_memory; [|done]. rewrite Hm. intros _ [= <-].
  apply runs_bind. eapply (runs_mono _ _ _ (fun w' _ => w' = w) _ (fun w' => w' = w)); [| |by intros ? ->].
  { case_match; [by apply runs_ret|]. apply runs_bind. unfold open_length. apply runs_bind, runs_probe; [done|].
    eapply (runs_mono _ _ _ (fun w' _ => w' = w) _ (fun w' => w' = w)); [| |done].
    - case_match; [|by apply runs_ret]. by apply runs_file_len.
    - cbn beta. intros w' n ->. apply runs_bind, runs_lift; [|done]. intros n' _. case_match; [by apply runs_throw|by apply runs_ret]. }
  cbn beta. intros w' _ ->. apply runs_bind. eapply runs_mono; [by eapply prune_covered_runs| |done].
  cbn beta. intros w1 changed (Hm1 & dir1 & ces1 & closed1 & full1 & bs1 & o1 & Hv1 & Hunc & Hsol & Hch). rewrite Hm in Hm1.
  assert (needs_reconciliation m = false -> solid o1 /\ unsynced (disk w1) = []) as Hsol1
    by (intros En; apply Hsol; by destruct (Hc En) as (? & ? & ? & _)).
  destruct (changed || needs_reconciliation m) eqn:Eb.
  - apply runs_bind. eapply (runs_mono _ _ _ (fun w' _ => disk w' = disk w1 /\ memory w' = memory w1) _ (fun _ => False)); [| |done].
    + case_match; [|by apply runs_ret]. by apply runs_modify.
    + cbn beta. intros w2 _ [Hd2 Hm2]. eapply reconcile_runs; [by eapply view_disk|by rewrite Hm2|by rewrite Hd2|done].
  - apply orb_false_iff in Eb as [-> En]. destruct Hch as [?|[-> ->]]; [done|]. destruct (Hc En) as (-> & Hso & _ & Hix). destruct (Hsol1 En) as [Hso1 Hu1].
    apply runs_ret. exists dir1, ces1, closed, bs, m. split_and!; try done. split; [done|]. by exists o1, full1.
Qed.
End Append.
