(* ===== verification/FollowerBatch.v ===== *)
(** * FollowerBatch: the frames of an append reach the disk

    The second part of [append_sync], the loop over the submitted frames with its
    rotations and the commit of the batch, and the append of the store around it. Whatever
    calls to the file system fail, a success leaves a settled lane that answers for every
    frame, and a failure a lane that is ready for the next append with its index in doubt. *)

From Stdlib Require Import ZArith Lia Sorting.Sorted.
From Stdlib Require Import Strings.Byte.
From stdpp Require Import base strings.
From stdpp Require Import list.
From S2P Require Import Prelude OrdMap Bytes Identity Text LtxTypes Ltx LtxCodec Recovery NodeFrame FollowerRecords FollowerDisk FollowerLane FollowerCrash FollowerSafety FollowerAppend.

Local Open Scope bool_scope.

Section Batch.
Context `{Crc64, Blake3, Lz4Flex, DiskBudgetAdmission} {RD : ReadDir}.
Context (lane : Lane) (limits : Limits) (acked : list Body).
Abbreviation Safe := (disk_safe lane limits acked).
Abbreviation View := (view lane limits acked).
Abbreviation Readable := (readable lane limits acked).
Abbreviation runs := (runs_with true).

(** ** Growing the open chunk *)

Lemma in_order_snoc bs b : in_order bs -> (forall x, last bs = Some x -> b.1 = x.1 + 1) -> in_order (bs ++ [b]).
Proof.
  induction bs as [|a bs IH]; intros Ho Hl; [done|]. destruct bs as [|a' bs].
  - cbn [app in_order]. split; [|done]. by apply (Hl a).
  - destruct Ho as [Ha Ho]. cbn [app in_order] in *. split; [done|]. apply IH; [done|]. intros x Hx. by apply Hl.
Qed.

(** A complete open chunk is described by its own records. *)
Lemma view_exact w dir ces tmp closed full bs o : View dir ces tmp closed full bs w o [] -> View dir ces tmp closed bs bs w o [].
Proof.
  intros Hv. destruct (view_valid _ _ _ _ _ _ _ _ _ _ _ _ Hv) as [Hval Hord].
  assert (forall sync, sync `prefix_of` full -> match o with Some (_, f) => log sync `prefix_of` durable f | None => sync = [] end -> sync `prefix_of` bs) as Hsync.
  { intros sync Hpre Hsy. destruct o as [[i f]|]; [|subst; apply prefix_nil]. destruct Hsy as [k Hk].
    pose proof (st_valid _ _ _ _ _ _ _ _ _ (v_structure Hv)) as [_ Hvf]%Forall_app. apply Forall_app in Hval as [_ Hbs].
    eapply (log_prefix lane limits _ _ (k ++ pending f) []); [|done|apply tail_stops; by left|].
    - destruct Hpre as [k' ->]. by apply Forall_app in Hvf as [? _].
    - rewrite <- (v_open Hv). unfold content. rewrite Hk. by rewrite <- app_assoc. }
  destruct Hv as [Hd [Hp Hn Hi Hb Hc Ho Ht Hvf Hr Hs] Hpre Hop Hta Hu (sync & Hsp & Hsy & Ha) Hsafe]. constructor; try done.
  - constructor; try done.
    + destruct o as [[i f]|]; [|by destruct Hop]. destruct Ho as [Hf _]. split; [done|]. by rewrite Hop, app_nil_r.
    + destruct Hpre as [k ->]. rewrite log_app, len_app in Hs. pose proof (len_nonneg (log k)). lia.
  - exists sync. split_and!; try done. by apply Hsync.
Qed.

(** Room for one more record. *)
Lemma structure_grow w dir ces closed bs i f b : View dir ces [] closed bs bs w (Some (i, f)) [] ->
  valid lane limits b -> in_order (concat closed ++ bs ++ [b]) -> len (log (bs ++ [b])) <= u64_max ->
  structure lane limits (files (disk w)) dir ces closed (Some (i, f)) (bs ++ [b]) [].
Proof.
  intros Hv Hb Hord Hsz. destruct (view_valid _ _ _ _ _ _ _ _ _ _ _ _ Hv) as [Hval _]. pose proof (v_open Hv) as Hop. rewrite app_nil_r in Hop.
  destruct (v_structure Hv) as [Hp Hn Hi Hbd Hc [Hf Hpre] Ht Hvf Hr Hs]. constructor; try done.
  - split; [done|]. rewrite Hop, log_app. by eexists.
  - rewrite app_assoc. apply Forall_app. split; [done|]. by apply Forall_singleton.
Qed.

(** A write that ends early leaves a torn record, or all of it. *)
Lemma write_partly w dir ces closed bs i f b n : View dir ces [] closed bs bs w (Some (i, f)) [] -> unsynced (disk w) = [] ->
  valid lane limits b -> in_order (concat closed ++ bs ++ [b]) -> len (log (bs ++ [b])) <= u64_max ->
  let f' := MkFile (durable f) (pending f ++ take n (record_of b)) in
  Safe (set_file i f' (disk w)) /\ Readable (set_disk (set_file i f' (disk w)) w).
Proof.
  intros Hv Hu Hb Hord Hsz f'. destruct (view_valid _ _ _ _ _ _ _ _ _ _ _ _ Hv) as [Hval _].
  pose proof (v_structure Hv) as Hst. pose proof (v_open Hv) as Hop. rewrite app_nil_r in Hop.
  assert (content f' `prefix_of` log (bs ++ [b])) as Hc'.
  { unfold content, f'. cbn [durable pending]. rewrite app_assoc. fold (content f). rewrite Hop, log_app, log_cons, app_nil_r.
    apply prefix_app. exists (drop n (record_of b)). by rewrite take_drop. }
  assert (structure lane limits (<[i := f']> (files (disk w))) dir ces closed (Some (i, f')) (bs ++ [b]) []) as Hst'.
  { eapply structure_resync; [by eapply structure_grow|done]. }
  assert (exists sync, sync `prefix_of` bs ++ [b] /\ log sync `prefix_of` durable f' /\ Forall (fun b => b ∈ concat closed ++ sync) acked) as (sync & Hsp & Hsy & Ha).
  { destruct (v_synced Hv) as (sync & Hsp & Hsy & Ha). exists sync. split_and!; try done. etrans; [exact Hsp|]. by eexists. }
  assert (Safe (set_file i f' (disk w))) as Hs'.
  { destruct (v_safe Hv) as (_ & Hse & Hre). split; [|done]. cbn [chunks set_file files unsynced]. rewrite (v_dir Hv), Hu. apply Forall_singleton.
    by exists ces, closed, (Some (i, f')), (bs ++ [b]), [], sync. }
  split; [done|]. destruct (structure_view lane limits acked (set_disk (set_file i f' (disk w)) w) dir ces closed (Some (i, f')) (bs ++ [b]) [] sync) as (bs' & tail & Hv'); try done.
  - exact (v_dir Hv).
  - exact (v_unlinked Hv).
  - by exists dir, ces, [], closed, (bs ++ [b]), bs', (Some (i, f')), tail.
Qed.

Lemma view_append w dir ces closed bs i f b : View dir ces [] closed bs bs w (Some (i, f)) [] -> unsynced (disk w) = [] ->
  valid lane limits b -> in_order (concat closed ++ bs ++ [b]) -> len (log (bs ++ [b])) <= u64_max ->
  let f' := MkFile (durable f) (pending f ++ record_of b) in
  View dir ces [] closed (bs ++ [b]) (bs ++ [b]) (set_disk (set_file i f' (disk w)) w) (Some (i, f')) [].
Proof.
  intros Hv Hu Hb Hord Hsz f'. destruct (view_valid _ _ _ _ _ _ _ _ _ _ _ _ Hv) as [Hval _].
  pose proof (v_structure Hv) as Hst. pose proof (v_open Hv) as Hop. rewrite app_nil_r in Hop.
  assert (content f' = log (bs ++ [b])) as Hc'.
  { unfold content, f'. cbn [durable pending]. rewrite app_assoc. fold (content f). by rewrite Hop, log_app, log_cons, app_nil_r. }
  assert (structure lane limits (<[i := f']> (files (disk w))) dir ces closed (Some (i, f')) (bs ++ [b]) []) as Hst'.
  { eapply structure_resync; [by eapply structure_grow|]. by rewrite Hc'. }
  assert (exists sync, sync `prefix_of` bs ++ [b] /\ log sync `prefix_of` durable f' /\ Forall (fun b => b ∈ concat closed ++ sync) acked) as Hsy.
  { destruct (v_synced Hv) as (sync & Hsp & Hsy & Ha). exists sync. split_and!; try done. etrans; [exact Hsp|]. by eexists. }
  assert (Safe (set_file i f' (disk w))) as Hs'.
  { destruct (v_safe Hv) as (_ & Hse & Hre). split; [|done]. cbn [chunks set_file files unsynced]. rewrite (v_dir Hv), Hu. apply Forall_singleton.
    destruct Hsy as (sync & ? & ? & ?). by exists ces, closed, (Some (i, f')), (bs ++ [b]), [], sync. }
  constructor; try done; [exact (v_dir Hv)|by rewrite app_nil_r|by left|]. exact (v_unlinked Hv).
Qed.

(** ** Opening the open chunk *)

Lemma link_open_structure fs dir ces closed : structure lane limits fs dir ces closed None [] [] ->
  structure lane limits (fs ++ [MkFile [] []]) (dir_link OPEN_LOG (length fs) dir) ces closed (Some (length fs, MkFile [] [])) [] [].
Proof.
  intros Hst. assert (OPEN_LOG ∉ map fst dir) as Hno.
  { rewrite (st_perm _ _ _ _ _ _ _ _ _ Hst). cbn [open_entry app]. rewrite app_nil_r. by eapply closed_unnamed. }
  apply (structure_new _ _ _ _ _ _ _ _ _ (MkFile [] [])) in Hst as Hst'.
  destruct (link_new fs dir OPEN_LOG Hno) as (-> & Hn & Hi & Hb); [by destruct Hst..|].
  destruct Hst' as [Hp _ _ _ Hc Ho Ht Hv Hr Hs]. constructor; try done.
  - rewrite Hp. cbn [open_entry app]. by rewrite !app_nil_r.
  - split; [by apply list_lookup_middle|done].
Qed.

(** The new open chunk before the sync of its entry. *)
Lemma link_open_readable w dir ces closed : View dir ces [] closed [] [] w None [] ->
  let k := length (files (disk w)) in
  Readable (set_disk (set_dir (dir_link OPEN_LOG k dir) (new_file (MkFile [] []) (disk w))) w).
Proof.
  intros Hv k. pose proof (link_open_structure _ _ _ _ (v_structure Hv)) as Hst'. fold k in Hst'.
  set (w0 := set_disk (new_file (MkFile [] []) (disk w)) w).
  assert (View dir ces [] closed [] [] w0 None []) as Hv0.
  { pose proof (disk_new_file lane limits acked _ (MkFile [] []) (v_safe Hv)) as Hs0. destruct Hv. constructor; try done. by apply structure_new. }
  assert (View (dir_link OPEN_LOG k dir) ces [] closed [] [] (set_disk (set_dir (dir_link OPEN_LOG k dir) (disk w0)) w0) (Some (k, MkFile [] [])) []) as Hv1.
  { eapply view_set_dir; [exact Hv0|exact Hst'|done|done|by left| |].
    - eapply unlinked_set_dir; [exact (v_dir Hv0)| |intros n Hn; by rewrite (open_names _ _ _ _ _ _ _ _ _ _ _ Hst' Hn)].
      intros dir' n Hin Hn. by destruct (safe_fresh lane limits acked (disk w) dir' n (v_safe Hv) Hin).
    - destruct (v_synced Hv) as (sync & Hsp & -> & Ha). by exists []. }
  exact (view_readable _ _ _ _ _ _ _ _ _ _ _ _ _ Hv1 eq_refl).
Qed.

Lemma open_append_runs w dir ces closed full bs o : View dir ces [] closed full bs w o [] -> unsynced (disk w) = [] ->
  runs Safe open_append w
    (fun w' i => unsynced (disk w') = [] /\ memory w' = memory w
       /\ exists dir' f, View dir' ces [] closed bs bs w' (Some (i, f)) [] /\ (solid o -> pending f = [])) Readable.
Proof.
  intros Hv Hu. pose proof (v_dir Hv) as Hd. assert (Readable w) as Hr by (by eapply view_readable).
  unfold open_append, create. apply runs_bind, runs_probe; [done|]. rewrite Hd. cbn [mbind option_bind].
  rewrite (view_find _ _ _ _ _ _ _ _ _ _ _ _ Hv). apply runs_bind, runs_fallible; [done|]. apply runs_bind, (runs_the_dir _ _ dir); [done|].
  rewrite (view_find _ _ _ _ _ _ _ _ _ _ _ _ Hv). destruct o as [[i f]|]; cbn [fmap option_fmap option_map fst is_some].
  - apply runs_ret, runs_bind, runs_ret, runs_ret. split_and!; try done. exists dir, f. split; [by apply view_exact in Hv|done].
  - destruct (v_open Hv) as [-> _]. pose proof (view_exact _ _ _ _ _ _ _ _ Hv) as Hv'. pose proof (v_structure Hv') as Hst.
    pose proof (link_open_structure _ _ _ _ Hst) as Hst'. pose proof (view_acked _ _ _ _ _ _ _ _ _ _ _ _ Hv) as Ha.
    set (k := length (files (disk w))) in *.
    assert (Safe (set_dir (dir_link OPEN_LOG k dir) (new_file (MkFile [] []) (disk w)))) as Hs'.
    { eapply disk_set_dir; [apply disk_new_file; exact (v_safe Hv)|done|]. by eapply safe_exact; [exact Hst'|..]. }
    apply runs_bind, runs_gets. fold k. apply runs_bind, runs_change; [done|]. apply runs_ret.
    apply runs_bind, runs_sync_directory; [done|intros _; by eapply link_open_readable|]. apply runs_ret. split_and!; [done..|].
    exists (dir_link OPEN_LOG k dir), (MkFile [] []). split; [|done].
    apply exact_view; try done. by apply disk_sync_dir.
Qed.

(** ** Rotating *)

Lemma relocate_digests rs first last_ name : digests (relocate_records rs first last_ name) = digests rs.
Proof.
  unfold digests, relocate_records. rewrite map_map. apply map_ext. intros [k r]. cbn [fst snd]. by destruct (_ && _).
Qed.

Definition summary (rs : list StoredRecord) : list (Z * Digest) := map (fun r => (sequence r, digest r)) rs.

Lemma moved_summary name rs : summary (map (fun r => if bool_decide (path r = OPEN_LOG) then set_path name r else r) rs) = summary rs.
Proof. unfold summary. rewrite map_map. apply map_ext. intros r. by case_bool_decide. Qed.

(** The chunk a rotation closes is named by its range. *)
Lemma close_structure fs dir ces closed i bs : structure lane limits fs dir ces closed (Some (i, MkFile (log bs) [])) bs [] -> bs <> [] ->
  structure lane limits fs (dir_link (chunk_of bs) i (dir_remove OPEN_LOG dir)) (ces ++ [(chunk_of bs, i)]) (closed ++ [bs]) None [] [].
Proof.
  intros Hst Hbs. pose proof Hst as [Hp Hn Hi Hb Hc [Hf _] _ Hv Hr Hs]. cbn [open_entry app] in Hp. 
  assert (dir ≡ₚ (OPEN_LOG, i) :: ces) as Hp1 by (rewrite Hp; by rewrite (Permutation_app_comm ces)).
  assert (dir_remove OPEN_LOG dir ≡ₚ ces) as Hp2 by (by apply (dir_remove_perm _ i)).
  assert (closed_entry fs (chunk_of bs, i) bs) as Hce by (split_and!; done).
  pose proof Hv as [Hvc Hvb]%Forall_app. destruct (closed_key lane limits fs _ bs Hvb Hce) as (x & Hlast & Hkey).
  assert (chunk_of bs ∉ map fst ces) as Hno.
  { intros Hin. apply list_elem_of_fmap in Hin as (e & He & Hin).
    pose proof (closed_keys lane limits fs (ces ++ [(chunk_of bs, i)]) (closed ++ [bs]) []) as Hks.
    rewrite concat_app in Hks. cbn [concat] in Hks. rewrite !app_nil_r in Hks. specialize (Hks Hv Hr).
    assert (Forall2 (closed_entry fs) (ces ++ [(chunk_of bs, i)]) (closed ++ [bs])) as Hc2 by (apply Forall2_app; [done|by constructor]).
    rewrite map_app in Hks. pose proof (sorted_app_lt _ _ (Hks Hc2) (chunk_key e) (chunk_key (chunk_of bs, i))) as Hlt.
    assert (chunk_key e < chunk_key (chunk_of bs, i)) as Habs by (apply Hlt; [apply list_elem_of_fmap; by exists e|by left]).
    unfold chunk_key in Habs. cbn [fst] in Habs. rewrite <- He in Habs. lia. }
  rewrite Hp1 in Hn, Hi, Hb. cbn [map fst snd] in Hn, Hi. apply NoDup_cons in Hn as [_ Hn], Hi as [Hii Hi]. apply Forall_cons in Hb as [Hbi Hb].
  unfold dir_link. rewrite (dir_remove_absent (chunk_of bs)) by (by rewrite Hp2).
  constructor; rewrite ?map_app, ?concat_app, ?Hp2; cbn [open_entry concat app]; rewrite ?app_nil_r; try done.
  - apply NoDup_app. split_and!; [done| |apply NoDup_singleton]. intros n Hin Hin'. apply list_elem_of_singleton in Hin' as ->. done.
  - apply NoDup_app. split_and!; [done| |apply NoDup_singleton]. intros n Hin Hin'. apply list_elem_of_singleton in Hin' as ->. done.
  - apply Forall_app. split; [done|]. by apply Forall_singleton.
  - apply Forall2_app; [done|]. by constructor.
  - apply sublist_nil_l.
Qed.

(** ** The loop over the frames *)

Context (covered : Z) (Hlim : max_capture_bytes limits + 300 <= u64_max).

(** The variables of the loop when the bodies [start] were indexed at its start and [news]
    have been written since. *)
Record core (start news : list Body) (w : World) (b : Batch) (dir ces : Dir) (closed : list (list Body)) (bs : list Body) (f : file) (m : LaneMemory) : Prop := {
  c_unsynced : unsynced (disk w) = [];
  c_view : View dir ces [] closed bs bs w (Some (bfile b, f)) [];
  c_bodies : concat closed ++ bs = start ++ news;
  c_memory : memory w = Some m;
  c_records : digests (records m) = body_digests start;
  c_open : open_bytes b = len (log bs);
  c_first : batch_first b = fst <$> head bs;
  c_last : bs <> [] -> batch_last b = fst <$> last bs;
  c_through : through b = default covered (fst <$> last (start ++ news));
  c_digests : pending_digests b = body_digests news;
  c_pending : summary (pending_records b) = body_digests news
}.

(** Between two frames: without new bodies nothing has changed, and with some the open
    chunk holds the last of them. *)
Definition batch_ok (start news : list Body) (w : World) (b : Batch) : Prop := exists dir ces closed bs f m,
  core start news w b dir ces closed bs f m /\ (news = [] -> pending f = [] /\ indexed m closed bs) /\ (news <> [] -> bs <> []).

Lemma core_readable start news w b dir ces closed bs f m : core start news w b dir ces closed bs f m -> Readable w.
Proof. intros Hc. exact (view_readable _ _ _ _ _ _ _ _ _ _ _ _ _ (c_view _ _ _ _ _ _ _ _ _ _ Hc) eq_refl). Qed.

Lemma view_closed w dir ces closed bs i f : View dir ces [] closed bs bs w (Some (i, f)) [] -> pending f = [] -> f = MkFile (log bs) [].
Proof. intros Hv Hp. pose proof (v_open Hv) as Ho. rewrite app_nil_r in Ho. destruct f as [d p]. unfold content in Ho. cbn in *. subst p. by rewrite app_nil_r in Ho; subst d. Qed.

Lemma rotate_runs start news w b dir ces closed bs f m : core start news w b dir ces closed bs f m -> bs <> [] ->
  runs Safe (rotate b) w (fun w' b' => exists dir' ces' f' m', core start news w' b' dir' ces' (closed ++ [bs]) [] f' m') Readable.
Proof.
  intros [Hu Hv Hbod Hm Hrec Hopen Hfirst Hlast Hthr Hdig Hpend] Hbs. unfold rotate. apply runs_bind.
  destruct (st_open _ _ _ _ _ _ _ _ _ (v_structure Hv)) as [Hf _].
  apply runs_sync_data; [exact (v_safe Hv)|intros _; by eapply view_readable|]. intros d Hs [[Hn _]|(f0 & Hf0 & ->)]; [congruence|]. rewrite Hf in Hf0. injection Hf0 as <-.
  destruct (view_sync lane limits acked _ _ _ _ _ _ _ _ _ _ _ Hv Hf) as (o1 & Ho1 & Hv1 & Hsol).
  set (w1 := set_disk _ w) in *. assert (exists f1, o1 = Some (bfile b, f1)) as [f1 ->] by (destruct o1 as [[]|]; [injection Ho1 as ->; by eexists|done]).
  assert (pending f1 = []) as Hp1 by (apply Hsol; right; by left). pose proof (view_closed _ _ _ _ _ _ _ Hv1 Hp1) as ->.
  destruct (chunk_range bs Hbs) as (x & y & Hx & Hy & _ & _).
  assert (chunk_name x.1 y.1 = chunk_of bs) as Hname by (unfold chunk_of; by rewrite Hx, Hy).
  rewrite Hfirst, (Hlast Hbs), Hx, Hy. cbn [fmap option_fmap option_map]. unfold rotate_open. rewrite Hname.
  pose proof (close_structure _ _ _ _ _ _ (v_structure Hv1) Hbs) as Hst2. set (dir2 := dir_link _ _ _) in *.
  pose proof (view_acked _ _ _ _ _ _ _ _ _ _ _ _ Hv1) as Ha. 
  assert (concat (closed ++ [bs]) = concat closed ++ bs) as Hcat by (rewrite concat_app; cbn; by rewrite app_nil_r).
  assert (Safe (set_dir dir2 (disk w1))) as Hs2.
  { eapply disk_set_dir; [exact (v_safe Hv1)|exact (v_dir Hv1)|]. eapply safe_exact; [exact Hst2|done|]. by rewrite app_nil_r, Hcat. }
  apply runs_bind, runs_bind. unfold rename. apply runs_bind, (runs_the_dir _ _ dir); [exact (v_dir Hv1)|].
  apply runs_bind, (runs_open_found _ _ _ (bfile b)).
  { rewrite (v_dir Hv1). cbn [mbind option_bind]. by rewrite (view_find _ _ _ _ _ _ _ _ _ _ _ _ Hv1). }
  { intros _. exact (view_readable _ _ _ _ _ _ _ _ _ _ _ _ _ Hv1 eq_refl). }
  apply runs_change; [done|].
  apply runs_bind, runs_sync_directory; [done| |].
  { intros _. assert (View dir2 (ces ++ [(chunk_of bs, bfile b)]) [] (closed ++ [bs]) [] [] (set_disk (set_dir dir2 (disk w1)) w1) None []) as Hv2.
    { eapply view_set_dir; [exact Hv1|exact Hst2|done|done|by left|done|]. exists []. split_and!; try done. by rewrite app_nil_r, Hcat. }
    exact (view_readable _ _ _ _ _ _ _ _ _ _ _ _ _ Hv2 eq_refl). }
  apply runs_ret.
  apply runs_bind, runs_lift; [|done]. intros _ [= <-]. apply runs_bind, runs_lift; [|done]. intros _ [= <-].
  set (w2 := set_disk (sync_dir _) _). assert (View dir2 (ces ++ [(chunk_of bs, bfile b)]) [] (closed ++ [bs]) [] [] w2 None []) as Hv2.
  { apply exact_view; try done; [by rewrite app_nil_r, Hcat|by apply disk_sync_dir]. }
  apply runs_bind, runs_the_memory; [|by eapply view_readable]. cbn [memory set_disk]. change (memory w2) with (memory w). rewrite Hm. intros _ [= <-]. apply runs_bind, runs_modify.
  set (w3 := set_memory _ _). assert (View dir2 (ces ++ [(chunk_of bs, bfile b)]) [] (closed ++ [bs]) [] [] w3 None []) as Hv3.
  { by apply (view_disk _ _ _ w2). }
  apply runs_bind. eapply runs_mono; [by eapply open_append_runs| |done]. cbn beta. intros w4 i (Hu4 & Hm4 & dir4 & f4 & Hv4 & _).
  apply runs_ret. eexists dir4, _, f4, _. constructor; cbn [bfile open_bytes pending_records pending_digests batch_first batch_last through].
  - done.
  - exact Hv4.
  - by rewrite Hcat, app_nil_r.
  - by rewrite Hm4.
  - cbn [records set_records]. by rewrite relocate_digests.
  - done.
  - done.
  - done.
  - done.
  - done.
  - by rewrite moved_summary.
Qed.

Lemma body_digests_app bs bs' : body_digests (bs ++ bs') = body_digests bs ++ body_digests bs'.
Proof. apply map_app. Qed.

(** The next body follows the last one, or comes after everything covered. *)
Lemma next_in_order bodies s : in_order bodies -> (forall x, last bodies = Some x -> s = x.1 + 1) -> Forall (fun x => x.1 < s) bodies.
Proof.
  intros Ho Hl. apply in_order_sorted in Ho. destruct (last bodies) as [x|] eqn:El.
  - apply last_Some in El as [l ->]. specialize (Hl x eq_refl). rewrite map_app in Ho. apply Forall_app. split.
    + apply Forall_forall. intros y Hy. pose proof (sorted_app_lt _ _ Ho y.1 x.1) as Hlt. cut (y.1 < x.1); [lia|].
      apply Hlt; [apply list_elem_of_fmap; by exists y|by left].
    + apply Forall_singleton. lia.
  - by apply last_None in El as ->.
Qed.

Lemma write_frame_runs start news w b dir ces closed bs f m s e :
  core start news w b dir ces closed bs f m -> valid lane limits (s, e) -> (forall x, last (start ++ news) = Some x -> s = x.1 + 1) ->
  len (log bs) + (RECORD_HEADER_BYTES + len e) <= u64_max ->
  runs Safe (write_frame b s (blake3 e) e) w
    (fun w' b' => batch_ok start (news ++ [(s, e)]) w' b') Readable.
Proof.
  intros [Hu Hv Hbod Hm Hrec Hopen Hfirst Hlast Hthr Hdig Hpend] Hval Hnext Hsz.
  destruct (view_valid _ _ _ _ _ _ _ _ _ _ _ _ Hv) as [_ Hord]. destruct (st_open _ _ _ _ _ _ _ _ _ (v_structure Hv)) as [Hf _].
  assert (in_order (concat closed ++ bs ++ [(s, e)])) as Hord'.
  { rewrite app_assoc. apply in_order_snoc; [done|]. by rewrite Hbod. }
  assert (len (log (bs ++ [(s, e)])) = len (log bs) + (RECORD_HEADER_BYTES + len e)) as Hlog.
  { rewrite log_app, len_app, log_cons, len_app, len_record. change (len (log [])) with 0. cbn [snd]. lia. }
  assert (len (log (bs ++ [(s, e)])) <= u64_max) as Hsz' by (by rewrite Hlog).
  pose proof (view_append w dir ces closed bs (bfile b) f (s, e) Hv Hu Hval Hord' Hsz') as Hv'. cbv zeta in Hv'.
  change (record_of (s, e)) with (write_record s (blake3 e) e) in Hv'.
  unfold write_frame. apply runs_bind, runs_fallible_after.
  2:{ intros _ n. destruct (write_partly w dir ces closed bs (bfile b) f (s, e) n Hv Hu Hval Hord' Hsz') as [Hs1 Hr1].
      apply runs_change; rewrite Hf; [exact Hs1|exact Hr1]. }
  apply runs_change; rewrite Hf; [exact (v_safe Hv')|].
  apply runs_bind, runs_quiet; [auto with quiet| |intros; by apply (view_readable _ _ _ _ _ _ _ _ _ _ _ _ _ Hv')]. intros w1 _ Hd1 Hm1.
  assert (Readable w1) as Hr1 by (by apply (view_readable _ _ _ _ _ _ _ _ _ _ _ _ _ Hv')).
  apply runs_bind, runs_lift; [|done]. intros n Hn%ok_or_Ok%checked_add_u64_Some.
  apply runs_bind, runs_lift; [|done]. intros off _. apply runs_ret.
  exists dir, ces, closed, (bs ++ [(s, e)]), (MkFile (durable f) (pending f ++ write_record s (blake3 e) e)), m.
  split_and!; [|by intros [_ ?]%app_nil|by intros _ [_ ?]%app_nil].
  constructor; cbn [bfile open_bytes pending_records pending_digests batch_first batch_last through].
  - by rewrite Hd1.
  - by apply (view_disk lane limits acked _ w1 _ _ _ _ _ _ _ _ Hv').
  - by rewrite !app_assoc, Hbod.
  - by rewrite Hm1.
  - done.
  - rewrite Hlog, <- Hopen. lia.
  - rewrite Hfirst. by destruct bs.
  - intros _. by rewrite last_snoc.
  - by rewrite app_assoc, last_snoc.
  - rewrite Hdig, om_insert_above, body_digests_app; [done|]. unfold body_digests. apply Forall_map.
    pose proof (next_in_order (start ++ news) s) as Hlt. rewrite <- Hbod in Hlt at 1. specialize (Hlt Hord Hnext). by apply Forall_app in Hlt as [_ ?].
  - unfold summary in *. by rewrite map_app, Hpend, body_digests_app.
Qed.

(** A frame that follows what was stored is the next one. *)
Lemma next_sequence_of start news w b dir ces closed bs f m s x : core start news w b dir ces closed bs f m -> u64_ok s ->
  s = saturating_add_u64 (through b) 1 -> Forall (fun x => x.1 <> s) (start ++ news) -> last (start ++ news) = Some x -> s = x.1 + 1.
Proof.
  intros Hcore Hs Egap Hnew Hx. assert (through b = x.1) as Ht by (rewrite (c_through _ _ _ _ _ _ _ _ _ _ Hcore), Hx; done).
  rewrite Ht in Egap. assert (x ∈ start ++ news) as Hin by (apply last_Some in Hx as [l ->]; apply elem_of_app; right; by left).
  rewrite Forall_forall in Hnew. specialize (Hnew x Hin). cbn beta in Hnew.
  destruct (view_valid _ _ _ _ _ _ _ _ _ _ _ _ (c_view _ _ _ _ _ _ _ _ _ _ Hcore)) as [Hv _]. rewrite (c_bodies _ _ _ _ _ _ _ _ _ _ Hcore) in Hv.
  apply in_order_seqs in Hv. rewrite Forall_forall in Hv. specialize (Hv x Hin). cbn beta in Hv. unfold u64_ok in *. 
  unfold saturating_add_u64 in Egap. lia.
Qed.

(** The record of a frame the limits admit has a size. *)
Lemma record_size s e : valid lane limits (s, e) -> u64_ok s /\ RECORD_HEADER_BYTES + len e <= u64_max.
Proof.
  intros Hval. pose proof (valid_body_facts _ _ _ Hval) as (Hsu & _ & Hle & Hmax). cbn [fst snd] in *. split; [done|].
  unfold saturating_add_u64, MAX_NODE_FRAME_HEADER_BYTES, HEADER_BYTES, RECORD_HEADER_BYTES in *. lia.
Qed.

Lemma unrotated_size n r : 0 <= n -> 0 <= r <= u64_max -> (0 <? n) && (ROTATE_BYTES <? saturating_add_u64 n r) = false -> n + r <= u64_max.
Proof.
  assert (ROTATE_BYTES < u64_max) as Hrot by done. intros Hn Hr E. unfold saturating_add_u64 in E.
  apply andb_false_iff in E as [E%Z.ltb_ge|E%Z.ltb_ge]; [lia|]. apply Z.min_le_iff in E as [E|E]; lia.
Qed.

Lemma store_frame_runs start news w b s e : batch_ok start news w b -> valid lane limits (s, e) -> 
  Forall (fun x => x.1 <> s) (start ++ news) ->
  runs Safe (store_frame b s (blake3 e) e) w (fun w' b' => batch_ok start (news ++ [(s, e)]) w' b') Readable.
Proof.
  intros (dir & ces & closed & bs & f & m & Hcore & _ & _) Hval Hnew. unfold store_frame.
  assert (Readable w) as Hr by (by eapply core_readable).
  case_match eqn:Egap; [by apply runs_throw|]. apply negb_false_iff, Z.eqb_eq in Egap.
  destruct (record_size s e Hval) as [Hsu Hrec].
  assert (forall x, last (start ++ news) = Some x -> s = x.1 + 1) as Hnext by (intros x; by eapply next_sequence_of).
  apply runs_bind. pose proof (c_open _ _ _ _ _ _ _ _ _ _ Hcore) as Hopen. rewrite Hopen. case_match eqn:Erot.
  - assert (bs <> []) as Hbs by (intros Hnil; rewrite Hnil in Erot; discriminate Erot).
    eapply runs_mono; [by eapply rotate_runs| |done]. cbn beta. intros w1 b1 (dir1 & ces1 & f1 & m1 & Hcore1).
    eapply write_frame_runs; [exact Hcore1|exact Hval|exact Hnext|]. exact Hrec.
  - apply runs_ret. eapply write_frame_runs; [exact Hcore|exact Hval|exact Hnext|].
    eapply unrotated_size; [apply len_nonneg| |exact Erot]. split; [|exact Hrec]. pose proof (len_nonneg e). unfold RECORD_HEADER_BYTES. lia.
Qed.

(** ** One submitted frame *)

(** The lane answers for the frame: it is covered, or its body is stored. *)
Definition answered (bodies : list Body) (e : list byte) : Prop := exists frame,
  inspect_node_frame e limits = Ok frame
  /\ Scope.leader_session (Frame.scope frame) = leader lane /\ Scope.log_epoch (Frame.scope frame) = epoch lane
  /\ (Scope.node_sequence (Frame.scope frame) <= covered
      \/ exists x, x ∈ bodies /\ x.1 = Scope.node_sequence (Frame.scope frame) /\ blake3 x.2 = blake3 e).

Lemma answered_grows bodies bodies' e : answered bodies e -> (forall x, x ∈ bodies -> x ∈ bodies') -> answered bodies' e.
Proof.
  intros (fr & Hi & Hl & He & Ha) Hs. exists fr. split_and!; try done. destruct Ha as [?|(x & Hx & ?)]; [by left|right]. exists x. split; [by apply Hs|done].
Qed.

Lemma digests_lookup rs s : om_lookup s (digests rs) = digest <$> om_lookup s rs.
Proof. unfold digests. induction rs as [|[k r] rs IH]; [done|]. cbn [map om_lookup fst snd]. by destruct (s =? k). Qed.

Lemma body_digests_Some bs s d : om_lookup s (body_digests bs) = Some d -> exists x, x ∈ bs /\ x.1 = s /\ blake3 x.2 = d.
Proof. intros Hl%om_lookup_Some_elem. apply list_elem_of_fmap in Hl as (x & [= -> ->] & Hx). by exists x. Qed.

Lemma body_digests_None bs s : om_lookup s (body_digests bs) = None -> Forall (fun x => x.1 <> s) bs.
Proof.
  rewrite om_lookup_None. unfold body_digests. rewrite map_map. cbn [fst]. intros Hn. apply Forall_forall. intros x Hx <-. apply Hn.
  apply list_elem_of_fmap. by exists x.
Qed.

Lemma read_indexed_runs r w (Q : World -> list byte -> Prop) (E : World -> Prop) : (forall e, Q w e) -> E w -> runs Safe (read_indexed_record lane limits r) w Q E.
Proof.
  intros HQ HE. unfold read_indexed_record. apply runs_bind, runs_open_file; [|done]. intros i _.
  apply runs_bind, runs_lift; [|done]. intros n _. apply runs_bind, runs_read_file; [done|]. apply runs_bind, runs_lift; [|done]. intros [h t] _.
  apply runs_bind, runs_lift; [|done]. intros [[s k] d] _. case_match; [by apply runs_throw|].
  apply runs_bind, runs_lift; [|done]. intros [e t'] _. case_match; [by apply runs_throw|].
  apply runs_bind, runs_lift; [|done]. intros fr _. case_match; [by apply runs_throw|]. by apply runs_ret.
Qed.

Lemma append_frame_runs start news w b grant e : batch_ok start news w b ->
  runs Safe (append_frame lane limits covered grant b e) w
    (fun w' b' => exists news', batch_ok start (news ++ news') w' b' /\ answered (start ++ news ++ news') e) Readable.
Proof.
  intros Hok. pose proof Hok as (dir & ces & closed & bs & f & m & Hcore & _ & _). unfold append_frame.
  assert (Readable w) as Hr by (by eapply core_readable).
  apply runs_bind, runs_lift; [|done]. intros fr Hfr. unfold lift_ltx in Hfr.
  destruct (inspect_node_frame e limits) as [fr'|] eqn:Ei; [injection Hfr as ->|done]. pose proof (inspect_frame_Ok _ _ _ Ei) as (_ & He & _).
  case_match eqn:Escope; [by apply runs_throw|]. apply orb_false_iff in Escope as [Hl%bool_decide_eq_false Hep%negb_false_iff%Z.eqb_eq].
  apply dec_stable in Hl. set (s := Scope.node_sequence (Frame.scope fr)) in *. unfold frame_digest. rewrite He.
  case_match; [by apply runs_throw|].
  assert (forall x, x ∈ start ++ news -> x.1 = s -> blake3 x.2 = blake3 e -> answered (start ++ news) e) as Hdup
    by (intros x ? ? ?; exists fr; split_and!; try done; right; by exists x).
  assert (answered (start ++ news) e -> exists news', batch_ok start (news ++ news') w b /\ answered (start ++ news ++ news') e) as Hsame
    by (intros ?; exists []; by rewrite app_nil_r).
  apply runs_bind, runs_the_memory; [|done]. rewrite (c_memory _ _ _ _ _ _ _ _ _ _ Hcore). intros _ [= <-].
  pose proof (digests_lookup (records m) s) as Hlook. rewrite (c_records _ _ _ _ _ _ _ _ _ _ Hcore) in Hlook.
  destruct (om_lookup s (records m)) as [r|] eqn:Er.
  { case_bool_decide as Ed; [by apply runs_throw|]. apply body_digests_Some in Hlook as (x & Hx & Hxs & Hxd).
    apply runs_bind, read_indexed_runs; [|done]. intros _. apply runs_ret, Hsame, (Hdup x); [apply elem_of_app; by left|done|congruence]. }
  rewrite (c_digests _ _ _ _ _ _ _ _ _ _ Hcore). destruct (om_lookup s (body_digests news)) as [d|] eqn:Ed.
  { case_bool_decide as Edd; [by apply runs_throw|]. apply body_digests_Some in Ed as (x & Hx & Hxs & Hxd).
    apply runs_ret, Hsame, (Hdup x); [apply elem_of_app; by right|done|congruence]. }
  destruct (Z.leb_spec s covered) as [Hcv|Hcv].
  { apply runs_ret, Hsame. exists fr. split_and!; try done. by left. }
  eapply runs_mono; [apply (store_frame_runs start news)| |done].
  - done.
  - unfold valid, valid_body. cbn [fst snd]. rewrite Ei. fold s. rewrite Z.eqb_refl, Hep, Z.eqb_refl, bool_decide_eq_true_2 by done. done.
  - apply Forall_app. split; by apply body_digests_None.
  - cbn beta. intros w' b' Hok'. exists [(s, e)]. split; [done|]. exists fr. split_and!; try done. right. exists (s, e).
    split_and!; [|done..]. rewrite !elem_of_app. right. right. by left.
Qed.

Lemma append_frames_runs start news w b grant fs : batch_ok start news w b ->
  runs Safe (append_frames lane limits covered grant b fs) w
    (fun w' b' => exists news', batch_ok start (news ++ news') w' b' /\ Forall (answered (start ++ news ++ news')) fs) Readable.
Proof.
  revert news w b. induction fs as [|e fs IH]; intros news w b Hok; cbn [append_frames].
  - apply runs_ret. exists []. by rewrite app_nil_r.
  - apply runs_bind. eapply runs_mono; [by apply append_frame_runs| |done]. cbn beta. intros w1 b1 (n1 & Hok1 & Ha1).
    eapply runs_mono; [by apply (IH (news ++ n1))| |done]. cbn beta. intros w2 b2 (n2 & Hok2 & Ha2). exists (n1 ++ n2).
    rewrite <- app_assoc in Hok2, Ha2. split; [done|]. apply Forall_cons. split; [|done]. eapply answered_grows; [exact Ha1|].
    intros x. rewrite !elem_of_app. naive_solver.
Qed.

(** ** The batch *)

Lemma om_extend_last {V} (l l' : OrdMap V) : StronglySorted Z.lt (map fst (l ++ l')) -> om_extend l l' = l ++ l'.
Proof.
  revert l. induction l' as [|[k v] l' IH]; intros l Hs; [by rewrite app_nil_r|].
  change (om_extend l ((k, v) :: l')) with (om_extend (om_insert k v l) l'). rewrite om_insert_above, IH, <- app_assoc; [done| |].
  - by rewrite <- app_assoc.
  - rewrite map_app in Hs. apply Forall_forall. intros x Hx. apply (sorted_app_lt _ _ Hs); [apply list_elem_of_fmap; by exists x|by left].
Qed.

Lemma digests_keys rs bs : digests rs = body_digests bs -> map fst rs = map fst bs.
Proof. intros E%(f_equal (map fst)). unfold digests, body_digests in E. rewrite !map_map in E. exact E. Qed.

Lemma last_key_of rs bs : digests rs = body_digests bs -> last_key rs = fst <$> last bs.
Proof. intros E%digests_keys. unfold last_key. rewrite <- !fmap_last. by f_equal. Qed.
Lemma first_key_of rs bs : digests rs = body_digests bs -> first_key rs = fst <$> head bs.
Proof. intros E%digests_keys. unfold first_key. destruct rs as [|[k r] rs], bs as [|b bs]; try done. by injection E as ->. Qed.

Lemma committed_digests rs ps start news : digests rs = body_digests start -> summary ps = body_digests news -> in_order (start ++ news) ->
  digests (om_extend rs (map (fun r => (sequence r, r)) ps)) = body_digests (start ++ news).
Proof.
  intros Hr Hp Ho%in_order_sorted. rewrite om_extend_last.
  - unfold digests in *. rewrite map_app, Hr, map_map, body_digests_app. f_equal. exact Hp.
  - rewrite map_app, (digests_keys _ _ Hr), map_map. rewrite map_app in Ho. apply (f_equal (map fst)) in Hp. unfold summary, body_digests in Hp.
    rewrite !map_map in Hp. cbn [fst] in *. by rewrite Hp.
Qed.

Lemma grow_index_runs n w m (Q : World -> unit -> Prop) (E : World -> Prop) : memory w = Some m -> E w ->
  (forall w' r, disk w' = disk w -> memory w' = Some (set_index r m) -> Q w' tt) -> runs Safe (grow_index n) w Q E.
Proof.
  intros Hm HE HQ. unfold grow_index. apply runs_bind, runs_the_memory; [|done]. rewrite Hm. intros _ [= <-]. apply runs_bind, runs_gets.
  apply runs_bind, runs_lift; [|done]. intros [u r] _. apply runs_bind, runs_modify. apply runs_modify. by apply HQ with r.
Qed.

Lemma shrink_index_runs n w m (Q : World -> unit -> Prop) (E : World -> Prop) : memory w = Some m -> E w ->
  (forall w' r, disk w' = disk w -> memory w' = Some (set_index r m) -> Q w' tt) -> runs Safe (shrink_index n) w Q E.
Proof.
  intros Hm HE HQ. unfold shrink_index. apply runs_bind, runs_the_memory; [|done]. rewrite Hm. intros _ [= <-]. apply runs_bind, runs_gets.
  destruct (Reservation.shrink_to _ _ _) as [u r]. apply runs_bind, runs_modify. apply runs_modify. by apply HQ with r.
Qed.

(** What a batch commits: the bodies are on disk to stay and the index describes them. *)
Definition committed (w : World) (bodies : list Body) : Prop := exists dir ces closed bs m,
  settled_lane lane limits acked w dir ces closed bs /\ memory w = Some m /\ indexed m closed bs /\ concat closed ++ bs = bodies.

(** The end of the loop: the open chunk is synced and the new records enter the index. *)
Lemma commit_runs start news w b : batch_ok start news w b ->
  runs Safe (if negb (len (pending_records b) =? 0) then
               _ ← sync_data (bfile b);
               m ← the_memory;
               put_memory (set_open (batch_first b) (batch_last b)
                 (set_records (om_extend (records m) (map (fun r => (sequence r, r)) (pending_records b))) m))
             else mret tt) w (fun w' _ => committed w' (start ++ news)) Readable.
Proof.
  intros (dir & ces & closed & bs & f & m & [Hu Hv Hbod Hm Hrec Hopen Hfirst Hlast Hthr Hdig Hpend] & Hold & Hnew).
  destruct news as [|x news].
  { unfold summary in Hpend. apply map_eq_nil in Hpend. rewrite Hpend. cbn. destruct Hold as [Hp Hix]; [done|]. apply runs_ret.
    exists dir, ces, closed, bs, m. split_and!; try done. split; [done|]. by exists (Some (bfile b, f)), bs. }
  destruct (pending_records b) as [|r rs] eqn:Er; [done|]. rewrite <- Er in *. clear Hold.
  assert ((len (pending_records b) =? 0) = false) as -> by (apply Z.eqb_neq; rewrite Er; unfold len; cbn [length]; lia).
  specialize (Hnew ltac:(done)). destruct (view_valid _ _ _ _ _ _ _ _ _ _ _ _ Hv) as [_ Hord]. rewrite Hbod in Hord.
  destruct (st_open _ _ _ _ _ _ _ _ _ (v_structure Hv)) as [Hf _]. cbn [negb]. apply runs_bind.
  apply runs_sync_data; [exact (v_safe Hv)|intros _; by eapply view_readable|]. intros d _ [[Hn _]|(f0 & Hf0 & ->)]; [congruence|]. rewrite Hf in Hf0. injection Hf0 as <-.
  destruct (view_sync lane limits acked _ _ _ _ _ _ _ _ _ _ _ Hv Hf) as (o1 & Ho1 & Hv1 & Hsol).
  apply runs_bind, runs_the_memory; [|by eapply view_readable]. cbn [memory set_disk]. rewrite Hm. intros _ [= <-]. apply runs_modify.
  eexists dir, ces, closed, bs, _. split_and!; [|done| |done].
  - split; [done|]. exists o1, bs. split; [by eapply view_disk|]. apply Hsol. right. by left.
  - split_and!; cbn [set_open set_records records open_first open_last]; [|done|by apply Hlast].
    rewrite Hbod. by apply committed_digests.
Qed.

(** The range a receipt reports for these bodies. *)
Definition receipt_of (bodies : list Body) : FollowerReceipt :=
  let durable := default covered (fst <$> last bodies) in
  MkReceipt (default (saturating_add_u64 durable 1) (fst <$> head bodies)) durable.

Lemma start_through m bodies : digests (records m) = body_digests bodies -> uncovered covered bodies ->
  Z.max (default covered (last_key (records m))) covered = default covered (fst <$> last bodies).
Proof.
  intros Hd Hu. rewrite (last_key_of _ _ Hd). destruct Hu as [->|(b & -> & Hb)]; cbn [fmap option_fmap option_map default from_option last]; cbn; lia.
Qed.

Lemma finish_batch_runs start news w b : batch_ok start news w b ->
  runs Safe (_ ← (if negb (len (pending_records b) =? 0) then
                    _ ← sync_data (bfile b);
                    m ← the_memory;
                    put_memory (set_open (batch_first b) (batch_last b)
                      (set_records (om_extend (records m) (map (fun r => (sequence r, r)) (pending_records b))) m))
                  else mret tt);
             m ← the_memory;
             bytes ← lift (index_bytes (len (records m)));
             _ ← shrink_index bytes;
             mret (MkReceipt (default (saturating_add_u64 (through b) 1) (first_key (records m))) (through b))) w
    (fun w' r => committed w' (start ++ news) /\ r = receipt_of (start ++ news)) Readable.
Proof.
  intros Hok. pose proof Hok as (? & ? & ? & ? & ? & ? & Hcore & _ & _). pose proof (c_through _ _ _ _ _ _ _ _ _ _ Hcore) as Hthr. clear Hcore.
  apply runs_bind. eapply runs_mono; [by apply commit_runs| |done]. cbn beta. intros w1 _ (dir & ces & closed & bs & m & Hset & Hm & Hix & Hbod).
  assert (Readable w1) as Hr1 by (destruct Hset as (_ & o & full & Hv & _); by eapply view_readable). apply runs_bind, runs_the_memory; [|done]. rewrite Hm. intros _ [= <-]. apply runs_bind, runs_lift; [|done]. intros n _.
  apply runs_bind, (shrink_index_runs _ _ m); [done..|]. intros w2 r Hd2 Hm2. apply runs_ret. split.
  - eexists dir, ces, closed, bs, _. split_and!; [|exact Hm2|exact Hix|done]. destruct Hset as (Hu & o & full & Hv & Hsol).
    split; [by rewrite Hd2|]. exists o, full. split; [|done]. by apply (view_disk _ _ _ w1).
  - destruct Hix as (Hdig & _). rewrite Hbod in Hdig. unfold receipt_of. by rewrite (first_key_of _ _ Hdig), Hthr.
Qed.

Lemma append_batch_runs fs grant w : prepared lane limits acked covered w ->
  runs Safe (append_batch lane limits fs covered grant) w
    (fun w' r => exists bodies, committed w' bodies /\ r = receipt_of bodies /\ Forall (answered bodies) fs) Readable.
Proof.
  intros (dir & ces & closed & bs & m & (Hu & o & full & Hv & Hsol) & Hm & Hix & Hunc). pose proof Hix as (Hdig & Hof & Hol).
  assert (Readable w) as Hr by (by eapply view_readable).
  unfold append_batch. apply runs_bind, runs_the_memory; [|done]. rewrite Hm. intros _ [= <-]. rewrite (start_through _ _ Hdig Hunc).
  apply runs_bind. eapply runs_mono; [by eapply open_append_runs| |done].
  cbn beta. intros w1 i (Hu1 & Hm1 & dir1 & f & Hv1 & Hp1). specialize (Hp1 Hsol). assert (Readable w1) as Hr1 by (by eapply view_readable).
  destruct (st_open _ _ _ _ _ _ _ _ _ (v_structure Hv1)) as [Hf _]. pose proof (v_open Hv1) as Hop. rewrite app_nil_r in Hop.
  apply runs_bind, runs_file_len; [done|]. rewrite Hf, Hop. apply runs_bind, runs_lift; [|done]. intros n _.
  case_match; [by apply runs_throw|]. apply runs_bind, runs_lift; [|done]. intros k _.
  apply runs_bind, (grow_index_runs _ _ m); [by rewrite Hm1|done|]. intros w2 r Hd2 Hm2.
  apply runs_bind. eapply runs_mono; [apply (append_frames_runs (concat closed ++ bs) [])| |done].
  - exists dir1, ces, closed, bs, f, (set_index r m). split_and!; [|done|done].
    constructor; cbn [bfile open_bytes pending_records pending_digests batch_first batch_last through]; try done.
    + by rewrite Hd2.
    + by apply (view_disk _ _ _ w1).
    + by rewrite app_nil_r.
    + by rewrite app_nil_r.
  - cbn beta. intros w3 b3 (news & Hok & Ha). eapply runs_mono; [by apply finish_batch_runs| |done]. cbn beta. intros w4 rc [Hc ->].
    eexists. split_and!; [exact Hc|done|exact Ha].
Qed.

(** A committed lane is ready for the next append, with every stored body acknowledged. *)
Lemma committed_ready w bodies : committed w bodies ->
  lane_ready lane limits bodies w /\ Forall (fun b => b ∈ bodies) acked /\ Forall (valid lane limits) bodies /\ in_order bodies.
Proof.
  intros (dir & ces & closed & bs & m & (Hu & o & full & Hv & Hsol) & Hm & Hix & <-).
  pose proof (view_acked _ _ _ _ _ _ _ _ _ _ _ _ Hv) as Ha. destruct (view_valid _ _ _ _ _ _ _ _ _ _ _ _ Hv) as [Hval Hord].
  apply view_exact in Hv. pose proof (v_structure Hv) as Hst.
  assert (open_exact o bs) as Hex.
  { destruct o as [[i f]|]; [|by destruct (v_open Hv)]. by eapply view_closed. }
  assert (Forall (fun b => b ∈ concat closed ++ bs) (concat closed ++ bs)) as Hall by (by apply Forall_forall).
  assert (disk_safe lane limits (concat closed ++ bs) (disk w)) as Hsafe.
  { split; [|by destruct (v_safe Hv)]. rewrite (v_dir Hv), Hu. apply Forall_singleton. by eapply safe_exact. }
  split_and!; try done. split_and!; try done.
  - by rewrite (v_dir Hv).
  - intros _. exists dir, ces, [], closed, bs, bs, o, []. by eapply exact_view; [exact (v_dir Hv)|..].
  - intros m' Hm' _. rewrite Hm in Hm'. injection Hm' as <-. exists dir, ces, closed, bs. split; [|done].
    by eapply settle_intro; [exact (v_dir Hv)|..].
Qed.

(** An append that fails did nothing or leaves a readable lane. *)
Lemma append_sync_runs `{!OrderedReadDir} fs grant w : lane_ready lane limits acked w -> Forall (fun b => covered < b.1) acked ->
  runs Safe (append_sync lane limits fs covered grant) w
    (fun w' r => exists bodies, committed w' bodies /\ r = receipt_of bodies /\ Forall (answered bodies) fs) (fun w' => w' = w \/ Readable w').
Proof.
  intros Hr Hcov. unfold append_sync. apply runs_bind, runs_lift; [|by left]. intros _ _.
  apply runs_bind. eapply runs_mono; [by apply load_memory_runs| |done]. cbn beta. intros w1 _ Hl.
  apply runs_bind. eapply runs_mono; [by eapply prune_and_reconcile_runs| |by right]. cbn beta. intros w2 _ Hp.
  eapply runs_mono; [by apply append_batch_runs|done|by right].
Qed.

(** ** The append of the store *)

(** A lane that is ready but for its index. *)
Definition resumable (w : World) : Prop := Safe (disk w)
  /\ (chunks (disk w) = None -> memory w = None /\ unsynced (disk w) = []) /\ (chunks (disk w) <> None -> Readable w).

Lemma readable_resumable w : Readable w -> resumable w.
Proof.
  intros Hr. pose proof Hr as (dir & ces & tmp & closed & full & bs & o & tail & Hv). split_and!; [exact (v_safe Hv)| |done].
  by rewrite (v_dir Hv).
Qed.

Lemma ready_resumable w : lane_ready lane limits acked w -> resumable w.
Proof. by intros (? & ? & ? & _). Qed.

Lemma resumable_disk w w' : resumable w -> disk w' = disk w -> (memory w = None -> memory w' = None) -> resumable w'.
Proof.
  intros (Hs & Hn & Hr) E Hm. unfold resumable. rewrite E. split_and!; try done.
  - intros Hc. destruct (Hn Hc). split; [by apply Hm|done].
  - intros (dir & ces & tmp & closed & full & bs & o & tail & Hv)%Hr. exists dir, ces, tmp, closed, full, bs, o, tail. by apply (view_disk _ _ _ w).
Qed.

Lemma ready_disk w w' : lane_ready lane limits acked w -> disk w' = disk w -> memory w' = memory w -> lane_ready lane limits acked w'.
Proof.
  intros Hw Ed Em. pose proof (resumable_disk w w' (ready_resumable w Hw) Ed) as (Hs & Hn & Hr); [congruence|]. destruct Hw as (_ & _ & _ & Hmem).
  split_and!; try done. intros m Hm Hf. rewrite Em in Hm. destruct (Hmem m Hm Hf) as (dir & ces & closed & bs & (Hu & o & full & Hv & Hsol) & Hix).
  exists dir, ces, closed, bs. split; [|done]. split; [by rewrite Ed|]. exists o, full. split; [by apply (view_disk _ _ _ w)|done].
Qed.

(** With an index that is missing or doubted it is ready. *)
Lemma doubted_ready w : resumable w -> (forall m, memory w = Some m -> needs_reconciliation m = true) -> lane_ready lane limits acked w.
Proof. intros (? & ? & ?) Hd. split_and!; try done. intros m Hm Hf. specialize (Hd m Hm). congruence. Qed.

Lemma invalidate_runs w (Q : World -> unit -> Prop) E :
  (forall w', disk w' = disk w -> (memory w = None -> memory w' = None) -> (forall m, memory w' = Some m -> needs_reconciliation m = true) -> Q w' tt) ->
  runs Safe invalidate w Q E.
Proof.
  intros HQ. unfold invalidate. apply runs_bind, runs_gets. destruct (memory w) as [m|] eqn:Em.
  - apply runs_bind, runs_modify. unfold shrink_index, the_memory. apply runs_bind, runs_bind, runs_gets.
    cbn [memory set_memory ok_or]. apply runs_lift; [|done]. intros _ [= <-]. apply runs_bind, runs_gets.
    destruct (Reservation.shrink_to _ _ _) as [u r]. apply runs_bind, runs_modify, runs_modify. apply HQ; try done. by intros _ [= <-].
  - apply runs_ret. apply HQ; try done. congruence.
Qed.

Lemma abandon_runs gate w : resumable w ->
  runs Safe (abandon lane gate) w (fun w' _ => lane_ready lane limits acked w') (lane_ready lane limits acked).
Proof.
  intros Hw. unfold abandon. apply runs_bind, invalidate_runs. intros w1 Hd1 Hm1 Hn1.
  pose proof (resumable_disk _ w1 Hw Hd1 Hm1) as Hw1. apply runs_bind, runs_gets, runs_bind, runs_gets. case_match; [|by apply runs_ret, doubted_ready].
  apply runs_bind, runs_modify. unfold forget_empty. set (w2 := match memory w1 with Some _ => _ | None => _ end).
  assert (disk w2 = disk w1 /\ memory w2 = None) as [Hd2 Hm2] by (unfold w2; by destruct (memory w1) eqn:E; rewrite ?E).
  assert (forall w3, disk w3 = disk w2 -> memory w3 = memory w2 -> lane_ready lane limits acked w3) as Hend.
  { intros w3 E1 E2. apply doubted_ready; [eapply resumable_disk; [exact Hw1|congruence|congruence]|]. congruence. }
  apply runs_quiet; [auto with quiet|by intros; apply Hend..].
Qed.

Lemma finish_runs {A} (result : LaneResult A) w (Q : World -> A -> Prop) (E : World -> Prop) :
  (forall w' a, disk w' = disk w -> memory w' = memory w -> result = Ok a -> Q w' a) ->
  (forall w', disk w' = disk w -> memory w' = memory w -> E w') -> runs Safe (finish_accounting lane result) w Q E.
Proof.
  intros HQ HE. unfold finish_accounting. apply runs_attempt.
  assert (forall w' r, disk w' = disk w -> memory w' = memory w ->
    runs Safe (lift (match result with Err e => Err e | Ok a => match r : LaneResult unit with Ok _ => Ok a | Err e => Err e end end)) w' Q E) as Hend.
  { intros w' r Hd Hm. apply runs_lift; [|intros; by apply HE]. intros a Ha. apply HQ; [done..|]. by destruct result, r; simplify_eq. }
  apply runs_quiet; [|intros w' a Hd Hm; exact (Hend w' (Ok a) Hd Hm)|intros w' Hd Hm e; exact (Hend w' (Err e) Hd Hm)].
  apply bind_quiet; [|auto with quiet]. case_match; [|auto with quiet]. apply bind_quiet; [auto with quiet|]. intros [n|]; auto with quiet.
Qed.

Lemma committed_disk w w' bodies : committed w bodies -> disk w' = disk w -> memory w' = memory w -> committed w' bodies.
Proof.
  intros (dir & ces & closed & bs & m & (Hu & o & full & Hv & Hsol) & Hm & Hix & Hb) Ed Em. exists dir, ces, closed, bs, m.
  split_and!; [|by rewrite Em|done..]. split; [by rewrite Ed|]. exists o, full. split; [by apply (view_disk _ _ _ w)|done].
Qed.

Lemma committed_resumable w bodies : committed w bodies -> resumable w.
Proof.
  intros (dir & ces & closed & bs & m & (Hu & o & full & Hv & Hsol) & _). by eapply readable_resumable, view_readable.
Qed.

Lemma append_job_runs `{!OrderedReadDir} fs gate w : lane_ready lane limits acked w -> Forall (fun b => covered < b.1) acked ->
  runs Safe (append_job lane limits fs covered gate) w
    (fun w' r => exists bodies, committed w' bodies /\ r = receipt_of bodies /\ Forall (answered bodies) fs) resumable.
Proof.
  intros Hw Hcov. unfold append_job. apply runs_attempt, runs_bind, runs_gets, runs_bind.
  eapply (runs_mono _ _ _ (fun w' _ => lane_ready lane limits acked w') _ resumable).
  - destruct (lane_exists (disk w)) eqn:El; [by apply runs_ret|]. apply runs_bind, runs_lift; [|intros; by apply ready_resumable]. intros _ _.
    assert (memory w = None) as Hm.
    { pose proof Hw as (_ & Hn & _). destruct (chunks (disk w)) eqn:Ec; [|by apply Hn]. unfold lane_exists in El. by rewrite Ec in El. }
    eapply runs_mono; [by apply ensure_runs| |intros w' [->|?]; [by apply ready_resumable|by apply readable_resumable]]. cbn beta. intros w1 _ [Hr1 Hm1].
    apply doubted_ready; [by apply readable_resumable|]. congruence.
  - cbn beta. intros w1 _ Hw1. eapply runs_mono; [by apply append_sync_runs| |].
    + cbn beta. intros w2 r (bodies & Hc & -> & Ha). pose proof (committed_resumable _ _ Hc) as Hw2.
      apply runs_bind, finish_runs; [|intros w3 Hd3 Hm3; eapply resumable_disk; [exact Hw2|done|congruence]].
      intros w3 r Hd3 Hm3 [= <-]. pose proof (committed_disk _ _ _ Hc Hd3 Hm3) as Hc3. apply runs_bind.
      eapply (runs_mono _ _ _ (fun w' _ => w' = w3) _ (fun w' => w' = w3)).
      * case_match; [|by apply runs_ret]. by apply runs_lift.
      * cbn beta. intros w4 _ ->. apply runs_ret. by exists bodies.
      * intros w4 ->. by eapply committed_resumable.
    + cbn beta. intros w2 Hw2 e. apply runs_bind, finish_runs; [done|]. intros w3 Hd3 Hm3.
      assert (resumable w2) as Hs2 by (destruct Hw2 as [->|?]; [by apply ready_resumable|by apply readable_resumable]).
      eapply resumable_disk; [exact Hs2|done|congruence].
  - cbn beta. intros w1 Hw1 e. apply runs_bind, finish_runs; [done|]. intros w3 Hd3 Hm3. eapply resumable_disk; [exact Hw1|done|congruence].
Qed.

(** Whether it succeeds or not, an append leaves the lane ready for the next one. *)
Lemma append_inner_runs `{!OrderedReadDir} fs requested gate w : lane_ready lane limits acked w -> covered = covers gate requested ->
  Forall (fun b => covered < b.1) acked ->
  runs Safe (append_inner lane limits fs requested gate) w
    (fun w' r => exists bodies, committed w' bodies /\ r = receipt_of bodies /\ Forall (answered bodies) fs) (lane_ready lane limits acked).
Proof.
  intros Hw Ecov Hcov. unfold append_inner. rewrite <- Ecov. apply runs_bind, runs_lift; [|done]. intros n _.
  apply runs_bind, runs_lift; [|done]. intros _ _. apply runs_bind, runs_gets.
  apply runs_bind. eapply (runs_mono _ _ _ (fun w' _ => w' = w) _ (fun w' => w' = w)); [case_match; [by apply runs_ret|by apply runs_lift]| |by intros ? ->].
  cbn beta. intros w1 _ ->. apply runs_bind, runs_lift; [|done]. intros growth _. apply runs_bind, runs_lift; [|done]. intros _ _.
  apply runs_bind, runs_gets.
  assert (forall w', disk w' = disk w -> memory w' = memory w -> lane_ready lane limits acked w') as Hsame by (intros; by eapply ready_disk).
  apply runs_bind, runs_quiet; [auto with quiet| |by intros; apply Hsame]. intros w2 _ Hd2 Hm2.
  apply runs_cleanup. eapply runs_mono; [by apply append_job_runs; [apply Hsame|]|done|]. cbn beta. intros w3 Hw3. by apply abandon_runs.
Qed.
End Batch.
