(* ===== verification/FollowerHistory.v ===== *)
(** * FollowerHistory: no acknowledged frame of a follower lane is lost

    A lane over its whole life: appends, whatever calls to the file system fail in them,
    crashes in the middle of them, crashes in the middle of the restarts that follow, and
    restarts. What an append acknowledged is found by every later restart until object
    storage covers it ([acknowledged_frames_survive]); and an append that returns has put
    every frame it was given on the disk to stay ([append_stores_every_frame]). Both need
    the chunks to be listed in their order: [unordered_prune_quarantines] is an example in
    which they are not. A crash in a seal can cost the lane too ([torn_seal_quarantines]).

    Restarts are taken without I/O errors: the scrub quarantines a lane whose validation
    fails for any reason, an error of the file system included. *)

From Stdlib Require Import ZArith Lia Sorting.Sorted.
From Stdlib Require Import Strings.Byte.
From stdpp Require Import base strings relations sorting.
From stdpp Require Import list.
From S2P Require Import Prelude OrdMap Bytes Identity Text LtxTypes Ltx LtxCodec Recovery NodeFrame FollowerRecords FollowerDisk FollowerLane FollowerCrash FollowerSafety FollowerAppend FollowerBatch.

Local Open Scope bool_scope.

(** ** The steps of a lane's life *)

(** What was acknowledged: a sequence and the digest of its frame. *)
Definition Ack : Type := Z * Digest.

(** A running node with its world, or one that crashed and left its disk. *)
Inductive Node := Up (w : World) | Down (d : LaneDisk).

(** A started process: the disk it found, and no index yet. *)
Definition started (d : LaneDisk) (w : World) : Prop := disk w = d /\ memory w = None.

(** A lane that no frame was ever sent to. *)
Definition empty_lane (w : World) : Prop :=
  chunks (disk w) = None /\ unsynced (disk w) = [] /\ sealed (disk w) = None /\ retired (disk w) = None /\ memory w = None.

Section History.
Context `{Crc64, Blake3, Lz4Flex, DiskBudgetAdmission} {RD : ReadDir}.
Context (lane : Lane) (limits : Limits).

Definition frame_ack (covered : Z) (e : list byte) : list Ack :=
  match inspect_node_frame e limits with
  | Ok frame => let s := Scope.node_sequence (Frame.scope frame) in if covered <? s then [(s, frame_digest frame)] else []
  | Err _ => []
  end.
Definition frame_acks (covered : Z) (fs : list (list byte)) : list Ack := concat (map (frame_ack covered) fs).

(** Object storage answers for the others. *)
Definition open_acks (covered : Z) (acks : list Ack) : list Ack := List.filter (fun a => covered <? a.1) acks.

(** The steps: an append that returns a receipt; one that fails; a crash at any disk that
    an append or a restart passes through; a restart. Any calls of an append may fail. *)
Inductive lane_step : list Ack * Node -> list Ack * Node -> Prop :=
| step_append acks w fs requested gate faults trace w' rest receipt :
    append_inner lane limits fs requested gate w faults = (trace, w', rest, Ok receipt) ->
    let covered := covers gate requested in
    lane_step (acks, Up w) (open_acks covered acks ++ frame_acks covered fs, Up w')
| step_fail acks w fs requested gate faults trace w' rest e :
    append_inner lane limits fs requested gate w faults = (trace, w', rest, Err e) ->
    lane_step (acks, Up w) (open_acks (covers gate requested) acks, Up w')
| step_crash acks w fs requested gate faults trace w' rest result d d' :
    append_inner lane limits fs requested gate w faults = (trace, w', rest, result) -> d ∈ disk w :: trace -> disk_crash d d' ->
    lane_step (acks, Up w) (open_acks (covers gate requested) acks, Down d')
| step_crash_again acks d w trace w' rest result d1 d2 :
    started d w -> restart lane limits w [] = (trace, w', rest, result) -> d1 ∈ d :: trace -> disk_crash d1 d2 ->
    lane_step (acks, Down d) (acks, Down d2)
| step_restart acks d w trace w' rest found :
    started d w -> restart lane limits w [] = (trace, w', rest, Ok found) -> lane_step (acks, Down d) (acks, Up w').

(** ** The invariant *)

(** Fewer frames to keep. *)
Section Fewer.
Context (acked acked' : list Body) (Hsub : Forall (fun b => b ∈ acked) acked').

Lemma fewer_forall (bs : list Body) : Forall (fun b => b ∈ bs) acked -> Forall (fun b => b ∈ bs) acked'.
Proof. rewrite !Forall_forall in *. naive_solver. Qed.

Lemma fewer_safe d : disk_safe lane limits acked d -> disk_safe lane limits acked' d.
Proof.
  intros (Hd & Hr). split; [|done]. destruct (chunks d) as [dir|].
  - eapply Forall_impl; [exact Hd|]. intros dir' (ces & closed & o & full & tmp & sync & Hst & Hsy & Hpre & Ha).
    exists ces, closed, o, full, tmp, sync. split_and!; try done. by apply fewer_forall.
  - rewrite Hd in Hsub. destruct acked' as [|b bs]; [done|]. by apply Forall_cons in Hsub as [?%not_elem_of_nil _].
Qed.

Lemma fewer_view w dir ces tmp closed full bs o tail : view lane limits acked dir ces tmp closed full bs w o tail ->
  view lane limits acked' dir ces tmp closed full bs w o tail.
Proof.
  intros [? ? ? ? ? ? (sync & ? & ? & ?) ?]. constructor; try done.
  - exists sync. split_and!; try done. by apply fewer_forall.
  - by apply fewer_safe.
Qed.

Lemma fewer_ready w : lane_ready lane limits acked w -> lane_ready lane limits acked' w.
Proof.
  intros (Hs & Hn & Hr & Hm). split_and!; try done.
  - by apply fewer_safe.
  - intros (dir & ces & tmp & closed & full & bs & o & tail & Hv)%Hr. exists dir, ces, tmp, closed, full, bs, o, tail. by apply fewer_view.
  - intros m Em En. destruct (Hm m Em En) as (dir & ces & closed & bs & (Hu & o & full & Hv & Hsol) & Hix). exists dir, ces, closed, bs.
    split; [|done]. split; [done|]. exists o, full. split; [by apply fewer_view|done].
Qed.
End Fewer.

Lemma started_safe acked d w : disk_safe lane limits acked d -> unsynced d = [] -> started d w ->
  disk_safe lane limits acked (disk w) /\ unsynced (disk w) = [] /\ memory w = None.
Proof. by intros ? ? [-> ?]. Qed.

Lemma recovered_ready acked w : recovered lane limits acked w -> lane_ready lane limits acked w.
Proof.
  intros (Hs & Hu & Hm & Ht). split_and!; try done.
  - destruct (chunks (disk w)) as [dir|] eqn:Hd; [|done]. intros _. apply scannable_readable. eapply scannable_intro; [done..|]. by apply Ht.
  - unfold memory_ok. by rewrite Hm.
Qed.

Lemma empty_ready w : empty_lane w -> lane_ready lane limits [] w.
Proof.
  intros (Hc & Hu & Hs & Hr & Hm). split_and!; try done.
  - split; [by rewrite Hc|done].
  - unfold memory_ok. by rewrite Hm.
Qed.

(** What was acknowledged and is not covered is among the bodies the lane is safe for. *)
Definition lane_inv (s : list Ack * Node) : Prop := exists acked,
  Forall (fun a => a ∈ body_digests acked) s.1
  /\ match s.2 with Up w => lane_ready lane limits acked w | Down d => disk_safe lane limits acked d /\ unsynced d = [] end.

Definition open_bodies (covered : Z) (bodies : list Body) : list Body := List.filter (fun b => covered <? b.1) bodies.

Lemma open_bodies_sub covered bodies : Forall (fun b => b ∈ bodies) (open_bodies covered bodies).
Proof. apply Forall_forall. by intros b [? _]%elem_of_filter_bool. Qed.

Lemma open_bodies_open covered bodies : Forall (fun b => covered < b.1) (open_bodies covered bodies).
Proof. apply Forall_forall. by intros b [_ ?%Z.ltb_lt]%elem_of_filter_bool. Qed.

Lemma open_acks_kept covered acks bodies : Forall (fun a => a ∈ body_digests bodies) acks ->
  Forall (fun a => a ∈ body_digests (open_bodies covered bodies)) (open_acks covered acks).
Proof.
  rewrite !Forall_forall. intros Ha a [Hin Hc]%elem_of_filter_bool. specialize (Ha a Hin). apply list_elem_of_fmap in Ha as (b & -> & Hb).
  apply list_elem_of_fmap. exists b. split; [done|]. by apply elem_of_filter_bool.
Qed.

Lemma digests_sub acked bodies acks : Forall (fun b => b ∈ bodies) acked -> Forall (fun a => a ∈ body_digests acked) acks ->
  Forall (fun a => a ∈ body_digests bodies) acks.
Proof.
  rewrite !Forall_forall. intros Hs Ha a Hin. specialize (Ha a Hin). apply list_elem_of_fmap in Ha as (b & -> & Hb).
  apply list_elem_of_fmap. exists b. split; [done|]. by apply Hs.
Qed.

Lemma answered_acks covered bodies fs : Forall (answered lane limits covered bodies) fs ->
  Forall (fun a => a ∈ body_digests bodies) (frame_acks covered fs).
Proof.
  intros Ha. unfold frame_acks. induction Ha as [|e fs (fr & Hi & _ & _ & Hx) Ha IH]; [done|]. cbn [map concat]. apply Forall_app. split; [|done].
  unfold frame_ack. rewrite Hi. pose proof (inspect_frame_Ok _ _ _ Hi) as (_ & He & _).
  destruct (Z.ltb_spec covered (Scope.node_sequence (Frame.scope fr))) as [Hlt|]; [|done]. apply Forall_singleton.
  destruct Hx as [?|(x & Hx & <- & Hd)]; [lia|]. apply list_elem_of_fmap. exists x. split; [|done]. unfold frame_digest. by rewrite He, Hd.
Qed.

(** Every disk of a run whose disks are safe, and the one it starts from. *)
Lemma trace_safe {A} b (m : M A) w fs trace w' rest r Q E acked d : runs_with b (disk_safe lane limits acked) m w Q E ->
  (b = false -> fs = []) -> m w fs = (trace, w', rest, r) -> disk_safe lane limits acked (disk w) -> d ∈ disk w :: trace -> disk_safe lane limits acked d.
Proof.
  intros Hr Hfs Em Hs [->|Hd]%elem_of_cons; [done|]. specialize (Hr fs Hfs). rewrite Em in Hr. destruct Hr as [Ht _]. rewrite Forall_forall in Ht. by apply Ht.
Qed.

Context (Hlim : max_capture_bytes limits + 300 <= u64_max).

(** The append from a lane that is ready, for the frames it has to keep. *)
Lemma append_from_ready `{!OrderedReadDir} acked fs requested gate w : lane_ready lane limits acked w ->
  let covered := covers gate requested in
  runs_with true (disk_safe lane limits (open_bodies covered acked)) (append_inner lane limits fs requested gate) w
    (fun w' r => exists bodies, committed lane limits (open_bodies covered acked) w' bodies /\ r = receipt_of covered bodies
                              /\ Forall (answered lane limits covered bodies) fs) (lane_ready lane limits (open_bodies covered acked)).
Proof.
  intros Hw covered. apply (append_inner_runs lane limits _ covered Hlim); [|done|apply open_bodies_open].
  eapply fewer_ready; [apply open_bodies_sub|exact Hw].
Qed.

Lemma lane_step_inv `{!OrderedReadDir} s s' : lane_inv s -> lane_step s s' -> lane_inv s'.
Proof.
  intros (acked & Ha & Hn) Hstep. inversion Hstep as [acks w fs rq gate fl tr w' rest rc Hrun|acks w fs rq gate fl tr w' rest e Hrun
    |acks w fs rq gate fl tr w' rest rs d d' Hrun Hd Hc|acks d w tr w' rest rs d1 d2 Hst Hrun Hd Hc|acks d w tr w' rest found Hst Hrun]; subst; cbn [fst snd] in *.
  - pose proof (append_from_ready acked fs rq gate w Hn fl ltac:(done)) as Hruns. rewrite Hrun in Hruns. destruct Hruns as (_ & _ & bodies & Hcom & _ & Hans).
    destruct (committed_ready _ _ _ _ _ Hcom) as (Hr' & Hsub & _). exists bodies. split; [|done]. cbn [fst]. apply Forall_app. split.
    + eapply digests_sub; [exact Hsub|]. by apply open_acks_kept.
    + by apply answered_acks.
  - pose proof (append_from_ready acked fs rq gate w Hn fl ltac:(done)) as Hruns. rewrite Hrun in Hruns. destruct Hruns as (_ & _ & Hr').
    exists (open_bodies (covers gate rq) acked). split; [by apply open_acks_kept|done].
  - pose proof (append_from_ready acked fs rq gate w Hn) as Hruns.
    exists (open_bodies (covers gate rq) acked). split; [by apply open_acks_kept|]. eapply disk_safe_crash; [|exact Hc].
    eapply (trace_safe _ _ _ fl); [exact Hruns|done|exact Hrun| |exact Hd]. eapply fewer_safe; [apply open_bodies_sub|]. apply Hn.
  - destruct Hn as [Hs Hu]. destruct (started_safe _ _ _ Hs Hu Hst) as (Hs' & Hu' & Hm'). exists acked. split; [done|]. eapply disk_safe_crash; [|exact Hc].
    eapply (trace_safe _ _ _ []); [by eapply restart_runs|done|exact Hrun|exact Hs'|]. destruct Hst as [-> _]. exact Hd.
  - destruct Hn as [Hs Hu]. destruct (started_safe _ _ _ Hs Hu Hst) as (Hs' & Hu' & Hm'). exists acked. split; [done|].
    pose proof (restart_runs lane limits acked w Hs' Hu' Hm' [] ltac:(done)) as Hr. rewrite Hrun in Hr. apply recovered_ready, Hr.
Qed.

Lemma lane_history_inv `{!OrderedReadDir} w s : empty_lane w -> rtc lane_step ([], Up w) s -> lane_inv s.
Proof.
  intros Hw Hs. assert (lane_inv ([], Up w)) as Hi by (exists []; split; [done|exact (empty_ready w Hw)]).
  remember ([], Up w) as s0 eqn:E0. clear E0. induction Hs as [|s1 s2 s3 Hstep _ IH]; [done|]. apply IH. by eapply lane_step_inv.
Qed.

(** A restart on a safe disk without anything to sync. *)
Lemma restart_finds acked d w : disk_safe lane limits acked d -> unsynced d = [] -> started d w ->
  exists trace w' found, restart lane limits w [] = (trace, w', [], Ok (Some found))
    /\ Forall (fun b => b ∈ found) acked /\ Forall (valid lane limits) found /\ in_order found.
Proof.
  intros Hs Hu Hst. destruct (started_safe _ _ _ Hs Hu Hst) as (Hs' & Hu' & Hm').
  pose proof (restart_runs lane limits acked w Hs' Hu' Hm' [] ltac:(done)) as Hr.
  destruct (restart lane limits w []) as [[[tr w'] rest] [found|e]]; [|by destruct Hr as (_ & _ & ?)].
  destruct Hr as (_ & Hrest & (bs & -> & Hsub & Hval & Hord) & _). exists tr, w', bs. by rewrite Hrest.
Qed.

(** C6: No acknowledged frame is lost. Take any history of a lane that starts empty: appends
    of any frames under any grants, with any of their calls to the file system failing
    (a failed write leaves any prefix of its bytes), crashes at any disk state that an append
    or a restart passes through (each file keeps its synced bytes and a prefix of what was
    written after them, the directory any of its states since its last sync), and restarts
    in between. After a crash the restart succeeds, keeps the lane instead of quarantining
    it, and reads back valid frames with consecutive sequences, among them every frame that
    an append of the history acknowledged and that object storage was not reported to cover
    since. Assumed are chunks that are listed in their order, restarts without I/O errors,
    and the file system of [FollowerDisk]: a failed sync loses nothing and a later one
    completes it, and the entry of the [chunks] directory itself persists at once. *)
Theorem acknowledged_frames_survive `{!OrderedReadDir} w acks d w1 :
  empty_lane w -> rtc lane_step ([], Up w) (acks, Down d) -> started d w1 ->
  exists trace w' found, restart lane limits w1 [] = (trace, w', [], Ok (Some found))
    /\ Forall (fun a => a ∈ body_digests found) acks /\ Forall (valid lane limits) found /\ in_order found.
Proof.
  intros Hw Hs Hst. destruct (lane_history_inv _ _ Hw Hs) as (acked & Ha & Hn & Hu). cbn [fst snd] in *.
  destruct (restart_finds acked d w1 Hn Hu Hst) as (tr & w' & found & Hr & Hsub & Hval & Hord).
  exists tr, w', found. split_and!; try done. by eapply digests_sub.
Qed.

(** C7: An append that returns its receipt stored its frames, whatever calls to the file
    system failed on the way. At any point of such a history the lane then has a run of
    valid frames with consecutive sequences. They are on the disk: after any crash that
    follows, the restart keeps the lane and reads each of them back. The index has their
    sequences and digests; every submitted frame belongs to the lane and is covered by
    object storage or among them; so is everything acknowledged earlier that is not
    covered; and the receipt names the first and the last of the run, or the covered
    sequence if there are none. The assumptions are those of [acknowledged_frames_survive]. *)
Theorem append_stores_every_frame `{!OrderedReadDir} w0 acks w fs requested gate faults trace w' rest receipt :
  empty_lane w0 -> rtc lane_step ([], Up w0) (acks, Up w) ->
  append_inner lane limits fs requested gate w faults = (trace, w', rest, Ok receipt) ->
  let covered := covers gate requested in
  exists bodies m, Forall (valid lane limits) bodies /\ in_order bodies
    /\ (forall d w1, disk_crash (disk w') d -> started d w1 ->
          exists trace w2 found, restart lane limits w1 [] = (trace, w2, [], Ok (Some found)) /\ Forall (fun b => b ∈ found) bodies)
    /\ memory w' = Some m /\ digests (records m) = body_digests bodies
    /\ Forall (answered lane limits covered bodies) fs
    /\ Forall (fun a => a ∈ body_digests bodies) (open_acks covered acks) /\ receipt = receipt_of covered bodies.
Proof.
  intros Hw Hs Hrun covered. destruct (lane_history_inv _ _ Hw Hs) as (acked & Ha & Hn). cbn [fst snd] in *.
  pose proof (append_from_ready acked fs requested gate w Hn faults ltac:(done)) as Hruns.
  rewrite Hrun in Hruns. destruct Hruns as (_ & _ & bodies & Hcom & -> & Hans).
  destruct (committed_ready _ _ _ _ _ Hcom) as ((Hsafe & _) & Hsub & Hval & Hord).
  assert (Forall (fun a => a ∈ body_digests bodies) (open_acks covered acks)) as Hacks by (eapply digests_sub; [exact Hsub|by apply open_acks_kept]).
  destruct Hcom as (dir & ces & closed & bs & m & _ & Hm & (Hix & _) & Hbod). rewrite Hbod in Hix.
  exists bodies, m. split_and!; try done. intros d w1 Hc Hst. destruct (disk_safe_crash _ _ _ _ _ Hsafe Hc) as [Hs' Hu'].
  destruct (restart_finds bodies d w1 Hs' Hu' Hst) as (tr & w2 & found & Hr & Hall & _). by exists tr, w2, found.
Qed.
End History.

(** * Witnesses *)

(** A crash that keeps [n] of the bytes written after the last sync of a file. *)
Definition crash_file (n : nat) (f : file) : file := MkFile (durable f ++ take n (pending f)) [].
Definition crash_image (n : nat) (d : LaneDisk) : LaneDisk :=
  MkDisk (map (crash_file n) (files d)) (chunks d) [] (crash_file n <$> sealed d) (crash_file n <$> retired d).

Lemma crash_file_crash n f : file_crash f (crash_file n f).
Proof. split; [done|]. exists (take n (pending f)). split; [|done]. exists (drop n (pending f)). by rewrite take_drop. Qed.

Lemma crash_image_crash n d : disk_crash d (crash_image n d).
Proof.
  split_and!; cbn; [|destruct (chunks d) as [dir|]; [exists dir; split; [done|by left]|done]|done| |].
  - induction (files d) as [|f fs IH]; constructor; [apply crash_file_crash|done].
  - destruct (sealed d); constructor. apply crash_file_crash.
  - destruct (retired d); constructor. apply crash_file_crash.
Qed.

Lemma found_elem {A} (p : A -> bool) l x : List.find p l <> None -> default x (List.find p l) ∈ l.
Proof. destruct (List.find p l) as [y|] eqn:E; [|done]. intros _. apply find_some in E as [? _]. by apply list_elem_of_In. Qed.

(** Steps from the run of an append under these faults. *)
Section Steps.
Context `{Crc64, Blake3, Lz4Flex, DiskBudgetAdmission} {RD : ReadDir}.
Context (lane : Lane) (limits : Limits) (acks : list Ack) (w : World) (fs : list (list byte)) (requested : Z) (gate : AppendGate) (faults : list Fault).
Abbreviation run := (append_inner lane limits fs requested gate w faults).

Lemma step_append_run r : run.2 = Ok r ->
  lane_step lane limits (acks, Up w) (open_acks (covers gate requested) acks ++ frame_acks limits (covers gate requested) fs, Up run.1.1.2).
Proof. intros Hr. destruct run as [[[tr w'] rest] r'] eqn:E. cbn in *. subst r'. by eapply step_append. Qed.

Lemma step_fail_run e : run.2 = Err e -> lane_step lane limits (acks, Up w) (open_acks (covers gate requested) acks, Up run.1.1.2).
Proof. intros Hr. destruct run as [[[tr w'] rest] r'] eqn:E. cbn in *. subst r'. by eapply step_fail. Qed.

(** The last disk but one of the run. *)
Definition last_but_one : LaneDisk := default (disk w) (last (removelast run.1.1.1)).

Lemma step_crash_run n : lane_step lane limits (acks, Up w) (open_acks (covers gate requested) acks, Down (crash_image n last_but_one)).
Proof.
  unfold last_but_one. destruct run as [[[tr w'] rest] r] eqn:E. cbn [fst snd].
  eapply step_crash; [exact E| |apply crash_image_crash]. destruct (last (removelast tr)) as [d|] eqn:El; [|by left]. right.
  destruct tr as [|x tr]; [done|]. apply last_Some in El as [l El]. rewrite (app_removelast_last x) by done. rewrite El, !elem_of_app. left. right. by left.
Qed.
End Steps.

Import Concrete.

(** [read_dir] that lists by the last sequence of a chunk. *)
Definition chunk_le (a b : str * nat) : Prop := chunk_key a <= chunk_key b.
#[local] Instance chunk_le_dec : RelDecision chunk_le := fun a b => Z_le_dec (chunk_key a) (chunk_key b).
#[local] Instance chunk_le_total : Total chunk_le.
Proof. intros a b. unfold chunk_le. lia. Qed.
#[local] Instance chunk_le_trans : Transitive chunk_le.
Proof. intros a b c. unfold chunk_le. lia. Qed.

#[local] Instance ordered_dir : ReadDir := {|
  read_dir d := merge_sort chunk_le d;
  read_dir_perm d := merge_sort_Permutation chunk_le d
|}.
#[local] Instance ordered_dir_ordered : OrderedReadDir.
Proof.
  intros d. change (read_dir d) with (merge_sort chunk_le d).
  induction (StronglySorted_merge_sort chunk_le d) as [|a l _ IH Ha]; cbn [map]; constructor; [done|]. by apply Forall_map.
Qed.
#[local] Instance every_admission : DiskBudgetAdmission := fun _ => Ok tt.

Definition demo_frame (n : Z) : list byte := Frame.encoded (frame_of (with_node_sequence frame n)).
Definition demo_accounts : DiskAccounting := MkAccounting (MkDiskReservation (MkBudget 1000000 0) 0) (fun _ => Some 0) (fun _ => None).
Definition demo_world (d : LaneDisk) : World := MkWorld d None 0 (Some 0) demo_accounts.
Definition demo_empty : World := demo_world (MkDisk [] None [] None None).

(** An append without a grant, on a node that takes new roles. *)
Definition open_gate : AppendGate := MkGate (Ok tt) (Ok tt) None (Ok tt) false.

(** Frames 1 and 2 are appended. *)
Abbreviation first_append := (append_inner demo_lane limits_default [demo_frame 1; demo_frame 2] 0 open_gate demo_empty []).
Definition first_world : World := first_append.1.1.2.
Definition first_acks : list Ack := open_acks 0 [] ++ frame_acks limits_default 0 [demo_frame 1; demo_frame 2].
(** Frame 3 is appended with sequence 1 covered; the write of it fails after 70 bytes. *)
Definition write_fault : list Fault := replicate 25 Healthy ++ [Failing 70].
Abbreviation second_append := (append_inner demo_lane limits_default [demo_frame 3] 1 open_gate first_world write_fault).
Definition second_world : World := second_append.1.1.2.
Definition second_acks : list Ack := open_acks 1 first_acks.
(** It is appended again. *)
Abbreviation third_append := (append_inner demo_lane limits_default [demo_frame 3] 1 open_gate second_world []).
(** The disk before frame 3 is synced, of which 70 bytes survive the crash. *)
Definition torn_disk : LaneDisk := crash_image 70 (last_but_one demo_lane limits_default second_world [demo_frame 3] 1 open_gate []).

Lemma demo_limits : max_capture_bytes limits_default + 300 <= u64_max.
Proof. vm_compute. discriminate. Qed.

Lemma demo_empty_lane : empty_lane demo_empty.
Proof. by split_and!. Qed.

Lemma first_history : rtc (lane_step demo_lane limits_default) ([], Up demo_empty) (first_acks, Up first_world).
Proof.
  assert (first_append.2 = Ok (MkReceipt 1 2)) as Hr by (vm_compute; reflexivity).
  exact (rtc_once _ _ (step_append_run demo_lane limits_default [] demo_empty [demo_frame 1; demo_frame 2] 0 open_gate [] _ Hr)).
Qed.

Lemma second_history : rtc (lane_step demo_lane limits_default) ([], Up demo_empty) (second_acks, Up second_world).
Proof.
  assert (second_append.2 = Err LaneErr.Io) as Hr by (vm_compute; reflexivity).
  exact (rtc_r _ _ _ first_history (step_fail_run demo_lane limits_default first_acks first_world [demo_frame 3] 1 open_gate write_fault _ Hr)).
Qed.

Lemma torn_history : rtc (lane_step demo_lane limits_default) ([], Up demo_empty) (open_acks 1 second_acks, Down torn_disk).
Proof. exact (rtc_r _ _ _ second_history (step_crash_run demo_lane limits_default second_acks second_world [demo_frame 3] 1 open_gate [] 70)). Qed.

Lemma acknowledged_frames_survive_witness :
  (2, blake3 (demo_frame 2)) ∈ open_acks 1 second_acks
  /\ exists trace w' found, restart demo_lane limits_default (demo_world torn_disk) [] = (trace, w', [], Ok (Some found))
       /\ Forall (fun a => a ∈ body_digests found) (open_acks 1 second_acks)
       /\ Forall (valid demo_lane limits_default) found /\ in_order found.
Proof.
  split; [apply (bool_decide_unpack _); vm_compute; exact I|].
  exact (acknowledged_frames_survive demo_lane limits_default demo_limits demo_empty (open_acks 1 second_acks) torn_disk (demo_world torn_disk)
    demo_empty_lane torn_history (conj eq_refl eq_refl)).
Defined.

Lemma append_stores_every_frame_witness : exists bodies m, Forall (valid demo_lane limits_default) bodies /\ in_order bodies
  /\ (forall d w1, disk_crash (disk third_append.1.1.2) d -> started d w1 ->
        exists trace w2 found, restart demo_lane limits_default w1 [] = (trace, w2, [], Ok (Some found)) /\ Forall (fun b => b ∈ found) bodies)
  /\ memory third_append.1.1.2 = Some m /\ digests (records m) = body_digests bodies
  /\ Forall (answered demo_lane limits_default 1 bodies) [demo_frame 3]
  /\ Forall (fun a => a ∈ body_digests bodies) (open_acks 1 second_acks) /\ MkReceipt 2 3 = receipt_of 1 bodies.
Proof.
  assert (third_append.2 = Ok (MkReceipt 2 3)) as Hr by (vm_compute; reflexivity).
  apply (append_stores_every_frame demo_lane limits_default demo_limits demo_empty second_acks second_world [demo_frame 3] 1 open_gate []
    third_append.1.1.1 third_append.1.1.2 third_append.1.2 (MkReceipt 2 3) demo_empty_lane second_history).
  rewrite <- Hr. by destruct third_append as [[[? ?] ?] ?].
Defined.

(** ** A crash while a lane is sealed *)

Abbreviation first_seal := (seal_sync demo_lane limits_default first_world []).
(** The marker exists and its bytes are not synced. *)
Definition unsynced_seal (d : LaneDisk) : bool := is_some_and (fun f => negb (len (pending f) =? 0)) (FollowerDisk.sealed d).
Definition seal_disk : LaneDisk := default (disk first_world) (List.find unsynced_seal first_seal.1.1.1).

(** Sealing is not safe in this way: [seal_sync] writes the marker in place, so that a crash
    before its sync can leave a marker without its eight bytes, and the next startup
    quarantines the lane with the frames 1 and 2 that were acknowledged. *)
Theorem torn_seal_quarantines :
  rtc (lane_step demo_lane limits_default) ([], Up demo_empty) (first_acks, Up first_world)
  /\ first_seal.2 = Ok (MkReceipt 1 2)
  /\ seal_disk ∈ first_seal.1.1.1 /\ disk_crash seal_disk (crash_image 0 seal_disk)
  /\ (restart demo_lane limits_default (demo_world (crash_image 0 seal_disk)) []).2 = Ok None.
Proof.
  split_and!.
  - exact first_history.
  - vm_compute. reflexivity.
  - apply found_elem. vm_compute. discriminate.
  - apply crash_image_crash.
  - vm_compute. reflexivity.
Qed.

(** ** Chunks listed out of order *)

(** [read_dir] that lists the newest entry first. *)
Definition newest_first : ReadDir := {| read_dir d := rev d; read_dir_perm d := symmetry (Permutation_rev d) |}.

Definition demo_bodies : list Body := [(1, demo_frame 1); (2, demo_frame 2); (3, demo_frame 3)].
(** Three closed chunks of one frame each. *)
Definition three_chunks : World := demo_world (MkDisk (map (fun b => MkFile (log [b]) []) demo_bodies)
  (Some (imap (fun i b => (chunk_of [b], i)) demo_bodies)) [] None None).

Lemma closed_single fs i b : fs !! i = Some (MkFile (log [b]) []) -> (len (log [b]) <=? u64_max) = true -> closed_entry fs (chunk_of [b], i) [b].
Proof. intros Hf Hl%Z.leb_le. by split_and!. Qed.

Lemma valid_all bs : forallb (valid_body demo_lane limits_default) bs = true -> Forall (valid demo_lane limits_default) bs.
Proof. intros Hb. rewrite forallb_forall in Hb. apply Forall_forall. intros b Hin. apply Hb. by apply list_elem_of_In. Qed.

Lemma three_chunks_safe : disk_safe demo_lane limits_default [(3, demo_frame 3)] (disk three_chunks).
Proof.
  split; [|done]. apply Forall_singleton.
  exists (imap (fun i b => (chunk_of [b], i)) demo_bodies), (map (fun b => [b]) demo_bodies), None, [], [], [].
  split_and!; [|done|done|apply Forall_singleton; do 2 right; by left]. constructor.
  - done.
  - apply (bool_decide_unpack _). vm_compute. exact I.
  - apply (bool_decide_unpack _). vm_compute. exact I.
  - apply (bool_decide_unpack _). vm_compute. exact I.
  - do 3 (apply Forall2_cons; split; [apply closed_single; [reflexivity|vm_compute; reflexivity]|]). apply Forall2_nil_2.
  - done.
  - apply sublist_nil_l.
  - apply valid_all. vm_compute. reflexivity.
  - by cbn.
  - vm_compute. discriminate.
Qed.

Lemma three_chunks_ready : lane_ready demo_lane limits_default [(3, demo_frame 3)] three_chunks.
Proof. apply recovered_ready. split_and!; [exact three_chunks_safe|done|done|]. intros dir [= <-]. by vm_compute. Qed.

Section Unordered.
Local Existing Instance newest_first.

(** The append of frame 4 with sequence 2 covered, from the three chunks. *)
Abbreviation fourth_append := (append_inner demo_lane limits_default [demo_frame 4] 2 open_gate three_chunks []).
Definition one_removed (d : LaneDisk) : bool := is_some_and (fun dir => len dir =? 2) (chunks d).
Definition gap_disk : LaneDisk := default (disk three_chunks) (List.find one_removed fourth_append.1.1.1).

(** The order in which [read_dir] lists the chunks matters. Take a lane that holds the
    frames 1, 2 and 3 in three closed chunks (set up by hand and far smaller than the chunks
    a rotation closes), and an append that reports that sequence 2 is covered. If the
    listing has the chunk of frame 2 before that of frame 1, the first disk that pruning
    leaves has the chunks of frames 1 and 3: a crash there makes the next startup
    quarantine the lane, and the uncovered frame 3 with it. *)
Theorem unordered_prune_quarantines :
  lane_ready demo_lane limits_default [(3, demo_frame 3)] three_chunks
  /\ fourth_append.2 = Ok (MkReceipt 3 4)
  /\ gap_disk ∈ fourth_append.1.1.1 /\ disk_crash gap_disk (crash_image 0 gap_disk)
  /\ (restart demo_lane limits_default (demo_world (crash_image 0 gap_disk)) []).2 = Ok None.
Proof.
  split_and!.
  - exact three_chunks_ready.
  - vm_compute. reflexivity.
  - apply found_elem. vm_compute. discriminate.
  - apply crash_image_crash.
  - vm_compute. reflexivity.
Qed.
End Unordered.
