(* ===== verification/Wire.v ===== *)
(** * Wire: the bounded canonical codec of Cell, peer and client messages

    Models [crates/cellule-runtime/src/codec.rs]: [BoundedEncoder],
    [BoundedDecoder], the [WireValue] trait as the class [WireValue] and its
    implementations as instances. [WireLaws] is the contract by which one
    implementation relies on another: one canonical byte string per value, written by
    the encoder exactly when it fits the limit and accepted by the decoder as the only
    encoding of the value. Every implementation of the file discharges it, options
    against the contract of what they hold; [WireType] names these implementations,
    [format] writes their bytes out, and the theorem is about all of them. The
    implementations of the trait for message types, in the files of these messages, are
    not modelled.

    An [f64] is its bit pattern. *)

From Stdlib Require Import ZArith Lia.
From Stdlib Require Import Strings.Byte.
From stdpp Require Import base list strings.
From S2P Require Import Prelude Identity.

Local Open Scope bool_scope.

Module CodecError.
(*@ codec.rs 7-17 CodecError *)
Inductive CodecError :=
| Invalid (message : string)
| Limit
| Utf8.
End CodecError.
Abbreviation CodecError := CodecError.CodecError.
Abbreviation CResult := (result CodecError).

Global Instance CodecError_eq_dec : EqDecision CodecError.
Proof. solve_decision. Defined.

(*@ codec.rs 3-3 MAX_WIRE_BYTES *)
Definition MAX_WIRE_BYTES : Z := 4 * 1024 * 1024 + 64 * 1024.

Definition len {A} (l : list A) : Z := Z.of_nat (length l).

(** ** Encoder *)

(*@ codec.rs 28-31 BoundedEncoder *)
Record BoundedEncoder := MkEncoder { enc_bytes : list byte; enc_limit : Z }.

(*@ codec.rs 36-45 BoundedEncoder::new *)
Definition encoder_new (limit : Z) : CResult BoundedEncoder :=
  if (limit =? 0) || (MAX_WIRE_BYTES <? limit) then Err CodecError.Limit
  else Ok (MkEncoder [] limit).

(*@ codec.rs 107-117 BoundedEncoder::extend *)
Definition extend (e : BoundedEncoder) (value : list byte) : CResult BoundedEncoder :=
  _ ← ok_or (match checked_add_u64 (len (enc_bytes e)) (len value) with
             | Some fin => if fin <=? enc_limit e then Some fin else None
             | None => None
             end) CodecError.Limit;
  Ok (MkEncoder (enc_bytes e ++ value) (enc_limit e)).

(*@ codec.rs 53-55 BoundedEncoder::write_u8 *)
Definition write_u8 (e : BoundedEncoder) (value : byte) : CResult BoundedEncoder :=
  extend e [value].

(*@ codec.rs 48-50 BoundedEncoder::write_bool *)
Definition write_bool (e : BoundedEncoder) (value : bool) : CResult BoundedEncoder :=
  write_u8 e (if value then x01 else x00).

(*@ codec.rs 58-60 BoundedEncoder::write_u32 *)
Definition write_u32 (e : BoundedEncoder) (value : Z) : CResult BoundedEncoder :=
  extend e (to_be 4 value).

(*@ codec.rs 63-65 BoundedEncoder::write_u64 *)
Definition write_u64 (e : BoundedEncoder) (value : Z) : CResult BoundedEncoder :=
  extend e (to_be 8 value).

(** Two's complement bits of an [i64]; [byte_of] reduces modulo 256, so the
    big-endian bytes of a negative value are those of its bit pattern. *)
(*@ codec.rs 68-70 BoundedEncoder::write_i64 *)
Definition write_i64 (e : BoundedEncoder) (value : Z) : CResult BoundedEncoder :=
  extend e (to_be 8 value).

(** [f64::is_finite] and [value == 0.0] on the bit pattern. *)
Definition f64_is_finite (bits : Z) : bool := negb (Z.land (Z.shiftr bits 52) 2047 =? 2047).
Definition f64_is_zero (bits : Z) : bool := Z.land bits (2 ^ 63 - 1) =? 0.
Definition f64_neg_zero : Z := 2 ^ 63.

(*@ codec.rs 73-79 BoundedEncoder::write_f64 *)
Definition write_f64 (e : BoundedEncoder) (bits : Z) : CResult BoundedEncoder :=
  if negb (f64_is_finite bits) then Err (CodecError.Invalid "non-finite f64")
  else
    let normalized := if f64_is_zero bits then 0 else bits in
    extend e (to_be 8 normalized).

(*@ codec.rs 82-86 BoundedEncoder::write_bytes *)
Definition write_bytes (e : BoundedEncoder) (value : list byte) : CResult BoundedEncoder :=
  if u32_max <? len value then Err CodecError.Limit
  else
    e ← write_u32 e (len value);
    extend e value.

(*@ codec.rs 89-91 BoundedEncoder::write_text *)
Definition write_text (e : BoundedEncoder) (value : str) : CResult BoundedEncoder :=
  write_bytes e value.

(*@ codec.rs 94-96 BoundedEncoder::write_count *)
Definition write_count (e : BoundedEncoder) (count : Z) : CResult BoundedEncoder :=
  if u32_max <? count then Err CodecError.Limit else write_u32 e count.

(** ** Decoder *)

(*@ codec.rs 121-124 BoundedDecoder *)
Record BoundedDecoder := MkDecoder { dec_bytes : list byte; position : nat }.

(*@ codec.rs 129-135 BoundedDecoder::new *)
Definition decoder_new (bytes : list byte) (limit : Z) : CResult BoundedDecoder :=
  if (limit =? 0) || (MAX_WIRE_BYTES <? limit) || (limit <? len bytes) then Err CodecError.Limit
  else Ok (MkDecoder bytes 0).

(*@ codec.rs 213-222 BoundedDecoder::take *)
Definition dec_take (d : BoundedDecoder) (length : Z) : CResult (list byte * BoundedDecoder) :=
  fin ← ok_or (match checked_add_u64 (Z.of_nat (position d)) length with
               | Some fin => if fin <=? len (dec_bytes d) then Some fin else None
               | None => None
               end) (CodecError.Invalid "truncated wire value");
  Ok (take (Z.to_nat fin - position d) (drop (position d) (dec_bytes d)),
      MkDecoder (dec_bytes d) (Z.to_nat fin)).

(*@ codec.rs 147-149 BoundedDecoder::read_u8 *)
Definition read_u8 (d : BoundedDecoder) : CResult (byte * BoundedDecoder) :=
  '(bs, d) ← dec_take d 1;
  b ← ok_or (bs !! 0%nat) (CodecError.Invalid "index out of bounds");
  Ok (b, d).

(*@ codec.rs 138-144 BoundedDecoder::read_bool *)
Definition read_bool (d : BoundedDecoder) : CResult (bool * BoundedDecoder) :=
  '(b, d) ← read_u8 d;
  if byte_val b =? 0 then Ok (false, d)
  else if byte_val b =? 1 then Ok (true, d)
  else Err (CodecError.Invalid "invalid bool tag").

(*@ codec.rs 152-158 BoundedDecoder::read_u32 *)
Definition read_u32 (d : BoundedDecoder) : CResult (Z * BoundedDecoder) :=
  '(bs, d) ← dec_take d 4;
  bytes ← ok_or (array_of 4 bs) (CodecError.Invalid "truncated u32");
  Ok (from_be (as_bytes bytes), d).

(*@ codec.rs 161-167 BoundedDecoder::read_u64 *)
Definition read_u64 (d : BoundedDecoder) : CResult (Z * BoundedDecoder) :=
  '(bs, d) ← dec_take d 8;
  bytes ← ok_or (array_of 8 bs) (CodecError.Invalid "truncated u64");
  Ok (from_be (as_bytes bytes), d).

(** [i64::from_be_bytes]: the bit pattern reinterpreted as two's complement. *)
Definition signed64 (bits : Z) : Z := if bits <=? i64_max then bits else bits - (u64_max + 1).

(*@ codec.rs 170-176 BoundedDecoder::read_i64 *)
Definition read_i64 (d : BoundedDecoder) : CResult (Z * BoundedDecoder) :=
  '(bs, d) ← dec_take d 8;
  bytes ← ok_or (array_of 8 bs) (CodecError.Invalid "truncated i64");
  Ok (signed64 (from_be (as_bytes bytes)), d).

(*@ codec.rs 180-186 BoundedDecoder::read_f64 *)
Definition read_f64 (d : BoundedDecoder) : CResult (Z * BoundedDecoder) :=
  '(bits, d) ← read_u64 d;
  if negb (f64_is_finite bits) || (bits =? f64_neg_zero)
  then Err (CodecError.Invalid "noncanonical f64")
  else Ok (bits, d).

(*@ codec.rs 189-193 BoundedDecoder::read_bytes *)
Definition read_bytes (d : BoundedDecoder) : CResult (list byte * BoundedDecoder) :=
  '(length, d) ← read_u32 d;
  dec_take d length.

(** [std::str::from_utf8]: well-formed UTF-8 by its table of lead bytes. *)
Definition in_range (lo hi : Z) (b : byte) : bool := (lo <=? byte_val b) && (byte_val b <=? hi).
Definition continuation : byte -> bool := in_range 128 191.

Fixpoint utf8_valid (s : list byte) : bool :=
  match s with
  | [] => true
  | b0 :: s1 =>
      if in_range 0 127 b0 then utf8_valid s1
      else match s1 with
      | [] => false
      | b1 :: s2 =>
          if in_range 194 223 b0 then continuation b1 && utf8_valid s2
          else match s2 with
          | [] => false
          | b2 :: s3 =>
              if in_range 224 239 b0 then
                (if in_range 224 224 b0 then in_range 160 191 b1
                 else if in_range 237 237 b0 then in_range 128 159 b1
                 else continuation b1)
                && continuation b2 && utf8_valid s3
              else match s3 with
              | [] => false
              | b3 :: s4 =>
                  in_range 240 244 b0
                  && (if in_range 240 240 b0 then in_range 144 191 b1
                      else if in_range 244 244 b0 then in_range 128 143 b1
                      else continuation b1)
                  && continuation b2 && continuation b3 && utf8_valid s4
              end
          end
      end
  end.

(*@ codec.rs 196-198 BoundedDecoder::read_text *)
Definition read_text (d : BoundedDecoder) : CResult (str * BoundedDecoder) :=
  '(bs, d) ← read_bytes d;
  if utf8_valid bs then Ok (bs, d) else Err CodecError.Utf8.

(*@ codec.rs 201-203 BoundedDecoder::read_count *)
Definition read_count (d : BoundedDecoder) : CResult (Z * BoundedDecoder) := read_u32 d.

(*@ codec.rs 206-211 BoundedDecoder::finish *)
Definition dec_finish (d : BoundedDecoder) : CResult unit :=
  if negb (position d =? length (dec_bytes d))%nat
  then Err (CodecError.Invalid "trailing wire bytes") else Ok tt.

(*@ codec.rs 304-312 read_fixed *)
Definition read_fixed (N : nat) (d : BoundedDecoder) (message : string)
  : CResult (array N * BoundedDecoder) :=
  '(bs, d) ← read_bytes d;
  a ← ok_or (array_of N bs) (CodecError.Invalid message);
  Ok (a, d).

(** ** The [WireValue] trait *)

(*@ codec.rs 20-25 WireValue *)
Class WireValue (A : Type) := {
  wencode : A -> BoundedEncoder -> CResult BoundedEncoder;
  wdecode : BoundedDecoder -> CResult (A * BoundedDecoder)
}.

(*@ codec.rs 328-332 encode_wire *)
Definition encode_wire {A} `{WireValue A} (value : A) (limit : Z) : CResult (list byte) :=
  e ← encoder_new limit;
  e ← wencode value e;
  Ok (enc_bytes e).

(*@ codec.rs 296-301 decode_wire *)
Definition decode_wire {A} `{WireValue A} (input : list byte) (limit : Z) : CResult A :=
  d ← decoder_new input limit;
  '(value, d) ← wdecode d;
  _ ← dec_finish d;
  Ok value.

(** The integer types of the source as distinct types. *)
Record u32 := U32 { u32_val : Z }.
Record u64 := U64 { u64_val : Z }.
Record i64 := I64 { i64_val : Z }.
Record f64 := F64 { f64_bits : Z }.
(** An owned [String]; its bytes are UTF-8 by the type's own invariant. *)
Record String_ := MkString { string_bytes : str; string_utf8 : utf8_valid string_bytes = true }.

Definition map_fst {A B C} (f : A -> B) (r : CResult (A * C)) : CResult (B * C) :=
  '(a, c) ← r; Ok (f a, c).

(*@ codec.rs 239-239 fixed_wire!(bool) *)
Global Instance wire_bool : WireValue bool :=
  {| wencode v e := write_bool e v; wdecode := read_bool |}.
(*@ codec.rs 240-240 fixed_wire!(u8) *)
Global Instance wire_u8 : WireValue byte :=
  {| wencode v e := write_u8 e v; wdecode := read_u8 |}.
(*@ codec.rs 241-241 fixed_wire!(u32) *)
Global Instance wire_u32 : WireValue u32 :=
  {| wencode v e := write_u32 e (u32_val v); wdecode d := map_fst U32 (read_u32 d) |}.
(*@ codec.rs 242-242 fixed_wire!(u64) *)
Global Instance wire_u64 : WireValue u64 :=
  {| wencode v e := write_u64 e (u64_val v); wdecode d := map_fst U64 (read_u64 d) |}.
(*@ codec.rs 243-243 fixed_wire!(i64) *)
Global Instance wire_i64 : WireValue i64 :=
  {| wencode v e := write_i64 e (i64_val v); wdecode d := map_fst I64 (read_i64 d) |}.
(*@ codec.rs 244-244 fixed_wire!(f64) *)
Global Instance wire_f64 : WireValue f64 :=
  {| wencode v e := write_f64 e (f64_bits v); wdecode d := map_fst F64 (read_f64 d) |}.
(*@ codec.rs 246-254 WireValue for Vec<u8> *)
Global Instance wire_bytes : WireValue (list byte) :=
  {| wencode v e := write_bytes e v; wdecode := read_bytes |}.

Definition string_of (s : str) : option String_ :=
  match decide (utf8_valid s = true) with
  | left H => Some (MkString s H)
  | right _ => None
  end.
(*@ codec.rs 256-264 WireValue for String *)
Global Instance wire_string : WireValue String_ :=
  {| wencode v e := write_text e (string_bytes v);
     wdecode d := '(s, d) ← read_text d;
                  s ← ok_or (string_of s) CodecError.Utf8; Ok (s, d) |}.
(*@ codec.rs 266-284 WireValue for Option<T> *)
Global Instance wire_option {A} `{WireValue A} : WireValue (option A) :=
  {| wencode v e := match v with
                    | None => write_u8 e x00
                    | Some value => e ← write_u8 e x01; wencode value e
                    end;
     wdecode d := '(b, d) ← read_u8 d;
                  if byte_val b =? 0 then Ok (None, d)
                  else if byte_val b =? 1 then '(v, d) ← wdecode d; Ok (Some v, d)
                  else Err (CodecError.Invalid "invalid option tag") |}.
(*@ codec.rs 286-294 WireValue for () *)
Global Instance wire_unit : WireValue unit :=
  {| wencode _ e := Ok e; wdecode d := Ok (tt, d) |}.

(** ** Segments written and read

    [writes e seg e'] and [reads d seg d'] describe a successful operation by
    the bytes it appends or consumes. *)

Definition encoder_wf (e : BoundedEncoder) : Prop :=
  len (enc_bytes e) <= enc_limit e /\ enc_limit e <= u64_max.
Definition decoder_wf (d : BoundedDecoder) : Prop :=
  (position d <= length (dec_bytes d))%nat /\ len (dec_bytes d) <= u64_max.

Definition writes (e : BoundedEncoder) (seg : list byte) (e' : BoundedEncoder) : Prop :=
  e' = MkEncoder (enc_bytes e ++ seg) (enc_limit e) /\ len (enc_bytes e ++ seg) <= enc_limit e.

Definition reads (d : BoundedDecoder) (seg : list byte) (d' : BoundedDecoder) : Prop :=
  d' = MkDecoder (dec_bytes d) (position d + length seg) /\
  take (length seg) (drop (position d) (dec_bytes d)) = seg /\
  (position d + length seg <= length (dec_bytes d))%nat.

Lemma len_append {A} (a b : list A) : len (a ++ b) = len a + len b.
Proof. unfold len. rewrite length_app. lia. Qed.

Lemma extend_Ok e seg e' : encoder_wf e -> extend e seg = Ok e' <-> writes e seg e'.
Proof.
  unfold encoder_wf, extend, writes, checked_add_u64. rewrite len_append. intros [_ Hw].
  destruct (Z.leb_spec (len (enc_bytes e) + len seg) u64_max) as [H|H]; simpl.
  - destruct (Z.leb_spec (len (enc_bytes e) + len seg) (enc_limit e)); simpl.
    + split; [by intros [= <-]|by intros [-> _]].
    + split; [done|lia].
  - split; [done|lia].
Qed.

Lemma writes_wf e seg e' : encoder_wf e -> writes e seg e' -> encoder_wf e'.
Proof. by intros [_ H] [-> Hl]. Qed.

Lemma writes_app e a b e' :
  writes e (a ++ b) e' <-> exists m, writes e a m /\ writes m b e'.
Proof.
  unfold writes. rewrite app_assoc. split.
  - intros [-> H]. eexists; split; [split; [done|]|done].
    rewrite (len_append _ b) in H. unfold len in *. lia.
  - intros (m & [-> Hm] & [-> H]). done.
Qed.

Lemma dec_take_Ok d n seg d' :
  decoder_wf d -> 0 <= n ->
  dec_take d n = Ok (seg, d') <-> reads d seg d' /\ len seg = n.
Proof.
  unfold decoder_wf, dec_take, reads, checked_add_u64, len. intros [_ Hw] Hn.
  split.
  - intros (fin & Hf%ok_or_Ok & [= <- <-])%bind_Ok.
    repeat case_match; simplify_eq. guards.
    assert (length (take (Z.to_nat (Z.of_nat (position d) + n) - position d)
                      (drop (position d) (dec_bytes d))) = Z.to_nat n) as El
      by (rewrite length_take, length_drop; lia).
    rewrite El. split_and!; [f_equal; lia|f_equal; lia|lia|lia].
  - intros [(-> & Hs & Hle) <-].
    destruct (Z.leb_spec (Z.of_nat (position d) + Z.of_nat (length seg)) u64_max); [|lia].
    destruct (Z.leb_spec (Z.of_nat (position d) + Z.of_nat (length seg))
                (Z.of_nat (length (dec_bytes d)))); [|lia].
    simpl. do 2 f_equal; [|f_equal; lia].
    replace (Z.to_nat _ - position d)%nat with (length seg) by lia. done.
Qed.

Lemma reads_wf d seg d' : decoder_wf d -> reads d seg d' -> decoder_wf d'.
Proof. by intros [_ H] (-> & _ & Hl). Qed.

Lemma reads_app d a b d' :
  reads d (a ++ b) d' <-> exists m, reads d a m /\ reads m b d'.
Proof.
  unfold reads. rewrite length_app. split.
  - intros (-> & Hs & Hle). eexists; split; [split_and!; [done| |lia]|].
    + apply (f_equal (take (length a))) in Hs. rewrite take_take, take_app_length in Hs.
      by rewrite Nat.min_l in Hs by lia.
    + simpl. split_and!; [f_equal; lia| |lia].
      apply (f_equal (drop (length a))) in Hs. rewrite drop_app_length in Hs.
      rewrite <- Hs at 2. rewrite skipn_firstn_comm, drop_drop.
      by replace (length a + length b - length a)%nat with (length b) by lia.
  - intros (m & (-> & Ha & Hla) & (-> & Hb & Hlb)). simpl in *.
    split_and!; [f_equal; lia| |lia].
    rewrite <- Ha at 2. rewrite <- Hb at 2. rewrite <- drop_drop.
    by rewrite take_take_drop.
Qed.

(** ** The contract of a [WireValue] *)

Class WireLaws (A : Type) `{WireValue A} := {
  (** the values of the Rust type, where the model's type is wider *)
  wire_ok : A -> Prop;
  (** the values the encoder accepts *)
  encodable : A -> Prop;
  (** Rust's [==] on the type *)
  wire_eq : relation A;
  canonical : A -> list byte;
  wencode_Ok v e e' :
    wire_ok v -> encoder_wf e ->
    wencode v e = Ok e' <-> encodable v /\ writes e (canonical v) e';
  wdecode_complete v d d' :
    wire_ok v -> encodable v -> decoder_wf d -> reads d (canonical v) d' ->
    exists v', wdecode d = Ok (v', d') /\ wire_eq v' v;
  wdecode_sound v d d' :
    decoder_wf d -> wdecode d = Ok (v, d') ->
    wire_ok v /\ encodable v /\ reads d (canonical v) d'
}.

Lemma encoder_new_Ok limit e :
  encoder_new limit = Ok e <-> (limit <> 0 /\ limit <= MAX_WIRE_BYTES) /\ e = MkEncoder [] limit.
Proof. unfold encoder_new. rewrite reject_Ok. guards. naive_solver. Qed.

Lemma decoder_new_Ok bytes limit d :
  decoder_new bytes limit = Ok d <->
  (limit <> 0 /\ limit <= MAX_WIRE_BYTES) /\ len bytes <= limit /\ d = MkDecoder bytes 0.
Proof. unfold decoder_new. rewrite reject_Ok. guards. naive_solver. Qed.

Lemma max_wire_u64 : MAX_WIRE_BYTES <= u64_max.
Proof. by vm_compute. Qed.

Section Contract.
Context {A} `{WireLaws A}.

Lemma encode_wire_Ok v limit b :
  wire_ok v -> 0 <= limit ->
  encode_wire v limit = Ok b <->
  (limit <> 0 /\ limit <= MAX_WIRE_BYTES) /\ encodable v /\ b = canonical v /\ len b <= limit.
Proof.
  intros Hok Hpos. unfold encode_wire. pose proof max_wire_u64. split.
  - intros (e & [Hl ->]%encoder_new_Ok & (e' & He & [= <-])%bind_Ok)%bind_Ok.
    apply wencode_Ok in He as [Henc [-> Hle]]; [done..|unfold encoder_wf, len; simpl; lia].
  - intros (Hl & Henc & -> & Hle). apply bind_Ok. exists (MkEncoder [] limit).
    split; [by apply encoder_new_Ok|]. apply bind_Ok.
    exists (MkEncoder ([] ++ canonical v) limit). split; [|done].
    apply wencode_Ok; [done|unfold encoder_wf, len; simpl; lia|]. by repeat split.
Qed.

Lemma decode_wire_sound b limit v :
  decode_wire b limit = Ok v ->
  (limit <> 0 /\ limit <= MAX_WIRE_BYTES) /\ wire_ok v /\ encodable v /\ b = canonical v /\
  len b <= limit.
Proof.
  unfold decode_wire. pose proof max_wire_u64.
  intros (d0 & (Hl & Hb & ->)%decoder_new_Ok & ([v' d] & Hd & Hf)%bind_Ok)%bind_Ok.
  apply bind_Ok in Hf as ([] & [Hp _]%reject_Ok & [= <-]).
  apply wdecode_sound in Hd as (Hok & Henc & -> & Hs & Hle); [|unfold decoder_wf, len in *; simpl; lia].
  apply negb_false_iff, Nat.eqb_eq in Hp. simpl in *. rewrite drop_0 in Hs.
  split_and!; try tauto. by rewrite <- Hs, take_ge by lia.
Qed.

Lemma decode_wire_complete v limit :
  limit <> 0 -> limit <= MAX_WIRE_BYTES -> wire_ok v -> encodable v ->
  len (canonical v) <= limit ->
  exists v', decode_wire (canonical v) limit = Ok v' /\ wire_eq v' v.
Proof.
  intros Hz Hl Hok Henc Hle. pose proof max_wire_u64.
  destruct (wdecode_complete v (MkDecoder (canonical v) 0)
              (MkDecoder (canonical v) (length (canonical v)))) as (v' & Hd & He); try done.
  - unfold decoder_wf, len in *; simpl. lia.
  - split_and!; [done| |simpl; lia]. simpl. by rewrite drop_0, take_ge.
  - exists v'. split; [|done]. unfold decode_wire.
    rewrite (proj2 (decoder_new_Ok _ _ _)) by (split_and!; reflexivity || done). simpl.
    rewrite Hd. simpl. unfold dec_finish. simpl. by rewrite Nat.eqb_refl.
Qed.
End Contract.

(** ** The implementations *)

Lemma byte_val_x00 b : (byte_val b =? 0) = true <-> b = x00.
Proof. split; [|by intros ->]. rewrite Z.eqb_eq. intros E. by apply byte_val_inj. Qed.
Lemma byte_val_x01 b : (byte_val b =? 1) = true <-> b = x01.
Proof. split; [|by intros ->]. rewrite Z.eqb_eq. intros E. by apply byte_val_inj. Qed.

Lemma read_u8_Ok d b d' :
  decoder_wf d -> read_u8 d = Ok (b, d') <-> reads d [b] d'.
Proof.
  intros Hw. unfold read_u8. split.
  - intros ([bs d1] & Ht & (b' & Hb%ok_or_Ok & [= -> ->])%bind_Ok)%bind_Ok.
    apply dec_take_Ok in Ht as [Hr Hl]; [|done..].
    destruct bs as [|x [|y bs]]; unfold len in Hl; simpl in *; [lia| |lia]. congruence.
  - intros Hr. apply bind_Ok. exists ([b], d'). split; [by apply dec_take_Ok|done].
Qed.

(** The shape shared by the fixed-width integer readers. *)
Lemma read_be_Ok n d (msg : CodecError) v d' :
  decoder_wf d ->
  ('(bs, d) ← dec_take d (Z.of_nat n);
   a ← ok_or (array_of n bs) msg; Ok (from_be (as_bytes a), d)) = Ok (v, d')
  <-> reads d (to_be n v) d' /\ 0 <= v < 256 ^ Z.of_nat n.
Proof.
  intros Hw. split.
  - intros ([bs d1] & Ht & (a & Ha%ok_or_Ok & [= <- ->])%bind_Ok)%bind_Ok.
    apply dec_take_Ok in Ht as [Hr Hl]; [|done|lia].
    pose proof (from_be_bound (as_bytes a)) as Hb. pose proof (to_from_be (as_bytes a)) as E.
    rewrite (as_bytes_length a) in Hb, E. rewrite E. apply array_of_Some in Ha. by rewrite Ha in *.
  - intros [Hr Hv]. apply bind_Ok. exists (to_be n v, d').
    split; [apply dec_take_Ok; [done|lia|split; [done|unfold len; by rewrite length_to_be]]|].
    rewrite (array_of_as_bytes (Array _ (length_to_be n v)) : array_of n (to_be n v) = _).
    simpl. by rewrite from_to_be_small.
Qed.

Lemma read_u32_Ok d v d' :
  decoder_wf d -> read_u32 d = Ok (v, d') <-> reads d (to_be 4 v) d' /\ u32_ok v.
Proof.
  intros Hw. etransitivity; [exact (read_be_Ok 4 d (CodecError.Invalid "truncated u32") v d' Hw)|].
  unfold u32_ok, u32_max. change (256 ^ Z.of_nat 4) with 4294967296. intuition lia.
Qed.

Lemma read_u64_Ok d v d' :
  decoder_wf d -> read_u64 d = Ok (v, d') <-> reads d (to_be 8 v) d' /\ u64_ok v.
Proof.
  intros Hw. etransitivity; [exact (read_be_Ok 8 d (CodecError.Invalid "truncated u64") v d' Hw)|].
  unfold u64_ok, u64_max. change (256 ^ Z.of_nat 8) with 18446744073709551616. intuition lia.
Qed.

(** The bytes of a word depend only on its residue. *)
Lemma to_be_mod n z z' : z mod 256 ^ Z.of_nat n = z' mod 256 ^ Z.of_nat n -> to_be n z = to_be n z'.
Proof.
  intros H. pose proof (to_from_be (to_be n z)) as E. pose proof (to_from_be (to_be n z')) as E'.
  rewrite length_to_be, from_to_be in E, E'. congruence.
Qed.

Lemma signed64_bits v : i64_ok v -> signed64 (v mod (u64_max + 1)) = v.
Proof.
  unfold i64_ok, signed64, i64_min, i64_max, u64_max. intros H.
  destruct (Z.leb_spec 0 v).
  - rewrite Z.mod_small by lia. case_match eqn:E; guards; lia.
  - replace (v mod (18446744073709551615 + 1)) with (v + 18446744073709551616).
    + case_match eqn:E; guards; lia.
    + symmetry. rewrite <- (Z.mod_unique v (18446744073709551615 + 1) (-1) (v + 18446744073709551616)); lia.
Qed.

Lemma signed64_range bits : u64_ok bits -> i64_ok (signed64 bits) /\ signed64 bits mod (u64_max + 1) = bits.
Proof.
  unfold u64_ok, i64_ok, signed64, i64_min, i64_max, u64_max. intros H.
  case_match eqn:E; guards; (split; [lia|]).
  - apply Z.mod_small; lia.
  - symmetry. apply (Z.mod_unique _ _ (-1)); lia.
Qed.

Lemma read_i64_Ok d v d' :
  decoder_wf d -> read_i64 d = Ok (v, d') <-> reads d (to_be 8 v) d' /\ i64_ok v.
Proof.
  intros Hw. pose proof (fun b d' => read_be_Ok 8 d (CodecError.Invalid "truncated i64") b d' Hw) as HT.
  change (256 ^ Z.of_nat 8) with (u64_max + 1) in HT.
  assert (forall v, to_be 8 (v mod (u64_max + 1)) = to_be 8 v) as Hm
    by (intros; apply to_be_mod; by rewrite Z.mod_mod).
  split.
  - intros ([bs d1] & Ht & (a & Ha & [= <- ->])%bind_Ok)%bind_Ok.
    destruct (proj1 (HT (from_be (as_bytes a)) d')) as [Hr Hb].
    { apply bind_Ok. exists (bs, d'). split; [done|]. by rewrite Ha. }
    destruct (signed64_range (from_be (as_bytes a))) as [Hi Hs]; [unfold u64_ok; lia|].
    split; [|done]. by rewrite <- Hm, Hs.
  - intros [Hr Hv]. rewrite <- Hm in Hr.
    pose proof (Z.mod_pos_bound v (u64_max + 1) eq_refl) as Hb.
    pose proof (proj2 (HT _ _) (conj Hr Hb)) as HR.
    apply bind_Ok in HR as ([bs d1] & Ht & (a & Ha & [= Hf ->])%bind_Ok).
    change (dec_take d 8 = Ok (bs, d')) in Ht.
    unfold read_i64. rewrite Ht. simpl. rewrite Ha. simpl. rewrite Hf.
    by rewrite signed64_bits.
Qed.

Lemma read_bytes_Ok d v d' :
  decoder_wf d ->
  read_bytes d = Ok (v, d') <-> reads d (to_be 4 (len v) ++ v) d' /\ len v <= u32_max.
Proof.
  intros Hw. unfold read_bytes. rewrite bind_Ok, reads_app. split.
  - intros ([n d1] & [Hr Hn]%read_u32_Ok & Ht); [|done]. unfold u32_ok in Hn.
    apply dec_take_Ok in Ht as [Hr' <-]; [|by eapply reads_wf|lia].
    split; [by exists d1|lia].
  - intros [(m & Hr & Hr') Hle]. exists (len v, m). split.
    + apply read_u32_Ok; [done|]. split; [done|]. unfold u32_ok, len in *. lia.
    + apply dec_take_Ok; [by eapply reads_wf|unfold len; lia|done].
Qed.

Lemma write_bytes_Ok e v e' :
  encoder_wf e ->
  write_bytes e v = Ok e' <-> len v <= u32_max /\ writes e (to_be 4 (len v) ++ v) e'.
Proof.
  intros Hw. unfold write_bytes. rewrite reject_Ok, Z.ltb_ge, bind_Ok, writes_app.
  split; intros [Hle (m & H1 & H2)]; (split; [done|exists m]).
  - apply extend_Ok in H1; [|done]. apply extend_Ok in H2; [done|by eapply writes_wf].
  - split; apply extend_Ok; eauto using writes_wf.
Qed.

Lemma string_of_bytes s : string_of (string_bytes s) = Some s.
Proof.
  unfold string_of. destruct s as [b H]; simpl. case_decide as H'; [|done].
  do 2 f_equal. apply eq_pi, _.
Qed.
Lemma string_of_Some b s : string_of b = Some s -> string_bytes s = b.
Proof. unfold string_of. case_decide; naive_solver. Qed.

Lemma map_fst_Ok {X Y C} (f : X -> Y) (r : CResult (X * C)) y c :
  map_fst f r = Ok (y, c) <-> exists x, r = Ok (x, c) /\ y = f x.
Proof. destruct r as [[x c']|]; simpl; naive_solver. Qed.

Global Instance laws_bool : WireLaws bool.
Proof.
  refine {| wire_ok (_ : bool) := True; encodable (_ : bool) := True; wire_eq := eq;
            canonical (b : bool) := [if b then x01 else x00] |}.
  - intros v e e' _ Hw. simpl. unfold write_bool, write_u8. rewrite extend_Ok by done. tauto.
  - intros v d d' _ _ Hw Hr. exists v. split; [|done]. simpl. unfold read_bool.
    apply bind_Ok. exists (if v then x01 else x00, d').
    split; [by apply read_u8_Ok|by destruct v].
  - intros v d d' Hw ([b d1] & Hr & H)%bind_Ok. apply read_u8_Ok in Hr; [|done].
    split_and!; [done..|].
    destruct (byte_val b =? 0) eqn:E0; [apply byte_val_x00 in E0 as ->; by injection H as <- <-|].
    destruct (byte_val b =? 1) eqn:E1; [apply byte_val_x01 in E1 as ->; by injection H as <- <-|].
    done.
Defined.

Global Instance laws_u8 : WireLaws byte.
Proof.
  refine {| wire_ok (_ : byte) := True; encodable (_ : byte) := True; wire_eq := eq; canonical (b : byte) := [b] |}.
  - intros v e e' _ Hw. simpl. unfold write_u8. rewrite extend_Ok by done. tauto.
  - intros v d d' _ _ Hw Hr. exists v. split; [|done]. by apply read_u8_Ok.
  - intros v d d' Hw Hr. apply read_u8_Ok in Hr; [|done]. done.
Defined.

Global Instance laws_u32 : WireLaws u32.
Proof.
  refine {| wire_ok (v : u32) := u32_ok (u32_val v); encodable (_ : u32) := True; wire_eq := eq;
            canonical (v : u32) := to_be 4 (u32_val v) |}.
  - intros v e e' _ Hw. simpl. unfold write_u32. rewrite extend_Ok by done. tauto.
  - intros v d d' Hok _ Hw Hr. exists v. split; [|done]. apply map_fst_Ok. exists (u32_val v).
    split; [by apply read_u32_Ok|by destruct v].
  - intros v d d' Hw (x & Hr & ->)%map_fst_Ok. apply read_u32_Ok in Hr; [|done]. simpl. tauto.
Defined.

Global Instance laws_u64 : WireLaws u64.
Proof.
  refine {| wire_ok (v : u64) := u64_ok (u64_val v); encodable (_ : u64) := True; wire_eq := eq;
            canonical (v : u64) := to_be 8 (u64_val v) |}.
  - intros v e e' _ Hw. simpl. unfold write_u64. rewrite extend_Ok by done. tauto.
  - intros v d d' Hok _ Hw Hr. exists v. split; [|done]. apply map_fst_Ok. exists (u64_val v).
    split; [by apply read_u64_Ok|by destruct v].
  - intros v d d' Hw (x & Hr & ->)%map_fst_Ok. apply read_u64_Ok in Hr; [|done]. simpl. tauto.
Defined.

Global Instance laws_i64 : WireLaws i64.
Proof.
  refine {| wire_ok (v : i64) := i64_ok (i64_val v); encodable (_ : i64) := True; wire_eq := eq;
            canonical (v : i64) := to_be 8 (i64_val v) |}.
  - intros v e e' _ Hw. simpl. unfold write_i64. rewrite extend_Ok by done. tauto.
  - intros v d d' Hok _ Hw Hr. exists v. split; [|done]. apply map_fst_Ok. exists (i64_val v).
    split; [by apply read_i64_Ok|by destruct v].
  - intros v d d' Hw (x & Hr & ->)%map_fst_Ok. apply read_i64_Ok in Hr; [|done]. simpl. tauto.
Defined.

Global Instance laws_bytes : WireLaws (list byte).
Proof.
  refine {| wire_ok (_ : list byte) := True; encodable (v : list byte) := len v <= u32_max; wire_eq := eq;
            canonical (v : list byte) := to_be 4 (len v) ++ v |}.
  - intros v e e' _ Hw. by apply write_bytes_Ok.
  - intros v d d' _ Hle Hw Hr. exists v. split; [|done]. by apply read_bytes_Ok.
  - intros v d d' Hw Hr. apply read_bytes_Ok in Hr; [|done]. tauto.
Defined.

Global Instance laws_string : WireLaws String_.
Proof.
  refine {| wire_ok (_ : String_) := True; encodable (v : String_) := len (string_bytes v) <= u32_max; wire_eq := eq;
            canonical (v : String_) := to_be 4 (len (string_bytes v)) ++ string_bytes v |}.
  - intros v e e' _ Hw. by apply write_bytes_Ok.
  - intros v d d' _ Hle Hw Hr. exists v. split; [|done]. simpl.
    apply bind_Ok. exists (string_bytes v, d'). split.
    + unfold read_text. apply bind_Ok. exists (string_bytes v, d').
      split; [by apply read_bytes_Ok|]. by rewrite (string_utf8 v).
    + by rewrite string_of_bytes.
  - intros v d d' Hw ([s d1] & Hr & (w & Hs%ok_or_Ok & [= -> ->])%bind_Ok)%bind_Ok.
    apply string_of_Some in Hs as <-. apply bind_Ok in Hr as ([bs d2] & Hr & H).
    apply read_bytes_Ok in Hr; [|done]. case_match; [|done]. injection H as -> ->. tauto.
Defined.

Global Instance laws_unit : WireLaws unit.
Proof.
  refine {| wire_ok (_ : unit) := True; encodable (_ : unit) := True; wire_eq := eq; canonical (_ : unit) := [] |}.
  - intros [] e e' _ [Hw _]. simpl. unfold writes. rewrite app_nil_r. destruct e; simpl in *.
    naive_solver.
  - intros [] d d' _ _ Hw (-> & _ & _). exists tt. split; [|done]. simpl.
    rewrite Nat.add_0_r. by destruct d.
  - intros [] d d' [Hw _] [= <-]. split_and!; [done..|]. unfold reads. simpl.
    rewrite Nat.add_0_r. by destruct d.
Defined.

Global Instance laws_option {A} `{WireLaws A} : WireLaws (option A).
Proof.
  refine {| wire_ok (v : option A) := from_option wire_ok True v;
            encodable (v : option A) := from_option encodable True v;
            wire_eq := option_Forall2 wire_eq;
            canonical (v : option A) := match v with None => [x00] | Some v => x01 :: canonical v end |}.
  - intros [v|] e e' Hok Hw; simpl in *; unfold write_u8.
    + change (x01 :: canonical v) with ([x01] ++ canonical v). rewrite writes_app, bind_Ok. split.
      * intros (m & H1%extend_Ok & H2); [|done].
        apply wencode_Ok in H2 as [He H2]; [|done|by eapply writes_wf]. eauto.
      * intros (He & m & H1 & H2). exists m. split; [by apply extend_Ok|].
        apply wencode_Ok; [done|by eapply writes_wf|done].
    + rewrite extend_Ok by done. tauto.
  - intros [v|] d d' Hok He Hw Hr; simpl in *.
    + apply (reads_app d [x01] (canonical v)) in Hr as (m & H1 & H2).
      destruct (wdecode_complete v m d') as (v' & Hd & Hv); [done..|by eapply reads_wf|done|].
      exists (Some v'). split; [|by constructor].
      apply bind_Ok. exists (x01, m). split; [by apply read_u8_Ok|]. simpl. by rewrite Hd.
    + exists None. split; [|constructor].
      apply bind_Ok. exists (x00, d'). split; [by apply read_u8_Ok|done].
  - intros v d d' Hw ([b d1] & Hr & Hd)%bind_Ok. apply read_u8_Ok in Hr; [|done].
    destruct (byte_val b =? 0) eqn:E0; [apply byte_val_x00 in E0 as ->; by injection Hd as <- <-|].
    destruct (byte_val b =? 1) eqn:E1; [|done]. apply byte_val_x01 in E1 as ->.
    apply bind_Ok in Hd as ([w d2] & Hd & [= <- <-]).
    apply wdecode_sound in Hd as (Hok & He & Hr'); [|by eapply reads_wf].
    split_and!; [done..|]. apply (reads_app d [x01] (canonical w)). eauto.
Defined.

Lemma f64_zero_cases bits : u64_ok bits -> f64_is_zero bits = true <-> bits = 0 \/ bits = f64_neg_zero.
Proof.
  unfold u64_ok, u64_max, f64_is_zero, f64_neg_zero. intros H. rewrite Z.eqb_eq.
  replace (2 ^ 63 - 1) with (Z.ones 63) by reflexivity. rewrite Z.land_ones by lia.
  split; [|by intros [->| ->]]. intros Hm%Z.mod_divide; [|lia]. destruct Hm as [k ->].
  change (2 ^ 63) with 9223372036854775808 in *. assert (k = 0 \/ k = 1) as [->| ->] by lia; auto.
Qed.

Global Instance laws_f64 : WireLaws f64.
Proof.
  refine {| wire_ok (v : f64) := u64_ok (f64_bits v);
            encodable (v : f64) := f64_is_finite (f64_bits v) = true;
            wire_eq (v w : f64) := v = w \/ f64_is_zero (f64_bits v) = true /\ f64_is_zero (f64_bits w) = true;
            canonical (v : f64) :=
              to_be 8 (if f64_is_zero (f64_bits v) then 0 else f64_bits v) |}.
  - intros v e e' _ Hw. simpl. unfold write_f64. rewrite reject_Ok, negb_false_iff.
    by rewrite extend_Ok.
  - intros [v] d d' Hok He Hw Hr. simpl in *.
    set (n := if f64_is_zero v then 0 else v) in *.
    assert (u64_ok n /\ f64_is_finite n = true /\ (n =? f64_neg_zero) = false /\
            (F64 n = F64 v \/ f64_is_zero n = true /\ f64_is_zero v = true)) as (H1 & H2 & H3 & H4).
    { subst n. destruct (f64_is_zero v) eqn:E; [by split_and!; auto|].
      split_and!; auto. apply Z.eqb_neq. intros ->. by rewrite (proj2 (f64_zero_cases _ Hok)) in E by auto. }
    exists (F64 n). split; [|done]. apply map_fst_Ok. exists n. split; [|done].
    apply bind_Ok. exists (n, d'). split; [by apply read_u64_Ok|]. by rewrite H2, H3.
  - intros v d d' Hw (x & ([y d1] & Hr & H)%bind_Ok & ->)%map_fst_Ok.
    apply read_u64_Ok in Hr as [Hr Hok]; [|done].
    apply reject_Ok in H as [[H1 H2]%orb_false_iff [= -> ->]].
    apply negb_false_iff in H1. apply Z.eqb_neq in H2. simpl. split_and!; [done..|].
    destruct (f64_is_zero x) eqn:E; [|done].
    by apply f64_zero_cases in E as [->|?].
Defined.

(** ** All implementations at once

    The types [codec.rs] implements the trait for, and the format of their values written
    out: which values a Rust type has, which of them the encoder accepts, the bytes they
    are written as, and the equality of the type. *)

Inductive WireType := TBool | TU8 | TU32 | TU64 | TI64 | TF64 | TBytes | TString | TUnit | TOption (t : WireType).

Fixpoint wire_type (t : WireType) : Type :=
  match t with
  | TBool => bool | TU8 => byte | TU32 => u32 | TU64 => u64 | TI64 => i64 | TF64 => f64
  | TBytes => list byte | TString => String_ | TUnit => unit
  | TOption t => option (wire_type t)
  end.

#[global] Instance wire_value : forall t, WireValue (wire_type t) :=
  fix go t :=
    match t return WireValue (wire_type t) with
    | TBool => wire_bool | TU8 => wire_u8 | TU32 => wire_u32 | TU64 => wire_u64 | TI64 => wire_i64
    | TF64 => wire_f64 | TBytes => wire_bytes | TString => wire_string | TUnit => wire_unit
    | TOption t => @wire_option _ (go t)
    end.

(** The values of the Rust type. *)
Fixpoint in_type (t : WireType) : wire_type t -> Prop :=
  match t with
  | TU32 => fun v => u32_ok (u32_val v)
  | TU64 => fun v => u64_ok (u64_val v)
  | TI64 => fun v => i64_ok (i64_val v)
  | TF64 => fun v => u64_ok (f64_bits v)
  | TOption t => from_option (in_type t) True
  | _ => fun _ => True
  end.

(** Strings and byte strings have a 32-bit length; a float is finite. *)
Fixpoint accepted (t : WireType) : wire_type t -> Prop :=
  match t with
  | TF64 => fun v => f64_is_finite (f64_bits v) = true
  | TBytes => fun v => len v <= u32_max
  | TString => fun v => len (string_bytes v) <= u32_max
  | TOption t => from_option (accepted t) True
  | _ => fun _ => True
  end.

(** Integers are big-endian and of fixed width, the negative zero of [f64] is written as
    zero, byte strings follow their length and an option its tag. *)
Fixpoint format (t : WireType) : wire_type t -> list byte :=
  match t with
  | TBool => fun v => [if v then x01 else x00]
  | TU8 => fun v => [v]
  | TU32 => fun v => to_be 4 (u32_val v)
  | TU64 => fun v => to_be 8 (u64_val v)
  | TI64 => fun v => to_be 8 (i64_val v mod 2 ^ 64)
  | TF64 => fun v => to_be 8 (if bool_decide (f64_bits v = f64_neg_zero) then 0 else f64_bits v)
  | TBytes => fun v => to_be 4 (len v) ++ v
  | TString => fun v => to_be 4 (len (string_bytes v)) ++ string_bytes v
  | TUnit => fun _ => []
  | TOption t => fun v => match v with None => [x00] | Some v => x01 :: format t v end
  end.

(** [==] of the type: the two zeros of [f64] are equal, every other type is exact. *)
Fixpoint same_value (t : WireType) : wire_type t -> wire_type t -> Prop :=
  match t with
  | TF64 => fun v w => v = w \/ f64_is_zero (f64_bits v) = true /\ f64_is_zero (f64_bits w) = true
  | TOption t => option_Forall2 (same_value t)
  | _ => fun v w => v = w
  end.

#[global] Instance wire_value_laws : forall t, WireLaws (wire_type t) :=
  fix go t :=
    match t return WireLaws (wire_type t) with
    | TBool => laws_bool | TU8 => laws_u8 | TU32 => laws_u32 | TU64 => laws_u64 | TI64 => laws_i64
    | TF64 => laws_f64 | TBytes => laws_bytes | TString => laws_string | TUnit => laws_unit
    | TOption t => @laws_option _ _ (go t)
    end.

Lemma in_type_ok t v : wire_ok v <-> in_type t v.
Proof. induction t; try done. destruct v as [v|]; [|done]. apply IHt. Qed.
Lemma accepted_encodable t v : encodable v <-> accepted t v.
Proof. induction t; try done. destruct v as [v|]; [|done]. apply IHt. Qed.
Lemma same_value_eq t v w : wire_eq v w <-> same_value t v w.
Proof.
  induction t; try done. split; intros H; destruct H; constructor; by apply IHt.
Qed.
Lemma format_canonical t v : in_type t v -> canonical v = format t v.
Proof.
  induction t; try done; cbn -[to_be f64_is_zero f64_neg_zero].
  - intros Hv. apply to_be_mod. change (256 ^ Z.of_nat 8) with (2 ^ 64). by rewrite Z.mod_mod.
  - intros Hv. f_equal. destruct (f64_is_zero (f64_bits v)) eqn:E.
    + apply f64_zero_cases in E as [->| ->]; done.
    + rewrite bool_decide_eq_false_2; [done|]. intros Hn. rewrite (proj2 (f64_zero_cases _ Hv)) in E by auto. done.
  - destruct v as [v|]; [|done]. intros Hv. cbn in Hv |- *. f_equal. by apply IHt.
Qed.

(** ** Theorems *)

(** C37: the wire codec is exact for every type [codec.rs] implements it for: booleans,
    bytes, the fixed-width integers, floats, byte strings, strings, the unit and options
    of any of these. Under a limit, exactly the accepted values whose encoding fits are
    encoded, as the bytes of the format; these decode under the same limit to an equal
    value. Conversely input that decodes under a limit fits that limit and the global
    ceiling, is of the type, and re-encoding the decoded value reproduces the input byte
    for byte; so no two distinct inputs decode to one value. *)
Theorem wire_exact (t : WireType) limit : u32_ok limit ->
  (forall (v : wire_type t) b, in_type t v ->
     encode_wire v limit = Ok b <->
     1 <= limit <= MAX_WIRE_BYTES /\ accepted t v /\ b = format t v /\ len b <= limit) /\
  (forall (v : wire_type t) b, in_type t v -> encode_wire v limit = Ok b ->
     exists v', decode_wire b limit = Ok v' /\ same_value t v' v) /\
  (forall (v : wire_type t) b, decode_wire b limit = Ok v ->
     in_type t v /\ encode_wire v limit = Ok b /\ len b <= limit <= MAX_WIRE_BYTES /\
     (forall b' limit', decode_wire b' limit' = Ok v -> b' = b)).
Proof.
  intros [Hl _]. split_and!.
  - intros v b Hin. rewrite encode_wire_Ok by (by rewrite ?in_type_ok).
    rewrite (format_canonical t v Hin), accepted_encodable. intuition lia.
  - intros v b Hin He. apply encode_wire_Ok in He as ((? & ?) & Henc & -> & Hle); [|by apply in_type_ok|done].
    destruct (decode_wire_complete v limit) as (v' & Hd & Hv); [done..|by apply in_type_ok|done|done|].
    exists v'. split; [done|by apply same_value_eq].
  - intros v b Hd. apply decode_wire_sound in Hd as (Hlim & Hok & Henc & -> & Hle).
    split_and!; [by apply in_type_ok|by apply encode_wire_Ok|done|tauto|].
    intros b' limit' (_ & _ & _ & -> & _)%decode_wire_sound. done.
Qed.

Definition example_string : String_ := MkString (text "caf"%string ++ [xc3; xa9]) eq_refl.
Definition example_encoding : list byte :=
  [x01; x00; x00; x00; x05; "c"; "a"; "f"; xc3; xa9]%byte.

Lemma wire_exact_witness :
  (exists v', decode_wire (A := wire_type (TOption TString)) example_encoding 64 = Ok v' /\
     same_value (TOption TString) v' (Some example_string)) /\
  encode_wire (A := wire_type (TOption TF64)) (Some (F64 4607182418800017408)) 16
    = Ok [x01; x3f; xf0; x00; x00; x00; x00; x00; x00].
Proof.
  destruct (wire_exact (TOption TString) 64 ltac:(split; vm_compute; discriminate)) as (_ & H1 & _).
  destruct (wire_exact (TOption TF64) 16 ltac:(split; vm_compute; discriminate)) as (_ & _ & H2).
  split.
  - apply H1; [exact I|vm_compute; reflexivity].
  - apply (H2 (Some (F64 4607182418800017408)) [x01; x3f; xf0; x00; x00; x00; x00; x00; x00]).
    vm_compute; reflexivity.
Defined.
