(* ===== verification/Placement.v ===== *)
(** * Placement: eligibility, scoring and transfer planning over signed observations

    Models [crates/cellule-runtime/src/fleet/placement/mod.rs] and the validated
    capacity block of [node/capacity.rs]. The planner is pure: it ranks nodes for
    a Cell, elects one donor of an unbalanced fleet, and plans a bounded batch of
    transfers while projecting each receiver's capacity. BLAKE3 enters as a
    parameter of the placement hash.

    The theorems: ranking and donor election do not depend on the order of the
    snapshot, the chosen node is the best eligible one, a balance never asks for
    more than the donor's surplus or the receivers' room, and a plan respects the
    batch limits and never oversubscribes a receiver. *)

From Stdlib Require Import ZArith Lia.
From Stdlib Require Import Strings.Byte.
From stdpp Require Import base gmap strings sorting.
From stdpp Require Import list.
From S2P Require Import Prelude Identity.

Local Open Scope bool_scope.
Local Infix "≟" := eqb_of (at level 70).
Local Notation "x ≠? y" := (negb (eqb_of x y)) (at level 70).

(*@ fleet/placement/mod.rs 10-10 MAX_OBSERVATION_AGE_MS *)
Definition MAX_OBSERVATION_AGE_MS : Z := 30000.
(*@ fleet/placement/mod.rs 11-11 SCORE_SCALE *)
Definition SCORE_SCALE : Z := 1000.
(*@ fleet/placement/mod.rs 12-12 MIN_TRANSFER_GAIN *)
Definition MIN_TRANSFER_GAIN : Z := 50000.
(*@ fleet/placement/mod.rs 13-13 MIN_RESIDENCE_MS *)
Definition MIN_RESIDENCE_MS : Z := 60000.
(*@ fleet/placement/mod.rs 14-14 MAX_TRANSFERS_PER_TICK *)
Definition MAX_TRANSFERS_PER_TICK : Z := 2.
(*@ fleet/placement/mod.rs 15-15 MAX_TRANSFER_BYTES_PER_TICK *)
Definition MAX_TRANSFER_BYTES_PER_TICK : Z := 8 * 1024 * 1024 * 1024.
(*@ fleet/placement/mod.rs 20-20 BALANCE_DEADBAND_PERCENT *)
Definition BALANCE_DEADBAND_PERCENT : Z := 2.
Definition u128_max : Z := 2 ^ 128 - 1.

(** ** Data *)

Module Pressure.
(*@ fleet/placement/mod.rs 27-36 PlacementPressure *)
Inductive PlacementPressure := Normal | Constrained | Shedding | Critical.
End Pressure.
Abbreviation PlacementPressure := Pressure.PlacementPressure.

(** The derived order of the enum. *)
Definition pressure_rank (p : PlacementPressure) : Z :=
  match p with
  | Pressure.Normal => 0 | Pressure.Constrained => 1
  | Pressure.Shedding => 2 | Pressure.Critical => 3
  end.

(*@ fleet/placement/mod.rs 44-81 PlacementObservation *)
Record PlacementObservation := MkObservation {
  node : NodeId;
  session : SessionId;
  observed_at_ms : Z;
  memory_capacity_bytes : Z;
  free_memory_bytes : Z;
  disk_capacity_bytes : Z;
  free_disk_bytes : Z;
  active_cells : Z;
  max_active_cells : Z;
  running_jobs : Z;
  job_capacity : Z;
  publication_backlog : Z;
  hydration_backlog : Z;
  primitive_backlog : Z;
  pressure : PlacementPressure;
  draining : bool;
  authenticated : bool;
  current_owner : bool
}.

Module Eligibility.
(*@ fleet/placement/mod.rs 162-183 PlacementEligibility *)
Inductive PlacementEligibility :=
| Eligible | Unauthenticated | Stale | Draining | CriticalPressure | Pressure
| NoMemoryHeadroom | NoDiskHeadroom | NoCellCapacity | NoJobCapacity.
End Eligibility.
Abbreviation PlacementEligibility := Eligibility.PlacementEligibility.

Definition eligibility_rank (e : PlacementEligibility) : Z :=
  match e with
  | Eligibility.Eligible => 0 | Eligibility.Unauthenticated => 1 | Eligibility.Stale => 2
  | Eligibility.Draining => 3 | Eligibility.CriticalPressure => 4 | Eligibility.Pressure => 5
  | Eligibility.NoMemoryHeadroom => 6 | Eligibility.NoDiskHeadroom => 7
  | Eligibility.NoCellCapacity => 8 | Eligibility.NoJobCapacity => 9
  end.

(*@ fleet/placement/mod.rs 187-196 PlacementScore *)
Record PlacementScore := MkScore {
  score_node : NodeId;
  score_session : SessionId;
  score_value : Z;
  score_eligibility : PlacementEligibility
}.

(*@ fleet/placement/mod.rs 202-231 CellTransferDemand *)
Record CellTransferDemand := MkDemand {
  demand_cell : CellId;
  demand_source : SessionId;
  demand_generation : Z;
  demand_memory_bytes : Z;
  demand_disk_bytes : Z;
  demand_job_credits : Z;
  resident_since_ms : Z;
  last_used_ms : Z;
  last_moved_at_ms : option Z;
  stable_observations : Z;
  settled : bool;
  maintenance : bool
}.

(*@ fleet/placement/mod.rs 235-252 CellTransferIntent *)
Record CellTransferIntent := MkIntent {
  intent_cell : CellId;
  intent_source : SessionId;
  intent_generation : Z;
  destination : SessionId;
  intent_observed_at_ms : Z;
  intent_memory_bytes : Z;
  intent_disk_bytes : Z;
  intent_job_credits : Z
}.

(*@ fleet/placement/mod.rs 264-273 FleetBalance *)
Record FleetBalance := MkBalance {
  donor : SessionId;
  surplus : Z;
  receivers : list SessionId
}.

(*@ fleet/placement/mod.rs 277-279 PlacementPlanner *)
Record PlacementPlanner := MkPlanner { max_observation_age_ms : Z }.

Global Instance PlacementPressure_eq_dec : EqDecision PlacementPressure.
Proof. solve_decision. Defined.
Global Instance PlacementEligibility_eq_dec : EqDecision PlacementEligibility.
Proof. solve_decision. Defined.
Global Instance PlacementScore_eq_dec : EqDecision PlacementScore.
Proof. solve_decision. Defined.

(** What [NodePlacementCapacity::validated] accepts, on the fields an observation
    copies from it. *)
(*@ node/capacity.rs 124-135 NodePlacementCapacity::validated *)
Definition validated_capacity (o : PlacementObservation) : Result PlacementObservation :=
  if (memory_capacity_bytes o =? 0) || (disk_capacity_bytes o =? 0)
     || (max_active_cells o =? 0) || (max_active_cells o <? active_cells o)
     || (job_capacity o =? 0) || (job_capacity o <? running_jobs o)
  then Err (Error.Node "placement capacity is invalid")
  else Ok o.

(** ** Eligibility and score *)

(*@ fleet/placement/mod.rs 282-286 Default::default *)
Definition default_planner : PlacementPlanner := MkPlanner MAX_OBSERVATION_AGE_MS.

(*@ fleet/placement/mod.rs 291-298 PlacementPlanner::new *)
Definition planner_new (age : Z) : Result PlacementPlanner :=
  if age <=? 0 then Err (Error.Control "placement freshness window is invalid")
  else Ok (MkPlanner age).

(*@ fleet/placement/mod.rs 715-720 PlacementPlanner::fresh *)
Definition fresh (p : PlacementPlanner) (now_ms : Z) (o : PlacementObservation) : bool :=
  authenticated o && (0 <=? observed_at_ms o) && (observed_at_ms o <=? now_ms)
  && (saturating_sub_i64 now_ms (observed_at_ms o) <=? max_observation_age_ms p).

(*@ fleet/placement/mod.rs 724-726 PlacementPlanner::sampled_after *)
Definition sampled_after (p : PlacementPlanner) (now_ms : Z) (o : PlacementObservation)
    (since_ms : Z) : bool :=
  fresh p now_ms o && (since_ms <? observed_at_ms o).

(*@ fleet/placement/mod.rs 680-712 PlacementPlanner::eligibility *)
Definition eligibility (p : PlacementPlanner) (now_ms : Z) (o : PlacementObservation)
  : PlacementEligibility :=
  if negb (fresh p now_ms o) then
    if authenticated o then Eligibility.Stale else Eligibility.Unauthenticated
  else if draining o then Eligibility.Draining
  else if pressure_rank Pressure.Critical <=? pressure_rank (pressure o)
  then Eligibility.CriticalPressure
  else if pressure o ≠? Pressure.Normal then Eligibility.Pressure
  else if (memory_capacity_bytes o =? 0) || (free_memory_bytes o =? 0)
  then Eligibility.NoMemoryHeadroom
  else if (disk_capacity_bytes o =? 0) || (free_disk_bytes o =? 0)
  then Eligibility.NoDiskHeadroom
  else if (max_active_cells o =? 0) || (max_active_cells o <=? active_cells o)
  then Eligibility.NoCellCapacity
  else if (job_capacity o =? 0) || (job_capacity o <=? running_jobs o)
  then Eligibility.NoJobCapacity
  else Eligibility.Eligible.

(*@ fleet/placement/mod.rs 729-735 ratio *)
Definition ratio (numerator denominator : Z) : Z :=
  if denominator =? 0 then 0 else Z.min numerator denominator * SCORE_SCALE / denominator.

(*@ fleet/placement/mod.rs 740-745 denser *)
Definition denser (l r : PlacementObservation) : comparison :=
  then_with (active_cells l * max_active_cells r ?= active_cells r * max_active_cells l)
    (then_with (bytes_compare (as_bytes (node r)) (as_bytes (node l)))
       (bytes_compare (as_bytes (session r)) (as_bytes (session l)))).

(*@ fleet/placement/mod.rs 750-757 room *)
Definition room (o : PlacementObservation) (target : Z) : Z :=
  let deadband := target * BALANCE_DEADBAND_PERCENT / 100 in
  saturating_sub_u (saturating_sub_u target deadband) (active_cells o).

Definition b2z (b : bool) : Z := if b then 1 else 0.

Section Hashed.
(** BLAKE3 of a byte stream. *)
Context (blake3 : list byte -> Digest).
Context (p : PlacementPlanner).

(*@ fleet/placement/mod.rs 759-769 placement_hash *)
Definition placement_hash (c : CellId) (n : NodeId) (s : SessionId) : Z :=
  from_be (take 16 (as_bytes (blake3 (text "crab.cell.placement.v1" ++ [x00]
    ++ as_bytes c ++ as_bytes n ++ as_bytes s)))).

(*@ fleet/placement/mod.rs 621-678 PlacementPlanner::score *)
Definition score (c : CellId) (now_ms : Z) (o : PlacementObservation) : PlacementScore :=
  let e := eligibility p now_ms o in
  if e ≠? Eligibility.Eligible then MkScore (node o) (session o) 0 e
  else
    let memory := ratio (free_memory_bytes o) (memory_capacity_bytes o) in
    let disk := ratio (free_disk_bytes o) (disk_capacity_bytes o) in
    let cells := ratio (saturating_sub_u (max_active_cells o) (active_cells o)) (max_active_cells o) in
    let jobs := ratio (saturating_sub_u (job_capacity o) (running_jobs o)) (job_capacity o) in
    let backlog := saturating_add_u32 (saturating_add_u32 (publication_backlog o)
                     (hydration_backlog o)) (primitive_backlog o) in
    let sticky := b2z (current_owner o) * 50 in
    let hash_bonus := placement_hash c (node o) (session o) mod 100 in
    let value := saturating_sub_u
      (memory * 400 + disk * 250 + cells * 200 + jobs * 100 + sticky * SCORE_SCALE + hash_bonus)
      (Z.min backlog 100 * SCORE_SCALE) in
    MkScore (node o) (session o) value e.

(** The comparator of [rank]: score and eligibility descending, identities
    ascending. *)
Definition score_order (l r : PlacementScore) : comparison :=
  then_with (score_value r ?= score_value l)
    (then_with (eligibility_rank (score_eligibility r) ?= eligibility_rank (score_eligibility l))
       (then_with (bytes_compare (as_bytes (score_node l)) (as_bytes (score_node r)))
          (bytes_compare (as_bytes (score_session l)) (as_bytes (score_session r))))).

(*@ fleet/placement/mod.rs 301-323 PlacementPlanner::rank *)
Definition rank (c : CellId) (now_ms : Z) (os : list PlacementObservation)
  : Result (list PlacementScore) :=
  if now_ms <? 0 then Err (Error.Control "placement time is invalid")
  else Ok (sort_by score_order (map (score c now_ms) os)).

Definition is_eligible (s : PlacementScore) : bool :=
  score_eligibility s ≟ Eligibility.Eligible.

(*@ fleet/placement/mod.rs 326-336 PlacementPlanner::choose *)
Definition choose (c : CellId) (now_ms : Z) (os : list PlacementObservation)
  : Result (option PlacementScore) :=
  ranked ← rank c now_ms os;
  Ok (List.find is_eligible ranked).

(** ** Fleet balance *)

(** [u128::div_ceil]. *)
Definition div_ceil (a b : Z) : Z := (a + b - 1) / b.

Definition is_dup {A} `{EqDecision A} (x : A) (seen : list A) : bool := bool_decide (x ∈ seen).

(** The scanning loop of [fleet_balance]: [None] when a sample is too old to
    describe the fleet, otherwise the owned and weight totals. *)
(*@ fleet/placement/mod.rs 357-370 fleet_balance scan *)
Fixpoint balance_scan (now_ms since_ms : Z) (os : list PlacementObservation)
    (nodes : list NodeId) (sessions : list SessionId) (owned weight : Z)
  : Result (option (Z * Z)) :=
  match os with
  | [] => Ok (Some (owned, weight))
  | o :: os =>
      if is_dup (node o) nodes || is_dup (session o) sessions
      then Err (Error.Control "fleet balance snapshot duplicates a node")
      else if negb (sampled_after p now_ms o since_ms) then Ok None
      else balance_scan now_ms since_ms os (node o :: nodes) (session o :: sessions)
             (owned + active_cells o) (weight + max_active_cells o)
  end.

(** The weighted target of one member. *)
Definition target (owned weight : Z) (o : PlacementObservation) : Z :=
  div_ceil (owned * max_active_cells o) weight.

Definition can_receive (now_ms owned weight : Z) (d o : PlacementObservation) : bool :=
  (session o ≠? session d) && (0 <? room o (target owned weight o))
  && (pressure_rank (pressure o) <? pressure_rank Pressure.Shedding)
  && (eligibility p now_ms o ≟ Eligibility.Eligible).

Definition total_room (owned weight : Z) (rs : list PlacementObservation) : Z :=
  sum_by (fun o => room o (target owned weight o)) rs.

(*@ fleet/placement/mod.rs 348-411 PlacementPlanner::fleet_balance *)
Definition fleet_balance (now_ms : Z) (os : list PlacementObservation) (since_ms : Z)
  : Result (option FleetBalance) :=
  if (now_ms <? 0) || (10000 <? Z.of_nat (length os))
  then Err (Error.Control "fleet balance snapshot is invalid")
  else
    scanned ← balance_scan now_ms since_ms os [] [] 0 0;
    match scanned with
    | None => Ok None
    | Some (owned, weight) =>
        if weight =? 0 then Ok None
        else match max_by denser os with
        | None => Ok None
        | Some d =>
            let donor_surplus := saturating_sub_u (active_cells d) (target owned weight d) in
            let rs := sort_by denser (List.filter (can_receive now_ms owned weight d) os) in
            let available := total_room owned weight rs in
            (* the minimum fits a usize whenever it fits the batch *)
            let count := Z.min (Z.min donor_surplus available) MAX_TRANSFERS_PER_TICK in
            if count =? 0 then Ok None
            else Ok (Some (MkBalance (session d) count (map session rs)))
        end
    end.

(** ** Transfer planning *)

(** [iter().find(|node| node.session == session)]. *)
Definition find_session (os : list PlacementObservation) (s : SessionId)
  : option PlacementObservation := List.find (fun o => session o ≟ s) os.

Definition shedding (o : PlacementObservation) : bool :=
  pressure_rank Pressure.Shedding <=? pressure_rank (pressure o).

(** The two closures of the candidate order. *)
Definition priority (os : list PlacementObservation) (d : CellTransferDemand) : Z :=
  match find_session os (demand_source d) with
  | Some n => b2z (draining n) * 2 + b2z (shedding n)
  | None => 0
  end.
Definition recency (os : list PlacementObservation) (d : CellTransferDemand) : Z :=
  match find_session os (demand_source d) with
  | Some n => if negb (draining n) && shedding n then last_used_ms d else 0
  | None => 0
  end.
(*@ fleet/placement/mod.rs 473-502 plan_transfers candidate order *)
Definition candidate_order (os : list PlacementObservation) (l r : CellTransferDemand) : comparison :=
  then_with (priority os r ?= priority os l)
    (then_with (recency os r ?= recency os l)
       (bytes_compare (as_bytes (demand_cell l)) (as_bytes (demand_cell r)))).

(** The demand and its source cannot be acted on at all. *)
(*@ fleet/placement/mod.rs 516-531 plan_transfers demand checks *)
Definition unusable (now_ms : Z) (d : CellTransferDemand) (source : PlacementObservation) : bool :=
  (maintenance d && negb (draining source)) || (negb (settled d) && negb (maintenance d))
  || (demand_generation d =? 0) || (demand_memory_bytes d =? 0) || (demand_disk_bytes d =? 0)
  || (demand_job_credits d =? 0) || (resident_since_ms d <? 0) || (now_ms <? resident_since_ms d)
  || (last_used_ms d <? 0) || (now_ms <? last_used_ms d)
  || is_some_and (fun at_ => (at_ <? 0) || (now_ms <? at_)) (last_moved_at_ms d)
  || negb (authenticated source) || (eligibility p now_ms source ≟ Eligibility.Stale).

Definition is_urgent (source : PlacementObservation) : bool := draining source || shedding source.

(** An ordinary move also needs a stable, settled residence. *)
Definition unsettled_residence (now_ms : Z) (d : CellTransferDemand) : bool :=
  (stable_observations d <? 2) || (now_ms - resident_since_ms d <? MIN_RESIDENCE_MS)
  || is_some_and (fun at_ => now_ms - at_ <? MIN_RESIDENCE_MS) (last_moved_at_ms d).

Definition set_owner (b : bool) (o : PlacementObservation) : PlacementObservation :=
  MkObservation (node o) (session o) (observed_at_ms o) (memory_capacity_bytes o)
    (free_memory_bytes o) (disk_capacity_bytes o) (free_disk_bytes o) (active_cells o)
    (max_active_cells o) (running_jobs o) (job_capacity o) (publication_backlog o)
    (hydration_backlog o) (primitive_backlog o) (pressure o) (draining o) (authenticated o) b.

(** Reserve a demand on a projected receiver. *)
Definition reserve (d : CellTransferDemand) (o : PlacementObservation) : PlacementObservation :=
  MkObservation (node o) (session o) (observed_at_ms o) (memory_capacity_bytes o)
    (free_memory_bytes o - demand_memory_bytes d) (disk_capacity_bytes o)
    (free_disk_bytes o - demand_disk_bytes d) (active_cells o + 1)
    (max_active_cells o) (running_jobs o + demand_job_credits d) (job_capacity o)
    (publication_backlog o) (hydration_backlog o) (primitive_backlog o) (pressure o)
    (draining o) (authenticated o) (current_owner o).

(** [iter_mut().find(..)] followed by an update in place. *)
Fixpoint update_session (f : PlacementObservation -> PlacementObservation) (s : SessionId)
    (os : list PlacementObservation) : list PlacementObservation :=
  match os with
  | [] => []
  | o :: os => if session o ≟ s then f o :: os else o :: update_session f s os
  end.

(** The capacity part of the destination predicate. *)
(*@ fleet/placement/mod.rs 566-570 plan_transfers destination capacity *)
Definition fits (d : CellTransferDemand) (o : PlacementObservation) : bool :=
  (demand_memory_bytes d <=? free_memory_bytes o) && (demand_disk_bytes d <=? free_disk_bytes o)
  && (1 <=? saturating_sub_u (max_active_cells o) (active_cells o))
  && (demand_job_credits d <=? saturating_sub_u (job_capacity o) (running_jobs o)).

Record PlanState := MkPlan {
  intents : list CellTransferIntent;
  bytes : Z;
  donations : Z;
  projected : list PlacementObservation
}.

Section Plan.
Context (now_ms : Z) (os : list PlacementObservation) (balance : option FleetBalance).

(*@ fleet/placement/mod.rs 465-472 plan_transfers receiver_room *)
Definition receiver_room (o : PlacementObservation) : Z :=
  let owned := sum_by active_cells os in
  let weight := sum_by max_active_cells os in
  room o (if weight =? 0 then 0 else target owned weight o).

Definition accepts (s : SessionId) : bool :=
  is_some_and (fun b => bool_decide (s ∈ receivers b)) balance.

(** The destination predicate of the loop. *)
(*@ fleet/placement/mod.rs 556-580 plan_transfers destination predicate *)
Definition acceptable (d : CellTransferDemand) (urgent donates : bool) (source_score : Z)
    (proj : list PlacementObservation) (s : PlacementScore) : bool :=
  (score_session s ≠? demand_source d) && is_eligible s
  && is_some_and (fun n => fits d n
       && (urgent || (donates && accepts (score_session s) && (0 <? receiver_room n))
           || (Z.min (source_score + MIN_TRANSFER_GAIN) u128_max <=? score_value s)))
     (find_session proj (score_session s)).

(** One iteration of the loop over the candidates; an unchanged state is [continue]. *)
(*@ fleet/placement/mod.rs 506-617 plan_transfers loop body *)
Definition plan_step (st : PlanState) (d : CellTransferDemand) : Result PlanState :=
  if Z.of_nat (length (intents st)) =? MAX_TRANSFERS_PER_TICK then Ok st
  else match find_session os (demand_source d) with
  | None => Ok st
  | Some source =>
      if unusable now_ms d source then Ok st
      else
        let urgent := is_urgent source in
        if negb urgent && unsettled_residence now_ms d then Ok st
        else match checked_add_u64 (bytes st) (demand_disk_bytes d) with
        | None => Ok st
        | Some next_bytes =>
            if MAX_TRANSFER_BYTES_PER_TICK <? next_bytes then Ok st
            else
              let source_score := score_value (score (demand_cell d) now_ms (set_owner true source)) in
              let donates := is_some_and (fun b => (donor b ≟ demand_source d)
                                                    && (donations st <? surplus b)) balance in
              ranked ← rank (demand_cell d) now_ms (projected st);
              match List.find (acceptable d urgent donates source_score (projected st)) ranked with
              | None => Ok st
              | Some dest =>
                  match find_session (projected st) (score_session dest) with
                  | None => Ok st
                  | Some receiver =>
                      let donation := negb urgent && donates && accepts (score_session dest)
                                      && (0 <? receiver_room receiver) in
                      Ok (MkPlan
                            (intents st ++ [MkIntent (demand_cell d) (demand_source d)
                               (demand_generation d) (score_session dest) (observed_at_ms source)
                               (demand_memory_bytes d) (demand_disk_bytes d) (demand_job_credits d)])
                            next_bytes
                            (if donation then donations st + 1 else donations st)
                            (update_session (reserve d) (score_session dest) (projected st)))
                  end
              end
        end
  end.

Fixpoint plan_loop (st : PlanState) (ds : list CellTransferDemand) : Result PlanState :=
  match ds with
  | [] => Ok st
  | d :: ds => st ← plan_step st d; plan_loop st ds
  end.
End Plan.

(** The two duplicate scans. *)
Fixpoint has_dup {A} `{EqDecision A} (l seen : list A) : bool :=
  match l with
  | [] => false
  | x :: l => is_dup x seen || has_dup l (x :: seen)
  end.

(*@ fleet/placement/mod.rs 428-505 PlacementPlanner::plan_transfers *)
Definition plan_transfers (now_ms : Z) (os : list PlacementObservation)
    (demands : list CellTransferDemand) (balance : option FleetBalance)
  : Result (list CellTransferIntent) :=
  if (now_ms <? 0) || (10000 <? Z.of_nat (length os)) || (10000 <? Z.of_nat (length demands))
  then Err (Error.Control "transfer snapshot is invalid")
  else if has_dup (map node os) [] || has_dup (map session os) []
  then Err (Error.Control "transfer snapshot duplicates a node")
  else if has_dup (map demand_cell demands) []
  then Err (Error.Control "transfer snapshot duplicates a Cell")
  else
    st ← plan_loop now_ms os balance
           (MkPlan [] 0 0 (map (set_owner false) os))
           (sort_by (candidate_order os) demands);
    Ok (intents st).
End Hashed.

(** ** Orders *)

(** A snapshot whose members passed [validated_capacity] and have their widths. *)
Definition weighted (o : PlacementObservation) : Prop := 0 < max_active_cells o /\ 0 <= active_cells o.

Lemma score_order_preorder P : cmp_preorder score_order P.
Proof.
  apply (cmp_preorder_lex (fun l r => score_value r ?= score_value l)).
  { apply (cmp_preorder_flip (fun l r => score_value l ?= score_value r)), cmp_preorder_key. }
  apply (cmp_preorder_lex (fun l r => eligibility_rank (score_eligibility r)
                                       ?= eligibility_rank (score_eligibility l))).
  { apply (cmp_preorder_flip (fun l r => eligibility_rank (score_eligibility l)
                                          ?= eligibility_rank (score_eligibility r))), cmp_preorder_key. }
  apply (cmp_preorder_lex (fun l r => bytes_compare (as_bytes (score_node l)) (as_bytes (score_node r))));
    [apply (cmp_preorder_bytes (fun s => as_bytes (score_node s)))
    |apply (cmp_preorder_bytes (fun s => as_bytes (score_session s)))].
Qed.

Lemma then_with_Eq a b : then_with a b = Eq <-> a = Eq /\ b = Eq.
Proof. destruct a; simpl; naive_solver. Qed.

Lemma score_order_Eq l r : score_order l r = Eq -> l = r.
Proof.
  unfold score_order. rewrite !then_with_Eq, !Z.compare_eq_iff, !bytes_compare_eq.
  intros (H1 & H2 & H3%array_eq & H4%array_eq). destruct l as [? ? ? el], r as [? ? ? er]; simpl in *.
  subst. f_equal. destruct el, er; done.
Qed.

Lemma density_preorder :
  cmp_preorder (fun l r => active_cells l * max_active_cells r ?= active_cells r * max_active_cells l)
    weighted.
Proof.
  split.
  - intros l r _ _. by rewrite Z.compare_antisym.
  - unfold cmp_le. intros x y z [Hx Ax] [Hy Ay] [Hz Az]. rewrite !Z.compare_le_iff. nia.
Qed.

Lemma denser_preorder : cmp_preorder denser weighted.
Proof.
  apply (cmp_preorder_lex
    (fun l r => active_cells l * max_active_cells r ?= active_cells r * max_active_cells l));
    [apply density_preorder|].
  apply (cmp_preorder_lex (fun l r => bytes_compare (as_bytes (node r)) (as_bytes (node l)))).
  - apply (cmp_preorder_flip (fun l r => bytes_compare (as_bytes (node l)) (as_bytes (node r)))).
    apply (cmp_preorder_bytes (fun o => as_bytes (node o))).
  - apply (cmp_preorder_flip (fun l r => bytes_compare (as_bytes (session l)) (as_bytes (session r)))).
    apply (cmp_preorder_bytes (fun o => as_bytes (session o))).
Qed.

Lemma denser_Eq l r : denser l r = Eq -> node l = node r.
Proof. unfold denser. rewrite !then_with_Eq, !bytes_compare_eq. intros (_ & H & _). by apply array_eq. Qed.

(** Distinct nodes are told apart by the donor order. *)
Lemma denser_separates os x y :
  NoDup (map node os) -> x ∈ os -> y ∈ os -> denser x y = Eq -> x = y.
Proof.
  intros Hnd [i Hi]%list_elem_of_lookup [j Hj]%list_elem_of_lookup E%denser_Eq.
  assert (i = j) as ->; [|congruence].
  apply (NoDup_lookup (map node os) i j (node x)); [done|..]; rewrite list_lookup_fmap.
  - by rewrite Hi.
  - by rewrite Hj, E.
Qed.

Section Theorems.
Context (blake3 : list byte -> Digest) (p : PlacementPlanner).
Local Abbreviation score := (score blake3 p).
Local Abbreviation rank := (rank blake3 p).
Local Abbreviation choose := (choose blake3 p).

Lemma rank_perm c now os os' : os ≡ₚ os' -> rank c now os = rank c now os'.
Proof.
  intros Hp. unfold Placement.rank. case_match; [done|]. f_equal.
  apply (sort_by_unique _ (fun _ => True)); [apply score_order_preorder|by apply Forall_true| |].
  - intros x y _ _. apply score_order_Eq.
  - by apply fmap_Permutation.
Qed.

(** ** The balance scan *)

Lemma balance_scan_spec now since os nodes sessions owned weight :
  NoDup (map node os) -> NoDup (map session os) ->
  (forall o, o ∈ os -> (node o ∉ nodes) /\ (session o ∉ sessions)) ->
  balance_scan p now since os nodes sessions owned weight =
    Ok (if forallb (fun o => sampled_after p now o since) os
        then Some (owned + sum_by active_cells os, weight + sum_by max_active_cells os) else None).
Proof.
  revert nodes sessions owned weight. induction os as [|o os IH]; intros ns ss ow w Hn Hs Hfresh; simpl.
  { do 3 f_equal; unfold sum_by; simpl; lia. }
  apply NoDup_cons in Hn as [Hn Hn'], Hs as [Hs Hs'].
  destruct (Hfresh o) as [H1 H2]; [by left|].
  unfold is_dup. rewrite !bool_decide_eq_false_2 by done. simpl.
  destruct (sampled_after p now o since); simpl; [|done].
  rewrite IH; [|done..|].
  - unfold sum_by; simpl. repeat case_match; do 3 f_equal; lia.
  - intros o' Ho'. destruct (Hfresh o') as [? ?]; [by right|].
    rewrite !not_elem_of_cons. split_and!; try done; intros E; [apply Hn|apply Hs]; rewrite <- E;
      by apply list_elem_of_fmap_2.
Qed.

Lemma balance_perm now since os os' :
  NoDup (map node os) -> NoDup (map session os) -> Forall weighted os -> os ≡ₚ os' ->
  fleet_balance p now os since = fleet_balance p now os' since.
Proof.
  intros Hn Hs Hw Hp. unfold fleet_balance. rewrite (Permutation_length Hp).
  case_match; [done|].
  assert (NoDup (map node os')) as Hn' by (by rewrite <- (Permutation_map node Hp)).
  assert (NoDup (map session os')) as Hs' by (by rewrite <- (Permutation_map session Hp)).
  rewrite (balance_scan_spec now since os), (balance_scan_spec now since os')
    by (done || by intros ? _; split; apply not_elem_of_nil).
  replace (forallb (fun o => sampled_after p now o since) os')
    with (forallb (fun o => sampled_after p now o since) os)
    by (apply eq_bool_prop_intro; rewrite !forallb_True; by rewrite Hp).
  rewrite (sum_by_proper active_cells _ _ Hp), (sum_by_proper max_active_cells _ _ Hp).
  destruct (forallb _ os); simpl; [|done]. case_match; [done|].
  rewrite (max_by_unique denser weighted os os');
    [|apply denser_preorder|done|by intros x y; apply (denser_separates os)|done].
  destruct (max_by denser os') as [d|]; [|done].
  set (keep := can_receive p now _ _ d).
  rewrite (sort_by_unique denser weighted (List.filter keep os) (List.filter keep os')); [done|..].
  - apply denser_preorder.
  - rewrite Forall_forall in *. intros x [Hx _]%elem_of_filter_bool. auto.
  - intros x y [Hx _]%elem_of_filter_bool [Hy _]%elem_of_filter_bool. by apply (denser_separates os).
  - by apply filter_perm.
Qed.

Lemma total_room_nonneg owned weight rs : 0 <= total_room owned weight rs.
Proof. apply sum_by_nonneg. intros o _. unfold room, saturating_sub_u. lia. Qed.

(** What [fleet_balance] found when it proposes a donation. *)
Lemma fleet_balance_Some now os since b :
  fleet_balance p now os since = Ok (Some b) ->
  exists d owned weight,
    balance_scan p now since os [] [] 0 0 = Ok (Some (owned, weight)) /\ weight <> 0 /\
    max_by denser os = Some d /\ donor b = session d /\
    1 <= surplus b <= MAX_TRANSFERS_PER_TICK /\
    surplus b <= active_cells d - target owned weight d /\
    surplus b <= total_room owned weight (List.filter (can_receive p now owned weight d) os) /\
    (forall s, s ∈ receivers b <-> exists o, o ∈ os /\ session o = s /\ can_receive p now owned weight d o = true).
Proof.
  unfold fleet_balance. rewrite reject_Ok, bind_Ok. intros [_ ([[owned weight]|] & Hscan & H)]; [|done].
  destruct (Z.eqb_spec weight 0) as [|Ew]; [done|]. destruct (max_by denser os) as [d|] eqn:Ed; [|done].
  cbv zeta in H. unfold total_room in H.
  rewrite (sum_by_proper _ _ _ (sort_by_perm denser _)) in H.
  fold (total_room owned weight (List.filter (can_receive p now owned weight d) os)) in H.
  pose proof (total_room_nonneg owned weight (List.filter (can_receive p now owned weight d) os)) as Hge.
  case_match eqn:Ec; [done|]. injection H as <-. apply Z.eqb_neq in Ec.
  unfold saturating_sub_u, MAX_TRANSFERS_PER_TICK in *.
  exists d, owned, weight. split_and!; simpl; try done; try lia.
  intros s. rewrite <- list_elem_of_In, list_elem_of_fmap || rewrite list_elem_of_fmap. split.
  - intros (o & -> & Ho). rewrite sort_by_perm in Ho. apply elem_of_filter_bool in Ho. naive_solver.
  - intros (o & Ho & <- & Hr). exists o. split; [done|]. rewrite sort_by_perm.
    by apply elem_of_filter_bool.
Qed.
End Theorems.

(** Planning does not depend on the order of the snapshot. The ranking and the
    choice for a Cell are the same for every permutation of the observations, and
    so is the elected donation for a snapshot of distinct, validated nodes. *)
Theorem placement_order_invariant blake3 p os os' :
  os ≡ₚ os' ->
  (forall c now, rank blake3 p c now os = rank blake3 p c now os' /\
                 choose blake3 p c now os = choose blake3 p c now os') /\
  (NoDup (map node os) -> NoDup (map session os) -> Forall weighted os ->
   forall now since, fleet_balance p now os since = fleet_balance p now os' since).
Proof.
  intros Hp. split.
  - intros c now. pose proof (rank_perm blake3 p c now os os' Hp) as E. split; [done|].
    unfold choose. by rewrite E.
  - intros Hn Hs Hw now since. by apply balance_perm.
Qed.

(** The choice is the best eligible node. [choose] answers for every
    non-negative time; it answers none exactly when no observation is eligible,
    and otherwise the score of an eligible observation that no eligible
    observation exceeds. *)
Theorem choose_best blake3 p c now os :
  0 <= now ->
  exists r, choose blake3 p c now os = Ok r /\
  match r with
  | None => forall o, o ∈ os -> eligibility p now o <> Eligibility.Eligible
  | Some s =>
      (exists o, o ∈ os /\ s = score blake3 p c now o /\ eligibility p now o = Eligibility.Eligible) /\
      forall o, o ∈ os -> eligibility p now o = Eligibility.Eligible ->
        score_value (score blake3 p c now o) <= score_value s
  end.
Proof.
  intros Hnow. unfold choose, rank. destruct (Z.ltb_spec now 0); [lia|]. simpl.
  set (ranked := sort_by score_order (map (score blake3 p c now) os)).
  assert (forall o, score_eligibility (score blake3 p c now o) = eligibility p now o) as He.
  { intros o. unfold score. cbv zeta. destruct (_ ≠? _); done. }
  assert (forall s, s ∈ ranked <-> exists o, s = score blake3 p c now o /\ o ∈ os) as Hin.
  { intros s. subst ranked. rewrite sort_by_perm. apply list_elem_of_fmap. }
  assert (StronglySorted (cmp_le score_order) ranked) as Hs.
  { apply (sort_by_sorted _ (fun _ => True)); [apply score_order_preorder|by apply Forall_true]. }
  eexists. split; [done|]. destruct (List.find is_eligible ranked) as [s|] eqn:Hf.
  - apply find_split in Hf as (l1 & l2 & Hl & Hel & Hl1). unfold is_eligible in Hel. guards_in Hel. split.
    + destruct (proj1 (Hin s)) as (o & -> & Ho); [rewrite Hl; apply elem_of_app; right; left|].
      exists o. rewrite <- He. by split_and!.
    + intros o Ho Heo. assert (score blake3 p c now o ∈ ranked) as Hr by (apply Hin; eauto).
      rewrite Hl in Hr, Hs. apply elem_of_app in Hr as [Hr|[->|Hr]%elem_of_cons]; [|lia|].
      * rewrite Forall_forall in Hl1. apply Hl1 in Hr. unfold is_eligible in Hr.
        by rewrite He, Heo, eqb_of_refl in Hr.
      * apply StronglySorted_app in Hs as (_ & _ & Hs). apply StronglySorted_inv in Hs as [_ Hs].
        rewrite Forall_forall in Hs. specialize (Hs _ Hr). unfold cmp_le, score_order in Hs.
        destruct (Z.compare_spec (score_value (score blake3 p c now o)) (score_value s)); simpl in Hs; lia || done.
  - intros o Ho Heo. assert (score blake3 p c now o ∈ ranked) as Hr by (apply Hin; eauto).
    eapply find_none_all in Hr; [|done]. unfold is_eligible in Hr. by rewrite He, Heo, eqb_of_refl in Hr.
Qed.

(** A balance takes only what is owed. When [fleet_balance] elects a donor from
    a snapshot of validated nodes, the donor is a densest member, giving up the
    surplus leaves it at or above its weighted target, the batch is one or two
    Cells and fits the receivers' room, the donor is no receiver, and every
    receiver is an eligible member strictly below its own target. *)
Theorem fleet_balance_sound p now os since b :
  Forall weighted os -> NoDup (map node os) -> NoDup (map session os) ->
  fleet_balance p now os since = Ok (Some b) ->
  let owned := sum_by active_cells os in
  let weight := sum_by max_active_cells os in
  (exists d, d ∈ os /\ session d = donor b /\
     (forall o, o ∈ os -> active_cells o * max_active_cells d <= active_cells d * max_active_cells o) /\
     target owned weight d <= active_cells d - surplus b) /\
  1 <= surplus b <= 2 /\
  (donor b ∉ receivers b) /\
  (forall s, s ∈ receivers b -> exists o, o ∈ os /\ session o = s /\
     eligibility p now o = Eligibility.Eligible /\ active_cells o < target owned weight o) /\
  (forall o, o ∈ os -> sampled_after p now o since = true).
Proof.
  intros Hw Hn Hs (d & owned & weight & Hscan & Hw0 & Hd & Hb & Hsur & Htar & Hroom & Hrec)%fleet_balance_Some.
  rewrite balance_scan_spec in Hscan by (done || by intros ? _; split; apply not_elem_of_nil).
  destruct (forallb _ os) eqn:Hall; [|done]. injection Hscan as <- <-.
  rewrite !Z.add_0_l in *. cbv zeta. setoid_rewrite Z.add_0_l in Hrec.
  destruct (max_by_spec denser weighted os d denser_preorder Hw Hd) as [Hdin Hmax].
  split_and!; try (unfold MAX_TRANSFERS_PER_TICK in Hsur; lia).
  - exists d. split_and!; [done..| |lia]. intros o Ho. specialize (Hmax o Ho).
    unfold cmp_le, denser, then_with in Hmax.
    destruct (Z.compare_spec (active_cells o * max_active_cells d) (active_cells d * max_active_cells o));
      lia || done.
  - rewrite Hrec. intros (o & Ho & E & Hc). unfold can_receive in Hc. guards. intuition congruence.
  - intros s (o & Ho & <- & Hc)%Hrec. exists o. unfold can_receive in Hc. guards.
    destruct Hc as [[[_ Hr] _] He]. split_and!; try done.
    rewrite Forall_forall in Hw. destruct (Hw o Ho) as [_ Ha].
    unfold room, saturating_sub_u, BALANCE_DEADBAND_PERCENT in Hr. cbv zeta in Hr.
    set (tg := target _ _ o) in *. pose proof (Z.div_mod (tg * 2) 100 ltac:(lia)) as Hdm.
    pose proof (Z.mod_pos_bound (tg * 2) 100 ltac:(lia)) as Hm. lia.
  - intros o Ho. rewrite forallb_forall in Hall. apply Hall. by apply list_elem_of_In.
Qed.

(** ** Plans *)

Definition to_session (s : SessionId) (is_ : list CellTransferIntent) : list CellTransferIntent :=
  List.filter (fun i => destination i ≟ s) is_.

(** [o'] is [o] after the intents that chose it were reserved on it. *)
Record charged (is_ : list CellTransferIntent) (o o' : PlacementObservation) : Prop := {
  charged_session : session o' = session o;
  charged_static : authenticated o' = authenticated o /\ draining o' = draining o /\
    pressure o' = pressure o /\ max_active_cells o' = max_active_cells o /\
    job_capacity o' = job_capacity o;
  charged_memory : free_memory_bytes o' =
    free_memory_bytes o - sum_by intent_memory_bytes (to_session (session o) is_);
  charged_disk : free_disk_bytes o' =
    free_disk_bytes o - sum_by intent_disk_bytes (to_session (session o) is_);
  charged_cells : active_cells o' =
    active_cells o + Z.of_nat (length (to_session (session o) is_));
  charged_jobs : running_jobs o' =
    running_jobs o + sum_by intent_job_credits (to_session (session o) is_);
  charged_fits : to_session (session o) is_ <> [] ->
    0 <= free_memory_bytes o' /\ 0 <= free_disk_bytes o' /\
    active_cells o' <= max_active_cells o' /\ running_jobs o' <= job_capacity o'
}.

(** What justifies one intent. *)
Definition justified (now : Z) (os : list PlacementObservation) (ds : list CellTransferDemand)
    (i : CellTransferIntent) : Prop :=
  exists d src dst, d ∈ ds /\ src ∈ os /\ dst ∈ os /\
    i = MkIntent (demand_cell d) (session src) (demand_generation d) (session dst)
          (observed_at_ms src) (demand_memory_bytes d) (demand_disk_bytes d) (demand_job_credits d) /\
    demand_source d = session src /\ session dst <> session src /\
    authenticated src = true /\ authenticated dst = true /\ draining dst = false /\
    pressure dst = Pressure.Normal /\
    (settled d = true \/ maintenance d = true /\ draining src = true) /\
    (is_urgent src = true \/
     2 <= stable_observations d /\ MIN_RESIDENCE_MS <= now - resident_since_ms d /\
     forall at_, last_moved_at_ms d = Some at_ -> MIN_RESIDENCE_MS <= now - at_).

Section Plan_facts.
Context (blake3 : list byte -> Digest) (p : PlacementPlanner).
Context (now : Z) (os : list PlacementObservation) (ds : list CellTransferDemand).
Context (balance : option FleetBalance).
(** Job credits are unsigned. *)
Context (credits_unsigned : forall d, d ∈ ds -> 0 <= demand_job_credits d).
Local Abbreviation step := (plan_step blake3 p now os balance).

Record plan_inv (st : PlanState) : Prop := {
  plan_count : Z.of_nat (length (intents st)) <= MAX_TRANSFERS_PER_TICK;
  plan_bytes : bytes st = sum_by intent_disk_bytes (intents st);
  plan_limit : bytes st <= MAX_TRANSFER_BYTES_PER_TICK;
  plan_projected : Forall2 (charged (intents st)) os (projected st);
  plan_justified : Forall (justified now os ds) (intents st)
}.

Lemma find_session_Some l s o : find_session l s = Some o -> o ∈ l /\ session o = s.
Proof.
  unfold find_session. intros (l1 & l2 & -> & H & _)%find_split. guards.
  split; [apply elem_of_app; right; left|done].
Qed.

(** The taken branch of one iteration. *)
Record taken (st : PlanState) (d : CellTransferDemand) (src rcv : PlacementObservation)
    (st' : PlanState) : Prop := {
  taken_room : Z.of_nat (length (intents st)) <> MAX_TRANSFERS_PER_TICK;
  taken_found : find_session os (demand_source d) = Some src;
  taken_usable : unusable p now d src = false;
  taken_settled : negb (is_urgent src) && unsettled_residence now d = false;
  taken_bytes : bytes st + demand_disk_bytes d <= MAX_TRANSFER_BYTES_PER_TICK;
  taken_dest : find_session (projected st) (session rcv) = Some rcv;
  taken_other : session rcv <> demand_source d;
  taken_eligible : exists o, o ∈ projected st /\ session o = session rcv /\
    eligibility p now o = Eligibility.Eligible;
  taken_fits : fits d rcv = true;
  taken_result : st' = MkPlan
    (intents st ++ [MkIntent (demand_cell d) (demand_source d) (demand_generation d)
       (session rcv) (observed_at_ms src) (demand_memory_bytes d)
       (demand_disk_bytes d) (demand_job_credits d)])
    (bytes st + demand_disk_bytes d) (donations st')
    (update_session (reserve d) (session rcv) (projected st))
}.

Lemma plan_step_cases st d st' :
  step st d = Ok st' -> st' = st \/ exists src rcv, taken st d src rcv st'.
Proof.
  unfold plan_step. destruct (Z.eqb_spec (Z.of_nat (length (intents st))) MAX_TRANSFERS_PER_TICK);
    [by intros [= <-]; left|].
  destruct (find_session os (demand_source d)) as [src|] eqn:Hsrc; [|by intros [= <-]; left].
  destruct (unusable p now d src) eqn:Hu; [by intros [= <-]; left|]. cbv zeta.
  destruct (negb (is_urgent src) && unsettled_residence now d) eqn:Hr; [by intros [= <-]; left|].
  destruct (checked_add_u64 (bytes st) (demand_disk_bytes d)) as [nb|] eqn:Hb; [|by intros [= <-]; left].
  apply checked_add_u64_Some in Hb as [-> _].
  destruct (Z.ltb_spec MAX_TRANSFER_BYTES_PER_TICK (bytes st + demand_disk_bytes d));
    [by intros [= <-]; left|].
  intros (ranked & Hrank & Hk)%bind_Ok.
  destruct (List.find _ ranked) as [dest|] eqn:Hf; [|by injection Hk as <-; left].
  apply find_split in Hf as (l1 & l2 & Hl & Hacc & _).
  destruct (find_session (projected st) (score_session dest)) as [rcv|] eqn:Hrcv;
    [|by injection Hk as <-; left].
  injection Hk as <-. right. exists src, rcv.
  destruct (find_session_Some _ _ _ Hrcv) as [_ Es].
  unfold acceptable in Hacc. rewrite Hrcv in Hacc. cbn [is_some_and] in Hacc.
  rewrite !andb_true_iff, negb_true_iff, eqb_of_false in Hacc. destruct Hacc as [[Hne Hel] [Hfit _]].
  constructor; rewrite ?Es; try done.
  apply reject_Ok in Hrank as [_ [= Hrank]].
  assert (dest ∈ sort_by score_order (map (score blake3 p (demand_cell d) now) (projected st))) as Hin.
  { rewrite Hrank, Hl. apply elem_of_app. right. left. }
  rewrite sort_by_perm in Hin. apply list_elem_of_fmap in Hin as (o & -> & Ho).
  exists o. unfold is_eligible in Hel. guards_in Hel. unfold score in *. cbv zeta in *.
  destruct (eligibility p now o ≠? Eligibility.Eligible) eqn:E; guards_in E; simpl in *; [congruence|].
  guards. done.
Qed.

(** Reserving an intent on the one receiver it names keeps the projection exact. *)
Lemma update_charged is_ i d l l' rcv :
  NoDup (map session l) -> Forall2 (charged is_) l l' ->
  find_session l' (destination i) = Some rcv -> fits d rcv = true -> 0 < demand_job_credits d ->
  intent_memory_bytes i = demand_memory_bytes d -> intent_disk_bytes i = demand_disk_bytes d ->
  intent_job_credits i = demand_job_credits d ->
  Forall2 (charged (is_ ++ [i])) l (update_session (reserve d) (destination i) l').
Proof.
  intros Hnd HF Hfind Hfit Hcr Em Ed Ej.
  assert (forall o, to_session (session o) (is_ ++ [i]) =
    to_session (session o) is_ ++ (if destination i ≟ session o then [i] else [])) as Hto.
  { intros o. unfold to_session. rewrite List.filter_app. f_equal. }
  assert (forall o o', charged is_ o o' -> session o <> destination i -> charged (is_ ++ [i]) o o') as Hother.
  { intros o o' [] Hne. assert (to_session (session o) (is_ ++ [i]) = to_session (session o) is_) as E.
    { rewrite Hto. destruct (destination i ≟ session o) eqn:E; [guards; congruence|apply app_nil_r]. }
    constructor; rewrite ?E; done. }
  induction HF as [|o o' l l' Ho HF IH]; simpl in *; [done|].
  apply NoDup_cons in Hnd as [Hnotin Hnd].
  unfold find_session in Hfind; cbn [List.find] in Hfind. rewrite (charged_session _ _ _ Ho) in *.
  destruct (session o ≟ destination i) eqn:E; guards.
  - injection Hfind as ->. constructor.
    + unfold fits, saturating_sub_u in Hfit. guards. destruct Ho. constructor; simpl; try done;
        rewrite ?Hto, <- ?E, ?eqb_of_refl, ?sum_by_app, ?length_app; simpl; unfold sum_by in *; simpl;
        try intros _; lia.
    + assert (forall o2, o2 ∈ l -> session o2 <> destination i) as Hl.
      { intros o2 Ho2 E2. apply Hnotin. rewrite E, <- E2. by apply list_elem_of_fmap_2. }
      clear -HF Hother Hl. induction HF as [|a b l l' Hab HF IH]; constructor.
      * apply Hother; [done|]. apply Hl. left.
      * apply IH. intros o2 Ho2. apply Hl. by right.
  - constructor; [by apply Hother|by apply IH].
Qed.

Lemma charged_find is_ l l' o' :
  Forall2 (charged is_) l l' -> o' ∈ l' -> exists o, o ∈ l /\ charged is_ o o'.
Proof.
  intros HF Hin. induction HF as [|a b l l' Hab HF IH]; [by apply not_elem_of_nil in Hin|].
  apply elem_of_cons in Hin as [->|Hin]; [exists a; split; [left|done]|].
  destruct (IH Hin) as (o & Ho & Hc). exists o. split; [by right|done].
Qed.

Lemma eligible_facts o :
  eligibility p now o = Eligibility.Eligible ->
  authenticated o = true /\ draining o = false /\ pressure o = Pressure.Normal.
Proof.
  unfold eligibility, fresh. intros He. repeat case_match; try done. guards. tauto.
Qed.

Lemma usable_facts d src :
  unusable p now d src = false ->
  (settled d = true \/ maintenance d = true /\ draining src = true) /\
  authenticated src = true /\ demand_job_credits d <> 0.
Proof.
  unfold unusable. rewrite !orb_false_iff. intros Hu. destruct_and!.
  rewrite negb_false_iff in *. rewrite Z.eqb_neq in *. split_and!; [|done..].
  destruct (settled d), (maintenance d), (draining src); naive_solver.
Qed.

Lemma plan_step_inv st d st' :
  NoDup (map session os) -> d ∈ ds -> plan_inv st -> step st d = Ok st' -> plan_inv st'.
Proof.
  intros Hnd Hd [Hc Hb Hl Hp Hj] Hstep.
  apply plan_step_cases in Hstep as [->|(src & rcv & [])]; [done|]. rewrite taken_result0.
  destruct (find_session_Some _ _ _ taken_found0) as [Hsrc Esrc].
  constructor; cbn [intents bytes projected]; [..|apply Forall_app; split; [done|apply Forall_singleton]].
  - rewrite length_app. simpl. unfold MAX_TRANSFERS_PER_TICK in *. lia.
  - rewrite sum_by_app, Hb. unfold sum_by; simpl. lia.
  - done.
  - assert (0 < demand_job_credits d) as Hcr.
    { specialize (credits_unsigned d Hd). apply usable_facts in taken_usable0 as (_ & _ & ?). lia. }
    eapply (update_charged _ (MkIntent _ _ _ _ _ _ _ _)); done.
  - destruct taken_eligible0 as (o' & Ho' & Es' & He').
    destruct (charged_find _ _ _ _ Hp Ho') as (dst & Hdst & [Ess (Ea & Edr & Epr & _)]).
    apply eligible_facts in He' as (Ha & Hdr & Hpr).
    exists d, src, dst. apply usable_facts in taken_usable0 as (Hset & Hauth & _).
    assert (session dst = session rcv) as Edst by congruence.
    split_and!; try done; try congruence.
    destruct (is_urgent src) eqn:Eu; [by left|right]. simpl in taken_settled0.
    unfold unsettled_residence in taken_settled0. guards.
    destruct taken_settled0 as [[? ?] Hm]. split_and!; try lia.
    intros at_ Hat. rewrite Hat in Hm. simpl in Hm. lia.
Qed.

Lemma plan_loop_inv l st st' :
  NoDup (map session os) -> (forall d, d ∈ l -> d ∈ ds) ->
  NoDup (map demand_cell l) -> NoDup (map intent_cell (intents st)) ->
  (forall d, d ∈ l -> demand_cell d ∉ map intent_cell (intents st)) ->
  plan_inv st -> plan_loop blake3 p now os balance st l = Ok st' ->
  plan_inv st' /\ NoDup (map intent_cell (intents st')).
Proof.
  intros Hnd. revert st. induction l as [|d l IH]; intros st Hin Hdc Hic Hdis Hinv; simpl.
  { by intros [= <-]. }
  intros (st1 & Hstep & Hloop)%bind_Ok. apply NoDup_cons in Hdc as [Hdn Hdc].
  assert (d ∈ ds) as Hd by (apply Hin; left).
  pose proof (plan_step_inv _ _ _ Hnd Hd Hinv Hstep) as Hinv1.
  assert (map intent_cell (intents st1) = map intent_cell (intents st) \/
          map intent_cell (intents st1) = map intent_cell (intents st) ++ [demand_cell d]) as Hcells.
  { apply plan_step_cases in Hstep as [->|(src & rcv & [])]; [by left|right].
    rewrite taken_result0. simpl. by rewrite map_app. }
  apply (IH st1); [|done| | |done|done].
  - intros d' Hd'. apply Hin. by right.
  - destruct Hcells as [->| ->]; [done|]. apply NoDup_app. split_and!; [done| |apply NoDup_singleton].
    intros c Hc ->%list_elem_of_singleton. apply (Hdis d); [left|done].
  - intros d' Hd'. specialize (Hdis d' (list_elem_of_further _ _ _ Hd')).
    destruct Hcells as [->| ->]; [done|]. rewrite elem_of_app. intros [Hc|Hc]; [done|].
    apply list_elem_of_singleton in Hc. apply Hdn. rewrite <- Hc. by apply list_elem_of_fmap_2.
Qed.
End Plan_facts.

Lemma has_dup_false {A} `{EqDecision A} (l seen : list A) :
  has_dup l seen = false -> NoDup l /\ forall x, x ∈ l -> x ∉ seen.
Proof.
  revert seen. induction l as [|x l IH]; intros seen; simpl.
  { intros _. split; [constructor|]. by intros x ?%not_elem_of_nil. }
  rewrite orb_false_iff. unfold is_dup. rewrite bool_decide_eq_false. intros [Hx [Hnd Hl]%IH].
  split.
  - constructor; [|done]. intros Hin. apply (Hl x Hin). left.
  - intros y [->|Hy]%elem_of_cons; [done|]. intros Hs. apply (Hl y Hy). by right.
Qed.

Lemma initial_charged os : Forall2 (charged []) os (map (set_owner false) os).
Proof.
  induction os as [|o os IH]; constructor; [|done].
  constructor; simpl; unfold sum_by; simpl; try done; lia.
Qed.

(** C34: a transfer plan is bounded, justified and never oversubscribes. A plan has
    at most two intents, moves at most 8 GiB and each Cell at most once; every
    intent comes from a demand of an authenticated source that is settled (or
    under maintenance on a draining source) and either urgent or long resident,
    and goes to another node that is authenticated, not draining and under no
    pressure; and for every node the intents that chose it together fit its free
    memory, free disk, Cell slots and job slots. *)
Theorem plan_safe blake3 p now os ds balance is_ :
  (forall d, d ∈ ds -> 0 <= demand_job_credits d) ->
  plan_transfers blake3 p now os ds balance = Ok is_ ->
  (length is_ <= 2)%nat /\
  sum_by intent_disk_bytes is_ <= MAX_TRANSFER_BYTES_PER_TICK /\
  NoDup (map intent_cell is_) /\
  (forall i, i ∈ is_ -> justified now os ds i) /\
  (forall o, o ∈ os -> to_session (session o) is_ <> [] ->
     sum_by intent_memory_bytes (to_session (session o) is_) <= free_memory_bytes o /\
     sum_by intent_disk_bytes (to_session (session o) is_) <= free_disk_bytes o /\
     active_cells o + Z.of_nat (length (to_session (session o) is_)) <= max_active_cells o /\
     running_jobs o + sum_by intent_job_credits (to_session (session o) is_) <= job_capacity o).
Proof.
  intros Hcr. unfold plan_transfers. rewrite !reject_Ok, bind_Ok.
  intros (_ & [_ Hs]%orb_false_iff & Hc & st & Hloop & [= <-]).
  apply has_dup_false in Hs as [Hs _], Hc as [Hc _].
  apply (plan_loop_inv blake3 p now os ds balance Hcr _ _ _ Hs) in Hloop as [[] Hnd].
  2: intros d; by rewrite sort_by_perm.
  2: by rewrite (Permutation_map demand_cell (sort_by_perm _ ds)).
  2: constructor.
  2: intros d _; apply not_elem_of_nil.
  2: { constructor; simpl; try done. apply initial_charged. }
  unfold MAX_TRANSFERS_PER_TICK in *. split_and!; try done; try lia.
  - intros i Hi. rewrite Forall_forall in plan_justified0. auto.
  - intros o Ho Hne. apply list_elem_of_lookup in Ho as [k Hk].
    eapply Forall2_lookup_l in plan_projected0 as (o' & _ & []); [|exact Hk].
    destruct charged_fits0 as (? & ? & ? & ?); [done|].
    destruct charged_static0 as (_ & _ & _ & Em & Ej). rewrite Em, Ej in *. lia.
Qed.

(** ** Concrete snapshots *)

Definition example_node (b : byte) (cells : Z) : PlacementObservation :=
  MkObservation (array_fill 16 b) (array_fill 16 b) 1000 100 50 1000 500 cells 10 0 4 0 0 0
    Pressure.Normal false true false.
Definition example_fleet : list PlacementObservation :=
  [example_node x01 9; example_node x02 1; example_node x03 0].
Definition example_hash (l : list byte) : Digest := array_fill 32 x07.
Definition example_demand : CellTransferDemand :=
  MkDemand (array_fill 32 x0a) (array_fill 16 x01) 3 20 200 1 0 500 None 2 true false.

Lemma example_fleet_weighted : Forall weighted example_fleet.
Proof. repeat constructor; vm_compute; discriminate. Qed.
Lemma example_nodes_nodup : NoDup (map node example_fleet).
Proof. apply (bool_decide_eq_true_1 _). vm_compute. reflexivity. Qed.
Lemma example_sessions_nodup : NoDup (map session example_fleet).
Proof. apply (bool_decide_eq_true_1 _). vm_compute. reflexivity. Qed.

Definition example_balance : FleetBalance :=
  MkBalance (array_fill 16 x01) 2 [array_fill 16 x03; array_fill 16 x02].
Lemma example_balance_ok :
  fleet_balance default_planner 1000 example_fleet 0 = Ok (Some example_balance).
Proof. vm_compute. reflexivity. Qed.

Definition example_intent : CellTransferIntent :=
  MkIntent (array_fill 32 x0a) (array_fill 16 x01) 3 (array_fill 16 x03) 1000 20 200 1.
Lemma example_plan_ok :
  plan_transfers example_hash default_planner 1000
    (map (fun o => MkObservation (node o) (session o) (observed_at_ms o) (memory_capacity_bytes o)
            (free_memory_bytes o) (disk_capacity_bytes o) (free_disk_bytes o) (active_cells o)
            (max_active_cells o) (running_jobs o) (job_capacity o) 0 0 0
            (if node o ≟ array_fill 16 x01 then Pressure.Shedding else Pressure.Normal)
            false true false) example_fleet)
    [example_demand] (Some example_balance) = Ok [example_intent].
Proof. vm_compute. reflexivity. Qed.

Lemma placement_order_invariant_witness :
  fleet_balance default_planner 1000 example_fleet 0 =
  fleet_balance default_planner 1000 (rev example_fleet) 0.
Proof.
  apply (placement_order_invariant example_hash default_planner example_fleet (rev example_fleet));
    [apply Permutation_rev|apply example_nodes_nodup|apply example_sessions_nodup
    |apply example_fleet_weighted].
Defined.

Lemma choose_best_witness :
  exists r, choose example_hash default_planner (array_fill 32 x0a) 1000 example_fleet = Ok r /\
    is_Some r.
Proof.
  destruct (choose_best example_hash default_planner (array_fill 32 x0a) 1000 example_fleet)
    as (r & Hr & Hm); [vm_compute; discriminate|].
  exists r. split; [exact Hr|]. destruct r as [s|]; [eexists; reflexivity|].
  exfalso. apply (Hm (example_node x03 0)); [right; right; left|vm_compute; reflexivity].
Defined.

Lemma fleet_balance_sound_witness :
  1 <= surplus example_balance <= 2 /\ (donor example_balance ∉ receivers example_balance).
Proof.
  destruct (fleet_balance_sound default_planner 1000 example_fleet 0 example_balance
    example_fleet_weighted example_nodes_nodup example_sessions_nodup example_balance_ok)
    as (_ & H1 & H2 & _).
  split; [exact H1|exact H2].
Defined.

Lemma plan_safe_witness :
  (length [example_intent] <= 2)%nat /\
  sum_by intent_disk_bytes [example_intent] <= MAX_TRANSFER_BYTES_PER_TICK.
Proof.
  assert (forall d, d ∈ [example_demand] -> 0 <= demand_job_credits d) as Hc.
  { intros d ->%list_elem_of_singleton. vm_compute. discriminate. }
  destruct (plan_safe example_hash default_planner 1000 _ [example_demand] (Some example_balance)
    [example_intent] Hc example_plan_ok) as (H1 & H2 & _).
  split; [exact H1|exact H2].
Defined.
