(* ===== verification/Pressure.v ===== *)
(** * Pressure: hysteretic pressure classification and movement budgets

    Models [crates/cellule-runtime/src/fleet/pressure.rs]: the classifier that
    turns utilization samples into a pressure state, and the budgets that pace
    Cell movement off a node. Both are small state machines driven by samples and
    calls, modelled as functions from a state and an input to the next state. *)

From Stdlib Require Import ZArith Lia.
From Stdlib Require Import Strings.Byte.
From stdpp Require Import base strings relations.
From stdpp Require Import list.
From S2P Require Import Prelude Identity.

Local Open Scope bool_scope.
Local Infix "≟" := eqb_of (at level 70).
Local Notation "x ≠? y" := (negb (eqb_of x y)) (at level 70).

(*@ fleet/pressure.rs 4-4 MAX_PERMILLE *)
Definition MAX_PERMILLE : Z := 1000.

Module PState.
(*@ fleet/pressure.rs 8-21 PressureState *)
Inductive PressureState := Normal | Constrained | Shedding | Recovering | Critical.
End PState.
Abbreviation PressureState := PState.PressureState.

Global Instance PressureState_eq_dec : EqDecision PressureState.
Proof. solve_decision. Defined.

(*@ fleet/pressure.rs 25-36 PressureSample *)
Record PressureSample := MkSample {
  at_ms : Z;
  memory_used_permille : Z;
  disk_used_permille : Z;
  jobs_used_permille : Z;
  stale : bool
}.

(*@ fleet/pressure.rs 39-48 PressureSample::validate *)
Definition sample_validate (s : PressureSample) : Result unit :=
  if (at_ms s <? 0) || (MAX_PERMILLE <? memory_used_permille s)
     || (MAX_PERMILLE <? disk_used_permille s) || (MAX_PERMILLE <? jobs_used_permille s)
  then Err (Error.Control "pressure sample is invalid") else Ok tt.

(*@ fleet/pressure.rs 50-54 PressureSample::elevated *)
Definition elevated (s : PressureSample) (threshold : Z) : bool :=
  (threshold <=? memory_used_permille s) || (threshold <=? disk_used_permille s)
  || (threshold <=? jobs_used_permille s).

(*@ fleet/pressure.rs 56-60 PressureSample::recovered *)
Definition recovered (s : PressureSample) (threshold : Z) : bool :=
  (memory_used_permille s <=? threshold) && (disk_used_permille s <=? threshold)
  && (jobs_used_permille s <=? threshold).

(*@ fleet/pressure.rs 65-72 PressureClassifier *)
Record PressureClassifier := MkClassifier {
  enter_permille : Z;
  exit_permille : Z;
  dwell_ms : Z;
  state : PressureState;
  pending : option (PressureState * Z);
  last_at_ms : option Z
}.

(*@ fleet/pressure.rs 76-88 PressureClassifier::new *)
Definition classifier_new (enter exit_ dwell : Z) : Result PressureClassifier :=
  if (MAX_PERMILLE <? enter) || (enter <=? exit_) || (dwell <=? 0)
  then Err (Error.Control "pressure thresholds are invalid")
  else Ok (MkClassifier enter exit_ dwell PState.Normal None None).

(** Field assignment. *)
Definition with_state (s : PressureState) (p : option (PressureState * Z)) (last : option Z)
    (c : PressureClassifier) : PressureClassifier :=
  MkClassifier (enter_permille c) (exit_permille c) (dwell_ms c) s p last.

(** The state a fresh sample asks for. *)
Definition desired (c : PressureClassifier) (s : PressureSample) : PressureState :=
  if elevated s (enter_permille c) then
    if (enter_permille c <=? memory_used_permille s) && (enter_permille c <=? disk_used_permille s)
    then PState.Critical else PState.Shedding
  else if recovered s (exit_permille c) then PState.Normal
  else PState.Constrained.

(** The successor of one accepted observation; the state is returned to the caller. *)
(*@ fleet/pressure.rs 97-149 PressureClassifier::observe *)
Definition observe (c : PressureClassifier) (s : PressureSample) : Result PressureClassifier :=
  _ ← sample_validate s;
  if is_some_and (fun last => at_ms s <? last) (last_at_ms c)
  then Err (Error.Control "pressure sample time regressed")
  else
    let last := Some (at_ms s) in
    if stale s then
      Ok (with_state (if state c ≟ PState.Normal then PState.Constrained else state c) None last c)
    else
      let want := desired c s in
      if want ≟ state c then Ok (with_state (state c) None last c)
      else match pending c with
      | None => Ok (with_state (state c) (Some (want, at_ms s)) last c)
      | Some (p, started) =>
          if p ≠? want then Ok (with_state (state c) (Some (want, at_ms s)) last c)
          else if dwell_ms c <=? saturating_sub_i64 (at_ms s) started then
            let next := if want ≟ PState.Normal then PState.Recovering else want in
            Ok (with_state (if next ≟ PState.Recovering then PState.Normal else next) None last c)
          else Ok (with_state (state c) (pending c) last c)
      end.

(** ** Movement budgets *)

(*@ fleet/pressure.rs 165-175 MovementBudget *)
Record MovementBudget := MkBudget {
  limit : Z;
  used : Z;
  interval_ms : Z;
  window_started_ms : Z;
  completed_in_window : Z;
  requested_limit : Z;
  requested_used : Z;
  requested_window_started_ms : Z;
  requested_completed_in_window : Z
}.

(*@ fleet/pressure.rs 274-277 MovementPermit *)
Record MovementPermit := MkPermit { completed : bool; requested : bool }.

(*@ fleet/pressure.rs 186-205 MovementBudget::with_requested_limit *)
Definition with_requested_limit (l r interval : Z) : Result MovementBudget :=
  if (l =? 0) || (r =? 0) || (interval <=? 0) then Err (Error.Capacity "movement budget")
  else Ok (MkBudget l 0 interval 0 0 r 0 0 0).

(*@ fleet/pressure.rs 179-181 MovementBudget::new *)
Definition budget_new (l interval : Z) : Result MovementBudget := with_requested_limit l l interval.

(** The window of the automatic class restarts before the limit is tested, and
    stays restarted when the call is refused. *)
Definition roll_window (b : MovementBudget) (now_ms : Z) : MovementBudget :=
  if interval_ms b <=? saturating_sub_i64 now_ms (window_started_ms b)
  then MkBudget (limit b) (used b) (interval_ms b) now_ms 0 (requested_limit b)
         (requested_used b) (requested_window_started_ms b) (requested_completed_in_window b)
  else b.
Definition roll_requested (b : MovementBudget) (now_ms : Z) : MovementBudget :=
  if interval_ms b <=? saturating_sub_i64 now_ms (requested_window_started_ms b)
  then MkBudget (limit b) (used b) (interval_ms b) (window_started_ms b) (completed_in_window b)
         (requested_limit b) (requested_used b) now_ms 0
  else b.

(*@ fleet/pressure.rs 208-224 MovementBudget::try_start *)
Definition try_start (b : MovementBudget) (now_ms : Z) : MovementBudget * Result MovementPermit :=
  if now_ms <? window_started_ms b then (b, Err (Error.Control "movement time regressed"))
  else
    let b := roll_window b now_ms in
    if (limit b <=? used b) || (limit b <=? completed_in_window b)
    then (b, Err (Error.Capacity "movement budget"))
    else (MkBudget (limit b) (used b + 1) (interval_ms b) (window_started_ms b)
            (completed_in_window b) (requested_limit b) (requested_used b)
            (requested_window_started_ms b) (requested_completed_in_window b),
          Ok (MkPermit false false)).

(*@ fleet/pressure.rs 228-246 MovementBudget::try_start_requested *)
Definition try_start_requested (b : MovementBudget) (now_ms : Z)
  : MovementBudget * Result MovementPermit :=
  if now_ms <? requested_window_started_ms b
  then (b, Err (Error.Control "movement time regressed"))
  else
    let b := roll_requested b now_ms in
    if (requested_limit b <=? requested_used b)
       || (requested_limit b <=? requested_completed_in_window b)
    then (b, Err (Error.Capacity "movement budget"))
    else (MkBudget (limit b) (used b) (interval_ms b) (window_started_ms b)
            (completed_in_window b) (requested_limit b) (requested_used b + 1)
            (requested_window_started_ms b) (requested_completed_in_window b),
          Ok (MkPermit false true)).

(*@ fleet/pressure.rs 249-262 MovementBudget::complete *)
Definition complete (b : MovementBudget) (permit : MovementPermit) : MovementBudget * MovementPermit :=
  if completed permit then (b, permit)
  else if requested permit then
    (MkBudget (limit b) (used b) (interval_ms b) (window_started_ms b) (completed_in_window b)
       (requested_limit b) (saturating_sub_u (requested_used b) 1)
       (requested_window_started_ms b) (saturating_add_u32 (requested_completed_in_window b) 1),
     MkPermit true (requested permit))
  else
    (MkBudget (limit b) (saturating_sub_u (used b) 1) (interval_ms b) (window_started_ms b)
       (saturating_add_u32 (completed_in_window b) 1) (requested_limit b) (requested_used b)
       (requested_window_started_ms b) (requested_completed_in_window b),
     MkPermit true (requested permit)).

(** ** Sustained pressure *)

Fixpoint observe_all (c : PressureClassifier) (ss : list PressureSample) : Result PressureClassifier :=
  match ss with
  | [] => Ok c
  | s :: ss => c ← observe c s; observe_all c ss
  end.

(** A fresh sample that asks for [want] under the thresholds of [c]. *)
Definition asks (c : PressureClassifier) (want : PressureState) (s : PressureSample) : Prop :=
  stale s = false /\ desired c s = want.

(** A pending change is backed by an unbroken run of samples that ask for it. *)
Definition pending_backed (c : PressureClassifier) (ss : list PressureSample) : Prop :=
  forall want started, pending c = Some (want, started) ->
    exists pre s0 mid, ss = pre ++ s0 :: mid /\ at_ms s0 = started /\
      Forall (asks c want) (s0 :: mid).

Definition same_thresholds (c c' : PressureClassifier) : Prop :=
  enter_permille c' = enter_permille c /\ exit_permille c' = exit_permille c /\
  dwell_ms c' = dwell_ms c.

Lemma asks_thresholds c c' want s : same_thresholds c c' -> asks c want s <-> asks c' want s.
Proof. intros (E1 & E2 & _). unfold asks, desired. by rewrite E1, E2. Qed.

Lemma desired_stable c s : desired c s <> PState.Recovering.
Proof. unfold desired. repeat case_match; done. Qed.

(** Everything one observation can do. *)
Inductive observed (c : PressureClassifier) (s : PressureSample) (c' : PressureClassifier) : Prop :=
| observed_stale :
    stale s = true -> pending c' = None ->
    (state c' = state c \/ state c = PState.Normal /\ state c' = PState.Constrained) ->
    observed c s c'
| observed_same :
    state c' = state c -> pending c' = None -> observed c s c'
| observed_started :
    stale s = false -> state c' = state c -> pending c' = Some (desired c s, at_ms s) ->
    observed c s c'
| observed_waiting :
    stale s = false -> state c' = state c ->
    (exists t, pending c = Some (desired c s, t)) -> pending c' = pending c -> observed c s c'
| observed_changed t :
    stale s = false -> pending c = Some (desired c s, t) -> dwell_ms c <= saturating_sub_i64 (at_ms s) t ->
    state c' = desired c s -> pending c' = None -> observed c s c'.

Lemma observe_cases c s c' :
  observe c s = Ok c' -> observed c s c' /\ same_thresholds c c'.
Proof.
  unfold observe. rewrite bind_Ok. intros (_ & _ & [_ H]%reject_Ok). cbv zeta in H.
  destruct (stale s) eqn:Es.
  { injection H as <-. split; [|done]. apply observed_stale; [done..|]. simpl.
    destruct (state c ≟ PState.Normal) eqn:E; guards; auto. }
  destruct (desired c s ≟ state c) eqn:Ed.
  { injection H as <-. split; [by apply observed_same|done]. }
  destruct (pending c) as [[q started]|] eqn:Ep.
  2: { injection H as <-. split; [by apply observed_started|done]. }
  destruct (q ≠? desired c s) eqn:Eq; guards_in Eq.
  { injection H as <-. split; [by apply observed_started|done]. }
  subst q. destruct (Z.leb_spec (dwell_ms c) (saturating_sub_i64 (at_ms s) started)).
  - injection H as <-. split; [|done]. apply (observed_changed c s _ started); try done. simpl.
    pose proof (desired_stable c s). destruct (desired c s); done.
  - injection H as <-. split; [|done]. apply observed_waiting; try done. by exists started.
Qed.

Lemma observe_backed c s c' ss :
  observe c s = Ok c' -> pending_backed c ss -> pending_backed c' (ss ++ [s]).
Proof.
  intros [Ho Ht]%observe_cases Hb want started Hp.
  destruct Ho as [Hs Hn _|_ Hn|Hs _ Hn|Hs _ [t Hpc] Hn|t _ _ _ _ Hn]; rewrite Hn in Hp; try done.
  - injection Hp as <- <-. exists ss, s, []. split_and!; [done..|].
    constructor; [|constructor]. by apply (proj1 (asks_thresholds _ _ _ _ Ht)).
  - rewrite Hpc in Hp. injection Hp as <- <-.
    destruct (Hb _ _ Hpc) as (pre & s0 & mid & -> & E & Hall).
    exists pre, s0, (mid ++ [s]). split_and!; [by rewrite <- app_assoc|done|].
    rewrite app_comm_cons. apply Forall_app. split; [|constructor; [|constructor]].
    + eapply Forall_impl; [exact Hall|]. intros x. by apply (proj1 (asks_thresholds _ _ _ _ Ht)).
    + by apply (proj1 (asks_thresholds _ _ _ _ Ht)).
Qed.

Lemma observe_all_inv c0 ss c pre :
  observe_all c0 ss = Ok c -> pending_backed c0 pre -> state c0 <> PState.Recovering ->
  pending_backed c (pre ++ ss) /\ same_thresholds c0 c /\ state c <> PState.Recovering.
Proof.
  revert c0 pre. induction ss as [|s ss IH]; intros c0 pre; simpl.
  { intros [= <-] Hb Hr. by rewrite app_nil_r. }
  intros (c1 & Ho & Hall)%bind_Ok Hb Hr.
  pose proof (observe_backed _ _ _ _ Ho Hb) as Hb1.
  apply observe_cases in Ho as [Ho Ht].
  assert (state c1 <> PState.Recovering) as Hr1.
  { destruct Ho as [_ _ [-> | [_ ->]] | -> _ | _ -> _ | _ -> _ _ | t _ _ _ -> _]; try done. apply desired_stable. }
  destruct (IH c1 (pre ++ [s]) Hall Hb1 Hr1) as (H1 & (E1 & E2 & E3) & H3).
  rewrite <- app_assoc in H1. destruct Ht as (F1 & F2 & F3).
  split_and!; [done| |done]. unfold same_thresholds. split_and!; congruence.
Qed.

(** C38: the classifier changes its mind only on sustained evidence. After any
    history of accepted samples, a fresh sample moves the reported state only if
    an unbroken run of fresh samples, it being the last, asked for exactly that
    state for at least the dwell time; a stale sample can only constrain a normal
    node, never declare recovery; and the transient recovering marker is never
    reported. *)
Theorem pressure_sustained enter exit_ dwell c0 ss c s c' :
  classifier_new enter exit_ dwell = Ok c0 ->
  observe_all c0 ss = Ok c -> observe c s = Ok c' ->
  (stale s = false -> state c' <> state c ->
     exists pre s0 mid, ss = pre ++ s0 :: mid /\ dwell <= at_ms s - at_ms s0 /\
       Forall (asks c0 (state c')) (s0 :: mid ++ [s])) /\
  (stale s = true -> state c' = state c \/ state c = PState.Normal /\ state c' = PState.Constrained) /\
  state c' <> PState.Recovering.
Proof.
  intros Hnew Hall Hobs. apply reject_Ok in Hnew as [Hg [= <-]]. guards.
  set (c0 := MkClassifier enter exit_ dwell PState.Normal None None) in *.
  destruct (observe_all_inv c0 ss c [] Hall) as (Hb & Ht & Hr); [done..|]. change ([] ++ ss) with ss in Hb.
  assert (state c' <> PState.Recovering) as Hr'.
  { destruct (observe_all_inv c0 (ss ++ [s]) c' []) as (_ & _ & ?); try done.
    clear -Hall Hobs. revert Hall. generalize c0. induction ss as [|x ss IH]; intros d; simpl.
    - intros [= ->]. by rewrite Hobs.
    - intros (d1 & -> & Hd)%bind_Ok. simpl. by apply IH. }
  apply observe_cases in Hobs as [Ho _]. split_and!; [| |done].
  2: { intros Hs. destruct Ho as [_ _ H1 | E _ | ? _ _ | ? _ _ _ | t ? _ _ _ _]; [done|by left|congruence..]. }
  intros Hs Hne. destruct Ho as [Hs' _ _|E _|_ E _|_ E _ _|t _ Hp Hd Hst _]; try congruence.
  destruct (Hb _ _ Hp) as (pre & s0 & mid & -> & E & Hf). exists pre, s0, mid. simpl.
  split_and!; [done| |].
  - destruct Ht as (_ & _ & Edw). rewrite Edw in Hd. simpl in Hd.
    unfold saturating_sub_i64, i64_min, i64_max in Hd. rewrite E. lia.
  - rewrite Hst, app_comm_cons. apply Forall_app. split.
    + eapply Forall_impl; [exact Hf|]. intros x. by apply (proj2 (asks_thresholds _ _ _ _ Ht)).
    + constructor; [|constructor]. by apply (proj2 (asks_thresholds _ _ _ _ Ht)).
Qed.

(** ** Movement *)

(** The permits handed out and not yet completed. *)
Record Movement := MkMovement { budget : MovementBudget; outstanding : list MovementPermit }.

Inductive movement_step : Movement -> Movement -> Prop :=
| move_start b ps now b' permit :
    try_start b now = (b', Ok permit) -> movement_step (MkMovement b ps) (MkMovement b' (permit :: ps))
| move_start_refused b ps now b' e :
    try_start b now = (b', Err e) -> movement_step (MkMovement b ps) (MkMovement b' ps)
| move_request b ps now b' permit :
    try_start_requested b now = (b', Ok permit) ->
    movement_step (MkMovement b ps) (MkMovement b' (permit :: ps))
| move_request_refused b ps now b' e :
    try_start_requested b now = (b', Err e) -> movement_step (MkMovement b ps) (MkMovement b' ps)
| move_complete b ps1 permit ps2 :
    movement_step (MkMovement b (ps1 ++ permit :: ps2))
      (MkMovement (complete b permit).1 (ps1 ++ ps2)).

Definition count (r : bool) (ps : list MovementPermit) : Z :=
  Z.of_nat (length (List.filter (fun p => Bool.eqb (requested p) r) ps)).

Record movement_inv (l r : Z) (m : Movement) : Prop := {
  move_limit : limit (budget m) = l /\ requested_limit (budget m) = r;
  move_fresh : Forall (fun p => completed p = false) (outstanding m);
  move_used : used (budget m) = count false (outstanding m) /\ used (budget m) <= l;
  move_requested : requested_used (budget m) = count true (outstanding m) /\
                   requested_used (budget m) <= r;
  move_window : 0 <= completed_in_window (budget m) /\
                completed_in_window (budget m) + used (budget m) <= 2 * l - 1;
  move_requested_window : 0 <= requested_completed_in_window (budget m) /\
                requested_completed_in_window (budget m) + requested_used (budget m) <= 2 * r - 1
}.

Lemma count_app r ps1 p ps2 :
  count r (ps1 ++ p :: ps2) = count r (ps1 ++ ps2) + (if Bool.eqb (requested p) r then 1 else 0).
Proof.
  unfold count. rewrite !List.filter_app, !length_app. simpl. case_match; simpl; lia.
Qed.
Lemma count_nonneg r ps : 0 <= count r ps.
Proof. unfold count. lia. Qed.

Ltac roll_cases :=
  unfold try_start, try_start_requested, roll_window, roll_requested in *; cbv zeta in *;
  repeat match goal with
  | H : context [if ?b then _ else _] |- _ => destruct b eqn:?
  end; simpl in *; simplify_eq; guards; simpl in *.

Lemma movement_step_inv l r m m' :
  0 < l -> 0 < r -> movement_inv l r m -> movement_step m m' -> movement_inv l r m'.
Proof.
  intros Hl Hr Hm Hst. destruct Hst as [b ps now b' permit H|b ps now b' e H|b ps now b' permit H|b ps now b' e H|b ps1 permit ps2];
    destruct Hm as [[Ea Eb] Hf [Hu Hul] [Hq Hql] [Hw0 Hw] [Hv0 Hv]]; simpl in *.
  1-4: roll_cases; constructor; simpl; try done; unfold count in *; simpl; try (by constructor); lia.
  pose proof (count_nonneg false (ps1 ++ ps2)). pose proof (count_nonneg true (ps1 ++ ps2)).
  rewrite count_app in Hu, Hq. apply Forall_app in Hf as [Hf1 [Hp Hf2]%Forall_cons].
  unfold complete, saturating_sub_u, saturating_add_u32, u32_max in *. rewrite Hp.
  destruct (requested permit); simpl in *; constructor; simpl; try done;
    try (by apply Forall_app); lia.
Qed.

(** Movement stays within its budgets. For any sequence of starts, refusals and
    completions from a new budget, automatic and requested movements each have at
    most their limit in flight, exactly the permits handed out and not completed,
    and neither class draws on the other's; in one window a class completes fewer
    than twice its limit. *)
Theorem movement_bounded l r interval b m :
  0 < l -> 0 < r -> with_requested_limit l r interval = Ok b ->
  rtc movement_step (MkMovement b []) m ->
  used (budget m) = count false (outstanding m) /\ used (budget m) <= l /\
  requested_used (budget m) = count true (outstanding m) /\ requested_used (budget m) <= r /\
  completed_in_window (budget m) <= 2 * l - 1 /\
  requested_completed_in_window (budget m) <= 2 * r - 1.
Proof.
  intros Hl Hr [_ [= <-]]%reject_Ok Hrun.
  assert (movement_inv l r m) as [_ _ [? ?] [? ?] [? ?] [? ?]].
  { assert (movement_inv l r (MkMovement (MkBudget l 0 interval 0 0 r 0 0 0) [])) as H0
      by (constructor; simpl; unfold count; simpl; try constructor; lia).
    clear -Hl Hr H0 Hrun. induction Hrun; [done|]. eauto using movement_step_inv. }
  pose proof (count_nonneg false (outstanding m)). pose proof (count_nonneg true (outstanding m)).
  split_and!; lia.
Qed.

(** ** Concrete runs *)

Definition example_classifier : PressureClassifier :=
  MkClassifier 900 700 1000 PState.Normal None None.
Definition hot (t : Z) : PressureSample := MkSample t 950 100 100 false.

Lemma pressure_sustained_witness :
  exists pre s0 mid, [hot 0; hot 500] = pre ++ s0 :: mid /\ 1000 <= 1200 - at_ms s0 /\
    Forall (asks example_classifier PState.Shedding) (s0 :: mid ++ [hot 1200]).
Proof.
  apply (pressure_sustained 900 700 1000 example_classifier [hot 0; hot 500]
           (MkClassifier 900 700 1000 PState.Normal (Some (PState.Shedding, 0)) (Some 500)) (hot 1200)
           (MkClassifier 900 700 1000 PState.Shedding None (Some 1200)));
    [reflexivity..|discriminate].
Defined.

Definition example_budget : MovementBudget := MkBudget 2 0 1000 0 0 2 0 0 0.

Lemma movement_bounded_witness :
  used (MkBudget 2 1 1000 0 0 2 0 0 0) = 1 /\ 1 <= 2.
Proof.
  destruct (movement_bounded 2 2 1000 example_budget
    (MkMovement (MkBudget 2 1 1000 0 0 2 0 0 0) [MkPermit false false])) as (H1 & H2 & _);
    [reflexivity..| |split; [exact H1|exact H2]].
  apply rtc_once. apply (move_start _ _ 5). reflexivity.
Defined.

(** A limit of two admits three completions in one window: a start is refused only
    once the completions already counted reach the limit, not for those still in
    flight. *)
Lemma movement_window_exceeds_limit :
  exists m, rtc movement_step (MkMovement example_budget []) m /\
    window_started_ms (budget m) = 0 /\ completed_in_window (budget m) = 3.
Proof.
  exists (MkMovement (MkBudget 2 0 1000 0 3 2 0 0 0) []). split; [|done].
  eapply rtc_l; [apply (move_start _ _ 5); reflexivity|].
  eapply rtc_l; [apply (move_start _ _ 5); reflexivity|].
  eapply rtc_l; [apply (move_complete _ [] _ _)|].
  eapply rtc_l; [apply (move_start _ _ 5); reflexivity|].
  eapply rtc_l; [apply (move_complete _ [] _ _)|].
  eapply rtc_l; [apply (move_complete _ [] _ _)|].
  apply rtc_refl.
Qed.
