(* ===== verification/Scheduler.v ===== *)
(** * Scheduler: scanner election, maintenance budgets and due times

    Models [crates/cellule-runtime/src/fleet/scheduler.rs] and the schema
    capabilities of [cell/schema_cache/mod.rs]. One Tick runs every maintenance
    class of the installed primitives under one budget of 128 items. The SQL of a
    class is a parameter: a function from its limit and the database to the items
    it processed and the new database; so is each deadline query. BLAKE3 is a
    parameter of the scanner election.

    The theorems: a Tick whose classes respect their limits completes for every
    set of installed tables, within its budget, and offers every class its fair
    share; the reported due time is the earliest stored deadline; the elected
    scanner does not depend on the order of the sessions and survives the loss of
    any other session. *)

From Stdlib Require Import ZArith Lia.
From Stdlib Require Import Strings.Byte.
From stdpp Require Import base gmap strings.
From stdpp Require Import list.
From S2P Require Import Prelude Identity Control Authority.

Local Open Scope bool_scope.
Local Infix "≟" := eqb_of (at level 70).
Local Notation "x ≠? y" := (negb (eqb_of x y)) (at level 70).

(*@ fleet/scheduler.rs 34-34 WORKFLOW_RETENTION_MS *)
Definition WORKFLOW_RETENTION_MS : Z := 30 * 24 * 60 * 60 * 1000.
(*@ fleet/scheduler.rs 35-35 MAX_TICK_ITEMS *)
Definition MAX_TICK_ITEMS : Z := 128.
(*@ fleet/scheduler.rs 36-36 CONTROL_BATCH *)
Definition CONTROL_BATCH : Z := 32.
(*@ fleet/scheduler.rs 39-39 BASE_MAINTENANCE_CLASSES *)
Definition BASE_MAINTENANCE_CLASSES : Z := 5.

(** ** Scanner liveness *)

(** What the scheduler reads of a [NodeAdvertisement]. *)
Record NodeAdvertisement := MkAdvertisement {
  advertised_session : SessionId;
  progress : Z;
  free_memory_bytes : Z;
  free_disk_bytes : Z;
  job_credits : Z
}.

(*@ fleet/scheduler.rs 42-45 ProgressObservation *)
Record ProgressObservation := MkProgress { observed_progress : Z; changed_at_ms : Z }.

(** The observations of a [SchedulerFleet]. *)
Abbreviation SchedulerFleet := (gmap SessionId ProgressObservation).

(** The loop over the nodes; observations made before an error stay recorded. *)
Fixpoint scan_nodes (nodes : list NodeAdvertisement) (now_ms stale_after_ms : Z)
    (obs : SchedulerFleet) (eligible : list SessionId)
  : SchedulerFleet * Result (list SessionId) :=
  match nodes with
  | [] => (obs, Ok eligible)
  | n :: nodes =>
      let entry := match obs !! advertised_session n with
                   | Some o => o
                   | None => MkProgress (progress n) now_ms
                   end in
      let obs := <[advertised_session n := entry]> obs in
      if progress n <? observed_progress entry
      then (obs, Err (Error.Control "scheduler progress regressed"))
      else
        let entry := if observed_progress entry <? progress n
                     then MkProgress (progress n) now_ms else entry in
        let obs := <[advertised_session n := entry]> obs in
        let eligible :=
          if (saturating_sub_i64 now_ms (changed_at_ms entry) <? stale_after_ms)
             && negb (free_memory_bytes n =? 0) && negb (free_disk_bytes n =? 0)
             && negb (job_credits n =? 0)
          then eligible ++ [advertised_session n] else eligible in
        scan_nodes nodes now_ms stale_after_ms obs eligible
  end.

(*@ fleet/scheduler.rs 55-99 SchedulerFleet::eligible_sessions *)
Definition eligible_sessions (obs : SchedulerFleet) (nodes : list NodeAdvertisement)
    (now_ms stale_after_ms : Z) : SchedulerFleet * Result (list SessionId) :=
  if (now_ms <? 0) || (stale_after_ms <=? 0)
  then (obs, Err (Error.Control "scheduler liveness interval is invalid"))
  else
    let live := map advertised_session nodes in
    scan_nodes nodes now_ms stale_after_ms
      (filter (fun kv => kv.1 ∈ live) obs) [].

(** ** Scanner election *)

Section Election.
Context (blake3 : list byte -> Digest).

Definition rendezvous_score (shard : byte) (s : SessionId) : Digest :=
  blake3 (text "crab.scheduler-rendezvous.v1" ++ [x00] ++ [shard] ++ as_bytes s).

Fixpoint elect (shard : byte) (nodes unique : list SessionId) (winner : option (Digest * SessionId))
  : Result (option SessionId) :=
  match nodes with
  | [] => Ok (snd <$> winner)
  | n :: nodes =>
      if bool_decide (n ∈ unique) then Err (Error.Control "duplicate scheduler node session")
      else
        let s := rendezvous_score shard n in
        let winner :=
          if is_none_or (fun w => match bytes_compare (as_bytes s) (as_bytes w.1) with
                                  | Gt => true | _ => false end) winner
          then Some (s, n) else winner in
        elect shard nodes (n :: unique) winner
  end.

(*@ fleet/scheduler.rs 199-219 preferred_scanner *)
Definition preferred_scanner (shard : byte) (nodes : list SessionId) : Result (option SessionId) :=
  elect shard nodes [] None.
End Election.

(** ** Due Cells *)

Record CatalogProof := MkProof { proof_cell : CellId }.

(*@ fleet/scheduler.rs 103-106 DueCell *)
Record DueCell := MkDue { due_catalog : CatalogProof; due_control : VersionedControl }.

Definition is_due (now_ms : Z) (v : VersionedControl) : bool :=
  is_some (root (value v))
  && is_some_and (fun deadline => deadline <=? now_ms) (next_due_ms (value v))
  && (state (value v) ≠? Tombstoned).

(** [load] answers a control read; the loop pops [count] proofs. *)
Fixpoint visit (load : CellId -> Result (option VersionedControl)) (now_ms : Z) (count : nat)
    (pending : list CatalogProof) (due : list DueCell)
  : list CatalogProof * Result (list DueCell) :=
  match count with
  | O => (pending, Ok due)
  | S count =>
      match pending with
      | [] => ([], Err (Error.Catalog "scheduler scan queue underflow"))
      | proof :: pending =>
          match load (proof_cell proof) with
          | Err e => (pending, Err e)
          | Ok None => visit load now_ms count pending due
          | Ok (Some control) =>
              if cell (value control) ≠? proof_cell proof
              then (pending, Err (Error.Control "catalog control changed Cell"))
              else visit load now_ms count pending
                     (if is_due now_ms control then due ++ [MkDue proof control] else due)
          end
      end
  end.

(** [page] is the next catalog page, consulted only when nothing is pending. *)
(*@ fleet/scheduler.rs 151-195 DueCellScan::next_batch_bounded *)
Definition next_batch_bounded (load : CellId -> Result (option VersionedControl))
    (page : Result (option (list CatalogProof))) (pending : list CatalogProof) (now_ms limit : Z)
  : list CatalogProof * Result (option (list DueCell)) :=
  if now_ms <? 0 then (pending, Err (Error.Command "negative scheduler scan time"))
  else if limit =? 0 then (pending, Err (Error.Command "scheduler scan limit is zero"))
  else
    match (match pending with [] => page | _ => Ok (Some pending) end) with
    | Err e => (pending, Err e)
    | Ok None => (pending, Ok None)
    | Ok (Some pending) =>
        let count := Z.min (Z.min (Z.of_nat (length pending)) CONTROL_BATCH) limit in
        let '(pending, r) := visit load now_ms (Z.to_nat count) pending [] in
        (pending, due ← r; Ok (Some due))
    end.

(** ** Installed tables *)

Definition KV_TABLE : string := "kv_entries".
Definition QUEUE_TABLE : string := "queue_messages".
Definition WORKFLOW_TABLE : string := "workflow_activities".
Definition BLOB_TABLE : string := "blob_uploads".
Definition CRON_TABLE : string := "cron_schedules".

(*@ cell/schema_cache/mod.rs 8-16 TABLES *)
Definition TABLES : list string :=
  [KV_TABLE; QUEUE_TABLE; WORKFLOW_TABLE; BLOB_TABLE; CRON_TABLE;
   "capacity_reservations"%string; "capacity_total"%string].

(** [iter().position(..)]. *)
Fixpoint position_of (name : string) (l : list string) : option Z :=
  match l with
  | [] => None
  | x :: l => if x ≟ name then Some 0 else (fun i => i + 1) <$> position_of name l
  end.

(*@ cell/schema_cache/mod.rs 20-22 SchemaCapabilities *)
Record SchemaCapabilities := MkCapabilities { installed : Z }.

(** [names] are the rows of the schema query. *)
(*@ cell/schema_cache/mod.rs 25-37 SchemaCapabilities::discover *)
Definition discover (names : list string) : SchemaCapabilities :=
  MkCapabilities (fold_left (fun acc name => match position_of name TABLES with
                                             | Some i => Z.lor acc (Z.shiftl 1 i)
                                             | None => acc
                                             end) names 0).

(*@ cell/schema_cache/mod.rs 39-44 SchemaCapabilities::contains *)
Definition contains (c : SchemaCapabilities) (table : string) : bool :=
  is_some_and (fun i => negb (Z.land (installed c) (Z.shiftl 1 i) =? 0)) (position_of table TABLES).

(*@ fleet/scheduler.rs 690-696 PRIMITIVE_TABLES *)
Definition PRIMITIVE_TABLES : list (string * Z) :=
  [(KV_TABLE, 1); (QUEUE_TABLE, 3); (WORKFLOW_TABLE, 4); (BLOB_TABLE, 1); (CRON_TABLE, 1)].

(*@ fleet/scheduler.rs 704-711 reserved_classes *)
Definition reserved_classes (tables : SchemaCapabilities) : Z :=
  BASE_MAINTENANCE_CLASSES
  + sum_by snd (List.filter (fun t => contains tables t.1) PRIMITIVE_TABLES).

(** ** The maintenance budget *)

(*@ fleet/scheduler.rs 455-459 MaintenanceBudget *)
Record MaintenanceBudget := MkMaintenance {
  remaining : Z;
  remaining_classes : Z;
  fair_share : Z
}.

(*@ fleet/scheduler.rs 462-471 MaintenanceBudget::new *)
Definition budget_new (classes : Z) : Result MaintenanceBudget :=
  if classes =? 0 then Err (Error.Command "scheduler has no maintenance classes")
  else Ok (MkMaintenance MAX_TICK_ITEMS classes (MAX_TICK_ITEMS / classes)).

Section Tick.
(** The open transaction with its effect batch. *)
Context {DB : Type}.
(** One class of maintenance: its limit, the database, the items it processed. *)
Local Abbreviation Operation := (Z -> DB -> Result (DB * Z)).

(** What a class may process when [classes] classes remain after it: unused work
    flows forward, every later class retains one share. *)
Definition class_limit (b : MaintenanceBudget) (classes : Z) : Z :=
  saturating_sub_u (remaining b) (fair_share b * classes).

(*@ fleet/scheduler.rs 473-492 MaintenanceBudget::run *)
Definition run_class (b : MaintenanceBudget) (db : DB) (op : Operation)
  : Result (MaintenanceBudget * DB) :=
  classes ← ok_or (checked_sub_u64 (remaining_classes b) 1)
                  (Error.Command "scheduler maintenance class mismatch");
  let limit := class_limit b classes in
  '(db, processed) ← op limit db;
  if limit <? processed then Err (Error.Command "scheduler maintenance class exceeded its budget")
  else
    rest ← ok_or (checked_sub_u64 (remaining b) processed)
                 (Error.Command "scheduler Tick exceeded 128 items");
    Ok (MkMaintenance rest classes (fair_share b), db).

(*@ fleet/scheduler.rs 494-510 MaintenanceBudget::fill *)
Definition fill_class (b : MaintenanceBudget) (db : DB) (op : Operation)
  : Result (MaintenanceBudget * DB) :=
  if remaining b =? 0 then Ok (b, db)
  else
    let limit := remaining b in
    '(db, processed) ← op limit db;
    if limit <? processed then Err (Error.Command "scheduler maintenance class exceeded its budget")
    else
      rest ← ok_or (checked_sub_u64 (remaining b) processed)
                   (Error.Command "scheduler Tick exceeded 128 items");
      Ok (MkMaintenance rest (remaining_classes b) (fair_share b), db).

(*@ fleet/scheduler.rs 512-514 MaintenanceBudget::processed *)
Definition processed (b : MaintenanceBudget) : Z := MAX_TICK_ITEMS - remaining b.

(*@ fleet/scheduler.rs 520-525 MaintenanceBudget::finish *)
Definition budget_finish (b : MaintenanceBudget) : Result unit :=
  if negb (remaining_classes b =? 0)
  then Err (Error.Command "scheduler maintenance class mismatch") else Ok tt.

(** The [while] loop of [repeat], [fuel] being the items it may still process. *)
Fixpoint repeat_loop (fuel : nat) (op : DB -> Result (DB * bool)) (db : DB) (n : Z)
  : Result (DB * Z) :=
  match fuel with
  | O => Ok (db, n)
  | S fuel =>
      '(db, more) ← op db;
      if more : bool then repeat_loop fuel op db (n + 1) else Ok (db, n)
  end.

(*@ fleet/scheduler.rs 528-534 repeat *)
Definition repeat_op (op : DB -> Result (DB * bool)) : Operation :=
  fun limit db => repeat_loop (Z.to_nat limit) op db 0.

(** The SQL of each class. *)
Record Maintenance := MkOps {
  requests_cleanup : Operation;
  inbox_cleanup : Operation;
  effects_cleanup : Operation;
  effects_expire : Operation;
  effects_reclaim : Operation;
  kv_cleanup : Operation;
  blob_cleanup : Operation;
  cron_fire : Operation;
  queue_cleanup : Operation;
  queue_expire : Operation;
  queue_reclaim : Operation;
  workflow_cleanup : Operation;
  workflow_fail_one : DB -> Result (DB * bool);
  workflow_reclaim : Operation;
  workflow_fire_one : DB -> Result (DB * bool)
}.

(** The [budget.run] calls of one Tick, in order. *)
(*@ fleet/scheduler.rs 274-361 scheduler_tick_at *)
Definition run_list (ops : Maintenance) (tables : SchemaCapabilities) : list Operation :=
  [requests_cleanup ops; inbox_cleanup ops; effects_cleanup ops; effects_expire ops;
   effects_reclaim ops]
  ++ (if contains tables KV_TABLE then [kv_cleanup ops] else [])
  ++ (if contains tables BLOB_TABLE then [blob_cleanup ops] else [])
  ++ (if contains tables CRON_TABLE then [cron_fire ops] else [])
  ++ (if contains tables QUEUE_TABLE then [queue_cleanup ops; queue_expire ops; queue_reclaim ops] else [])
  ++ (if contains tables WORKFLOW_TABLE then
        [workflow_cleanup ops; repeat_op (workflow_fail_one ops); workflow_reclaim ops;
         repeat_op (workflow_fire_one ops)] else []).

(** The [budget.fill] calls that follow. *)
(*@ fleet/scheduler.rs 363-447 scheduler_tick_at *)
Definition fill_list (ops : Maintenance) (tables : SchemaCapabilities) : list Operation :=
  [requests_cleanup ops; inbox_cleanup ops; effects_expire ops; effects_reclaim ops]
  ++ (if contains tables KV_TABLE then [kv_cleanup ops] else [])
  ++ (if contains tables BLOB_TABLE then [blob_cleanup ops] else [])
  ++ (if contains tables CRON_TABLE then [cron_fire ops] else [])
  ++ (if contains tables QUEUE_TABLE then [queue_expire ops; queue_reclaim ops] else [])
  ++ (if contains tables WORKFLOW_TABLE then
        [repeat_op (workflow_fail_one ops); workflow_reclaim ops;
         repeat_op (workflow_fire_one ops)] else []).

Fixpoint each (f : MaintenanceBudget -> DB -> Operation -> Result (MaintenanceBudget * DB))
    (ops : list Operation) (b : MaintenanceBudget) (db : DB) : Result (MaintenanceBudget * DB) :=
  match ops with
  | [] => Ok (b, db)
  | op :: ops => '(b, db) ← f b db op; each f ops b db
  end.

(** [schema] reads the names of the tables, [batch] opens the effect batch. *)
(*@ fleet/scheduler.rs 258-453 scheduler_tick_at *)
Definition scheduler_tick_at (ops : Maintenance) (schema : DB -> Result (list string))
    (batch : DB -> Result DB) (logical_time_ms : Z) (db : DB) : Result (DB * Z) :=
  if logical_time_ms <? 0 then Err (Error.Command "negative scheduler logical time")
  else
    names ← schema db;
    let tables := discover names in
    db ← batch db;
    b ← budget_new (reserved_classes tables);
    '(b, db) ← each run_class (run_list ops tables) b db;
    '(b, db) ← each fill_class (fill_list ops tables) b db;
    _ ← budget_finish b;
    if u32_max <? processed b then Err (Error.Command "scheduler Tick count overflow")
    else Ok (db, processed b).
End Tick.
Arguments Maintenance : clear implicits.

(** ** The next due time *)

(*@ fleet/scheduler.rs 731-738 merge_due *)
Definition merge_due (v logical_time_ms : Z) (next : option Z) : Result (option Z) :=
  if v <? 0 then Err (Error.Command "negative stored scheduler deadline")
  else
    let v := Z.max v logical_time_ms in
    Ok (Some (match next with None => v | Some current => Z.min current v end)).

(** A deadline query and its answer: [Ok None] when the table is empty. *)
Abbreviation Answer := (Result (option Z)).

(*@ fleet/scheduler.rs 713-723 include_minimum *)
Definition include_minimum (answer : Answer) (logical_time_ms : Z) (next : option Z)
  : Result (option Z) :=
  v ← answer;
  match v with
  | Some v => merge_due v logical_time_ms next
  | None => Ok next
  end.

(** The answers of the deadline queries, in the order of the code. *)
Record DueQueries := MkQueries {
  q_requests : Answer; q_inbox : Answer; q_effects_due : Answer;
  q_effects_lease : Answer; q_effects_expiry : Answer;
  q_kv : Answer;
  q_queue_exhausted : Result bool; q_queue_lease : Answer; q_queue_expiry : Answer;
  q_queue_dedup : Answer;
  q_activity_due : Answer; q_activity_lease : Answer; q_activity_expiry : Answer;
  q_timer : Answer; q_completed : Answer;
  q_blob : Answer;
  q_cron : Answer
}.

Fixpoint include_all (answers : list Answer) (logical_time_ms : Z) (next : option Z)
  : Result (option Z) :=
  match answers with
  | [] => Ok next
  | a :: answers => next ← include_minimum a logical_time_ms next; include_all answers logical_time_ms next
  end.

(** A present flag counts as a deadline at the logical time itself. *)
Definition exhausted_deadline (q : Result bool) (logical_time_ms : Z) : Answer :=
  b ← q; Ok (if b : bool then Some logical_time_ms else None).

(** A completed run is retained for thirty days. *)
Definition retention_deadline (q : Answer) : Answer :=
  c ← q;
  match c with
  | None => Ok None
  | Some at_ms =>
      d ← ok_or (checked_add_i64 at_ms WORKFLOW_RETENTION_MS)
                (Error.Command "workflow retention deadline overflow");
      Ok (Some d)
  end.

Definition due_answers (q : DueQueries) (tables : SchemaCapabilities) (now : Z) : list Answer :=
  [q_requests q; q_inbox q; q_effects_due q; q_effects_lease q; q_effects_expiry q]
  ++ (if contains tables KV_TABLE then [q_kv q] else [])
  ++ (if contains tables QUEUE_TABLE then
        [exhausted_deadline (q_queue_exhausted q) now; q_queue_lease q; q_queue_expiry q;
         q_queue_dedup q] else [])
  ++ (if contains tables WORKFLOW_TABLE then
        [q_activity_due q; q_activity_lease q; q_activity_expiry q; q_timer q;
         retention_deadline (q_completed q)] else [])
  ++ (if contains tables BLOB_TABLE then [q_blob q] else [])
  ++ (if contains tables CRON_TABLE then [q_cron q] else []).

(*@ fleet/scheduler.rs 551-681 scheduler_next_due_with_schema *)
Definition scheduler_next_due_with_schema (q : DueQueries) (logical_time_ms : Z)
    (tables : SchemaCapabilities) : Result (option Z) :=
  if logical_time_ms <? 0 then Err (Error.Command "negative scheduler logical time")
  else include_all (due_answers q tables logical_time_ms) logical_time_ms None.

(** * Theorems *)

(** ** The Tick *)

Section TickTheorems.
Context {DB : Type}.
Implicit Types (b : MaintenanceBudget) (db : DB) (op : Z -> DB -> Result (DB * Z)).

(** The databases the operations of a Tick work on. *)
Context (sound : DB -> Prop).

(** A class that, on a sound database and for a limit of 1 to 128 items, succeeds,
    processes at most its limit and leaves a sound database. Larger limits may be
    refused. *)
Definition respects_limit op : Prop :=
  forall limit db, sound db -> 1 <= limit <= MAX_TICK_ITEMS ->
    exists db' n, op limit db = Ok (db', n) /\ 0 <= n <= limit /\ sound db'.
(** A single-item operation that succeeds. *)
Definition succeeds (op : DB -> Result (DB * bool)) : Prop :=
  forall db, sound db -> exists db' more, op db = Ok (db', more) /\ sound db'.

(** What the primitives promise the scheduler while none of them fails. *)
Class LimitRespecting (ops : Maintenance DB) : Prop := {
  lr_requests_cleanup : respects_limit (requests_cleanup ops);
  lr_inbox_cleanup : respects_limit (inbox_cleanup ops);
  lr_effects_cleanup : respects_limit (effects_cleanup ops);
  lr_effects_expire : respects_limit (effects_expire ops);
  lr_effects_reclaim : respects_limit (effects_reclaim ops);
  lr_kv_cleanup : respects_limit (kv_cleanup ops);
  lr_blob_cleanup : respects_limit (blob_cleanup ops);
  lr_cron_fire : respects_limit (cron_fire ops);
  lr_queue_cleanup : respects_limit (queue_cleanup ops);
  lr_queue_expire : respects_limit (queue_expire ops);
  lr_queue_reclaim : respects_limit (queue_reclaim ops);
  lr_workflow_cleanup : respects_limit (workflow_cleanup ops);
  lr_workflow_fail_one : succeeds (workflow_fail_one ops);
  lr_workflow_reclaim : respects_limit (workflow_reclaim ops);
  lr_workflow_fire_one : succeeds (workflow_fire_one ops)
}.

Lemma repeat_loop_bounded fuel (op : DB -> Result (DB * bool)) db n :
  succeeds op -> sound db ->
  exists db' m, repeat_loop fuel op db n = Ok (db', m) /\ n <= m <= n + Z.of_nat fuel /\ sound db'.
Proof.
  intros Hop. revert db n. induction fuel as [|fuel IH]; intros db n Hdb; simpl.
  { exists db, n. split_and!; [done|lia..|done]. }
  destruct (Hop db Hdb) as (db' & [] & -> & Hdb'); simpl.
  - destruct (IH db' (n + 1) Hdb') as (db'' & m & -> & ? & ?). exists db'', m. split_and!; [done|lia..|done].
  - exists db', n. split_and!; [done|lia..|done].
Qed.
Lemma repeat_op_respects (op : DB -> Result (DB * bool)) : succeeds op -> respects_limit (repeat_op op).
Proof.
  intros Hop limit db Hdb Hl.
  destruct (repeat_loop_bounded (Z.to_nat limit) op db 0 Hop Hdb) as (db' & m & E & ? & ?).
  exists db', m. split_and!; [exact E|lia..|done].
Qed.

Hint Resolve lr_requests_cleanup lr_inbox_cleanup lr_effects_cleanup lr_effects_expire
  lr_effects_reclaim lr_kv_cleanup lr_blob_cleanup lr_cron_fire lr_queue_cleanup lr_queue_expire
  lr_queue_reclaim lr_workflow_cleanup lr_workflow_reclaim lr_workflow_fail_one
  lr_workflow_fire_one repeat_op_respects : cellule.

Lemma run_list_respects ops tables `{!LimitRespecting ops} :
  Forall respects_limit (run_list ops tables).
Proof.
  unfold run_list. rewrite !Forall_app.
  repeat split; repeat case_match; repeat constructor; eauto with cellule.
Qed.
Lemma fill_list_respects ops tables `{!LimitRespecting ops} :
  Forall respects_limit (fill_list ops tables).
Proof.
  unfold fill_list. rewrite !Forall_app.
  repeat split; repeat case_match; repeat constructor; eauto with cellule.
Qed.

(** The reserved classes are exactly the [run] calls. *)
Lemma run_list_length (ops : Maintenance DB) tables :
  Z.of_nat (length (run_list ops tables)) = reserved_classes tables.
Proof.
  unfold run_list, reserved_classes, PRIMITIVE_TABLES; simpl.
  destruct (contains tables KV_TABLE), (contains tables BLOB_TABLE),
    (contains tables CRON_TABLE), (contains tables QUEUE_TABLE),
    (contains tables WORKFLOW_TABLE); reflexivity.
Qed.
Lemma reserved_classes_bounds tables : 5 <= reserved_classes tables <= 15.
Proof.
  unfold reserved_classes, PRIMITIVE_TABLES; simpl.
  destruct (contains tables KV_TABLE), (contains tables BLOB_TABLE),
    (contains tables CRON_TABLE), (contains tables QUEUE_TABLE),
    (contains tables WORKFLOW_TABLE); vm_compute; split; discriminate.
Qed.

(** Every class still to run keeps its share. *)
Definition share_kept b : Prop :=
  0 <= fair_share b /\ 0 <= remaining_classes b /\ fair_share b * remaining_classes b <= remaining b.
Definition within_tick b : Prop := share_kept b /\ 1 <= fair_share b /\ remaining b <= MAX_TICK_ITEMS.

Lemma share_kept_limit b :
  share_kept b -> 0 < remaining_classes b ->
  class_limit b (remaining_classes b - 1)
    = remaining b - fair_share b * (remaining_classes b - 1)
  /\ fair_share b <= class_limit b (remaining_classes b - 1).
Proof. unfold share_kept, class_limit, saturating_sub_u. nia. Qed.

Lemma run_class_Ok b db op b' db' :
  share_kept b -> run_class b db op = Ok (b', db') ->
  share_kept b' /\ remaining_classes b' = remaining_classes b - 1 /\ fair_share b' = fair_share b.
Proof.
  intros Hs H. unfold run_class in H. apply bind_Ok in H as (c & Hc & H).
  apply ok_or_Ok, checked_sub_u64_Some in Hc as [-> Hc].
  apply bind_Ok in H as ([db1 n] & _ & H). apply reject_Ok in H as [Hn H].
  apply bind_Ok in H as (rest & Hr & [= <- <-]). apply ok_or_Ok, checked_sub_u64_Some in Hr as [-> Hr].
  guards_in Hn. destruct (share_kept_limit b Hs) as [E _]; [lia|]. rewrite E in Hn.
  unfold share_kept in *. simpl. repeat split; lia.
Qed.

Lemma run_class_succeeds b db op :
  within_tick b -> 0 < remaining_classes b -> respects_limit op -> sound db ->
  exists b' db', run_class b db op = Ok (b', db') /\ within_tick b'
    /\ remaining_classes b' = remaining_classes b - 1 /\ sound db'.
Proof.
  intros (Hs & Hfs & Hr) Hc Hop Hdb. destruct (share_kept_limit b Hs Hc) as [E Hl].
  destruct (Hop (class_limit b (remaining_classes b - 1)) db Hdb) as (db' & n & Hn & Hb & Hdb');
    [unfold share_kept in Hs; nia|].
  assert (run_class b db op
    = Ok (MkMaintenance (remaining b - n) (remaining_classes b - 1) (fair_share b), db')) as Hrun.
  { unfold run_class, checked_sub_u64. rewrite (proj2 (Z.leb_le 1 _)) by lia. simpl.
    rewrite Hn. simpl. rewrite (proj2 (Z.ltb_ge _ _)) by lia.
    rewrite (proj2 (Z.leb_le n _)) by (unfold share_kept in Hs; nia). done. }
  eexists _, _. split; [exact Hrun|]. destruct (run_class_Ok _ _ _ _ _ Hs Hrun) as (Hs' & Hc' & _).
  repeat split; try apply Hs'; simpl; lia || done.
Qed.

Lemma fill_class_succeeds b db op :
  within_tick b -> remaining_classes b = 0 -> respects_limit op -> sound db ->
  exists b' db', fill_class b db op = Ok (b', db') /\ within_tick b' /\ remaining_classes b' = 0 /\ sound db'.
Proof.
  intros (Hs & Hfs & Hr) Hc Hop Hdb. unfold fill_class. destruct (Z.eqb_spec (remaining b) 0) as [E|E].
  { exists b, db. by repeat split; try apply Hs. }
  unfold share_kept in Hs. destruct (Hop (remaining b) db Hdb) as (db' & n & -> & Hb & Hdb'); [nia|]. simpl.
  rewrite (proj2 (Z.ltb_ge _ _)) by lia. unfold checked_sub_u64.
  rewrite (proj2 (Z.leb_le n _)) by lia. simpl. eexists _, _. split; [done|].
  unfold within_tick, share_kept; simpl. rewrite Hc. repeat split; lia || done.
Qed.

Lemma each_run_succeeds l b db :
  Forall respects_limit l -> within_tick b -> remaining_classes b = Z.of_nat (length l) -> sound db ->
  exists b' db', each run_class l b db = Ok (b', db') /\ within_tick b' /\ remaining_classes b' = 0 /\ sound db'.
Proof.
  intros Hl. revert b db. induction Hl as [|op l Hop Hl IH]; intros b db Hb Hc Hdb; simpl in *.
  { exists b, db. by split_and!. }
  destruct (run_class_succeeds b db op) as (b' & db' & -> & Hb' & Hc' & Hdb'); [done|lia|done|done|].
  simpl. apply IH; [done|lia|done].
Qed.
Lemma each_fill_succeeds l b db :
  Forall respects_limit l -> within_tick b -> remaining_classes b = 0 -> sound db ->
  exists b' db', each fill_class l b db = Ok (b', db') /\ within_tick b' /\ remaining_classes b' = 0 /\ sound db'.
Proof.
  intros Hl. revert b db. induction Hl as [|op l Hop Hl IH]; intros b db Hb Hc Hdb; simpl in *.
  { exists b, db. by split_and!. }
  destruct (fill_class_succeeds b db op) as (b' & db' & -> & Hb' & Hc' & Hdb'); [done..|].
  simpl. by apply IH.
Qed.

Lemma each_run_Ok l b db b' db' :
  share_kept b -> each run_class l b db = Ok (b', db') ->
  share_kept b' /\ remaining_classes b' = remaining_classes b - Z.of_nat (length l)
  /\ fair_share b' = fair_share b.
Proof.
  revert b db. induction l as [|op l IH]; intros b db Hb H; simpl in *.
  { injection H as <- <-. repeat split; try apply Hb; lia. }
  apply bind_Ok in H as ([b1 db1] & H1 & H).
  destruct (run_class_Ok _ _ _ _ _ Hb H1) as (Hb1 & Hc1 & Hf1).
  destruct (IH _ _ Hb1 H) as (Hb' & Hc' & Hf'). repeat split; try apply Hb'; lia || congruence.
Qed.

Lemma budget_new_within tables :
  exists b, budget_new (reserved_classes tables) = Ok b /\ within_tick b
    /\ remaining_classes b = reserved_classes tables
    /\ fair_share b = MAX_TICK_ITEMS / reserved_classes tables.
Proof.
  pose proof (reserved_classes_bounds tables) as Hb. unfold budget_new.
  rewrite (proj2 (Z.eqb_neq _ _)) by lia. eexists. split; [done|].
  unfold within_tick, share_kept; simpl. split; [|done].
  assert (1 <= MAX_TICK_ITEMS / reserved_classes tables)
    by (apply Z.div_le_lower_bound; unfold MAX_TICK_ITEMS; lia).
  pose proof (Z.mul_div_le MAX_TICK_ITEMS (reserved_classes tables)) as H1.
  pose proof (Z.div_pos MAX_TICK_ITEMS (reserved_classes tables)) as H2.
  unfold MAX_TICK_ITEMS in *. repeat split; lia.
Qed.

(** C39: a Tick completes when its classes do. As long as every maintenance class
    succeeds on the databases at hand for limits of 1 to 128 items and processes no
    more than its limit, the Tick succeeds for every set of installed tables: the
    classes it reserves are the classes it runs, no class is ever given a limit out of
    that range, the Tick never exceeds its 128 items, and it never reports a class
    mismatch. *)
Theorem tick_completes (ops : Maintenance DB) schema batch logical_time_ms db names db1 :
  LimitRespecting ops -> 0 <= logical_time_ms ->
  schema db = Ok names -> batch db = Ok db1 -> sound db1 ->
  exists db' n, scheduler_tick_at ops schema batch logical_time_ms db = Ok (db', n)
    /\ 0 <= n <= MAX_TICK_ITEMS /\ sound db'.
Proof.
  intros Hops Ht Hs Hb Hdb1. unfold scheduler_tick_at. rewrite (proj2 (Z.ltb_ge _ _)) by lia.
  rewrite Hs; cbn [mbind result_bind]. rewrite Hb; cbn [mbind result_bind].
  set (tables := discover names).
  destruct (budget_new_within tables) as (b & -> & Hw & Hc & _); cbn [mbind result_bind].
  destruct (each_run_succeeds (run_list ops tables) b db1) as (b2 & db2 & -> & Hw2 & Hc2 & Hdb2);
    [by apply run_list_respects|done|by rewrite run_list_length|done|]. cbn [mbind result_bind].
  destruct (each_fill_succeeds (fill_list ops tables) b2 db2) as (b3 & db3 & -> & Hw3 & Hc3 & Hdb3);
    [by apply fill_list_respects|done..|]. cbn [mbind result_bind].
  unfold budget_finish. rewrite Hc3; cbn [negb Z.eqb mbind result_bind].
  unfold processed, within_tick, share_kept, MAX_TICK_ITEMS, u32_max in *.
  rewrite (proj2 (Z.ltb_ge _ _)) by lia. eexists _, _. split_and!; [done|lia..|done].
Qed.

(** However much the earlier classes of a Tick consume, a class is offered at
    least its fair share of the 128 items, which is never below eight. *)
Theorem class_fair_share (ops : Maintenance DB) tables b0 db pre op post b db' :
  budget_new (reserved_classes tables) = Ok b0 ->
  run_list ops tables = pre ++ op :: post ->
  each run_class pre b0 db = Ok (b, db') ->
  8 <= MAX_TICK_ITEMS / reserved_classes tables <= class_limit b (remaining_classes b - 1).
Proof.
  intros Hb0 Hl He. destruct (budget_new_within tables) as (b1 & E & (Hs & _) & Hc & Hf).
  rewrite Hb0 in E. injection E as <-.
  destruct (each_run_Ok _ _ _ _ _ Hs He) as (Hs' & Hc' & Hf').
  pose proof (run_list_length ops tables) as Hlen. rewrite Hl, length_app in Hlen. simpl in Hlen.
  destruct (share_kept_limit b Hs') as [_ Hlim]; [lia|].
  split; [|by rewrite <- Hf, <- Hf'].
  pose proof (reserved_classes_bounds tables). apply Z.div_le_lower_bound; unfold MAX_TICK_ITEMS; lia.
Qed.
End TickTheorems.

(** A concrete set of classes over a counter of due items: each takes what it may and
    refuses a limit above 128. *)
Definition drain_op : Z -> Z -> Result (Z * Z) :=
  fun limit db =>
    if 128 <? limit then Err (Error.Command "limit exceeds the maximum")
    else let n := Z.min limit db in Ok (db - n, n).
Definition drain_one : Z -> Result (Z * bool) :=
  fun db => if 0 <? db then Ok (db - 1, true) else Ok (db, false).
Definition drain_ops : Maintenance Z :=
  MkOps drain_op drain_op drain_op drain_op drain_op drain_op drain_op drain_op drain_op
    drain_op drain_op drain_op drain_one drain_op drain_one.
#[export] Instance drain_ops_respect : LimitRespecting (fun db => 0 <= db) drain_ops.
Proof.
  assert (respects_limit (fun db => 0 <= db) drain_op) as H.
  { intros limit db Hdb Hl. unfold drain_op, MAX_TICK_ITEMS in *. rewrite (proj2 (Z.ltb_ge _ _)) by lia.
    eexists _, _. split_and!; [done|lia..]. }
  assert (succeeds (fun db => 0 <= db) drain_one) as H1.
  { intros db Hdb. unfold drain_one. destruct (Z.ltb_spec 0 db); eexists _, _; split; [done|lia|done|lia]. }
  by constructor.
Qed.
Definition all_tables : list string :=
  [KV_TABLE; QUEUE_TABLE; WORKFLOW_TABLE; BLOB_TABLE; CRON_TABLE].

(** A backlog of 1000 items with every primitive installed: the Tick stops at 128. *)
Lemma tick_completes_witness :
  LimitRespecting (fun db => 0 <= db) drain_ops /\
  (exists db' n, scheduler_tick_at drain_ops (fun _ => Ok all_tables) (fun db => Ok db) 0 1000
     = Ok (db', n) /\ 0 <= n <= MAX_TICK_ITEMS /\ 0 <= db') /\
  scheduler_tick_at drain_ops (fun _ => Ok all_tables) (fun db => Ok db) 0 1000 = Ok (872, 128).
Proof.
  split; [exact drain_ops_respect|split; [|vm_compute; reflexivity]].
  apply (tick_completes (fun db => 0 <= db) drain_ops (fun _ => Ok all_tables) (fun db => Ok db) 0 1000 all_tables 1000);
    [exact drain_ops_respect|lia|reflexivity|reflexivity|lia].
Defined.

(** After three classes that used all they were offered, the fourth still gets its share. *)
Lemma class_fair_share_witness :
  exists b, each run_class [drain_op; drain_op; drain_op] (MkMaintenance 128 15 8) 1000
              = Ok (b, 968) /\ 8 <= class_limit b (remaining_classes b - 1).
Proof.
  exists (MkMaintenance 96 12 8). split; [vm_compute; reflexivity|].
  pose proof (class_fair_share drain_ops (discover all_tables) (MkMaintenance 128 15 8) 1000
    [drain_op; drain_op; drain_op] drain_op (repeat drain_op 8 ++ [repeat_op drain_one; drain_op; repeat_op drain_one])
    (MkMaintenance 96 12 8) 968) as H.
  lapply H; [|vm_compute; reflexivity]. clear H. intros H.
  lapply H; [|reflexivity]. clear H. intros H.
  lapply H; [|vm_compute; reflexivity]. intros [H1 H2]. lia.
Defined.

(** ** Due times *)

(** A deadline query that answered, with a stored deadline that is not negative. *)
Definition readable (a : Answer) : Prop :=
  exists d, a = Ok d /\ forall v, d = Some v -> 0 <= v.

(** [next] is the earliest stored deadline, none before the logical time. *)
Definition earliest (now : Z) (answers : list Answer) (next : option Z) : Prop :=
  match next with
  | None => forall d, ~ (Ok (Some d) : Answer) ∈ answers
  | Some v =>
      (exists d, (Ok (Some d) : Answer) ∈ answers /\ v = Z.max d now) /\
      forall d, (Ok (Some d) : Answer) ∈ answers -> v <= Z.max d now
  end.

Lemma earliest_unique now answers n1 n2 :
  earliest now answers n1 -> earliest now answers n2 -> n1 = n2.
Proof.
  destruct n1 as [v1|], n2 as [v2|]; simpl; [|naive_solver..].
  intros [(d1 & H1 & E1) L1] [(d2 & H2 & E2) L2].
  pose proof (L1 _ H2). pose proof (L2 _ H1). f_equal; lia.
Qed.

Lemma include_minimum_Ok a now next r :
  include_minimum a now next = Ok r <->
  readable a /\ r = match a with
                    | Ok (Some d) => Some (match next with
                                           | None => Z.max d now
                                           | Some c => Z.min c (Z.max d now) end)
                    | _ => next end.
Proof.
  unfold include_minimum, merge_due, readable. destruct a as [[d|]|e]; simpl.
  - destruct (Z.ltb_spec d 0) as [Hd|Hd].
    + split; [done|]. intros [(d' & [= <-] & H) _]. specialize (H d eq_refl). lia.
    + split; [intros [= <-]; split; [exists (Some d); naive_solver|done]|by intros [_ ->]].
  - split; [intros [= <-]; split; [by exists None|done]|by intros [_ ->]].
  - split; [done|]. by intros [(d & ? & _) _].
Qed.

Lemma earliest_snoc now l next a :
  readable a -> earliest now l next ->
  earliest now (l ++ [a]) match a with
                    | Ok (Some d) => Some (match next with
                                           | None => Z.max d now
                                           | Some c => Z.min c (Z.max d now) end)
                    | _ => next end.
Proof.
  intros (v & -> & _) He. destruct v as [v|]; simpl.
  - destruct next as [c|]; simpl in *.
    + destruct He as [(d & Hd & Hc) Hm]. split.
      * destruct (Z.min_spec c (Z.max v now)) as [[_ ->]|[_ ->]];
          [exists d|exists v]; split; try done; apply elem_of_app; [by left|right; by left].
      * intros d' [Hd'%Hm|[= ->]%list_elem_of_singleton]%elem_of_app; lia.
    + split; [exists v; split; [apply elem_of_app; right; by left|done]|].
      intros d [Hd%He|[= ->]%list_elem_of_singleton]%elem_of_app; [done|lia].
  - assert (forall d, (Ok (Some d) : Answer) ∈ l ++ [Ok None] <-> (Ok (Some d) : Answer) ∈ l) as E
      by (intros d; rewrite elem_of_app, list_elem_of_singleton; naive_solver).
    destruct next as [c|]; simpl in *.
    + destruct He as [(d & Hd & Hc) Hm]. split; [exists d; by rewrite E|].
      intros d'. rewrite E. apply Hm.
    + intros d. rewrite E. apply He.
Qed.

Lemma include_all_earliest l l0 now next r :
  earliest now l0 next -> include_all l now next = Ok r ->
  Forall readable l /\ earliest now (l0 ++ l) r.
Proof.
  revert l0 next. induction l as [|a l IH]; intros l0 next He H; simpl in *.
  { injection H as <-. by rewrite app_nil_r. }
  apply bind_Ok in H as (n1 & H1 & H). apply include_minimum_Ok in H1 as [Ha ->].
  apply (IH (l0 ++ [a])) in H as [Hl Hr]; [|by apply earliest_snoc].
  rewrite <- app_assoc in Hr. split; [by constructor|done].
Qed.
Lemma include_all_readable l now next :
  Forall readable l -> exists r, include_all l now next = Ok r.
Proof.
  intros Hl. revert next. induction Hl as [|a l Ha Hl IH]; intros next; simpl; [eauto|].
  rewrite (proj2 (include_minimum_Ok a now next _) (conj Ha eq_refl)). apply IH.
Qed.

(** The due time reported after a command is exactly the earliest stored
    deadline of the installed primitives, never before the command's logical time:
    it is computed if and only if every query answered with a deadline that is not
    negative, it is absent if and only if nothing is stored, and no deadline of any
    class is earlier. *)
Theorem next_due_earliest q now tables next :
  scheduler_next_due_with_schema q now tables = Ok next <->
  0 <= now /\ Forall readable (due_answers q tables now)
  /\ earliest now (due_answers q tables now) next.
Proof.
  unfold scheduler_next_due_with_schema. set (l := due_answers q tables now).
  assert (earliest now [] None) as H0 by (intros d ?%not_elem_of_nil; done).
  rewrite reject_Ok, Z.ltb_ge. split; intros [Hn H]; (split; [done|]).
  - by apply (include_all_earliest l []) in H.
  - destruct H as [Hr He]. destruct (include_all_readable l now None Hr) as [r Hr'].
    destruct (include_all_earliest l [] now None r H0 Hr') as [_ Hr''].
    by rewrite Hr', (earliest_unique now l r next Hr'' He).
Qed.

(** ** Scanner election *)

Section ElectionTheorems.
Context (blake3 : list byte -> Digest) (shard : byte).
Local Abbreviation score s := (as_bytes (rendezvous_score blake3 shard s)).
Local Abbreviation score_le x y := (bytes_compare (score x) (score y) <> Gt).

Lemma score_preorder :
  cmp_preorder (fun x y : SessionId => bytes_compare (score x) (score y)) (fun _ => True).
Proof. exact (cmp_preorder_bytes (fun s : SessionId => score s) _). Qed.
Lemma score_le_trans x y z : score_le x y -> score_le y z -> score_le x z.
Proof. by apply (cmp_trans _ _ score_preorder). Qed.
Lemma score_le_flip x y : bytes_compare (score x) (score y) = Gt -> score_le y x.
Proof. intros E. by rewrite bytes_compare_antisym, E. Qed.
Lemma score_le_refl x : score_le x x.
Proof. by rewrite (proj2 (bytes_compare_eq _ _) eq_refl). Qed.

(** The running winner has the greatest score of the sessions seen so far. *)
Lemma elect_best nodes unique w :
  NoDup nodes -> (forall x, x ∈ nodes -> (x ∉ unique)) ->
  exists r, elect blake3 shard nodes unique (Some (rendezvous_score blake3 shard w, w)) = Ok (Some r)
    /\ r ∈ w :: nodes /\ forall x, x ∈ w :: nodes -> score_le x r.
Proof.
  revert unique w. induction nodes as [|n nodes IH]; intros unique w Hnd Hu; simpl.
  { exists w. split; [done|]. split; [left|]. intros x ->%list_elem_of_singleton. apply score_le_refl. }
  apply NoDup_cons in Hnd as [Hn Hnd].
  rewrite bool_decide_eq_false_2 by (apply Hu; left).
  assert (forall x, x ∈ nodes -> (x ∉ n :: unique)) as Hu'.
  { intros x Hx [->|Hx']%elem_of_cons; [done|]. by apply (Hu x); [right|]. }
  (* The winner kept for the rest, and the session it beat. *)
  assert (exists k, (k = w \/ k = n) /\ score_le n k /\ score_le w k
    /\ (if match bytes_compare (score n) (score w) with Gt => true | _ => false end
        then Some (rendezvous_score blake3 shard n, n)
        else Some (rendezvous_score blake3 shard w, w)) = Some (rendezvous_score blake3 shard k, k))
    as (k & Hk & Hnk & Hwk & ->).
  { destruct (bytes_compare (score n) (score w)) eqn:E;
      [exists w; rewrite E..|exists n]; repeat split; auto using score_le_refl, score_le_flip. }
  destruct (IH (n :: unique) k Hnd Hu') as (r & -> & Hr & Hm).
  exists r. split; [done|]. assert (score_le k r) by (apply Hm; left). split.
  - apply elem_of_cons in Hr as [->|Hr]; [|by do 2 right].
    destruct Hk as [->| ->]; [left|right; left].
  - intros x [->|[->|Hx]%elem_of_cons]%elem_of_cons; [eauto using score_le_trans..|].
    apply Hm. by right.
Qed.

Lemma preferred_best nodes :
  NoDup nodes -> nodes <> [] ->
  exists w, preferred_scanner blake3 shard nodes = Ok (Some w) /\ w ∈ nodes
    /\ forall x, x ∈ nodes -> score_le x w.
Proof.
  destruct nodes as [|n nodes]; [done|]. intros [Hn Hnd]%NoDup_cons _.
  unfold preferred_scanner; cbn [elect is_none_or].
  rewrite bool_decide_eq_false_2 by apply not_elem_of_nil.
  apply elect_best; [done|]. intros x Hx ->%list_elem_of_singleton. done.
Qed.

Lemma elect_duplicate nodes unique w :
  NoDup unique -> ~ NoDup (nodes ++ unique) ->
  elect blake3 shard nodes unique w = Err (Error.Control "duplicate scheduler node session").
Proof.
  revert unique w. induction nodes as [|n nodes IH]; intros unique w Hu Hd; simpl in *; [done|].
  case_bool_decide as Hn; [done|]. apply IH; [by constructor|].
  rewrite <- Permutation_middle. exact Hd.
Qed.

(** Scanner election by rendezvous score. Distinct live sessions with distinct
    scores always elect one of them, and the election is stable: whatever order the
    sessions are listed in and whichever other sessions leave, the same scanner is
    elected as long as it is live. A listing that repeats a session is refused. *)
Theorem scanner_rendezvous nodes :
  nodes <> [] ->
  (forall a b, a ∈ nodes -> b ∈ nodes ->
     rendezvous_score blake3 shard a = rendezvous_score blake3 shard b -> a = b) ->
  (NoDup nodes ->
   exists w, w ∈ nodes /\ forall survivors, NoDup survivors -> survivors ⊆ nodes ->
     w ∈ survivors -> preferred_scanner blake3 shard survivors = Ok (Some w)) /\
  (~ NoDup nodes -> preferred_scanner blake3 shard nodes
                    = Err (Error.Control "duplicate scheduler node session")).
Proof.
  intros Hne Hinj. split.
  - intros Hnd. destruct (preferred_best nodes Hnd Hne) as (w & _ & Hw & Hmax).
    exists w. split; [done|]. intros l Hl Hsub Hwl.
    destruct (preferred_best l Hl) as (w' & -> & Hw' & Hmax'); [by intros ->; apply not_elem_of_nil in Hwl|].
    do 2 f_equal. apply Hinj; [by apply Hsub|done|]. apply array_eq, bytes_compare_eq.
    specialize (Hmax w' (Hsub _ Hw')). specialize (Hmax' w Hwl).
    rewrite bytes_compare_antisym in Hmax'.
    by destruct (bytes_compare (score w') (score w)).
  - intros Hd. apply elect_duplicate; [constructor|by rewrite app_nil_r].
Qed.
End ElectionTheorems.

(** A hash for the witness: the last byte of its input, repeated. *)
Definition last_byte_hash (l : list byte) : Digest := array_fill 32 (List.last l x00).
Lemma scanner_rendezvous_witness :
  exists w, w ∈ [array_fill 16 x01; array_fill 16 x03; array_fill 16 x02] /\
    preferred_scanner last_byte_hash x00 [array_fill 16 x02; w] = Ok (Some w).
Proof.
  destruct (scanner_rendezvous last_byte_hash x00
    [array_fill 16 x01; array_fill 16 x03; array_fill 16 x02]) as [H _].
  - discriminate.
  - intros a b Ha Hb E. apply (f_equal as_bytes) in E.
    repeat (apply elem_of_cons in Ha as [->|Ha]); [..|by apply not_elem_of_nil in Ha];
    (repeat (apply elem_of_cons in Hb as [->|Hb]); [..|by apply not_elem_of_nil in Hb]);
      (reflexivity || (vm_compute in E; discriminate E)).
  - destruct H as (w & Hw & H).
    { apply (bool_decide_eq_true_1 _). vm_compute. reflexivity. }
    assert (w = array_fill 16 x03) as ->.
    { specialize (H [array_fill 16 x01; array_fill 16 x03; array_fill 16 x02]).
      assert (preferred_scanner last_byte_hash x00
        [array_fill 16 x01; array_fill 16 x03; array_fill 16 x02] = Ok (Some w)) as E.
      { apply H; [|done|done]. apply (bool_decide_eq_true_1 _). vm_compute. reflexivity. }
      cut (as_bytes w = as_bytes (array_fill 16 x03)); [apply array_eq|].
      apply (f_equal (fun r => match r with Ok (Some s) => as_bytes s | _ => [] end)) in E.
      vm_compute in E. vm_compute. by symmetry. }
    exists (array_fill 16 x03). split; [done|]. apply H.
    + apply (bool_decide_eq_true_1 _). vm_compute. reflexivity.
    + set_solver.
    + set_solver.
Defined.

(** ** The due scan *)

(** A visited proof is reported exactly when its control record is due. *)
Definition reported (load : CellId -> Result (option VersionedControl)) (now_ms : Z) (p : CatalogProof)
  : option DueCell :=
  match load (proof_cell p) with
  | Ok (Some c) => if is_due now_ms c then Some (MkDue p c) else None
  | _ => None
  end.

Lemma visit_Ok load now n pending due rest due' :
  (n <= length pending)%nat -> visit load now n pending due = (rest, Ok due') ->
  rest = drop n pending /\ due' = due ++ omap (reported load now) (take n pending).
Proof.
  revert pending due. induction n as [|n IH]; intros pending due Hn H; simpl in *.
  { injection H as <- <-. split; [done|]. by rewrite app_nil_r. }
  destruct pending as [|p pending]; simpl in *; [lia|].
  unfold reported at 1. destruct (load (proof_cell p)) as [[c|]|e]; [..|done].
  - destruct (negb _); [done|]. apply IH in H as [-> ->]; [|lia]. split; [done|].
    destruct (is_due now c); [by rewrite <- app_assoc|done].
  - by apply IH in H as [-> ->]; [|lia].
Qed.

(** A batch visits the next proofs in order, at most 32 and at most [limit], reports
    the due ones among them and leaves the others for the next batch. *)
Theorem scan_batch_exact load page pending now limit rest due :
  next_batch_bounded load page pending now limit = (rest, Ok (Some due)) -> 0 <= limit ->
  exists queue visited,
    (queue = pending \/ pending = [] /\ page = Ok (Some queue)) /\
    queue = visited ++ rest /\ Z.of_nat (length visited) <= Z.min CONTROL_BATCH limit /\
    (visited = [] -> queue = []) /\ due = omap (reported load now) visited.
Proof.
  intros H Hl. unfold next_batch_bounded in H.
  destruct (now <? 0); [done|]. destruct (Z.eqb_spec limit 0) as [|Hz]; [done|].
  destruct (match pending with [] => page | _ => Ok (Some pending) end) as [[queue|]|e] eqn:E; [..|done|done].
  set (n := Z.to_nat _) in H.
  assert (n <= length queue)%nat as Hn by (subst n; lia).
  destruct (visit load now n queue []) as [rest' [due'|e]] eqn:Ev; [|done].
  injection H as -> ->. apply visit_Ok in Ev as [-> ->]; [|done].
  exists queue, (take n queue). repeat split.
  - destruct pending; naive_solver.
  - by rewrite take_drop.
  - rewrite length_take_le by done. subst n. unfold CONTROL_BATCH. lia.
  - intros Ht. apply (f_equal length) in Ht. rewrite length_take_le in Ht by done.
    destruct queue; [done|]. subst n. unfold CONTROL_BATCH in Ht. simpl in Ht. lia.
Qed.
